(* ===== verification/_CoqProject ===== *)
-Q . S2P
Prelude.v
Buffers.v
VhdFormat.v
ZeroFilter.v
StructFu.v
VhdStructs.v
VhdFile.v
VhdLayout.v
VhdBlocks.v
VhdHeaders.v
VhdResize.v
Merge.v
VhdReader.v
VhdChain.v
JsValues.v
VhdDirectory.v
VhdStream.v
VhdStreamParser.v
VhdStreamLength.v
ComplexMatcher.v
SearchRoundtrip.v
SearchParser.v
Indexes.v
Collection.v
Retention.v
AclResolver.v
Acls.v
Cron.v
CronJob.v
Paths.v
DiskLineage.v
LineageClean.v
BackupDirectory.v
ResourceSets.v
IpPools.v
AuditLog.v
Tasks.v
Visibility.v
Journal.v
JournalEvents.v
BackupsCache.v
Database.v
CryptoCredentials.v
Subjects.v
SubjectModels.v
