(* ===== verification/Prelude.v ===== *)
(** * Xen Orchestra: verification library

    Xen Orchestra manages and backs up XCP-ng and XenServer pools.  This library
    models the parts of it whose correctness matters most for the data of its users
    and that are self-contained programs: the VHD images that hold the backups
    (packages/vhd-lib), in files and in directories, the choice of the backups to
    delete (@xen-orchestra/backups), the clean up of the directories that hold them
    (@xen-orchestra/backup-archive), and the journal by which the server follows them;
    the permissions of the users (xo-acl-resolver and what xo-server makes of it) and
    their quotas (the resource sets and the IP pools of xo-server), and the log of what
    they did (@xen-orchestra/audit-core); the accounts of the server and the database
    that keeps them, with its encryption; the schedules of the jobs
    (@xen-orchestra/cron); and libraries that the server and the interface share: the
    tasks (@vates/task), the search syntax (packages/complex-matcher) and the observable
    collections (packages/xo-collection).
    All paths are under [src/].

    ** Conventions

    A JavaScript function is a Rocq function of the same name.  A function that
    throws returns a [result]; one that changes an object is a computation of the
    monad [M S] over the state of the object ([Prelude.v]), in which what was done
    before an exception stays done.  An [await] is a plain sequence, except in
    [Merge.v], [CronJob.v], [Visibility.v] and [BackupsCache.v] where what happens between
    the steps matters.  Buffers are lists of
    bytes in [Z] ([Buffers.v]); texts are lists of code units below 256, numbers are
    IEEE doubles ([JsValues.v]); the objects used as maps are [gmap]s.  Loops that
    are not structural have fuel, and an explicit error when it runs out; theorems
    state that the fuel given by the callers is enough.

    ** The files

    - [Prelude.v]: errors, the monads, [returns], sums over maps, integer ranges.
    - [Buffers.v]: [Buffer] of Node: reads, writes, slices, copies, big endian.
    - [VhdFormat.v]: packages/vhd-lib/_constants.js, Vhd/_utils.js, _bitmap.js,
      _computeGeometryForSize.js, _getFirstAndLastBlocks.js.
    - [ZeroFilter.v]: Vhd/_zeroFilter.js, the chunks without their zero pages.
    - [StructFu.v], [VhdStructs.v]: _structs.js (the fields of the footer and of the
      header, through an interface to the package struct-fu and a packing that
      satisfies it), checksums, _checkFooter.js, _checkHeader.js,
      _createFooterHeader.js.
    - [VhdFile.v]: Vhd/VhdFile.js, every operation, over the content of the file.
    - [VhdLayout.v], [VhdBlocks.v], [VhdHeaders.v], [VhdResize.v]: its properties.
      [wf] says that the blocks of a file do not overlap each other, the headers,
      nor the end of the file; [disk] is the finite map of its blocks.  Writing a
      block is an insertion in the map, what is written is found again when the file
      is opened, the table can grow without loss, in the cases that are covered, and
      concrete files show the others.
    - [VhdReader.v], [VhdChain.v]: the interface [VhdReader] of a readable VHD (with
      its laws), Vhd/VhdAbstract.js over it (raw content, comparison, [mergeBlock]),
      Vhd/VhdSynthetic.js (a chain) and Vhd/VhdNegative.js (a reversed
      difference), which are readable VHDs again.
    - [Merge.v]: merge.js: the merge of the blocks as a transition system, with
      concurrent blocks, the state file, the growth of the table of the parent, and
      crashes at any point.  The invariant shows that no block is lost when that growth
      adds no entry and destroys no block ([harmless], under the conditions of
      [VhdResize.v]), and that the merge ends; concrete runs show what a growth that does
      otherwise leaves ([growth_harms]), and that the merge fails for the two modes with
      directories.
    - [VhdDirectory.v]: Vhd/VhdDirectory.js over the files of a handler (fs/src/abstract.js),
      with compressed chunks: what is written is read again, and a merge moves the
      blocks of the child.  It is another instance of [VhdReader].
    - [VhdStream.v], [VhdStreamParser.v], [VhdStreamLength.v]: the stream of a VHD
      (VhdAbstract.stream), its parser (parseVhdStream.js) and the computation of its
      length (createVhdStreamWithLength.js), over the interface [VhdStreamable] of the
      VHDs with parent locators: what is sent is received, with the right length, and with
      the parent locators when the position that the stream gives them does not matter to
      how they are read ([keeps_locators]).
    - [JsValues.v]: texts and their order, numbers ([+string], [String(number)]), values,
      the members of [Object.prototype].
    - [ComplexMatcher.v]: packages/complex-matcher/index.js; [SearchRoundtrip.v]: a
      search is printed to a text that is parsed as the same search;
      [SearchParser.v]: the parser always ends, what it makes is printed and parsed
      back, and the clauses of a search can be replaced.
    - [Indexes.v], [Collection.v]: packages/xo-collection: the events of a
      collection are merged without loss, for any listener that satisfies
      [ListenerLaws], is created when no change waits for a flush, and does not change the
      collection during one; an index groups the items by type and a view has the items
      that its predicate selects (both are instances).
    - [Retention.v]: backups/_getOldEntries.mjs: the entries to delete are those that
      neither the number to keep nor a bucket of the long term retention protects.
    - [AclResolver.v]: packages/xo-acl-resolver: the checks end on the objects of a
      pool and decide an inductive specification of what is granted.  [Acls.v]: the
      permissions of a user from its lists and groups (xo-mixins/acls.mjs) and the
      objects that a user sees.
    - [Visibility.v]: xo-mixins/object-visibility.mjs as a transition system: what is
      kept of a user was read after its last invalidation, and a push is missed when
      it is computed between a change and its invalidation.
    - [Cron.v], [CronJob.v]: @xen-orchestra/cron: the patterns are parsed to valid
      schedules (the names of the properties of every object are not patterns), every
      schedule has a pattern; a job as a transition system over
      timers, promises and the calls of its function.
    - [Paths.v]: fs/src/path.js, the paths of a remote.
    - [DiskLineage.v], [LineageClean.v]: backup-archive/src/RemoteDiskLineage.mts and
      disks/MergeRemoteDisk.mjs: the scan of the disks of a VDI finds those that can be
      read with all their ancestors; the clean up deletes exactly the disks that no
      used one reads through, and merges the others, when each disk has one child at most
      and a uuid of its own.  Three directories show what a second child, a second disk
      with the same uuid and an interrupted rename do to it.
    - [BackupDirectory.v]: VmBackupDirectory.mts and the two kinds of archives
      (VmFullBackupArchive.mts, VmIncrementalBackupArchive.mts) over the lineages:
      under the same conditions, and when no metadata is null, cleanVm keeps each complete
      backup whole, full (its XVA) or incremental (its disks and those that they read
      through).  Its cache of archives follows.
    - [Journal.v]: backups/_backupJournal.mjs: a read of the journal of a repository
      returns what comes after the cursor, and a reader gets each entry once, in order,
      unless it is written behind its cursor.  [JournalEvents.v]: what became of each
      backup (readBackupJournalEvents of RemoteAdapter.mjs, formatVmBackups.mjs, and
      _vmBackupsSource.mjs of xo-server): no event is lost.
    - [BackupsCache.v]: xo-mixins/backups-ng/_vmBackupsCache.mjs as a transition system,
      with shared objects: the listeners follow what it holds, and what it serves was
      read after the last refresh, when the answers come in time and the journal reports
      every change.  Two runs show what an answer that comes after the
      cache was told to forget a repository does to it.
    - [Database.v]: collection.mjs and collection/redis.mjs of xo-server, over the
      interface [Redis]: a collection is a map of models, whose indexes follow it, for the
      classes that read what they index as it is stored, and can be made again from
      anything; the tokens, whose class rewrites a member that it indexes, keep old
      entries ([old_client_still_indexed]).  [CryptoCredentials.v]:
      xo-mixins/crypto-credentials.mjs, an instance of what the collections ask of the
      encryption: switching it on keeps the models.
    - [Subjects.v]: xo-mixins/subjects.mjs, against the interface [Store]: users and
      groups stay consistent, except that a user created with a password and a provider
      has both ([both_given]), and a sign in through a provider gives the user bound to
      it.  [SubjectModels.v]: models/user.mjs and models/group.mjs: the records of users
      and groups, and the two collections as an instance of [Store].
    - [ResourceSets.v]: xo-mixins/resource-sets.mjs: the usage of a set is that of its
      VMs, also when a move fails and is undone ([onFailure]), unless undoing fails too
      ([failed_undo_miscounts]); no limit is exceeded
      without force; counting again restores the usage from any state.
    - [IpPools.v]: xo-mixins/ip-pools.mjs, against the interface [Quotas], of which the
      resource sets are an instance: the usage of a pool is the number of its addresses
      in use, and deleting it takes exactly its addresses from the VIFs.
    - [AuditLog.v]: @xen-orchestra/audit-core: the lock of the storage, the chain of the
      records, whose tampering is detected or exhibits a collision of the hash, except in
      the nested members named [id], that are not hashed, and the removal of a range.
    - [Tasks.v]: @vates/task: the operations on tasks, from which the events of each
      come in order, and the logs that combineEvents.js makes of them.

    ** Bounds and fuel

    The loops on pages, blocks and table entries have as much fuel as there are of
    them ([ZeroFilter], [VhdFormat], [VhdFile]); [_freeFirstBlockSpace] needs a
    sector less at each call; the parser has one more than the length of its input,
    since each nested term starts after the position of the term it is in
    ([SearchParser.parse_ends]); [num_to_string] looks for at most 17 digits, which
    determine a double; the checks of permissions need nine nested calls on the objects
    of a pool, of which the references go one way; a range of a pattern has an iteration
    for each of its values unless its step is zero, and a list of ranges one for each
    comma.  The walks along the disks of a lineage need a call more than there are
    disks with a child: each call visits a disk that was not visited
    ([propagateBroken_ok], [walk_ok], [pin_from_ok]).  The check of the audit log needs a
    step for each record, unless the records are in a circle; the abortion of a task one
    for each task, since subtasks are created after their parent ([abort_ends]).  The name
    of the backup of a migration is found after as many attempts as there are files.

    ** Not modelled

    Input and output proper (files, network, processes): the handler of a VHD file is
    the content of a local file, the handler of a VHD directory a map of files; other
    remotes and encryption are left out; a stream is its content, and any way to cut it
    in chunks.  What lists a directory, opens a disk or reads metadata is a parameter
    of the clean up, and so are the XAPI and the lists of permissions of the resource
    sets.  Third-party packages are parameters (struct-fu, uuid, lodash, zlib,
    moment, regular expressions).  The rest of xo-server, xo-web, xo-lite and the plugins are mostly
    glue over XAPI, React or Vue and are not modelled.  The Redis server, the ciphers, the
    hashes of passwords and JSON are parameters of the database and of the accounts; what
    runs concurrently there is run in order, races apart ([lost_group]).

    ** Order, and what is left

    Modelled first: VHD files and their merge, which can lose data.  Then the
    libraries with a contract of their own, the permissions, the retention and the
    schedules; then the clean up of the backups, the quotas, the audit log, the tasks, the
    journal of the backups, and the accounts over their database.  Left unmodelled,
    although they have some logic: the streams made of fragments
    (createReadableSparseStream.js), the aliases, the blocks of MergeRemoteDisk.mjs, and
    [mergeBlock] of the directories as the copy step of the merge; the next date of a
    schedule (next.js); the tokens and the first account of the server. *)

From Stdlib Require Import ZArith Lia.
From stdpp Require Export base decidable list numbers strings gmap.

Global Open Scope Z_scope.

(** ** Errors and results

    A JavaScript function either returns or throws.  The constructors are the
    error classes the modelled code throws, with the message (or its fixed
    part) as payload. *)

Inductive error :=
  | AssertionError (msg : string)
  | RangeError (msg : string)
  | TypeError (msg : string)
  | SyntaxError (msg : string)
  | OtherError (msg : string)
  | XoError (code : Z) (data : list (list Ascii.ascii)).

#[export] Instance error_eq_dec : EqDecision error.
Proof. solve_decision. Defined.

Inductive result (A : Type) :=
  | Ok (a : A)
  | Throw (e : error).
Arguments Ok {A} a.
Arguments Throw {A} e.

#[export] Instance result_ret : MRet result := fun A a => Ok a.
#[export] Instance result_bind : MBind result := fun A B f r =>
  match r with Ok a => f a | Throw e => Throw e end.
#[export] Instance result_fmap : FMap result := fun A B f r =>
  match r with Ok a => Ok (f a) | Throw e => Throw e end.

Definition is_ok {A} (r : result A) : bool :=
  match r with Ok _ => true | Throw _ => false end.

(** [assert(cond, msg)] *)
Definition js_assert (cond : bool) (msg : string) : result unit :=
  if cond then Ok tt else Throw (AssertionError msg).

Lemma js_assert_ok c msg : js_assert c msg = Ok tt ↔ c = true.
Proof. destruct c; split; intros; simplify_eq/=; done. Qed.

Lemma js_assert_bind {A} c msg (f : unit → result A) :
  c = true → js_assert c msg ≫= f = f tt.
Proof. by intros ->. Qed.

(** Passes the assertion at the head of a computation. *)
Ltac pass_assert :=
  rewrite js_assert_bind by (apply bool_decide_eq_true_2; first [done | lia]).

(** ** Stateful computations that may throw

    What was written to the state before the exception stays written. *)

Definition M (S A : Type) : Type := S → result A * S.

#[export] Instance M_ret {S} : MRet (M S) := fun A a s => (Ok a, s).
#[export] Instance M_bind {S} : MBind (M S) := fun A B f m s =>
  match m s with
  | (Ok a, s') => f a s'
  | (Throw e, s') => (Throw e, s')
  end.

Definition lift {S A} (r : result A) : M S A := fun s => (r, s).
Definition gets {S A} (f : S → A) : M S A := fun s => (Ok (f s), s).
Definition modify {S} (f : S → S) : M S unit := fun s => (Ok tt, f s).
Definition assert_that {S} (cond : bool) (msg : string) : M S unit :=
  lift (js_assert cond msg).

(** [for (const x of xs) body(x)] *)
Fixpoint for_each {S A} (xs : list A) (body : A → M S unit) : M S unit :=
  match xs with
  | [] => mret tt
  | x :: rest => body x ;; for_each rest body
  end.

(** [returns m s a s']: started in [s], [m] returns [a] and leaves [s']. *)
Definition returns {S A} (m : M S A) (s : S) (a : A) (s' : S) : Prop :=
  m s = (Ok a, s').

Section returns.
Context {S : Type}.

Lemma returns_ret {A} (a : A) (s : S) : returns (mret a) s a s.
Proof. done. Qed.

Lemma returns_bind {A B} (m : M S A) (f : A → M S B) s a s1 b s2 :
  returns m s a s1 → returns (f a) s1 b s2 → returns (m ≫= f) s b s2.
Proof. unfold returns, mbind, M_bind. intros ->. done. Qed.

Lemma returns_bind_inv {A B} (m : M S A) (f : A → M S B) s b s2 :
  returns (m ≫= f) s b s2 →
  ∃ a s1, returns m s a s1 ∧ returns (f a) s1 b s2.
Proof.
  unfold returns, mbind, M_bind. destruct (m s) as [[a|e] s1]; [eauto|done].
Qed.

Lemma returns_gets {A} (f : S → A) s : returns (gets f) s (f s) s.
Proof. done. Qed.

Lemma returns_modify (f : S → S) s : returns (modify f) s tt (f s).
Proof. done. Qed.

Lemma returns_lift {A} (a : A) (s : S) : returns (lift (Ok a)) s a s.
Proof. done. Qed.

Lemma returns_assert c msg (s : S) :
  c = true → returns (assert_that c msg) s tt s.
Proof. by intros ->. Qed.
End returns.

Section for_each.
Context {S A : Type}.
Implicit Types (P : S → Prop) (f : A → M S unit) (xs : list A).

(** Each iteration keeps [P], makes [Q] true of its element, and keeps it of the others. *)
Lemma for_each_all P (Q : A → S → Prop) f xs w :
  (∀ x w, x ∈ xs → P w → ∃ w', f x w = (Ok tt, w') ∧ P w' ∧ Q x w' ∧ ∀ y, Q y w → Q y w') → P w →
  ∃ w', for_each xs f w = (Ok tt, w') ∧ P w' ∧ (∀ x, x ∈ xs → Q x w') ∧ ∀ y, Q y w → Q y w'.
Proof.
  revert w. induction xs as [|x xs IH]; intros w Hf Hw.
  { exists w. split_and!; [done|done| |done]. by intros x ?%elem_of_nil. }
  cbn [for_each]. destruct (Hf x w ltac:(by left) Hw) as (w1 & Hrun & Hw1 & Hx & Hk).
  unfold mbind, M_bind. rewrite Hrun.
  destruct (IH w1) as (w2 & Hrun2 & Hw2 & Hall & Hk2); [|done|].
  { intros y w2 Hy. apply Hf. by right. }
  exists w2. split; [done|]. split; [done|]. split; [|by auto]. intros y [->|Hy]%elem_of_cons; auto.
Qed.

Lemma for_each_ok P f xs w :
  (∀ x w, x ∈ xs → P w → ∃ w', f x w = (Ok tt, w') ∧ P w') → P w →
  ∃ w', for_each xs f w = (Ok tt, w') ∧ P w'.
Proof.
  intros Hf Hw. destruct (for_each_all P (λ _ _, True) f xs w) as (w' & ? & ? & _); [|done|by exists w'].
  intros x w1 Hx Hw1. destruct (Hf x w1 Hx Hw1) as (w2 & ? & ?). by exists w2.
Qed.
End for_each.

(** ** Sums over maps *)

Section map_sum.
Context {K A : Type} `{Countable K}.
Implicit Types (f g : K → A → Z) (m : gmap K A).

Definition map_sum f m : Z := map_fold (λ k x n, f k x + n) 0 m.

Lemma map_sum_insert f m k x : m !! k = None → map_sum f (<[k := x]> m) = f k x + map_sum f m.
Proof. intros Hm. unfold map_sum. by rewrite map_fold_insert_L; [|intros; lia|]. Qed.

Lemma map_sum_delete f m k x : m !! k = Some x → map_sum f m = f k x + map_sum f (delete k m).
Proof. intros Hm. unfold map_sum. by rewrite (map_fold_delete_L _ 0 k x m); [|intros; lia|]. Qed.

Lemma map_sum_replace f m k x y : m !! k = Some x → map_sum f (<[k := y]> m) = map_sum f m + f k y - f k x.
Proof.
  intros Hm. rewrite <- insert_delete_eq, map_sum_insert by apply lookup_delete_eq. rewrite (map_sum_delete f m k x) by done. lia.
Qed.

Lemma map_sum_ext f g m : (∀ k x, m !! k = Some x → f k x = g k x) → map_sum f m = map_sum g m.
Proof.
  induction m as [|k x m Hk IH] using map_ind; [done|]. intros Hfg. rewrite !map_sum_insert by done.
  rewrite IH; [|intros i y Hi; apply Hfg; rewrite lookup_insert_ne; [done|]; intros ->; congruence].
  rewrite (Hfg k x); [done|apply lookup_insert_eq].
Qed.

(** The terms of one key change. *)
Lemma map_sum_change f g m k x :
  m !! k = Some x → (∀ i y, i ≠ k → m !! i = Some y → f i y = g i y) → map_sum f m = map_sum g m + f k x - g k x.
Proof.
  intros Hm Hfg. rewrite (map_sum_delete f m k x), (map_sum_delete g m k x) by done.
  rewrite (map_sum_ext f g (delete k m)); [lia|]. intros i y [Hne Hi]%lookup_delete_Some. by apply Hfg.
Qed.

Lemma map_sum_zero m : map_sum (λ _ _, 0) m = 0.
Proof. induction m as [|k x m Hk IH] using map_ind; [done|]. by rewrite map_sum_insert. Qed.

Lemma map_sum_nonneg f m : (∀ k x, m !! k = Some x → 0 ≤ f k x) → 0 ≤ map_sum f m.
Proof.
  induction m as [|k x m Hk IH] using map_ind; [done|]. intros Hf. rewrite map_sum_insert by done.
  pose proof (Hf k x (lookup_insert_eq _ _ _)). enough (0 ≤ map_sum f m) by lia. apply IH. intros i y Hi.
  apply Hf. rewrite lookup_insert_ne; [done|]. intros ->. congruence.
Qed.
Lemma map_sum_foldr f m :
  map_sum f m = foldr (λ x n, f x.1 x.2 + n) 0 (map_to_list m).
Proof. unfold map_sum. rewrite map_fold_foldr. by apply foldr_ext; [intros [??]| |]. Qed.

Lemma map_sum_single (h : A → Z) m i :
  map_sum (λ k x, if decide (k = i) then h x else 0) m = match m !! i with Some x => h x | None => 0 end.
Proof.
  destruct (m !! i) as [x|] eqn:E.
  - rewrite (map_sum_change _ (λ _ _, 0) m i x) by (done || by intros; rewrite decide_False). rewrite decide_True by done. rewrite map_sum_zero. lia.
  - transitivity (map_sum (λ _ _, 0) m); [|apply map_sum_zero]. apply map_sum_ext. intros k x Hk. rewrite decide_False; [done|]. intros ->. congruence.
Qed.
End map_sum.

Create HintDb js.
#[export] Hint Resolve returns_ret returns_gets returns_modify returns_lift
  returns_assert : js.

(** Split the first bind of a [returns] goal. *)
Ltac mstep := eapply returns_bind; [by eauto with js|].

(** Case analysis on the first test or match of the goal. *)
Ltac case_goal := repeat case_match.

(** ** Generic lemmas *)

(** The integers [a, a+1, ..., b-1], the values of [i] in
    [for (let i = a; i < b; ++i)]. *)
Definition zrange (a b : Z) : list Z := seqZ a (b - a).

Lemma elem_of_zrange a b i : i ∈ zrange a b ↔ a ≤ i < b.
Proof. unfold zrange. rewrite elem_of_seqZ. lia. Qed.

Lemma zrange_nil a b : b ≤ a → zrange a b = [].
Proof. intros. unfold zrange. apply seqZ_nil. lia. Qed.

Lemma zrange_cons a b : a < b → zrange a b = a :: zrange (a + 1) b.
Proof.
  intros. unfold zrange. rewrite seqZ_cons by lia.
  do 2 f_equal; lia.
Qed.

Lemma zrange_snoc a b : a ≤ b → zrange a (b + 1) = zrange a b ++ [b].
Proof.
  intros. unfold zrange. replace (b + 1 - a) with ((b - a) + 1) by lia.
  rewrite seqZ_app by lia. f_equal. rewrite seqZ_cons by lia.
  rewrite seqZ_nil by lia. f_equal; lia.
Qed.

Lemma zrange_app a b c : a ≤ b → b ≤ c → zrange a c = zrange a b ++ zrange b c.
Proof.
  intros. unfold zrange. replace (c - a) with ((b - a) + (c - b)) by lia.
  rewrite seqZ_app by lia. repeat f_equal; lia.
Qed.

Lemma NoDup_zrange a b : NoDup (zrange a b).
Proof. apply NoDup_seqZ. Qed.

(** [Math.ceil(a / b)] for a positive [b]. *)
Definition ceil_div (a b : Z) : Z := (a + b - 1) / b.

Lemma ceil_div_spec a b : 0 < b → a ≤ ceil_div a b * b < a + b.
Proof.
  intros. unfold ceil_div.
  pose proof (Z.div_mod (a + b - 1) b ltac:(lia)).
  pose proof (Z.mod_pos_bound (a + b - 1) b ltac:(lia)). nia.
Qed.

Lemma ceil_div_mul a b : 0 < b → ceil_div (a * b) b = a.
Proof.
  intros. pose proof (ceil_div_spec (a * b) b ltac:(lia)).
  nia.
Qed.

Lemma ceil_div_nonneg a b : 0 < b → 0 ≤ a → 0 ≤ ceil_div a b.
Proof. intros. unfold ceil_div. apply Z.div_pos; lia. Qed.

Lemma ceil_div_le a b c : 0 < b → a ≤ c * b → ceil_div a b ≤ c.
Proof. intros. pose proof (ceil_div_spec a b ltac:(lia)). nia. Qed.

Lemma ceil_div_mono a a' b : 0 < b → a ≤ a' → ceil_div a b ≤ ceil_div a' b.
Proof. intros. unfold ceil_div. apply Z.div_le_mono; lia. Qed.
