(* ===== verification/Buffers.v ===== *)
(** * Buffers

    Byte buffers as lists of integers in [0, 255]: Node's [Buffer] operations
    that the VHD code uses ([slice], [copy], [fill], [readUInt32BE],
    [writeUInt32BE], [concat]) and the contents of a file written at given
    positions, with the lemmas that say which bytes an access sees. *)

From S2P Require Import Prelude.

Abbreviation buffer := (list Z).

Definition is_byte (z : Z) : Prop := 0 ≤ z < 256.
Definition bytes (b : buffer) : Prop := Forall is_byte b.

(** [buffer.length] *)
Definition zlen {A} (b : list A) : Z := Z.of_nat (length b).

(** [Buffer.alloc(n, v)] *)
Definition zrep {A} (n : Z) (v : A) : list A := replicate (Z.to_nat n) v.

(** The [n] bytes at [off] (fewer past the end). *)
Definition sub {A} (off n : Z) (b : list A) : list A :=
  take (Z.to_nat n) (drop (Z.to_nat off) b).

(** [buffer[i]]; [None] is [undefined]. *)
Definition zget {A} (b : list A) (i : Z) : option A :=
  if decide (i < 0) then None else b !! Z.to_nat i.

(** [buffer.slice(start, end)]: negative positions count from the end, and
    both are clamped to the buffer. *)
Definition clamp_pos (len i : Z) : Z := if decide (i < 0) then Z.max 0 (len + i) else Z.min i len.
Definition buf_slice {A} (b : list A) (s e : Z) : list A :=
  let s' := clamp_pos (zlen b) s in
  let e' := clamp_pos (zlen b) e in
  sub s' (e' - s') b.

(** The bytes [d] put at [off], inside or past the end of [b]; a hole reads as
    zeroes.  Writing no byte changes nothing. *)
Definition bwrite (b : buffer) (off : Z) (d : buffer) : buffer :=
  match d with
  | [] => b
  | _ => take (Z.to_nat off) (b ++ zrep (off - zlen b) 0) ++ d
           ++ drop (Z.to_nat (off + zlen d)) b
  end.

(** [src.copy(target, off)]: what does not fit in [target] is dropped. *)
Definition buf_copy (target : buffer) (off : Z) (src : buffer) : buffer :=
  bwrite target off (take (Z.to_nat (zlen target - off)) src).

(** Big-endian integers of [n] bytes. *)
Fixpoint be_encode (n : nat) (v : Z) : buffer :=
  match n with
  | O => []
  | S n => be_encode n (v / 256) ++ [v mod 256]
  end.

Definition be_decode (b : buffer) : Z := foldl (λ acc x, acc * 256 + x) 0 b.

Definition read_range_error : error := RangeError "The value of offset is out of range".
Definition write_range_error : error := RangeError "The value is out of range".

(** [buffer.readUInt32BE(off)] *)
Definition readUInt32BE (b : buffer) (off : Z) : result Z :=
  if decide (0 ≤ off ∧ off + 4 ≤ zlen b) then Ok (be_decode (sub off 4 b))
  else Throw read_range_error.

(** [buffer.writeUInt32BE(v, off)]; the result is the buffer afterwards. *)
Definition writeUInt32BE (v : Z) (off : Z) (b : buffer) : result buffer :=
  if decide (0 ≤ v < 4294967296) then
    if decide (0 ≤ off ∧ off + 4 ≤ zlen b) then Ok (bwrite b off (be_encode 4 v))
    else Throw read_range_error
  else Throw write_range_error.

(** ** Lengths *)

Section lists.
Context {A : Type}.
Implicit Types b d : list A.

Lemma zlen_nil : zlen (@nil A) = 0.
Proof. done. Qed.
Lemma zlen_cons x b : zlen (x :: b) = 1 + zlen b.
Proof. unfold zlen. cbn. lia. Qed.
Lemma zlen_app b d : zlen (b ++ d) = zlen b + zlen d.
Proof. unfold zlen. rewrite length_app. lia. Qed.
Lemma zlen_nonneg b : 0 ≤ zlen b.
Proof. unfold zlen. lia. Qed.
Lemma zlen_zrep n (v : A) : zlen (zrep n v) = Z.max 0 n.
Proof. unfold zlen, zrep. rewrite length_replicate. lia. Qed.

Lemma zlen_sub off n b :
  0 ≤ off → 0 ≤ n → off + n ≤ zlen b → zlen (sub off n b) = n.
Proof.
  unfold zlen, sub. intros. rewrite length_take, length_drop. lia.
Qed.

Lemma zlen_sub_le off n b : 0 ≤ n → zlen (sub off n b) ≤ n.
Proof. unfold zlen, sub. intros. rewrite length_take. lia. Qed.

Lemma sub_all b : sub 0 (zlen b) b = b.
Proof.
  unfold sub, zlen. rewrite drop_0. apply take_ge. lia.
Qed.

Lemma sub_nil_len off n b : n ≤ 0 → sub off n b = [].
Proof. intros. unfold sub. replace (Z.to_nat n) with O by lia. done. Qed.

Lemma sub_app_l off n b d :
  0 ≤ off → 0 ≤ n → off + n ≤ zlen b → sub off n (b ++ d) = sub off n b.
Proof.
  unfold sub, zlen. intros. rewrite drop_app_le by lia.
  apply take_app_le. rewrite length_drop. lia.
Qed.

Lemma sub_app_r off n b d :
  zlen b ≤ off → sub off n (b ++ d) = sub (off - zlen b) n d.
Proof.
  unfold sub, zlen. intros. rewrite drop_app_ge by lia.
  do 2 f_equal. lia.
Qed.

Lemma sub_sub o n off m b :
  0 ≤ o → 0 ≤ n → 0 ≤ off → o + n ≤ m → sub o n (sub off m b) = sub (off + o) n b.
Proof.
  unfold sub. intros.
  rewrite <- (take_drop_commute _ (Z.to_nat o)) || idtac.
  rewrite skipn_firstn_comm, take_take, drop_drop.
  f_equal; [lia | f_equal; lia].
Qed.

Lemma sub_split off n m b :
  0 ≤ off → 0 ≤ n → 0 ≤ m → sub off (n + m) b = sub off n b ++ sub (off + n) m b.
Proof.
  unfold sub. intros.
  replace (Z.to_nat (n + m)) with (Z.to_nat n + Z.to_nat m)%nat by lia.
  rewrite <- take_take_drop. do 2 f_equal.
  rewrite drop_drop. f_equal. lia.
Qed.

Lemma lookup_sub off n b (i : nat) :
  0 ≤ off → Z.of_nat i < n → sub off n b !! i = b !! (Z.to_nat off + i)%nat.
Proof.
  intros. unfold sub. rewrite lookup_take_lt by lia. apply lookup_drop.
Qed.

Lemma mjoin_cons b (bs : list (list A)) : mjoin (b :: bs) = b ++ mjoin bs.
Proof. done. Qed.

Lemma buf_slice_sub b s e : 0 ≤ s ≤ e → e ≤ zlen b → buf_slice b s e = sub s (e - s) b.
Proof.
  intros. unfold buf_slice, clamp_pos. rewrite !decide_False by lia.
  by rewrite !Z.min_l by lia.
Qed.

Lemma zget_Some b i x : zget b i = Some x → 0 ≤ i < zlen b.
Proof.
  unfold zget, zlen. case_decide; [done|].
  intros ?%lookup_lt_Some. lia.
Qed.

Lemma zget_sub off n b i :
  0 ≤ off → 0 ≤ i < n → zget (sub off n b) i = zget b (off + i).
Proof.
  intros. unfold zget. rewrite !decide_False by lia.
  rewrite lookup_sub by lia. f_equal. lia.
Qed.

Lemma zget_is_Some b i : 0 ≤ i < zlen b → ∃ x, zget b i = Some x.
Proof.
  unfold zget, zlen. intros. rewrite decide_False by lia.
  apply lookup_lt_is_Some. lia.
Qed.

Lemma list_eq_zget b d :
  zlen b = zlen d → (∀ i, 0 ≤ i < zlen b → zget b i = zget d i) → b = d.
Proof.
  unfold zlen. intros Hl H. apply list_eq. intros i.
  destruct (decide (i < length b)%nat) as [Hi|Hi].
  - specialize (H (Z.of_nat i) ltac:(lia)). unfold zget in H.
    rewrite !decide_False in H by lia. by rewrite !Nat2Z.id in H.
  - rewrite !lookup_ge_None_2 by lia. done.
Qed.

Lemma zget_app b d i :
  zget (b ++ d) i = if decide (i < zlen b) then zget b i else zget d (i - zlen b).
Proof.
  unfold zget, zlen. repeat case_decide; try lia; try done.
  - apply lookup_app_l. lia.
  - rewrite lookup_app_r by lia. f_equal. lia.
Qed.

Lemma zget_ge b i : zlen b ≤ i → zget b i = None.
Proof.
  unfold zget, zlen. intros. case_decide; [done|]. apply lookup_ge_None_2. lia.
Qed.

Lemma zget_lt0 b i : i < 0 → zget b i = None.
Proof. intros. unfold zget. by rewrite decide_True. Qed.

Lemma zget_zrep n (v : A) i : 0 ≤ i < n → zget (zrep n v) i = Some v.
Proof.
  intros. unfold zget, zrep. rewrite decide_False by lia.
  apply lookup_replicate_2. lia.
Qed.

Lemma zget_drop k b i :
  0 ≤ i → zget (drop k b) i = zget b (Z.of_nat k + i).
Proof.
  intros. unfold zget. rewrite !decide_False by lia. rewrite lookup_drop.
  f_equal. lia.
Qed.

Lemma zget_insert b i x j :
  0 ≤ i < zlen b →
  zget (<[Z.to_nat i := x]> b) j = if decide (i = j) then Some x else zget b j.
Proof.
  unfold zget, zlen. intros. repeat case_decide; subst; try lia; try done.
  - apply list_lookup_insert_eq. lia.
  - apply list_lookup_insert_ne. lia.
Qed.

Lemma zget_take k b i :
  zget (take k b) i = if decide (i < Z.of_nat k) then zget b i else None.
Proof.
  unfold zget. repeat case_decide; try done.
  - apply lookup_take_lt. lia.
  - apply lookup_take_ge. lia.
Qed.
End lists.

Create Rewrite HintDb zlen.
#[export] Hint Rewrite @zlen_nil @zlen_cons @zlen_app @zlen_zrep : zlen.

(** Introduces [0 ≤ zlen b] for every buffer of the goal and closes it. *)
Ltac zlen_pos :=
  repeat match goal with
  | |- context [zlen ?b] =>
    lazymatch goal with
    | _ : 0 ≤ zlen b |- _ => fail
    | _ => pose proof (zlen_nonneg b)
    end
  | H : context [zlen ?b] |- _ =>
    lazymatch goal with
    | _ : 0 ≤ zlen b |- _ => fail
    | _ => pose proof (zlen_nonneg b)
    end
  end.
Ltac zlia := autorewrite with zlen in *; zlen_pos; lia.

(** ** Writing at a position *)

Lemma zlen_bwrite b off d :
  0 ≤ off → d ≠ [] → zlen (bwrite b off d) = Z.max (zlen b) (off + zlen d).
Proof.
  intros ? Hd. unfold bwrite. destruct d as [|x d]; [done|].
  remember (x :: d) as e eqn:He. clear He Hd.
  unfold zlen, zrep. rewrite !length_app, length_take, length_drop, length_app,
    length_replicate. lia.
Qed.

Lemma zlen_bwrite_in b off d :
  0 ≤ off → off + zlen d ≤ zlen b → zlen (bwrite b off d) = zlen b.
Proof.
  intros. destruct (decide (d = [])) as [->|]; [done|].
  rewrite zlen_bwrite by done. lia.
Qed.

Lemma zget_bwrite b off d i :
  0 ≤ off → 0 ≤ i → d ≠ [] →
  zget (bwrite b off d) i =
    if decide (off ≤ i < off + zlen d) then zget d (i - off)
    else if decide (i < zlen b) then zget b i
    else if decide (i < off) then Some 0 else None.
Proof.
  intros Ho Hi Hd. unfold bwrite. destruct d as [|x d]; [done|].
  remember (x :: d) as e eqn:He. clear He Hd x d.
  rewrite zget_app.
  assert (Hl : zlen (take (Z.to_nat off) (b ++ zrep (off - zlen b) 0)) = off).
  { unfold zlen, zrep. rewrite length_take, length_app, length_replicate. lia. }
  rewrite Hl. destruct (decide (i < off)).
  - rewrite (decide_False (P := off ≤ i < _)) by lia.
    rewrite zget_take, decide_True by lia. rewrite zget_app.
    case_decide; [done|]. apply zget_zrep. lia.
  - rewrite zget_app. pose proof (zlen_nonneg e).
    destruct (decide (i - off < zlen e)).
    + by rewrite decide_True by lia.
    + rewrite (decide_False (P := off ≤ i < _)) by lia.
      rewrite zget_drop by lia.
      replace (Z.of_nat (Z.to_nat (off + zlen e)) + (i - off - zlen e)) with i by lia.
      case_decide; [done|]. apply zget_ge. lia.
Qed.

Lemma bytes_zget b : bytes b ↔ ∀ i x, zget b i = Some x → is_byte x.
Proof.
  unfold bytes. rewrite Forall_lookup. split.
  - intros H i x. unfold zget. case_decide; [done|]. apply H.
  - intros H i x Hi. apply (H (Z.of_nat i)). unfold zget.
    rewrite decide_False by lia. by rewrite Nat2Z.id.
Qed.

Lemma bytes_bwrite b off d : bytes b → bytes d → 0 ≤ off → bytes (bwrite b off d).
Proof.
  intros Hb Hd Ho. unfold bwrite. destruct d as [|x d]; [done|].
  unfold bytes. rewrite !Forall_app. repeat split; [|done|by apply Forall_drop].
  apply Forall_take, Forall_app. split; [done|].
  unfold zrep. apply Forall_replicate. unfold is_byte. lia.
Qed.

Lemma bytes_sub b off n : bytes b → bytes (sub off n b).
Proof. intros. by apply Forall_take, Forall_drop. Qed.

(** Reading back what was written. *)
Lemma sub_bwrite_same b off d : 0 ≤ off → sub off (zlen d) (bwrite b off d) = d.
Proof.
  intros. destruct (decide (d = [])) as [->|Hd]; [done|].
  assert (0 < zlen d) by (destruct d; [done|]; zlia).
  apply list_eq_zget; rewrite zlen_sub; rewrite ?zlen_bwrite by done; try zlia.
  intros i Hi. rewrite zget_sub by lia. rewrite zget_bwrite by (try done; lia).
  rewrite decide_True by lia. f_equal. lia.
Qed.

(** A part of what was written. *)
Lemma sub_bwrite_inside b off d o n :
  0 ≤ off → 0 ≤ n → off ≤ o → o + n ≤ off + zlen d →
  sub o n (bwrite b off d) = sub (o - off) n d.
Proof.
  intros. replace o with (off + (o - off)) at 1 by lia.
  rewrite <- (sub_sub (o - off) n off (zlen d)) by lia.
  by rewrite sub_bwrite_same by lia.
Qed.

(** A region the write does not touch. *)
Lemma sub_bwrite_disjoint b off d o n :
  0 ≤ off → 0 ≤ o → o + n ≤ zlen b → o + n ≤ off ∨ off + zlen d ≤ o →
  sub o n (bwrite b off d) = sub o n b.
Proof.
  intros. destruct (decide (d = [])) as [->|Hd]; [done|].
  destruct (decide (n ≤ 0)); [by rewrite !sub_nil_len by lia|].
  apply list_eq_zget; rewrite !zlen_sub; rewrite ?zlen_bwrite by done; try zlia.
  intros i Hi. rewrite !zget_sub by lia. rewrite zget_bwrite by (try done; lia).
  rewrite decide_False by lia. by rewrite decide_True by lia.
Qed.

(** A whole region holding the written bytes: the write happens inside it. *)
Lemma sub_bwrite_around b off d o n :
  0 ≤ o → o ≤ off → off + zlen d ≤ o + n → o + n ≤ zlen b →
  sub o n (bwrite b off d) = bwrite (sub o n b) (off - o) d.
Proof.
  intros. destruct (decide (d = [])) as [->|Hd]; [done|].
  assert (0 < zlen d) by (destruct d; [done|]; zlia).
  assert (zlen (sub o n b) = n) by (apply zlen_sub; lia).
  apply list_eq_zget.
  - rewrite zlen_sub, !zlen_bwrite; rewrite ?zlen_bwrite by (try done; lia); try done; try lia.
  - rewrite zlen_sub by (rewrite ?zlen_bwrite by (try done; lia); lia).
    intros i Hi. rewrite zget_sub by lia. rewrite !zget_bwrite by (try done; lia).
    repeat case_decide; try lia; try (f_equal; lia).
    by rewrite zget_sub by lia.
Qed.

Lemma bwrite_app_end b d : bwrite b (zlen b) d = b ++ d.
Proof.
  destruct d as [|x d]; [by rewrite app_nil_r|].
  unfold bwrite, zrep. replace (zlen b - zlen b) with 0 by lia. cbn [Z.to_nat replicate].
  rewrite app_nil_r. unfold zlen at 1. rewrite Nat2Z.id, firstn_all.
  rewrite drop_ge by (unfold zlen; cbn; lia). by rewrite app_nil_r.
Qed.

Lemma bwrite_middle b d e c : zlen d = zlen e → bwrite (b ++ e ++ c) (zlen b) d = b ++ d ++ c.
Proof.
  intros Hl. destruct d as [|x d].
  - destruct e; [done|]. rewrite zlen_cons, zlen_nil in Hl. zlia.
  - unfold bwrite. f_equal; [|f_equal].
    + rewrite <- app_assoc. apply take_app_length'. unfold zlen. lia.
    + rewrite app_assoc. apply drop_app_length'. rewrite length_app. unfold zlen in *. lia.
Qed.

(** ** Big-endian integers *)

Lemma length_be_encode n v : length (be_encode n v) = n.
Proof. revert v. induction n as [|n IH]; intros v; [done|]. cbn. rewrite length_app, IH. cbn. lia. Qed.

Lemma zlen_be_encode n v : zlen (be_encode n v) = Z.of_nat n.
Proof. unfold zlen. by rewrite length_be_encode. Qed.

Lemma bytes_be_encode n v : bytes (be_encode n v).
Proof.
  revert v. induction n as [|n IH]; intros v; [constructor|].
  cbn. apply Forall_app. split; [apply IH|].
  constructor; [|constructor]. unfold is_byte. apply Z.mod_pos_bound. lia.
Qed.

Lemma be_decode_app b x : be_decode (b ++ [x]) = be_decode b * 256 + x.
Proof. unfold be_decode. by rewrite foldl_app. Qed.

Lemma be_decode_encode n v : be_decode (be_encode n v) = v mod 256 ^ Z.of_nat n.
Proof.
  revert v. induction n as [|n IH]; intros v.
  - cbn. by rewrite Z.mod_1_r.
  - cbn [be_encode]. rewrite be_decode_app, IH.
    replace (Z.of_nat (S n)) with (Z.succ (Z.of_nat n)) by lia.
    rewrite Z.pow_succ_r by lia.
    assert (0 < 256 ^ Z.of_nat n) by (apply Z.pow_pos_nonneg; lia).
    rewrite Z.rem_mul_r by lia. lia.
Qed.

Lemma be_decode_bound b : bytes b → 0 ≤ be_decode b < 256 ^ zlen b.
Proof.
  induction b as [|x b IH] using rev_ind; [done|].
  unfold bytes. rewrite Forall_app, Forall_singleton. intros [Hb Hx].
  specialize (IH Hb). rewrite be_decode_app, zlen_app.
  change (zlen [x]) with 1. rewrite Z.pow_add_r by zlia.
  change (256 ^ 1) with 256. unfold is_byte in Hx. lia.
Qed.

Lemma be_encode_decode b : bytes b → be_encode (length b) (be_decode b) = b.
Proof.
  induction b as [|x b IH] using rev_ind; [done|].
  unfold bytes. rewrite Forall_app, Forall_singleton. intros [Hb Hx].
  rewrite length_app, Nat.add_1_r. cbn [be_encode]. rewrite be_decode_app.
  unfold is_byte in Hx.
  rewrite Z.div_add_l, (Z.div_small x) by lia.
  rewrite Z.add_0_r, IH by done. f_equal. f_equal.
  rewrite Z.add_comm, Z.mod_add by lia. by apply Z.mod_small.
Qed.

#[export] Hint Rewrite zlen_be_encode : zlen.
#[export] Hint Resolve bytes_be_encode bytes_bwrite bytes_sub : js.

(** ** 32-bit accesses *)

Lemma readUInt32BE_ok b off :
  0 ≤ off → off + 4 ≤ zlen b → readUInt32BE b off = Ok (be_decode (sub off 4 b)).
Proof. intros. unfold readUInt32BE. by rewrite decide_True by lia. Qed.

Lemma readUInt32BE_inv b off v :
  readUInt32BE b off = Ok v → 0 ≤ off ∧ off + 4 ≤ zlen b ∧ v = be_decode (sub off 4 b).
Proof. unfold readUInt32BE. case_decide; [|done]. intros [= <-]. intuition lia. Qed.

Lemma writeUInt32BE_ok v off b :
  0 ≤ v < 4294967296 → 0 ≤ off → off + 4 ≤ zlen b →
  writeUInt32BE v off b = Ok (bwrite b off (be_encode 4 v)).
Proof. intros. unfold writeUInt32BE. by rewrite !decide_True by lia. Qed.

Lemma writeUInt32BE_inv v off b b' :
  writeUInt32BE v off b = Ok b' →
  0 ≤ v < 4294967296 ∧ 0 ≤ off ∧ off + 4 ≤ zlen b ∧ b' = bwrite b off (be_encode 4 v).
Proof. unfold writeUInt32BE. repeat case_decide; try done. intros [= <-]. intuition lia. Qed.

Lemma be_decode_sub_bwrite b off v :
  0 ≤ off → 0 ≤ v < 4294967296 →
  be_decode (sub off 4 (bwrite b off (be_encode 4 v))) = v.
Proof.
  intros. change 4 with (zlen (be_encode 4 v)) at 1.
  rewrite sub_bwrite_same by done. rewrite be_decode_encode.
  apply Z.mod_small. cbn. lia.
Qed.

(** What a 32-bit read sees after a 32-bit write in the same buffer. *)
Lemma readUInt32BE_bwrite b off v o :
  0 ≤ off → off + 4 ≤ zlen b → 0 ≤ v < 4294967296 →
  o = off ∨ o + 4 ≤ off ∨ off + 4 ≤ o →
  readUInt32BE (bwrite b off (be_encode 4 v)) o =
    if decide (o = off) then Ok v else readUInt32BE b o.
Proof.
  intros ? ? Hv Ho.
  assert (Hl : zlen (be_encode 4 v) = 4) by (by rewrite zlen_be_encode).
  unfold readUInt32BE. rewrite zlen_bwrite_in by lia.
  repeat case_decide; subst; try lia; try done.
  - by rewrite be_decode_sub_bwrite.
  - rewrite sub_bwrite_disjoint; [done|lia..].
Qed.

(** ** Bits *)

Lemma bit_index i : 0 ≤ i → Z.shiftr i 3 = i / 8 ∧ Z.land i 7 = i mod 8.
Proof.
  intros. rewrite Z.shiftr_div_pow2 by lia. split; [done|].
  change 7 with (Z.ones 3). by rewrite Z.land_ones by lia.
Qed.

(** A byte and a mask with one bit set meet iff the byte has that bit. *)
Lemma land_pow2_testbit x k : 0 ≤ k → negb (Z.land x (2 ^ k) =? 0) = Z.testbit x k.
Proof.
  intros Hk. destruct (Z.testbit x k) eqn:E.
  - apply negb_true_iff, Z.eqb_neq. intros H0.
    assert (H : Z.testbit (Z.land x (2 ^ k)) k = false) by (by rewrite H0, Z.bits_0).
    rewrite Z.land_spec, E, Z.pow2_bits_true in H by lia. done.
  - apply negb_false_iff, Z.eqb_eq. apply Z.bits_inj'. intros n Hn.
    rewrite Z.land_spec, Z.bits_0.
    destruct (decide (n = k)) as [->|]; [by rewrite E|].
    rewrite Z.pow2_bits_false by lia. apply andb_false_r.
Qed.

(** Writing back the integer a buffer holds changes nothing. *)
Lemma bwrite_sub_same b off :
  bytes b → 0 ≤ off → off + 4 ≤ zlen b →
  bwrite b off (be_encode 4 (be_decode (sub off 4 b))) = b.
Proof.
  intros Hb Ho Hl.
  assert (Hs : zlen (sub off 4 b) = 4) by (apply zlen_sub; lia).
  pose proof (be_encode_decode (sub off 4 b) (bytes_sub b off 4 Hb)) as He.
  replace (length (sub off 4 b)) with 4%nat in He by (unfold zlen in Hs; lia).
  rewrite He.
  assert (Hne : sub off 4 b ≠ []) by (intros E; rewrite E in Hs; done).
  apply list_eq_zget; [rewrite zlen_bwrite_in; lia|].
  rewrite zlen_bwrite_in by lia. intros i Hi. rewrite zget_bwrite by (done || lia).
  case_decide; [rewrite zget_sub by lia; f_equal; lia|]. by rewrite decide_True by lia.
Qed.

(** ** Sums of bytes *)

Definition sumZ (l : list Z) : Z := foldr Z.add 0 l.

Lemma sumZ_app l k : sumZ (l ++ k) = sumZ l + sumZ k.
Proof. unfold sumZ. induction l as [|x l IH]; cbn; lia. Qed.

Lemma sumZ_bound b : bytes b → 0 ≤ sumZ b ≤ 255 * zlen b.
Proof.
  unfold sumZ. induction 1 as [|x b Hx _ IH]; cbn; [done|].
  rewrite zlen_cons. unfold is_byte in Hx. lia.
Qed.
