(* ===== verification/VhdFormat.v ===== *)
(** * The VHD format: constants, sizes, bitmaps, block allocation table, geometry

    [packages/vhd-lib/_constants.js], [Vhd/_utils.js] (size computations),
    [_bitmap.js], [_getFirstAndLastBlocks.js], [_computeGeometryForSize.js]. *)

From S2P Require Import Prelude Buffers.

(** ** Constants *)

Definition BLOCK_UNUSED : Z := 0xffffffff.
Definition CREATOR_APPLICATION : string := "xo  ".
Definition FOOTER_SIZE : Z := 512.
Definition HEADER_SIZE : Z := 1024.
Definition SECTOR_SIZE : Z := 512.
Definition DEFAULT_BLOCK_SIZE : Z := 0x00200000.
Definition FOOTER_COOKIE : string := "conectix".
Definition HEADER_COOKIE : string := "cxsparse".
Definition DISK_TYPES_FIXED : Z := 2.
Definition DISK_TYPES_DYNAMIC : Z := 3.
Definition DISK_TYPES_DIFFERENCING : Z := 4.
Definition PARENT_LOCATOR_ENTRIES : Z := 8.
Definition PLATFORMS_NONE : Z := 0.
Definition PLATFORMS_WI2K : Z := 0x5769326b.
Definition PLATFORMS_W2KU : Z := 0x57326b75.
Definition FILE_FORMAT_VERSION : Z := Z.shiftl 1 16.
Definition HEADER_VERSION : Z := Z.shiftl 1 16.
Definition ALIAS_MAX_PATH_LENGTH : Z := 1024.

(** ** Sizes ([Vhd/_utils.js]) *)

Definition sectorsToBytes (sectors : Z) : Z := sectors * SECTOR_SIZE.

(** [Math.ceil(bytes / SECTOR_SIZE) || 1] *)
Definition sectorsRoundUpNoZero (bytes : Z) : Z :=
  let n := ceil_div bytes SECTOR_SIZE in
  if decide (n = 0) then 1 else n.

Definition computeBatSize (entries : Z) : Z :=
  sectorsToBytes (sectorsRoundUpNoZero (entries * 4)).

Definition computeSectorsPerBlock (blockSize : Z) : Z := blockSize / SECTOR_SIZE.

(** [>>> 3] on the number of sectors, as an unsigned 32-bit integer *)
Definition computeBlockBitmapSize (blockSize : Z) : Z :=
  Z.shiftr (computeSectorsPerBlock blockSize mod 2 ^ 32) 3.

Definition computeSectorOfBitmap (blockSize : Z) : Z :=
  sectorsRoundUpNoZero (computeBlockBitmapSize blockSize).

Definition computeFullBlockSize (blockSize : Z) : Z :=
  blockSize + SECTOR_SIZE * computeSectorOfBitmap blockSize.

(** [Buffer] holding one unused BAT entry *)
Definition BUF_BLOCK_UNUSED : buffer := be_encode 4 BLOCK_UNUSED.

Lemma sectorsRoundUpNoZero_pos n : 0 ≤ n → 1 ≤ sectorsRoundUpNoZero n.
Proof.
  intros. unfold sectorsRoundUpNoZero.
  pose proof (ceil_div_nonneg n SECTOR_SIZE ltac:(done) ltac:(done)).
  case_decide; lia.
Qed.

Lemma sectorsRoundUpNoZero_covers n : 0 ≤ n → n ≤ sectorsRoundUpNoZero n * SECTOR_SIZE.
Proof.
  intros. unfold sectorsRoundUpNoZero.
  pose proof (ceil_div_spec n SECTOR_SIZE ltac:(done)).
  case_decide; unfold SECTOR_SIZE in *; lia.
Qed.

Lemma computeBatSize_covers n : 0 ≤ n → n * 4 ≤ computeBatSize n.
Proof. intros. apply sectorsRoundUpNoZero_covers. lia. Qed.

Lemma computeBatSize_mono n m : 0 ≤ n ≤ m → computeBatSize n ≤ computeBatSize m.
Proof.
  intros. unfold computeBatSize, sectorsToBytes, sectorsRoundUpNoZero.
  pose proof (ceil_div_mono (n * 4) (m * 4) SECTOR_SIZE ltac:(done) ltac:(lia)).
  pose proof (ceil_div_nonneg (n * 4) SECTOR_SIZE ltac:(done) ltac:(lia)).
  unfold SECTOR_SIZE in *. repeat case_decide; lia.
Qed.

Lemma computeSectorOfBitmap_pos bs : 0 ≤ bs → 1 ≤ computeSectorOfBitmap bs.
Proof.
  intros. apply sectorsRoundUpNoZero_pos. apply Z.shiftr_nonneg.
  apply Z.mod_pos_bound. lia.
Qed.

(** ** Block bitmaps ([_bitmap.js]) *)

Module Bitmap.
Definition MASK : Z := 0x80.

(** [map[bit >> 3] |= MASK >> (bit & 7)]; writing past the end of a buffer
does nothing. *)
Definition set (map : buffer) (bit : Z) : buffer :=
  match zget map (Z.shiftr bit 3) with
  | Some byte => <[Z.to_nat (Z.shiftr bit 3) := Z.lor byte (Z.shiftr MASK (Z.land bit 7))]> map
  | None => map
  end.

(** [((map[bit >> 3] << (bit & 7)) & MASK) !== 0]; past the end,
[undefined << n] is [0]. *)
Definition test (map : buffer) (bit : Z) : bool :=
  let byte := default 0 (zget map (Z.shiftr bit 3)) in
  negb (Z.land (Z.shiftl byte (Z.land bit 7)) MASK =? 0).
End Bitmap.

Lemma test_testbit m i :
  0 ≤ i → Bitmap.test m i = Z.testbit (default 0 (zget m (i / 8))) (7 - i mod 8).
Proof.
  intros Hi. unfold Bitmap.test. destruct (bit_index i Hi) as [-> ->].
  pose proof (Z.mod_pos_bound i 8 ltac:(lia)).
  change Bitmap.MASK with (2 ^ 7). rewrite land_pow2_testbit by lia.
  by rewrite Z.shiftl_spec by lia.
Qed.

Lemma zlen_bitmap_set m i : zlen (Bitmap.set m i) = zlen m.
Proof. unfold Bitmap.set, zlen. case_match; [by rewrite length_insert|done]. Qed.

Lemma mask_shift k : 0 ≤ k < 8 → Z.shiftr Bitmap.MASK k = 2 ^ (7 - k).
Proof.
  intros. change Bitmap.MASK with (2 ^ 7).
  rewrite Z.shiftr_div_pow2 by lia. rewrite <- Z.pow_sub_r by lia. done.
Qed.

Lemma bitmap_test_set_lemma m i j :
  0 ≤ i → i < 8 * zlen m → 0 ≤ j →
  Bitmap.test (Bitmap.set m i) j = bool_decide (i = j) || Bitmap.test m j.
Proof.
  intros Hi Hm Hj. rewrite !test_testbit by done. unfold Bitmap.set.
  destruct (bit_index i Hi) as [-> ->].
  pose proof (Z.mod_pos_bound i 8 ltac:(lia)).
  pose proof (Z.mod_pos_bound j 8 ltac:(lia)).
  pose proof (Z.div_mod i 8 ltac:(lia)). pose proof (Z.div_mod j 8 ltac:(lia)).
  destruct (zget_is_Some m (i / 8)) as [x Hx]; [lia|].
  rewrite Hx, mask_shift by lia.
  rewrite zget_insert by lia. case_decide as Heq.
  - rewrite <- Heq, Hx. cbn [default from_option id]. rewrite Z.lor_spec, orb_comm.
    rewrite Z.pow2_bits_eqb by lia. f_equal.
    destruct (Z.eqb_spec (7 - i mod 8) (7 - j mod 8)); case_bool_decide; lia.
  - by rewrite bool_decide_eq_false_2 by (intros ->; done).
Qed.

(** All bits of a buffer of 0xff bytes are set. *)
Lemma bitmap_test_full n i : 0 ≤ i < 8 * n → Bitmap.test (zrep n 255) i = true.
Proof.
  intros. rewrite test_testbit by lia.
  pose proof (Z.mod_pos_bound i 8 ltac:(lia)). pose proof (Z.div_mod i 8 ltac:(lia)).
  rewrite zget_zrep by lia. cbn [default from_option id].
  change 255 with (Z.ones 8). apply Z.ones_spec_low. lia.
Qed.

(** ** First and last allocated blocks ([_getFirstAndLastBlocks.js]) *)

Record FirstAndLast := {
  first : Z;
  firstSector : Z;
  last : Z;
  lastSector : Z;
}.

(** Entry [i] of a block allocation table. *)
Definition bat_entry (bat : buffer) (i : Z) : Z := be_decode (sub (i * 4) 4 bat).

Module FirstLast.
(** The first loop: stops at the first allocated block, [None] at the end of
the table. *)
Fixpoint find_first (fuel : nat) (bat : buffer) (i j : Z) : result (option (Z * Z * Z)) :=
  match fuel with
  | O => Throw (OtherError "fuel")
  | S fuel =>
      sector ← readUInt32BE bat j;
      if decide (sector = BLOCK_UNUSED) then
        if decide (j + 4 = zlen bat) then Ok None
        else find_first fuel bat (i + 1) (j + 4)
      else Ok (Some (i, j, sector))
  end.

(** One iteration of the second loop. *)
Definition step (i sector : Z) (acc : FirstAndLast) : FirstAndLast :=
  if decide (sector = BLOCK_UNUSED) then acc
  else if decide (sector < firstSector acc) then
  {| first := i; firstSector := sector; last := last acc; lastSector := lastSector acc |}
  else if decide (sector > lastSector acc) then
  {| first := first acc; firstSector := firstSector acc; last := i; lastSector := sector |}
  else acc.

Fixpoint scan (fuel : nat) (bat : buffer) (i j : Z) (acc : FirstAndLast) : result FirstAndLast :=
  match fuel with
  | O => Throw (OtherError "fuel")
  | S fuel =>
      if decide (j < zlen bat) then
        sector ← readUInt32BE bat j;
        scan fuel bat (i + 1) (j + 4) (step i sector acc)
      else Ok acc
  end.
End FirstLast.

(** [None] is [undefined]. *)
Definition getFirstAndLastBlocks (bat : buffer) : result (option FirstAndLast) :=
  if decide (zlen bat = 0) then Ok None
  else
    js_assert (bool_decide (zlen bat mod 4 = 0)) "bat length" ;;
    let fuel := S (Z.to_nat (zlen bat / 4)) in
    r ← FirstLast.find_first fuel bat 0 0;
    match r with
    | None => Ok None
    | Some (i, j, sector) =>
        acc ← FirstLast.scan fuel bat i j
                {| first := i; firstSector := sector; last := i; lastSector := sector |};
        Ok (Some acc)
    end.

(** [i] is an allocated block of the table. *)
Definition allocated (bat : buffer) (i : Z) : Prop :=
  0 ≤ i < zlen bat / 4 ∧ bat_entry bat i ≠ BLOCK_UNUSED.

(** [r] gives the extrema of the entries of the allocated blocks below [n]. *)
Definition extrema (bat : buffer) (n : Z) (r : FirstAndLast) : Prop :=
  allocated bat (first r) ∧ bat_entry bat (first r) = firstSector r ∧
  allocated bat (last r) ∧ bat_entry bat (last r) = lastSector r ∧
  firstSector r ≤ lastSector r ∧
  ∀ i, allocated bat i → i < n → firstSector r ≤ bat_entry bat i ≤ lastSector r.

Section first_last.
Context (bat : buffer) (Hm : zlen bat mod 4 = 0).

Let n := zlen bat / 4.

Lemma zlen_bat_n : zlen bat = 4 * n.
Proof. pose proof (Z.div_mod (zlen bat) 4 ltac:(lia)). unfold n. lia. Qed.

Lemma read_entry i :
  0 ≤ i < n → readUInt32BE bat (i * 4) = Ok (bat_entry bat i).
Proof. intros. apply readUInt32BE_ok; [lia|]. rewrite zlen_bat_n. lia. Qed.

Lemma find_first_spec fuel i :
  0 ≤ i < n → n < Z.of_nat fuel + i →
  (∀ k, allocated bat k → i ≤ k) →
  FirstLast.find_first fuel bat i (i * 4) = Ok None ∧ (∀ k, ¬ allocated bat k) ∨
  ∃ k, FirstLast.find_first fuel bat i (i * 4) = Ok (Some (k, k * 4, bat_entry bat k)) ∧
   allocated bat k ∧ (∀ k', allocated bat k' → k ≤ k').
Proof.
  revert i. induction fuel as [|fuel IH]; intros i Hi Hf Hlow; [lia|].
  cbn [FirstLast.find_first]. rewrite read_entry by done. cbn [mbind result_bind].
  destruct (decide (bat_entry bat i = BLOCK_UNUSED)) as [Hu|Hu].
  - assert (Hlow' : ∀ k, allocated bat k → i + 1 ≤ k).
    { intros k Hk. specialize (Hlow k Hk). destruct Hk as [? Hne].
      destruct (decide (k = i)) as [->|]; [done|lia]. }
    case_decide as He.
    + left. split; [done|]. intros k Hk. specialize (Hlow' k Hk).
      destruct Hk as [Hk _]. rewrite zlen_bat_n in He. fold n in Hk. lia.
    + replace (i * 4 + 4) with ((i + 1) * 4) in * by lia.
      apply IH; [rewrite zlen_bat_n in He; lia|lia|done].
  - right. exists i. split; [done|]. split; [by split|done].
Qed.

Lemma step_extrema i r :
  0 ≤ i < n → extrema bat i r →
  extrema bat (i + 1) (FirstLast.step i (bat_entry bat i) r).
Proof.
  intros Hi (Hf & Hfs & Hl & Hls & Hle & Hall).
  assert (Hcase : ∀ P : Z → Prop, (∀ k, allocated bat k → k < i → P k) →
    (allocated bat i → P i) → ∀ k, allocated bat k → k < i + 1 → P k).
  { intros P Hlt Hit k Hk Hki. destruct (decide (k = i)) as [->|]; [auto|].
    apply Hlt; [done|lia]. }
  unfold FirstLast.step.
  repeat case_decide; split_and!; cbn [first last firstSector lastSector];
    try done; try lia; (apply Hcase; [intros k Hk Hki; specialize (Hall k Hk Hki); lia|]);
    intros [_ Hi']; lia.
Qed.

Lemma scan_spec fuel i r :
  0 ≤ i ≤ n → n < Z.of_nat fuel + i → extrema bat i r →
  ∃ r', FirstLast.scan fuel bat i (i * 4) r = Ok r' ∧ extrema bat n r'.
Proof.
  revert i r. induction fuel as [|fuel IH]; intros i r Hi Hf Hr; [lia|].
  cbn [FirstLast.scan]. pose proof zlen_bat_n.
  case_decide.
  - rewrite read_entry by lia. cbn [mbind result_bind].
    replace (i * 4 + 4) with ((i + 1) * 4) by lia.
    apply IH; [lia|lia|]. apply step_extrema; [lia|done].
  - exists r. split; [done|]. by replace n with i by lia.
Qed.

Lemma getFirstAndLastBlocks_lemma :
  getFirstAndLastBlocks bat = Ok None ∧ (∀ k, ¬ allocated bat k) ∨
  ∃ r, getFirstAndLastBlocks bat = Ok (Some r) ∧ extrema bat n r.
Proof.
  pose proof zlen_bat_n. pose proof (zlen_nonneg bat).
  unfold getFirstAndLastBlocks. case_decide.
  { left. split; [done|]. intros k [Hk _]. fold n in Hk. lia. }
  rewrite bool_decide_eq_true_2 by done. cbn [js_assert mbind result_bind].
  fold n.
  destruct (find_first_spec (S (Z.to_nat n)) 0) as [[Hr Hno]|(k & Hr & Hk & Hmin)].
  - lia.
  - lia.
  - intros k [Hk _]. lia.
  - left. change 0 with (0 * 4) at 2. rewrite Hr. done.
  - right. change 0 with (0 * 4) at 2. rewrite Hr. cbn [mbind result_bind].
    destruct (scan_spec (S (Z.to_nat n)) k
      {| first := k; firstSector := bat_entry bat k;
      last := k; lastSector := bat_entry bat k |}) as (r & -> & Hx).
    + destruct Hk as [? _]. fold n in H1. lia.
    + destruct Hk as [? _]. fold n in H1. lia.
    + split_and!; try done. intros i Hi Hlt. specialize (Hmin i Hi). lia.
    + eauto.
Qed.
End first_last.

(** ** Disk geometry ([_computeGeometryForSize.js])

    [cylinderTimesHeads] is the rational [totalSectors / sectorsPerTrackCylinder].
    The numerators stay below 2^32, where a double division neither reaches nor
    crosses an integer it should not, so the comparisons and roundings of the
    source are those of the exact quotient. *)

Record Geometry := {
  cylinders : Z;
  heads : Z;
  sectorsPerTrackCylinder : Z;
  actualSize : Z;
}.

Definition MAX_SECTORS : Z := 65535 * 16 * 255.

Definition computeGeometryForSize (size : Z) : Geometry :=
  let totalSectors := Z.min (ceil_div size 512) MAX_SECTORS in
  let '(spt, hd) :=
    if decide (totalSectors >= 65535 * 16 * 63) then (255, 16)
    else
      let spt := 17 in
      (* Math.floor((cylinderTimesHeads + 1023) / 1024) *)
      let hd := (totalSectors + 1023 * spt) / (1024 * spt) in
      let hd := if decide (hd < 4) then 4 else hd in
      let '(spt, hd) :=
        if decide (totalSectors >= hd * 1024 * spt ∨ hd > 16) then (31, 16) else (spt, hd) in
      if decide (totalSectors >= hd * 1024 * spt) then (63, 16) else (spt, hd)
  in
  let cyl := ceil_div totalSectors (spt * hd) in
  {| cylinders := cyl; heads := hd; sectorsPerTrackCylinder := spt;
     actualSize := cyl * hd * spt * SECTOR_SIZE |}.

(** The geometry fits the fields of a VHD footer. *)
Lemma geometry_bounds size :
  0 ≤ size →
  let g := computeGeometryForSize size in
  0 ≤ cylinders g ≤ 65535 ∧ 4 ≤ heads g ≤ 16 ∧ 17 ≤ sectorsPerTrackCylinder g ≤ 255.
Proof.
  intros Hs. cbv zeta. unfold computeGeometryForSize.
  pose proof (ceil_div_nonneg size 512 ltac:(lia) Hs).
  set (t := Z.min (ceil_div size 512) MAX_SECTORS).
  assert (Ht : 0 ≤ t ≤ MAX_SECTORS) by (unfold t, MAX_SECTORS; lia).
  clearbody t. unfold MAX_SECTORS in Ht.
  repeat case_decide; cbn [cylinders heads sectorsPerTrackCylinder];
    (split; [|lia]); split;
    first [apply ceil_div_nonneg; lia | apply ceil_div_le; lia].
Qed.

(** ** Properties *)

(** Setting bit [i] of a bitmap large enough makes [i] test true, leaves the
    test of every other bit and the length of the bitmap unchanged. *)
Theorem bitmap_set_test m i j :
  0 ≤ i < 8 * zlen m → 0 ≤ j →
  zlen (Bitmap.set m i) = zlen m ∧
  Bitmap.test (Bitmap.set m i) j = bool_decide (i = j) || Bitmap.test m j.
Proof. intros. split; [apply zlen_bitmap_set|apply bitmap_test_set_lemma; lia]. Qed.

Lemma bitmap_set_test_witness :
  zlen (Bitmap.set [0; 0] 11) = 2 ∧ Bitmap.test (Bitmap.set [0; 0] 11) 11 = true.
Proof.
  destruct (bitmap_set_test [0; 0] 11 11) as [Hl Ht]; [vm_compute; intuition congruence..|].
  split; [exact Hl|rewrite Ht; reflexivity].
Defined.

(** On a table of whole entries, [getFirstAndLastBlocks] returns normally:
    [undefined] when no block is allocated, and otherwise allocated blocks whose
    sectors are the lowest and the highest of all the allocated ones. *)
Theorem getFirstAndLastBlocks_correct bat :
  zlen bat mod 4 = 0 →
  getFirstAndLastBlocks bat = Ok None ∧ (∀ k, ¬ allocated bat k) ∨
  ∃ r, getFirstAndLastBlocks bat = Ok (Some r) ∧ extrema bat (zlen bat / 4) r.
Proof. apply getFirstAndLastBlocks_lemma. Qed.

Lemma getFirstAndLastBlocks_correct_witness :
  ∃ r, getFirstAndLastBlocks (BUF_BLOCK_UNUSED ++ be_encode 4 9 ++ be_encode 4 5) = Ok (Some r)
       ∧ firstSector r = 5 ∧ lastSector r = 9.
Proof.
  destruct (getFirstAndLastBlocks_correct (BUF_BLOCK_UNUSED ++ be_encode 4 9 ++ be_encode 4 5))
    as [[H _]|(r & H & _)]; [reflexivity|vm_compute in H; discriminate|].
  exists r. split; [exact H|]. vm_compute in H. injection H as <-. split; reflexivity.
Defined.

(** C34: for every size the geometry fits the 16-bit and 8-bit fields of a VHD
    footer, and the disk it describes holds the requested size (up to the
    largest disk a geometry can describe). *)
Theorem computeGeometryForSize_correct size :
  0 ≤ size →
  let g := computeGeometryForSize size in
  (0 ≤ cylinders g ≤ 65535 ∧ 4 ≤ heads g ≤ 16 ∧ 17 ≤ sectorsPerTrackCylinder g ≤ 255) ∧
  Z.min size (MAX_SECTORS * SECTOR_SIZE) ≤ actualSize g ∧
  actualSize g = cylinders g * heads g * sectorsPerTrackCylinder g * SECTOR_SIZE.
Proof.
  intros Hs. cbv zeta. split; [by apply geometry_bounds|].
  unfold computeGeometryForSize.
  pose proof (ceil_div_nonneg size 512 ltac:(lia) Hs).
  pose proof (ceil_div_spec size 512 ltac:(lia)).
  set (t := Z.min (ceil_div size 512) MAX_SECTORS).
  assert (Ht : 0 ≤ t ∧ Z.min size (MAX_SECTORS * SECTOR_SIZE) ≤ t * SECTOR_SIZE)
    by (unfold t, MAX_SECTORS, SECTOR_SIZE; lia).
  clearbody t. destruct Ht as [Ht0 Ht].
  assert (Hcover : ∀ spt hd, 17 ≤ spt → 4 ≤ hd →
    t * SECTOR_SIZE ≤ ceil_div t (spt * hd) * hd * spt * SECTOR_SIZE).
  { intros spt hd ? ?. pose proof (ceil_div_spec t (spt * hd) ltac:(nia)).
    unfold SECTOR_SIZE. nia. }
  repeat case_decide; cbn [cylinders heads sectorsPerTrackCylinder actualSize];
    (split; [|done]); (etrans; [exact Ht|]); apply Hcover; lia.
Qed.

Lemma computeGeometryForSize_correct_witness :
  let g := computeGeometryForSize 1000000 in 1000000 ≤ actualSize g ∧ heads g = 4.
Proof.
  cbv zeta. destruct (computeGeometryForSize_correct 1000000) as (_ & Hc & _); [lia|].
  split; [etrans; [|exact Hc]; vm_compute; congruence|reflexivity].
Defined.
