(* ===== verification/ZeroFilter.v ===== *)
(** * The zero-page filter of VHD directories

    [packages/vhd-lib/Vhd/_zeroFilter.js]: [removeZeroPages] drops the pages
    full of zeroes of a chunk, [restoreZeroPages] gives the chunk back. *)

From S2P Require Import Prelude Buffers.

Definition PAGE_SIZE : Z := 4096.
Definition LENGTH_SIZE : Z := 4.
Definition REGION_SIZE : Z := 64 * 1024.
Definition PAGES_PER_REGION : Z := REGION_SIZE / PAGE_SIZE.
Definition ZERO_REGION : buffer := zrep REGION_SIZE 0.

(** [length % PAGE_SIZE || PAGE_SIZE] *)
Definition getFirstPageSize (length : Z) : Z :=
  if decide (length mod PAGE_SIZE = 0) then PAGE_SIZE else length mod PAGE_SIZE.

(** [buffer.compare(ZERO_REGION, 0, end - start, start, end) === 0], after the
    cheap checks of the first and last bytes *)
Definition isZero (b : buffer) (s e : Z) : bool :=
  bool_decide (zget b s = Some 0) && bool_decide (zget b (e - 1) = Some 0) &&
  bool_decide (sub s (e - s) b = sub 0 (e - s) ZERO_REGION).

(** [(filtered[LENGTH_SIZE + (pageIndex >> 3)] & (1 << (pageIndex & 7))) !== 0] *)
Definition isStored (filtered : buffer) (pageIndex : Z) : bool :=
  let byte := default 0 (zget filtered (LENGTH_SIZE + Z.shiftr pageIndex 3)) in
  negb (Z.land byte (Z.shiftl 1 (Z.land pageIndex 7)) =? 0).

(** [header[LENGTH_SIZE + (pageIndex >> 3)] |= 1 << (pageIndex & 7)] *)
Definition setStored (header : buffer) (pageIndex : Z) : buffer :=
  let i := LENGTH_SIZE + Z.shiftr pageIndex 3 in
  match zget header i with
  | Some byte => <[Z.to_nat i := Z.lor byte (Z.shiftl 1 (Z.land pageIndex 7))]> header
  | None => header
  end.

(** ** [removeZeroPages]

    The parts are references to buffers: two parts that are the same buffer
    object ([part === runPart]) are the same reference. *)

Section remove.
Context (mem : nat → buffer).

Record run_state := {
  rs_header : buffer;
  rs_result : list buffer;        (* the runs pushed after the header *)
  rs_run : option (nat * Z * Z);  (* runPart, runStart, runEnd *)
}.

Definition push_run (st : run_state) : list buffer :=
  match rs_run st with
  | Some (p, s, e) => rs_result st ++ [buf_slice (mem p) s e]
  | None => rs_result st
  end.

Definition store (st : run_state) (part : nat) (s e : Z) : run_state :=
  let fresh := {| rs_header := rs_header st; rs_result := push_run st; rs_run := Some (part, s, e) |} in
  match rs_run st with
  | Some (p, rs, re) =>
      if decide (part = p ∧ s = re) then
        {| rs_header := rs_header st; rs_result := rs_result st; rs_run := Some (p, rs, e) |}
      else fresh
  | None => fresh
  end.

(** Moves to the part that holds [pageStart]: [left] is
[parts.slice(partIndex)]. *)
Fixpoint advance (left : list nat) (partStart pageStart : Z) : result (list nat * Z) :=
  match left with
  | [] => Throw (TypeError "parts[partIndex] is undefined")
  | p :: rest =>
      if decide (pageStart >= partStart + zlen (mem p))
      then advance rest (partStart + zlen (mem p)) pageStart
      else Ok (left, partStart)
  end.

(** Skips the regions full of zeroes. *)
Fixpoint skip_regions (fuel : nat) (part : nat) (nbPages pageIndex next : Z) : Z * Z :=
  match fuel with
  | O => (pageIndex, next)
  | S fuel =>
      if (pageIndex + PAGES_PER_REGION <=? nbPages)
         && (next + REGION_SIZE <=? zlen (mem part))
         && isZero (mem part) next (next + REGION_SIZE)
      then skip_regions fuel part nbPages (pageIndex + PAGES_PER_REGION) (next + REGION_SIZE)
      else (pageIndex, next)
  end.

(** The slices of a page that spans several parts. *)
Fixpoint page_slices (left : list nat) (sliceStart remaining : Z) : result (list (nat * Z * Z)) :=
  if decide (remaining > 0) then
  match left with
  | [] => Throw (TypeError "parts[i] is undefined")
  | p :: rest =>
    let sliceEnd := Z.min (zlen (mem p)) (sliceStart + remaining) in
    if decide (sliceEnd > sliceStart) then
      slices ← page_slices rest 0 (remaining - (sliceEnd - sliceStart));
      Ok ((p, sliceStart, sliceEnd) :: slices)
    else page_slices rest 0 remaining
  end
  else Ok [].

Definition store_slices (st : run_state) (slices : list (nat * Z * Z)) : run_state :=
  foldl (λ st '(p, s, e), store st p s e) st slices.

Definition mark_stored (st : run_state) (pageIndex : Z) : run_state :=
  {| rs_header := setStored (rs_header st) pageIndex;
  rs_result := rs_result st; rs_run := rs_run st |}.

(** The loop on the pages. *)
Fixpoint pages_loop (fuel : nat) (nbPages : Z) (left : list nat)
  (partStart pageIndex pageStart pageEnd : Z) (st : run_state) : result run_state :=
  if decide (pageIndex < nbPages) then
  match fuel with
  | O => Throw (OtherError "fuel")
  | S fuel =>
    '(left, partStart) ← advance left partStart pageStart;
    match left with
    | [] => Throw (TypeError "parts[partIndex] is undefined")
    | part :: _ =>
        let s := pageStart - partStart in
        let e := pageEnd - partStart in
        let next_page st :=
          pages_loop fuel nbPages left partStart (pageIndex + 1) pageEnd
            (pageEnd + PAGE_SIZE) st in
        if decide (e <= zlen (mem part)) then
          if isZero (mem part) s e then
            let '(pageIndex, next) :=
              skip_regions (Z.to_nat nbPages) part nbPages (pageIndex + 1) e in
            pages_loop fuel nbPages left partStart pageIndex (partStart + next)
              (partStart + next + PAGE_SIZE) st
          else next_page (mark_stored (store st part s e) pageIndex)
        else
          slices ← page_slices left s (pageEnd - pageStart);
          if forallb (λ '(p, s, e), isZero (mem p) s e) slices then next_page st
          else next_page (mark_stored (store_slices st slices) pageIndex)
    end
  end
  else Ok st.

Definition removeZeroPages (parts : list nat) : result (list buffer) :=
  let length := foldl (λ l p, l + zlen (mem p)) 0 parts in
  js_assert (bool_decide (length <= 0xffffffff)) "chunk is too large" ;;
  let nbPages := ceil_div length PAGE_SIZE in
  header ← writeUInt32BE length 0 (zrep (LENGTH_SIZE + ceil_div nbPages 8) 0);
  st ← pages_loop (Z.to_nat nbPages) nbPages parts 0 0 0 (getFirstPageSize length)
     {| rs_header := header; rs_result := []; rs_run := None |};
  Ok (rs_header st :: push_run st).
End remove.

(** ** [restoreZeroPages] *)

(** The number of stored pages. *)
Definition count_stored (filtered : buffer) (nbPages : Z) : Z :=
  foldl (λ n i, if isStored filtered i then n + 1 else n) 0 (zrange 0 nbPages).

(** The end of the run of pages that starts with page [i - 1]. *)
Fixpoint run_end (fuel : nat) (filtered : buffer) (nbPages : Z) (stored : bool) (i e : Z) : Z * Z :=
  match fuel with
  | O => (i, e)
  | S fuel =>
      if (i <? nbPages) && Bool.eqb (isStored filtered i) stored
      then run_end fuel filtered nbPages stored (i + 1) (e + PAGE_SIZE)
      else (i, e)
  end.

Fixpoint restore_loop (fuel : nat) (filtered : buffer) (nbPages firstPageSize : Z)
    (i offset start : Z) (chunk : buffer) : result buffer :=
  if decide (i < nbPages) then
    match fuel with
    | O => Throw (OtherError "fuel")
    | S fuel =>
        let stored := isStored filtered i in
        let e := if decide (i = 0) then firstPageSize else start + PAGE_SIZE in
        let '(i, e) := run_end (Z.to_nat nbPages) filtered nbPages stored (i + 1) e in
        if stored then
          restore_loop fuel filtered nbPages firstPageSize i (offset + (e - start)) e
            (buf_copy chunk start (buf_slice filtered offset (offset + e - start)))
        else
          restore_loop fuel filtered nbPages firstPageSize i offset e
            (buf_copy chunk start (zrep (e - start) 0))
    end
  else Ok chunk.

(** [unsafe n] is what [Buffer.allocUnsafe(n)] holds. *)
Definition restoreZeroPages (unsafe : Z → buffer) (filtered : buffer) : result buffer :=
  js_assert (bool_decide (zlen filtered >= LENGTH_SIZE)) "truncated chunk" ;;
  length ← readUInt32BE filtered 0;
  let nbPages := ceil_div length PAGE_SIZE in
  let dataStart := LENGTH_SIZE + ceil_div nbPages 8 in
  js_assert (bool_decide (zlen filtered >= dataStart)) "truncated chunk" ;;
  let firstPageSize := getFirstPageSize length in
  let nbStored := count_stored filtered nbPages in
  let storedSize := nbStored * PAGE_SIZE -
    (if (0 <? nbPages) && isStored filtered 0 then PAGE_SIZE - firstPageSize else 0) in
  js_assert (bool_decide (zlen filtered - dataStart = storedSize)) "the chunk does not match its bitmap" ;;
  if decide (storedSize = length) then Ok (buf_slice filtered dataStart (zlen filtered))
  else restore_loop (Z.to_nat nbPages) filtered nbPages firstPageSize 0 dataStart 0 (unsafe length).

(** ** The pages of a chunk *)

Lemma first_page_size len :
  0 < len →
  0 < getFirstPageSize len ≤ PAGE_SIZE ∧
  getFirstPageSize len + (ceil_div len PAGE_SIZE - 1) * PAGE_SIZE = len.
Proof.
  intros. unfold getFirstPageSize, ceil_div.
  pose proof (Z.div_mod len PAGE_SIZE ltac:(done)) as Hd.
  pose proof (Z.mod_pos_bound len PAGE_SIZE ltac:(done)).
  unfold PAGE_SIZE in *. case_decide as E.
  - rewrite <- (Z.div_unique (len + 4096 - 1) 4096 (len / 4096) 4095) by lia. lia.
  - rewrite <- (Z.div_unique (len + 4096 - 1) 4096 (len / 4096 + 1) (len mod 4096 - 1)) by lia. lia.
Qed.

Lemma isZero_spec b s e :
  0 ≤ s < e → e ≤ zlen b → e - s ≤ REGION_SIZE →
  isZero b s e = bool_decide (sub s (e - s) b = zrep (e - s) 0).
Proof.
  intros Hs He Hr. unfold isZero.
  assert (Hz : sub 0 (e - s) ZERO_REGION = zrep (e - s) 0).
  { apply list_eq_zget; rewrite zlen_sub; rewrite ?zlen_zrep; unfold ZERO_REGION;
      rewrite ?zlen_zrep; try lia.
    intros i Hi. rewrite zget_sub by lia. by rewrite !zget_zrep by lia. }
  rewrite Hz. apply Bool.eq_iff_eq_true.
  rewrite !andb_true_iff, !bool_decide_eq_true.
  split; [tauto|]. intros E. split; [|done].
  assert (Hg : ∀ i, 0 ≤ i < e - s → zget b (s + i) = Some 0).
  { intros i Hi. rewrite <- (zget_sub s (e - s)) by lia. rewrite E.
    by apply zget_zrep. }
  split; [rewrite <- (Z.add_0_r s); apply Hg; lia|].
  replace (e - 1) with (s + (e - 1 - s)) by lia. apply Hg. lia.
Qed.

Lemma zlen_setStored h i : zlen (setStored h i) = zlen h.
Proof. unfold setStored, zlen. case_match; [by rewrite length_insert|done]. Qed.

Lemma isStored_testbit h i :
  0 ≤ i → isStored h i = Z.testbit (default 0 (zget h (LENGTH_SIZE + i / 8))) (i mod 8).
Proof.
  intros Hi. unfold isStored. destruct (bit_index i Hi) as [-> ->].
  pose proof (Z.mod_pos_bound i 8 ltac:(lia)).
  rewrite Z.shiftl_1_l. by rewrite land_pow2_testbit by lia.
Qed.

Lemma isStored_setStored h i j :
  0 ≤ i → LENGTH_SIZE + i / 8 < zlen h → 0 ≤ j →
  isStored (setStored h i) j = bool_decide (i = j) || isStored h j.
Proof.
  intros Hi Hm Hj. rewrite !isStored_testbit by done. unfold setStored.
  destruct (bit_index i Hi) as [-> ->].
  pose proof (Z.mod_pos_bound i 8 ltac:(lia)). pose proof (Z.mod_pos_bound j 8 ltac:(lia)).
  pose proof (Z.div_mod i 8 ltac:(lia)). pose proof (Z.div_mod j 8 ltac:(lia)).
  unfold LENGTH_SIZE in *.
  destruct (zget_is_Some h (4 + i / 8)) as [x Hx]; [lia|]. rewrite Hx.
  rewrite zget_insert by lia. case_decide as Heq.
  - rewrite <- Heq, Hx. cbn [default from_option id]. rewrite Z.lor_spec, orb_comm.
    rewrite Z.shiftl_1_l, Z.pow2_bits_eqb by lia. f_equal.
    destruct (Z.eqb_spec (i mod 8) (j mod 8)); case_bool_decide; lia.
  - by rewrite bool_decide_eq_false_2 by (intros ->; done).
Qed.

(** Writing the length does not touch the bitmap, nor the bitmap the length. *)
Lemma sub_setStored h i :
  0 ≤ i → sub 0 4 (setStored h i) = sub 0 4 h.
Proof.
  intros. unfold setStored. case_match; [|done].
  unfold sub. rewrite !drop_0. rewrite take_insert_ge; [done|].
  destruct (bit_index i ltac:(done)) as [-> _].
  pose proof (Z.div_pos i 8 ltac:(lia) ltac:(lia)). unfold LENGTH_SIZE. lia.
Qed.

Section pages.
Context (C : buffer).

Let len := zlen C.
Let nb := ceil_div len PAGE_SIZE.
Let fst_size := getFirstPageSize len.

Definition page_start (i : Z) : Z :=
  if decide (i = 0) then 0 else getFirstPageSize (zlen C) + (i - 1) * PAGE_SIZE.
Definition page_end (i : Z) : Z := getFirstPageSize (zlen C) + i * PAGE_SIZE.
Definition page (i : Z) : buffer := sub (page_start i) (page_end i - page_start i) C.
Definition page_is_zero (i : Z) : bool :=
  bool_decide (page i = zrep (page_end i - page_start i) 0).

(** The pages below [i] that [keep] selects. *)
Definition kept (keep : Z → bool) (i : Z) : buffer :=
  mjoin ((λ j, if keep j then page j else []) <$> zrange 0 i).

Lemma page_bounds i :
  0 ≤ i < nb → 0 ≤ page_start i < page_end i ∧ page_end i ≤ len ∧
  page_end i - page_start i ≤ PAGE_SIZE.
Proof.
  intros Hi. assert (Hl : 0 < len).
  { destruct (decide (0 < len)); [done|]. unfold nb in Hi.
    assert (len = 0) as E by (pose proof (zlen_nonneg C); unfold len in *; lia).
    rewrite E in Hi. change (ceil_div 0 PAGE_SIZE) with 0 in Hi. lia. }
  destruct (first_page_size len Hl) as [Hf Hlast]. fold nb in Hlast.
  unfold page_start, page_end. fold len. unfold PAGE_SIZE in *.
  case_decide; lia.
Qed.

Lemma page_start_succ i : 0 ≤ i → page_start (i + 1) = page_end i.
Proof. intros. unfold page_start, page_end. rewrite decide_False by lia. lia. Qed.

Lemma page_start_nb : page_start nb = len.
Proof.
  unfold page_start. fold len. case_decide as E.
  - unfold nb in E. pose proof (ceil_div_spec len PAGE_SIZE ltac:(done)) as H.
    rewrite E in H. pose proof (zlen_nonneg C). unfold len, PAGE_SIZE in *. lia.
  - destruct (decide (0 < len)) as [Hl|Hl].
    + destruct (first_page_size len Hl) as [_ H]. done.
    + exfalso. apply E. unfold nb. pose proof (zlen_nonneg C).
      assert (len = 0) as -> by (unfold len in *; lia). done.
Qed.

Lemma page_start_bounds i : 0 ≤ i ≤ nb → 0 ≤ page_start i ≤ len.
Proof.
  intros. destruct (decide (i = nb)) as [->|].
  - rewrite page_start_nb. pose proof (zlen_nonneg C). unfold len. lia.
  - destruct (page_bounds i); lia.
Qed.

Lemma page_start_mono i j : 0 ≤ i ≤ j → j ≤ nb → page_start i ≤ page_start j.
Proof.
  intros. pose proof (page_start_bounds j ltac:(lia)).
  unfold page_start in *. repeat case_decide; unfold PAGE_SIZE in *; lia.
Qed.

Lemma zlen_page i : 0 ≤ i < nb → zlen (page i) = page_end i - page_start i.
Proof. intros Hi. destruct (page_bounds i Hi) as (? & ? & ?). apply zlen_sub; unfold len in *; lia. Qed.

Lemma kept_0 keep : kept keep 0 = [].
Proof. done. Qed.

Lemma kept_succ keep i :
  0 ≤ i → kept keep (i + 1) = kept keep i ++ (if keep i then page i else []).
Proof.
  intros. unfold kept. rewrite zrange_snoc, fmap_app by lia.
  rewrite join_app. cbn. by rewrite app_nil_r.
Qed.

Lemma sub_page_start_succ i :
  0 ≤ i < nb → sub 0 (page_start (i + 1)) C = sub 0 (page_start i) C ++ page i.
Proof.
  intros Hi. destruct (page_bounds i Hi) as (? & ? & ?).
  rewrite page_start_succ by lia. unfold page.
  replace (page_end i) with (page_start i + (page_end i - page_start i)) at 1 by lia.
  rewrite sub_split by lia. done.
Qed.

(** The kept pages are at most the chunk, and exactly the chunk when they have
its length. *)
Lemma zlen_kept_le keep i :
  0 ≤ i ≤ nb → zlen (kept keep i) ≤ page_start i ∧
  (zlen (kept keep i) = page_start i → kept keep i = sub 0 (page_start i) C).
Proof.
  intros [H0 Hn]. revert Hn. pattern i. apply natlike_ind; [|clear i H0|done].
  - intros _. rewrite kept_0. split; [by vm_compute|done].
  - intros i Hi IH Hn. specialize (IH ltac:(lia)). destruct IH as [IH1 IH2].
    change (Z.succ i) with (i + 1).
    destruct (page_bounds i ltac:(lia)) as (? & ? & ?).
    rewrite kept_succ, zlen_app, sub_page_start_succ, page_start_succ by lia.
    destruct (keep i).
    + rewrite zlen_page by lia. split; [lia|]. intros. rewrite IH2 by lia. done.
    + rewrite (@zlen_nil Z). split; lia.
Qed.

Lemma count_kept keep i f :
  0 ≤ i ≤ nb → (∀ j, 0 ≤ j < i → isStored f j = keep j) →
  zlen (kept keep i) = count_stored f i * PAGE_SIZE -
  (if (0 <? i) && keep 0 then PAGE_SIZE - fst_size else 0).
Proof.
  intros [H0 Hn]. revert Hn. pattern i. apply natlike_ind; [|clear i H0|done].
  - intros. done.
  - intros i Hi IH Hn Hf. specialize (IH ltac:(lia) ltac:(intros; apply Hf; lia)).
    change (Z.succ i) with (i + 1) in *.
    rewrite kept_succ, zlen_app, IH by lia.
    unfold count_stored. rewrite zrange_snoc, foldl_app by lia. cbn [foldl].
    fold (count_stored f i). rewrite Hf by lia.
    replace (0 <? i + 1) with true by lia. cbn [andb].
    destruct (decide (i = 0)) as [->|].
    + cbn [Z.ltb Z.compare andb]. destruct (keep 0); [|rewrite (@zlen_nil Z); lia].
      rewrite zlen_page by lia. unfold page_end, page_start. rewrite decide_True by done.
      unfold fst_size, len. lia.
    + replace (0 <? i) with true by lia. cbn [andb].
      destruct (keep i); [|rewrite (@zlen_nil Z); lia].
      rewrite zlen_page by lia. unfold page_end, page_start. rewrite decide_False by done. lia.
Qed.
End pages.

(** ** Restoring *)

Section restore.
Context (C filtered : buffer) (keep : Z → bool).

Let len := zlen C.
Let nb := ceil_div len PAGE_SIZE.
Let dataStart := LENGTH_SIZE + ceil_div nb 8.

Hypothesis Hlen : len ≤ 0xffffffff.
Hypothesis Hhead : sub 0 4 filtered = be_encode 4 len.
Hypothesis Hbits : ∀ j, 0 ≤ j < nb → isStored filtered j = keep j.
Hypothesis Hzero : ∀ j, 0 ≤ j < nb → keep j = false → page_is_zero C j = true.
Hypothesis Hdata : zlen filtered = dataStart + zlen (kept C keep nb).
Hypothesis Hkept : sub dataStart (zlen (kept C keep nb)) filtered = kept C keep nb.

Lemma nb_nonneg : 0 ≤ nb.
Proof. apply ceil_div_nonneg; [done|apply zlen_nonneg]. Qed.

Lemma dataStart_ge : LENGTH_SIZE ≤ dataStart.
Proof. pose proof (ceil_div_nonneg nb 8 ltac:(lia) nb_nonneg). unfold dataStart. lia. Qed.

Lemma kept_prefix i : 0 ≤ i ≤ nb → ∃ rest, kept C keep nb = kept C keep i ++ rest.
Proof.
  intros. unfold kept. rewrite (zrange_app 0 i nb), fmap_app, join_app by lia. eauto.
Qed.

(** Pages [k] to [i - 1], all stored or all removed. *)
Lemma kept_run k i s :
  0 ≤ k ≤ i → i ≤ nb → (∀ j, k ≤ j < i → keep j = s) →
  kept C keep i = kept C keep k ++
  (if s then sub (page_start C k) (page_start C i - page_start C k) C else []) ∧
  (s = false → sub (page_start C k) (page_start C i - page_start C k) C
           = zrep (page_start C i - page_start C k) 0).
Proof.
  intros [H0 Hki] Hn Hs.
  { pose proof Hki as Hki'. revert Hki Hn Hs. pattern i. apply (Z.right_induction _ _ k); [| |done].
    - intros. rewrite !sub_nil_len by lia. destruct s; rewrite app_nil_r; (split; [done|]);
        intros _; by replace (page_start C k - page_start C k) with 0 by lia.
    - clear i Hki'. intros i Hki IH _ Hn Hs.
      destruct (IH Hki ltac:(lia) ltac:(intros; apply Hs; lia)) as [IH1 IH2].
      change (Z.succ i) with (i + 1) in *.
      destruct (page_bounds C i ltac:(fold len nb; lia)) as (? & ? & ?).
      pose proof (page_start_bounds C k ltac:(fold len nb; lia)).
      pose proof (page_start_mono C k i ltac:(lia) ltac:(fold len nb; lia)).
      rewrite page_start_succ by lia.
      replace (page_end C i - page_start C k) with
        ((page_start C i - page_start C k) + (page_end C i - page_start C i)) by lia.
      rewrite sub_split by lia.
      replace (page_start C k + (page_start C i - page_start C k)) with (page_start C i) by lia.
      fold (page C i). rewrite kept_succ, IH1, (Hs i) by lia.
      split.
      + destruct s; by rewrite ?app_nil_r, <- ?app_assoc.
      + intros ->. rewrite IH2 by done.
        specialize (Hzero i ltac:(lia) (Hs i ltac:(lia))).
        unfold page_is_zero in Hzero. rewrite bool_decide_eq_true in Hzero.
        rewrite Hzero. unfold zrep. rewrite <- replicate_add. f_equal. lia. }
Qed.

Lemma run_end_spec fuel k i s :
  0 ≤ k → k < i ≤ nb → (∀ j, k ≤ j < i → keep j = s) →
  ∃ i', run_end fuel filtered nb s i (page_end C (i - 1)) = (i', page_end C (i' - 1)) ∧
  i ≤ i' ≤ nb ∧ (∀ j, k ≤ j < i' → keep j = s).
Proof.
  revert i. induction fuel as [|fuel IH]; intros i Hk Hi Hs; cbn [run_end]; [eauto with lia|].
  destruct (Z.ltb_spec i nb); cbn [andb]; [|eauto with lia].
  destruct (Bool.eqb_spec (isStored filtered i) s) as [E|]; [|eauto with lia].
  replace (page_end C (i - 1) + PAGE_SIZE) with (page_end C (i + 1 - 1))
    by (unfold page_end; lia).
  destruct (IH (i + 1)) as (i' & -> & ? & ?); [lia|lia| |eauto with lia].
  intros j Hj. destruct (decide (j = i)) as [->|]; [|apply Hs; lia].
  rewrite <- E. symmetry. apply Hbits. lia.
Qed.

Lemma restore_loop_spec fuel i chunk :
  0 ≤ i ≤ nb → nb ≤ Z.of_nat fuel + i →
  zlen chunk = len → sub 0 (page_start C i) chunk = sub 0 (page_start C i) C →
  restore_loop fuel filtered nb (getFirstPageSize len) i
  (dataStart + zlen (kept C keep i)) (page_start C i) chunk = Ok C.
Proof.
  revert i chunk. induction fuel as [|fuel IH]; intros i chunk Hi Hf Hl Hpre;
    cbn [restore_loop]; case_decide as Hlt.
  1, 2: try lia. 1, 3: replace i with nb in Hpre by lia; rewrite page_start_nb in Hpre;
    rewrite sub_all in Hpre; unfold len in Hl; rewrite <- Hl, sub_all in Hpre; by rewrite Hpre.
  rewrite Hbits by lia.
  assert (Hend : (if decide (i = 0) then getFirstPageSize len else page_start C i + PAGE_SIZE)
    = page_end C (i + 1 - 1)).
  { unfold page_start, page_end. fold len. case_decide; [subst; lia|]. lia. }
  rewrite Hend.
  destruct (run_end_spec (Z.to_nat nb) i (i + 1) (keep i)) as (i' & -> & Hi' & Hrun);
    [lia|lia|intros j Hj; f_equal; lia|].
  replace (page_end C (i' - 1)) with (page_start C i')
    by (replace i' with (i' - 1 + 1) at 1 by lia; apply page_start_succ; lia).
  destruct (kept_run i i' (keep i) ltac:(lia) ltac:(lia) Hrun) as [Hcat Hsub].
  pose proof (page_start_bounds C i ltac:(fold len nb; lia)).
  pose proof (page_start_bounds C i' ltac:(fold len nb; lia)).
  destruct (page_bounds C i ltac:(fold len nb; lia)) as (? & ? & ?).
  assert (page_end C i ≤ page_start C i').
  { rewrite <- page_start_succ by lia. unfold page_start.
    repeat case_decide; try lia; unfold PAGE_SIZE; lia. }
  assert (Hlc : len = zlen C) by done.
  assert (Hcopy : ∀ d, zlen d = page_start C i' - page_start C i →
    d = sub (page_start C i) (page_start C i' - page_start C i) C →
    zlen (buf_copy chunk (page_start C i) d) = len ∧
    sub 0 (page_start C i') (buf_copy chunk (page_start C i) d) = sub 0 (page_start C i') C).
  { intros d Hd Heq. unfold buf_copy. rewrite take_ge by (unfold zlen in *; lia).
    split; [rewrite zlen_bwrite_in; lia|].
    replace (page_start C i') with (page_start C i + (page_start C i' - page_start C i)) by lia.
    rewrite !sub_split, !Z.add_0_l by lia.
    rewrite sub_bwrite_disjoint, Hpre by lia. f_equal.
    rewrite <- Hd at 1. rewrite sub_bwrite_same by lia. done. }
  destruct (keep i) eqn:Hki.
  - destruct (kept_prefix i' ltac:(lia)) as [rest Hrest].
    assert (Hz : zlen (kept C keep i') = zlen (kept C keep i) + (page_start C i' - page_start C i)).
    { rewrite Hcat, zlen_app, zlen_sub; unfold len in *; lia. }
    assert (Hle : zlen (kept C keep i') ≤ zlen (kept C keep nb))
      by (rewrite Hrest, zlen_app; pose proof (zlen_nonneg rest); lia).
    assert (Hslice : buf_slice filtered (dataStart + zlen (kept C keep i))
      (dataStart + zlen (kept C keep i) + page_start C i' - page_start C i) =
      sub (page_start C i) (page_start C i' - page_start C i) C).
    { pose proof dataStart_ge. pose proof (zlen_nonneg (kept C keep i)).
      unfold LENGTH_SIZE in *.
      rewrite buf_slice_sub by lia.
      rewrite <- (sub_sub _ _ dataStart (zlen (kept C keep nb))) by lia.
      rewrite Hkept, Hrest, Hcat, <- app_assoc, sub_app_r, sub_app_l by (rewrite ?zlen_sub; unfold len in *; lia).
      replace (dataStart + zlen (kept C keep i) - dataStart - zlen (kept C keep i)) with 0 by lia.
      rewrite sub_sub by lia. f_equal; lia. }
    destruct (Hcopy (buf_slice filtered (dataStart + zlen (kept C keep i))
      (dataStart + zlen (kept C keep i) + page_start C i' - page_start C i))) as [Hc1 Hc2];
      [rewrite Hslice, zlen_sub; unfold len in *; lia|done|].
    replace (dataStart + zlen (kept C keep i) + (page_start C i' - page_start C i))
      with (dataStart + zlen (kept C keep i')) by lia.
    apply IH; [lia|lia|done|done].
  - rewrite app_nil_r in Hcat. rewrite <- Hcat.
    destruct (Hcopy (zrep (page_start C i' - page_start C i) 0)) as [Hc1 Hc2];
      [rewrite zlen_zrep; lia|by rewrite Hsub|].
    apply IH; [lia|lia|done|done].
Qed.

Lemma restoreZeroPages_lemma unsafe :
  (∀ n, 0 ≤ n → zlen (unsafe n) = n) → restoreZeroPages unsafe filtered = Ok C.
Proof.
  intros Hu. pose proof dataStart_ge. pose proof nb_nonneg.
  pose proof (zlen_nonneg (kept C keep nb)). pose proof (zlen_nonneg C).
  unfold restoreZeroPages, LENGTH_SIZE in *.
  pass_assert.
  rewrite readUInt32BE_ok by lia. cbn [mbind result_bind].
  rewrite Hhead, be_decode_encode, Z.mod_small by (cbn; unfold len in *; lia).
  fold nb. change (4 + ceil_div nb 8) with dataStart.
  pass_assert.
  assert (Hc : zlen (kept C keep nb) = count_stored filtered nb * PAGE_SIZE -
    (if (0 <? nb) && isStored filtered 0 then PAGE_SIZE - getFirstPageSize len else 0)).
  { rewrite (count_kept C keep nb filtered) by (try done; fold len nb; lia).
    destruct (Z.ltb_spec 0 nb); [rewrite Hbits by lia|]; done. }
  rewrite <- Hc. pass_assert.
  case_decide as E.
  - rewrite buf_slice_sub by lia. rewrite Hdata.
    replace (dataStart + zlen (kept C keep nb) - dataStart) with (zlen (kept C keep nb)) by lia.
    rewrite Hkept. destruct (zlen_kept_le C keep nb) as [_ Hall]; [fold len nb; lia|].
    rewrite page_start_nb in Hall. rewrite Hall by done. by rewrite sub_all.
  - replace dataStart with (dataStart + zlen (kept C keep 0)) by (rewrite kept_0, (@zlen_nil Z); lia).
    change 0 with (page_start C 0) at 3.
    apply restore_loop_spec; [lia|lia|apply Hu; unfold len; lia|done].
Qed.
End restore.

(** ** Removing *)

Lemma zero_bytes_iff b n : zlen b = n → b = zrep n 0 ↔ Forall (eq 0) b.
Proof.
  intros Hn. split.
  - intros ->. apply Forall_replicate. done.
  - intros H. symmetry. apply replicate_as_elem_of.
    split; [unfold zlen in Hn; lia|]. intros x Hx. rewrite Forall_forall in H.
    symmetry. by apply H.
Qed.

Section remove_proofs.
Context (mem : nat → buffer).

Definition all_bytes (ps : list nat) : buffer := mjoin (mem <$> ps).
Definition slice_bytes (x : nat * Z * Z) : buffer :=
  let '(p, s, e) := x in sub s (e - s) (mem p).
Definition slice_ok (x : nat * Z * Z) : Prop :=
  let '(p, s, e) := x in 0 ≤ s ≤ e ∧ e ≤ zlen (mem p).

(** What the runs recorded so far hold. *)
Definition out_bytes (st : run_state) : buffer :=
  mjoin (rs_result st) ++ from_option slice_bytes [] (rs_run st).
Definition run_ok (st : run_state) : Prop := from_option slice_ok True (rs_run st).

Lemma mjoin_push_run st : run_ok st → mjoin (push_run mem st) = out_bytes st.
Proof.
  unfold run_ok, push_run, out_bytes. destruct (rs_run st) as [[[p s] e]|]; cbn.
  - intros [? ?]. rewrite join_app, buf_slice_sub by lia. cbn. by rewrite app_nil_r.
  - intros _. by rewrite app_nil_r.
Qed.

Lemma store_spec st p s e :
  run_ok st → slice_ok (p, s, e) →
  run_ok (store mem st p s e) ∧ rs_header (store mem st p s e) = rs_header st ∧
  out_bytes (store mem st p s e) = out_bytes st ++ slice_bytes (p, s, e).
Proof.
  intros Hr Hs. pose proof (mjoin_push_run st Hr) as Hp.
  assert (Hfresh : out_bytes {| rs_header := rs_header st; rs_result := push_run mem st;
    rs_run := Some (p, s, e) |} = out_bytes st ++ slice_bytes (p, s, e)).
  { unfold out_bytes at 1. cbn [rs_result rs_run from_option]. by rewrite Hp. }
  unfold store. destruct (rs_run st) as [[[p' rs] re]|] eqn:E; [case_decide as Hc|]; try done.
  destruct Hc as [-> ->]. unfold run_ok, out_bytes in *. rewrite E in *. cbn in *.
  split; [lia|]. split; [done|]. rewrite <- app_assoc. f_equal.
  replace (e - rs) with ((re - rs) + (e - re)) by lia.
  rewrite sub_split by lia. do 2 f_equal; lia.
Qed.

Lemma store_slices_spec st sl :
  run_ok st → Forall slice_ok sl →
  run_ok (store_slices mem st sl) ∧ rs_header (store_slices mem st sl) = rs_header st ∧
  out_bytes (store_slices mem st sl) = out_bytes st ++ mjoin (slice_bytes <$> sl).
Proof.
  revert st. induction sl as [|[[p s] e] sl IH]; intros st Hr Hs.
  - cbn. by rewrite app_nil_r.
  - apply Forall_cons in Hs as [Hs Hsl]. cbn [store_slices foldl].
    destruct (store_spec st p s e Hr Hs) as (Hr' & Hh & Ho).
    destruct (IH _ Hr' Hsl) as (Hr'' & Hh' & Ho'). unfold store_slices in *.
    split; [done|]. split; [congruence|]. rewrite Ho', Ho. by rewrite <- app_assoc.
Qed.

Lemma all_bytes_nil : all_bytes [] = [].
Proof. done. Qed.
Lemma all_bytes_cons p ps : all_bytes (p :: ps) = mem p ++ all_bytes ps.
Proof. done. Qed.
Lemma all_bytes_app ps qs : all_bytes (ps ++ qs) = all_bytes ps ++ all_bytes qs.
Proof. unfold all_bytes. by rewrite fmap_app, join_app. Qed.

Lemma advance_spec left partStart pageStart :
  partStart ≤ pageStart < partStart + zlen (all_bytes left) →
  ∃ skipped p rest partStart',
  advance mem left partStart pageStart = Ok (p :: rest, partStart') ∧
  left = skipped ++ p :: rest ∧ partStart' = partStart + zlen (all_bytes skipped) ∧
  partStart' ≤ pageStart < partStart' + zlen (mem p).
Proof.
  revert partStart. induction left as [|p left IH]; intros partStart H.
  - rewrite all_bytes_nil, (@zlen_nil Z) in H. lia.
  - cbn [advance]. rewrite all_bytes_cons, zlen_app in H. case_decide.
    + destruct (IH (partStart + zlen (mem p))) as (sk & p' & rest & ps & -> & -> & -> & ?);
        [lia|].
      exists (p :: sk), p', rest, (partStart + zlen (mem p) + zlen (all_bytes sk)).
      split_and!; try done; try lia.
      rewrite all_bytes_cons, zlen_app. lia.
    + exists [], p, left, partStart. rewrite all_bytes_nil, (@zlen_nil Z).
      split_and!; try done; lia.
Qed.

Lemma page_slices_spec left s n :
  0 ≤ s → 0 ≤ n → s + n ≤ zlen (all_bytes left) →
  (∀ p rest, left = p :: rest → s ≤ zlen (mem p)) →
  ∃ sl, page_slices mem left s n = Ok sl ∧
  mjoin (slice_bytes <$> sl) = sub s n (all_bytes left) ∧
  Forall (λ x, slice_ok x ∧ 0 < zlen (slice_bytes x) ≤ n) sl.
Proof.
  revert s n. induction left as [|p left IH]; intros s n Hs Hn Hl Hp.
  - rewrite all_bytes_nil, (@zlen_nil Z) in Hl. cbn [page_slices].
    rewrite decide_False by lia. exists []. rewrite sub_nil_len by lia. done.
  - specialize (Hp p left eq_refl). cbn [page_slices].
    rewrite all_bytes_cons in Hl |- *. rewrite zlen_app in Hl.
    pose proof (zlen_nonneg (all_bytes left)).
    destruct (decide (n > 0)) as [Hn0|];
      [|exists []; rewrite sub_nil_len by lia; done].
    destruct (decide (Z.min (zlen (mem p)) (s + n) > s)) as [Hgt|Hle].
    + set (e := Z.min (zlen (mem p)) (s + n)) in *.
      destruct (IH 0 (n - (e - s))) as (sl & -> & Hsl & Hok); [lia|lia|lia| |].
      { intros p' rest _. apply zlen_nonneg. }
      exists ((p, s, e) :: sl). cbn [mbind result_bind]. split; [done|]. split.
      * rewrite fmap_cons, mjoin_cons, Hsl. cbn [slice_bytes].
        replace n with ((e - s) + (n - (e - s))) at 2 by lia.
        rewrite sub_split by lia. rewrite sub_app_l by lia. f_equal.
        destruct (decide (n - (e - s) = 0)) as [Hz|]; [by rewrite !sub_nil_len by lia|].
        assert (e = zlen (mem p)) by lia.
        rewrite sub_app_r by lia. f_equal; lia.
      * constructor.
        -- cbn. rewrite zlen_sub by lia. lia.
        -- eapply Forall_impl; [exact Hok|]. intros x [? ?]. split; [done|lia].
    + destruct (IH 0 n) as (sl & -> & Hsl & Hok); [lia|lia|lia| |].
      { intros p' rest _. apply zlen_nonneg. }
      exists sl. split; [done|]. split; [|done]. rewrite Hsl, sub_app_r by lia. f_equal; lia.
Qed.

Lemma isZero_slice x :
  slice_ok x → 0 < zlen (slice_bytes x) ≤ PAGE_SIZE →
  (let '(p, s, e) := x in isZero (mem p) s e) = bool_decide (Forall (eq 0) (slice_bytes x)).
Proof.
  destruct x as [[p s] e]. cbn [slice_ok slice_bytes]. intros [? ?] Hl.
  rewrite zlen_sub in Hl by lia. unfold PAGE_SIZE in Hl.
  rewrite isZero_spec by (unfold REGION_SIZE; lia).
  apply bool_decide_ext. apply zero_bytes_iff. apply zlen_sub; lia.
Qed.

Lemma isZero_slices sl n :
  n ≤ PAGE_SIZE → Forall (λ x, slice_ok x ∧ 0 < zlen (slice_bytes x) ≤ n) sl →
  forallb (λ '(p, s, e), isZero (mem p) s e) sl =
  bool_decide (Forall (eq 0) (mjoin (slice_bytes <$> sl))).
Proof.
  intros Hn. induction 1 as [|x sl [Hx Hl] _ IH]; [done|].
  cbn [forallb]. rewrite IH.
  pose proof (isZero_slice x Hx ltac:(lia)) as E. destruct x as [[p s] e]. rewrite E.
  rewrite fmap_cons, mjoin_cons, <- bool_decide_and.
  apply bool_decide_ext. by rewrite Forall_app.
Qed.
End remove_proofs.

(** ** The loop of [removeZeroPages] *)

Section loop.
Context (mem : nat → buffer) (parts : list nat).

Let C := all_bytes mem parts.
Let nb := ceil_div (zlen C) PAGE_SIZE.
Definition keep_page (C : buffer) (j : Z) : bool := negb (page_is_zero C j).

(** The parts from [left] on start at [partStart]. *)
Definition at_part (left : list nat) (partStart : Z) : Prop :=
  ∃ before, parts = before ++ left ∧ zlen (all_bytes mem before) = partStart.

Lemma at_part_bytes left partStart o n :
  at_part left partStart → partStart ≤ o → sub o n C = sub (o - partStart) n (all_bytes mem left).
Proof.
  intros (before & Hp & Hl) Ho. unfold C. rewrite Hp, all_bytes_app.
  rewrite sub_app_r by lia. by rewrite Hl.
Qed.

Lemma at_part_len left partStart :
  at_part left partStart → 0 ≤ partStart ∧ zlen C = partStart + zlen (all_bytes mem left).
Proof.
  intros (before & Hp & Hl). unfold C. rewrite Hp, all_bytes_app, zlen_app, Hl.
  pose proof (zlen_nonneg (all_bytes mem before)). lia.
Qed.

Lemma at_part_head p rest partStart o n :
  at_part (p :: rest) partStart → partStart ≤ o → 0 ≤ n → o + n ≤ partStart + zlen (mem p) →
  sub o n C = sub (o - partStart) n (mem p).
Proof.
  intros H ? ? ?. rewrite (at_part_bytes _ _ _ _ H) by lia.
  rewrite all_bytes_cons, sub_app_l by lia. done.
Qed.

Lemma kept_skip k i :
  0 ≤ k ≤ i → (∀ j, k ≤ j < i → keep_page C j = false) →
  kept C (keep_page C) i = kept C (keep_page C) k.
Proof.
  intros [H0 Hk]. pose proof Hk as Hk'. revert Hk.
  pattern i. apply (Z.right_induction _ _ k); [done| |done].
  clear i Hk'. intros i Hki IH _ Hs. change (Z.succ i) with (i + 1) in *.
  rewrite kept_succ, (Hs i), app_nil_r by lia. apply IH; [done|]. intros; apply Hs; lia.
Qed.

Lemma page_zero_bytes i :
  0 ≤ i < nb → page_is_zero C i = bool_decide (Forall (eq 0) (page C i)).
Proof. intros Hi. apply bool_decide_ext, zero_bytes_iff. by apply zlen_page. Qed.

Lemma skip_regions_spec fuel p rest partStart i :
  at_part (p :: rest) partStart → 1 ≤ i ≤ nb → partStart ≤ page_start C i →
  ∃ i', skip_regions mem fuel p nb i (page_start C i - partStart)
      = (i', page_start C i' - partStart) ∧
  i ≤ i' ≤ nb ∧ (∀ j, i ≤ j < i' → keep_page C j = false).
Proof.
  intros Hat. revert i. induction fuel as [|fuel IH]; intros i Hi Hp; cbn [skip_regions];
    [eauto with lia|].
  set (next := page_start C i - partStart).
  destruct (Z.leb_spec (i + PAGES_PER_REGION) nb) as [Hi16|]; cbn [andb]; [|eauto with lia].
  destruct (Z.leb_spec (next + REGION_SIZE) (zlen (mem p))); cbn [andb]; [|eauto with lia].
  destruct (isZero (mem p) next (next + REGION_SIZE)) eqn:Ez; [|eauto with lia].
  change PAGES_PER_REGION with 16 in *. unfold REGION_SIZE in *.
  rewrite isZero_spec in Ez by (unfold REGION_SIZE; lia).
  apply bool_decide_eq_true in Ez. apply zero_bytes_iff in Ez; [|rewrite zlen_sub; lia].
  assert (Hst : ∀ j, i ≤ j → page_start C j = page_start C i + (j - i) * 4096).
  { intros j Hj. unfold page_start. rewrite !decide_False by lia. unfold PAGE_SIZE. lia. }
  replace (next + 64 * 1024) with (page_start C (i + 16) - partStart)
    by (rewrite (Hst (i + 16)) by lia; unfold next; lia).
  destruct (IH (i + 16)) as (i' & -> & Hi' & Hz); [lia|rewrite Hst; lia|].
  exists i'. split; [done|]. split; [lia|]. intros j Hj.
  destruct (decide (i + 16 ≤ j)); [apply Hz; lia|].
  unfold keep_page. rewrite page_zero_bytes by lia.
  apply negb_false_iff, bool_decide_eq_true. unfold page.
  rewrite <- page_start_succ, !(Hst (j + 1)), !(Hst j) by lia.
  rewrite (at_part_head _ _ _ _ _ Hat) by (unfold next in *; lia).
  replace (page_start C i + (j - i) * 4096 - partStart) with (next + (j - i) * 4096)
    by (unfold next; lia).
  rewrite <- (sub_sub _ _ next (next + 64 * 1024 - next)) by (unfold next in *; lia).
  by apply Forall_take, Forall_drop.
Qed.

(** The header marks exactly the kept pages below [i]. *)
Definition header_ok (h : buffer) (i : Z) : Prop :=
  zlen h = LENGTH_SIZE + ceil_div nb 8 ∧ sub 0 4 h = be_encode 4 (zlen C) ∧
  ∀ j, 0 ≤ j < nb → isStored h j = bool_decide (j < i) && keep_page C j.

Lemma header_skip h i i' :
  header_ok h i → i ≤ i' → (∀ j, i ≤ j < i' → keep_page C j = false) → header_ok h i'.
Proof.
  intros (Hl & Hh & Hb) Hi Hz. split_and!; try done. intros j Hj. rewrite (Hb j Hj).
  repeat case_bool_decide; cbn [andb]; try done; try lia. symmetry. apply Hz. lia.
Qed.

Lemma header_mark h i :
  header_ok h i → 0 ≤ i < nb → keep_page C i = true → header_ok (setStored h i) (i + 1).
Proof.
  intros (Hl & Hh & Hb) Hi Hk. split_and!.
  - by rewrite zlen_setStored.
  - by rewrite sub_setStored by lia.
  - intros j Hj. rewrite isStored_setStored, Hb by
      (try lia; pose proof (ceil_div_spec nb 8 ltac:(lia));
      pose proof (Z.div_mod i 8 ltac:(lia)); pose proof (Z.mod_pos_bound i 8 ltac:(lia)); lia).
    destruct (decide (i = j)) as [->|].
    + by rewrite Hk, (bool_decide_eq_true_2 (j = j)), (bool_decide_eq_true_2 (j < j + 1)) by lia.
    + rewrite (bool_decide_eq_false_2 (i = j)) by done. cbn [orb].
      f_equal. apply bool_decide_ext. lia.
Qed.

Lemma pages_loop_spec fuel left partStart i st :
  at_part left partStart → 0 ≤ i ≤ nb → nb ≤ Z.of_nat fuel + i →
  partStart ≤ page_start C i → run_ok mem st → header_ok (rs_header st) i →
  out_bytes mem st = kept C (keep_page C) i →
  ∃ st', pages_loop mem fuel nb left partStart i (page_start C i) (page_end C i) st = Ok st' ∧
  run_ok mem st' ∧ header_ok (rs_header st') nb ∧
  out_bytes mem st' = kept C (keep_page C) nb.
Proof.
  revert left partStart i st.
  induction fuel as [|fuel IH]; intros left partStart i st Hat Hi Hf Hp Hr Hh Ho;
    cbn [pages_loop]; (case_decide; [|replace nb with i by lia; eauto]); [lia|].
  destruct (page_bounds C i ltac:(fold nb; lia)) as (Hb1 & Hb2 & Hb3).
  destruct (at_part_len _ _ Hat) as [? Hlen].
  destruct (advance_spec mem left partStart (page_start C i)) as
    (sk & p & rest & ps & -> & Hleft & Hps & Hps'); [lia|].
  cbn [mbind result_bind].
  assert (Hat' : at_part (p :: rest) ps).
  { destruct Hat as (before & Hpar & Hbl). exists (before ++ sk).
    rewrite <- app_assoc, <- Hleft. split; [done|].
    rewrite all_bytes_app, zlen_app. lia. }
  assert (Hnext : ∀ st', run_ok mem st' → header_ok (rs_header st') (i + 1) →
    out_bytes mem st' = kept C (keep_page C) (i + 1) →
    ∃ st'', pages_loop mem fuel nb (p :: rest) ps (i + 1) (page_end C i)
    (page_end C i + PAGE_SIZE) st' = Ok st'' ∧
    run_ok mem st'' ∧ header_ok (rs_header st'') nb ∧
    out_bytes mem st'' = kept C (keep_page C) nb).
  { intros st' ? ? ?.
    replace (page_end C i + PAGE_SIZE) with (page_end C (i + 1)) by (unfold page_end; lia).
    rewrite <- page_start_succ by lia.
    apply IH; try done; try lia. rewrite page_start_succ by lia. lia. }
  assert (Hmark : ∀ st', run_ok mem st' → rs_header st' = rs_header st → keep_page C i = true →
    out_bytes mem st' = out_bytes mem st ++ page C i →
    ∃ st'', pages_loop mem fuel nb (p :: rest) ps (i + 1) (page_end C i)
    (page_end C i + PAGE_SIZE) (mark_stored st' i) = Ok st'' ∧
    run_ok mem st'' ∧ header_ok (rs_header st'') nb ∧
    out_bytes mem st'' = kept C (keep_page C) nb).
  { intros st' ? Hhd Hk Ho'. apply Hnext; [done| |].
    - cbn [mark_stored rs_header]. rewrite Hhd. apply header_mark; [done|lia|done].
    - change (out_bytes mem (mark_stored st' i)) with (out_bytes mem st').
      by rewrite Ho', Ho, kept_succ, Hk by lia. }
  destruct (decide (page_end C i - ps <= zlen (mem p))) as [Hin|Hspan].
  - assert (Hpage : page C i =
      sub (page_start C i - ps) (page_end C i - ps - (page_start C i - ps)) (mem p)).
    { unfold page. rewrite (at_part_head _ _ _ _ _ Hat') by lia. f_equal. lia. }
    assert (Hz : isZero (mem p) (page_start C i - ps) (page_end C i - ps) = page_is_zero C i).
    { rewrite page_zero_bytes, Hpage by lia.
      apply (isZero_slice mem (p, page_start C i - ps, page_end C i - ps)); cbn;
        rewrite ?zlen_sub by lia; lia. }
    rewrite Hz. destruct (page_is_zero C i) eqn:Hpz.
    + rewrite <- (page_start_succ C i) by lia.
      destruct (skip_regions_spec (Z.to_nat nb) p rest ps (i + 1) Hat') as (i' & -> & Hi' & Hsk);
        [lia|rewrite page_start_succ; lia|].
      replace (ps + (page_start C i' - ps)) with (page_start C i') by lia.
      replace (page_start C i' + PAGE_SIZE) with (page_end C i')
        by (unfold page_start, page_end; rewrite decide_False by lia; lia).
      assert (Hz' : ∀ j, i ≤ j < i' → keep_page C j = false).
      { intros j Hj. destruct (decide (j = i)) as [->|]; [|apply Hsk; lia].
        unfold keep_page. by rewrite Hpz. }
      apply IH; try done; try lia.
      * pose proof (page_start_mono C i i' ltac:(lia) ltac:(fold nb; lia)). lia.
      * by eapply header_skip; [done|lia|].
      * rewrite Ho. symmetry. by apply kept_skip; [lia|].
    + destruct (store_spec mem st p (page_start C i - ps) (page_end C i - ps) Hr) as (? & ? & Hst);
        [cbn; lia|].
      apply Hmark; try done; [unfold keep_page; by rewrite Hpz|].
      rewrite Hst. cbn [slice_bytes]. by rewrite Hpage.
  - destruct (at_part_len _ _ Hat') as [? Hlen'].
    destruct (page_slices_spec mem (p :: rest) (page_start C i - ps)
      (page_end C i - page_start C i)) as (sl & -> & Hsl & Hok); [lia|lia|lia| |].
    { intros p' rest' [= <- <-]. lia. }
    cbn [mbind result_bind].
    assert (Hpage : page C i = mjoin (slice_bytes mem <$> sl)).
    { unfold page. by rewrite (at_part_bytes _ _ _ _ Hat') by lia. }
    rewrite (isZero_slices mem sl _ Hb3 Hok), <- Hpage, <- page_zero_bytes by lia.
    destruct (page_is_zero C i) eqn:Hpz.
    + apply Hnext; [done| |].
      * eapply header_skip; [done|lia|]. intros j Hj. replace j with i by lia.
        unfold keep_page. by rewrite Hpz.
      * rewrite kept_succ by lia. unfold keep_page at 2. rewrite Hpz. by rewrite app_nil_r.
    + destruct (store_slices_spec mem st sl Hr) as (? & ? & Hst).
      { eapply Forall_impl; [exact Hok|]. tauto. }
      apply Hmark; try done; [unfold keep_page; by rewrite Hpz|].
      by rewrite Hst, Hpage.
Qed.
End loop.

Lemma isStored_app h d i :
  0 ≤ i → LENGTH_SIZE + i / 8 < zlen h → isStored (h ++ d) i = isStored h i.
Proof.
  intros ? ?. rewrite !isStored_testbit by done. rewrite zget_app.
  by rewrite decide_True by done.
Qed.

Lemma initial_header_ok mem parts :
  let C := all_bytes mem parts in
  let nb := ceil_div (zlen C) PAGE_SIZE in
  zlen C ≤ 0xffffffff →
  ∃ h, writeUInt32BE (zlen C) 0 (zrep (LENGTH_SIZE + ceil_div nb 8) 0) = Ok h ∧
       header_ok mem parts h 0.
Proof.
  intros C nb Hl. pose proof (zlen_nonneg C).
  assert (Hnb : 0 ≤ nb) by (apply ceil_div_nonneg; [done|lia]).
  pose proof (ceil_div_nonneg nb 8 ltac:(lia) Hnb). unfold LENGTH_SIZE.
  assert (Hz : zlen (zrep (4 + ceil_div nb 8) 0) = 4 + ceil_div nb 8) by (rewrite zlen_zrep; lia).
  rewrite writeUInt32BE_ok by lia. eexists. split; [done|].
  assert (He : zlen (be_encode 4 (zlen C)) = 4) by (by rewrite zlen_be_encode).
  split_and!.
  - rewrite zlen_bwrite_in by lia. fold C nb. done.
  - fold C. rewrite <- He at 1. by rewrite sub_bwrite_same by lia.
  - fold C nb. intros j Hj. rewrite bool_decide_eq_false_2 by lia. cbn [andb].
    rewrite isStored_testbit by lia. unfold LENGTH_SIZE.
    pose proof (Z.div_pos j 8 ltac:(lia) ltac:(lia)).
    rewrite zget_bwrite by (try lia; intros E; by rewrite E in He).
    rewrite decide_False by lia. case_decide; [|by rewrite decide_False by lia; apply Z.bits_0].
    rewrite zget_zrep by lia. apply Z.bits_0.
Qed.

Lemma foldl_lengths mem parts n :
  foldl (λ l p, l + zlen (mem p)) n parts = n + zlen (all_bytes mem parts).
Proof.
  revert n. induction parts as [|p ps IH]; intros n; cbn [foldl].
  - rewrite all_bytes_nil, (@zlen_nil Z). lia.
  - rewrite IH, all_bytes_cons, zlen_app. lia.
Qed.

(** What [removeZeroPages] returns: a header that marks the pages that are not
    all zeroes, then these pages. *)
Lemma removeZeroPages_lemma mem parts :
  let C := all_bytes mem parts in
  zlen C ≤ 0xffffffff →
  ∃ h out, removeZeroPages mem parts = Ok (h :: out) ∧
    header_ok mem parts h (ceil_div (zlen C) PAGE_SIZE) ∧
    mjoin out = kept C (keep_page C) (ceil_div (zlen C) PAGE_SIZE).
Proof.
  intros C Hl. unfold removeZeroPages.
  rewrite foldl_lengths, Z.add_0_l. fold C. pass_assert.
  destruct (initial_header_ok mem parts Hl) as (h & Hh & Hok). fold C in Hh. rewrite Hh.
  cbn [mbind result_bind].
  set (nb := ceil_div (zlen C) PAGE_SIZE) in *.
  assert (Hnb : 0 ≤ nb) by (apply ceil_div_nonneg; [done|apply zlen_nonneg]).
  destruct (pages_loop_spec mem parts (Z.to_nat nb) parts 0 0
    {| rs_header := h; rs_result := []; rs_run := None |}) as (st & Hst & Hr & Hh' & Ho).
  - by exists [].
  - fold C nb. lia.
  - fold C nb. lia.
  - done.
  - done.
  - done.
  - done.
  - fold C nb in Hst, Hh', Ho. unfold page_end in Hst. fold C in Hst.
    rewrite Z.mul_0_l, Z.add_0_r in Hst.
    change (page_start C 0) with 0 in Hst. rewrite Hst. cbn [mbind result_bind].
    exists (rs_header st), (push_run mem st). split; [done|]. split; [done|].
    by rewrite mjoin_push_run by done.
Qed.

(** ** Properties *)

Lemma zero_filter_lemma mem parts unsafe :
  zlen (all_bytes mem parts) ≤ 0xffffffff →
  (∀ n, 0 ≤ n → zlen (unsafe n) = n) →
  ∃ out, removeZeroPages mem parts = Ok out ∧
    restoreZeroPages unsafe (mjoin out) = Ok (all_bytes mem parts).
Proof.
  intros Hl Hu. destruct (removeZeroPages_lemma mem parts Hl) as (h & out & -> & Hh & Ho).
  exists (h :: out). split; [done|]. rewrite mjoin_cons, Ho.
  set (C := all_bytes mem parts) in *. set (nb := ceil_div (zlen C) PAGE_SIZE) in *.
  destruct Hh as (Hhl & Hhead & Hb). fold C nb in Hhl, Hhead, Hb.
  apply (restoreZeroPages_lemma C _ (keep_page C)); fold nb; try done.
  - pose proof (zlen_nonneg h). unfold LENGTH_SIZE in Hhl.
    assert (0 ≤ nb) by (apply ceil_div_nonneg; [done|apply zlen_nonneg]).
    pose proof (ceil_div_nonneg nb 8 ltac:(lia) ltac:(lia)).
    rewrite sub_app_l by lia. done.
  - intros j Hj. rewrite isStored_app, Hb, bool_decide_eq_true_2; try lia; try done.
    pose proof (ceil_div_spec nb 8 ltac:(lia)).
    pose proof (Z.div_mod j 8 ltac:(lia)). pose proof (Z.mod_pos_bound j 8 ltac:(lia)). lia.
  - intros j _. unfold keep_page. by intros ?%negb_false_iff.
  - by rewrite zlen_app, Hhl.
  - rewrite sub_app_r by lia. rewrite Hhl, Z.sub_diag. apply sub_all.
Qed.

(** C31: [removeZeroPages] succeeds on every chunk of less than 4 GiB, given as
    any list of (possibly empty, possibly shared) buffers, and
    [restoreZeroPages] gives back exactly the bytes of the chunk, whatever the
    memory it allocates held before. *)
Theorem zero_filter_roundtrip mem parts unsafe :
  zlen (all_bytes mem parts) ≤ 0xffffffff →
  (∀ n, 0 ≤ n → zlen (unsafe n) = n) →
  ∃ out, removeZeroPages mem parts = Ok out ∧
    restoreZeroPages unsafe (mjoin out) = Ok (all_bytes mem parts).
Proof. apply zero_filter_lemma. Qed.

Lemma zero_filter_roundtrip_witness :
  ∃ out, removeZeroPages (λ _, zrep 4096 0 ++ [1; 2]) [0%nat; 0%nat] = Ok out ∧
    restoreZeroPages (λ n, zrep n 7) (mjoin out)
      = Ok ((zrep 4096 0 ++ [1; 2]) ++ (zrep 4096 0 ++ [1; 2])).
Proof.
  apply (zero_filter_roundtrip (λ _, zrep 4096 0 ++ [1; 2]) [0%nat; 0%nat]).
  - vm_compute. congruence.
  - intros n Hn. rewrite zlen_zrep. lia.
Defined.

(** The filtered chunk is the length of the chunk, the bitmap of its pages
    and its stored pages in order; a page is stored exactly when one of its bytes
    is not zero. *)
Theorem removeZeroPages_format mem parts :
  let C := all_bytes mem parts in
  let nb := ceil_div (zlen C) PAGE_SIZE in
  zlen C ≤ 0xffffffff →
  ∃ h out, removeZeroPages mem parts = Ok (h :: out) ∧
    readUInt32BE h 0 = Ok (zlen C) ∧ zlen h = LENGTH_SIZE + ceil_div nb 8 ∧
    (∀ j, 0 ≤ j < nb → isStored h j = true ↔ ¬ Forall (eq 0) (page C j)) ∧
    mjoin out = mjoin ((λ j, if isStored h j then page C j else []) <$> zrange 0 nb).
Proof.
  intros C nb Hl. destruct (removeZeroPages_lemma mem parts Hl) as (h & out & -> & Hh & Ho).
  destruct Hh as (Hhl & Hhead & Hb). fold C nb in Hhl, Hhead, Hb |- *.
  assert (Hb' : ∀ j, 0 ≤ j < nb → isStored h j = keep_page C j).
  { intros j Hj. rewrite (Hb j Hj). by rewrite bool_decide_eq_true_2 by lia. }
  exists h, out. split_and!; try done.
  - pose proof (ceil_div_nonneg (zlen C) PAGE_SIZE ltac:(done) (zlen_nonneg C)).
    pose proof (ceil_div_nonneg nb 8 ltac:(lia) ltac:(done)).
    unfold LENGTH_SIZE in Hhl. rewrite readUInt32BE_ok by lia.
    rewrite Hhead, be_decode_encode. f_equal. apply Z.mod_small.
    pose proof (zlen_nonneg C). cbn. lia.
  - intros j Hj. rewrite Hb' by done. unfold keep_page.
    rewrite (page_zero_bytes mem parts) by done. rewrite negb_true_iff. apply bool_decide_eq_false.
  - rewrite Ho. unfold kept. f_equal. apply list_fmap_ext. intros k j Hj.
    assert (0 ≤ j < nb) by (apply elem_of_zrange; by eapply list_elem_of_lookup_2).
    by rewrite Hb'.
Qed.

Lemma removeZeroPages_format_witness :
  ∃ h out, removeZeroPages (λ _, zrep 4096 0 ++ [1; 2]) [0%nat] = Ok (h :: out) ∧
    readUInt32BE h 0 = Ok 4098.
Proof.
  destruct (removeZeroPages_format (λ _, zrep 4096 0 ++ [1; 2]) [0%nat])
    as (h & out & H & Hr & _); [vm_compute; congruence|].
  exists h, out. split; [exact H|exact Hr].
Defined.

Example remove_ex :
  removeZeroPages (λ _, zrep 4096 0 ++ [1; 2]) [0%nat]
  = Ok [[0; 0; 16; 2; 2]; zrep 4094 0 ++ [1; 2]].
Proof. vm_compute. reflexivity. Qed.

Example restore_ex :
  restoreZeroPages (λ n, zrep n 7) ([0; 0; 16; 2; 2] ++ zrep 4094 0 ++ [1; 2])
  = Ok (zrep 4096 0 ++ [1; 2]).
Proof. vm_compute. reflexivity. Qed.
