(* ===== verification/StructFu.v ===== *)
(** * Packed structures

    [packages/vhd-lib/_structs.js] describes the footer and the header of a VHD
    with the package struct-fu, which is not part of this repository.  This file
    states what the code relies on as a class ([FuStruct] and its laws), and
    gives a library of field codecs, with the documented layout (fields one after
    the other, big-endian integers, texts padded with zeroes), from which the
    instances of [VhdStructs] are built. *)

From S2P Require Import Prelude Buffers.

(** ** The interface *)

(** A structure with a 32-bit field [checksum]. *)
Class FuStruct (T : Type) := {
  fu_size : Z;                                 (* struct.size *)
  fu_pack : T → buffer;                        (* struct.pack(value) *)
  fu_unpack : buffer → T;                      (* struct.unpack(buf) *)
  fu_checksum_offset : Z;                      (* struct.fields.checksum.offset *)
  fu_checksum_size : Z;                        (* struct.fields.checksum.size *)
  fu_checksum_pack : Z → buffer → buffer;      (* struct.fields.checksum.pack(v, buf, offset) *)
  fu_checksum_unpack : buffer → Z;             (* struct.fields.checksum.unpack(buf, offset) *)
  fu_checksum : T → Z;                         (* value.checksum *)
  fu_with_checksum : Z → T → T;                (* value with another checksum *)
  fu_wf : T → Prop;                            (* every field fits its type *)
}.

Class FuStructLaws (T : Type) `{FuStruct T} := {
  fu_checksum_in : 0 ≤ fu_checksum_offset ∧ 0 ≤ fu_checksum_size ∧
    fu_checksum_offset + fu_checksum_size ≤ fu_size;
  fu_pack_len x : fu_wf x → zlen (fu_pack x) = fu_size;
  fu_pack_bytes x : fu_wf x → bytes (fu_pack x);
  fu_unpack_pack x : fu_wf x → fu_unpack (fu_pack x) = x;
  fu_checksum_pack_len v b : zlen b = fu_size → zlen (fu_checksum_pack v b) = fu_size;
  fu_checksum_pack_before v b : zlen b = fu_size →
    sub 0 fu_checksum_offset (fu_checksum_pack v b) = sub 0 fu_checksum_offset b;
  fu_checksum_pack_after v b : zlen b = fu_size →
    sub (fu_checksum_offset + fu_checksum_size)
      (fu_size - (fu_checksum_offset + fu_checksum_size)) (fu_checksum_pack v b)
    = sub (fu_checksum_offset + fu_checksum_size)
      (fu_size - (fu_checksum_offset + fu_checksum_size)) b;
  fu_checksum_unpack_pack v b : zlen b = fu_size → 0 ≤ v < 2 ^ 32 →
    fu_checksum_unpack (fu_checksum_pack v b) = v;
  fu_checksum_pack_unpack b : zlen b = fu_size → bytes b →
    fu_checksum_pack (fu_checksum_unpack b) b = b;
  fu_checksum_unpack_ext b c :
    sub fu_checksum_offset fu_checksum_size b = sub fu_checksum_offset fu_checksum_size c →
    fu_checksum_unpack b = fu_checksum_unpack c;
  fu_checksum_unpack_bound b : bytes b → 0 ≤ fu_checksum_unpack b < 2 ^ 32;
  fu_checksum_unpack_fu_pack x : fu_wf x → fu_checksum_unpack (fu_pack x) = fu_checksum x;
  fu_checksum_with_checksum v x : fu_checksum (fu_with_checksum v x) = v;
  fu_with_checksum_same x : fu_with_checksum (fu_checksum x) x = x;
  fu_pack_with_checksum v x : fu_wf x → 0 ≤ v < 2 ^ 32 →
    fu_checksum_pack v (fu_pack x) = fu_pack (fu_with_checksum v x);
  fu_wf_with_checksum v x : fu_wf x → 0 ≤ v < 2 ^ 32 → fu_wf (fu_with_checksum v x);
  fu_with_checksum_twice v w x : fu_with_checksum v (fu_with_checksum w x) = fu_with_checksum v x;
}.

(** ** Field codecs *)

Record codec (A : Type) := Codec {
  c_size : Z;
  c_pack : A → buffer;
  c_unpack : buffer → A;
  c_wf : A → Prop;
}.
Arguments Codec {A} _ _ _ _.
Arguments c_size {A} _.
Arguments c_pack {A} _ _.
Arguments c_unpack {A} _ _.
Arguments c_wf {A} _ _.

(** A codec is lawful when a value that fits its type packs to bytes of the
    right number and unpacks to itself. *)
Class Lawful {A} (c : codec A) := {
  c_size_nonneg : 0 ≤ c_size c;
  c_pack_len x : c_wf c x → zlen (c_pack c x) = c_size c;
  c_pack_bytes x : c_wf c x → bytes (c_pack c x);
  c_unpack_pack x : c_wf c x → c_unpack c (c_pack c x) = x;
}.

(** [fu.uint8], [fu.uint16], [fu.uint32] *)
Definition c_uint (n : nat) : codec Z :=
  Codec (Z.of_nat n) (be_encode n) be_decode (λ v, 0 ≤ v < 256 ^ Z.of_nat n).

(** A pair of [fu.uint32] holding a 53-bit integer *)
Definition c_uint64 : codec Z :=
  Codec 8 (be_encode 8) be_decode (λ v, 0 ≤ v < 2 ^ 53).

(** The same, where [undefined] is all ones *)
Definition c_uint64Undefinable : codec (option Z) :=
  Codec 8
    (λ v, match v with Some v => be_encode 8 v | None => be_encode 8 (2 ^ 64 - 1) end)
    (λ b, let v := be_decode b in if decide (v = 2 ^ 64 - 1) then None else Some v)
    (λ v, match v with Some v => 0 ≤ v < 2 ^ 53 | None => True end).

(** [fu.byte(n)] *)
Definition c_byte (n : Z) : codec buffer :=
  Codec n id id (λ b, zlen b = n ∧ bytes b).

(** Text of [n] units, padded with zeroes *)
Definition until_zero (b : list Z) : list Z :=
  foldr (λ x acc, if decide (x = 0) then [] else x :: acc) [] b.

Definition pad (n : Z) (b : list Z) : list Z := b ++ zrep (n - zlen b) 0.

Definition string_bytes (s : string) : list Z :=
  (λ c, Z.of_N (Ascii.N_of_ascii c)) <$> String.list_ascii_of_string s.
Definition bytes_string (b : list Z) : string :=
  String.string_of_list_ascii ((λ x, Ascii.ascii_of_N (Z.to_N x)) <$> b).

(** [fu.char(n)] *)
Definition c_char (n : Z) : codec string :=
  Codec n (λ s, pad n (string_bytes s)) (λ b, bytes_string (until_zero b))
    (λ s, zlen (string_bytes s) ≤ n ∧ 0 ∉ string_bytes s).

(** [fu.char16be(n)], [n] in bytes; a text is its list of UTF-16 units *)
Fixpoint pack16 (s : list Z) : buffer :=
  match s with [] => [] | u :: s => be_encode 2 u ++ pack16 s end.
Fixpoint unpack16 (b : buffer) : list Z :=
  match b with h :: l :: b => (h * 256 + l) :: unpack16 b | _ => [] end.
Definition c_char16be (n : nat) : codec (list Z) :=
  Codec (2 * Z.of_nat n) (λ s, pack16 (pad (Z.of_nat n) s)) (λ b, until_zero (unpack16 b))
    (λ s, zlen s ≤ Z.of_nat n ∧ Forall (λ u, 0 < u < 65536) s).

(** Two fields one after the other *)
Definition c_pair {A B} (c : codec A) (d : codec B) : codec (A * B) :=
  Codec (c_size c + c_size d)
    (λ '(x, y), c_pack c x ++ c_pack d y)
    (λ b, (c_unpack c (sub 0 (c_size c) b), c_unpack d (sub (c_size c) (c_size d) b)))
    (λ '(x, y), c_wf c x ∧ c_wf d y).

(** [n] times the same field *)
Fixpoint c_array {A} (n : nat) (c : codec A) : codec (list A) :=
  match n with
  | O => Codec 0 (λ _, []) (λ _, []) (λ l, l = [])
  | S n =>
      let d := c_array n c in
      Codec (c_size c + c_size d)
        (λ l, match l with x :: l => c_pack c x ++ c_pack d l | [] => [] end)
        (λ b, c_unpack c (sub 0 (c_size c) b) :: c_unpack d (sub (c_size c) (c_size d) b))
        (λ l, match l with x :: l => c_wf c x ∧ c_wf d l | [] => False end)
  end.

(** A structure as the tuple of its fields *)
Definition c_iso {A B} (to : A → B) (from : B → A) (c : codec A) : codec B :=
  Codec (c_size c) (λ y, c_pack c (from y)) (λ b, to (c_unpack c b)) (λ y, c_wf c (from y)).

(** ** The codecs are lawful *)

#[export] Instance c_uint_lawful n : Lawful (c_uint n).
Proof.
  split; cbn [c_uint c_size c_pack c_unpack c_wf].
  - lia.
  - intros x _. apply zlen_be_encode.
  - intros x _. apply bytes_be_encode.
  - intros x Hx. rewrite be_decode_encode. by apply Z.mod_small.
Qed.

#[export] Instance c_uint64_lawful : Lawful c_uint64.
Proof.
  split; cbn [c_uint64 c_size c_pack c_unpack c_wf].
  - lia.
  - intros x _. apply zlen_be_encode.
  - intros x _. apply bytes_be_encode.
  - intros x Hx. rewrite be_decode_encode. apply Z.mod_small. lia.
Qed.

#[export] Instance c_uint64Undefinable_lawful : Lawful c_uint64Undefinable.
Proof.
  split; cbn [c_uint64Undefinable c_size c_pack c_unpack c_wf].
  - lia.
  - intros [x|] _; apply zlen_be_encode.
  - intros [x|] _; apply bytes_be_encode.
  - intros [x|] Hx; rewrite be_decode_encode; rewrite Z.mod_small by lia.
    + by rewrite decide_False by lia.
    + done.
Qed.

#[export] Instance c_byte_lawful n : 0 ≤ n → Lawful (c_byte n).
Proof.
  intros. split; cbn [c_byte c_size c_pack c_unpack c_wf]; unfold id; [done|tauto..|done].
Qed.

Lemma until_zero_pad n s : 0 ∉ s → until_zero (pad n s) = s.
Proof.
  intros Hs. unfold pad, zrep. generalize (Z.to_nat (n - zlen s)). intros k.
  induction s as [|x s IH]; cbn.
  - destruct k; [done|]. cbn. by rewrite decide_True by done.
  - apply not_elem_of_cons in Hs as [Hx Hs]. rewrite decide_False by done.
    f_equal. by apply IH.
Qed.

Lemma zlen_pad n s : zlen s ≤ n → zlen (pad n s) = n.
Proof. intros. unfold pad. rewrite zlen_app, zlen_zrep. lia. Qed.

Lemma zlen_string_bytes s : zlen (string_bytes s) = Z.of_nat (String.length s).
Proof.
  unfold zlen, string_bytes. rewrite length_fmap. f_equal.
  induction s as [|c s IH]; cbn; [done|]. by rewrite IH.
Qed.

Lemma bytes_string_bytes s : bytes (string_bytes s).
Proof.
  unfold bytes, string_bytes. apply Forall_fmap, Forall_forall. intros c _. cbn.
  pose proof (Ascii.N_ascii_bounded c). unfold is_byte. lia.
Qed.

Lemma bytes_string_string_bytes s : bytes_string (string_bytes s) = s.
Proof.
  unfold bytes_string, string_bytes. rewrite <- list_fmap_compose.
  rewrite <- (String.string_of_list_ascii_of_string s) at 2. f_equal.
  rewrite <- (list_fmap_id (String.list_ascii_of_string s)) at 2.
  apply list_fmap_ext. intros i c _. cbn. rewrite N2Z.id. apply Ascii.ascii_N_embedding.
Qed.

#[export] Instance c_char_lawful n : 0 ≤ n → Lawful (c_char n).
Proof.
  intros. split; cbn [c_char c_size c_pack c_unpack c_wf].
  - done.
  - intros s [? _]. by apply zlen_pad.
  - intros s _. unfold pad, zrep. apply Forall_app. split; [apply bytes_string_bytes|].
    apply Forall_replicate. unfold is_byte. lia.
  - intros s [_ Hs]. rewrite until_zero_pad by done. apply bytes_string_string_bytes.
Qed.

Lemma zlen_pack16 s : zlen (pack16 s) = 2 * zlen s.
Proof.
  induction s as [|u s IH]; [done|]. cbn [pack16].
  rewrite zlen_app, IH, zlen_be_encode, zlen_cons. lia.
Qed.

Lemma unpack16_pack16 s : Forall (λ u, 0 ≤ u < 65536) s → unpack16 (pack16 s) = s.
Proof.
  induction 1 as [|u s Hu _ IH]; [done|]. cbn. rewrite IH. f_equal.
  pose proof (Z.div_mod u 256 ltac:(lia)).
  rewrite (Z.mod_small (u / 256)); [lia|].
  split; [apply Z.div_pos; lia|apply Z.div_lt_upper_bound; lia].
Qed.

#[export] Instance c_char16be_lawful n : Lawful (c_char16be n).
Proof.
  split; cbn [c_char16be c_size c_pack c_unpack c_wf].
  - lia.
  - intros s [? _]. by rewrite zlen_pack16, zlen_pad.
  - intros s _. induction (pad _ s) as [|u l IH]; cbn [pack16]; [constructor|].
    apply Forall_app. split; [apply bytes_be_encode|done].
  - intros s [? Hs]. rewrite unpack16_pack16.
    + apply until_zero_pad. intros H0. rewrite Forall_forall in Hs. apply Hs in H0. lia.
    + unfold pad, zrep. apply Forall_app. split.
      * eapply Forall_impl; [exact Hs|]. cbn. intros; lia.
      * apply Forall_replicate. lia.
Qed.

#[export] Instance c_pair_lawful {A B} (c : codec A) (d : codec B) :
  Lawful c → Lawful d → Lawful (c_pair c d).
Proof.
  intros Hc Hd. split; cbn [c_pair c_size c_pack c_unpack c_wf].
  - pose proof (c_size_nonneg (c := c)). pose proof (c_size_nonneg (c := d)). lia.
  - intros [x y] [? ?]. by rewrite zlen_app, !c_pack_len.
  - intros [x y] [? ?]. apply Forall_app. by split; apply c_pack_bytes.
  - intros [x y] [Hx Hy]. pose proof (c_size_nonneg (c := c)).
    pose proof (c_pack_len x Hx) as Lx. pose proof (c_pack_len y Hy) as Ly.
    rewrite sub_app_l, sub_app_r by lia.
    rewrite <- Lx at 1. rewrite sub_all. rewrite Lx, Z.sub_diag, <- Ly, sub_all.
    by rewrite !c_unpack_pack.
Qed.

#[export] Instance c_array_lawful {A} n (c : codec A) : Lawful c → Lawful (c_array n c).
Proof.
  intros Hc. induction n as [|n IH]; cbn [c_array].
  - split; cbn; [lia|by intros ? ->|constructor|by intros ? ->].
  - assert (Hp : Lawful (c_pair c (c_array n c))) by apply _.
    destruct Hp as [H1 H2 H3 H4]. split; cbn [c_size c_pack c_unpack c_wf c_pair] in *.
    + done.
    + intros [|x l]; [done|]. apply (H2 (x, l)).
    + intros [|x l]; [done|]. apply (H3 (x, l)).
    + intros [|x l]; [done|]. intros Hw. specialize (H4 (x, l) Hw). by injection H4 as -> ->.
Qed.

#[export] Instance c_iso_lawful {A B} (to : A → B) (from : B → A) (c : codec A) :
  (∀ y, to (from y) = y) → Lawful c → Lawful (c_iso to from c).
Proof.
  intros Hiso Hc. split; cbn [c_iso c_size c_pack c_unpack c_wf].
  - apply c_size_nonneg.
  - intros y. apply c_pack_len.
  - intros y. apply c_pack_bytes.
  - intros y Hy. by rewrite c_unpack_pack.
Qed.

(** ** A structure from the fields around its checksum *)

Section struct_of.
Context {A B T : Type} (pre : codec A) (post : codec B).
Context (to : A → Z → B → T) (before : T → A) (checksum : T → Z) (after : T → B).
Context `{Hpre : !Lawful pre, Hpost : !Lawful post}.

Let full : codec T :=
  c_iso (λ '(x, (v, y)), to x v y) (λ t, (before t, (checksum t, after t)))
  (c_pair pre (c_pair (c_uint 4) post)).

Definition fu_struct_of : FuStruct T := {|
  fu_size := c_size pre + (4 + c_size post);
  fu_pack := c_pack full;
  fu_unpack := c_unpack full;
  fu_checksum_offset := c_size pre;
  fu_checksum_size := 4;
  fu_checksum_pack v b := bwrite b (c_size pre) (be_encode 4 v);
  fu_checksum_unpack b := be_decode (sub (c_size pre) 4 b);
  fu_checksum := checksum;
  fu_with_checksum v t := to (before t) v (after t);
  fu_wf := c_wf full;
  |}.

Context (Hto : ∀ t, to (before t) (checksum t) (after t) = t).
Context (Hbefore : ∀ x v y, before (to x v y) = x).
Context (Hchecksum : ∀ x v y, checksum (to x v y) = v).
Context (Hafter : ∀ x v y, after (to x v y) = y).

Lemma full_lawful : Lawful full.
Proof. apply c_iso_lawful; [exact Hto|apply _]. Qed.

Lemma fu_struct_of_laws : @FuStructLaws T fu_struct_of.
Proof.
  pose proof full_lawful as Hf.
  pose proof (c_size_nonneg (c := pre)). pose proof (c_size_nonneg (c := post)).
  assert (He : ∀ v, zlen (be_encode 4 v) = 4) by (intros; by rewrite zlen_be_encode).
  split; cbn [fu_size fu_pack fu_unpack fu_checksum_offset fu_checksum_size
    fu_checksum_pack fu_checksum_unpack fu_checksum fu_with_checksum fu_wf fu_struct_of].
  - lia.
  - intros x Hx. by rewrite c_pack_len.
  - intros x Hx. by apply c_pack_bytes.
  - intros x Hx. by apply c_unpack_pack.
  - intros v b Hb. rewrite zlen_bwrite_in; rewrite ?He; lia.
  - intros v b Hb. apply sub_bwrite_disjoint; lia.
  - intros v b Hb. apply sub_bwrite_disjoint; rewrite ?He; lia.
  - intros v b Hb Hv. by apply be_decode_sub_bwrite.
  - intros b Hb Hby. apply bwrite_sub_same; lia || done.
  - by intros b c ->.
  - intros b Hb. pose proof (be_decode_bound _ (bytes_sub b (c_size pre) 4 Hb)) as Hd.
    pose proof (zlen_sub_le (c_size pre) 4 b ltac:(lia)).
    pose proof (Z.pow_le_mono_r 256 (zlen (sub (c_size pre) 4 b)) 4 ltac:(lia) ltac:(lia)). lia.
  - intros x (Hx & Hc & Hy). cbn [full c_iso c_pack c_pair].
    pose proof (c_pack_len _ Hx) as L. rewrite sub_app_r by lia. rewrite L, Z.sub_diag.
    cbn [c_uint c_pack]. rewrite sub_app_l by (rewrite ?He; lia).
    rewrite <- (He (checksum x)) at 1. rewrite sub_all, be_decode_encode.
    by apply Z.mod_small.
  - intros v x. apply Hchecksum.
  - intros x. apply Hto.
  - intros v x (Hx & Hc & Hy) Hv.
    cbn [full c_iso c_pack c_pair]. rewrite Hbefore, Hchecksum, Hafter.
    pose proof (c_pack_len _ Hx) as L. rewrite <- L at 1. rewrite bwrite_middle; [done|].
    cbn [c_uint c_pack]. by rewrite !He.
  - intros v x (Hx & Hc & Hy) Hv. cbn [full c_iso c_wf c_pair].
    rewrite Hbefore, Hchecksum, Hafter. split_and!; try done; cbn; lia.
  - intros v w x. by rewrite Hbefore, Hafter.
Qed.
End struct_of.
