(* ===== verification/VhdStructs.v ===== *)
(** * The footer and the header of a VHD

    [packages/vhd-lib/_structs.js], [checkFooter.js], [_checkHeader.js],
    [_createFooterHeader.js] and the checksum functions of [Vhd/_utils.js].
    The package struct-fu is behind the class [StructFu]: the two structures are
    parameters of the development; [packed] lays the fields out as [_structs.js]
    lists them and is the instance the witnesses compute with. *)

From S2P Require Import Prelude Buffers VhdFormat StructFu.

(** ** Data *)

Record DiskGeometry := {
  dg_cylinders : Z;
  dg_heads : Z;
  dg_sectorsPerTrackCylinder : Z;
}.

Definition disk_geometry (g : Geometry) : DiskGeometry :=
  {| dg_cylinders := cylinders g; dg_heads := heads g;
     dg_sectorsPerTrackCylinder := sectorsPerTrackCylinder g |}.

Module Footer.
Record t := mk {
  cookie : string;
  features : Z;
  fileFormatVersion : Z;
  dataOffset : option Z;
  timestamp : Z;
  creatorApplication : string;
  creatorVersion : Z;
  creatorHostOs : Z;
  originalSize : Z;
  currentSize : Z;
  diskGeometry : DiskGeometry;
  diskType : Z;
  checksum : Z;
  uuid : buffer;
  saved : string;
  hidden : string;
  reserved : string;
}.

Definition with_checksum (v : Z) (f : t) : t :=
  mk (cookie f) (features f) (fileFormatVersion f) (dataOffset f) (timestamp f)
  (creatorApplication f) (creatorVersion f) (creatorHostOs f) (originalSize f)
  (currentSize f) (diskGeometry f) (diskType f) v (uuid f) (saved f) (hidden f)
  (reserved f).
End Footer.

Record ParentLocatorEntry := {
  platformCode : Z;
  platformDataSpace : Z;
  platformDataLength : Z;
  ple_reserved : Z;
  platformDataOffset : Z;
}.

Module Header.
Record t := mk {
  cookie : string;
  dataOffset : option Z;
  tableOffset : Z;
  headerVersion : Z;
  maxTableEntries : Z;
  blockSize : Z;
  checksum : Z;
  parentUuid : buffer;
  parentTimestamp : Z;
  reserved1 : Z;
  parentUnicodeName : list Z;   (* UTF-16 units *)
  parentLocatorEntry : list ParentLocatorEntry;
  reserved2 : string;
}.

Definition with_checksum (v : Z) (h : t) : t :=
  mk (cookie h) (dataOffset h) (tableOffset h) (headerVersion h) (maxTableEntries h)
  (blockSize h) v (parentUuid h) (parentTimestamp h) (reserved1 h)
  (parentUnicodeName h) (parentLocatorEntry h) (reserved2 h).
Definition with_tableOffset (v : Z) (h : t) : t :=
  mk (cookie h) (dataOffset h) v (headerVersion h) (maxTableEntries h)
  (blockSize h) (checksum h) (parentUuid h) (parentTimestamp h) (reserved1 h)
  (parentUnicodeName h) (parentLocatorEntry h) (reserved2 h).
Definition with_maxTableEntries (v : Z) (h : t) : t :=
  mk (cookie h) (dataOffset h) (tableOffset h) (headerVersion h) v
  (blockSize h) (checksum h) (parentUuid h) (parentTimestamp h) (reserved1 h)
  (parentUnicodeName h) (parentLocatorEntry h) (reserved2 h).
Definition with_parentLocatorEntry (v : list ParentLocatorEntry) (h : t) : t :=
  mk (cookie h) (dataOffset h) (tableOffset h) (headerVersion h) (maxTableEntries h)
  (blockSize h) (checksum h) (parentUuid h) (parentTimestamp h) (reserved1 h)
  (parentUnicodeName h) v (reserved2 h).
End Header.

(** ** Layouts *)

Definition c_geometry : codec DiskGeometry :=
  c_iso (λ '(c, (h, s)), {| dg_cylinders := c; dg_heads := h; dg_sectorsPerTrackCylinder := s |})
    (λ g, (dg_cylinders g, (dg_heads g, dg_sectorsPerTrackCylinder g)))
    (c_pair (c_uint 2) (c_pair (c_uint 1) (c_uint 1))).

Definition c_footer_before :=
  c_pair (c_char 8) (c_pair (c_uint 4) (c_pair (c_uint 4) (c_pair c_uint64Undefinable
  (c_pair (c_uint 4) (c_pair (c_char 4) (c_pair (c_uint 4) (c_pair (c_uint 4)
  (c_pair c_uint64 (c_pair c_uint64 (c_pair c_geometry (c_uint 4))))))))))).
Definition c_footer_after :=
  c_pair (c_byte 16) (c_pair (c_char 1) (c_pair (c_char 1) (c_char 426))).

Definition packedFooter : FuStruct Footer.t :=
  fu_struct_of c_footer_before c_footer_after
    (λ '(c, (fe, (v, (d, (t, (ca, (cv, (ch, (os, (cs, (g, dt)))))))))))
       sum '(u, (s, (h, r))), Footer.mk c fe v d t ca cv ch os cs g dt sum u s h r)
    (λ f, (Footer.cookie f, (Footer.features f, (Footer.fileFormatVersion f,
       (Footer.dataOffset f, (Footer.timestamp f, (Footer.creatorApplication f,
       (Footer.creatorVersion f, (Footer.creatorHostOs f, (Footer.originalSize f,
       (Footer.currentSize f, (Footer.diskGeometry f, Footer.diskType f))))))))))))
    Footer.checksum
    (λ f, (Footer.uuid f, (Footer.saved f, (Footer.hidden f, Footer.reserved f)))).

Definition c_locator : codec ParentLocatorEntry :=
  c_iso (λ '(c, (s, (l, (r, o)))), {| platformCode := c; platformDataSpace := s;
           platformDataLength := l; ple_reserved := r; platformDataOffset := o |})
    (λ e, (platformCode e, (platformDataSpace e, (platformDataLength e,
           (ple_reserved e, platformDataOffset e)))))
    (c_pair (c_uint 4) (c_pair (c_uint 4) (c_pair (c_uint 4) (c_pair (c_uint 4) c_uint64)))).

Definition c_header_before :=
  c_pair (c_char 8) (c_pair c_uint64Undefinable (c_pair c_uint64 (c_pair (c_uint 4)
  (c_pair (c_uint 4) (c_uint 4))))).
Definition c_header_after :=
  c_pair (c_byte 16) (c_pair (c_uint 4) (c_pair (c_uint 4) (c_pair (c_char16be 256)
  (c_pair (c_array 8 c_locator) (c_char 256))))).

Definition packedHeader : FuStruct Header.t :=
  fu_struct_of c_header_before c_header_after
    (λ '(c, (d, (t, (v, (m, b))))) sum '(u, (ts, (r1, (n, (p, r2))))),
       Header.mk c d t v m b sum u ts r1 n p r2)
    (λ h, (Header.cookie h, (Header.dataOffset h, (Header.tableOffset h,
       (Header.headerVersion h, (Header.maxTableEntries h, Header.blockSize h))))))
    Header.checksum
    (λ h, (Header.parentUuid h, (Header.parentTimestamp h, (Header.reserved1 h,
       (Header.parentUnicodeName h, (Header.parentLocatorEntry h, Header.reserved2 h)))))).

#[export] Instance c_geometry_lawful : Lawful c_geometry.
Proof. apply c_iso_lawful; [by intros []|apply _]. Qed.
#[export] Instance c_locator_lawful : Lawful c_locator.
Proof. apply c_iso_lawful; [by intros []|apply _]. Qed.

Ltac lawful_fields := repeat first
  [ apply c_pair_lawful | apply c_uint_lawful | apply c_uint64_lawful
  | apply c_uint64Undefinable_lawful | apply c_char16be_lawful | apply c_geometry_lawful
  | apply c_array_lawful | apply c_locator_lawful
  | apply c_char_lawful; done | apply c_byte_lawful; done ].

Lemma packedFooter_laws : @FuStructLaws Footer.t packedFooter.
Proof.
  apply fu_struct_of_laws.
  - unfold c_footer_before. lawful_fields.
  - unfold c_footer_after. lawful_fields.
  - by intros [].
  - intros x v y. repeat match goal with p : _ * _ |- _ => destruct p end. done.
  - intros x v y. repeat match goal with p : _ * _ |- _ => destruct p end. done.
  - intros x v y. repeat match goal with p : _ * _ |- _ => destruct p end. done.
Qed.

Lemma packedHeader_laws : @FuStructLaws Header.t packedHeader.
Proof.
  apply fu_struct_of_laws.
  - unfold c_header_before. lawful_fields.
  - unfold c_header_after. lawful_fields.
  - by intros [].
  - intros x v y. repeat match goal with p : _ * _ |- _ => destruct p end. done.
  - intros x v y. repeat match goal with p : _ * _ |- _ => destruct p end. done.
  - intros x v y. repeat match goal with p : _ * _ |- _ => destruct p end. done.
Qed.

(** The two structures of [_structs.js], with the sizes it asserts. *)
Class StructFu := {
  fuFooter :: FuStruct Footer.t;
  fuHeader :: FuStruct Header.t;
}.

Class StructFuLaws `{StructFu} := {
  fuFooter_laws :: FuStructLaws Footer.t;
  fuHeader_laws :: FuStructLaws Header.t;
  fuFooter_size : fu_size (T := Footer.t) = FOOTER_SIZE;
  fuHeader_size : fu_size (T := Header.t) = HEADER_SIZE;
  fuFooter_checksum f v : fu_with_checksum v f = Footer.with_checksum v f;
  fuHeader_checksum h v : fu_with_checksum v h = Header.with_checksum v h;
  fuFooter_get_checksum (f : Footer.t) : fu_checksum f = Footer.checksum f;
  fuHeader_get_checksum (h : Header.t) : fu_checksum h = Header.checksum h;
}.

Definition packed : StructFu := {| fuFooter := packedFooter; fuHeader := packedHeader |}.

Lemma packed_laws : @StructFuLaws packed.
Proof.
  split; cbn [fuFooter fuHeader packed].
  - apply packedFooter_laws.
  - apply packedHeader_laws.
  - done.
  - done.
  - by intros [].
  - by intros [].
  - done.
  - done.
Qed.

(** ** Checksums *)

Section structs.
Context `{!StructFu}.

Section checksum.
Context {T : Type} `{FuStruct T}.

(** [sum += buf[i]] for [i] in [idx]; [None] is [NaN]. *)
Definition sum_bytes (buf : buffer) (idx : list Z) (sum : option Z) : option Z :=
  foldl (λ acc i, s ← acc; b ← zget buf i; Some (s + b)) sum idx.

(** Returns the checksum and the buffer with it. *)
Definition checksumStruct (buf : buffer) : Z * buffer :=
  let sum := sum_bytes buf (zrange 0 fu_checksum_offset) (Some 0) in
  let sum := sum_bytes buf (zrange (fu_checksum_offset + fu_checksum_size) fu_size) sum in
  let sum := match sum with
   | Some s => Z.lnot s mod 2 ^ 32
   | None => Z.lnot 0 mod 2 ^ 32     (* ~NaN >>> 0 *)
   end in
  (sum, fu_checksum_pack sum buf).

(** The buffer is the one [checksumStruct] leaves. *)
Definition assertChecksum (buf : buffer) : result buffer :=
  let actual := fu_checksum_unpack buf in
  let '(expected, buf) := checksumStruct buf in
  js_assert (bool_decide (actual = expected)) "invalid checksum" ;;
  Ok buf.
End checksum.

(** ** Checks *)

Definition checkFooter (f : Footer.t) : result unit :=
  js_assert (bool_decide (Footer.cookie f = FOOTER_COOKIE)) "cookie" ;;
  js_assert (bool_decide (Footer.dataOffset f = Some FOOTER_SIZE)) "dataOffset" ;;
  js_assert (bool_decide (Footer.fileFormatVersion f = FILE_FORMAT_VERSION)) "version" ;;
  js_assert (bool_decide (Footer.originalSize f <= Footer.currentSize f)) "size" ;;
  js_assert (bool_decide (Footer.diskType f = DISK_TYPES_DIFFERENCING)
      || bool_decide (Footer.diskType f = DISK_TYPES_DYNAMIC)) "diskType".

(** [Number.isInteger(Math.log2(blockSize / SECTOR_SIZE))] for an unsigned
32-bit [blockSize]: the powers of two, those below a sector included. *)
Definition is_power_of_two (n : Z) : bool :=
  bool_decide (0 < n) && bool_decide (n = 2 ^ Z.log2 n).

Definition checkHeader (h : Header.t) (footer : option Footer.t) : result unit :=
  js_assert (bool_decide (Header.cookie h = HEADER_COOKIE)) "cookie" ;;
  js_assert (bool_decide (Header.dataOffset h = None)) "dataOffset" ;;
  js_assert (bool_decide (Header.headerVersion h = HEADER_VERSION)) "version" ;;
  js_assert (is_power_of_two (Header.blockSize h)) "blockSize" ;;
  match footer with
  | Some f =>
      (* maxTableEntries >= currentSize / blockSize *)
      js_assert (bool_decide
        (Header.maxTableEntries h * Header.blockSize h >= Footer.currentSize f)) "maxTableEntries"
  | None => Ok tt
  end.

Definition unpackHeader (bufHeader : buffer) (footer : option Footer.t) : result Header.t :=
  buf ← assertChecksum (T := Header.t) bufHeader;
  let header := fu_unpack buf in
  checkHeader header footer ;;
  Ok header.

Definition unpackFooter (bufFooter : buffer) : result Footer.t :=
  buf ← assertChecksum (T := Footer.t) bufFooter;
  let footer := fu_unpack buf in
  checkFooter footer ;;
  Ok footer.

(** ** [createFooter] and [createHeader]

A field that the source leaves out is [undefined], which packs as zero (or
as the empty text, or as the undefined offset).  The uuid drawn by the
package uuid is an argument. *)

Definition new_footer (size timestamp : Z) (geometry : Geometry) (dataOffset diskType : Z)
  (uuid : buffer) : Footer.t :=
  Footer.mk FOOTER_COOKIE 2 FILE_FORMAT_VERSION (Some dataOffset) timestamp
  CREATOR_APPLICATION 0 PLATFORMS_WI2K size size (disk_geometry geometry) diskType 0 uuid
  "" "" "".

Definition createFooter (size timestamp : Z) (geometry : Geometry) (dataOffset diskType : Z)
  (uuid : buffer) : buffer :=
  let footer := fu_pack (new_footer size timestamp geometry dataOffset diskType uuid) in
  snd (checksumStruct (T := Footer.t) footer).

Definition no_locator : ParentLocatorEntry :=
  {| platformCode := 0; platformDataSpace := 0; platformDataLength := 0;
  ple_reserved := 0; platformDataOffset := 0 |}.

Definition new_header (maxTableEntries tableOffset blockSize : Z) : Header.t :=
  Header.mk HEADER_COOKIE None tableOffset HEADER_VERSION maxTableEntries blockSize 0
  (zrep 16 0) 0 0 [] (replicate 8 no_locator) "".

Definition createHeader (maxTableEntries tableOffset blockSize : Z) : buffer :=
  let header := fu_pack (new_header maxTableEntries tableOffset blockSize) in
  snd (checksumStruct (T := Header.t) header).
End structs.

(** ** Facts on checksums *)

Section checksum_facts.
Context {T : Type} `{FuStructLaws T}.

Lemma sum_bytes_range buf a b s :
  0 ≤ a ≤ b → b ≤ zlen buf →
  sum_bytes buf (zrange a b) (Some s) = Some (s + sumZ (sub a (b - a) buf)).
Proof.
  intros [Ha Hab] Hb. pose proof Hab as Hab'. revert Hb. pattern b.
  apply (Z.right_induction _ _ a); [| |done].
  - intros. rewrite zrange_nil, sub_nil_len by lia. cbn. f_equal. lia.
  - clear b Hab Hab'. intros b Hab IH Hb. change (Z.succ b) with (b + 1) in *.
    rewrite zrange_snoc by lia. unfold sum_bytes. rewrite foldl_app.
    fold (sum_bytes buf (zrange a b) (Some s)). rewrite IH by lia.
    destruct (zget_is_Some buf b ltac:(lia)) as [x Hx].
    cbn [foldl mbind option_bind]. rewrite Hx. cbn. f_equal.
    replace (b + 1 - a) with ((b - a) + 1) by lia. rewrite sub_split, sumZ_app by lia.
    replace (a + (b - a)) with b by lia.
    assert (sub b 1 buf = [x]) as ->; [|cbn; lia].
    apply list_eq_zget; [rewrite zlen_sub by lia; done|].
    rewrite zlen_sub by lia. intros i Hi. rewrite zget_sub by lia.
    by replace i with 0 by lia; rewrite Z.add_0_r.
Qed.

(** The sum of the bytes around the checksum. *)
Definition byte_sum (buf : buffer) : Z :=
  sumZ (sub 0 fu_checksum_offset buf) +
  sumZ (sub (fu_checksum_offset + fu_checksum_size)
      (fu_size - (fu_checksum_offset + fu_checksum_size)) buf).

Lemma checksumStruct_eq buf :
  zlen buf = fu_size →
  checksumStruct buf =
  (Z.lnot (byte_sum buf) mod 2 ^ 32,
  fu_checksum_pack (Z.lnot (byte_sum buf) mod 2 ^ 32) buf).
Proof.
  intros Hl. destruct fu_checksum_in as (? & ? & ?). unfold checksumStruct.
  rewrite !sum_bytes_range by lia. rewrite Z.add_0_l, Z.sub_0_r. done.
Qed.

Lemma byte_sum_checksum_pack v buf :
  zlen buf = fu_size → byte_sum (fu_checksum_pack v buf) = byte_sum buf.
Proof.
  intros Hl. unfold byte_sum.
  by rewrite fu_checksum_pack_before, fu_checksum_pack_after.
Qed.

Lemma lnot_mod_bound n : 0 ≤ Z.lnot n mod 2 ^ 32 < 2 ^ 32.
Proof. apply Z.mod_pos_bound. lia. Qed.

Lemma assertChecksum_ok buf :
  zlen buf = fu_size → bytes buf →
  fu_checksum_unpack buf = Z.lnot (byte_sum buf) mod 2 ^ 32 →
  assertChecksum buf = Ok buf.
Proof.
  intros Hl Hb Hc. unfold assertChecksum. rewrite checksumStruct_eq by done.
  rewrite <- Hc. pass_assert. by rewrite fu_checksum_pack_unpack.
Qed.

Lemma assertChecksum_bad buf :
  zlen buf = fu_size → fu_checksum_unpack buf ≠ Z.lnot (byte_sum buf) mod 2 ^ 32 →
  assertChecksum buf = Throw (AssertionError "invalid checksum").
Proof.
  intros Hl Hc. unfold assertChecksum. rewrite checksumStruct_eq by done.
  rewrite bool_decide_eq_false_2 by done. done.
Qed.

(** The checksum a structure gets. *)
Definition checksum_of (x : T) : Z := Z.lnot (byte_sum (fu_pack x)) mod 2 ^ 32.

Lemma checksumStruct_pack x :
  fu_wf x →
  checksumStruct (fu_pack x) = (checksum_of x, fu_pack (fu_with_checksum (checksum_of x) x)).
Proof.
  intros Hx. rewrite checksumStruct_eq by (by apply fu_pack_len).
  by rewrite fu_pack_with_checksum by (done || apply lnot_mod_bound).
Qed.

Lemma assertChecksum_pack x :
  fu_wf x → let x' := fu_with_checksum (checksum_of x) x in
  assertChecksum (fu_pack x') = Ok (fu_pack x').
Proof.
  intros Hx x'. pose proof (lnot_mod_bound (byte_sum (fu_pack x))) as Hc.
  assert (Hx' : fu_wf x') by (by apply fu_wf_with_checksum).
  apply assertChecksum_ok; [by apply fu_pack_len|by apply fu_pack_bytes|].
  unfold x'. rewrite <- fu_pack_with_checksum by done.
  pose proof (fu_pack_len x Hx) as Hl.
  rewrite fu_checksum_unpack_pack, byte_sum_checksum_pack by done. done.
Qed.
End checksum_facts.

(** What [fu.pack] then [checksumStruct] write, the two unpack functions read. *)
Section roundtrip.
Context `{StructFuLaws}.

Definition checksummed_footer (f : Footer.t) : Footer.t := Footer.with_checksum (checksum_of f) f.
Definition checksummed_header (h : Header.t) : Header.t := Header.with_checksum (checksum_of h) h.

Lemma checkFooter_with_checksum v f : checkFooter (Footer.with_checksum v f) = checkFooter f.
Proof. done. Qed.
Lemma checkHeader_with_checksum v h f :
  checkHeader (Header.with_checksum v h) f = checkHeader h f.
Proof. done. Qed.

Lemma unpackFooter_pack f :
  fu_wf f →
  unpackFooter (fu_pack (checksummed_footer f)) = (checkFooter f ;; Ok (checksummed_footer f)).
Proof.
  intros Hf. unfold unpackFooter, checksummed_footer. rewrite <- fuFooter_checksum.
  rewrite assertChecksum_pack by done. cbn [mbind result_bind].
  rewrite fu_unpack_pack by (apply fu_wf_with_checksum; [done|apply lnot_mod_bound]).
  by rewrite fuFooter_checksum, checkFooter_with_checksum.
Qed.

Lemma unpackHeader_pack h f :
  fu_wf h →
  unpackHeader (fu_pack (checksummed_header h)) f = (checkHeader h f ;; Ok (checksummed_header h)).
Proof.
  intros Hh. unfold unpackHeader, checksummed_header. rewrite <- fuHeader_checksum.
  rewrite assertChecksum_pack by done. cbn [mbind result_bind].
  rewrite fu_unpack_pack by (apply fu_wf_with_checksum; [done|apply lnot_mod_bound]).
  by rewrite fuHeader_checksum, checkHeader_with_checksum.
Qed.
End roundtrip.

Lemma sumZ_insert (l : list Z) (k : nat) x y :
  l !! k = Some y → sumZ (<[k := x]> l) = sumZ l - y + x.
Proof.
  revert k. induction l as [|z l IH]; intros [|k] Hk; [done|done| |].
  - cbn in Hk |- *. simplify_eq. lia.
  - change (z + sumZ (<[k := x]> l) = z + sumZ l - y + x). rewrite (IH k Hk). lia.
Qed.

Lemma sub_insert_in {A} (b : list A) o n k x :
  0 ≤ o → o ≤ k < o + n → sub o n (<[Z.to_nat k := x]> b) = <[Z.to_nat (k - o) := x]> (sub o n b).
Proof.
  intros. unfold sub. rewrite drop_insert_ge by lia. rewrite take_insert_lt by lia.
  f_equal. lia.
Qed.

Lemma sub_insert_out {A} (b : list A) o n k x :
  0 ≤ o → 0 ≤ k → k < o ∨ o + n ≤ k → sub o n (<[Z.to_nat k := x]> b) = sub o n b.
Proof.
  intros ? ? [|]; unfold sub.
  - by rewrite drop_insert_lt by lia.
  - destruct (decide (o ≤ k)).
    + rewrite drop_insert_ge by lia. destruct (decide (0 ≤ n)).
      * rewrite take_insert_ge by lia. done.
      * by replace (Z.to_nat n) with 0%nat by lia.
    + replace (Z.to_nat n) with 0%nat by lia. done.
Qed.

Section corruption.
Context {T : Type} `{FuStructLaws T}.

(** Changing one byte around the checksum changes the sum by less than a byte. *)
Lemma byte_sum_insert buf i x y :
  zlen buf = fu_size → 0 ≤ i < fu_size →
  i < fu_checksum_offset ∨ fu_checksum_offset + fu_checksum_size ≤ i →
  zget buf i = Some y →
  byte_sum (<[Z.to_nat i := x]> buf) = byte_sum buf - y + x.
Proof.
  intros Hl Hi Ho Hy. destruct fu_checksum_in as (? & ? & ?). unfold byte_sum.
  destruct Ho.
  - rewrite sub_insert_in, sub_insert_out by lia.
    rewrite (sumZ_insert _ _ x y); [lia|].
    rewrite lookup_sub by lia. revert Hy. unfold zget. rewrite decide_False by lia.
    intros <-. f_equal. lia.
  - rewrite sub_insert_out, sub_insert_in by lia.
    rewrite (sumZ_insert _ _ x y); [lia|].
    rewrite lookup_sub by lia. revert Hy. unfold zget. rewrite decide_False by lia.
    intros <-. f_equal. lia.
Qed.
End corruption.

Lemma lnot_mod_inj a b n : 0 < n → Z.lnot a mod n = Z.lnot b mod n → (a - b) mod n = 0.
Proof.
  intros Hn E. unfold Z.lnot in E. rewrite <- !Z.sub_1_r in E.
  replace (a - b) with ((- b - 1) - (- a - 1)) by lia.
  rewrite Zminus_mod, E, Z.sub_diag. by apply Z.mod_0_l; lia.
Qed.

(** ** Properties *)

Section properties.
Context `{StructFuLaws}.

(** What [pack] and [checksumStruct] write for a footer or a header whose
fields fit, [unpackFooter] and [unpackHeader] read back, with the checksum
filled in, exactly when the checks accept it; otherwise they throw the
error of the check. *)
Theorem vhd_struct_roundtrip (f : Footer.t) (h : Header.t) :
  fu_wf f → fu_wf h →
  unpackFooter (snd (checksumStruct (T := Footer.t) (fu_pack f))) = (checkFooter f ;; Ok (checksummed_footer f)) ∧
  unpackHeader (snd (checksumStruct (T := Header.t) (fu_pack h))) (Some f)
  = (checkHeader h (Some f) ;; Ok (checksummed_header h)).
Proof.
  intros Hf Hh. rewrite (checksumStruct_pack f), (checksumStruct_pack h) by done. cbn [snd].
  rewrite fuFooter_checksum, fuHeader_checksum.
  split; [by apply unpackFooter_pack|by apply unpackHeader_pack].
Qed.

(** A footer (the same holds for any checksummed structure) in which one
byte outside of the checksum is altered is refused. *)
Theorem checksum_detects_corruption (buf : buffer) i x :
  zlen buf = FOOTER_SIZE → bytes buf → assertChecksum (T := Footer.t) buf = Ok buf →
  0 ≤ i < FOOTER_SIZE → is_byte x → zget buf i ≠ Some x →
  i < fu_checksum_offset (T := Footer.t) ∨
  fu_checksum_offset (T := Footer.t) + fu_checksum_size (T := Footer.t) ≤ i →
  unpackFooter (<[Z.to_nat i := x]> buf) = Throw (AssertionError "invalid checksum").
Proof.
  rewrite <- fuFooter_size. intros Hl Hb Hok Hi Hx Hne Ho.
  destruct (fu_checksum_in (T := Footer.t)) as (? & ? & ?).
  destruct (zget_is_Some buf i ltac:(lia)) as [y Hy].
  assert (Hyb : is_byte y) by (by eapply (proj1 (bytes_zget buf)); eauto).
  unfold unpackFooter. rewrite assertChecksum_bad; [done| |].
  - rewrite <- Hl. unfold zlen. by rewrite length_insert.
  - rewrite (byte_sum_insert _ _ x y) by done. intros E.
    assert (Hc : fu_checksum_unpack (T := Footer.t) buf
      = Z.lnot (byte_sum (T := Footer.t) buf) mod 2 ^ 32).
    { apply dec_stable. intros Hn. by rewrite assertChecksum_bad in Hok. }
    rewrite (fu_checksum_unpack_ext (T := Footer.t) _ buf) in E by (apply sub_insert_out; lia).
    rewrite Hc in E. apply lnot_mod_inj in E; [|done].
    assert (x ≠ y) by congruence. unfold is_byte in *.
    apply Z.mod_divide in E; [|done]. destruct E as [k E].
    assert (k = 0) by lia. subst k. lia.
Qed.

(** The footer and header that [createFooter] and [createHeader] build for
a dynamic disk are accepted by the two unpack functions, with the sizes
and sector counts asked for. *)
Theorem created_vhd_is_accepted size timestamp uuid maxTableEntries tableOffset blockSize :
  let g := computeGeometryForSize size in
  let f := new_footer (actualSize g) timestamp g FOOTER_SIZE DISK_TYPES_DYNAMIC uuid in
  let h := new_header maxTableEntries tableOffset blockSize in
  fu_wf f → fu_wf h → is_power_of_two blockSize = true →
  actualSize g ≤ maxTableEntries * blockSize →
  unpackFooter (createFooter (actualSize g) timestamp g FOOTER_SIZE DISK_TYPES_DYNAMIC uuid)
  = Ok (checksummed_footer f) ∧
  unpackHeader (createHeader maxTableEntries tableOffset blockSize) (Some f)
  = Ok (checksummed_header h) ∧
  Footer.currentSize f = actualSize g ∧ Header.maxTableEntries h = maxTableEntries ∧
  Header.tableOffset h = tableOffset.
Proof.
  intros g f h Hf Hh Hp Hm. unfold createFooter, createHeader. fold f h.
  rewrite (checksumStruct_pack f), (checksumStruct_pack h) by done. cbn [snd].
  rewrite fuFooter_checksum, fuHeader_checksum.
  fold (checksummed_footer f) (checksummed_header h).
  rewrite unpackFooter_pack, unpackHeader_pack by done.
  assert (checkFooter f = Ok tt) as ->.
  { unfold checkFooter. pass_assert. pass_assert. pass_assert.
    cbn [f new_footer Footer.originalSize Footer.currentSize]. pass_assert. done. }
  assert (checkHeader h (Some f) = Ok tt) as ->.
  { unfold checkHeader. pass_assert. pass_assert. pass_assert.
    cbn [h new_header Header.blockSize Header.maxTableEntries]. rewrite Hp.
    cbn [js_assert mbind result_bind f new_footer Footer.currentSize].
    by rewrite bool_decide_eq_true_2 by lia. }
  done.
Qed.
End properties.

(** ** Witnesses *)

Definition sample_footer : Footer.t :=
  new_footer (actualSize (computeGeometryForSize 1000000)) 5 (computeGeometryForSize 1000000)
    FOOTER_SIZE DISK_TYPES_DYNAMIC (zrep 16 1).
Definition sample_header : Header.t := new_header 100 1536 65536.

Ltac compute_wf :=
  repeat match goal with |- _ => apply conj end;
  first
  [ match goal with |- _ ∉ _ => apply (bool_decide_unpack _); vm_compute; exact I end
  | solve [repeat constructor; unfold is_byte; lia]
  | solve [vm_compute; congruence] ].

Lemma sample_footer_wf : @fu_wf Footer.t packedFooter sample_footer.
Proof. compute_wf. Qed.

Lemma sample_header_wf : @fu_wf Header.t packedHeader sample_header.
Proof. compute_wf. Qed.

Lemma vhd_struct_roundtrip_witness :
  @unpackFooter packed (snd (@checksumStruct Footer.t packedFooter
    (@fu_pack Footer.t packedFooter sample_footer)))
  = Ok (@checksummed_footer packed sample_footer).
Proof.
  destruct (@vhd_struct_roundtrip packed packed_laws sample_footer sample_header
    sample_footer_wf sample_header_wf) as [Hf _].
  exact Hf.
Defined.

Lemma checksum_detects_corruption_witness :
  let buf := @createFooter packed 1000 5 (computeGeometryForSize 1000) 512 3 (zrep 16 1) in
  @unpackFooter packed (<[100%nat := 7]> buf) = Throw (AssertionError "invalid checksum").
Proof.
  intros buf. apply (@checksum_detects_corruption packed packed_laws buf 100 7).
  - vm_compute. reflexivity.
  - apply (bool_decide_unpack (Forall (λ z, 0 ≤ z < 256) buf)). vm_compute. exact I.
  - vm_compute. reflexivity.
  - unfold FOOTER_SIZE. lia.
  - unfold is_byte. lia.
  - vm_compute. congruence.
  - right. vm_compute. congruence.
Defined.

Lemma created_vhd_is_accepted_witness :
  let g := computeGeometryForSize 1000000 in
  @unpackFooter packed (@createFooter packed (actualSize g) 5 g FOOTER_SIZE DISK_TYPES_DYNAMIC (zrep 16 1))
    = Ok (@checksummed_footer packed sample_footer).
Proof.
  destruct (@created_vhd_is_accepted packed packed_laws 1000000 5 (zrep 16 1) 100 1536 65536)
    as [H _].
  - exact sample_footer_wf.
  - exact sample_header_wf.
  - vm_compute. reflexivity.
  - vm_compute. congruence.
  - exact H.
Defined.
