(* ===== verification/VhdFile.v ===== *)
(** * A VHD in one file

    [packages/vhd-lib/Vhd/VhdFile.js] with the size getters and [mergeBlock],
    [writeParentLocator], [readParentLocator] it inherits from [VhdAbstract.js].
    The state is the content of the file together with the fields of the object;
    the reads and writes of the handler are those of
    [@xen-orchestra/fs/src/local.js] on an unencrypted file. *)

From S2P Require Import Prelude Buffers VhdFormat StructFu VhdStructs.

(** ** The handler ([@xen-orchestra/fs/src/local.js]) *)

Module Handler.
(** [_read]: a read that cannot be completed throws.  The operating system
refuses a negative position. *)
Definition read (file : buffer) (n start : Z) : result buffer :=
  if decide (start < 0) then Throw (RangeError "position")
  else
  js_assert (bool_decide (n ≤ 0) || bool_decide (start + n ≤ zlen file))
  "couldn't read any data from file" ;;
  Ok (sub start n file).

(** [_writeFd] *)
Definition write (file : buffer) (data : buffer) (position : Z) : result buffer :=
  if decide (position < 0) then Throw (RangeError "position")
  else Ok (bwrite file position data).

(** [_getSize] *)
Definition getSize (file : buffer) : Z := zlen file.
End Handler.

(** ** Sizes ([VhdAbstract]) *)

Definition sectorsOfBitmap (h : Header.t) : Z := computeSectorOfBitmap (Header.blockSize h).
Definition bitmapSize (h : Header.t) : Z := sectorsToBytes (sectorsOfBitmap h).
Definition fullBlockSize (h : Header.t) : Z := computeFullBlockSize (Header.blockSize h).
Definition sectorsPerBlock (h : Header.t) : Z := computeSectorsPerBlock (Header.blockSize h).
Definition batSize (h : Header.t) : Z := computeBatSize (Header.maxTableEntries h).

(** ** The object *)

Record VhdFile := mkVhd {
  vf_file : buffer;                   (* the content of the file *)
  vf_footer : option Footer.t;
  vf_header : option Header.t;
  vf_blockTable : option buffer;
  vf_closed : bool;
  vf_closes : nat;                    (* calls of [handler.closeFile] *)
}.

Definition set_file (b : buffer) (s : VhdFile) : VhdFile :=
  mkVhd b (vf_footer s) (vf_header s) (vf_blockTable s) (vf_closed s) (vf_closes s).
Definition set_footer (f : Footer.t) (s : VhdFile) : VhdFile :=
  mkVhd (vf_file s) (Some f) (vf_header s) (vf_blockTable s) (vf_closed s) (vf_closes s).
Definition set_header (h : Header.t) (s : VhdFile) : VhdFile :=
  mkVhd (vf_file s) (vf_footer s) (Some h) (vf_blockTable s) (vf_closed s) (vf_closes s).
Definition set_blockTable (t : buffer) (s : VhdFile) : VhdFile :=
  mkVhd (vf_file s) (vf_footer s) (vf_header s) (Some t) (vf_closed s) (vf_closes s).
Definition set_closed (s : VhdFile) : VhdFile :=
  mkVhd (vf_file s) (vf_footer s) (vf_header s) (vf_blockTable s) true (S (vf_closes s)).

(** [new VhdFile(handler, fd)] *)
Definition new_VhdFile (file : buffer) : VhdFile := mkVhd file None None None false 0.

Abbreviation V := (M VhdFile).

Definition undefined_field (A : Type) : result A :=
  Throw (TypeError "Cannot read properties of undefined").

(** [this.header], of which a field is read. *)
Definition header : V Header.t := λ s,
  (match vf_header s with Some h => Ok h | None => undefined_field _ end, s).
Definition footer : V Footer.t := λ s,
  (match vf_footer s with Some f => Ok f | None => undefined_field _ end, s).

(** [get #blockTable()] *)
Definition blockTable : V buffer := λ s,
  (match vf_blockTable s with
   | Some t => Ok t
   | None => Throw (AssertionError "Block table must be initialized before access")
   end, s).

(** The table the header setter makes: [writeUInt32BE(BLOCK_UNUSED, i * 4)] for
    every entry, in a zeroed buffer of whole sectors. *)
Definition fresh_table (h : Header.t) : result buffer :=
  foldl (λ t i, t ← t; writeUInt32BE BLOCK_UNUSED (i * 4) t) (Ok (zrep (batSize h) 0))
    (zrange 0 (Header.maxTableEntries h)).

(** [set header(header)] *)
Definition assign_header (h : Header.t) : V unit :=
  modify (set_header h) ;;
  t ← lift (fresh_table h);
  modify (set_blockTable t).

(** [header.parentLocatorEntry[i]], of which a field is read. *)
Definition locator (h : Header.t) (i : Z) : result ParentLocatorEntry :=
  match zget (Header.parentLocatorEntry h) i with
  | Some e => Ok e
  | None => undefined_field _
  end.

(** ** Reads *)

Definition _read (start n : Z) : V buffer :=
  s ← gets vf_file; lift (Handler.read s n start).

(** One iteration of the loop on the parent locators. *)
Definition locator_end (e : Z) (entry : ParentLocatorEntry) : Z :=
  if decide (platformCode entry ≠ PLATFORMS_NONE) then
    Z.max e (platformDataOffset entry + sectorsToBytes (platformDataSpace entry))
  else e.

(** The header has [PARENT_LOCATOR_ENTRIES] locators. *)
Definition endOfHeaders (h : Header.t) : Z :=
  foldl locator_end
    (Z.max (FOOTER_SIZE + HEADER_SIZE) (Header.tableOffset h + batSize h))
    (Header.parentLocatorEntry h).

Definition _getEndOfHeaders : V Z := h ← header; mret (endOfHeaders h).

Definition getBatEntry (t : buffer) (blockId : Z) : result Z :=
  let i := blockId * 4 in
  if decide (i < zlen t) then readUInt32BE t i else Ok BLOCK_UNUSED.

Definition _getBatEntry (blockId : Z) : V Z := t ← blockTable; lift (getBatEntry t blockId).

(** [for (let i = 0; i < maxTableEntries; i++)] of [_getEndOfData], in sectors. *)
Definition endOfBlocks (h : Header.t) (t : buffer) (e : Z) : result Z :=
  foldl (λ e i,
      e ← e; blockAddr ← getBatEntry t i;
      Ok (if decide (blockAddr ≠ BLOCK_UNUSED)
          then Z.max e (blockAddr + (sectorsOfBitmap h + sectorsPerBlock h)) else e))
    (Ok e) (zrange 0 (Header.maxTableEntries h)).

Definition _getEndOfData : V Z :=
  endH ← _getEndOfHeaders;
  h ← header;
  t ← blockTable;
  e ← lift (endOfBlocks h t (ceil_div endH SECTOR_SIZE));
  mret (sectorsToBytes e).

Definition containsBlock (id : Z) : V bool :=
  e ← _getBatEntry id; mret (bool_decide (e ≠ BLOCK_UNUSED)).

Record Block := mkBlock { b_id : Z; b_bitmap : buffer; b_data : buffer; b_buffer : buffer }.

(** [readBlock(blockId)] *)
Definition readBlock (blockId : Z) : V Block :=
  blockAddr ← _getBatEntry blockId;
  assert_that (bool_decide (blockAddr ≠ BLOCK_UNUSED)) "no such block" ;;
  h ← header;
  buf ← _read (sectorsToBytes blockAddr) (fullBlockSize h);
  mret (mkBlock blockId (buf_slice buf 0 (bitmapSize h))
          (buf_slice buf (bitmapSize h) (zlen buf)) buf).

(** [(await readBlock(blockId, true)).bitmap] *)
Definition readBlockBitmap (blockId : Z) : V buffer :=
  blockAddr ← _getBatEntry blockId;
  assert_that (bool_decide (blockAddr ≠ BLOCK_UNUSED)) "no such block" ;;
  h ← header;
  _read (sectorsToBytes blockAddr) (bitmapSize h).

Definition readBlockAllocationTable : V unit :=
  h ← header;
  t ← _read (Header.tableOffset h) (Header.maxTableEntries h * 4);
  modify (set_blockTable t).

(** ** Writes *)

Definition _write (data : buffer) (offset : Z) : V unit := λ s,
  match Handler.write (vf_file s) data offset with
  | Ok file => (Ok tt, set_file file s)
  | Throw e => (Throw e, s)
  end.

(** The new entry is stored in the table and in the file. *)
Definition _setBatEntry (block blockSector : Z) : V unit :=
  let i := block * 4 in
  t ← blockTable;
  t' ← lift (writeUInt32BE blockSector i t);
  modify (set_blockTable t') ;;
  h ← header;
  _write (buf_slice t' i (i + 4)) (Header.tableOffset h + i).

Definition _createBlock (blockId : Z) : V Z :=
  e ← _getBatEntry blockId;
  assert_that (bool_decide (e = BLOCK_UNUSED)) "_createBlock" ;;
  endOfData ← _getEndOfData;
  let blockAddr := ceil_div endOfData SECTOR_SIZE in
  _setBatEntry blockId blockAddr ;;
  mret blockAddr.

Definition _writeBlockBitmap (blockAddr : Z) (bitmap : buffer) : V unit :=
  h ← header;
  if decide (zlen bitmap ≠ bitmapSize h) then
    lift (Throw (OtherError "Bitmap length is not correct !"))
  else _write bitmap (sectorsToBytes blockAddr).

(** The address of a block, created when it has none. *)
Definition blockAddrOf (blockId : Z) : V Z :=
  blockAddr ← _getBatEntry blockId;
  if decide (blockAddr = BLOCK_UNUSED) then _createBlock blockId else mret blockAddr.

Definition writeEntireBlock (block : Block) : V unit :=
  blockAddr ← blockAddrOf (b_id block);
  _write (b_buffer block) (sectorsToBytes blockAddr).

Definition writeBlockData (blockId : Z) (data : buffer) : V unit :=
  h ← header;
  assert_that (bool_decide (zlen data = Header.blockSize h)) "block must be blockSize bytes" ;;
  blockAddr ← blockAddrOf blockId;
  _writeBlockBitmap blockAddr (zrep (bitmapSize h) 255) ;;
  _write data (sectorsToBytes (blockAddr + sectorsOfBitmap h)).

(** [parentBitmap] is not given by the callers. *)
Definition _writeBlockSectors (id : Z) (data : buffer) (beginSectorId endSectorId : Z) : V unit :=
  blockAddr ← _getBatEntry id;
  h ← header;
  '(blockAddr, parentBitmap) ←
    (if decide (blockAddr = BLOCK_UNUSED) then
       a ← _createBlock id; mret (a, zrep (bitmapSize h) 0)
     else b ← readBlockBitmap id; mret (blockAddr, b));
  let offset := blockAddr + sectorsOfBitmap h + beginSectorId in
  let bitmap := foldl Bitmap.set parentBitmap (zrange beginSectorId endSectorId) in
  _writeBlockBitmap blockAddr bitmap ;;
  _write (buf_slice data (sectorsToBytes beginSectorId) (sectorsToBytes endSectorId))
    (sectorsToBytes offset).

Section write.
Context `{!StructFu}.

(** [writeFooter(onlyEndFooter)] *)
Definition writeFooter (onlyEndFooter : bool) : V unit :=
  f ← footer;
  let rawFooter := fu_pack f in
  eof ← gets (λ s, Handler.getSize (vf_file s));
  endOfData ← _getEndOfData;
  let offset := Z.max endOfData (eof - zlen rawFooter) in
  let '(checksum, rawFooter) := checksumStruct (T := Footer.t) rawFooter in
  modify (set_footer (Footer.with_checksum checksum f)) ;;
  (if onlyEndFooter then mret tt else _write rawFooter 0) ;;
  _write rawFooter offset.

Definition writeHeader : V unit :=
  h ← header;
  let '(checksum, rawHeader) := checksumStruct (T := Header.t) (fu_pack h) in
  modify (set_header (Header.with_checksum checksum h)) ;;
  _write rawHeader FOOTER_SIZE.

Definition writeBlockAllocationTable : V unit :=
  h ← header;
  t ← blockTable;
  _write t (Header.tableOffset h).

(** [readHeaderAndFooter(checkSecondFooter)] *)
Definition readHeaderAndFooter (checkSecondFooter : bool) : V unit :=
  buf ← _read 0 (FOOTER_SIZE + HEADER_SIZE);
  let bufFooter := buf_slice buf 0 FOOTER_SIZE in
  let bufHeader := buf_slice buf FOOTER_SIZE (zlen buf) in
  f ← lift (unpackFooter bufFooter);
  h ← lift (unpackHeader bufHeader (Some f));
  (if checkSecondFooter then
     size ← gets (λ s, Handler.getSize (vf_file s));
     endFooter ← _read (size - FOOTER_SIZE) FOOTER_SIZE;
     assert_that (bool_decide (snd (checksumStruct (T := Footer.t) bufFooter) = endFooter))
       "footer1 !== footer2"
   else mret tt) ;;
  modify (set_footer f) ;;
  assign_header h.

(** [dispose()]: the file is closed once. *)
Definition dispose : V unit := λ s, (Ok tt, if vf_closed s then s else set_closed s).

(** [VhdFile.open]: the state is kept to tell whether the file was closed. *)
Definition open_vhd (checkSecondFooter : bool) (file : buffer) : result VhdFile * VhdFile :=
  match readHeaderAndFooter checkSecondFooter (new_VhdFile file) with
  | (Ok _, s) => (Ok s, s)
  | (Throw e, s) => (Throw e, snd (dispose s))
  end.

(** [_freeFirstBlockSpace(spaceNeededBytes)]: each recursive call needs at least
a sector less. *)
Fixpoint freeFirstBlockSpace (fuel : nat) (spaceNeededBytes : Z) : V unit :=
  match fuel with
  | O => lift (Throw (OtherError "fuel"))
  | S fuel =>
      t ← blockTable;
      firstAndLastBlocks ← lift (getFirstAndLastBlocks t);
      match firstAndLastBlocks with
      | None => mret tt
      | Some r =>
          h ← header;
          let tableEnd := Header.tableOffset h + batSize h in
          let newMinSector := ceil_div (tableEnd + spaceNeededBytes) SECTOR_SIZE in
          if decide (tableEnd + spaceNeededBytes >= sectorsToBytes (firstSector r)) then
            let newFirstSector := Z.max (lastSector r + fullBlockSize h / SECTOR_SIZE) newMinSector in
            block ← _read (sectorsToBytes (firstSector r)) (fullBlockSize h);
            _write block (sectorsToBytes newFirstSector) ;;
            _setBatEntry (first r) newFirstSector ;;
            writeFooter true ;;
            let spaceNeededBytes := spaceNeededBytes - fullBlockSize h in
            if decide (spaceNeededBytes > 0) then freeFirstBlockSpace fuel spaceNeededBytes
            else mret tt
          else mret tt
      end
  end.

Definition _freeFirstBlockSpace (spaceNeededBytes : Z) : V unit :=
  freeFirstBlockSpace (S (Z.to_nat spaceNeededBytes)) spaceNeededBytes.

(** [n] bytes of the pattern, repeated. *)
Definition cycle (n : Z) (pattern : buffer) : buffer :=
  take (Z.to_nat n) (mjoin (replicate (Z.to_nat n) pattern)).

(** [ensureBatSize(entries)]; [unsafe n] is the content of a new buffer of [n]
bytes. *)
Definition ensureBatSize (unsafe : Z → buffer) (entries : Z) : V unit :=
  h ← header;
  let prevMaxTableEntries := Header.maxTableEntries h in
  if decide (prevMaxTableEntries >= entries) then mret tt
  else
    let newBatSize := computeBatSize entries in
    _freeFirstBlockSpace (newBatSize - batSize h) ;;
    h ← header;
    modify (set_header (Header.with_maxTableEntries entries h)) ;;
    prevBat ← blockTable;
    let bat := buf_copy (unsafe newBatSize) 0 prevBat in
    let offset := prevMaxTableEntries * 4 in
    let bat := sub 0 offset bat ++ cycle (zlen bat - offset) BUF_BLOCK_UNUSED in
    modify (set_blockTable bat) ;;
    _write (cycle (entries - prevMaxTableEntries) BUF_BLOCK_UNUSED)
      (Header.tableOffset h + zlen prevBat) ;;
    writeHeader.

(** The block of [writeData] and the sectors of it that are written. *)
Definition data_of_block (h : Header.t) (offsetSectors : Z) (buf : buffer) (currentBlock : Z)
  : buffer * Z * Z :=
  let spb := sectorsPerBlock h in
  let endBufferSectors := offsetSectors + ceil_div (zlen buf) SECTOR_SIZE in
  let offsetInBlockSectors := Z.max 0 (offsetSectors - currentBlock * spb) in
  let endInBlockSectors := Z.min (endBufferSectors - currentBlock * spb) spb in
  let startInBuffer := Z.max 0 ((currentBlock * spb - offsetSectors) * SECTOR_SIZE) in
  let endInBuffer := Z.min (((currentBlock + 1) * spb - offsetSectors) * SECTOR_SIZE) (zlen buf) in
  let inputBuffer :=
    if bool_decide (offsetInBlockSectors = 0) && bool_decide (endInBlockSectors = spb) then
      buf_slice buf startInBuffer endInBuffer
    else
      buf_copy (zrep (spb * SECTOR_SIZE) 0) (offsetInBlockSectors * SECTOR_SIZE)
        (buf_slice buf startInBuffer endInBuffer) in
  (inputBuffer, offsetInBlockSectors, endInBlockSectors).

Definition writeData (unsafe : Z → buffer) (offsetSectors : Z) (buf : buffer) : V unit :=
  h ← header;
  let bufferSizeSectors := ceil_div (zlen buf) SECTOR_SIZE in
  let startBlock := offsetSectors / sectorsPerBlock h in
  let endBufferSectors := offsetSectors + bufferSizeSectors in
  let lastBlock := ceil_div endBufferSectors (sectorsPerBlock h) - 1 in
  ensureBatSize unsafe lastBlock ;;
  for_each (zrange startBlock (lastBlock + 1)) (λ currentBlock,
    let '(inputBuffer, b, e) := data_of_block h offsetSectors buf currentBlock in
    _writeBlockSectors currentBlock inputBuffer b e) ;;
  writeFooter false.

(** ** Parent locators *)

Definition _ensureSpaceForParentLocators (neededSectors : Z) : V Z :=
  let firstLocatorOffset := FOOTER_SIZE + HEADER_SIZE in
  h ← header;
  let currentSpace := Header.tableOffset h / SECTOR_SIZE - firstLocatorOffset / SECTOR_SIZE in
  (if decide (currentSpace < neededSectors) then
     let deltaSectors := neededSectors - currentSpace in
     _freeFirstBlockSpace (sectorsToBytes deltaSectors) ;;
     h ← header;
     let tableOffset := Header.tableOffset h + sectorsToBytes deltaSectors in
     modify (set_header (Header.with_tableOffset tableOffset h)) ;;
     t ← blockTable;
     _write t tableOffset
   else mret tt) ;;
  mret firstLocatorOffset.

Definition _readParentLocatorData (parentLocatorId : Z) : V buffer :=
  h ← header;
  e ← lift (locator h parentLocatorId);
  if decide (platformDataLength e > 0) then _read (platformDataOffset e) (platformDataLength e)
  else mret [].

(** [header.parentLocatorEntry[i].platformDataOffset = v] and the like. *)
Definition update_locator (i : Z) (g : ParentLocatorEntry → ParentLocatorEntry) : V unit :=
  h ← header;
  e ← lift (locator h i);
  modify (set_header (Header.with_parentLocatorEntry
    (<[Z.to_nat i := g e]> (Header.parentLocatorEntry h)) h)).

Definition with_offset (v : Z) (e : ParentLocatorEntry) : ParentLocatorEntry :=
  {| platformCode := platformCode e; platformDataSpace := platformDataSpace e;
  platformDataLength := platformDataLength e; ple_reserved := ple_reserved e;
  platformDataOffset := v |}.

Definition _writeParentLocatorData (parentLocatorId : Z) (data : buffer) : V unit :=
  h ← header;
  if decide (zlen data = 0) then update_locator parentLocatorId (with_offset 0)
  else
    e ← lift (locator h parentLocatorId);
    let space := platformDataSpace e * SECTOR_SIZE in
    position ←
      (if decide (zlen data <= space) then mret (platformDataOffset e)
       else
         t ← blockTable;
         firstAndLastBlocks ← lift (getFirstAndLastBlocks t);
         match firstAndLastBlocks with
         | None => _getEndOfData
         | Some r => _freeFirstBlockSpace space ;; mret (sectorsToBytes (firstSector r))
         end);
    _write data position ;;
    update_locator parentLocatorId (with_offset position).

(** [VhdAbstract.writeParentLocator({ id, platformCode, data })] *)
Definition writeParentLocator (id code : Z) (data : buffer) : V unit :=
  assert_that (bool_decide (id >= 0)) "parent Locator id must be a positive number" ;;
  assert_that (bool_decide (id < PARENT_LOCATOR_ENTRIES)) "parent Locator id must be less than" ;;
  _writeParentLocatorData id data ;;
  update_locator id (λ e,
  {| platformCode := code; platformDataSpace := ceil_div (zlen data) SECTOR_SIZE;
   platformDataLength := zlen data; ple_reserved := ple_reserved e;
   platformDataOffset := platformDataOffset e |}).

(** [VhdAbstract.readParentLocator(id)]: the platform code and the data. *)
Definition readParentLocator (id : Z) : V (Z * buffer) :=
  assert_that (bool_decide (id >= 0)) "parent Locator id must be a positive number" ;;
  assert_that (bool_decide (id < PARENT_LOCATOR_ENTRIES)) "parent Locator id must be less than" ;;
  data ← _readParentLocatorData id;
  h ← header;
  e ← lift (locator h id);
  mret (platformCode e, data).

(** [Buffer.from(s, 'utf16le')] *)
Definition utf16le (units : list Z) : buffer := units ≫= λ u, [u mod 256; u / 256].

Definition setUniqueParentLocator (fileNameString : list Z) : V unit :=
  writeParentLocator 0 PLATFORMS_W2KU (utf16le fileNameString) ;;
  for_each (zrange 1 PARENT_LOCATOR_ENTRIES) (λ i, writeParentLocator i PLATFORMS_NONE []).

Definition getSize : V Z := gets (λ s, Handler.getSize (vf_file s)).
End write.
