(* ===== verification/VhdLayout.v ===== *)
(** * The blocks of a VHD file

    The invariant of [VhdFile] (where the blocks may be), the abstract content
    of the disk it represents (a finite map from block numbers to blocks) and
    the lemmas that say which bytes each write of [VhdFile] may change. *)

From S2P Require Import Prelude Buffers VhdFormat StructFu VhdStructs VhdFile.

#[global] Arguments bwrite : simpl never.
#[global] Arguments be_encode : simpl never.

(** ** Sizes *)

(** Sectors of a block with its bitmap. *)
Definition slot (h : Header.t) : Z := sectorsOfBitmap h + sectorsPerBlock h.

Record header_ok (h : Header.t) : Prop := {
  ho_blockSize : 0 < Header.blockSize h;
  ho_sectors : (SECTOR_SIZE | Header.blockSize h);
  ho_entries : 0 ≤ Header.maxTableEntries h;
  ho_table : FOOTER_SIZE + HEADER_SIZE ≤ Header.tableOffset h;
}.

Lemma fullBlockSize_slot h : header_ok h → fullBlockSize h = slot h * SECTOR_SIZE.
Proof.
  intros [Hb [k Hk] _ _]. unfold fullBlockSize, slot, computeFullBlockSize, sectorsPerBlock,
    computeSectorsPerBlock, sectorsOfBitmap. rewrite Hk, Z.div_mul by done.
  unfold SECTOR_SIZE. lia.
Qed.

Lemma slot_pos h : header_ok h → 0 < slot h.
Proof.
  intros [Hb [k Hk] _ _]. unfold slot, sectorsOfBitmap, sectorsPerBlock, computeSectorsPerBlock.
  pose proof (computeSectorOfBitmap_pos (Header.blockSize h) ltac:(lia)).
  rewrite Hk in *. rewrite Z.div_mul by done. unfold SECTOR_SIZE in *. lia.
Qed.

Lemma sectorsPerBlock_bytes h :
  header_ok h → sectorsToBytes (sectorsPerBlock h) = Header.blockSize h.
Proof.
  intros [_ [k Hk] _ _]. unfold sectorsToBytes, sectorsPerBlock, computeSectorsPerBlock.
  by rewrite Hk, Z.div_mul.
Qed.

Lemma batSize_covers h : header_ok h → Header.maxTableEntries h * 4 ≤ batSize h.
Proof. intros [_ _ ? _]. by apply computeBatSize_covers. Qed.

Lemma locator_end_mono ls e : e ≤ foldl locator_end e ls.
Proof.
  revert e. induction ls as [|l ls IH]; intros e; [done|]. cbn.
  etrans; [|apply IH]. unfold locator_end. case_decide; lia.
Qed.

Lemma endOfHeaders_ge h :
  FOOTER_SIZE + HEADER_SIZE ≤ endOfHeaders h ∧ Header.tableOffset h + batSize h ≤ endOfHeaders h.
Proof.
  unfold endOfHeaders.
  pose proof (locator_end_mono (Header.parentLocatorEntry h)
    (Z.max (FOOTER_SIZE + HEADER_SIZE) (Header.tableOffset h + batSize h))). lia.
Qed.

(** ** The allocation table *)

Lemma getBatEntry_spec t i :
  zlen t mod 4 = 0 → 0 ≤ i →
  getBatEntry t i = Ok (if decide (i < zlen t / 4) then bat_entry t i else BLOCK_UNUSED).
Proof.
  intros Hm Hi. unfold getBatEntry, bat_entry.
  pose proof (Z.div_mod (zlen t) 4 ltac:(done)).
  repeat case_decide; try lia; [|done].
  by rewrite readUInt32BE_ok by lia.
Qed.

#[export] Instance allocated_dec t i : Decision (allocated t i).
Proof. unfold allocated. apply _. Defined.

Lemma getBatEntry_allocated t i :
  zlen t mod 4 = 0 → allocated t i → getBatEntry t i = Ok (bat_entry t i).
Proof. intros ? []. rewrite getBatEntry_spec by lia. by rewrite decide_True by lia. Qed.

Lemma getBatEntry_unused t i :
  zlen t mod 4 = 0 → 0 ≤ i → ¬ allocated t i → getBatEntry t i = Ok BLOCK_UNUSED.
Proof.
  intros ? ? Ha. rewrite getBatEntry_spec by lia. case_decide; [|done]. f_equal.
  destruct (decide (bat_entry t i = BLOCK_UNUSED)); [done|].
  destruct Ha. split; [lia|done].
Qed.

Lemma bat_entry_bound t i : bytes t → allocated t i → 0 ≤ bat_entry t i < 2 ^ 32.
Proof.
  intros Hb [Hi _]. unfold bat_entry.
  pose proof (Z.div_mod (zlen t) 4 ltac:(done)).
  pose proof (Z.mod_pos_bound (zlen t) 4 ltac:(done)).
  pose proof (be_decode_bound (sub (i * 4) 4 t) (bytes_sub _ _ _ Hb)) as Hd.
  by rewrite zlen_sub in Hd by lia.
Qed.

(** The table after [writeUInt32BE(v, i * 4)]. *)
Definition set_entry (t : buffer) (i v : Z) : buffer := bwrite t (i * 4) (be_encode 4 v).

Section set_entry.
Context (t : buffer) (i v : Z).
Context (Hm : zlen t mod 4 = 0) (Hi : 0 ≤ i < zlen t / 4) (Hv : 0 ≤ v < 2 ^ 32).

Local Lemma entry_in : i * 4 + 4 ≤ zlen t.
Proof. pose proof (Z.div_mod (zlen t) 4 ltac:(done)). lia. Qed.

Lemma zlen_set_entry : zlen (set_entry t i v) = zlen t.
Proof.
  pose proof entry_in. unfold set_entry. apply zlen_bwrite_in; [lia|].
  rewrite zlen_be_encode. lia.
Qed.

Lemma bytes_set_entry : bytes t → bytes (set_entry t i v).
Proof. intros. apply bytes_bwrite; [done|apply bytes_be_encode|lia]. Qed.

Lemma bat_entry_set_same : bat_entry (set_entry t i v) i = v.
Proof.
  unfold bat_entry, set_entry.
  replace 4 with (zlen (be_encode 4 v)) at 2 by (by rewrite zlen_be_encode).
  rewrite sub_bwrite_same by lia. rewrite be_decode_encode. by apply Z.mod_small.
Qed.

Lemma bat_entry_set_other j :
  0 ≤ j < zlen t / 4 → j ≠ i → bat_entry (set_entry t i v) j = bat_entry t j.
Proof.
  intros. pose proof (Z.div_mod (zlen t) 4 ltac:(done)).
  unfold bat_entry, set_entry. f_equal.
  apply sub_bwrite_disjoint; rewrite ?zlen_be_encode; lia.
Qed.

Lemma allocated_set_other j : j ≠ i → allocated (set_entry t i v) j ↔ allocated t j.
Proof.
  intros. unfold allocated. rewrite zlen_set_entry.
  split; intros [Hr Hu]; (split; [done|]); by rewrite bat_entry_set_other in *.
Qed.

Lemma allocated_set_same : v ≠ BLOCK_UNUSED → allocated (set_entry t i v) i.
Proof. intros. split; [by rewrite zlen_set_entry|]. by rewrite bat_entry_set_same. Qed.
End set_entry.

(** ** The first sector after the data *)

Definition end_step (h : Header.t) (t : buffer) (e i : Z) : Z :=
  if decide (allocated t i) then Z.max e (bat_entry t i + slot h) else e.

Definition end_sector (h : Header.t) (t : buffer) : Z :=
  foldl (end_step h t) (ceil_div (endOfHeaders h) SECTOR_SIZE)
    (zrange 0 (Header.maxTableEntries h)).

Lemma endOfBlocks_eq h t e :
  zlen t mod 4 = 0 →
  endOfBlocks h t e = Ok (foldl (end_step h t) e (zrange 0 (Header.maxTableEntries h))).
Proof.
  intros Hm. unfold endOfBlocks.
  assert (Forall (λ i, 0 ≤ i) (zrange 0 (Header.maxTableEntries h))) as Hf.
  { apply Forall_forall. intros i ?%elem_of_zrange. lia. }
  revert e. induction Hf as [|i l ? _ IH]; intros e; [done|]. cbn -[getBatEntry].
  unfold end_step at 2. destruct (decide (allocated t i)) as [Ha|Ha].
  - rewrite getBatEntry_allocated by done. cbn. rewrite decide_True by apply Ha. apply IH.
  - rewrite getBatEntry_unused by done. cbn. apply IH.
Qed.

Section end_sector.
Context (h : Header.t) (t : buffer).

Lemma end_step_mono e l : e ≤ foldl (end_step h t) e l.
Proof.
  revert e. induction l as [|i l IH]; intros e; [done|]. cbn.
  etrans; [|apply IH]. unfold end_step. case_decide; lia.
Qed.

Lemma end_sector_headers : endOfHeaders h ≤ end_sector h t * SECTOR_SIZE.
Proof.
  pose proof (ceil_div_spec (endOfHeaders h) SECTOR_SIZE ltac:(done)) as Hc.
  pose proof (end_step_mono (ceil_div (endOfHeaders h) SECTOR_SIZE)
    (zrange 0 (Header.maxTableEntries h))). unfold end_sector. unfold SECTOR_SIZE in *. lia.
Qed.

Lemma end_sector_block i :
  allocated t i → i < Header.maxTableEntries h → bat_entry t i + slot h ≤ end_sector h t.
Proof.
  intros Ha Hi. unfold end_sector. generalize (ceil_div (endOfHeaders h) SECTOR_SIZE).
  assert (i ∈ zrange 0 (Header.maxTableEntries h)) as Hin.
  { apply elem_of_zrange. destruct Ha. lia. }
  revert Hin. generalize (zrange 0 (Header.maxTableEntries h)). intros l Hin e.
  revert e. induction l as [|j l IH]; intros e; [by apply elem_of_nil in Hin|].
  cbn. apply elem_of_cons in Hin as [<-|Hin]; [|by apply IH].
  etrans; [|apply end_step_mono]. unfold end_step. rewrite decide_True by done. lia.
Qed.
End end_sector.

(** ** The invariant *)

(** Where the table puts the blocks: after the headers, apart from each other;
    the entries past [maxTableEntries] are unused. *)
Record placed (h : Header.t) (t : buffer) : Prop := {
  pl_bytes : bytes t;
  pl_mod : zlen t mod 4 = 0;
  pl_entries : Header.maxTableEntries h * 4 ≤ zlen t;
  pl_len : zlen t ≤ batSize h;
  pl_rest i : allocated t i → i < Header.maxTableEntries h;
  pl_above i : allocated t i → endOfHeaders h ≤ bat_entry t i * SECTOR_SIZE;
  pl_apart i j : allocated t i → allocated t j → i ≠ j →
    bat_entry t i + slot h ≤ bat_entry t j ∨ bat_entry t j + slot h ≤ bat_entry t i;
}.

(** Block [i] is inside the file. *)
Definition inside (h : Header.t) (t file : buffer) (i : Z) : Prop :=
  bat_entry t i * SECTOR_SIZE + fullBlockSize h ≤ zlen file.

(** Block [i], bitmap and data. *)
Definition block_at (h : Header.t) (t file : buffer) (i : Z) : buffer :=
  sub (bat_entry t i * SECTOR_SIZE) (fullBlockSize h) file.

Record wf (s : VhdFile) (h : Header.t) (f : Footer.t) (t : buffer) : Prop := {
  wf_header : vf_header s = Some h;
  wf_footer : vf_footer s = Some f;
  wf_table : vf_blockTable s = Some t;
  wf_ok : header_ok h;
  wf_placed : placed h t;
  wf_inside i : allocated t i → inside h t (vf_file s) i;
}.

(** The file holds the table. *)
Definition bat_on_disk (s : VhdFile) (h : Header.t) (t : buffer) : Prop :=
  sub (Header.tableOffset h) (zlen t) (vf_file s) = t.

(** *** The disk: the blocks by number *)

Definition disk_map (h : Header.t) (t file : buffer) : gmap Z buffer :=
  list_to_map ((λ i, (i, block_at h t file i)) <$>
    filter (allocated t) (zrange 0 (Header.maxTableEntries h))).

Definition disk (s : VhdFile) : gmap Z buffer :=
  match vf_header s, vf_blockTable s with
  | Some h, Some t => disk_map h t (vf_file s)
  | _, _ => ∅
  end.

Lemma lookup_disk_map h t file i :
  placed h t →
  disk_map h t file !! i = if decide (allocated t i) then Some (block_at h t file i) else None.
Proof.
  intros Hp. unfold disk_map.
  set (l := (λ i, (i, block_at h t file i)) <$> _).
  assert (NoDup l.*1) as Hnd.
  { unfold l. rewrite <- list_fmap_compose. cbn.
    rewrite (list_fmap_ext _ id) by done. rewrite list_fmap_id.
    apply NoDup_filter, NoDup_zrange. }
  case_decide as Ha.
  - apply elem_of_list_to_map; [done|]. unfold l. apply list_elem_of_fmap.
    exists i. split; [done|]. apply list_elem_of_filter. split; [done|].
    apply elem_of_zrange. pose proof (pl_rest _ _ Hp i Ha). destruct Ha. lia.
  - apply not_elem_of_list_to_map. unfold l. rewrite <- list_fmap_compose. cbn.
    rewrite (list_fmap_ext _ id) by done. rewrite list_fmap_id.
    by intros [? ?]%list_elem_of_filter.
Qed.

Lemma disk_wf s h f t : wf s h f t → disk s = disk_map h t (vf_file s).
Proof. intros [Hh _ Ht _ _ _]. unfold disk. by rewrite Hh, Ht. Qed.

Lemma lookup_disk s h f t i :
  wf s h f t →
  disk s !! i = if decide (allocated t i) then Some (block_at h t (vf_file s) i) else None.
Proof.
  intros Hw. rewrite (disk_wf _ _ _ _ Hw). apply lookup_disk_map. apply Hw.
Qed.

(** *** Frames *)

Lemma bwrite_grows b off d : 0 ≤ off → zlen b ≤ zlen (bwrite b off d).
Proof.
  intros. destruct (decide (d = [])) as [->|]; [done|]. rewrite zlen_bwrite by done. lia.
Qed.

Lemma placed_entry_nonneg h t i : placed h t → allocated t i → 0 ≤ bat_entry t i.
Proof. intros Hp Ha. by apply (bat_entry_bound t i (pl_bytes _ _ Hp)). Qed.

(** A write apart from block [i] leaves it. *)
Lemma block_at_write h t file off d i :
  header_ok h → placed h t → allocated t i → inside h t file i → 0 ≤ off →
  off + zlen d ≤ bat_entry t i * SECTOR_SIZE ∨
    bat_entry t i * SECTOR_SIZE + fullBlockSize h ≤ off →
  block_at h t (bwrite file off d) i = block_at h t file i.
Proof.
  intros Hk Hp Ha Hin Ho Hd. unfold block_at.
  pose proof (placed_entry_nonneg _ _ _ Hp Ha).
  apply sub_bwrite_disjoint; unfold inside, SECTOR_SIZE in *; lia.
Qed.

Lemma block_at_entry h t t' file i :
  bat_entry t' i = bat_entry t i → block_at h t' file i = block_at h t file i.
Proof. unfold block_at. by intros ->. Qed.

(** A write that stays in the headers and the table is apart from the blocks. *)
Lemma headers_apart h t off n i :
  placed h t → allocated t i → off + n ≤ endOfHeaders h →
  off + n ≤ bat_entry t i * SECTOR_SIZE.
Proof. intros Hp Ha ?. pose proof (pl_above _ _ Hp i Ha). lia. Qed.

(** So is a write after the last block. *)
Lemma end_apart h t off i :
  header_ok h → placed h t → allocated t i → end_sector h t * SECTOR_SIZE ≤ off →
  bat_entry t i * SECTOR_SIZE + fullBlockSize h ≤ off.
Proof.
  intros Hk Hp Ha ?. rewrite fullBlockSize_slot by done.
  pose proof (end_sector_block h t i Ha (pl_rest _ _ Hp i Ha)). unfold SECTOR_SIZE in *. lia.
Qed.

(** Writing outside of the blocks changes neither the invariant nor the disk. *)
Definition outside (h : Header.t) (t : buffer) (off n : Z) : Prop :=
  0 ≤ off ∧ (off + n ≤ endOfHeaders h ∨ end_sector h t * SECTOR_SIZE ≤ off).

Lemma outside_apart h t off n i :
  header_ok h → placed h t → outside h t off n → allocated t i →
  off + n ≤ bat_entry t i * SECTOR_SIZE ∨ bat_entry t i * SECTOR_SIZE + fullBlockSize h ≤ off.
Proof.
  intros Hk Hp [_ [Ho|Ho]] Ha; [left; by eapply headers_apart|right; by eapply end_apart].
Qed.

Lemma disk_map_ext h t file file' :
  placed h t →
  (∀ i, allocated t i → block_at h t file' i = block_at h t file i) →
  disk_map h t file' = disk_map h t file.
Proof.
  intros Hp He. apply map_eq. intros i. rewrite !lookup_disk_map by done.
  case_decide; [|done]. f_equal. by apply He.
Qed.

Lemma wf_set_file s h f t file :
  wf s h f t → zlen (vf_file s) ≤ zlen file → wf (set_file file s) h f t.
Proof.
  intros [] Hl. split; try done. intros i Ha. unfold inside in *. cbn.
  specialize (wf_inside0 i Ha). lia.
Qed.

Lemma wf_write_outside s h f t off d :
  wf s h f t → outside h t off (zlen d) →
  wf (set_file (bwrite (vf_file s) off d) s) h f t ∧
  disk (set_file (bwrite (vf_file s) off d) s) = disk s.
Proof.
  intros Hw Ho. assert (0 ≤ off) by apply Ho.
  pose proof (wf_ok _ _ _ _ Hw) as Hk. pose proof (wf_placed _ _ _ _ Hw) as Hp.
  assert (wf (set_file (bwrite (vf_file s) off d) s) h f t) as Hw'.
  { apply wf_set_file; [done|]. by apply bwrite_grows. }
  split; [done|]. rewrite (disk_wf _ _ _ _ Hw), (disk_wf _ _ _ _ Hw').
  apply disk_map_ext; [done|]. intros i Ha. cbn.
  apply block_at_write; try done; [by apply (wf_inside _ _ _ _ Hw)|by apply outside_apart].
Qed.

(** A table and a file that agree with [s] outside of block [i] hold the disk of
    [s] with another block [i]. *)
Lemma update_block s h f t i t' file' :
  wf s h f t → placed h t' → allocated t' i → inside h t' file' i →
  (∀ j, j ≠ i → allocated t' j ↔ allocated t j) →
  (∀ j, j ≠ i → allocated t j → bat_entry t' j = bat_entry t j) →
  (∀ j, j ≠ i → allocated t j → block_at h t file' j = block_at h t (vf_file s) j) →
  zlen (vf_file s) ≤ zlen file' →
  wf (set_file file' (set_blockTable t' s)) h f t' ∧
  disk (set_file file' (set_blockTable t' s)) = <[i := block_at h t' file' i]> (disk s).
Proof.
  intros Hw Hp Hi Hin Hall Hent Hblk Hl.
  assert (wf (set_file file' (set_blockTable t' s)) h f t') as Hw'.
  { destruct Hw. split; try done. intros j Hj. cbn. destruct (decide (j = i)) as [->|]; [done|].
    apply Hall in Hj; [|done]. specialize (wf_inside0 j Hj).
    unfold inside in *. rewrite Hent by done. lia. }
  split; [done|]. apply map_eq. intros j. rewrite (lookup_disk _ _ _ _ _ Hw').
  destruct (decide (j = i)) as [->|Hji].
  - rewrite lookup_insert_eq. by rewrite decide_True.
  - rewrite lookup_insert_ne by done. rewrite (lookup_disk _ _ _ _ _ Hw).
    cbn. erewrite (decide_ext _ _ _ _ (Hall j Hji)). case_decide; [|done].
    f_equal. rewrite (block_at_entry _ _ _ _ _ (Hent j Hji H)). by apply Hblk.
Qed.

(** ** What the operations return *)

Lemma returns_header s h : vf_header s = Some h → returns header s h s.
Proof. unfold returns, header. by intros ->. Qed.
Lemma returns_footer s f : vf_footer s = Some f → returns footer s f s.
Proof. unfold returns, footer. by intros ->. Qed.
Lemma returns_blockTable s t : vf_blockTable s = Some t → returns blockTable s t s.
Proof. unfold returns, blockTable. by intros ->. Qed.

Lemma returns_write s data off :
  0 ≤ off → returns (_write data off) s tt (set_file (bwrite (vf_file s) off data) s).
Proof. intros. unfold returns, _write, Handler.write. by rewrite decide_False by lia. Qed.

Lemma returns_read s off n :
  0 ≤ off → off + n ≤ zlen (vf_file s) → returns (_read off n) s (sub off n (vf_file s)) s.
Proof.
  intros. unfold returns, _read, gets, lift, mbind, M_bind. f_equal.
  unfold Handler.read. rewrite decide_False by lia. rewrite js_assert_bind; [done|].
  apply orb_true_iff. right. by apply bool_decide_eq_true_2.
Qed.

#[export] Hint Resolve returns_header returns_footer returns_blockTable wf_header wf_footer
  wf_table : js.

(** Runs the first step of a computation on a well-formed object. *)
Ltac vstep := eapply returns_bind;
  [first [ by apply returns_header | by apply returns_footer | by apply returns_blockTable
         | by eauto with js ] | cbn beta iota ].

Section operations.
Context (s : VhdFile) (h : Header.t) (f : Footer.t) (t : buffer).
Context (Hw : wf s h f t).

Local Lemma Hk : header_ok h.
Proof. apply Hw. Qed.
Local Lemma Hp : placed h t.
Proof. apply Hw. Qed.
Local Lemma Hhd : vf_header s = Some h.
Proof. apply Hw. Qed.
Local Lemma Htb : vf_blockTable s = Some t.
Proof. apply Hw. Qed.

Lemma entry_index i : 0 ≤ i < Header.maxTableEntries h → 0 ≤ i < zlen t / 4.
Proof.
  intros. pose proof (pl_entries _ _ Hp). pose proof (pl_mod _ _ Hp).
  pose proof (Z.div_mod (zlen t) 4 ltac:(done)). lia.
Qed.

Lemma returns_getBatEntry i :
  0 ≤ i →
  returns (_getBatEntry i) s (if decide (allocated t i) then bat_entry t i else BLOCK_UNUSED) s.
Proof.
  intros. unfold _getBatEntry. eapply returns_bind; [apply returns_blockTable, Htb|].
  case_decide.
  - rewrite getBatEntry_allocated by (done || apply (pl_mod _ _ Hp)). done.
  - rewrite getBatEntry_unused by (done || apply (pl_mod _ _ Hp)). done.
Qed.

Lemma returns_containsBlock i :
  0 ≤ i → returns (containsBlock i) s (bool_decide (is_Some (disk s !! i))) s.
Proof.
  intros. unfold containsBlock. eapply returns_bind; [by apply returns_getBatEntry|].
  rewrite (lookup_disk _ _ _ _ _ Hw). case_decide as Ha.
  - rewrite !bool_decide_eq_true_2; [apply returns_ret|eauto|apply Ha].
  - rewrite !bool_decide_eq_false_2; [apply returns_ret| |by intros []].
    by intros [? ?].
Qed.

Lemma returns_getEndOfData :
  returns _getEndOfData s (sectorsToBytes (end_sector h t)) s.
Proof.
  unfold _getEndOfData, _getEndOfHeaders.
  eapply returns_bind; [eapply returns_bind; [apply returns_header, Hhd|apply returns_ret]|].
  eapply returns_bind; [apply returns_header, Hhd|].
  eapply returns_bind; [apply returns_blockTable, Htb|].
  rewrite endOfBlocks_eq by apply (pl_mod _ _ Hp).
  eapply returns_bind; [apply returns_lift|]. apply returns_ret.
Qed.

(** [_setBatEntry] writes the entry in the table and in the file. *)
Definition entry_written (i v : Z) : VhdFile :=
  set_file (bwrite (vf_file s) (Header.tableOffset h + i * 4) (be_encode 4 v))
  (set_blockTable (set_entry t i v) s).

Lemma returns_setBatEntry i v :
  0 ≤ i < Header.maxTableEntries h → 0 ≤ v < 2 ^ 32 →
  returns (_setBatEntry i v) s tt (entry_written i v).
Proof.
  intros Hi Hv. pose proof (entry_index i Hi). pose proof (pl_mod _ _ Hp).
  pose proof (Z.div_mod (zlen t) 4 ltac:(done)). pose proof (ho_table _ Hk).
  unfold FOOTER_SIZE, HEADER_SIZE in *.
  unfold _setBatEntry. eapply returns_bind; [apply returns_blockTable, Htb|].
  rewrite writeUInt32BE_ok by lia. eapply returns_bind; [apply returns_lift|].
  eapply returns_bind; [apply returns_modify|].
  eapply returns_bind; [apply returns_header; cbn; apply Hhd|].
  replace (buf_slice _ _ _) with (be_encode 4 v); [by apply returns_write; lia|].
  rewrite buf_slice_sub; [|lia|rewrite zlen_bwrite_in; rewrite ?zlen_be_encode; lia].
  replace (i * 4 + 4 - i * 4) with (zlen (be_encode 4 v)) by (rewrite zlen_be_encode; lia).
  by rewrite sub_bwrite_same by lia.
Qed.

Lemma returns_createBlock i :
  0 ≤ i < Header.maxTableEntries h → ¬ allocated t i → end_sector h t < BLOCK_UNUSED →
  returns (_createBlock i) s (end_sector h t) (entry_written i (end_sector h t)).
Proof.
  intros Hi Ha He. unfold _createBlock.
  eapply returns_bind; [by apply returns_getBatEntry; lia|].
  eapply returns_bind; [apply returns_assert; rewrite decide_False by done; done|].
  eapply returns_bind; [apply returns_getEndOfData|].
  unfold sectorsToBytes. rewrite ceil_div_mul by done.
  pose proof (end_sector_headers h t). pose proof (endOfHeaders_ge h).
  unfold BLOCK_UNUSED, SECTOR_SIZE, FOOTER_SIZE, HEADER_SIZE in *.
  eapply returns_bind; [apply returns_setBatEntry; lia|]. apply returns_ret.
Qed.

Lemma end_sector_nonneg : 0 ≤ end_sector h t.
Proof.
  pose proof (end_sector_headers h t). pose proof (endOfHeaders_ge h).
  unfold SECTOR_SIZE, FOOTER_SIZE, HEADER_SIZE in *. lia.
Qed.

(** Giving block [i] a place that is apart from the other blocks. *)
Lemma placed_set_entry i v :
  0 ≤ i < Header.maxTableEntries h → 0 ≤ v < BLOCK_UNUSED →
  endOfHeaders h ≤ v * SECTOR_SIZE →
  (∀ j, j ≠ i → allocated t j → bat_entry t j + slot h ≤ v ∨ v + slot h ≤ bat_entry t j) →
  placed h (set_entry t i v).
Proof.
  intros Hi Hv Habove Hap. pose proof (entry_index i Hi) as Hix. pose proof (pl_mod _ _ Hp) as Hm.
  pose proof Hp as [].
  assert (0 ≤ v < 2 ^ 32) as Hv' by (unfold BLOCK_UNUSED in *; lia).
  assert (∀ j, allocated (set_entry t i v) j →
    (j = i ∧ bat_entry (set_entry t i v) j = v) ∨
    (j ≠ i ∧ allocated t j ∧ bat_entry (set_entry t i v) j = bat_entry t j)) as Hcase.
  { intros j Hj. destruct (decide (j = i)) as [->|]; [left|right].
    - split; [done|]. by apply bat_entry_set_same.
    - rewrite allocated_set_other in Hj by done. split_and!; [done..|].
      apply bat_entry_set_other; [done..| |done]. apply Hj. }
  split; rewrite ?zlen_set_entry by done; try done.
  - by apply bytes_set_entry.
  - intros j [[-> _]|(_ & Hj & _)]%Hcase; [lia|]. by apply pl_rest0.
  - intros j [[-> ->]|(_ & Hj & ->)]%Hcase; [done|]. by apply pl_above0.
  - intros j k [[-> ->]|(? & Hj & ->)]%Hcase [[-> ->]|(? & Hk' & ->)]%Hcase ?; try done.
    + destruct (Hap k); auto.
    + by apply Hap.
    + by apply pl_apart0.
Qed.

(** The new entry is written in the headers. *)
Lemma entry_in_headers i :
  0 ≤ i < Header.maxTableEntries h →
  0 ≤ Header.tableOffset h + i * 4 ∧
  Header.tableOffset h + i * 4 + 4 ≤ endOfHeaders h ∧
  Header.tableOffset h + i * 4 + 4 ≤ Header.tableOffset h + zlen t.
Proof.
  intros. pose proof (endOfHeaders_ge h). pose proof (batSize_covers h Hk).
  pose proof (ho_table _ Hk). pose proof (pl_entries _ _ Hp).
  unfold FOOTER_SIZE, HEADER_SIZE in *. lia.
Qed.

Lemma block_at_entry_written i v j :
  0 ≤ i < Header.maxTableEntries h → allocated t j →
  block_at h t (vf_file (entry_written i v)) j = block_at h t (vf_file s) j.
Proof.
  intros Hi Hj. pose proof (entry_in_headers i Hi). cbn.
  apply block_at_write; rewrite ?zlen_be_encode; try done;
    [apply Hk|apply Hp|by apply (wf_inside _ _ _ _ Hw)|lia|].
  left. eapply headers_apart; [apply Hp|done|lia].
Qed.

Lemma bat_on_disk_entry_written i v :
  0 ≤ i < Header.maxTableEntries h → bat_on_disk s h t →
  bat_on_disk (entry_written i v) h (set_entry t i v).
Proof.
  intros Hi Hd. pose proof (entry_in_headers i Hi). pose proof (entry_index i Hi).
  unfold bat_on_disk in *. cbn. rewrite zlen_set_entry by (done || apply (pl_mod _ _ Hp)).
  assert (Header.tableOffset h + zlen t ≤ zlen (vf_file s)).
  { destruct (decide (Header.tableOffset h + zlen t ≤ zlen (vf_file s))); [done|exfalso].
    assert (zlen (sub (Header.tableOffset h) (zlen t) (vf_file s)) = zlen t) by (by rewrite Hd).
    pose proof (ho_table _ Hk). revert H1. unfold sub, zlen in *.
    rewrite length_take, length_drop. unfold FOOTER_SIZE, HEADER_SIZE in *. lia. }
  rewrite sub_bwrite_around; rewrite ?zlen_be_encode; try lia;
    [|pose proof (ho_table _ Hk); unfold FOOTER_SIZE, HEADER_SIZE in *; lia].
  rewrite Hd. unfold set_entry. f_equal. lia.
Qed.
End operations.

(** ** Writing one block

    [granted s h t i a s1 t1]: from [s], block [i] has been given the address [a]
    and only bytes of this block and its entry of the table have been written. *)
Record granted (s : VhdFile) (h : Header.t) (t : buffer) (i a : Z) (s1 : VhdFile) (t1 : buffer)
    : Prop := {
  gr_state : s1 = set_file (vf_file s1) (set_blockTable t1 s);
  gr_placed : placed h t1;
  gr_allocated : allocated t1 i;
  gr_entry : bat_entry t1 i = a;
  gr_others j : j ≠ i → allocated t1 j ↔ allocated t j;
  gr_entries j : j ≠ i → allocated t j → bat_entry t1 j = bat_entry t j;
  gr_blocks j : j ≠ i → allocated t j → block_at h t (vf_file s1) j = block_at h t (vf_file s) j;
  gr_grows : zlen (vf_file s) ≤ zlen (vf_file s1);
  gr_bat : bat_on_disk s h t → bat_on_disk s1 h t1;
}.

Lemma bat_on_disk_write s h t off d :
  header_ok h → bat_on_disk s h t →
  off + zlen d ≤ Header.tableOffset h ∨ Header.tableOffset h + zlen t ≤ off → 0 ≤ off →
  bat_on_disk (set_file (bwrite (vf_file s) off d) s) h t.
Proof.
  intros Hk Hd Ho ?. unfold bat_on_disk in *. cbn. pose proof (ho_table _ Hk).
  unfold FOOTER_SIZE, HEADER_SIZE in *.
  destruct (decide (zlen t = 0)) as [Hz|Hz].
  - rewrite Hz, sub_nil_len by lia. unfold zlen in Hz. destruct t; [done|cbn in Hz; lia].
  - rewrite sub_bwrite_disjoint; [done|lia|lia| |lia].
    assert (zlen (sub (Header.tableOffset h) (zlen t) (vf_file s)) = zlen t) as Hl by (by rewrite Hd).
    revert Hl Hz. unfold sub, zlen. rewrite length_take, length_drop. lia.
Qed.

Lemma set_same s t : vf_blockTable s = Some t → s = set_file (vf_file s) (set_blockTable t s).
Proof. destruct s. cbn. by intros ->. Qed.

Section one_block.
Context (s : VhdFile) (h : Header.t) (f : Footer.t) (t : buffer) (i : Z).
Context (Hw : wf s h f t) (Hi : 0 ≤ i < Header.maxTableEntries h).

Lemma granted_write a s1 t1 off d :
  granted s h t i a s1 t1 →
  a * SECTOR_SIZE ≤ off → off + zlen d ≤ a * SECTOR_SIZE + fullBlockSize h →
  granted s h t i a (set_file (bwrite (vf_file s1) off d) s1) t1.
Proof.
  intros [] H1 H2. pose proof (wf_ok _ _ _ _ Hw) as Hk.
  pose proof (pl_above _ _ gr_placed0 i gr_allocated0) as Hab.
  pose proof (endOfHeaders_ge h). pose proof (pl_len _ _ gr_placed0).
  unfold FOOTER_SIZE, HEADER_SIZE in *.
  split; cbn; try done.
  - rewrite gr_state0. done.
  - intros j Hji Ha. rewrite <- gr_blocks0 by done.
    rewrite <- !(block_at_entry h t t1 _ j) by (by apply gr_entries0).
    pose proof (pl_apart _ _ gr_placed0 i j gr_allocated0 (proj2 (gr_others0 j Hji) Ha)
      (not_eq_sym Hji)) as Hap.
    rewrite gr_entry0 in *. rewrite fullBlockSize_slot in * by done.
    apply block_at_write; try done; [by apply gr_others0| |lia|].
    + unfold inside. rewrite gr_entries0 by done. pose proof (wf_inside _ _ _ _ Hw j Ha) as Hin.
      unfold inside in Hin. rewrite fullBlockSize_slot in * by done. lia.
    + rewrite fullBlockSize_slot by done. unfold SECTOR_SIZE in *. lia.
  - etrans; [done|]. apply bwrite_grows. lia.
  - intros Hd. apply bat_on_disk_write; [done|auto| |lia].
    right. rewrite gr_entry0 in Hab. lia.
Qed.

Lemma granted_done a s1 t1 :
  granted s h t i a s1 t1 → inside h t1 (vf_file s1) i →
  wf s1 h f t1 ∧ disk s1 = <[i := block_at h t1 (vf_file s1) i]> (disk s).
Proof.
  intros [] Hin. rewrite gr_state0 at 1 2. by apply (update_block s h f t).
Qed.

Lemma returns_blockAddrOf :
  allocated t i ∨ end_sector h t < BLOCK_UNUSED →
  ∃ a s1 t1, returns (blockAddrOf i) s a s1 ∧ granted s h t i a s1 t1 ∧
  a = if decide (allocated t i) then bat_entry t i else end_sector h t.
Proof.
  intros Hor. pose proof (wf_ok _ _ _ _ Hw) as Hk. pose proof (wf_placed _ _ _ _ Hw) as Hp.
  unfold blockAddrOf. destruct (decide (allocated t i)) as [Ha|Ha].
  - exists (bat_entry t i), s, t. split_and!; [|split; try done|done].
    + eapply returns_bind; [eapply returns_getBatEntry; [done|lia]|].
      destruct (decide (allocated t i)) as [_|]; [|done]. rewrite decide_False by apply Ha.
      apply returns_ret.
    + apply set_same, Hw.
  - assert (end_sector h t < BLOCK_UNUSED) as He by tauto.
    pose proof (end_sector_nonneg h t) as Hnn.
    assert (0 ≤ end_sector h t < 2 ^ 32) as Hv by (unfold BLOCK_UNUSED in *; lia).
    pose proof (entry_index _ _ _ _ Hw i Hi) as Hix. pose proof (pl_mod _ _ Hp) as Hm.
    exists (end_sector h t), (entry_written s h t i (end_sector h t)),
      (set_entry t i (end_sector h t)).
    split_and!; [|split|done].
    + eapply returns_bind; [eapply returns_getBatEntry; [done|lia]|].
      destruct (decide (allocated t i)) as [|_]; [done|]. rewrite decide_True by done.
      by eapply returns_createBlock.
    + done.
    + eapply placed_set_entry; try done; [apply end_sector_headers|].
      intros j _ Hj. left. apply end_sector_block; [done|]. by apply (pl_rest _ _ Hp).
    + apply allocated_set_same; try done. unfold BLOCK_UNUSED in *. lia.
    + by apply bat_entry_set_same.
    + intros j ?. by apply allocated_set_other.
    + intros j ? [? _]. by apply bat_entry_set_other.
    + intros j _ Hj. by apply (block_at_entry_written s h f t Hw).
    + cbn. apply bwrite_grows. pose proof (entry_in_headers _ _ _ _ Hw i Hi). lia.
    + by apply (bat_on_disk_entry_written s h f t Hw).
Qed.
End one_block.
