(* ===== verification/VhdBlocks.v ===== *)
(** * Reading and writing the blocks of a VHD file

    [readBlock] and [writeEntireBlock] implement a finite map from block numbers
    to blocks (the [disk] of [VhdLayout]); [writeBlockData] and
    [_writeBlockSectors] are updates of this map. *)

From S2P Require Import Prelude Buffers VhdFormat StructFu VhdStructs VhdFile VhdLayout.

(** The block that [readBlock] makes of the bytes [b]. *)
Definition block_of (h : Header.t) (i : Z) (b : buffer) : Block :=
  mkBlock i (sub 0 (bitmapSize h) b) (sub (bitmapSize h) (Header.blockSize h) b) b.

Section blocks.
Context (s : VhdFile) (h : Header.t) (f : Footer.t) (t : buffer).
Context (Hw : wf s h f t).

Lemma bitmapSize_le : 0 ≤ bitmapSize h ∧ bitmapSize h + Header.blockSize h = fullBlockSize h.
Proof.
  pose proof (ho_blockSize _ (wf_ok _ _ _ _ Hw)).
  unfold bitmapSize, fullBlockSize, computeFullBlockSize, sectorsOfBitmap, sectorsToBytes.
  pose proof (computeSectorOfBitmap_pos (Header.blockSize h) ltac:(lia)).
  unfold SECTOR_SIZE. lia.
Qed.

Lemma zlen_block_at i : allocated t i → zlen (block_at h t (vf_file s) i) = fullBlockSize h.
Proof.
  intros Ha. pose proof bitmapSize_le. pose proof (ho_blockSize _ (wf_ok _ _ _ _ Hw)).
  pose proof (placed_entry_nonneg _ _ _ (wf_placed _ _ _ _ Hw) Ha).
  pose proof (wf_inside _ _ _ _ Hw i Ha) as Hin. unfold inside in Hin.
  unfold block_at. apply zlen_sub; unfold SECTOR_SIZE in *; lia.
Qed.

Lemma returns_readBlock i b :
  0 ≤ i → disk s !! i = Some b → returns (readBlock i) s (block_of h i b) s.
Proof.
  intros Hi Hb. rewrite (lookup_disk _ _ _ _ _ Hw) in Hb. case_decide as Ha; [|done].
  pose proof (zlen_block_at i Ha) as Hl. injection Hb as <-.
  pose proof bitmapSize_le. pose proof (ho_blockSize _ (wf_ok _ _ _ _ Hw)).
  pose proof (placed_entry_nonneg _ _ _ (wf_placed _ _ _ _ Hw) Ha).
  pose proof (wf_inside _ _ _ _ Hw i Ha) as Hin. unfold inside in Hin.
  unfold readBlock. eapply returns_bind; [by eapply returns_getBatEntry|].
  destruct (decide (allocated t i)) as [_|]; [|done].
  eapply returns_bind; [apply returns_assert, bool_decide_eq_true_2; apply Ha|].
  eapply returns_bind; [apply returns_header, Hw|].
  eapply returns_bind; [apply returns_read; unfold sectorsToBytes, SECTOR_SIZE in *; lia|].
  fold (block_at h t (vf_file s) i). unfold sectorsToBytes. fold (block_at h t (vf_file s) i).
  rewrite Hl. rewrite !buf_slice_sub by lia.
  replace (bitmapSize h - 0) with (bitmapSize h) by lia.
  replace (fullBlockSize h - bitmapSize h) with (Header.blockSize h) by lia.
  apply returns_ret.
Qed.

Lemma readBlock_missing i :
  0 ≤ i → disk s !! i = None → readBlock i s = (Throw (AssertionError "no such block"), s).
Proof.
  intros Hi Hb. rewrite (lookup_disk _ _ _ _ _ Hw) in Hb. case_decide as Ha; [done|].
  pose proof (returns_getBatEntry _ _ _ _ Hw i Hi) as Hg.
  destruct (decide (allocated t i)); [done|].
  unfold readBlock, mbind, M_bind. rewrite Hg. done.
Qed.

Lemma readBlock_lemma i :
  0 ≤ i →
  readBlock i s =
  (match disk s !! i with
  | Some b => Ok (block_of h i b)
  | None => Throw (AssertionError "no such block")
  end, s).
Proof.
  intros Hi. destruct (disk s !! i) as [b|] eqn:Hb;
    [by apply returns_readBlock|by apply readBlock_missing].
Qed.

(** There is room for one more block before the sectors need more than 32 bits. *)
Definition has_room (i : Z) : Prop := allocated t i ∨ end_sector h t < BLOCK_UNUSED.

Lemma granted_address a s1 t1 i :
  granted s h t i a s1 t1 →
  0 ≤ a ∧ a * SECTOR_SIZE + fullBlockSize h = (a + slot h) * SECTOR_SIZE.
Proof.
  intros Hg. pose proof (placed_entry_nonneg _ _ _ (gr_placed _ _ _ _ _ _ _ Hg)
    (gr_allocated _ _ _ _ _ _ _ Hg)) as Hn.
  rewrite (gr_entry _ _ _ _ _ _ _ Hg) in Hn.
  rewrite fullBlockSize_slot by apply Hw. lia.
Qed.

Lemma granted_whole a s1 t1 i d :
  granted s h t i a s1 t1 → 0 ≤ i < Header.maxTableEntries h → zlen d = fullBlockSize h →
  sub (a * SECTOR_SIZE) (fullBlockSize h) (vf_file s1) = d →
  wf s1 h f t1 ∧ disk s1 = <[i := d]> (disk s) ∧ (bat_on_disk s h t → bat_on_disk s1 h t1).
Proof.
  intros Hg Hi Hd Hs. pose proof (granted_address _ _ _ _ Hg) as [Ha _].
  pose proof (slot_pos _ (wf_ok _ _ _ _ Hw)) as Hsl.
  assert (inside h t1 (vf_file s1) i) as Hin.
  { unfold inside. rewrite (gr_entry _ _ _ _ _ _ _ Hg).
    assert (zlen (sub (a * SECTOR_SIZE) (fullBlockSize h) (vf_file s1)) = fullBlockSize h) as Hl
      by (by rewrite Hs).
    revert Hl. rewrite fullBlockSize_slot by apply Hw.
    unfold sub, zlen. rewrite length_take, length_drop. unfold SECTOR_SIZE in *. lia. }
  destruct (granted_done s h f t i Hw a s1 t1 Hg Hin) as [Hw1 Hdisk].
  split_and!; [done| |by apply Hg]. rewrite Hdisk. unfold block_at.
  by rewrite (gr_entry _ _ _ _ _ _ _ Hg), Hs.
Qed.

Lemma writeEntireBlock_lemma block :
  0 ≤ b_id block < Header.maxTableEntries h → has_room (b_id block) →
  zlen (b_buffer block) = fullBlockSize h →
  ∃ s' t', returns (writeEntireBlock block) s tt s' ∧ wf s' h f t' ∧
  disk s' = <[b_id block := b_buffer block]> (disk s) ∧
  (bat_on_disk s h t → bat_on_disk s' h t').
Proof.
  intros Hi Hroom Hl. destruct (returns_blockAddrOf s h f t _ Hw Hi Hroom) as (a & s1 & t1 & Hr & Hg & _).
  pose proof (granted_address _ _ _ _ Hg) as [Ha _].
  assert (granted s h t (b_id block) a
    (set_file (bwrite (vf_file s1) (a * SECTOR_SIZE) (b_buffer block)) s1) t1) as Hg2.
  { eapply granted_write; try done; lia. }
  eexists _, t1. split.
  - unfold writeEntireBlock. eapply returns_bind; [done|].
    apply returns_write. unfold sectorsToBytes, SECTOR_SIZE. lia.
  - eapply granted_whole; [done..|]. cbn [vf_file set_file]. rewrite <- Hl.
    apply sub_bwrite_same. unfold sectorsToBytes, SECTOR_SIZE in *. lia.
Qed.

(** Two consecutive writes. *)
Lemma sub_bwrite_two file off b d :
  0 ≤ off →
  sub off (zlen b + zlen d) (bwrite (bwrite file off b) (off + zlen b) d) = b ++ d.
Proof.
  intros. rewrite sub_split by (pose proof (zlen_nonneg b); pose proof (zlen_nonneg d); lia).
  f_equal; [|apply sub_bwrite_same; pose proof (zlen_nonneg b); lia].
  destruct (decide (b = [])) as [->|Hb]; [by rewrite sub_nil_len by done|].
  pose proof (zlen_nonneg b).
  rewrite sub_bwrite_disjoint; [by apply sub_bwrite_same|lia|lia| |lia].
  rewrite zlen_bwrite by done. lia.
Qed.

Lemma writeBlockData_lemma i data :
  0 ≤ i < Header.maxTableEntries h → has_room i → zlen data = Header.blockSize h →
  ∃ s' t', returns (writeBlockData i data) s tt s' ∧ wf s' h f t' ∧
  disk s' = <[i := zrep (bitmapSize h) 255 ++ data]> (disk s) ∧
  (bat_on_disk s h t → bat_on_disk s' h t').
Proof.
  intros Hi Hroom Hl. destruct (returns_blockAddrOf s h f t _ Hw Hi Hroom) as (a & s1 & t1 & Hr & Hg & _).
  pose proof (granted_address _ _ _ _ Hg) as [Ha _]. pose proof bitmapSize_le as [Hb0 Hb].
  pose proof (ho_blockSize _ (wf_ok _ _ _ _ Hw)).
  assert (zlen (zrep (bitmapSize h) 255) = bitmapSize h) as Hbl by (rewrite zlen_zrep; lia).
  assert (vf_header s1 = Some h) as Hh1.
  { rewrite (gr_state _ _ _ _ _ _ _ Hg). apply Hw. }
  assert (granted s h t i a
    (set_file (bwrite (vf_file s1) (a * SECTOR_SIZE) (zrep (bitmapSize h) 255)) s1) t1) as Hg1
    by (eapply granted_write; [done..| |]; lia).
  pose proof (granted_write s h f t i Hw _ _ _ (a * SECTOR_SIZE + bitmapSize h) data Hg1
    ltac:(lia) ltac:(lia)) as Hg2.
  eexists _, t1. split.
  - unfold writeBlockData. eapply returns_bind; [apply returns_header, Hw|].
    eapply returns_bind; [apply returns_assert; by apply bool_decide_eq_true_2|].
    eapply returns_bind; [done|].
    eapply returns_bind.
    + unfold _writeBlockBitmap. eapply returns_bind; [by apply returns_header|].
      rewrite decide_False by (intros Hn; by apply Hn).
      apply returns_write. unfold sectorsToBytes, SECTOR_SIZE. lia.
    + replace (sectorsToBytes (a + sectorsOfBitmap h)) with (a * SECTOR_SIZE + bitmapSize h)
        by (unfold bitmapSize, sectorsToBytes; lia).
      apply returns_write. unfold SECTOR_SIZE in *. lia.
  - eapply granted_whole; [done|done|rewrite zlen_app; lia|]. cbn [vf_file set_file].
    replace (fullBlockSize h) with (zlen (zrep (bitmapSize h) 255) + zlen data) by lia.
    replace (a * SECTOR_SIZE + bitmapSize h) with (a * SECTOR_SIZE + zlen (zrep (bitmapSize h) 255))
      by lia.
    apply sub_bwrite_two. unfold SECTOR_SIZE. lia.
Qed.

(** The bytes that [_writeBlockSectors] leaves in a block. *)
Definition with_sectors (b data : buffer) (beginSectorId endSectorId : Z) : buffer :=
  bwrite
  (bwrite b 0 (foldl Bitmap.set (sub 0 (bitmapSize h) b) (zrange beginSectorId endSectorId)))
  (bitmapSize h + sectorsToBytes beginSectorId)
  (sub (sectorsToBytes beginSectorId) (sectorsToBytes (endSectorId - beginSectorId)) data).

Lemma zlen_bitmap_sets map l : Forall (λ i, 0 ≤ i) l → zlen (foldl Bitmap.set map l) = zlen map.
Proof.
  intros Hf. revert map. induction Hf as [|i l Hi _ IH]; intros map; [done|].
  cbn. rewrite IH. by apply zlen_bitmap_set.
Qed.

Lemma zrange_nonneg b e : 0 ≤ b → Forall (λ i, 0 ≤ i) (zrange b e).
Proof. intros. apply Forall_forall. intros i ?%elem_of_zrange. lia. Qed.

Lemma returns_readBlockBitmap i b :
  0 ≤ i → disk s !! i = Some b → returns (readBlockBitmap i) s (sub 0 (bitmapSize h) b) s.
Proof.
  intros Hi Hb. rewrite (lookup_disk _ _ _ _ _ Hw) in Hb. case_decide as Ha; [|done].
  injection Hb as <-.
  pose proof bitmapSize_le. pose proof (ho_blockSize _ (wf_ok _ _ _ _ Hw)).
  pose proof (placed_entry_nonneg _ _ _ (wf_placed _ _ _ _ Hw) Ha).
  pose proof (wf_inside _ _ _ _ Hw i Ha) as Hin. unfold inside in Hin.
  unfold readBlockBitmap. eapply returns_bind; [by eapply returns_getBatEntry|].
  destruct (decide (allocated t i)) as [_|]; [|done].
  eapply returns_bind; [apply returns_assert, bool_decide_eq_true_2; apply Ha|].
  eapply returns_bind; [apply returns_header, Hw|].
  unfold block_at. rewrite sub_sub by (unfold SECTOR_SIZE in *; lia).
  rewrite Z.add_0_r. apply returns_read; unfold sectorsToBytes, SECTOR_SIZE in *; lia.
Qed.

Lemma writeBlockSectors_lemma i data b e old :
  0 ≤ i < Header.maxTableEntries h → disk s !! i = Some old →
  0 ≤ b ≤ e → e ≤ sectorsPerBlock h → zlen data = Header.blockSize h →
  ∃ s', returns (_writeBlockSectors i data b e) s tt s' ∧ wf s' h f t ∧
  disk s' = <[i := with_sectors old data b e]> (disk s) ∧
  (bat_on_disk s h t → bat_on_disk s' h t).
Proof.
  intros Hi Hb Hbe He Hd. pose proof Hb as Hb'.
  rewrite (lookup_disk _ _ _ _ _ Hw) in Hb'. case_decide as Ha; [|done]. injection Hb' as Hold.
  pose proof bitmapSize_le as [Hb0 Hbs]. pose proof (ho_blockSize _ (wf_ok _ _ _ _ Hw)).
  pose proof (placed_entry_nonneg _ _ _ (wf_placed _ _ _ _ Hw) Ha) as Hn.
  pose proof (zlen_block_at i Ha) as Hl. rewrite Hold in Hl.
  pose proof (sectorsPerBlock_bytes h (wf_ok _ _ _ _ Hw)) as Hspb.
  assert (granted s h t i (bat_entry t i) s t) as Hg.
  { split; try done; [apply set_same, Hw|apply Hw]. }
  set (bm := foldl Bitmap.set (sub 0 (bitmapSize h) old) (zrange b e)).
  assert (zlen bm = bitmapSize h) as Hbm.
  { unfold bm. rewrite zlen_bitmap_sets by (apply zrange_nonneg; lia). apply zlen_sub; lia. }
  set (sl := sub (sectorsToBytes b) (sectorsToBytes (e - b)) data).
  unfold sectorsToBytes, SECTOR_SIZE in *.
  assert (zlen sl = (e - b) * 512) as Hsl by (apply zlen_sub; lia).
  set (a := bat_entry t i) in *.
  assert (granted s h t i a (set_file (bwrite (vf_file s) (a * 512) bm) s) t) as Hg1
    by (eapply (granted_write s h f); [done..| |]; unfold SECTOR_SIZE; lia).
  pose proof (granted_write s h f t i Hw _ _ _ (a * 512 + (bitmapSize h + b * 512)) sl Hg1
    ltac:(unfold SECTOR_SIZE; lia) ltac:(unfold SECTOR_SIZE; lia)) as Hg2.
  pose proof (wf_inside _ _ _ _ Hw i Ha) as Hin. unfold inside, SECTOR_SIZE in Hin.
  fold a in Hin.
  eexists. split.
  - unfold _writeBlockSectors. eapply returns_bind; [by eapply returns_getBatEntry; [|lia]|].
    destruct (decide (allocated t i)) as [_|]; [|done]. fold a.
    eapply returns_bind; [apply returns_header, Hw|].
    eapply returns_bind.
    { rewrite decide_False by apply Ha.
      eapply returns_bind; [apply returns_readBlockBitmap; [lia|done]|apply returns_ret]. }
    cbn beta iota. fold bm. eapply returns_bind.
    { unfold _writeBlockBitmap. eapply returns_bind; [apply returns_header, Hw|].
      rewrite decide_False by (intros Hc; by apply Hc).
      apply returns_write. unfold sectorsToBytes, SECTOR_SIZE. lia. }
    rewrite buf_slice_sub by (unfold sectorsToBytes, SECTOR_SIZE; lia).
    replace (sectorsToBytes e - sectorsToBytes b) with (sectorsToBytes (e - b))
      by (unfold sectorsToBytes; lia).
    replace (sectorsToBytes (a + sectorsOfBitmap h + b)) with (a * 512 + (bitmapSize h + b * 512))
      by (unfold bitmapSize, sectorsToBytes, SECTOR_SIZE; lia).
    apply returns_write. lia.
  - assert (zlen (bwrite (vf_file s) (a * 512) bm) = zlen (vf_file s)) as Hz1
      by (apply zlen_bwrite_in; lia).
    eapply granted_whole; [done|done| |].
    + unfold with_sectors, sectorsToBytes, SECTOR_SIZE. fold bm sl.
      assert (zlen (bwrite old 0 bm) = zlen old) as Hz2 by (apply zlen_bwrite_in; lia).
      rewrite zlen_bwrite_in; lia.
    + cbn [vf_file set_file]. unfold with_sectors, sectorsToBytes, SECTOR_SIZE. fold bm sl.
      rewrite sub_bwrite_around by lia. rewrite sub_bwrite_around by lia.
      rewrite <- Hold. unfold block_at, SECTOR_SIZE. fold a. do 2 f_equal; lia.
Qed.
End blocks.

(** ** Sectors *)

(** Sector [k] of a block is marked in its bitmap. *)
Definition marked (h : Header.t) (b : buffer) (k : Z) : bool :=
  Bitmap.test (sub 0 (bitmapSize h) b) k.

(** The content of sector [k] of a block. *)
Definition sector (h : Header.t) (b : buffer) (k : Z) : buffer :=
  sub (bitmapSize h + sectorsToBytes k) SECTOR_SIZE b.

Lemma test_sets map l k :
  0 ≤ k → Forall (λ i, 0 ≤ i < 8 * zlen map) l →
  Bitmap.test (foldl Bitmap.set map l) k = bool_decide (k ∈ l) || Bitmap.test map k.
Proof.
  intros Hk. revert map. induction l as [|i l IH]; intros map Hf; [done|].
  apply Forall_cons in Hf as [Hi Hf]. cbn. rewrite IH by (by rewrite zlen_bitmap_set).
  rewrite bitmap_test_set_lemma by lia.
  destruct (decide (i = k)) as [->|Hne].
  - rewrite (bool_decide_eq_true_2 (k = k)) by done. rewrite orb_true_r.
    by rewrite bool_decide_eq_true_2 by (apply elem_of_cons; by left).
  - rewrite (bool_decide_eq_false_2 (i = k)) by done. cbn. f_equal.
    apply bool_decide_ext. rewrite elem_of_cons. intuition congruence.
Qed.

Section sectors.
Context (h : Header.t) (old data : buffer) (b e : Z).
Context (Hk : 0 ≤ bitmapSize h ∧ bitmapSize h + sectorsToBytes (sectorsPerBlock h) = zlen old).
Context (Hbe : 0 ≤ b ≤ e) (He : e ≤ sectorsPerBlock h).
Context (Hbits : sectorsPerBlock h ≤ 8 * bitmapSize h).
Context (Hd : zlen data = sectorsToBytes (sectorsPerBlock h)).

Let bm := foldl Bitmap.set (sub 0 (bitmapSize h) old) (zrange b e).

Local Lemma zlen_bm : zlen bm = bitmapSize h.
Proof.
  unfold bm. rewrite zlen_bitmap_sets by (apply zrange_nonneg; lia).
  unfold sectorsToBytes, SECTOR_SIZE in *. apply zlen_sub; lia.
Qed.

Local Lemma zlen_slice :
  zlen (sub (sectorsToBytes b) (sectorsToBytes (e - b)) data) = sectorsToBytes (e - b).
Proof. unfold sectorsToBytes, SECTOR_SIZE in *. apply zlen_sub; lia. Qed.

Local Lemma zlen_bw : zlen (bwrite old 0 bm) = zlen old.
Proof. pose proof zlen_bm. unfold sectorsToBytes, SECTOR_SIZE in *. apply zlen_bwrite_in; lia. Qed.

Lemma marked_with_sectors k :
  0 ≤ k < sectorsPerBlock h →
  marked h (with_sectors h old data b e) k = bool_decide (b ≤ k < e) || marked h old k.
Proof.
  intros Hkr. unfold marked, with_sectors. fold bm.
  pose proof zlen_bm as Hbm. pose proof zlen_bw. pose proof zlen_slice.
  rewrite sub_bwrite_disjoint; [|unfold sectorsToBytes, SECTOR_SIZE in *; lia..].
  rewrite <- Hbm at 1. rewrite sub_bwrite_same by lia. unfold bm.
  rewrite test_sets; [|lia|].
  - f_equal. apply bool_decide_ext, elem_of_zrange.
  - apply Forall_forall. intros i ?%elem_of_zrange.
    unfold sectorsToBytes, SECTOR_SIZE in *. rewrite zlen_sub by lia. lia.
Qed.

Lemma sector_with_sectors k :
  0 ≤ k < sectorsPerBlock h →
  sector h (with_sectors h old data b e) k =
  if decide (b ≤ k < e) then sub (sectorsToBytes k) SECTOR_SIZE data else sector h old k.
Proof.
  intros Hkr. unfold sector, with_sectors. fold bm.
  pose proof zlen_bm. pose proof zlen_bw. pose proof zlen_slice.
  unfold sectorsToBytes, SECTOR_SIZE in *. case_decide.
  - rewrite sub_bwrite_inside by lia. rewrite sub_sub by lia. f_equal. lia.
  - rewrite sub_bwrite_disjoint by lia. rewrite sub_bwrite_disjoint; lia || done.
Qed.
End sectors.

(** ** Properties *)

(** C19: on a well-formed VHD file, writing a whole block always succeeds while
    there is room in the 32-bit sector space; the file afterwards is
    well-formed, every block reads as before except the written one, which reads
    as what was written (and the blocks never written are still missing), and the
    table in the file still agrees with the table in memory. *)
Theorem writeEntireBlock_inserts s h f t block :
  wf s h f t → 0 ≤ b_id block < Header.maxTableEntries h → has_room h t (b_id block) →
  zlen (b_buffer block) = fullBlockSize h →
  ∃ s' t', returns (writeEntireBlock block) s tt s' ∧ wf s' h f t' ∧
    disk s' = <[b_id block := b_buffer block]> (disk s) ∧
    (bat_on_disk s h t → bat_on_disk s' h t') ∧
    ∀ j, 0 ≤ j → readBlock j s' =
      (match <[b_id block := b_buffer block]> (disk s) !! j with
       | Some b => Ok (block_of h j b)
       | None => Throw (AssertionError "no such block")
       end, s').
Proof.
  intros Hw Hi Hroom Hl.
  destruct (writeEntireBlock_lemma s h f t Hw block Hi Hroom Hl) as (s' & t' & Hr & Hw' & Hd & Hb).
  exists s', t'. split_and!; try done. intros j Hj. rewrite <- Hd. by eapply readBlock_lemma.
Qed.

(** [writeBlockData] refuses data that is not one block long, without
    changing anything; otherwise it stores the data under a bitmap in which
    every sector is marked. *)
Theorem writeBlockData_inserts s h f t i data :
  wf s h f t → 0 ≤ i < Header.maxTableEntries h → has_room h t i →
  (zlen data ≠ Header.blockSize h →
    writeBlockData i data s = (Throw (AssertionError "block must be blockSize bytes"), s)) ∧
  (zlen data = Header.blockSize h →
    ∃ s' t', returns (writeBlockData i data) s tt s' ∧ wf s' h f t' ∧
      disk s' = <[i := zrep (bitmapSize h) 255 ++ data]> (disk s) ∧
      (bat_on_disk s h t → bat_on_disk s' h t')).
Proof.
  intros Hw Hi Hroom. split; intros Hl.
  - unfold writeBlockData, mbind, M_bind. rewrite (returns_header s h) by apply Hw.
    unfold assert_that, js_assert. by rewrite bool_decide_eq_false_2.
  - by apply (writeBlockData_lemma s h f t Hw).
Qed.

(** Writing the sectors [b] to [e] of an allocated block marks these sectors
    and gives them the new content; the other sectors of the block keep their
    mark and their content, and the other blocks do not change. *)
Theorem writeBlockSectors_updates s h f t i data b e old :
  wf s h f t → sectorsPerBlock h ≤ 8 * bitmapSize h →
  0 ≤ i < Header.maxTableEntries h → disk s !! i = Some old →
  0 ≤ b ≤ e → e ≤ sectorsPerBlock h → zlen data = Header.blockSize h →
  ∃ s' new, returns (_writeBlockSectors i data b e) s tt s' ∧ wf s' h f t ∧
    disk s' = <[i := new]> (disk s) ∧
    ∀ k, 0 ≤ k < sectorsPerBlock h →
      marked h new k = bool_decide (b ≤ k < e) || marked h old k ∧
      sector h new k =
        if decide (b ≤ k < e) then sub (sectorsToBytes k) SECTOR_SIZE data else sector h old k.
Proof.
  intros Hw Hbits Hi Hold Hbe He Hd.
  destruct (writeBlockSectors_lemma s h f t Hw i data b e old) as (s' & Hr & Hw' & Hdisk & _);
    [done..|].
  exists s', (with_sectors h old data b e). split_and!; try done.
  assert (sectorsToBytes (sectorsPerBlock h) = Header.blockSize h) as Hspb
    by apply sectorsPerBlock_bytes, Hw.
  assert (zlen old = fullBlockSize h) as Hol.
  { rewrite (lookup_disk _ _ _ _ _ Hw) in Hold. case_decide; [|done]. injection Hold as <-.
    by apply (zlen_block_at s h f t Hw). }
  pose proof (bitmapSize_le s h f t Hw).
  intros k Hk. split; [apply marked_with_sectors|apply sector_with_sectors]; lia || done.
Qed.

(** ** Witnesses *)

(** A table of unused entries is well-formed. *)
Lemma unused_table n i : 0 ≤ n → ¬ allocated (zrep (4 * n) 255) i.
Proof.
  intros Hn [Hi Ha]. rewrite zlen_zrep, Z.max_r in Hi by lia. apply Ha.
  replace (4 * n / 4) with n in Hi by (rewrite Z.mul_comm, Z.div_mul; lia).
  unfold bat_entry.
  replace (sub (i * 4) 4 (zrep (4 * n) 255)) with (zrep 4 255); [done|].
  apply list_eq_zget.
  - rewrite zlen_sub; rewrite ?zlen_zrep; lia.
  - rewrite zlen_zrep. intros j Hj. rewrite zget_sub by lia. by rewrite !zget_zrep by lia.
Qed.

Lemma placed_unused h n :
  Header.maxTableEntries h = n → 0 ≤ n → placed h (zrep (4 * n) 255).
Proof.
  intros <- Hn.
  split; try (intros i Ha; by apply unused_table in Ha); rewrite ?zlen_zrep.
  - unfold zrep. apply Forall_replicate. unfold is_byte. lia.
  - rewrite Z.max_r by lia. rewrite Z.mul_comm. by apply Z.mod_mul.
  - lia.
  - unfold batSize. pose proof (computeBatSize_covers _ Hn). lia.
  - intros i j Ha. by apply unused_table in Ha.
Qed.

(** An empty VHD of 128 blocks of two sectors. *)
Definition small_footer : Footer.t :=
  new_footer (actualSize (computeGeometryForSize 100000)) 5 (computeGeometryForSize 100000)
    FOOTER_SIZE DISK_TYPES_DYNAMIC (zrep 16 1).
Definition small_header : Header.t := new_header 128 1536 1024.
Definition small_table : buffer := zrep (4 * 128) 255.
Definition small_vhd : VhdFile :=
  mkVhd (zrep 1536 0 ++ small_table) (Some small_footer) (Some small_header) (Some small_table)
    false 0.

Lemma small_header_ok : header_ok small_header.
Proof. split; [done|by exists 2|done|done]. Qed.

Lemma small_vhd_wf : wf small_vhd small_header small_footer small_table.
Proof.
  split; try done.
  - apply small_header_ok.
  - by apply placed_unused.
  - intros i Ha. by apply unused_table in Ha.
Qed.

Definition small_block (i : Z) : Block := block_of small_header i (zrep 512 255 ++ zrep 1024 i).

Lemma small_room i : has_room small_header small_table i.
Proof. right. vm_compute. reflexivity. Qed.

Lemma writeEntireBlock_inserts_witness :
  ∃ s' t', returns (writeEntireBlock (small_block 5)) small_vhd tt s' ∧
    wf s' small_header small_footer t' ∧
    disk s' = {[ 5 := zrep 512 255 ++ zrep 1024 5 ]} ∧
    readBlock 5 s' = (Ok (small_block 5), s').
Proof.
  destruct (writeEntireBlock_inserts small_vhd small_header small_footer small_table
    (small_block 5) small_vhd_wf) as (s' & t' & Hr & Hw & Hd & _ & Hread).
  - split; [discriminate|reflexivity].
  - apply small_room.
  - reflexivity.
  - exists s', t'. split_and!; [done|done|rewrite Hd; reflexivity|].
    specialize (Hread 5 ltac:(discriminate)). rewrite Hread. reflexivity.
Defined.

Lemma writeBlockData_inserts_witness :
  writeBlockData 3 [1; 2] small_vhd
    = (Throw (AssertionError "block must be blockSize bytes"), small_vhd) ∧
  ∃ s' t', returns (writeBlockData 3 (zrep 1024 7)) small_vhd tt s' ∧
    wf s' small_header small_footer t' ∧
    disk s' = {[ 3 := zrep 512 255 ++ zrep 1024 7 ]}.
Proof.
  split.
  - destruct (writeBlockData_inserts small_vhd small_header small_footer small_table 3 [1; 2]
      small_vhd_wf) as [H _]; [split; [discriminate|reflexivity]|apply small_room|].
    apply H. vm_compute. discriminate.
  - destruct (writeBlockData_inserts small_vhd small_header small_footer small_table 3 (zrep 1024 7)
      small_vhd_wf) as [_ H]; [split; [discriminate|reflexivity]|apply small_room|].
    destruct (H ltac:(reflexivity)) as (s' & t' & Hr & Hw & Hd & _).
    exists s', t'. split_and!; [done|done|]. rewrite Hd. reflexivity.
Defined.

Lemma writeBlockSectors_updates_witness :
  ∃ s1, returns (writeEntireBlock (small_block 5)) small_vhd tt s1 ∧
  ∃ s2 new, returns (_writeBlockSectors 5 (zrep 1024 9) 1 2) s1 tt s2 ∧
    disk s2 !! 5 = Some new ∧
    sector small_header new 0 = zrep 512 5 ∧ sector small_header new 1 = zrep 512 9.
Proof.
  destruct (writeEntireBlock_lemma small_vhd small_header small_footer small_table
    small_vhd_wf (small_block 5)) as (s1 & t1 & Hr & Hw & Hd & _);
    [split; [discriminate|reflexivity]|apply small_room|reflexivity|].
  exists s1. split; [done|].
  destruct (writeBlockSectors_updates s1 small_header small_footer t1 5 (zrep 1024 9) 1 2
    (zrep 512 255 ++ zrep 1024 5) Hw) as (s2 & new & Hr2 & _ & Hd2 & Hs).
  - vm_compute. discriminate.
  - split; [discriminate|reflexivity].
  - rewrite Hd. apply lookup_insert_eq.
  - split; discriminate.
  - vm_compute. discriminate.
  - reflexivity.
  - exists s2, new. split_and!; [done|rewrite Hd2; apply lookup_insert_eq| |].
    + destruct (Hs 0) as [_ ->]; [split; [discriminate|reflexivity]|]. vm_compute. reflexivity.
    + destruct (Hs 1) as [_ ->]; [split; [discriminate|reflexivity]|]. vm_compute. reflexivity.
Defined.
