(* ===== verification/VhdHeaders.v ===== *)
(** * Headers and allocation table of a VHD file

    [writeHeader], [writeFooter] and [writeBlockAllocationTable] keep the disk,
    and what they write is what [VhdFile.open] and [readBlockAllocationTable]
    read. *)

From S2P Require Import Prelude Buffers VhdFormat StructFu VhdStructs VhdFile VhdLayout VhdBlocks.

Section headers.
Context `{StructFuLaws}.

Lemma checksumStruct_same f :
  fu_wf f →
  snd (checksumStruct (T := Footer.t) (fu_pack (checksummed_footer f))) = fu_pack (checksummed_footer f).
Proof.
  intros Hf. unfold checksummed_footer. rewrite <- fuFooter_checksum.
  pose proof (assertChecksum_pack f Hf) as Ha. cbv zeta in Ha. unfold assertChecksum in Ha.
  destruct (checksumStruct _) as [c b]. unfold js_assert in Ha.
  case_bool_decide; [|done]. by injection Ha.
Qed.

Lemma checksummed_footer_wf f : fu_wf f → fu_wf (checksummed_footer f).
Proof.
  intros. unfold checksummed_footer. rewrite <- fuFooter_checksum.
  apply fu_wf_with_checksum; [done|apply lnot_mod_bound].
Qed.
Lemma checksummed_header_wf h : fu_wf h → fu_wf (checksummed_header h).
Proof.
  intros. unfold checksummed_header. rewrite <- fuHeader_checksum.
  apply fu_wf_with_checksum; [done|apply lnot_mod_bound].
Qed.

Lemma zlen_footer f : fu_wf f → zlen (fu_pack (checksummed_footer f)) = FOOTER_SIZE.
Proof. intros. rewrite fu_pack_len by (by apply checksummed_footer_wf). apply fuFooter_size. Qed.
Lemma zlen_header h : fu_wf h → zlen (fu_pack (checksummed_header h)) = HEADER_SIZE.
Proof. intros. rewrite fu_pack_len by (by apply checksummed_header_wf). apply fuHeader_size. Qed.

(** The checksum changes neither the layout nor the disk. *)
Lemma placed_checksum h t : placed h t → placed (checksummed_header h) t.
Proof. intros []. by split. Qed.
Lemma header_ok_checksum h : header_ok h → header_ok (checksummed_header h).
Proof. intros []. by split. Qed.

(** ** [writeFooter] *)

(** What [writeFooter] leaves. *)
Record footer_written (onlyEnd : bool) (s : VhdFile) (h : Header.t) (f : Footer.t) (t : buffer)
  (s' : VhdFile) : Prop := {
  fw_wf : wf s' h (checksummed_footer f) t;
  fw_disk : disk s' = disk s;
  fw_bat : bat_on_disk s h t → bat_on_disk s' h t;
  fw_size : end_sector h t * SECTOR_SIZE + FOOTER_SIZE ≤ zlen (vf_file s');
  fw_end : sub (zlen (vf_file s') - FOOTER_SIZE) FOOTER_SIZE (vf_file s')
  = fu_pack (checksummed_footer f);
  fw_start : onlyEnd = false → sub 0 FOOTER_SIZE (vf_file s') = fu_pack (checksummed_footer f);
  fw_between o n : FOOTER_SIZE ≤ o → o + n ≤ endOfHeaders h → o + n ≤ zlen (vf_file s) →
  sub o n (vf_file s') = sub o n (vf_file s);
}.

Section writeFooter.
Context (s : VhdFile) (h : Header.t) (f : Footer.t) (t : buffer).
Context (Hw : wf s h f t) (Hf : fu_wf f).

Let raw := fu_pack (checksummed_footer f).
Let offset (eof : Z) := Z.max (sectorsToBytes (end_sector h t)) (eof - FOOTER_SIZE).

Local Lemma wf_set_footer s0 f0 f1 :
  wf s0 h f0 t → wf (set_footer f1 s0) h f1 t ∧ disk (set_footer f1 s0) = disk s0.
Proof. intros []. split; [by split|done]. Qed.

Local Lemma write_end s0 eof :
  wf s0 h (checksummed_footer f) t → disk s0 = disk s → zlen (vf_file s0) ≤ Z.max eof FOOTER_SIZE →
  (bat_on_disk s h t → bat_on_disk s0 h t) →
  (∀ o n, FOOTER_SIZE ≤ o → o + n ≤ endOfHeaders h → o + n ≤ zlen (vf_file s) →
  sub o n (vf_file s0) = sub o n (vf_file s)) →
  zlen (vf_file s) ≤ zlen (vf_file s0) →
  let s' := set_file (bwrite (vf_file s0) (offset eof) raw) s0 in
  wf s' h (checksummed_footer f) t ∧ disk s' = disk s ∧
  (bat_on_disk s h t → bat_on_disk s' h t) ∧
  end_sector h t * SECTOR_SIZE + FOOTER_SIZE ≤ zlen (vf_file s') ∧
  sub (zlen (vf_file s') - FOOTER_SIZE) FOOTER_SIZE (vf_file s') = raw ∧
  (∀ o n, FOOTER_SIZE ≤ o → o + n ≤ endOfHeaders h → o + n ≤ zlen (vf_file s) →
  sub o n (vf_file s') = sub o n (vf_file s)) ∧
  (FOOTER_SIZE ≤ zlen (vf_file s0) → sub 0 FOOTER_SIZE (vf_file s') = sub 0 FOOTER_SIZE (vf_file s0)).
Proof.
  intros Hw0 Hd Heof Hbat Hbt Hgrow s'.
  pose proof (zlen_footer f Hf) as Hl. fold raw in Hl.
  pose proof (end_sector_headers h t). pose proof (endOfHeaders_ge h) as [? ?].
  pose proof (pl_len _ _ (wf_placed _ _ _ _ Hw)). pose proof (wf_ok _ _ _ _ Hw) as Hk.
  assert (end_sector h t * SECTOR_SIZE ≤ offset eof) as Ho by (unfold offset, sectorsToBytes; lia).
  assert (eof - FOOTER_SIZE ≤ offset eof) as Ho2 by (unfold offset; lia).
  destruct (wf_write_outside s0 h (checksummed_footer f) t (offset eof) raw Hw0) as [Hw' Hd'].
  { split; [unfold FOOTER_SIZE, HEADER_SIZE in *; lia|by right]. }
  assert (raw ≠ []) as Hne by (intros E; rewrite E in Hl; done).
  assert (zlen (vf_file s') = offset eof + FOOTER_SIZE) as Hsize.
  { unfold s'. cbn [vf_file set_file]. rewrite zlen_bwrite; [|unfold FOOTER_SIZE, HEADER_SIZE in *; lia|done].
    rewrite Hl. unfold FOOTER_SIZE, HEADER_SIZE in *. lia. }
  assert (0 ≤ offset eof) by (unfold FOOTER_SIZE, HEADER_SIZE in *; lia).
  split_and!.
  - done.
  - by rewrite <- Hd.
  - intros Hb. apply bat_on_disk_write; [done|auto|right; lia|done].
  - rewrite Hsize. lia.
  - rewrite Hsize. replace (offset eof + FOOTER_SIZE - FOOTER_SIZE) with (offset eof) by lia.
    rewrite <- Hl. by apply sub_bwrite_same.
  - intros o n ? ? ?. rewrite <- Hbt by lia. unfold s'. cbn [vf_file set_file].
    apply sub_bwrite_disjoint; unfold FOOTER_SIZE in *; lia.
  - intros ?. unfold s'. cbn [vf_file set_file].
    apply sub_bwrite_disjoint; unfold FOOTER_SIZE, HEADER_SIZE in *; lia.
Qed.

Lemma returns_writeFooter onlyEnd :
  ∃ s', returns (writeFooter onlyEnd) s tt s' ∧ footer_written onlyEnd s h f t s'.
Proof.
  pose proof (zlen_footer f Hf) as Hl. fold raw in Hl. pose proof (wf_ok _ _ _ _ Hw) as Hk.
  pose proof (endOfHeaders_ge h) as [? ?].
  assert (checksumStruct (T := Footer.t) (fu_pack f) = (checksum_of f, raw)) as Hsum.
  { rewrite checksumStruct_pack by done. unfold raw, checksummed_footer.
    by rewrite fuFooter_checksum. }
  assert (zlen (fu_pack f) = FOOTER_SIZE) as Hl0
    by (rewrite fu_pack_len by done; apply fuFooter_size).
  set (eof := zlen (vf_file s)).
  destruct (wf_set_footer s f (checksummed_footer f) Hw) as [Hw1 Hd1].
  set (s1 := set_footer (checksummed_footer f) s) in *.
  set (s0 := if onlyEnd then s1 else set_file (bwrite (vf_file s1) 0 raw) s1).
  assert (returns (writeFooter onlyEnd) s tt (set_file (bwrite (vf_file s0) (offset eof) raw) s0)) as Hr.
  { unfold writeFooter. eapply returns_bind; [apply returns_footer, Hw|].
    eapply returns_bind; [apply returns_gets|].
    eapply returns_bind; [by eapply returns_getEndOfData|].
    rewrite Hsum, Hl0. eapply returns_bind; [apply returns_modify|].
    fold (checksummed_footer f) s1. unfold Handler.getSize. fold eof.
    eapply returns_bind.
    { instantiate (1 := s0). instantiate (1 := tt). unfold s0.
      destruct onlyEnd; [apply returns_ret|apply returns_write; lia]. }
    apply returns_write. pose proof (end_sector_nonneg h t).
    unfold offset, sectorsToBytes, SECTOR_SIZE, FOOTER_SIZE in *. lia. }
  eexists. split; [exact Hr|].
  assert (wf s0 h (checksummed_footer f) t ∧ disk s0 = disk s ∧
    zlen (vf_file s0) ≤ Z.max eof FOOTER_SIZE ∧ zlen (vf_file s) ≤ zlen (vf_file s0) ∧
    (bat_on_disk s h t → bat_on_disk s0 h t) ∧
    (∀ o n, FOOTER_SIZE ≤ o → o + n ≤ endOfHeaders h → o + n ≤ zlen (vf_file s) →
    sub o n (vf_file s0) = sub o n (vf_file s)) ∧
    (onlyEnd = false → FOOTER_SIZE ≤ zlen (vf_file s0) ∧ sub 0 FOOTER_SIZE (vf_file s0) = raw))
    as (Hw0 & Hd0 & Hlen & Hgrow & Hb0 & Hbt & Hst).
  { unfold s0. destruct onlyEnd; [split_and!; try done; change (vf_file s1) with (vf_file s); unfold eof; lia|].
    destruct (wf_write_outside s1 h (checksummed_footer f) t 0 raw Hw1) as [Hw' Hd'].
    { split; [done|left]. rewrite Hl. unfold FOOTER_SIZE, HEADER_SIZE in *. lia. }
    assert (raw ≠ []) as Hne by (intros E; rewrite E in Hl; done).
    cbn [vf_file set_file].
    assert (zlen (bwrite (vf_file s1) 0 raw) = Z.max eof FOOTER_SIZE) as Hz.
    { rewrite zlen_bwrite by done. rewrite Hl. done. }
    split_and!; [done|by rewrite Hd'|lia|unfold eof in *; lia| | |].
    - intros Hb. apply bat_on_disk_write; [done|done|left|done]. rewrite Hl.
      pose proof (ho_table _ Hk). unfold FOOTER_SIZE, HEADER_SIZE in *. lia.
    - intros o n ? ? ?. change (sub o n (bwrite (vf_file s) 0 raw) = sub o n (vf_file s)).
      apply sub_bwrite_disjoint; unfold FOOTER_SIZE in *; lia.
    - intros _. split; [lia|]. rewrite <- Hl. by apply sub_bwrite_same. }
  destruct (write_end s0 eof Hw0 Hd0 Hlen Hb0 Hbt Hgrow) as (? & ? & ? & ? & ? & ? & Hkeep).
  split; try done. intros E. destruct (Hst E) as [Hge Heq]. by rewrite (Hkeep Hge).
Qed.
End writeFooter.

(** ** [writeHeader] and [writeBlockAllocationTable] *)

Lemma wf_set_header s h f t :
  wf s h f t →
  wf (set_header (checksummed_header h) s) (checksummed_header h) f t ∧
  disk (set_header (checksummed_header h) s) = disk s.
Proof.
  intros Hw. pose proof (wf_placed _ _ _ _ Hw) as Hp. pose proof Hw as [].
  assert (wf (set_header (checksummed_header h) s) (checksummed_header h) f t) as Hw'.
  { split; try done; [by apply header_ok_checksum|by apply placed_checksum]. }
  split; [done|]. rewrite (disk_wf _ _ _ _ Hw), (disk_wf _ _ _ _ Hw'). done.
Qed.

Lemma returns_writeHeader s h f t :
  wf s h f t → fu_wf h → let h' := checksummed_header h in
  ∃ s', returns writeHeader s tt s' ∧ wf s' h' f t ∧ disk s' = disk s ∧
  (bat_on_disk s h t → bat_on_disk s' h' t) ∧ zlen (vf_file s) ≤ zlen (vf_file s') ∧
  FOOTER_SIZE + HEADER_SIZE ≤ zlen (vf_file s') ∧
  sub FOOTER_SIZE HEADER_SIZE (vf_file s') = fu_pack h'.
Proof.
  intros Hw Hh h'. pose proof (zlen_header h Hh) as Hl. fold h' in Hl.
  destruct (wf_set_header s h f t Hw) as [Hw1 Hd1]. fold h' in Hw1, Hd1.
  pose proof (endOfHeaders_ge h) as [? ?].
  assert (fu_pack h' ≠ []) as Hne by (intros E; rewrite E in Hl; done).
  exists (set_file (bwrite (vf_file s) FOOTER_SIZE (fu_pack h')) (set_header h' s)).
  split.
  - unfold writeHeader. eapply returns_bind; [apply returns_header, Hw|].
    rewrite checksumStruct_pack by done. rewrite fuHeader_checksum. fold (checksummed_header h) h'.
    eapply returns_bind; [apply returns_modify|].
    apply (returns_write (set_header h' s)). done.
  - destruct (wf_write_outside _ h' f t FOOTER_SIZE (fu_pack h') Hw1) as [Hw2 Hd2].
    { split; [done|left]. rewrite Hl. unfold FOOTER_SIZE, HEADER_SIZE in *. done. }
    cbn [vf_file set_file set_header] in *.
    split_and!.
    + done.
    + by rewrite Hd2.
    + intros Hb. apply (bat_on_disk_write (set_header h' s) h'); [apply Hw1|done| |done].
      left. rewrite Hl. apply (ho_table _ (wf_ok _ _ _ _ Hw1)).
    + by apply bwrite_grows.
    + rewrite zlen_bwrite, Hl by done. lia.
    + rewrite <- Hl. by apply sub_bwrite_same.
Qed.

Lemma returns_writeBlockAllocationTable s h f t :
  wf s h f t →
  ∃ s', returns writeBlockAllocationTable s tt s' ∧ wf s' h f t ∧ disk s' = disk s ∧
  bat_on_disk s' h t.
Proof.
  intros Hw. pose proof (endOfHeaders_ge h) as [? ?]. pose proof (ho_table _ (wf_ok _ _ _ _ Hw)).
  pose proof (pl_len _ _ (wf_placed _ _ _ _ Hw)). unfold FOOTER_SIZE, HEADER_SIZE in *.
  destruct (wf_write_outside s h f t (Header.tableOffset h) t Hw) as [Hw' Hd].
  { split; [lia|left; lia]. }
  eexists. split_and!; [|done|done|].
  - unfold writeBlockAllocationTable. eapply returns_bind; [apply returns_header, Hw|].
    eapply returns_bind; [apply returns_blockTable, Hw|]. apply returns_write. lia.
  - unfold bat_on_disk. cbn [vf_file set_file]. apply sub_bwrite_same. lia.
Qed.

(** ** Opening a file *)

Lemma fresh_table_ok h : header_ok h → ∃ t, fresh_table h = Ok t.
Proof.
  intros Hk. pose proof (batSize_covers h Hk) as Hb. unfold fresh_table.
  assert (∀ l t, zlen t = Z.max 0 (batSize h) → Forall (λ i, 0 ≤ i ∧ i * 4 + 4 ≤ batSize h) l →
    ∃ t', foldl (λ t i, t ← t; writeUInt32BE BLOCK_UNUSED (i * 4) t) (Ok t) l = Ok t') as Hind.
  { induction l as [|i l IH]; intros t Hl Hf; [by eexists|].
    apply Forall_cons in Hf as [[Hi1 Hi2] Hf].
    cbn -[writeUInt32BE]. rewrite writeUInt32BE_ok by (unfold BLOCK_UNUSED; lia).
    apply IH; [|done]. rewrite zlen_bwrite_in; rewrite ?zlen_be_encode; lia. }
  apply Hind; [by rewrite zlen_zrep|].
  apply Forall_forall. intros i ?%elem_of_zrange. lia.
Qed.

Lemma returns_readHeaderAndFooter (file : buffer) f h s0 :
  vf_file s0 = file →
  FOOTER_SIZE + HEADER_SIZE ≤ zlen file → header_ok h →
  sub 0 FOOTER_SIZE file = fu_pack (checksummed_footer f) →
  sub FOOTER_SIZE HEADER_SIZE file = fu_pack (checksummed_header h) →
  sub (zlen file - FOOTER_SIZE) FOOTER_SIZE file = fu_pack (checksummed_footer f) →
  fu_wf f → fu_wf h → checkFooter f = Ok tt → checkHeader h (Some f) = Ok tt →
  ∃ t0, returns (readHeaderAndFooter true) s0 tt
  (set_blockTable t0 (set_header (checksummed_header h) (set_footer (checksummed_footer f) s0))).
Proof.
  intros <- Hlen Hk H1 H2 H3 Hf Hh Hcf Hch.
  destruct (fresh_table_ok _ (header_ok_checksum h Hk)) as [t0 Ht0]. exists t0.
  unfold FOOTER_SIZE, HEADER_SIZE in *.
  unfold readHeaderAndFooter. eapply returns_bind.
  { apply returns_read; unfold FOOTER_SIZE, HEADER_SIZE; lia. }
  unfold FOOTER_SIZE, HEADER_SIZE.
  assert (zlen (sub 0 (512 + 1024) (vf_file s0)) = 1536) as Hz by (apply zlen_sub; lia).
  rewrite Hz, !buf_slice_sub by lia. rewrite !sub_sub by lia.
  change (0 + 0) with 0. change (512 - 0) with 512. change (0 + 512) with 512.
  change (1536 - 512) with 1024. rewrite H1, H2.
  eapply returns_bind.
  { rewrite unpackFooter_pack, Hcf by done. apply returns_lift. }
  eapply returns_bind.
  { rewrite unpackHeader_pack by done.
    change (checkHeader h (Some (checksummed_footer f))) with (checkHeader h (Some f)).
    rewrite Hch. apply returns_lift. }
  eapply returns_bind.
  { eapply returns_bind; [apply returns_gets|]. unfold Handler.getSize.
    eapply returns_bind; [apply returns_read; unfold FOOTER_SIZE; lia|].
    unfold FOOTER_SIZE. rewrite H3, checksumStruct_same by done.
    apply returns_assert. by apply bool_decide_eq_true_2. }
  eapply returns_bind; [apply returns_modify|].
  unfold assign_header. eapply returns_bind; [apply returns_modify|].
  rewrite Ht0. eapply returns_bind; [apply returns_lift|]. apply returns_modify.
Qed.

(** The table read from the file: the entries of the header. *)
Lemma table_prefix h t :
  header_ok h → placed h t → let t' := sub 0 (Header.maxTableEntries h * 4) t in
  placed h t' ∧ (∀ i, allocated t' i ↔ allocated t i) ∧
  (∀ i, allocated t i → bat_entry t' i = bat_entry t i) ∧
  zlen t' = Header.maxTableEntries h * 4.
Proof.
  intros Hk Hp t'. pose proof (pl_rest _ _ Hp) as Hrest. pose proof (ho_entries _ Hk).
  pose proof (pl_entries _ _ Hp). pose proof (pl_mod _ _ Hp).
  set (n := Header.maxTableEntries h) in *.
  assert (zlen t' = n * 4) as Hl by (apply zlen_sub; lia).
  assert (∀ i, 0 ≤ i < n → bat_entry t' i = bat_entry t i) as He.
  { intros i Hi. unfold bat_entry, t'. rewrite sub_sub by lia. f_equal. }
  assert (∀ i, allocated t' i ↔ allocated t i) as Ha.
  { intros i. unfold allocated at 1. rewrite Hl, Z.div_mul by done. split.
    - intros [Hi Hu]. rewrite He in Hu by done. split; [|done].
      pose proof (Z.div_mod (zlen t) 4 ltac:(done)). lia.
    - intros Hi. pose proof (Hrest i Hi). assert (0 ≤ i < n) as Hin by (destruct Hi; lia).
      split; [done|]. rewrite He by done. apply Hi. }
  assert (∀ i, allocated t i → bat_entry t' i = bat_entry t i) as He2.
  { intros i Hi. apply He. pose proof (Hrest i Hi). destruct Hi; lia. }
  split_and!; try done. split.
  - apply bytes_sub, Hp.
  - rewrite Hl. by apply Z.mod_mul.
  - fold n. lia.
  - pose proof (batSize_covers h Hk) as Hc. fold n in Hc. lia.
  - intros i ?%Ha. by apply Hrest.
  - intros i Hi%Ha. rewrite He2 by done. by apply (pl_above _ _ Hp).
  - intros i j Hi%Ha Hj%Ha Hij. rewrite !He2 by done. by apply (pl_apart _ _ Hp).
Qed.

Lemma returns_readBlockAllocationTable s h f t t0 :
  vf_header s = Some h → vf_footer s = Some f → vf_blockTable s = Some t0 →
  wf (set_blockTable t s) h f t → bat_on_disk s h t →
  ∃ s' t', returns readBlockAllocationTable s tt s' ∧ wf s' h f t' ∧
  disk s' = disk (set_blockTable t s) ∧ bat_on_disk s' h t'.
Proof.
  intros Hh Hf Ht0 Hw Hb. pose proof (wf_ok _ _ _ _ Hw) as Hk. pose proof (wf_placed _ _ _ _ Hw) as Hp.
  destruct (table_prefix h t Hk Hp) as (Hp' & Ha & He & Hl).
  set (t' := sub 0 (Header.maxTableEntries h * 4) t) in *.
  pose proof (ho_entries _ Hk). pose proof (ho_table _ Hk). unfold FOOTER_SIZE, HEADER_SIZE in *.
  pose proof (pl_entries _ _ Hp).
  assert (sub (Header.tableOffset h) (Header.maxTableEntries h * 4) (vf_file s) = t') as Hs.
  { unfold t'. rewrite <- Hb at 1. rewrite sub_sub by lia. by rewrite Z.add_0_r. }
  exists (set_blockTable t' s), t'.
  assert (wf (set_blockTable t' s) h f t') as Hw'.
  { split; try done. intros i Hi%Ha. pose proof (wf_inside _ _ _ _ Hw i Hi) as Hin.
    unfold inside in *. by rewrite He. }
  split_and!.
  - unfold readBlockAllocationTable. eapply returns_bind; [by apply returns_header|].
    eapply returns_bind; [|apply returns_modify]. rewrite <- Hs.
    destruct (decide (Header.maxTableEntries h = 0)) as [Hz|Hz].
    + rewrite Hz. unfold returns, _read, gets, lift, mbind, M_bind. f_equal.
      unfold Handler.read. rewrite decide_False by lia. rewrite js_assert_bind; [done|done].
    + apply returns_read; [lia|].
      assert (zlen (sub (Header.tableOffset h) (zlen t) (vf_file s)) = zlen t) as Hz2 by (by rewrite Hb).
      revert Hz2. unfold sub, zlen in *. rewrite length_take, length_drop. lia.
  - done.
  - rewrite (disk_wf _ _ _ _ Hw), (disk_wf _ _ _ _ Hw'). apply map_eq. intros i.
    rewrite !lookup_disk_map by done. erewrite (decide_ext _ _ _ _ (Ha i)).
    case_decide; [|done]. f_equal. cbn. apply block_at_entry. by apply He.
  - unfold bat_on_disk. by rewrite Hl.
Qed.

(** The metadata written at the end of every change of the chain. *)
Definition write_metadata : M VhdFile unit := writeHeader ;; writeFooter false.

(** C20: a VHD file whose header and footer have been written opens again, with
both footers checked: the header, the footer and, once its allocation table
is read, every block are those of the object that wrote it. *)
Theorem vhd_reopen s h f t :
  wf s h f t → bat_on_disk s h t → fu_wf f → fu_wf h →
  checkFooter f = Ok tt → checkHeader h (Some f) = Ok tt →
  ∃ s1 s2 s3 t3,
  returns write_metadata s tt s1 ∧ disk s1 = disk s ∧
  open_vhd true (vf_file s1) = (Ok s2, s2) ∧
  returns readBlockAllocationTable s2 tt s3 ∧
  wf s3 (checksummed_header h) (checksummed_footer f) t3 ∧ disk s3 = disk s.
Proof.
  intros Hw Hb Hf Hh Hcf Hch.
  destruct (returns_writeHeader s h f t Hw Hh) as (sa & Hra & Hwa & Hda & Hba & _ & Hsz & Hraw).
  set (h' := checksummed_header h) in *.
  destruct (returns_writeFooter sa h' f t Hwa Hf false) as (s1 & Hr1 & [Hw1 Hd1 Hb1 Hsize Hend Hstart Hbt]).
  pose proof (endOfHeaders_ge h') as [? ?]. pose proof (end_sector_headers h' t).
  unfold FOOTER_SIZE, HEADER_SIZE in *.
  destruct (returns_readHeaderAndFooter (vf_file s1) f h (new_VhdFile (vf_file s1))) as [t0 Hopen];
    try done; unfold FOOTER_SIZE, HEADER_SIZE; try lia.
  { apply (wf_ok _ _ _ _ Hw). }
  { by apply Hstart. }
  { fold h'. rewrite <- Hraw. apply Hbt; lia. }
  fold h' in Hopen.
  set (s2 := set_blockTable t0 (set_header h' (set_footer (checksummed_footer f)
    (new_VhdFile (vf_file s1))))) in *.
  assert (wf (set_blockTable t s2) h' (checksummed_footer f) t) as Hw2 by (destruct Hw1; by split).
  destruct (returns_readBlockAllocationTable s2 h' (checksummed_footer f) t t0) as
    (s3 & t3 & Hr3 & Hw3 & Hd3 & _); try done; [by apply Hb1, Hba|].
  exists s1, s2, s3, t3. split_and!; try done.
  - by eapply returns_bind.
  - by rewrite Hd1.
  - unfold open_vhd. by rewrite Hopen.
  - rewrite Hd3, (disk_wf _ _ _ _ Hw2), <- Hda, <- Hd1, (disk_wf _ _ _ _ Hw1). done.
Qed.
End headers.

(** ** Witnesses *)

Lemma small_footer_wf : @fu_wf Footer.t packedFooter small_footer.
Proof. compute_wf. Qed.
Lemma small_header_wf : @fu_wf Header.t packedHeader small_header.
Proof. compute_wf. Qed.

Lemma vhd_reopen_witness :
  ∃ s0 s1 s2 s3, returns (writeEntireBlock (small_block 5)) small_vhd tt s0 ∧
    returns (@write_metadata packed) s0 tt s1 ∧
    @open_vhd packed true (vf_file s1) = (Ok s2, s2) ∧
    returns readBlockAllocationTable s2 tt s3 ∧
    disk s3 = {[ 5 := zrep 512 255 ++ zrep 1024 5 ]}.
Proof.
  destruct (writeEntireBlock_lemma small_vhd small_header small_footer small_table
    small_vhd_wf (small_block 5)) as (s0 & t0 & Hr & Hw & Hd & Hb);
    [split; [discriminate|reflexivity]|apply small_room|reflexivity|].
  destruct (@vhd_reopen packed packed_laws s0 small_header small_footer t0 Hw)
    as (s1 & s2 & s3 & t3 & Hr1 & _ & Ho & Hr3 & _ & Hd3).
  - apply Hb. vm_compute. reflexivity.
  - apply small_footer_wf.
  - apply small_header_wf.
  - vm_compute. reflexivity.
  - vm_compute. reflexivity.
  - exists s0, s1, s2, s3. split; [exact Hr|]. split; [exact Hr1|]. split; [exact Ho|].
    split; [exact Hr3|]. rewrite Hd3, Hd. reflexivity.
Defined.
