(* ===== verification/VhdResize.v ===== *)
(** * Making room in a VHD file

    [_freeFirstBlockSpace] moves the first block after the last one and
    [ensureBatSize] extends the allocation table: when one move is enough, the
    blocks keep their content.  The last section runs the cases in which it is
    not, and other cases that the code does not handle. *)

From S2P Require Import Prelude Buffers VhdFormat StructFu VhdStructs VhdFile VhdLayout VhdBlocks VhdHeaders.

Lemma end_sector_le h t v :
  ceil_div (endOfHeaders h) SECTOR_SIZE ≤ v →
  (∀ i, allocated t i → bat_entry t i + slot h ≤ v) → end_sector h t ≤ v.
Proof.
  intros He Ha. unfold end_sector. revert He. generalize (ceil_div (endOfHeaders h) SECTOR_SIZE).
  induction (zrange 0 (Header.maxTableEntries h)) as [|i l IH]; intros e He; [done|].
  cbn. apply IH. unfold end_step. case_decide as Hi; [|done]. specialize (Ha i Hi). lia.
Qed.

Section resize.
Context `{StructFuLaws}.

Section move.
Context (s : VhdFile) (h : Header.t) (f : Footer.t) (t : buffer).
Context (Hw : wf s h f t) (Hf : fu_wf f).

(** The block [i] moved to the sector [v], after all the blocks. *)
Lemma move_block i v :
  allocated t i → end_sector h t ≤ v < BLOCK_UNUSED →
  ∃ s2, let t2 := set_entry t i v in
  returns (block ← _read (sectorsToBytes (bat_entry t i)) (fullBlockSize h);
   _write block (sectorsToBytes v) ;; _setBatEntry i v) s tt s2 ∧
  wf s2 h f t2 ∧ disk s2 = disk s ∧ (bat_on_disk s h t → bat_on_disk s2 h t2).
Proof.
  intros Hi [Hv1 Hv2] *. pose proof (wf_ok _ _ _ _ Hw) as Hk. pose proof (wf_placed _ _ _ _ Hw) as Hp.
  pose proof (placed_entry_nonneg _ _ _ Hp Hi). pose proof (zlen_block_at s h f t Hw i Hi) as Hl.
  pose proof (wf_inside _ _ _ _ Hw i Hi) as Hin. unfold inside in Hin.
  pose proof (end_sector_nonneg h t). pose proof (endOfHeaders_ge h) as [? ?].
  pose proof (end_sector_headers h t). pose proof (slot_pos h Hk).
  pose proof (fullBlockSize_slot h Hk) as Hfull. pose proof (pl_rest _ _ Hp i Hi).
  assert (0 ≤ i < Header.maxTableEntries h) as Hir by (destruct Hi; lia).
  set (blk := block_at h t (vf_file s) i) in *.
  set (s1 := set_file (bwrite (vf_file s) (v * SECTOR_SIZE) blk) s).
  destruct (wf_write_outside s h f t (v * SECTOR_SIZE) blk Hw) as [Hw1 Hd1].
  { unfold outside, SECTOR_SIZE. split; [lia|right; lia]. }
  fold s1 in Hw1, Hd1.
  assert (0 ≤ v < 2 ^ 32) as Hvr by (unfold BLOCK_UNUSED in *; lia).
  exists (entry_written s1 h t i v). split.
  - eapply returns_bind.
    { apply returns_read; unfold sectorsToBytes, SECTOR_SIZE in *; lia. }
    fold (block_at h t (vf_file s) i). change (sub (sectorsToBytes (bat_entry t i)) _ _) with blk.
    eapply returns_bind; [apply returns_write; unfold sectorsToBytes, SECTOR_SIZE; lia|].
    fold s1. by eapply returns_setBatEntry.
  - pose proof (entry_index _ _ _ _ Hw i Hir) as Hix. pose proof (pl_mod _ _ Hp) as Hm.
    assert (placed h (set_entry t i v)) as Hp2.
    { eapply (placed_set_entry s h f t Hw); try done; [lia|unfold SECTOR_SIZE in *; lia|].
      intros j _ Hj. left. pose proof (end_sector_block h t j Hj (pl_rest _ _ Hp j Hj)). lia. }
    assert (block_at h (set_entry t i v) (vf_file (entry_written s1 h t i v)) i = blk) as Hblk.
    { unfold block_at. rewrite bat_entry_set_same by done. cbn [vf_file entry_written set_file].
      rewrite <- Hl at 1. rewrite Hl.
      pose proof (entry_in_headers _ _ _ _ Hw i Hir) as (? & ? & ?).
      assert (blk ≠ []) as Hne by (intros E; rewrite E, zlen_nil in Hl; unfold SECTOR_SIZE in *; lia).
      rewrite sub_bwrite_disjoint; rewrite ?zlen_be_encode; unfold SECTOR_SIZE in *; try lia.
      - rewrite <- Hl. apply sub_bwrite_same. lia.
      - change (vf_file s1) with (bwrite (vf_file s) (v * SECTOR_SIZE) blk). unfold SECTOR_SIZE.
        rewrite zlen_bwrite by (done || lia). lia. }
    assert (wf (entry_written s1 h t i v) h f (set_entry t i v) ∧
      disk (entry_written s1 h t i v) = <[i := blk]> (disk s1)) as [Hw2 Hd2].
    { rewrite <- Hblk. apply (update_block s1 h f t); try done.
      - apply allocated_set_same; try done. lia.
      - unfold inside. rewrite bat_entry_set_same by done.
        assert (zlen (block_at h (set_entry t i v) (vf_file (entry_written s1 h t i v)) i)
          = fullBlockSize h) as Hz by (by rewrite Hblk).
        revert Hz. unfold block_at. rewrite bat_entry_set_same by done.
        unfold sub, zlen. rewrite length_take, length_drop. unfold SECTOR_SIZE in *. lia.
      - intros j ?. by apply allocated_set_other.
      - intros j ? [? _]. by apply bat_entry_set_other.
      - intros j _ Hj. by apply (block_at_entry_written s1 h f t Hw1).
      - apply bwrite_grows. pose proof (entry_in_headers _ _ _ _ Hw i Hir). lia. }
    split_and!; [done| |].
    + rewrite Hd2, Hd1. apply insert_id. rewrite (lookup_disk _ _ _ _ _ Hw).
      by rewrite decide_True.
    + intros Hb. apply (bat_on_disk_entry_written s1 h f t Hw1); [done|].
      apply bat_on_disk_write; [done|done|right|unfold SECTOR_SIZE in *; lia].
      pose proof (pl_len _ _ Hp). unfold SECTOR_SIZE in *. lia.
Qed.

(** *** [_freeFirstBlockSpace] *)

(** The blocks start after the table and [space] more bytes. *)
Definition room_after_table (h : Header.t) (t : buffer) (space : Z) : Prop :=
  ∀ i, allocated t i → Header.tableOffset h + batSize h + space ≤ bat_entry t i * SECTOR_SIZE.

Lemma returns_freeFirst space :
  0 ≤ space ≤ fullBlockSize h → end_sector h t < BLOCK_UNUSED →
  ∃ s' f' t', returns (_freeFirstBlockSpace space) s tt s' ∧ wf s' h f' t' ∧ fu_wf f' ∧
  zlen t' = zlen t ∧ disk s' = disk s ∧ (bat_on_disk s h t → bat_on_disk s' h t') ∧
  room_after_table h t' space.
Proof.
  intros Hsp He. pose proof (wf_ok _ _ _ _ Hw) as Hk. pose proof (wf_placed _ _ _ _ Hw) as Hp.
  unfold _freeFirstBlockSpace. cbn [freeFirstBlockSpace].
  destruct (getFirstAndLastBlocks_lemma t (pl_mod _ _ Hp))
    as [[Hr Hnone]|(r & Hr & Hfa & Hfe & Hla & Hle & _ & Hext)].
  { exists s, f, t. split_and!; try done.
    - eapply returns_bind; [apply returns_blockTable, Hw|]. rewrite Hr.
      eapply returns_bind; [apply returns_lift|]. apply returns_ret.
    - intros i Hi. exfalso. by apply (Hnone i). }
  pose proof (fullBlockSize_slot h Hk) as Hfull. pose proof (slot_pos h Hk).
  pose proof (endOfHeaders_ge h) as [? ?]. pose proof (pl_above _ _ Hp _ Hfa) as Hab.
  rewrite Hfe in Hab.
  destruct (decide (Header.tableOffset h + batSize h + space
    >= sectorsToBytes (firstSector r))) as [Hmove|Hstay].
  2: { exists s, f, t. split_and!; try done.
  - eapply returns_bind; [apply returns_blockTable, Hw|]. rewrite Hr.
    eapply returns_bind; [apply returns_lift|].
    eapply returns_bind; [apply returns_header, Hw|]. rewrite decide_False by done.
    apply returns_ret.
  - intros i Hi. pose proof (Hext i Hi ltac:(apply Hi)) as Hx.
    unfold sectorsToBytes, SECTOR_SIZE in *. lia. }
    set (v := Z.max (lastSector r + fullBlockSize h / SECTOR_SIZE)
      (ceil_div (Header.tableOffset h + batSize h + space) SECTOR_SIZE)).
    assert (fullBlockSize h / SECTOR_SIZE = slot h) as Hdiv by (by rewrite Hfull, Z.div_mul).
    assert (ceil_div (Header.tableOffset h + batSize h + space) SECTOR_SIZE
      ≤ firstSector r + slot h) as Hnew.
    { apply ceil_div_le; [done|]. unfold SECTOR_SIZE in *. lia. }
    pose proof (end_sector_block h t _ Hla (pl_rest _ _ Hp _ Hla)) as Hlast. rewrite Hle in Hlast.
    pose proof (Hext _ Hfa ltac:(apply Hfa)) as Hfl. rewrite Hfe in Hfl.
    assert (end_sector h t ≤ v) as Hv1.
    { apply end_sector_le.
      - assert (ceil_div (endOfHeaders h) SECTOR_SIZE ≤ firstSector r)
          by (apply ceil_div_le; done). lia.
      - intros i Hi. pose proof (Hext i Hi ltac:(apply Hi)). lia. }
    assert (v < BLOCK_UNUSED) as Hv2 by lia.
    destruct (move_block (first r) v Hfa ltac:(lia)) as (s2 & Hr2 & Hw2 & Hd2 & Hb2).
    set (t2 := set_entry t (first r) v) in *.
    assert (0 ≤ v < 2 ^ 32) as Hvr.
    { pose proof (end_sector_nonneg h t). unfold BLOCK_UNUSED in *. lia. }
    destruct (returns_writeFooter s2 h f t2 Hw2 Hf true) as (s3 & Hr3 & [Hw3 Hd3 Hb3 _ _ _ _]).
    exists s3, (checksummed_footer f), t2. split_and!.
  - eapply returns_bind; [apply returns_blockTable, Hw|]. rewrite Hr.
    eapply returns_bind; [apply returns_lift|].
    eapply returns_bind; [apply returns_header, Hw|]. rewrite decide_True by done.
    fold v. rewrite Hfe in Hr2.
    apply returns_bind_inv in Hr2 as (blk & sa & Hra & Hr2).
    apply returns_bind_inv in Hr2 as ([] & sb & Hrb & Hr2).
    eapply returns_bind; [exact Hra|]. eapply returns_bind; [exact Hrb|].
    eapply returns_bind; [exact Hr2|]. eapply returns_bind; [exact Hr3|].
    rewrite decide_False by lia. apply returns_ret.
  - done.
  - by apply checksummed_footer_wf.
  - apply zlen_set_entry; [apply (pl_mod _ _ Hp)|apply Hfa].
  - by rewrite Hd3.
  - auto.
  - intros i Hi. destruct (decide (i = first r)) as [->|Hne].
    + unfold t2. rewrite bat_entry_set_same by (done || apply (pl_mod _ _ Hp) || apply Hfa).
      pose proof (ceil_div_spec (Header.tableOffset h + batSize h + space) SECTOR_SIZE ltac:(done)).
      unfold v, SECTOR_SIZE in *. lia.
    + unfold t2 in Hi. rewrite allocated_set_other in Hi
        by (done || apply (pl_mod _ _ Hp) || apply Hfa).
      unfold t2. rewrite bat_entry_set_other
        by (done || apply (pl_mod _ _ Hp) || apply Hfa || apply Hi).
      pose proof (pl_apart _ _ Hp i (first r) Hi Hfa Hne) as Hap.
      pose proof (Hext i Hi ltac:(apply Hi)). rewrite Hfe in Hap.
      unfold SECTOR_SIZE in *. lia.
Qed.
End move.

(** ** [ensureBatSize] *)

Lemma cycle_unused n : 0 ≤ n → cycle n BUF_BLOCK_UNUSED = zrep n 255.
Proof.
  intros Hn. unfold cycle. change BUF_BLOCK_UNUSED with (replicate 4 255).
  assert (∀ k, mjoin (replicate k (replicate 4 255)) = replicate (k * 4) 255) as Hm.
  { induction k as [|k IH]; [done|]. rewrite (replicate_S k), mjoin_cons, IH.
    by rewrite <- replicate_add. }
  rewrite (Hm (Z.to_nat n)). rewrite take_replicate. unfold zrep. f_equal. lia.
Qed.

(** The table extended with unused entries. *)
Definition extended (t : buffer) (n m : Z) : buffer := sub 0 (n * 4) t ++ zrep (m - n * 4) 255.

Section extended.
Context (h : Header.t) (t : buffer) (entries : Z).
Context (Hk : header_ok h) (Hp : placed h t) (Hgt : Header.maxTableEntries h < entries).
Let n := Header.maxTableEntries h.
Let h' := Header.with_maxTableEntries entries h.
Let t' := extended t n (computeBatSize entries).

Local Lemma n_bounds : 0 ≤ n ∧ n * 4 ≤ zlen t ∧ entries * 4 ≤ computeBatSize entries.
Proof.
  pose proof (ho_entries _ Hk). pose proof (pl_entries _ _ Hp).
  pose proof (computeBatSize_covers entries ltac:(lia)). done.
Qed.

Local Lemma computeBatSize_mod m : computeBatSize m mod 4 = 0.
Proof.
  unfold computeBatSize, sectorsToBytes, SECTOR_SIZE.
  replace (sectorsRoundUpNoZero (m * 4) * 512) with (sectorsRoundUpNoZero (m * 4) * 128 * 4) by lia.
  by apply Z.mod_mul.
Qed.

Lemma zlen_extended : zlen t' = computeBatSize entries.
Proof.
  pose proof n_bounds as (? & ? & ?). unfold t', extended.
  rewrite zlen_app, zlen_zrep, zlen_sub; fold n in Hgt; lia.
Qed.

Lemma bat_entry_extended i :
  0 ≤ i < computeBatSize entries / 4 →
  bat_entry t' i = if decide (i < n) then bat_entry t i else BLOCK_UNUSED.
Proof.
  intros Hi. pose proof n_bounds as (? & ? & ?). fold n in Hgt.
  pose proof (Z.div_mod (computeBatSize entries) 4 ltac:(done)) as Hdm.
  rewrite computeBatSize_mod in Hdm.
  assert (zlen (sub 0 (n * 4) t) = n * 4) as Hl by (apply zlen_sub; lia).
  unfold bat_entry, t', extended. case_decide.
  - rewrite sub_app_l by lia. rewrite sub_sub by lia. done.
  - rewrite sub_app_r by lia. rewrite Hl.
    replace (sub (i * 4 - n * 4) 4 (zrep (computeBatSize entries - n * 4) 255))
      with (zrep 4 255); [done|].
    apply list_eq_zget; rewrite ?zlen_sub, ?zlen_zrep by (rewrite ?zlen_zrep; lia); [lia|].
    intros j Hj. rewrite zget_sub by lia. by rewrite !zget_zrep by lia.
Qed.

Lemma allocated_extended i : allocated t' i ↔ allocated t i.
Proof.
  pose proof n_bounds as (? & ? & ?). fold n in Hgt.
  pose proof (Z.div_mod (computeBatSize entries) 4 ltac:(done)) as Hdm.
  rewrite computeBatSize_mod in Hdm.
  pose proof (Z.div_mod (zlen t) 4 ltac:(done)) as Hdt. rewrite (pl_mod _ _ Hp) in Hdt.
  split.
  - intros [Hi Hu]. rewrite zlen_extended in Hi. rewrite bat_entry_extended in Hu by done.
    case_decide; [|done]. split; [lia|done].
  - intros Ha. pose proof (pl_rest _ _ Hp i Ha) as Hr. fold n in Hr. destruct Ha as [Hi Hu].
    split; [rewrite zlen_extended; lia|]. rewrite bat_entry_extended by lia.
    by rewrite decide_True by done.
Qed.

Lemma bat_entry_extended_allocated i : allocated t i → bat_entry t' i = bat_entry t i.
Proof.
  intros Ha. pose proof (pl_rest _ _ Hp i Ha) as Hr. fold n in Hr.
  pose proof (proj2 (allocated_extended i) Ha) as [Hi _]. rewrite zlen_extended in Hi.
  rewrite bat_entry_extended by lia. by rewrite decide_True.
Qed.

Lemma placed_extended :
  (∀ i, allocated t i → endOfHeaders h' ≤ bat_entry t i * SECTOR_SIZE) → placed h' t'.
Proof.
  intros Hab. pose proof n_bounds as (? & ? & ?). fold n in Hgt. split.
  - unfold t', extended, bytes. apply Forall_app. split; [by apply bytes_sub, Hp|].
    apply Forall_replicate. unfold is_byte. lia.
  - rewrite zlen_extended. apply computeBatSize_mod.
  - rewrite zlen_extended. unfold h'. cbn. lia.
  - by rewrite zlen_extended.
  - intros i Hi%allocated_extended. pose proof (pl_rest _ _ Hp i Hi) as Hr. unfold h'. cbn. lia.
  - intros i Hi%allocated_extended. rewrite bat_entry_extended_allocated by done. by apply Hab.
  - intros i j Hi%allocated_extended Hj%allocated_extended Hij.
    rewrite !bat_entry_extended_allocated by done. by apply (pl_apart _ _ Hp).
Qed.
End extended.

(** No parent locator is stored after the table. *)
Definition locators_before_table (h : Header.t) : Prop :=
  Forall (λ e, platformCode e = PLATFORMS_NONE ∨
  platformDataOffset e + sectorsToBytes (platformDataSpace e) ≤ Header.tableOffset h + batSize h)
  (Header.parentLocatorEntry h).

Lemma endOfHeaders_extended h entries :
  header_ok h → locators_before_table h → Header.maxTableEntries h ≤ entries →
  endOfHeaders (Header.with_maxTableEntries entries h) = Header.tableOffset h + computeBatSize entries.
Proof.
  intros Hk Hloc Hle. unfold endOfHeaders, batSize. cbn. pose proof (ho_entries _ Hk).
  pose proof (computeBatSize_mono _ _ (conj H1 Hle)) as Hm. fold (batSize h) in Hm.
  pose proof (ho_table _ Hk).
  pose proof (computeBatSize_covers entries ltac:(lia)).
  rewrite Z.max_r by lia. unfold locators_before_table in Hloc.
  assert (Header.tableOffset h + batSize h ≤ Header.tableOffset h + computeBatSize entries) as Hx by lia.
  revert Hloc Hx. generalize (Header.tableOffset h + computeBatSize entries).
  generalize (Header.tableOffset h + batSize h). intros a b Hloc Hab.
  induction Hloc as [|l ls Hl _ IH]; [done|]. cbn. unfold locator_end at 2.
  case_decide; [|done]. destruct Hl as [|Hl]; [done|]. by rewrite Z.max_l by lia.
Qed.

Lemma buf_copy_prefix n src target m :
  zlen src ≤ zlen target → zlen target = n → 0 ≤ m → m ≤ zlen src →
  sub 0 m (buf_copy target 0 src) = sub 0 m src.
Proof.
  intros Hl Hn Hm Hms. unfold buf_copy.
  rewrite take_ge by (unfold zlen in *; lia).
  destruct (decide (m = 0)) as [->|]; [by rewrite !sub_nil_len by done|].
  rewrite sub_bwrite_inside by lia. done.
Qed.

(** The state with the extended table, once the first block has made room for it. *)
Lemma wf_extended s h f t entries :
  wf s h f t → zlen t = Header.maxTableEntries h * 4 → locators_before_table h →
  Header.maxTableEntries h < entries →
  (∀ i, allocated t i → Header.tableOffset h + computeBatSize entries ≤ bat_entry t i * SECTOR_SIZE) →
  let h' := Header.with_maxTableEntries entries h in
  let t' := extended t (Header.maxTableEntries h) (computeBatSize entries) in
  let s' := set_blockTable t' (set_header h' s) in
  wf s' h' f t' ∧ disk s' = disk s.
Proof.
  intros Hw Hlt Hloc Hgt Hroom h' t' s'.
  pose proof (wf_ok _ _ _ _ Hw) as Hk. pose proof (wf_placed _ _ _ _ Hw) as Hp.
  pose proof (ho_entries _ Hk).
  pose proof (endOfHeaders_extended h entries Hk Hloc ltac:(lia)) as Hend.
  assert (placed h' t') as Hp'.
  { apply placed_extended; try done. intros i Hi. rewrite Hend. by apply Hroom. }
  assert (wf s' h' f t') as Hw'.
  { split; try done; [apply Hw|destruct Hk; split; unfold h'; cbn in *; try done; lia|].
    intros i Hi%allocated_extended; [|done..]. pose proof (wf_inside _ _ _ _ Hw i Hi) as Hin.
    unfold inside in *. unfold t'. by rewrite bat_entry_extended_allocated. }
  split; [done|]. rewrite (disk_wf _ _ _ _ Hw), (disk_wf _ _ _ _ Hw'). apply map_eq. intros i.
  rewrite !lookup_disk_map by done.
  erewrite (decide_ext _ _ _ _ (allocated_extended h t entries Hk Hp Hgt i)).
  case_decide; [|done]. f_equal. apply (block_at_entry h).
  by apply (bat_entry_extended_allocated h).
Qed.

(** The table that [ensureBatSize] makes, in a buffer that is not filled. *)
Lemma extended_buffer (unsafe : Z → buffer) h t entries :
  zlen t = Header.maxTableEntries h * 4 → 0 ≤ Header.maxTableEntries h →
  Header.maxTableEntries h * 4 ≤ computeBatSize entries →
  (∀ n, 0 ≤ n → zlen (unsafe n) = n) →
  let b := buf_copy (unsafe (computeBatSize entries)) 0 t in
  zlen b = computeBatSize entries ∧
  sub 0 (Header.maxTableEntries h * 4) b = sub 0 (Header.maxTableEntries h * 4) t.
Proof.
  intros Hlt Hge Hle Huns b.
  assert (zlen (unsafe (computeBatSize entries)) = computeBatSize entries) as Hu by (apply Huns; lia).
  split.
  - unfold b, buf_copy. rewrite take_ge by (unfold zlen in *; lia). rewrite zlen_bwrite_in; lia.
  - apply (buf_copy_prefix (computeBatSize entries)); lia.
Qed.

(** C21: on a well-formed VHD file, extending the allocation table when at most
one block has to move ([newBatSize - batSize ≤ fullBlockSize]) and no parent
locator lies after the table keeps the content of every block, adds only
unused entries, and leaves a well-formed file; writing the table afterwards,
as the merge does, makes the file agree with the memory.  Asking for no more
entries than there are does nothing. *)
Theorem ensureBatSize_keeps_blocks unsafe s h f t entries :
  wf s h f t → fu_wf f → fu_wf (Header.with_maxTableEntries entries h) →
  zlen t = Header.maxTableEntries h * 4 → locators_before_table h →
  computeBatSize entries - batSize h ≤ fullBlockSize h → end_sector h t < BLOCK_UNUSED →
  (∀ n, 0 ≤ n → zlen (unsafe n) = n) →
  (entries ≤ Header.maxTableEntries h → returns (ensureBatSize unsafe entries) s tt s) ∧
  (Header.maxTableEntries h < entries →
  ∃ s1 s2 h' f' t',
  returns (ensureBatSize unsafe entries) s tt s1 ∧ wf s1 h' f' t' ∧
  Header.maxTableEntries h' = entries ∧ disk s1 = disk s ∧
  returns writeBlockAllocationTable s1 tt s2 ∧ wf s2 h' f' t' ∧
  disk s2 = disk s ∧ bat_on_disk s2 h' t').
Proof.
  intros Hw Hf Hh Hlt Hloc Hsp He Huns. pose proof (wf_ok _ _ _ _ Hw) as Hk. split.
  { intros Hle. unfold ensureBatSize. eapply returns_bind; [apply returns_header, Hw|].
    rewrite decide_True by lia. apply returns_ret. }
  intros Hgt. pose proof (ho_entries _ Hk).
  pose proof (computeBatSize_mono (Header.maxTableEntries h) entries ltac:(lia)) as Hmono.
  destruct (returns_freeFirst s h f t Hw Hf (computeBatSize entries - batSize h)) as
    (s' & f' & t1 & Hr & Hw1 & Hf' & Hl1 & Hd1 & _ & Hroom); [unfold batSize in *; lia|done|].
  rewrite Hlt in Hl1. pose proof (wf_placed _ _ _ _ Hw1) as Hp1.
  set (h1 := Header.with_maxTableEntries entries h) in *.
  set (t2 := extended t1 (Header.maxTableEntries h) (computeBatSize entries)).
  pose proof (endOfHeaders_extended h entries Hk Hloc ltac:(lia)) as Hend. fold h1 in Hend.
  set (s2 := set_blockTable t2 (set_header h1 s')).
  destruct (wf_extended s' h f' t1 entries Hw1 Hl1 Hloc Hgt) as [Hw2 Hd2].
  { intros i Hi. specialize (Hroom i Hi). lia. }
  fold h1 t2 s2 in Hw2, Hd2.
  set (d := cycle (entries - Header.maxTableEntries h) BUF_BLOCK_UNUSED).
  assert (zlen d = entries - Header.maxTableEntries h) as Hdl.
  { unfold d. rewrite cycle_unused, zlen_zrep by lia. lia. }
  pose proof (ho_table _ Hk) as Htab. unfold FOOTER_SIZE, HEADER_SIZE in Htab.
  pose proof (computeBatSize_covers entries ltac:(lia)) as Hcov.
  destruct (wf_write_outside s2 h1 f' t2 (Header.tableOffset h + zlen t1) d Hw2) as [Hw3 Hd3].
  { split; [lia|left]. rewrite Hend. lia. }
  set (s3 := set_file _ s2) in *.
  destruct (returns_writeHeader s3 h1 f' t2 Hw3 Hh) as (s4 & Hr4 & Hw4 & Hd4 & _).
  destruct (returns_writeBlockAllocationTable s4 _ _ _ Hw4) as (s5 & Hr5 & Hw5 & Hd5 & Hb5).
  exists s4, s5, (checksummed_header h1), f', t2. split_and!; try done.
  - unfold ensureBatSize. eapply returns_bind; [apply returns_header, Hw|].
    rewrite decide_False by lia. eapply returns_bind; [exact Hr|].
    eapply returns_bind; [apply returns_header, Hw1|].
    eapply returns_bind; [apply returns_modify|].
    eapply returns_bind; [apply returns_blockTable, Hw1|].
    eapply returns_bind; [apply returns_modify|].
    destruct (extended_buffer unsafe h t1 entries) as [Hcl Hpre]; [done|lia|lia|done|].
    rewrite Hcl, (cycle_unused (computeBatSize entries - Header.maxTableEntries h * 4)), Hpre by lia.
    fold (extended t1 (Header.maxTableEntries h) (computeBatSize entries)) t2.
    eapply returns_bind; [|exact Hr4].
    apply (returns_write s2). lia.
  - by rewrite Hd4, Hd3, Hd2.
  - by rewrite Hd5, Hd4, Hd3, Hd2.
Qed.
End resize.

(** ** Witness *)

Lemma ensureBatSize_keeps_blocks_witness :
  ∃ s s1 s2 h' f' t', returns (writeEntireBlock (small_block 5)) small_vhd tt s ∧
    returns (@ensureBatSize packed (λ n, zrep n 7) 256) s tt s1 ∧
    returns writeBlockAllocationTable s1 tt s2 ∧ wf s2 h' f' t' ∧
    Header.maxTableEntries h' = 256 ∧
    disk s2 = {[ 5 := zrep 512 255 ++ zrep 1024 5 ]} ∧ bat_on_disk s2 h' t'.
Proof.
  destruct (returns_blockAddrOf small_vhd small_header small_footer small_table 5 small_vhd_wf)
    as (a & sa & ta & _); [split; [discriminate|reflexivity]|apply small_room|].
  destruct (writeEntireBlock_lemma small_vhd small_header small_footer small_table
    small_vhd_wf (small_block 5)) as (s & t & Hr & Hw & Hd & Hb);
    [split; [discriminate|reflexivity]|apply small_room|reflexivity|].
  assert (Some t = Some (set_entry small_table 5 4)) as [= Ht].
  { rewrite <- (wf_table _ _ _ _ Hw).
    assert (snd (writeEntireBlock (small_block 5) small_vhd) = s) as <- by (by rewrite Hr).
    vm_compute. reflexivity. }
  destruct (@ensureBatSize_keeps_blocks packed packed_laws (λ n, zrep n 7) s small_header
    small_footer t 256 Hw) as [_ Hext].
  - apply small_footer_wf.
  - compute_wf.
  - rewrite Ht. vm_compute. reflexivity.
  - unfold locators_before_table. repeat constructor.
  - vm_compute. discriminate.
  - rewrite Ht. vm_compute. reflexivity.
  - intros n Hn. rewrite zlen_zrep. apply Z.max_r, Hn.
  - destruct (Hext ltac:(reflexivity)) as (s1 & s2 & h' & f' & t' & Hr1 & _ & Hm & _ & Hr2 & Hw2 & Hd2 & Hb2).
    exists s, s1, s2, h', f', t'. split; [exact Hr|]. split; [exact Hr1|]. split; [exact Hr2|].
    split; [exact Hw2|]. split; [exact Hm|]. split; [|exact Hb2].
    rewrite Hd2, Hd. reflexivity.
Defined.

(** ** Cases that the code does not handle *)

Section cases.
#[local] Existing Instance packed.

Definition junk (n : Z) : buffer := zrep n 7.

Definition run {A} (m : M VhdFile A) (s : VhdFile) : VhdFile := snd (m s).
Definition result_of {A} (m : M VhdFile A) (s : VhdFile) : result A := fst (m s).

(** The VHD with the blocks 0 and 1. *)
Definition two_blocks : VhdFile :=
  let block i := block_of small_header i (zrep 512 15 ++ zrep 1024 i) in
  run (writeEntireBlock (block 0) ;; writeEntireBlock (block 1)) small_vhd.

(** [ensureBatSize] writes one byte for each new entry instead of four: until the
whole table is written, a block of the file that was never allocated is
present for a reader. *)
Lemma ensureBatSize_table_not_written :
  let s := run (ensureBatSize junk 256 ;; writeFooter false) small_vhd in
  result_of (containsBlock 200) s = Ok false ∧
  result_of (containsBlock 200) (run readBlockAllocationTable s) = Ok true.
Proof. vm_compute. done. Qed.

(** When two blocks should move, the second is not moved and the extended table
is written over it. *)
Lemma freeFirst_overlapped_block :
  let s := run (ensureBatSize junk 640 ;; writeBlockAllocationTable) two_blocks in
  result_of (ensureBatSize junk 640) two_blocks = Ok tt ∧
  b_bitmap <$> result_of (readBlock 1) two_blocks = Ok (zrep 512 15) ∧
  b_bitmap <$> result_of (readBlock 1) s = Ok (zrep 512 255) ∧
  computeBatSize 640 - batSize small_header = 2048 ∧ fullBlockSize small_header = 1536.
Proof. vm_compute. done. Qed.

(** [writeData] asks for one entry too few: writing just after the last block
throws instead of extending the table. *)
Lemma writeData_last_block :
  result_of (writeData junk (128 * 2) (zrep 1024 1)) small_vhd = Throw write_range_error ∨
  result_of (writeData junk (128 * 2) (zrep 1024 1)) small_vhd = Throw read_range_error.
Proof. right. vm_compute. done. Qed.

(** A parent locator that outgrows its space is written over the first block when
this block does not follow the table directly. *)
Definition with_gap : VhdFile :=
  let e := {| platformCode := PLATFORMS_W2KU; platformDataSpace := 1; platformDataLength := 4;
          ple_reserved := 0; platformDataOffset := 2560 |} in
  let h := Header.with_parentLocatorEntry (<[1%nat := e]> (Header.parentLocatorEntry small_header))
  small_header in
  run (writeEntireBlock (small_block 0)) (set_header h small_vhd).

(** A parent locator that outgrows its space is written over the first block
when this block does not follow the table directly. *)
Lemma parentLocator_overwrites_block :
  result_of (readBlock 0) with_gap = Ok (small_block 0) ∧
  result_of (writeParentLocator 0 PLATFORMS_W2KU [1; 2; 3; 4]) with_gap = Ok tt ∧
  let s := run (writeParentLocator 0 PLATFORMS_W2KU [1; 2; 3; 4]) with_gap in
  (take 5 ∘ b_buffer) <$> result_of (readBlock 0) s = Ok [1; 2; 3; 4; 255].
Proof. vm_compute. done. Qed.

(** The table that the header setter makes is padded with zeroes, which
[_freeFirstBlockSpace] takes for a block at sector 0: extending the table of
a new VHD does not succeed. *)
Lemma fresh_table_padding :
  let s := run (assign_header (new_header 4 1536 1024)) (set_footer small_footer (new_VhdFile (zrep 2048 1))) in
  result_of (containsBlock 4) s = Ok true ∧
  (sub 4 4 <$> vf_blockTable s) = Some (zrep 4 255) ∧
  (first <$> (default None (match getFirstAndLastBlocks (default [] (vf_blockTable s)) with
                        | Ok r => Some r | Throw _ => None end))) = Some 4.
Proof. vm_compute. done. Qed.
End cases.
