(* ===== verification/Merge.v ===== *)
(** * Merging a chain of VHDs

    [packages/vhd-lib/merge.js]: the class [Merger], with the [mergeBlock] of
    [VhdAbstract.js] and [VhdDirectory.js].  The first part is the merge of the
    blocks as a transition system: the steps of the concurrent block merges,
    the writes of the merge state, and a crash of the process at any point. *)

From Stdlib Require Import Sorting.Sorted.
From S2P Require Import Prelude.

(** ** Data *)

(** How a block reaches the parent: written in a [VhdFile] (the table of the file
    is updated with the block), written in a [VhdDirectory] by the inherited
    [mergeBlock] (the table is updated in memory only), or moved from a
    [VhdDirectory] to another one. *)
Inductive mode := FileCopy | DirCopy | DirMove.

Inductive merge_step := MergeBlocks | CleanupVhds.

(** [#state]: what the merge state file holds. *)
Record MergeState := mkState {
  currentBlock : Z;
  mergedDataSize : Z;
  ms_step : merge_step;
}.

(** What survives a crash: the blocks of the parent, its table, the blocks of the
    child.  A block is represented by its stored content.  Of the table of a file,
    the entries that are stray: they have an address, which is not that of a block;
    and whether it is as long as the child's. *)
Record storage := mkStorage {
  st_blocks : gmap Z (list Z);
  st_bat : gset Z;
  st_child : gmap Z (list Z);
  st_stray : gset Z;
  st_grown : bool;
}.

(** What the growth of the table of a file does, from its layout ([ensureBatSize] of
    [VhdFile.v]): the blocks it overwrites, the new entries for which the file says
    something else than unused; and what a block written at a stray address
    overwrites. *)
Record Growth := mkGrowth {
  overwritten : gset Z;
  stray : gset Z;
  overlap : Z → gset Z;
  garbled : Z → list Z → list Z;
}.

(** Where the merge of one block is: [Renamed] is between the rename of the block
    and the write of the table of a [VhdDirectory]. *)
Inductive phase :=
  | Started
  | Renamed
  | Applied (size : Z).

(** A running [Merger]: [r_merging] gives, for each block of the set [merging],
    the value of [mergedDataSize] read by [+=] before its [await]. *)
Record run := mkRun {
  r_state : MergeState;
  r_resuming : bool;
  r_bat : gset Z;                       (* the table of the parent, in memory *)
  r_queue : list Z;                     (* what is left of [toMerge] *)
  r_merging : gmap Z (Z * phase);
  r_stray : gset Z;                     (* the stray entries of that table *)
}.

Record world := mkWorld {
  w_storage : storage;
  w_file : option MergeState;           (* the merge state file *)
  w_run : option run;
}.

(** ** The merger *)

Section merger.
Context (m : mode) (concurrency : nat) (g : Growth).
(** [childVhd.header.maxTableEntries], the table of the child, [fullBlockSize]
  and the size on disk of a stored block. *)
Context (maxTableEntries : Z) (childBat : gset Z) (fullBlockSize : Z) (sizeOnDisk : list Z → Z).

(** [while (currentBlock < maxTableEntries && !childVhd.containsBlock(currentBlock))] *)
Fixpoint first_allocated (fuel : nat) (block : Z) : Z :=
  match fuel with
  | O => block
  | S fuel =>
      if bool_decide (block < maxTableEntries) && negb (bool_decide (block ∈ childBat))
      then first_allocated fuel (block + 1) else block
  end.

Definition initial_state : MergeState :=
  mkState (first_allocated (Z.to_nat maxTableEntries) 0) 0 MergeBlocks.

Definition toMerge (st : MergeState) : list Z :=
  filter (λ b, b ∈ childBat) (zrange (currentBlock st) maxTableEntries).

Definition damage (bs : gset Z) (blocks : gmap Z (list Z)) : gmap Z (list Z) :=
  map_imap (λ b block, Some (if bool_decide (b ∈ bs) then garbled g b block else block)) blocks.

(** [parentVhd.ensureBatSize(childVhd.header.maxTableEntries)]: there is nothing to do
  in a directory. *)
Definition ensureBatSize (s : storage) : storage :=
  match m with
  | FileCopy =>
      if st_grown s then s
      else mkStorage (damage (overwritten g) (st_blocks s)) (st_bat s ∪ stray g) (st_child s) (stray g) true
  | _ => s
  end.

(** The start of [merge()]: without a state, the table of the parent is extended, in
  memory with unused entries, and a new state is written; with one, the table is read
  again. *)
Definition launch (w : world) : option world :=
  match w_run w with
  | Some _ => None
  | None =>
      let s := w_storage w in
      let '(st, resuming, s') := match w_file w with
                                 | Some st => (st, true, s)
                                 | None => (initial_state, false, ensureBatSize s)
                                 end in
      match ms_step st with
      | CleanupVhds => None
      | MergeBlocks =>
          Some (mkWorld s' (Some st)
            (Some (mkRun st resuming (st_bat s) (toMerge st) ∅ (st_stray s))))
      end
  end.

(** [asyncEach] calls the iteratee on the next block. *)
Definition start (r : run) : option run :=
  match r_queue r with
  | [] => None
  | b :: q =>
      if bool_decide (size (r_merging r) < concurrency)%nat then
        Some (mkRun (r_state r) (r_resuming r) (r_bat r) q
               (<[b := (mergedDataSize (r_state r), Started)]> (r_merging r)) (r_stray r))
      else None
  end.

Definition set_phase (b : Z) (c : Z) (p : phase) (bat : gset Z) (r : run) : run :=
  mkRun (r_state r) (r_resuming r) bat (r_queue r) (<[b := (c, p)]> (r_merging r)) (r_stray r).

(** [VhdAbstract.mergeBlock]; where a table with stray entries says to write can be in
  other blocks.  The entry of a block is written when it had none. *)
Definition copy_block (b c : Z) (s : storage) (r : run) : option (storage * run) :=
  block ← st_child s !! b;
  let size := if bool_decide (b ∈ r_bat r) then 0 else fullBlockSize in
  let bat := match m with FileCopy => {[b]} ∪ st_bat s | _ => st_bat s end in
  let hit := if bool_decide (r_stray r = ∅) then ∅ else overlap g b in
  let stray := if bool_decide (b ∈ r_bat r) then st_stray s else st_stray s ∖ {[b]} in
  Some (mkStorage (<[b := block]> (damage hit (st_blocks s))) bat (st_child s) stray (st_grown s),
        set_phase b c (Applied size) ({[b]} ∪ r_bat r) r).

(** [VhdDirectory.mergeBlock] after a rename that failed because the block is
  missing. *)
Definition recover_block (b c initialSize : Z) (s : storage) (r : run) : option (storage * run) :=
  if r_resuming r then
    block ← st_blocks s !! b;
    Some (s, set_phase b c (Applied (sizeOnDisk block - initialSize)) ({[b]} ∪ r_bat r) r)
  else None.

Definition move_block (b c : Z) (s : storage) (r : run) : option (storage * run) :=
  let blockExists := bool_decide (b ∈ r_bat r) in
  match (if blockExists then sizeOnDisk <$> st_blocks s !! b else Some 0) with
  | None => recover_block b c 0 s r
  | Some initialSize =>
      match st_child s !! b with
      | None => recover_block b c initialSize s r
      | Some block =>
          let s' := mkStorage (<[b := block]> (st_blocks s)) (st_bat s) (delete b (st_child s)) (st_stray s) (st_grown s) in
          Some (s', if blockExists
                    then set_phase b c (Applied (sizeOnDisk block - initialSize)) (r_bat r) r
                    else set_phase b c Renamed (r_bat r) r)
      end
  end.

(** The next effect of the merge of block [b]; [None]: it throws. *)
Definition advance (b : Z) (s : storage) (r : run) : option (storage * run) :=
  '(c, p) ← r_merging r !! b;
  match p with
  | Started => match m with DirMove => move_block b c s r | _ => copy_block b c s r end
  | Renamed =>
      (* setBitmap, writeBlockAllocationTable, then the size on disk *)
      block ← st_blocks s !! b;
      let bat := {[b]} ∪ r_bat r in
      Some (mkStorage (st_blocks s) bat (st_child s) (st_stray s) (st_grown s),
            set_phase b c (Applied (sizeOnDisk block)) bat r)
  | Applied _ => None
  end.

(** [Math.min(...merging)], for a set that holds [b]. *)
Definition min_merging (b : Z) (merging : gmap Z (Z * phase)) : Z :=
  foldr Z.min b (map_to_list merging).*1.

(** What follows the [await] in the iteratee. *)
Definition finish (b : Z) (r : run) : option run :=
  '(c, p) ← r_merging r !! b;
  match p with
  | Applied size =>
      Some (mkRun (mkState (min_merging b (r_merging r)) (c + size) (ms_step (r_state r)))
             (r_resuming r) (r_bat r) (r_queue r) (delete b (r_merging r)) (r_stray r))
  | _ => None
  end.

(** All the blocks are merged: the table is written ([#updateHeaders]) and the
  state file goes to the next step ([#step_cleanVhds]). *)
Definition complete (w : world) (r : run) : option world :=
  if bool_decide (r_queue r = []) && bool_decide (r_merging r = ∅) then
    let s := w_storage w in
    Some (mkWorld (mkStorage (st_blocks s) (r_bat r) (st_child s) (r_stray r) (st_grown s))
           (Some (mkState (currentBlock (r_state r)) (mergedDataSize (r_state r)) CleanupVhds)) None)
  else None.

(** [EGrow]: the process dies once the table is extended, before the state is written. *)
Inductive event :=
  | EGrow | ELaunch | EStart | EAdvance (b : Z) | EFinish (b : Z)
  | EPersist | EComplete | ECrash.

Definition exec (e : event) (w : world) : option world :=
  match e with
  | EGrow =>
      match w_run w, w_file w with
      | None, None => Some (mkWorld (ensureBatSize (w_storage w)) None None)
      | _, _ => None
      end
  | ELaunch => launch w
  | ECrash => Some (mkWorld (w_storage w) (w_file w) None)
  | EStart =>
      r ← w_run w; r' ← start r; Some (mkWorld (w_storage w) (w_file w) (Some r'))
  | EAdvance b =>
      r ← w_run w; '(s', r') ← advance b (w_storage w) r;
      Some (mkWorld s' (w_file w) (Some r'))
  | EFinish b =>
      r ← w_run w; r' ← finish b r; Some (mkWorld (w_storage w) (w_file w) (Some r'))
  | EPersist =>
      r ← w_run w; Some (mkWorld (w_storage w) (Some (r_state r)) (Some r))
  | EComplete => r ← w_run w; complete w r
  end.

Fixpoint exec_all (es : list event) (w : world) : option world :=
  match es with
  | [] => Some w
  | e :: es => w' ← exec e w; exec_all es w'
  end.

(** One step of the system. *)
Inductive step : world → world → Prop :=
  | step_event e w w' : exec e w = Some w' → step w w'.

(** ** The invariant *)

(** At the beginning: the blocks and the table of the parent, and the blocks of
  the child. *)
Context (blocks0 : gmap Z (list Z)) (bat0 : gset Z) (child0 : gmap Z (list Z)) (grown0 : bool).
Context (Hchild : ∀ b, b ∈ childBat ↔ is_Some (child0 !! b)).
Context (Hrange : ∀ b, b ∈ childBat → 0 ≤ b < maxTableEntries).

Definition initial_world : world := mkWorld (mkStorage blocks0 bat0 child0 ∅ grown0) None None.

(** The table does not have to grow, or its growth is without harm (as with the
  hypotheses of [ensureBatSize_keeps_blocks] of [VhdResize.v], over a file that has no
  address where the table grows). *)
Definition harmless : Prop := m = FileCopy → grown0 = false → overwritten g = ∅ ∧ stray g = ∅.

(** The content of block [b] of the child is in the parent. *)
Definition merged (s : storage) (b : Z) : Prop :=
  harmless → st_blocks s !! b = child0 !! b ∧ (m = FileCopy → b ∈ st_bat s).

(** Every block before the one that the state records is merged. *)
Definition sound_state (s : storage) (st : MergeState) : Prop :=
  match ms_step st with
  | MergeBlocks => ∀ b, b ∈ childBat → b < currentBlock st → merged s b
  | CleanupVhds => ∀ b, b ∈ childBat → merged s b
  end.

Record storage_ok (s : storage) : Prop := {
  so_others b : harmless → b ∉ childBat → st_blocks s !! b = blocks0 !! b;
  so_child b : b ∈ childBat →
    st_child s !! b = child0 !! b ∨ m = DirMove ∧ st_child s !! b = None ∧ merged s b;
  so_bat : harmless → bat0 ⊆ st_bat s ∧ st_bat s ⊆ childBat ∪ bat0;
  so_stray : harmless → st_stray s = ∅;
  so_grown : grown0 = true → st_grown s = true;
}.

Record run_ok (s : storage) (r : run) : Prop := {
  ro_state : sound_state s (r_state r);
  ro_step : ms_step (r_state r) = MergeBlocks;
  ro_queue b : b ∈ r_queue r → b ∈ childBat;
  ro_merging b c p : r_merging r !! b = Some (c, p) → b ∈ childBat ∧ (p ≠ Started → merged s b);
  ro_order b q : is_Some (r_merging r !! b) → q ∈ r_queue r → b < q;
  ro_sorted : StronglySorted Z.lt (r_queue r);
  ro_all b : b ∈ childBat → b ∈ r_queue r ∨ is_Some (r_merging r !! b) ∨ merged s b;
  ro_bat : harmless → st_bat s ⊆ r_bat r ∧ r_bat r ⊆ childBat ∪ bat0 ∧ (m = FileCopy → r_bat r = st_bat s);
  ro_stray : harmless → r_stray r = ∅;
}.

Record world_ok (w : world) : Prop := {
  wo_storage : storage_ok (w_storage w);
  wo_file st : w_file w = Some st → sound_state (w_storage w) st;
  wo_run r : w_run w = Some r → run_ok (w_storage w) r;
}.

(** *** Preservation *)

(** [s'] may only have more blocks of the child than [s]. *)
Definition extends (s s' : storage) : Prop := harmless →
  (∀ b, st_blocks s' !! b = st_blocks s !! b ∨ st_blocks s' !! b = child0 !! b) ∧
  st_bat s ⊆ st_bat s'.

Lemma extends_refl s : extends s s.
Proof. intros _. split; [by left|done]. Qed.

Lemma merged_extends s s' b : extends s s' → merged s b → merged s' b.
Proof.
  intros He Hs Hh. destruct (He Hh) as [Hb Hbat], (Hs Hh) as [Hm Hf]. split; [|by intros ?%Hf%Hbat].
  destruct (Hb b) as [->| ->]; done.
Qed.

Lemma sound_extends s s' st : extends s s' → sound_state s st → sound_state s' st.
Proof.
  intros He. unfold sound_state. destruct (ms_step st); eauto using merged_extends.
Qed.

(** A phase that changes while the storage grows. *)
Lemma run_ok_set_phase s s' r b c p0 p bat :
  run_ok s r → r_merging r !! b = Some (c, p0) → extends s s' →
  (p ≠ Started → merged s' b) →
  (harmless → st_bat s' ⊆ bat ∧ bat ⊆ childBat ∪ bat0 ∧ (m = FileCopy → bat = st_bat s')) →
  run_ok s' (set_phase b c p bat r).
Proof.
  intros [] Hb He Hm Hbat. split; cbn; try done.
  - by eapply sound_extends.
  - intros x c' p'. destruct (decide (x = b)) as [->|].
    + rewrite lookup_insert_eq. intros [= <- <-]. split; [|done]. by eapply ro_merging0.
    + rewrite lookup_insert_ne by done. intros Hx. destruct (ro_merging0 x c' p' Hx) as [? Hmx].
      split; [done|]. intros ?. eapply merged_extends; eauto.
  - intros x q Hx Hq. apply ro_order0; [|done]. destruct (decide (x = b)) as [->|]; [by eexists|].
    by rewrite lookup_insert_ne in Hx.
  - intros x Hx. destruct (ro_all0 x Hx) as [|[Hi|]]; [by left| |].
    + right; left. destruct (decide (x = b)) as [->|]; [rewrite lookup_insert_eq; by eexists|].
      by rewrite lookup_insert_ne.
    + right; right. by eapply merged_extends.
Qed.

(** What is harmless damages nothing. *)
Lemma damage_none blocks : damage ∅ blocks = blocks.
Proof. unfold damage. apply map_eq. intros x. rewrite map_lookup_imap. by destruct (blocks !! x). Qed.

Lemma damage_some bs blocks x : is_Some (damage bs blocks !! x) ↔ is_Some (blocks !! x).
Proof.
  unfold damage. rewrite map_lookup_imap. destruct (blocks !! x); cbn; [|done]. split; intros _; by eexists.
Qed.

Lemma not_a_file : m ≠ FileCopy → harmless.
Proof. by intros ? ?. Qed.

Lemma ensureBatSize_child s : st_child (ensureBatSize s) = st_child s.
Proof. unfold ensureBatSize. destruct m; [|done..]. by destruct (st_grown s). Qed.

Lemma ensureBatSize_harmless s :
  storage_ok s → harmless → st_blocks (ensureBatSize s) = st_blocks s ∧ st_bat (ensureBatSize s) = st_bat s ∧ st_stray (ensureBatSize s) = ∅.
Proof.
  intros Hs Hh. pose proof (so_stray _ Hs Hh) as Hst. unfold ensureBatSize. destruct m eqn:Em; [|done..].
  destruct (st_grown s) eqn:E; [done|]. destruct (Hh Em) as [-> ->].
  { destruct grown0 eqn:Eg; [|done]. by rewrite (so_grown _ Hs Eg) in E. }
  cbn. rewrite damage_none. split_and!; [done| |done]. apply (right_id_L ∅ (∪)).
Qed.

(** Block [b] of the child is written in the parent; [blocks] is what is left of the others. *)
Lemma extends_insert s b block blocks bat child stray grown :
  (harmless → blocks = st_blocks s) → child0 !! b = Some block → (harmless → st_bat s ⊆ bat) →
  extends s (mkStorage (<[b := block]> blocks) bat child stray grown).
Proof.
  intros Hbl Hc Hbat Hh. rewrite (Hbl Hh). split; [|by apply Hbat]. intros x. cbn. destruct (decide (x = b)) as [->|].
  - right. by rewrite lookup_insert_eq.
  - left. by rewrite lookup_insert_ne.
Qed.

Lemma child_block s b block :
  storage_ok s → b ∈ childBat → st_child s !! b = Some block → child0 !! b = Some block.
Proof. intros Hs Hb Hc. destruct (so_child _ Hs b Hb) as [<-|(_ & Hn & _)]; congruence. Qed.

Lemma storage_ok_insert s b block blocks bat child stray :
  (harmless → blocks = st_blocks s) → storage_ok s → b ∈ childBat → child0 !! b = Some block →
  (harmless → st_bat s ⊆ bat) → (harmless → bat ⊆ childBat ∪ bat0) →
  (m = FileCopy → b ∈ bat) → stray ⊆ st_stray s →
  child = st_child s ∨ m = DirMove ∧ child = delete b (st_child s) →
  storage_ok (mkStorage (<[b := block]> blocks) bat child stray (st_grown s)).
Proof.
  intros Hbl Hs Hb Hc Hsub Hbat Hin Hstray Hchild'.
  assert (extends s (mkStorage (<[b := block]> blocks) bat child stray (st_grown s))) as He
    by by apply extends_insert.
  destruct Hs as [Ho Hch Hba Hst Hgr]. split; cbn; [| | | |done].
  - intros x Hh Hx. rewrite (Hbl Hh), lookup_insert_ne by congruence. by apply Ho.
  - intros x Hx. destruct Hchild' as [->|[Hm ->]].
    + destruct (Hch x Hx) as [|(? & ? & ?)]; [by left|right]. split_and!; [done..|].
      by eapply merged_extends.
    + destruct (decide (x = b)) as [->|].
      * right. split_and!; [done|by rewrite lookup_delete_eq|]. intros Hh. split; cbn; [|done].
        by rewrite lookup_insert_eq.
      * rewrite lookup_delete_ne by done.
        destruct (Hch x Hx) as [|(? & ? & ?)]; [by left|right]. split_and!; [done..|].
        by eapply merged_extends.
  - intros Hh. destruct (Hba Hh). split; [|by apply Hbat]. specialize (Hsub Hh). set_solver.
  - intros Hh. specialize (Hst Hh). set_solver.
Qed.

Lemma merged_insert blocks b block bat child stray grown :
  child0 !! b = Some block → (m = FileCopy → b ∈ bat) →
  merged (mkStorage (<[b := block]> blocks) bat child stray grown) b.
Proof. intros Hc Hb _. split; cbn; [by rewrite lookup_insert_eq|done]. Qed.

Lemma copy_block_ok b c p0 s r s' r' :
  storage_ok s → run_ok s r → r_merging r !! b = Some (c, p0) →
  copy_block b c s r = Some (s', r') → storage_ok s' ∧ extends s s' ∧ run_ok s' r'.
Proof.
  intros Hs Hr Hb Hc. pose proof Hr as [_ _ _ Hmg _ _ _ Hbat Hstray].
  pose proof (Hmg b c p0 Hb) as [Hcb _]. unfold copy_block in Hc.
  destruct (st_child s !! b) as [block|] eqn:Hblk; [|done]. injection Hc as <- <-.
  pose proof (child_block _ _ _ Hs Hcb Hblk) as Hc0. pose proof (so_bat _ Hs) as Hba.
  set (bat := match m with FileCopy => _ | _ => _ end).
  set (hit := if bool_decide (r_stray r = ∅) then ∅ else overlap g b).
  set (stray' := if bool_decide (b ∈ r_bat r) then _ else _).
  assert (harmless → damage hit (st_blocks s) = st_blocks s) as Hbl.
  { intros Hh. unfold hit. rewrite bool_decide_eq_true_2 by (by apply Hstray). apply damage_none. }
  assert (harmless → st_bat s ⊆ bat ∧ bat ⊆ {[b]} ∪ r_bat r ∧ {[b]} ∪ r_bat r ⊆ childBat ∪ bat0 ∧
    (m = FileCopy → {[b]} ∪ r_bat r = bat)) as Hx.
  { intros Hh. destruct (Hbat Hh) as (Hb1 & Hb2 & Hb3), (Hba Hh) as [Hba1 Hba2].
    unfold bat. clear - Hb1 Hb2 Hb3 Hba2 Hcb. destruct m; [rewrite Hb3 by done| |];
      split_and!; set_solver. }
  assert (m = FileCopy → b ∈ bat) as Hin by (intros E; unfold bat; rewrite E; clear; set_solver).
  assert (harmless → st_bat s ⊆ bat) as Hsub by (intros Hh; apply (Hx Hh)).
  split_and!.
  - apply storage_ok_insert; try done; [| |by left].
    + intros Hh. destruct (Hx Hh) as (_ & ? & ? & _). by etrans.
    + unfold stray'. case_bool_decide; [done|clear; set_solver].
  - by apply extends_insert.
  - eapply run_ok_set_phase; [exact Hr|exact Hb|by apply extends_insert| |].
    + intros _. by apply merged_insert.
    + intros Hh. destruct (Hx Hh) as (? & ? & ? & ?). done.
Qed.

Lemma recover_block_ok b c p0 i s r s' r' :
  m = DirMove → storage_ok s → run_ok s r → r_merging r !! b = Some (c, p0) →
  (st_child s !! b = None) → recover_block b c i s r = Some (s', r') →
  storage_ok s' ∧ extends s s' ∧ run_ok s' r'.
Proof.
  intros Hmode Hs Hr Hb Hn Hc. unfold recover_block in Hc.
  destruct (r_resuming r); [|done]. destruct (st_blocks s !! b) as [block|] eqn:Hblk; [|done].
  injection Hc as <- <-. pose proof Hr as [_ _ _ Hmg _ _ _ Hbat _].
  destruct (Hbat (not_a_file ltac:(congruence))) as (Hb1 & Hb2 & Hb3).
  pose proof (Hmg b c p0 Hb) as [Hcb _].
  split_and!; [done|apply extends_refl|].
  eapply run_ok_set_phase; [exact Hr|exact Hb|apply extends_refl| |].
  2: { intros _. clear - Hb1 Hb2 Hcb Hmode. split_and!; [set_solver..|congruence]. }
  intros _. destruct (so_child _ Hs b Hcb) as [Hx|(_ & _ & ?)]; [|done].
  rewrite Hn in Hx. apply Hchild in Hcb as [y Hy]. congruence.
Qed.

Lemma move_block_ok b c p0 s r s' r' :
  m = DirMove → storage_ok s → run_ok s r → r_merging r !! b = Some (c, p0) →
  move_block b c s r = Some (s', r') →
  storage_ok s' ∧ extends s s' ∧ run_ok s' r'.
Proof.
  intros Hmode Hs Hr Hb Hc. pose proof Hr as [_ _ _ Hmg _ _ _ Hbat _].
  assert harmless as Hh by (apply not_a_file; congruence). destruct (Hbat Hh) as (Hb1 & Hb2 & Hb3).
  pose proof (Hmg b c p0 Hb) as [Hcb _]. destruct (so_bat _ Hs Hh) as [Hba1 Hba2].
  unfold move_block in Hc.
  assert (∃ i, (if bool_decide (b ∈ r_bat r) then sizeOnDisk <$> st_blocks s !! b else Some 0) = Some i)
    as [i Hi].
  { destruct (st_blocks s !! b) as [x|] eqn:Hx; [case_bool_decide; by eexists|].
    case_bool_decide; [|by eexists]. cbn in Hc. unfold recover_block in Hc. rewrite Hx in Hc.
    by destruct (r_resuming r). }
  rewrite Hi in Hc. destruct (st_child s !! b) as [block|] eqn:Hblk;
    [|by eapply recover_block_ok].
  injection Hc as <- <-. pose proof (child_block _ _ _ Hs Hcb Hblk) as Hc0.
  assert (m = FileCopy → b ∈ st_bat s) as Hin by congruence.
  split_and!.
  - apply storage_ok_insert; try done. by right.
  - by apply extends_insert.
  - case_bool_decide; (eapply run_ok_set_phase; [exact Hr|exact Hb| | |]);
      try (by apply extends_insert); try (intros _; by apply merged_insert);
      (intros _; clear - Hb1 Hb2 Hcb Hmode; split_and!; [set_solver..|congruence]).
Qed.

Lemma advance_ok b s r s' r' :
  storage_ok s → run_ok s r → advance b s r = Some (s', r') →
  storage_ok s' ∧ extends s s' ∧ run_ok s' r'.
Proof.
  intros Hs Hr Ha. unfold advance in Ha.
  destruct (r_merging r !! b) as [[c p]|] eqn:Hb; [|done]. cbn in Ha.
  pose proof Hr as [_ _ _ Hmg _ _ _ Hbat _].
  destruct (Hmg b c p Hb) as [Hcb Hm].
  destruct p.
  - destruct m eqn:Em; [by eapply copy_block_ok..|by eapply move_block_ok].
  - destruct (st_blocks s !! b) as [block|] eqn:Hblk; [|done]. injection Ha as <- <-.
    assert (merged s b) as Hms by (by apply Hm).
    assert (extends s (mkStorage (st_blocks s) ({[b]} ∪ r_bat r) (st_child s) (st_stray s) (st_grown s))) as He.
    { intros Hh. destruct (Hbat Hh) as (Hb1 & _). split; [by left|cbn; clear - Hb1; set_solver]. }
    split_and!; [|done|].
    + destruct Hs as [Ho Hch Hba Hst Hgr]. split; cbn; [done| | |done..].
      2: { intros Hh. destruct (Hbat Hh) as (Hb1 & Hb2 & _), (Hba Hh) as [Hba1 _]. clear - Hba1 Hb1 Hb2 Hcb. set_solver. }
      intros x Hx. destruct (Hch x Hx) as [|(? & ? & ?)]; [by left|right].
      split_and!; [done..|by eapply merged_extends].
    + eapply run_ok_set_phase; [exact Hr|exact Hb|done| |].
      * intros _. by eapply merged_extends.
      * intros Hh. destruct (Hbat Hh) as (_ & Hb2 & _). clear - Hb2 Hcb. cbn. split_and!; [done|set_solver|done].
  - done.
Qed.

Lemma start_ok s r r' : run_ok s r → start r = Some r' → run_ok s r'.
Proof.
  intros Hr Hs. unfold start in Hs. destruct (r_queue r) as [|b q] eqn:Hq; [done|].
  case_bool_decide; [|done]. injection Hs as <-.
  destruct Hr as [Hst Hstep Hqu Hmg Hord Hsort Hall Hbat Hstray]. rewrite Hq in *.
  apply StronglySorted_inv in Hsort as [Hsort Hlt]. rewrite Forall_forall in Hlt.
  split; cbn; try done.
  - intros x Hx. apply Hqu. by apply elem_of_cons; right.
  - intros x c p. destruct (decide (x = b)) as [->|].
    + rewrite lookup_insert_eq. intros [= <- <-]. split; [|done]. apply Hqu.
      apply elem_of_cons. by left.
    + rewrite lookup_insert_ne by done. apply Hmg.
  - intros x y Hx Hy. destruct (decide (x = b)) as [->|]; [by apply Hlt|].
    rewrite lookup_insert_ne in Hx by done. apply Hord; [done|]. apply elem_of_cons. by right.
  - intros x Hx. destruct (decide (x = b)) as [->|].
    + right; left. rewrite lookup_insert_eq. by eexists.
    + rewrite lookup_insert_ne by done. destruct (Hall x Hx) as [Hin|]; [|by right].
      apply elem_of_cons in Hin as [|]; [done|by left].
Qed.

Lemma min_merging_le b (mg : gmap Z (Z * phase)) x :
  is_Some (mg !! x) → min_merging b mg ≤ x.
Proof.
  intros [y Hy]. unfold min_merging.
  assert (x ∈ (map_to_list mg).*1) as Hin.
  { apply list_elem_of_fmap. exists (x, y). split; [done|]. by apply elem_of_map_to_list. }
  revert Hin. generalize (map_to_list mg).*1. intros l Hin.
  induction l as [|z l IH]; [by apply elem_of_nil in Hin|].
  cbn. apply elem_of_cons in Hin as [->|Hin]; [lia|]. specialize (IH Hin). lia.
Qed.

Lemma min_merging_in b (mg : gmap Z (Z * phase)) :
  is_Some (mg !! b) → is_Some (mg !! min_merging b mg).
Proof.
  intros Hb. unfold min_merging.
  assert (Forall (λ x, is_Some (mg !! x)) (map_to_list mg).*1) as Hf.
  { apply Forall_forall. intros x ([y z] & -> & Hin)%list_elem_of_fmap.
    apply elem_of_map_to_list in Hin. by eexists. }
  induction Hf as [|x l Hx _ IH]; [done|]. cbn.
  by destruct (Z.min_dec x (foldr Z.min b l)) as [-> | ->].
Qed.

Lemma finish_ok b s r r' : run_ok s r → finish b r = Some r' → run_ok s r'.
Proof.
  intros Hr Hf. unfold finish in Hf.
  destruct (r_merging r !! b) as [[c p]|] eqn:Hb; [|done]. cbn in Hf.
  destruct p as [| |sz]; [done|done|]. injection Hf as <-.
  destruct Hr as [Hst Hstep Hqu Hmg Hord Hsort Hall Hbat Hstray].
  destruct (Hmg b c _ Hb) as [Hcb Hm]. split; cbn; try done.
  - unfold sound_state in *. rewrite Hstep in *. cbn. intros x Hx Hlt.
    destruct (Hall x Hx) as [Hin|[Hin|]]; [| |done].
    + destruct (min_merging_in b (r_merging r)) as [y Hy]; [by eexists|].
      pose proof (Hord (min_merging b (r_merging r)) x ltac:(by eexists) Hin). lia.
    + pose proof (min_merging_le b _ _ Hin). lia.
  - intros x c' p'. rewrite lookup_delete_Some. intros [_ Hx]. by eapply Hmg.
  - intros x y [z Hx] Hy. apply lookup_delete_Some in Hx as [_ Hx]. apply Hord; [by eexists|done].
  - intros x Hx. destruct (decide (x = b)) as [->|]; [right; right; by apply Hm|].
    rewrite lookup_delete_ne by done. by apply Hall.
Qed.

Lemma toMerge_sorted st : StronglySorted Z.lt (toMerge st).
Proof.
  unfold toMerge. set (f := λ b, b ∈ childBat).
  assert (∀ n a, StronglySorted Z.lt (filter f (seqZ a (Z.of_nat n)))) as H.
  { induction n as [|n IH]; intros a.
    - rewrite seqZ_nil by done. constructor.
    - rewrite seqZ_cons by lia. replace (Z.pred (Z.of_nat (S n))) with (Z.of_nat n) by lia.
      cbn. case_decide; [|apply IH]. constructor; [apply IH|].
      apply Forall_forall. intros x [_ Hx]%list_elem_of_filter. apply elem_of_seqZ in Hx. lia. }
  unfold zrange. destruct (decide (maxTableEntries - currentBlock st ≤ 0)).
  - rewrite seqZ_nil by done. constructor.
  - rewrite <- (Z2Nat.id (maxTableEntries - currentBlock st)) by lia. apply H.
Qed.

Lemma first_allocated_none fuel a b :
  a ≤ b → b < first_allocated fuel a → b ∉ childBat.
Proof.
  revert a. induction fuel as [|fuel IH]; intros a Hab Hlt; cbn in Hlt; [lia|].
  destruct (bool_decide (a < maxTableEntries)) eqn:E1; cbn in Hlt; [|lia].
  destruct (bool_decide (a ∈ childBat)) eqn:E2; cbn in Hlt; [lia|].
  apply bool_decide_eq_false_1 in E2. destruct (decide (a = b)) as [->|]; [done|].
  apply (IH (a + 1)); [lia|done].
Qed.

Lemma initial_state_sound s : sound_state s initial_state.
Proof.
  unfold sound_state, initial_state. cbn. intros b Hb Hlt. exfalso.
  pose proof (Hrange b Hb). by eapply (first_allocated_none _ 0 b); [lia|exact Hlt|].
Qed.

(** The table in memory is that of a storage [s0] from which [s] comes. *)
Lemma launch_run_ok s s0 st r :
  sound_state s st → ms_step st = MergeBlocks →
  (harmless → st_bat s0 = st_bat s ∧ st_bat s ⊆ childBat ∪ bat0 ∧ st_stray s0 = ∅) →
  run_ok s (mkRun st r (st_bat s0) (toMerge st) ∅ (st_stray s0)).
Proof.
  intros Hst Hstep Hb. split; cbn; try done; try (intros Hh; destruct (Hb Hh) as (E1 & ? & E3); rewrite ?E1; by split_and?).
  - clear Hb. intros b Hb. by apply list_elem_of_filter in Hb as [? _].
  - intros b q [? Hb']. by rewrite lookup_empty in Hb'.
  - apply toMerge_sorted.
  - clear Hb. intros b Hb. destruct (decide (b < currentBlock st)).
    + right; right. unfold sound_state in Hst. rewrite Hstep in Hst. by apply Hst.
    + left. apply list_elem_of_filter. split; [done|]. apply elem_of_zrange.
      pose proof (Hrange b Hb). lia.
Qed.

Lemma complete_ok w r w' :
  world_ok w → w_run w = Some r → complete w r = Some w' →
  world_ok w' ∧ w_run w' = None ∧ extends (w_storage w) (w_storage w').
Proof.
  intros [Hs Hf Hr] Hw Hc. unfold complete in Hc. specialize (Hr r Hw).
  destruct (bool_decide (r_queue r = [])) eqn:Hq; [|done].
  destruct (bool_decide (r_merging r = ∅)) eqn:Hm; [|done]. injection Hc as <-.
  apply bool_decide_eq_true_1 in Hq, Hm.
  destruct Hr as [_ _ _ _ _ _ Hall Hbat Hstray].
  set (s' := mkStorage _ _ _ _ _).
  assert (extends (w_storage w) s') as He by (intros Hh; split; [by left|apply (Hbat Hh)]).
  split_and!; [|done|done]. split; cbn.
  - destruct Hs as [Ho Hch Hba Hst Hgr]. split; cbn; [done| | |done..].
    2: { intros Hh. destruct (Hbat Hh) as (? & ? & _), (Hba Hh). split; [by etrans|done]. }
    intros x Hx. destruct (Hch x Hx) as [|(? & ? & ?)]; [by left|right].
    split_and!; [done..|by eapply merged_extends].
  - intros st [= <-]. unfold sound_state. cbn. intros b Hb.
    destruct (Hall b Hb) as [Hin|[[? Hin]|Hmg]].
    + rewrite Hq in Hin. by apply elem_of_nil in Hin.
    + by rewrite Hm, lookup_empty in Hin.
    + by eapply merged_extends.
  - done.
Qed.

Lemma ensureBatSize_ok s : storage_ok s → storage_ok (ensureBatSize s).
Proof.
  intros Hs. pose proof (ensureBatSize_harmless s Hs) as He. pose proof Hs as [Ho Hch Hba Hst Hgr]. split.
  - intros b Hh. destruct (He Hh) as (-> & _ & _). by apply Ho.
  - rewrite ensureBatSize_child. intros b Hb. destruct (Hch b Hb) as [|(? & ? & Hm)]; [by left|]. right. split_and!; [done..|].
    intros Hh. destruct (He Hh) as (-> & -> & _). by apply Hm.
  - intros Hh. destruct (He Hh) as (_ & -> & _). by apply Hba.
  - intros Hh. apply (He Hh).
  - intros Hg. specialize (Hgr Hg). unfold ensureBatSize. destruct m; [by rewrite Hgr|done..].
Qed.

Lemma exec_ok e w w' : world_ok w → exec e w = Some w' → world_ok w'.
Proof.
  intros Hw He. pose proof Hw as [Hs Hf Hr].
  destruct e as [| | |b|b| | |]; cbn in He.
  - destruct (w_run w); [done|]. destruct (w_file w); [done|]. injection He as <-.
    split; cbn; [by apply ensureBatSize_ok|done|done].
  - unfold launch in He. destruct (w_run w); [done|].
    destruct (w_file w) as [st|] eqn:Hfile.
    + destruct (ms_step st) eqn:Hstep; [|done]. injection He as <-.
      assert (run_ok (w_storage w) (mkRun st true (st_bat (w_storage w)) (toMerge st) ∅ (st_stray (w_storage w)))) as Hro.
      { apply launch_run_ok; [by apply Hf|done|]. intros Hh. split_and!; [done|apply (so_bat _ Hs Hh)|apply (so_stray _ Hs Hh)]. }
      split; cbn; [done| |]; intros ? [= <-]; [by apply Hf|done].
    + injection He as <-. set (s' := ensureBatSize (w_storage w)). pose proof (initial_state_sound s') as Hi.
      pose proof (ensureBatSize_ok _ Hs : storage_ok s') as Hs'.
      assert (run_ok s' (mkRun initial_state false (st_bat (w_storage w)) (toMerge initial_state) ∅ (st_stray (w_storage w)))) as Hro.
      { apply launch_run_ok; [done|done|]. intros Hh. destruct (ensureBatSize_harmless _ Hs Hh) as (_ & E & _).
        split_and!; [by symmetry|apply (so_bat _ Hs' Hh)|apply (so_stray _ Hs Hh)]. }
      split; cbn; [done| |]; intros ? [= <-]; done.
  - destruct (w_run w) as [r|]; [|done]. cbn in He. destruct (start r) as [r'|] eqn:E; [|done].
    injection He as <-. split; cbn; [done|done|]. intros ? [= <-]. eapply start_ok; eauto.
  - destruct (w_run w) as [r|]; [|done]. cbn in He.
    destruct (advance b (w_storage w) r) as [[s' r']|] eqn:E; [|done].
    injection He as <-. destruct (advance_ok _ _ _ _ _ Hs (Hr _ eq_refl) E) as (Hs' & Hex & Hr').
    split; cbn; [done| |by intros ? [= <-]]. intros st Hst. eapply sound_extends; eauto.
  - destruct (w_run w) as [r|]; [|done]. cbn in He. destruct (finish b r) as [r'|] eqn:E; [|done].
    injection He as <-. split; cbn; [done|done|]. intros ? [= <-]. eapply finish_ok; eauto.
  - destruct (w_run w) as [r|]; [|done]. injection He as <-. split; cbn; [done| |].
    + intros ? [= <-]. apply (ro_state _ _ (Hr r eq_refl)).
    + intros ? [= <-]. by apply Hr.
  - destruct (w_run w) as [r|] eqn:E; [|done]. cbn in He. by eapply complete_ok.
  - injection He as <-. split; cbn; done.
Qed.

Lemma initial_world_ok : bat0 ⊆ childBat ∪ bat0 → world_ok initial_world.
Proof.
  intros Hb. split; cbn; [|done|done]. split; cbn; [done|by left| |done|done].
  intros _. split; [|done]. done.
Qed.

Lemma reachable_ok w : rtc step initial_world w → world_ok w.
Proof.
  intros Hr. assert (world_ok initial_world) as H0 by (apply initial_world_ok; set_solver).
  revert H0. induction Hr as [|x y z [e ? ? He] _ IH]; [done|].
  intros Hx. apply IH. by eapply exec_ok.
Qed.

(** *** Progress *)

Definition phase_weight (p : phase) : nat :=
  match p with Started => 3 | Renamed => 2 | Applied _ => 1 end.

(** What is left to do: each block of the queue needs four steps at most. *)
Definition weight (r : run) : nat :=
  4 * length (r_queue r) + map_fold (λ _ '(_, p) n, (phase_weight p + n)%nat) 0%nat (r_merging r).

(** The blocks of the tables exist, and a run that does not resume finds the
  blocks it has not handled. *)
Record live (s : storage) (w_file : option MergeState) (w_run : option run) : Prop := {
  li_disk b : m = DirMove → b ∈ st_bat s → is_Some (st_blocks s !! b);
  li_bat r b : m = DirMove → w_run = Some r → b ∈ r_bat r → is_Some (st_blocks s !! b);
  li_fresh r b : w_run = Some r → r_resuming r = false →
    b ∈ r_queue r ∨ (∃ c, r_merging r !! b = Some (c, Started)) → st_child s !! b = child0 !! b;
  li_new : w_file = None → st_child s = child0 ∧ w_run = None;
  li_renamed r b c : w_run = Some r → r_merging r !! b = Some (c, Renamed) → is_Some (st_blocks s !! b);
}.

Definition merging_weight (mg : gmap Z (Z * phase)) : nat :=
  map_fold (λ _ '(_, p) n, (phase_weight p + n)%nat) 0%nat mg.

Lemma merging_weight_insert mg b c p :
  mg !! b = None → merging_weight (<[b := (c, p)]> mg) = (phase_weight p + merging_weight mg)%nat.
Proof.
  intros Hb. unfold merging_weight. rewrite map_fold_insert_L; [done| |done].
  intros ? ? [? ?] [? ?] ?. lia.
Qed.

Lemma merging_weight_delete mg b c p :
  mg !! b = Some (c, p) → merging_weight mg = (phase_weight p + merging_weight (delete b mg))%nat.
Proof.
  intros Hb. rewrite <- (insert_delete_id mg b (c, p)) at 1 by done.
  apply merging_weight_insert. by rewrite lookup_delete_eq.
Qed.

Lemma merging_weight_update mg b c p c' p' :
  mg !! b = Some (c, p) →
  (merging_weight (<[b := (c', p')]> mg) + phase_weight p = phase_weight p' + merging_weight mg)%nat.
Proof.
  intros Hb. rewrite <- insert_delete_eq, merging_weight_insert by (by rewrite lookup_delete_eq).
  rewrite (merging_weight_delete mg b c p Hb). lia.
Qed.

Lemma weight_advance b s r s' r' :
  advance b s r = Some (s', r') → (weight r' < weight r)%nat.
Proof.
  intros Ha. unfold advance in Ha. destruct (r_merging r !! b) as [[c p]|] eqn:Hb; [|done].
  cbn in Ha.
  assert (∀ p' bat, (phase_weight p' < phase_weight p)%nat →
    (weight (set_phase b c p' bat r) < weight r)%nat) as Hw.
  { intros p' bat Hp. pose proof (merging_weight_update _ b c p c p' Hb).
    unfold weight. fold (merging_weight (r_merging r)). cbn [set_phase r_merging r_queue].
    fold (merging_weight (<[b:=(c, p')]> (r_merging r))). lia. }
  destruct p; cbn in Ha; [| |done].
  - assert (copy_block b c s r = Some (s', r') ∨ move_block b c s r = Some (s', r')) as [Hc|Hc]
      by (destruct m; auto).
    + unfold copy_block in Hc. destruct (st_child s !! b); [|done]. injection Hc as _ <-.
      apply Hw. cbn. lia.
    + assert (∀ i, recover_block b c i s r = Some (s', r') → (weight r' < weight r)%nat) as Hrec.
      { intros i Hi. unfold recover_block in Hi. destruct (r_resuming r); [|done].
        destruct (st_blocks s !! b); [|done]. injection Hi as _ <-. apply Hw. cbn. lia. }
      unfold move_block in Hc. destruct (if bool_decide _ then _ else _) as [i|]; [|eauto].
      destruct (st_child s !! b); [|eauto]. injection Hc as _ <-.
      case_bool_decide; apply Hw; cbn; lia.
  - destruct (st_blocks s !! b); [|done]. injection Ha as _ <-. apply Hw. cbn. lia.
Qed.

Lemma weight_start r r' :
  (∀ q, q ∈ r_queue r → r_merging r !! q = None) → start r = Some r' → (weight r' < weight r)%nat.
Proof.
  intros Hq Hs. unfold start in Hs. destruct (r_queue r) as [|b q] eqn:E; [done|].
  case_bool_decide; [|done]. injection Hs as <-. unfold weight. cbn [r_merging r_queue].
  fold (merging_weight (r_merging r)).
  fold (merging_weight (<[b:=(mergedDataSize (r_state r), Started)]> (r_merging r))).
  rewrite merging_weight_insert by (apply Hq, elem_of_cons; by left). rewrite E. cbn. lia.
Qed.

Lemma weight_finish b r r' : finish b r = Some r' → (weight r' < weight r)%nat.
Proof.
  intros Hf. unfold finish in Hf. destruct (r_merging r !! b) as [[c p]|] eqn:Hb; [|done].
  cbn in Hf. destruct p; [done|done|]. injection Hf as <-.
  unfold weight. cbn [r_merging r_queue]. fold (merging_weight (r_merging r)).
  fold (merging_weight (delete b (r_merging r))).
  rewrite (merging_weight_delete _ b c _ Hb). cbn. lia.
Qed.

(** *** Liveness *)

Definition world_live (w : world) : Prop := live (w_storage w) (w_file w) (w_run w).

Lemma live_advance b s file r s' r' :
  storage_ok s → run_ok s r → live s file (Some r) → file ≠ None →
  advance b s r = Some (s', r') → live s' file (Some r').
Proof.
  intros Hs Hr [L1 L2 L3 _ L5] Hfile Ha.
  pose proof Hr as [_ _ Hqu Hmg Hord _ _ _ _].
  unfold advance in Ha. destruct (r_merging r !! b) as [[c p]|] eqn:Hb; [|done]. cbn in Ha.
  assert (∀ q, q ∈ r_queue r → q ≠ b) as Hqb.
  { intros q Hq ->. pose proof (Hord b b ltac:(by eexists) Hq). lia. }
  (* the run after a change of phase, over a storage that has the block [b] *)
  assert (∀ st' p' bat, (∀ x, is_Some (st_blocks s !! x) → is_Some (st_blocks st' !! x)) →
    is_Some (st_blocks st' !! b) → p' ≠ Started →
    (∀ x, x ≠ b → st_child st' !! x = st_child s !! x) →
    (∀ x, x ∈ st_bat st' → x = b ∨ x ∈ st_bat s ∨ x ∈ r_bat r) →
    (∀ x, x ∈ bat → x = b ∨ x ∈ r_bat r) →
    live st' file (Some (set_phase b c p' bat r))) as Hlive.
  { intros st' p' bat Hgrow Hbs Hp Hch Hbat1 Hbat2. split.
    - intros x Em [->|[Hx|Hx]]%Hbat1; [done|by apply Hgrow, L1|by eapply Hgrow, L2].
    - intros ? x Em [= <-] [->|Hx]%Hbat2; [done|by eapply Hgrow, L2].
    - intros ? x [= <-] Hres Hx. cbn in Hx, Hres.
      assert (x ≠ b) as Hxb.
      { destruct Hx as [Hx|[c' Hx]]; [by apply Hqb|]. intros ->.
        rewrite lookup_insert_eq in Hx. congruence. }
      rewrite Hch by done. apply (L3 r); [done|done|].
      destruct Hx as [Hx|[c' Hx]]; [by left|]. rewrite lookup_insert_ne in Hx by done. right. by eexists.
    - done.
    - intros ? x c' [= <-] Hx. cbn in Hx. destruct (decide (x = b)) as [->|]; [done|].
      rewrite lookup_insert_ne in Hx by done. by eapply Hgrow, L5. }
  assert (∀ block blocks, (∀ x, is_Some (st_blocks s !! x) → is_Some (blocks !! x)) →
    ∀ x, is_Some (st_blocks s !! x) → is_Some ((<[b:=block]> blocks : gmap Z (list Z)) !! x)) as Hins.
  { intros block blocks Hbl x Hx. destruct (decide (x = b)) as [->|];
      [rewrite lookup_insert_eq; by eexists|rewrite lookup_insert_ne by done; by apply Hbl]. }
  assert (∀ block blocks, is_Some ((<[b:=block]> blocks : gmap Z (list Z)) !! b)) as Hinb.
  { intros. rewrite lookup_insert_eq. by eexists. }
  assert (∀ X x, x ∈ ({[b]} ∪ X : gset Z) → x = b ∨ x ∈ X) as Hun.
  { intros X x [?%elem_of_singleton|?]%elem_of_union; [by left|by right]. }
  destruct p; [| |done].
  - assert (copy_block b c s r = Some (s', r') ∨ move_block b c s r = Some (s', r')) as [Hc|Hc]
      by (destruct m; auto).
    + unfold copy_block in Hc. destruct (st_child s !! b); [|done]. injection Hc as <- <-.
      apply Hlive; [apply Hins; intros x; apply damage_some|apply Hinb|done|done| |intros x; apply Hun].
      intros x Hx. cbn in Hx. destruct m; [apply Hun in Hx as [|]; auto|auto|auto].
    + assert (∀ i, recover_block b c i s r = Some (s', r') → live s' file (Some r')) as Hrec.
      { intros i Hi. unfold recover_block in Hi. destruct (r_resuming r); [|done].
        destruct (st_blocks s !! b) eqn:E; [|done]. injection Hi as <- <-.
        apply Hlive; [done|rewrite E; by eexists|done|done|auto|intros x; apply Hun]. }
      unfold move_block in Hc. destruct (if bool_decide _ then _ else _) as [i|]; [|eauto].
      destruct (st_child s !! b); [|eauto]. injection Hc as <- <-.
      case_bool_decide; (apply Hlive; [by apply Hins|apply Hinb|done| |auto|auto]);
        intros x Hx; cbn; by rewrite lookup_delete_ne.
  - destruct (st_blocks s !! b) eqn:E; [|done]. injection Ha as <- <-.
    apply Hlive; [done|cbn; rewrite E; by eexists|done|done| |intros x; apply Hun].
    intros x [|]%Hun; auto.
Qed.

Lemma live_exec e w w' : world_ok w → world_live w → exec e w = Some w' → world_live w'.
Proof.
  intros [Hs Hf Hr] Hl He. pose proof Hl as [L1 L2 L3 L4 L5]. unfold world_live in *.
  assert (∀ r, w_run w = Some r → w_file w ≠ None) as Hfile.
  { intros r Hrun E. apply L4 in E as [_ E]. congruence. }
  assert (∀ st, live (w_storage w) (Some st) None) as Hdead by (intros st; split; done).
  assert (m = DirMove → ensureBatSize (w_storage w) = w_storage w) as Hgrow by (unfold ensureBatSize; by intros ->).
  destruct e as [| | |b|b| | |]; cbn in He.
  - destruct (w_run w) eqn:Erun; [done|]. destruct (w_file w) eqn:Efile; [done|]. injection He as <-. split; cbn; try done.
    + intros b Em. rewrite Hgrow by done. by apply L1.
    + intros _. rewrite ensureBatSize_child. by destruct (L4 eq_refl).
  - unfold launch in He. destruct (w_run w); [done|].
    destruct (w_file w) as [st|] eqn:Efile.
    + destruct (ms_step st); [|done]. injection He as <-. split; cbn; try done.
      * intros ? b Em [= <-]. by apply L1.
      * intros ? b [= <-]. done.
      * intros ? b c [= <-]. cbn. by rewrite lookup_empty.
    + injection He as <-. split; cbn; try done.
      * intros b Em. rewrite Hgrow by done. by apply L1.
      * intros ? b Em [= <-]. rewrite Hgrow by done. by apply L1.
      * intros ? b [= <-] _ _. rewrite ensureBatSize_child. by destruct (L4 eq_refl) as [-> _].
      * intros ? b c [= <-]. cbn. by rewrite lookup_empty.
  - destruct (w_run w) as [r|] eqn:Er; [|done]. cbn in He.
    destruct (start r) as [r'|] eqn:E; [|done]. injection He as <-. cbn.
    unfold start in E. destruct (r_queue r) as [|b q] eqn:Hq; [done|].
    case_bool_decide; [|done]. injection E as <-. split; cbn; try done.
    + intros ? x Em [= <-]. by apply (L2 r).
    + intros ? x [= <-] Hres Hx. apply (L3 r); [done|done|]. rewrite Hq. cbn in Hx.
      destruct Hx as [Hx|[c Hx]]; [left; apply elem_of_cons; by right|].
      destruct (decide (x = b)) as [->|]; [left; apply elem_of_cons; by left|].
      rewrite lookup_insert_ne in Hx by done. right. by eexists.
    + intros E. by destruct (Hfile r eq_refl).
    + intros ? x c [= <-] Hx. cbn in Hx. destruct (decide (x = b)) as [->|].
      * by rewrite lookup_insert_eq in Hx.
      * rewrite lookup_insert_ne in Hx by done. by eapply L5.
  - destruct (w_run w) as [r|] eqn:Er; [|done]. cbn in He.
    destruct (advance b (w_storage w) r) as [[s' r']|] eqn:E; [|done]. injection He as <-.
    eapply live_advance; [exact Hs|by apply Hr|exact Hl|by apply (Hfile r)|exact E].
  - destruct (w_run w) as [r|] eqn:Er; [|done]. cbn in He.
    destruct (finish b r) as [r'|] eqn:E; [|done]. injection He as <-. cbn.
    unfold finish in E. destruct (r_merging r !! b) as [[c [| |sz]]|] eqn:Hb; [done..| |done].
    injection E as <-. split; cbn; try done.
    + intros ? x Em [= <-]. by apply (L2 r).
    + intros ? x [= <-] Hres Hx. apply (L3 r); [done|done|]. cbn in Hx.
      destruct Hx as [Hx|[c' Hx]]; [by left|]. apply lookup_delete_Some in Hx as [_ Hx].
      right. by eexists.
    + intros E. by destruct (Hfile r eq_refl).
    + intros ? x c' [= <-] Hx. cbn in Hx. apply lookup_delete_Some in Hx as [_ Hx]. by eapply L5.
  - destruct (w_run w) as [r|] eqn:Er; [|done]. injection He as <-. split; cbn; done.
  - destruct (w_run w) as [r|] eqn:Er; [|done]. cbn in He. unfold complete in He.
    destruct (_ && _); [|done]. injection He as <-. split; cbn; try done. intros b Em. by apply L2.
  - injection He as <-. split; cbn; try done. intros E. by destruct (L4 E).
Qed.

Lemma reachable_live w :
  (∀ b, b ∈ bat0 → is_Some (blocks0 !! b)) → rtc step initial_world w → world_live w.
Proof.
  intros H0 Hr. assert (world_ok initial_world) as Hok by (apply initial_world_ok; set_solver).
  assert (world_live initial_world) as Hl by (split; try done; intros b _; apply H0).
  revert Hok Hl. induction Hr as [|x y z [e ? ? He] _ IH]; [done|].
  intros Hok Hl. apply IH; [by eapply exec_ok|by eapply live_exec].
Qed.

(** A step of the run, neither a crash nor a write of the state. *)
Definition run_event (e : event) : Prop :=
  match e with EStart | EAdvance _ | EFinish _ | EComplete => True | _ => False end.

Lemma advance_enabled b c p s file r :
  storage_ok s → run_ok s r → live s file (Some r) → r_merging r !! b = Some (c, p) →
  (∀ sz, p ≠ Applied sz) → ∃ s' r', advance b s r = Some (s', r').
Proof.
  intros Hs Hr [L1 L2 L3 _ L5] Hb Hp. pose proof (ro_merging _ _ Hr b c p Hb) as [Hcb _].
  destruct (proj1 (Hchild b) Hcb) as [block Hc0].
  unfold advance. rewrite Hb. cbn. destruct p as [| |sz]; [| |by destruct (Hp sz)].
  - assert (st_child s !! b = Some block ∨ m = DirMove) as Hor.
    { destruct (so_child _ Hs b Hcb) as [E|(? & _)]; [left; congruence|by right]. }
    assert (m = DirMove → ∃ s' r', move_block b c s r = Some (s', r')) as Hmove.
    { intros Em. unfold move_block.
      assert (∃ i, (if bool_decide (b ∈ r_bat r) then sizeOnDisk <$> st_blocks s !! b else Some 0)
        = Some i) as [i ->].
      { case_bool_decide as Hin; [|by eexists]. destruct (L2 r b Em eq_refl Hin) as [x ->]. by eexists. }
      destruct (st_child s !! b) as [x|] eqn:Hx; [by eexists _, _|].
      unfold recover_block. destruct (r_resuming r) eqn:Hres.
      - destruct (so_child _ Hs b Hcb) as [E|(_ & _ & E)]; [congruence|].
        destruct E as [E _]; [apply not_a_file; congruence|].
        rewrite E, Hc0. by eexists _, _.
      - assert (st_child s !! b = child0 !! b) as E by (apply (L3 r); eauto). congruence. }
    destruct Hor as [Hx|Em].
    + destruct m; [| |by apply Hmove]; unfold copy_block; rewrite Hx; cbn; by eexists _, _.
    + destruct (Hmove Em) as (s' & r' & Hx). rewrite Em. by exists s', r'.
  - destruct (L5 r b c eq_refl Hb) as [x ->]. cbn. by eexists _, _.
Qed.

Lemma progress_lemma w r :
  world_ok w → world_live w → w_run w = Some r → (0 < concurrency)%nat →
  ∃ e w', run_event e ∧ exec e w = Some w' ∧
    (∀ r', w_run w' = Some r' → (weight r' < weight r)%nat).
Proof.
  intros [Hs _ Hr] Hl Hrun Hconc. specialize (Hr r Hrun).
  destruct (decide (r_merging r = ∅)) as [Hm|Hm].
  - destruct (r_queue r) as [|b q] eqn:Hq.
    + exists EComplete. unfold exec. rewrite Hrun. cbn. unfold complete.
      rewrite (bool_decide_eq_true_2 (r_queue r = [])) by done.
      rewrite (bool_decide_eq_true_2 (r_merging r = ∅)) by done. eexists. done.
    + assert (∃ r', start r = Some r') as [r' Hst].
      { unfold start. rewrite Hq, Hm, map_size_empty. rewrite bool_decide_eq_true_2 by done.
        by eexists. }
      eexists EStart, _. split_and!; [done|unfold exec; rewrite Hrun; cbn; by rewrite Hst|].
      intros ? [= <-]. eapply weight_start; [|done]. intros x Hx.
      apply eq_None_not_Some. intros Hx'. pose proof (ro_order _ _ Hr x x Hx' Hx). lia.
  - apply map_choose in Hm as (b & [c p] & Hb).
    assert ((∃ sz, p = Applied sz) ∨ (∀ sz, p ≠ Applied sz)) as [[sz ->]|Hp]
      by (destruct p; eauto).
    + assert (∃ r', finish b r = Some r') as [r' Hf] by (unfold finish; rewrite Hb; by eexists).
      eexists (EFinish b), _. split_and!; [done|unfold exec; rewrite Hrun; cbn; by rewrite Hf|].
      intros ? [= <-]. by eapply weight_finish.
    + unfold world_live in Hl. rewrite Hrun in Hl.
      destruct (advance_enabled b c p _ _ r Hs Hr Hl Hb) as (s' & r' & Ha); [done|].
      eexists (EAdvance b), _. split_and!; [done|unfold exec; rewrite Hrun; cbn; by rewrite Ha|].
      intros ? [= <-]. by eapply weight_advance.
Qed.

Lemma run_finishes w r :
  world_ok w → world_live w → w_run w = Some r → (0 < concurrency)%nat →
  ∃ es w', Forall run_event es ∧ exec_all es w = Some w' ∧ w_run w' = None ∧
    (ms_step <$> w_file w') = Some CleanupVhds.
Proof.
  remember (weight r) as n eqn:Hn. revert w r Hn.
  induction n as [n IH] using lt_wf_ind. intros w r Hn Hok Hl Hrun Hconc.
  destruct (progress_lemma w r Hok Hl Hrun Hconc) as (e & w1 & He & Hx & Hw).
  pose proof (exec_ok _ _ _ Hok Hx) as Hok1. pose proof (live_exec _ _ _ Hok Hl Hx) as Hl1.
  destruct (w_run w1) as [r1|] eqn:Hrun1.
  - destruct (IH (weight r1)) with (w := w1) (r := r1) as (es & w' & Hes & Hall & Hend);
      [subst n; by apply Hw|done..|].
    exists (e :: es), w'. split_and!; [by constructor| |apply Hend..]. cbn. by rewrite Hx.
  - exists [e], w1. split_and!; [by constructor|cbn; by rewrite Hx|done|].
    destruct e; try done; cbn in Hx; rewrite Hrun in Hx; cbn in Hx.
    + destruct (start r); [|done]. by injection Hx as <-.
    + destruct (advance b (w_storage w) r) as [[? ?]|]; [|done]. by injection Hx as <-.
    + destruct (finish b r); [|done]. by injection Hx as <-.
    + unfold complete in Hx. destruct (_ && _); [|done]. by injection Hx as <-.
Qed.


(** *** A merge that is not interrupted *)

(** The bytes that the new blocks of the parent take. *)
Definition new_bytes (bat : gset Z) : Z :=
  fullBlockSize * (Z.of_nat (size bat) - Z.of_nat (size bat0)).

(** The blocks handled by the run are in its table, and, when the blocks are
  copied one at a time, [mergedDataSize] counts the new ones. *)
Record counted (r : run) : Prop := {
  co_table b : b ∈ childBat →
    b ∈ r_queue r ∨ (∃ c p, r_merging r !! b = Some (c, p) ∧ ∀ sz, p ≠ Applied sz) ∨ b ∈ r_bat r;
  co_size : m ≠ DirMove → concurrency = 1%nat →
    r_merging r = ∅ ∧ mergedDataSize (r_state r) = new_bytes (r_bat r) ∨
    ∃ b p, r_merging r = {[b := (mergedDataSize (r_state r), p)]} ∧ p ≠ Renamed ∧
      mergedDataSize (r_state r) + (match p with Applied sz => sz | _ => 0 end) = new_bytes (r_bat r);
}.

Definition uninterrupted (w : world) : Prop :=
  (w_run w = None ∧ w_file w = None ∧ st_bat (w_storage w) = bat0 ∧ st_stray (w_storage w) = ∅) ∨
  (∃ r, w_run w = Some r ∧ (ms_step <$> w_file w) = Some MergeBlocks ∧ counted r) ∨
  (w_run w = None ∧ ∃ st, w_file w = Some st ∧ ms_step st = CleanupVhds ∧
    st_bat (w_storage w) = childBat ∪ bat0 ∧
    (m ≠ DirMove → concurrency = 1%nat → mergedDataSize st = new_bytes (childBat ∪ bat0))).

Lemma counted_launch : counted (mkRun initial_state false bat0 (toMerge initial_state) ∅ ∅).
Proof.
  split; cbn.
  - intros b Hb. left. apply list_elem_of_filter. split; [done|]. apply elem_of_zrange.
    pose proof (Hrange b Hb). split; [|lia]. cbn.
    destruct (decide (first_allocated (Z.to_nat maxTableEntries) 0 ≤ b)); [done|exfalso].
    eapply (first_allocated_none (Z.to_nat maxTableEntries) 0 b); [lia|lia|done].
  - intros _ _. left. split; [done|]. unfold new_bytes. lia.
Qed.

Lemma counted_start s r r' : run_ok s r → counted r → start r = Some r' → counted r'.
Proof.
  intros Hr [Ht Hsz] Hs. unfold start in Hs. destruct (r_queue r) as [|b q] eqn:Hq; [done|].
  case_bool_decide as Hc; [|done]. injection Hs as <-. split; cbn.
  - intros x Hx. destruct (Ht x Hx) as [Hin|[(c & p & Hm & Hp)|]]; [| |auto].
    + apply elem_of_cons in Hin as [->|]; [|auto]. right; left. eexists _, _.
      rewrite lookup_insert_eq. done.
    + right; left. destruct (decide (x = b)) as [->|].
      * eexists _, _. rewrite lookup_insert_eq. done.
      * eexists _, _. rewrite lookup_insert_ne by done. done.
  - intros Hm Hconc. rewrite Hconc in Hc. destruct (Hsz Hm Hconc) as [[He Hd]|(x & p & He & _)].
    + right. exists b, Started. rewrite He. split_and!; [done|done|]. cbn. lia.
    + rewrite He, map_size_singleton in Hc. lia.
Qed.

Lemma counted_advance b s r s' r' :
  run_ok s r → counted r → advance b s r = Some (s', r') → counted r'.
Proof.
  intros Hr [Ht Hsz] Ha. unfold advance in Ha.
  destruct (r_merging r !! b) as [[c p]|] eqn:Hb; [|done]. cbn in Ha.
  pose proof (ro_merging _ _ Hr b c p Hb) as [Hcb _].
  (* the table is the part that does not depend on the size *)
  assert (∀ p' bat, r_bat r ⊆ bat → (b ∈ bat ∨ ∀ sz, p' ≠ Applied sz) → ∀ x, x ∈ childBat →
    x ∈ r_queue r ∨ (∃ c0 p0, r_merging (set_phase b c p' bat r) !! x = Some (c0, p0) ∧
      ∀ sz, p0 ≠ Applied sz) ∨ x ∈ bat) as Htab.
  { intros p' bat Hsub Hor x Hx. cbn. destruct (decide (x = b)) as [->|].
    - destruct Hor as [|Hp']; [by right; right|]. right; left. eexists _, _.
      rewrite lookup_insert_eq. done.
    - rewrite lookup_insert_ne by done. destruct (Ht x Hx) as [|[|]]; auto. }
  assert (∀ X : gset Z, X ⊆ {[b]} ∪ X ∧ b ∈ {[b]} ∪ X) as Hu by (clear; set_solver).
  assert (m ≠ DirMove → concurrency = 1%nat → p = Started →
    r_merging r = {[b := (mergedDataSize (r_state r), p)]} ∧ c = mergedDataSize (r_state r) ∧
    mergedDataSize (r_state r) = new_bytes (r_bat r)) as Hone.
  { intros Hm Hconc ->. destruct (Hsz Hm Hconc) as [[He _]|(x & q & He & _ & Hd)].
    - by rewrite He, lookup_empty in Hb.
    - pose proof Hb as Hb'. rewrite He in Hb'. apply lookup_singleton_Some in Hb' as [-> [= Hc ->]].
      split_and!; [exact He|by symmetry|]. cbn in Hd. lia. }
  destruct p; [| |done].
  - assert ((m ≠ DirMove ∧ copy_block b c s r = Some (s', r')) ∨
      (m = DirMove ∧ move_block b c s r = Some (s', r'))) as [[Hm Hc]|[Hm Hc]]
      by (destruct m; auto).
    + unfold copy_block in Hc. destruct (st_child s !! b); [|done]. injection Hc as _ <-.
      split; [apply Htab; [apply Hu|left; apply Hu]|]. cbn. intros _ Hconc. right.
      destruct (Hone Hm Hconc eq_refl) as (He & -> & Hd).
      eexists b, _. split_and!; [rewrite He; apply insert_singleton_eq|done|].
      rewrite Hd. unfold new_bytes. case_bool_decide as Hin.
      * assert ({[b]} ∪ r_bat r = r_bat r) as -> by (clear - Hin; set_solver). lia.
      * rewrite size_union by (clear - Hin; set_solver). rewrite size_singleton. lia.
    + assert (∀ i, recover_block b c i s r = Some (s', r') → counted r') as Hrec.
      { intros i Hi. unfold recover_block in Hi. destruct (r_resuming r); [|done].
        destruct (st_blocks s !! b); [|done]. injection Hi as _ <-.
        split; [apply Htab; [apply Hu|left; apply Hu]|done]. }
      unfold move_block in Hc. destruct (if bool_decide _ then _ else _) as [i|]; [|eauto].
      destruct (st_child s !! b); [|eauto]. injection Hc as _ <-.
      case_bool_decide; (split; [apply Htab; auto|done]).
  - destruct (st_blocks s !! b); [|done]. injection Ha as _ <-.
    split; [apply Htab; [apply Hu|left; apply Hu]|]. cbn. intros Hm Hconc.
    destruct (Hsz Hm Hconc) as [[He _]|(x & q & He & Hq & _)];
      rewrite He in Hb; [by rewrite lookup_empty in Hb|].
    by apply lookup_singleton_Some in Hb as [-> [= _ ->]].
Qed.

Lemma counted_finish b s r r' : run_ok s r → counted r → finish b r = Some r' → counted r'.
Proof.
  intros Hr [Ht Hsz] Hf. unfold finish in Hf.
  destruct (r_merging r !! b) as [[c [| |sz]]|] eqn:Hb; [done..| |done]. injection Hf as <-.
  split; cbn.
  - intros x Hx. destruct (Ht x Hx) as [|[(c' & p & Hx' & Hp)|]]; [auto| |auto].
    right; left. exists c', p. split; [|done]. rewrite lookup_delete_ne; [done|].
    intros ->. rewrite Hb in Hx'. injection Hx' as <- <-. by apply (Hp sz).
  - intros Hm Hconc. left. destruct (Hsz Hm Hconc) as [[He _]|(x & q & He & _ & Hd)];
      rewrite He in Hb; [by rewrite lookup_empty in Hb|].
    apply lookup_singleton_Some in Hb as [-> [= <- ->]]. rewrite He. split; [|done].
    apply delete_singleton_eq.
Qed.

(** The process does not die. *)
Definition lives (e : event) : Prop := e ≠ ECrash ∧ e ≠ EGrow.

Lemma uninterrupted_exec e w w' :
  harmless → lives e → world_ok w → uninterrupted w → exec e w = Some w' → uninterrupted w'.
Proof.
  intros Hh [Hne Hne2] Hok Hu He.
  destruct Hu as [(Hr & Hf & Hb & Hstr)|[(r & Hr & Hfile & Hc)|(Hr & st & Hf & Hst & _)]].
  - destruct e; cbn in He; rewrite ?Hr in He; try done.
    unfold launch in He. rewrite Hr, Hf in He. injection He as <-. right; left.
    eexists. split_and!; [done|done|]. cbn. rewrite Hb, Hstr. apply counted_launch.
  - pose proof (wo_run _ Hok r Hr) as Hro.
    destruct e as [| | |b|b| | |]; cbn in He; unfold launch in *; rewrite ?Hr in He; cbn in He; try done.
    + destruct (start r) as [r'|] eqn:E; [|done]. injection He as <-. right; left.
      exists r'. split_and!; [done|done|]. by eapply counted_start.
    + destruct (advance b (w_storage w) r) as [[s' r']|] eqn:E; [|done]. injection He as <-.
      right; left. exists r'. split_and!; [done|done|]. by eapply counted_advance.
    + destruct (finish b r) as [r'|] eqn:E; [|done]. injection He as <-. right; left.
      exists r'. split_and!; [done|done|]. by eapply counted_finish.
    + injection He as <-. right; left. exists r. split_and!; [done| |done]. cbn.
      by rewrite (ro_step _ _ Hro).
    + unfold complete in He. destruct (bool_decide (r_queue r = [])) eqn:Hq; [|done].
      destruct (bool_decide (r_merging r = ∅)) eqn:Hm; [|done]. injection He as <-.
      apply bool_decide_eq_true_1 in Hq, Hm. right; right. split; [done|].
      assert (r_bat r = childBat ∪ bat0) as Hall.
      { destruct (ro_bat _ _ Hro Hh) as (Hb1 & Hb2 & _).
        destruct (so_bat _ (wo_storage _ Hok) Hh) as [Hb0 _].
        apply (anti_symm (⊆)); [done|]. apply union_subseteq. split; [|by etrans].
        intros x Hx. destruct (co_table _ Hc x Hx) as [Hin|[(c & p & Hin & _)|]]; [| |done].
        - rewrite Hq in Hin. by apply elem_of_nil in Hin.
        - by rewrite Hm, lookup_empty in Hin. }
      eexists. split_and!; [done|done| |]; cbn.
      * done.
      * intros Hmode Hconc. destruct (co_size _ Hc Hmode Hconc) as [[_ ->]|(x & p & He & _)];
          [by rewrite Hall|].
        exfalso. rewrite He in Hm. by apply map_non_empty_singleton in Hm.
  - destruct e; cbn in He; rewrite ?Hr in He; try done.
    unfold launch in He. by rewrite Hr, Hf, Hst in He.
Qed.

Lemma exec_all_reachable es w w' : exec_all es w = Some w' → rtc step w w'.
Proof.
  revert w. induction es as [|e es IH]; intros w He; cbn in He; [by injection He as <-|].
  destruct (exec e w) as [w1|] eqn:E; [|done]. eapply rtc_l; [by eapply step_event|by apply IH].
Qed.

Lemma exec_all_uninterrupted es w w' :
  harmless → Forall lives es → world_ok w → uninterrupted w → exec_all es w = Some w' →
  uninterrupted w'.
Proof.
  intros Hh Hf. revert w. induction Hf as [|e es He _ IH]; intros w Hok Hu Hx; cbn in Hx.
  - by injection Hx as <-.
  - destruct (exec e w) as [w1|] eqn:E; [|done].
    apply (IH w1); [by eapply exec_ok|by eapply uninterrupted_exec|done].
Qed.

(** ** Properties of the merge of the blocks *)

(** C2: whatever the interleaving of the block merges, the moments the state is
  written and the crashes: when the table of the parent does not have to grow, or
  grows without harm, the blocks that the child does not have stay as they were in
  the parent; no block of the child is lost (it is still in the child, or in the
  parent); and every block of the child before the [currentBlock] of the state file
  is in the parent, so that a merge that resumes there misses nothing.  Without that
  condition ([growth_harms]) the blocks of the child are still where they were. *)
Theorem merge_state_sound w :
  rtc step initial_world w →
  (harmless →
    (∀ b, b ∉ childBat → st_blocks (w_storage w) !! b = blocks0 !! b) ∧
    (∀ b, b ∈ childBat → st_child (w_storage w) !! b = child0 !! b ∨
      st_blocks (w_storage w) !! b = child0 !! b) ∧
    (∀ st b, w_file w = Some st → b ∈ childBat → b < currentBlock st ∨ ms_step st = CleanupVhds →
      st_blocks (w_storage w) !! b = child0 !! b)) ∧
  (m ≠ DirMove → ∀ b, b ∈ childBat → st_child (w_storage w) !! b = child0 !! b).
Proof.
  intros Hr. destruct (reachable_ok w Hr) as [Hs Hf _]. split; [intros Hh; split_and!|].
  - intros b. apply (so_others _ Hs b Hh).
  - intros b Hb. destruct (so_child _ Hs b Hb) as [|(_ & _ & Hm)]; [auto|]. right. apply (Hm Hh).
  - intros st b Hst Hb Hor. specialize (Hf st Hst). unfold sound_state in Hf.
    destruct (ms_step st); [destruct Hor; [by apply Hf|done]|by apply Hf].
  - intros Hm b Hb. by destruct (so_child _ Hs b Hb) as [|(? & _)].
Qed.

(** C1: when the merge of the blocks is done, the blocks of the parent are those
  of the child over its own, after any number of crashes; when the parent is a
  file, its allocation table has all of them, and no other.  This is when the table
  of the parent does not have to grow, or grows without harm: [growth_harms] shows
  what a stray entry does. *)
Theorem merge_result w st :
  harmless → rtc step initial_world w → w_file w = Some st → ms_step st = CleanupVhds →
  st_blocks (w_storage w) = child0 ∪ blocks0 ∧
  (m = FileCopy → st_bat (w_storage w) = childBat ∪ bat0).
Proof.
  intros Hh Hr Hst Hstep. destruct (reachable_ok w Hr) as [Hs Hf _].
  specialize (Hf st Hst). unfold sound_state in Hf. rewrite Hstep in Hf. split.
  - apply map_eq. intros b. destruct (decide (b ∈ childBat)) as [Hb|Hb].
    + destruct (Hf b Hb Hh) as [-> _]. apply Hchild in Hb as [x Hx]. rewrite Hx. symmetry.
      by apply lookup_union_Some_l.
    + rewrite (so_others _ Hs b Hh Hb). symmetry. apply lookup_union_r.
      apply eq_None_not_Some. by rewrite <- Hchild.
  - intros Hm. destruct (so_bat _ Hs Hh) as [H1 H2]. apply (anti_symm (⊆)); [done|].
    apply union_subseteq. split; [|done]. intros b Hb. by apply (Hf b Hb Hh).
Qed.

(** C3: a running merge is never stuck: from any state it can reach, whatever
  happened before, some sequence of steps of the run alone merges all the
  blocks, and every step of the run gets closer to the end. *)
Theorem merge_terminates w r :
  (∀ b, b ∈ bat0 → is_Some (blocks0 !! b)) → (0 < concurrency)%nat →
  rtc step initial_world w → w_run w = Some r →
  (∃ es w', Forall run_event es ∧ exec_all es w = Some w' ∧ w_run w' = None ∧
    (ms_step <$> w_file w') = Some CleanupVhds) ∧
  (∀ e w' r', run_event e → exec e w = Some w' → w_run w' = Some r' → (weight r' < weight r)%nat).
Proof.
  intros H0 Hc Hr Hrun. pose proof (reachable_ok w Hr) as Hok. split.
  { eapply run_finishes; eauto. by apply reachable_live. }
  pose proof (wo_run _ Hok r Hrun) as Hro.
  intros e w' r' He Hx Hr'. destruct e as [| | |b|b| | |]; try done; cbn in Hx; rewrite Hrun in Hx;
    cbn in Hx.
  - destruct (start r) eqn:E; [|done]. injection Hx as <-. injection Hr' as <-.
    eapply weight_start; [|done]. intros x Hin. apply eq_None_not_Some. intros Hin'.
    pose proof (ro_order _ _ Hro x x Hin' Hin). lia.
  - destruct (advance b (w_storage w) r) as [[? ?]|] eqn:E; [|done]. injection Hx as <-.
    injection Hr' as <-. by eapply weight_advance.
  - destruct (finish b r) eqn:E; [|done]. injection Hx as <-. injection Hr' as <-.
    by eapply weight_finish.
  - unfold complete in Hx. destruct (_ && _); [|done]. by injection Hx as <-.
Qed.

(** A merge that is not interrupted leaves in the table of the parent all the
  blocks of the child, in every mode; and when blocks are copied one at a time
  its [mergedDataSize] is the size of the blocks that the parent did not have. *)
Theorem uninterrupted_merge es w st :
  harmless → Forall lives es → exec_all es initial_world = Some w →
  w_file w = Some st → ms_step st = CleanupVhds →
  st_bat (w_storage w) = childBat ∪ bat0 ∧
  (m ≠ DirMove → concurrency = 1%nat →
    mergedDataSize st = fullBlockSize * (Z.of_nat (size (childBat ∪ bat0)) - Z.of_nat (size bat0))).
Proof.
  intros Hh Hes Hx Hst Hstep.
  assert (uninterrupted w) as [(_ & Hn & _)|[(r & _ & Hr & _)|(_ & st' & Hst' & _ & Hb & Hd)]].
  { eapply exec_all_uninterrupted; [done|done|apply initial_world_ok; clear; set_solver| |done].
    left. split_and!; done. }
  - congruence.
  - rewrite Hst in Hr. cbn in Hr. congruence.
  - rewrite Hst in Hst'. injection Hst' as <-. split; [done|]. intros. by apply Hd.
Qed.
End merger.

(** ** Examples and witnesses *)

Section examples.

(** The parent has the blocks 0 and 1, the child 0, 2 and 3; a block takes 10
  bytes. *)
Definition ex_blocks : gmap Z (list Z) := {[ 0 := [1]; 1 := [2] ]}.
Definition ex_bat : gset Z := {[ 0; 1 ]}.
Definition ex_child : gmap Z (list Z) := {[ 0 := [5]; 2 := [6]; 3 := [7] ]}.
Definition ex_child_bat : gset Z := {[ 0; 2; 3 ]}.
Definition ex_world : world := initial_world ex_blocks ex_bat ex_child false.

(** The growth of a table that harms nothing, and one that leaves an address in the
  entry 3 of the file, which is that of the block 1. *)
Definition no_harm : Growth := mkGrowth ∅ ∅ (λ _, ∅) (λ _ block, block).
Definition stray_entry : Growth := mkGrowth ∅ {[ 3 ]} (λ b, if decide (b = 3) then {[ 1 ]} else ∅) (λ _ _, [0]).

Definition ex_run_with (g : Growth) (m : mode) (concurrency : nat) (es : list event) : option world :=
  exec_all m concurrency g 4 ex_child_bat 10 (λ _, 10) es ex_world.
Definition ex_run := ex_run_with no_harm.

Lemma ex_harmless m : harmless m no_harm false.
Proof. by intros _ _. Qed.

Lemma ex_child_ok b : b ∈ ex_child_bat ↔ is_Some (ex_child !! b).
Proof.
  rewrite <- elem_of_dom. assert (dom ex_child = ex_child_bat) as -> by (vm_compute; reflexivity).
  done.
Qed.
Lemma ex_range b : b ∈ ex_child_bat → 0 ≤ b < 4.
Proof. unfold ex_child_bat. set_solver by lia. Qed.

(** The events of the merge of one block, alone. *)
Definition merge_one (b : Z) : list event := [EStart; EAdvance b; EFinish b].

(** A merge with a crash after block 0 and a state written in the middle. *)
Definition ex_events : list event :=
  [ELaunch; EStart; EAdvance 0; EFinish 0; EStart; EPersist; ECrash; ELaunch] ++
  merge_one 0 ++ merge_one 2 ++ merge_one 3 ++ [EComplete].

(** A merge that is not interrupted writes the whole table at its end; one that is reads
  the stray entry when it resumes, and overwrites the block 1 with the block 3. *)
Lemma growth_harms :
  (λ w, st_blocks (w_storage w) !! 1) <$>
    ex_run_with stray_entry FileCopy 1 ([ELaunch] ++ merge_one 0 ++ merge_one 2 ++ merge_one 3 ++ [EComplete]) = Some (Some [2]) ∧
  (λ w, st_blocks (w_storage w) !! 1) <$>
    ex_run_with stray_entry FileCopy 1 ([ELaunch; ECrash; ELaunch] ++ merge_one 0 ++ merge_one 2 ++ merge_one 3 ++ [EComplete]) = Some (Some [0]).
Proof. split; vm_compute; reflexivity. Qed.

(** Blocks that a merge interrupted once had copied in the directory of the
  parent are missing from its table when the merge, resumed after them, is
  complete: the child is then deleted. *)
Lemma dir_copy_crash_loses_blocks :
  ∃ w, ex_run DirCopy 1 ([ELaunch] ++ merge_one 0 ++ merge_one 2 ++ [EStart; EAdvance 3; EFinish 3;
      EPersist; ECrash; ELaunch] ++ merge_one 3 ++ [EComplete]) = Some w ∧
    st_blocks (w_storage w) !! 2 = Some [6] ∧ 2 ∉ st_bat (w_storage w).
Proof.
  eexists. split; [vm_compute; reflexivity|]. split; [vm_compute; reflexivity|].
  apply (bool_decide_unpack _). vm_compute. exact I.
Qed.

(** The same with moved blocks, when the first crash is between the rename of
  a block and the write of the table, and a second one follows. *)
Lemma dir_move_two_crashes_lose_blocks :
  ∃ w, exec_all DirMove 1 no_harm 4 {[ 2; 3 ]} 10 (λ _, 10)
      [ELaunch; EStart; EAdvance 2; ECrash; ELaunch; EStart; EAdvance 2; EFinish 2;
       EStart; EAdvance 3; EFinish 3; EPersist; ECrash; ELaunch; EStart; EAdvance 3; EFinish 3; EComplete]
      (initial_world {[ 0 := [1]; 3 := [2] ]} {[ 0; 3 ]} {[ 2 := [6]; 3 := [7] ]} false) = Some w ∧
    st_blocks (w_storage w) !! 2 = Some [6] ∧ st_child (w_storage w) !! 2 = None ∧
    2 ∉ st_bat (w_storage w).
Proof.
  eexists. split; [vm_compute; reflexivity|]. split; [vm_compute; reflexivity|].
  split; [vm_compute; reflexivity|]. apply (bool_decide_unpack _). vm_compute. exact I.
Qed.

(** With two concurrent block merges [mergedDataSize += await mergeBlock()]
  loses one of the sizes. *)
Lemma mergedDataSize_race :
  ∃ w, ex_run DirMove 2 [ELaunch; EStart; EAdvance 0; EFinish 0; EStart; EStart; EAdvance 2;
      EAdvance 3; EAdvance 2; EAdvance 3; EFinish 2; EFinish 3; EComplete] = Some w ∧
    (mergedDataSize <$> w_file w) = Some 10 ∧
    st_blocks (w_storage w) = {[ 0 := [5]; 1 := [2]; 2 := [6]; 3 := [7] ]}.
Proof.
  eexists. split; [vm_compute; reflexivity|]. split; vm_compute; reflexivity.
Qed.

Lemma merge_state_sound_witness :
  ∃ w, ex_run FileCopy 1 ([ELaunch] ++ merge_one 0 ++ merge_one 2 ++ [EPersist; ECrash]) = Some w ∧
    st_blocks (w_storage w) !! 0 = Some [5] ∧ st_blocks (w_storage w) !! 1 = Some [2] ∧
    currentBlock <$> w_file w = Some 2.
Proof.
  destruct (ex_run FileCopy 1 ([ELaunch] ++ merge_one 0 ++ merge_one 2 ++ [EPersist; ECrash])) as [w|]
    eqn:E; [|vm_compute in E; discriminate].
  exists w. split; [reflexivity|].
  assert (Some (currentBlock <$> w_file w) = Some (Some 2)) as [= Hc].
  { change (Some (currentBlock <$> w_file w)) with ((λ w, currentBlock <$> w_file w) <$> Some w).
    rewrite <- E. vm_compute. reflexivity. }
  destruct (merge_state_sound FileCopy 1 no_harm 4 ex_child_bat 10 (λ _, 10) ex_blocks ex_bat ex_child false
    ex_child_ok ex_range w) as [Hx _].
  - apply (exec_all_reachable _ _ _ _ _ _ _ _ _ _ E).
  - destruct (Hx (ex_harmless FileCopy)) as (H1 & _ & H3).
    split; [|split; [|exact Hc]].
    + destruct (w_file w) as [st|] eqn:Est; [|discriminate]. injection Hc as Hc.
      rewrite (H3 st 0 eq_refl); [reflexivity|apply (bool_decide_unpack _); vm_compute; exact I|].
      left. rewrite Hc. reflexivity.
    + rewrite H1; [reflexivity|]. apply (bool_decide_unpack _). vm_compute. exact I.
Defined.

Lemma merge_result_witness :
  ∃ w, ex_run FileCopy 1 ex_events = Some w ∧
    st_blocks (w_storage w) = {[ 0 := [5]; 1 := [2]; 2 := [6]; 3 := [7] ]} ∧
    st_bat (w_storage w) = {[ 0; 1; 2; 3 ]}.
Proof.
  destruct (ex_run FileCopy 1 ex_events) as [w|] eqn:E; [|vm_compute in E; discriminate].
  exists w. split; [reflexivity|].
  assert (Some (ms_step <$> w_file w) = Some (Some CleanupVhds)) as [= Hc].
  { change (Some (ms_step <$> w_file w)) with ((λ w, ms_step <$> w_file w) <$> Some w).
    rewrite <- E. vm_compute. reflexivity. }
  destruct (w_file w) as [st|] eqn:Est; [|discriminate]. injection Hc as Hc.
  destruct (merge_result FileCopy 1 no_harm 4 ex_child_bat 10 (λ _, 10) ex_blocks ex_bat ex_child false
    ex_child_ok ex_range w st) as [-> Hb].
  - exact (ex_harmless FileCopy).
  - apply (exec_all_reachable _ _ _ _ _ _ _ _ _ _ E).
  - exact Est.
  - exact Hc.
  - split; [vm_compute; reflexivity|]. rewrite (Hb eq_refl). vm_compute. reflexivity.
Defined.

Lemma merge_terminates_witness :
  ∃ w es w', ex_run DirMove 2 [ELaunch; EStart; EAdvance 0; ECrash; ELaunch; EStart; EStart] = Some w ∧
    Forall run_event es ∧ exec_all DirMove 2 no_harm 4 ex_child_bat 10 (λ _, 10) es w = Some w' ∧
    w_run w' = None.
Proof.
  destruct (ex_run DirMove 2 [ELaunch; EStart; EAdvance 0; ECrash; ELaunch; EStart; EStart]) as [w|]
    eqn:E; [|vm_compute in E; discriminate].
  assert (Some (bool_decide (is_Some (w_run w))) = Some true) as [= Hr].
  { change (Some (bool_decide (is_Some (w_run w))))
      with ((λ w, bool_decide (is_Some (w_run w))) <$> Some w).
    rewrite <- E. vm_compute. reflexivity. }
  apply bool_decide_eq_true_1 in Hr. destruct Hr as [r Hr].
  destruct (merge_terminates DirMove 2 no_harm 4 ex_child_bat 10 (λ _, 10) ex_blocks ex_bat ex_child false
    ex_child_ok ex_range w r) as [(es & w' & Hes & Hx & Hn & _) _].
  - intros b Hb. rewrite <- elem_of_dom. assert (dom ex_blocks = ex_bat) as -> by (vm_compute; reflexivity).
    exact Hb.
  - lia.
  - apply (exec_all_reachable _ _ _ _ _ _ _ _ _ _ E).
  - exact Hr.
  - exists w, es, w'. split; [reflexivity|]. split; [exact Hes|]. split; [exact Hx|exact Hn].
Defined.

Lemma uninterrupted_merge_witness :
  ∃ w, ex_run DirCopy 1 ([ELaunch] ++ merge_one 0 ++ merge_one 2 ++ merge_one 3 ++ [EComplete]) = Some w ∧
    st_bat (w_storage w) = {[ 0; 1; 2; 3 ]} ∧ mergedDataSize <$> w_file w = Some 20.
Proof.
  destruct (ex_run DirCopy 1 ([ELaunch] ++ merge_one 0 ++ merge_one 2 ++ merge_one 3 ++ [EComplete]))
    as [w|] eqn:E; [|vm_compute in E; discriminate].
  exists w. split; [reflexivity|].
  assert (Some (ms_step <$> w_file w) = Some (Some CleanupVhds)) as [= Hc].
  { change (Some (ms_step <$> w_file w)) with ((λ w, ms_step <$> w_file w) <$> Some w).
    rewrite <- E. vm_compute. reflexivity. }
  destruct (w_file w) as [st|] eqn:Est; [|discriminate]. injection Hc as Hc.
  destruct (uninterrupted_merge DirCopy 1 no_harm 4 ex_child_bat 10 (λ _, 10) ex_blocks ex_bat ex_child false
    ex_child_ok ex_range ([ELaunch] ++ merge_one 0 ++ merge_one 2 ++ merge_one 3 ++ [EComplete])
    w st) as [-> Hd].
  - exact (ex_harmless DirCopy).
  - repeat constructor; discriminate.
  - exact E.
  - exact Est.
  - exact Hc.
  - split; [vm_compute; reflexivity|]. cbn. f_equal. rewrite Hd; [vm_compute; reflexivity|discriminate|reflexivity].
Defined.
End examples.
