(* ===== verification/VhdReader.v ===== *)
(** * Reading any kind of VHD

    The interface that [VhdAbstract.js] expects of a VHD to read it, as a class,
    with the laws that [VhdFile], [VhdSynthetic] and [VhdNegative] fulfil; and
    the functions of [VhdAbstract.js] that are written against it
    ([streamSize], [rawContent], [containsAllDataOf], [readRawData]). *)

From S2P Require Import Prelude Buffers VhdFormat StructFu VhdStructs VhdFile VhdLayout VhdBlocks.

(** ** The interface *)

Class VhdReader (T : Type) := {
  vr_header : T → Header.t;
  vr_footer : T → Footer.t;
  vr_containsBlock : T → Z → result bool;
  vr_readBlock : T → Z → result Block;
}.

(** A VHD that can be read represents a finite map of blocks, bitmap and data. *)
Class VhdReaderLaws (T : Type) `{VhdReader T} := {
  vr_ok : T → Prop;
  vr_disk : T → gmap Z buffer;
  vr_header_ok v : vr_ok v → header_ok (vr_header v);
  vr_contains v i : vr_ok v → 0 ≤ i →
    vr_containsBlock v i = Ok (bool_decide (is_Some (vr_disk v !! i)));
  vr_read v i b : vr_ok v → 0 ≤ i → vr_disk v !! i = Some b →
    vr_readBlock v i = Ok (block_of (vr_header v) i b);
  vr_len v i b : vr_ok v → vr_disk v !! i = Some b → zlen b = fullBlockSize (vr_header v);
}.

(** A file is read through its object. *)
Definition no_header : Header.t := new_header 0 0 0.
Definition no_footer : Footer.t :=
  new_footer 0 0 {| cylinders := 0; heads := 0; sectorsPerTrackCylinder := 0; actualSize := 0 |} 0 0 [].

#[export] Instance VhdFile_reader : VhdReader VhdFile := {|
    vr_header s := default no_header (vf_header s);
    vr_footer s := default no_footer (vf_footer s);
    vr_containsBlock s i := fst (containsBlock i s);
    vr_readBlock s i := fst (readBlock i s);
  |}.

#[export] Instance VhdFile_reader_laws : VhdReaderLaws VhdFile.
Proof.
  refine {| vr_ok := λ s, ∃ h f t, wf s h f t; vr_disk := disk |}.
  - intros s (h & f & t & Hw). cbn. rewrite (wf_header _ _ _ _ Hw). apply Hw.
  - intros s i (h & f & t & Hw) Hi. cbn. by rewrite (returns_containsBlock s h f t Hw i Hi).
  - intros s i b (h & f & t & Hw) Hi Hb. cbn. rewrite (wf_header _ _ _ _ Hw).
    by rewrite (returns_readBlock s h f t Hw i b Hi Hb).
  - intros s i b (h & f & t & Hw) Hb. cbn. rewrite (wf_header _ _ _ _ Hw). cbn.
    rewrite (lookup_disk _ _ _ _ _ Hw) in Hb. case_decide; [|done]. injection Hb as <-.
    by apply (zlen_block_at s h f t Hw).
Defined.

Lemma fullBlockSize_ext h h' :
  Header.blockSize h = Header.blockSize h' → fullBlockSize h = fullBlockSize h'.
Proof. unfold fullBlockSize. by intros ->. Qed.

(** ** The raw content *)

Section raw.
Context {T : Type} `{VhdReaderLaws T}.
Implicit Types v : T.

(** The data of block [i] as the disk shows it: zeroes when it is missing. *)
Definition data_of (h : Header.t) (b : buffer) : buffer := sub (bitmapSize h) (Header.blockSize h) b.

Definition raw_block v (i : Z) : buffer :=
  match vr_disk v !! i with
  | Some b => data_of (vr_header v) b
  | None => zrep (Header.blockSize (vr_header v)) 0
  end.

Definition raw v (n : Z) : buffer := zrange 0 n ≫= raw_block v.

Lemma bitmapSize_split h : header_ok h →
  0 ≤ bitmapSize h ∧ bitmapSize h + Header.blockSize h = fullBlockSize h.
Proof.
  intros Hk. pose proof (ho_blockSize _ Hk).
  unfold bitmapSize, fullBlockSize, computeFullBlockSize, sectorsOfBitmap, sectorsToBytes.
  pose proof (computeSectorOfBitmap_pos (Header.blockSize h) ltac:(lia)).
  unfold SECTOR_SIZE. lia.
Qed.

Lemma zlen_raw_block v i : vr_ok v → zlen (raw_block v i) = Header.blockSize (vr_header v).
Proof.
  intros Hv. pose proof (vr_header_ok v Hv) as Hk. pose proof (ho_blockSize _ Hk).
  pose proof (bitmapSize_split _ Hk). unfold raw_block, data_of.
  destruct (vr_disk v !! i) as [b|] eqn:Hb; [|rewrite zlen_zrep; lia].
  pose proof (vr_len v i b Hv Hb). apply zlen_sub; lia.
Qed.

Lemma raw_succ v n : 0 ≤ n → raw v (n + 1) = raw v n ++ raw_block v n.
Proof.
  intros. unfold raw. rewrite zrange_snoc, bind_app by done. cbn. by rewrite app_nil_r.
Qed.

Lemma zlen_raw v n : vr_ok v → 0 ≤ n → zlen (raw v n) = n * Header.blockSize (vr_header v).
Proof.
  intros Hv. revert n. apply natlike_ind; [done|]. intros n Hn IH.
  change (Z.succ n) with (n + 1). rewrite raw_succ, zlen_app, IH, zlen_raw_block by done. lia.
Qed.

Lemma raw_prefix v n m k : vr_ok v → 0 ≤ n ≤ m → 0 ≤ k → k ≤ n * Header.blockSize (vr_header v) →
  sub 0 k (raw v m) = sub 0 k (raw v n).
Proof.
  intros Hv Hnm Hk Hkn. unfold raw. rewrite (zrange_app 0 n m), bind_app by lia.
  apply sub_app_l; [done|done|]. fold (raw v n). rewrite zlen_raw by (done || lia). lia.
Qed.

Lemma sub_raw_block v n i : vr_ok v → 0 ≤ i < n →
  sub (i * Header.blockSize (vr_header v)) (Header.blockSize (vr_header v)) (raw v n) = raw_block v i.
Proof.
  intros Hv Hi. pose proof (ho_blockSize _ (vr_header_ok v Hv)).
  unfold raw. rewrite (zrange_app 0 i n), bind_app by lia. fold (raw v i).
  pose proof (zlen_raw v i Hv ltac:(lia)) as Hl.
  rewrite sub_app_r by lia. rewrite Hl, Z.sub_diag, zrange_cons by lia. cbn [mbind list_bind].
  rewrite <- (zlen_raw_block v i) at 1 by done.
  rewrite sub_app_l by (pose proof (zlen_nonneg (raw_block v i)); lia). apply sub_all.
Qed.

(** *** [streamSize()] *)

Definition streamSize v : result Z :=
  let h := vr_header v in
  let fileSize := FOOTER_SIZE + HEADER_SIZE + batSize h + FOOTER_SIZE in
  let fileSize := foldl (λ n e, n + platformDataSpace e * SECTOR_SIZE) fileSize
                    (Header.parentLocatorEntry h) in
  fileSize ← foldl (λ n i, n ← n; c ← vr_containsBlock v i; Ok (if c : bool then n + fullBlockSize h else n))
    (Ok fileSize) (zrange 0 (Header.maxTableEntries h));
  js_assert (bool_decide (fileSize mod SECTOR_SIZE = 0)) "streamSize" ;;
  Ok fileSize.

(** *** [rawContent()]: the yielded buffers *)

Fixpoint rawContent_loop v (EMPTY : buffer) (ids : list Z) (remainingSize : Z) : result (list buffer) :=
  match ids with
  | [] => Ok []
  | blockId :: ids =>
      let blockSize := Header.blockSize (vr_header v) in
      c ← vr_containsBlock v blockId;
      buf ← (if c : bool then b_data <$> vr_readBlock v blockId else Ok EMPTY);
      let buf := if decide (remainingSize < blockSize) then buf_slice buf 0 remainingSize else buf in
      rest ← rawContent_loop v EMPTY ids (remainingSize - blockSize);
      Ok (buf :: rest)
  end.

Definition rawContent v : result (list buffer) :=
  let h := vr_header v in
  rawContent_loop v (zrep (Header.blockSize h) 0) (zrange 0 (Header.maxTableEntries h))
    (Footer.currentSize (vr_footer v)).

Lemma read_or_empty v i :
  vr_ok v → 0 ≤ i →
  (c ← vr_containsBlock v i;
   if c : bool then b_data <$> vr_readBlock v i else Ok (zrep (Header.blockSize (vr_header v)) 0))
  = Ok (raw_block v i).
Proof.
  intros Hv Hi. rewrite (vr_contains v i Hv Hi). cbn. unfold raw_block.
  destruct (vr_disk v !! i) as [b|] eqn:Hb.
  - rewrite bool_decide_eq_true_2 by by eexists. by rewrite (vr_read v i b Hv Hi Hb).
  - by rewrite bool_decide_eq_false_2 by by intros [? ?].
Qed.

Lemma rawContent_loop_spec v i n size :
  vr_ok v → 0 ≤ i ≤ n →
  let bs := Header.blockSize (vr_header v) in
  (n - 1) * bs < size ≤ n * bs ∨ i = n →
  ∃ bufs, rawContent_loop v (zrep bs 0) (zrange i n) (size - i * bs) = Ok bufs ∧
    mjoin bufs = sub (i * bs) (size - i * bs) (raw v n).
Proof.
  intros Hv [Hi Hin] bs Hsize. pose proof (ho_blockSize _ (vr_header_ok v Hv)) as Hbs. fold bs in Hbs.
  remember (Z.to_nat (n - i)) as k eqn:Hk. revert i Hi Hin Hsize Hk.
  induction k as [|k IH]; intros i Hi Hin Hsize Hk.
  - assert (i = n) as -> by lia. rewrite zrange_nil by lia. exists []. split; [done|].
    pose proof (zlen_raw v n Hv ltac:(lia)). fold bs in H1.
    unfold sub. rewrite drop_ge by (unfold zlen in *; lia). by rewrite take_nil.
  - rewrite zrange_cons by lia. destruct Hsize as [Hsize|]; [|lia].
    destruct (IH (i + 1)) as (bufs & Hr & Hj); [lia|lia|left; lia|lia|].
    cbn [rawContent_loop]. fold bs.
    pose proof (read_or_empty v i Hv Hi) as Hread. fold bs in Hread.
    destruct (vr_containsBlock v i) as [c|]; [|done]. cbn [mbind result_bind] in *.
    rewrite Hread. cbn [mbind result_bind].
    replace (size - i * bs - bs) with (size - (i + 1) * bs) by lia. rewrite Hr. cbn [mbind result_bind].
    eexists. split; [done|]. rewrite mjoin_cons, Hj.
    pose proof (zlen_raw_block v i Hv) as Hl. fold bs in Hl.
    pose proof (sub_raw_block v n i Hv ltac:(lia)) as Hsb. fold bs in Hsb.
    assert (i * bs ≤ (n - 1) * bs) by nia.
    case_decide as Hlt.
    + rewrite buf_slice_sub by lia. rewrite (sub_nil_len ((i + 1) * bs)) by lia.
      rewrite app_nil_r, Z.sub_0_r, <- Hsb. rewrite sub_sub by lia. f_equal. lia.
    + replace (size - i * bs) with (bs + (size - (i + 1) * bs)) by lia.
      rewrite sub_split by lia. rewrite Hsb. do 2 f_equal. lia.
Qed.

(** *** [containsAllDataOf(child)], the tables being read *)

Fixpoint containsAll_loop v {C} `{VhdReader C} (child : C) (ids : list Z) : result bool :=
  match ids with
  | [] => Ok true
  | id :: ids =>
      c ← vr_containsBlock child id;
      if c : bool then
        block ← vr_readBlock child id;
        p ← vr_containsBlock v id;
        if p : bool then
          parent ← vr_readBlock v id;
          if bool_decide (b_data block = b_data parent) then containsAll_loop v child ids
          else Ok false
        else Ok false
      else containsAll_loop v child ids
  end.

Definition containsAllDataOf v {C} `{VhdReader C} (child : C) : result bool :=
  containsAll_loop v child (zrange 0 (Header.maxTableEntries (vr_header child))).

(** *** [readRawData(start, length, cache, buf)] *)

(** The data of the blocks by number; a block that is missing is not cached. *)
Abbreviation cache := (gmap Z buffer).

Fixpoint readRaw_loop v (start length : Z) (ids : list Z) (c : cache) (buf : buffer) (copied : Z)
    : result (Z * buffer * cache) :=
  match ids with
  | [] => Ok (copied, buf, c)
  | blockId :: ids =>
      let blockSize := Header.blockSize (vr_header v) in
      let startBlockId := start / blockSize in
      let endBlockId := (start + length) / blockSize in
      contains ← vr_containsBlock v blockId;
      '(data, c) ← (if contains : bool then
                      match c !! blockId with
                      | Some data => Ok (data, c)
                      | None =>
                          block ← vr_readBlock v blockId;
                          Ok (b_data block, <[blockId := b_data block]> c)
                      end
                    else Ok (zrep blockSize 0, c));
      let offsetStart := if decide (blockId = startBlockId) then start mod blockSize else 0 in
      let offsetEnd := if decide (blockId = endBlockId) then (start + length) mod blockSize
                       else blockSize in
      let buf := buf_copy buf copied (buf_slice data offsetStart offsetEnd) in
      readRaw_loop v start length ids c buf (copied + (offsetEnd - offsetStart))
  end.

Definition readRawData v (start length : Z) (c : cache) (buf : buffer) : result (Z * buffer * cache) :=
  let blockSize := Header.blockSize (vr_header v) in
  '(copied, buf, c) ← readRaw_loop v start length
    (zrange (start / blockSize) ((start + length) / blockSize + 1)) c buf 0;
  js_assert (bool_decide (copied = length)) "invalid length" ;;
  Ok (copied, buf, c).

(** The cached data is the data of the disk. *)
Definition cache_ok v (c : cache) : Prop := ∀ i d, c !! i = Some d → d = raw_block v i.

Lemma cached_read v i c :
  vr_ok v → 0 ≤ i → cache_ok v c →
  ∃ c', cache_ok v c' ∧
  (contains ← vr_containsBlock v i;
   if contains : bool then
     match c !! i with
     | Some data => Ok (data, c)
     | None => block ← vr_readBlock v i; Ok (b_data block, <[i := b_data block]> c)
     end
   else Ok (zrep (Header.blockSize (vr_header v)) 0, c)) = Ok (raw_block v i, c').
Proof.
  intros Hv Hi Hc. rewrite (vr_contains v i Hv Hi). cbn [mbind result_bind].
  destruct (vr_disk v !! i) as [b|] eqn:Hb.
  - rewrite bool_decide_eq_true_2 by by eexists.
    destruct (c !! i) as [d|] eqn:Hd.
    + exists c. by rewrite (Hc i d Hd).
    + rewrite (vr_read v i b Hv Hi Hb). cbn [mbind result_bind].
      assert (b_data (block_of (vr_header v) i b) = raw_block v i) as ->
        by (unfold raw_block; by rewrite Hb).
      eexists. split; [|done]. intros j d. destruct (decide (j = i)) as [->|].
      * rewrite lookup_insert_eq. by intros [= <-].
      * rewrite lookup_insert_ne by done. apply Hc.
  - rewrite bool_decide_eq_false_2 by by intros [? ?]. exists c. unfold raw_block. by rewrite Hb.
Qed.

Lemma sub_buf_copy buf off d :
  0 ≤ off → off + zlen d ≤ zlen buf →
  zlen (buf_copy buf off d) = zlen buf ∧
  sub 0 (off + zlen d) (buf_copy buf off d) = sub 0 off buf ++ d.
Proof.
  intros Ho Hl. pose proof (zlen_nonneg d). unfold buf_copy.
  rewrite take_ge by (unfold zlen in *; lia). split; [apply zlen_bwrite_in; lia|].
  rewrite sub_split by lia. f_equal; [|by apply sub_bwrite_same].
  destruct (decide (d = [])) as [->|]; [done|]. apply sub_bwrite_disjoint; lia.
Qed.

Section read_raw.
Context (v : T) (Hv : vr_ok v) (start length : Z) (Hs : 0 ≤ start) (Hl : 0 ≤ length).
Let bs := Header.blockSize (vr_header v).
Let E := (start + length) / bs.

(** Where block [i] starts to be read. *)
Let pos (i : Z) : Z := if decide (i ≤ E) then Z.max start (i * bs) else start + length.

Local Lemma bs_pos : 0 < bs.
Proof. apply ho_blockSize, vr_header_ok, Hv. Qed.

Local Lemma pos_step i :
  start / bs ≤ i ≤ E →
  pos i - i * bs = (if decide (i = start / bs) then start mod bs else 0) ∧
  pos (i + 1) - i * bs = (if decide (i = E) then (start + length) mod bs else bs) ∧
  0 ≤ pos i - i * bs ≤ pos (i + 1) - i * bs ∧ pos (i + 1) - i * bs ≤ bs.
Proof.
  intros Hi. pose proof bs_pos as Hb.
  pose proof (Z.div_mod start bs ltac:(lia)). pose proof (Z.mod_pos_bound start bs Hb).
  pose proof (Z.div_mod (start + length) bs ltac:(lia)) as Hdm. fold E in Hdm.
  pose proof (Z.mod_pos_bound (start + length) bs Hb).
  unfold pos. rewrite (decide_True (P := i ≤ E)) by lia.
  destruct (decide (i = E)) as [->|].
  - rewrite (decide_False (P := E + 1 ≤ E)) by lia.
    destruct (decide (E = start / bs)) as [He|].
    + rewrite Z.max_l by nia. nia.
    + assert (start < E * bs) by nia. rewrite Z.max_r by lia. nia.
  - rewrite (decide_True (P := i + 1 ≤ E)) by lia.
    assert (start < (i + 1) * bs) by nia. rewrite (Z.max_r start ((i + 1) * bs)) by lia.
    case_decide as He.
    + rewrite Z.max_l by nia. nia.
    + rewrite Z.max_r by nia. lia.
Qed.

Lemma readRaw_loop_spec i c buf :
  start / bs ≤ i ≤ E + 1 → cache_ok v c → length ≤ zlen buf →
  sub 0 (pos i - start) buf = sub start (pos i - start) (raw v (E + 1)) →
  ∃ buf' c', readRaw_loop v start length (zrange i (E + 1)) c buf (pos i - start)
    = Ok (length, buf', c') ∧
  cache_ok v c' ∧ zlen buf' = zlen buf ∧ sub 0 length buf' = sub start length (raw v (E + 1)).
Proof.
  intros Hi. pose proof bs_pos as Hb.
  assert (0 ≤ start / bs) by (apply Z.div_pos; lia).
  remember (Z.to_nat (E + 1 - i)) as k eqn:Hk. revert i c buf Hi Hk.
  induction k as [|k IH]; intros i c buf Hi Hk Hc Hbuf Hsub.
  - assert (i = E + 1) as -> by lia. rewrite zrange_nil by lia. exists buf, c.
    assert (pos (E + 1) - start = length) as Hp by (unfold pos; rewrite decide_False; lia).
    rewrite Hp in *. done.
  - rewrite zrange_cons by lia. cbn [readRaw_loop]. fold bs.
    destruct (pos_step i ltac:(lia)) as (Hp1 & Hp2 & Hp3 & Hp4).
    destruct (cached_read v i c Hv ltac:(lia) Hc) as (c' & Hc' & Hr). fold bs in Hr.
    destruct (vr_containsBlock v i) as [b|]; [|done]. cbn [mbind result_bind] in *.
    rewrite Hr. cbn [mbind result_bind]. rewrite <- Hp1. fold E. rewrite <- Hp2.
    pose proof (zlen_raw_block v i Hv) as Hlen. fold bs in Hlen.
    rewrite buf_slice_sub by lia.
    replace (pos (i + 1) - i * bs - (pos i - i * bs)) with (pos (i + 1) - pos i) by lia.
    set (d := sub (pos i - i * bs) (pos (i + 1) - pos i) (raw_block v i)).
    assert (zlen d = pos (i + 1) - pos i) as Hd by (apply zlen_sub; lia).
    assert (d = sub (pos i) (pos (i + 1) - pos i) (raw v (E + 1))) as Hdr.
    { unfold d. rewrite <- (sub_raw_block v (E + 1) i Hv) by lia. fold bs.
      rewrite sub_sub by nia. f_equal. lia. }
    assert (start ≤ pos i ∧ pos (i + 1) ≤ start + length) as [Hlo Hhi].
    { pose proof (Z.div_mod (start + length) bs ltac:(lia)) as Hdm. fold E in Hdm.
      pose proof (Z.mod_pos_bound (start + length) bs Hb).
      unfold pos. repeat case_decide; nia. }
    destruct (sub_buf_copy buf (pos i - start) d) as [Hz Hcp]; [lia|lia|].
    replace (pos i - start + (pos (i + 1) - pos i)) with (pos (i + 1) - start) by lia.
    destruct (IH (i + 1) c' (buf_copy buf (pos i - start) d)) as (buf' & c'' & Hloop & ? & ? & ?);
      [lia|lia|done|lia| |].
    + replace (pos (i + 1) - start) with (pos i - start + zlen d) at 1 by lia.
      rewrite Hcp, Hsub, Hdr.
      replace (pos (i + 1) - start) with (pos i - start + (pos (i + 1) - pos i)) by lia.
      rewrite (sub_split start) by lia. f_equal. f_equal. lia.
    + exists buf', c''. rewrite Hloop. split_and!; [done|done|congruence|done].
Qed.

Lemma readRawData_lemma c buf :
  cache_ok v c → length ≤ zlen buf →
  ∃ buf' c', readRawData v start length c buf = Ok (length, buf', c') ∧ cache_ok v c' ∧
  zlen buf' = zlen buf ∧ sub 0 length buf' = sub start length (raw v (E + 1)).
Proof.
  intros Hc Hb. unfold readRawData. fold bs E. pose proof bs_pos.
  assert (start / bs ≤ E) by (apply Z.div_le_mono; lia).
  assert (pos (start / bs) - start = 0) as Hp0.
  { unfold pos. rewrite decide_True by lia.
    pose proof (Z.mul_div_le start bs ltac:(lia)). lia. }
  destruct (readRaw_loop_spec (start / bs) c buf) as (buf' & c' & Hloop & ? & ? & ?);
    [lia|done|done|by rewrite Hp0|].
  exists buf', c'. rewrite Hp0 in Hloop. rewrite Hloop. cbn [mbind result_bind]. by pass_assert.
Qed.
End read_raw.
End raw.
