(* ===== verification/VhdChain.v ===== *)
(** * Chains of VHDs

    [packages/vhd-lib/Vhd/VhdSynthetic.js], a chain read as one VHD, and
    [VhdNegative.js], the difference that goes back to the parent; both are
    instances of the interface of [VhdReader].  With the properties of the
    functions of [VhdAbstract] that read any VHD. *)

From S2P Require Import Prelude Buffers VhdFormat StructFu VhdStructs VhdFile VhdLayout VhdBlocks VhdReader.

(** ** [VhdSynthetic] *)

Section synthetic.
Context {T : Type} `{VhdReaderLaws T}.

(** The VHDs of the chain, [#vhds]: at least one, the root first. *)
Record VhdSynthetic := mkSynthetic { vs_root : T; vs_children : list T }.

Definition vhds (s : VhdSynthetic) : list T := vs_root s :: vs_children s.
Definition most_recent (s : VhdSynthetic) : T := List.last (vs_children s) (vs_root s).

Definition synthetic_header (s : VhdSynthetic) : Header.t :=
  let h := vr_header (most_recent s) in
  let root := vr_header (vs_root s) in
  Header.mk (Header.cookie h) (Header.dataOffset h) (FOOTER_SIZE + HEADER_SIZE)
    (Header.headerVersion h) (Header.maxTableEntries h) (Header.blockSize h) (Header.checksum h)
    (Header.parentUuid root) (Header.parentTimestamp root) (Header.reserved1 h)
    (Header.parentUnicodeName root) (Header.parentLocatorEntry root) (Header.reserved2 h).

Definition synthetic_footer (s : VhdSynthetic) : Footer.t :=
  let f := vr_footer (most_recent s) in
  Footer.mk (Footer.cookie f) (Footer.features f) (Footer.fileFormatVersion f) (Some FOOTER_SIZE)
    (Footer.timestamp f) (Footer.creatorApplication f) (Footer.creatorVersion f)
    (Footer.creatorHostOs f) (Footer.originalSize f) (Footer.currentSize f)
    (Footer.diskGeometry f) (Footer.diskType (vr_footer (vs_root s))) (Footer.checksum f)
    (Footer.uuid f) (Footer.saved f) (Footer.hidden f) (Footer.reserved f).

(** [this.#vhds.some(vhd => vhd.containsBlock(blockId))] *)
Fixpoint some_contains (l : list T) (blockId : Z) : result bool :=
  match l with
  | [] => Ok false
  | v :: l => c ← vr_containsBlock v blockId; if c : bool then Ok true else some_contains l blockId
  end.

(** The loop of [#getVhdWithBlock], on the VHDs from the most recent. *)
Fixpoint vhd_with_block (l : list T) (blockId : Z) : result T :=
  match l with
  | [] => Throw (AssertionError "no such block")
  | v :: l => c ← vr_containsBlock v blockId; if c : bool then Ok v else vhd_with_block l blockId
  end.

Definition synthetic_containsBlock (s : VhdSynthetic) (blockId : Z) : result bool :=
  some_contains (vhds s) blockId.

Definition synthetic_readBlock (s : VhdSynthetic) (blockId : Z) : result Block :=
  v ← vhd_with_block (reverse (vhds s)) blockId; vr_readBlock v blockId.

(** [readHeaderAndFooter()], after the VHDs have read theirs. *)
Fixpoint check_chain (parent : T) (children : list T) : result unit :=
  match children with
  | [] => Ok tt
  | child :: rest =>
      js_assert (bool_decide (Footer.diskType (vr_footer child) = DISK_TYPES_DIFFERENCING))
        "diskType" ;;
      js_assert (bool_decide (Header.parentUuid (vr_header child) = Footer.uuid (vr_footer parent)))
        "parentUuid" ;;
      check_chain child rest
  end.

#[export] Instance VhdSynthetic_reader : VhdReader VhdSynthetic := {|
  vr_header := synthetic_header;
  vr_footer := synthetic_footer;
  vr_containsBlock := synthetic_containsBlock;
  vr_readBlock := synthetic_readBlock;
  |}.

(** The blocks of the chain: those of a child hide those of its parent. *)
Definition chain_disk (l : list T) : gmap Z buffer :=
  foldl (λ acc v, vr_disk v ∪ acc) ∅ l.

Lemma chain_disk_snoc l v : chain_disk (l ++ [v]) = vr_disk v ∪ chain_disk l.
Proof. unfold chain_disk. by rewrite foldl_app. Qed.

(** Every VHD of the chain is fine and they have the same block size. *)
Definition synthetic_ok (s : VhdSynthetic) : Prop :=
  Forall (λ v, vr_ok v ∧ Header.blockSize (vr_header v) = Header.blockSize (synthetic_header s))
    (vhds s).

Lemma chain_disk_is_Some l i :
  is_Some (chain_disk l !! i) ↔ Exists (λ v, is_Some (vr_disk v !! i)) l.
Proof.
  induction l as [|v l IH] using rev_ind.
  - rewrite Exists_nil. cbn. rewrite lookup_empty. by split; [intros [? ?]|].
  - rewrite chain_disk_snoc, lookup_union_is_Some, IH, Exists_app, Exists_cons, Exists_nil. tauto.
Qed.

Lemma some_contains_spec l i :
  Forall vr_ok l → 0 ≤ i → some_contains l i = Ok (bool_decide (is_Some (chain_disk l !! i))).
Proof.
  intros Hl Hi.
  rewrite (bool_decide_ext _ (Exists (λ v, is_Some (vr_disk v !! i)) l)) by apply chain_disk_is_Some.
  induction Hl as [|v l Hv Hl IH]; [done|]. cbn [some_contains].
  rewrite (vr_contains v i Hv Hi). cbn [mbind result_bind]. rewrite IH.
  destruct (bool_decide (is_Some (vr_disk v !! i))) eqn:E.
  - apply bool_decide_eq_true_1 in E. rewrite bool_decide_eq_true_2; [done|]. by left.
  - apply bool_decide_eq_false_1 in E. f_equal. apply bool_decide_ext.
    rewrite Exists_cons. tauto.
Qed.

Lemma vhd_with_block_spec l i :
  Forall vr_ok l → 0 ≤ i →
  match chain_disk l !! i with
  | Some b => ∃ v, vhd_with_block (reverse l) i = Ok v ∧ v ∈ l ∧ vr_disk v !! i = Some b
  | None => vhd_with_block (reverse l) i = Throw (AssertionError "no such block")
  end.
Proof.
  intros Hl Hi. induction l as [|v l IH] using rev_ind; [done|].
  apply Forall_app in Hl as [Hl [Hv _]%Forall_cons]. specialize (IH Hl).
  rewrite chain_disk_snoc, reverse_snoc. cbn [vhd_with_block].
  rewrite (vr_contains v i Hv Hi). cbn [mbind result_bind]. rewrite lookup_union.
  destruct (vr_disk v !! i) as [b|] eqn:Hb.
  - rewrite bool_decide_eq_true_2 by by eexists. 
    destruct (chain_disk l !! i); cbn; exists v; (split_and!; [done| |done]);
      apply elem_of_app; right; by apply list_elem_of_singleton.
  - rewrite bool_decide_eq_false_2 by by intros [? ?].
    rewrite (left_id_L None _ (chain_disk l !! i)).
    destruct (chain_disk l !! i) as [b|]; [|done].
    destruct IH as (w & Hw & Hin & Hwb). exists w. split_and!; [done| |done].
    apply elem_of_app. by left.
Qed.

Lemma most_recent_in s : most_recent s ∈ vhds s.
Proof.
  unfold most_recent, vhds. destruct (vs_children s) as [|v l] eqn:E using rev_ind.
  - apply elem_of_cons. by left.
  - rewrite List.last_last. apply elem_of_cons. right. apply elem_of_app. right.
    by apply list_elem_of_singleton.
Qed.

Lemma block_of_ext h h' i b :
  Header.blockSize h = Header.blockSize h' → block_of h i b = block_of h' i b.
Proof. unfold block_of, bitmapSize, sectorsOfBitmap. by intros ->. Qed.

Lemma synthetic_vhd s v : synthetic_ok s → v ∈ vhds s →
  vr_ok v ∧ Header.blockSize (vr_header v) = Header.blockSize (synthetic_header s).
Proof. unfold synthetic_ok. rewrite Forall_forall. auto. Qed.

Lemma synthetic_all_ok s : synthetic_ok s → Forall vr_ok (vhds s).
Proof. intros Hs. eapply Forall_impl; [exact Hs|]. by intros ? [? ?]. Qed.

#[export] Instance VhdSynthetic_laws : VhdReaderLaws VhdSynthetic.
Proof.
  refine {| vr_ok := synthetic_ok; vr_disk := λ s, chain_disk (vhds s) |}.
  - intros s Hs. destruct (synthetic_vhd s _ Hs (most_recent_in s)) as [Hv _].
    destruct (vr_header_ok _ Hv). split; cbn; try done. 
  - intros s i Hs Hi. apply some_contains_spec; [by apply synthetic_all_ok|done].
  - intros s i b Hs Hi Hb. pose proof (vhd_with_block_spec (vhds s) i (synthetic_all_ok s Hs) Hi) as Hv.
    rewrite Hb in Hv. destruct Hv as (v & Hv & Hin & Hvb).
    destruct (synthetic_vhd s v Hs Hin) as [Hok Hbs].
    cbn [vr_readBlock vr_header VhdSynthetic_reader]. unfold synthetic_readBlock. rewrite Hv. cbn [mbind result_bind].
    rewrite (vr_read v i b Hok Hi Hvb). f_equal. by apply block_of_ext.
  - intros s i b Hs Hb.
    assert (∃ v, v ∈ vhds s ∧ vr_disk v !! i = Some b) as (v & Hin & Hvb).
    { revert Hb. generalize (vhds s). intros l. induction l as [|v l IH] using rev_ind; [done|].
      rewrite chain_disk_snoc, lookup_union_Some_raw. intros [Hb|[_ Hb]].
      - exists v. split; [|done]. apply elem_of_app. right. by apply list_elem_of_singleton.
      - destruct (IH Hb) as (w & ? & ?). exists w. split; [|done]. apply elem_of_app. by left. }
    destruct (synthetic_vhd s v Hs Hin) as [Hok Hbs].
    rewrite (vr_len v i b Hok Hvb). by apply fullBlockSize_ext.
Defined.
End synthetic.

Arguments VhdSynthetic T : clear implicits.

(** ** [VhdNegative] *)

Section negative.
Context {T : Type} `{VhdReaderLaws T}.

Record VhdNegative := mkNegative { vn_parent : T; vn_child : T }.

(** The constructor. *)
Definition new_VhdNegative (parent child : T) : result VhdNegative :=
  js_assert (bool_decide (Header.parentUuid (vr_header child) = Footer.uuid (vr_footer parent)))
    "NOT_CHAINED" ;;
  js_assert (bool_decide (Footer.diskType (vr_footer child) = DISK_TYPES_DIFFERENCING))
    "CHILD_NOT_DIFFERENCING" ;;
  js_assert (bool_decide (Footer.currentSize (vr_footer child) = Footer.currentSize (vr_footer parent)))
    "GEOMETRY_CHANGED" ;;
  Ok (mkNegative parent child).

Definition negative_header (n : VhdNegative) : Header.t :=
  let h := vr_header (vn_parent n) in
  Header.mk (Header.cookie h) (Header.dataOffset h) (Header.tableOffset h) (Header.headerVersion h)
    (Header.maxTableEntries h) (Header.blockSize h) (Header.checksum h)
    (Footer.uuid (vr_footer (vn_child n))) (Header.parentTimestamp h) (Header.reserved1 h)
    (Header.parentUnicodeName h) (Header.parentLocatorEntry h) (Header.reserved2 h).

Definition negative_footer (n : VhdNegative) : Footer.t :=
  let f := vr_footer (vn_parent n) in
  Footer.mk (Footer.cookie f) (Footer.features f) (Footer.fileFormatVersion f) (Footer.dataOffset f)
    (Footer.timestamp f) (Footer.creatorApplication f) (Footer.creatorVersion f)
    (Footer.creatorHostOs f) (Footer.originalSize f) (Footer.currentSize f)
    (Footer.diskGeometry f) DISK_TYPES_DIFFERENCING (Footer.checksum f) (Footer.uuid f)
    (Footer.saved f) (Footer.hidden f) (Footer.reserved f).

(** The bitmap and the data of a block that the parent does not have. *)
Definition zero_block (h : Header.t) (blockId : Z) : Block :=
  let bitmap := zrep (computeBlockBitmapSize (Header.blockSize h)) 255 in
  let data := zrep (Header.blockSize h) 0 in
  mkBlock blockId bitmap data (bitmap ++ data).

Definition negative_readBlock (n : VhdNegative) (blockId : Z) : result Block :=
  c ← vr_containsBlock (vn_parent n) blockId;
  if c : bool then vr_readBlock (vn_parent n) blockId else Ok (zero_block (negative_header n) blockId).

#[export] Instance VhdNegative_reader : VhdReader VhdNegative := {|
  vr_header := negative_header;
  vr_footer := negative_footer;
  vr_containsBlock n i := vr_containsBlock (vn_child n) i;
  vr_readBlock := negative_readBlock;
  |}.

(** The parent has as many bits in a bitmap as there are bytes for them: true of
  the usual 2 MiB blocks. *)
Definition whole_bitmap (h : Header.t) : Prop :=
  computeBlockBitmapSize (Header.blockSize h) = bitmapSize h.

Definition negative_ok (n : VhdNegative) : Prop :=
  vr_ok (vn_parent n) ∧ vr_ok (vn_child n) ∧ whole_bitmap (vr_header (vn_parent n)).

Definition negative_disk (n : VhdNegative) : gmap Z buffer :=
  map_imap (λ i _, Some (default (b_buffer (zero_block (negative_header n) i)) (vr_disk (vn_parent n) !! i)))
    (vr_disk (vn_child n)).

Lemma lookup_negative_disk n i :
  negative_disk n !! i =
    (_ ← vr_disk (vn_child n) !! i;
     Some (default (b_buffer (zero_block (negative_header n) i)) (vr_disk (vn_parent n) !! i))).
Proof. unfold negative_disk. by rewrite map_lookup_imap. Qed.

Lemma zero_block_of h i :
  header_ok h → whole_bitmap h → zero_block h i = block_of h i (b_buffer (zero_block h i)).
Proof.
  intros Hk Hb. pose proof (bitmapSize_split h Hk) as [? ?]. pose proof (ho_blockSize _ Hk).
  unfold zero_block, block_of. cbn. unfold whole_bitmap in Hb. rewrite Hb.
  assert (zlen (zrep (bitmapSize h) 255) = bitmapSize h) as Hl by (rewrite zlen_zrep; lia).
  assert (zlen (zrep (Header.blockSize h) 0) = Header.blockSize h) as Hl2 by (rewrite zlen_zrep; lia).
  f_equal.
  - rewrite <- Hl at 2. rewrite sub_app_l by lia. by rewrite sub_all.
  - rewrite sub_app_r by lia. rewrite Hl, Z.sub_diag. rewrite <- Hl2 at 2. by rewrite sub_all.
Qed.

#[export] Instance VhdNegative_laws : VhdReaderLaws VhdNegative.
Proof.
  refine {| vr_ok := negative_ok; vr_disk := negative_disk |}.
  - intros n (Hp & _). destruct (vr_header_ok _ Hp). by split.
  - intros n i (_ & Hc & _) Hi. cbn. rewrite (vr_contains _ _ Hc Hi). f_equal.
    apply bool_decide_ext. rewrite lookup_negative_disk.
    destruct (vr_disk (vn_child n) !! i); cbn; split; intros [? ?]; by eexists.
  - intros n i b (Hp & _ & Hw) Hi Hb. rewrite lookup_negative_disk in Hb.
    destruct (vr_disk (vn_child n) !! i); [|done]. cbn in Hb. injection Hb as Hb.
    cbn [vr_readBlock vr_header VhdNegative_reader]. unfold negative_readBlock. rewrite (vr_contains _ _ Hp Hi). cbn [mbind result_bind].
    destruct (vr_disk (vn_parent n) !! i) as [c|] eqn:Hpb; cbn in Hb.
    + rewrite bool_decide_eq_true_2 by by eexists. subst c.
      by rewrite (vr_read _ _ _ Hp Hi Hpb).
    + rewrite bool_decide_eq_false_2 by by intros [? ?]. subst b. f_equal.
      apply (zero_block_of (negative_header n)); [|done]. destruct (vr_header_ok _ Hp). by split.
  - intros n i b (Hp & _ & Hw) Hb. rewrite lookup_negative_disk in Hb.
    destruct (vr_disk (vn_child n) !! i); [|done]. cbn in Hb. injection Hb as Hb.
    destruct (vr_disk (vn_parent n) !! i) as [c|] eqn:Hpb; cbn in Hb.
    + subst c. by apply (vr_len _ i b Hp).
    + subst b. pose proof (vr_header_ok _ Hp) as Hk. pose proof (bitmapSize_split _ Hk) as [? ?].
      pose proof (ho_blockSize _ Hk).
      cbn. rewrite zlen_app, !zlen_zrep. unfold whole_bitmap in Hw. cbn. rewrite Hw.
      rewrite !Z.max_r by lia. done.
Defined.
End negative.

Arguments VhdNegative T : clear implicits.

(** ** Properties *)

Section properties.
Context {T : Type} `{VhdReaderLaws T}.

(** The raw content of block [i] of a disk made of the blocks [d]. *)
Definition raw_of (h : Header.t) (d : gmap Z buffer) (i : Z) : buffer :=
  match d !! i with Some b => data_of h b | None => zrep (Header.blockSize h) 0 end.

(** C35: a block read in a chain is the one of the most recent VHD that has it; a
  block that no VHD has is missing, and reading it throws. *)
Theorem synthetic_reads_most_recent (s : VhdSynthetic T) i :
  synthetic_ok s → 0 ≤ i →
  (∀ l1 v l2 b, vhds s = l1 ++ v :: l2 → vr_disk v !! i = Some b →
    Forall (λ w, vr_disk w !! i = None) l2 →
    synthetic_containsBlock s i = Ok true ∧
    synthetic_readBlock s i = Ok (block_of (synthetic_header s) i b)) ∧
  (Forall (λ w, vr_disk w !! i = None) (vhds s) →
    synthetic_containsBlock s i = Ok false ∧
    synthetic_readBlock s i = Throw (AssertionError "no such block")).
Proof.
  intros Hs Hi. pose proof (vr_contains s i Hs Hi) as Hc. pose proof (vr_read s i) as Hr.
  cbn [vr_containsBlock vr_readBlock VhdSynthetic_reader vr_disk VhdSynthetic_laws vr_header] in *.
  split.
  - intros l1 v l2 b Hl Hb Hnone.
    assert (chain_disk (vhds s) !! i = Some b) as Hd.
    { rewrite Hl. clear Hl Hc Hr. induction l2 as [|w l2 IH] using rev_ind.
      - rewrite chain_disk_snoc. by apply lookup_union_Some_l.
      - apply Forall_app in Hnone as [Hn [Hw _]%Forall_cons].
        rewrite app_comm_cons, app_assoc, chain_disk_snoc, lookup_union_r by done. by apply IH. }
    rewrite Hc, Hd. rewrite bool_decide_eq_true_2 by by eexists. split; [done|]. by apply Hr.
  - intros Hnone.
    assert (chain_disk (vhds s) !! i = None) as Hd.
    { apply eq_None_not_Some. rewrite chain_disk_is_Some, Exists_exists. intros (w & Hin & [b Hb]).
      rewrite Forall_forall in Hnone. rewrite (Hnone w Hin) in Hb. done. }
    rewrite Hc, Hd. rewrite bool_decide_eq_false_2 by by intros [? ?]. split; [done|].
    unfold synthetic_readBlock.
    pose proof (vhd_with_block_spec (vhds s) i (synthetic_all_ok s Hs) Hi) as Hv.
    rewrite Hd in Hv. by rewrite Hv.
Qed.

(** Applied over its child, itself over its parent, a negative VHD shows the
  content of the parent: the blocks that the child added read as zeroes. *)
Theorem negative_reverts (parent child : T) n i :
  new_VhdNegative parent child = Ok n → negative_ok n → 0 ≤ i →
  raw_of (vr_header n) (vr_disk n ∪ (vr_disk child ∪ vr_disk parent)) i = raw_block parent i.
Proof.
  intros Hn Hok Hi. assert (n = mkNegative parent child) as ->.
  { unfold new_VhdNegative, js_assert in Hn. repeat case_bool_decide; try done.
    by injection Hn as <-. }
  cbn [vr_disk VhdNegative_laws vr_header VhdNegative_reader]. unfold raw_of, raw_block.
  pose proof Hok as (Hp & _ & Hw). cbn in Hw. pose proof (vr_header_ok _ Hp) as Hk. cbn in Hk.
  rewrite lookup_union, lookup_negative_disk. cbn [vn_child vn_parent].
  rewrite lookup_union. destruct (vr_disk child !! i) as [c|]; cbn.
  - destruct (vr_disk parent !! i) as [p|] eqn:Hpi; cbn; [done|].
    pose proof (zero_block_of (vr_header parent) i Hk Hw) as Hz.
    apply (f_equal b_data) in Hz. cbn in Hz. symmetry. apply Hz.
  - by destruct (vr_disk parent !! i).
Qed.

(** [rawContent] yields the first [currentSize] bytes of the disk, when the
  table has exactly the entries this size needs. *)
Theorem rawContent_correct (v : T) :
  let h := vr_header v in
  let size := Footer.currentSize (vr_footer v) in
  vr_ok v → 0 < size → Header.maxTableEntries h = ceil_div size (Header.blockSize h) →
  ∃ bufs, rawContent v = Ok bufs ∧
    mjoin bufs = sub 0 size (raw v (Header.maxTableEntries h)) ∧ zlen (mjoin bufs) = size.
Proof.
  intros h size Hv Hs Hm. pose proof (ho_blockSize _ (vr_header_ok v Hv)) as Hb. fold h in Hb.
  pose proof (ceil_div_spec size (Header.blockSize h) Hb) as Hc. rewrite <- Hm in Hc.
  destruct (rawContent_loop_spec v 0 (Header.maxTableEntries h) size Hv) as (bufs & Hr & Hj).
  - nia.
  - fold h. left. nia.
  - fold h in Hr, Hj. exists bufs. unfold rawContent. fold h size.
    replace (size - 0 * Header.blockSize h) with size in * by lia. split_and!; [done|done|].
    rewrite Hj. apply zlen_sub; [lia|lia|]. rewrite zlen_raw by (done || nia). fold h. lia.
Qed.

(** [readRawData] returns the bytes of the disk in the range, whatever the
  cache holds as long as it holds blocks of this disk, and leaves such a cache. *)
Theorem readRawData_correct (v : T) start length c buf :
  vr_ok v → 0 ≤ start → 0 ≤ length → cache_ok v c → length ≤ zlen buf →
  ∃ buf' c', readRawData v start length c buf = Ok (length, buf', c') ∧ cache_ok v c' ∧
    zlen buf' = zlen buf ∧
    ∀ n, start + length ≤ n * Header.blockSize (vr_header v) →
      sub 0 length buf' = sub start length (raw v n).
Proof.
  intros Hv Hs Hl Hc Hb.
  destruct (readRawData_lemma v Hv start length Hs Hl c buf Hc Hb) as (buf' & c' & Hr & Hc' & Hz & Hsub).
  exists buf', c'. split_and!; try done. intros n Hn. rewrite Hsub.
  pose proof (ho_blockSize _ (vr_header_ok v Hv)) as Hbs. set (bs := Header.blockSize (vr_header v)) in *.
  set (E := (start + length) / bs).
  pose proof (Z.div_mod (start + length) bs ltac:(lia)) as Hdm. fold E in Hdm.
  pose proof (Z.mod_pos_bound (start + length) bs ltac:(lia)).
  assert (0 ≤ E) by (apply Z.div_pos; lia).
  assert (∀ m, start + length ≤ m * bs → 0 ≤ m →
    sub start length (raw v m) = sub start length (sub 0 (start + length) (raw v m))) as Hin.
  { intros m _ _. by rewrite sub_sub by lia. }
  rewrite (Hin (E + 1)), (Hin n) by nia.
  destruct (decide (n ≤ E + 1)).
  - by rewrite <- (raw_prefix v n (E + 1)) by (done || nia).
  - by rewrite <- (raw_prefix v (E + 1) n) by (done || nia).
Qed.

Lemma containsAll_loop_spec (v child : T) ids :
  vr_ok v → vr_ok child → Forall (λ i, 0 ≤ i) ids →
  containsAll_loop v child ids = Ok (forallb (λ i,
    match vr_disk child !! i with
    | None => true
    | Some c => match vr_disk v !! i with
                | None => false
                | Some p => bool_decide (data_of (vr_header child) c = data_of (vr_header v) p)
                end
    end) ids).
Proof.
  intros Hv Hc Hids. induction Hids as [|i ids Hi _ IH]; [done|]. cbn [containsAll_loop forallb].
  rewrite (vr_contains child i Hc Hi). cbn [mbind result_bind].
  destruct (vr_disk child !! i) as [c|] eqn:Hci.
  - rewrite bool_decide_eq_true_2 by by eexists. rewrite (vr_read child i c Hc Hi Hci).
    cbn [mbind result_bind]. rewrite (vr_contains v i Hv Hi). cbn [mbind result_bind].
    destruct (vr_disk v !! i) as [p|] eqn:Hpi.
    + rewrite (bool_decide_eq_true_2 (is_Some _)) by by eexists. rewrite (vr_read v i p Hv Hi Hpi).
      cbn [mbind result_bind block_of b_data]. unfold data_of.
      destruct (bool_decide _); [by rewrite IH|done].
    + by rewrite (bool_decide_eq_false_2 (is_Some _)) by by intros [? ?].
  - rewrite bool_decide_eq_false_2 by by intros [? ?]. by rewrite IH.
Qed.

(** [containsAllDataOf] tells whether every block of the child is in the VHD
  with the same data. *)
Theorem containsAllDataOf_correct (v child : T) :
  vr_ok v → vr_ok child →
  ∃ r, containsAllDataOf v child = Ok r ∧
    (r = true ↔ ∀ i c, 0 ≤ i < Header.maxTableEntries (vr_header child) →
      vr_disk child !! i = Some c →
      ∃ p, vr_disk v !! i = Some p ∧ data_of (vr_header child) c = data_of (vr_header v) p).
Proof.
  intros Hv Hc. unfold containsAllDataOf. eexists. split.
  { apply containsAll_loop_spec; [done..|]. apply zrange_nonneg. lia. }
  rewrite forallb_forall. split.
  - intros Hall i c Hi Hci.
    specialize (Hall i ltac:(by apply list_elem_of_In, elem_of_zrange)). rewrite Hci in Hall.
    destruct (vr_disk v !! i) as [p|]; [|done]. exists p. split; [done|].
    by apply bool_decide_eq_true_1 in Hall.
  - intros Hall i Hi%list_elem_of_In%elem_of_zrange.
    destruct (vr_disk child !! i) as [c|] eqn:Hci; [|done].
    destruct (Hall i c Hi Hci) as (p & -> & He). by apply bool_decide_eq_true_2.
Qed.
End properties.

(** ** [mergeBlock] into a file *)

(** [VhdAbstract.mergeBlock(child, blockId)] of a [VhdFile]. *)
Definition mergeBlock {C} `{VhdReader C} (child : C) (blockId : Z) : M VhdFile Z :=
  isBlockPresent ← containsBlock blockId;
  block ← lift (vr_readBlock child blockId);
  writeEntireBlock block ;;
  h ← header;
  mret (if isBlockPresent : bool then 0 else fullBlockSize h).

(** Merging a block of any VHD with the same block size in a VHD file puts
    exactly this block in the file, keeps the others, and returns the size of a
    block when the file did not have it: what a step of the merge of the chain
    does to a parent that is a file. *)
Theorem mergeBlock_copies {C} `{VhdReaderLaws C} (child : C) s h f t i b :
  wf s h f t → vr_ok child → Header.blockSize (vr_header child) = Header.blockSize h →
  0 ≤ i < Header.maxTableEntries h → has_room h t i → vr_disk child !! i = Some b →
  ∃ s' t', returns (mergeBlock child i) s
      (if bool_decide (is_Some (disk s !! i)) then 0 else fullBlockSize h) s' ∧
    wf s' h f t' ∧ disk s' = <[i := b]> (disk s) ∧ (bat_on_disk s h t → bat_on_disk s' h t').
Proof.
  intros Hw Hc Hbs Hi Hroom Hb.
  pose proof (vr_len child i b Hc Hb) as Hl. rewrite (fullBlockSize_ext _ h Hbs) in Hl.
  destruct (writeEntireBlock_lemma s h f t Hw (block_of (vr_header child) i b) Hi Hroom Hl)
    as (s' & t' & Hr & Hw' & Hd & Hbat).
  exists s', t'. split_and!; try done. unfold mergeBlock.
  eapply returns_bind; [eapply returns_containsBlock; [done|lia]|].
  rewrite (vr_read child i b Hc ltac:(lia) Hb).
  eapply returns_bind; [apply returns_lift|]. eapply returns_bind; [exact Hr|].
  eapply returns_bind; [apply returns_header, Hw'|]. apply returns_ret.
Qed.

(** ** Witnesses: VHDs in memory *)

Record MemoryVhd := { mv_header : Header.t; mv_footer : Footer.t; mv_disk : gmap Z buffer }.

Definition memory_ok (v : MemoryVhd) : Prop :=
  header_ok (mv_header v) ∧ map_Forall (λ _ b, zlen b = fullBlockSize (mv_header v)) (mv_disk v).

#[export] Instance MemoryVhd_reader : VhdReader MemoryVhd := {|
    vr_header := mv_header;
    vr_footer := mv_footer;
    vr_containsBlock v i := Ok (bool_decide (is_Some (mv_disk v !! i)));
    vr_readBlock v i :=
      match mv_disk v !! i with
      | Some b => Ok (block_of (mv_header v) i b)
      | None => Throw (AssertionError "no such block")
      end;
  |}.

#[export] Instance MemoryVhd_laws : VhdReaderLaws MemoryVhd.
Proof.
  refine {| vr_ok := memory_ok; vr_disk := mv_disk |}.
  - by intros v [? _].
  - done.
  - intros v i b _ _ Hb. cbn. by rewrite Hb.
  - intros v i b [_ Hd] Hb. by apply (Hd i b Hb).
Defined.

Section witnesses.
(** VHDs of [n] blocks of [bs] bytes; the uuid of the footer is made of [u], the
  one of the parent of [p]. *)
Definition mem (n bs size u p type : Z) (d : gmap Z buffer) : MemoryVhd :=
  let h := new_header n 1536 bs in
  let g := computeGeometryForSize size in
  {| mv_header := Header.mk (Header.cookie h) (Header.dataOffset h) (Header.tableOffset h)
       (Header.headerVersion h) n bs 0 (zrep 16 p) 0 0 [] (Header.parentLocatorEntry h) "";
     mv_footer := new_footer size 5 g FOOTER_SIZE type (zrep 16 u);
     mv_disk := d |}.

Lemma mem_ok n bs size u p type d k :
  0 < bs → bs = k * 512 → 0 ≤ n →
  map_Forall (λ _ b, zlen b = computeFullBlockSize bs) d → memory_ok (mem n bs size u p type d).
Proof. intros Hb Hk Hn Hd. split; [|exact Hd]. split; cbn; [done|by exists k|done|done]. Qed.

Definition blk (x : Z) : buffer := zrep 512 255 ++ zrep 1024 x.
Definition mem_a : MemoryVhd := mem 3 1024 2500 1 0 3 {[ 0 := blk 1; 1 := blk 2 ]}.
Definition mem_b : MemoryVhd := mem 3 1024 2500 2 1 4 {[ 1 := blk 3 ]}.

Lemma mem_a_ok : memory_ok mem_a.
Proof.
  apply (mem_ok _ _ _ _ _ _ _ 2); try done. apply map_Forall_insert_2; [reflexivity|].
  apply map_Forall_singleton. reflexivity.
Qed.
Lemma mem_b_ok : memory_ok mem_b.
Proof. apply (mem_ok _ _ _ _ _ _ _ 2); try done. apply map_Forall_singleton. reflexivity. Qed.

Definition chain_ab : VhdSynthetic MemoryVhd := mkSynthetic mem_a [mem_b].

Lemma synthetic_reads_most_recent_witness :
  synthetic_readBlock chain_ab 1 = Ok (block_of (synthetic_header chain_ab) 1 (blk 3)) ∧
  synthetic_readBlock chain_ab 0 = Ok (block_of (synthetic_header chain_ab) 0 (blk 1)) ∧
  synthetic_containsBlock chain_ab 2 = Ok false.
Proof.
  assert (Hs : synthetic_ok chain_ab).
  { constructor; [split; [apply mem_a_ok|reflexivity]|].
    constructor; [split; [apply mem_b_ok|reflexivity]|constructor]. }
  split; [|split].
  - apply (synthetic_reads_most_recent chain_ab 1 Hs ltac:(discriminate)) with (l1 := [mem_a])
      (v := mem_b) (l2 := []); [reflexivity|reflexivity|constructor].
  - apply (synthetic_reads_most_recent chain_ab 0 Hs ltac:(discriminate)) with (l1 := [])
      (v := mem_a) (l2 := [mem_b]); [reflexivity|reflexivity|].
    constructor; [reflexivity|constructor].
  - apply (synthetic_reads_most_recent chain_ab 2 Hs ltac:(discriminate)).
    constructor; [reflexivity|]. constructor; [reflexivity|constructor].
Defined.

(** 2 MiB blocks, as in a real VHD. *)
Definition big (x : Z) : buffer := zrep (512 + 2097152) x.
Definition mem_p : MemoryVhd := mem 2 2097152 4194304 1 0 3 {[ 0 := big 7 ]}.
Definition mem_c : MemoryVhd := mem 2 2097152 4194304 2 1 4 {[ 0 := big 8; 1 := big 9 ]}.

Lemma zlen_big x : zlen (big x) = computeFullBlockSize 2097152.
Proof. unfold big. rewrite zlen_zrep. reflexivity. Qed.

Lemma negative_reverts_witness :
  ∃ n, new_VhdNegative mem_p mem_c = Ok n ∧
    raw_of (vr_header n) (vr_disk n ∪ (vr_disk mem_c ∪ vr_disk mem_p)) 1 = raw_block mem_p 1.
Proof.
  exists (mkNegative mem_p mem_c). split; [reflexivity|].
  apply (negative_reverts mem_p mem_c (mkNegative mem_p mem_c) 1).
  - reflexivity.
  - split; [|split].
    + apply (mem_ok _ _ _ _ _ _ _ 4096); [done|done|done|].
      apply map_Forall_singleton, zlen_big.
    + apply (mem_ok _ _ _ _ _ _ _ 4096); [done|done|done|].
      apply map_Forall_insert_2; [apply zlen_big|]. apply map_Forall_singleton, zlen_big.
    + reflexivity.
  - discriminate.
Defined.

Lemma rawContent_correct_witness :
  ∃ bufs, rawContent mem_a = Ok bufs ∧
    mjoin bufs = zrep 1024 1 ++ zrep 1024 2 ++ zrep 452 0 ∧ zlen (mjoin bufs) = 2500.
Proof.
  destruct (rawContent_correct mem_a) as (bufs & Hr & Hj & Hl).
  - apply mem_a_ok.
  - reflexivity.
  - reflexivity.
  - exists bufs. split; [exact Hr|]. split; [|exact Hl]. rewrite Hj. vm_compute. reflexivity.
Defined.

Lemma readRawData_correct_witness :
  ∃ buf' c', readRawData mem_a 1000 100 ∅ (zrep 100 9) = Ok (100, buf', c') ∧
    sub 0 100 buf' = zrep 24 1 ++ zrep 76 2.
Proof.
  destruct (readRawData_correct mem_a 1000 100 ∅ (zrep 100 9)) as (buf' & c' & Hr & _ & _ & Hs).
  - apply mem_a_ok.
  - discriminate.
  - discriminate.
  - intros i d Hd. rewrite lookup_empty in Hd. discriminate.
  - vm_compute. discriminate.
  - exists buf', c'. split; [exact Hr|]. rewrite (Hs 3 ltac:(vm_compute; discriminate)).
    vm_compute. reflexivity.
Defined.

Lemma containsAllDataOf_correct_witness :
  containsAllDataOf mem_a mem_b = Ok false ∧ containsAllDataOf mem_a mem_a = Ok true.
Proof.
  split.
  - destruct (containsAllDataOf_correct mem_a mem_b) as ([|] & Hr & Hi);
      [apply mem_a_ok|apply mem_b_ok| |exact Hr].
    destruct (proj1 Hi eq_refl 1 (blk 3)) as (p & Hp & He);
      [split; [discriminate|reflexivity]|reflexivity|].
    injection Hp as <-. vm_compute in He. discriminate.
  - destruct (containsAllDataOf_correct mem_a mem_a) as (r & Hr & Hi); [apply mem_a_ok..|].
    rewrite Hr. f_equal. apply Hi. intros i c _ Hc. exists c. split; [exact Hc|reflexivity].
Defined.

Lemma mergeBlock_copies_witness :
  ∃ s' t', returns (mergeBlock mem_b 1) small_vhd 1536 s' ∧ wf s' small_header small_footer t' ∧
    disk s' = {[ 1 := blk 3 ]}.
Proof.
  destruct (mergeBlock_copies mem_b small_vhd small_header small_footer small_table 1 (blk 3))
    as (s' & t' & Hr & Hw & Hd & _).
  - apply small_vhd_wf.
  - apply mem_b_ok.
  - reflexivity.
  - split; [discriminate|reflexivity].
  - apply small_room.
  - reflexivity.
  - exists s', t'. split; [exact Hr|]. split; [exact Hw|]. rewrite Hd. reflexivity.
Defined.

(** ** A case that the code does not handle *)

(** When the table has more entries than the size needs, [rawContent] yields
  more bytes than the disk has: the remaining size becomes negative and
  [slice(0, remainingSize)] then counts from the end of the block. *)
Lemma rawContent_extra_bytes :
  let v := mem 5 1024 2500 1 0 3 {[ 0 := blk 1 ]} in
  Footer.currentSize (vr_footer v) = 2500 ∧
  (zlen ∘ mjoin) <$> rawContent v = Ok 2952.
Proof. vm_compute. done. Qed.
End witnesses.
