(* ===== verification/JsValues.v ===== *)
(** * Strings and numbers of JavaScript

    What the modelled code uses of the language: strings as lists of code units
    (limited to U+0000-U+00FF, one [ascii] each), the case of characters, numbers
    as IEEE doubles ([spec_float] of the Standard Library) with the conversions
    [+string] and [String(number)]. *)

From Stdlib Require Export Ascii Strings.String Floats.SpecFloat.
From stdpp Require Export strings pretty.
From S2P Require Import Prelude.

Global Set Warnings "-register-all".

(** ** Strings *)

Definition jstring := list ascii.
Definition js (s : string) : jstring := list_ascii_of_string s.
Arguments js s%_string.

#[export] Instance jstring_eq_dec : EqDecision jstring.
Proof. unfold jstring. apply _. Defined.
#[export] Instance jstring_countable : Countable jstring.
Proof. unfold jstring. apply _. Defined.

Definition code (c : ascii) : Z := Z.of_N (N_of_ascii c).
Definition chr (z : Z) : ascii := ascii_of_N (Z.to_N z).

Definition between (a b c : Z) : bool := (a <=? c) && (c <=? b).

Definition is_digit (c : ascii) : bool := between 48 57 (code c).

(** The letters that have another case, in this range: [µ], [ß] and [ÿ] have an
    upper case out of it. *)
Definition is_upper (c : ascii) : bool :=
  between 65 90 (code c) || between 192 222 (code c) && negb (code c =? 215).
Definition is_lower (c : ascii) : bool :=
  between 97 122 (code c) || (code c =? 181) ||
  between 223 255 (code c) && negb (code c =? 247).
(** [!(c === c.toUpperCase() && c === c.toLowerCase())] *)
Definition is_cased (c : ascii) : bool := is_upper c || is_lower c.

Definition toLowerCase (s : jstring) : jstring :=
  map (λ c, if is_upper c then chr (code c + 32) else c) s.

(** How a regular expression with the flag [i] compares characters: by the code of
    the upper case, when it is one code unit. *)
Definition canonicalize (c : ascii) : Z :=
  if code c =? 255 then 0x178
  else if code c =? 181 then 0x39c
  else if is_lower c && negb (code c =? 223) then code c - 32
  else code c.

(** [\s] *)
Definition is_space (c : ascii) : bool :=
  between 9 13 (code c) || (code c =? 32) || (code c =? 160).

(** [.] of a regular expression does not match these. *)
Definition is_line_terminator (c : ascii) : bool := (code c =? 10) || (code c =? 13).

(** [input.startsWith(text)] *)
Definition startsWith (text s : jstring) : bool := bool_decide (take (length text) s = text).

(** [s.indexOf(text) !== -1] *)
Fixpoint contains (text s : jstring) : bool :=
  startsWith text s || match s with [] => false | _ :: s => contains text s end.

(** [parts.join(sep)] *)
Fixpoint join (sep : jstring) (parts : list jstring) : jstring :=
  match parts with
  | [] => []
  | [p] => p
  | p :: ps => p ++ sep ++ join sep ps
  end.

(** [s.split(c)] *)
Fixpoint split_char (c : ascii) (s : jstring) : list jstring :=
  match s with
  | [] => [[]]
  | x :: s =>
      if Ascii.eqb x c then [] :: split_char c s
      else match split_char c s with
           | [] => [[x]]
           | p :: ps => (x :: p) :: ps
           end
  end.

Fixpoint span (f : ascii → bool) (s : jstring) : jstring * jstring :=
  match s with
  | [] => ([], [])
  | c :: s' => if f c then let '(a, b) := span f s' in (c :: a, b) else ([], s)
  end.

Definition trim (s : jstring) : jstring :=
  let left := snd (span is_space s) in rev (snd (span is_space (rev left))).

(** ** Texts, in the order of [<], that of the code units *)

Fixpoint lt_str (a b : jstring) : bool :=
  match a, b with
  | _, [] => false
  | [], _ => true
  | x :: a', y :: b' => if code x =? code y then lt_str a' b' else code x <? code y
  end.

Definition le_str (a b : jstring) : Prop := lt_str b a = false.

#[export] Instance le_str_dec a b : Decision (le_str a b).
Proof. unfold le_str. apply _. Defined.

Lemma code_inj x y : code x = code y → x = y.
Proof.
  unfold code. intros H. apply N2Z.inj in H. rewrite <- (ascii_N_embedding x), <- (ascii_N_embedding y). by f_equal.
Qed.

Lemma lt_str_irrefl a : lt_str a a = false.
Proof. induction a as [|x a IH]; cbn; [done|]. by rewrite Z.eqb_refl. Qed.

Lemma lt_str_trans a b c : lt_str a b = true → lt_str b c = true → lt_str a c = true.
Proof.
  revert b c. induction a as [|x a IH]; intros [|y b] [|z c]; cbn; try done.
  destruct (Z.eqb_spec (code x) (code y)), (Z.eqb_spec (code y) (code z)), (Z.eqb_spec (code x) (code z));
    rewrite ?Z.ltb_lt; intros; try lia; eauto.
Qed.

Lemma lt_str_total a b : lt_str a b = false → lt_str b a = false → a = b.
Proof.
  revert b. induction a as [|x a IH]; intros [|y b]; cbn; try done.
  rewrite (Z.eqb_sym (code y)). destruct (Z.eqb_spec (code x) (code y)) as [E|]; rewrite ?Z.ltb_ge; intros; [|lia].
  f_equal; [by apply code_inj|auto].
Qed.

#[export] Instance le_str_total : Total le_str.
Proof.
  intros a b. unfold le_str. destruct (lt_str b a) eqn:E; [|by left]. right.
  destruct (lt_str a b) eqn:E'; [|done]. pose proof (lt_str_trans _ _ _ E E') as H. by rewrite lt_str_irrefl in H.
Qed.

Lemma lt_str_asym a b : lt_str a b = true → lt_str b a = false.
Proof. intros H. destruct (lt_str b a) eqn:E; [|done]. pose proof (lt_str_trans _ _ _ H E) as F. by rewrite lt_str_irrefl in F. Qed.

#[export] Instance le_str_trans : Transitive le_str.
Proof.
  intros a b c H1 H2. unfold le_str in *. destruct (lt_str c a) eqn:E; [|done].
  destruct (lt_str a b) eqn:E1; [by rewrite (lt_str_trans _ _ _ E E1) in H2|].
  rewrite (lt_str_total a b) in E by done. congruence.
Qed.

Lemma le_str_lt a b : le_str a b → a ≠ b → lt_str a b = true.
Proof. intros H Hn. destruct (lt_str a b) eqn:E; [done|]. by destruct Hn; apply lt_str_total. Qed.

(** ** Numbers *)

Definition number := spec_float.

#[export] Instance number_eq_dec : EqDecision number.
Proof. solve_decision. Defined.

Definition NaN : number := S754_nan.
Definition is_nan (x : number) : bool := match x with S754_nan => true | _ => false end.

(** [n / d], correctly rounded. *)
Definition ratio (neg : bool) (n d : positive) : number :=
  let '(m, e, l) := SFdiv_core_binary 53 1024 (Zpos n) 0 (Zpos d) 0 in
  binary_round_aux 53 1024 neg m e l.

(** [m * 10 ^ e] for [0 <= m]; a number out of the range of the doubles by far is
    not computed. *)
Definition decimal (neg : bool) (m e : Z) : number :=
  match m with
  | Zpos p =>
      let magnitude := Z.log2 m / 3 + e in
      if 400 <? magnitude then S754_infinity neg
      else if magnitude <? -500 then S754_zero neg
      else if 0 <=? e then ratio neg (Z.to_pos (m * 10 ^ e)) 1
      else ratio neg p (Z.to_pos (10 ^ (- e)))
  | _ => S754_zero neg
  end.

Definition num_of_Z (z : Z) : number := decimal (z <? 0) (Z.abs z) 0.

Definition strict_eq (a b : number) : bool := SFeqb a b.

(** *** [+string] *)

Definition digit_value (c : ascii) : option Z :=
  if is_digit c then Some (code c - 48)
  else if between 97 122 (code c) then Some (code c - 87)
  else if between 65 90 (code c) then Some (code c - 55)
  else None.

Definition is_digit_of (base : Z) (c : ascii) : bool :=
  match digit_value c with Some d => d <? base | None => false end.

Definition digits_value (base : Z) (s : jstring) : Z :=
  foldl (λ n c, n * base + default 0 (digit_value c)) 0 s.

(** Digits only, at least one. *)
Definition read_digits (base : Z) (s : jstring) : option Z :=
  match s with
  | [] => None
  | _ => if forallb (is_digit_of base) s then Some (digits_value base s) else None
  end.

(** What follows [e] or [E]: an optional sign and digits. *)
Definition read_exponent (s : jstring) : option Z :=
  match s with
  | "+"%char :: s => read_digits 10 s
  | "-"%char :: s => Z.opp <$> read_digits 10 s
  | s => read_digits 10 s
  end.

Definition read_unsigned_decimal (neg : bool) (s : jstring) : number :=
  if bool_decide (s = js "Infinity") then S754_infinity neg
  else
    let '(int, s) := span is_digit s in
    let '(frac, s) := match s with "."%char :: s => span is_digit s | _ => ([], s) end in
    let exponent := match s with
                    | [] => Some 0
                    | c :: s => if bool_decide (c = "e"%char ∨ c = "E"%char) then read_exponent s else None
                    end in
    match int ++ frac, exponent with
    | [], _ | _, None => NaN
    | digits, Some e => decimal neg (digits_value 10 digits) (e - Z.of_nat (length frac))
    end.

Definition read_decimal (s : jstring) : number :=
  match s with
  | "-"%char :: s => read_unsigned_decimal true s
  | "+"%char :: s => read_unsigned_decimal false s
  | s => read_unsigned_decimal false s
  end.

Definition read_radix (base : Z) (s : jstring) : number :=
  match read_digits base s with Some n => decimal false n 0 | None => NaN end.

Definition to_number (s : jstring) : number :=
  match trim s with
  | [] => S754_zero false
  | ("0"%char :: c :: s') as s =>
      if bool_decide (c = "x"%char ∨ c = "X"%char) then read_radix 16 s'
      else if bool_decide (c = "o"%char ∨ c = "O"%char) then read_radix 8 s'
      else if bool_decide (c = "b"%char ∨ c = "B"%char) then read_radix 2 s'
      else read_decimal s
  | s => read_decimal s
  end.

(** *** [String(number)] *)

Definition Z_digits (z : Z) : jstring := js (pretty z).
Definition zeros (n : Z) : jstring := replicate (Z.to_nat n) "0"%char.

(** The [s], [k] and [n] of the specification: the number is [s * 10 ^ (n - k)]
    and [s] has [k] digits. *)
Definition format_digits (s k n : Z) : jstring :=
  let digits := Z_digits s in
  if bool_decide (k <= n <= 21) then digits ++ zeros (n - k)
  else if bool_decide (0 < n <= 21) then
    take (Z.to_nat n) digits ++ js "." ++ drop (Z.to_nat n) digits
  else if bool_decide (-6 < n <= 0) then js "0." ++ zeros (- n) ++ digits
  else
    let e := n - 1 in
    let exponent := (if 0 <? e then js "e+" else js "e-") ++ Z_digits (Z.abs e) in
    match digits with
    | [d] => d :: exponent
    | d :: ds => d :: js "." ++ ds ++ exponent
    | [] => exponent
    end.

(** [p / q * 10 ^ e] as a fraction. *)
Definition scale (p q e : Z) : Z * Z :=
  if 0 <=? e then (p * 10 ^ e, q) else (p, q * 10 ^ (- e)).

(** The [n] with [10 ^ (n - 1) <= p / q < 10 ^ n], from an estimate below it. *)
Fixpoint decimal_exponent (fuel : nat) (p q n : Z) : Z :=
  match fuel with
  | O => n
  | S fuel =>
      let '(a, b) := scale p q (- n) in
      if a <? b then n else decimal_exponent fuel p q (n + 1)
  end.

(** The candidates with [k] digits, the closest first, that read back as [x]. *)
Definition digits_with (x : number) (p q n k : Z) : option (Z * Z) :=
  let '(a, b) := scale p q (k - n) in
  let lo := a / b in
  let r := 2 * (a mod b) in
  let first_hi := (b <? r) || (b =? r) && Z.odd lo in
  let ok s := bool_decide (decimal false s (n - k) = x) in
  let '(s1, s2) := if first_hi then (lo + 1, lo) else (lo, lo + 1) in
  if ok s1 then Some (s1, n) else if ok s2 then Some (s2, n) else None.

Fixpoint shortest (fuel : nat) (x : number) (p q n k : Z) : Z * Z * Z :=
  match fuel with
  | O => let '(a, b) := scale p q (k - n) in (a / b, k, n)
  | S fuel =>
      match digits_with x p q n k with
      | Some (s, n) =>
          if bool_decide (s = 10 ^ k) then (10 ^ (k - 1), k, n + 1) else (s, k, n)
      | None => shortest fuel x p q n (k + 1)
      end
  end.

Definition num_to_string (x : number) : jstring :=
  match x with
  | S754_nan => js "NaN"
  | S754_zero _ => js "0"
  | S754_infinity neg => (if neg then js "-" else []) ++ js "Infinity"
  | S754_finite neg m e =>
      let p := if 0 <=? e then Zpos m * 2 ^ e else Zpos m in
      let q := if 0 <=? e then 1 else 2 ^ (- e) in
      let estimate := (Z.log2 (Zpos m) + e) * 3 / 10 - 3 in
      let n := decimal_exponent 10 p q estimate in
      let '(s, k, n) := shortest 17 (S754_finite false m e) p q n 1 in
      (if neg then js "-" else []) ++ format_digits s k n
  end.

Example to_number_1 : to_number (js " -12.50e1 ") = num_of_Z (-125). Proof. reflexivity. Qed.
Example to_number_2 : to_number (js "0x1F") = num_of_Z 31. Proof. reflexivity. Qed.
Example to_number_3 : is_nan (to_number (js "12a")) = true. Proof. reflexivity. Qed.
Example to_number_4 : to_number (js "1e400") = S754_infinity false. Proof. vm_compute. reflexivity. Qed.
Example to_number_5 : to_number (js "4.9e-324") = S754_finite false 1 (-1074).
Proof. vm_compute. reflexivity. Qed.
(** Numbers whose text is read and printed back unchanged. *)
Definition num_samples : list jstring :=
  [js "0.1"; js "1e+23"; js "123456789012345680000"; js "1e+21"; js "5e-324";
   js "1.7976931348623157e+308"; js "0.000001"; js "1e-7"; js "-3.14"; js "9007199254740992";
   js "2.2250738585072014e-308"; js "100"; js "0.30000000000000004"; js "0"].
Example num_to_string_samples : map (λ s, num_to_string (to_number s)) num_samples = num_samples.
Proof. vm_compute. reflexivity. Qed.

(** ** Values *)

(** Data as the code receives it.  Functions are opaque; an object is plain or has
    another prototype than [Object]'s. *)
Inductive jsval :=
  | VUndefined
  | VNull
  | VBool (b : bool)
  | VNum (x : number)
  | VStr (s : jstring)
  | VArr (l : list jsval)
  | VObj (plain : bool) (fields : list (jstring * jsval))
  | VFun (id : Z).

Fixpoint jsval_eqb (v w : jsval) {struct v} : bool :=
  match v, w with
  | VUndefined, VUndefined | VNull, VNull => true
  | VBool b, VBool c => Bool.eqb b c
  | VNum x, VNum y => bool_decide (x = y)
  | VStr s, VStr t => bool_decide (s = t)
  | VArr l, VArr m =>
      (fix go (l m : list jsval) :=
        match l, m with
        | [], [] => true
        | v :: l, w :: m => jsval_eqb v w && go l m
        | _, _ => false
        end) l m
  | VObj p l, VObj q m =>
      Bool.eqb p q &&
      (fix go (l m : list (jstring * jsval)) :=
        match l, m with
        | [], [] => true
        | (k, v) :: l, (k', w) :: m => bool_decide (k = k') && jsval_eqb v w && go l m
        | _, _ => false
        end) l m
  | VFun i, VFun j => Z.eqb i j
  | _, _ => false
  end.

Lemma jsval_eqb_eq v w : jsval_eqb v w = true ↔ v = w.
Proof.
  assert (∀ v w, (jsval_eqb v w = true → v = w) ∧ jsval_eqb v v = true) as H; [|by split; [apply H|intros <-; apply H]].
  clear v w. fix IH 1. intros v w. split.
  - destruct v as [| |b|x|s|l|p l|i], w as [| |c|y|t|m|q m|j]; cbn; try done.
    + by intros ->%Bool.eqb_prop.
    + by intros ->%bool_decide_eq_true_1.
    + by intros ->%bool_decide_eq_true_1.
    + intros E. f_equal. revert m E. induction l as [|v l IHl]; intros [|w m]; try done.
      intros [Hv Hl]%andb_true_iff. f_equal; [by apply (IH v w)|by apply IHl].
    + intros [->%Bool.eqb_prop E]%andb_true_iff. f_equal. revert m E. induction l as [|[k v] l IHl]; intros [|[k' w] m]; try done.
      intros [[->%bool_decide_eq_true_1 Hv]%andb_true_iff Hl]%andb_true_iff. f_equal; [f_equal; by apply (IH v w)|by apply IHl].
    + by intros ->%Z.eqb_eq.
  - destruct v as [| |b|x|s|l|p l|i]; cbn; try done.
    + apply Bool.eqb_reflx.
    + by apply bool_decide_eq_true_2.
    + by apply bool_decide_eq_true_2.
    + induction l as [|v l IHl]; [done|]. by rewrite (proj2 (IH v v)), IHl.
    + rewrite Bool.eqb_reflx. cbn [andb]. induction l as [|[k v] l IHl]; [done|]. rewrite bool_decide_eq_true_2, (proj2 (IH v v)) by done. exact IHl.
    + apply Z.eqb_refl.
Qed.

#[export] Instance jsval_eq_dec : EqDecision jsval.
Proof. intros v w. destruct (jsval_eqb v w) eqn:E; [left; by apply jsval_eqb_eq|right; intros H%jsval_eqb_eq; congruence]. Defined.

(** [value === undefined || value === null] *)
Definition is_nullish (v : jsval) : bool :=
  match v with VUndefined | VNull => true | _ => false end.

(** [!!value] *)
Definition truthy (v : jsval) : bool :=
  match v with
  | VUndefined | VNull => false
  | VBool b => b
  | VNum (S754_zero _ | S754_nan) => false
  | VStr [] => false
  | _ => true
  end.

Definition is_array (v : jsval) : bool := match v with VArr _ => true | _ => false end.

Fixpoint depth (v : jsval) : nat :=
  match v with
  | VArr l => S (foldr (λ x n, Nat.max (depth x) n) O l)
  | VObj _ fields => S (foldr (λ '(_, x) n, Nat.max (depth x) n) O fields)
  | _ => O
  end.

Fixpoint assoc {A} (name : jstring) (fields : list (jstring * A)) : option A :=
  match fields with
  | [] => None
  | (k, x) :: fields => if bool_decide (k = name) then Some x else assoc name fields
  end.

(** The members that any plain object inherits from [Object.prototype]. *)
Definition object_prototype : list jstring :=
  [js "constructor"; js "__proto__"; js "hasOwnProperty"; js "isPrototypeOf";
   js "propertyIsEnumerable"; js "toLocaleString"; js "toString"; js "valueOf";
   js "__defineGetter__"; js "__defineSetter__"; js "__lookupGetter__"; js "__lookupSetter__"].

(** [name] as the index of an element, when it is written as one. *)
Definition array_index (name : jstring) : option nat :=
  match read_digits 10 name with
  | Some n => if bool_decide (Z_digits n = name) then Some (Z.to_nat n) else None
  | None => None
  end.

Definition length_val {A} (l : list A) : jsval := VNum (num_of_Z (Z.of_nat (length l))).

(** The own property [name] of a value. *)
Definition own_property (v : jsval) (name : jstring) : option jsval :=
  match v with
  | VObj _ fields => assoc name fields
  | VArr l =>
      if bool_decide (name = js "length") then Some (length_val l)
      else i ← array_index name; l !! i
  | VStr s =>
      if bool_decide (name = js "length") then Some (length_val s)
      else i ← array_index name; c ← s !! i; Some (VStr [c])
  | _ => None
  end.

(** ** The digits of an integer *)

Lemma pretty_N_go_digits x s :
  (∀ c, c ∈ js s → is_digit c = true) → ∀ c, c ∈ js (pretty_N_go x s) → is_digit c = true.
Proof.
  revert s. induction (N.lt_wf_0 x) as [x _ IH]; intros s Hs.
  destruct (decide (x = 0)%N) as [->|Hx]; [by rewrite pretty_N_go_0|].
  rewrite pretty_N_go_step by lia. apply IH; [apply N.div_lt; lia|].
  intros c [->|Hc]%elem_of_cons; [|by apply Hs]. unfold pretty_N_char. by repeat case_match.
Qed.

Lemma Z_digits_digits z c : 0 ≤ z → c ∈ Z_digits z → is_digit c = true.
Proof.
  intros Hz. unfold Z_digits, pretty, pretty_Z. destruct z as [|p|p]; [| |lia].
  - cbn. intros Hc%list_elem_of_singleton. by subst c.
  - change (c ∈ js (pretty_N_go (N.pos p) "") → is_digit c = true).
    apply pretty_N_go_digits. by intros ? ?%elem_of_nil.
Qed.

Lemma Z_digits_inj a b : Z_digits a = Z_digits b → a = b.
Proof.
  unfold Z_digits, js. intros H. apply (inj pretty).
  rewrite <-(string_of_list_ascii_of_string (pretty a)), H. apply string_of_list_ascii_of_string.
Qed.

Lemma digit_value_char x : (x < 10)%N → digit_value (pretty_N_char x) = Some (Z.of_N x).
Proof.
  intros Hx. assert (x = 0 ∨ x = 1 ∨ x = 2 ∨ x = 3 ∨ x = 4 ∨ x = 5 ∨ x = 6 ∨ x = 7 ∨ x = 8 ∨ x = 9)%N as H by lia.
  destruct_or!; subst; reflexivity.
Qed.

Lemma digits_value_go x s :
  digits_value 10 (js (pretty_N_go x s)) =
  foldl (λ n c, n * 10 + default 0 (digit_value c)) (Z.of_N x) (js s).
Proof.
  unfold digits_value. revert s. induction (N.lt_wf_0 x) as [x _ IH]; intros s.
  destruct (decide (x = 0)%N) as [->|Hx]; [by rewrite pretty_N_go_0|].
  rewrite pretty_N_go_step by lia. rewrite IH by (apply N.div_lt; lia).
  cbn [js list_ascii_of_string foldl]. rewrite digit_value_char by (apply N.mod_lt; lia).
  cbn [from_option Datatypes.id]. f_equal. pose proof (N.div_mod x 10 ltac:(lia)). unfold Datatypes.id. lia.
Qed.

(** The digits read back as the integer. *)
Lemma digits_value_Z_digits z : 0 ≤ z → digits_value 10 (Z_digits z) = z.
Proof.
  intros Hz. destruct z as [|p|p]; [reflexivity| |lia].
  change (Z_digits (Z.pos p)) with (js (pretty_N_go (N.pos p) "")). by rewrite digits_value_go.
Qed.
