(* ===== verification/VhdDirectory.v ===== *)
(** * A VHD in a directory

    packages/vhd-lib/Vhd/VhdDirectory.js: a VHD whose header, footer, table and
    blocks are files of a directory, each compressed.  The table has a bit for each
    block.

    The state is the content of the files of the handler, shared by the VHDs of a
    remote, and the fields of the object.  The compressors of zlib are a parameter
    ([Zlib]) with the law that they decompress what they compress; [none] and [zeros]
    are the functions of the code.

    [dir_ok] says that the block of each bit of the table can be read and [dir_disk] is
    the finite map of these blocks.  Writing a block is an insertion in this map,
    a VHD is found again when it is opened, and the merge of a block moves it from a
    directory to another. *)

From S2P Require Import Prelude JsValues Buffers VhdFormat ZeroFilter StructFu VhdStructs VhdFile VhdLayout VhdBlocks VhdHeaders VhdReader.

Local Open Scope Z_scope.

(** ** The handler: files by path *)

Definition ENOENT : error := OtherError "ENOENT".
Definition EEXIST : error := OtherError "EEXIST".

Abbreviation Files := (gmap jstring buffer).

Module Fs.
Definition readFile (files : Files) (path : jstring) : result buffer :=
  match files !! path with Some b => Ok b | None => Throw ENOENT end.

(** [outputFile(path, data, { flags })] and [writeFile]: [wx] refuses to replace a
    file, and is the default. *)
Definition outputFile (files : Files) (path : jstring) (data : buffer) (flags : option jstring) : result Files :=
  let flags := default (js "wx") flags in
  if bool_decide (flags = js "w" ∨ flags = js "w+") then Ok (<[path := data]> files)
  else if bool_decide (flags = js "wx" ∨ flags = js "wx+") then
    match files !! path with Some _ => Throw EEXIST | None => Ok (<[path := data]> files) end
  else Throw (OtherError "EBADF").

(** [rename(oldPath, newPath)] makes the directory of [newPath] when it is missing. *)
Definition rename (files : Files) (oldPath newPath : jstring) : result Files :=
  match files !! oldPath with
  | Some b => Ok (<[newPath := b]> (delete oldPath files))
  | None => Throw ENOENT
  end.

Definition getSizeOnDisk (files : Files) (path : jstring) : result Z :=
  b ← readFile files path; Ok (zlen b).
End Fs.

(** ** Compressors *)

(** gzip, brotli and zstd, by identifier. *)
Class Zlib := {
  zlib_compress : jstring → buffer → buffer;
  zlib_decompress : jstring → buffer → result buffer;
  zstdCompress : bool;                        (* zlib.zstdCompress !== undefined *)
}.
Class ZlibLaws `{Zlib} := {
  zlib_roundtrip id b : zlib_decompress id (zlib_compress id b) = Ok b;
}.

Module Dir.
Section compressors.
Context `{Zlib}.
(** What an unfilled buffer of this size contains. *)
Context (unsafe : Z → buffer).

Definition COMPRESSORS : list jstring :=
  [js "gzip"; js "brotli"; js "none"; js "zeros"] ++ (if zstdCompress then [js "zstd"] else []).

(** [getCompressor(compressorType).id]; the compressor by default is [none]. *)
Definition getCompressor (compressorType : option jstring) : result jstring :=
  match compressorType with
  | None => Ok (js "none")
  | Some id => if bool_decide (id ∈ COMPRESSORS) then Ok id
               else Throw (OtherError "Compression type is not supported")
  end.

Definition compress (id : jstring) (b : buffer) : result buffer :=
  if bool_decide (id = js "none") then Ok b
  else if bool_decide (id = js "zeros") then parts ← removeZeroPages (λ _, b) [0%nat]; Ok (mjoin (M := list) (A := Z) parts)
  else Ok (zlib_compress id b).

Definition decompress (id : jstring) (b : buffer) : result buffer :=
  if bool_decide (id = js "none") then Ok b
  else if bool_decide (id = js "zeros") then restoreZeroPages unsafe b
  else zlib_decompress id b.
End compressors.

(** ** The object *)

Record t := mk {
  path : jstring;
  flags : option jstring;                 (* this._opts?.flags *)
  compressionType : jstring;              (* this.#compressor.id *)
  uncheckedBlockTable : option buffer;
  the_header : option Header.t;
  the_footer : option Footer.t;
}.

Record State := mkState { files : Files; this : t }.

Definition set_this (f : t → t) (s : State) : State := mkState (files s) (f (this s)).
Definition set_files (fs : Files) (s : State) : State := mkState fs (this s).
Definition set_blockTable (b : buffer) : State → State := set_this (λ d,
  mk (path d) (flags d) (compressionType d) (Some b) (the_header d) (the_footer d)).
Definition set_the_header (h : Header.t) : State → State := set_this (λ d,
  mk (path d) (flags d) (compressionType d) (uncheckedBlockTable d) (Some h) (the_footer d)).
Definition set_footer (f : Footer.t) : State → State := set_this (λ d,
  mk (path d) (flags d) (compressionType d) (uncheckedBlockTable d) (the_header d) (Some f)).
Definition set_compressor (id : jstring) : State → State := set_this (λ d,
  mk (path d) (flags d) id (uncheckedBlockTable d) (the_header d) (the_footer d)).

Abbreviation D := (M State).

(** [get header()] *)
Definition header : D Header.t := fun s =>
  (match the_header (this s) with
   | Some h => Ok h
   | None => Throw (AssertionError "header must be read before it's used")
   end, s).
Definition footer : D Footer.t := fun s =>
  (match the_footer (this s) with Some f => Ok f | None => undefined_field _ end, s).
(** [get #blockTable()] *)
Definition blockTable : D buffer := fun s =>
  (match uncheckedBlockTable (this s) with
   | Some b => Ok b
   | None => Throw (AssertionError "Block table must be initialized before access")
   end, s).

(** [set header(header)]: the table has a byte for each entry. *)
Definition assign_header (h : Header.t) : D unit :=
  modify (set_the_header h) ;;
  modify (set_blockTable (zrep (Header.maxTableEntries h) 0)).

(** ** Chunks *)

Definition getChunkPath (path partName : jstring) : jstring := path ++ js "/" ++ partName.

(** [`blocks/${blockPrefix}/${blockSuffix}`] *)
Definition getBlockPath (blockId : Z) : jstring :=
  let blockPrefix := blockId / 1000 in
  let blockSuffix := blockId - blockPrefix * 1000 in
  js "blocks/" ++ Z_digits blockPrefix ++ js "/" ++ Z_digits blockSuffix.

Definition getFullBlockPath (path : jstring) (blockId : Z) : jstring := getChunkPath path (getBlockPath blockId).

Definition locator_name (id : Z) : jstring := js "parentLocatorEntry" ++ Z_digits id.

Section vhd.
Context `{!StructFu, !Zlib}.
Context (unsafe : Z → buffer).

Definition _readChunk (partName : jstring) : D buffer := fun s =>
  (b ← Fs.readFile (files s) (getChunkPath (path (this s)) partName);
   decompress unsafe (compressionType (this s)) b, s).

Definition write_files (r : Files → result Files) : D unit := fun s =>
  match r (files s) with
  | Ok fs => (Ok tt, set_files fs s)
  | Throw e => (Throw e, s)
  end.

(** [#outputChunk(partName, buffer)] *)
Definition outputChunk (partName : jstring) (b : buffer) : D unit :=
  d ← gets this;
  let flags := if bool_decide (flags d = Some (js "r+")) then Some (js "w") else flags d in
  write_files (λ fs, Fs.outputFile fs (getChunkPath (path d) partName) b flags).

(** [buffer] is the concatenation of the array when there is one. *)
Definition _writeChunk (partName : jstring) (b : buffer) : D unit :=
  d ← gets this;
  assert_that (bool_decide (flags d ≠ Some (js "r"))) "Can't write a chunk with read permission" ;;
  compressed ← lift (compress (compressionType d) b);
  outputChunk partName compressed.

Definition containsBlock (blockId : Z) : D bool := t ← blockTable; mret (Bitmap.test t blockId).

(** [setBitmap(this.#blockTable, blockId)] *)
Definition setBitmap (blockId : Z) : D unit :=
  t ← blockTable; modify (set_blockTable (Bitmap.set t blockId)).

Definition setAllocatedBlocks (blockIds : list Z) : D unit := for_each blockIds setBitmap.

Definition readBlockAllocationTable : D unit :=
  b ← _readChunk (js "bat"); modify (set_blockTable b).

(** [writeBlockAllocationTable()], without argument. *)
Definition writeBlockAllocationTable : D unit :=
  t ← blockTable;
  assert_that (bool_decide (zlen t ≠ 0)) "Block allocation table is empty" ;;
  _writeChunk (js "bat") t.

(** ** Blocks *)

(** [readBlock(blockId)]; [onlyBitmap] is not implemented by the code. *)
Definition readBlock (blockId : Z) : D Block :=
  b ← _readChunk (getBlockPath blockId);
  h ← header;
  assert_that (bool_decide (zlen b = fullBlockSize h)) "partial read of a block" ;;
  mret (mkBlock blockId (buf_slice b 0 (bitmapSize h)) (buf_slice b (bitmapSize h) (zlen b)) b).

Definition readCompressedBlock (blockId : Z) : D buffer := fun s =>
  (Fs.readFile (files s) (getFullBlockPath (path (this s)) blockId), s).

Definition writeEntireBlock (block : Block) : D unit :=
  h ← header;
  assert_that (bool_decide (zlen (b_buffer block) = fullBlockSize h)) "partial block can't be written" ;;
  _writeChunk (getBlockPath (b_id block)) (b_buffer block) ;;
  setBitmap (b_id block).

Definition writeBlockData (blockId : Z) (data : buffer) : D unit :=
  h ← header;
  assert_that (bool_decide (zlen data = Header.blockSize h)) "block must be blockSize bytes" ;;
  _writeChunk (getBlockPath blockId) (zrep (bitmapSize h) 255 ++ data) ;;
  setBitmap blockId.

Definition writeCompressedBlock (blockId : Z) (b : buffer) : D unit :=
  d ← gets this;
  assert_that (bool_decide (flags d ≠ Some (js "r"))) "Can't write block with read permission" ;;
  outputChunk (getBlockPath blockId) b ;;
  setBitmap blockId.

(** ** Parent locators *)

Definition _readParentLocatorData (id : Z) : D buffer := _readChunk (locator_name id).

Definition _writeParentLocatorData (id : Z) (data : buffer) : D unit :=
  _writeChunk (locator_name id) data ;;
  h ← header;
  e ← lift (locator h id);
  modify (set_the_header (Header.with_parentLocatorEntry
    (<[Z.to_nat id := with_offset 0 e]> (Header.parentLocatorEntry h)) h)).

(** ** Headers *)

(** The bytes of an ASCII text and back. *)
Definition text_bytes (s : jstring) : buffer := code <$> s.
Definition bytes_text (b : buffer) : jstring := chr <$> b.

(** [JSON.stringify([compressionType])] and [JSON.parse], on arrays of strings
    without escapes nor spaces. *)
Definition quote : ascii := ascii_of_N 34.
Definition stringify (s : jstring) : jstring := js "[" ++ quote :: s ++ quote :: js "]".
Definition parse_filters (s : jstring) : result (list jstring) :=
  match s with
  | "["%char :: c :: s =>
      if Ascii.eqb c quote then
        let '(id, rest) := span (λ c, negb (Ascii.eqb c quote)) s in
        if bool_decide (rest = [quote; "]"%char]) then Ok [id] else Throw (SyntaxError "JSON")
      else if bool_decide (c = "]"%char ∧ s = []) then Ok []
      else Throw (SyntaxError "JSON")
  | _ => Throw (SyntaxError "JSON")
  end.

Definition filters_path (path : jstring) : jstring := path ++ js "/chunk-filters.json".

(** [#writeChunkFilters()]: every compressor has an identifier. *)
Definition writeChunkFilters : D unit :=
  d ← gets this;
  write_files (λ fs, Fs.outputFile fs (filters_path (path d)) (text_bytes (stringify (compressionType d))) (Some (js "w"))).

(** [#readChunkFilters()] *)
Definition readChunkFilters : D unit :=
  s ← gets id;
  filters ← lift (match Fs.readFile (files s) (filters_path (path (this s))) with
                  | Ok b => parse_filters (bytes_text b)
                  | Throw e => if bool_decide (e = ENOENT) then Ok [] else Throw e
                  end);
  compressor ← lift (getCompressor (head filters));
  modify (set_compressor compressor).

Definition writeFooter : D unit :=
  f ← footer;
  let '(checksum, rawFooter) := checksumStruct (T := Footer.t) (fu_pack f) in
  modify (set_footer (Footer.with_checksum checksum f)) ;;
  _writeChunk (js "footer") rawFooter.

Definition writeHeader : D unit :=
  h ← header;
  let '(checksum, rawHeader) := checksumStruct (T := Header.t) (fu_pack h) in
  modify (set_the_header (Header.with_checksum checksum h)) ;;
  _writeChunk (js "header") rawHeader ;;
  writeChunkFilters.

(** [try { body } catch (error) { handler }] *)
Definition catch {S A} (body : M S A) (handler : error → M S A) : M S A := fun s =>
  match body s with
  | (Throw e, s) => handler e s
  | r => r
  end.

Definition readHeaderAndFooter : D unit :=
  readChunkFilters ;;
  bufs ← catch (bufHeader ← _readChunk (js "header");
                bufFooter ← _readChunk (js "footer");
                mret (bufHeader, bufFooter))
           (λ e, lift (if bool_decide (e = ENOENT) then Throw (AssertionError "Header And Footer should exists")
                       else Throw e));
  let '(bufHeader, bufFooter) := bufs in
  f ← lift (unpackFooter bufFooter);
  h ← lift (unpackHeader bufHeader (Some f));
  modify (set_footer f) ;;
  assign_header h.

(** [new VhdDirectory(handler, path, opts)] *)
Definition new_VhdDirectory (path : jstring) (flags compression : option jstring) : result t :=
  compressor ← getCompressor compression;
  Ok (mk path flags compressor None None None).

(** [VhdDirectory.open(handler, path, { flags })] *)
Definition open (fs : Files) (path : jstring) (flags : jstring) : result t :=
  vhd ← new_VhdDirectory path (Some flags) None;
  match readHeaderAndFooter (mkState fs vhd) with
  | (Ok _, s) => Ok (this s)
  | (Throw e, _) => Throw e
  end.

(** [VhdDirectory.create(handler, path, { flags, compression })] *)
Definition create (path : jstring) (compression : option jstring) : result t :=
  new_VhdDirectory path (Some (js "wx+")) compression.

Definition ensureBatSize (entries : Z) : D unit := mret tt.

(** ** [mergeBlock] *)

(** The child of a merge: a directory on the same handler, or a VHD of which only
    [readBlock] is used (it is not a directory, or is on another handler). *)
Inductive child := Directory (d : t) | Other (readBlock : Z → result Block).

(** [child.readBlock(blockId)] *)
Definition child_readBlock (c : child) (blockId : Z) : D Block := fun s =>
  match c with
  | Directory d => (fst (readBlock blockId (mkState (files s) d)), s)
  | Other readBlock => (readBlock blockId, s)
  end.

(** [super.mergeBlock(child, blockId)] *)
Definition copyBlock (c : child) (blockId : Z) : D Z :=
  isBlockPresent ← containsBlock blockId;
  block ← child_readBlock c blockId;
  writeEntireBlock block ;;
  h ← header;
  mret (if isBlockPresent : bool then 0 else fullBlockSize h).

Definition getSizeOnDisk (blockId : Z) : D Z := fun s =>
  (Fs.getSizeOnDisk (files s) (getFullBlockPath (path (this s)) blockId), s).

(** A computation on the object, next to the local variable [initialSize]. *)
Definition outer {A} (m : D A) : M (State * Z) A := fun '(s, initialSize) =>
  let '(r, s) := m s in (r, (s, initialSize)).

Definition moveBlock (d : t) (blockId : Z) : M (State * Z) unit :=
  blockExists ← outer (containsBlock blockId);
  (if blockExists : bool then
     initialSize ← outer (getSizeOnDisk blockId);
     modify (λ '(s, _), (s, initialSize))
   else mret tt) ;;
  outer (p ← gets (path ∘ this);
         write_files (λ fs, Fs.rename fs (getFullBlockPath (path d) blockId) (getFullBlockPath p blockId))) ;;
  if (blockExists : bool) then mret tt
  else outer (setBitmap blockId ;; writeBlockAllocationTable).

(** The block was moved before the merge was interrupted. *)
Definition checkMoved (blockId : Z) : D unit :=
  block ← readBlock blockId;
  h ← header;
  assert_that (bool_decide (zlen (b_data block) = Header.blockSize h)) "block size".

Definition mergeBlock (c : child) (blockId : Z) (isResumingMerge : bool) : D Z := fun s =>
  match c with
  | Directory d =>
      if bool_decide (compressionType d ≠ compressionType (this s)) || bool_decide (compressionType d = js "MIXED")
      then copyBlock c blockId s
      else
        let body := catch (moveBlock d blockId)
          (λ e, if bool_decide (e = ENOENT) && isResumingMerge then outer (checkMoved blockId)
                else lift (Throw e)) in
        match body (s, 0) with
        | (Throw e, (s, _)) => (Throw e, s)
        | (Ok _, (s, initialSize)) =>
            (setBitmap blockId ;; size ← getSizeOnDisk blockId; mret (size - initialSize)) s
        end
  | Other _ => copyBlock c blockId s
  end.
End vhd.
End Dir.

Import Dir.

(** ** Paths *)

(** Texts without a separator, on each side of one. *)
Lemma app_sep_inj {A} (x : A) a b a' b' :
  x ∉ a → x ∉ a' → a ++ x :: b = a' ++ x :: b' → a = a' ∧ b = b'.
Proof.
  revert a'. induction a as [|y a IH]; intros [|y' a'] Ha Ha' H; cbn in H; simplify_eq.
  - done.
  - destruct Ha'. by left.
  - destruct Ha. by left.
  - destruct (IH a') as [-> ->]; [..|done|done]; intros Hin; [apply Ha|apply Ha']; by right.
Qed.

Lemma slash_not_digit z : 0 ≤ z → "/"%char ∉ Z_digits z.
Proof. intros Hz Hin. by apply Z_digits_digits in Hin. Qed.

Lemma getBlockPath_inj i j : 0 ≤ i → 0 ≤ j → getBlockPath i = getBlockPath j → i = j.
Proof.
  intros Hi Hj H. unfold getBlockPath in H. apply app_inv_head in H.
  change (js "/") with ["/"%char] in H. cbn [app] in H.
  apply app_sep_inj in H as [H1%Z_digits_inj H2%Z_digits_inj]; [|apply slash_not_digit, Z.div_pos; lia..].
  lia.
Qed.

Lemma getChunkPath_inj p a b : getChunkPath p a = getChunkPath p b → a = b.
Proof. intros H. by apply app_inv_head, app_inv_head in H. Qed.

(** ** Chunks *)

Section directory.
Context `{StructFuLaws} `{ZlibLaws}.
Context (unsafe : Z → buffer).
Hypothesis unsafe_len : ∀ n, 0 ≤ n → zlen (unsafe n) = n.

Lemma compress_roundtrip id b :
  zlen b ≤ 0xffffffff → ∃ c, compress id b = Ok c ∧ decompress unsafe id c = Ok b.
Proof.
  intros Hl. unfold compress, decompress. case_bool_decide; [by exists b|].
  case_bool_decide; [|eexists; split; [done|apply zlib_roundtrip]].
  destruct (zero_filter_lemma (λ _, b) [0%nat] unsafe) as (out & Hout & Hr).
  - unfold all_bytes. cbn. by rewrite app_nil_r.
  - done.
  - rewrite Hout. eexists. split; [done|]. rewrite Hr. unfold all_bytes. cbn. by rewrite app_nil_r.
Qed.

(** The content of a chunk of a directory. *)
Definition chunk_of (fs : Files) (d : t) (partName : jstring) : result buffer :=
  b ← Fs.readFile fs (getChunkPath (path d) partName); decompress unsafe (compressionType d) b.
Definition chunk (s : State) : jstring → result buffer := chunk_of (files s) (this s).

Lemma returns_readChunk s name b :
  chunk s name = Ok b → returns (_readChunk unsafe name) s b s.
Proof. intros Hc. unfold returns, _readChunk. by rewrite <-Hc. Qed.

(** The files that can be written: any with the flags [r+], a new one with [wx+]. *)
Definition writable (s : State) (name : jstring) : Prop :=
  flags (this s) = Some (js "r+") ∨
  (flags (this s) = Some (js "wx+") ∧ files s !! getChunkPath (path (this s)) name = None).

(** [s'] has another content for one chunk and the same other files and object. *)
Definition chunk_written (s s' : State) (name : jstring) (b : buffer) : Prop :=
  this s' = this s ∧ chunk s' name = Ok b ∧
  ∀ p, p ≠ getChunkPath (path (this s)) name → files s' !! p = files s !! p.

Lemma returns_writeChunk s name b :
  writable s name → zlen b ≤ 0xffffffff →
  ∃ s', returns (_writeChunk name b) s tt s' ∧ chunk_written s s' name b.
Proof.
  intros Hw Hl. destruct (compress_roundtrip (compressionType (this s)) b Hl) as (c & Hc & Hd).
  set (p := getChunkPath (path (this s)) name).
  exists (set_files (<[p := c]> (files s)) s). split.
  - unfold _writeChunk. eapply returns_bind; [apply returns_gets|].
    eapply returns_bind.
    { apply returns_assert, bool_decide_eq_true_2. destruct Hw as [->|[-> _]]; done. }
    rewrite Hc. eapply returns_bind; [apply returns_lift|].
    unfold outputChunk. eapply returns_bind; [apply returns_gets|].
    unfold returns, write_files. fold p. destruct Hw as [->|[-> Hn]]; [done|].
    unfold Fs.outputFile. cbn [from_option Datatypes.id]. fold p in Hn. rewrite Hn. done.
  - split_and!; [done| |].
    + unfold chunk, chunk_of, Fs.readFile. cbn [files this set_files]. fold p. rewrite lookup_insert_eq. done.
    + intros q Hq. cbn [files set_files]. by rewrite lookup_insert_ne.
Qed.

Lemma chunk_written_other s s' name b name' :
  chunk_written s s' name b → name' ≠ name → chunk s' name' = chunk s name'.
Proof.
  intros (Ht & _ & Ho) Hne. unfold chunk, chunk_of, Fs.readFile. rewrite Ht, Ho; [done|].
  intros E. by apply getChunkPath_inj in E.
Qed.

(** ** The disk *)

Definition dir_map (s : State) (h : Header.t) (t : buffer) : gmap Z buffer :=
  list_to_map ((λ i, (i, match chunk s (getBlockPath i) with Ok b => b | Throw _ => [] end)) <$>
    filter (λ i, Bitmap.test t i = true) (zrange 0 (8 * zlen t))).
Definition dir_disk (s : State) : gmap Z buffer :=
  match the_header (this s), uncheckedBlockTable (this s) with
  | Some h, Some t => dir_map s h t
  | _, _ => ∅
  end.

(** Each bit of the table has a block of the right size. *)
Record dir_ok (s : State) (h : Header.t) (t : buffer) : Prop := {
  do_header : the_header (this s) = Some h;
  do_table : uncheckedBlockTable (this s) = Some t;
  do_ok : header_ok h;
  do_size : fullBlockSize h ≤ 0xffffffff;
  do_entries : Header.maxTableEntries h ≤ 8 * zlen t;
  do_blocks i : 0 ≤ i → Bitmap.test t i = true →
    ∃ b, chunk s (getBlockPath i) = Ok b ∧ zlen b = fullBlockSize h;
}.

Lemma test_past t i : 8 * zlen t ≤ i → Bitmap.test t i = false.
Proof.
  intros Hi. pose proof (zlen_nonneg t). rewrite test_testbit by lia.
  assert (zget t (i / 8) = None) as -> by (apply zget_ge; apply Z.div_le_lower_bound; lia).
  apply Z.testbit_0_l.
Qed.

Lemma lookup_dir_disk s h t i :
  dir_ok s h t → 0 ≤ i →
  dir_disk s !! i =
  if Bitmap.test t i then match chunk s (getBlockPath i) with Ok b => Some b | Throw _ => None end else None.
Proof.
  intros [Hh Ht _ _ _ Hb] Hi. unfold dir_disk. rewrite Hh, Ht. unfold dir_map.
  set (l := _ <$> filter _ _).
  assert (l.*1 = filter (λ i, Bitmap.test t i = true) (zrange 0 (8 * zlen t))) as Hl.
  { unfold l. rewrite <-list_fmap_compose. cbn. rewrite (list_fmap_ext _ Datatypes.id) by done. apply list_fmap_id. }
  destruct (Bitmap.test t i) eqn:Hti.
  - destruct (Hb i Hi Hti) as (b & Hc & _). rewrite Hc. apply elem_of_list_to_map.
    + rewrite Hl. apply NoDup_filter, NoDup_zrange.
    + apply list_elem_of_fmap. exists i. rewrite Hc. split; [done|]. apply list_elem_of_filter. split; [done|].
      apply elem_of_zrange. split; [done|]. destruct (decide (i < 8 * zlen t)); [done|].
      by rewrite test_past in Hti by lia.
  - apply not_elem_of_list_to_map. rewrite Hl. intros [? _]%list_elem_of_filter. congruence.
Qed.

(** Negative indices have no block. *)
Lemma lookup_dir_disk_neg s i : i < 0 → dir_disk s !! i = None.
Proof.
  intros Hi. unfold dir_disk. destruct (the_header _) as [h|]; [|done].
  destruct (uncheckedBlockTable _) as [t|]; [|done]. apply not_elem_of_list_to_map.
  rewrite <-list_fmap_compose. cbn. rewrite (list_fmap_ext _ Datatypes.id), list_fmap_id by done.
  intros [_ ?%elem_of_zrange]%list_elem_of_filter. lia.
Qed.

(** ** Reading and writing blocks *)

Lemma returns_dir_header s h t : dir_ok s h t → returns header s h s.
Proof. intros Hd. unfold returns, header. by rewrite (do_header _ _ _ Hd). Qed.
Lemma returns_dir_table s h t : dir_ok s h t → returns blockTable s t s.
Proof. intros Hd. unfold returns, blockTable. by rewrite (do_table _ _ _ Hd). Qed.

Lemma returns_dir_readBlock s h t i b :
  dir_ok s h t → 0 ≤ i → dir_disk s !! i = Some b → returns (readBlock unsafe i) s (block_of h i b) s.
Proof.
  intros Hd Hi Hb. rewrite (lookup_dir_disk s h t) in Hb by done.
  destruct (Bitmap.test t i) eqn:Hti; [|done].
  destruct (do_blocks _ _ _ Hd i Hi Hti) as (b' & Hc & Hl). rewrite Hc in Hb. injection Hb as <-.
  unfold readBlock. eapply returns_bind; [by apply returns_readChunk|].
  eapply returns_bind; [by eapply returns_dir_header|].
  eapply returns_bind; [by apply returns_assert, bool_decide_eq_true_2|].
  pose proof (do_ok _ _ _ Hd) as Hk. destruct (bitmapSize_split _ Hk). pose proof (ho_blockSize _ Hk).
  unfold block_of. rewrite !buf_slice_sub by lia. rewrite Hl, Z.sub_0_r.
  replace (fullBlockSize h - bitmapSize h) with (Header.blockSize h) by lia. apply returns_ret.
Qed.

Lemma returns_dir_containsBlock s h t i :
  dir_ok s h t → 0 ≤ i → returns (containsBlock i) s (bool_decide (is_Some (dir_disk s !! i))) s.
Proof.
  intros Hd Hi. unfold containsBlock. eapply returns_bind; [by eapply returns_dir_table|].
  rewrite (lookup_dir_disk s h t) by done. destruct (Bitmap.test t i) eqn:Hti.
  - destruct (do_blocks _ _ _ Hd i Hi Hti) as (b' & Hc & Hl). rewrite Hc.
    rewrite bool_decide_eq_true_2 by by eexists. apply returns_ret.
  - rewrite bool_decide_eq_false_2 by (by intros [? ?]). apply returns_ret.
Qed.

(** The state once the block [i] has the content [b] and its bit is set. *)
Lemma dir_ok_block s s1 h t i b :
  dir_ok s h t → this s1 = this s → chunk s1 (getBlockPath i) = Ok b → zlen b = fullBlockSize h →
  (∀ j, 0 ≤ j → j ≠ i → chunk s1 (getBlockPath j) = chunk s (getBlockPath j)) →
  0 ≤ i < Header.maxTableEntries h →
  let s2 := set_blockTable (Bitmap.set t i) s1 in
  dir_ok s2 h (Bitmap.set t i) ∧ dir_disk s2 = <[i := b]> (dir_disk s).
Proof.
  intros Hd Hthis Hc Hl Hother Hi s2. pose proof (do_entries _ _ _ Hd) as He.
  assert (∀ j, chunk s2 (getBlockPath j) = chunk s1 (getBlockPath j)) as Hs2 by done.
  assert (∀ j, 0 ≤ j → Bitmap.test (Bitmap.set t i) j = bool_decide (i = j) || Bitmap.test t j) as Hset.
  { intros j Hj. apply bitmap_test_set_lemma; lia. }
  assert (dir_ok s2 h (Bitmap.set t i)) as Hok.
  { split; try apply Hd.
    - cbn. rewrite Hthis. apply Hd.
    - done.
    - by rewrite zlen_bitmap_set.
    - intros j Hj. rewrite Hset by done. rewrite Hs2. destruct (decide (i = j)) as [<-|Hij].
      + intros _. by exists b.
      + rewrite bool_decide_eq_false_2, Hother by done. cbn. by apply Hd. }
  split; [done|]. apply map_eq. intros j. destruct (decide (0 ≤ j)) as [Hj|Hj].
  - rewrite (lookup_dir_disk s2 h (Bitmap.set t i)), Hset, Hs2 by done. destruct (decide (i = j)) as [<-|Hij].
    + rewrite lookup_insert_eq, bool_decide_eq_true_2, Hc by done. done.
    + rewrite lookup_insert_ne, bool_decide_eq_false_2, Hother by done. cbn.
      by rewrite (lookup_dir_disk s h t).
  - rewrite lookup_insert_ne by lia. by rewrite !lookup_dir_disk_neg by lia.
Qed.

Lemma chunk_written_blocks s s1 i b j :
  chunk_written s s1 (getBlockPath i) b → 0 ≤ i → 0 ≤ j → j ≠ i →
  chunk s1 (getBlockPath j) = chunk s (getBlockPath j).
Proof.
  intros Hw Hi Hj Hji. eapply chunk_written_other; [done|]. intros E. apply getBlockPath_inj in E; lia.
Qed.

Lemma returns_setBitmap s t i :
  uncheckedBlockTable (this s) = Some t → returns (setBitmap i) s tt (set_blockTable (Bitmap.set t i) s).
Proof.
  intros Ht. unfold setBitmap. eapply returns_bind; [|apply returns_modify].
  unfold returns, blockTable. by rewrite Ht.
Qed.

(** A block written in a chunk, then its bit. *)
Lemma write_block_lemma s h t i b :
  dir_ok s h t → 0 ≤ i < Header.maxTableEntries h → zlen b = fullBlockSize h →
  writable s (getBlockPath i) →
  ∃ s', returns (_writeChunk (getBlockPath i) b ;; setBitmap i) s tt s' ∧
    dir_ok s' h (Bitmap.set t i) ∧ dir_disk s' = <[i := b]> (dir_disk s) ∧
    ∀ p, p ≠ getFullBlockPath (path (this s)) i → files s' !! p = files s !! p.
Proof.
  intros Hd Hi Hl Hw. pose proof (do_size _ _ _ Hd).
  destruct (returns_writeChunk s (getBlockPath i) b Hw ltac:(lia)) as (s1 & Hr & Hcw).
  destruct (dir_ok_block s s1 h t i b Hd) as [Hok Hdisk]; [apply Hcw|apply Hcw|done| |done|].
  { intros j Hj Hji. eapply chunk_written_blocks; [done|lia..]. }
  eexists. split_and!; [|exact Hok|exact Hdisk|apply Hcw].
  eapply returns_bind; [exact Hr|]. apply returns_setBitmap. destruct Hcw as [-> _]. apply Hd.
Qed.

(** C24: On a directory whose blocks can be read, [writeEntireBlock] inserts the block in
    the disk, whatever the compression, and [readBlock] then finds it; the other
    blocks, the other files and the invariant are kept; a block of another size is
    refused without effect. *)
Theorem dir_writeEntireBlock_inserts s h t block :
  dir_ok s h t → 0 ≤ b_id block < Header.maxTableEntries h →
  (zlen (b_buffer block) ≠ fullBlockSize h →
   ∃ e, writeEntireBlock block s = (Throw e, s)) ∧
  (zlen (b_buffer block) = fullBlockSize h → writable s (getBlockPath (b_id block)) →
   ∃ s' t', returns (writeEntireBlock block) s tt s' ∧ dir_ok s' h t' ∧
     dir_disk s' = <[b_id block := b_buffer block]> (dir_disk s) ∧
     returns (readBlock unsafe (b_id block)) s' (block_of h (b_id block) (b_buffer block)) s' ∧
     ∀ p, p ≠ getFullBlockPath (path (this s)) (b_id block) → files s' !! p = files s !! p).
Proof.
  intros Hd Hi. split.
  - intros Hl. eexists. unfold writeEntireBlock, mbind, M_bind at 1.
    rewrite (returns_dir_header s h t Hd). unfold assert_that, lift, M_bind.
    by rewrite bool_decide_eq_false_2.
  - intros Hl Hw. destruct (write_block_lemma s h t (b_id block) (b_buffer block)) as (s' & Hr & Hok & Hdisk & Ho);
      [done..|].
    exists s', (Bitmap.set t (b_id block)). split_and!; [|done|done| |done].
    + unfold writeEntireBlock. eapply returns_bind; [by eapply returns_dir_header|].
      eapply returns_bind; [by apply returns_assert, bool_decide_eq_true_2|]. exact Hr.
    + eapply returns_dir_readBlock; [done|lia|]. by rewrite Hdisk, lookup_insert_eq.
Qed.

(** [writeBlockData] writes the data under a full bitmap. *)
Lemma dir_writeBlockData_inserts s h t i data :
  dir_ok s h t → 0 ≤ i < Header.maxTableEntries h → zlen data = Header.blockSize h →
  writable s (getBlockPath i) →
  ∃ s' t', returns (writeBlockData i data) s tt s' ∧ dir_ok s' h t' ∧
    dir_disk s' = <[i := zrep (bitmapSize h) 255 ++ data]> (dir_disk s).
Proof.
  intros Hd Hi Hl Hw. pose proof (do_ok _ _ _ Hd) as Hk. destruct (bitmapSize_split _ Hk).
  destruct (write_block_lemma s h t i (zrep (bitmapSize h) 255 ++ data)) as (s' & Hr & Hok & Hdisk & _); [done..| |done|].
  { rewrite zlen_app, zlen_zrep. lia. }
  exists s', (Bitmap.set t i). split_and!; [|done..].
  unfold writeBlockData. eapply returns_bind; [by eapply returns_dir_header|].
  eapply returns_bind; [by apply returns_assert, bool_decide_eq_true_2|]. exact Hr.
Qed.

(** *** A directory is a VHD that can be read *)

Definition dir_reader : VhdReader State := {|
  vr_header s := default no_header (the_header (this s));
  vr_footer s := default no_footer (the_footer (this s));
  vr_containsBlock s i := fst (containsBlock i s);
  vr_readBlock s i := fst (readBlock unsafe i s);
|}.

Definition dir_reader_laws : @VhdReaderLaws State dir_reader.
Proof.
  refine (@Build_VhdReaderLaws State dir_reader (λ s, ∃ h t, dir_ok s h t) dir_disk _ _ _ _).
  - intros s (h & t & Hd). cbn. rewrite (do_header _ _ _ Hd). apply Hd.
  - intros s i (h & t & Hd) Hi. cbn. by rewrite (returns_dir_containsBlock s h t i Hd Hi).
  - intros s i b (h & t & Hd) Hi Hb. cbn. rewrite (do_header _ _ _ Hd).
    by rewrite (returns_dir_readBlock s h t i b Hd Hi Hb).
  - intros s i b (h & t & Hd) Hb. cbn. rewrite (do_header _ _ _ Hd). cbn.
    destruct (decide (0 ≤ i)); [|by rewrite lookup_dir_disk_neg in Hb by lia].
    rewrite (lookup_dir_disk s h t) in Hb by done. destruct (Bitmap.test t i) eqn:Hti; [|done].
    destruct (do_blocks _ _ _ Hd i) as (b' & Hc & Hl); [done..|]. rewrite Hc in Hb. congruence.
Defined.

(** ** Headers and table *)


(** The same blocks, under a header that gives them the same size. *)
Lemma dir_ok_ext s s' h h' t :
  dir_ok s h t → the_header (this s') = Some h' → uncheckedBlockTable (this s') = Some t →
  header_ok h' → fullBlockSize h' = fullBlockSize h → Header.maxTableEntries h' = Header.maxTableEntries h →
  (∀ i, chunk s' (getBlockPath i) = chunk s (getBlockPath i)) →
  dir_ok s' h' t ∧ dir_disk s' = dir_disk s.
Proof.
  intros Hd Hh Ht Hk Hf Hm Hc.
  assert (dir_ok s' h' t) as Hd'.
  { split; try done; rewrite ?Hf, ?Hm; try apply Hd. intros i Hi Hti. rewrite Hc. by apply Hd. }
  split; [done|]. apply map_eq. intros i. destruct (decide (0 ≤ i)).
  - rewrite (lookup_dir_disk s' h' t), (lookup_dir_disk s h t), Hc by done. done.
  - by rewrite !lookup_dir_disk_neg by lia.
Qed.

Definition metadata_names : list jstring := [js "header"; js "chunk-filters.json"; js "footer"; js "bat"].

(** These files hold no block. *)
Lemma not_metadata i : getBlockPath i ∉ metadata_names.
Proof. unfold metadata_names. rewrite !not_elem_of_cons. split_and!; [discriminate..|apply not_elem_of_nil]. Qed.

Lemma filters_path_chunk p : filters_path p = getChunkPath p (js "chunk-filters.json").
Proof. reflexivity. Qed.

Lemma returns_writeChunkFilters s :
  ∃ s', returns writeChunkFilters s tt s' ∧ this s' = this s ∧
    files s' !! filters_path (path (this s)) = Some (text_bytes (stringify (compressionType (this s)))) ∧
    (∀ p, p ≠ filters_path (path (this s)) → files s' !! p = files s !! p).
Proof.
  exists (set_files (<[filters_path (path (this s)) := text_bytes (stringify (compressionType (this s)))]> (files s)) s).
  split_and!; [|done| |].
  - unfold writeChunkFilters. eapply returns_bind; [apply returns_gets|]. done.
  - apply lookup_insert_eq.
  - intros p Hp. cbn [files set_files]. by rewrite lookup_insert_ne.
Qed.

Lemma filters_roundtrip id :
  id ∈ COMPRESSORS → parse_filters (bytes_text (text_bytes (stringify id))) = Ok [id].
Proof.
  unfold COMPRESSORS. destruct zstdCompress; cbn [app];
    rewrite ?elem_of_cons, elem_of_nil; intros Hid; destruct_or!; subst; try done; vm_compute; reflexivity.
Qed.

Lemma returns_readChunkFilters s id :
  id ∈ COMPRESSORS → files s !! filters_path (path (this s)) = Some (text_bytes (stringify id)) →
  returns readChunkFilters s tt (set_compressor id s).
Proof.
  intros Hid Hf. unfold readChunkFilters. eapply returns_bind; [apply returns_gets|].
  unfold Fs.readFile. cbn [Datatypes.id]. rewrite Hf, filters_roundtrip by done.
  eapply returns_bind; [apply returns_lift|]. cbn [head]. unfold getCompressor.
  rewrite bool_decide_eq_true_2 by done. eapply returns_bind; [apply returns_lift|]. apply returns_modify.
Qed.

(** *** What the writes of the metadata leave *)

(** Only the files of these chunks changed. *)
Definition frame (s s' : State) (names : list jstring) : Prop :=
  ∀ p, (∀ n, n ∈ names → p ≠ getChunkPath (path (this s)) n) → files s' !! p = files s !! p.

Lemma chunk_frame s s' names n :
  frame s s' names → path (this s') = path (this s) → compressionType (this s') = compressionType (this s) →
  n ∉ names → chunk s' n = chunk s n.
Proof.
  intros Hf Hp Hc Hn. unfold chunk, chunk_of, Fs.readFile. rewrite Hp, Hc, Hf; [done|].
  intros m Hm E. apply getChunkPath_inj in E. by subst.
Qed.

Lemma writable_frame s s' names n :
  frame s s' names → path (this s') = path (this s) → flags (this s') = flags (this s) →
  n ∉ names → writable s n → writable s' n.
Proof.
  intros Hf Hp Hfl Hn [Hw|[Hw Hnone]]; [left; congruence|right]. split; [congruence|].
  rewrite Hp, Hf; [done|]. intros m Hm E. apply getChunkPath_inj in E. by subst.
Qed.

(** Only the headers of the object changed. *)
Record same_object (d d' : t) : Prop := {
  so_path : path d' = path d;
  so_flags : flags d' = flags d;
  so_compression : compressionType d' = compressionType d;
  so_table : uncheckedBlockTable d' = uncheckedBlockTable d;
}.

Lemma checksum_header_size h : fu_wf h → zlen (fu_pack (checksummed_header h)) ≤ 0xffffffff.
Proof. intros. rewrite zlen_header by done. by unfold HEADER_SIZE. Qed.
Lemma checksum_footer_size f : fu_wf f → zlen (fu_pack (checksummed_footer f)) ≤ 0xffffffff.
Proof. intros. rewrite zlen_footer by done. by unfold FOOTER_SIZE. Qed.

Lemma returns_dir_writeHeader s h :
  the_header (this s) = Some h → fu_wf h → writable s (js "header") →
  ∃ s', returns writeHeader s tt s' ∧ this s' = this (set_the_header (checksummed_header h) s) ∧
    chunk s' (js "header") = Ok (fu_pack (checksummed_header h)) ∧
    files s' !! filters_path (path (this s)) = Some (text_bytes (stringify (compressionType (this s)))) ∧
    frame s s' [js "header"; js "chunk-filters.json"].
Proof.
  intros Hh Hwf Hw. set (s1 := set_the_header (checksummed_header h) s).
  destruct (returns_writeChunk s1 (js "header") (fu_pack (checksummed_header h))) as (s2 & Hr & Ht & Hc & Ho);
    [done|by apply checksum_header_size|].
  destruct (returns_writeChunkFilters s2) as (s3 & Hr3 & Ht3 & Hf3 & Ho3). rewrite Ht in *.
  assert (path (this s1) = path (this s) ∧ compressionType (this s1) = compressionType (this s)) as [Hp Hcm] by done.
  exists s3. split_and!.
  - unfold writeHeader. eapply returns_bind; [unfold returns, header; by rewrite Hh|].
    rewrite checksumStruct_pack by done. rewrite fuHeader_checksum. fold (checksummed_header h).
    eapply returns_bind; [apply returns_modify|]. eapply returns_bind; [exact Hr|exact Hr3].
  - by rewrite Ht3.
  - rewrite <-Hc. unfold chunk, chunk_of, Fs.readFile. rewrite Ht3, Ht, Ho3; [done|].
    rewrite filters_path_chunk. intros E%getChunkPath_inj. discriminate.
  - done.
  - intros p Hne. rewrite Ho3, Ho; [done|..].
    + apply (Hne (js "header")). by left.
    + rewrite filters_path_chunk. apply (Hne (js "chunk-filters.json")). by right; left.
Qed.

Lemma returns_dir_writeFooter s f :
  the_footer (this s) = Some f → fu_wf f → writable s (js "footer") →
  ∃ s', returns writeFooter s tt s' ∧ this s' = this (set_footer (checksummed_footer f) s) ∧
    chunk s' (js "footer") = Ok (fu_pack (checksummed_footer f)) ∧ frame s s' [js "footer"].
Proof.
  intros Hf Hwf Hw. set (s1 := set_footer (checksummed_footer f) s).
  destruct (returns_writeChunk s1 (js "footer") (fu_pack (checksummed_footer f))) as (s2 & Hr & Ht & Hc & Ho);
    [done|by apply checksum_footer_size|].
  exists s2. split_and!; try done.
  - unfold writeFooter. eapply returns_bind; [unfold returns, footer; by rewrite Hf|].
    rewrite checksumStruct_pack by done. rewrite fuFooter_checksum. fold (checksummed_footer f).
    eapply returns_bind; [apply returns_modify|]. exact Hr.
  - intros p Hne. rewrite Ho; [done|]. apply (Hne (js "footer")). by left.
Qed.

Lemma returns_dir_writeTable s b :
  uncheckedBlockTable (this s) = Some b → 0 < zlen b ≤ 0xffffffff → writable s (js "bat") →
  ∃ s', returns writeBlockAllocationTable s tt s' ∧ chunk_written s s' (js "bat") b.
Proof.
  intros Ht Hl Hw. destruct (returns_writeChunk s (js "bat") b Hw ltac:(lia)) as (s' & Hr & Hc).
  exists s'. split; [|done]. unfold writeBlockAllocationTable.
  eapply returns_bind; [unfold returns, blockTable; by rewrite Ht|].
  eapply returns_bind; [apply returns_assert, bool_decide_eq_true_2; lia|]. exact Hr.
Qed.

(** What [readHeaderAndFooter] needs of the files. *)
Lemma open_lemma fs p id h f :
  id ∈ COMPRESSORS → fs !! filters_path p = Some (text_bytes (stringify id)) →
  fu_wf h → fu_wf f → checkFooter f = Ok tt → checkHeader h (Some (checksummed_footer f)) = Ok tt →
  chunk_of fs (mk p (Some (js "r")) id None None None) (js "header") = Ok (fu_pack (checksummed_header h)) →
  chunk_of fs (mk p (Some (js "r")) id None None None) (js "footer") = Ok (fu_pack (checksummed_footer f)) →
  open unsafe fs p (js "r") =
    Ok (mk p (Some (js "r")) id (Some (zrep (Header.maxTableEntries h) 0))
          (Some (checksummed_header h)) (Some (checksummed_footer f))).
Proof.
  intros Hid Hfs Hh Hf Hcf Hch Hbh Hbf. unfold open, new_VhdDirectory. cbn [getCompressor mbind result_bind].
  set (s0 := mkState fs (mk p (Some (js "r")) (js "none") None None None)).
  assert (returns readChunkFilters s0 tt (set_compressor id s0)) as Hr by by apply returns_readChunkFilters.
  set (s1 := set_compressor id s0) in *.
  assert (returns (readHeaderAndFooter unsafe) s0 tt
            (set_blockTable (zrep (Header.maxTableEntries h) 0)
              (set_the_header (checksummed_header h) (set_footer (checksummed_footer f) s1)))) as Hrr.
  { unfold readHeaderAndFooter. eapply returns_bind; [exact Hr|].
    eapply (returns_bind _ _ s1 (fu_pack (checksummed_header h), fu_pack (checksummed_footer f)) s1).
    { unfold returns, catch, mbind, M_bind.
      rewrite (returns_readChunk s1 (js "header") _ Hbh), (returns_readChunk s1 (js "footer") _ Hbf). done. }
    rewrite unpackFooter_pack, Hcf by done. eapply returns_bind; [apply returns_lift|].
    rewrite unpackHeader_pack, Hch by done. eapply returns_bind; [apply returns_lift|].
    eapply returns_bind; [apply returns_modify|]. unfold assign_header.
    eapply returns_bind; [apply returns_modify|apply returns_modify]. }
  by rewrite Hrr.
Qed.

Definition write_dir_metadata : D unit := writeHeader ;; writeFooter ;; writeBlockAllocationTable.

Lemma chunk_of_object fs d d' n :
  path d = path d' → compressionType d = compressionType d' → chunk_of fs d n = chunk_of fs d' n.
Proof. unfold chunk_of. by intros -> ->. Qed.

(** The metadata files, and nothing else, once they are written. *)
Lemma write_dir_metadata_lemma s h f t :
  the_header (this s) = Some h → the_footer (this s) = Some f → uncheckedBlockTable (this s) = Some t →
  fu_wf h → fu_wf f → 0 < zlen t ≤ 0xffffffff → (∀ n, n ∈ metadata_names → writable s n) →
  ∃ s', returns write_dir_metadata s tt s' ∧
    this s' = this (set_footer (checksummed_footer f) (set_the_header (checksummed_header h) s)) ∧
    chunk s' (js "header") = Ok (fu_pack (checksummed_header h)) ∧
    chunk s' (js "footer") = Ok (fu_pack (checksummed_footer f)) ∧
    chunk s' (js "bat") = Ok t ∧
    files s' !! filters_path (path (this s)) = Some (text_bytes (stringify (compressionType (this s)))) ∧
    ∀ n, n ∉ metadata_names → chunk s' n = chunk s n.
Proof.
  intros Hh Hf Ht Hwh Hwf Hl Hw.
  destruct (returns_dir_writeHeader s h) as (s1 & R1 & T1 & C1 & F1 & Fr1); [done|done|apply Hw; by left|].
  destruct (returns_dir_writeFooter s1 f) as (s2 & R2 & T2 & C2 & Fr2); [by rewrite T1|done| |].
  { apply (writable_frame s _ _ _ Fr1); rewrite ?T1; [done..| |apply Hw]; apply (bool_decide_unpack _); vm_compute; exact I. }
  assert (path (this s1) = path (this s)) as P1 by by rewrite T1.
  assert (path (this s2) = path (this s)) as P2 by by rewrite T2, <-P1.
  destruct (returns_dir_writeTable s2 t) as (s3 & R3 & T3 & C3 & Fr3); [rewrite T2; cbn; by rewrite T1|done| |].
  { apply (writable_frame s1 _ _ _ Fr2); rewrite ?T2; [done..| |].
    - apply (bool_decide_unpack _). vm_compute. exact I.
    - apply (writable_frame s _ _ _ Fr1); rewrite ?T1; [done..| |apply Hw]; apply (bool_decide_unpack _); vm_compute; exact I. }
  assert (frame s2 s3 [js "bat"]) as Fr3' by (intros q Hq; apply Fr3, Hq; by left).
  assert (∀ n, n ∉ [js "bat"] → chunk s3 n = chunk s2 n) as E3
    by (intros n Hn; apply (chunk_frame _ _ _ _ Fr3'); by rewrite ?T3).
  assert (∀ n, n ∉ [js "footer"] → chunk s2 n = chunk s1 n) as E2
    by (intros n Hn; apply (chunk_frame _ _ _ _ Fr2); by rewrite ?T2).
  exists s3. split_and!.
  - unfold write_dir_metadata. eapply returns_bind; [exact R1|]. eapply returns_bind; [exact R2|exact R3].
  - rewrite T3, T2. unfold set_footer, set_this. cbn [this]. by rewrite T1.
  - rewrite E3, E2; [done|apply (bool_decide_unpack _); vm_compute; exact I..].
  - rewrite E3; [done|apply (bool_decide_unpack _); vm_compute; exact I].
  - done.
  - rewrite <-F1, Fr3', Fr2; [done|intros n ->%list_elem_of_singleton..];
      rewrite ?P2, ?P1, filters_path_chunk; by intros ?%getChunkPath_inj.
  - intros n Hn. unfold metadata_names in Hn. rewrite !not_elem_of_cons in Hn. destruct Hn as (? & ? & ? & ? & _).
    rewrite E3, E2; [apply (chunk_frame _ _ _ _ Fr1); rewrite ?T1; try done|..]; set_solver.
Qed.

(** What is written in a directory is found again: after the header, the footer and
    the table are written, the directory opens with the same compression, the same
    header and footer but for their checksums, and the same blocks. *)
Theorem dir_reopen s h f t :
  dir_ok s h t → the_footer (this s) = Some f → fu_wf h → fu_wf f →
  checkFooter f = Ok tt → checkHeader h (Some (checksummed_footer f)) = Ok tt →
  compressionType (this s) ∈ COMPRESSORS → 0 < zlen t ≤ 0xffffffff →
  (∀ n, n ∈ metadata_names → writable s n) →
  ∃ s' d s'', returns write_dir_metadata s tt s' ∧
    open unsafe (files s') (path (this s)) (js "r") = Ok d ∧
    returns (readBlockAllocationTable unsafe) (mkState (files s') d) tt s'' ∧
    the_header (this s'') = Some (checksummed_header h) ∧
    the_footer (this s'') = Some (checksummed_footer f) ∧
    dir_ok s'' (checksummed_header h) t ∧ dir_disk s'' = dir_disk s.
Proof.
  intros Hd Hf Hwh Hwf Hcf Hch Hid Hl Hw.
  destruct (write_dir_metadata_lemma s h f t) as (s' & R & T' & Ch & Cf & Cb & Fp & Co); [apply Hd|done|apply Hd|done..|].
  set (d := mk (path (this s)) (Some (js "r")) (compressionType (this s))
              (Some (zrep (Header.maxTableEntries h) 0)) (Some (checksummed_header h)) (Some (checksummed_footer f))).
  assert (∀ d' n, path d' = path (this s) → compressionType d' = compressionType (this s) →
          chunk_of (files s') d' n = chunk s' n) as Hc.
  { intros d' n Hp Hcm. apply chunk_of_object; by rewrite T'. }
  exists s', d, (set_blockTable t (mkState (files s') d)). split_and!; [done| | |done|done|..].
  - apply open_lemma; try done; by rewrite Hc.
  - unfold readBlockAllocationTable. eapply returns_bind; [|apply returns_modify].
    apply returns_readChunk. unfold chunk. by rewrite Hc.
  - apply (dir_ok_ext s _ h (checksummed_header h) t); try done; [apply header_ok_checksum, Hd|].
    intros i. unfold chunk at 1. rewrite Hc by done. apply Co. apply not_metadata.
  - apply (dir_ok_ext s _ h (checksummed_header h) t); try done; [apply header_ok_checksum, Hd|].
    intros i. unfold chunk at 1. rewrite Hc by done. apply Co. apply not_metadata.
Qed.

(** ** Merging a block *)

Lemma bitmap_set_set m i : Bitmap.set (Bitmap.set m i) i = Bitmap.set m i.
Proof.
  unfold Bitmap.set. destruct (zget m (Z.shiftr i 3)) as [x|] eqn:Hx; [|by rewrite Hx].
  pose proof (zget_Some _ _ _ Hx) as Hb. rewrite zget_insert by lia. rewrite decide_True by done.
  rewrite list_insert_insert_eq. f_equal. rewrite <-Z.lor_assoc, Z.lor_diag. done.
Qed.

(** Two directories that share no file. *)
Definition apart (p p' : jstring) : Prop := ∀ a b, getChunkPath p a ≠ getChunkPath p' b.

Lemma returns_outer {A} (m : D A) s a s' z : returns m s a s' → returns (outer m) (s, z) a (s', z).
Proof. unfold returns, outer. by intros ->. Qed.

Section merge.
Context (s : State) (h : Header.t) (t : buffer) (d : Dir.t) (i : Z).
Context (Hd : dir_ok s h t) (Hi : 0 ≤ i < Header.maxTableEntries h).
Context (Hflags : flags (this s) = Some (js "r+")) (Hl : 0 < zlen t ≤ 0xffffffff).

Local Abbreviation parent_path := (getFullBlockPath (path (this s)) i).
Local Abbreviation child_path := (getFullBlockPath (path d) i).

(** The size of the block that is replaced. *)
Definition previous_size : Z :=
  if Bitmap.test t i then from_option zlen 0 (files s !! parent_path) else 0.

Lemma chunk_file b : chunk s (getBlockPath i) = Ok b → is_Some (files s !! parent_path).
Proof.
  unfold chunk, chunk_of, Fs.readFile, getFullBlockPath. destruct (files s !! _); [by eexists|done].
Qed.

(** The first part of [moveBlock]: whether the block exists, and its size. *)
Lemma moveBlock_start :
  moveBlock d i (s, 0) =
  (outer (p ← gets (path ∘ this);
          write_files (λ fs, Fs.rename fs (getFullBlockPath (path d) i) (getFullBlockPath p i))) ;;
   if Bitmap.test t i then mret tt else outer (setBitmap i ;; writeBlockAllocationTable)) (s, previous_size).
Proof.
  unfold moveBlock, previous_size. unfold mbind at 1, M_bind at 1.
  assert (returns (containsBlock i) s (Bitmap.test t i) s) as Hr.
  { unfold containsBlock. eapply returns_bind; [by eapply returns_dir_table|apply returns_ret]. }
  rewrite (returns_outer _ _ _ _ 0 Hr).
  destruct (Bitmap.test t i) eqn:Hti; [|done].
  destruct (do_blocks _ _ _ Hd i ltac:(lia) Hti) as (b & Hc & _). destruct (chunk_file b Hc) as [c Hfile].
  assert (returns (initialSize ← outer (getSizeOnDisk i); modify (λ '(s, _), (s, initialSize))) (s, 0) tt (s, zlen c))
    as Hr2.
  { eapply (returns_bind _ _ _ (zlen c) (s, 0)); [|reflexivity]. apply returns_outer.
    unfold returns, getSizeOnDisk, Fs.getSizeOnDisk, Fs.readFile. by rewrite Hfile. }
  rewrite Hfile. unfold mbind at 1, M_bind at 1. by rewrite Hr2.
Qed.

(** The files once the block has moved. *)
Definition moved (c : buffer) : State := set_files (<[parent_path := c]> (delete child_path (files s))) s.

Lemma rename_ok c z :
  files s !! child_path = Some c →
  returns (outer (p ← gets (path ∘ this);
          write_files (λ fs, Fs.rename fs (getFullBlockPath (path d) i) (getFullBlockPath p i)))) (s, z) tt (moved c, z).
Proof.
  intros Hc. apply returns_outer. eapply returns_bind; [apply returns_gets|]. cbn [compose].
  unfold returns, write_files, Fs.rename. by rewrite Hc.
Qed.

Lemma moveBlock_ok c :
  files s !! child_path = Some c →
  ∃ s1, returns (moveBlock d i) (s, 0) tt (s1, previous_size) ∧
    returns (setBitmap i) s1 tt (set_blockTable (Bitmap.set t i) (mkState (files s1) (this s))) ∧
    (∀ p, p ≠ getChunkPath (path (this s)) (js "bat") → files s1 !! p = files (moved c) !! p) ∧
    (Bitmap.test t i = false → chunk_of (files s1) (this s) (js "bat") = Ok (Bitmap.set t i)).
Proof.
  intros Hc. pose proof (do_table _ _ _ Hd) as Ht. pose proof (rename_ok c previous_size Hc) as Hr.
  destruct (Bitmap.test t i) eqn:Hti.
  - exists (moved c). split_and!; [|by apply returns_setBitmap|done|done].
    unfold returns. rewrite moveBlock_start, Hti. eapply returns_bind; [exact Hr|apply returns_ret].
  - pose proof (returns_setBitmap (moved c) t i Ht) as Hb. set (sb := set_blockTable _ (moved c)) in Hb.
    destruct (returns_dir_writeTable sb (Bitmap.set t i)) as (s1 & Hr1 & T1 & C1 & F1);
      [done|by rewrite zlen_bitmap_set|by left|].
    exists s1. split_and!.
    + unfold returns. rewrite moveBlock_start, Hti. eapply returns_bind; [exact Hr|].
      apply returns_outer. eapply returns_bind; [exact Hb|exact Hr1].
    + pose proof (returns_setBitmap s1 (Bitmap.set t i) i) as Hs. rewrite bitmap_set_set in Hs.
      unfold set_blockTable, set_this in Hs |- *. cbn [this files] in *. rewrite T1 in Hs. by apply Hs.
    + intros p Hp. by rewrite F1.
    + intros _. rewrite <-C1. unfold chunk. apply chunk_of_object; by rewrite T1.
Qed.

(** The disk once the files hold the block [b] and its bit is set. *)
Lemma merged_disk s1 b :
  chunk_of (files s1) (this s) (getBlockPath i) = Ok b → zlen b = fullBlockSize h →
  (∀ j, 0 ≤ j → j ≠ i → chunk_of (files s1) (this s) (getBlockPath j) = chunk s (getBlockPath j)) →
  let s2 := set_blockTable (Bitmap.set t i) (mkState (files s1) (this s)) in
  dir_ok s2 h (Bitmap.set t i) ∧ dir_disk s2 = <[i := b]> (dir_disk s).
Proof. intros Hb Hlb Ho. by apply (dir_ok_block s (mkState (files s1) (this s))). Qed.

Lemma bat_not_block p j : getChunkPath p (getBlockPath j) ≠ getChunkPath p (js "bat").
Proof. intros E%getChunkPath_inj. discriminate. Qed.

Section moves.
Context (Hap : apart (path d) (path (this s))).
Context (Hcomp : compressionType d = compressionType (this s)) (Hmixed : compressionType d ≠ js "MIXED").

Lemma moved_other c p j :
  p = path d ∨ p = path (this s) → (p = path d → j ≠ i) → (p = path (this s) → j ≠ i) → 0 ≤ j →
  files (moved c) !! getFullBlockPath p j = files s !! getFullBlockPath p j.
Proof.
  intros Hp Hne1 Hne2 Hj. unfold moved, getFullBlockPath. cbn [files set_files].
  destruct Hp as [->| ->].
  - rewrite lookup_insert_ne by (intros E; by apply (Hap (getBlockPath j) (getBlockPath i))).
    rewrite lookup_delete_ne; [done|]. intros E%getChunkPath_inj%getBlockPath_inj; [|lia..]. by apply Hne1.
  - rewrite lookup_insert_ne.
    2:{ intros E%getChunkPath_inj%getBlockPath_inj; [|lia..]. by apply Hne2. }
    rewrite lookup_delete_ne; [done|]. apply Hap.
Qed.

Lemma mergeBlock_moves_lemma c b resuming :
  files s !! child_path = Some c → decompress unsafe (compressionType d) c = Ok b → zlen b = fullBlockSize h →
  ∃ s', returns (mergeBlock unsafe (Directory d) i resuming) s (zlen c - previous_size) s' ∧
    dir_ok s' h (Bitmap.set t i) ∧ dir_disk s' = <[i := b]> (dir_disk s) ∧
    files s' !! child_path = None ∧
    (∀ j, 0 ≤ j → j ≠ i →
      chunk_of (files s') d (getBlockPath j) = chunk_of (files s) d (getBlockPath j)) ∧
    (Bitmap.test t i = false → chunk s' (js "bat") = Ok (Bitmap.set t i)).
Proof.
  intros Hc Hb Hlb. destruct (moveBlock_ok c Hc) as (s1 & Hr & Hbit & Ho & Hbat).
  set (s' := set_blockTable (Bitmap.set t i) (mkState (files s1) (this s))) in *.
  assert (files s' !! parent_path = Some c) as Hparent.
  { change (files s1 !! parent_path = Some c). rewrite Ho by apply bat_not_block. apply lookup_insert_eq. }
  destruct (merged_disk s1 b) as [Hok Hdisk]; [|done| |].
  { unfold chunk_of, Fs.readFile. change (getChunkPath (path (this s)) (getBlockPath i)) with parent_path.
    change (files s1) with (files s'). rewrite Hparent. cbn [mbind result_bind]. by rewrite <-Hcomp. }
  { intros j Hj Hji. unfold chunk, chunk_of, Fs.readFile. rewrite Ho by apply bat_not_block.
    pose proof (moved_other c (path (this s)) j (or_intror eq_refl) (λ _, Hji) (λ _, Hji) Hj) as E.
    unfold getFullBlockPath in E. by rewrite E. }
  exists s'. split_and!; try done.
  - unfold returns, mergeBlock. rewrite bool_decide_eq_false_2 by (by intros ?).
    rewrite bool_decide_eq_false_2 by done. cbn [orb]. unfold catch. rewrite Hr.
    eapply returns_bind; [exact Hbit|]. eapply (returns_bind _ _ _ (zlen c) s'); [|apply returns_ret].
    unfold returns, getSizeOnDisk, Fs.getSizeOnDisk, Fs.readFile.
    change (path (this s')) with (path (this s)). by rewrite Hparent.
  - change (files s1 !! child_path = None). rewrite Ho by apply Hap. unfold moved. cbn [files set_files].
    rewrite lookup_insert_ne by (intros E; by apply (Hap (getBlockPath i) (getBlockPath i))).
    apply lookup_delete_eq.
  - intros j Hj Hji. unfold chunk_of, Fs.readFile. change (files s') with (files s1). rewrite Ho by apply Hap.
    pose proof (moved_other c (path d) j (or_introl eq_refl) (λ _, Hji) (λ _, Hji) Hj) as E.
    unfold getFullBlockPath in E. by rewrite E.
Qed.

(** *** A merge that resumes *)

Lemma moveBlock_missing :
  files s !! child_path = None → moveBlock d i (s, 0) = (Throw ENOENT, (s, previous_size)).
Proof.
  intros Hc. rewrite moveBlock_start. unfold mbind at 1, M_bind at 1.
  unfold outer at 1, write_files, Fs.rename, mbind, M_bind. cbn. by rewrite Hc.
Qed.

Lemma returns_checkMoved b z :
  chunk s (getBlockPath i) = Ok b → zlen b = fullBlockSize h →
  returns (outer (checkMoved unsafe i)) (s, z) tt (s, z).
Proof.
  intros Hc Hlb. apply returns_outer. unfold checkMoved, readBlock.
  pose proof (do_ok _ _ _ Hd) as Hk. destruct (bitmapSize_split _ Hk). pose proof (ho_blockSize _ Hk).
  eapply returns_bind.
  { eapply returns_bind; [by apply returns_readChunk|].
    eapply returns_bind; [by eapply returns_dir_header|].
    eapply returns_bind; [by apply returns_assert, bool_decide_eq_true_2|]. apply returns_ret. }
  eapply returns_bind; [by eapply returns_dir_header|]. apply returns_assert, bool_decide_eq_true_2. cbn [b_data].
  rewrite buf_slice_sub, zlen_sub; lia.
Qed.

Lemma mergeBlock_missing_lemma resuming :
  files s !! child_path = None →
  mergeBlock unsafe (Directory d) i resuming s =
  if resuming then
    match outer (checkMoved unsafe i) (s, previous_size) with
    | (Throw e, (s, _)) => (Throw e, s)
    | (Ok _, (s, initialSize)) =>
        (setBitmap i ;; size ← getSizeOnDisk i; mret (size - initialSize)) s
    end
  else (Throw ENOENT, s).
Proof.
  intros Hc. unfold mergeBlock. rewrite bool_decide_eq_false_2 by (by intros ?).
  rewrite (bool_decide_eq_false_2 (_ = js "MIXED")) by done. cbn [orb]. unfold catch. rewrite moveBlock_missing by done.
  rewrite bool_decide_eq_true_2 by done. cbn [andb]. by destruct resuming.
Qed.

Lemma mergeBlock_resumed_lemma b :
  files s !! child_path = None → chunk s (getBlockPath i) = Ok b → zlen b = fullBlockSize h →
  ∃ size s', returns (mergeBlock unsafe (Directory d) i true) s size s' ∧
    dir_ok s' h (Bitmap.set t i) ∧ dir_disk s' = <[i := b]> (dir_disk s) ∧ files s' = files s.
Proof.
  intros Hc Hb Hlb. destruct (chunk_file b Hb) as [c Hfile].
  destruct (dir_ok_block s s h t i b Hd) as [Hok Hdisk]; [done..|].
  exists (zlen c - previous_size), (set_blockTable (Bitmap.set t i) s). split_and!; [|done..].
  unfold returns. rewrite mergeBlock_missing_lemma by done.
  rewrite (returns_checkMoved b previous_size Hb Hlb).
  eapply returns_bind; [apply returns_setBitmap, Hd|].
  eapply (returns_bind _ _ _ (zlen c) (set_blockTable (Bitmap.set t i) s)); [|apply returns_ret].
  unfold returns, getSizeOnDisk, Fs.getSizeOnDisk, Fs.readFile.
  change (path (this (set_blockTable (Bitmap.set t i) s))) with (path (this s)).
  change (files (set_blockTable (Bitmap.set t i) s)) with (files s). by rewrite Hfile.
Qed.
End moves.
End merge.

(** C30: Between two directories of the same handler and compression, [mergeBlock] moves
    the file of the block: the parent has the block of the child in its place, the
    child keeps all its other blocks, and a new block is in the table of the parent on
    the disk.  When a merge resumes and the block was already moved, the parent has
    it; without the flag it is an error. *)
Theorem dir_mergeBlock_moves s h t d hc tc i b resuming :
  dir_ok s h t → dir_ok (mkState (files s) d) hc tc → Header.blockSize hc = Header.blockSize h →
  0 ≤ i < Header.maxTableEntries h → flags (this s) = Some (js "r+") → 0 < zlen t ≤ 0xffffffff →
  apart (path d) (path (this s)) →
  compressionType d = compressionType (this s) → compressionType d ≠ js "MIXED" →
  (dir_disk (mkState (files s) d) !! i = Some b →
   ∃ size s' t', returns (mergeBlock unsafe (Directory d) i resuming) s size s' ∧ dir_ok s' h t' ∧
     dir_disk s' = <[i := b]> (dir_disk s) ∧
     files s' !! getFullBlockPath (path d) i = None ∧
     (∀ j, 0 ≤ j → j ≠ i → chunk_of (files s') d (getBlockPath j) = chunk_of (files s) d (getBlockPath j)) ∧
     (dir_disk s !! i = None → chunk s' (js "bat") = Ok t')) ∧
  (files s !! getFullBlockPath (path d) i = None →
   (chunk s (getBlockPath i) = Ok b → zlen b = fullBlockSize h →
    ∃ size s' t', returns (mergeBlock unsafe (Directory d) i true) s size s' ∧ dir_ok s' h t' ∧
      dir_disk s' = <[i := b]> (dir_disk s)) ∧
   mergeBlock unsafe (Directory d) i false s = (Throw ENOENT, s)).
Proof.
  intros Hd Hdc Hbs Hi Hfl Hl Hap Hcomp Hmix. split.
  - intros Hb. rewrite (lookup_dir_disk _ hc tc) in Hb by (done || lia).
    destruct (Bitmap.test tc i) eqn:Hti; [|done].
    destruct (do_blocks _ _ _ Hdc i) as (b' & Hc & Hlb); [lia|done|]. rewrite Hc in Hb. injection Hb as ->.
    rewrite (fullBlockSize_ext _ h Hbs) in Hlb. unfold chunk, chunk_of, Fs.readFile in Hc. cbn [files this] in Hc.
    destruct (files s !! _) as [c|] eqn:Hfile; [|done]. cbn [mbind result_bind] in Hc.
    destruct (mergeBlock_moves_lemma s h t d i Hd Hi Hfl Hl Hap Hcomp Hmix c b resuming Hfile Hc Hlb)
      as (s' & ? & ? & ? & ? & ? & Hbat).
    exists (zlen c - previous_size s t i), s', (Bitmap.set t i). split_and!; [done..|].
    intros Hn. apply Hbat. rewrite (lookup_dir_disk s h t) in Hn by (done || lia).
    destruct (Bitmap.test t i) eqn:Ht; [|done].
    destruct (do_blocks _ _ _ Hd i) as (b'' & Hc'' & _); [lia|done|]. by rewrite Hc'' in Hn.
  - intros Hm. split.
    + intros Hb Hlb.
      destruct (mergeBlock_resumed_lemma s h t d i Hd Hi Hcomp Hmix b Hm Hb Hlb) as (size & s' & ? & ? & ? & _).
      by exists size, s', (Bitmap.set t i).
    + by rewrite (mergeBlock_missing_lemma s h t d i Hd Hi Hcomp Hmix false Hm).
Qed.
End directory.

(** ** Witnesses: empty directories, without zero pages *)

Section witnesses.
#[local] Existing Instance packed.

(** zlib that stores. *)
#[local] Instance stored : Zlib :=
  {| zlib_compress _ b := b; zlib_decompress _ b := Ok b; zstdCompress := true |}.
Definition stored_laws : @ZlibLaws stored := {| zlib_roundtrip _ _ := eq_refl |}.

Definition dirty (n : Z) : buffer := zrep n 7.
Lemma dirty_len n : 0 ≤ n → zlen (dirty n) = n.
Proof. intros. unfold dirty. rewrite zlen_zrep. lia. Qed.

Definition empty_dir (p : string) : Dir.t :=
  Dir.mk (js p) (Some (js "r+")) (js "zeros") (Some (zrep 128 0)) (Some small_header) (Some small_footer).
Definition on_files (fs : Files) (p : string) : Dir.State := Dir.mkState fs (empty_dir p).

Lemma empty_dir_ok fs p : dir_ok dirty (on_files fs p) small_header (zrep 128 0).
Proof.
  split; [reflexivity|reflexivity|apply small_header_ok|vm_compute; congruence|vm_compute; congruence|].
  intros i Hi Ht. exfalso. revert Ht. rewrite test_testbit by done.
  destruct (decide (i / 8 < 128)).
  - rewrite zget_zrep by (split; [apply Z.div_pos; lia|done]). cbn. by rewrite Z.testbit_0_l.
  - rewrite zget_ge by (rewrite zlen_zrep; lia). cbn. by rewrite Z.testbit_0_l.
Qed.

Definition dir_block : Block := small_block 5.
Definition dir_bytes : buffer := zrep 512 255 ++ zrep 1024 5.

Lemma dir_writeEntireBlock_inserts_witness :
  ∃ s' t', returns (writeEntireBlock dir_block) (on_files ∅ "a.vhd") tt s' ∧
    dir_ok dirty s' small_header t' ∧ dir_disk dirty s' !! 5 = Some dir_bytes.
Proof.
  destruct (@dir_writeEntireBlock_inserts stored stored_laws dirty dirty_len (on_files ∅ "a.vhd")
              small_header (zrep 128 0) dir_block (empty_dir_ok ∅ "a.vhd")) as [_ Hw].
  - split; [vm_compute; congruence|reflexivity].
  - destruct Hw as (s' & t' & Hr & Hok & Hd & _); [reflexivity|by left|].
    exists s', t'. split; [exact Hr|]. split; [exact Hok|]. rewrite Hd. apply lookup_insert_eq.
Defined.

Lemma dir_reopen_witness :
  ∃ s' d s'', returns write_dir_metadata (on_files ∅ "a.vhd") tt s' ∧
    open dirty (files s') (js "a.vhd") (js "r") = Ok d ∧
    returns (readBlockAllocationTable dirty) (mkState (files s') d) tt s'' ∧
    dir_ok dirty s'' (checksummed_header small_header) (zrep 128 0).
Proof.
  destruct (@dir_reopen packed packed_laws stored stored_laws dirty dirty_len (on_files ∅ "a.vhd")
              small_header small_footer (zrep 128 0) (empty_dir_ok ∅ "a.vhd"))
    as (s' & d & s'' & Hr & Ho & Hb & _ & _ & Hok & _).
  - reflexivity.
  - apply small_header_wf.
  - apply small_footer_wf.
  - vm_compute. reflexivity.
  - vm_compute. reflexivity.
  - apply (bool_decide_unpack _). vm_compute. exact I.
  - split; [reflexivity|vm_compute; congruence].
  - intros. by left.
  - exists s', d, s''. split; [exact Hr|]. split; [exact Ho|]. split; [exact Hb|exact Hok].
Defined.

(** A child [b.vhd] with a block is merged in the empty [a.vhd]. *)
Lemma dir_mergeBlock_moves_witness :
  ∃ child size s' t', returns (writeEntireBlock dir_block) (on_files ∅ "b.vhd") tt child ∧
    returns (mergeBlock dirty (Directory (this child)) 5 false) (on_files (files child) "a.vhd") size s' ∧
    dir_ok dirty s' small_header t' ∧ dir_disk dirty s' !! 5 = Some dir_bytes ∧
    chunk dirty s' (js "bat") = Ok t'.
Proof.
  destruct (@write_block_lemma stored stored_laws dirty dirty_len (on_files ∅ "b.vhd")
              small_header (zrep 128 0) 5 dir_bytes (empty_dir_ok ∅ "b.vhd")) as (c & Hr & Hc & Hdisk & _);
    [split; [vm_compute; congruence|reflexivity]|reflexivity|by left|].
  assert (returns (writeEntireBlock dir_block) (on_files ∅ "b.vhd") tt c) as Hw by exact Hr.
  assert (c = snd (writeEntireBlock dir_block (on_files ∅ "b.vhd"))) as Ec by (by rewrite Hw).
  destruct (@dir_mergeBlock_moves stored stored_laws dirty dirty_len (on_files (files c) "a.vhd")
              small_header (zrep 128 0) (this c) small_header (Bitmap.set (zrep 128 0) 5) 5 dir_bytes false
              (empty_dir_ok (files c) "a.vhd")) as [Hm _].
  - by destruct c.
  - reflexivity.
  - split; [vm_compute; congruence|reflexivity].
  - reflexivity.
  - split; [reflexivity|vm_compute; congruence].
  - rewrite Ec. intros a b. vm_compute. congruence.
  - rewrite Ec. vm_compute. reflexivity.
  - rewrite Ec. vm_compute. congruence.
  - destruct Hm as (size & s' & t' & Hr' & Hok & Hd & _ & _ & Hbat).
    { change (dir_disk dirty (mkState (files c) (this c)) !! 5 = Some dir_bytes).
      replace (mkState (files c) (this c)) with c by (by destruct c). rewrite Hdisk. apply lookup_insert_eq. }
    exists c, size, s', t'. split; [exact Hw|]. split; [exact Hr'|]. split; [exact Hok|]. split.
    + rewrite Hd. apply lookup_insert_eq.
    + apply Hbat. vm_compute. reflexivity.
Defined.
End witnesses.
