(* ===== verification/VhdStream.v ===== *)
(** * VHDs written to a stream

    [stream] and [streamSize] of [packages/vhd-lib/Vhd/VhdAbstract.js]: a VHD of any
    kind is sent as a dynamic VHD, headers, parent locators, blocks one after the
    other, and its footer again.

    [stream] copies the header, but not its array of parent locators: the offsets of
    the stream are written in the header of the VHD itself.  The class
    [VhdStreamable] has this effect, on which what the VHD then reads as its locators
    depends.  The buffer of the table is not initialised past its entries; what it
    holds there is a parameter. *)

From S2P Require Import Prelude Buffers VhdFormat StructFu VhdStructs VhdFile VhdLayout VhdBlocks VhdReader VhdChain.

(** ** The VHDs that can be sent *)

Class VhdStreamable (T : Type) `{VhdReader T} := {
  (* (await vhd.readParentLocator(i)).data *)
  vr_readParentLocator : T → Z → result buffer;
  (* what the assignments to [this.header.parentLocatorEntry[i]] leave *)
  vr_assign_locators : T → list ParentLocatorEntry → T;
}.

(** Neither the blocks nor the table depend on the parent locators. *)
Class VhdStreamableLaws (T : Type) `{VhdReaderLaws T} `{!VhdStreamable T} := {
  vr_assign_read v es i : vr_readBlock (vr_assign_locators v es) i = vr_readBlock v i;
  vr_assign_contains v es i : vr_containsBlock (vr_assign_locators v es) i = vr_containsBlock v i;
}.

(** A file shares its header: the locators are then read at the assigned offsets. *)
#[export] Instance VhdFile_streamable : VhdStreamable VhdFile := {|
  vr_readParentLocator s i := snd <$> fst (readParentLocator i s);
  vr_assign_locators s es :=
    match vf_header s with
    | Some h => set_header (Header.with_parentLocatorEntry es h) s
    | None => s
    end;
|}.

#[export] Instance VhdFile_streamable_laws : VhdStreamableLaws VhdFile.
Proof.
  split; intros s es i; cbn; (destruct (vf_header s) as [h|] eqn:Hh; [|done]);
    [|unfold containsBlock, _getBatEntry, blockTable, mbind, M_bind, gets, lift; cbn;
      destruct (vf_blockTable s) as [t|]; [|done]; by destruct (getBatEntry t i)].
  unfold readBlock, _getBatEntry, header, blockTable, assert_that, _read, mbind, M_bind, lift. cbn.
  destruct (vf_blockTable s) as [t|]; [|done]. destruct (getBatEntry t i) as [a|]; [|done].
  destruct (js_assert _ _); [|done]. cbn. rewrite Hh. by destruct (Handler.read _ _ _).
Qed.

(** A chain computes a new header each time; the locators are those of the root, and
    their data is read from the most recent one. *)
#[export] Instance VhdSynthetic_streamable `{VhdStreamable T} : VhdStreamable (VhdSynthetic T) := {|
  vr_readParentLocator s i := vr_readParentLocator (most_recent s) i;
  vr_assign_locators s es := s;
|}.

#[export] Instance VhdSynthetic_streamable_laws `{VhdReaderLaws T, !VhdStreamable T} :
  VhdStreamableLaws (VhdSynthetic T).
Proof. by split. Qed.

(** ** The stream *)

(** A stream: its [length], and the chunks that its iterator yields, up to the error
    it may throw. *)
Record Stream := mkStream { st_length : Z; st_error : result unit; st_chunks : list buffer }.

Section stream.
Context `{!StructFu} {T : Type} `{VhdStreamable T}.
(** [Buffer.allocUnsafe(n)] *)
Context (allocUnsafe : Z → buffer).
Implicit Types v : T.

(** The array has [PARENT_LOCATOR_ENTRIES] entries. *)
Fixpoint place_locators (offset : Z) (es : list ParentLocatorEntry) : list ParentLocatorEntry * Z :=
  match es with
  | [] => ([], offset)
  | e :: es =>
      let '(es, last) := place_locators (offset + platformDataSpace e * SECTOR_SIZE) es in
      (with_offset offset e :: es, last)
  end.

(** The loop on the table: the table, the sector that follows the blocks, the size. *)
Fixpoint fill_bat v (full : Z) (ids : list Z) (bat : buffer) (offsetSector fileSize : Z)
    : result (buffer * Z * Z) :=
  match ids with
  | [] => Ok (bat, offsetSector, fileSize)
  | i :: ids =>
      c ← vr_containsBlock v i;
      if c : bool then
        bat ← writeUInt32BE offsetSector (i * 4) bat;
        fill_bat v full ids bat (offsetSector + full / SECTOR_SIZE) (fileSize + full)
      else
        bat ← writeUInt32BE BLOCK_UNUSED (i * 4) bat;
        fill_bat v full ids bat offsetSector fileSize
  end.

(** *** The iterator, over the chunks that it has yielded *)

Local Abbreviation I := (M (list buffer)).

Definition yielded (chunks : list buffer) : Z := sumZ (zlen <$> chunks).

(** [yield trackTransmittedLength(buffer)] *)
Definition yield_ (fileSize : Z) (buf : buffer) : I unit :=
  n ← gets yielded;
  assert_that (bool_decide (n + zlen buf <= fileSize)) "Max stream length" ;;
  modify (λ chunks, chunks ++ [buf]).

Definition yield_locator v (fileSize : Z) (l : Z * ParentLocatorEntry) : I unit :=
  let '(i, e) := l in
  let space := platformDataSpace e * SECTOR_SIZE in
  if decide (space > 0) then
    data ← lift (vr_readParentLocator v i);
    yield_ fileSize (buf_copy (zrep space 0) 0 data)
  else mret tt.

Definition yield_block v (bat : buffer) (fileSize i : Z) : I unit :=
  entry ← lift (readUInt32BE bat (i * 4));
  if decide (entry ≠ BLOCK_UNUSED) then
    block ← lift (vr_readBlock v i);
    yield_ fileSize (b_buffer block)
  else mret tt.

Definition iterator v (h : Header.t) (rawFooter rawHeader bat : buffer) (fileSize : Z) : I unit :=
  yield_ fileSize rawFooter ;;
  yield_ fileSize rawHeader ;;
  yield_ fileSize bat ;;
  for_each (zip (zrange 0 PARENT_LOCATOR_ENTRIES) (Header.parentLocatorEntry h)) (yield_locator v fileSize) ;;
  for_each (zrange 0 (Header.maxTableEntries h)) (yield_block v bat fileSize) ;;
  yield_ fileSize rawFooter ;;
  n ← gets yielded;
  assert_that (bool_decide (n = fileSize)) "computed stream length".

(** The header of the stream, and where its locators end. *)
Definition stream_header (h : Header.t) : Header.t * Z :=
  let '(es, offset) := place_locators (FOOTER_SIZE + HEADER_SIZE + batSize h) (Header.parentLocatorEntry h) in
  (Header.with_parentLocatorEntry es (Header.with_tableOffset (FOOTER_SIZE + HEADER_SIZE) h), offset).

(** [stream()] *)
Definition stream : M T Stream :=
  h ← gets vr_header;
  f ← gets vr_footer;
  let rawFooter := snd (checksumStruct (T := Footer.t) (fu_pack f)) in
  let '(header, offset) := stream_header h in
  modify (λ v, vr_assign_locators v (Header.parentLocatorEntry header)) ;;
  let rawHeader := snd (checksumStruct (T := Header.t) (fu_pack header)) in
  assert_that (bool_decide (offset mod SECTOR_SIZE = 0)) "offset should be aligned" ;;
  let offsetSector := offset / SECTOR_SIZE in
  '(bat, _, fileSize) ← (λ v, (fill_bat v (fullBlockSize h) (zrange 0 (Header.maxTableEntries header))
    (allocUnsafe (batSize h)) offsetSector (offsetSector * SECTOR_SIZE + FOOTER_SIZE), v));
  gets (λ v, let '(r, chunks) := iterator v header rawFooter rawHeader bat fileSize [] in
             mkStream fileSize r chunks).
End stream.

(** ** What a stream holds *)

Section facts.
Context `{StructFuLaws} {T : Type} `{VhdStreamableLaws T}.
Context (allocUnsafe : Z → buffer) (zlen_allocUnsafe : ∀ n, 0 ≤ n → zlen (allocUnsafe n) = n).
Implicit Types v : T.

(** The blocks of the disk from [k] to [n]. *)
Definition blocks v (k n : Z) : list Z := filter (λ i, is_Some (vr_disk v !! i)) (zrange k n).

Lemma blocks_cons v k n :
  k < n → blocks v k n = (if decide (is_Some (vr_disk v !! k)) then [k] else []) ++ blocks v (k + 1) n.
Proof. intros. unfold blocks. rewrite zrange_cons by done. cbn. by case_decide. Qed.

Lemma blocks_split v k m n : k ≤ m ≤ n → blocks v k n = blocks v k m ++ blocks v m n.
Proof. intros. unfold blocks. by rewrite (zrange_app k m n), filter_app by lia. Qed.

Lemma blocks_nil v n : blocks v n n = [].
Proof. unfold blocks. by rewrite zrange_nil. Qed.

Lemma elem_of_blocks v k n i : i ∈ blocks v k n ↔ is_Some (vr_disk v !! i) ∧ k ≤ i < n.
Proof. unfold blocks. by rewrite list_elem_of_filter, elem_of_zrange. Qed.

(** *** The locators *)

Definition spaces (es : list ParentLocatorEntry) : Z := sumZ ((λ e, platformDataSpace e * SECTOR_SIZE) <$> es).

Lemma spaces_cons e es : spaces (e :: es) = platformDataSpace e * SECTOR_SIZE + spaces es.
Proof. done. Qed.

Lemma place_locators_last es offset : snd (place_locators offset es) = offset + spaces es.
Proof.
  revert offset. induction es as [|e es IH]; intros offset; cbn [place_locators].
  - unfold spaces. cbn. lia.
  - specialize (IH (offset + platformDataSpace e * SECTOR_SIZE)).
    destruct (place_locators _ es). cbn [snd] in *. rewrite IH, spaces_cons. lia.
Qed.

Lemma spaces_sectors es : spaces es mod SECTOR_SIZE = 0.
Proof.
  induction es as [|e es IH]; [done|]. by rewrite spaces_cons, Z.add_comm, Z_mod_plus_full.
Qed.

Lemma spaces_nonneg es : Forall (λ e, 0 ≤ platformDataSpace e) es → 0 ≤ spaces es.
Proof. induction 1; [done|]. rewrite spaces_cons. unfold SECTOR_SIZE. lia. Qed.

Lemma place_locators_length es offset : length (fst (place_locators offset es)) = length es.
Proof.
  revert offset. induction es as [|e es IH]; intros offset; cbn [place_locators]; [done|].
  specialize (IH (offset + platformDataSpace e * SECTOR_SIZE)). destruct (place_locators _ es). cbn in *. by rewrite IH.
Qed.

Lemma batSize_sectors h : batSize h mod SECTOR_SIZE = 0.
Proof. unfold batSize, computeBatSize, sectorsToBytes. by rewrite Z.mod_mul. Qed.

(** *** The table *)

Lemma fill_bat_ok v es k n bat s size :
  vr_ok v → 0 ≤ k ≤ n → n * 4 ≤ zlen bat → 0 ≤ s →
  s + slot (vr_header v) * zlen (blocks v k n) ≤ BLOCK_UNUSED →
  ∃ bat', fill_bat (vr_assign_locators v es) (fullBlockSize (vr_header v)) (zrange k n) bat s size =
      Ok (bat', s + slot (vr_header v) * zlen (blocks v k n),
          size + fullBlockSize (vr_header v) * zlen (blocks v k n)) ∧
    zlen bat' = zlen bat ∧
    (∀ i, 0 ≤ i < k → bat_entry bat' i = bat_entry bat i) ∧
    ∀ i, k ≤ i < n → bat_entry bat' i =
      if decide (is_Some (vr_disk v !! i)) then s + slot (vr_header v) * zlen (blocks v k i) else BLOCK_UNUSED.
Proof.
  intros Hv Hk. pose proof (vr_header_ok v Hv) as Hh. pose proof (slot_pos _ Hh) as Hslot.
  remember (Z.to_nat (n - k)) as m eqn:Hm. revert k bat s size Hk Hm.
  induction m as [|m IH]; intros k bat s size Hk Hm Hbat Hs Hfit.
  { rewrite zrange_nil by lia. assert (k = n) as -> by lia. exists bat. rewrite blocks_nil, zlen_nil.
    split_and!; [cbn; do 3 f_equal; lia|done|done|intros; lia]. }
  rewrite zrange_cons by lia. cbn [fill_bat].
  rewrite vr_assign_contains, (vr_contains v k Hv) by lia. cbn [mbind result_bind].
  pose proof (blocks_cons v k n ltac:(lia)) as Hcons.
  set (x := if decide (is_Some (vr_disk v !! k)) then s else BLOCK_UNUSED).
  assert (0 ≤ x < 4294967296) as Hx.
  { unfold x. rewrite Hcons in Hfit. pose proof (zlen_nonneg (blocks v (k + 1) n)).
    case_decide; [|done]. rewrite zlen_app, zlen_cons, zlen_nil in Hfit. unfold BLOCK_UNUSED in *. nia. }
  assert (writeUInt32BE x (k * 4) bat = Ok (bwrite bat (k * 4) (be_encode 4 x))) as Hw
    by (apply writeUInt32BE_ok; lia).
  set (s' := if decide (is_Some (vr_disk v !! k)) then s + slot (vr_header v) else s).
  destruct (IH (k + 1) (bwrite bat (k * 4) (be_encode 4 x)) s'
    (if decide (is_Some (vr_disk v !! k)) then size + fullBlockSize (vr_header v) else size))
    as (bat' & Hf & Hlen & Hbefore & Hafter).
  - lia.
  - lia.
  - rewrite zlen_bwrite_in by (rewrite ?zlen_be_encode; lia). lia.
  - unfold s'. case_decide; lia.
  - unfold s'. rewrite Hcons in Hfit. case_decide; rewrite ?zlen_app, ?zlen_cons, ?zlen_nil in Hfit; nia.
  - rewrite zlen_bwrite_in in Hlen by (rewrite ?zlen_be_encode; lia).
    assert (∀ i, 0 ≤ i < k → bat_entry bat' i = bat_entry bat i) as Hold.
    { intros i Hi. rewrite Hbefore by lia. unfold bat_entry. rewrite sub_bwrite_disjoint; [done|..];
        rewrite ?zlen_be_encode; lia. }
    assert (bat_entry bat' k = x) as Hnew.
    { rewrite Hbefore by lia. unfold bat_entry. rewrite be_decode_sub_bwrite by lia. done. }
    exists bat'. split_and!; [|done|done|].
    + unfold x, s' in *. rewrite Hcons. case_decide as Hd.
      * rewrite bool_decide_eq_true_2 by done. rewrite Hw. cbn [mbind result_bind].
        rewrite (fullBlockSize_slot _ Hh) in *. rewrite Z.div_mul by done. rewrite Hf.
        rewrite zlen_app, zlen_cons, zlen_nil. f_equal; f_equal; [f_equal|]; lia.
      * rewrite bool_decide_eq_false_2 by done. rewrite Hw. cbn [mbind result_bind]. by rewrite Hf.
    + intros i Hi. destruct (decide (i = k)) as [->|].
      * rewrite Hnew, blocks_nil, zlen_nil. unfold x. case_decide; lia.
      * rewrite Hafter by lia. rewrite (blocks_cons v k i) by lia. unfold s'.
        case_decide; [|done]. rewrite zlen_app. case_decide; rewrite ?zlen_cons, ?zlen_nil; lia.
Qed.

(** *** The chunks *)

Lemma yielded_app a b : yielded (a ++ b) = yielded a + yielded b.
Proof. unfold yielded. by rewrite fmap_app, sumZ_app. Qed.

Lemma yielded_single b : yielded [b] = zlen b.
Proof. change (zlen b + 0 = zlen b). lia. Qed.

Lemma yielded_cons b l : yielded (b :: l) = zlen b + yielded l.
Proof. done. Qed.

Lemma yielded_nil : yielded [] = 0.
Proof. done. Qed.

Lemma yielded_nonneg l : 0 ≤ yielded l.
Proof.
  induction l as [|b l IH]; [done|]. rewrite yielded_cons. pose proof (zlen_nonneg b). lia.
Qed.

Lemma zlen_mjoin (l : list buffer) : zlen (mjoin l) = yielded l.
Proof.
  induction l as [|b l IH]; [done|]. rewrite mjoin_cons, zlen_app, IH. done.
Qed.

Lemma yield_ok size b chunks :
  yielded chunks + zlen b ≤ size → yield_ size b chunks = (Ok tt, chunks ++ [b]).
Proof.
  intros Hb. unfold yield_, mbind, M_bind, gets, assert_that, lift, modify.
  by rewrite bool_decide_eq_true_2.
Qed.

(** A loop whose body yields [out x], as long as the length is not exceeded. *)
Lemma for_each_yield {A} (xs : list A) (body : A → M (list buffer) unit) (out : A → list buffer) size chunks :
  (∀ x c, x ∈ xs → yielded c + yielded (out x) ≤ size → body x c = (Ok tt, c ++ out x)) →
  yielded chunks + yielded (xs ≫= out) ≤ size →
  for_each xs body chunks = (Ok tt, chunks ++ (xs ≫= out)).
Proof.
  revert chunks. induction xs as [|x xs IH]; intros chunks Hbody Hsize; cbn [for_each].
  { cbn. by rewrite app_nil_r. }
  rewrite bind_cons, yielded_app in Hsize. pose proof (yielded_nonneg (xs ≫= out)).
  unfold mbind at 1, M_bind. rewrite Hbody by (lia || left).
  rewrite bind_cons, app_assoc. apply IH; [|rewrite yielded_app; lia].
  intros y c Hy. apply Hbody. by right.
Qed.

Definition locator_chunk (ldata : Z → buffer) (l : Z * ParentLocatorEntry) : list buffer :=
  let '(i, e) := l in
  let space := platformDataSpace e * SECTOR_SIZE in
  if decide (space > 0) then [buf_copy (zrep space 0) 0 (ldata i)] else [].

Definition block_chunk v (i : Z) : list buffer := match vr_disk v !! i with Some b => [b] | None => [] end.

Lemma zlen_buf_copy b off d : 0 ≤ off ≤ zlen b → zlen (buf_copy b off d) = zlen b.
Proof.
  intros Ho. unfold buf_copy. apply zlen_bwrite_in; [lia|]. unfold zlen in *. rewrite length_take. lia.
Qed.

Lemma yielded_locators ldata ids es :
  length ids = length es → Forall (λ e, 0 ≤ platformDataSpace e) es →
  yielded (zip ids es ≫= locator_chunk ldata) = spaces es.
Proof.
  intros Hl Hs. revert ids Hl. induction Hs as [|e es He _ IH]; intros [|i ids] Hl; try done.
  cbn [zip zip_with]. rewrite bind_cons, yielded_app, spaces_cons. rewrite IH by by injection Hl.
  unfold locator_chunk. case_decide; [|rewrite yielded_nil; unfold SECTOR_SIZE in *; lia].
  rewrite yielded_single, zlen_buf_copy, zlen_zrep; [lia|]. rewrite zlen_zrep. lia.
Qed.

Lemma yielded_blocks v k n :
  vr_ok v → k ≤ n →
  yielded (zrange k n ≫= block_chunk v) = fullBlockSize (vr_header v) * zlen (blocks v k n).
Proof.
  intros Hv Hk. remember (Z.to_nat (n - k)) as m eqn:Hm. revert k Hk Hm.
  induction m as [|m IH]; intros k Hk Hm.
  - assert (k = n) as -> by lia. rewrite blocks_nil, zrange_nil by lia. cbn [mbind list_bind]. by rewrite Z.mul_comm.
  - rewrite blocks_cons, zrange_cons, bind_cons, yielded_app, IH, zlen_app by lia. unfold block_chunk.
    destruct (vr_disk v !! k) as [b|] eqn:Hb.
    + rewrite decide_True by by eexists. rewrite yielded_single, (vr_len v k b Hv Hb), zlen_cons, zlen_nil. lia.
    + rewrite decide_False by by intros [? ?]. change (yielded []) with 0. change (zlen []) with 0. lia.
Qed.

(** *** The stream *)

Definition sent_header v : Header.t := fst (stream_header (vr_header v)).
Definition end_of_locators v : Z := snd (stream_header (vr_header v)).
Definition assigned v : T := vr_assign_locators v (Header.parentLocatorEntry (sent_header v)).
Definition n_entries v : Z := Header.maxTableEntries (vr_header v).

(** A VHD that can be sent; [ldata] is what it reads as its locators. *)
Record sendable v (ldata : Z → buffer) : Prop := {
  se_ok : vr_ok v;
  se_footer : fu_wf (vr_footer v);
  se_header : fu_wf (sent_header v);
  se_entries : length (Header.parentLocatorEntry (vr_header v)) = 8%nat;
  se_spaces : Forall (λ e, 0 ≤ platformDataSpace e) (Header.parentLocatorEntry (vr_header v));
  se_data i e : zget (Header.parentLocatorEntry (vr_header v)) i = Some e → 0 < platformDataSpace e →
    vr_readParentLocator (assigned v) i = Ok (ldata i);
  se_fits : end_of_locators v / SECTOR_SIZE + slot (vr_header v) * zlen (blocks v 0 (n_entries v)) ≤ BLOCK_UNUSED;
}.

Definition sent_footer v : Footer.t := checksummed_footer (vr_footer v).

Definition sent_chunks v (ldata : Z → buffer) (bat : buffer) : list buffer :=
  [fu_pack (sent_footer v); fu_pack (checksummed_header (sent_header v)); bat] ++
  (zip (zrange 0 PARENT_LOCATOR_ENTRIES) (Header.parentLocatorEntry (sent_header v)) ≫= locator_chunk ldata) ++
  (zrange 0 (n_entries v) ≫= block_chunk v) ++
  [fu_pack (sent_footer v)].

Definition sent_size v : Z :=
  end_of_locators v + fullBlockSize (vr_header v) * zlen (blocks v 0 (n_entries v)) + FOOTER_SIZE.

(** The table of the stream: the blocks in order, from the end of the locators. *)
Definition sent_table v (bat : buffer) : Prop :=
  zlen bat = batSize (vr_header v) ∧
  ∀ i, 0 ≤ i < n_entries v → bat_entry bat i =
    if decide (is_Some (vr_disk v !! i))
    then end_of_locators v / SECTOR_SIZE + slot (vr_header v) * zlen (blocks v 0 i) else BLOCK_UNUSED.

Lemma stream_header_eq h :
  stream_header h =
    (Header.with_parentLocatorEntry
      (fst (place_locators (FOOTER_SIZE + HEADER_SIZE + batSize h) (Header.parentLocatorEntry h)))
      (Header.with_tableOffset (FOOTER_SIZE + HEADER_SIZE) h),
     FOOTER_SIZE + HEADER_SIZE + batSize h + spaces (Header.parentLocatorEntry h)).
Proof.
  unfold stream_header. rewrite <-place_locators_last. by destruct (place_locators _ _).
Qed.

Lemma end_of_locators_eq v :
  end_of_locators v =
    FOOTER_SIZE + HEADER_SIZE + batSize (vr_header v) + spaces (Header.parentLocatorEntry (vr_header v)).
Proof. unfold end_of_locators. by rewrite stream_header_eq. Qed.

Lemma end_of_locators_sectors v : end_of_locators v mod SECTOR_SIZE = 0.
Proof.
  rewrite end_of_locators_eq. apply Z.mod_divide; [done|]. repeat apply Z.divide_add_r.
  - by exists 1.
  - by exists 2.
  - apply Z.mod_divide; [done|apply batSize_sectors].
  - apply Z.mod_divide; [done|apply spaces_sectors].
Qed.

Lemma foldl_spaces es z :
  foldl (λ n e, n + platformDataSpace e * SECTOR_SIZE) z es = z + spaces es.
Proof.
  revert z. induction es as [|e es IH]; intros z; cbn [foldl].
  - change (spaces []) with 0. lia.
  - rewrite IH, spaces_cons. lia.
Qed.

Lemma foldl_blocks v k n z :
  vr_ok v → 0 ≤ k ≤ n →
  foldl (λ n i, n ← n; c ← vr_containsBlock v i;
           Ok (if c : bool then n + fullBlockSize (vr_header v) else n)) (Ok z) (zrange k n) =
    Ok (z + fullBlockSize (vr_header v) * zlen (blocks v k n)).
Proof.
  intros Hv Hk. remember (Z.to_nat (n - k)) as m eqn:Hm. revert k z Hk Hm.
  induction m as [|m IH]; intros k z Hk Hm.
  - assert (k = n) as -> by lia. rewrite blocks_nil, zrange_nil by lia. cbn [foldl].
    change (zlen []) with 0. f_equal. lia.
  - rewrite blocks_cons, zrange_cons, zlen_app by lia. cbn [foldl mbind result_bind].
    rewrite (vr_contains v k Hv) by lia. cbn [mbind result_bind]. rewrite IH by lia. f_equal.
    case_decide; case_bool_decide; try done; change (zlen (@nil Z)) with 0; change (zlen [k]) with 1; lia.
Qed.

(** [streamSize()] is the length of the stream. *)
Lemma streamSize_eq v : vr_ok v → streamSize v = Ok (sent_size v).
Proof.
  intros Hv. pose proof (vr_header_ok v Hv) as Hh. unfold streamSize.
  rewrite foldl_spaces, foldl_blocks by (done || pose proof (ho_entries _ Hh); lia).
  cbn [mbind result_bind]. fold (n_entries v).
  assert (FOOTER_SIZE + HEADER_SIZE + batSize (vr_header v) + FOOTER_SIZE +
    spaces (Header.parentLocatorEntry (vr_header v)) +
    fullBlockSize (vr_header v) * zlen (blocks v 0 (n_entries v)) = sent_size v) as ->
    by (unfold sent_size; rewrite end_of_locators_eq; lia).
  rewrite js_assert_bind; [done|]. apply bool_decide_eq_true_2. unfold sent_size.
  apply Z.mod_divide; [done|]. apply Z.divide_add_r; [apply Z.divide_add_r|by exists 1].
  - apply Z.mod_divide; [done|apply end_of_locators_sectors].
  - rewrite (fullBlockSize_slot _ Hh). apply Z.divide_mul_l, Z.divide_mul_r, Z.divide_refl.
Qed.

Lemma sent_entries v : Header.maxTableEntries (sent_header v) = n_entries v.
Proof. unfold sent_header. by rewrite stream_header_eq. Qed.

Lemma sent_locators v :
  Header.parentLocatorEntry (sent_header v) =
    fst (place_locators (FOOTER_SIZE + HEADER_SIZE + batSize (vr_header v)) (Header.parentLocatorEntry (vr_header v))).
Proof. unfold sent_header. by rewrite stream_header_eq. Qed.

(** The entries keep all but their offset. *)
Lemma lookup_placed offset es i e :
  zget (fst (place_locators offset es)) i = Some e →
  ∃ e', zget es i = Some e' ∧ platformDataSpace e = platformDataSpace e' ∧
    platformDataLength e = platformDataLength e'.
Proof.
  unfold zget. case_decide; [done|]. generalize (Z.to_nat i). clear. intros k. revert offset k.
  induction es as [|e0 es IH]; intros offset k; cbn [place_locators]; [done|].
  specialize (IH (offset + platformDataSpace e0 * SECTOR_SIZE)).
  destruct (place_locators _ es) as [es' last]. destruct k as [|k]; cbn; [|apply IH].
  intros [= <-]. by exists e0.
Qed.

Lemma spaces_placed offset es : spaces (fst (place_locators offset es)) = spaces es.
Proof.
  revert offset. induction es as [|e es IH]; intros offset; cbn [place_locators]; [done|].
  specialize (IH (offset + platformDataSpace e * SECTOR_SIZE)).
  destruct (place_locators _ es). cbn [fst] in *. rewrite !spaces_cons, IH. done.
Qed.

Lemma placed_nonneg offset es :
  Forall (λ e, 0 ≤ platformDataSpace e) es →
  Forall (λ e, 0 ≤ platformDataSpace e) (fst (place_locators offset es)).
Proof.
  intros Hes. revert offset. induction Hes as [|e es He _ IH]; intros offset; cbn [place_locators]; [constructor|].
  specialize (IH (offset + platformDataSpace e * SECTOR_SIZE)).
  destruct (place_locators _ es). by constructor.
Qed.

Lemma zip_zrange {A} (es : list A) i e : (i, e) ∈ zip (zrange 0 (zlen es)) es → zget es i = Some e.
Proof.
  intros [k Hk]%list_elem_of_lookup. apply lookup_zip_with_Some in Hk as (i' & e' & [= -> ->] & Hi & He).
  unfold zrange in Hi. apply lookup_seqZ in Hi as [-> Hk]. unfold zget. rewrite decide_False by lia.
  by replace (Z.to_nat (0 + Z.of_nat k)) with k by lia.
Qed.

Lemma yield_locator_ok v ldata size i e chunks :
  sendable v ldata → zget (Header.parentLocatorEntry (sent_header v)) i = Some e →
  yielded chunks + yielded (locator_chunk ldata (i, e)) ≤ size →
  yield_locator (assigned v) size (i, e) chunks = (Ok tt, chunks ++ locator_chunk ldata (i, e)).
Proof.
  intros Hs Hi Hsize. unfold yield_locator, locator_chunk in *. case_decide; [|by rewrite app_nil_r].
  rewrite sent_locators in Hi. destruct (lookup_placed _ _ _ _ Hi) as (e' & He & Hsp & _).
  unfold mbind, M_bind, lift. rewrite (se_data _ _ Hs i e') by (done || unfold SECTOR_SIZE in *; lia).
  apply yield_ok. by rewrite yielded_single in Hsize.
Qed.

Lemma yield_block_ok v ldata bat size i chunks :
  sendable v ldata → sent_table v bat → 0 ≤ i < n_entries v →
  yielded chunks + yielded (block_chunk v i) ≤ size →
  yield_block (assigned v) bat size i chunks = (Ok tt, chunks ++ block_chunk v i).
Proof.
  intros Hs [Hlen Hbat] Hi Hsize. pose proof (vr_header_ok v (se_ok _ _ Hs)) as Hh.
  unfold yield_block, block_chunk in *. pose proof (batSize_covers _ Hh) as Hc. fold (n_entries v) in Hc.
  unfold mbind, M_bind, lift. rewrite readUInt32BE_ok by lia. fold (bat_entry bat i). rewrite (Hbat i Hi).
  destruct (vr_disk v !! i) as [b|] eqn:Hb.
  - rewrite (decide_True (P := is_Some (Some b))) by by eexists.
    rewrite decide_True.
    + unfold assigned. rewrite vr_assign_read, (vr_read v i b (se_ok _ _ Hs)) by (done || lia).
      apply yield_ok. by rewrite yielded_single in Hsize.
    + pose proof (se_fits _ _ Hs) as Hf. pose proof (slot_pos _ Hh).
      rewrite (blocks_split v 0 i) in Hf by lia. rewrite (blocks_cons v i), Hb, decide_True in Hf by (lia || by eexists).
      rewrite !zlen_app in Hf. pose proof (zlen_nonneg (blocks v (i + 1) (n_entries v))).
      change (zlen [i]) with 1 in Hf. nia.
  - rewrite (decide_False (P := is_Some None)) by by intros [? ?].
    rewrite decide_False by (intros Hn; by apply Hn). by rewrite app_nil_r.
Qed.

Lemma zlen_sent_footer v ldata : sendable v ldata → zlen (fu_pack (sent_footer v)) = FOOTER_SIZE.
Proof.
  intros Hs. unfold sent_footer, checksummed_footer. rewrite <-fuFooter_checksum.
  rewrite fu_pack_len; [apply fuFooter_size|]. apply fu_wf_with_checksum; [apply Hs|apply lnot_mod_bound].
Qed.

Lemma zlen_sent_header v ldata :
  sendable v ldata → zlen (fu_pack (checksummed_header (sent_header v))) = HEADER_SIZE.
Proof.
  intros Hs. unfold checksummed_header. rewrite <-fuHeader_checksum.
  rewrite fu_pack_len; [apply fuHeader_size|]. apply fu_wf_with_checksum; [apply Hs|apply lnot_mod_bound].
Qed.

Lemma entries_length v ldata : sendable v ldata → zlen (Header.parentLocatorEntry (sent_header v)) = 8.
Proof. intros Hs. rewrite sent_locators. unfold zlen. by rewrite place_locators_length, (se_entries _ _ Hs). Qed.

Lemma yielded_sent v ldata bat :
  sendable v ldata → sent_table v bat → yielded (sent_chunks v ldata bat) = sent_size v.
Proof.
  intros Hs [Hbat _]. unfold sent_chunks, sent_size. rewrite !yielded_app, !yielded_cons.
  rewrite (zlen_sent_footer v ldata Hs), (zlen_sent_header v ldata Hs), Hbat.
  pose proof (entries_length v ldata Hs) as He.
  rewrite yielded_locators;
    [|change (length (zrange 0 PARENT_LOCATOR_ENTRIES)) with 8%nat; unfold zlen in He; lia
     |rewrite sent_locators; apply placed_nonneg, Hs].
  pose proof (ho_entries _ (vr_header_ok v (se_ok _ _ Hs))).
  rewrite yielded_blocks by (apply Hs || done).
  rewrite sent_locators, spaces_placed, end_of_locators_eq. change (yielded []) with 0. lia.
Qed.

Lemma iterator_ok v ldata bat :
  sendable v ldata → sent_table v bat →
  iterator (assigned v) (sent_header v) (fu_pack (sent_footer v))
    (fu_pack (checksummed_header (sent_header v))) bat (sent_size v) [] = (Ok tt, sent_chunks v ldata bat).
Proof.
  intros Hs Ht. pose proof (yielded_sent v ldata bat Hs Ht) as Hy. unfold sent_chunks in Hy.
  rewrite !yielded_app, !yielded_cons in Hy. change (yielded []) with 0 in Hy.
  set (ls := zip _ _ ≫= _) in *. set (bs := zrange 0 (n_entries v) ≫= _) in *.
  pose proof (yielded_nonneg ls). pose proof (yielded_nonneg bs).
  pose proof (zlen_nonneg bat). pose proof (zlen_nonneg (fu_pack (sent_footer v))).
  pose proof (zlen_nonneg (fu_pack (checksummed_header (sent_header v)))).
  unfold iterator. rewrite sent_entries.
  eapply returns_bind; [apply yield_ok; change (yielded []) with 0; lia|].
  eapply returns_bind; [apply yield_ok; rewrite yielded_app, yielded_single; change (yielded []) with 0; lia|].
  eapply returns_bind; [apply yield_ok; rewrite !yielded_app, !yielded_single; change (yielded []) with 0; lia|].
  cbn [app].
  eapply returns_bind; [apply (for_each_yield _ _ (locator_chunk ldata) (sent_size v))|].
  - intros [i e] c Hin Hc. apply yield_locator_ok; [done| |done].
    apply zip_zrange. by rewrite (entries_length v ldata Hs).
  - rewrite !yielded_cons. change (yielded []) with 0. fold ls. lia.
  - eapply returns_bind; [apply (for_each_yield _ _ (block_chunk v) (sent_size v))|].
    + intros i c Hin Hc. apply elem_of_zrange in Hin. by eapply yield_block_ok.
    + fold ls bs. rewrite yielded_app, !yielded_cons. change (yielded []) with 0. lia.
    + fold ls bs. eapply returns_bind.
      { apply yield_ok. rewrite !yielded_app, !yielded_cons. change (yielded []) with 0. lia. }
      eapply returns_bind; [apply returns_gets|]. unfold assert_that, lift. rewrite bool_decide_eq_true_2.
      * unfold sent_chunks. fold ls bs. by rewrite <-!app_assoc.
      * rewrite !yielded_app, !yielded_cons. change (yielded []) with 0. lia.
Qed.

Lemma stream_lemma v ldata :
  sendable v ldata →
  ∃ bat, sent_table v bat ∧
    stream allocUnsafe v = (Ok (mkStream (sent_size v) (Ok tt) (sent_chunks v ldata bat)), assigned v).
Proof.
  intros Hs. pose proof (se_ok _ _ Hs) as Hv. pose proof (vr_header_ok v Hv) as Hh.
  pose proof (ho_entries _ Hh) as Hn. pose proof (batSize_covers _ Hh) as Hc. fold (n_entries v) in Hn, Hc.
  assert (zlen (allocUnsafe (batSize (vr_header v))) = batSize (vr_header v)) as Hbat
    by (apply zlen_allocUnsafe; lia).
  pose proof (end_of_locators_sectors v) as He.
  pose proof (end_of_locators_eq v) as Heq. pose proof (spaces_nonneg _ (se_spaces _ _ Hs)).
  destruct (fill_bat_ok v (Header.parentLocatorEntry (sent_header v)) 0 (n_entries v)
    (allocUnsafe (batSize (vr_header v))) (end_of_locators v / SECTOR_SIZE)
    (end_of_locators v / SECTOR_SIZE * SECTOR_SIZE + FOOTER_SIZE) Hv) as (bat & Hf & Hlen & _ & Hent).
  - lia.
  - lia.
  - apply Z.div_pos; [unfold FOOTER_SIZE, HEADER_SIZE in *; lia|done].
  - apply Hs.
  - exists bat. assert (sent_table v bat) as Ht by (split; [lia|done]). split; [done|].
    unfold stream. eapply returns_bind; [apply returns_gets|]. eapply returns_bind; [apply returns_gets|].
    rewrite (surjective_pairing (stream_header (vr_header v))). fold (sent_header v) (end_of_locators v).
    rewrite !checksumStruct_pack by apply Hs. cbn [snd]. rewrite fuFooter_checksum, fuHeader_checksum.
    fold (checksummed_header (sent_header v)) (checksummed_footer (vr_footer v)) (sent_footer v).
    eapply returns_bind; [apply returns_modify|]. fold (assigned v) in Hf |- *.
    eapply returns_bind; [apply returns_assert; by apply bool_decide_eq_true_2|].
    rewrite sent_entries. eapply returns_bind; [unfold returns; rewrite Hf; done|].
    assert (end_of_locators v / SECTOR_SIZE * SECTOR_SIZE + FOOTER_SIZE +
      fullBlockSize (vr_header v) * zlen (blocks v 0 (n_entries v)) = sent_size v) as ->.
    { apply Z.div_exact in He; [|done]. unfold sent_size. lia. }
    unfold returns, gets. by rewrite (iterator_ok v ldata bat Hs Ht).
Qed.
End facts.

(** C23: The stream of a VHD of any kind ends without error, with the length that it
    announces and that [streamSize] computes; its table places the blocks one after
    the other, from the end of the parent locators. *)
Theorem stream_sends `{StructFuLaws} `{VhdStreamableLaws T} allocUnsafe (v : T) ldata :
  (∀ n, 0 ≤ n → zlen (allocUnsafe n) = n) → sendable v ldata →
  ∃ bat sent, stream allocUnsafe v = (Ok sent, assigned v) ∧ sent_table v bat ∧
    st_error sent = Ok tt ∧ st_chunks sent = sent_chunks v ldata bat ∧
    st_length sent = zlen (mjoin (st_chunks sent)) ∧ streamSize v = Ok (st_length sent).
Proof.
  intros Ha Hs. destruct (stream_lemma allocUnsafe Ha v ldata Hs) as (bat & Ht & Hst).
  exists bat. eexists. split; [exact Hst|]. split; [done|]. split; [done|]. split; [done|].
  cbn [st_length st_chunks]. rewrite zlen_mjoin, yielded_sent by done. split; [done|].
  apply streamSize_eq, Hs.
Qed.

(** ** Witnesses *)

Definition file_locator (len offset : Z) : ParentLocatorEntry :=
  {| platformCode := PLATFORMS_W2KU; platformDataSpace := 1; platformDataLength := len;
     ple_reserved := 0; platformDataOffset := offset |}.

Definition with_locator (e : ParentLocatorEntry) (h : Header.t) : Header.t :=
  Header.with_parentLocatorEntry (e :: replicate 7 no_locator) h.

(** A VHD in memory with a parent locator of three bytes. *)
Definition streamed_vhd : MemoryVhd :=
  let v := mem 3 1024 2500 1 0 3 {[ 0 := blk 1; 2 := blk 2 ]} in
  {| mv_header := with_locator (file_locator 3 7777) (mv_header v);
     mv_footer := mv_footer v; mv_disk := mv_disk v |}.
Definition streamed_locator : Z → buffer := fun _ => [1; 2; 3].

#[export] Instance MemoryVhd_streamable : VhdStreamable MemoryVhd := {|
  vr_readParentLocator v i := Ok (streamed_locator i);
  vr_assign_locators v es := v;
|}.
#[export] Instance MemoryVhd_streamable_laws : VhdStreamableLaws MemoryVhd.
Proof. by split. Qed.

Lemma streamed_vhd_ok : memory_ok streamed_vhd.
Proof.
  split; [split; [done|by exists 2|done|done]|].
  apply map_Forall_insert_2; [reflexivity|]. apply map_Forall_singleton. reflexivity.
Qed.

Lemma streamed_sendable : @sendable packed MemoryVhd _ _ _ streamed_vhd streamed_locator.
Proof.
  split.
  - exact streamed_vhd_ok.
  - compute_wf.
  - compute_wf.
  - reflexivity.
  - repeat (constructor; [vm_compute; discriminate|]). constructor.
  - done.
  - vm_compute. discriminate.
Qed.

Definition zeroed (n : Z) : buffer := zrep n 0.
Lemma zlen_zeroed n : 0 ≤ n → zlen (zeroed n) = n.
Proof. intros. unfold zeroed. rewrite zlen_zrep. lia. Qed.

Lemma stream_sends_witness :
  ∃ bat sent, @stream packed MemoryVhd _ _ zeroed streamed_vhd = (Ok sent, assigned streamed_vhd) ∧
    sent_table streamed_vhd bat ∧ st_error sent = Ok tt ∧ st_length sent = zlen (mjoin (st_chunks sent)).
Proof.
  destruct (@stream_sends packed packed_laws MemoryVhd _ _ _ _ zeroed streamed_vhd streamed_locator
    zlen_zeroed streamed_sendable) as (bat & sent & Hst & Ht & He & _ & Hl & _).
  exists bat, sent. split; [exact Hst|]. split; [exact Ht|]. split; [exact He|exact Hl].
Defined.

(** A file whose locator is not where a stream would put it: [stream] changes its
    header, and what it sends, and reads from then on, are other bytes of the file. *)
Definition file_with_locator (data : buffer) : VhdFile :=
  mkVhd (zrep 4096 0 ++ data) (Some sample_footer)
    (Some (with_locator (file_locator (zlen data) 4096) (new_header 1 1536 512)))
    (Some (be_encode 4 BLOCK_UNUSED)) false 0.

Definition locator_read (s : VhdFile) : result buffer := vr_readParentLocator s 0.

Example stream_moves_locators :
  let s := file_with_locator [1; 2; 3] in
  let '(sent, s') := @stream packed VhdFile _ _ zeroed s in
  locator_read s = Ok [1; 2; 3] ∧ locator_read s' = Ok [0; 0; 0] ∧
  (sent' ← sent; Ok (st_chunks sent' !! 3%nat)) = Ok (Some (zrep 512 0)).
Proof. vm_compute. split_and!; reflexivity. Qed.

(** A chain announces the locator of its root and reads the one of its last child. *)
Example synthetic_locator_mismatch :
  let s := mkSynthetic (file_with_locator [1; 2; 3]) [file_with_locator [4; 5]] in
  platformDataLength <$> head (Header.parentLocatorEntry (vr_header s)) = Some 3 ∧
  vr_readParentLocator s 0 = Ok [4; 5].
Proof. vm_compute. split; reflexivity. Qed.
