(* ===== verification/VhdStreamParser.v ===== *)
(** * VHDs read from a stream

    [packages/vhd-lib/parseVhdStream.js], over [readChunkStrict] and [skipStrict] of
    [@vates/read-chunk]: the footer, the header, the table, the parent locators and the
    blocks of a VHD, in the order of the stream, without going back.

    A stream is its content and how it cuts it in chunks, a parameter; what the
    generator has yielded before an error is kept.  What [stream] of [VhdStream.v]
    sends is parsed as the same VHD. *)

From S2P Require Import Prelude Buffers VhdFormat StructFu VhdStructs VhdFile VhdLayout VhdBlocks VhdReader VhdChain VhdStream.

(** ** State *)

Inductive entry_type := ParentLocator | Bat | ABlock.

(** What is to be read; the [id] of a locator is a text in the code. *)
Record IndexEntry := mkEntry { ie_type : entry_type; ie_id : Z; ie_offset : Z; ie_size : Z }.

(** The items: those that [headers] yields, the table with the number of its blocks,
    and those that [blocks] yields. *)
Inductive Item :=
  | FooterItem (footer : Footer.t)
  | HeaderItem (header : Header.t)
  | HeadItem (e : IndexEntry) (buf : buffer) (blockCount : option Z)
  | BlockItem (e : IndexEntry) (buf bitmap data : buffer).

(** [_stream] is what is left to read. *)
Record StreamParser := mkParser { _bytesRead : Z; _stream : buffer; items : list Item }.

Definition set_stream (n : Z) (s : buffer) (p : StreamParser) : StreamParser := mkParser n s (items p).

Local Abbreviation P := (M StreamParser).

(** [yield item] *)
Definition yield_item (i : Item) : P unit := modify (λ p, mkParser (_bytesRead p) (_stream p) (items p ++ [i])).

(** ** Reading *)

Definition readChunkStrict (size : Z) : P buffer :=
  assert_that (bool_decide (size > 0)) "size > 0" ;;
  assert_that (bool_decide (size < 1073741824)) "size < 1073741824" ;;
  s ← gets _stream;
  modify (λ p, set_stream (_bytesRead p) (drop (Z.to_nat size) s) p) ;;
  let chunk := take (Z.to_nat size) s in
  if decide (chunk = []) then lift (Throw (OtherError "stream has ended without data"))
  else if decide (zlen chunk ≠ size) then lift (Throw (OtherError "stream has ended with not enough data"))
  else mret chunk.

Definition skipStrict (size : Z) : P unit :=
  s ← gets _stream;
  modify (λ p, set_stream (_bytesRead p) (drop (Z.to_nat size) s) p) ;;
  if decide (zlen s < size) then lift (Throw (OtherError "stream has ended with not enough data")) else mret tt.

Definition read_at (offset size : Z) : P buffer :=
  n ← gets _bytesRead;
  assert_that (bool_decide (n <= offset)) "already read" ;;
  (if decide (n < offset) then
     skipStrict (offset - n) ;;
     modify (λ p, set_stream (n + (offset - n)) (_stream p) p)
   else mret tt) ;;
  buf ← readChunkStrict size;
  modify (λ p, set_stream (_bytesRead p + size) (_stream p) p) ;;
  mret buf.

Definition cappedBufferConcat (buffers : list buffer) (maxSize : Z) : buffer :=
  let buf := mjoin buffers in
  if decide (zlen buf > maxSize) then buf_slice buf (zlen buf - maxSize) (zlen buf) else buf.

Definition readLastSector (chunks : list buffer) : buffer :=
  foldl (λ bufFooterEnd chunk,
    if decide (zlen chunk > 0) then cappedBufferConcat [bufFooterEnd; chunk] SECTOR_SIZE else bufFooterEnd)
    [] chunks.

(** ** The index *)

(** [index.sort((a, b) => a.offset - b.offset)], which is stable. *)
Fixpoint insert_entry (e : IndexEntry) (l : list IndexEntry) : list IndexEntry :=
  match l with
  | [] => [e]
  | x :: l => if decide (ie_offset e <= ie_offset x) then e :: x :: l else x :: insert_entry e l
  end.
Definition sort_entries (l : list IndexEntry) : list IndexEntry := foldr insert_entry [] l.

(** The parent locators, those without space left out. *)
Definition locator_entries (es : list (Z * ParentLocatorEntry)) : list IndexEntry :=
  es ≫= λ '(i, e), if decide (platformDataSpace e = 0) then []
                   else [mkEntry ParentLocator i (platformDataOffset e) (platformDataLength e)].

(** The blocks of the table. *)
Fixpoint bat_entries (bat : buffer) (batOffset batSize full : Z) (ids : list Z) : result (list IndexEntry) :=
  match ids with
  | [] => Ok []
  | i :: ids =>
      sector ← readUInt32BE bat (i * 4);
      if decide (sector ≠ BLOCK_UNUSED) then
        js_assert (bool_decide (sector * SECTOR_SIZE >= batOffset + batSize)) "block before the table" ;;
        es ← bat_entries bat batOffset batSize full ids;
        Ok (mkEntry ABlock i (sector * SECTOR_SIZE) full :: es)
      else bat_entries bat batOffset batSize full ids
  end.

(** ** The generators *)

Section parser.
Context `{!StructFu}.
(** How the stream cuts what is left of it. *)
Context (chunks_of : buffer → list buffer).

(** [while (!batFound)]: the index that is left. *)
Fixpoint read_until_bat (h : Header.t) (batOffset batSize full : Z) (index : list IndexEntry)
    : P (list IndexEntry) :=
  match index with
  | [] => lift (Throw (TypeError "Cannot read properties of undefined (reading 'offset')"))
  | item :: index =>
      buf ← read_at (ie_offset item) (ie_size item);
      match ie_type item with
      | Bat =>
          es ← lift (bat_entries buf batOffset batSize full (zrange 0 (Header.maxTableEntries h)));
          yield_item (HeadItem item buf (Some (zlen es))) ;;
          mret (sort_entries (index ++ es))
      | _ => yield_item (HeadItem item buf None) ;; read_until_bat h batOffset batSize full index
      end
  end.

(** [headers()]: the footer, the size of a bitmap and the index. *)
Definition headers : P (buffer * Z * list IndexEntry) :=
  bufFooter ← read_at 0 FOOTER_SIZE;
  footer ← lift (unpackFooter bufFooter);
  yield_item (FooterItem footer) ;;
  bufHeader ← read_at FOOTER_SIZE HEADER_SIZE;
  h ← lift (unpackHeader bufHeader (Some footer));
  yield_item (HeaderItem h) ;;
  let blockSize := Header.blockSize h in
  assert_that (bool_decide (blockSize mod SECTOR_SIZE = 0)) "blockSize" ;;
  let fullBlockSize := computeFullBlockSize blockSize in
  let locators := locator_entries (zip (zrange 0 (zlen (Header.parentLocatorEntry h)))
                                       (Header.parentLocatorEntry h)) in
  let batOffset := Header.tableOffset h in
  let batSize := Z.max 1 (ceil_div (Header.maxTableEntries h * 4) SECTOR_SIZE) * SECTOR_SIZE in
  let index := sort_entries (locators ++ [mkEntry Bat 0 batOffset batSize]) in
  index ← read_until_bat h batOffset batSize fullBlockSize index;
  mret (bufFooter, fullBlockSize - blockSize, index).

Fixpoint read_blocks (bitmapSize : Z) (index : list IndexEntry) : P unit :=
  match index with
  | [] => mret tt
  | item :: index =>
      buf ← read_at (ie_offset item) (ie_size item);
      yield_item (BlockItem item buf (buf_slice buf 0 bitmapSize) (buf_slice buf bitmapSize (zlen buf))) ;;
      read_blocks bitmapSize index
  end.

(** [blocks()] *)
Definition blocks_of (bufFooter : buffer) (bitmapSize : Z) (index : list IndexEntry) : P unit :=
  read_blocks bitmapSize index ;;
  rest ← gets _stream;
  modify (λ p, set_stream (_bytesRead p) [] p) ;;
  assert_that (bool_decide (bufFooter = readLastSector (chunks_of rest))) "footer1 !== footer2".

Definition parse : P unit :=
  '(bufFooter, bitmapSize, index) ← headers; blocks_of bufFooter bitmapSize index.

(** [parseVhdStream(stream)]: the items, up to the error it may throw. *)
Definition parseVhdStream (content : buffer) : result unit * list Item :=
  let '(r, p) := parse (mkParser 0 content []) in (r, items p).
End parser.

(** ** Reading what is there *)

Lemma zlen_zero (b : buffer) : zlen b = 0 → b = [].
Proof. destruct b; [done|]. unfold zlen. cbn. lia. Qed.
Lemma take_app_zlen (a b : buffer) : take (Z.to_nat (zlen a)) (a ++ b) = a.
Proof. unfold zlen. rewrite Nat2Z.id. apply take_app_length. Qed.
Lemma drop_app_zlen (a b : buffer) : drop (Z.to_nat (zlen a)) (a ++ b) = b.
Proof. unfold zlen. rewrite Nat2Z.id. apply drop_app_length. Qed.

Lemma returns_readChunkStrict (d rest : buffer) n ys :
  0 < zlen d < 1073741824 →
  returns (readChunkStrict (zlen d)) (mkParser n (d ++ rest) ys) d (mkParser n rest ys).
Proof.
  intros Hd. unfold readChunkStrict.
  eapply returns_bind; [apply returns_assert, bool_decide_eq_true_2; lia|].
  eapply returns_bind; [apply returns_assert, bool_decide_eq_true_2; lia|].
  eapply returns_bind; [apply returns_gets|]. cbn [_stream].
  eapply returns_bind; [apply returns_modify|]. unfold set_stream. cbn [_bytesRead items].
  rewrite take_app_zlen, drop_app_zlen.
  rewrite decide_False by (intros ->; by destruct Hd). rewrite decide_False by (intros Hn; by apply Hn). apply returns_ret.
Qed.

Lemma returns_skipStrict (gap rest : buffer) n ys :
  returns (skipStrict (zlen gap)) (mkParser n (gap ++ rest) ys) tt (mkParser n rest ys).
Proof.
  unfold skipStrict. eapply returns_bind; [apply returns_gets|]. cbn [_stream].
  eapply returns_bind; [apply returns_modify|]. unfold set_stream. cbn [_bytesRead items].
  rewrite drop_app_zlen, zlen_app. pose proof (zlen_nonneg rest). rewrite decide_False by lia. apply returns_ret.
Qed.

Lemma returns_read_at gap (d rest : buffer) n offset size ys :
  offset = n + zlen gap → size = zlen d → 0 < size < 1073741824 →
  returns (read_at offset size) (mkParser n (gap ++ d ++ rest) ys) d (mkParser (offset + size) rest ys).
Proof.
  intros -> -> Hd. pose proof (zlen_nonneg gap). unfold read_at.
  eapply returns_bind; [apply returns_gets|]. cbn [_bytesRead].
  eapply returns_bind; [apply returns_assert, bool_decide_eq_true_2; lia|].
  eapply (returns_bind _ _ _ _ (mkParser (n + zlen gap) (d ++ rest) ys)).
  - case_decide.
    + replace (n + zlen gap - n) with (zlen gap) by lia.
      eapply returns_bind; [apply returns_skipStrict|]. done.
    + assert (gap = []) as -> by (apply zlen_zero; lia).
      rewrite zlen_nil, Z.add_0_r. apply returns_ret.
  - eapply returns_bind; [by apply returns_readChunkStrict|].
    eapply returns_bind; [apply returns_modify|]. apply returns_ret.
Qed.

(** The last bytes of a stream, however it is cut. *)
Definition last_sector (b : buffer) : buffer := sub (zlen b - SECTOR_SIZE) SECTOR_SIZE b.

Lemma sub_last (b : buffer) : zlen b ≤ SECTOR_SIZE → last_sector b = b.
Proof.
  intros Hb. unfold last_sector, sub. replace (Z.to_nat (zlen b - SECTOR_SIZE)) with 0%nat by lia.
  rewrite drop_0. apply take_ge. unfold zlen in Hb. lia.
Qed.

Lemma cappedBufferConcat_eq a b : cappedBufferConcat [a; b] SECTOR_SIZE = last_sector (a ++ b).
Proof.
  unfold cappedBufferConcat. rewrite !mjoin_cons. cbn [mjoin list_join]. rewrite app_nil_r.
  pose proof (zlen_nonneg (a ++ b)). case_decide as Hl; [|rewrite sub_last; [done|lia]].
  rewrite buf_slice_sub by (unfold SECTOR_SIZE in *; lia). unfold last_sector. f_equal. lia.
Qed.

Lemma last_sector_app a b : last_sector (last_sector a ++ b) = last_sector (a ++ b).
Proof.
  destruct (decide (zlen a ≤ SECTOR_SIZE)) as [Ha|Ha]; [by rewrite (sub_last a)|].
  pose proof (zlen_nonneg b) as Hb. assert (0 < SECTOR_SIZE) by done.
  set (k := zlen a - SECTOR_SIZE) in *. assert (zlen a = k + SECTOR_SIZE) as Hka by (unfold k; lia).
  assert (a = take (Z.to_nat k) a ++ last_sector a) as Hsplit.
  { unfold last_sector, sub. fold k. rewrite (take_ge (drop _ _)); [by rewrite take_drop|].
    rewrite length_drop. unfold k, zlen. lia. }
  assert (zlen (take (Z.to_nat k) a) = k) as Hk by (unfold zlen in *; rewrite length_take; lia).
  assert (zlen (last_sector a) = SECTOR_SIZE) as Hl by (unfold last_sector; fold k; apply zlen_sub; lia).
  rewrite Hsplit at 2. rewrite <-app_assoc. unfold last_sector at 1 3.
  rewrite !zlen_app, Hk, Hl. rewrite (sub_app_r _ _ (take _ _)) by lia. rewrite Hk. f_equal. lia.
Qed.

Lemma readLastSector_eq chunks : readLastSector chunks = last_sector (mjoin chunks).
Proof.
  unfold readLastSector.
  assert (∀ b, zlen b ≤ SECTOR_SIZE → foldl (λ bufFooterEnd chunk,
    if decide (zlen chunk > 0) then cappedBufferConcat [bufFooterEnd; chunk] SECTOR_SIZE else bufFooterEnd)
    b chunks = last_sector (b ++ mjoin chunks)) as Hgen; [|by apply Hgen].
  induction chunks as [|c chunks IH]; intros b Hb; cbn [foldl].
  - rewrite app_nil_r. by rewrite sub_last.
  - rewrite mjoin_cons, app_assoc. case_decide as Hc.
    + rewrite cappedBufferConcat_eq, IH, last_sector_app; [done|].
      unfold last_sector. apply zlen_sub_le. done.
    + assert (c = []) as -> by (apply zlen_zero; pose proof (zlen_nonneg c); lia).
      by rewrite app_nil_r, IH.
Qed.

(** ** Entries laid in a stream, in order *)

(** [laid pos l s pos' s']: from [pos], [s] has the entries of [l], each with its
    buffer, with gaps before them; then [s'] from [pos']. *)
Inductive laid : Z → list (IndexEntry * buffer) → buffer → Z → buffer → Prop :=
  | laid_nil pos s : laid pos [] s pos s
  | laid_cons pos gap e d l s pos' s' :
      ie_offset e = pos + zlen gap → ie_size e = zlen d → 0 < ie_size e < 1073741824 →
      laid (ie_offset e + ie_size e) l s pos' s' → laid pos ((e, d) :: l) (gap ++ d ++ s) pos' s'.

Lemma laid_app pos l1 s1 pos2 s2 l2 pos3 s3 :
  laid pos l1 s1 pos2 s2 → laid pos2 l2 s2 pos3 s3 → laid pos (l1 ++ l2) s1 pos3 s3.
Proof. induction 1; intros; [done|]. cbn. econstructor; eauto. Qed.

Lemma laid_offsets pos l s pos' s' :
  laid pos l s pos' s' → Forall (λ e, pos ≤ ie_offset e) l.*1.
Proof.
  induction 1 as [|pos gap e d l s pos' s' Ho Hs Hpos _ IH]; cbn; [constructor|].
  pose proof (zlen_nonneg gap). constructor; [lia|]. eapply Forall_impl; [exact IH|]. cbn. lia.
Qed.

Lemma insert_first e l : Forall (λ x, ie_offset e ≤ ie_offset x) l → insert_entry e l = e :: l.
Proof. intros Hl. destruct Hl as [|x l Hx _]; [done|]. cbn. by rewrite decide_True. Qed.

Lemma laid_sorted pos l s pos' s' : laid pos l s pos' s' → sort_entries l.*1 = l.*1.
Proof.
  induction 1 as [|pos gap e d l s pos' s' Ho Hs Hpos Hl IH]; [done|]. cbn. unfold sort_entries in IH. rewrite IH.
  apply insert_first. eapply Forall_impl; [by eapply laid_offsets|]. cbn. lia.
Qed.

(** The table, pushed after the locators, is before them. *)
Lemma sort_bat_first l b :
  Forall (λ e, ie_offset b < ie_offset e) l → sort_entries l = l → sort_entries (l ++ [b]) = b :: l.
Proof.
  intros Hl Hs. transitivity (b :: sort_entries l); [|by rewrite Hs]. clear Hs.
  induction Hl as [|e l He _ IH]; [done|]. cbn. unfold sort_entries in *. rewrite IH. cbn.
  by rewrite decide_False by lia.
Qed.

Definition block_item (bitmapSize : Z) (x : IndexEntry * buffer) : Item :=
  BlockItem x.1 x.2 (buf_slice x.2 0 bitmapSize) (buf_slice x.2 bitmapSize (zlen x.2)).

Lemma returns_read_blocks bitmapSize pos l s pos' s' ys :
  laid pos l s pos' s' →
  returns (read_blocks bitmapSize l.*1) (mkParser pos s ys) tt
    (mkParser pos' s' (ys ++ (block_item bitmapSize <$> l))).
Proof.
  intros Hl. revert ys. induction Hl as [|pos gap e d l s pos' s' Ho Hs Hpos _ IH]; intros ys.
  { rewrite app_nil_r. apply returns_ret. }
  cbn [fmap list_fmap fst read_blocks].
  eapply returns_bind; [by apply returns_read_at|]. eapply returns_bind; [apply returns_modify|].
  specialize (IH (ys ++ [block_item bitmapSize (e, d)])). rewrite <-app_assoc in IH. exact IH.
Qed.

(** ** What was sent is received *)

Section received.
Context `{StructFuLaws} {T : Type} `{VhdStreamableLaws T}.
Context (chunks_of : buffer → list buffer) (chunks_of_content : ∀ b, mjoin (chunks_of b) = b).
Implicit Types v : T.

(** *** The locators *)

Lemma zero_pad n d : zlen d ≤ n → buf_copy (zrep n 0) 0 d = d ++ zrep (n - zlen d) 0.
Proof.
  intros Hd. pose proof (zlen_nonneg d). unfold buf_copy. rewrite zlen_zrep.
  rewrite take_ge by (unfold zlen in *; lia). unfold bwrite. destruct d as [|x d]; [by rewrite Z.sub_0_r|].
  change (Z.to_nat 0) with 0%nat. rewrite take_0. cbn [app]. f_equal. f_equal. unfold zrep.
  rewrite drop_replicate. f_equal. lia.
Qed.

Definition locator_bufs (ldata : Z → buffer) (l : list (Z * ParentLocatorEntry)) : list (IndexEntry * buffer) :=
  l ≫= λ '(i, e), if decide (platformDataSpace e = 0) then []
                  else [(mkEntry ParentLocator i (platformDataOffset e) (platformDataLength e), ldata i)].

Lemma locator_bufs_entries ldata l : (locator_bufs ldata l).*1 = locator_entries l.
Proof.
  unfold locator_bufs, locator_entries. induction l as [|[i e] l IH]; [done|].
  rewrite !bind_cons, fmap_app, IH. by case_decide.
Qed.

(** The data of a locator fits in its space. *)
Definition locator_ok (ldata : Z → buffer) (l : Z * ParentLocatorEntry) : Prop :=
  let '(i, e) := l in
  0 ≤ platformDataSpace e ∧
  (0 < platformDataSpace e → 0 < platformDataLength e < 1073741824 ∧
    platformDataLength e ≤ platformDataSpace e * SECTOR_SIZE ∧ zlen (ldata i) = platformDataLength e).

Lemma laid_locators ldata ids es pos gap off tail :
  length ids = length es → off = pos + zlen gap → Forall (locator_ok ldata) (zip ids es) →
  let l := zip ids (fst (place_locators off es)) in
  ∃ pos' gap', laid pos (locator_bufs ldata l) (gap ++ mjoin (l ≫= locator_chunk ldata) ++ tail) pos' (gap' ++ tail) ∧
    pos' + zlen gap' = off + spaces es.
Proof.
  revert ids pos gap off. induction es as [|e es IH]; intros [|i ids] pos gap off Hlen Hoff Hok; try done.
  { exists pos, gap. split; [apply laid_nil|]. change (spaces []) with 0. lia. }
  cbn [zip zip_with] in Hok. inversion_clear Hok as [|? ? Hlo Hok'].
  cbn [locator_ok] in Hlo. destruct Hlo as [Hsp He].
  cbn [place_locators]. cbn zeta.
  specialize (IH ids).
  destruct (place_locators (off + platformDataSpace e * SECTOR_SIZE) es) as [es' last] eqn:Ep.
  cbn [fst zip zip_with]. unfold locator_bufs. rewrite !bind_cons. fold (locator_bufs ldata (zip ids es')).
  rewrite spaces_cons. cbn [platformDataSpace with_offset locator_chunk platformDataOffset platformDataLength].
  destruct (decide (platformDataSpace e = 0)) as [Hz|Hz].
  - rewrite Hz in *. rewrite decide_False by lia. cbn [app].
    destruct (IH pos gap (off + 0 * SECTOR_SIZE)) as (pos' & gap' & Hl & Hp); [by injection Hlen|lia|done|].
    rewrite Ep in Hl. exists pos', gap'. split; [exact Hl|lia].
  - destruct He as (Hlen' & Hle & Hdata); [lia|].
    rewrite decide_True by (unfold SECTOR_SIZE; lia). rewrite zero_pad by lia.
    set (pad := zrep (platformDataSpace e * SECTOR_SIZE - zlen (ldata i)) 0).
    destruct (IH (off + platformDataLength e) pad (off + platformDataSpace e * SECTOR_SIZE))
      as (pos' & gap' & Hl & Hp); [by injection Hlen|unfold pad; rewrite zlen_zrep; lia|done|].
    rewrite Ep in Hl. cbn [fst] in Hl. exists pos', gap'. split; [|lia].
    cbn [app]. rewrite mjoin_cons, <-!app_assoc. apply laid_cons; [done|done|done|exact Hl].
Qed.

(** *** The blocks *)

Definition block_entry v (i : Z) : IndexEntry :=
  mkEntry ABlock i (end_of_locators v + fullBlockSize (vr_header v) * zlen (blocks v 0 i)) (fullBlockSize (vr_header v)).

Definition block_bufs v (k n : Z) : list (IndexEntry * buffer) :=
  zrange k n ≫= λ i, match vr_disk v !! i with Some b => [(block_entry v i, b)] | None => [] end.

Lemma laid_blocks v k n pos gap tail :
  vr_ok v → 0 ≤ k ≤ n → fullBlockSize (vr_header v) < 1073741824 →
  pos + zlen gap = end_of_locators v + fullBlockSize (vr_header v) * zlen (blocks v 0 k) →
  ∃ pos' gap', laid pos (block_bufs v k n) (gap ++ mjoin (zrange k n ≫= block_chunk v) ++ tail) pos' (gap' ++ tail).
Proof.
  intros Hv Hk Hfull. pose proof (vr_header_ok v Hv) as Hh.
  assert (0 < fullBlockSize (vr_header v)) as Hpos.
  { rewrite fullBlockSize_slot by done. pose proof (slot_pos _ Hh). unfold SECTOR_SIZE. lia. }
  remember (Z.to_nat (n - k)) as m eqn:Hm. revert k pos gap Hk Hm.
  induction m as [|m IH]; intros k pos gap Hk Hm Hgap; unfold block_bufs.
  { rewrite zrange_nil by lia. exists pos, gap. apply laid_nil. }
  rewrite zrange_cons by lia. rewrite !bind_cons. fold (block_bufs v (k + 1) n).
  pose proof (blocks_split v 0 k (k + 1) ltac:(lia)) as Hsplit.
  rewrite (blocks_cons v k (k + 1)), blocks_nil, app_nil_r in Hsplit by lia.
  unfold block_chunk at 1. destruct (vr_disk v !! k) as [b|] eqn:Hb.
  - rewrite decide_True in Hsplit by by eexists.
    pose proof (vr_len v k b Hv Hb) as Hlen.
    destruct (IH (k + 1) (pos + zlen gap + fullBlockSize (vr_header v)) []) as (pos' & gap' & Hl); [lia|lia| |].
    { rewrite Hsplit, zlen_app, Hgap. change (zlen (@nil Z)) with 0. change (zlen [k]) with 1. lia. }
    exists pos', gap'. cbn [app]. rewrite mjoin_cons, <-app_assoc.
    apply laid_cons; cbn [block_entry ie_offset ie_size]; [lia|lia|lia|].
    rewrite <-Hgap. exact Hl.
  - rewrite decide_False, app_nil_r in Hsplit by by intros [? ?].
    cbn [app]. apply IH; [lia|lia|]. by rewrite Hsplit.
Qed.

Lemma bat_entries_ok v ldata bat k :
  sendable v ldata → sent_table v bat → 0 ≤ k ≤ n_entries v →
  bat_entries bat (FOOTER_SIZE + HEADER_SIZE) (batSize (vr_header v)) (fullBlockSize (vr_header v))
    (zrange k (n_entries v)) = Ok (block_bufs v k (n_entries v)).*1.
Proof.
  intros Hs [Hlen Hbat]. pose proof (vr_header_ok v (se_ok _ _ Hs)) as Hh.
  pose proof (batSize_covers _ Hh) as Hc. fold (n_entries v) in Hc. pose proof (slot_pos _ Hh).
  pose proof (end_of_locators_eq v) as Hend. pose proof (spaces_nonneg _ (se_spaces _ _ Hs)).
  pose proof (end_of_locators_sectors v) as Hsec. apply Z.div_exact in Hsec; [|done].
  remember (Z.to_nat (n_entries v - k)) as m eqn:Hm. revert k Hm.
  induction m as [|m IH]; intros k Hm Hk; unfold block_bufs.
  { by rewrite zrange_nil by lia. }
  rewrite zrange_cons, bind_cons, fmap_app by lia. fold (block_bufs v (k + 1) (n_entries v)).
  cbn [bat_entries]. rewrite readUInt32BE_ok by lia. fold (bat_entry bat k). rewrite Hbat by lia.
  cbn [mbind result_bind]. destruct (vr_disk v !! k) as [b|] eqn:Hb.
  - rewrite (decide_True (P := is_Some (Some b))) by by eexists.
    pose proof (se_fits _ _ Hs) as Hf. rewrite (blocks_split v 0 k), (blocks_cons v k), Hb in Hf by lia.
    rewrite (decide_True (P := is_Some (Some b))), !zlen_app in Hf by by eexists.
    pose proof (zlen_nonneg (blocks v (k + 1) (n_entries v))). pose proof (zlen_nonneg (blocks v 0 k)).
    change (zlen [k]) with 1 in Hf. rewrite decide_True by nia.
    assert ((end_of_locators v / SECTOR_SIZE + slot (vr_header v) * zlen (blocks v 0 k)) * SECTOR_SIZE =
      end_of_locators v + fullBlockSize (vr_header v) * zlen (blocks v 0 k)) as ->
      by (rewrite (fullBlockSize_slot _ Hh); lia).
    rewrite js_assert_bind.
    + rewrite IH by lia. done.
    + apply bool_decide_eq_true_2. rewrite (fullBlockSize_slot _ Hh). unfold SECTOR_SIZE in *. nia.
  - rewrite (decide_False (P := is_Some None)) by by intros [? ?].
    rewrite decide_False by (intros Hn; by apply Hn). by rewrite IH by lia.
Qed.

Lemma zlen_block_bufs v k n : zlen (block_bufs v k n).*1 = zlen (blocks v k n).
Proof.
  unfold block_bufs, blocks. induction (zrange k n) as [|i l IH]; [done|].
  rewrite bind_cons, fmap_app, zlen_app, IH, filter_cons.
  destruct (vr_disk v !! i); [rewrite decide_True by by eexists|rewrite decide_False by by intros [? ?]]; [|done].
  rewrite zlen_cons. done.
Qed.

(** *** The whole stream *)

Definition placed_locators v : list (Z * ParentLocatorEntry) :=
  zip (zrange 0 PARENT_LOCATOR_ENTRIES) (Header.parentLocatorEntry (sent_header v)).

(** A VHD whose stream can be parsed: its footer and its header are valid, and what
    is read at once is less than a gibibyte. *)
Record receivable v (ldata : Z → buffer) : Prop := {
  re_footer : checkFooter (vr_footer v) = Ok tt;
  re_header : checkHeader (sent_header v) (Some (sent_footer v)) = Ok tt;
  re_bat : batSize (vr_header v) < 1073741824;
  re_block : fullBlockSize (vr_header v) < 1073741824;
  re_locators : Forall (locator_ok ldata) (zip (zrange 0 PARENT_LOCATOR_ENTRIES) (Header.parentLocatorEntry (vr_header v)));
}.

Definition bufs v (ldata : Z → buffer) : list (IndexEntry * buffer) :=
  locator_bufs ldata (placed_locators v) ++ block_bufs v 0 (n_entries v).

(** What is received: the headers, the table, then the locators and the blocks. *)
Definition received v (ldata : Z → buffer) (bat : buffer) : list Item :=
  [FooterItem (sent_footer v); HeaderItem (checksummed_header (sent_header v));
   HeadItem (mkEntry Bat 0 (FOOTER_SIZE + HEADER_SIZE) (batSize (vr_header v))) bat
     (Some (zlen (blocks v 0 (n_entries v))))] ++
  (block_item (bitmapSize (vr_header v)) <$> bufs v ldata).

(** The locators and the blocks, after the table. *)
Definition body v (ldata : Z → buffer) : buffer :=
  mjoin (placed_locators v ≫= locator_chunk ldata) ++ mjoin (zrange 0 (n_entries v) ≫= block_chunk v).

Lemma mjoin_app (a b : list buffer) : mjoin (a ++ b) = mjoin a ++ mjoin b.
Proof. induction a as [|x a IH]; [done|]. cbn [app]. by rewrite !mjoin_cons, IH, app_assoc. Qed.

Lemma sent_content v ldata bat :
  mjoin (sent_chunks v ldata bat) =
    fu_pack (sent_footer v) ++ fu_pack (checksummed_header (sent_header v)) ++ bat ++
    body v ldata ++ fu_pack (sent_footer v).
Proof.
  unfold sent_chunks, body. cbn [app]. rewrite !mjoin_cons, !mjoin_app, mjoin_cons.
  change (mjoin []) with (@nil Z). by rewrite app_nil_r, <-!app_assoc.
Qed.

Lemma laid_body v ldata tail :
  sendable v ldata → receivable v ldata →
  ∃ pos1 s1 pos2 gap2,
    laid (FOOTER_SIZE + HEADER_SIZE + batSize (vr_header v)) (locator_bufs ldata (placed_locators v))
      (body v ldata ++ tail) pos1 s1 ∧
    laid pos1 (block_bufs v 0 (n_entries v)) s1 pos2 (gap2 ++ tail).
Proof.
  intros Hs Hr. pose proof (ho_entries _ (vr_header_ok v (se_ok _ _ Hs))) as Hn.
  destruct (laid_locators ldata (zrange 0 PARENT_LOCATOR_ENTRIES) (Header.parentLocatorEntry (vr_header v))
    (FOOTER_SIZE + HEADER_SIZE + batSize (vr_header v)) [] (FOOTER_SIZE + HEADER_SIZE + batSize (vr_header v))
    (mjoin (zrange 0 (n_entries v) ≫= block_chunk v) ++ tail)) as (pos1 & gap1 & Hl & Hp).
  - by rewrite (se_entries _ _ Hs).
  - change (zlen []) with 0. lia.
  - apply Hr.
  - rewrite <-end_of_locators_eq in Hp.
    destruct (laid_blocks v 0 (n_entries v) pos1 gap1 tail (se_ok _ _ Hs)) as (pos2 & gap2 & Hb);
      [done|apply Hr|rewrite blocks_nil; change (zlen []) with 0; lia|].
    exists pos1, (gap1 ++ mjoin (zrange 0 (n_entries v) ≫= block_chunk v) ++ tail), pos2, gap2.
    split; [|exact Hb]. unfold body, placed_locators. rewrite sent_locators, <-app_assoc. exact Hl.
Qed.

Lemma received_header v :
  let h := checksummed_header (sent_header v) in
  Header.blockSize h = Header.blockSize (vr_header v) ∧
  Header.parentLocatorEntry h = Header.parentLocatorEntry (sent_header v) ∧
  Header.tableOffset h = FOOTER_SIZE + HEADER_SIZE ∧
  Header.maxTableEntries h = n_entries v.
Proof. unfold checksummed_header, sent_header. rewrite stream_header_eq. done. Qed.

Lemma parser_batSize n :
  0 ≤ n → Z.max 1 (ceil_div (n * 4) SECTOR_SIZE) * SECTOR_SIZE = computeBatSize n.
Proof.
  intros Hn. unfold computeBatSize, sectorsToBytes, sectorsRoundUpNoZero.
  pose proof (ceil_div_nonneg (n * 4) SECTOR_SIZE ltac:(done) ltac:(lia)). f_equal. case_decide; lia.
Qed.

Lemma returns_headers v ldata bat :
  sendable v ldata → receivable v ldata → sent_table v bat →
  returns headers (mkParser 0 (mjoin (sent_chunks v ldata bat)) [])
    (fu_pack (sent_footer v), bitmapSize (vr_header v), (bufs v ldata).*1)
    (mkParser (FOOTER_SIZE + HEADER_SIZE + batSize (vr_header v)) (body v ldata ++ fu_pack (sent_footer v))
      (take 3 (received v ldata bat))).
Proof.
  intros Hs Hr Ht. pose proof (vr_header_ok v (se_ok _ _ Hs)) as Hh. pose proof (ho_entries _ Hh) as Hn.
  destruct (laid_body v ldata (fu_pack (sent_footer v)) Hs Hr) as (pos1 & s1 & pos2 & gap2 & Hl & Hb).
  assert (0 < batSize (vr_header v)) as Hpos.
  { apply Z.mul_pos_pos; [|done]. apply (Z.lt_le_trans _ 1); [done|]. apply sectorsRoundUpNoZero_pos. lia. }
  rewrite sent_content. unfold headers.
  eapply returns_bind; [apply (returns_read_at [] _ _ 0); [done|by rewrite (zlen_sent_footer v ldata)|done]|].
  eapply returns_bind.
  { unfold sent_footer. rewrite unpackFooter_pack by apply Hs. rewrite (re_footer _ _ Hr). apply returns_lift. }
  fold (sent_footer v). eapply returns_bind; [apply returns_modify|]. cbn [_bytesRead _stream items].
  eapply returns_bind; [apply (returns_read_at []); [done|by rewrite (zlen_sent_header v ldata)|done]|].
  eapply returns_bind.
  { rewrite unpackHeader_pack by apply Hs. rewrite (re_header _ _ Hr). apply returns_lift. }
  eapply returns_bind; [apply returns_modify|]. cbn [_bytesRead _stream items].
  destruct (received_header v) as (-> & -> & -> & ->).
  rewrite (entries_length v ldata Hs). cbn zeta. rewrite (parser_batSize (n_entries v)) by done.
  change (computeBatSize (n_entries v)) with (batSize (vr_header v)). change (zrange 0 8) with (zrange 0 PARENT_LOCATOR_ENTRIES).
  fold (placed_locators v) (fullBlockSize (vr_header v)).
  eapply returns_bind; [apply returns_assert, bool_decide_eq_true_2, Z.mod_divide; [done|apply Hh]|].
  rewrite sort_bat_first.
  2:{ rewrite <-(locator_bufs_entries ldata). eapply Forall_impl; [by eapply laid_offsets|]. cbn. lia. }
  2:{ rewrite <-(locator_bufs_entries ldata). by eapply laid_sorted. }
  eapply returns_bind.
  { cbn [read_until_bat ie_offset ie_size ie_type].
    eapply returns_bind; [apply (returns_read_at []); [done|symmetry; apply Ht|split; [done|apply Hr]]|].
    destruct (received_header v) as (_ & _ & _ & ->).
    rewrite (bat_entries_ok v ldata bat 0 Hs Ht) by (unfold n_entries; lia).
    eapply returns_bind; [apply returns_lift|]. eapply returns_bind; [apply returns_modify|].
    rewrite <-(locator_bufs_entries ldata), <-fmap_app. fold (bufs v ldata).
    unfold bufs. rewrite (laid_sorted _ _ _ _ _ (laid_app _ _ _ _ _ _ _ _ Hl Hb)). apply returns_ret. }
  cbn [_bytesRead _stream items app]. rewrite zlen_block_bufs. unfold returns, mret, M_ret, received.
  cbn [take app]. do 4 f_equal. destruct (bitmapSize_split (vr_header v) Hh). lia.
Qed.

Lemma last_sector_end gap f : zlen f = SECTOR_SIZE → last_sector (gap ++ f) = f.
Proof.
  intros Hf. pose proof (zlen_nonneg gap). unfold last_sector. rewrite zlen_app, Hf.
  replace (zlen gap + SECTOR_SIZE - SECTOR_SIZE) with (zlen gap) by lia.
  rewrite sub_app_r, Z.sub_diag by lia. rewrite <-Hf. apply sub_all.
Qed.

Lemma received_lemma v ldata bat :
  sendable v ldata → receivable v ldata → sent_table v bat →
  parseVhdStream chunks_of (mjoin (sent_chunks v ldata bat)) = (Ok tt, received v ldata bat).
Proof.
  intros Hs Hr Ht. unfold parseVhdStream, parse.
  destruct (laid_body v ldata (fu_pack (sent_footer v)) Hs Hr) as (pos1 & s1 & pos2 & gap2 & Hl & Hb).
  assert (returns (blocks_of chunks_of (fu_pack (sent_footer v)) (bitmapSize (vr_header v)) (bufs v ldata).*1)
    (mkParser (FOOTER_SIZE + HEADER_SIZE + batSize (vr_header v)) (body v ldata ++ fu_pack (sent_footer v))
      (take 3 (received v ldata bat))) tt (mkParser pos2 [] (received v ldata bat))) as Hblocks.
  { unfold blocks_of. eapply returns_bind; [eapply returns_read_blocks, laid_app; [exact Hl|exact Hb]|].
    eapply returns_bind; [apply returns_gets|]. eapply returns_bind; [apply returns_modify|].
    apply returns_assert, bool_decide_eq_true_2. cbn [_stream].
    rewrite readLastSector_eq, chunks_of_content, last_sector_end; [done|by apply (zlen_sent_footer v ldata)]. }
  unfold mbind, M_bind. rewrite (returns_headers v ldata bat Hs Hr Ht). by rewrite Hblocks.
Qed.
End received.

(** ** The locators that the VHD had *)

(** [stream] assigns the offsets of the locators in the header of the VHD, before it reads
    them: they are those that the VHD had when this changes none that has a sector. *)
Definition keeps_locators `{StructFu} `{VhdStreamable T} (v : T) : Prop :=
  ∀ i e, zget (Header.parentLocatorEntry (vr_header v)) i = Some e → 0 < platformDataSpace e →
    vr_readParentLocator (assigned v) i = vr_readParentLocator v i.

(** A chain makes a new header for each reader. *)
Lemma synthetic_keeps_locators `{StructFu} `{VhdStreamable T} (v : VhdSynthetic T) : keeps_locators v.
Proof. done. Qed.

(** The locators of a file are in its header: they have to be where the stream has them,
    after the table.  Otherwise other bytes are sent: see [stream_moves_locators]. *)
Lemma file_keeps_locators `{StructFu} (v : VhdFile) h :
  vf_header v = Some h → Header.parentLocatorEntry (sent_header v) = Header.parentLocatorEntry h → keeps_locators v.
Proof.
  intros Hh He. assert (assigned v = v) as E; [|unfold keeps_locators; by rewrite E].
  unfold assigned. rewrite He. cbn. rewrite Hh. destruct v, h. cbn in *. by rewrite Hh.
Qed.

(** C22: What [stream] sends for a VHD of any kind is parsed, however the stream is
    cut, as the same VHD: its footer, its header with the locators and the table moved
    after it, the table, then each locator and each block with its bitmap and data.

    The locators are those that the VHD had, when the offsets that [stream] assigns in its
    header do not change where it reads them: so it is of a chain, and of a file where they
    follow the table ([synthetic_keeps_locators], [file_keeps_locators]), not of any file
    ([stream_moves_locators]). *)
Theorem stream_received `{StructFuLaws} `{VhdStreamableLaws T} allocUnsafe chunks_of (v : T) ldata :
  (∀ n, 0 ≤ n → zlen (allocUnsafe n) = n) → (∀ b, mjoin (chunks_of b) = b) →
  sendable v ldata → receivable v ldata → keeps_locators v →
  ∃ bat sent, fst (stream allocUnsafe v) = Ok sent ∧ st_error sent = Ok tt ∧
    sent_table v bat ∧
    parseVhdStream chunks_of (mjoin (st_chunks sent)) = (Ok tt, received v ldata bat) ∧
    ∀ i e, zget (Header.parentLocatorEntry (vr_header v)) i = Some e → 0 < platformDataSpace e →
      vr_readParentLocator v i = Ok (ldata i).
Proof.
  intros Ha Hc Hs Hr Hk. destruct (stream_lemma allocUnsafe Ha v ldata Hs) as (bat & Ht & Hst).
  exists bat. eexists. rewrite Hst. split; [done|]. split; [done|]. split; [done|].
  split; [by apply received_lemma|]. intros i e Hi He. rewrite <- (Hk i e Hi He). by eapply se_data.
Qed.

(** ** Witness *)

Lemma streamed_receivable : @receivable packed MemoryVhd _ streamed_vhd streamed_locator.
Proof.
  split; [vm_compute; reflexivity..|].
  change PARENT_LOCATOR_ENTRIES with (zlen (Header.parentLocatorEntry (vr_header streamed_vhd))).
  apply Forall_forall. intros [i e] He. apply (zip_zrange (Header.parentLocatorEntry (vr_header streamed_vhd))) in He. cbn [locator_ok].
  assert (e = file_locator 3 7777 ∨ e = no_locator) as [-> | ->].
  { unfold zget in He. case_decide; [done|]. apply list_elem_of_lookup_2 in He.
    apply elem_of_cons in He as [->|He]; [by left|right]. by apply elem_of_replicate in He as [-> _]. }
  - split; [done|]. intros _. split; [done|]. split; [done|reflexivity].
  - split; [done|]. intros Hs. cbn in Hs. lia.
Qed.

(** A file of 128 blocks of two sectors, whose locator follows its table, and its block 5. *)
Definition located_header : Header.t :=
  Header.with_parentLocatorEntry (fst (place_locators 2048 (file_locator 3 0 :: replicate 7 no_locator))) small_header.
Definition unwritten_vhd : VhdFile :=
  mkVhd (zrep 1536 0 ++ small_table ++ [1; 2; 3] ++ zrep 509 0) (Some small_footer) (Some located_header) (Some small_table) false 0.
Definition located_vhd : VhdFile := snd (writeEntireBlock (small_block 5) unwritten_vhd).

Lemma located_vhd_ok : vr_ok located_vhd.
Proof.
  assert (wf unwritten_vhd located_header small_footer small_table) as Hw.
  { split; try done; [split; [done|by exists 2|done|done]|by apply placed_unused|]. intros i Ha. by apply unused_table in Ha. }
  destruct (writeEntireBlock_lemma unwritten_vhd located_header small_footer small_table Hw (small_block 5))
    as (s1 & t1 & Hr & Hw1 & _); [split; [discriminate|reflexivity]|right; vm_compute; reflexivity|reflexivity|].
  exists located_header, small_footer, t1. unfold located_vhd. by rewrite Hr.
Qed.

Definition other_locators : list ParentLocatorEntry := tail (Header.parentLocatorEntry located_header).
Lemma located_locators : Header.parentLocatorEntry (vr_header located_vhd) = file_locator 3 2048 :: other_locators.
Proof. vm_compute. reflexivity. Qed.
Lemma other_locators_empty : Forall (λ e, platformDataSpace e = 0) other_locators.
Proof. apply (bool_decide_unpack _). vm_compute. exact I. Qed.

Lemma located_entries i e :
  zget (Header.parentLocatorEntry (vr_header located_vhd)) i = Some e →
  (i = 0 ∧ e = file_locator 3 2048) ∨ platformDataSpace e = 0.
Proof.
  rewrite located_locators. unfold zget. case_decide; [done|]. destruct (Z.to_nat i) as [|n] eqn:Hn.
  - intros E. left. split; [lia|]. cbn in E. congruence.
  - intros He. right. pose proof other_locators_empty as Hf. rewrite Forall_forall in Hf. apply Hf.
    by apply (list_elem_of_lookup_2 _ n).
Qed.

Lemma located_footer : vr_footer located_vhd = small_footer.
Proof. vm_compute. reflexivity. Qed.
Lemma located_sent : @sent_header VhdFile _ located_vhd = located_header.
Proof. vm_compute. reflexivity. Qed.

Lemma located_sendable : @sendable packed VhdFile _ _ _ located_vhd streamed_locator.
Proof.
  split.
  - exact located_vhd_ok.
  - rewrite located_footer. compute_wf.
  - rewrite located_sent. compute_wf.
  - reflexivity.
  - repeat (constructor; [vm_compute; discriminate|]). constructor.
  - intros i e He Hs. destruct (located_entries i e He) as [[-> _]|E]; [vm_compute; reflexivity|lia].
  - vm_compute. discriminate.
Qed.

Lemma located_receivable : @receivable packed VhdFile _ located_vhd streamed_locator.
Proof.
  split; [vm_compute; reflexivity..|]. apply Forall_forall. intros [i e] He.
  replace PARENT_LOCATOR_ENTRIES with (zlen (Header.parentLocatorEntry (vr_header located_vhd))) in He by (rewrite located_locators; vm_compute; reflexivity).
  apply (zip_zrange (Header.parentLocatorEntry (vr_header located_vhd))) in He. cbn [locator_ok].
  apply located_entries in He as [[-> ->]|E]; [|split; [lia|]; intros Hs; lia].
  split; [vm_compute; discriminate|]. intros _. split; [split; reflexivity|]. split; [vm_compute; discriminate|reflexivity].
Qed.

Lemma stream_received_witness :
  ∃ bat sent, fst (@stream packed VhdFile _ _ zeroed located_vhd) = Ok sent ∧ st_error sent = Ok tt ∧
    sent_table located_vhd bat ∧
    @parseVhdStream packed (λ b, [b]) (mjoin (st_chunks sent)) =
      (Ok tt, @received packed VhdFile _ _ located_vhd streamed_locator bat) ∧
    vr_readParentLocator located_vhd 0 = Ok [1; 2; 3].
Proof.
  destruct (@stream_received packed packed_laws VhdFile _ _ _ _ zeroed (λ b, [b]) located_vhd streamed_locator)
    as (bat & sent & H1 & H2 & H3 & H4 & H5).
  - exact zlen_zeroed.
  - intros b. cbn. apply app_nil_r.
  - exact located_sendable.
  - exact located_receivable.
  - apply (@file_keeps_locators packed located_vhd located_header); reflexivity.
  - exists bat, sent. split; [exact H1|]. split; [exact H2|]. split; [exact H3|]. split; [exact H4|].
    apply (H5 0 (file_locator 3 2048)); [vm_compute; reflexivity|vm_compute; reflexivity].
Defined.
