(* ===== verification/VhdStreamLength.v ===== *)
(** * VHD streams of a known length

    [packages/vhd-lib/createVhdStreamWithLength.js]: the length of a VHD stream is
    computed from its headers and its table, and the stream is cut where the footer
    should be, what is between the last block and the footer being dropped.

    The stream that [VhdStream.stream] makes of a VHD with blocks goes through
    unchanged, with its length. *)

From S2P Require Import Prelude Buffers VhdFormat StructFu VhdStructs VhdFile VhdLayout VhdBlocks VhdReader VhdChain VhdStream VhdStreamParser.

(** ** [EndCutterStream]: the state, and the chunks it pushed *)

Record EndCutter := mkCutter { _position : Z; _done : bool; pushed : list buffer }.

Section cutter.
Context (footerOffset : Z) (footerBuffer : buffer).

(** [_transform(data)] *)
Definition transform (c : EndCutter) (data : buffer) : EndCutter :=
  if _done c then c
  else if decide (_position c + zlen data >= footerOffset) then
    let difference := footerOffset - _position c in
    let data := buf_slice data 0 difference in
    mkCutter (_position c + zlen data) true (pushed c ++ [data; footerBuffer])
  else mkCutter (_position c + zlen data) false (pushed c ++ [data]).

Definition cut (chunks : list buffer) : list buffer := pushed (foldl transform (mkCutter 0 false []) chunks).

Lemma foldl_transform_done chunks n l :
  foldl transform (mkCutter n true l) chunks = mkCutter n true l.
Proof. by induction chunks. Qed.

Lemma foldl_transform chunks n l :
  n < footerOffset →
  mjoin (pushed (foldl transform (mkCutter n false l) chunks)) =
    mjoin l ++ (if decide (footerOffset ≤ n + zlen (mjoin chunks))
                then sub 0 (footerOffset - n) (mjoin chunks) ++ footerBuffer else mjoin chunks).
Proof.
  revert n l. induction chunks as [|c chunks IH]; intros n l Hn; cbn [foldl].
  - change (zlen (mjoin [])) with 0. rewrite decide_False by lia. cbn [pushed]. by rewrite app_nil_r.
  - unfold transform at 2. cbn [_done _position pushed]. rewrite mjoin_cons, zlen_app.
    pose proof (zlen_nonneg (mjoin chunks)) as Hj. case_decide as Hc.
    + rewrite foldl_transform_done. cbn [pushed]. rewrite decide_True by lia.
      rewrite mjoin_app, mjoin_cons, mjoin_cons. change (mjoin []) with (@nil Z). rewrite app_nil_r.
      rewrite buf_slice_sub by lia. rewrite Z.sub_0_r, sub_app_l by lia. done.
    + rewrite IH by lia. rewrite mjoin_app, mjoin_cons, <-!app_assoc. change (mjoin []) with (@nil Z). cbn [app].
      rewrite Z.add_assoc. case_decide; [|done]. f_equal. rewrite app_assoc. f_equal.
      pose proof (zlen_nonneg c).
      replace (footerOffset - n) with (zlen c + (footerOffset - (n + zlen c))) by lia.
      rewrite (sub_split 0) by lia. rewrite sub_app_l by lia. rewrite sub_all. f_equal.
      rewrite sub_app_r by lia. by rewrite Z.add_0_l, Z.sub_diag.
Qed.

(** However the stream is cut, it is its content up to the footer, then the footer;
    a stream that ends before has no footer. *)
Lemma cut_content chunks :
  0 < footerOffset →
  mjoin (cut chunks) =
    if decide (footerOffset ≤ zlen (mjoin chunks))
    then sub 0 footerOffset (mjoin chunks) ++ footerBuffer else mjoin chunks.
Proof. intros H. unfold cut. rewrite foldl_transform by done. by rewrite Z.sub_0_r. Qed.
End cutter.

(** ** [createVhdStreamWithLength(stream)] *)

Section with_length.
Context `{!StructFu}.
Context (chunks_of : buffer → list buffer).

(** [readStream(length)]; [streamPosition] is [_bytesRead]. *)
Definition readStream (length : Z) : M StreamParser buffer :=
  if decide (length = 0) then mret []
  else
    chunk ← readChunkStrict length;
    modify (λ p, set_stream (_bytesRead p + length) (_stream p) p) ;;
    mret chunk.

Definition end_of_block (h : Header.t) (lastSector : Z) : Z :=
  lastSector * SECTOR_SIZE + ceil_div (Header.blockSize h) (SECTOR_SIZE * 8 * SECTOR_SIZE) * SECTOR_SIZE +
  Header.blockSize h.

(** The footer, and where it goes. *)
Definition read_footer_offset : M StreamParser (buffer * Z) :=
  footerBuffer ← readStream FOOTER_SIZE;
  let footer := fu_unpack footerBuffer in
  lift (checkFooter footer) ;;
  bufHeader ← readStream HEADER_SIZE;
  let h := fu_unpack bufHeader in
  lift (checkHeader h (Some footer)) ;;
  n ← gets _bytesRead;
  readStream (Header.tableOffset h - n) ;;
  table ← readStream (Header.maxTableEntries h * 4);
  firstAndLastBlocks ← lift (getFirstAndLastBlocks table);
  n ← gets _bytesRead;
  mret (footerBuffer,
    match firstAndLastBlocks with
    | Some r => end_of_block h (lastSector r)
    | None => ceil_div n SECTOR_SIZE * SECTOR_SIZE
    end).

(** The length and the chunks; what was read is put back in the stream. *)
Definition createVhdStreamWithLength (content : buffer) : result (Z * list buffer) :=
  '(footerBuffer, footerOffset) ← fst (read_footer_offset (mkParser 0 content []));
  Ok (footerOffset + FOOTER_SIZE, cut footerOffset footerBuffer (chunks_of content)).
End with_length.

(** ** The streams of [VhdStream] *)

Section facts.
Context `{StructFuLaws} {T : Type} `{VhdStreamableLaws T}.
Implicit Types v : T.

Lemma returns_readStream (d rest : buffer) n ys size :
  size = zlen d → size < 1073741824 →
  returns (readStream size) (mkParser n (d ++ rest) ys) d (mkParser (n + size) rest ys).
Proof.
  intros -> Hd. pose proof (zlen_nonneg d). unfold readStream. case_decide as Hz.
  - apply zlen_zero in Hz as ->.
    rewrite Z.add_0_r. apply returns_ret.
  - eapply returns_bind; [apply returns_readChunkStrict; lia|]. eapply returns_bind; [apply returns_modify|].
    apply returns_ret.
Qed.

(** The bitmap of a block of a power of two, as it is computed here. *)
Lemma bitmap_of_power h :
  header_ok h → is_power_of_two (Header.blockSize h) = true → Header.blockSize h < 1073741824 →
  ceil_div (Header.blockSize h) (SECTOR_SIZE * 8 * SECTOR_SIZE) * SECTOR_SIZE = bitmapSize h.
Proof.
  intros Hh Hp Hlt. unfold is_power_of_two in Hp. apply andb_true_iff in Hp as [_ Hp].
  apply bool_decide_eq_true in Hp. unfold bitmapSize, sectorsOfBitmap. destruct Hh as [Hpos Hsec _ _].
  set (k := Z.log2 (Header.blockSize h)) in *. rewrite Hp in *.
  assert (9 ≤ k) as Hk.
  { destruct (decide (9 ≤ k)); [done|]. apply Z.divide_pos_le in Hsec; [|done].
    assert (2 ^ k < 2 ^ 9) by (apply Z.pow_lt_mono_r; lia). unfold SECTOR_SIZE in Hsec. lia. }
  assert (k < 30) as Hk' by (apply (Z.pow_lt_mono_r_iff 2); [done|done|exact Hlt]).
  assert (k ∈ zrange 9 30) as Hin by (apply elem_of_zrange; lia). clearbody k. clear -Hin.
  revert k Hin. apply Forall_forall. repeat (constructor; [vm_compute; reflexivity|]). constructor.
Qed.

(** The last block of the disk. *)
Lemma last_block v n :
  0 ≤ n → blocks v 0 n ≠ [] →
  ∃ i, 0 ≤ i < n ∧ is_Some (vr_disk v !! i) ∧ zlen (blocks v 0 n) = zlen (blocks v 0 i) + 1.
Proof.
  revert n. apply (natlike_ind (λ n, blocks v 0 n ≠ [] → _)); [by rewrite blocks_nil|].
  intros n Hn IH Hne. change (Z.succ n) with (n + 1) in *.
  rewrite (blocks_split v 0 n) in * by lia. rewrite (blocks_cons v n), blocks_nil, app_nil_r in * by lia.
  case_decide as Hb.
  - exists n. split; [lia|]. split; [done|]. by rewrite zlen_app.
  - rewrite app_nil_r in *. destruct (IH Hne) as (i & Hi & Hs & Hl). exists i. split; [lia|]. done.
Qed.

Lemma zlen_blocks_mono v i n : 0 ≤ i < n → is_Some (vr_disk v !! i) → zlen (blocks v 0 i) + 1 ≤ zlen (blocks v 0 n).
Proof.
  intros Hi Hs. rewrite (blocks_split v 0 i n), (blocks_cons v i n) by lia. rewrite decide_True by done.
  rewrite !zlen_app. pose proof (zlen_nonneg (blocks v (i + 1) n)). change (zlen [i]) with 1. lia.
Qed.

Lemma table_entry bat n i : 0 ≤ i < n → n * 4 ≤ zlen bat → bat_entry (sub 0 (n * 4) bat) i = bat_entry bat i.
Proof. intros. unfold bat_entry. rewrite sub_sub by lia. done. Qed.

Lemma last_sector_of_table v ldata bat r :
  sendable v ldata → sent_table v bat → blocks v 0 (n_entries v) ≠ [] →
  extrema (sub 0 (n_entries v * 4) bat) (n_entries v) r →
  lastSector r = end_of_locators v / SECTOR_SIZE +
    slot (vr_header v) * (zlen (blocks v 0 (n_entries v)) - 1).
Proof.
  intros Hs [Hlen Hbat] Hne (_ & _ & Hlast & Hls & _ & Hall).
  pose proof (vr_header_ok v (se_ok _ _ Hs)) as Hh. pose proof (slot_pos _ Hh) as Hslot.
  pose proof (ho_entries _ Hh) as Hn. pose proof (batSize_covers _ Hh) as Hc. fold (n_entries v) in Hn, Hc.
  assert (zlen (sub 0 (n_entries v * 4) bat) / 4 = n_entries v) as Hz
    by (rewrite zlen_sub by lia; by apply Z.div_mul).
  unfold allocated in *. rewrite Hz in *.
  destruct (last_block v (n_entries v) Hn Hne) as (i & Hi & Hsi & Hcount).
  destruct Hlast as [Hl Hlu]. rewrite table_entry in Hls, Hlu by lia. rewrite Hbat in Hls, Hlu by done.
  destruct (decide (is_Some (vr_disk v !! last r))) as [Hsl|]; [|done].
  assert (bat_entry (sub 0 (n_entries v * 4) bat) i =
    end_of_locators v / SECTOR_SIZE + slot (vr_header v) * zlen (blocks v 0 i)) as Hei
    by (rewrite table_entry, Hbat, decide_True by (done || lia); done).
  assert (end_of_locators v / SECTOR_SIZE + slot (vr_header v) * zlen (blocks v 0 i) < BLOCK_UNUSED) as Hlt
    by (pose proof (se_fits _ _ Hs) as Hf; rewrite Hcount in Hf; nia).
  specialize (Hall i ltac:(rewrite Hei; split; [done|lia]) ltac:(lia)). rewrite Hei in Hall.
  pose proof (zlen_blocks_mono v (last r) (n_entries v) Hl Hsl). nia.
Qed.

Lemma is_power_checked h f : checkHeader h f = Ok tt → is_power_of_two (Header.blockSize h) = true.
Proof. unfold checkHeader. intros Hc. by destruct (is_power_of_two _); repeat case_bool_decide. Qed.

(** The footer is found, and goes where the stream has it. *)
Lemma read_footer_offset_ok v ldata bat :
  sendable v ldata → receivable v ldata → sent_table v bat → blocks v 0 (n_entries v) ≠ [] →
  fst (read_footer_offset (mkParser 0 (mjoin (sent_chunks v ldata bat)) [])) =
    Ok (fu_pack (sent_footer v), sent_size v - FOOTER_SIZE).
Proof.
  intros Hs Hr Ht Hne. pose proof (vr_header_ok v (se_ok _ _ Hs)) as Hh. pose proof (ho_entries _ Hh) as Hn.
  pose proof (batSize_covers _ Hh) as Hc. fold (n_entries v) in Hn, Hc.
  assert (zlen bat = batSize (vr_header v)) as Hbat by apply Ht.
  set (t := sub 0 (n_entries v * 4) bat).
  assert (zlen t = n_entries v * 4) as Hzt by (apply zlen_sub; lia).
  assert (bat = t ++ drop (Z.to_nat (n_entries v * 4)) bat) as Hsplit.
  { unfold t, sub. change (Z.to_nat 0) with 0%nat. by rewrite drop_0, take_drop. }
  assert (returns read_footer_offset (mkParser 0 (mjoin (sent_chunks v ldata bat)) [])
    (fu_pack (sent_footer v), sent_size v - FOOTER_SIZE)
    (mkParser (FOOTER_SIZE + HEADER_SIZE + n_entries v * 4)
      (drop (Z.to_nat (n_entries v * 4)) bat ++ body v ldata ++ fu_pack (sent_footer v)) [])) as Hret;
    [|by rewrite Hret].
  rewrite sent_content. rewrite Hsplit at 1. rewrite <-(app_assoc t). unfold read_footer_offset.
  eapply returns_bind; [apply returns_readStream; [by rewrite (zlen_sent_footer v ldata)|done]|].
  assert (fu_unpack (fu_pack (sent_footer v)) = sent_footer v) as ->.
  { unfold sent_footer, checksummed_footer. rewrite <-fuFooter_checksum. apply fu_unpack_pack, fu_wf_with_checksum;
      [apply Hs|apply lnot_mod_bound]. }
  assert (fu_unpack (fu_pack (checksummed_header (sent_header v))) = checksummed_header (sent_header v)) as Hu.
  { unfold checksummed_header. rewrite <-fuHeader_checksum. apply fu_unpack_pack, fu_wf_with_checksum;
      [apply Hs|apply lnot_mod_bound]. }
  assert (checkFooter (sent_footer v) = Ok tt) as -> by (rewrite <-(re_footer _ _ Hr); done).
  eapply returns_bind; [apply returns_lift|].
  eapply returns_bind; [apply returns_readStream; [by rewrite (zlen_sent_header v ldata)|done]|].
  rewrite Hu. assert (checkHeader (checksummed_header (sent_header v)) (Some (sent_footer v)) = Ok tt) as Hch
    by (rewrite <-(re_header _ _ Hr); done).
  rewrite Hch. eapply returns_bind; [apply returns_lift|].
  eapply returns_bind; [apply returns_gets|]. cbn [_bytesRead].
  destruct (received_header v) as (Hbs & _ & -> & ->).
  rewrite Z.add_0_l, Z.sub_diag. eapply returns_bind; [apply returns_ret|].
  eapply returns_bind.
  { apply returns_readStream; [by rewrite Hzt|]. pose proof (re_bat _ _ Hr). lia. }
  assert (zlen t / 4 = n_entries v) as Hz by (rewrite Hzt; by apply Z.div_mul).
  destruct (getFirstAndLastBlocks_lemma t) as [[_ Hno]|(r & Hget & Hx)].
  { rewrite Hzt. by apply Z.mod_mul. }
  { exfalso. destruct (last_block v (n_entries v) Hn Hne) as (i & Hi & Hsi & Hcount).
    apply (Hno i). split; [lia|]. unfold t. rewrite table_entry by lia. destruct Ht as [_ ->]; [|done].
    rewrite decide_True by done. pose proof (se_fits _ _ Hs) as Hf. pose proof (slot_pos _ Hh).
    rewrite Hcount in Hf. nia. }
  rewrite Hz in Hx. rewrite Hget. eapply returns_bind; [apply returns_lift|].
  eapply returns_bind; [apply returns_gets|]. cbn [_bytesRead].
  unfold returns, mret, M_ret. do 3 f_equal.
  unfold end_of_block. rewrite Hbs. pose proof (bitmapSize_split _ Hh) as [Hb0 Hb].
  assert (Header.blockSize (vr_header v) < 1073741824) as Hlt by (pose proof (re_block _ _ Hr); lia).
  rewrite bitmap_of_power; [|done| |done].
  2:{ rewrite <-Hbs. exact (is_power_checked _ _ Hch). }
  rewrite (last_sector_of_table v ldata bat r Hs Ht Hne Hx).
  pose proof (end_of_locators_sectors v) as Hsec. apply Z.div_exact in Hsec; [|done].
  unfold sent_size. pose proof (fullBlockSize_slot _ Hh). lia.
Qed.
End facts.

(** The stream of a VHD that has blocks goes unchanged through
    [createVhdStreamWithLength], however it is cut, with its length. *)
Theorem stream_with_length `{StructFuLaws} `{VhdStreamableLaws T} allocUnsafe chunks_of (v : T) ldata :
  (∀ n, 0 ≤ n → zlen (allocUnsafe n) = n) → (∀ b, mjoin (chunks_of b) = b) →
  sendable v ldata → receivable v ldata → blocks v 0 (n_entries v) ≠ [] →
  ∃ sent chunks, fst (stream allocUnsafe v) = Ok sent ∧
    createVhdStreamWithLength chunks_of (mjoin (st_chunks sent)) = Ok (st_length sent, chunks) ∧
    mjoin chunks = mjoin (st_chunks sent).
Proof.
  intros Ha Hc Hs Hr Hne. destruct (stream_lemma allocUnsafe Ha v ldata Hs) as (bat & Ht & Hst).
  eexists _, _. rewrite Hst. split; [done|]. unfold createVhdStreamWithLength. cbn [st_chunks st_length].
  rewrite (read_footer_offset_ok v ldata bat Hs Hr Ht Hne). cbn [mbind result_bind].
  split; [f_equal; f_equal; lia|].
  assert (zlen (mjoin (sent_chunks v ldata bat)) = sent_size v) as Hsize by by rewrite zlen_mjoin, yielded_sent.
  pose proof (zlen_sent_footer v ldata Hs) as Hf.
  assert (mjoin (sent_chunks v ldata bat) =
    (fu_pack (sent_footer v) ++ fu_pack (checksummed_header (sent_header v)) ++ bat ++ body v ldata) ++
    fu_pack (sent_footer v)) as Hsplit by (rewrite sent_content; by rewrite <-!app_assoc).
  rewrite Hsplit in Hsize |- *. rewrite cut_content, Hc.
  all: revert Hsize; generalize (fu_pack (checksummed_header (sent_header v)) ++ bat ++ body v ldata); intros A Hsize.
  all: rewrite !zlen_app, Hf in Hsize; pose proof (zlen_nonneg A); unfold FOOTER_SIZE in *.
  - rewrite decide_True by (rewrite !zlen_app; lia). f_equal.
    rewrite sub_app_l by (rewrite ?zlen_app; lia).
    assert (sent_size v - 512 = zlen (fu_pack (sent_footer v) ++ A)) as -> by (rewrite zlen_app; lia).
    apply sub_all.
  - lia.
Qed.

(** ** Witness *)

Lemma stream_with_length_witness :
  ∃ sent chunks, fst (@stream packed MemoryVhd _ _ zeroed streamed_vhd) = Ok sent ∧
    @createVhdStreamWithLength packed (λ b, [b]) (mjoin (st_chunks sent)) = Ok (st_length sent, chunks) ∧
    mjoin chunks = mjoin (st_chunks sent).
Proof.
  apply (@stream_with_length packed packed_laws MemoryVhd _ _ _ _ zeroed (λ b, [b]) streamed_vhd streamed_locator).
  - exact zlen_zeroed.
  - intros b. cbn. apply app_nil_r.
  - exact streamed_sendable.
  - exact streamed_receivable.
  - vm_compute. discriminate.
Defined.

(** Without blocks, the footer is put after the table: the parent locators that follow
    it in the stream are lost, though the header still has them. *)
Definition empty_vhd : MemoryVhd :=
  {| mv_header := mv_header streamed_vhd; mv_footer := mv_footer streamed_vhd; mv_disk := ∅ |}.

Example empty_vhd_loses_locators :
  (sent ← fst (@stream packed MemoryVhd _ _ zeroed empty_vhd);
   '(length, chunks) ← @createVhdStreamWithLength packed (λ b, [b]) (mjoin (st_chunks sent));
   Ok (st_length sent, length, bool_decide (mjoin chunks = mjoin (st_chunks sent))))
  = Ok (3072, 2560, false).
Proof. vm_compute. reflexivity. Qed.
