(* ===== verification/ComplexMatcher.v ===== *)
(** * The search syntax

    [packages/complex-matcher/index.js]: the nodes of a search, what they match,
    how they are printed, and the parser, built with combinators.

    What the package lodash and the engine of regular expressions do is given by
    parameters. *)

From S2P Require Import Prelude JsValues.

Local Open Scope Z_scope.

(** ** Raw strings *)

(** [RAW_STRING_SYMBOLS] *)
Definition is_symbol (c : ascii) : bool :=
  bool_decide (c = "_"%char ∨ c = "-"%char ∨ c = "."%char ∨ c = "$"%char).

Definition isRawStringChar (c : ascii) : bool := is_digit c || is_symbol c || is_cased c.
Definition isRawString (s : jstring) : bool := forallb isRawStringChar s.

(** ** Nodes *)

Inductive operator := Gt | Ge | Lt | Le.

#[export] Instance operator_eq_dec : EqDecision operator.
Proof. solve_decision. Defined.

Inductive node :=
  | Null
  | And (children : list node)
  | Comparison (op : operator) (value : number)
  | Or (children : list node)
  | Not (child : node)
  | NumberNode (value : number)
  | NumberOrStringNode (value : jstring)
  | Property (name : jstring) (child : node)
  | GlobPattern (value : jstring)
  | RegExpNode (pattern flags : jstring)
  | StringNode (value : jstring)
  | TruthyProperty (name : jstring).

(** The constructors, when they do more than to keep their arguments. *)
Definition new_And (children : list node) : node :=
  match children with [child] => child | _ => And children end.
Definition new_Or (children : list node) : node :=
  match children with [child] => child | _ => Or children end.

Definition new_Comparison (op : operator) (value : number) : result node :=
  if is_nan value then Throw (TypeError "value must be a number") else Ok (Comparison op value).

Definition new_GlobPattern (value : jstring) : node :=
  if bool_decide ("*"%char ∈ value) then GlobPattern value else StringNode value.

(** [Comparison.comparators] *)
Definition comparator (op : operator) : number → number → bool :=
  match op with
  | Gt => λ a b, SFltb b a
  | Ge => λ a b, SFleb b a
  | Lt => SFltb
  | Le => SFleb
  end.

Definition op_string (op : operator) : jstring :=
  match op with Gt => js ">" | Ge => js ">=" | Lt => js "<" | Le => js "<=" end.

(** *** The pattern of a glob

    [new RegExp(value.split('*').map(escapeRegExp).join('.*'), 'i')] is a sequence
    of texts, compared without case, with [.*] between them. *)

Definition same_char (a b : ascii) : bool := canonicalize a =? canonicalize b.

(** [text] at the start of [s]: what follows it. *)
Fixpoint match_text (text s : jstring) : option jstring :=
  match text, s with
  | [], _ => Some s
  | a :: text, b :: s => if same_char a b then match_text text s else None
  | _ :: _, [] => None
  end.

(** The texts in order, each one after any characters but a line terminator. *)
Fixpoint match_texts (texts : list jstring) : jstring → bool :=
  match texts with
  | [] => λ _, true
  | text :: texts =>
      fix any s :=
        match match_text text s with Some rest => match_texts texts rest | None => false end
        || match s with c :: s => negb (is_line_terminator c) && any s | [] => false end
  end.

(** [re.test(s)]: the first text may be anywhere. *)
Fixpoint glob_test_from (text : jstring) (texts : list jstring) (s : jstring) : bool :=
  match match_text text s with Some rest => match_texts texts rest | None => false end
  || match s with _ :: s => glob_test_from text texts s | [] => false end.

Definition glob_test (value s : jstring) : bool :=
  match split_char "*" value with
  | [] => false
  | text :: texts => glob_test_from text texts s
  end.

(** *** [toString] *)

Definition dquote : ascii := ascii_of_nat 34.

(** A [\] before each [\] and each quote. *)
Definition escape_quotes (s : jstring) : jstring :=
  s ≫= λ c, if bool_decide (c = "\"%char ∨ c = dquote) then ["\"%char; c] else [c].

Definition quote (s : jstring) : jstring := dquote :: s ++ [dquote].

Definition formatString (value : jstring) : jstring :=
  if is_nan (to_number value) then
    if isRawString value then value else quote (escape_quotes value)
  else quote value.

Section matcher.
(** lodash: the values that [some] visits in a collection and [isPlainObject]. *)
Context (elements : jsval → list jsval) (isPlainObject : jsval → bool).
(** The properties inherited from a prototype, and an object as a text. *)
Context (inherited : jsval → jstring → jsval) (object_to_string : jsval → jstring).
(** Regular expressions: [new RegExp] succeeds, [re.source], [re.test]. *)
Context (re_valid : jstring → jstring → bool) (re_source : jstring → jstring).
Context (re_test : jstring → jstring → jstring → bool).

Definition new_RegExpNode (pattern flags : jstring) : result node :=
  if re_valid pattern flags then Ok (RegExpNode pattern flags)
  else Throw (SyntaxError "Invalid regular expression").

(** [re.toString()] *)
Definition re_toString (pattern flags : jstring) : jstring :=
  js "/" ++ re_source pattern ++ js "/" ++ flags.

Fixpoint toString (isNested : bool) (n : node) : jstring :=
  let formatTerms terms := join (js " ") (map (toString true) terms) in
  match n with
  | Null => []
  | And children =>
      let terms := formatTerms children in
      if isNested then js "(" ++ terms ++ js ")" else terms
  | Comparison op value => op_string op ++ num_to_string value
  | Or children => js "|(" ++ formatTerms children ++ js ")"
  | Not child => js "!" ++ toString true child
  | NumberNode value => num_to_string value
  | NumberOrStringNode value => value
  | Property name child => formatString name ++ js ":" ++ toString true child
  | GlobPattern value => value
  | RegExpNode pattern flags => re_toString pattern flags
  | StringNode value => formatString value
  | TruthyProperty name => formatString name ++ js "?"
  end.

(** *** [match] *)

(** A value that is or holds, at any depth, a text for which [f] is true. *)
Fixpoint match_string (fuel : nat) (f : jstring → bool) (v : jsval) : bool :=
  match fuel with
  | O => false
  | S fuel =>
      match v with
      | VStr s => f s
      | _ => if is_array v || isPlainObject v then existsb (match_string fuel f) (elements v) else false
      end
  end.

(** [typeof value === 'object'], for a value that is not [null] *)
Definition is_object (v : jsval) : bool :=
  match v with VArr _ | VObj _ _ => true | _ => false end.

Fixpoint match_number (fuel : nat) (x : number) (v : jsval) : bool :=
  match fuel with
  | O => false
  | S fuel =>
      match v with VNum y => strict_eq y x | _ => false end
      || is_object v && existsb (match_number fuel x) (elements v)
  end.

Fixpoint match_number_or_string (fuel : nat) (lc : jstring) (x : number) (v : jsval) : bool :=
  match fuel with
  | O => false
  | S fuel =>
      match v with VNum y => strict_eq y x | _ => false end
      || match v with
         | VStr s => contains lc (toLowerCase s)
         | _ => (is_array v || isPlainObject v)
                && existsb (match_number_or_string fuel lc x) (elements v)
         end
  end.

(** [String(v)], an element of an array being empty when it is nullish. *)
Fixpoint to_string (v : jsval) : jstring :=
  match v with
  | VUndefined => js "undefined"
  | VNull => js "null"
  | VBool b => if b then js "true" else js "false"
  | VNum x => num_to_string x
  | VStr s => s
  | VArr l => join (js ",") (map (λ x, if is_nullish x then [] else to_string x) l)
  | VObj _ _ | VFun _ => object_to_string v
  end.

(** The number that [value > this._value] compares. *)
Definition to_numeric (v : jsval) : number :=
  match v with
  | VUndefined => NaN
  | VNull => num_of_Z 0
  | VBool b => num_of_Z (if b then 1 else 0)
  | VNum x => x
  | _ => to_number (to_string v)
  end.

Definition get_property (v : jsval) (name : jstring) : jsval :=
  default (inherited v name) (own_property v name).

Fixpoint matches (n : node) (v : jsval) : bool :=
  match n with
  | Null => true
  | And children => forallb (λ child, matches child v) children
  | Comparison op value => comparator op (to_numeric v) value
  | Or children => existsb (λ child, matches child v) children
  | Not child => negb (matches child v)
  | NumberNode value => match_number (S (depth v)) value v
  | NumberOrStringNode value =>
      match_number_or_string (S (depth v)) (toLowerCase value) (to_number value) v
  | Property name child => negb (is_nullish v) && matches child (get_property v name)
  | GlobPattern value => match_string (S (depth v)) (glob_test value) v
  | RegExpNode pattern flags => match_string (S (depth v)) (re_test pattern flags) v
  | StringNode value => match_string (S (depth v)) (λ s, contains (toLowerCase value) (toLowerCase s)) v
  | TruthyProperty name => negb (is_nullish v) && truthy (get_property v name)
  end.

(** ** Parser combinators *)

Inductive presult (A : Type) :=
  | Success (pos : nat) (value : A)
  | Failure (pos : nat) (expected : string)
  | PThrow (e : error).
Arguments Success {A}. Arguments Failure {A}. Arguments PThrow {A}.

(** A parser gets the input, a position and the end. *)
Definition P (A : Type) := jstring → nat → nat → presult A.

Definition pret {A} (x : A) : P A := λ input pos e, Success pos x.

(** [P.seq] runs parsers one after the other and gives their values. *)
Definition pbind {A B} (p : P A) (f : A → P B) : P B := λ input pos e,
  match p input pos e with
  | Success pos v => f v input pos e
  | Failure pos expected => Failure pos expected
  | PThrow err => PThrow err
  end.
Local Notation "x <- p ; q" := (pbind p (λ x, q)) (at level 100, p at next level, right associativity).

(** [p.map(fn)], where [fn] may throw. *)
Definition pmap {A B} (f : A → result B) (p : P A) : P B := λ input pos e,
  match p input pos e with
  | Success pos v => match f v with Ok w => Success pos w | Throw err => PThrow err end
  | Failure pos expected => Failure pos expected
  | PThrow err => PThrow err
  end.

Fixpoint alt {A} (parsers : list (P A)) : P A := λ input pos e,
  match parsers with
  | [] => Failure pos "alt"
  | p :: parsers =>
      match p input pos e with
      | Failure _ _ => alt parsers input pos e
      | r => r
      end
  end.

Definition text (t : jstring) : P jstring := λ input pos e,
  if startsWith t (drop pos input) then Success (pos + length t)%nat t
  else Failure pos (string_of_list_ascii t).

(** [p.skip(other)] *)
Definition skip {A B} (p : P A) (other : P B) : P A :=
  v <- p; _ <- other; pret v.

(** The second loop of [repeat]: at most one iteration for each position, since
    the terms consume characters. *)
Fixpoint repeat_loop {A} (fuel : nat) (p : P A) (value : list A) : P (list A) := λ input pos e,
  match fuel with
  | O => PThrow (OtherError "fuel")
  | S fuel =>
      match p input pos e with
      | Success pos v => repeat_loop fuel p (value ++ [v]) input pos e
      | Failure _ _ => Success pos value
      | PThrow err => PThrow err
      end
  end.

Fixpoint repeat_min {A} (min : nat) (p : P A) (value : list A) : P (list A) :=
  match min with
  | O => pret value
  | S min => v <- p; repeat_min min p (value ++ [v])
  end.

Definition repeat {A} (min : nat) (p : P A) : P (list A) := λ input pos e,
  (value <- repeat_min min p []; repeat_loop (S (length input)) p value) input pos e.

Definition eof : P unit := λ input pos e,
  if (pos <? e)%nat then Failure pos "end of input" else Success pos tt.

(** [/\s*/y]: a [lastIndex] after the end of the input is a failure. *)
Definition ws : P jstring := λ input pos e,
  if (length input <? pos)%nat then Failure pos "/\s*/"
  else let s := fst (span is_space (drop pos input)) in Success (pos + length s)%nat s.

(** [/[<>]=?/y] *)
Definition comparison_operator : P operator := λ input pos e,
  let with_eq strict large :=
    match input !! S pos with
    | Some "="%char => Success (S (S pos)) large
    | _ => Success (S pos) strict
    end in
  match input !! pos with
  | Some "<"%char => with_eq Lt Le
  | Some ">"%char => with_eq Gt Ge
  | _ => Failure pos "/[<>]=?/"
  end.

(** ** The grammar *)

(** The loop of [globPattern] and of [rawString]. *)
Definition raw_chars (f : ascii → bool) : P jstring := λ input pos e,
  let value := fst (span f (take (e - pos) (drop pos input))) in
  match value with
  | [] => Failure pos "a raw string"
  | _ => Success (pos + length value)%nat value
  end.

Definition is_glob_char (c : ascii) : bool := bool_decide (c = "*"%char) || isRawStringChar c.
Definition globPattern : P jstring := raw_chars is_glob_char.
Definition rawString : P jstring := raw_chars isRawStringChar.

(** The loop of [quotedString]; a [\] at the very end gives an [undefined], which
    [join] ignores, and a position after the end. *)
Fixpoint quoted_loop (fuel : nat) (input : jstring) (pos e : nat) (value : jstring) : nat * jstring :=
  match fuel with
  | O => (pos, value)
  | S fuel =>
      if (pos <? e)%nat then
        match input !! pos with
        | Some c =>
            if bool_decide (c = dquote) then (S pos, value)
            else if bool_decide (c = "\"%char) then
              quoted_loop fuel input (S (S pos)) e (value ++ option_list (input !! S pos))
            else quoted_loop fuel input (S pos) e (value ++ [c])
        | None => quoted_loop fuel input (S pos) e value
        end
      else (pos, value)
  end.

Definition quotedString : P jstring := λ input pos e,
  match input !! pos with
  | Some c =>
      if bool_decide (c = dquote) then
        let '(pos, value) := quoted_loop (S (length input)) input (S pos) e [] in Success pos value
      else Failure pos "quote"
  | None => Failure pos "quote"
  end.

Definition property : P jstring := alt [quotedString; rawString].

(** The loop of [regex]: the position, the pattern, and the last character read. *)
Fixpoint regex_loop (fuel : nat) (input : jstring) (pos e : nat) (c : option ascii) (escaped : bool)
    (pattern : jstring) : nat * jstring * option ascii :=
  match fuel with
  | O => (pos, pattern, c)
  | S fuel =>
      if (pos <? e)%nat then
        match input !! pos with
        | Some c =>
            if bool_decide (c ≠ "/"%char) || escaped then
              regex_loop fuel input (S pos) e (Some c) (bool_decide (c = "\"%char)) (pattern ++ [c])
            else (S pos, pattern, Some c)
        | None => (S pos, pattern, None)
        end
      else (pos, pattern, c)
  end.

Definition regex : P node := λ input pos e,
  if bool_decide (input !! pos = Some "/"%char) then
    let '(pos, pattern, c) := regex_loop (S (length input)) input (S pos) e None false [] in
    if bool_decide (c = Some "/"%char) then
      let '(pos, flags) :=
        if (pos <? e)%nat && bool_decide (input !! pos = Some "i"%char) then (S pos, js "i")
        else (pos, []) in
      match new_RegExpNode pattern flags with
      | Ok n => Success pos n
      | Throw err => PThrow err
      end
    else Failure pos "/"
  else Failure pos "/".

Definition value : P node :=
  alt [pmap (λ s, Ok (StringNode s)) quotedString;
       regex;
       pmap (λ s, Ok (if is_nan (to_number s) then new_GlobPattern s else NumberOrStringNode s))
         globPattern].

Section term.
Context (term : P node).

Definition term_group : P node :=
  _ <- text (js "("); _ <- ws; l <- repeat 1 term; _ <- text (js ")"); pret (new_And l).
Definition term_or : P node :=
  _ <- text (js "|"); _ <- ws; _ <- text (js "("); _ <- ws; l <- repeat 1 term;
  _ <- text (js ")"); pret (new_Or l).
Definition term_not : P node :=
  _ <- text (js "!"); _ <- ws; n <- term; pret (Not n).
Definition term_comparison : P node :=
  pmap (λ '(op, val), new_Comparison op (to_number val))
    (op <- comparison_operator; val <- rawString; pret (op, val)).
Definition term_property : P node :=
  name <- property; _ <- ws; _ <- text (js ":"); _ <- ws; n <- term; pret (Property name n).
Definition term_truthy : P node :=
  name <- property; _ <- text (js "?"); pret (TruthyProperty name).

Definition term_body : P node :=
  skip (alt [term_group; term_or; term_not; term_comparison; term_property; term_truthy; value]) ws.
End term.

(** Each nested term starts after the position of the term it is in. *)
Fixpoint term (fuel : nat) : P node :=
  match fuel with
  | O => λ input pos e, PThrow (OtherError "fuel")
  | S fuel => term_body (term fuel)
  end.

Definition default_rule : P node := λ input pos e,
  (_ <- ws; terms <- repeat 0 (term (S (length input))); _ <- eof;
   pret (match terms with [] => Null | _ => new_And terms end)) input pos e.

Definition parse (input : jstring) : result node :=
  match default_rule input 0%nat (length input) with
  | Success _ n => Ok n
  | Failure _ expected => Throw (OtherError ("parse error: expected " +:+ expected))
  | PThrow e => Throw e
  end.

(** ** The clauses of a search *)

(** [source.replace(/^(\^)|\\|\$$/g, '')] *)
Definition unescape (source : jstring) : jstring :=
  let s := match source with "^"%char :: s => s | s => s end in
  let s := match rev s with "$"%char :: r => rev r | _ => s end in
  filter (λ c, c ≠ "\"%char) s.

(** lodash *)
Context (escapeRegExp : jstring → jstring).

Definition _extractStringFromRegexp (pattern : jstring) : option jstring :=
  let source := re_source pattern in
  let unescapedRegexp := unescape source in
  if bool_decide (source = js "^" ++ escapeRegExp unescapedRegexp ++ js "$")
  then Some unescapedRegexp else None.

Definition string_of_child (child : node) : list jstring :=
  match child with
  | StringNode value => [value]
  | RegExpNode pattern _ => option_list (_extractStringFromRegexp pattern)
  | _ => []
  end.

Definition _getPropertyClauseStrings (child : node) : list jstring :=
  match child with
  | Or children => children ≫= string_of_child
  | child => string_of_child child
  end.

(** What [strings[name]] finds in [Object.prototype] has no method [push]. *)
Definition add_clause (strings : result (gmap jstring (list jstring))) (n : node)
    : result (gmap jstring (list jstring)) :=
  strings ← strings;
  match n with
  | Property name child =>
      match strings !! name with
      | Some values => Ok (<[name := values ++ _getPropertyClauseStrings child]> strings)
      | None =>
          if bool_decide (name ∈ object_prototype) then
            Throw (TypeError "Cannot read properties of undefined (reading 'apply')")
          else Ok (<[name := _getPropertyClauseStrings child]> strings)
      end
  | _ => Ok strings
  end.

Definition getPropertyClausesStrings (n : option node) : result (gmap jstring (list jstring)) :=
  match n with
  | Some (Property name child) => Ok {[ name := _getPropertyClauseStrings child ]}
  | Some (And children) => foldl add_clause (Ok ∅) children
  | _ => Ok ∅
  end.

Definition is_clause (name : jstring) (n : node) : bool :=
  match n with Property name' _ => bool_decide (name' = name) | _ => false end.

(** The child is a text or a node. *)
Definition child_node (child : jstring + node) : node :=
  match child with inl s => StringNode s | inr n => n end.

(** The clauses of a search, as [setPropertyClause] sees them.  The child is not the
    empty text, for which the source puts the text itself among the clauses. *)
Definition clauses (n : node) : list node := match n with And children => children | n => [n] end.

Definition setPropertyClause (n : option node) (name : jstring) (child : option (jstring + node))
    : option node :=
  let property := (λ c, Property name (child_node c)) <$> child in
  match n with
  | None => property
  | Some n =>
      Some (new_And (List.filter (λ c, negb (is_clause name c)) (clauses n) ++ option_list property))
  end.
End matcher.
Arguments Success {A} pos value.
Arguments Failure {A} pos expected.
Arguments PThrow {A} e.

(** An instance of the parameters, for the examples: no regular expression but the
    plain texts, no array-like object. *)
Definition plain_elements (v : jsval) : list jsval :=
  match v with VArr l => l | VObj _ fields => map snd fields | _ => [] end.
Definition plain_object (v : jsval) : bool := match v with VObj p _ => p | _ => false end.
Definition no_inherited (v : jsval) (name : jstring) : jsval := VUndefined.
Definition object_text (v : jsval) : jstring := js "[object Object]".
Definition any_valid (pattern flags : jstring) : bool := true.
Definition same_source (pattern : jstring) : jstring := pattern.
Definition text_test (pattern flags s : jstring) : bool := contains pattern s.

(** The search of the tests of the package. *)
Definition sample_ast : node :=
  And [StringNode (js "foo"); Not (StringNode ("\"%char :: " "%char :: [dquote]));
       Property (js "name") (Or [StringNode (js "wonderwoman"); StringNode (js "batman")]);
       TruthyProperty (js "hasCape"); Property (js "age") (NumberOrStringNode (js "32"));
       GlobPattern (js "chi*go"); RegExpNode (js "^foo\/bar\.") (js "i")].

Example parse_sample : parse any_valid (toString same_source false sample_ast) = Ok sample_ast.
Proof. vm_compute. reflexivity. Qed.

Example glob_samples : glob_test (js "chi*go") (js "xChicago town") = true ∧
  glob_test (js "b*r*") (js "ba") = false.
Proof. by vm_compute. Qed.
