(* ===== verification/SearchParser.v ===== *)
(** * The parser of searches always ends

    Progress of the combinators, the form of the searches that the parser makes,
    and the clauses of a search. *)

From S2P Require Import Prelude JsValues ComplexMatcher SearchRoundtrip.

Local Open Scope Z_scope.

(** The error of the model for a loop that needs more fuel. *)
Definition fuel_error : error := OtherError "fuel".

(** ** Progress *)

(** A parser at [pos] does not run out of fuel, its value satisfies [Q], and it does
    not go back; a strict one starts before the end and goes forward. *)
Definition result_ok {A} (strict : bool) (len pos : nat) (Q : A → Prop) (r : presult A) : Prop :=
  match r with
  | Success pos' v => Q v ∧ if strict then (pos < pos' ∧ pos < len)%nat else (pos <= pos')%nat
  | Failure _ _ => True
  | PThrow e => e ≠ fuel_error
  end.

Definition runs {A} (strict : bool) (input : jstring) (pos : nat) (Q : A → Prop) (p : P A) : Prop :=
  result_ok strict (length input) pos Q (p input pos (length input)).

Lemma runs_weaken {A} strict input pos (Q Q' : A → Prop) p :
  runs strict input pos Q p → (∀ v, Q v → Q' v) → runs strict input pos Q' p.
Proof. unfold runs, result_ok. destruct (p _ _ _); naive_solver. Qed.

Lemma runs_lax {A} input pos (Q : A → Prop) p : runs true input pos Q p → runs false input pos Q p.
Proof. unfold runs, result_ok. destruct (p _ _ _); [|done..]. intros (? & ? & ?). split; [done|lia]. Qed.

Lemma runs_ret {A} input pos (Q : A → Prop) v : Q v → runs false input pos Q (pret v).
Proof. intros. split; [done|lia]. Qed.

(** The second parser is strictly after the start when the first one is strict. *)
Lemma runs_bind {A B} strict input pos (Q : A → Prop) (R : B → Prop) p f :
  runs strict input pos Q p →
  (∀ v pos', Q v → (if strict then (pos < pos' ∧ pos < length input)%nat else (pos <= pos')%nat) →
    runs false input pos' R (f v)) →
  runs strict input pos R (pbind p f).
Proof.
  unfold runs, pbind, result_ok. intros Hp Hf. destruct (p _ _ _) as [pos' v| |]; [|done..].
  destruct Hp as [HQ Hpos]. specialize (Hf v pos' HQ Hpos). destruct (f v _ _ _); [|done..].
  destruct Hf as [HR Hle]. split; [done|]. destruct strict; lia.
Qed.

(** A strict parser after one that may read nothing. *)
Lemma runs_bind_lax {A B} input pos (Q : A → Prop) (R : B → Prop) p f :
  runs false input pos Q p →
  (∀ v pos', Q v → (pos <= pos')%nat → runs false input pos' R (f v)) →
  runs false input pos R (pbind p f).
Proof. apply (runs_bind false). Qed.

Lemma runs_map {A B} strict input pos (Q : A → Prop) (R : B → Prop) (f : A → result B) p :
  runs strict input pos Q p →
  (∀ v, Q v → match f v with Ok w => R w | Throw e => e ≠ fuel_error end) →
  runs strict input pos R (pmap f p).
Proof.
  unfold runs, pmap, result_ok. intros Hp Hf. destruct (p _ _ _) as [pos' v| |]; [|done..].
  destruct Hp as [HQ Hpos]. specialize (Hf v HQ). by destruct (f v).
Qed.

Lemma runs_alt {A} strict input pos (Q : A → Prop) ps :
  Forall (runs strict input pos Q) ps → runs strict input pos Q (alt ps).
Proof.
  induction 1 as [|p ps Hp _ IH]; [done|]. unfold runs, result_ok in *. cbn [alt].
  by destruct (p _ _ _).
Qed.

Lemma runs_text input pos c t : runs true input pos (λ _, True) (text (c :: t)).
Proof.
  unfold runs, text. destruct (startsWith (c :: t) (drop pos input)) eqn:E; [|done].
  split; [done|]. unfold startsWith in E. apply bool_decide_eq_true in E.
  assert (length (drop pos input) ≠ 0%nat) as H.
  { intros H. apply nil_length_inv in H. by rewrite H in E. }
  rewrite length_drop in H. cbn. lia.
Qed.

Lemma runs_ws input pos : runs false input pos (λ _, True) ws.
Proof. unfold runs, ws. case_match; [done|]. split; [done|lia]. Qed.

Lemma runs_eof input pos : runs false input pos (λ _, True) eof.
Proof. unfold runs, eof. case_match; [done|]. split; [done|lia]. Qed.

Lemma span_length f (s : jstring) : (length (span f s).1 <= length s)%nat.
Proof. rewrite <- (span_split f s) at 2. rewrite length_app. lia. Qed.

Lemma runs_raw_chars input pos f :
  runs true input pos (λ s, s ≠ [] ∧ forallb f s = true) (raw_chars f).
Proof.
  unfold runs, raw_chars. set (s := take _ _). pose proof (span_length f s). pose proof (span_forallb f s).
  destruct (span f s).1 as [|c v] eqn:E; [done|]. split; [done|].
  assert (length s ≠ 0%nat) by (cbn in *; lia). unfold s in *. rewrite length_take, length_drop in *.
  cbn in *. lia.
Qed.

Lemma quoted_loop_pos fuel : ∀ input pos e v, (pos <= (quoted_loop fuel input pos e v).1)%nat.
Proof.
  induction fuel as [|fuel IH]; intros input pos e v; [done|]. cbn [quoted_loop].
  repeat case_match; cbn [fst]; try lia; (etransitivity; [|apply IH]; lia).
Qed.

Lemma runs_quoted input pos : runs true input pos (λ _, True) quotedString.
Proof.
  unfold runs, quotedString. destruct (input !! pos) as [c|] eqn:E; [|done]. apply lookup_lt_Some in E.
  case_bool_decide; [|done]. pose proof (quoted_loop_pos (S (length input)) input (S pos) (length input) []).
  destruct (quoted_loop _ _ _ _ _) as [p v]. split; [done|]. cbn in *. lia.
Qed.

Lemma runs_property input pos : runs true input pos (λ _, True) property.
Proof.
  apply runs_alt. each; [apply runs_quoted|]. by eapply runs_weaken; [apply runs_raw_chars|].
Qed.

Lemma runs_comparison_operator input pos : runs true input pos (λ _, True) comparison_operator.
Proof.
  unfold runs, comparison_operator. destruct (input !! pos) as [c|] eqn:E; [|done]. apply lookup_lt_Some in E.
  assert (∀ strict large : operator, result_ok true (length input) pos (λ _, True)
    match input !! S pos with Some "="%char => Success (S (S pos)) large | _ => Success (S pos) strict end) as H.
  { intros strict large. destruct (input !! S pos) as [d|]; [|by split; [|lia]].
    destruct (decide (d = "="%char)) as [->|Hd]; [by split; [|lia]|].
    assert (match d with "="%char => Success (S (S pos)) large | _ => Success (S pos) strict end
      = Success (S pos) strict) as ->; [|by split; [|lia]].
    by destruct d as [[] [] [] [] [] [] [] []]. }
  destruct (decide (c = "<"%char)) as [->|Hl]; [apply H|].
  destruct (decide (c = ">"%char)) as [->|Hg]; [apply H|].
  by destruct c as [[] [] [] [] [] [] [] []].
Qed.

Lemma runs_repeat_loop {A} input (Q : A → Prop) p : ∀ k pos value,
  (∀ pos', (pos <= pos')%nat → runs true input pos' Q p) →
  (length input < k + pos)%nat → (0 < k)%nat → Forall Q value →
  runs false input pos (Forall Q) (repeat_loop k p value).
Proof.
  induction k as [|k IH]; intros pos value Hp Hk H0 Hv; [lia|].
  pose proof (Hp pos ltac:(lia)) as H. unfold runs in *. cbn [repeat_loop].
  destruct (p input pos (length input)) as [pos' v| |e]; [|split; [done|lia]|exact H].
  destruct H as [Hq [Hlt Hin]].
  ospecialize (IH pos' (value ++ [v]) _ _ _ _).
  - intros pos'' ?. apply Hp. lia.
  - lia.
  - lia.
  - apply Forall_app_2; [done|]. by constructor.
  - unfold result_ok in *. destruct (repeat_loop _ _ _ _ _ _); [|done..]. destruct IH. split; [done|lia].
Qed.

Lemma repeat_loop_nonempty {A} (p : P A) k : ∀ value input pos e pos' l,
  value ≠ [] → repeat_loop k p value input pos e = Success pos' l → l ≠ [].
Proof.
  induction k as [|k IH]; intros value input pos e pos' l Hv H; [done|]. cbn [repeat_loop] in H.
  destruct (p input pos e); [|by simplify_eq|done].
  eapply (IH (value ++ [_])); [|exact H]. by destruct value.
Qed.

Lemma runs_repeat_0 {A} input pos (Q : A → Prop) p :
  (∀ pos', (pos <= pos')%nat → runs true input pos' Q p) →
  runs false input pos (Forall Q) (repeat 0 p).
Proof. intros Hp. apply (runs_repeat_loop input Q p (S (length input)) pos []); [done|lia|lia|done]. Qed.

Lemma runs_repeat_1 {A} input pos (Q : A → Prop) p :
  (∀ pos', (pos <= pos')%nat → runs true input pos' Q p) →
  runs true input pos (λ l, Forall Q l ∧ l ≠ []) (repeat 1 p).
Proof.
  intros Hp.
  assert (runs true input pos (λ l, Forall Q l ∧ l ≠ [])
    (pbind (pbind p (λ v, pret [v])) (λ l, repeat_loop (S (length input)) p l))) as H; [|exact H].
  eapply runs_bind with (Q := λ l, Forall Q l ∧ l ≠ []).
  - eapply runs_bind; [apply Hp; lia|]. intros v pos' Hv _. apply runs_ret. split; [by constructor|done].
  - intros l pos' [Hl Hn] [Hlt Hin].
    assert (runs false input pos' (Forall Q) (repeat_loop (S (length input)) p l)) as H.
    { apply runs_repeat_loop; [|lia|lia|done]. intros pos'' ?. apply Hp. lia. }
    clear -H Hn. unfold runs, result_ok in *.
    remember (repeat_loop (S (length input)) p l input pos' (length input)) as r eqn:E.
    destruct r as [pos'' l'| |]; [|done..]. destruct H as [H1 H2]. split; [|done]. split; [done|].
    eapply repeat_loop_nonempty; [|by symmetry]. done.
Qed.

Section parser.
Context (re_valid : jstring → jstring → bool) (re_source : jstring → jstring).

Local Abbreviation readable := (readable re_valid re_source).
Local Abbreviation term := (term re_valid).
Local Abbreviation parse := (parse re_valid).

(** ** The searches that the parser makes *)

(** The numbers and the regular expressions of a search have a text that is read
    back: not so when a number is printed with an exponent ([1e+21]), or for [-0]. *)
Fixpoint plain (n : node) : bool :=
  match n with
  | And l | Or l => forallb plain l
  | Comparison _ _ | RegExpNode _ _ => readable n
  | Not n | Property _ n => plain n
  | _ => true
  end.

Definition made (n : node) : Prop := plain n = true → readable n = true.

Lemma made_all l : Forall made l → forallb plain l = true → forallb readable l = true.
Proof.
  induction 1 as [|n l Hn _ IH]; intros Hp; [done|]. cbn in *. apply andb_true_iff in Hp as [H1 H2].
  by rewrite Hn, IH.
Qed.

Lemma made_and l : Forall made l → l ≠ [] → made (new_And l).
Proof.
  intros Hl Hn. destruct l as [|n [|m l]]; [done| |].
  - by inversion_clear Hl.
  - intros Hp. cbn [new_And] in *. change (plain (And (n :: m :: l))) with (forallb plain (n :: m :: l)) in Hp.
    by apply (made_all _ Hl) in Hp.
Qed.

Lemma made_or l : Forall made l → l ≠ [] → made (new_Or l).
Proof.
  intros Hl Hn. destruct l as [|n [|m l]]; [done| |].
  - by inversion_clear Hl.
  - intros Hp. cbn [new_Or] in *. change (plain (Or (n :: m :: l))) with (forallb plain (n :: m :: l)) in Hp.
    by apply (made_all _ Hl) in Hp.
Qed.

Lemma regex_loop_pos fuel : ∀ input pos e c esc pat, (pos <= (regex_loop fuel input pos e c esc pat).1.1)%nat.
Proof.
  induction fuel as [|fuel IH]; intros input pos e c esc pat; [done|]. cbn [regex_loop].
  repeat case_match; cbn [fst]; try lia; (etransitivity; [|apply IH]; lia).
Qed.

Lemma runs_regex input pos : runs true input pos made (regex re_valid).
Proof.
  unfold runs, regex. case_bool_decide as E; [|done]. apply lookup_lt_Some in E.
  pose proof (regex_loop_pos (S (length input)) input (S pos) (length input) None false []) as H.
  destruct (regex_loop _ _ _ _ _ _ _) as [[p v] c]. cbn [fst] in H. case_bool_decide; [|done].
  unfold new_RegExpNode. destruct (_ && _); destruct (re_valid v _); try done; (split; [exact (λ H, H)|lia]).
Qed.

(** A value that is not a regular expression: a pattern with a star, a text that
    can be a number, or any text. *)
Lemma made_glob_value s : s ≠ [] → forallb is_glob_char s = true → made (glob_value s).
Proof.
  intros Hn Hs. unfold glob_value, new_GlobPattern. destruct (is_nan (to_number s)) eqn:E.
  - case_bool_decide as Hin; [|done]. intros _. cbn. rewrite Hs, E. by rewrite bool_decide_eq_true_2.
  - intros _. cbn. rewrite E, bool_decide_eq_true_2 by done. cbn [andb negb]. rewrite andb_true_r.
    apply numeric_unquoted in E. unfold isRawString. rewrite forallb_forall in *. intros c Hc.
    specialize (Hs c Hc). specialize (E c Hc). revert Hs E. clear. revert c. all_chars.
Qed.

Lemma runs_value input pos : runs true input pos made (value re_valid).
Proof.
  apply runs_alt. each.
  - eapply runs_map; [apply runs_quoted|]. done.
  - apply runs_regex.
  - eapply runs_map; [apply runs_raw_chars|]. intros s [Hn Hs]. by apply made_glob_value.
Qed.

(** ** The terms *)

(** Enough fuel for a term at [pos]. *)
Definition enough (fuel : nat) (input : jstring) (pos : nat) : Prop :=
  (0 < fuel ∧ length input < fuel + pos)%nat.

Lemma runs_group_tail input pos t (w : list node → node) :
  (∀ pos', (pos <= pos')%nat → runs true input pos' made t) →
  (∀ l, Forall made l → l ≠ [] → made (w l)) →
  runs false input pos made
    (pbind ws (λ _, pbind (repeat 1 t) (λ l, pbind (text (js ")")) (λ _, pret (w l))))).
Proof.
  intros Ht Hw. eapply runs_bind_lax; [apply runs_ws|]. intros _ p1 _ H1. cbv beta.
  apply runs_lax. eapply runs_bind; [apply runs_repeat_1; intros; apply Ht; lia|].
  intros l p2 [Hl Hn] _. cbv beta. apply runs_lax. eapply runs_bind; [apply runs_text|].
  intros _ p3 _ _. apply runs_ret. by apply Hw.
Qed.

Lemma runs_term_body input pos t :
  ((pos < length input)%nat → ∀ pos', (pos < pos')%nat → runs true input pos' made t) →
  runs true input pos made (term_body re_valid t).
Proof.
  intros Ht. eapply runs_bind.
  2:{ intros n p1 Hn _. cbv beta. eapply runs_bind_lax; [apply runs_ws|]. intros. by apply runs_ret. }
  apply runs_alt. each.
  - eapply runs_bind; [apply runs_text|]. intros _ p1 _ [? ?]. cbv beta.
    apply (runs_group_tail input p1 t new_And); [|apply made_and]. intros. apply Ht; lia.
  - eapply runs_bind; [apply runs_text|]. intros _ p1 _ [? ?]. cbv beta.
    eapply runs_bind_lax; [apply runs_ws|]. intros _ p2 _ ?. cbv beta.
    apply runs_lax. eapply runs_bind; [apply runs_text|]. intros _ p3 _ [? ?]. cbv beta.
    apply (runs_group_tail input p3 t new_Or); [|apply made_or]. intros. apply Ht; lia.
  - eapply runs_bind; [apply runs_text|]. intros _ p1 _ [? ?]. cbv beta.
    eapply runs_bind_lax; [apply runs_ws|]. intros _ p2 _ ?. cbv beta. apply runs_lax.
    eapply runs_bind; [apply Ht; lia|]. intros n p3 Hn _. apply runs_ret. exact Hn.
  - eapply runs_map with (Q := λ _, True).
    + eapply runs_bind; [apply runs_comparison_operator|]. intros op p1 _ _. cbv beta.
      apply runs_lax. eapply runs_bind; [apply runs_raw_chars|]. intros v p2 _ _. by apply runs_ret.
    + intros [op v] _. unfold new_Comparison. destruct (is_nan _); [discriminate|exact (λ H, H)].
  - eapply runs_bind; [apply runs_property|]. intros s p1 _ [? ?]. cbv beta.
    eapply runs_bind_lax; [apply runs_ws|]. intros _ p2 _ ?. cbv beta.
    apply runs_lax. eapply runs_bind; [apply runs_text|]. intros _ p3 _ [? ?]. cbv beta.
    eapply runs_bind_lax; [apply runs_ws|]. intros _ p4 _ ?. cbv beta. apply runs_lax.
    eapply runs_bind; [apply Ht; lia|]. intros n p5 Hn _. apply runs_ret. exact Hn.
  - eapply runs_bind; [apply runs_property|]. intros s p1 _ _. cbv beta. apply runs_lax.
    eapply runs_bind; [apply runs_text|]. intros _ p2 _ _. by apply runs_ret.
  - apply runs_value.
Qed.

Lemma runs_term input : ∀ fuel pos, enough fuel input pos → runs true input pos made (term fuel).
Proof.
  induction fuel as [|fuel IH]; intros pos [H0 Hf]; [lia|]. cbn [ComplexMatcher.term].
  apply runs_term_body. intros Hlt pos' Hpos. apply IH. split; lia.
Qed.

Definition parse_rule (fuel : nat) : P node :=
  pbind ws (λ _, pbind (repeat 0 (term fuel)) (λ terms, pbind eof (λ _,
    pret (match terms with [] => Null | _ => new_And terms end)))).

Lemma runs_parse input :
  runs false input 0 (λ n, n = Null ∨ made n) (parse_rule (S (length input))).
Proof.
  eapply runs_bind_lax; [apply runs_ws|]. intros _ p1 _ _. cbv beta.
  eapply runs_bind_lax; [apply runs_repeat_0; intros p ?; apply runs_term; split; lia|].
  intros l p2 Hl _. cbv beta. eapply runs_bind_lax; [apply runs_eof|]. intros _ p3 _ _. apply runs_ret.
  destruct l as [|n l]; [by left|right]. by apply made_and.
Qed.

(** The parser always ends, on any text: with a search or with an error of the
    program, never for lack of the fuel of the model. *)
Theorem parse_ends s : parse s ≠ Throw fuel_error.
Proof.
  pose proof (runs_parse s) as H. unfold runs, parse_rule in H. unfold ComplexMatcher.parse, default_rule.
  destruct (pbind ws _ _ _ _); [done|done|]. cbn in H. by intros [= ->].
Qed.

(** Whatever the text, the search that the parser makes of it is printed to a
    text that is read as the same search, if its numbers and its regular
    expressions have a text. *)
Theorem parse_reparse s n :
  parse s = Ok n → plain n = true → parse (toString re_source false n) = Ok n.
Proof.
  intros Hs Hp. pose proof (runs_parse s) as H. unfold runs, parse_rule in H.
  unfold ComplexMatcher.parse, default_rule in Hs.
  destruct (pbind ws _ _ _ _) as [p v| |]; [|discriminate Hs..]. injection Hs as ->.
  destruct H as [[->|Hm] _]; [reflexivity|]. apply parse_readable, Hm, Hp.
Qed.
End parser.

(** ** The clauses of a search *)

Section clauses.
Context (elements : jsval → list jsval) (isPlainObject : jsval → bool).
Context (inherited : jsval → jstring → jsval) (object_to_string : jsval → jstring).
Context (re_source : jstring → jstring) (re_test : jstring → jstring → jstring → bool).
Context (escapeRegExp : jstring → jstring).

Local Abbreviation matches := (matches elements isPlainObject inherited object_to_string re_test).
Local Abbreviation strings := (getPropertyClausesStrings re_source escapeRegExp).
Local Abbreviation add := (add_clause re_source escapeRegExp).

(** No clause has the name of a property of [Object.prototype]. *)
Definition ordinary_names (n : node) : Prop :=
  Forall (λ c, match c with Property name _ => name ∉ object_prototype | _ => True end) (clauses n).

(** The clauses of a search but those of [name]. *)
Definition other_clauses (name : jstring) (n : node) : list node :=
  List.filter (λ c, negb (is_clause name c)) (clauses n).

Definition ordinary (c : node) : Prop :=
  match c with Property name _ => name ∉ object_prototype | _ => True end.

Lemma add_clauses l : ∀ m, Forall ordinary l → ∃ m', foldl add (Ok m) l = Ok m'.
Proof.
  induction l as [|c l IH]; intros m Hl; [by eexists|]. inversion_clear Hl as [|? ? Hc Hl'].
  destruct c; cbn [foldl add_clause mbind result_bind]; try by apply IH.
  destruct (m !! name); [by apply IH|]. rewrite bool_decide_eq_false_2 by done. by apply IH.
Qed.

(** Without the clauses of [name], the same texts but those of [name]. *)
Lemma add_other_clauses name l : ∀ m m', Forall ordinary l → foldl add (Ok m) l = Ok m' →
  foldl add (Ok (delete name m)) (List.filter (λ c, negb (is_clause name c)) l) = Ok (delete name m').
Proof.
  induction l as [|c l IH]; intros m m' Hl H; [by injection H as ->|].
  inversion_clear Hl as [|? ? Hc Hl'].
  assert ((∃ x ch, c = Property x ch) ∨ (∀ x, is_clause x c = false) ∧ (∀ m, add (Ok m) c = Ok m))
    as [(x & ch & ->)|[E Ea]].
  { destruct c; try (right; by split). left; eauto. }
  2:{ cbn [List.filter]. rewrite E. cbn [negb foldl] in *. rewrite Ea in *. by apply IH. }
  cbn [foldl add_clause mbind result_bind] in H. cbn [List.filter is_clause].
  destruct (decide (x = name)) as [->|Hx].
  - rewrite bool_decide_eq_true_2 by done. cbn [negb].
    destruct (m !! name).
    + rewrite <- (delete_insert_eq m name (l0 ++ _getPropertyClauseStrings re_source escapeRegExp ch)).
      by apply IH.
    + rewrite bool_decide_eq_false_2 in H by done.
      rewrite <- (delete_insert_eq m name (_getPropertyClauseStrings re_source escapeRegExp ch)). by apply IH.
  - rewrite bool_decide_eq_false_2 by done. cbn [negb foldl add_clause mbind result_bind].
    rewrite lookup_delete_ne by done. destruct (m !! x).
    + rewrite <- delete_insert_ne by done. by apply IH.
    + rewrite bool_decide_eq_false_2 in H |- * by done. rewrite <- delete_insert_ne by done. by apply IH.
Qed.

(** The texts of a search are those of its clauses added one by one. *)
Lemma strings_clauses n : ordinary_names n → strings (Some n) = foldl add (Ok ∅) (clauses n).
Proof.
  intros Hn. destruct n; try reflexivity. inversion_clear Hn as [|? ? Hc _].
  cbn. by rewrite bool_decide_eq_false_2.
Qed.

Lemma strings_new_And l : Forall ordinary l → strings (Some (new_And l)) = foldl add (Ok ∅) l ∨
  ∃ l', l = [And l'].
Proof.
  intros Hl. destruct l as [|n [|]]; [by left| |by left]. destruct n; try (left; reflexivity); [by right; eexists|].
  left. inversion_clear Hl. cbn. by rewrite bool_decide_eq_false_2.
Qed.

Lemma matches_new_And l v : matches (new_And l) v = forallb (λ c, matches c v) l.
Proof. destruct l as [|n [|]]; try done. cbn. by rewrite andb_true_r. Qed.

(** Setting the clause of a property: what the new search matches are the
    values that the other clauses match and whose property matches the child; and
    the texts found for the clauses are the same as before, but for the property,
    which has exactly the new text. *)
Theorem setPropertyClause_sets n name :
  (∀ child, ∃ n', setPropertyClause (Some n) name (Some child) = Some n' ∧
    ∀ v, matches n' v =
      forallb (λ c, matches c v) (other_clauses name n) && matches (Property name (child_node child)) v) ∧
  (ordinary_names n → name ∉ object_prototype →
    ∀ s, ∃ m, strings (Some n) = Ok m ∧
      strings (setPropertyClause (Some n) name (Some (inl s))) = Ok (<[name := [s]]> m)).
Proof.
  split.
  - intros child. eexists. split; [reflexivity|]. intros v. rewrite matches_new_And, forallb_app.
    change (option_list _) with [Property name (child_node child)].
    fold (other_clauses name n). f_equal. cbn [forallb]. by rewrite andb_true_r.
  - intros Hn Hname s. destruct (add_clauses (clauses n) ∅ Hn) as [m Hm].
    exists m. split; [by rewrite strings_clauses|].
    cbn [setPropertyClause fmap option_fmap option_map child_node].
    change (option_list (Some (Property name (StringNode s)))) with [Property name (StringNode s)].
    fold (other_clauses name n).
    assert (Forall ordinary (other_clauses name n ++ [Property name (StringNode s)])) as Ho.
    { apply Forall_app_2; [|by constructor]. unfold other_clauses. rewrite Forall_forall. unfold ordinary_names in Hn. rewrite Forall_forall in Hn.
      intros c Hc. apply Hn. apply list_elem_of_In in Hc. apply filter_In in Hc as [Hc _].
      by apply list_elem_of_In. }
    pose proof (add_other_clauses name (clauses n) ∅ m Hn Hm) as H. rewrite delete_empty in H.
    fold (other_clauses name n) in H.
    destruct (strings_new_And _ Ho) as [->|[l' El]].
    + rewrite foldl_app, H. cbn [foldl add_clause mbind result_bind]. rewrite lookup_delete_eq.
      rewrite bool_decide_eq_false_2 by done. by rewrite insert_delete_eq.
    + destruct (other_clauses name n) as [|? [|]]; discriminate El.
Qed.
End clauses.

(** ** Samples *)

Definition reparse_text : jstring := js "  foo  (bar |( 1 b*r)) n : >=1e2 !x?".

Lemma parse_reparse_witness :
  ∃ n, parse any_valid reparse_text = Ok n ∧ parse any_valid (toString same_source false n) = Ok n.
Proof.
  destruct (parse any_valid reparse_text) as [n|] eqn:E; [|vm_compute in E; discriminate E].
  exists n. split; [reflexivity|]. apply (parse_reparse any_valid same_source reparse_text n E).
  vm_compute in E. injection E as <-. vm_compute. reflexivity.
Defined.

(** A name of [Object.prototype] breaks the texts of the clauses. *)
Example prototype_name :
  (n ← parse any_valid (js "foo constructor:bar");
   getPropertyClausesStrings same_source id (Some n)) =
  Throw (TypeError "Cannot read properties of undefined (reading 'apply')").
Proof. vm_compute. reflexivity. Qed.

(** A large number is printed with a [+], that is not read back. *)
Example large_number :
  ∃ n, parse any_valid (js ">1e21") = Ok n ∧ toString same_source false n = js ">1e+21" ∧
    is_ok (parse any_valid (toString same_source false n)) = false.
Proof. eexists. split; [vm_compute; reflexivity|]. by vm_compute. Qed.

(** A pattern that ends with an escaped backslash: its closing slash is taken as
    escaped too, so that it is in the pattern, or that the text is refused. *)
Example regex_backslash :
  parse any_valid (js "/a\\/") = Ok (RegExpNode (js "a\\/") []) ∧
  is_ok (parse any_valid (js "/a\\/ foo")) = false.
Proof. by vm_compute. Qed.

Lemma setPropertyClause_sets_witness :
  ∃ m, getPropertyClausesStrings same_source id (Some sample_ast) = Ok m ∧
    getPropertyClausesStrings same_source id
      (setPropertyClause (Some sample_ast) (js "name") (Some (inl (js "robin")))) =
      Ok (<[js "name" := [js "robin"]]> m).
Proof.
  apply (setPropertyClause_sets plain_elements plain_object no_inherited object_text same_source text_test id
    sample_ast (js "name")).
  - unfold ordinary_names, sample_ast, clauses.
    each; try exact I; apply (bool_decide_unpack _); vm_compute; exact I.
  - apply (bool_decide_unpack _). vm_compute. exact I.
Defined.
