(* ===== verification/Indexes.v ===== *)
(** * The indexes of a collection

    [packages/xo-collection/src/index.js] and [unique-index.js]: the items of a
    collection by type, or by a reference that is theirs alone, kept up to date by
    the events [add], [update] and [remove].

    The class [Listener] is what a collection asks of what listens to it, and
    [ListenerLaws] that the listener follows the items: it only depends on the
    items it was told of. *)

From S2P Require Import Prelude JsValues.

Local Open Scope Z_scope.

(** The name of a property: keys, types and references are converted to texts. *)
Abbreviation key := jstring.

(** The items of an event, in the order of [for (const key in items)]. *)
Abbreviation items := (list (key * jsval)).

(** ** What listens to a collection *)

Class Listener (L : Type) := {
  on_add : items → L → L;
  on_update : items → L → L;
  on_remove : items → L → L;
  on_detach : L → L;      (* what [_detachCollection] empties *)
}.

(** [follows R l]: the listener reflects the items [R]. *)
Class ListenerLaws (L : Type) `{Listener L} := {
  follows : gmap key jsval → L → Prop;
  follows_add R l es :
    follows R l → NoDup es.*1 → (∀ k, k ∈ es.*1 → R !! k = None) →
    follows (list_to_map es ∪ R) (on_add es l);
  follows_update R l es :
    follows R l → NoDup es.*1 → (∀ k, k ∈ es.*1 → is_Some (R !! k)) →
    follows (list_to_map es ∪ R) (on_update es l);
  follows_remove R l es :
    follows R l → NoDup es.*1 → (∀ k, k ∈ es.*1 → is_Some (R !! k)) →
    follows (R ∖ list_to_map es) (on_remove es l);
}.

(** A listener that is told of the items one by one. *)
Lemma fold_insert {L} (R : gmap key jsval) (l : L) (P : gmap key jsval → L → Prop)
    (step : L → key * jsval → L) (pre : gmap key jsval → key → Prop) es :
  (∀ R l k v, P R l → pre R k → P (<[k := v]> R) (step l (k, v))) →
  (∀ R k k' v, k ≠ k' → pre R k → pre (<[k' := v]> R) k) →
  P R l → NoDup es.*1 → (∀ k, k ∈ es.*1 → pre R k) →
  P (list_to_map es ∪ R) (foldl step l es).
Proof.
  intros Hstep Hpre. revert R l. induction es as [|[k v] es IH]; intros R l HP Hnd Hes; cbn.
  - by rewrite (left_id_L ∅ (∪)).
  - cbn in Hnd. apply NoDup_cons in Hnd as [Hk Hnd].
    rewrite <- insert_union_l, insert_union_r by (by apply not_elem_of_list_to_map_1).
    apply IH; [|done|].
    + apply Hstep; [done|]. apply Hes. cbn. by left.
    + intros k' Hk'. apply Hpre; [by intros ->|]. apply Hes. cbn. by right.
Qed.

Lemma fold_delete {L} (R : gmap key jsval) (l : L) (P : gmap key jsval → L → Prop)
    (step : L → key * jsval → L) es :
  (∀ R l k v, P R l → P (delete k R) (step l (k, v))) →
  P R l → P (R ∖ list_to_map es) (foldl step l es).
Proof.
  intros Hstep. revert R l. induction es as [|[k v] es IH]; intros R l HP; cbn.
  - by rewrite map_difference_empty.
  - replace (R ∖ <[k := v]> (list_to_map es)) with (delete k R ∖ list_to_map es); [by apply IH, Hstep|].
    apply map_eq. intros x. rewrite !lookup_difference.
    destruct (decide (x = k)) as [->|]; [|by rewrite lookup_delete_ne, lookup_insert_ne].
    rewrite lookup_delete_eq, lookup_insert_eq. by case_match.
Qed.

(** *** A copy of the items *)

#[export] Instance map_listener : Listener (gmap key jsval) := {|
  on_add es R := list_to_map es ∪ R;
  on_update es R := list_to_map es ∪ R;
  on_remove es R := R ∖ list_to_map es;
  on_detach _ := ∅;
|}.

#[export] Instance map_listener_laws : ListenerLaws (gmap key jsval).
Proof. refine {| follows R l := l = R |}; intros; by subst. Defined.

(** ** [Index] *)

(** What the emitter of a type is asked to emit. *)
Inductive type_event :=
  | TypeAdd (type : key) (value : jsval)
  | TypeUpdate (type : key) (value : jsval) (previous : option jsval)
  | TypeRemove (type : key) (previous : option jsval).

Record Index := mkIndex {
  _itemsByType : gmap key (gmap key jsval);
  _keysToType : gmap key key;
  emitted : list type_event;
}.

Definition new_Index : Index := mkIndex ∅ ∅ [].

Section index.
(** The type of an item, as the name of a property; [None]: [undefined] or [null]. *)
Context (getIndexType : jsval → option key).

(** [itemsByType[type] ||= {}], then its property [key] is set. *)
Definition put (type k : key) (value : jsval) (m : gmap key (gmap key jsval)) : gmap key (gmap key jsval) :=
  <[type := <[k := value]> (default ∅ (m !! type))]> m.

Definition index_add_one (ix : Index) (e : key * jsval) : Index :=
  let '(k, value) := e in
  match getIndexType value with
  | Some type =>
      mkIndex (put type k value (_itemsByType ix)) (<[k := type]> (_keysToType ix))
        (emitted ix ++ [TypeAdd type value])
  | None => ix
  end.

Definition index_update_one (ix : Index) (e : key * jsval) : Index :=
  let '(k, value) := e in
  let prevType := _keysToType ix !! k in
  let previousObj := type ← prevType; l ← _itemsByType ix !! type; l !! k in
  let itemsByType := match prevType with
                     | Some prev => alter (delete k) prev (_itemsByType ix)
                     | None => _itemsByType ix
                     end in
  match getIndexType value with
  | Some type =>
      mkIndex (put type k value itemsByType) (<[k := type]> (_keysToType ix))
        (emitted ix ++ [TypeUpdate type value previousObj])
  | None => mkIndex itemsByType (delete k (_keysToType ix)) (emitted ix)
  end.

Definition index_remove_one (ix : Index) (e : key * jsval) : Index :=
  let '(k, _) := e in
  match _keysToType ix !! k with
  | Some prev =>
      mkIndex (alter (delete k) prev (_itemsByType ix)) (delete k (_keysToType ix))
        (emitted ix ++ [TypeRemove prev (l ← _itemsByType ix !! prev; l !! k)])
  | None => ix
  end.

Definition index_onAdd (es : items) (ix : Index) : Index := foldl index_add_one ix es.
Definition index_onUpdate (es : items) (ix : Index) : Index := foldl index_update_one ix es.
Definition index_onRemove (es : items) (ix : Index) : Index := foldl index_remove_one ix es.

(** [_detachCollection] *)
Definition index_clear (ix : Index) : Index := mkIndex ∅ ∅ (emitted ix).

Definition Index_listener : Listener Index :=
  {| on_add := index_onAdd; on_update := index_onUpdate; on_remove := index_onRemove;
     on_detach := index_clear |}.

(** The item [k] of the index under [type]. *)
Definition item_of (ix : Index) (type k : key) : option jsval :=
  l ← _itemsByType ix !! type; l !! k.

(** The index groups the items [R] by type. *)
Record index_ok (R : gmap key jsval) (ix : Index) : Prop := {
  io_types k : _keysToType ix !! k = (v ← R !! k; getIndexType v);
  io_items type k : item_of ix type k =
    (v ← R !! k; if bool_decide (getIndexType v = Some type) then Some v else None);
}.

Lemma item_of_put t k v m l e t' k' :
  item_of (mkIndex (put t k v m) l e) t' k' =
  if bool_decide (t = t' ∧ k = k') then Some v else item_of (mkIndex m l e) t' k'.
Proof.
  unfold item_of, put. cbn. case_bool_decide as H.
  - destruct H as [-> ->]. rewrite lookup_insert_eq. cbn. by rewrite lookup_insert_eq.
  - destruct (decide (t = t')) as [->|]; [|by rewrite lookup_insert_ne].
    rewrite lookup_insert_eq. cbn. rewrite lookup_insert_ne by naive_solver.
    destruct (m !! t'); [done|]. cbn. by rewrite lookup_empty.
Qed.

Lemma item_of_alter t k m l e t' k' :
  item_of (mkIndex (alter (delete k) t m) l e) t' k' =
  if bool_decide (t = t' ∧ k = k') then None else item_of (mkIndex m l e) t' k'.
Proof.
  unfold item_of. cbn. case_bool_decide as H.
  - destruct H as [-> ->]. rewrite lookup_alter_eq. destruct (m !! t'); [|done]. cbn. by rewrite lookup_delete_eq.
  - destruct (decide (t = t')) as [->|]; [|by rewrite lookup_alter_ne].
    rewrite lookup_alter_eq. destruct (m !! t'); [|done]. cbn. rewrite lookup_delete_ne by naive_solver. done.
Qed.

Lemma item_of_eta ix m l e : m = _itemsByType ix → item_of (mkIndex m l e) = item_of ix.
Proof. by intros ->. Qed.

Lemma index_update_ok R ix k v : index_ok R ix → index_ok (<[k := v]> R) (index_update_one ix (k, v)).
Proof.
  intros [Ht Hi]. unfold index_update_one.
  assert (∀ type x l e, item_of (mkIndex match _keysToType ix !! k with
      | Some prev => alter (delete k) prev (_itemsByType ix) | None => _itemsByType ix end l e) type x =
    if bool_decide (k = x) then None else item_of ix type x) as Hdel.
  { intros type x l e. rewrite Ht. destruct (R !! k ≫= getIndexType) as [prev|] eqn:E.
    - rewrite item_of_alter, (item_of_eta ix) by done. repeat case_bool_decide; try naive_solver.
      rewrite Hi. subst. destruct (R !! x); [|done]. cbn in *. by rewrite bool_decide_eq_false_2 by naive_solver.
    - rewrite (item_of_eta ix) by done. case_bool_decide; [|done]. subst. rewrite Hi.
      destruct (R !! x); [|done]. cbn in *. by rewrite bool_decide_eq_false_2 by naive_solver. }
  destruct (getIndexType v) as [type|] eqn:E; split; intros.
  - cbn. destruct (decide (k0 = k)) as [->|]; [by rewrite !lookup_insert_eq|by rewrite !lookup_insert_ne].
  - rewrite item_of_put, Hdel. destruct (decide (k0 = k)) as [->|].
    + rewrite lookup_insert_eq. cbn. rewrite E. repeat case_bool_decide; naive_solver.
    + rewrite lookup_insert_ne by done. rewrite bool_decide_eq_false_2 by naive_solver.
      rewrite bool_decide_eq_false_2 by done. apply Hi.
  - cbn. destruct (decide (k0 = k)) as [->|]; [by rewrite lookup_delete_eq, lookup_insert_eq|].
    by rewrite lookup_delete_ne, lookup_insert_ne.
  - rewrite Hdel. destruct (decide (k0 = k)) as [->|].
    + rewrite lookup_insert_eq, bool_decide_eq_true_2 by done. cbn. by rewrite E.
    + rewrite lookup_insert_ne, bool_decide_eq_false_2 by done. apply Hi.
Qed.

(** For a new item, [_onAdd] does as [_onUpdate]. *)
Lemma index_add_ok R ix k v :
  index_ok R ix → R !! k = None → index_ok (<[k := v]> R) (index_add_one ix (k, v)).
Proof.
  intros Hix Hk. pose proof (index_update_ok R ix k v Hix) as [Ht Hi].
  unfold index_update_one, index_add_one in *. destruct Hix as [Ht0 Hi0].
  assert (_keysToType ix !! k = None) as E by (by rewrite Ht0, Hk). rewrite E in *.
  destruct (getIndexType v) as [type|] eqn:Ev; [by split|].
  split; [|done]. intros x. rewrite <- Ht. cbn. destruct (decide (x = k)) as [->|].
  - by rewrite lookup_delete_eq.
  - by rewrite lookup_delete_ne.
Qed.

Lemma index_remove_ok R ix k v : index_ok R ix → index_ok (delete k R) (index_remove_one ix (k, v)).
Proof.
  intros [Ht Hi]. unfold index_remove_one. destruct (_keysToType ix !! k) as [prev|] eqn:E; split; intros.
  - cbn. destruct (decide (k0 = k)) as [->|]; [by rewrite !lookup_delete_eq|by rewrite !lookup_delete_ne].
  - rewrite item_of_alter, (item_of_eta ix), Hi by done. rewrite Ht in E.
    destruct (decide (k0 = k)) as [->|].
    + rewrite lookup_delete_eq. destruct (R !! k); [|by case_bool_decide]. cbn in *.
      repeat case_bool_decide; naive_solver.
    + rewrite lookup_delete_ne by done. by rewrite bool_decide_eq_false_2 by naive_solver.
  - destruct (decide (k0 = k)) as [->|]; [by rewrite lookup_delete_eq|by rewrite lookup_delete_ne].
  - destruct (decide (k0 = k)) as [->|]; [|by rewrite lookup_delete_ne].
    rewrite lookup_delete_eq, Hi. rewrite Ht in E. destruct (R !! k); [|done]. cbn in *. by rewrite E.
Qed.

Definition Index_laws : @ListenerLaws Index Index_listener.
Proof.
  refine (@Build_ListenerLaws Index Index_listener index_ok _ _ _).
  - intros R l es Hl Hnd Hes. apply (fold_insert R l index_ok _ (λ R k, R !! k = None)); try done.
    + intros. by apply index_add_ok.
    + intros. by rewrite lookup_insert_ne.
  - intros R l es Hl Hnd Hes. apply (fold_insert R l index_ok _ (λ R k, True)); try done.
    intros. by apply index_update_ok.
  - intros R l es Hl _ _. refine (fold_delete R l index_ok index_remove_one es _ Hl).
    intros. by apply index_remove_ok.
Defined.
End index.

(** ** [UniqueIndex] *)

Record UniqueIndex := mkUnique {
  _itemByRef : gmap key jsval;
  _keysToRef : gmap key key;
}.

Definition new_UniqueIndex : UniqueIndex := mkUnique ∅ ∅.

Section unique.
(** The reference of an item; [None]: [undefined] or [null]. *)
Context (getIndexRef : jsval → option key).

Definition unique_add_one (ix : UniqueIndex) (e : key * jsval) : UniqueIndex :=
  let '(k, value) := e in
  match getIndexRef value with
  | Some ref => mkUnique (<[ref := value]> (_itemByRef ix)) (<[k := ref]> (_keysToRef ix))
  | None => ix
  end.

Definition unique_update_one (ix : UniqueIndex) (e : key * jsval) : UniqueIndex :=
  let '(k, value) := e in
  let itemByRef := match _keysToRef ix !! k with
                   | Some prevRef => delete prevRef (_itemByRef ix)
                   | None => _itemByRef ix
                   end in
  match getIndexRef value with
  | Some ref => mkUnique (<[ref := value]> itemByRef) (<[k := ref]> (_keysToRef ix))
  | None => mkUnique itemByRef (delete k (_keysToRef ix))
  end.

Definition unique_remove_one (ix : UniqueIndex) (e : key * jsval) : UniqueIndex :=
  let '(k, _) := e in
  match _keysToRef ix !! k with
  | Some prevRef => mkUnique (delete prevRef (_itemByRef ix)) (delete k (_keysToRef ix))
  | None => ix
  end.

Definition unique_onAdd (es : items) (ix : UniqueIndex) : UniqueIndex := foldl unique_add_one ix es.
Definition unique_onUpdate (es : items) (ix : UniqueIndex) : UniqueIndex := foldl unique_update_one ix es.
Definition unique_onRemove (es : items) (ix : UniqueIndex) : UniqueIndex := foldl unique_remove_one ix es.

(** [_detachCollection] *)
Definition unique_clear (ix : UniqueIndex) : UniqueIndex := mkUnique ∅ ∅.

Definition Unique_listener : Listener UniqueIndex :=
  {| on_add := unique_onAdd; on_update := unique_onUpdate; on_remove := unique_onRemove;
     on_detach := unique_clear |}.

(** Each reference gives the item of the collection that has it. *)
Record unique_ok (R : gmap key jsval) (ix : UniqueIndex) : Prop := {
  uo_refs k : _keysToRef ix !! k = (v ← R !! k; getIndexRef v);
  uo_items ref v : _itemByRef ix !! ref = Some v ↔ ∃ k, R !! k = Some v ∧ getIndexRef v = Some ref;
}.

(** Two items have the same reference only when they are the same. *)
Definition refs_differ (R : gmap key jsval) : Prop :=
  ∀ k k' v v' ref, R !! k = Some v → R !! k' = Some v' →
  getIndexRef v = Some ref → getIndexRef v' = Some ref → k = k'.

(** The updated item is the only one with its reference, old or new. *)
Lemma unique_update_ok R ix k v :
  unique_ok R ix → refs_differ R → refs_differ (<[k := v]> R) →
  unique_ok (<[k := v]> R) (unique_update_one ix (k, v)).
Proof.
  intros [Hr Hi] Hd Hd'. unfold unique_update_one.
  assert (∀ ref w, (match _keysToRef ix !! k with Some p => delete p (_itemByRef ix) | None => _itemByRef ix end)
    !! ref = Some w ↔ ∃ k', k' ≠ k ∧ R !! k' = Some w ∧ getIndexRef w = Some ref) as Hdel.
  { intros ref w. rewrite Hr. destruct (R !! k) as [u|] eqn:Eu; cbn.
    - destruct (getIndexRef u) as [p|] eqn:Ep.
      + destruct (decide (p = ref)) as [->|Hp].
        * rewrite lookup_delete_eq. split; [done|]. intros (k' & Hk & Hw & Hg).
          exfalso. apply Hk. by eapply Hd.
        * rewrite lookup_delete_ne, Hi by done. split.
          -- intros (k' & Hw & Hg). exists k'. split; [|done]. intros ->. congruence.
          -- intros (k' & _ & ? & ?). by exists k'.
      + rewrite Hi. split.
        * intros (k' & Hw & Hg). exists k'. split; [|done]. intros ->. congruence.
        * intros (k' & _ & ? & ?). by exists k'.
    - rewrite Hi. split.
      + intros (k' & Hw & Hg). exists k'. split; [|done]. intros ->. congruence.
      + intros (k' & _ & ? & ?). by exists k'. }
  destruct (getIndexRef v) as [ref|] eqn:E; split; cbn.
  - intros x. destruct (decide (x = k)) as [->|]; [by rewrite !lookup_insert_eq|by rewrite !lookup_insert_ne].
  - intros ref' w. destruct (decide (ref = ref')) as [->|Hne].
    + rewrite lookup_insert_eq. split.
      * intros [= <-]. exists k. by rewrite lookup_insert_eq.
      * intros (k' & Hk & Hg). assert (k' = k) as -> by (eapply Hd'; [exact Hk|apply lookup_insert_eq|done..]).
        by rewrite lookup_insert_eq in Hk.
    + rewrite lookup_insert_ne, Hdel by done. split.
      * intros (k' & Hk & ?). exists k'. by rewrite lookup_insert_ne.
      * intros (k' & Hk & Hg). exists k'. destruct (decide (k' = k)) as [->|Hk'].
        -- rewrite lookup_insert_eq in Hk. congruence.
        -- by rewrite lookup_insert_ne in Hk.
  - intros x. destruct (decide (x = k)) as [->|]; [by rewrite lookup_delete_eq, lookup_insert_eq|].
    by rewrite lookup_delete_ne, lookup_insert_ne.
  - intros ref' w. rewrite Hdel. split.
    + intros (k' & Hk & ?). exists k'. by rewrite lookup_insert_ne.
    + intros (k' & Hk & Hg). exists k'. destruct (decide (k' = k)) as [->|Hk'].
      * rewrite lookup_insert_eq in Hk. congruence.
      * by rewrite lookup_insert_ne in Hk.
Qed.

Lemma unique_remove_ok R ix k v :
  unique_ok R ix → refs_differ R → unique_ok (delete k R) (unique_remove_one ix (k, v)).
Proof.
  intros [Hr Hi] Hd. unfold unique_remove_one. destruct (_keysToRef ix !! k) as [p|] eqn:E.
  - rewrite Hr in E. destruct (R !! k) as [u|] eqn:Eu; [|done]. cbn in E. split; cbn.
    + intros x. destruct (decide (x = k)) as [->|]; [by rewrite !lookup_delete_eq|by rewrite !lookup_delete_ne].
    + intros ref w. destruct (decide (p = ref)) as [->|Hp].
      * rewrite lookup_delete_eq. split; [done|]. intros (k' & Hk & Hg).
        apply lookup_delete_Some in Hk as [Hk Hw]. exfalso. apply Hk. by eapply (Hd k k').
      * rewrite lookup_delete_ne, Hi by done. split.
        -- intros (k' & Hw & Hg). exists k'. rewrite lookup_delete_ne; [done|]. intros <-. congruence.
        -- intros (k' & Hk & ?). apply lookup_delete_Some in Hk as [? ?]. by exists k'.
  - split.
    + intros x. rewrite Hr. destruct (decide (x = k)) as [->|]; [|by rewrite lookup_delete_ne].
      rewrite lookup_delete_eq. by rewrite Hr in E.
    + intros ref w. rewrite Hi. split.
      * intros (k' & Hw & Hg). exists k'. rewrite lookup_delete_ne; [done|]. intros <-.
        rewrite Hr, Hw in E. cbn in E. congruence.
      * intros (k' & Hk & ?). apply lookup_delete_Some in Hk as [? ?]. by exists k'.
Qed.
End unique.

(** Two items that exchange their references: one of them is lost. *)
Definition ref_of (v : jsval) : option key := match v with VStr s => Some s | _ => None end.
Definition swap_before : items := [(js "a", VStr (js "1")); (js "b", VStr (js "2"))].
Definition swap_after : items := [(js "a", VStr (js "2")); (js "b", VStr (js "1"))].

Example unique_swap :
  let ix := unique_onUpdate ref_of swap_after (unique_onAdd ref_of swap_before new_UniqueIndex) in
  _itemByRef ix !! js "1" = Some (VStr (js "1")) ∧ _itemByRef ix !! js "2" = None.
Proof. by vm_compute. Qed.
