(* ===== verification/Collection.v ===== *)
(** * Collections

    [packages/xo-collection/src/collection.js] and [view.js]: items by key, with
    the events of their changes buffered and merged, and sent to what listens when
    the last buffering ends; and the view of the items that a predicate selects. *)

From S2P Require Import Prelude JsValues Indexes.

Local Open Scope Z_scope.

(** ** State *)

Inductive action := ACTION_ADD | ACTION_UPDATE | ACTION_REMOVE.

#[export] Instance action_eq_dec : EqDecision action.
Proof. solve_decision. Defined.

(** [L]: what listens, the indexes by their names.  [flushes] has the variable
    [called] of each function that [bufferEvents] returned, and [scheduled] those
    given to [process.nextTick]. *)
Record Collection (L : Type) := mkCollection {
  _items : gmap key jsval;
  _size : Z;
  _buffer : gmap key action;
  _buffering : Z;
  flushes : list bool;
  scheduled : list nat;
  _indexes : gmap key L;
}.
Arguments mkCollection {L}. Arguments _items {L}. Arguments _size {L}. Arguments _buffer {L}.
Arguments _buffering {L}. Arguments flushes {L}. Arguments scheduled {L}. Arguments _indexes {L}.

Definition new_Collection {L} : Collection L := mkCollection ∅ 0 ∅ 0 [] [] ∅.

(** The events that a flush emits, in their order. *)
Inductive event :=
  | EventAdd (es : items)
  | EventRemove (es : items)
  | EventUpdate (es : items)
  | EventFinish.

Section collection.
Context {L : Type} `{Listener L}.
(** [getKey], that a subclass may define, and the order of [for (const key in o)]. *)
Context (getKey : jsval → jsval).
Context (for_in : ∀ A, gmap key A → list (key * A)).
Arguments for_in {A}.

Local Abbreviation C := (M (Collection L)).

Definition set_items (m : gmap key jsval) (c : Collection L) : Collection L :=
  mkCollection m (_size c) (_buffer c) (_buffering c) (flushes c) (scheduled c) (_indexes c).
Definition set_size (n : Z) (c : Collection L) : Collection L :=
  mkCollection (_items c) n (_buffer c) (_buffering c) (flushes c) (scheduled c) (_indexes c).
Definition set_buffer (b : gmap key action) (c : Collection L) : Collection L :=
  mkCollection (_items c) (_size c) b (_buffering c) (flushes c) (scheduled c) (_indexes c).
Definition set_flushes (n : Z) (l : list bool) (c : Collection L) : Collection L :=
  mkCollection (_items c) (_size c) (_buffer c) n l (scheduled c) (_indexes c).
Definition set_scheduled (l : list nat) (c : Collection L) : Collection L :=
  mkCollection (_items c) (_size c) (_buffer c) (_buffering c) (flushes c) l (_indexes c).
Definition set_indexes (m : gmap key L) (c : Collection L) : Collection L :=
  mkCollection (_items c) (_size c) (_buffer c) (_buffering c) (flushes c) (scheduled c) m.

Definition throw {A} (name : string) : C A := lift (Throw (OtherError name)).

(** ** Keys *)

(** [isValidKey]; the key as the name of a property. *)
Definition property_key (k : jsval) : option key :=
  match k with VNum x => Some (num_to_string x) | VStr s => Some s | _ => None end.

Definition assertValidKey (k : jsval) : C key :=
  match property_key k with Some name => mret name | None => throw "InvalidKey" end.

Definition is_undefined (v : jsval) : bool := match v with VUndefined => true | _ => false end.

(** The key and the value; [VUndefined] when there is no value. *)
Definition _resolveItem (keyOrObjectWithId valueIfKey : jsval) : C (key * jsval) :=
  if negb (is_undefined valueIfKey) then
    k ← assertValidKey keyOrObjectWithId; mret (k, valueIfKey)
  else
    match property_key keyOrObjectWithId with
    | Some k => mret (k, VUndefined)
    | None => k ← assertValidKey (getKey keyOrObjectWithId); mret (k, keyOrObjectWithId)
    end.

(** ** Buffering *)

(** [bufferEvents()]: the number of the function it returns. *)
Definition bufferEvents : C nat := λ c,
  (Ok (length (flushes c)), set_flushes (_buffering c + 1) (flushes c ++ [false]) c).

(** The items of the buffer with an action; those removed have no value. *)
Definition payload (a : action) (c : Collection L) : items :=
  (λ e, (e.1, default VUndefined (_items c !! e.1))) <$>
    List.filter (λ e, bool_decide (e.2 = a)) (for_in (_buffer c)).

Definition emitted_events (c : Collection L) : list event :=
  List.filter (λ e, match e with
                    | EventAdd [] | EventRemove [] | EventUpdate [] => false
                    | _ => true
                    end)
    [EventAdd (payload ACTION_ADD c); EventRemove (payload ACTION_REMOVE c);
     EventUpdate (payload ACTION_UPDATE c)] ++ [EventFinish].

(** [emit]: each index handles the event. *)
Definition handle (e : event) (l : L) : L :=
  match e with
  | EventAdd es => on_add es l
  | EventRemove es => on_remove es l
  | EventUpdate es => on_update es l
  | EventFinish => l
  end.

Definition emit (e : event) : C unit :=
  modify (λ c, set_indexes (handle e <$> _indexes c) c).

(** The start of the function that [bufferEvents] returned: the events to emit,
    none when another buffering is going on or when the changes cancel out. *)
Definition flush_begin (id : nat) : C (option (list event)) :=
  called ← gets (λ c, default true (flushes c !! id));
  if called : bool then throw "BufferAlreadyFlushed"
  else
    modify (λ c, set_flushes (_buffering c - 1) (<[id := true]> (flushes c)) c) ;;
    c ← gets (λ c, c);
    if bool_decide (_buffering c ≠ 0) then mret None
    else if bool_decide (_buffer c = ∅) then mret None
    else mret (Some (emitted_events c)).

(** [this._buffer = createObject(null)], after the events. *)
Definition flush_end : C unit := modify (set_buffer ∅).

(** The function that [bufferEvents] returned, when what listens does not change
    the collection. *)
Definition flush (id : nat) : C (list event) :=
  events ← flush_begin id;
  match events with
  | None => mret []
  | Some events => for_each events emit ;; flush_end ;; mret events
  end.

Definition buffer_action (a : action) (k : key) (b : gmap key action) : gmap key action :=
  match a with
  | ACTION_ADD => <[k := if bool_decide (is_Some (b !! k)) then ACTION_UPDATE else ACTION_ADD]> b
  | ACTION_REMOVE =>
      if bool_decide (b !! k = Some ACTION_ADD) then delete k b else <[k := ACTION_REMOVE]> b
  | ACTION_UPDATE => if bool_decide (is_Some (b !! k)) then b else <[k := ACTION_UPDATE]> b
  end.

Definition _touch (a : action) (k : key) : C unit :=
  buffering ← gets _buffering;
  (if bool_decide (buffering = 0) then
     id ← bufferEvents; modify (λ c, set_scheduled (scheduled c ++ [id]) c)
   else mret tt) ;;
  modify (λ c, set_buffer (buffer_action a k (_buffer c)) c).

(** ** Items *)

Definition has (k : key) : C bool := gets (λ c, bool_decide (is_Some (_items c !! k))).

Definition _assertHas (k : key) : C unit :=
  h ← has k; if h : bool then mret tt else throw "NoSuchItem".
Definition _assertHasNot (k : key) : C unit :=
  h ← has k; if h : bool then throw "DuplicateItem" else mret tt.

Definition _remove (k : key) : C unit :=
  modify (λ c, set_items (delete k (_items c)) c) ;;
  modify (λ c, set_size (_size c - 1) c) ;;
  _touch ACTION_REMOVE k.

Definition add (keyOrObjectWithId valueIfKey : jsval) : C unit :=
  '(k, v) ← _resolveItem keyOrObjectWithId valueIfKey;
  _assertHasNot k ;;
  modify (λ c, set_items (<[k := v]> (_items c)) c) ;;
  modify (λ c, set_size (_size c + 1) c) ;;
  _touch ACTION_ADD k.

Definition clear : C unit :=
  ks ← gets (λ c, (for_in (_items c)).*1); for_each ks _remove.

Definition remove (keyOrObjectWithId : jsval) : C unit :=
  '(k, _) ← _resolveItem keyOrObjectWithId VUndefined; _assertHas k ;; _remove k.

Definition set (keyOrObjectWithId valueIfKey : jsval) : C unit :=
  '(k, v) ← _resolveItem keyOrObjectWithId valueIfKey;
  h ← has k;
  let action := if h : bool then ACTION_UPDATE else ACTION_ADD in
  modify (λ c, set_items (<[k := v]> (_items c)) c) ;;
  (if bool_decide (action = ACTION_ADD) then modify (λ c, set_size (_size c + 1) c) else mret tt) ;;
  _touch action k.

(** [get(key)], without a default value. *)
Definition get (k : key) : C jsval :=
  v ← gets (λ c, _items c !! k);
  match v with Some v => mret v | None => throw "NoSuchItem" end.

Definition touch (keyOrObjectWithId : jsval) : C jsval :=
  '(k, _) ← _resolveItem keyOrObjectWithId VUndefined;
  _assertHas k ;;
  v ← get k;
  match v with
  | VArr _ | VObj _ _ => _touch ACTION_UPDATE k ;; get k
  | _ => throw "IllegalTouch"
  end.

Definition unset (keyOrObjectWithId : jsval) : C unit :=
  '(k, _) ← _resolveItem keyOrObjectWithId VUndefined;
  h ← has k; if h : bool then _remove k else mret tt.

Definition update (keyOrObjectWithId valueIfKey : jsval) : C unit :=
  '(k, v) ← _resolveItem keyOrObjectWithId valueIfKey;
  _assertHas k ;;
  modify (λ c, set_items (<[k := v]> (_items c)) c) ;;
  _touch ACTION_UPDATE k.

(** ** Indexes *)

(** [_attachCollection] adds the items that are there. *)
Definition createIndex (name : key) (index : L) : C unit :=
  indexes ← gets _indexes;
  match indexes !! name with
  | Some _ => throw "DuplicateIndex"
  | None => modify (λ c, set_indexes (<[name := on_add (for_in (_items c)) index]> (_indexes c)) c)
  end.

(** The index, emptied. *)
Definition deleteIndex (name : key) : C L :=
  indexes ← gets _indexes;
  match indexes !! name with
  | None => throw "NoSuchIndex"
  | Some index => modify (λ c, set_indexes (delete name (_indexes c)) c) ;; mret (on_detach index)
  end.

(** ** Iteration *)

Definition entries : C items := gets (λ c, for_in (_items c)).
Definition keys : C (list key) := gets (λ c, (for_in (_items c)).*1).
Definition values : C (list jsval) := gets (λ c, (for_in (_items c)).*2).

(** ** The operations of a program *)

Inductive op :=
  | OAdd (k v : jsval) | OSet (k v : jsval) | OUpdate (k v : jsval)
  | ORemove (k : jsval) | OUnset (k : jsval) | OTouch (k : jsval) | OClear
  | OBufferEvents | OFlush (id : nat)
  | OCreateIndex (name : key) (index : L) | ODeleteIndex (name : key).

(** An operation that throws leaves the state as it was at the exception. *)
Definition run_op (o : op) (c : Collection L) : Collection L :=
  match o with
  | OAdd k v => (add k v c).2
  | OSet k v => (set k v c).2
  | OUpdate k v => (update k v c).2
  | ORemove k => (remove k c).2
  | OUnset k => (unset k c).2
  | OTouch k => (touch k c).2
  | OClear => (clear c).2
  | OBufferEvents => (bufferEvents c).2
  | OFlush id => (flush id c).2
  | OCreateIndex name index => (createIndex name index c).2
  | ODeleteIndex name => (deleteIndex name c).2
  end.
End collection.

(** ** What the events tell *)

Section laws.
Context {L : Type} `{ListenerLaws L}.
Context (getKey : jsval → jsval).
Context (for_in : ∀ A, gmap key A → list (key * A)).
Context (for_in_perm : ∀ A (m : gmap key A), for_in A m ≡ₚ map_to_list m).

Local Abbreviation Col := (Collection L).

(** The buffer is the difference between the items when it was last empty and the
    items now. *)
Definition change_ok (before now : option jsval) (a : option action) : Prop :=
  match a with
  | None => now = before
  | Some ACTION_ADD => before = None ∧ is_Some now
  | Some ACTION_UPDATE => is_Some before ∧ is_Some now
  | Some ACTION_REMOVE => is_Some before ∧ now = None
  end.

Definition uncalled (l : list bool) : nat := length (List.filter negb l).
Arguments uncalled : simpl never.

Record collection_ok (c : Col) (base : gmap key jsval) : Prop := {
  co_buffer k : change_ok (base !! k) (_items c !! k) (_buffer c !! k);
  co_size : _size c = Z.of_nat (size (_items c));
  co_buffering : _buffering c = Z.of_nat (uncalled (flushes c));
  co_pending : _buffer c ≠ ∅ → 0 < _buffering c;
  co_indexes name l : _indexes c !! name = Some l → follows base l;
}.

(** *** The steps *)

Lemma collection_ok_weaken c c' base :
  collection_ok c base → _items c' = _items c → _size c' = _size c → _buffer c' = _buffer c →
  _buffering c' = Z.of_nat (uncalled (flushes c')) → (_buffer c ≠ ∅ → 0 < _buffering c') →
  _indexes c' = _indexes c → collection_ok c' base.
Proof. intros [] Hi Hs Hb Hf Hp Hx. split; rewrite ?Hi, ?Hs, ?Hb, ?Hx; done. Qed.

Lemma uncalled_snoc l : uncalled (l ++ [false]) = S (uncalled l).
Proof. unfold uncalled. rewrite List.filter_app, length_app. cbn. lia. Qed.

Lemma uncalled_call l id :
  l !! id = Some false → Z.of_nat (uncalled (<[id := true]> l)) = Z.of_nat (uncalled l) - 1.
Proof.
  unfold uncalled. revert id. induction l as [|b l IH]; intros id Hid; [done|]. destruct id as [|id]; cbn.
  - injection Hid as ->. cbn. lia.
  - specialize (IH id Hid). destruct b; cbn [negb length]; [exact IH|]. rewrite !Nat2Z.inj_succ. unfold Z.succ. etransitivity; [apply (f_equal (λ z, z + 1) IH)|lia].
Qed.

Lemma bufferEvents_ok c base : collection_ok c base → collection_ok (bufferEvents c).2 base.
Proof.
  intros Hc. eapply collection_ok_weaken; try done; destruct Hc; cbn.
  - rewrite uncalled_snoc. lia.
  - intros. lia.
Qed.

(** [_touch] after the items changed at [k]. *)
Definition touched (a : action) (k : key) (c : Col) (now : option jsval) : Prop :=
  match a with
  | ACTION_ADD => _items c !! k = None ∧ is_Some now
  | ACTION_UPDATE => is_Some (_items c !! k) ∧ is_Some now
  | ACTION_REMOVE => is_Some (_items c !! k) ∧ now = None
  end.

Lemma buffer_action_ok base before now a b k :
  change_ok base before (b !! k) →
  match a with
  | ACTION_ADD => before = None ∧ is_Some now
  | ACTION_UPDATE => is_Some before ∧ is_Some now
  | ACTION_REMOVE => is_Some before ∧ now = None
  end →
  change_ok base now (buffer_action a k b !! k).
Proof.
  intros Hb Ha. unfold buffer_action. destruct a, (b !! k) as [[]|] eqn:E; cbn in Hb; destruct Ha as [H1 H2];
    repeat first [rewrite bool_decide_eq_true_2 by (done || by eexists)
                 |rewrite bool_decide_eq_false_2 by (by intros [? [=]] || done)];
    rewrite ?lookup_insert_eq, ?lookup_delete_eq, ?E; cbn; subst; try done; try (by destruct Hb; simplify_eq);
    try (by destruct H1); try (split; [|done]; by destruct Hb).
  all: destruct Hb as [-> ?]; done.
Qed.

Lemma buffer_action_ne a k k' b : k ≠ k' → buffer_action a k b !! k' = b !! k'.
Proof.
  intros Hk. unfold buffer_action. destruct a; repeat case_bool_decide;
    rewrite ?lookup_insert_ne, ?lookup_delete_ne by done; done.
Qed.

(** The collection when a flush is pending. *)
Definition with_flush (c : Col) : Col :=
  if bool_decide (_buffering c = 0) then
    set_scheduled (scheduled c ++ [length (flushes c)]) (set_flushes (_buffering c + 1) (flushes c ++ [false]) c)
  else c.

Lemma touch_eq a k c :
  _touch a k c = (Ok tt, set_buffer (buffer_action a k (_buffer (with_flush c))) (with_flush c)).
Proof.
  unfold _touch, with_flush, mbind, M_bind, gets, modify. by case_bool_decide.
Qed.

(** Changing the item [k], counting it, then touching it. *)
Lemma touch_ok c base a k m :
  collection_ok c base → (∀ k', k' ≠ k → m !! k' = _items c !! k') → touched a k c (m !! k) →
  collection_ok (_touch a k (set_size (Z.of_nat (size m)) (set_items m c))).2 base.
Proof.
  intros Hc Hm Ht. rewrite touch_eq.
  assert (∀ k', change_ok (base !! k') (m !! k') (buffer_action a k (_buffer c) !! k')) as Hb.
  { intros k'. destruct (decide (k' = k)) as [->|Hk].
    - eapply buffer_action_ok; [apply (co_buffer _ _ Hc)|]. exact Ht.
    - rewrite buffer_action_ne, Hm by done. apply (co_buffer _ _ Hc). }
  destruct Hc as [_ _ Hf Hp Hx]. unfold with_flush. cbn [_buffering set_size set_items].
  case_bool_decide as E; split; cbn; try done.
  - rewrite uncalled_snoc. lia.
  - intros. lia.
  - intros. pose proof (Nat2Z.is_nonneg (uncalled (flushes c))). lia.
Qed.

Lemma set_size_same (c : Col) m : set_size (_size c) (set_items m c) = set_items m c.
Proof. by destruct c. Qed.

(** An item is there or not, is written and counted. *)
Lemma insert_ok c base k v :
  collection_ok c base → is_Some (_items c !! k) →
  collection_ok (_touch ACTION_UPDATE k (set_items (<[k := v]> (_items c)) c)).2 base.
Proof.
  intros Hc Hk. pose proof (touch_ok c base ACTION_UPDATE k (<[k := v]> (_items c)) Hc) as Hok.
  rewrite map_size_insert_Some, <- (co_size _ _ Hc), set_size_same in Hok by done. apply Hok.
  - intros. by rewrite lookup_insert_ne.
  - by rewrite lookup_insert_eq.
Qed.

Lemma add_new_ok c base k v :
  collection_ok c base → _items c !! k = None →
  collection_ok (_touch ACTION_ADD k (set_size (_size c + 1) (set_items (<[k := v]> (_items c)) c))).2 base.
Proof.
  intros Hc Hk. pose proof (touch_ok c base ACTION_ADD k (<[k := v]> (_items c)) Hc) as Hok.
  rewrite map_size_insert_None in Hok by done.
  replace (_size c + 1) with (Z.of_nat (S (size (_items c)))) by (rewrite (co_size _ _ Hc); lia). apply Hok.
  - intros. by rewrite lookup_insert_ne.
  - by rewrite lookup_insert_eq.
Qed.

Lemma remove_eq (c : Col) k : returns (_remove k) c tt
  (_touch ACTION_REMOVE k (set_size (_size c - 1) (set_items (delete k (_items c)) c))).2.
Proof. unfold returns, _remove, mbind, M_bind, modify. cbn [_size set_items]. by rewrite touch_eq. Qed.

Lemma remove_ok c base k :
  collection_ok c base → is_Some (_items c !! k) → collection_ok (_remove k c).2 base.
Proof.
  intros Hc Hk. rewrite (remove_eq c k). pose proof (touch_ok c base ACTION_REMOVE k (delete k (_items c)) Hc) as Hok.
  rewrite map_size_delete_Some in Hok by done.
  assert (size (_items c) ≠ 0)%nat. { intros E%map_size_empty_inv. rewrite E in Hk. by destruct Hk. }
  replace (_size c - 1) with (Z.of_nat (Nat.pred (size (_items c)))) by (rewrite (co_size _ _ Hc); lia).
  apply Hok.
  - intros. by rewrite lookup_delete_ne.
  - by rewrite lookup_delete_eq.
Qed.

(** *** The events of a flush *)

Lemma NoDup_for_in {A} (m : gmap key A) : NoDup (for_in A m).*1.
Proof. rewrite for_in_perm. apply NoDup_fst_map_to_list. Qed.

Lemma elem_of_for_in {A} (m : gmap key A) k a : (k, a) ∈ for_in A m ↔ m !! k = Some a.
Proof. rewrite for_in_perm. apply elem_of_map_to_list. Qed.

Lemma elem_of_payload a (c : Col) k v :
  (k, v) ∈ payload for_in a c ↔ _buffer c !! k = Some a ∧ v = default VUndefined (_items c !! k).
Proof.
  unfold payload. rewrite list_elem_of_fmap. split.
  - intros ([k' a'] & [= -> ->] & Hin). apply list_elem_of_In, filter_In in Hin as [Hin Ha].
    apply list_elem_of_In, elem_of_for_in in Hin. apply bool_decide_eq_true in Ha. cbn in *. by subst.
  - intros [Hk ->]. exists (k, a). split; [done|]. apply list_elem_of_In, filter_In.
    split; [by apply list_elem_of_In, elem_of_for_in|]. by apply bool_decide_eq_true.
Qed.

Lemma payload_fst a (c : Col) k : k ∈ (payload for_in a c).*1 ↔ _buffer c !! k = Some a.
Proof.
  rewrite list_elem_of_fmap. split.
  - intros ([k' v] & -> & Hin). by apply elem_of_payload in Hin as [? _].
  - intros Hk. eexists (k, _). split; [done|]. by apply elem_of_payload.
Qed.

Lemma NoDup_payload a (c : Col) : NoDup (payload for_in a c).*1.
Proof.
  unfold payload. rewrite <- list_fmap_compose.
  change (NoDup ((λ e, e.1) <$> List.filter (λ e, bool_decide (e.2 = a)) (for_in _ (_buffer c)))).
  pose proof (NoDup_for_in (_buffer c)) as Hn. induction (for_in _ (_buffer c)) as [|[k b] l IH]; [constructor|].
  cbn in Hn. apply NoDup_cons in Hn as [Hk Hn]. cbn [List.filter]. case_bool_decide; [|by apply IH].
  rewrite fmap_cons. apply NoDup_cons. split; [|by apply IH]. cbn.
  intros Hin. apply Hk. apply list_elem_of_fmap in Hin as (x & -> & Hx). apply list_elem_of_fmap.
  exists x. split; [done|]. apply list_elem_of_In, filter_In in Hx as [Hx _]. by apply list_elem_of_In.
Qed.

Lemma lookup_payload a (c : Col) k :
  (list_to_map (payload for_in a c) : gmap key jsval) !! k =
  if bool_decide (_buffer c !! k = Some a) then Some (default VUndefined (_items c !! k)) else None.
Proof.
  case_bool_decide as E.
  - apply elem_of_list_to_map_1; [apply NoDup_payload|]. by apply elem_of_payload.
  - apply not_elem_of_list_to_map_1. by rewrite payload_fst.
Qed.

Definition tell (events : list event) (l : L) : L := foldl (λ l e, handle e l) l events.

Lemma for_each_emit events : ∀ c : Col,
  for_each events emit c = (Ok tt, set_indexes (tell events <$> _indexes c) c).
Proof.
  induction events as [|e events IH]; intros c; cbn [for_each].
  - unfold tell. cbn [foldl]. rewrite map_fmap_id. by destruct c.
  - unfold mbind, M_bind, emit, modify. rewrite IH. f_equal. destruct c. cbn. unfold set_indexes. cbn.
    by rewrite <- map_fmap_compose.
Qed.

(** What listens to the events of a flush follows the items. *)
Lemma follows_flush (c : Col) base l :
  collection_ok c base → follows base l → follows (_items c) (tell (emitted_events for_in c) l).
Proof.
  intros Hc Hl. unfold emitted_events, tell. rewrite foldl_app. cbn [foldl handle List.filter].
  set (A := payload for_in ACTION_ADD c). set (D := payload for_in ACTION_REMOVE c).
  set (U := payload for_in ACTION_UPDATE c).
  pose proof (co_buffer _ _ Hc) as Hb.
  set (R1 := list_to_map A ∪ base). set (R2 := R1 ∖ list_to_map D).
  assert (_items c = list_to_map U ∪ R2) as ->.
  { apply map_eq. intros k. specialize (Hb k). unfold R2, R1, A, D, U.
    rewrite lookup_union, lookup_difference, lookup_union, !lookup_payload.
    destruct (_buffer c !! k) as [[]|]; cbn in Hb; repeat case_bool_decide; simplify_eq; cbn.
    - destruct Hb as [-> [v ->]]. done.
    - destruct Hb as [_ [v ->]]. by rewrite union_Some_l || done.
    - by destruct Hb as [_ ->].
    - rewrite Hb. by destruct (base !! k). }
  assert (follows R1 (match A with [] => l | _ => on_add A l end)) as H1.
  { unfold R1. assert (follows (list_to_map A ∪ base) (on_add A l)) as HA.
    { apply follows_add; [done|apply NoDup_payload|]. intros k Hk%payload_fst. specialize (Hb k).
      rewrite Hk in Hb. apply Hb. }
    destruct A; [|done]. by rewrite list_to_map_nil, (left_id_L ∅ (∪)). }
  set (l1 := match A with [] => l | _ => on_add A l end) in *.
  assert (follows R2 (match D with [] => l1 | _ => on_remove D l1 end)) as H2.
  { assert (follows R2 (on_remove D l1)) as HD.
    { apply follows_remove; [done|apply NoDup_payload|]. intros k Hk%payload_fst. specialize (Hb k).
      rewrite Hk in Hb. destruct Hb as [[v Hv] _]. unfold R1, A. rewrite lookup_union, lookup_payload, Hk, Hv.
      rewrite bool_decide_eq_false_2 by done. by eexists. }
    unfold R2 in *. destruct D; [|done]. by rewrite list_to_map_nil, map_difference_empty. }
  set (l2 := match D with [] => l1 | _ => on_remove D l1 end) in *.
  assert (follows (list_to_map U ∪ R2) (match U with [] => l2 | _ => on_update U l2 end)) as H3.
  { assert (follows (list_to_map U ∪ R2) (on_update U l2)) as HU.
    { apply follows_update; [done|apply NoDup_payload|]. intros k Hk%payload_fst. specialize (Hb k).
      rewrite Hk in Hb. destruct Hb as [[v Hv] _]. unfold R2, R1, A, D.
      rewrite lookup_difference, lookup_union, !lookup_payload, Hk, Hv.
      rewrite !bool_decide_eq_false_2 by done. by eexists. }
    destruct U; [|done]. by rewrite list_to_map_nil, (left_id_L ∅ (∪)). }
  unfold l2, l1 in *. clear -H3. by destruct A, D, U.
Qed.

Lemma called_ok (c : Col) base id :
  collection_ok c base → flushes c !! id = Some false →
  (_buffer c = ∅ ∨ _buffering c ≠ 1) →
  collection_ok (set_flushes (_buffering c - 1) (<[id := true]> (flushes c)) c) base.
Proof.
  intros Hc Hid Hb. pose proof (co_buffering _ _ Hc) as Hf. pose proof (co_pending _ _ Hc) as Hp.
  eapply collection_ok_weaken; try done; cbn.
  - rewrite uncalled_call by done. lia.
  - intros Hne. specialize (Hp Hne). destruct Hb; [done|lia].
Qed.

(** A flush that empties the buffer. *)
Lemma flushed_ok (c : Col) base id :
  collection_ok c base → flushes c !! id = Some false → _buffering c = 1 →
  collection_ok (set_buffer ∅ (set_indexes (tell (emitted_events for_in c) <$> _indexes c)
    (set_flushes 0 (<[id := true]> (flushes c)) c))) (_items c).
Proof.
  intros Hc Hid Hb. split; cbn; try done.
  - apply (co_size _ _ Hc).
  - rewrite uncalled_call, <- (co_buffering _ _ Hc) by done. lia.
  - intros name l Hl. rewrite lookup_fmap in Hl. apply fmap_Some in Hl as (l0 & Hl0 & ->).
    apply (follows_flush c base); [done|]. by eapply co_indexes.
Qed.

Lemma flush_ok (c : Col) base id :
  collection_ok c base → ∃ base', collection_ok (flush for_in id c).2 base'.
Proof.
  intros Hc. unfold flush, flush_begin, mbind, M_bind, gets.
  destruct (flushes c !! id) as [[]|] eqn:Hid; [by exists base| |by exists base].
  change (default true (Some false)) with false. unfold modify. cbv beta iota.
  set (c1 := set_flushes (_buffering c - 1) (<[id := true]> (flushes c)) c).
  assert (_buffering c1 = _buffering c - 1) as E1 by done.
  destruct (decide (_buffering c = 1)) as [Hone|Hne].
  - rewrite E1, Hone. rewrite bool_decide_eq_false_2 by lia.
    case_bool_decide as Hempty.
    + exists base. apply called_ok; [done|done|by left].
    + cbn [mret M_ret]. rewrite for_each_emit. exists (_items c). unfold flush_end, modify.
      replace (_buffering c - 1) with 0 by lia. cbn [fst snd].
      pose proof (flushed_ok c base id Hc Hid Hone) as Hok. unfold c1. rewrite Hone. exact Hok.
  - rewrite bool_decide_eq_true_2 by lia. exists base. apply called_ok; [done|done|by right].
Qed.

(** *** Any program *)

(** An index is created empty, when no change is waiting for a flush. *)
Definition allowed (o : op) (c : Col) : Prop :=
  match o with OCreateIndex _ index => _buffer c = ∅ ∧ follows ∅ index | _ => True end.

Inductive reachable : Col → Prop :=
  | reachable_new : reachable new_Collection
  | reachable_op c o : reachable c → allowed o c → reachable (run_op getKey for_in o c).

Lemma new_ok : collection_ok new_Collection ∅.
Proof. by split. Qed.

Lemma resolve_pure k v (c : Col) :
  ∃ r, _resolveItem getKey k v c = (r, c).
Proof.
  unfold _resolveItem, assertValidKey, throw, mbind, M_bind. destruct (negb (is_undefined v)).
  - destruct (property_key k); by eexists.
  - destruct (property_key k); [by eexists|]. destruct (property_key (getKey k)); by eexists.
Qed.

Lemma add_ok c base k v : collection_ok c base → collection_ok (add getKey k v c).2 base.
Proof.
  intros Hc. unfold add. destruct (resolve_pure k v c) as [[[x w]|e] E]; unfold mbind at 1, M_bind at 1; rewrite E;
    [|done]. unfold _assertHasNot, has, mbind, M_bind, gets, modify, throw.
  destruct (_items c !! x) as [y|] eqn:Ex.
  - by rewrite bool_decide_eq_true_2 by (by eexists).
  - rewrite bool_decide_eq_false_2 by (by intros [? [=]]). by apply (add_new_ok c base x w).
Qed.

Lemma set_ok c base k v : collection_ok c base → collection_ok (set getKey k v c).2 base.
Proof.
  intros Hc. unfold set. destruct (resolve_pure k v c) as [[[x w]|e] E]; unfold mbind at 1, M_bind at 1; rewrite E;
    [|done]. unfold has, mbind, M_bind, gets, modify. cbv beta iota zeta.
  destruct (_items c !! x) as [y|] eqn:Ex.
  - rewrite !(bool_decide_eq_true_2 (is_Some (Some y))) by (by eexists).
    apply (insert_ok c base x w); [done|]. rewrite Ex. by eexists.
  - rewrite !(bool_decide_eq_false_2 (is_Some None)) by (by intros [? [=]]).
    by apply (add_new_ok c base x w).
Qed.

Lemma update_ok c base k v : collection_ok c base → collection_ok (update getKey k v c).2 base.
Proof.
  intros Hc. unfold update. destruct (resolve_pure k v c) as [[[x w]|e] E]; unfold mbind at 1, M_bind at 1; rewrite E;
    [|done]. unfold _assertHas, has, mbind, M_bind, gets, modify, throw.
  destruct (_items c !! x) as [y|] eqn:Ex.
  - rewrite bool_decide_eq_true_2 by (by eexists). apply (insert_ok c base x w); [done|]. rewrite Ex. by eexists.
  - by rewrite bool_decide_eq_false_2 by (by intros [? [=]]).
Qed.

Lemma remove_op_ok c base k : collection_ok c base → collection_ok (remove getKey k c).2 base.
Proof.
  intros Hc. unfold remove. destruct (resolve_pure k VUndefined c) as [[[x w]|e] E];
    unfold mbind at 1, M_bind at 1; rewrite E; [|done]. unfold _assertHas, has, mbind, M_bind, gets, throw.
  case_bool_decide; [|done]. by apply (remove_ok c base x).
Qed.

Lemma unset_ok c base k : collection_ok c base → collection_ok (unset getKey k c).2 base.
Proof.
  intros Hc. unfold unset. destruct (resolve_pure k VUndefined c) as [[[x w]|e] E];
    unfold mbind at 1, M_bind at 1; rewrite E; [|done]. unfold has, mbind, M_bind, gets.
  case_bool_decide; [|done]. by apply (remove_ok c base x).
Qed.

Lemma touch_op_ok c base k : collection_ok c base → collection_ok (touch getKey k c).2 base.
Proof.
  intros Hc. unfold touch. destruct (resolve_pure k VUndefined c) as [[[x w]|e] E];
    unfold mbind at 1, M_bind at 1; rewrite E; [|done].
  unfold _assertHas, has, get, mbind, M_bind, gets, throw.
  destruct (_items c !! x) as [y|] eqn:Ex; [|by rewrite bool_decide_eq_false_2 by (by intros [? [=]])].
  rewrite bool_decide_eq_true_2 by (by eexists).
  assert (collection_ok (_touch ACTION_UPDATE x c).2 base) as Ht.
  { pose proof (insert_ok c base x y Hc ltac:(rewrite Ex; by eexists)) as Hi.
    rewrite insert_id in Hi by done. by destruct c. }
  unfold mret, M_ret, lift. rewrite Ex. destruct y; try exact Hc; rewrite touch_eq in Ht |- *;
    cbv beta iota; (destruct (_items (set_buffer _ _) !! x); exact Ht).
Qed.

Lemma clear_ok c base : collection_ok c base → collection_ok (clear for_in c).2 base.
Proof.
  intros Hc. unfold clear, mbind, M_bind, gets. pose proof (NoDup_for_in (_items c)) as Hnd.
  assert (∀ k, k ∈ (for_in _ (_items c)).*1 → is_Some (_items c !! k)) as Hin.
  { intros k Hk. apply list_elem_of_fmap in Hk as ([k' v] & -> & Hk). apply elem_of_for_in in Hk. by eexists. }
  revert Hnd Hin. generalize ((for_in _ (_items c)).*1) as ks. intros ks. revert c Hc.
  induction ks as [|k ks IH]; intros c Hc Hnd Hin; [done|]. apply NoDup_cons in Hnd as [Hk Hnd].
  cbn [for_each]. unfold mbind, M_bind. pose proof (remove_ok c base k Hc (Hin k ltac:(by left))) as Hr.
  pose proof (remove_eq c k) as Heq. unfold returns in Heq. rewrite Heq in Hr |- *. apply IH; [done|done|].
  intros k' Hk'. rewrite touch_eq. unfold with_flush. case_bool_decide; cbn;
    rewrite lookup_delete_ne by (by intros ->); apply Hin; by right.
Qed.

Lemma create_ok c base name index :
  collection_ok c base → _buffer c = ∅ → follows ∅ index →
  collection_ok (createIndex for_in name index c).2 base.
Proof.
  intros Hc Hb Hl. unfold createIndex, mbind, M_bind, gets, modify, throw.
  destruct (_indexes c !! name) eqn:En; [done|]. destruct Hc as [H1 H2 H3 H4 H5]. split; cbn; try done.
  assert (base = _items c) as Eb.
  { apply map_eq. intros k. specialize (H1 k). rewrite Hb, lookup_empty in H1. cbn in H1. by rewrite H1. }
  intros n l. destruct (decide (n = name)) as [->|]; [|rewrite lookup_insert_ne by done; apply H5].
  rewrite lookup_insert_eq. intros [= <-]. subst base.
  assert (_items c = list_to_map (for_in _ (_items c)) ∪ ∅) as E.
  { rewrite (right_id_L ∅ (∪)). symmetry. apply map_eq. intros k.
    destruct (_items c !! k) as [v|] eqn:Ek.
    - apply elem_of_list_to_map_1; [apply NoDup_for_in|]. by apply elem_of_for_in.
    - apply not_elem_of_list_to_map_1. intros Hk. apply list_elem_of_fmap in Hk as ([k' v] & -> & Hk).
      apply elem_of_for_in in Hk. cbn in Ek. congruence. }
  rewrite E at 1. apply follows_add; [done|apply NoDup_for_in|]. intros. apply lookup_empty.
Qed.

Lemma delete_ok c base name : collection_ok c base → collection_ok (deleteIndex name c).2 base.
Proof.
  intros [H1 H2 H3 H4 H5]. unfold deleteIndex, mbind, M_bind, gets, modify, throw.
  destruct (_indexes c !! name); [|by split]. split; cbn; try done.
  intros n l2 Hn. apply lookup_delete_Some in Hn as [_ Hn]. by eapply H5.
Qed.

Lemma run_op_ok c base o :
  collection_ok c base → allowed o c → ∃ base', collection_ok (run_op getKey for_in o c) base'.
Proof.
  intros Hc Ha. destruct o; cbn [run_op]; cbn in Ha; try (by eapply flush_ok); exists base.
  - by apply add_ok.
  - by apply set_ok.
  - by apply update_ok.
  - by apply remove_op_ok.
  - by apply unset_ok.
  - by apply touch_op_ok.
  - by apply clear_ok.
  - by apply bufferEvents_ok.
  - destruct Ha. by apply create_ok.
  - by apply delete_ok.
Qed.

Lemma collection_reachable_ok c : reachable c → ∃ base, collection_ok c base.
Proof. induction 1 as [|c o _ [base Hc] Ha]; [eexists; apply new_ok|]. by eapply run_op_ok. Qed.

(** Once every flush is done, nothing waits and every listener follows the items. *)
Lemma follow_items c :
  reachable c → Forall (λ called, called = true) (flushes c) →
  _buffer c = ∅ ∧ _buffering c = 0 ∧ _size c = Z.of_nat (size (_items c)) ∧
  (∀ name l, _indexes c !! name = Some l → follows (_items c) l).
Proof.
  intros Hr Hf. destruct (collection_reachable_ok c Hr) as [base Hc].
  assert (uncalled (flushes c) = 0%nat) as E.
  { unfold uncalled. induction Hf as [|b l Hb _ IH]; [done|]. by rewrite Hb. }
  pose proof (co_buffering _ _ Hc) as Hb. rewrite E in Hb.
  assert (_buffer c = ∅) as Eb.
  { destruct (decide (_buffer c = ∅)) as [|Hne]; [done|]. pose proof (co_pending _ _ Hc Hne). lia. }
  split_and!; [done|done|apply (co_size _ _ Hc)|]. intros name l Hl.
  assert (_items c = base) as ->; [|by eapply co_indexes].
  apply map_eq. intros k. pose proof (co_buffer _ _ Hc k) as Hk. rewrite Eb, lookup_empty in Hk. exact Hk.
Qed.

(** C32: whatever the operations on a collection and the order in which the functions
    given by [bufferEvents] are called, once they have all been called no change is
    left in the buffer, the size is the number of items, and everything that
    listens follows exactly the items of the collection: the events are merged
    without loss.

    The indexes and views are created when no change waits for a flush, and what listens
    does not change the collection while the events are emitted: otherwise some changes are
    lost ([index_created_before_flush], [change_during_flush_lost]). *)
Theorem listeners_follow_items c :
  reachable c → Forall (λ called, called = true) (flushes c) →
  _buffer c = ∅ ∧ _buffering c = 0 ∧ _size c = Z.of_nat (size (_items c)) ∧
  (∀ name l, _indexes c !! name = Some l → follows (_items c) l).
Proof. apply follow_items. Qed.
End laws.

(** ** Views *)

(** A view is a collection that listens to another one; its state is the collection
    that it is. *)
Section view.
Context {L : Type} `{ListenerLaws L}.
Context (getKey : jsval → jsval).
Context (for_in : ∀ A, gmap key A → list (key * A)).
Context (predicate : jsval → key → bool).

Local Abbreviation View := (Collection L).

Definition view_add_one (c : View) (e : key * jsval) : View :=
  let '(k, value) := e in
  if predicate value k then (set getKey (VStr k) value c).2 else c.

Definition view_update_one (c : View) (e : key * jsval) : View :=
  let '(k, value) := e in
  if predicate value k then (set getKey (VStr k) value c).2
  else if bool_decide (is_Some (_items c !! k)) then (remove getKey (VStr k) c).2
  else c.

Definition view_remove_one (c : View) (e : key * jsval) : View :=
  let '(k, _) := e in
  if bool_decide (is_Some (_items c !! k)) then (remove getKey (VStr k) c).2 else c.

Definition view_onAdd (es : items) (c : View) : View := foldl view_add_one c es.
Definition view_onUpdate (es : items) (c : View) : View := foldl view_update_one c es.
Definition view_onRemove (es : items) (c : View) : View := foldl view_remove_one c es.

(** [destroy()] only stops listening. *)
Definition View_listener : Listener View :=
  {| on_add := view_onAdd; on_update := view_onUpdate; on_remove := view_onRemove; on_detach := id |}.

(** [new View(collection, predicate)]: the items of the collection that the
    predicate selects. *)
Definition new_View (parent : gmap key jsval) : View := view_onAdd (for_in _ parent) new_Collection.

(** [add], [clear], [set] and [update]. *)
Definition view_read_only {A} : M View A := lift (Throw (OtherError "a view is read only")).

Definition selected (R : gmap key jsval) : gmap key jsval :=
  filter (λ e, predicate e.2 e.1 = true) R.

Definition view_ok (R : gmap key jsval) (c : View) : Prop :=
  _items c = selected R ∧ ∃ base, collection_ok c base.

Lemma set_items_eq k v (c : View) :
  _items (set getKey (VStr k) v c).2 = <[k := v]> (_items c).
Proof.
  unfold set. destruct (resolve_pure getKey (VStr k) v c) as [r E]. unfold mbind at 1, M_bind at 1. rewrite E.
  assert (r = Ok (k, v)) as ->.
  { unfold _resolveItem, assertValidKey, mbind, M_bind in E. cbn in E.
    destruct v; cbn in E; by injection E as <-. }
  unfold has, mbind, M_bind, gets, modify. destruct (_items c !! k) as [y|].
  - rewrite !(bool_decide_eq_true_2 (is_Some (Some y))) by (by eexists).
    change (bool_decide (ACTION_UPDATE = ACTION_ADD)) with false. unfold mret, M_ret. cbv beta iota zeta.
    rewrite touch_eq. unfold with_flush. by case_bool_decide.
  - rewrite !(bool_decide_eq_false_2 (is_Some None)) by (by intros [? [=]]).
    change (bool_decide (ACTION_ADD = ACTION_ADD)) with true. cbv beta iota zeta.
    rewrite touch_eq. unfold with_flush. by case_bool_decide.
Qed.

Lemma remove_items_eq k (c : View) :
  is_Some (_items c !! k) → _items (remove getKey (VStr k) c).2 = delete k (_items c).
Proof.
  intros Hk. unfold remove, _resolveItem, mbind, M_bind. cbn [is_undefined negb property_key].
  unfold mret, M_ret, _assertHas, has, mbind, M_bind, gets. rewrite bool_decide_eq_true_2 by done.
  unfold mret, M_ret. rewrite (remove_eq c k), touch_eq. unfold with_flush. by case_bool_decide.
Qed.

Lemma view_update_ok R c k v : view_ok R c → view_ok (<[k := v]> R) (view_update_one c (k, v)).
Proof.
  intros [Hi [base Hc]]. unfold view_update_one, view_ok, selected. destruct (predicate v k) eqn:E.
  - split; [|exists base; by apply set_ok]. rewrite set_items_eq, Hi.
    by rewrite map_filter_insert_True.
  - rewrite map_filter_insert_False by (cbn; congruence). rewrite map_filter_delete.
    unfold selected in Hi. rewrite <- Hi. case_bool_decide as Hk.
    + split; [by apply remove_items_eq|]. exists base. by apply remove_op_ok.
    + split; [|by exists base]. rewrite delete_id; [done|]. by apply eq_None_not_Some.
Qed.

Lemma view_add_ok R c k v :
  view_ok R c → R !! k = None → view_ok (<[k := v]> R) (view_add_one c (k, v)).
Proof.
  intros Hv Hk. pose proof (view_update_ok R c k v Hv) as Hu. unfold view_update_one in Hu. unfold view_add_one.
  destruct (predicate v k); [done|]. rewrite bool_decide_eq_false_2 in Hu; [done|].
  destruct Hv as [-> _]. unfold selected. intros [w Hw]. apply map_lookup_filter_Some in Hw as [Hw _]. congruence.
Qed.

Lemma view_remove_ok R c k v : view_ok R c → view_ok (delete k R) (view_remove_one c (k, v)).
Proof.
  intros [Hi [base Hc]]. unfold view_remove_one, view_ok, selected in *. rewrite map_filter_delete.
  rewrite <- Hi. case_bool_decide as Hk.
  - split; [by apply remove_items_eq|]. exists base. by apply remove_op_ok.
  - split; [|by exists base]. rewrite delete_id; [done|]. by apply eq_None_not_Some.
Qed.

Definition View_laws : @ListenerLaws View View_listener.
Proof.
  refine (@Build_ListenerLaws View View_listener view_ok _ _ _).
  - intros R l es Hl Hnd Hes. apply (fold_insert R l view_ok _ (λ R k, R !! k = None)); try done.
    + intros. by apply view_add_ok.
    + intros. by rewrite lookup_insert_ne.
  - intros R l es Hl Hnd Hes. apply (fold_insert R l view_ok _ (λ R k, True)); try done.
    intros. by apply view_update_ok.
  - intros R l es Hl _ _. refine (fold_delete R l view_ok view_remove_one es _ Hl).
    intros. by apply view_remove_ok.
Defined.
End view.

(** ** Indexes and views of a collection *)

Section clients.
Context (getKey : jsval → jsval).
Context (for_in : ∀ A, gmap key A → list (key * A)).
Context (for_in_perm : ∀ A (m : gmap key A), for_in A m ≡ₚ map_to_list m).

(** An [Index] of a collection, once the functions given by [bufferEvents] have
    been called, has under each type exactly the items of the collection that have
    this type, and knows the type of each. *)
Theorem index_groups_items (getIndexType : jsval → option key) c name ix :
  @reachable Index (Index_listener getIndexType) (Index_laws getIndexType) getKey for_in c →
  Forall (λ called, called = true) (flushes c) → _indexes c !! name = Some ix →
  (∀ type k v, item_of ix type k = Some v ↔ _items c !! k = Some v ∧ getIndexType v = Some type) ∧
  (∀ k, _keysToType ix !! k = (v ← _items c !! k; getIndexType v)).
Proof.
  intros Hr Hf Hix.
  destruct (@follow_items Index (Index_listener getIndexType) (Index_laws getIndexType)
    getKey for_in for_in_perm c Hr Hf) as (_ & _ & _ & Hl).
  destruct (Hl name ix Hix) as [Ht Hi]. split; [|exact Ht]. intros type k v. rewrite Hi.
  destruct (_items c !! k); cbn; [case_bool_decide|]; naive_solver.
Qed.

(** A [View] of a collection, once the functions given by [bufferEvents] have
    been called, has exactly the items of the collection that its predicate selects,
    whatever was done to the collection. *)
Theorem view_selects_items {L} `{ListenerLaws L} (predicate : jsval → key → bool) c name v :
  @reachable (Collection L) (View_listener getKey predicate) (View_laws getKey predicate) getKey for_in c →
  Forall (λ called, called = true) (flushes c) → _indexes c !! name = Some v →
  ∀ k x, _items v !! k = Some x ↔ _items c !! k = Some x ∧ predicate x k = true.
Proof.
  intros Hr Hf Hv.
  destruct (@follow_items (Collection L) (View_listener getKey predicate) (View_laws getKey predicate)
    getKey for_in for_in_perm c Hr Hf) as (_ & _ & _ & Hl).
  destruct (Hl name v Hv) as [-> _]. intros k x. unfold selected.
  by rewrite map_lookup_filter_Some.
Qed.
End clients.

(** ** Samples *)

Definition default_getKey (v : jsval) : jsval :=
  if truthy v then default VUndefined (own_property v (js "id")) else v.

Definition any_order (A : Type) (m : gmap key A) : list (key * A) := map_to_list m.

Definition item (k type : string) : jsval :=
  VObj true [(js "id", VStr (js k)); (js "type", VStr (js type))].

Definition type_of (v : jsval) : option key :=
  match own_property v (js "type") with Some (VStr s) => Some s | _ => None end.

#[local] Existing Instance map_listener.

(** A collection with an index, three items, a change and a removal, flushed. *)
Definition later_ops {L} : list (@op L) :=
  [OAdd (item "a" "VM") VUndefined; OAdd (item "b" "VM") VUndefined; OAdd (item "c" "host") VUndefined;
   OFlush 0;
   OSet (item "b" "host") VUndefined; ORemove (VStr (js "c")); OSet (VNum (num_of_Z 12)) (item "d" "SR");
   OFlush 1].
Definition sample_ops {L} (index : L) : list op := OCreateIndex (js "byType") index :: later_ops.

Section samples.
Context {L : Type} `{ListenerLaws L}.

Definition run (ops : list op) : Collection L :=
  foldl (λ c o, run_op default_getKey any_order o c) new_Collection ops.

Lemma run_cons o ops :
  run (o :: ops) = foldl (λ c o, run_op default_getKey any_order o c)
    (run_op default_getKey any_order o new_Collection) ops.
Proof. reflexivity. Qed.

Lemma run_reachable ops :
  (∀ name index, OCreateIndex name index ∈ ops → False) →
  ∀ c, reachable default_getKey any_order c →
  reachable default_getKey any_order (foldl (λ c o, run_op default_getKey any_order o c) c ops).
Proof.
  intros Hn. induction ops as [|o ops IH]; intros c Hc; [done|]. cbn. apply IH.
  - intros name index Hin. apply (Hn name index). by right.
  - apply reachable_op; [done|]. destruct o; try done. exfalso. eapply Hn. by left.
Qed.

Lemma sample_reachable index :
  follows ∅ index → reachable default_getKey any_order (run (sample_ops index)).
Proof.
  intros Hi. unfold sample_ops. rewrite run_cons. apply run_reachable.
  - intros name i Hin. unfold later_ops in Hin.
    repeat (apply elem_of_cons in Hin as [Hin|Hin]; [discriminate Hin|]). by apply elem_of_nil in Hin.
  - apply reachable_op; [constructor|]. by split.
Qed.
End samples.

Definition sample_index : Collection Index :=
  @run Index (Index_listener type_of) (sample_ops new_Index).

Lemma new_Index_ok f : index_ok f ∅ new_Index.
Proof. split; intros; [by rewrite !lookup_empty|]. unfold item_of. cbn. by rewrite !lookup_empty. Qed.

Lemma index_groups_items_witness :
  ∃ ix, _indexes sample_index !! js "byType" = Some ix ∧
    item_of ix (js "host") (js "b") = Some (item "b" "host") ∧ item_of ix (js "VM") (js "b") = None.
Proof.
  destruct (_indexes sample_index !! js "byType") as [ix|] eqn:E; [|vm_compute in E; discriminate E].
  exists ix. split; [reflexivity|].
  destruct (index_groups_items default_getKey any_order (λ A m, Permutation_refl _) type_of sample_index
    (js "byType") ix) as [Hi _].
  - apply (@sample_reachable Index (Index_listener type_of) (Index_laws type_of)), new_Index_ok.
  - apply (bool_decide_unpack _). vm_compute. exact I.
  - exact E.
  - split; [apply Hi; split; vm_compute; reflexivity|].
    destruct (item_of ix (js "VM") (js "b")) as [v|] eqn:Ev; [|reflexivity].
    apply Hi in Ev as [Ev Ht]. vm_compute in Ev. injection Ev as <-. vm_compute in Ht. discriminate Ht.
Defined.

Definition sample_copy : Collection (gmap key jsval) := run (sample_ops ∅).

Lemma listeners_follow_items_witness :
  _size sample_copy = 3 ∧ ∃ l, _indexes sample_copy !! js "byType" = Some l ∧ l = _items sample_copy.
Proof.
  destruct (listeners_follow_items default_getKey any_order (λ A m, Permutation_refl _) sample_copy)
    as (_ & _ & Hs & Hl).
  - apply sample_reachable. reflexivity.
  - apply (bool_decide_unpack _). vm_compute. exact I.
  - split; [rewrite Hs; vm_compute; reflexivity|].
    destruct (_indexes sample_copy !! js "byType") as [l|] eqn:E; [|vm_compute in E; discriminate E].
    exists l. split; [reflexivity|]. exact (Hl _ _ E).
Defined.

(** The view of the items of type [host]. *)
Definition is_host (v : jsval) (k : key) : bool := bool_decide (type_of v = Some (js "host")).
Definition sample_view : Collection (Collection (gmap key jsval)) :=
  @run _ (View_listener default_getKey is_host) (sample_ops new_Collection).

Lemma view_selects_items_witness :
  ∃ v, _indexes sample_view !! js "byType" = Some v ∧
    _items v !! js "b" = Some (item "b" "host").
Proof.
  destruct (_indexes sample_view !! js "byType") as [v|] eqn:E; [|vm_compute in E; discriminate E].
  exists v. split; [reflexivity|].
  apply (view_selects_items default_getKey any_order (λ A m, Permutation_refl _) is_host sample_view (js "byType") v).
  - apply (@sample_reachable _ (View_listener default_getKey is_host) (View_laws default_getKey is_host)).
    split; [by vm_compute|]. exists ∅. apply new_ok.
  - apply (bool_decide_unpack _). vm_compute. exact I.
  - exact E.
  - split; vm_compute; reflexivity.
Defined.

(** An index created while an addition waits for its flush, then a change of type:
    the item stays under its old type. *)
Definition race_index : Collection Index :=
  @run Index (Index_listener type_of)
    [OAdd (item "a" "VM") VUndefined; OCreateIndex (js "byType") new_Index;
     OUpdate (item "a" "host") VUndefined; OFlush 0].

Example index_created_before_flush :
  (ix ← _indexes race_index !! js "byType"; item_of ix (js "VM") (js "a")) = Some (item "a" "VM") ∧
  _items race_index !! js "a" = Some (item "a" "host").
Proof. split; vm_compute; reflexivity. Qed.

(** A change made while the events are emitted is forgotten: after the next flush,
    what listens does not know it. *)
Definition during_flush : Collection (gmap key jsval) :=
  let c := run [OCreateIndex (js "copy") ∅; OAdd (item "a" "VM") VUndefined] in
  match flush_begin any_order 0 c with
  | (Ok (Some events), c) =>
      let c := (for_each events emit c).2 in
      let c := (add default_getKey (item "b" "VM") VUndefined c).2 in
      let c := (flush_end c).2 in
      (flush any_order 1 c).2
  | (_, c) => c
  end.

Example change_during_flush_lost :
  _items during_flush !! js "b" = Some (item "b" "VM") ∧ _buffer during_flush = ∅ ∧
  (copy ← _indexes during_flush !! js "copy"; copy !! js "b") = None.
Proof. split_and!; vm_compute; reflexivity. Qed.
