(* ===== verification/Retention.v ===== *)
(** * The backups to delete

    [@xen-orchestra/backups/_getOldEntries.mjs]: among the entries of a job, from the
    oldest to the most recent, those that neither the number of entries to keep nor
    the long-term retention protects.

    Dates are those of the package moment-timezone, a parameter.  Timestamps and
    retentions are integers. *)

From Stdlib Require Import Sorted.
From S2P Require Import Prelude JsValues.

Local Open Scope Z_scope.

(** ** Data *)

(** An entry; [e_ref] is the identity of the object. *)
Record Entry := mkEntry { e_ref : nat; e_id : jstring; e_timestamp : option Z }.

#[export] Instance Entry_eq_dec : EqDecision Entry.
Proof. solve_decision. Defined.

(** The settings of a retention, [undefined] when absent. *)
Record LTRSettings := mkSettings {
  firstHourOfTheDay : option Z;
  firstDayOfWeek : option Z;
  firstDayOfMonth : option Z;
  firstDayOfYear : option Z;
}.
Definition no_settings : LTRSettings := mkSettings None None None None.

(** [retention] is [None] when it is not a number. *)
Record LTRConfig := mkLTRConfig { retention : option Z; settings : LTRSettings }.

(** The entries of the object, in their order. *)
Definition LongTermRetention := list (jstring * LTRConfig).

(** What the code uses of moment-timezone: [moment.tz(date, timezone)] or
    [moment(date)] of a number or of a moment, [isValid], the getters and setters of
    the hour and of the day, [format]. *)
Class Moment (T : Type) := {
  m_create : option jstring → Z → T;
  m_copy : option jstring → T → T;
  m_isValid : T → bool;
  m_hour : T → Z;
  m_set_hour : Z → T → T;
  m_date : T → Z;
  m_set_date : Z → T → T;
  m_format : jstring → T → jstring;
}.

Section retention.
Context {T : Type} `{Moment T}.

Definition assert_valid (transformed : T) : result T :=
  js_assert (m_isValid transformed) "date is invalid" ;; Ok transformed.

(** [instantiateTimezonedDateCreator(timezone)], on a number and on a moment; an
    empty timezone counts as none. *)
Definition zone (timezone : option jstring) : option jstring :=
  match timezone with Some [] => None | tz => tz end.
Definition dateCreator (timezone : option jstring) (date : Z) : result T :=
  assert_valid (m_create (zone timezone) date).
Definition dateCopier (timezone : option jstring) (date : T) : result T :=
  assert_valid (m_copy (zone timezone) date).

(** ** [LTR_DEFINITIONS] *)

Inductive duration := Daily | Weekly | Monthly | Yearly.

Definition duration_of (name : jstring) : option duration :=
  if bool_decide (name = js "daily") then Some Daily
  else if bool_decide (name = js "weekly") then Some Weekly
  else if bool_decide (name = js "monthly") then Some Monthly
  else if bool_decide (name = js "yearly") then Some Yearly
  else None.

(** [makeDateFormatter({ ...settings, dateCreator })] *)
Definition makeDateFormatter (d : duration) (s : LTRSettings) (timezone : option jstring) (date : T)
    : result jstring :=
  copy ← dateCopier timezone date;
  Ok match d with
     | Daily =>
         m_format (js "YYYY-MM-DD") (m_set_hour (m_hour copy - default 0 (firstHourOfTheDay s)) copy)
     | Weekly =>
         m_format (js "gggg-ww") (m_set_date (m_date copy - default 0 (firstDayOfWeek s)) copy)
     | Monthly =>
         m_format (js "YYYY-MM") (m_set_date (m_date copy - default 0 (firstDayOfMonth s)) copy)
     | Yearly =>
         m_format (js "YYYY") (m_set_date (m_date copy - default 0 (firstDayOfYear s)) copy)
     end.

(** ** [getLtrEntries] *)

Record DateBucket := mkBucket {
  remaining : Z;
  lastMatchingBucket : option jstring;
  formatter : T → result jstring;
  bucketEntries : gmap jstring Entry;
}.

(** The bucket of a duration, when its configuration is right. *)
Definition makeBucket (timezone : option jstring) (config : jstring * LTRConfig)
    : result (jstring * DateBucket) :=
  let '(name, c) := config in
  match duration_of name with
  | None => Throw (AssertionError "Retention is not defined")
  | Some d =>
      js_assert (bool_decide (timezone ≠ None)) "timezone must defined for ltr" ;;
      match retention c with
      | None => Throw (AssertionError "retention must be a number")
      | Some r =>
          js_assert (bool_decide (r > 0)) "retention must be a positive number" ;;
          Ok (name, mkBucket r None (makeDateFormatter d (settings c) timezone) ∅)
      end
  end.

Fixpoint map_result {A B} (f : A → result B) (l : list A) : result (list B) :=
  match l with
  | [] => Ok []
  | x :: l => y ← f x; ys ← map_result f l; Ok (y :: ys)
  end.

(** The body of the loop on the durations. *)
Definition matchBucket (entry : Entry) (entryDate : T) (b : jstring * DateBucket)
    : result (jstring * DateBucket) :=
  let '(name, b) := b in
  bucket ← formatter b entryDate;
  let put b := mkBucket (remaining b) (lastMatchingBucket b) (formatter b)
                 (<[bucket := entry]> (bucketEntries b)) in
  if bool_decide (lastMatchingBucket b ≠ Some bucket) then
    if bool_decide (remaining b = 0) then Ok (name, b)
    else Ok (name, put (mkBucket (remaining b - 1) (Some bucket) (formatter b) (bucketEntries b)))
  else Ok (name, put b).

(** The loop on the entries, from the most recent. *)
Fixpoint entriesLoop (timezone : option jstring) (recent_first : list Entry) (previousTimestamp : Z)
    (dateBuckets : list (jstring * DateBucket)) : result (list (jstring * DateBucket)) :=
  match recent_first with
  | [] => Ok dateBuckets
  | entry :: rest =>
      match e_timestamp entry with
      | None => Throw (AssertionError "Can't compute long term retention if entries don't have a timestamp")
      | Some timestamp =>
          js_assert (bool_decide (previousTimestamp = -1) || bool_decide (timestamp < previousTimestamp))
            "entries must be sorted in desc order" ;;
          entryDate ← dateCreator timezone timestamp;
          dateBuckets ← map_result (matchBucket entry entryDate) dateBuckets;
          entriesLoop timezone rest timestamp dateBuckets
      end
  end.

Definition getLtrEntries (entries : list Entry) (longTermRetention : LongTermRetention)
    (timezone : option jstring) : result (list (jstring * DateBucket)) :=
  match longTermRetention with
  | [] => Ok []
  | _ =>
      dateBuckets ← map_result (makeBucket timezone) longTermRetention;
      entriesLoop timezone (rev entries) (-1) dateBuckets
  end.

(** [getEntryStatus(entries, entry, longTermRetention, timezone)]; the pairs of one
    duration are in the order of the [gmap]. *)
Definition getEntryStatus (entries : list Entry) (entry : Entry) (longTermRetention : LongTermRetention)
    (timezone : option jstring) : result (list (jstring * jstring)) :=
  dateBuckets ← getLtrEntries entries longTermRetention timezone;
  Ok (dateBuckets ≫= λ '(name, b),
        (λ e, (name, e.1)) <$>
          filter (λ e, e_id entry = e_id e.2) (map_to_list (bucketEntries b))).

(** ** [getOldEntries] *)

(** [entries.filter((_, index) => index >= entries.length - minRetentionCount)] *)
Definition most_recent (minRetentionCount : Z) (entries : list Entry) : list Entry :=
  (imap pair entries) ≫= λ '(index, entry),
    if bool_decide (Z.of_nat index >= Z.of_nat (length entries) - minRetentionCount) then [entry] else [].

(** The identities of the entries of the set [kept]. *)
Definition kept (minRetentionCount : Z) (entries : list Entry) (dateBuckets : list (jstring * DateBucket))
    : gset nat :=
  foldl (λ s '(_, b), foldl (λ s e, {[e_ref e.2]} ∪ s) s (map_to_list (bucketEntries b)))
    (list_to_set (e_ref <$> most_recent minRetentionCount entries)) dateBuckets.

(** [minRetentionCount] is [None] when it is not a number. *)
Definition getOldEntries (minRetentionCount : option Z) (entries : list Entry)
    (longTermRetention : LongTermRetention) (timezone : option jstring) : result (list Entry) :=
  match minRetentionCount with
  | None => Throw (AssertionError "minRetentionCount must be a number")
  | Some n =>
      js_assert (bool_decide (n >= 0)) "minRetentionCount must be a positive number" ;;
      dateBuckets ← getLtrEntries entries longTermRetention timezone;
      let kept := kept n entries dateBuckets in
      Ok (filter (λ entry, e_ref entry ∉ kept) entries)
  end.
End retention.
Arguments DateBucket T : clear implicits.

(** ** What is kept *)

Section spec.
Context {T : Type} `{Moment T}.
Context (timezone : option jstring).

Definition value {A} (r : result A) : option A := match r with Ok a => Some a | Throw _ => None end.

Lemma value_Some {A} (r : result A) a : value r = Some a ↔ r = Ok a.
Proof. destruct r; cbn; split; intros; simplify_eq; done. Qed.

(** The bucket of an entry for a duration of the configuration. *)
Definition bucket_of (c : jstring * LTRConfig) (e : Entry) : option jstring :=
  d ← duration_of c.1;
  timestamp ← e_timestamp e;
  date ← value (dateCreator timezone timestamp);
  value (makeDateFormatter d (settings c.2) timezone date).

(** The buckets of entries given from the most recent, each one once as long as
    those of a bucket follow each other. *)
Definition add_key (ks : list jstring) (k : jstring) : list jstring :=
  if bool_decide (last ks = Some k) then ks else ks ++ [k].
Definition bucket_keys (c : jstring * LTRConfig) (es : list Entry) : list jstring :=
  foldl (λ ks e, match bucket_of c e with Some k => add_key ks k | None => ks end) [] es.

(** The oldest entry of a bucket, among entries given from the most recent. *)
Definition oldest (c : jstring * LTRConfig) (k : jstring) (es : list Entry) : option Entry :=
  last (filter (λ e, bucket_of c e = Some k) es).

Lemma bucket_keys_snoc c es e :
  bucket_keys c (es ++ [e]) =
  match bucket_of c e with Some k => add_key (bucket_keys c es) k | None => bucket_keys c es end.
Proof. unfold bucket_keys. by rewrite foldl_app. Qed.

Lemma last_add_key ks k : last (add_key ks k) = Some k.
Proof. unfold add_key. case_bool_decide; [done|]. by rewrite last_snoc. Qed.

Lemma elem_of_add_key ks k x : x ∈ add_key ks k ↔ x ∈ ks ∨ x = k.
Proof.
  unfold add_key. case_bool_decide as E.
  - split; [by left|]. intros [?| ->]; [done|]. apply last_Some_elem_of. done.
  - rewrite elem_of_app, list_elem_of_singleton. done.
Qed.

Lemma elem_of_bucket_keys c es k : k ∈ bucket_keys c es ↔ ∃ e, e ∈ es ∧ bucket_of c e = Some k.
Proof.
  induction es as [|e es IH] using rev_ind.
  - split; [by intros ?%elem_of_nil|]. intros (e & He & _). by apply elem_of_nil in He.
  - rewrite bucket_keys_snoc. destruct (bucket_of c e) as [k'|] eqn:E.
    + rewrite elem_of_add_key, IH. split.
      * intros [(e' & ? & ?)| ->]; [exists e'|exists e]; rewrite elem_of_app, list_elem_of_singleton; tauto.
      * intros (e' & He & Hk). apply elem_of_app in He as [He|He%list_elem_of_singleton].
        -- left. by exists e'.
        -- right. congruence.
    + rewrite IH. split.
      * intros (e' & ? & ?). exists e'. rewrite elem_of_app. tauto.
      * intros (e' & He & Hk). exists e'. split; [|done].
        apply elem_of_app in He as [He|He%list_elem_of_singleton]; [done|congruence].
Qed.

Lemma last_bucket_keys c es e k :
  last es = Some e → bucket_of c e = Some k → last (bucket_keys c es) = Some k.
Proof.
  destruct es as [|x es _] using rev_ind; [done|]. rewrite last_snoc. intros [= ->] Hk.
  rewrite bucket_keys_snoc, Hk. apply last_add_key.
Qed.

Lemma oldest_snoc c k es e :
  oldest c k (es ++ [e]) = if decide (bucket_of c e = Some k) then Some e else oldest c k es.
Proof.
  unfold oldest. rewrite filter_app. destruct (decide (bucket_of c e = Some k)) as [Hk|Hk].
  - rewrite filter_cons_True, filter_nil by done. by rewrite last_snoc.
  - rewrite filter_cons_False, filter_nil by done. by rewrite app_nil_r.
Qed.

(** The state of a bucket after the entries [es]. *)
Record bucket_ok (c : jstring * LTRConfig) (r : Z) (es : list Entry) (b : DateBucket T) : Prop := {
  bo_remaining : remaining b = r - Z.of_nat (length (take (Z.to_nat r) (bucket_keys c es)));
  bo_last : lastMatchingBucket b = last (take (Z.to_nat r) (bucket_keys c es));
  bo_formatter : ∃ d, duration_of c.1 = Some d ∧ formatter b = makeDateFormatter d (settings c.2) timezone;
  bo_entries k : bucketEntries b !! k =
    if decide (k ∈ take (Z.to_nat r) (bucket_keys c es)) then oldest c k es else None;
}.

(** The bucket of a new entry, the oldest so far, is a new one or the last one. *)
Definition in_order (c : jstring * LTRConfig) (es : list Entry) (e : Entry) : Prop :=
  ∀ k, bucket_of c e = Some k → k ∈ bucket_keys c es → last (bucket_keys c es) = Some k.

Lemma take_snoc_same (n : nat) (ks : list jstring) k :
  (n <= length ks)%nat → take n (ks ++ [k]) = take n ks.
Proof. intros. by rewrite take_app_le. Qed.

(** Once there are as many buckets as the retention, a new one is not one of them. *)
Lemma last_not_in_take (n : nat) (ks : list jstring) k :
  (n < length ks)%nat → last ks = Some k → NoDup ks → k ∉ take n ks.
Proof.
  intros Hn Hl Hd E.
  destruct ks as [|x ks _] using rev_ind; [done|]. rewrite last_snoc in Hl. injection Hl as ->.
  rewrite length_app in Hn. cbn in Hn. rewrite take_snoc_same in E by lia.
  apply NoDup_app in Hd as (_ & Hd & _). apply (Hd k); [|by left].
  by eapply elem_of_subseteq, E; apply subseteq_take.
Qed.
Lemma last_take_ne (n : nat) (ks : list jstring) k :
  (n < length ks)%nat → last ks = Some k → NoDup ks → last (take n ks) ≠ Some k.
Proof. intros ??? E%last_Some_elem_of. by eapply last_not_in_take. Qed.

Lemma NoDup_add_key ks k : NoDup ks → (k ∈ ks → last ks = Some k) → NoDup (add_key ks k).
Proof.
  intros Hd Hk. unfold add_key. case_bool_decide; [done|]. apply NoDup_app. split_and!; [done| |].
  - intros x Hx Hx2%list_elem_of_singleton; subst x. auto.
  - apply NoDup_singleton.
Qed.

(** What [matchBucket] does with an entry of the bucket [k]. *)
Definition put_entry (k : jstring) (e : Entry) (b : DateBucket T) : DateBucket T :=
  mkBucket (remaining b) (lastMatchingBucket b) (formatter b) (<[k := e]> (bucketEntries b)).
Definition enter_bucket (k : jstring) (e : Entry) (b : DateBucket T) : DateBucket T :=
  if bool_decide (lastMatchingBucket b ≠ Some k) then
    if bool_decide (remaining b = 0) then b
    else put_entry k e (mkBucket (remaining b - 1) (Some k) (formatter b) (bucketEntries b))
  else put_entry k e b.

Lemma oldest_of_bucket c k es e x :
  bucket_of c e = Some k → oldest c x (es ++ [e]) = if decide (k = x) then Some e else oldest c x es.
Proof. intros Hk. rewrite oldest_snoc, Hk. repeat case_decide; naive_solver. Qed.

(** An entry whose bucket is past the retention changes nothing. *)
Lemma bucket_ok_past c r es b e k :
  bucket_ok c r es b → bucket_of c e = Some k → 
  k ∉ take (Z.to_nat r) (bucket_keys c es) →
  take (Z.to_nat r) (add_key (bucket_keys c es) k) = take (Z.to_nat r) (bucket_keys c es) →
  bucket_ok c r (es ++ [e]) b.
Proof.
  intros [Hrem Hlast Hf Hen] Hk Hin Ht. split; rewrite ?bucket_keys_snoc, ?Hk, ?Ht; try done.
  intros x. rewrite Hen, (oldest_of_bucket c k) by done. case_decide as Hx; [|done].
  rewrite decide_False; [done|]. by intros ->.
Qed.

(** One of a bucket within the retention is put in it. *)
Lemma bucket_ok_put c r es b e k :
  bucket_of c e = Some k → (length (bucket_keys c es) <= Z.to_nat r)%nat →
  bucket_ok c r es b →
  (length (add_key (bucket_keys c es) k) <= Z.to_nat r)%nat →
  ∀ rem last', rem = r - Z.of_nat (length (add_key (bucket_keys c es) k)) → last' = Some k →
  bucket_ok c r (es ++ [e]) (put_entry k e (mkBucket rem last' (formatter b) (bucketEntries b))).
Proof.
  intros Hk Hlen [Hrem Hlast Hf Hen] Hlen' rem last' -> ->.
  split; rewrite ?bucket_keys_snoc, ?Hk, ?take_ge by done.
  - done.
  - cbn [put_entry lastMatchingBucket]. by rewrite last_add_key.
  - done.
  - intros x. cbn [put_entry bucketEntries]. rewrite (oldest_of_bucket c k) by done.
    destruct (decide (k = x)) as [<-|Hx].
    + rewrite lookup_insert_eq, decide_True; [done|]. rewrite elem_of_add_key. by right.
    + rewrite lookup_insert_ne, Hen, take_ge by done.
      apply decide_ext. rewrite elem_of_add_key. naive_solver.
Qed.

Lemma enter_bucket_ok c r es b e k :
  0 < r → bucket_ok c r es b → NoDup (bucket_keys c es) → in_order c es e →
  bucket_of c e = Some k → bucket_ok c r (es ++ [e]) (enter_bucket k e b).
Proof.
  intros Hr Hb Hnd Ho Hk. pose proof Hb as [Hrem Hlast _ _]. specialize (Ho k Hk).
  unfold enter_bucket. rewrite Hlast, Hrem.
  destruct (decide (k ∈ bucket_keys c es)) as [Hin|Hin].
  - (* the bucket of the previous entry *)
    specialize (Ho Hin).
    assert (add_key (bucket_keys c es) k = bucket_keys c es) as Hadd
      by (unfold add_key; by rewrite bool_decide_eq_true_2).
    destruct (decide (Z.to_nat r < length (bucket_keys c es))%nat) as [Hn|Hn].
    + rewrite bool_decide_eq_true_2 by (by apply last_take_ne).
      rewrite bool_decide_eq_true_2 by (rewrite length_take; lia).
      eapply bucket_ok_past; rewrite ?Hadd; eauto. by apply last_not_in_take.
    + rewrite take_ge by lia. rewrite bool_decide_eq_false_2 by (by rewrite Ho; intros []).
      pose proof (bucket_ok_put c r es b e k) as Hp. rewrite Hadd in Hp. destruct b as [rem la f en].
      cbn in Hrem, Hlast. rewrite take_ge in Hrem, Hlast by lia. apply Hp; try done; try lia. congruence.
  - (* a new bucket *)
    assert (add_key (bucket_keys c es) k = bucket_keys c es ++ [k]) as Hadd.
    { unfold add_key. rewrite bool_decide_eq_false_2; [done|]. intros E. apply Hin.
      by apply last_Some_elem_of. }
    assert (k ∉ take (Z.to_nat r) (bucket_keys c es)) as Hin'
      by (intros E; apply Hin; by eapply elem_of_subseteq, E; apply subseteq_take).
    rewrite bool_decide_eq_true_2 by (by intros E%last_Some_elem_of).
    destruct (decide (Z.to_nat r <= length (bucket_keys c es))%nat) as [Hn|Hn].
    + rewrite bool_decide_eq_true_2 by (rewrite length_take; lia).
      eapply bucket_ok_past; rewrite ?Hadd, ?take_snoc_same; eauto.
    + rewrite bool_decide_eq_false_2 by (rewrite length_take; lia).
      eapply bucket_ok_put; rewrite ?Hadd, ?length_app; cbn; try done; try lia.
      rewrite length_take. lia.
Qed.

Lemma matchBucket_ok c r es b e date :
  0 < r → bucket_ok c r es b → NoDup (bucket_keys c es) → in_order c es e →
  (∃ timestamp, e_timestamp e = Some timestamp ∧ dateCreator timezone timestamp = Ok date) →
  is_Some (bucket_of c e) →
  ∃ b', matchBucket e date (c.1, b) = Ok (c.1, b') ∧ bucket_ok c r (es ++ [e]) b'.
Proof.
  intros Hr Hb Hnd Ho (ts & Hts & Hdate) [k Hk]. exists (enter_bucket k e b).
  split; [|by apply enter_bucket_ok]. destruct (bo_formatter _ _ _ _ Hb) as (d & Hd & Hf).
  assert (formatter b date = Ok k) as Hfk.
  { unfold bucket_of in Hk. rewrite Hd, Hts in Hk. cbn in Hk. rewrite Hdate in Hk. cbn in Hk.
    rewrite Hf. by apply value_Some. }
  unfold matchBucket, enter_bucket, put_entry. rewrite Hfk. cbn [mbind result_bind].
  by repeat case_bool_decide.
Qed.

(** The buckets of the whole configuration after the entries [es]. *)
Definition buckets_ok (cfg : LongTermRetention) (es : list Entry) (bs : list (jstring * DateBucket T)) : Prop :=
  Forall2 (λ c b, b.1 = c.1 ∧ ∃ r, retention c.2 = Some r ∧ 0 < r ∧ bucket_ok c r es b.2) cfg bs.

(** A configuration that is accepted. *)
Definition valid_config (c : jstring * LTRConfig) : Prop :=
  is_Some (duration_of c.1) ∧ ∃ r, retention c.2 = Some r ∧ 0 < r.

Lemma makeBuckets_valid cfg bs :
  map_result (makeBucket timezone) cfg = Ok bs →
  Forall valid_config cfg ∧ (cfg ≠ [] → timezone ≠ None).
Proof.
  revert bs. induction cfg as [|[name c] cfg IH]; intros bs Hb; [by split|].
  cbn [map_result makeBucket] in Hb. destruct (duration_of name) as [d|] eqn:Hd; [|done].
  destruct (bool_decide (timezone ≠ None)) eqn:Htz; [|done]. apply bool_decide_eq_true_1 in Htz.
  cbn [js_assert mbind result_bind] in Hb. destruct (retention c) as [r|] eqn:Hr; [|done].
  destruct (bool_decide (r > 0)) eqn:Hpos; [|done]. apply bool_decide_eq_true_1 in Hpos.
  cbn [js_assert mbind result_bind] in Hb.
  destruct (map_result (makeBucket timezone) cfg) as [bs'|] eqn:Hb'; [|done].
  split; [|done]. constructor; [|by eapply IH]. split; [by exists d|]. exists r. split; [done|lia].
Qed.

Lemma makeBuckets_ok cfg :
  Forall valid_config cfg → timezone ≠ None →
  ∃ bs, map_result (makeBucket timezone) cfg = Ok bs ∧ buckets_ok cfg [] bs.
Proof.
  intros Hc Htz. induction Hc as [|[name c] cfg [[d Hd] (r & Hr & Hpos)] _ (bs & Hbs & IH)].
  { exists []. by split; [|constructor]. }
  cbn in Hd, Hr. cbn [map_result makeBucket]. rewrite Hd. pass_assert. rewrite Hr. pass_assert.
  cbn [mbind result_bind]. rewrite Hbs. eexists. split; [done|]. constructor; [|done].
  split; [done|]. exists r. split_and!; [done..|]. split; unfold bucket_keys; cbn [foldl]; rewrite ?take_nil; try done.
  - cbn. lia.
  - by exists d.
Qed.

Lemma matchBuckets_ok cfg es bs e ts date :
  buckets_ok cfg es bs →
  (∀ c, c ∈ cfg → NoDup (bucket_keys c es) ∧ in_order c es e ∧ is_Some (bucket_of c e)) →
  e_timestamp e = Some ts → dateCreator timezone ts = Ok date →
  ∃ bs', map_result (matchBucket e date) bs = Ok bs' ∧ buckets_ok cfg (es ++ [e]) bs'.
Proof.
  intros Hb Hc Hts Hd. induction Hb as [|c [name b] cfg bs (Hn & r & Hr & Hpos & Hb) _ IH].
  { exists []. by split; [|constructor]. }
  cbn in Hn. subst name. destruct IH as (bs' & Hbs' & IH); [intros; apply Hc; by right|].
  destruct (Hc c) as (Hnd & Ho & Hk); [by left|].
  destruct (matchBucket_ok c r es b e date) as (b' & Hb' & Hok); eauto.
  cbn [map_result]. rewrite Hb'. cbn [mbind result_bind]. rewrite Hbs'. eexists. split; [done|].
  constructor; [|done]. split; [done|]. by exists r.
Qed.

(** The timestamps, from the most recent entry. *)
Definition recent_first (es : list Entry) : Prop :=
  StronglySorted (λ e e', ∃ t t', e_timestamp e = Some t ∧ e_timestamp e' = Some t' ∧ t' < t) es.

(** The entries of a bucket follow each other. *)
Definition intervals (c : jstring * LTRConfig) (es : list Entry) : Prop :=
  ∀ l1 e1 l2 e2 l3 e3 l4 k, es = l1 ++ e1 :: l2 ++ e2 :: l3 ++ e3 :: l4 →
  bucket_of c e1 = Some k → bucket_of c e3 = Some k → bucket_of c e2 = Some k.

Lemma in_order_of_intervals c es e rest :
  intervals c (es ++ e :: rest) → in_order c es e.
Proof.
  intros Hi k Hk Hin. destruct es as [|y es _] using rev_ind; [by apply elem_of_nil in Hin|].
  apply (last_bucket_keys c _ y); [by rewrite last_snoc|].
  apply elem_of_bucket_keys in Hin as (x & [Hx|Hx%list_elem_of_singleton]%elem_of_app & Hxk); [|congruence].
  apply list_elem_of_split in Hx as (l1 & l2 & ->).
  apply (Hi l1 x l2 y [] e rest); [|done..]. by rewrite <-!app_assoc.
Qed.

Lemma NoDup_bucket_keys c es rest : intervals c (es ++ rest) → NoDup (bucket_keys c es).
Proof.
  revert rest. induction es as [|e es IH] using rev_ind; intros rest Hi; [constructor|].
  rewrite <-app_assoc in Hi. pose proof (in_order_of_intervals c es e rest Hi) as Ho.
  rewrite bucket_keys_snoc. destruct (bucket_of c e) as [k|] eqn:Hk; [|by eapply IH].
  apply NoDup_add_key; [by eapply IH|]. by apply Ho.
Qed.

Lemma entriesLoop_ok cfg es rest previous bs :
  (∀ c, c ∈ cfg → intervals c (es ++ rest)) →
  (∀ c e, c ∈ cfg → e ∈ rest → is_Some (bucket_of c e)) →
  (∀ e, e ∈ rest → ∃ t date, e_timestamp e = Some t ∧ dateCreator timezone t = Ok date) →
  recent_first rest →
  (∀ e t, head rest = Some e → e_timestamp e = Some t → previous = -1 ∨ t < previous) →
  buckets_ok cfg es bs →
  ∃ bs', entriesLoop timezone rest previous bs = Ok bs' ∧ buckets_ok cfg (es ++ rest) bs'.
Proof.
  revert es previous bs. induction rest as [|e rest IH]; intros es previous bs Hi Hk Hd Hs Hp Hb.
  { exists bs. by rewrite app_nil_r. }
  destruct (Hd e) as (t & date & Ht & Hdate); [by left|].
  cbn [entriesLoop]. rewrite Ht. rewrite js_assert_bind.
  2:{ destruct (Hp e t); [done..| |]; apply orb_true_iff; [left|right]; by apply bool_decide_eq_true_2. }
  rewrite Hdate. cbn [mbind result_bind].
  destruct (matchBuckets_ok cfg es bs e t date) as (bs' & Hbs' & Hok); [done| |done..|].
  { intros c Hc. split_and!; [by eapply NoDup_bucket_keys, Hi|by eapply in_order_of_intervals, Hi|].
    apply Hk; [done|by left]. }
  cbn [mbind result_bind] in *. rewrite Hbs'. rewrite cons_middle, app_assoc in Hi |- *.
  apply StronglySorted_inv in Hs as [Hs Hall].
  apply IH; try done.
  - intros c e' Hc He'. apply Hk; [done|by right].
  - intros e' He'. apply Hd. by right.
  - intros e' t' He' Ht'. right. rewrite Forall_forall in Hall.
    destruct (Hall e') as (t1 & t2 & ?); [by apply head_Some_elem_of|]. naive_solver.
Qed.
End spec.

(** ** The entries that are kept *)

Lemma most_recent_from (m : Z) (f : nat → Entry → nat * Entry) (k : nat) (l : list Entry) :
  (∀ i e, f i e = ((k + i)%nat, e)) →
  (imap f l ≫= λ '(i, e), if bool_decide (Z.of_nat i >= m) then [e] else []) =
  drop (Z.to_nat (m - Z.of_nat k)) l.
Proof.
  revert f k. induction l as [|x l IH]; intros f k Hf; [by rewrite drop_nil|].
  rewrite imap_cons, bind_cons, Hf, (IH (f ∘ S) (S k)).
  2:{ intros i e. cbn. rewrite Hf. f_equal. lia. }
  rewrite Nat.add_0_r. case_bool_decide.
  - by rewrite !Z2Nat.nonpos by lia.
  - replace (Z.to_nat (m - Z.of_nat k)) with (S (Z.to_nat (m - Z.of_nat (S k)))) by lia. done.
Qed.

(** The entries of [most_recent] are those at the end. *)
Lemma most_recent_drop n entries :
  most_recent n entries = drop (Z.to_nat (Z.of_nat (length entries) - n)) entries.
Proof.
  unfold most_recent. rewrite (most_recent_from _ pair 0) by done. f_equal. lia.
Qed.

Lemma elem_of_kept_fold (l : list (jstring * Entry)) (s : gset nat) x :
  x ∈ foldl (λ s e, {[e_ref e.2]} ∪ s) s l ↔ x ∈ s ∨ ∃ e, e ∈ l ∧ e_ref e.2 = x.
Proof.
  revert s. induction l as [|e l IH]; intros s; cbn [foldl].
  { split; [by left|]. intros [|(? & []%elem_of_nil & _)]; done. }
  rewrite IH. set_solver.
Qed.

Lemma elem_of_kept {T} (n : Z) entries (bs : list (jstring * DateBucket T)) x :
  x ∈ kept n entries bs ↔
  (∃ e, e ∈ most_recent n entries ∧ e_ref e = x) ∨
  (∃ b k e, b ∈ bs ∧ bucketEntries b.2 !! k = Some e ∧ e_ref e = x).
Proof.
  unfold kept. revert x. induction bs as [|[name b] bs IH] using rev_ind; intros x.
  - cbn [foldl]. rewrite elem_of_list_to_set, list_elem_of_fmap. set_solver.
  - rewrite foldl_app. cbn [foldl]. rewrite elem_of_kept_fold, IH. split.
    + intros [[?|(b' & k & e & ? & ?)]|([k e] & He & <-)]; [by left| |].
      * right. exists b', k, e. rewrite elem_of_app. tauto.
      * right. exists (name, b), k, e. rewrite elem_of_app, list_elem_of_singleton.
        apply elem_of_map_to_list in He. tauto.
    + intros [?|(b' & k & e & [Hb|Hb%list_elem_of_singleton]%elem_of_app & He & <-)].
      * by left; left.
      * left; right. by exists b', k, e.
      * right. subst b'. exists (k, e). by rewrite elem_of_map_to_list.
Qed.

Section correct.
Context {T : Type} `{Moment T}.
Context (timezone : option jstring).

(** What [kept] should be: the [n] most recent entries, and for each duration, the
    oldest entry of each of the buckets of its retention. *)
Definition protected (n : Z) (cfg : LongTermRetention) (entries : list Entry) (e : Entry) : Prop :=
  e ∈ drop (Z.to_nat (Z.of_nat (length entries) - n)) entries ∨
  ∃ c r k, c ∈ cfg ∧ retention c.2 = Some r ∧
    k ∈ take (Z.to_nat r) (bucket_keys timezone c (rev entries)) ∧
    oldest timezone c k (rev entries) = Some e.

Lemma elem_of_oldest c k es e : oldest timezone c k es = Some e → e ∈ es.
Proof. intros He%last_Some_elem_of. by apply list_elem_of_filter in He as [_ He]. Qed.

Lemma in_rev_entries (e : Entry) es : e ∈ rev es → e ∈ es.
Proof. rewrite !list_elem_of_In. apply in_rev. Qed.

Lemma oldest_of_key c k es :
  k ∈ bucket_keys timezone c es → is_Some (oldest timezone c k es).
Proof.
  intros (e & He & Hk)%elem_of_bucket_keys. unfold oldest.
  destruct (last _) eqn:E; [by eexists|]. apply last_None in E.
  assert (e ∈ filter (λ e, bucket_of timezone c e = Some k) es) as Hin by (by apply list_elem_of_filter).
  rewrite E in Hin. by apply elem_of_nil in Hin.
Qed.

(** A set of buckets in the state that the specification describes holds the
    protected entries. *)
Lemma kept_protected n cfg entries bs e :
  NoDup (e_ref <$> entries) → e ∈ entries →
  buckets_ok timezone cfg (rev entries) bs →
  e_ref e ∈ kept n entries bs ↔ protected n cfg entries e.
Proof.
  intros Hnd He Hb. rewrite elem_of_kept, most_recent_drop. unfold protected.
  assert (∀ e', e' ∈ entries → e_ref e' = e_ref e → e' = e) as Hinj.
  { intros e' (i & Hi)%list_elem_of_lookup Hr. apply list_elem_of_lookup in He as (j & Hj).
    assert (i = j) as ->; [|congruence].
    eapply (NoDup_lookup _ i j (e_ref e)); [done| |]; rewrite list_lookup_fmap; [rewrite Hi|rewrite Hj];
      cbn; congruence. }
  split.
  - intros [(e' & He' & Hr)|([name b] & k & e' & Hin & He' & Hr)].
    + left. rewrite <-(Hinj e'); [done| |done]. by eapply elem_of_subseteq, He'; apply subseteq_drop.
    + right. eapply list_elem_of_lookup in Hin as (i & Hi).
      eapply Forall2_lookup_r in Hb as (c & Hc & _ & r & Hr' & _ & Hok); [|done].
      cbn in He', Hok. rewrite (bo_entries _ _ _ _ _ Hok) in He'. case_decide as Hk; [|done].
      exists c, r, k. split_and!; [by eapply list_elem_of_lookup_2|done..|].
      rewrite <-(Hinj e'); [done| |done]. apply elem_of_oldest in He'. by apply in_rev_entries.
  - intros [?|(c & r & k & Hc & Hr & Hk & He')]; [left; by exists e|right].
    apply list_elem_of_lookup in Hc as (i & Hi).
    eapply Forall2_lookup_l in Hb as (b & Hb & _ & r' & Hr' & _ & Hok); [|done].
    exists b, k, e. split_and!; [by eapply list_elem_of_lookup_2| |done].
    rewrite (bo_entries _ _ _ _ _ Hok), decide_True by congruence. done.
Qed.

Lemma getLtrEntries_ok entries cfg :
  Forall valid_config cfg → timezone ≠ None →
  recent_first (rev entries) →
  (∀ c, c ∈ cfg → intervals timezone c (rev entries)) →
  (∀ c e, c ∈ cfg → e ∈ entries → is_Some (bucket_of timezone c e)) →
  ∃ bs, getLtrEntries entries cfg timezone = Ok bs ∧ buckets_ok timezone cfg (rev entries) bs.
Proof.
  intros Hc Htz Hs Hi Hk. unfold getLtrEntries.
  assert (cfg = [] ∨ ∃ c0, c0 ∈ cfg) as [->|[c0 Hc0]]
    by (destruct cfg as [|c0 cfg]; [by left|right; exists c0; by left]).
  { by exists []; split; [|constructor]. }
  assert (∀ (B : Type) (x y : B), match cfg with [] => x | _ => y end = y) as -> by (by destruct cfg; [apply elem_of_nil in Hc0|]).
  destruct (makeBuckets_ok timezone cfg) as (bs & -> & Hb); [done..|]. cbn [mbind result_bind].
  apply (entriesLoop_ok timezone cfg []); try done.
  - intros c e Hin He%in_rev_entries. by apply Hk.
  - intros e He%in_rev_entries. destruct (Hk c0 e) as [k Hk']; [done..|].
    unfold bucket_of in Hk'. destruct (duration_of c0.1); [|done]. cbn in Hk'.
    destruct (e_timestamp e) as [t|]; [|done]. cbn in Hk'.
    destruct (dateCreator timezone t) as [date|] eqn:Hdate; [|done]. exists t, date. by split.
  - intros e t _ _. by left.
Qed.

(** C36: For entries whose timestamps ascend strictly, a valid configuration, and
    buckets that are intervals of time, [getOldEntries] returns, in their order, the
    entries that are neither among the [n] most recent ones nor the oldest one of a
    bucket among the most recent buckets of a duration, as many as its retention
    (empty buckets do not count). *)
Theorem getOldEntries_correct n entries cfg :
  0 <= n → NoDup (e_ref <$> entries) →
  Forall valid_config cfg → timezone ≠ None →
  recent_first (rev entries) →
  (∀ c, c ∈ cfg → intervals timezone c (rev entries)) →
  (∀ c e, c ∈ cfg → e ∈ entries → is_Some (bucket_of timezone c e)) →
  ∃ old, getOldEntries (Some n) entries cfg timezone = Ok old ∧
    old `sublist_of` entries ∧
    ∀ e, e ∈ old ↔ e ∈ entries ∧ ¬ protected n cfg entries e.
Proof.
  intros Hn Hnd Hc Htz Hs Hi Hk. unfold getOldEntries. pass_assert.
  destruct (getLtrEntries_ok entries cfg) as (bs & -> & Hb); [done..|]. cbn [mbind result_bind].
  eexists. split; [done|]. split; [apply sublist_filter|].
  intros e. rewrite list_elem_of_filter. split.
  - intros [He Hin]. by rewrite kept_protected in He.
  - intros [Hin He]. by rewrite kept_protected.
Qed.

Lemma entriesLoop_sorted rest previous bs bs' :
  entriesLoop timezone rest previous bs = Ok bs' →
  (∀ e, e ∈ rest → e_timestamp e ≠ Some (-1)) →
  recent_first rest ∧
  (previous ≠ -1 → ∀ e, e ∈ rest → ∃ t, e_timestamp e = Some t ∧ t < previous).
Proof.
  revert previous bs. induction rest as [|e rest IH]; intros previous bs Hl Hm.
  { split; [constructor|]. intros _ e []%elem_of_nil. }
  cbn [entriesLoop] in Hl. destruct (e_timestamp e) as [t|] eqn:Ht; [|done].
  destruct (bool_decide (previous = -1) || bool_decide (t < previous)) eqn:Hp; [|done].
  cbn [js_assert mbind result_bind] in Hl.
  destruct (dateCreator timezone t) as [date|]; [|done]. cbn [mbind result_bind] in Hl.
  destruct (map_result _ bs) as [bs2|]; [|done]. cbn [mbind result_bind] in Hl.
  destruct (IH t bs2) as [Hs Hlt]; [done|intros; apply Hm; by right|].
  assert (t ≠ -1) as Ht' by (intros ->; apply (Hm e); [by left|done]).
  specialize (Hlt Ht'). split.
  - constructor; [done|]. apply Forall_forall. intros e' He'. destruct (Hlt e' He') as (t' & ? & ?). eauto.
  - intros Hne x [->|Hx]%elem_of_cons.
    + exists t. split; [done|]. apply orb_true_iff in Hp as [Hp|Hp]; by apply bool_decide_eq_true_1 in Hp.
    + destruct (Hlt x Hx) as (t' & Ht2 & ?). exists t'. split; [done|].
      apply orb_true_iff in Hp as [Hp|Hp]; apply bool_decide_eq_true_1 in Hp; [done|lia].
Qed.

(** With a long-term retention, entries that do not all have a timestamp, or whose
    timestamps do not ascend strictly, are refused: nothing is deleted. *)
Theorem getOldEntries_refuses_unsorted n entries cfg old :
  getOldEntries (Some n) entries cfg timezone = Ok old → cfg ≠ [] →
  (∀ e, e ∈ entries → e_timestamp e ≠ Some (-1)) →
  recent_first (rev entries) ∧ 0 <= n ∧ Forall valid_config cfg ∧ timezone ≠ None.
Proof.
  unfold getOldEntries, getLtrEntries. intros Hg Hne Hm.
  destruct (bool_decide (n >= 0)) eqn:Hn; [|done]. apply bool_decide_eq_true_1 in Hn.
  cbn [js_assert mbind result_bind] in Hg.
  destruct cfg as [|c0 cfg'] eqn:E; [done|]. rewrite <-E in *.
  destruct (map_result (makeBucket timezone) cfg) as [bs|] eqn:Hb; [|done]. cbn [mbind result_bind] in Hg.
  destruct (entriesLoop _ _ _ bs) as [bs'|] eqn:Hl; [|done]. 
  split_and!; [|lia| |].
  - eapply entriesLoop_sorted; [done|]. intros e He%in_rev_entries. by apply Hm.
  - by eapply makeBuckets_valid.
  - eapply makeBuckets_valid; [done|]. by rewrite E.
Qed.
End correct.

(** ** Example: calendar days of 24 hours *)

Definition hour_ms : Z := 3600000.
#[local] Instance plain_days : Moment Z := {
  m_create _ t := t;
  m_copy _ t := t;
  m_isValid t := bool_decide (0 <= t);
  m_hour t := (t / hour_ms) mod 24;
  m_set_hour h t := t + (h - (t / hour_ms) mod 24) * hour_ms;
  m_date t := t / (24 * hour_ms);
  m_set_date d t := d * (24 * hour_ms) + t mod (24 * hour_ms);
  m_format _ t := js (pretty (t / (24 * hour_ms)));
}.

(** The keys of a list whose equal ones follow each other. *)
Fixpoint runs (ks : list (option jstring)) : bool :=
  match ks with
  | [] => true
  | k :: ks => (bool_decide (k ∉ ks) || bool_decide (head ks = Some k)) && runs ks
  end.

Lemma runs_intervals {T} `{Moment T} tz c es :
  runs (bucket_of tz c <$> es) = true → intervals tz c es.
Proof.
  induction es as [|e es IH]; intros Hr l1 e1 l2 e2 l3 e3 l4 k He H1 H3; [by destruct l1|].
  cbn [fmap list_fmap runs] in Hr. apply andb_true_iff in Hr as [Hk Hr]. specialize (IH Hr).
  destruct l1 as [|x l1]; injection He as -> ->; [|by eapply IH].
  apply orb_true_iff in Hk as [Hk|Hk]; apply bool_decide_eq_true_1 in Hk.
  - destruct Hk. rewrite H1, <-H3. apply list_elem_of_fmap. exists e3. split; [done|].
    rewrite !elem_of_app, elem_of_cons, elem_of_app, elem_of_cons. tauto.
  - destruct l2 as [|x l2]; cbn in Hk; [congruence|]. 
    eapply (IH [] x l2 e2 l3 e3 l4); [done|congruence|done].
Qed.

Definition sample_entry (ref : nat) (hours : Z) : Entry :=
  mkEntry ref (js (pretty hours)) (Some (hours * hour_ms)).
Definition sample_entries : list Entry :=
  [sample_entry 0 1; sample_entry 1 30; sample_entry 2 31; sample_entry 3 60].
Definition sample_config : LongTermRetention := [(js "daily", mkLTRConfig (Some 2) no_settings)].

Lemma getOldEntries_correct_witness :
  getOldEntries (Some 1) sample_entries sample_config (Some (js "utc")) =
    Ok [sample_entry 0 1; sample_entry 2 31] ∧
  ∃ old, getOldEntries (Some 1) sample_entries sample_config (Some (js "utc")) = Ok old ∧
    old `sublist_of` sample_entries ∧
    ∀ e, e ∈ old ↔ e ∈ sample_entries ∧ ¬ protected (Some (js "utc")) 1 sample_config sample_entries e.
Proof.
  split; [vm_compute; reflexivity|].
  apply (getOldEntries_correct (Some (js "utc")) 1 sample_entries sample_config).
  - lia.
  - apply (bool_decide_unpack _). vm_compute. exact I.
  - constructor; [|constructor]. split; [by eexists|]. exists 2. split; [done|lia].
  - done.
  - unfold recent_first. repeat (constructor; [|repeat constructor; do 2 eexists; split_and!; try reflexivity; lia]).
    constructor.
  - intros c ->%list_elem_of_singleton. apply runs_intervals. vm_compute. reflexivity.
  - intros c e ->%list_elem_of_singleton He. revert e He. apply Forall_forall.
    repeat (constructor; [eexists; vm_compute; reflexivity|]). constructor.
Defined.

Lemma getOldEntries_refuses_unsorted_witness :
  recent_first (rev sample_entries) ∧ 0 <= 1 ∧ Forall valid_config sample_config ∧ Some (js "utc") ≠ None.
Proof.
  apply (getOldEntries_refuses_unsorted (Some (js "utc")) 1 sample_entries sample_config
           [sample_entry 0 1; sample_entry 2 31]).
  - vm_compute. reflexivity.
  - done.
  - apply Forall_forall. repeat (constructor; [done|]). constructor.
Defined.

(** The other order is refused. *)
Example descending_entries :
  is_ok (getOldEntries (Some 1) (rev sample_entries) sample_config (Some (js "utc"))) = false.
Proof. vm_compute. reflexivity. Qed.
