(* ===== verification/AclResolver.v ===== *)
(** * Who can do what on which object

    packages/xo-acl-resolver/index.js: whether the permissions that a user has on some
    objects give a permission on another one, which is checked by following the
    references between objects.

    An object of the server has an id, a type and members that are absent, an id or a
    list of ids, as packages/xo-server/src/xapi-object-to-xo.mjs makes them.
    The conditions of the code, which return the value that made them true, are
    booleans.  [getObject], given by the caller, may throw.

    [granted] says which permissions should be given, without an order nor an end;
    [checkAuthorization_decides] shows that the code decides it when the references
    go down a rank, and [type_rank] is such a rank for the objects of a pool.  The
    stack is the fuel: a cycle of references overflows it. *)

From S2P Require Import Prelude JsValues.

Local Open Scope Z_scope.

(** ** Objects and permissions *)

(** What a member of an object may be. *)
Inductive field :=
  | Id (id : jstring)
  | Ids (ids : list jstring).
(** [None] is [undefined]. *)
Definition ref := option field.

#[export] Instance field_eq_dec : EqDecision field.
Proof. solve_decision. Defined.

Record XoObject := mkObject { id : jstring; type : jstring; members : gmap jstring field }.

Definition member (object : XoObject) (memberName : string) : ref := members object !! js memberName.
Arguments member : simpl never.

(** The objects without prototype that [getPermissionsForUser] makes: by id and by
    permission. *)
Definition Permissions := gmap jstring (gmap jstring jsval).

Definition GetObject := ref → result (option XoObject).

(** The global variables, [null] between two calls. *)
Record Globals := mkGlobals {
  permissionsByObject : option Permissions;
  getObject : option GetObject;
}.
Definition no_globals : Globals := mkGlobals None None.

(** [xo-common/api-errors] *)
Definition ref_data (r : ref) : list jstring :=
  match r with Some (Id i) => [i] | Some (Ids l) => l | None => [] end.
Definition unauthorized (permission : jstring) (objectId : ref) : error :=
  XoError 2 (permission :: ref_data objectId).
Definition unauthorized_is (e : error) : bool :=
  match e with XoError code _ => bool_decide (code = 2) | _ => false end.
Definition noSuchObject (key : ref) : error := XoError 1 (ref_data key).

(** ** The checks *)

Definition checker := XoObject → jstring → result bool.

(** [or(...checkers)] *)
Fixpoint or_ (checkers : list checker) : checker := fun object permission =>
  match checkers with
  | [] => Ok false
  | c :: checkers =>
      b ← c object permission;
      if (b : bool) then Ok true else or_ checkers object permission
  end.

(** [members.every(...)] *)
Fixpoint every {A} (f : A → result bool) (l : list A) : result bool :=
  match l with
  | [] => Ok true
  | x :: l => b ← f x; if (b : bool) then every f l else Ok false
  end.

(** [for (const x of value)]: an id is a string, whose characters are iterated. *)
Definition iterate (r : ref) : result (list ref) :=
  match r with
  | Some (Ids ids) => Ok (Some ∘ Id <$> ids)
  | Some (Id s) => Ok ((λ c, Some (Id [c])) <$> s)
  | None => Throw (TypeError "undefined is not iterable")
  end.

Section checks.
Context (g : Globals).

(** The checks of an object call the authorization of another one, [auth]. *)
Context (auth : ref → jstring → result bool).

Definition get_object (objectId : ref) : result (option XoObject) :=
  match getObject g with
  | Some getObject => getObject objectId
  | None => Throw (TypeError "getObject is not a function")
  end.

Definition checkMember (memberName : string) : checker := fun object permission =>
  let m := member object memberName in
  if bool_decide (m ≠ Some (Id (id object))) then auth m permission else Ok false.

Definition checkMembers (memberName : string) : checker := fun object permission =>
  match member object memberName with
  | None => Throw (TypeError "Cannot read properties of undefined (reading 'length')")
  | Some (Id []) => Ok false
  | Some (Id _) => Throw (TypeError "members.every is not a function")
  | Some (Ids members) =>
      if bool_decide (0 < length members)%nat
      then every (λ m, auth (Some (Id m)) permission) members
      else Ok false
  end.

Definition checkSelf : checker := fun object permission =>
  match permissionsByObject g with
  | None => Throw (TypeError "Cannot read properties of null")
  | Some permissionsByObject =>
      Ok match permissionsByObject !! id object with
         | Some permissionsForObject => truthy (default VUndefined (permissionsForObject !! permission))
         | None => false
         end
  end.

Fixpoint checkVbds (vbds : list ref) (permission : jstring) : result bool :=
  match vbds with
  | [] => Ok false
  | vbdId :: vbds =>
      vbd ← get_object vbdId;
      match vbd with
      | None => checkVbds vbds permission
      | Some vbd =>
          b ← auth (member vbd "VM") permission;
          if (b : bool) then Ok true else checkVbds vbds permission
      end
  end.

Definition checkVdi : checker := fun vdi permission =>
  b ← auth (member vdi "$SR") permission;
  if (b : bool) then Ok true
  else
    vbds ← iterate (member vdi "$VBDs");
    checkVbds vbds permission.

Definition checkAuthorizationByTypes : list (jstring * checker) := [
  (js "host", or_ [checkSelf; checkMember "$pool"]);
  (js "message", checkMember "$object");
  (js "network", or_ [checkSelf; checkMember "$pool"]);
  (js "PBD", or_ [checkMember "host"; checkMember "SR"]);
  (js "PCI", checkMember "$host");
  (js "PIF", checkMember "$host");
  (js "PUSB", checkMember "host");
  (js "SR", or_ [checkSelf; checkMember "$container"]);
  (js "task", checkMember "$host");
  (js "USB_group", checkMembers "PUSBs");
  (js "VBD", checkMember "VDI");
  (js "VDI", checkVdi);
  (js "VDI-snapshot", checkMember "$snapshot_of");
  (js "VDI-unmanaged", checkVdi);
  (js "VIF", or_ [checkMember "$network"; checkMember "$VM"]);
  (js "VM", or_ [checkSelf; checkMember "$container"]);
  (js "VM-controller", checkMember "$container");
  (js "VM-snapshot", or_ [checkSelf; checkMember "$snapshot_of"]);
  (js "VM-template", or_ [checkSelf; checkMember "$pool"]);
  (js "VUSB", checkMember "vm")
].

Definition checker_of (t : jstring) : checker := default checkSelf (assoc t checkAuthorizationByTypes).

Definition checkObject (objectId : ref) (permission : jstring) : result bool :=
  object ← get_object objectId;
  match object with
  | None => Ok false
  | Some object => checker_of (type object) object permission
  end.
End checks.

(** [checkAuthorization(objectId, permission)], with the room left on the stack. *)
Fixpoint checkAuthorization (stack : nat) (g : Globals) (objectId : ref) (permission : jstring)
    : result bool :=
  match stack with
  | O => Throw (RangeError "Maximum call stack size exceeded")
  | S stack => checkObject g (checkAuthorization stack g) objectId permission
  end.

(** ** The functions of the module *)

(** [(permissions)] is a list of pairs, or [(permissions, permission)] a single one. *)
Inductive asked :=
  | Pairs (permissions : list (ref * jstring))
  | One (objectId : ref) (permission : jstring).

Definition throw {S A} (e : error) : M S A := lift (Throw e).

(** [try { body } finally { end }] *)
Definition finally {S A} (body : M S A) (end_ : S → S) : M S A := fun s =>
  let '(r, s) := body s in (r, end_ s).

Section module.
Context (stack : nat).

Definition authorize (objectId : ref) (permission : jstring) : M Globals bool := fun g =>
  (checkAuthorization stack g objectId permission, g).

Definition assert_one (objectId : ref) (permission : jstring) : M Globals unit :=
  b ← authorize objectId permission;
  if (b : bool) then mret tt else throw (unauthorized permission objectId).

Definition assertPermissions (permissionsByObject_ : Permissions) (getObject_ : GetObject) (permissions : asked)
    : M Globals bool :=
  modify (λ _, mkGlobals (Some permissionsByObject_) (Some getObject_)) ;;
  finally (match permissions with
           | One objectId permission => assert_one objectId permission
           | Pairs permissions => for_each permissions (λ '(objectId, permission), assert_one objectId permission)
           end ;; mret true)
          (λ _, no_globals).

Definition checkPermissions (permissionsByObject_ : Permissions) (getObject_ : GetObject) (permissions : asked)
    : M Globals bool := fun g =>
  match assertPermissions permissionsByObject_ getObject_ permissions g with
  | (Ok _, g) => (Ok true, g)
  | (Throw error, g) => (if unauthorized_is error then Ok false else Throw error, g)
  end.

Definition testPermission (permissionsByObject_ : Permissions) (getObject_ : GetObject) (objectId : ref)
    (permission : jstring) : M Globals bool :=
  modify (λ _, mkGlobals (Some permissionsByObject_) (Some getObject_)) ;;
  finally (authorize objectId permission) (λ _, no_globals).
End module.

(** ** Specification *)

(** The ways to get a permission on an object. *)
Inductive rule :=
  | Self
  | Member (memberName : string)
  | Members (memberName : string)
  | Vdi.

Definition types : list (jstring * list rule) := [
  (js "host", [Self; Member "$pool"]);
  (js "message", [Member "$object"]);
  (js "network", [Self; Member "$pool"]);
  (js "PBD", [Member "host"; Member "SR"]);
  (js "PCI", [Member "$host"]);
  (js "PIF", [Member "$host"]);
  (js "PUSB", [Member "host"]);
  (js "SR", [Self; Member "$container"]);
  (js "task", [Member "$host"]);
  (js "USB_group", [Members "PUSBs"]);
  (js "VBD", [Member "VDI"]);
  (js "VDI", [Vdi]);
  (js "VDI-snapshot", [Member "$snapshot_of"]);
  (js "VDI-unmanaged", [Vdi]);
  (js "VIF", [Member "$network"; Member "$VM"]);
  (js "VM", [Self; Member "$container"]);
  (js "VM-controller", [Member "$container"]);
  (js "VM-snapshot", [Self; Member "$snapshot_of"]);
  (js "VM-template", [Self; Member "$pool"]);
  (js "VUSB", [Member "vm"])
].

Definition rules (t : jstring) : list rule := default [Self] (assoc t types).

Definition has_permission (P : Permissions) (i p : jstring) : bool :=
  match P !! i with
  | Some permissions => truthy (default VUndefined (permissions !! p))
  | None => false
  end.

(** The permissions given by [P] through the objects of [G]. *)
Inductive granted (P : Permissions) (G : GetObject) : ref → jstring → Prop :=
  | granted_self i o p :
      G i = Ok (Some o) → Self ∈ rules (type o) → has_permission P (id o) p = true →
      granted P G i p
  | granted_member i o m p :
      G i = Ok (Some o) → Member m ∈ rules (type o) → member o m ≠ Some (Id (id o)) →
      granted P G (member o m) p → granted P G i p
  | granted_members i o m l p :
      G i = Ok (Some o) → Members m ∈ rules (type o) → member o m = Some (Ids l) → l ≠ [] →
      (∀ x, x ∈ l → granted P G (Some (Id x)) p) → granted P G i p
  | granted_sr i o p :
      G i = Ok (Some o) → Vdi ∈ rules (type o) → granted P G (member o "$SR") p → granted P G i p
  | granted_vm i o l vbd v p :
      G i = Ok (Some o) → Vdi ∈ rules (type o) → iterate (member o "$VBDs") = Ok l →
      vbd ∈ l → G vbd = Ok (Some v) → granted P G (member v "VM") p → granted P G i p.

(** What a rule asks for, where [X] are the permissions on the other objects. *)
Definition holds (P : Permissions) (G : GetObject) (X : ref → jstring → Prop) (o : XoObject) (p : jstring)
    (r : rule) : Prop :=
  match r with
  | Self => has_permission P (id o) p = true
  | Member m => member o m ≠ Some (Id (id o)) ∧ X (member o m) p
  | Members m => ∃ l, member o m = Some (Ids l) ∧ l ≠ [] ∧ ∀ x, x ∈ l → X (Some (Id x)) p
  | Vdi => X (member o "$SR") p ∨
      ∃ l vbd v, iterate (member o "$VBDs") = Ok l ∧ vbd ∈ l ∧ G vbd = Ok (Some v) ∧ X (member v "VM") p
  end.

Lemma granted_rule P G i p :
  granted P G i p ↔
  ∃ o r, G i = Ok (Some o) ∧ r ∈ rules (type o) ∧ holds P G (granted P G) o p r.
Proof.
  split.
  - destruct 1; do 2 eexists; (split_and!; [done..|]); cbn; eauto 10.
  - intros (o & [|m|m|] & Hi & Hr & H); cbn in H.
    + by eapply granted_self.
    + destruct H. by eapply granted_member.
    + destruct H as (l & ? & ? & ?). by eapply granted_members.
    + destruct H as [|(l & vbd & v & ? & ? & ? & ?)]; [by eapply granted_sr|by eapply granted_vm].
Qed.

(** The objects whose permissions a rule looks at. *)
Definition refs_of (G : GetObject) (o : XoObject) (r : rule) : list ref :=
  match r with
  | Self => []
  | Member m => if bool_decide (member o m ≠ Some (Id (id o))) then [member o m] else []
  | Members m => match member o m with Some (Ids l) => Some ∘ Id <$> l | _ => [] end
  | Vdi => member o "$SR" ::
      match iterate (member o "$VBDs") with
      | Ok l => l ≫= λ vbd, match G vbd with Ok (Some v) => [member v "VM"] | _ => [] end
      | Throw _ => []
      end
  end.
(** The VBDs of a disk are read too. *)
Definition vbds_of (o : XoObject) : list ref :=
  match iterate (member o "$VBDs") with Ok l => l | Throw _ => [] end.

Definition references (G : GetObject) (o : XoObject) : list ref := rules (type o) ≫= refs_of G o.

(** The lists of an object are lists. *)
Definition well_shaped (o : XoObject) : Prop :=
  ∀ r, r ∈ rules (type o) →
    match r with
    | Members m => ∃ l, member o m = Some (Ids l)
    | Vdi => ∃ l, member o "$VBDs" = Some (Ids l)
    | _ => True
    end.

Section rules.
Context (P : Permissions) (G : GetObject).
Local Abbreviation g := (mkGlobals (Some P) (Some G)).
Context (auth : ref → jstring → result bool).

Definition rule_checker (r : rule) : checker :=
  match r with
  | Self => checkSelf g
  | Member m => checkMember auth m
  | Members m => checkMembers auth m
  | Vdi => checkVdi g auth
  end.

Lemma or_single c o p : or_ [c] o p = c o p.
Proof. cbn. by destruct (c o p) as [[]|]. Qed.

Lemma checker_of_rules t o p : checker_of g auth t o p = or_ (rule_checker <$> rules t) o p.
Proof.
  unfold checker_of, rules, checkAuthorizationByTypes, types. cbn [assoc].
  do 20 (case_bool_decide; [cbn [from_option Datatypes.id fmap list_fmap rule_checker]; rewrite ?or_single; reflexivity|]).
  cbn [from_option Datatypes.id fmap list_fmap rule_checker]. by rewrite or_single.
Qed.

Lemma checkSelf_spec o p : checkSelf g o p = Ok (has_permission P (id o) p).
Proof. reflexivity. Qed.

Lemma or_true cs o p :
  or_ cs o p = Ok true → ∃ c, c ∈ cs ∧ c o p = Ok true.
Proof.
  induction cs as [|c cs IH]; cbn; [done|]. destruct (c o p) as [[]|] eqn:E; cbn; [|intros H|done].
  - intros _. exists c. split; [by left|done].
  - destruct (IH H) as (c' & ? & ?). exists c'. split; [by right|done].
Qed.

Lemma every_true {A} (f : A → result bool) l :
  every f l = Ok true → ∀ x, x ∈ l → f x = Ok true.
Proof.
  induction l as [|y l IH]; cbn; intros H x Hx; [by apply elem_of_nil in Hx|].
  destruct (f y) as [[]|] eqn:E; cbn in H; [|done..].
  apply elem_of_cons in Hx as [->|Hx]; [done|]. by apply IH.
Qed.

Lemma checkVbds_true vbds p :
  checkVbds g auth vbds p = Ok true →
  ∃ vbd v, vbd ∈ vbds ∧ G vbd = Ok (Some v) ∧ auth (member v "VM") p = Ok true.
Proof.
  induction vbds as [|vbd vbds IH]; cbn; [done|]. destruct (G vbd) as [[v|]|] eqn:E; cbn; [| |done].
  - destruct (auth (member v "VM") p) as [[]|] eqn:Ha; cbn; [|intros H|done].
    + intros _. exists vbd, v. split; [by left|done].
    + destruct (IH H) as (vbd' & v' & ? & ?). exists vbd', v'. split; [by right|done].
  - intros H. destruct (IH H) as (vbd' & v' & ? & ?). exists vbd', v'. split; [by right|done].
Qed.

(** A check that succeeds has what its rule asks for. *)
Lemma rule_checker_sound r o p :
  rule_checker r o p = Ok true → holds P G (λ i p, auth i p = Ok true) o p r.
Proof.
  destruct r as [|m|m|]; cbn [rule_checker holds].
  - rewrite checkSelf_spec. congruence.
  - unfold checkMember. case_bool_decide; done.
  - unfold checkMembers. destruct (member o m) as [[[]|l]|]; try done.
    case_bool_decide as Hl; [|done]. intros H. exists l. split_and!; [done|by intros ->; cbn in Hl; lia|].
    by apply every_true.
  - unfold checkVdi. destruct (auth (member o "$SR") p) as [[]|]; cbn; [by left| |done].
    destruct (iterate (member o "$VBDs")) as [l|]; cbn; [|done]. intros H. right.
    destruct (checkVbds_true _ _ H) as (vbd & v & ? & ? & ?). by exists l, vbd, v.
Qed.

Definition decides (X : Prop) (r : result bool) : Prop := ∃ b, r = Ok b ∧ (b = true ↔ X).

Lemma every_decides {A} (f : A → result bool) (X : A → Prop) l :
  (∀ x, x ∈ l → decides (X x) (f x)) → decides (∀ x, x ∈ l → X x) (every f l).
Proof.
  induction l as [|y l IH]; intros H.
  { exists true. split; [done|]. split; [|done]. by intros _ x ?%elem_of_nil. }
  destruct (H y) as (b & Hb & HX); [by left|]. destruct IH as (b' & Hb' & HX').
  { intros x Hx. apply H. by right. }
  cbn. rewrite Hb. cbn. destruct b.
  - exists b'. split; [done|]. rewrite HX'. split.
    + intros HA x [->|Hx]%elem_of_cons; [by apply HX|by apply HA].
    + intros HA x Hx. apply HA. by right.
  - exists false. split; [done|]. split; [done|]. intros HA. apply HX, HA. by left.
Qed.

Lemma checkVbds_decides (X : ref → jstring → Prop) vbds p :
  (∀ vbd, vbd ∈ vbds → ∃ v, G vbd = Ok v) →
  (∀ vbd v, vbd ∈ vbds → G vbd = Ok (Some v) → decides (X (member v "VM") p) (auth (member v "VM") p)) →
  decides (∃ vbd v, vbd ∈ vbds ∧ G vbd = Ok (Some v) ∧ X (member v "VM") p) (checkVbds g auth vbds p).
Proof.
  induction vbds as [|vbd vbds IH]; intros Ht H.
  { exists false. split; [done|]. split; [done|]. by intros (? & ? & ?%elem_of_nil & _). }
  destruct IH as (b & Hb & HX); [intros; apply Ht; by right|intros; eapply H; [by right|done]|].
  destruct (Ht vbd) as [[v|] Hv]; [by left|..]; cbn; rewrite Hv; cbn.
  - destruct (H vbd v) as (b' & Hb' & HX'); [by left|done|]. rewrite Hb'. cbn. destruct b'.
    + exists true. split; [done|]. split; [|done]. intros _. exists vbd, v. split_and!; [by left|done|by apply HX'].
    + exists b. split; [done|]. rewrite HX. split.
      * intros (vbd' & v' & ? & ?). exists vbd', v'. split; [by right|done].
      * intros (vbd' & v' & [->|?]%elem_of_cons & Hv' & HXv); [|by exists vbd', v'].
        rewrite Hv in Hv'. injection Hv' as <-. by apply HX' in HXv.
  - exists b. split; [done|]. rewrite HX. split.
    + intros (vbd' & v' & ? & ?). exists vbd', v'. split; [by right|done].
    + intros (vbd' & v' & [->|?]%elem_of_cons & Hv' & HXv); [congruence|by exists vbd', v'].
Qed.

(** A check decides its rule when the other authorizations are decided. *)
Lemma rule_checker_decides (X : ref → jstring → Prop) r o p :
  (Vdi ∈ rules (type o) → ∀ vbd, vbd ∈ vbds_of o → ∃ v, G vbd = Ok v) → well_shaped o → r ∈ rules (type o) →
  (∀ i, i ∈ refs_of G o r → decides (X i p) (auth i p)) →
  decides (holds P G X o p r) (rule_checker r o p).
Proof.
  intros Ht Hs Hr H. specialize (Hs r Hr). destruct r as [|m|m|]; cbn [rule_checker holds refs_of] in *.
  - rewrite checkSelf_spec. by eexists.
  - unfold checkMember. case_bool_decide as Hm.
    + destruct (H (member o m)) as (b & Hb & HX); [by left|]. exists b. split; [done|]. rewrite HX. tauto.
    + exists false. split; [done|]. split; [done|]. tauto.
  - destruct Hs as [l Hl]. unfold checkMembers. rewrite Hl in *. case_bool_decide as Hlen.
    + destruct (every_decides (λ m, auth (Some (Id m)) p) (λ m, X (Some (Id m)) p) l) as (b & Hb & HX).
      { intros x Hx. apply H, list_elem_of_fmap. by exists x. }
      exists b. split; [done|]. rewrite HX. split; [|intros (l' & [= <-] & _ & ?); done].
      intros. exists l. split_and!; [done| |done]. by intros ->; cbn in Hlen; lia.
    + exists false. split; [done|]. split; [done|]. intros (l' & [= <-] & Hne & _). by destruct l; cbn in Hlen; [|lia].
  - destruct Hs as [l Hl]. unfold checkVdi. rewrite Hl in *. cbn [iterate] in *.
    destruct (H (member o "$SR")) as (b & Hb & HX); [by left|]. rewrite Hb. cbn [mbind result_bind].
    destruct b; [exists true; split; [done|]; tauto|].
    destruct (checkVbds_decides X (Some ∘ Id <$> l) p) as (b & Hb' & HX').
    { intros vbd Hin. apply Ht; [done|]. unfold vbds_of. by rewrite Hl. }
    { intros vbd v Hin Hv. apply H. right. apply list_elem_of_bind. exists vbd. split; [|done].
      rewrite Hv. by left. }
    exists b. split; [done|]. rewrite HX'. split.
    + intros (vbd & v & ? & ? & ?). right. by exists (Some ∘ Id <$> l), vbd, v.
    + intros [?|(l' & vbd & v & [= <-] & ? & ? & ?)]; [by apply HX in H0|]. by exists vbd, v.
Qed.
End rules.

Lemma or_decides {A} (f : A → checker) (X : A → Prop) l o p :
  (∀ x, x ∈ l → decides (X x) (f x o p)) → decides (∃ x, x ∈ l ∧ X x) (or_ (f <$> l) o p).
Proof.
  induction l as [|y l IH]; intros H.
  { exists false. split; [done|]. split; [done|]. by intros (x & ?%elem_of_nil & _). }
  destruct (H y) as (b & Hb & HX); [by left|]. destruct IH as (b' & Hb' & HX').
  { intros x Hx. apply H. by right. }
  cbn [fmap list_fmap or_]. rewrite Hb. cbn [mbind result_bind]. destruct b.
  - exists true. split; [done|]. split; [|done]. intros _. exists y. split; [by left|by apply HX].
  - exists b'. split; [done|]. rewrite HX'. split.
    + intros (x & ? & ?). exists x. split; [by right|done].
    + intros (x & [->|?]%elem_of_cons & Hx); [by apply HX in Hx|by exists x].
Qed.

Section authorization.
Context (P : Permissions) (G : GetObject).
Local Abbreviation g := (mkGlobals (Some P) (Some G)).

(** An authorization is never given without a reason, whatever [getObject] does. *)
Lemma checkAuthorization_sound stack i p :
  checkAuthorization stack g i p = Ok true → granted P G i p.
Proof.
  revert i p. induction stack as [|stack IH]; intros i p; [done|].
  cbn [checkAuthorization].
  unfold checkObject. cbn [get_object getObject].
  destruct (G i) as [[o|]|] eqn:Hi; cbn [mbind result_bind]; [|done..].
  rewrite checker_of_rules. intros (c & (r & -> & Hr)%list_elem_of_fmap & Hc)%or_true.
  apply granted_rule. exists o, r. split_and!; [done..|].
  apply rule_checker_sound in Hc. destruct r as [|m|m|]; cbn in *; [done|naive_solver|naive_solver|].
  destruct Hc as [Hc|(l & vbd & v & ? & ? & ? & Hc)]; [left; by apply IH|].
  right. exists l, vbd, v. eauto.
Qed.

(** The references of an object lead to objects of a smaller rank. *)
Definition layered (rank : jstring → nat) : Prop :=
  ∀ i o r o', G i = Ok (Some o) → r ∈ references G o → G r = Ok (Some o') →
    (rank (type o') < rank (type o))%nat.

(** The ids that [getObject] reads without error, and so on through the objects. *)
Record readable (known : ref → Prop) : Prop := {
  readable_total i : known i → ∃ o, G i = Ok o;
  readable_references i o r : known i → G i = Ok (Some o) → r ∈ references G o → known r;
  readable_vbds i o vbd : known i → G i = Ok (Some o) → Vdi ∈ rules (type o) → vbd ∈ vbds_of o → known vbd;
}.

Lemma checkAuthorization_decides_rank known rank n stack i p :
  readable known → (∀ i o, G i = Ok (Some o) → well_shaped o) → layered rank → known i →
  (∀ o, G i = Ok (Some o) → (rank (type o) < n)%nat) → (n < stack)%nat →
  decides (granted P G i p) (checkAuthorization stack g i p).
Proof.
  intros [Ht Hr Hv] Hs Hl. revert n i. induction stack as [|stack IH]; intros n i Hk Hn Hlt; [lia|].
  cbn [checkAuthorization]. unfold checkObject. cbn [get_object getObject].
  destruct (Ht i) as [[o|] Hi]; [done| |]; rewrite Hi; cbn [mbind result_bind].
  - rewrite checker_of_rules. specialize (Hn o Hi).
    destruct (or_decides (rule_checker P G (checkAuthorization stack g)) (holds P G (granted P G) o p)
                (rules (type o)) o p) as (b & Hb & HX).
    { intros r Hin. apply rule_checker_decides; [by eauto|by eapply Hs|done|].
      intros j Hj. assert (j ∈ references G o) as Hj' by (apply list_elem_of_bind; by exists r).
      apply (IH (rank (type o))); [by eapply Hr| |lia]. intros o' Ho'. by apply (Hl i o j). }
    exists b. split; [done|]. rewrite HX, granted_rule. split.
    + intros (r & ? & ?). by exists o, r.
    + intros (o' & r & Ho' & ? & ?). rewrite Hi in Ho'. injection Ho' as <-. by exists r.
  - exists false. split; [done|]. split; [done|]. rewrite granted_rule. intros (o & r & ? & _). congruence.
Qed.
End authorization.

(** *** The ranks of the types of a pool

    A message may be about any other object; a VBD links a VM, a snapshot or a
    template to any kind of disk; a disk is in an SR, itself in a host or a pool. *)
Definition type_rank (t : jstring) : nat := default O (assoc t [
  (js "host", 1); (js "network", 1); (js "VM-template", 1);
  (js "SR", 2); (js "VM", 2); (js "VM-controller", 2); (js "PCI", 2); (js "PIF", 2); (js "PUSB", 2); (js "task", 2);
  (js "VM-snapshot", 3); (js "PBD", 3); (js "USB_group", 3);
  (js "VDI", 4); (js "VDI-unmanaged", 4); (js "VIF", 4); (js "VUSB", 4);
  (js "VDI-snapshot", 5); (js "VBD", 6); (js "message", 7)])%nat.

Lemma type_rank_bound t : (type_rank t < 8)%nat.
Proof. unfold type_rank. cbn [assoc]. do 20 (case_bool_decide; [cbn; lia|]). cbn. lia. Qed.

(** Objects as the server makes them, read without error from the ids [known]. *)
Record pool_objects (G : GetObject) (known : ref → Prop) : Prop := {
  po_readable : readable G known;
  po_shaped i o : G i = Ok (Some o) → well_shaped o;
  po_layered : layered G type_rank;
}.

Lemma checkAuthorization_total P G known stack i p :
  pool_objects G known → known i → (9 <= stack)%nat →
  decides (granted P G i p) (checkAuthorization stack (mkGlobals (Some P) (Some G)) i p).
Proof.
  intros [Hr Hs Hl] Hk Hn. apply (checkAuthorization_decides_rank P G known type_rank 8); [done..| |lia].
  intros. apply type_rank_bound.
Qed.

(** C37: On the objects of a pool, whose references go down the ranks of their types
    and can be read, nine nested calls are enough for [checkAuthorization] to answer,
    and it answers whether the permission is granted: by the user's own permissions
    on the object, on a container, on every USB device of a group, on the storage or
    on a VM of a disk. *)
Theorem checkAuthorization_decides P G known stack i p :
  pool_objects G known → known i → (9 <= stack)%nat →
  ∃ b, checkAuthorization stack (mkGlobals (Some P) (Some G)) i p = Ok b ∧ (b = true ↔ granted P G i p).
Proof. apply checkAuthorization_total. Qed.

(** Permissions only add up: what is granted by some permissions is granted by
    any permissions that include them. *)
Lemma granted_incl P P' G i p :
  (∀ i p, has_permission P i p = true → has_permission P' i p = true) →
  granted P G i p → granted P' G i p.
Proof.
  intros HP. induction 1.
  - eapply granted_self; eauto.
  - eapply granted_member; eauto.
  - eapply granted_members; eauto.
  - eapply granted_sr; eauto.
  - eapply granted_vm; eauto.
Qed.

Lemma assert_one_sound P G stack i p g' :
  assert_one stack i p (mkGlobals (Some P) (Some G)) = (Ok tt, g') →
  granted P G i p ∧ g' = mkGlobals (Some P) (Some G).
Proof.
  unfold assert_one, authorize, mbind, M_bind.
  destruct (checkAuthorization stack _ i p) as [[]|] eqn:E; intros [= <-].
  split; [by eapply checkAuthorization_sound|done].
Qed.

Lemma for_each_assert_sound P G stack l g' :
  for_each l (λ '(i, p), assert_one stack i p) (mkGlobals (Some P) (Some G)) = (Ok tt, g') →
  ∀ i p, (i, p) ∈ l → granted P G i p.
Proof.
  revert g'. induction l as [|[j q] l IH]; intros g' H i p Hin; [by apply elem_of_nil in Hin|].
  cbn [for_each] in H. unfold mbind, M_bind in H.
  destruct (assert_one stack j q _) as [[[]|e] g1] eqn:E; [|done].
  apply assert_one_sound in E as [Hg ->].
  apply elem_of_cons in Hin as [[= -> ->]|Hin]; [done|by eapply IH].
Qed.

(** Whatever [getObject] does, [assert] and [check] only accept what is granted. *)
Lemma assertPermissions_sound P G stack asked g0 r :
  assertPermissions stack P G asked g0 = (Ok r, no_globals) →
  ∀ i p, (i, p) ∈ match asked with Pairs l => l | One i p => [(i, p)] end → granted P G i p.
Proof.
  unfold assertPermissions, finally, modify, mbind, M_bind. intros H i p Hin.
  destruct asked as [l|j q].
  - destruct (for_each l _ _) as [[[]|e] g'] eqn:E; [|done]. by eapply for_each_assert_sound.
  - apply list_elem_of_singleton in Hin as [= -> ->].
    destruct (assert_one stack j q _) as [[[]|e] g'] eqn:E; [|done]. by eapply assert_one_sound.
Qed.

Lemma checkPermissions_sound P G stack asked g0 :
  (checkPermissions stack P G asked g0).1 = Ok true →
  ∀ i p, (i, p) ∈ match asked with Pairs l => l | One i p => [(i, p)] end → granted P G i p.
Proof.
  unfold checkPermissions. destruct (assertPermissions stack P G asked g0) as [[r|e] g] eqn:E.
  - intros _. eapply assertPermissions_sound. rewrite E. f_equal.
    unfold assertPermissions, finally, modify, mbind, M_bind in E. by repeat case_match; simplify_eq.
  - cbn. by destruct (unauthorized_is e).
Qed.

(** ** The answers of the module *)

Definition pairs_of (a : asked) : list (ref * jstring) :=
  match a with Pairs l => l | One i p => [(i, p)] end.

Section answers.
Context (P : Permissions) (G : GetObject) (known : ref → Prop) (stack : nat).
Hypothesis HG : pool_objects G known.
Hypothesis Hstack : (9 <= stack)%nat.

Local Abbreviation g := (mkGlobals (Some P) (Some G)).

Definition all_granted (l : list (ref * jstring)) : Prop := ∀ i p, (i, p) ∈ l → granted P G i p.

(** What [assert] does: nothing, or it throws for the first pair that is not granted. *)
Definition asserted (l : list (ref * jstring)) (r : result unit) : Prop :=
  match r with
  | Ok _ => all_granted l
  | Throw e => ∃ l1 i p l2, l = l1 ++ (i, p) :: l2 ∧ all_granted l1 ∧ ¬ granted P G i p ∧ e = unauthorized p i
  end.

Lemma all_granted_cons i p l : all_granted ((i, p) :: l) ↔ granted P G i p ∧ all_granted l.
Proof.
  unfold all_granted. split.
  - intros H. split; [apply H; by left|]. intros. apply H. by right.
  - intros [? H] j q [[= -> ->]|?]%elem_of_cons; auto.
Qed.

Lemma asserted_cons i p l r : granted P G i p → asserted l r → asserted ((i, p) :: l) r.
Proof.
  intros Hg. destruct r as [|e]; cbn; [by rewrite all_granted_cons|].
  intros (l1 & j & q & l2 & -> & H1 & H2 & ->). exists ((i, p) :: l1), j, q, l2.
  by rewrite all_granted_cons.
Qed.

Lemma assert_one_spec i p :
  known i →
  ∃ r, assert_one stack i p g = (r, g) ∧ asserted [(i, p)] r ∧ (granted P G i p → r = Ok tt).
Proof.
  intros Hk. destruct (checkAuthorization_total P G known stack i p HG Hk Hstack) as (b & Hb & HX).
  unfold assert_one, authorize, mbind, M_bind. rewrite Hb. destruct b.
  - exists (Ok tt). split_and!; [done| |done]. intros j q [= -> ->]%list_elem_of_singleton. by apply HX.
  - exists (Throw (unauthorized p i)). split_and!; [done| |by intros ?%HX].
    exists [], i, p, []. split_and!; [done| |by intros ?%HX|done]. by intros ?? ?%elem_of_nil.
Qed.

(** The objects asked about are known. *)
Definition all_known (l : list (ref * jstring)) : Prop := ∀ i p, (i, p) ∈ l → known i.

Lemma for_each_assert l :
  all_known l →
  ∃ r, for_each l (λ '(i, p), assert_one stack i p) g = (r, g) ∧ asserted l r ∧ (all_granted l → r = Ok tt).
Proof.
  induction l as [|[i p] l IH]; intros Hk.
  { exists (Ok tt). split_and!; [done| |done]. by intros ?? ?%elem_of_nil. }
  destruct IH as (r & Hr & Ha & Hok); [intros j q ?; apply (Hk j q); by right|].
  destruct (assert_one_spec i p) as (r1 & Hr1 & Ha1 & Hok1); [apply (Hk i p); by left|].
  cbn [for_each]. unfold mbind, M_bind. rewrite Hr1. destruct r1 as [[]|e].
  - assert (granted P G i p) as Hg by (apply Ha1; by left).
    exists r. split_and!; [done|by apply asserted_cons|]. intros [_ ?]%all_granted_cons. auto.
  - exists (Throw e). split_and!; [done| |].
    + destruct Ha1 as (l1 & j & q & l2 & Hl & H1 & H2 & ->).
      exists l1, j, q, (l2 ++ l). split_and!; try done. 
      change ((i, p) :: l) with ([(i, p)] ++ l). by rewrite Hl, <-app_assoc.
    + intros [Hg _]%all_granted_cons. by apply Hok1 in Hg.
Qed.

Lemma assertPermissions_spec asked g0 :
  all_known (pairs_of asked) →
  ∃ r, assertPermissions stack P G asked g0 = (r, no_globals) ∧
    asserted (pairs_of asked) (r ≫= λ _, Ok tt) ∧ (all_granted (pairs_of asked) ↔ r = Ok true).
Proof.
  intros Hk. assert (∃ r, (match asked with
                | One i p => assert_one stack i p
                | Pairs l => for_each l (λ '(i, p), assert_one stack i p)
                end) g = (r, g) ∧ asserted (pairs_of asked) r ∧ (all_granted (pairs_of asked) → r = Ok tt))
    as (r & Hr & Ha & Hok).
  { destruct asked as [l|i p]; cbn [pairs_of] in *; [by apply for_each_assert|].
    destruct (assert_one_spec i p) as (r & ? & ? & Hok); [apply (Hk i p); by left|]. exists r. split_and!; [done..|].
    intros Hall. apply Hok, Hall. by left. }
  exists (r ≫= λ _, Ok true). unfold assertPermissions, finally, modify, mbind, M_bind in *. rewrite Hr.
  destruct r as [[]|e]; cbn in *; (split_and!; [done..|]).
  - done.
  - split; [|done]. intros H. by apply Hok in H.
Qed.

(** [assert] returns when every permission asked for is granted, else throws
    [unauthorized] for the first one that is not, and leaves no global variable in
    either case. *)
Theorem assertPermissions_correct asked g0 :
  all_known (pairs_of asked) →
  ∃ r, assertPermissions stack P G asked g0 = (r, no_globals) ∧
    asserted (pairs_of asked) (r ≫= λ _, Ok tt) ∧ (all_granted (pairs_of asked) ↔ r = Ok true).
Proof. apply assertPermissions_spec. Qed.

Lemma testPermission_spec i p g0 :
  known i →
  ∃ b, testPermission stack P G i p g0 = (Ok b, no_globals) ∧ (b = true ↔ granted P G i p).
Proof.
  intros Hk. destruct (checkAuthorization_total P G known stack i p HG Hk Hstack) as (b & Hb & HX).
  exists b. unfold testPermission, finally, authorize, modify, mbind, M_bind. by rewrite Hb.
Qed.

(** [check] returns whether every permission asked for is granted and [test]
    whether the one asked for is; neither throws, and both leave no global variable. *)
Theorem check_and_test_agree asked i p g0 :
  all_known (pairs_of asked) → known i →
  (∃ b, checkPermissions stack P G asked g0 = (Ok b, no_globals) ∧ (b = true ↔ all_granted (pairs_of asked))) ∧
  (∃ b, testPermission stack P G i p g0 = (Ok b, no_globals) ∧ (b = true ↔ granted P G i p)).
Proof.
  intros Hks Hk. split.
  - destruct (assertPermissions_spec asked g0 Hks) as (r & Hr & Ha & Hok).
    unfold checkPermissions. rewrite Hr. destruct r as [b|e]; cbn in Ha.
    + exists true. by split.
    + destruct Ha as (l1 & j & q & l2 & Hl & _ & Hn & ->). exists false. split; [done|]. split; [done|].
      intros H. destruct Hn. apply H. rewrite Hl, elem_of_app. right. by left.
  - by apply testPermission_spec.
Qed.
End answers.

(** ** Example: the objects of a small pool *)

(** Objects by id, read without error. *)
Definition lookup_object (objects : gmap jstring XoObject) : GetObject := fun r =>
  Ok match r with Some (Id i) => objects !! i | _ => None end.

Definition shaped_rule (o : XoObject) (r : rule) : bool :=
  match r with
  | Members m => match member o m with Some (Ids _) => true | _ => false end
  | Vdi => match member o "$VBDs" with Some (Ids _) => true | _ => false end
  | _ => true
  end.
Definition lower (G : GetObject) (o : XoObject) (r : ref) : bool :=
  match G r with Ok (Some o') => bool_decide (type_rank (type o') < type_rank (type o))%nat | _ => true end.
Definition pool_object (G : GetObject) (o : XoObject) : bool :=
  forallb (shaped_rule o) (rules (type o)) && forallb (lower G o) (references G o).

Lemma pool_objects_of G known objects :
  readable G known → (∀ i o, G i = Ok (Some o) → ∃ k, objects !! k = Some o) →
  forallb (λ x : jstring * XoObject, pool_object G x.2) (map_to_list objects) = true →
  pool_objects G known.
Proof.
  intros Hr Hin H. rewrite forallb_forall in H.
  assert (∀ i o, G i = Ok (Some o) → pool_object G o = true) as Ho.
  { intros i o [k Hk]%Hin. apply (H (k, o)). by apply list_elem_of_In, elem_of_map_to_list. }
  split; [done| |].
  - intros i o Hi r Hr'. apply Ho, andb_true_iff in Hi as [Hi _]. rewrite forallb_forall in Hi.
    apply list_elem_of_In, Hi in Hr'. destruct r as [|m|m|]; cbn in *; repeat case_match; try done; eauto.
  - intros i o r o' Hi Hr' Ho'. apply Ho, andb_true_iff in Hi as [_ Hi]. rewrite forallb_forall in Hi.
    apply list_elem_of_In, Hi in Hr'. unfold lower in Hr'. rewrite Ho' in Hr'. by apply bool_decide_eq_true_1 in Hr'.
Qed.

Definition object (i t : string) (fields : list (jstring * field)) : jstring * XoObject :=
  (js i, mkObject (js i) (js t) (list_to_map fields)).
Definition link (m i : string) : jstring * field := (js m, Id (js i)).
Definition links (m : string) (l : list string) : jstring * field := (js m, Ids (js <$> l)).

(** The objects of packages/xo-server/src/_objectVisibility.test.mjs. *)
Definition sample_objects : gmap jstring XoObject := list_to_map [
  object "pool-1" "pool" [];
  object "host-1" "host" [link "$pool" "pool-1"];
  object "vm-1" "VM" [link "$container" "host-1"; links "$VBDs" ["vbd-1"]];
  object "vm-2" "VM" [link "$container" "host-1"; links "$VBDs" []];
  object "sr-1" "SR" [link "$container" "pool-1"];
  object "vdi-1" "VDI" [link "$SR" "sr-1"; links "$VBDs" ["vbd-1"]];
  object "vdi-u-vm" "VDI-unmanaged" [link "$SR" "sr-other"; links "$VBDs" ["vbd-1"]];
  object "vdi-dangling" "VDI" [link "$SR" "sr-other"; links "$VBDs" ["vbd-gone"]];
  object "vbd-1" "VBD" [link "VDI" "vdi-1"; link "VM" "vm-1"];
  object "net-1" "network" [link "$pool" "pool-1"];
  object "vif-1" "VIF" [link "$network" "net-1"; link "$VM" "vm-1"];
  object "tpl-1" "VM-template" [link "$pool" "pool-1"];
  object "pgpu-1" "PGPU" [link "$host" "host-1"]].

Definition view (l : list string) : Permissions :=
  list_to_map ((λ i, (js i, {[ js "view" := VNum (num_of_Z 1) ]})) <$> l).

Lemma view_cons i l : view (i :: l) = <[js i := {[ js "view" := VNum (num_of_Z 1) ]}]> (view l).
Proof. reflexivity. Qed.

Lemma sample_pool : pool_objects (lookup_object sample_objects) (λ _, True).
Proof.
  apply (pool_objects_of _ _ sample_objects).
  - split; [intros; by eexists|done|done].
  - intros [[i|]|] o Hi; try done. injection Hi as Hi. by exists i.
  - vm_compute. reflexivity.
Qed.

Lemma checkAuthorization_decides_witness :
  checkAuthorization 9 (mkGlobals (Some (view ["vm-1"])) (Some (lookup_object sample_objects)))
    (Some (Id (js "vdi-u-vm"))) (js "view") = Ok true ∧
  ∃ b, checkAuthorization 9 (mkGlobals (Some (view ["vm-1"])) (Some (lookup_object sample_objects)))
         (Some (Id (js "vdi-u-vm"))) (js "view") = Ok b ∧
       (b = true ↔ granted (view ["vm-1"]) (lookup_object sample_objects) (Some (Id (js "vdi-u-vm"))) (js "view")).
Proof.
  split; [vm_compute; reflexivity|].
  apply (checkAuthorization_decides _ _ (λ _, True)); [exact sample_pool|done|lia].
Defined.

Lemma assertPermissions_correct_witness :
  ∃ r, assertPermissions 9 (view ["pool-1"]) (lookup_object sample_objects)
         (Pairs [(Some (Id (js "vm-1")), js "view"); (Some (Id (js "pgpu-1")), js "view")]) no_globals = (r, no_globals) ∧
    asserted (view ["pool-1"]) (lookup_object sample_objects)
      [(Some (Id (js "vm-1")), js "view"); (Some (Id (js "pgpu-1")), js "view")] (r ≫= λ _, Ok tt) ∧
    (all_granted (view ["pool-1"]) (lookup_object sample_objects)
      [(Some (Id (js "vm-1")), js "view"); (Some (Id (js "pgpu-1")), js "view")] ↔ r = Ok true).
Proof.
  apply (assertPermissions_correct (view ["pool-1"]) (lookup_object sample_objects) (λ _, True) 9 sample_pool
    ltac:(lia) (Pairs _) no_globals (λ _ _ _, I)).
Defined.

Lemma check_and_test_agree_witness :
  (∃ b, checkPermissions 9 (view ["sr-1"]) (lookup_object sample_objects) (One (Some (Id (js "vdi-1"))) (js "view"))
          no_globals = (Ok b, no_globals) ∧
        (b = true ↔ all_granted (view ["sr-1"]) (lookup_object sample_objects)
                      (pairs_of (One (Some (Id (js "vdi-1"))) (js "view"))))) ∧
  (∃ b, testPermission 9 (view ["sr-1"]) (lookup_object sample_objects) (Some (Id (js "vm-1"))) (js "view")
          no_globals = (Ok b, no_globals) ∧
        (b = true ↔ granted (view ["sr-1"]) (lookup_object sample_objects) (Some (Id (js "vm-1"))) (js "view"))).
Proof.
  apply (check_and_test_agree (view ["sr-1"]) (lookup_object sample_objects) (λ _, True) 9 sample_pool ltac:(lia)
           (One _ _) _ _ no_globals (λ _ _ _, I) I).
Defined.

Example granted_with_more :
  granted (view ["vm-2"; "pool-1"]) (lookup_object sample_objects) (Some (Id (js "host-1"))) (js "view").
Proof.
  apply (granted_incl (view ["pool-1"]) (view ["vm-2"; "pool-1"])).
  - intros i p. unfold has_permission. rewrite (view_cons "vm-2"). unfold Permissions. rewrite lookup_insert.
    case_decide; [|done].
    subst i. by vm_compute.
  - apply (checkAuthorization_sound _ _ 9). vm_compute. reflexivity.
Qed.

(** The ids that a user with [permissions] sees, as in the tests of the server. *)
Definition visible (permissions : Permissions) : list jstring :=
  List.filter (λ i, match testPermission 9 permissions (lookup_object sample_objects) (Some (Id i)) (js "view") no_globals with
                    | (Ok b, _) => b
                    | _ => false
                    end)
    ((λ i, js i) <$> ["pool-1"; "host-1"; "vm-1"; "vm-2"; "sr-1"; "vdi-1"; "net-1"; "vif-1"; "tpl-1"; "pgpu-1"]).

Example visible_nothing : visible ∅ = [].
Proof. vm_compute. reflexivity. Qed.
Example visible_pool : visible (view ["pool-1"]) =
  js <$> ["pool-1"; "host-1"; "vm-1"; "vm-2"; "sr-1"; "vdi-1"; "net-1"; "vif-1"; "tpl-1"].
Proof. vm_compute. reflexivity. Qed.
Example visible_vm : visible (view ["vm-1"]) = js <$> ["vm-1"; "vdi-1"; "vif-1"].
Proof. vm_compute. reflexivity. Qed.

(** Two snapshots of each other: the stack overflows, however large. *)
Definition cyclic_objects : gmap jstring XoObject := list_to_map [
  object "a" "VM-snapshot" [link "$snapshot_of" "b"];
  object "b" "VM-snapshot" [link "$snapshot_of" "a"]].

Lemma cyclic_object auth i j :
  (i, j) ∈ [("a", "b"); ("b", "a")]%string →
  checkObject (mkGlobals (Some ∅) (Some (lookup_object cyclic_objects))) auth (Some (Id (js i))) (js "view") =
  b ← auth (Some (Id (js j))) (js "view"); if (b : bool) then Ok true else Ok false.
Proof.
  intros [[= -> ->]|[= -> ->]%list_elem_of_singleton]%elem_of_cons; vm_compute; reflexivity.
Qed.

Lemma cycle_overflows stack i j :
  (i, j) ∈ [("a", "b"); ("b", "a")]%string →
  checkAuthorization stack (mkGlobals (Some ∅) (Some (lookup_object cyclic_objects))) (Some (Id (js i))) (js "view")
    = Throw (RangeError "Maximum call stack size exceeded").
Proof.
  revert i j. induction stack as [|stack IH]; intros i j Hij; [done|].
  cbn [checkAuthorization]. rewrite (cyclic_object _ i j Hij), (IH j i); [done|].
  apply elem_of_cons in Hij as [[= -> ->]|[= -> ->]%list_elem_of_singleton]; set_solver.
Qed.
