(* ===== verification/Acls.v ===== *)
(** * The access control lists of the server

    packages/xo-server/src/xo-mixins/acls.mjs: the permissions of a user from the
    lists, in the database, of its groups and its own, and the checks of the API;
    packages/xo-server/src/_objectVisibility.mjs: which objects a user sees; and
    [getObject] of packages/xo-server/src/xo.mjs.

    The database and the users are parameters of the model ([App]).  The concurrent
    requests for the subjects of a user are answered in order;
    [getPermissions_correct] shows that the order has no effect. *)

From S2P Require Import Prelude JsValues AclResolver.

Local Open Scope Z_scope.

(** ** Data *)

Record Acl := mkAcl { acl_id : jstring; subject : jstring; acl_object : jstring; action : jstring }.
Record Role := mkRole { role_id : jstring; name : jstring; role_permissions : list jstring }.
Record User := mkUser { user_permission : jstring; groups : option (list jstring) }.

(** What the mixin uses of the application and of the database. *)
Record App := mkApp {
  getUser : jstring → result User;
  acls_get : jstring → list Acl;
  app_getObject : GetObject;
  apiContext : jstring * jstring;
}.

Definition getRoles : list Role := [
  mkRole (js "viewer") (js "Viewer") [js "view"];
  mkRole (js "operator") (js "Operator") [js "view"; js "operate"];
  mkRole (js "admin") (js "Admin") [js "view"; js "operate"; js "administrate"]].

Definition _getPermissionsByRole : gmap jstring (list jstring) :=
  foldl (λ permissions role, <[role_id role := role_permissions role]> permissions) ∅ getRoles.

Definition getRolesForPermission (permission : jstring) : list jstring :=
  getRoles ≫= λ role, if bool_decide (permission ∈ role_permissions role) then [role_id role] else [].

(** ** The permissions of a user *)

Section app.
Context (app : App).

Definition getAclsForSubject (subjectId : jstring) : list Acl := acls_get app subjectId.

Definition _getAclsForUser (userId : jstring) : result (list Acl) :=
  user ← getUser app userId;
  let subjects := match groups user with Some groups => groups ++ [userId] | None => [userId] end in
  Ok (subjects ≫= getAclsForSubject).
End app.

Definition one : jsval := VNum (num_of_Z 1).

Definition add_permission (current : gmap jstring jsval) (permission : jstring) : gmap jstring jsval :=
  <[permission := one]> current.

(** The body of the loop on the lists. *)
Definition add_acl (permissions : Permissions) (acl : Acl) : Permissions :=
  let current := default ∅ (permissions !! acl_object acl) in
  <[acl_object acl :=
      match _getPermissionsByRole !! action acl with
      | Some permissionsForRole => foldl add_permission current permissionsForRole
      | None => add_permission current (action acl)
      end]> permissions.

Section checks.
Context (app : App) (stack : nat).

Definition getPermissionsForUser (userId : jstring) : result Permissions :=
  acls ← _getAclsForUser app userId;
  Ok (foldl add_acl ∅ acls).

(** [checkPermissions(permissions, userId)] returns [true] or nothing. *)
Definition Acls_checkPermissions (permissions : asked) (userId : option jstring) : M Globals (option bool) :=
  user ← match userId with
         | Some userId => user ← lift (getUser app userId); mret (user_permission user, userId)
         | None => mret (apiContext app)
         end;
  let '(permission, userId) := user in
  if bool_decide (permission = js "admin") then mret (Some true)
  else
    permissionsByObject ← lift (getPermissionsForUser userId);
    assertPermissions stack permissionsByObject (app_getObject app) permissions ;;
    mret None.

Definition hasPermissions (userId : jstring) (permissions : asked) : M Globals bool :=
  user ← lift (getUser app userId);
  if bool_decide (user_permission user = js "admin") then mret true
  else
    permissionsByObject ← lift (getPermissionsForUser userId);
    checkPermissions stack permissionsByObject (app_getObject app) permissions.
End checks.

(** ** [getObject] of the server *)

(** The key of a property. *)
Definition ref_key (r : ref) : jstring :=
  match r with Some (Id i) => i | Some (Ids l) => join (js ",") l | None => js "undefined" end.

(** [getObject(key)], over the objects by id and the index of the opaque references. *)
Definition xo_getObject (all byRef : gmap jstring XoObject) : GetObject := fun key =>
  match all !! ref_key key with
  | Some obj => Ok (Some obj)
  | None =>
      match byRef !! ref_key key with
      | Some obj => Ok (Some obj)
      | None => Throw (noSuchObject key)
      end
  end.

(** ** Which objects a user sees *)

Definition createPermissions (permissionsByObject : Permissions) (resourceSetObjectIds : list jstring) : Permissions :=
  foldl (λ permissions objectId, <[objectId := add_permission (default ∅ (permissions !! objectId)) (js "view")]> permissions)
    permissionsByObject resourceSetObjectIds.

(** The answers kept by the predicate, and the global variables of the resolver. *)
Definition Seen := (gmap jstring bool * Globals)%type.

Section visible.
Context (stack : nat) (getObject : GetObject) (permissionsByObject : Permissions) (resourceSetObjectIds : list jstring).

(** The predicate that [createIsObjectVisible] returns. *)
Definition isObjectVisible (objectId : jstring) : M Seen bool := fun '(cache, g) =>
  match cache !! objectId with
  | Some visible => (Ok visible, (cache, g))
  | None =>
      let permissions := createPermissions permissionsByObject resourceSetObjectIds in
      match testPermission stack permissions getObject (Some (Id objectId)) (js "view") g with
      | (Ok visible, g) => (Ok visible, (<[objectId := visible]> cache, g))
      | (Throw e, g) => (Throw e, (cache, g))
      end
  end.
End visible.

(** The loop that collects what a user sees among [objects]
    (xo-mixins/object-visibility.mjs). *)
Fixpoint visibleItems (isObjectVisible : jstring → M Seen bool) (objects : list (jstring * XoObject))
    (items : gmap jstring XoObject) : M Seen (gmap jstring XoObject) :=
  match objects with
  | [] => mret items
  | (i, o) :: objects =>
      visible ← isObjectVisible i;
      visibleItems isObjectVisible objects (if (visible : bool) then <[i := o]> items else items)
  end.

(** [try { return getObject(objectId) } catch { return undefined }] *)
Definition or_undefined (getObject : GetObject) : GetObject := fun objectId =>
  match getObject objectId with Ok obj => Ok obj | Throw _ => Ok None end.

(** ** Properties *)

(** The permissions of a role, or the action itself when it is not one. *)
Definition permissions_of_action (a : jstring) : list jstring := default [a] (_getPermissionsByRole !! a).

Definition allowed (acls : list Acl) (o p : jstring) : Prop :=
  ∃ acl, acl ∈ acls ∧ acl_object acl = o ∧ p ∈ permissions_of_action (action acl).

Lemma lookup_add_permissions l current p :
  truthy (default VUndefined (foldl add_permission current l !! p)) = true ↔
  p ∈ l ∨ truthy (default VUndefined (current !! p)) = true.
Proof.
  revert current. induction l as [|q l IH]; intros current; cbn [foldl].
  { split; [by right|]. by intros [?%elem_of_nil|]. }
  rewrite IH. unfold add_permission. rewrite lookup_insert, elem_of_cons.
  case_decide as Hq; [|naive_solver]. split; [by left; left|]. by right.
Qed.

Lemma has_permission_lookup (P : Permissions) o p :
  has_permission P o p = truthy (default VUndefined (default ∅ (P !! o) !! p)).
Proof. unfold has_permission. by destruct (P !! o); cbn; [|rewrite lookup_empty]. Qed.

Lemma has_permission_insert (P : Permissions) m o o' p :
  has_permission (<[o := m]> P) o' p =
  if decide (o = o') then truthy (default VUndefined (m !! p)) else has_permission P o' p.
Proof. unfold has_permission, Permissions. rewrite lookup_insert. by case_decide. Qed.

Lemma has_permission_add_acl P acl o p :
  has_permission (add_acl P acl) o p = true ↔
  has_permission P o p = true ∨ (acl_object acl = o ∧ p ∈ permissions_of_action (action acl)).
Proof.
  unfold add_acl, permissions_of_action. rewrite has_permission_insert. case_decide as Ho; [|naive_solver].
  subst o. rewrite has_permission_lookup. destruct (_getPermissionsByRole !! action acl) as [l|]; cbn [from_option].
  - rewrite lookup_add_permissions. cbn. tauto.
  - pose proof (lookup_add_permissions [action acl] (default ∅ (P !! acl_object acl)) p) as E.
    cbn [foldl] in E. rewrite E. cbn. tauto.
Qed.

Lemma has_permission_add_acls P acls o p :
  has_permission (foldl add_acl P acls) o p = true ↔ has_permission P o p = true ∨ allowed acls o p.
Proof.
  unfold allowed. revert P. induction acls as [|acl acls IH]; intros P; cbn [foldl].
  { split; [by left|]. intros [|(? & ?%elem_of_nil & _)]; done. }
  rewrite IH, has_permission_add_acl. setoid_rewrite elem_of_cons. naive_solver.
Qed.

Section properties.
Context (app : App) (stack : nat).

(** The lists of a user, of its groups and its own. *)
Definition acls_of (userId : jstring) (user : User) : list Acl :=
  (default [] (groups user) ++ [userId]) ≫= acls_get app.

Lemma getAclsForUser_eq userId user :
  getUser app userId = Ok user → _getAclsForUser app userId = Ok (acls_of userId user).
Proof. intros Hu. unfold _getAclsForUser, acls_of. rewrite Hu. cbn [mbind result_bind]. destruct (groups user); reflexivity. Qed.

Lemma getPermissions_spec userId user :
  getUser app userId = Ok user →
  ∃ P, getPermissionsForUser app userId = Ok P ∧
    ∀ o p, has_permission P o p = true ↔ allowed (acls_of userId user) o p.
Proof.
  intros Hu. unfold getPermissionsForUser. rewrite (getAclsForUser_eq _ _ Hu).
  eexists. split; [done|]. intros o p. rewrite has_permission_add_acls.
  assert (has_permission ∅ o p = false) as -> by done. split; [by intros [|]|by right].
Qed.

(** The permissions of a user on an object are those of the roles, and the actions
    that are not roles, of the lists for this object of the user and of its groups, in
    whatever order the lists are read. *)
Theorem getPermissions_correct userId user :
  getUser app userId = Ok user →
  ∃ P, getPermissionsForUser app userId = Ok P ∧
    ∀ o p, has_permission P o p = true ↔
      ∃ s acl, (s = userId ∨ s ∈ default [] (groups user)) ∧ acl ∈ acls_get app s ∧
               acl_object acl = o ∧ p ∈ permissions_of_action (action acl).
Proof.
  intros Hu. destruct (getPermissions_spec userId user Hu) as (P & HP & H). exists P. split; [done|].
  intros o p. rewrite H. unfold allowed, acls_of. split.
  - intros (acl & (s & Hacl & Hs)%list_elem_of_bind & Ho & Hp). exists s, acl. split_and!; [|done..].
    apply elem_of_app in Hs as [Hs|Hs%list_elem_of_singleton]; tauto.
  - intros (s & acl & Hs & Hacl & Ho & Hp). exists acl. split_and!; [|done..].
    apply list_elem_of_bind. exists s. split; [done|]. rewrite elem_of_app, list_elem_of_singleton. tauto.
Qed.

(** What the lists of a user allow through the objects of the server. *)
Definition user_granted (userId : jstring) (user : User) (i : ref) (p : jstring) : Prop :=
  ∃ P, (∀ o q, has_permission P o q = true ↔ allowed (acls_of userId user) o q) ∧
       granted P (app_getObject app) i p.

Lemma user_granted_iff userId user P i p :
  (∀ o q, has_permission P o q = true ↔ allowed (acls_of userId user) o q) →
  user_granted userId user i p ↔ granted P (app_getObject app) i p.
Proof.
  intros HP. split; [|by exists P]. intros (P' & HP' & Hg).
  eapply granted_incl; [|done]. intros o q. rewrite HP, HP'. done.
Qed.

(** An administrator has every permission.  For another user, on objects that can
    be read, [hasPermissions] returns whether each permission asked for is granted by
    the lists of the user and of its groups, and [checkPermissions] does nothing or
    throws [unauthorized]. *)
Theorem hasPermissions_correct known userId user asked g :
  getUser app userId = Ok user →
  pool_objects (app_getObject app) known → all_known known (pairs_of asked) → (9 <= stack)%nat →
  ∃ b, (hasPermissions app stack userId asked g).1 = Ok b ∧
    (b = true ↔ user_permission user = js "admin" ∨
                ∀ i p, (i, p) ∈ pairs_of asked → user_granted userId user i p) ∧
    (if b then is_ok (Acls_checkPermissions app stack asked (Some userId) g).1 = true
     else ∃ i p, (i, p) ∈ pairs_of asked ∧
            (Acls_checkPermissions app stack asked (Some userId) g).1 = Throw (unauthorized p i)).
Proof.
  intros Hu HG Hk Hst. unfold hasPermissions, Acls_checkPermissions, lift, mbind, M_bind. rewrite Hu.
  cbn [mret M_ret]. case_bool_decide as Ha.
  { exists true. split_and!; [done| |done]. split; [by left|done]. }
  destruct (getPermissions_spec userId user Hu) as (P & -> & HP).
  destruct (assertPermissions_spec P (app_getObject app) known stack HG Hst asked g Hk) as (r & Hr & Has & Hok).
  assert (all_granted P (app_getObject app) (pairs_of asked) ↔
          ∀ i p, (i, p) ∈ pairs_of asked → user_granted userId user i p) as Hall.
  { unfold all_granted. by setoid_rewrite (user_granted_iff userId user P _ _ HP). }
  unfold checkPermissions. rewrite Hr. destruct r as [b|e]; cbn in Has.
  - exists true. split_and!; [done| |done]. split; [|done]. intros _. right. by apply Hall.
  - destruct Has as (l1 & i & p & l2 & Hl & _ & Hn & ->). exists false. split_and!; [done| |].
    + split; [done|]. intros [?|H]; [done|]. apply Hall in H. destruct Hn. apply H.
      rewrite Hl, elem_of_app. right. by left.
    + exists i, p. split; [|done]. rewrite Hl, elem_of_app. right. by left.
Qed.

(** Whatever the objects of the server are, incomplete or cyclic, a user that is
    not an administrator only gets permissions that the lists grant. *)
Theorem hasPermissions_safe userId user asked g :
  (hasPermissions app stack userId asked g).1 = Ok true →
  getUser app userId = Ok user → user_permission user ≠ js "admin" →
  ∀ i p, (i, p) ∈ pairs_of asked → user_granted userId user i p.
Proof.
  intros H Hu Ha i p Hin. unfold hasPermissions, lift, mbind, M_bind in H. rewrite Hu in H.
  rewrite bool_decide_eq_false_2 in H by done.
  destruct (getPermissions_spec userId user Hu) as (P & HP & Hal). rewrite HP in H.
  exists P. split; [done|].
  by eapply checkPermissions_sound.
Qed.
End properties.

(** *** What is visible *)

(** The permissions with resource sets are those of the user and [view] on the
    objects of the sets. *)
Theorem createPermissions_correct P ids o p :
  has_permission (createPermissions P ids) o p = true ↔
  has_permission P o p = true ∨ (o ∈ ids ∧ p = js "view").
Proof.
  revert P. induction ids as [|i ids IH]; intros P; cbn [createPermissions foldl].
  { split; [by left|]. by intros [|[?%elem_of_nil _]]. }
  unfold createPermissions in IH. rewrite IH, has_permission_insert, elem_of_cons.
  case_decide as Hi; [|naive_solver]. subst o. rewrite (has_permission_lookup P).
  pose proof (lookup_add_permissions [js "view"] (default ∅ (P !! i)) p) as E. cbn [foldl] in E.
  rewrite E, list_elem_of_singleton. tauto.
Qed.

Section visibility.
Context (stack : nat) (G : GetObject) (known : ref → Prop) (P : Permissions) (ids : list jstring).
Hypothesis HG : pool_objects G known.
Hypothesis Hstack : (9 <= stack)%nat.

Definition sees (i : jstring) : Prop := granted (createPermissions P ids) G (Some (Id i)) (js "view").

(** The answers that are kept are right. *)
Definition cache_ok (s : Seen) : Prop := ∀ i b, s.1 !! i = Some b → (b = true ↔ sees i).

Lemma isObjectVisible_ok i s :
  known (Some (Id i)) → cache_ok s →
  ∃ b s', isObjectVisible stack G P ids i s = (Ok b, s') ∧ (b = true ↔ sees i) ∧ cache_ok s'.
Proof.
  intros Hk Hc. destruct s as [cache g]. unfold isObjectVisible.
  destruct (cache !! i) as [b|] eqn:Hi; [exists b, (cache, g); by split_and!; [|apply Hc|]|].
  destruct (testPermission_spec (createPermissions P ids) G known stack HG Hstack (Some (Id i)) (js "view") g Hk)
    as (b & Hb & HX). rewrite Hb. do 2 eexists. split_and!; [done..|].
  intros j b' Hj. cbn in Hj. apply lookup_insert_Some in Hj as [[<- <-]|[_ Hj]]; [done|by apply Hc].
Qed.

Lemma visibleItems_ok objects items s :
  Forall (λ x, known (Some (Id x.1))) objects → NoDup (objects.*1) → cache_ok s →
  ∃ items' s', visibleItems (isObjectVisible stack G P ids) objects items s = (Ok items', s') ∧ cache_ok s' ∧
    ∀ i o, items' !! i = Some o ↔
      ((i ∉ objects.*1) ∧ items !! i = Some o) ∨ (sees i ∧ (i, o) ∈ objects) ∨
      ((¬ sees i) ∧ i ∈ (objects.*1) ∧ items !! i = Some o).
Proof.
  intros Hk. revert items s. induction Hk as [|[i o] objects Hi Hk IH]; intros items s Hnd Hc; cbn [visibleItems].
  { exists items, s. split_and!; [done..|]. intros i o. cbn. set_solver. }
  apply NoDup_cons in Hnd as [Hnin Hnd].
  destruct (isObjectVisible_ok i s Hi Hc) as (b & s1 & Hb & HX & Hc1).
  unfold mbind, M_bind. rewrite Hb.
  destruct (IH (if b then <[i:=o]> items else items) s1 Hnd Hc1) as (items' & s' & Heq & Hc' & H).
  exists items', s'. split_and!; [done..|]. intros j o'. rewrite H. cbn [fmap list_fmap fst].
  destruct (decide (j = i)) as [->|Hj].
  - rewrite !elem_of_cons. destruct b.
    + rewrite lookup_insert_eq. assert ((i, o') ∉ objects) by (intros Hin; apply Hnin, list_elem_of_fmap; by exists (i, o')).
      assert (sees i) by (by apply HX). naive_solver.
    + assert ((i, o') ∉ objects) by (intros Hin; apply Hnin, list_elem_of_fmap; by exists (i, o')).
      assert (¬ sees i) by (intros E; by apply HX in E). naive_solver.
  - replace ((if b then <[i:=o]> items else items) !! j) with (items !! j).
    2:{ destruct b; [by rewrite lookup_insert_ne|done]. }
    rewrite !elem_of_cons. naive_solver.
Qed.
End visibility.

Lemma or_undefined_readable G : readable (or_undefined G) (λ _, True).
Proof. split; [|done|done]. intros i _. unfold or_undefined. destruct (G i); by eexists. Qed.

(** For a user that is not an administrator, the objects pushed to its connection
    are exactly those on which [view] is granted, by its lists or by its resource sets,
    even when some references lead to objects that do not exist. *)
Theorem visibleItems_correct stack all byRef P ids g0 :
  let G := or_undefined (xo_getObject all byRef) in
  (∀ i o, G i = Ok (Some o) → well_shaped o) → layered G type_rank → (9 <= stack)%nat →
  ∃ items s, visibleItems (isObjectVisible stack G P ids) (map_to_list all) ∅ (∅, g0) = (Ok items, s) ∧
    ∀ i o, items !! i = Some o ↔
      all !! i = Some o ∧ granted (createPermissions P ids) G (Some (Id i)) (js "view").
Proof.
  intros G Hs Hl Hst.
  assert (pool_objects G (λ _, True)) as HG by (split; [apply or_undefined_readable|done..]).
  destruct (visibleItems_ok stack G (λ _, True) P ids HG Hst (map_to_list all) ∅ (∅, g0))
    as (items & s & Heq & _ & H); [by apply Forall_forall|apply NoDup_fst_map_to_list|done|].
  exists items, s. split; [done|]. intros i o. rewrite H, lookup_empty, elem_of_map_to_list.
  unfold sees. naive_solver.
Qed.

(** ** Example: two users of the sample pool *)

Definition acl (s o a : string) : Acl := mkAcl (js (s ++ o ++ a)) (js s) (js o) (js a).
Definition sample_acls : list Acl :=
  [acl "alice" "vm-1" "operator"; acl "staff" "net-1" "viewer"; acl "bob" "pool-1" "reboot"]%string.

Definition sample_app : App := mkApp
  (λ userId,
     if bool_decide (userId = js "alice") then Ok (mkUser (js "none") (Some [js "staff"]))
     else if bool_decide (userId = js "root") then Ok (mkUser (js "admin") None)
     else Throw (noSuchObject (Some (Id userId))))
  (λ s, filter (λ a, subject a = s) sample_acls)
  (lookup_object sample_objects) (js "none", js "alice").

Definition alice : User := mkUser (js "none") (Some [js "staff"]).

Lemma getPermissions_correct_witness :
  ∃ P, getPermissionsForUser sample_app (js "alice") = Ok P ∧
    ∀ o p, has_permission P o p = true ↔
      ∃ s acl, (s = js "alice" ∨ s ∈ default [] (groups alice)) ∧ acl ∈ acls_get sample_app s ∧
               acl_object acl = o ∧ p ∈ permissions_of_action (action acl).
Proof. apply (getPermissions_correct sample_app (js "alice") alice). reflexivity. Defined.

Lemma hasPermissions_correct_witness :
  (hasPermissions sample_app 9 (js "alice") (One (Some (Id (js "vdi-1"))) (js "operate")) no_globals).1 = Ok true ∧
  ∃ b, (hasPermissions sample_app 9 (js "alice") (One (Some (Id (js "vdi-1"))) (js "operate")) no_globals).1 = Ok b ∧
    (b = true ↔ user_permission alice = js "admin" ∨
                ∀ i p, (i, p) ∈ pairs_of (One (Some (Id (js "vdi-1"))) (js "operate")) →
                       user_granted sample_app (js "alice") alice i p) ∧
    (if b then is_ok (Acls_checkPermissions sample_app 9 (One (Some (Id (js "vdi-1"))) (js "operate"))
                        (Some (js "alice")) no_globals).1 = true
     else ∃ i p, (i, p) ∈ pairs_of (One (Some (Id (js "vdi-1"))) (js "operate")) ∧
            (Acls_checkPermissions sample_app 9 (One (Some (Id (js "vdi-1"))) (js "operate"))
               (Some (js "alice")) no_globals).1 = Throw (unauthorized p i)).
Proof.
  split; [vm_compute; reflexivity|].
  apply (hasPermissions_correct sample_app 9 (λ _, True) (js "alice") alice).
  - reflexivity.
  - exact sample_pool.
  - done.
  - lia.
Defined.

Lemma hasPermissions_safe_witness :
  user_granted sample_app (js "alice") alice (Some (Id (js "vdi-1"))) (js "operate").
Proof.
  apply (hasPermissions_safe sample_app 9 (js "alice") alice (One (Some (Id (js "vdi-1"))) (js "operate")) no_globals).
  - vm_compute. reflexivity.
  - reflexivity.
  - done.
  - by left.
Defined.

Lemma sample_or_undefined_pool :
  pool_objects (or_undefined (xo_getObject sample_objects ∅)) (λ _, True).
Proof.
  apply (pool_objects_of _ _ sample_objects).
  - apply or_undefined_readable.
  - intros i o. unfold or_undefined, xo_getObject. rewrite lookup_empty.
    destruct (sample_objects !! ref_key i) eqn:E; intros [= <-]. eauto.
  - vm_compute. reflexivity.
Qed.

Lemma visibleItems_correct_witness :
  ∃ items s, visibleItems (isObjectVisible 9 (or_undefined (xo_getObject sample_objects ∅)) (view ["vm-1"]) [js "sr-1"])
      (map_to_list sample_objects) ∅ (∅, no_globals) = (Ok items, s) ∧
    ∀ i o, items !! i = Some o ↔
      sample_objects !! i = Some o ∧
      granted (createPermissions (view ["vm-1"]) [js "sr-1"]) (or_undefined (xo_getObject sample_objects ∅))
        (Some (Id i)) (js "view").
Proof.
  apply (visibleItems_correct 9 sample_objects ∅ (view ["vm-1"]) [js "sr-1"] no_globals).
  - exact (po_shaped _ _ sample_or_undefined_pool).
  - exact (po_layered _ _ sample_or_undefined_pool).
  - lia.
Defined.

(** Through [getObject] of the server, which throws, a reference to a missing object is
    not a permission denied but an error of [hasPermissions]. *)
Definition throwing_app : App := mkApp (getUser sample_app) (acls_get sample_app)
  (xo_getObject sample_objects ∅) (apiContext sample_app).
Example dangling_reference_throws :
  (hasPermissions throwing_app 9 (js "alice") (One (Some (Id (js "vdi-dangling"))) (js "view")) no_globals).1 =
  Throw (noSuchObject (Some (Id (js "sr-other")))).
Proof. vm_compute. reflexivity. Qed.

Example roles_that_operate : getRolesForPermission (js "operate") = [js "operator"; js "admin"].
Proof. vm_compute. reflexivity. Qed.
