(* ===== verification/Cron.v ===== *)
(** * Schedules

    [parse.js] of @xen-orchestra/cron: the parser of the patterns.  The integers of a
    pattern are exact, where JavaScript rounds those above 2^53, which are out of all
    the ranges.

    The loops have fuel, and [endless] is the value of those that do not end.

    [parse] returns values in the ranges, sorted and distinct; it ends unless a step
    is zero; every schedule is the value of a pattern.  For the name of a property of
    every object it returns that property, which is not a schedule ([Inherited]). *)

From Stdlib Require Import Sorted.
From stdpp Require Import sorting.
From S2P Require Import Prelude JsValues.

Local Open Scope Z_scope.

(** ** Fields *)

(** [aliases] are in the order of the alternatives of [aliasesRegExp]. *)
Record Field := mkField {
  name : jstring;
  range : Z * Z;
  aliases : option (list (jstring * Z));
  post : option (Z → Z);
}.

(** [symbols.forEach((alias, i) => { aliases[alias] = start + i })] *)
Definition number_aliases (start : Z) (symbols : list jstring) : list (jstring * Z) :=
  imap (λ i alias, (alias, start + Z.of_nat i)) symbols.

Definition months : list jstring := split_char " " (js "jan feb mar apr may jun jul aug sep oct nov dec").
Definition days : list jstring := split_char " " (js "sun mon tue wen thu fri sat").

Definition fields : list Field := [
  mkField (js "minute") (0, 59) None None;
  mkField (js "hour") (0, 23) None None;
  mkField (js "dayOfMonth") (1, 31) None None;
  mkField (js "month") (0, 11) (Some (number_aliases 0 months)) None;
  mkField (js "dayOfWeek") (0, 6) (Some (number_aliases 0 days)) (Some (λ value, if bool_decide (value = 7) then 0 else value))].

(** ** The parser

    A parser takes the position and returns the next one with its value. *)

Definition Schedule := list (jstring * list Z).

(** A loop that does not end. *)
Definition endless : error := OtherError "endless loop".

Definition P (A : Type) : Type := nat → result (A * nat).
Definition p_ret {A} (a : A) : P A := fun i => Ok (a, i).
Definition p_bind {A B} (p : P A) (f : A → P B) : P B := fun i =>
  match p i with Ok (a, i) => f a i | Throw e => Throw e end.
Notation "x <-- p ; q" := (p_bind p (fun x => q))
  (at level 20, p at level 100, q at level 200, right associativity).
Section pattern.
Context (pattern : jstring).

Definition throw {A} (msg : string) : P A := fun _ => Throw (SyntaxError msg).

(** [match(c)] *)
Definition match_ (c : ascii) : P bool := fun i =>
  if bool_decide (pattern !! i = Some c) then Ok (true, S i) else Ok (false, i).

Definition is_blank (c : ascii) : bool := bool_decide (c = " "%char ∨ c = ascii_of_N 9).

Definition consumeWhitespaces : P unit := fun i =>
  Ok (tt, (i + length (fst (span is_blank (drop i pattern))))%nat).

Definition parseInteger : P Z := fun i =>
  let digits := fst (span is_digit (drop i pattern)) in
  match digits with
  | [] => Throw (SyntaxError "missing integer")
  | _ => Ok (digits_value 10 digits, (i + length digits)%nat)
  end.

(** [aliasesRegExp.exec(pattern)], sticky at [i]: the first alternative that is there. *)
Definition exec_aliases (aliases : list (jstring * Z)) (i : nat) : option (jstring * Z) :=
  head (filter (λ x, startsWith x.1 (drop i pattern) = true) aliases).

Definition parseValue (field : Field) : P Z :=
  value <-- (fun i =>
    match aliases field with
    | Some aliases =>
        if match pattern !! i with Some c => is_digit c | None => false end
        then (v <-- parseInteger; p_ret (match post field with Some post => post v | None => v end)) i
        else match exec_aliases aliases i with
             | None => Throw (SyntaxError "missing alias or integer")
             | Some (alias, v) => Ok (v, (i + length alias)%nat)
             end
    | None => (v <-- parseInteger; p_ret (match post field with Some post => post v | None => v end)) i
    end);
  if bool_decide (value < (range field).1) || bool_decide (value > (range field).2)
  then throw "value is not between the bounds" else p_ret value.

(** [values.add(value)] *)
Definition add_value (value : Z) (values : list Z) : list Z :=
  if bool_decide (value ∈ values) then values else values ++ [value].

(** [for (let i = start; i <= end; i += step) values.add(i)] *)
Fixpoint add_range (fuel : nat) (i end_ step : Z) (values : list Z) : result (list Z) :=
  if bool_decide (i <= end_) then
    match fuel with
    | O => Throw endless
    | S fuel => add_range fuel (i + step) end_ step (add_value i values)
    end
  else Ok values.

(** A positive step goes through the range in at most this many iterations. *)
Definition range_fuel (start end_ : Z) : nat := Z.to_nat (end_ - start + 1).

Definition parseRange (field : Field) (values : list Z) : P (list Z) :=
  let add start end_ step : P (list Z) := fun i =>
    values ← add_range (range_fuel start end_) start end_ step values; Ok (values, i) in
  star <-- match_ "*"%char;
  if (star : bool) then
    slash <-- match_ "/"%char;
    if (slash : bool) then
      step <-- parseInteger;
      add (range field).1 (range field).2 step
    else p_ret values
  else
    start <-- parseValue field;
    dash <-- match_ "-"%char;
    if (dash : bool) then
      end_ <-- parseValue field;
      slash <-- match_ "/"%char;
      step <-- (if (slash : bool) then parseInteger else p_ret 1);
      add start end_ step
    else p_ret (add_value start values).

(** [do { parseRange() } while (match(','))]: each turn consumes a comma. *)
Fixpoint parseSequence (fuel : nat) (field : Field) (values : list Z) : P (list Z) :=
  values <-- parseRange field values;
  comma <-- match_ ","%char;
  if (comma : bool) then
    match fuel with
    | O => fun _ => Throw endless
    | S fuel => parseSequence fuel field values
    end
  else p_ret values.

Fixpoint parseFields (fields : list Field) : P Schedule :=
  match fields with
  | [] => p_ret []
  | field :: fields =>
      _ <-- consumeWhitespaces;
      values <-- parseSequence (length pattern) field [];
      schedule <-- parseFields fields;
      p_ret (if bool_decide (length values ≠ 0%nat) then (name field, merge_sort Z.le values) :: schedule else schedule)
  end.

Definition parse_pattern : result Schedule :=
  match (schedule <-- parseFields fields; _ <-- consumeWhitespaces; p_ret schedule) 0%nat with
  | Ok (schedule, i) =>
      if bool_decide (i ≠ length pattern) then Throw (SyntaxError "unexpected character") else Ok schedule
  | Throw e => Throw e
  end.
End pattern.

(** ** Presets: a pattern, or its schedule once it has been parsed *)

Definition Presets := list (jstring * (jstring + Schedule)).
Definition presets : Presets := [
  (js "@annually", inl (js "0 0 1 jan *"));
  (js "@daily", inl (js "0 0 * * *"));
  (js "@hourly", inl (js "0 * * * *"));
  (js "@monthly", inl (js "0 0 1 * *"));
  (js "@weekly", inl (js "0 0 * * sun"));
  (js "@yearly", inl (js "0 0 1 jan *"))].

Definition put_preset (p : jstring) (s : Schedule) (ps : Presets) : Presets :=
  (λ x, if bool_decide (x.1 = p) then (p, inr s) else x) <$> ps.

(** What is returned: a schedule, or the member of [Object.prototype] that [presets[p]]
    inherits. *)
Inductive Parsed := ASchedule (schedule : Schedule) | Inherited (name : jstring).

(** [parse(p)]; no preset is the pattern of another one. *)
Definition parse (p : jstring) : M Presets Parsed := fun ps =>
  match assoc p ps with
  | Some (inr schedule) => (Ok (ASchedule schedule), ps)
  | Some (inl pattern) =>
      match parse_pattern pattern with
      | Ok schedule => (Ok (ASchedule schedule), put_preset p schedule ps)
      | Throw e => (Throw e, ps)
      end
  | None =>
      if bool_decide (p ∈ object_prototype) then (Ok (Inherited p), ps)
      else (schedule ← parse_pattern p; Ok (ASchedule schedule), ps)
  end.

Definition parsed (p : jstring) : result Parsed := fst (parse p presets).

(** The name of an inherited member is no pattern, but it is not refused. *)
Example parse_inherited : parsed (js "constructor") = Ok (Inherited (js "constructor")).
Proof. vm_compute. reflexivity. Qed.
Example parse_daily : parsed (js "@daily") = Ok (ASchedule [(js "minute", [0]); (js "hour", [0])]).
Proof. vm_compute. reflexivity. Qed.
Example parse_ranges : parsed (js "*/15 1-5/2,20  * jan,3 sun") =
  Ok (ASchedule [(js "minute", [0; 15; 30; 45]); (js "hour", [1; 3; 5; 20]); (js "month", [0; 3]); (js "dayOfWeek", [0])]).
Proof. vm_compute. reflexivity. Qed.

(** ** What the parser returns *)

Lemma lookup_head_drop (s : jstring) i : s !! i = head (drop i s).
Proof.
  revert i. induction s as [|c s IH]; intros [|i]; try done. apply IH.
Qed.

(** The values of a field: in the range, sorted and distinct, at least one. *)
Definition in_range (f : Field) (v : Z) : Prop := (range f).1 <= v <= (range f).2.
Definition valid_values (f : Field) (l : list Z) : Prop :=
  l ≠ [] ∧ StronglySorted Z.lt l ∧ Forall (in_range f) l.

(** A schedule, from the values of each field, [None] for all of them. *)
Definition schedule_of (fs : list Field) (vs : list (option (list Z))) : Schedule :=
  zip fs vs ≫= λ '(f, o), match o with Some l => [(name f, l)] | None => [] end.
Definition valid_schedule (fs : list Field) (vs : list (option (list Z))) : Prop :=
  Forall2 (λ f o, match o with Some l => valid_values f l | None => True end) fs vs.

Section parser.
Context (pattern : jstring).

(** No step is zero, which is enough of what follows a slash is not [0]. *)
Definition no_zero_step : Prop :=
  ∀ i, pattern !! i = Some "/"%char → pattern !! S i ≠ Some "0"%char.

(** What a parser does at a position: it goes forward, and an endless loop needs a
    zero step. *)
Definition spec {A} (p : P A) (i : nat) (Q : A → nat → Prop) : Prop :=
  match p i with
  | Ok (a, j) => (i <= j)%nat ∧ Q a j
  | Throw e => no_zero_step → e ≠ endless
  end.

Lemma spec_ret {A} (a : A) i (Q : A → nat → Prop) : Q a i → spec (p_ret a) i Q.
Proof. intros. split; [lia|done]. Qed.

Lemma spec_bind {A B} (p : P A) (f : A → P B) i Q R :
  spec p i Q → (∀ a j, (i <= j)%nat → Q a j → spec (f a) j R) → spec (p_bind p f) i R.
Proof.
  unfold spec, p_bind. destruct (p i) as [[a j]|e]; [|done]. intros [Hij HQ] Hf. specialize (Hf a j Hij HQ).
  destruct (f a j) as [[b k]|e]; [|done]. destruct Hf. split; [lia|done].
Qed.

Lemma spec_weaken {A} (p : P A) i (Q R : A → nat → Prop) :
  spec p i Q → (∀ a j, (i <= j)%nat → Q a j → R a j) → spec p i R.
Proof. unfold spec. destruct (p i) as [[a j]|e]; [|done]. intros [Hle HQ] HR. auto. Qed.

Lemma spec_match c i :
  spec (match_ pattern c) i (λ b j, b = true → pattern !! i = Some c ∧ j = S i).
Proof. unfold spec, match_. case_bool_decide; (split; [lia|done]). Qed.

Lemma span_digits s : Forall (λ c, is_digit c = true) (fst (span is_digit s)).
Proof.
  induction s as [|c s IH]; cbn; [constructor|]. destruct (is_digit c) eqn:E; [|constructor].
  destruct (span is_digit s). by constructor.
Qed.

Lemma digit_value_bound c : is_digit c = true → ∃ d, digit_value c = Some d ∧ 0 <= d ∧ (d = 0 → c = "0"%char).
Proof.
  intros Hc. unfold digit_value. rewrite Hc. unfold is_digit, between in Hc.
  exists (code c - 48). split; [done|]. apply andb_true_iff in Hc as [Hc _]. apply Z.leb_le in Hc. split; [lia|].
  intros H. assert (code c = 48) as E by lia. unfold code in E.
  rewrite <-(ascii_N_embedding c). replace (N_of_ascii c) with 48%N by lia. reflexivity.
Qed.

Lemma foldl_digits_ge s n :
  0 <= n → Forall (λ c, is_digit c = true) s →
  n <= foldl (λ n c, n * 10 + default 0 (digit_value c)) n s.
Proof.
  intros Hn Hs. revert n Hn. induction Hs as [|c s Hc _ IH]; intros n Hn; cbn [foldl]; [lia|].
  destruct (digit_value_bound c Hc) as (d & -> & Hd & _). cbn [from_option].
  specialize (IH (n * 10 + d) ltac:(lia)). unfold Datatypes.id in *. lia.
Qed.

Lemma spec_parseInteger i :
  spec (parseInteger pattern) i (λ v _, 0 <= v ∧ (v = 0 → pattern !! i = Some "0"%char)).
Proof.
  unfold spec, parseInteger. pose proof (span_digits (drop i pattern)) as Hd.
  destruct (fst (span is_digit (drop i pattern))) as [|c ds] eqn:E; [done|].
  split; [lia|]. inversion_clear Hd as [|? ? Hc Hds].
  destruct (digit_value_bound c Hc) as (d & Hv & Hd0 & Hz).
  unfold digits_value. cbn [foldl]. rewrite Hv. cbn [from_option]. unfold Datatypes.id.
  pose proof (foldl_digits_ge ds (0 * 10 + d) ltac:(lia) Hds) as Hge. unfold Datatypes.id in Hge. split; [lia|]. intros H0.
  rewrite lookup_head_drop. destruct (drop i pattern) as [|c' s'] eqn:Es; [done|].
  cbn in E. destruct (is_digit c'); [|done]. destruct (span is_digit s'). injection E as -> _.
  cbn. f_equal. apply Hz. lia.
Qed.

Lemma spec_parseValue f i : spec (parseValue pattern f) i (λ v _, in_range f v).
Proof.
  unfold parseValue. eapply (spec_bind _ _ _ (λ _ _, True)).
  - assert (spec (v <-- parseInteger pattern; p_ret (match post f with Some post => post v | None => v end)) i
              (λ _ _, True)) as Hi.
    { eapply spec_bind; [apply spec_parseInteger|]. intros. by apply spec_ret. }
    unfold spec in *. destruct (aliases f) as [al|]; [|done].
    destruct (match pattern !! i with Some c => is_digit c | None => false end); [done|].
    destruct (exec_aliases pattern al i) as [[a v]|]; [split; [lia|done]|done].
  - intros v j _ _. destruct (bool_decide (v < _) || bool_decide (v > _)) eqn:E; [by cbn|].
    apply spec_ret. apply orb_false_iff in E as [E1 E2]. apply bool_decide_eq_false in E1, E2.
    unfold in_range. lia.
Qed.

(** *** Values *)

Definition values_ok (f : Field) (l : list Z) : Prop := NoDup l ∧ Forall (in_range f) l.

Lemma add_value_ok f v l : in_range f v → values_ok f l → values_ok f (add_value v l).
Proof.
  intros Hv [Hd Hl]. unfold add_value. case_bool_decide as Hin; [done|]. split.
  - apply NoDup_app. split_and!; [done| |apply NoDup_singleton]. intros x Hx ->%list_elem_of_singleton. done.
  - apply Forall_app. split; [done|]. by constructor.
Qed.

Lemma add_range_ok f fuel i e step l :
  (range f).1 <= i → e <= (range f).2 → 0 <= step → values_ok f l →
  match add_range fuel i e step l with
  | Ok l' => values_ok f l'
  | Throw err => step = 0 ∨ Z.of_nat fuel < e - i + 1
  end.
Proof.
  revert i l. induction fuel as [|fuel IH]; intros i l Hi He Hs Hl; cbn [add_range].
  - case_bool_decide; [right; lia|done].
  - case_bool_decide; [|done].
    pose proof (IH (i + step) (add_value i l) ltac:(lia) He Hs) as Hr.
    destruct (add_range fuel (i + step) e step (add_value i l)) as [l'|err].
    + apply Hr, add_value_ok; [|done]. unfold in_range. lia.
    + destruct Hr as [|Hr]; [by apply add_value_ok; [unfold in_range; lia|]|by left|].
      destruct (decide (step = 0)); [by left|right; lia].
Qed.

Lemma add_range_error fuel i e step l err : add_range fuel i e step l = Throw err → err = endless.
Proof.
  revert i l. induction fuel as [|fuel IH]; intros i l; cbn [add_range]; case_bool_decide; try done.
  - congruence.
  - apply IH.
Qed.

(** The loop of a range. *)
Definition add_from (start e step : Z) (l : list Z) : P (list Z) := fun i =>
  values ← add_range (range_fuel start e) start e step l; Ok (values, i).

Lemma spec_add f start e step l i :
  in_range f start → e <= (range f).2 → 0 <= step → values_ok f l →
  (no_zero_step → step ≠ 0) →
  spec (add_from start e step l) i (λ l' _, values_ok f l').
Proof.
  intros Hs He Hst Hl Hz. unfold spec, add_from.
  pose proof (add_range_ok f (range_fuel start e) start e step l ltac:(apply Hs) He Hst Hl) as Hr.
  destruct (add_range _ start e step l) as [l'|err] eqn:E; cbn [mbind result_bind]; [split; [lia|done]|].
  intros Hn. exfalso. destruct Hr as [|Hr]; [by apply Hz|]. unfold range_fuel in Hr. lia.
Qed.

Lemma no_zero_after_slash i step :
  pattern !! i = Some "/"%char → (step = 0 → pattern !! S i = Some "0"%char) → no_zero_step → step ≠ 0.
Proof. intros Hi Hz Hn ->. by apply (Hn i Hi), Hz. Qed.

Lemma spec_parseRange f l i :
  (range f).1 <= (range f).2 → values_ok f l → spec (parseRange pattern f l) i (λ l' _, values_ok f l').
Proof.
  intros Hf Hl. unfold parseRange. eapply spec_bind; [apply spec_match|]. intros [] j1 _ _.
  - eapply spec_bind; [apply spec_match|]. intros [] j2 _ Hsl; [|by apply spec_ret].
    destruct (Hsl eq_refl) as [Hslash ->].
    eapply spec_bind; [apply spec_parseInteger|]. intros step j3 _ [Hs0 Hs].
    apply spec_add; [unfold in_range; lia|lia|done|done|by eapply no_zero_after_slash].
  - eapply spec_bind; [apply spec_parseValue|]. intros start j2 _ Hst.
    eapply spec_bind; [apply spec_match|]. intros [] j3 _ _; [|by apply spec_ret, add_value_ok].
    eapply spec_bind; [apply spec_parseValue|]. intros e j4 _ He.
    eapply spec_bind; [apply spec_match|]. intros slash j5 _ Hsl.
    eapply (spec_bind _ _ _ (λ step _, 0 <= step ∧ (no_zero_step → step ≠ 0))).
    + destruct slash; [|by apply spec_ret]. destruct (Hsl eq_refl) as [Hslash ->].
      eapply spec_weaken; [apply spec_parseInteger|]. intros step j6 _ [Hs0 Hs]. split; [done|].
      by eapply no_zero_after_slash.
    + intros step j6 _ [Hs0 Hs]. apply spec_add; [done|apply He|done..].
Qed.

Lemma spec_parseSequence fuel f l i :
  (range f).1 <= (range f).2 → values_ok f l → (length pattern <= fuel + i)%nat →
  spec (parseSequence pattern fuel f l) i (λ l' _, values_ok f l').
Proof.
  intros Hf. revert l i. induction fuel as [|fuel IH]; intros l i Hl Hfuel; cbn [parseSequence];
    (eapply spec_bind; [by apply spec_parseRange|]); intros l' j Hij Hl';
    (eapply spec_bind; [apply spec_match|]); intros [] k _ Hc; try by apply spec_ret.
  - destruct (Hc eq_refl) as [Hcomma _]. apply lookup_lt_Some in Hcomma. lia.
  - destruct (Hc eq_refl) as [Hcomma ->]. apply IH; [done|lia].
Qed.

Lemma merge_sort_lt l : NoDup l → StronglySorted Z.lt (merge_sort Z.le l).
Proof.
  intros Hd. assert (NoDup (merge_sort Z.le l)) as Hd' by (by rewrite merge_sort_Permutation).
  pose proof (StronglySorted_merge_sort Z.le l) as Hs. induction Hs as [|x s Hs IH Hall]; [constructor|].
  apply NoDup_cons in Hd' as [Hx Hd']. constructor; [by apply IH|].
  apply Forall_forall. intros y Hy. rewrite Forall_forall in Hall. specialize (Hall y Hy).
  assert (x ≠ y) by (intros ->; done). lia.
Qed.

Lemma valid_sorted f l : values_ok f l → length l ≠ 0%nat → valid_values f (merge_sort Z.le l).
Proof.
  intros [Hd Hl] Hne. split_and!.
  - intros E. pose proof (merge_sort_Permutation Z.le l) as Hp. rewrite E in Hp.
    apply Permutation_nil_l in Hp. by subst.
  - by apply merge_sort_lt.
  - by rewrite merge_sort_Permutation.
Qed.

Lemma spec_parseFields fs i :
  Forall (λ f, (range f).1 <= (range f).2) fs →
  spec (parseFields pattern fs) i (λ sch _, ∃ vs, valid_schedule fs vs ∧ sch = schedule_of fs vs).
Proof.
  intros Hfs. revert i. induction Hfs as [|f fs Hf _ IH]; intros i; cbn [parseFields].
  { apply spec_ret. exists []. split; [constructor|done]. }
  eapply (spec_bind _ _ _ (λ _ _, True)); [split; [lia|done]|]. intros _ j _ _.
  eapply spec_bind; [apply spec_parseSequence; [done|split; constructor|lia]|]. intros l k _ Hl.
  eapply spec_bind; [apply IH|]. intros sch m _ (vs & Hvs & ->). apply spec_ret.
  case_bool_decide as Hne.
  - exists (Some (merge_sort Z.le l) :: vs). split; [|done]. constructor; [by apply valid_sorted|done].
  - exists (None :: vs). split; [by constructor|done].
Qed.

Lemma fields_ranges : Forall (λ f, (range f).1 <= (range f).2) fields.
Proof. repeat (constructor; [cbn; lia|]). constructor. Qed.

Lemma spec_parse_pattern :
  match parse_pattern pattern with
  | Ok sch => ∃ vs, valid_schedule fields vs ∧ sch = schedule_of fields vs
  | Throw e => no_zero_step → e ≠ endless
  end.
Proof.
  unfold parse_pattern.
  assert (spec (sch <-- parseFields pattern fields; _ <-- consumeWhitespaces pattern; p_ret sch) 0
            (λ sch _, ∃ vs, valid_schedule fields vs ∧ sch = schedule_of fields vs)) as Hs.
  { eapply spec_bind; [apply spec_parseFields, fields_ranges|]. intros sch i _ Hsch.
    eapply (spec_bind _ _ _ (λ _ _, True)); [split; [lia|done]|]. intros. by apply spec_ret. }
  unfold spec in Hs.
  destruct ((sch <-- parseFields pattern fields; _ <-- consumeWhitespaces pattern; p_ret sch) 0%nat)
    as [[sch i]|e]; [|done]. case_bool_decide; [done|]. apply Hs.
Qed.
End parser.

(** C39: Whatever the pattern, the schedule that [parse] makes of it gives, for each field
    that it limits, values of the range of the field, in order, without duplicates,
    at least one. *)
Theorem parse_valid pattern schedule :
  parse_pattern pattern = Ok schedule →
  ∃ vs, valid_schedule fields vs ∧ schedule = schedule_of fields vs.
Proof. intros Hp. pose proof (spec_parse_pattern pattern) as Hs. by rewrite Hp in Hs. Qed.

(** [parse] ends on every pattern where no step starts with a zero: it returns a
    schedule or throws a syntax error. *)
Theorem parse_ends_without_zero_step pattern :
  no_zero_step pattern → parse_pattern pattern ≠ Throw endless.
Proof. intros Hz Hp. pose proof (spec_parse_pattern pattern) as Hs. rewrite Hp in Hs. by apply Hs. Qed.

(** A step of zero: the values of the first turn are added again and again. *)
Lemma zero_step_endless fuel i e l :
  i <= e → add_range fuel i e 0 l = Throw endless.
Proof.
  revert l. induction fuel as [|fuel IH]; intros l Hi; cbn [add_range]; rewrite bool_decide_eq_true_2 by done; [done|].
  rewrite Z.add_0_r. by apply IH.
Qed.
Example zero_step : parse_pattern (js "*/0 * * * *") = Throw endless.
Proof. vm_compute. reflexivity. Qed.

(** A range whose end is before its start has no value: the field is not limited. *)
Example reversed_range : parse_pattern (js "0 0 * * 5-7") = Ok [(js "minute", [0]); (js "hour", [0])].
Proof. vm_compute. reflexivity. Qed.
Example wednesday : is_ok (parse_pattern (js "0 0 * * wen")) = true ∧ is_ok (parse_pattern (js "0 0 * * wed")) = false.
Proof. vm_compute. split; reflexivity. Qed.

(** ** Schedules printed and parsed back *)

Definition print_values (o : option (list Z)) : jstring :=
  match o with None => js "*" | Some l => join (js ",") (Z_digits <$> l) end.
Definition print (vs : list (option (list Z))) : jstring := join (js " ") (print_values <$> vs).

Lemma span_digits_app f (a b : jstring) :
  Forall (λ c, f c = true) a → (∀ c, head b = Some c → f c = false) → span f (a ++ b) = (a, b).
Proof.
  intros Ha Hb. induction Ha as [|c a Hc _ IH]; cbn [app span].
  - destruct b as [|c b]; [done|]. cbn. by rewrite (Hb c).
  - by rewrite Hc, IH.
Qed.

Lemma Z_digits_Forall v : 0 <= v → Forall (λ c, is_digit c = true) (Z_digits v).
Proof. intros Hv. apply Forall_forall. intros c. by apply Z_digits_digits. Qed.

Lemma Z_digits_ne v : 0 <= v → Z_digits v ≠ [].
Proof.
  intros Hv E. assert (digits_value 10 (Z_digits v) = v) as Hd by by apply digits_value_Z_digits.
  rewrite E in Hd. cbn in Hd. subst v. done.
Qed.

Lemma drop_drop_app (s a b : jstring) i : drop i s = a ++ b → drop (i + length a) s = b.
Proof. intros H. by rewrite <-drop_drop, H, drop_app_length. Qed.

Lemma drop_app_bound (s a b : jstring) i :
  (i <= length s)%nat → drop i s = a ++ b → (i + length a <= length s)%nat.
Proof. intros Hi Hd%(f_equal length). rewrite length_drop, length_app in Hd. lia. Qed.

Section print.
Context (pattern : jstring).

Lemma run_match c i s : drop i pattern = c :: s → match_ pattern c i = Ok (true, S i).
Proof.
  intros H. unfold match_. rewrite bool_decide_eq_true_2; [done|]. by rewrite lookup_head_drop, H.
Qed.
Lemma run_match_no c i : head (drop i pattern) ≠ Some c → match_ pattern c i = Ok (false, i).
Proof. intros H. unfold match_. rewrite bool_decide_eq_false_2; [done|]. by rewrite lookup_head_drop. Qed.

(** What follows a value: nothing, or not a digit nor a dash. *)
Definition ends_value (rest : jstring) : Prop := ∀ c, head rest = Some c → is_digit c = false ∧ c ≠ "-"%char.

Lemma run_parseInteger v rest i :
  0 <= v → drop i pattern = Z_digits v ++ rest → ends_value rest →
  parseInteger pattern i = Ok (v, (i + length (Z_digits v))%nat).
Proof.
  intros Hv Hd He. unfold parseInteger. rewrite Hd.
  rewrite span_digits_app; [|by apply Z_digits_Forall|by intros c [? _]%He]. cbn [fst].
  destruct (Z_digits v) eqn:E; [by apply Z_digits_ne in E|]. by rewrite <-E, digits_value_Z_digits.
Qed.

Lemma run_parseValue f v rest i :
  f ∈ fields → in_range f v → drop i pattern = Z_digits v ++ rest → ends_value rest →
  parseValue pattern f i = Ok (v, (i + length (Z_digits v))%nat).
Proof.
  intros Hf Hv Hd He.
  assert (0 <= v ∧ match post f with Some post => post v | None => v end = v) as [Hv0 Hpost].
  { unfold fields in Hf. unfold in_range in Hv. rewrite !elem_of_cons, elem_of_nil in Hf.
    destruct_or!; subst; cbn in *; try (split; [lia|done]); try done.
    split; [lia|]. by rewrite bool_decide_eq_false_2 by lia. }
  assert ((v <-- parseInteger pattern; p_ret (match post f with Some post => post v | None => v end)) i =
          Ok (v, (i + length (Z_digits v))%nat)) as Hi.
  { unfold p_bind. by rewrite (run_parseInteger v rest i Hv0 Hd He), Hpost. }
  unfold parseValue, p_bind at 1. destruct (aliases f) as [al|].
  - assert (match pattern !! i with Some c => is_digit c | None => false end = true) as ->.
    { rewrite lookup_head_drop, Hd. pose proof (Z_digits_Forall v Hv0) as Hall. pose proof (Z_digits_ne v Hv0).
      destruct (Z_digits v); [done|]. by inversion_clear Hall. }
    rewrite Hi. unfold in_range in Hv. by rewrite !bool_decide_eq_false_2 by lia.
  - rewrite Hi. unfold in_range in Hv. by rewrite !bool_decide_eq_false_2 by lia.
Qed.

Lemma digit_not_star v rest i : 0 <= v → drop i pattern = Z_digits v ++ rest → head (drop i pattern) ≠ Some "*"%char.
Proof.
  intros Hv ->. pose proof (Z_digits_Forall v Hv) as Hall. pose proof (Z_digits_ne v Hv).
  destruct (Z_digits v) as [|c s]; [done|]. inversion_clear Hall. by intros [= ->].
Qed.

Lemma run_parseRange f v rest l i :
  f ∈ fields → in_range f v → drop i pattern = Z_digits v ++ rest → ends_value rest →
  parseRange pattern f l i = Ok (add_value v l, (i + length (Z_digits v))%nat).
Proof.
  intros Hf Hv Hd He. pose proof Hd as Hd'.
  assert (0 <= v) as Hv0.
  { unfold fields in Hf. unfold in_range in Hv. rewrite !elem_of_cons, elem_of_nil in Hf.
    destruct_or!; subst; cbn in *; try lia; done. }
  unfold parseRange, p_bind at 1. rewrite run_match_no by (by eapply digit_not_star).
  unfold p_bind at 1. rewrite (run_parseValue f v rest i Hf Hv Hd He).
  unfold p_bind at 1. rewrite run_match_no; [done|].
  rewrite (drop_drop_app _ _ _ _ Hd'). intros Hc%He. by destruct Hc.
Qed.

Lemma run_star f rest l i :
  drop i pattern = "*"%char :: rest → head rest ≠ Some "/"%char →
  parseRange pattern f l i = Ok (l, S i).
Proof.
  intros Hd Hr. unfold parseRange, p_bind at 1. rewrite (run_match _ _ rest) by done.
  unfold p_bind at 1. rewrite run_match_no; [done|]. replace (S i) with (i + 1)%nat by lia.
  change 1%nat with (length ["*"%char]). by rewrite (drop_drop_app pattern ["*"%char] rest).
Qed.

(** What follows the values of a field. *)
Definition ends_sequence (rest : jstring) : Prop :=
  ends_value rest ∧ head rest ≠ Some ","%char ∧ head rest ≠ Some "/"%char.

Lemma ends_value_comma s : ends_value ("," :: s)%char.
Proof. by intros c [= <-]. Qed.

Lemma run_sequence f x l rest acc i fuel :
  f ∈ fields → Forall (in_range f) (x :: l) → ends_sequence rest → (length pattern <= fuel + i)%nat →
  drop i pattern = join (js ",") (Z_digits <$> (x :: l)) ++ rest →
  parseSequence pattern fuel f acc i =
    Ok (foldl (flip add_value) acc (x :: l), (i + length (join (js ",") (Z_digits <$> (x :: l))))%nat).
Proof.
  intros Hf Hl [He [Hcomma _]]. revert x acc i fuel Hl.
  induction l as [|y l IH]; intros x acc i fuel Hl Hfuel Hd; inversion_clear Hl as [|? ? Hx Hl'].
  - cbn [fmap list_fmap join] in *. destruct fuel; cbn [parseSequence]; unfold p_bind at 1;
      rewrite (run_parseRange f x rest acc i Hf Hx Hd He); unfold p_bind at 1;
      (rewrite run_match_no by by rewrite (drop_drop_app pattern _ _ _ Hd)); done.
  - change (join (js ",") (Z_digits <$> x :: y :: l))
      with (Z_digits x ++ js "," ++ join (js ",") (Z_digits <$> y :: l)) in *.
    rewrite <-!app_assoc in Hd.
    pose proof (drop_drop_app _ _ _ _ Hd) as Hd1. pose proof (drop_drop_app _ _ _ _ Hd1) as Hd2.
    assert (i + length (Z_digits x) < length pattern)%nat as Hlt.
    { pose proof (f_equal length Hd1) as E. rewrite length_drop in E. cbn in E. lia. }
    destruct fuel as [|fuel]; [lia|]. cbn [parseSequence]. unfold p_bind at 1.
    rewrite (run_parseRange f x _ acc i Hf Hx Hd) by apply ends_value_comma.
    unfold p_bind at 1. rewrite (run_match ","%char _ _ Hd1). change (length (js ",")) with 1%nat in Hd2.
    rewrite Nat.add_1_r in Hd2. rewrite (IH y) by (done || lia). cbn [foldl flip]. f_equal. f_equal.
    rewrite !length_app. cbn [length js list_ascii_of_string]. lia.
Qed.

(** The text that follows the first fields. *)
Definition tail_print (vs : list (option (list Z))) : jstring :=
  match vs with [] => [] | _ => js " " ++ print vs end.

Lemma print_cons o vs : print (o :: vs) = print_values o ++ tail_print vs.
Proof. destruct vs; cbn; [by rewrite app_nil_r|done]. Qed.

Lemma tail_ends vs : ends_sequence (tail_print vs).
Proof. destruct vs as [|o vs]; split_and!; try done. by intros c [= <-]. Qed.

(** The values of a field, in the order of a schedule, are added one by one. *)
Lemma foldl_add_values (l acc : list Z) :
  NoDup (acc ++ l) → foldl (flip add_value) acc l = acc ++ l.
Proof.
  revert acc. induction l as [|v l IH]; intros acc Hd; cbn [foldl flip]; [by rewrite app_nil_r|].
  unfold add_value. rewrite bool_decide_eq_false_2.
  - rewrite IH; rewrite <-app_assoc; done.
  - apply NoDup_app in Hd as (_ & Hd & _). intros Hin%Hd. apply Hin. constructor.
Qed.

Lemma sorted_NoDup (l : list Z) : StronglySorted Z.lt l → NoDup l.
Proof.
  induction 1 as [|v l _ IH Hall]; constructor; [|done].
  intros Hin. rewrite Forall_forall in Hall. specialize (Hall v Hin). lia.
Qed.

Lemma merge_sort_sorted (l : list Z) : StronglySorted Z.lt l → merge_sort Z.le l = l.
Proof.
  intros Hl. apply (StronglySorted_unique Z.le);
    [apply (StronglySorted_merge_sort Z.le)| |apply merge_sort_Permutation].
  induction Hl as [|v l Hl IH Hall]; constructor; [done|].
  eapply Forall_impl; [exact Hall|]. cbn. lia.
Qed.

(** The blanks before a field: none at the start, one after a field. *)
Lemma run_blanks o vs i :
  (∀ l, o = Some l → l ≠ [] ∧ Forall (λ v, 0 <= v) l) →
  drop i pattern = print (o :: vs) ∨ drop i pattern = tail_print (o :: vs) →
  (i <= length pattern)%nat →
  ∃ j, consumeWhitespaces pattern i = Ok (tt, j) ∧
    drop j pattern = print_values o ++ tail_print vs ∧ (j <= length pattern)%nat.
Proof.
  intros Ho Hd Hi. rewrite <-print_cons. unfold consumeWhitespaces.
  assert (span is_blank (print (o :: vs)) = ([], print (o :: vs))) as Hb.
  { rewrite print_cons. destruct o as [[|v l]|]; [by destruct (Ho [] eq_refl)| |done].
    destruct (Ho _ eq_refl) as [_ Hall]. inversion_clear Hall as [|? ? Hv _].
    pose proof (Z_digits_Forall v Hv) as Hdig. pose proof (Z_digits_ne v Hv) as Hne. cbn [print_values].
    destruct l as [|v' l]; cbn [fmap list_fmap join]; (destruct (Z_digits v) as [|c d]; [done|]);
      inversion_clear Hdig as [|? ? Hc _]; cbn [app span]; unfold is_blank;
      (rewrite bool_decide_eq_false_2; [done|]); by intros [-> | ->]. }
  destruct Hd as [Hd|Hd].
  - exists i. rewrite Hd, Hb. cbn. by rewrite Nat.add_0_r.
  - exists (S i). assert (drop (S i) pattern = print (o :: vs)) as Hs.
    { rewrite <-Nat.add_1_r. by apply (drop_drop_app pattern (js " ")). }
    split; [|split; [done|]; rewrite <-Nat.add_1_r; by eapply (drop_app_bound _ (js " "))].
    rewrite Hd. cbn [tail_print js list_ascii_of_string app span].
    assert (is_blank " "%char = true) as -> by reflexivity. rewrite Hb. cbn. by rewrite Nat.add_1_r.
Qed.

Lemma run_field f o vs i :
  f ∈ fields → match o with Some l => valid_values f l | None => True end →
  drop i pattern = print_values o ++ tail_print vs → (i <= length pattern)%nat →
  ∃ j, parseSequence pattern (length pattern) f [] i = Ok (default [] o, j) ∧
    drop j pattern = tail_print vs ∧ (j <= length pattern)%nat.
Proof.
  intros Hf Hv Hd Hi. pose proof (tail_ends vs) as He. destruct o as [l|]; cbn [print_values default] in *.
  - destruct Hv as (Hne & Hs & Hr). destruct l as [|v l]; [done|]. eexists. split.
    + erewrite run_sequence; [|done..|lia|exact Hd].
      rewrite foldl_add_values by (by apply sorted_NoDup). done.
    + split; [by apply (drop_drop_app pattern _ _ _ Hd)|by eapply drop_app_bound].
  - exists (S i). assert (drop (S i) pattern = tail_print vs) as Hd'.
    { rewrite <-Nat.add_1_r. by apply (drop_drop_app pattern (js "*")). }
    split; [|split; [done|]; rewrite <-Nat.add_1_r; by eapply (drop_app_bound _ (js "*"))].
    destruct He as (_ & Hcomma & Hslash).
    destruct (length pattern); cbn [parseSequence]; unfold p_bind at 1; rewrite (run_star f _ _ _ Hd Hslash);
      unfold p_bind at 1; (rewrite run_match_no by by rewrite Hd'); done.
Qed.

Lemma run_fields fs vs i :
  Forall (λ f, f ∈ fields) fs → Forall (λ f, 0 <= (range f).1) fs → valid_schedule fs vs →
  drop i pattern = print vs ∨ drop i pattern = tail_print vs →
  (i <= length pattern)%nat →
  ∃ j, parseFields pattern fs i = Ok (schedule_of fs vs, j) ∧ drop j pattern = [] ∧ (j <= length pattern)%nat.
Proof.
  intros Hfs Hpos Hvs. revert i. induction Hvs as [|f o fs vs Ho Hvs IH]; intros i Hd Hi; cbn [parseFields].
  { exists i. split; [done|]. by destruct Hd. }
  inversion_clear Hfs as [|? ? Hf Hfs']. inversion_clear Hpos as [|? ? Hp Hpos'].
  assert (∀ l, o = Some l → l ≠ [] ∧ Forall (λ v, 0 <= v) l) as Ho'.
  { intros l ->. destruct Ho as (Hne & _ & Hr). split; [done|]. eapply Forall_impl; [exact Hr|].
    unfold in_range. cbn. lia. }
  destruct (run_blanks o vs i Ho' Hd Hi) as (j & Hb & Hd1 & Hlj). unfold p_bind at 1. rewrite Hb.
  destruct (run_field f o vs j Hf Ho Hd1 Hlj) as (k & Hk & Hd2 & Hlk). unfold p_bind at 1. rewrite Hk.
  destruct (IH Hfs' Hpos' k (or_intror Hd2) Hlk) as (m & Hm & Hd3). unfold p_bind at 1. rewrite Hm.
  exists m. split; [|done]. unfold p_ret. f_equal. f_equal. destruct o as [l|]; cbn [default]; [|done].
  destruct Ho as (Hne & Hs & _). destruct l as [|v l]; [done|].
  rewrite bool_decide_eq_true_2 by done. by rewrite merge_sort_sorted.
Qed.
End print.

(** Every schedule is the value of a pattern: the values of each field, separated
    by commas, or a star for a field that is not limited, are parsed back. *)
Theorem parse_print vs :
  valid_schedule fields vs → parse_pattern (print vs) = Ok (schedule_of fields vs).
Proof.
  intros Hvs. unfold parse_pattern, p_bind at 1.
  destruct (run_fields (print vs) fields vs 0) as (j & -> & Hd & Hj); [..|done|by left|lia|].
  - by apply Forall_forall.
  - repeat (constructor; [cbn; lia|]). constructor.
  - unfold p_bind, consumeWhitespaces, p_ret. rewrite Hd. cbn [span fst length]. rewrite Nat.add_0_r.
    rewrite bool_decide_eq_false_2; [done|]. intros Hn. apply Hn.
    pose proof (f_equal length Hd) as E. rewrite length_drop in E. cbn in E. lia.
Qed.

Definition sample_values : list (option (list Z)) := [Some [0; 30]; None; Some [1]; None; Some [0; 6]].

Lemma sample_valid : valid_schedule fields sample_values.
Proof.
  unfold valid_schedule, sample_values, fields, valid_values, in_range.
  repeat (apply Forall2_cons; split; [try exact I; (split; [done|split; repeat constructor; cbn; lia])|]).
  constructor.
Qed.

Lemma parse_print_witness :
  valid_schedule fields sample_values ∧
  parse_pattern (js "0,30 * 1 * 0,6") = Ok (schedule_of fields sample_values).
Proof. split; [exact sample_valid|]. apply (parse_print sample_values), sample_valid. Defined.

Lemma parse_valid_witness :
  parse_pattern (js "*/20 8-10 * * mon,7") = Ok
    [(js "minute", [0; 20; 40]); (js "hour", [8; 9; 10]); (js "dayOfWeek", [0; 1])] ∧
  ∃ vs, valid_schedule fields vs ∧
    [(js "minute", [0; 20; 40]); (js "hour", [8; 9; 10]); (js "dayOfWeek", [0; 1])] = schedule_of fields vs.
Proof.
  assert (parse_pattern (js "*/20 8-10 * * mon,7") = Ok
    [(js "minute", [0; 20; 40]); (js "hour", [8; 9; 10]); (js "dayOfWeek", [0; 1])]) as H
    by (vm_compute; reflexivity).
  split; [exact H|]. apply (parse_valid _ _ H).
Defined.

Lemma no_zero_stepb (p : jstring) :
  forallb (λ i, negb (bool_decide (p !! i = Some "/"%char ∧ p !! S i = Some "0"%char))) (seq 0 (length p)) = true →
  no_zero_step p.
Proof.
  intros Hb i Hi Hz. rewrite forallb_forall in Hb.
  specialize (Hb i). apply lookup_lt_Some in Hi as Hlt.
  specialize (Hb ltac:(apply in_seq; lia)). rewrite bool_decide_eq_true_2 in Hb by done. done.
Qed.

Lemma parse_ends_witness :
  no_zero_step (js "*/20 1-9/2 * jan/ *") ∧ parse_pattern (js "*/20 1-9/2 * jan/ *") ≠ Throw endless.
Proof.
  assert (no_zero_step (js "*/20 1-9/2 * jan/ *")) as H
    by (apply no_zero_stepb; vm_compute; reflexivity).
  split; [exact H|]. apply (parse_ends_without_zero_step _ H).
Defined.
