(* ===== verification/CronJob.v ===== *)
(** * Jobs

    The job of @xen-orchestra/cron/index.js: the timers that [Job] sets, the runs of
    its function, which may return a promise, and the calls of [start] and [stop],
    the function's own ones included.

    The date that follows ([next.js], over moment-timezone) is a parameter, which
    throws when the schedule has no solution.  The timers of the platform fire at any
    date once they are set, early ones included.

    A job has at most one timer or one run in progress, one of them as long as it is
    enabled; a run is never before its date; timers that fire on time lead to a run at
    the date that the schedule gives, unless a timer of the longest delay ends there. *)

From stdpp Require Import gmap.
From S2P Require Import Prelude.

Local Open Scope Z_scope.

(** ** State

    [timers] are those of the platform, each with what it calls and its date;
    [promises] are the runs that have returned a promise, not settled yet; [runs] are
    the calls of the function, the date they were scheduled for and the present one. *)

Inductive callback := Wrapper | ScheduleNext.

Record Job := mkJob {
  _isEnabled : bool;
  _isRunning : bool;
  _timeout : option nat;
  scheduledDate : option Z;
  timers : gmap nat (callback * Z);
  handles : nat;
  promises : nat;
  runs : list (option Z * Z);
}.

Definition set_enabled (b : bool) (j : Job) : Job :=
  mkJob b (_isRunning j) (_timeout j) (scheduledDate j) (timers j) (handles j) (promises j) (runs j).
Definition set_running (b : bool) (j : Job) : Job :=
  mkJob (_isEnabled j) b (_timeout j) (scheduledDate j) (timers j) (handles j) (promises j) (runs j).
Definition set_date (d : Z) (j : Job) : Job :=
  mkJob (_isEnabled j) (_isRunning j) (_timeout j) (Some d) (timers j) (handles j) (promises j) (runs j).
Definition set_timers (t : gmap nat (callback * Z)) (j : Job) : Job :=
  mkJob (_isEnabled j) (_isRunning j) (_timeout j) (scheduledDate j) t (handles j) (promises j) (runs j).
Definition set_promises (n : nat) (j : Job) : Job :=
  mkJob (_isEnabled j) (_isRunning j) (_timeout j) (scheduledDate j) (timers j) (handles j) n (runs j).
Definition add_run (now : Z) (j : Job) : Job :=
  mkJob (_isEnabled j) (_isRunning j) (_timeout j) (scheduledDate j) (timers j) (handles j) (promises j)
    (runs j ++ [(scheduledDate j, now)]).

(** [new Job(schedule, fn)] *)
Definition new_Job : Job := mkJob false false None None ∅ 0 0 [].

Definition MAX_DELAY : Z := 2 ^ 31 - 1.

(** [this._timeout = setTimeout(callback, delay)]: a delay out of the range of the
    platform is one millisecond. *)
Definition setTimeout (cb : callback) (delay now : Z) (j : Job) : Job :=
  let delay := if bool_decide (delay < 1 ∨ MAX_DELAY < delay) then 1 else delay in
  mkJob (_isEnabled j) (_isRunning j) (Some (handles j)) (scheduledDate j)
    (<[handles j := (cb, now + delay)]> (timers j)) (S (handles j)) (promises j) (runs j).

(** [clearTimeout(this._timeout)] *)
Definition clearTimeout (j : Job) : Job :=
  match _timeout j with Some id => set_timers (delete id (timers j)) j | None => j end.

(** ** Operations *)

Section job.
(** [+next(schedule._schedule, now)] *)
Context (next : Z → option Z).

Definition stop : M Job unit := _ ← modify (set_enabled false); modify clearTimeout.

Definition scheduleNext (now : Z) : M Job unit :=
  _ ← modify (set_running false);
  enabled ← gets _isEnabled;
  if (enabled : bool) then
    match next now with
    | None => lift (Throw (OtherError "no solutions found for this schedule"))
    | Some date =>
        _ ← modify (set_date date);
        let delay := date - now in
        if bool_decide (delay < MAX_DELAY) then modify (setTimeout Wrapper delay now)
        else modify (setTimeout ScheduleNext MAX_DELAY now)
    end
  else mret tt.

Definition start (now : Z) : M Job unit :=
  _ ← stop;
  _ ← modify (set_enabled true);
  running ← gets _isRunning;
  if (running : bool) then mret tt else scheduleNext now.

(** What the function does: its calls of the job, at their dates; then it returns a
    promise, or a value, or throws, which is the same. *)
Inductive call := CallStart (now : Z) | CallStop.
Record outcome := mkOutcome { calls : list call; promise : bool; finished : Z }.

Definition run_call (c : call) : M Job unit :=
  match c with CallStart now => start now | CallStop => stop end.

Fixpoint run_calls (cs : list call) : M Job unit :=
  match cs with
  | [] => mret tt
  | c :: cs => _ ← run_call c; run_calls cs
  end.

(** [fn()], in a [try]: what is thrown is ignored. *)
Definition run_fn (cs : list call) : M Job unit := fun j => (Ok tt, snd (run_calls cs j)).

(** [scheduledDate > now] is false for an undefined date. *)
Definition wrapper (now : Z) (o : outcome) : M Job unit :=
  date ← gets (fun j => default now (scheduledDate j));
  if bool_decide (date > now) then modify (setTimeout Wrapper (date - now) now)
  else
    _ ← modify (set_running true);
    _ ← modify (add_run now);
    _ ← run_fn (calls o);
    if promise o then modify (fun j => set_promises (S (promises j)) j) else scheduleNext (finished o).

(** ** Events: the calls of [start] and [stop], the timers that fire, the promises
    that settle. *)
Inductive event :=
  | Start (now : Z)
  | Stop
  | Fire (id : nat) (now : Z) (o : outcome)
  | Settle (now : Z).

Definition possible (e : event) (j : Job) : Prop :=
  match e with
  | Start _ | Stop => True
  | Fire id _ _ => is_Some (timers j !! id)
  | Settle _ => promises j ≠ 0%nat
  end.

Definition exec (e : event) : M Job unit :=
  match e with
  | Start now => start now
  | Stop => stop
  | Fire id now o =>
      timer ← gets (fun j => timers j !! id);
      match timer with
      | None => mret tt
      | Some (cb, _) =>
          _ ← modify (fun j => set_timers (delete id (timers j)) j);
          match cb with Wrapper => wrapper now o | ScheduleNext => scheduleNext now end
      end
  | Settle now => _ ← modify (fun j => set_promises (pred (promises j)) j); scheduleNext now
  end.

Definition run_event (e : event) (j : Job) : Job := snd (exec e j).

Inductive reachable : Job → Prop :=
  | reachable_new : reachable new_Job
  | reachable_event e j : reachable j → possible e j → reachable (run_event e j).

(** ** The invariant *)

Definition timer_ok (j : Job) : Prop :=
  timers j = ∅ ∨
  (∃ id cb due, _timeout j = Some id ∧ timers j = {[id := (cb, due)]}) ∧
  _isEnabled j = true ∧ _isRunning j = false ∧ scheduledDate j ≠ None.

(** The dates are those of the schedule, and the runs are not before them. *)
Definition dates_ok (j : Job) : Prop :=
  (∀ d, scheduledDate j = Some d → ∃ now, next now = Some d) ∧
  Forall (λ r, ∃ d now, r.1 = Some d ∧ next now = Some d ∧ d <= r.2) (runs j).

Definition goes_on (j : Job) : Prop :=
  (∀ now, is_Some (next now)) → _isEnabled j = true → _isRunning j = true ∨ timers j ≠ ∅.

Record job_ok (j : Job) : Prop := {
  job_timer : timer_ok j;
  job_promises : promises j = if _isRunning j then 1%nat else 0%nat;
  job_dates : dates_ok j;
  job_goes_on : goes_on j;
}.

Lemma new_job_ok : job_ok new_Job.
Proof. split; try done; [by left]. Qed.

Lemma stop_run (j : Job) :
  timer_ok j → snd (stop j) = set_timers ∅ (set_enabled false j).
Proof.
  intros Ht. unfold stop, mbind, M_bind, modify, clearTimeout. cbn.
  destruct Ht as [Ht|[(id & cb & due & Hid & Ht) _]].
  - destruct (_timeout j); unfold set_timers, set_enabled; cbn; rewrite Ht; by rewrite ?delete_empty.
  - rewrite Hid. cbn. rewrite Ht. unfold set_timers, set_enabled. cbn. by rewrite delete_singleton_eq, Hid.
Qed.

Lemma stop_returns (j : Job) : fst (stop j) = Ok tt.
Proof. done. Qed.

Lemma setTimeout_timers cb delay now j :
  timers j = ∅ → ∃ id due, _timeout (setTimeout cb delay now j) = Some id ∧
    timers (setTimeout cb delay now j) = {[id := (cb, due)]}.
Proof. intros Ht. unfold setTimeout. cbn. rewrite Ht. by eexists _, _. Qed.

(** With no timer and no promise, [scheduleNext] keeps or restores the invariant. *)
Lemma scheduleNext_ok now (j : Job) :
  timers j = ∅ → promises j = 0%nat → dates_ok j → job_ok (snd (scheduleNext now j)).
Proof.
  intros Ht Hp [Hd Hr]. unfold scheduleNext, mbind, M_bind, modify, gets, lift. cbn.
  destruct (_isEnabled j) eqn:He; [|by split; [left| | |intros _; cbn; congruence]].
  destruct (next now) as [d|] eqn:Hn.
  - assert (∀ cb delay, job_ok (setTimeout cb delay now (set_date d (set_running false j)))) as Hok.
    { intros cb delay. destruct (setTimeout_timers cb delay now (set_date d (set_running false j)) Ht)
        as (id & due & Hid & Ht').
      split; [right| | |intros _ _; right]; [|done| |rewrite Ht'; apply map_non_empty_singleton].
      - split; [by exists id, cb, due|]. done.
      - split; [|done]. intros d' [= <-]. by exists now. }
    case_bool_decide; apply Hok.
  - split; [by left|done|done|]. intros Hall. destruct (Hall now) as [d Hd']. congruence.
Qed.

Lemma start_run now (j : Job) :
  snd (start now j) =
    let j' := set_enabled true (snd (stop j)) in
    if _isRunning j then j' else snd (scheduleNext now j').
Proof.
  unfold start, mbind, M_bind, modify, gets. destruct (stop j) as [r j'] eqn:E.
  pose proof (stop_returns j) as Hr. rewrite E in Hr. cbn in Hr. subst r. cbn.
  assert (_isRunning j' = _isRunning j) as ->; [|by destruct (_isRunning j)].
  unfold stop, mbind, M_bind, modify, clearTimeout in E. cbn in E.
  destruct (_timeout j); injection E as <-; done.
Qed.

(** While the function runs, what it calls only changes [_isEnabled]. *)
Lemma run_calls_running cs (j : Job) :
  timers j = ∅ → _isRunning j = true → ∃ b, snd (run_calls cs j) = set_enabled b j.
Proof.
  revert j. induction cs as [|c cs IH]; intros j Ht Hrun; cbn [run_calls].
  { exists (_isEnabled j). by destruct j. }
  assert (∃ b, run_call c j = (Ok tt, set_enabled b j)) as [b Hb].
  { assert (stop j = (Ok tt, set_enabled false j)) as Hs.
    { rewrite (surjective_pairing (stop j)), stop_returns, stop_run by by left.
      unfold set_timers, set_enabled. cbn. by rewrite <-Ht. }
    destruct c as [now|]; cbn [run_call]; [|by exists false]. exists true.
    unfold start, mbind, M_bind, modify, gets. rewrite Hs. cbn. by rewrite Hrun. }
  unfold mbind at 1, M_bind at 1. rewrite Hb. destruct (IH (set_enabled b j) Ht Hrun) as [b' ->]. by exists b'.
Qed.

(** A timer of the job that fires. *)
Lemma wrapper_ok now o (j : Job) :
  timers j = ∅ → promises j = 0%nat → _isEnabled j = true → _isRunning j = false → scheduledDate j ≠ None →
  dates_ok j → job_ok (snd (wrapper now o j)).
Proof.
  intros Ht Hp He Hrun Hs [Hd Hr]. destruct (scheduledDate j) as [d|] eqn:Hdate; [|done].
  unfold wrapper, mbind, M_bind, modify, gets, run_fn. cbn. rewrite Hdate. change (default now (Some d)) with d.
  case_bool_decide as Hnow.
  - destruct (setTimeout_timers Wrapper (d - now) now j Ht) as (id & due & Hid & Ht').
    split; [right|cbn; by rewrite Hp, Hrun|by split; cbn; rewrite ?Hdate|intros _ _; right].
    + split; [by exists id, Wrapper, due|]. cbn. by rewrite Hdate.
    + change (timers (setTimeout Wrapper (d - now) now j) ≠ ∅). rewrite Ht'. apply map_non_empty_singleton.
  - destruct (run_calls_running (calls o) (add_run now (set_running true j)) Ht eq_refl) as [b Hb].
    rewrite Hb. assert (dates_ok (set_enabled b (add_run now (set_running true j)))) as Hdates.
    { split; cbn; [by rewrite Hdate|]. apply Forall_app. split; [done|]. constructor; [|done].
      destruct (Hd d eq_refl) as [t Ht']. exists d, t. split_and!; [done|done|cbn; lia]. }
    destruct (promise o); [|by apply scheduleNext_ok].
    split; [by left|cbn; by rewrite Hp|done|]. by left.
Qed.

Lemma event_ok e j : job_ok j → possible e j → job_ok (run_event e j).
Proof.
  intros [Ht Hp [Hd Hr] Hg] He. unfold run_event. destruct e as [now| |id now o|now]; cbn [exec].
  - rewrite start_run, stop_run by done. cbn [_isRunning]. destruct (_isRunning j) eqn:Hrun.
    + split; [by left|cbn; by rewrite Hp, Hrun|done|intros _ _; by left].
    + by apply scheduleNext_ok.
  - rewrite stop_run by done. by split; [left|..].
  - unfold mbind, M_bind, gets, modify. cbn in He. destruct He as [[cb due] Hid]. rewrite Hid.
    destruct Ht as [Ht|[(id' & cb' & due' & Hid' & Ht) (Hen & Hrun & Hdate)]].
    { by rewrite Ht in Hid. }
    assert (timers (set_timers (delete id (timers j)) j) = ∅) as Ht0.
    { rewrite Ht in Hid. apply lookup_singleton_Some in Hid as [-> _]. cbn. rewrite Ht. apply delete_singleton_eq. }
    rewrite Hrun in Hp.
    destruct cb; [by apply wrapper_ok|by apply scheduleNext_ok].
  - unfold mbind, M_bind, modify. cbn in He. destruct Ht as [Ht|(_ & _ & Hrun & _)].
    + apply scheduleNext_ok; [done| |done]. cbn. rewrite Hp. by destruct (_isRunning j).
    + by rewrite Hrun in Hp.
Qed.

Lemma reachable_job_ok j : reachable j → job_ok j.
Proof. induction 1; [apply new_job_ok|by apply event_ok]. Qed.

(** ** Timers that fire on time *)

(** The timer of the job fires at its date. *)
Definition fire_due (o : outcome) (j : Job) : Job :=
  match _timeout j ≫= λ id, (pair id) <$> timers j !! id with
  | Some (id, (_, due)) => run_event (Fire id due o) j
  | None => j
  end.

Fixpoint fire_times (k : nat) (o : outcome) (j : Job) : Job :=
  match k with O => j | S k => fire_times k o (fire_due o j) end.

Lemma fire_due_setTimeout o cb delay now (j : Job) :
  timers j = ∅ → 1 <= delay <= MAX_DELAY →
  ∃ j', timers j' = ∅ ∧ _isEnabled j' = _isEnabled j ∧ runs j' = runs j ∧ scheduledDate j' = scheduledDate j ∧
    fire_due o (setTimeout cb delay now j) =
      snd (match cb with Wrapper => wrapper (now + delay) o j' | ScheduleNext => scheduleNext (now + delay) j' end).
Proof.
  intros Ht Hd. exists (set_timers ∅ (setTimeout cb delay now j)). split_and!; try done.
  unfold fire_due, run_event, exec, mbind, M_bind, gets, modify. cbn [_timeout setTimeout mbind option_bind timers].
  rewrite Ht, insert_empty, lookup_singleton_eq. cbn. rewrite lookup_singleton_eq.
  rewrite bool_decide_eq_false_2 by lia. unfold set_timers, setTimeout. cbn.
  rewrite Ht, insert_empty, delete_singleton_eq. by destruct cb.
Qed.

Lemma scheduleNext_runs now (j : Job) : runs (snd (scheduleNext now j)) = runs j.
Proof.
  unfold scheduleNext, mbind, M_bind, modify, gets, lift. cbn. destruct (_isEnabled j); [|done].
  destruct (next now); [|done]. by case_bool_decide.
Qed.

Lemma wrapper_runs d o (j : Job) :
  timers j = ∅ → scheduledDate j = Some d → runs (snd (wrapper d o j)) = runs j ++ [(Some d, d)].
Proof.
  intros Ht Hd. unfold wrapper, mbind, M_bind, modify, gets, run_fn. cbn. rewrite Hd. change (default d (Some d)) with d.
  rewrite bool_decide_eq_false_2 by lia.
  destruct (run_calls_running (calls o) (add_run d (set_running true j)) Ht eq_refl) as [b ->].
  destruct (promise o); [|rewrite scheduleNext_runs]; cbn; by rewrite Hd.
Qed.

Lemma scheduleNext_enabled now d (j : Job) :
  _isEnabled j = true → next now = Some d →
  snd (scheduleNext now j) =
    let j := set_date d (set_running false j) in
    if bool_decide (d - now < MAX_DELAY) then setTimeout Wrapper (d - now) now j
    else setTimeout ScheduleNext MAX_DELAY now j.
Proof.
  intros He Hn. unfold scheduleNext, mbind, M_bind, modify, gets. cbn. rewrite He, Hn. by case_bool_decide.
Qed.

(** The schedule: a later date, which stays the next one until it comes. *)
Definition next_law : Prop :=
  ∀ now d, next now = Some d → now < d ∧ ∀ now', now <= now' < d → next now' = Some d.

Lemma scheduled_runs o n now d (j : Job) :
  next_law → timers j = ∅ → _isEnabled j = true → next now = Some d →
  (d - now) / MAX_DELAY = Z.of_nat n → (d - now) mod MAX_DELAY ≠ 0 →
  ∃ k, (k <= S n)%nat ∧ runs (fire_times k o (snd (scheduleNext now j))) = runs j ++ [(Some d, d)].
Proof.
  intros Hlaw. revert now j. induction n as [|n IH]; intros now j Ht He Hn Hdiv Hmod;
    rewrite (scheduleNext_enabled now d j He Hn); cbn zeta; destruct (Hlaw _ _ Hn) as [Hlt Hnext];
    pose proof (Z.div_mod (d - now) MAX_DELAY ltac:(done)) as Hdm;
    pose proof (Z.mod_pos_bound (d - now) MAX_DELAY ltac:(done)) as Hb; rewrite Hdiv in Hdm.
  - rewrite bool_decide_eq_true_2 by lia. exists 1%nat. split; [lia|]. cbn [fire_times].
    destruct (fire_due_setTimeout o Wrapper (d - now) now (set_date d (set_running false j)) Ht)
      as (j' & Ht' & _ & Hr & Hd & ->); [lia|].
    replace (now + (d - now)) with d by lia. by rewrite wrapper_runs, Hr.
  - rewrite bool_decide_eq_false_2 by (unfold MAX_DELAY in *; lia).
    destruct (fire_due_setTimeout o ScheduleNext MAX_DELAY now (set_date d (set_running false j)) Ht)
      as (j' & Ht' & He' & Hr & _ & Hf); [done|].
    assert (d - (now + MAX_DELAY) = d - now + (-1) * MAX_DELAY) as E by lia.
    destruct (IH (now + MAX_DELAY) j') as (k & Hk & HR).
    + done.
    + by rewrite He'.
    + apply Hnext. unfold MAX_DELAY in *. lia.
    + rewrite E, Z.div_add by done. lia.
    + rewrite E, Z_mod_plus_full. done.
    + exists (S k). split; [lia|]. cbn [fire_times]. rewrite Hf, HR, Hr. done.
Qed.

(** A date at the longest delay is missed: the timer only computes the next date. *)
Lemma longest_delay_missed o now d d' (j : Job) :
  timers j = ∅ → _isEnabled j = true → next now = Some d → d - now = MAX_DELAY → next d = Some d' →
  let j' := fire_due o (snd (scheduleNext now j)) in
  runs j' = runs j ∧ scheduledDate j' = Some d'.
Proof.
  intros Ht He Hn Hd Hn'. rewrite (scheduleNext_enabled now d j He Hn). cbn zeta.
  rewrite bool_decide_eq_false_2 by lia.
  destruct (fire_due_setTimeout o ScheduleNext MAX_DELAY now (set_date d (set_running false j)) Ht)
    as (j' & _ & He' & Hr & _ & ->); [done|].
  replace (now + MAX_DELAY) with d by lia.
  rewrite scheduleNext_runs, Hr. split; [done|].
  rewrite (scheduleNext_enabled d d' j') by (done || by rewrite He'). cbn zeta. by case_bool_decide.
Qed.
End job.

(** C40: Whatever the calls of [start] and [stop], the timers and the promises, a job
    has at most one timer or one run in progress; it has no timer once it is stopped;
    when the schedule always has a next date, it has one of them while it is enabled. *)
Theorem job_one_timer_or_run next j :
  reachable next j →
  (size (timers j) + promises j <= 1)%nat ∧
  (_isEnabled j = false → timers j = ∅) ∧
  ((∀ now, is_Some (next now)) → _isEnabled j = true → size (timers j) + promises j = 1)%nat.
Proof.
  intros [Ht Hp _ Hg]%reachable_job_ok. rewrite Hp. destruct Ht as [Ht|[(id & cb & due & _ & Ht) (He & Hr & _)]].
  - rewrite Ht, map_size_empty. split_and!; [destruct (_isRunning j); lia|done|].
    intros Hn He. destruct (Hg Hn He) as [-> | ?]; [done|congruence].
  - rewrite Ht, map_size_singleton, Hr. split_and!; [lia|congruence|done].
Qed.

(** The function is never called before a date, and that date is one that the
    schedule gave, even when the timers fire early. *)
Theorem job_runs_not_early next j d now :
  reachable next j → (d, now) ∈ runs j →
  ∃ date asked, d = Some date ∧ next asked = Some date ∧ date <= now.
Proof.
  intros [_ _ [_ Hr] _]%reachable_job_ok Hin. rewrite Forall_forall in Hr. by apply (Hr (d, now)).
Qed.

(** After [start] on a job that is not running, timers that fire on time lead to a
    call of the function at the next date of the schedule, through the timers of the
    longest delay that are needed, unless the last one ends at this date. *)
Theorem job_runs_at_date next o now d j :
  next_law next → reachable next j → _isRunning j = false →
  next now = Some d → (d - now) mod MAX_DELAY ≠ 0 →
  ∃ k, Z.of_nat k <= (d - now) / MAX_DELAY + 1 ∧
    runs (fire_times next k o (run_event next (Start now) j)) = runs j ++ [(Some d, d)].
Proof.
  intros Hlaw [Ht _ _ _]%reachable_job_ok Hrun Hn Hmod. unfold run_event. cbn [exec].
  rewrite start_run, stop_run, Hrun by done. cbn zeta.
  destruct (Hlaw _ _ Hn) as [Hlt _].
  destruct (scheduled_runs next o (Z.to_nat ((d - now) / MAX_DELAY)) now d
    (set_enabled true (set_timers ∅ (set_enabled false j)))) as (k & Hk & HR); try done.
  - rewrite Z2Nat.id; [done|]. apply Z.div_pos; [lia|done].
  - exists k. split; [|done].
    assert (0 <= (d - now) / MAX_DELAY) by (apply Z.div_pos; [lia|done]). lia.
Qed.

(** ** Concrete runs: a date every period *)

Definition every (period now : Z) : option Z := Some ((now / period + 1) * period).

Lemma every_law period : 0 < period → next_law (every period).
Proof.
  intros Hp now d [= <-].
  pose proof (Z.div_mod now period ltac:(lia)) as Hd. pose proof (Z.mod_pos_bound now period Hp).
  split; [lia|]. intros now' Hn. unfold every. do 3 f_equal.
  symmetry. apply (Z.div_unique_pos now' period (now / period) (now' - period * (now / period))); lia.
Qed.

Abbreviation every_minute := (every 60000).

Definition returns_promise : outcome := mkOutcome [CallStop; CallStart 60000] true 0.
Definition sample_events : list event :=
  [Start 10; Fire 0 59990 returns_promise; Fire 1 60001 returns_promise; Start 70000; Settle 70001].
Definition sample_job : Job := fold_left (λ j e, run_event every_minute e j) sample_events new_Job.

Lemma sample_reachable_job : reachable every_minute sample_job.
Proof.
  unfold sample_job, sample_events. cbn [fold_left].
  repeat (apply reachable_event; [|vm_compute; (exact I || (eexists; reflexivity) || discriminate)]).
  apply reachable_new.
Qed.

Lemma job_one_timer_or_run_witness :
  reachable every_minute sample_job ∧ _isEnabled sample_job = true ∧
  (size (timers sample_job) + promises sample_job = 1)%nat.
Proof.
  split; [exact sample_reachable_job|]. split; [reflexivity|].
  apply (job_one_timer_or_run every_minute sample_job sample_reachable_job);
    [intros now; eexists; reflexivity|reflexivity].
Defined.

Lemma job_runs_not_early_witness :
  (Some 60000, 60001) ∈ runs sample_job ∧
  ∃ date asked, Some 60000 = Some date ∧ every_minute asked = Some date ∧ date <= 60001.
Proof.
  assert ((Some 60000, 60001) ∈ runs sample_job) as Hin by (apply (bool_decide_unpack _); vm_compute; exact I).
  split; [exact Hin|]. apply (job_runs_not_early every_minute sample_job _ _ sample_reachable_job Hin).
Defined.

(** A date a month later, through a timer of the longest delay. *)
Abbreviation monthly := (every 2592000000).

Lemma job_runs_at_date_witness :
  monthly 5 = Some 2592000000 ∧
  ∃ k, Z.of_nat k <= 2 ∧
    runs (fire_times monthly k returns_promise (run_event monthly (Start 5) new_Job)) =
      [(Some 2592000000, 2592000000)].
Proof.
  split; [reflexivity|].
  apply (job_runs_at_date monthly returns_promise 5 2592000000 new_Job (every_law 2592000000 eq_refl) (reachable_new monthly));
    [reflexivity|reflexivity|vm_compute; discriminate].
Defined.

(** The same schedule, from the longest delay before its date: no run. *)
Example longest_delay :
  runs (fire_times monthly 1 returns_promise (run_event monthly (Start (2592000000 - MAX_DELAY)) new_Job)) = [].
Proof. vm_compute. reflexivity. Qed.
