(* ===== verification/Paths.v ===== *)
(** * Paths of a remote

    [@xen-orchestra/fs/path]: the paths of a remote never lead out of it.  [resolve],
    [relative], [dirname] and [basename] are those of the [path.posix] of Node.js. *)

From stdpp Require Import list.
From S2P Require Import Prelude JsValues.

Local Open Scope Z_scope.

(** ** [path.posix] *)

Definition sep : ascii := "/"%char.

(** The segments of a path, resolved from those of a directory: [..] at the root is the
    root. *)
Definition step_segment (dir : list jstring) (segment : jstring) : list jstring :=
  if bool_decide (segment = js "" ∨ segment = js ".") then dir
  else if bool_decide (segment = js "..") then take (pred (length dir)) dir
  else dir ++ [segment].
Definition normal (dir segments : list jstring) : list jstring := foldl step_segment dir segments.

Definition absolute (p : jstring) : bool := startsWith [sep] p.

(** [resolve('/', ...paths)] *)
Definition resolve_step (dir : list jstring) (p : jstring) : list jstring :=
  normal (if absolute p then [] else dir) (split_char sep p).
Definition resolve_segments (paths : list jstring) : list jstring := foldl resolve_step [] paths.
Definition resolve (paths : list jstring) : jstring := sep :: join [sep] (resolve_segments paths).

Fixpoint skip (f : ascii → bool) (s : jstring) : jstring :=
  match s with
  | [] => []
  | c :: s' => if f c then skip f s' else s
  end.

Definition is_sep (c : ascii) : bool := Ascii.eqb c sep.
Definition not_sep (c : ascii) : bool := negb (is_sep c).

Definition dirname (p : jstring) : jstring :=
  match skip not_sep (skip is_sep (rev p)) with
  | [] => if absolute p then js "/" else js "."
  | [_] => js "/"
  | _ :: rest => if bool_decide (rest = [sep]) then js "//" else rev rest
  end.

Definition basename (p : jstring) : jstring := rev (span not_sep (skip is_sep (rev p))).1.

(** [relative(from, to)], of absolute paths *)
Fixpoint relative_segments (from to : list jstring) : list jstring :=
  match from, to with
  | f :: from', t :: to' =>
      if bool_decide (f = t) then relative_segments from' to' else map (λ _, js "..") from ++ to
  | _, _ => map (λ _, js "..") from ++ to
  end.
Definition relative (from to : jstring) : jstring :=
  join [sep] (relative_segments (resolve_segments [from]) (resolve_segments [to])).

(** ** The module *)

Definition normalize (path : jstring) : jstring := resolve [path].

Definition split (path : jstring) : list jstring := tail (split_char sep (normalize path)).

Definition relativeFromFile (file path : jstring) : jstring :=
  relative (dirname (normalize file)) (normalize path).

(** [resolve('/', dirname(file), path).slice(1)] *)
Definition resolveFromFile (file path : jstring) : jstring := tail (resolve [dirname file; path]).

(** ** Lemmas on [path.posix] *)

(** A name in a directory. *)
Definition name (s : jstring) : Prop :=
  s ≠ js "" ∧ s ≠ js "." ∧ s ≠ js ".." ∧ sep ∉ s.

Example path_samples :
  map normalize [js "a//b/./c/"; js "../../a"; js "/a/../../b"; js ""] =
    [js "/a/b/c"; js "/a"; js "/b"; js "/"]
  ∧ map dirname [js "/a/b"; js "a/b//"; js "//a"; js "/"; js "a"; js ""; js "a//b"] =
    [js "/a"; js "a"; js "//"; js "/"; js "."; js "."; js "a/"]
  ∧ map basename [js "/a/b"; js "a/b//"; js "/"; js "a"] = [js "b"; js "b"; js ""; js "a"]
  ∧ relativeFromFile (js "d/.x.json") (js "/d/y/z") = js "y/z"
  ∧ relativeFromFile (js "/d/e/.x.json") (js "d/y") = js "../y"
  ∧ resolveFromFile (js "/d/e/.x.json") (js "../y") = js "d/y".
Proof. repeat split; reflexivity. Qed.

Lemma split_char_no_sep s : Forall (λ x, sep ∉ x) (split_char sep s).
Proof.
  induction s as [|c s IH]; cbn [split_char]; [by constructor; [apply not_elem_of_nil|]|].
  destruct (Ascii.eqb_spec c sep) as [->|Hc]; [by constructor; [apply not_elem_of_nil|]|].
  destruct (split_char sep s) as [|w ws]; inversion IH; subst; constructor; try done; set_solver.
Qed.

Lemma split_char_word s : sep ∉ s → split_char sep s = [s].
Proof.
  induction s as [|c s IH]; [done|]. intros [Hc Hs]%not_elem_of_cons. cbn [split_char].
  destruct (Ascii.eqb_spec c sep); [congruence|]. by rewrite IH.
Qed.

Lemma split_char_app s t : split_char sep s ≠ [] ∧
  split_char sep (s ++ sep :: t) = split_char sep s ++ split_char sep t.
Proof.
  induction s as [|c s [Hn IH]]; cbn [split_char app]; [done|].
  destruct (Ascii.eqb c sep); [by rewrite IH|].
  rewrite IH. destruct (split_char sep s); [done|]. done.
Qed.

Lemma split_char_join ps : ps ≠ [] → Forall (λ x, sep ∉ x) ps → split_char sep (join [sep] ps) = ps.
Proof.
  induction ps as [|p [|q ps] IH]; [done| |]; intros _ Hf; inversion Hf as [|? ? Hp Hps]; subst.
  - by apply split_char_word.
  - change (join [sep] (p :: q :: ps)) with (p ++ sep :: join [sep] (q :: ps)).
    rewrite (proj2 (split_char_app _ _)), split_char_word, IH; done.
Qed.

(** *** Normal segments *)

Lemma normal_app d xs ys : normal d (xs ++ ys) = normal (normal d xs) ys.
Proof. apply foldl_app. Qed.

Lemma normal_names d xs : Forall name xs → normal d xs = d ++ xs.
Proof.
  revert d. induction xs as [|x xs IH]; intros d Hf; [by rewrite app_nil_r|].
  inversion Hf as [|? ? (Hn1 & Hn2 & Hn3 & _) Hxs]; subst. cbn. unfold step_segment at 2.
  rewrite !bool_decide_eq_false_2 by naive_solver. rewrite IH by done. by rewrite <- app_assoc.
Qed.

Lemma names_normal d xs : Forall name d → Forall (λ x, sep ∉ x) xs → Forall name (normal d xs).
Proof.
  revert d. induction xs as [|x xs IH]; intros d Hd Hf; [done|]. inversion Hf; subst. apply IH; [|done].
  unfold step_segment. case_bool_decide as Hc1; [done|]. case_bool_decide as Hc2; [by apply Forall_take|].
  apply Forall_app_2; [done|]. repeat constructor; naive_solver.
Qed.

Lemma resolve_segments_names ps : Forall name (resolve_segments ps).
Proof.
  unfold resolve_segments. assert (Forall name []) as Hd by constructor. revert Hd.
  generalize (@nil jstring). induction ps as [|p ps IH]; intros d Hd; [done|]. cbn. apply IH.
  apply names_normal; [by destruct (absolute p); [constructor|]|apply split_char_no_sep].
Qed.

Lemma names_no_sep xs : Forall name xs → Forall (λ x, sep ∉ x) xs.
Proof. intros Hf. eapply Forall_impl; [exact Hf|]. by intros x (_ & _ & _ & ?). Qed.

(** The segments of a path. *)
Definition segments (p : jstring) : list jstring := normal [] (split_char sep p).

Lemma resolve_one p : resolve [p] = sep :: join [sep] (segments p).
Proof. unfold resolve, resolve_segments, segments. cbn. unfold resolve_step. by destruct (absolute p). Qed.

Lemma segments_join xs : Forall name xs → segments (join [sep] xs) = xs.
Proof.
  intros Hx. unfold segments. destruct xs as [|x xs]; [done|].
  rewrite split_char_join by (done || by apply names_no_sep). by apply normal_names.
Qed.

Lemma segments_sep p : segments (sep :: p) = segments p.
Proof. done. Qed.

Lemma segments_names p : Forall name (segments p).
Proof. apply names_normal; [constructor|apply split_char_no_sep]. Qed.

Lemma segments_resolve ps : segments (resolve ps) = resolve_segments ps.
Proof. unfold resolve. rewrite segments_sep. apply segments_join, resolve_segments_names. Qed.

Lemma segments_normalize p : segments (normalize p) = segments p.
Proof. unfold normalize. rewrite resolve_one, segments_sep. apply segments_join, segments_names. Qed.

Lemma normalize_segments p : normalize p = sep :: join [sep] (segments p).
Proof. apply resolve_one. Qed.

Lemma normalize_idemp p : normalize (normalize p) = normalize p.
Proof. by rewrite normalize_segments, segments_normalize, <- normalize_segments. Qed.

Lemma normalize_eq p q : normalize p = normalize q ↔ segments p = segments q.
Proof.
  split; [intros E; by rewrite <- (segments_normalize p), E, segments_normalize|].
  intros E. by rewrite !normalize_segments, E.
Qed.

(** *** [dirname] and [basename] *)

Lemma skip_span f s : span f s = ((span f s).1, skip f s).
Proof. induction s as [|c s IH]; cbn; [done|]. destruct (f c); [|done]. by rewrite IH. Qed.

Lemma basename_word s : s ≠ [] → sep ∉ s → ∀ d, basename (d ++ sep :: s) = s ∧
  skip not_sep (skip is_sep (rev (d ++ sep :: s))) = sep :: rev d.
Proof.
  intros Hs Hn d. rewrite rev_app_distr. cbn [rev]. unfold basename. rewrite rev_app_distr. cbn [rev].
  destruct (rev s) as [|c r] eqn:E.
  { apply (f_equal (@rev ascii)) in E. rewrite rev_involutive in E. done. }
  assert (Forall (λ c, is_sep c = false) (c :: r)) as Hf.
  { rewrite <- E. apply Forall_forall. intros x Hx. apply Ascii.eqb_neq. intros ->. apply Hn.
    apply list_elem_of_In, in_rev, list_elem_of_In. done. }
  rewrite <- !app_assoc. cbn [app]. inversion Hf as [|? ? Hc Hr]; subst. cbn [skip]. rewrite !Hc.
  assert (span not_sep (c :: r ++ sep :: rev d) = (c :: r, sep :: rev d)) as Hspan.
  { change (c :: r ++ sep :: rev d) with ((c :: r) ++ sep :: rev d). clear E Hn Hs Hc Hr. induction Hf as [|x l Hx _ IH]; [done|].
    cbn. unfold not_sep at 1. rewrite Hx. cbn. cbn in IH. by rewrite IH. }
  rewrite Hspan. cbn [fst]. split.
  - apply (f_equal (@rev ascii)) in E. by rewrite rev_involutive in E.
  - pose proof (skip_span not_sep (c :: r ++ sep :: rev d)) as Hk. rewrite Hspan in Hk. by injection Hk.
Qed.

Lemma basename_no_sep p : sep ∉ basename p.
Proof.
  unfold basename. intros Hin%list_elem_of_In%in_rev%list_elem_of_In. revert Hin. generalize (skip is_sep (rev p)) as s.
  induction s as [|c s IH]; cbn; [by intros ?%not_elem_of_nil|]. destruct (not_sep c) eqn:E; [|by intros ?%not_elem_of_nil].
  destruct (span not_sep s) as [a b]. cbn in *. intros [<-|Hin]%elem_of_cons; [done|]. by apply IH.
Qed.

Lemma segments_snoc_sep p : segments (p ++ [sep]) = segments p.
Proof.
  unfold segments. rewrite (proj2 (split_char_app p [])), normal_app. cbn. done.
Qed.

(** The directory of [d/name] is [d]. *)
Lemma segments_dirname d s : name s → segments (dirname (d ++ sep :: s)) = segments d.
Proof.
  intros (Hs & _ & _ & Hn). destruct (basename_word s Hs Hn d) as [_ E]. unfold dirname. rewrite E.
  destruct (rev d) as [|c r] eqn:Er; apply (f_equal (@rev ascii)) in Er; rewrite rev_involutive in Er; subst d; [done|].
  case_bool_decide as Hc; [by rewrite Hc|done].
Qed.

Lemma basename_name d s : name s → basename (d ++ sep :: s) = s.
Proof. intros (Hs & _ & _ & Hn). by apply basename_word. Qed.

Lemma segments_app d s : name s → segments (d ++ sep :: s) = segments d ++ [s].
Proof.
  intros Hs. unfold segments. rewrite (proj2 (split_char_app d s)), normal_app.
  rewrite (split_char_word s) by apply Hs. by apply normal_names; constructor; [|constructor].
Qed.

(** *** [relative] *)

Lemma normal_up d (xs : list jstring) : normal d (map (λ _, js "..") xs) = take (length d - length xs) d.
Proof.
  revert d. induction xs as [|x xs IH]; intros d; [by rewrite Nat.sub_0_r, take_ge|].
  change (normal d (map (λ _, js "..") (x :: xs))) with (normal (take (pred (length d)) d) (map (λ _, js "..") xs)).
  rewrite IH, take_take, length_take. f_equal. cbn [length]. lia.
Qed.

Lemma normal_relative c from to :
  Forall name (c ++ from) → Forall name to → normal (c ++ from) (relative_segments from to) = c ++ to.
Proof.
  assert (∀ c from to, Forall name to → normal (c ++ from) (map (λ _, js "..") from ++ to) = c ++ to) as Hup.
  { intros c1 from1 to1 Hto. rewrite normal_app, normal_up, length_app.
    rewrite Nat.add_sub, take_app_length. by apply normal_names. }
  revert c to. induction from as [|f from IH]; intros c [|t to] Hf Ht; cbn [relative_segments]; try by apply (Hup c _ _ Ht).
  case_bool_decide as E; [|by apply (Hup c (f :: from) _ Ht)]. subst t.
  replace (c ++ f :: from) with ((c ++ [f]) ++ from) in * by (by rewrite <- app_assoc).
  replace (c ++ f :: to) with ((c ++ [f]) ++ to) by (by rewrite <- app_assoc).
  apply IH; [done|]. by inversion Ht.
Qed.

Lemma relative_segments_spec from to : Forall name to →
  Forall (λ x, sep ∉ x ∧ x ≠ []) (relative_segments from to).
Proof.
  intros Ht. assert (∀ (from to : list jstring), Forall name to → Forall (λ x, sep ∉ x ∧ x ≠ []) (map (λ _, js "..") from ++ to)) as Hup.
  { clear. intros from to Ht. apply Forall_app. split.
    - induction from as [|x from IH]; constructor; [|done]. split; [|done]. apply (bool_decide_unpack _). vm_compute. exact I.
    - eapply Forall_impl; [exact Ht|]. by intros x (? & _ & _ & ?). }
  revert to Ht. induction from as [|f from IH]; intros [|t to] Ht; cbn [relative_segments]; try by apply (Hup _ _ Ht).
  case_bool_decide; [|by apply (Hup _ _ Ht)]. apply IH. by inversion Ht.
Qed.

Lemma relative_names from to : Forall name to →
  absolute (join [sep] (relative_segments from to)) = false ∧
  ∀ d, normal d (split_char sep (join [sep] (relative_segments from to))) = normal d (relative_segments from to).
Proof.
  intros Ht. pose proof (relative_segments_spec from to Ht) as Hf.
  destruct (relative_segments from to) as [|x xs]; [done|]. split.
  - inversion Hf as [|? ? [Hx Hne] _]; subst. destruct x as [|c x]; [done|].
    assert (c ≠ sep) by set_solver. unfold absolute, startsWith. apply bool_decide_eq_false.
    destruct xs; cbn; intros [=]; done.
  - intros d. rewrite split_char_join; [done|done|]. eapply Forall_impl; [exact Hf|]. by intros y [? _].
Qed.

(** ** Normal paths *)

(** A normal path stays in the root: it starts with a slash, has neither empty nor
    dot segments, does not end with a slash unless it is the root, and is its own
    normal form; what it denotes is what [path] does. *)
Theorem normalize_correct path :
  ∃ names, normalize path = sep :: join [sep] names
    ∧ Forall (λ s, s ≠ js "" ∧ s ≠ js "." ∧ s ≠ js ".." ∧ sep ∉ s) names
    ∧ split path = match names with [] => [[]] | _ => names end
    ∧ normalize (normalize path) = normalize path.
Proof.
  exists (segments path). split_and!; [apply normalize_segments|apply segments_names| |apply normalize_idemp].
  unfold split. rewrite normalize_segments. cbn. pose proof (segments_names path) as Hn.
  destruct (segments path) as [|x xs]; [done|]. by apply split_char_join; [|apply names_no_sep].
Qed.

Lemma join_snoc xs (s : jstring) :
  ∃ d, sep :: join [sep] (xs ++ [s]) = d ++ sep :: s ∧ segments d = segments (join [sep] xs).
Proof.
  destruct xs as [|x xs]; [by exists []|]. exists (sep :: join [sep] (x :: xs)). split; [|done].
  cbn [app]. f_equal. revert x. induction xs as [|y xs IH]; intros x; [done|].
  change (join [sep] (x :: (y :: xs) ++ [s])) with (x ++ sep :: join [sep] ((y :: xs) ++ [s])).
  change (join [sep] (x :: y :: xs)) with (x ++ sep :: join [sep] (y :: xs)).
  rewrite <- app_assoc. cbn [app]. f_equal. f_equal. apply (IH y).
Qed.

Lemma resolve_segments_one p : resolve_segments [p] = segments p.
Proof. unfold resolve_segments. cbn. unfold resolve_step. by destruct (absolute p). Qed.

Lemma segments_dirname_normalize d s : name s → segments (dirname (normalize (d ++ sep :: s))) = segments d.
Proof.
  intros Hs. rewrite normalize_segments, segments_app by done.
  destruct (join_snoc (segments d) s) as (d' & -> & Hd'). rewrite segments_dirname, Hd' by done.
  apply segments_join, segments_names.
Qed.

Lemma normalize_tail_resolve ps : segments (tail (resolve ps)) = resolve_segments ps.
Proof. unfold resolve. cbn [tail]. apply segments_join, resolve_segments_names. Qed.

Lemma resolve_relative dir from to :
  segments dir = from → Forall name to →
  resolve_segments [dir; join [sep] (relative_segments from to)] = to.
Proof.
  intros Hd Ht. destruct (relative_names from to Ht) as [Habs Hsplit].
  change (resolve_segments [dir; join [sep] (relative_segments from to)])
    with (resolve_step (resolve_segments [dir]) (join [sep] (relative_segments from to))).
  unfold resolve_step. rewrite Habs, Hsplit, resolve_segments_one, Hd.
  apply (normal_relative [] from to); [|done]. rewrite <- Hd. apply segments_names.
Qed.

Lemma relative_read dir dir' s path :
  name s → normalize dir = normalize dir' →
  normalize (resolveFromFile (dir' ++ sep :: s) (relativeFromFile (dir ++ sep :: s) path)) = normalize path.
Proof.
  intros Hs Hd. apply normalize_eq in Hd. apply normalize_eq.
  unfold relativeFromFile, resolveFromFile, relative. rewrite normalize_tail_resolve, !resolve_segments_one.
  rewrite segments_dirname_normalize, segments_normalize by done.
  apply resolve_relative; [by rewrite segments_dirname|apply segments_names].
Qed.

(** A path that is written in a file relatively to it, as the chain of a merge is in
    its state, is read from there as the same path, whichever way the directory of the
    file is spelled. *)
Theorem relative_roundtrip dir dir' s path :
  s ≠ js "" → s ≠ js "." → s ≠ js ".." → sep ∉ s → normalize dir = normalize dir' →
  normalize (resolveFromFile (dir' ++ sep :: s) (relativeFromFile (dir ++ sep :: s) path)) = normalize path.
Proof. intros. by apply relative_read. Qed.

Lemma relative_roundtrip_witness :
  normalize (resolveFromFile (js "/x/vdis//d" ++ sep :: js ".a.vhd.merge.json")
    (relativeFromFile (js "x/vdis/d/" ++ sep :: js ".a.vhd.merge.json") (js "x/vdis/d/a.vhd"))) =
  js "/x/vdis/d/a.vhd".
Proof.
  rewrite (relative_roundtrip (js "x/vdis/d/") (js "/x/vdis//d") (js ".a.vhd.merge.json") (js "x/vdis/d/a.vhd"));
    [reflexivity|done..|apply (bool_decide_unpack _); vm_compute; exact I|reflexivity].
Defined.
