(* ===== verification/DiskLineage.v ===== *)
(** * The disks of a backed up VDI

    [RemoteDiskLineage] of @xen-orchestra/backup-archive: the disks of a directory, each
    over its parent, those that cannot be read, and the merges that were interrupted
    ([findInterruptedMerges] of [MergeRemoteDisk]).  What is deleted and merged is
    decided in [LineageClean.v].

    Listing a directory, opening a disk, comparing two of them and reading the state of
    a merge are parameters; closing a disk is taken not to fail. *)

From stdpp Require Import gmap list.
From S2P Require Import Prelude JsValues Paths.

Local Open Scope Z_scope.

(** ** State *)

Abbreviation path := jstring.

(** An interrupted merge: its chain is undefined when its state cannot be read. *)
Record Interrupted := mkInterrupted {
  stateFilePath : path;
  chain : option (list path);
  mstep : option jstring;
}.

(** The sets and maps of the object; the order of [diskPaths] and of the interrupted
    merges is that of their insertion. *)
Record Lineage := mkLineage {
  diskPaths : list path;
  brokenDiskPaths : gset path;
  parentOf : gmap path path;
  childOf : gmap path path;
  activeDiskPaths : gset path;
  interruptedMerges : list (path * Interrupted);
}.

Definition endless : error := OtherError "endless loop".
Definition NOT_SUPPORTED : error := OtherError "NOT_SUPPORTED".

(** ** Names of files *)

(** [text] ends with [end]. *)
Definition endsWith (e s : jstring) : bool := startsWith (rev e) (rev s).

Definition isDisk (p : path) : bool := endsWith (js ".vhd") p.

(** [/^\.(.+)\.merge\.json$/] *)
Definition MERGE_STATE_FILE_RE (s : jstring) : option jstring :=
  match s with
  | c :: s =>
      let m := take (length s - 11) s in
      if Ascii.eqb c "." && endsWith (js ".merge.json") s && negb (bool_decide (m = []))
         && forallb (λ c, negb (is_line_terminator c)) m
      then Some m else None
  | [] => None
  end.

(** [set.add(x)], in the order of insertion *)
Definition set_add (xs : list path) (x : path) : list path :=
  if bool_decide (x ∈ xs) then xs else xs ++ [x].

(** [map.set(k, v)], in the order of insertion *)
Fixpoint map_set {A} (k : path) (v : A) (m : list (path * A)) : list (path * A) :=
  match m with
  | [] => [(k, v)]
  | (k', v') :: m => if bool_decide (k = k') then (k, v) :: m else (k', v') :: map_set k v m
  end.

(** ** Disks and states *)

(** What is read of a disk: [header.parentUnicodeName] is relative to its directory. *)
Record Disk := mkDisk { getUuid : jstring; isDifferencing : bool; parentUnicodeName : jstring }.

Definition getParentPath (p : path) (d : Disk) : path :=
  normalize (dirname p ++ sep :: parentUnicodeName d).

(** What is read of the state of a merge. *)
Record MergeState := mkMergeState {
  st_step : option jstring;
  st_chain : option (list path);
  st_childUuid : option jstring;
}.

(** What [MergeRemoteDisk] records: the parent, then the disks that are merged into it. *)
Definition statePath (parent : path) : path :=
  dirname parent ++ sep :: js "." ++ basename parent ++ js ".merge.json".
Definition recordedChain (parent : path) (children : list path) : list path :=
  map (relativeFromFile (statePath parent)) (parent :: children).

Section init.
Context (openDisk : path → bool → result Disk).
Context (containsAllDataOf : path → path → result bool).
Context (readState : path → result MergeState).
Context (vdiDir : path) (merge : bool).

(** ** Reading the disks *)

Definition unregisterDisk (p : path) (l : Lineage) : Lineage :=
  let '(po, co) :=
    match parentOf l !! p with
    | Some parent => (delete p (parentOf l), delete parent (childOf l))
    | None => (parentOf l, childOf l)
    end in
  let '(po, co) :=
    match co !! p with
    | Some child => (delete child po, delete p co)
    | None => (po, co)
    end in
  mkLineage (filter (λ q, q ≠ p) (diskPaths l)) (brokenDiskPaths l) po co
    (activeDiskPaths l) (interruptedMerges l).

Definition set_parent (p parent : path) (l : Lineage) : Lineage :=
  mkLineage (diskPaths l) (brokenDiskPaths l) (<[p := parent]> (parentOf l)) (childOf l)
    (activeDiskPaths l) (interruptedMerges l).
Definition set_child (parent p : path) (l : Lineage) : Lineage :=
  mkLineage (diskPaths l) (brokenDiskPaths l) (parentOf l) (<[parent := p]> (childOf l))
    (activeDiskPaths l) (interruptedMerges l).
Definition set_broken (p : path) (l : Lineage) : Lineage :=
  mkLineage (diskPaths l) ({[p]} ∪ brokenDiskPaths l) (parentOf l) (childOf l)
    (activeDiskPaths l) (interruptedMerges l).
Definition set_interrupted (m : list (path * Interrupted)) (l : Lineage) : Lineage :=
  mkLineage (diskPaths l) (brokenDiskPaths l) (parentOf l) (childOf l) (activeDiskPaths l) m.

Record Reading := mkReading { lineage : Lineage; uuidToPath : gmap jstring path }.

Definition on_lineage (f : Lineage → Lineage) : M Reading unit :=
  modify (λ r, mkReading (f (lineage r)) (uuidToPath r)).

(** [try { ... } catch (error) { log }] *)
Definition try_log {S} (m : M S unit) : M S unit := λ s, (Ok tt, (m s).2).

(** A disk with the uuid of [existingPath]: whether it is registered in its place. *)
Definition replacesDuplicate (existingPath diskPath : path) : M Reading bool :=
  match
    _ ← openDisk existingPath false;
    superset ← containsAllDataOf existingPath diskPath;
    if superset : bool then Ok false else containsAllDataOf diskPath existingPath
  with
  | Ok b => mret b
  | Throw _ => on_lineage (unregisterDisk existingPath) ;; mret true
  end.

Definition register (diskPath : path) (disk : Disk) : M Reading unit :=
  modify (λ r, mkReading (lineage r) (<[getUuid disk := diskPath]> (uuidToPath r))) ;;
  if isDifferencing disk then
    let parentPath := getParentPath diskPath disk in
    on_lineage (set_parent diskPath parentPath) ;;
    r ← gets (λ r, childOf (lineage r) !! parentPath);
    match r with
    | Some _ => lift (Throw (OtherError "this script does not support multiple children"))
    | None => on_lineage (set_child parentPath diskPath)
    end
  else mret tt.

Definition readDisk (diskPath : path) (disk : Disk) : M Reading unit :=
  existing ← gets (λ r, uuidToPath r !! getUuid disk);
  registers ← match existing with
              | Some existingPath => replacesDuplicate existingPath diskPath
              | None => mret true
              end;
  if registers : bool then register diskPath disk else mret tt.

(** The disks on which a merge was interrupted are opened by force. *)
Definition initDisk (mergeParentPaths : list path) (diskPath : path) : M Reading unit :=
  match openDisk diskPath (bool_decide (diskPath ∈ mergeParentPaths)) with
  | Throw e =>
      if bool_decide (e = NOT_SUPPORTED) && merge then lift (Throw e)
      else on_lineage (set_broken diskPath)
  | Ok disk => try_log (readDisk diskPath disk)
  end.

(** ** Interrupted merges *)

Definition mergeParent (file : path) : option path :=
  option_map (λ m, normalize (vdiDir ++ sep :: m)) (MERGE_STATE_FILE_RE (basename file)).

Definition readInterrupted (uuidToPath childOf : gmap jstring path) (file parentPath : path) : Interrupted :=
  match readState file with
  | Throw _ => mkInterrupted file None None
  | Ok state =>
      let step := default (js "mergeBlocks") (st_step state) in
      let chain :=
        match st_chain state with
        | Some c => Some (map (λ rel, normalize (resolveFromFile file rel)) c)
        | None =>
            let childPath := match st_childUuid state with
                             | Some u => uuidToPath !! u
                             | None => childOf !! parentPath
                             end in
            option_map (λ child, [parentPath; child]) childPath
        end in
      mkInterrupted file chain (Some step)
  end.

Definition findInterruptedMerges (files : list path) (uuidToPath childOf : gmap jstring path) :
    list (path * Interrupted) :=
  foldl (λ m file, match mergeParent file with
                   | Some p => map_set p (readInterrupted uuidToPath childOf file p) m
                   | None => m
                   end) [] files.

(** ** Broken disks *)

Fixpoint propagateBroken (fuel : nat) (p : path) : M Lineage unit :=
  broken ← gets brokenDiskPaths;
  if bool_decide (p ∈ broken) then mret tt
  else match fuel with
       | O => lift (Throw endless)
       | S fuel =>
           modify (set_broken p) ;;
           child ← gets (λ l, childOf l !! p);
           match child with
           | Some child => propagateBroken fuel child
           | None => mret tt
           end
       end.

(** The entries of [#parentOf] are in the order of the disks. *)
Definition checkParent (child : path) : M Lineage unit :=
  l ← gets (λ l, l);
  match parentOf l !! child with
  | Some parent =>
      if negb (bool_decide (parent ∈ diskPaths l)) || bool_decide (parent ∈ brokenDiskPaths l) then
        propagateBroken (S (size (childOf l))) child
      else mret tt
  | None => mret tt
  end.

(** ** [init] *)

Definition empty_lineage : Lineage := mkLineage [] ∅ ∅ ∅ ∅ [].

Definition listDisks (files : list path) : list path :=
  foldl (λ ds f, if isDisk f then set_add ds (normalize f) else ds) [] files.

Definition init (files : result (list path)) : result Lineage :=
  match files with
  | Throw e => if bool_decide (e = NOT_SUPPORTED) then Throw e else Ok empty_lineage
  | Ok files =>
      let disks := listDisks files in
      let l0 := mkLineage disks ∅ ∅ ∅ ∅ [] in
      let '(r, s) := for_each disks (initDisk (omap mergeParent files)) (mkReading l0 ∅) in
      r ;;
      let l := set_interrupted (findInterruptedMerges files (uuidToPath s) (childOf (lineage s))) (lineage s) in
      let '(r, l) := for_each (diskPaths l) checkParent l in
      r ;; Ok l
  end.
End init.

Definition isPathAccessible (l : Lineage) (p : path) : bool :=
  bool_decide (p ∈ diskPaths l) && negb (bool_decide (p ∈ brokenDiskPaths l)).
Definition isBroken (l : Lineage) (p : path) : bool := bool_decide (p ∈ brokenDiskPaths l).

Definition addActiveDiskPath (p : path) (l : Lineage) : Lineage :=
  mkLineage (diskPaths l) (brokenDiskPaths l) (parentOf l) (childOf l)
    ({[normalize p]} ∪ activeDiskPaths l) (interruptedMerges l).

(** ** Links between disks *)

(** Each disk is the child of its parent only. *)
Definition linked (l : Lineage) : Prop := ∀ p c, childOf l !! p = Some c ↔ parentOf l !! c = Some p.

Definition inverse (po co : gmap path path) : Prop := ∀ p c, co !! p = Some c ↔ po !! c = Some p.

Lemma inverse_delete po co p c : inverse po co → po !! c = Some p → inverse (delete c po) (delete p co).
Proof.
  intros Hi Hc q d. rewrite !lookup_delete_Some, (Hi q d). split; intros [Hne Hd]; (split; [|done]); intros ->;
    apply Hne; [congruence|]. apply Hi in Hc, Hd. congruence.
Qed.

Lemma inverse_insert po co p c :
  inverse po co → po !! c = None → co !! p = None → inverse (<[c := p]> po) (<[p := c]> co).
Proof.
  intros Hi Hc Hp q d. rewrite !lookup_insert_Some, (Hi q d).
  split; (intros [[-> ->]|[Hne Hd]]; [by left|right; split; [|done]]); intros ->; try congruence.
  apply Hi in Hd. congruence.
Qed.

Lemma unregisterDisk_links p l :
  linked l →
  linked (unregisterDisk p l) ∧
  parentOf (unregisterDisk p l) ⊆ parentOf l ∧ parentOf (unregisterDisk p l) !! p = None ∧
  (∀ q, q ∈ diskPaths (unregisterDisk p l) ↔ q ∈ diskPaths l ∧ q ≠ p) ∧
  brokenDiskPaths (unregisterDisk p l) = brokenDiskPaths l ∧
  activeDiskPaths (unregisterDisk p l) = activeDiskPaths l.
Proof.
  intros Hl. change (inverse (parentOf l) (childOf l)) in Hl. unfold unregisterDisk.
  assert (∃ po co, match parentOf l !! p with
      | Some parent => (delete p (parentOf l), delete parent (childOf l))
      | None => (parentOf l, childOf l) end = (po, co) ∧ inverse po co ∧ po ⊆ parentOf l ∧ po !! p = None)
    as (po & co & -> & Hi & Hsub & Hp).
  { destruct (parentOf l !! p) as [q|] eqn:E; eexists _, _; (split; [done|]); [|done].
    split_and!; [by apply inverse_delete|apply delete_subseteq|apply lookup_delete_eq]. }
  destruct (co !! p) as [c|] eqn:E; cbn; (split_and!; [..|done|done]);
    try (intros q; rewrite list_elem_of_filter; tauto); try done.
  - apply inverse_delete; [done|]. by apply Hi.
  - etrans; [apply delete_subseteq|done].
  - rewrite lookup_delete_None. by right.
Qed.

(** ** The disks that are read *)

Lemma set_add_spec xs x : (∀ y, y ∈ set_add xs x ↔ y ∈ xs ∨ y = x) ∧ (NoDup xs → NoDup (set_add xs x)).
Proof.
  unfold set_add. case_bool_decide; [split; [|done]; intros y; split; [auto|by intros [?| ->]]|].
  split; [intros y; by rewrite elem_of_app, list_elem_of_singleton|].
  intros Hn. apply NoDup_app. split_and!; [done| |apply NoDup_singleton]. by intros y Hy ->%list_elem_of_singleton.
Qed.

Lemma listDisks_spec files :
  NoDup (listDisks files) ∧ ∀ p, p ∈ listDisks files ↔ ∃ f, f ∈ files ∧ isDisk f = true ∧ normalize f = p.
Proof.
  unfold listDisks. induction files as [|f files [Hn IH]] using rev_ind.
  { split; [constructor|]. intros p. split; [by intros ?%elem_of_nil|]. by intros (f & ?%elem_of_nil & _). }
  rewrite foldl_app. cbn [foldl]. set (ds := foldl _ [] files) in *.
  destruct (isDisk f) eqn:Hf.
  - destruct (set_add_spec ds (normalize f)) as [He Hd].
    split; [by apply Hd|]. intros p. rewrite He, IH. setoid_rewrite elem_of_app. setoid_rewrite list_elem_of_singleton.
    naive_solver.
  - split; [done|]. intros p. rewrite IH. setoid_rewrite elem_of_app. setoid_rewrite list_elem_of_singleton.
    split; [naive_solver|]. intros (g & [?| ->] & ? & ?); [naive_solver|congruence].
Qed.

Section reading.
Context (openDisk : path → bool → result Disk).
Context (containsAllDataOf : path → path → result bool).
Context (merge : bool).

(** How [init] opens a disk. *)
Definition opened (mergeParentPaths : list path) (p : path) : result Disk :=
  openDisk p (bool_decide (p ∈ mergeParentPaths)).

(** The parent that its header tells of. *)
Definition header_parent (mergeParentPaths : list path) (c p : path) : Prop :=
  ∃ d, opened mergeParentPaths c = Ok d ∧ isDifferencing d = true ∧ getParentPath c d = p.

(** No two disks have the same parent. *)
Definition single_child (mergeParentPaths disks : list path) : Prop :=
  ∀ c c' p, c ∈ disks → c' ∈ disks →
    header_parent mergeParentPaths c p → header_parent mergeParentPaths c' p → c = c'.

(** No two disks have the same uuid. *)
Definition distinct_uuids (mergeParentPaths disks : list path) : Prop :=
  ∀ c c' d d', c ∈ disks → c' ∈ disks → opened mergeParentPaths c = Ok d → opened mergeParentPaths c' = Ok d' →
    getUuid d = getUuid d' → c = c'.

(** A disk of the directory reads through [p]: [p] is the disk, or one of those that the
    headers lead to. *)
Definition header_reads (mergeParentPaths disks : list path) : path → path → Prop :=
  rtc (λ c p, c ∈ disks ∧ header_parent mergeParentPaths c p).

Context (mps disks : list path).

(** After the disks [seen]; the links of the headers are all there unless a uuid is twice. *)
Record reading_ok (seen : list path) (r : Reading) : Prop := {
  rd_linked : linked (lineage r);
  rd_disks p : p ∈ diskPaths (lineage r) → p ∈ disks;
  rd_parent c p : parentOf (lineage r) !! c = Some p → c ∈ seen ∧ c ∈ diskPaths (lineage r) ∧ header_parent mps c p;
  rd_uuid u p : uuidToPath r !! u = Some p → p ∈ seen ∧ p ∈ disks ∧ ∃ d, opened mps p = Ok d ∧ getUuid d = u;
  rd_links : distinct_uuids mps disks → ∀ c p, c ∈ seen → header_parent mps c p → parentOf (lineage r) !! c = Some p;
  rd_todo p : p ∈ disks → p ∉ seen → p ∈ diskPaths (lineage r);
  rd_broken p : p ∈ brokenDiskPaths (lineage r) ↔ p ∈ seen ∧ ∃ e, opened mps p = Throw e;
  rd_active : activeDiskPaths (lineage r) = ∅;
}.

(** Unregistering a disk, when [seen] holds it. *)
Lemma unregister_ok seen r p :
  ¬ distinct_uuids mps disks → reading_ok seen r → p ∈ seen → reading_ok seen (mkReading (unregisterDisk p (lineage r)) (uuidToPath r)).
Proof.
  intros Hdup [Hl Hd Hp Hu _ Ht Hb Ha] Hin.
  destruct (unregisterDisk_links p _ Hl) as (Hl' & Hsub & Hnone & Hdisks & Hbroken & Hactive).
  split; cbn [lineage uuidToPath]; rewrite ?Hbroken, ?Hactive; try done.
  - intros q [? _]%Hdisks. by apply Hd.
  - intros c q Hc. assert (c ≠ p) by congruence.
    destruct (Hp c q) as (? & ? & ?); [by eapply lookup_weaken|]. split_and!; [done|by apply Hdisks|done].
  - intros q Hq Hs. apply Hdisks. split; [by apply Ht|]. by intros ->.
Qed.

Lemma register_ok seen r p d :
  single_child mps disks → reading_ok seen r → p ∈ disks → p ∉ seen → opened mps p = Ok d →
  ∃ r', register p d r = (Ok tt, r') ∧ reading_ok (seen ++ [p]) r'.
Proof.
  intros Hsingle [Hl Hd Hp Hu Hlk Ht Hb Ha] Hin Hs Ho.
  assert (∀ q, q ∈ brokenDiskPaths (lineage r) ↔ q ∈ seen ++ [p] ∧ ∃ e, opened mps q = Throw e) as Hb'.
  { intros q. rewrite Hb, elem_of_app, list_elem_of_singleton. split; [naive_solver|].
    intros [[?| ->] ?]; [done|]. naive_solver congruence. }
  assert (∀ u q, <[getUuid d := p]> (uuidToPath r) !! u = Some q →
    q ∈ seen ++ [p] ∧ q ∈ disks ∧ ∃ d, opened mps q = Ok d ∧ getUuid d = u) as Hu'.
  { intros u q. rewrite lookup_insert_Some, elem_of_app, list_elem_of_singleton.
    intros [[<- <-]|[_ (? & ? & ?)%Hu]]; [split; [by right|split; [done|by exists d]]|auto]. }
  assert (parentOf (lineage r) !! p = None) as Hnone.
  { apply eq_None_not_Some. intros [q Hq]. by apply Hp in Hq as (? & _). }
  unfold register, on_lineage, mbind, M_bind, gets, modify. cbn [lineage uuidToPath].
  destruct (isDifferencing d) eqn:Hdiff.
  - cbn [lineage set_parent childOf]. assert (header_parent mps p (getParentPath p d)) as Hh by by exists d.
    destruct (childOf (lineage r) !! getParentPath p d) as [c|] eqn:Hc.
    { exfalso. apply Hl in Hc as Hpc. apply Hp in Hpc as (Hcs & Hcd & Hhc). apply Hs.
      by rewrite (Hsingle p c (getParentPath p d) Hin (Hd c Hcd) Hh Hhc). }
    eexists. split; [done|]. split; cbn; try done.
    + by apply inverse_insert.
    + intros c q. rewrite lookup_insert_Some, elem_of_app, list_elem_of_singleton.
      intros [[<- <-]|[_ Hq]]; [split_and!; [by right|by apply Ht|done]|]. apply Hp in Hq as (? & ? & ?). auto.
    + intros Hdist c q. rewrite elem_of_app, list_elem_of_singleton. intros [Hc'| ->] Hq.
      * rewrite lookup_insert_ne by (by intros ->). by apply Hlk.
      * destruct Hq as (d' & Ho' & _ & <-). rewrite Ho in Ho'. injection Ho' as <-. apply lookup_insert_eq.
    + intros q Hq Hns. apply Ht; [done|]. intros ?. apply Hns, elem_of_app. by left.
  - eexists. split; [done|]. split; cbn; try done.
    + intros c q Hq. apply Hp in Hq as (? & ? & ?). rewrite elem_of_app. auto.
    + intros Hdist c q. rewrite elem_of_app, list_elem_of_singleton. intros [Hc'| ->] Hq; [by apply Hlk|].
      destruct Hq as (d' & Ho' & Hd' & _). congruence.
    + intros q Hq Hns. apply Ht; [done|]. intros ?. apply Hns, elem_of_app. by left.
Qed.

Lemma reading_ok_skip seen r p d :
  ¬ distinct_uuids mps disks → reading_ok seen r → opened mps p = Ok d → reading_ok (seen ++ [p]) r.
Proof.
  intros Hdup [Hl Hd Hp Hu _ Ht Hb Ha] Ho. split; try done.
  - intros c q Hq. apply Hp in Hq as (? & ? & ?). rewrite elem_of_app. auto.
  - intros u q (? & ? & ?)%Hu. rewrite elem_of_app. auto.
  - intros q Hq Hns. apply Ht; [done|]. intros ?. apply Hns, elem_of_app. by left.
  - intros q. rewrite Hb, elem_of_app, list_elem_of_singleton. split; [naive_solver|].
    intros [[?| ->] ?]; [done|]. naive_solver congruence.
Qed.

Lemma readDisk_ok seen r p d :
  single_child mps disks → reading_ok seen r → p ∈ disks → p ∉ seen → opened mps p = Ok d →
  ∃ r', readDisk openDisk containsAllDataOf p d r = (Ok tt, r') ∧ reading_ok (seen ++ [p]) r'.
Proof.
  intros Hsingle Hr Hin Hs Ho. unfold readDisk, mbind at 1, M_bind at 1, gets at 1.
  destruct (uuidToPath r !! getUuid d) as [q|] eqn:Hq.
  2:{ unfold mbind, M_bind, mret, M_ret. by eapply register_ok. }
  destruct (rd_uuid _ _ Hr _ _ Hq) as (Hqs & Hqd & dq & Hoq & Hu).
  assert (¬ distinct_uuids mps disks) as Hdup.
  { intros Hdist. apply Hs. by rewrite (Hdist p q d dq). }
  unfold mbind at 1, M_bind at 1, replacesDuplicate.
  set (dup := (_ ← openDisk q false; _) : result bool). destruct dup as [[]|e].
  - unfold mret, M_ret. by eapply register_ok.
  - unfold mret, M_ret. exists r. split; [done|]. by eapply reading_ok_skip.
  - unfold on_lineage, modify, mbind, M_bind, mret, M_ret.
    eapply register_ok; [done| |done..]. by apply unregister_ok.
Qed.

Lemma initDisk_ok seen r p :
  single_child mps disks → reading_ok seen r → p ∈ disks → p ∉ seen →
  (merge = true → opened mps p ≠ Throw NOT_SUPPORTED) →
  ∃ r', initDisk openDisk containsAllDataOf merge mps p r = (Ok tt, r') ∧ reading_ok (seen ++ [p]) r'.
Proof.
  intros Hsingle Hr Hin Hs Hns. unfold initDisk. fold (opened mps p). destruct (opened mps p) as [d|e] eqn:Ho.
  - destruct (readDisk_ok seen r p d) as (r' & Hrun & Hr'); [done..|]. exists r'. split; [|done].
    unfold try_log. by rewrite Hrun.
  - assert (bool_decide (e = NOT_SUPPORTED) && merge = false) as ->.
    { destruct merge; [|by rewrite andb_false_r]. rewrite andb_true_r. apply bool_decide_eq_false.
      intros ->. by apply Hns. }
    eexists. split; [done|]. destruct Hr as [Hl Hd Hp Hu Hlk Ht Hb Ha]. split; cbn; try done.
    + intros c q Hq. apply Hp in Hq as (? & ? & ?). rewrite elem_of_app. auto.
    + intros u q (? & ? & ?)%Hu. rewrite elem_of_app. auto.
    + intros Hdist c q. rewrite elem_of_app, list_elem_of_singleton. intros [Hc| ->] Hq; [by apply Hlk|].
      destruct Hq as (d' & Ho' & _). congruence.
    + intros q Hq Hnq. apply Ht; [done|]. intros ?. apply Hnq, elem_of_app. by left.
    + intros q. rewrite elem_of_union, elem_of_singleton, Hb, elem_of_app, list_elem_of_singleton. naive_solver.
Qed.

Lemma initDisks_ok todo seen r :
  single_child mps disks → reading_ok seen r → NoDup (seen ++ todo) → (∀ p, p ∈ todo → p ∈ disks) →
  (∀ p, p ∈ todo → merge = true → opened mps p ≠ Throw NOT_SUPPORTED) →
  ∃ r', for_each todo (initDisk openDisk containsAllDataOf merge mps) r = (Ok tt, r') ∧ reading_ok (seen ++ todo) r'.
Proof.
  intros Hsingle. revert seen r. induction todo as [|p todo IH]; intros seen r Hr Hn Hin Hns.
  { exists r. rewrite app_nil_r. by split. }
  assert (p ∉ seen) as Hps. { apply NoDup_app in Hn as (_ & Hd & _). intros ?. by apply (Hd p); [|left]. }
  destruct (initDisk_ok seen r p Hsingle Hr) as (r1 & Hrun & Hr1);
    [apply Hin; by left|done|apply Hns; by left|].
  cbn [for_each]. unfold mbind, M_bind. rewrite Hrun.
  replace (seen ++ p :: todo) with ((seen ++ [p]) ++ todo) in * by by rewrite <- app_assoc.
  apply IH; [done|done|intros q Hq; apply Hin; by right|intros q Hq; apply Hns; by right].
Qed.
End reading.

(** ** Broken disks *)

(** [a] reads through [p]: [p] is [a] or one of its ancestors. *)
Definition reads (l : Lineage) : path → path → Prop := rtc (λ c p, parentOf l !! c = Some p).

(** [l'] is [l] with more broken disks. *)
Definition with_broken (l : Lineage) (b : gset path) : Lineage :=
  mkLineage (diskPaths l) b (parentOf l) (childOf l) (activeDiskPaths l) (interruptedMerges l).

Lemma with_broken_self l : with_broken l (brokenDiskPaths l) = l.
Proof. by destruct l. Qed.

Lemma propagateBroken_ok fuel p l :
  linked l → (size (dom (childOf l) ∖ brokenDiskPaths l) < fuel)%nat →
  ∃ b, propagateBroken fuel p l = (Ok tt, with_broken l b) ∧ brokenDiskPaths l ⊆ b ∧ p ∈ b ∧
    (∀ x, x ∈ b → x ∈ brokenDiskPaths l ∨ reads l x p) ∧
    (∀ x c, x ∈ b → x ∉ brokenDiskPaths l → childOf l !! x = Some c → c ∈ b).
Proof.
  revert p l. induction fuel as [|fuel IH]; intros p l Hl Hf; [lia|].
  cbn [propagateBroken]. unfold mbind at 1, M_bind at 1, gets at 1. case_bool_decide as Hp.
  { exists (brokenDiskPaths l). rewrite with_broken_self. split_and!; [done..|by left|done]. }
  unfold mbind at 1, M_bind at 1, modify, mbind at 1, M_bind at 1, gets. cbn [childOf set_broken].
  destruct (childOf l !! p) as [c|] eqn:Hc.
  - destruct (IH c (set_broken p l)) as (b & Hrun & Hsub & Hcb & Hfrom & Hclosed).
    + done.
    + cbn. assert (p ∈ dom (childOf l)) by by eapply elem_of_dom_2.
      assert (size (dom (childOf l) ∖ ({[p]} ∪ brokenDiskPaths l)) < size (dom (childOf l) ∖ brokenDiskPaths l))%nat
        by (apply subset_size; set_solver). lia.
    + cbn in Hsub, Hfrom, Hclosed. exists b. rewrite Hrun. split_and!; [done|set_solver|set_solver| |].
      * intros x Hx. destruct (Hfrom x Hx) as [[->%elem_of_singleton|]%elem_of_union|Hr];
          [right; apply rtc_refl|by left|right]. eapply rtc_r; [exact Hr|]. by apply Hl.
      * intros x d Hx Hxb Hd. destruct (decide (x = p)) as [->|]; [by simplify_eq|].
        apply (Hclosed x d); [done|set_solver|done].
  - exists ({[p]} ∪ brokenDiskPaths l). split_and!; [done|set_solver|set_solver| |].
    + intros x [->%elem_of_singleton|]%elem_of_union; [right; apply rtc_refl|by left].
    + intros x d [->%elem_of_singleton|]%elem_of_union; congruence.
Qed.

(** A disk without which [p] cannot be read. *)
Definition unreadable (l : Lineage) (b : gset path) (p : path) : Prop :=
  ∃ q, reads l p q ∧ (q ∈ b ∨ q ∉ diskPaths l).

(** The loop on the parents; [b0] are the disks that did not open. *)
Record broken_ok (l0 : Lineage) (b : gset path) : Prop := {
  bk_sub : brokenDiskPaths l0 ⊆ b;
  bk_sound p : p ∈ b → unreadable l0 (brokenDiskPaths l0) p;
  bk_closed p c : p ∈ b → p ∉ brokenDiskPaths l0 → childOf l0 !! p = Some c → c ∈ b;
}.

Lemma checkParent_ok l0 b c :
  linked l0 → broken_ok l0 b →
  ∃ b', checkParent c (with_broken l0 b) = (Ok tt, with_broken l0 b') ∧ broken_ok l0 b' ∧ b ⊆ b' ∧
    ∀ p, parentOf l0 !! c = Some p → p ∈ brokenDiskPaths l0 ∨ p ∉ diskPaths l0 → c ∈ b'.
Proof.
  intros Hl [Hsub Hsound Hclosed]. unfold checkParent, mbind at 1, M_bind at 1, gets. cbn [parentOf diskPaths brokenDiskPaths with_broken].
  destruct (parentOf l0 !! c) as [p|] eqn:Hc; [|exists b; split; [done|]; split; [by split|]; by split].
  destruct (negb (bool_decide (p ∈ diskPaths l0)) || bool_decide (p ∈ b)) eqn:Hbad.
  - destruct (propagateBroken_ok (S (size (childOf l0))) c (with_broken l0 b)) as (b' & Hrun & Hs & Hin & Hfrom & Hcl); [done| |].
    { cbn. assert (size (dom (childOf l0) ∖ b) ≤ size (dom (childOf l0)))%nat as Hle
        by (apply subseteq_size; set_solver). rewrite size_dom in Hle. lia. }
    cbn in Hs, Hfrom, Hcl. exists b'. split; [exact Hrun|]. split; [|by split; [|by intros]]. split.
    + set_solver.
    + assert (unreadable l0 (brokenDiskPaths l0) p) as (q & Hpq & Hq).
      { apply orb_true_iff in Hbad as [Hp|Hp].
        - apply negb_true_iff, bool_decide_eq_false_1 in Hp. exists p. split; [apply rtc_refl|by right].
        - apply bool_decide_eq_true_1 in Hp. by apply Hsound. }
      intros x Hx. destruct (Hfrom x Hx) as [|Hr]; [by apply Hsound|]. exists q. split; [|done].
      etrans; [exact Hr|]. by eapply rtc_l.
    + intros x d Hx Hxb Hd. destruct (decide (x ∈ b)); [by apply Hs, (Hclosed x)|by apply (Hcl x d)].
  - exists b. split; [done|]. split; [by split|]. split; [done|]. intros q [= <-] [Hq|Hq].
    + apply orb_false_iff in Hbad as [_ Hp%bool_decide_eq_false_1]. exfalso. by apply Hp, Hsub.
    + apply orb_false_iff in Hbad as [Hp%negb_false_iff%bool_decide_eq_true_1 _]. done.
Qed.

Lemma checkParents_ok l0 cs b :
  linked l0 → broken_ok l0 b →
  ∃ b', for_each cs checkParent (with_broken l0 b) = (Ok tt, with_broken l0 b') ∧ broken_ok l0 b' ∧ b ⊆ b' ∧
    ∀ c p, c ∈ cs → parentOf l0 !! c = Some p → p ∈ brokenDiskPaths l0 ∨ p ∉ diskPaths l0 → c ∈ b'.
Proof.
  intros Hl. revert b. induction cs as [|c cs IH]; intros b Hb.
  { exists b. split; [done|]. split; [done|]. split; [done|]. by intros c p ?%elem_of_nil. }
  destruct (checkParent_ok l0 b c Hl Hb) as (b1 & Hrun1 & Hb1 & Hs1 & Hc1).
  destruct (IH b1 Hb1) as (b2 & Hrun2 & Hb2 & Hs2 & Hc2).
  exists b2. cbn [for_each]. unfold mbind, M_bind. rewrite Hrun1. split; [done|]. split; [done|]. split; [set_solver|].
  intros x p [->|Hx]%elem_of_cons Hxp Hp; [|by eapply Hc2]. by eapply Hs2, Hc1.
Qed.

Lemma broken_iff l0 b p :
  linked l0 → broken_ok l0 b →
  (∀ c q, c ∈ diskPaths l0 → parentOf l0 !! c = Some q → q ∈ brokenDiskPaths l0 ∨ q ∉ diskPaths l0 → c ∈ b) →
  (∀ c q, parentOf l0 !! c = Some q → c ∈ diskPaths l0) →
  p ∈ diskPaths l0 → p ∈ b ↔ unreadable l0 (brokenDiskPaths l0) p.
Proof.
  intros Hl [Hsub Hsound Hclosed] Hpar Hdom Hp. split; [apply Hsound|]. intros (q & Hr & Hq). revert Hp.
  induction Hr as [p|p r q Hpr _ IH]; intros Hp.
  - destruct Hq; [by apply Hsub|done].
  - destruct (decide (r ∈ diskPaths l0)) as [Hrd|Hrd]; [|by eapply (Hpar p); [|done|right]].
    specialize (IH Hq Hrd). destruct (decide (r ∈ brokenDiskPaths l0)) as [Hrb|Hrb]; [by eapply (Hpar p); [|done|left]|].
    apply (Hclosed r p); [done|done|]. by apply Hl.
Qed.

(** ** The state of a merge, written then read *)

Lemma endsWith_app a e : endsWith e (a ++ e) = true.
Proof.
  unfold endsWith, startsWith. apply bool_decide_eq_true. rewrite rev_app_distr.
  by rewrite take_app_length' by (by rewrite !length_rev).
Qed.

Lemma MERGE_STATE_FILE_RE_name s :
  s ≠ [] → forallb (λ c, negb (is_line_terminator c)) s = true →
  MERGE_STATE_FILE_RE (js "." ++ s ++ js ".merge.json") = Some s.
Proof.
  intros Hs Ht. cbn [js list_ascii_of_string app MERGE_STATE_FILE_RE]. change (js ".merge.json") with (js ".merge.json").
  fold (js ".merge.json"). rewrite endsWith_app, length_app, Nat.add_sub, take_app_length.
  rewrite Ht, bool_decide_eq_false_2 by done. done.
Qed.

Definition stateName (s : jstring) : jstring := js "." ++ s ++ js ".merge.json".

Lemma stateName_name s : s ≠ [] → sep ∉ s → name (stateName s).
Proof.
  intros Hs Hn. unfold stateName. destruct s as [|c s]; [done|]. split_and!; [done|done|by destruct s|].
  apply not_elem_of_cons. split; [done|]. rewrite elem_of_app. intros [?|Hi]; [done|].
  revert Hi. apply (bool_decide_unpack _). vm_compute. exact I.
Qed.

Section state.
Context (dir vdiDir : path) (s : jstring).
Hypothesis Hdir : normalize dir = normalize vdiDir.
Hypothesis Hs : name s.
Hypothesis Hline : forallb (λ c, negb (is_line_terminator c)) s = true.

Local Abbreviation parent := (dir ++ sep :: s).

Lemma statePath_eq : statePath parent = dirname parent ++ sep :: stateName s.
Proof. unfold statePath. by rewrite basename_name. Qed.

Lemma mergeParent_statePath : mergeParent vdiDir (statePath parent) = Some (normalize parent).
Proof.
  unfold mergeParent. rewrite statePath_eq, basename_name by (apply stateName_name; apply Hs).
  unfold stateName. rewrite MERGE_STATE_FILE_RE_name by (done || apply Hs). cbn [option_map]. f_equal.
  apply normalize_eq. rewrite !segments_app by done. f_equal. symmetry. by apply normalize_eq.
Qed.

Lemma recordedChain_read children :
  map (λ rel, normalize (resolveFromFile (statePath parent) rel)) (recordedChain parent children) =
  map normalize (parent :: children).
Proof.
  unfold recordedChain. rewrite map_map. apply map_ext. intros p. rewrite statePath_eq.
  apply relative_read; [apply stateName_name; apply Hs|done].
Qed.
End state.

(** The recorded chain of an interrupted merge has its parent. *)
Definition recorded (l : Lineage) : Prop :=
  ∀ p i c, (p, i) ∈ interruptedMerges l → chain i = Some c → p ∈ c.

Lemma elem_of_map_set {A} k (v : A) m x : x ∈ map_set k v m → x = (k, v) ∨ x ∈ m.
Proof.
  induction m as [|[k' v'] m IH]; cbn [map_set]; [by intros ->%list_elem_of_singleton; left|].
  case_bool_decide; intros [->|Hx]%elem_of_cons.
  - by left.
  - right. by right.
  - right. by left.
  - destruct (IH Hx); [by left|]. right. by right.
Qed.

Section init_facts.
Context (openDisk : path → bool → result Disk).
Context (containsAllDataOf : path → path → result bool).
Context (readState : path → result MergeState).
Context (vdiDir : path) (merge : bool).

Lemma findInterruptedMerges_spec files uuids co p i :
  (p, i) ∈ findInterruptedMerges readState vdiDir files uuids co →
  ∃ f, f ∈ files ∧ mergeParent vdiDir f = Some p ∧ i = readInterrupted readState uuids co f p.
Proof.
  unfold findInterruptedMerges. induction files as [|f files IH] using rev_ind; [by intros ?%elem_of_nil|].
  rewrite foldl_app. cbn [foldl]. setoid_rewrite elem_of_app. setoid_rewrite list_elem_of_singleton.
  destruct (mergeParent vdiDir f) as [q|] eqn:Hf; [|naive_solver].
  intros [[= -> ->]|Hin]%elem_of_map_set; [|naive_solver]. exists f. auto.
Qed.

(** The states are those that [MergeRemoteDisk] wrote in the directory; an older one has
    no chain. *)
Definition states_recorded (files : list path) : Prop :=
  ∀ f st rel, f ∈ files → readState f = Ok st → st_chain st = Some rel →
  ∃ dir s children, f = statePath (dir ++ sep :: s) ∧ name s ∧
    forallb (λ c, negb (is_line_terminator c)) s = true ∧ normalize dir = normalize vdiDir ∧
    rel = recordedChain (dir ++ sep :: s) children.

Lemma readInterrupted_parent files uuids co f p c :
  states_recorded files → f ∈ files → mergeParent vdiDir f = Some p →
  chain (readInterrupted readState uuids co f p) = Some c → p ∈ c.
Proof.
  intros Hs Hf Hp. unfold readInterrupted. destruct (readState f) as [st|] eqn:Hr; [|done]. cbn [chain].
  destruct (st_chain st) as [rel|] eqn:Hc.
  - destruct (Hs f st rel Hf Hr Hc) as (dir & s & children & -> & Hn & Hline & Hdir & ->).
    rewrite mergeParent_statePath in Hp by done. apply Some_inj in Hp as <-.
    rewrite (recordedChain_read dir s Hn). intros <-%Some_inj. by left.
  - destruct (match st_childUuid st with Some _ => _ | None => _ end) as [q|]; [|done]. intros [= <-]. by left.
Qed.

Local Abbreviation init_of := (init openDisk containsAllDataOf readState vdiDir merge).
Local Abbreviation parents files := (omap (mergeParent vdiDir) files).

(** When [init] of the files succeeds: the disks that were read, and the broken ones. *)
Lemma init_ok files :
  single_child openDisk (parents files) (listDisks files) →
  (∀ p, p ∈ listDisks files → merge = true → opened openDisk (parents files) p ≠ Throw NOT_SUPPORTED) →
  ∃ l0 b uuids, init_of (Ok files) = Ok (with_broken l0 b) ∧
    reading_ok openDisk (parents files) (listDisks files) (listDisks files) (mkReading l0 uuids) ∧
    interruptedMerges l0 = findInterruptedMerges readState vdiDir files uuids (childOf l0) ∧
    broken_ok l0 b ∧
    ∀ c q, c ∈ diskPaths l0 → parentOf l0 !! c = Some q → q ∈ brokenDiskPaths l0 ∨ q ∉ diskPaths l0 → c ∈ b.
Proof.
  intros Hsingle Hns. unfold init. set (disks := listDisks files) in *.
  set (l0 := mkLineage disks ∅ ∅ ∅ ∅ []).
  destruct (initDisks_ok openDisk containsAllDataOf merge (parents files) disks disks [] (mkReading l0 ∅)) as (r & Hrun & Hr);
    [done| |apply listDisks_spec|done|done|].
  { split; cbn; try done.
    - intros _ c p ?%elem_of_nil. done.
    - intros p. rewrite elem_of_empty. split; [done|]. by intros [?%elem_of_nil _]. }
  rewrite Hrun. cbn [app] in Hr. cbn zeta.
  set (l1 := set_interrupted _ (lineage r)).
  assert (reading_ok openDisk (parents files) disks disks (mkReading l1 (uuidToPath r))) as Hr1 by by destruct Hr; split.
  destruct (checkParents_ok l1 (diskPaths l1) (brokenDiskPaths l1)) as (b & Hrun1 & Hb & _ & Hall).
  { apply Hr. }
  { split; [done| |done]. intros p Hp. exists p. split; [apply rtc_refl|by left]. }
  rewrite with_broken_self in Hrun1. rewrite Hrun1. by exists l1, b, (uuidToPath r).
Qed.

Lemma reads_with_broken l b p q : reads (with_broken l b) p q ↔ reads l p q.
Proof. done. Qed.

(** When no two disks have the same parent, the scan of a directory ends; each disk
    that it keeps is the child of its parent only, by what its header tells; and a disk
    is accessible exactly when it and all its ancestors are in the directory and open. *)
Theorem init_accessible files :
  single_child openDisk (parents files) (listDisks files) →
  (∀ p, p ∈ listDisks files → merge = true → opened openDisk (parents files) p ≠ Throw NOT_SUPPORTED) →
  ∃ l, init_of (Ok files) = Ok l
    ∧ (∀ p c, childOf l !! p = Some c ↔ parentOf l !! c = Some p)
    ∧ (∀ c p, parentOf l !! c = Some p → header_parent openDisk (parents files) c p)
    ∧ ∀ p, p ∈ diskPaths l →
        isPathAccessible l p = true ↔
        ∀ q, reads l p q → q ∈ diskPaths l ∧ ∃ d, opened openDisk (parents files) q = Ok d.
Proof.
  intros Hsingle Hns. destruct (init_ok files Hsingle Hns) as (l0 & b & uuids & -> & [] & _ & Hb & Hall).
  cbn [lineage] in *. exists (with_broken l0 b). split; [done|]. split; [done|]. split; [intros c p Hc; by eapply rd_parent0|].
  intros p Hp. cbn in Hp.
  pose proof (broken_iff l0 b p rd_linked0 Hb Hall ltac:(intros c q Hc; by apply (rd_parent0 c q)) Hp) as Hbr.
  unfold isPathAccessible. cbn. rewrite bool_decide_eq_true_2 by done. cbn. rewrite negb_true_iff, bool_decide_eq_false, Hbr.
  setoid_rewrite reads_with_broken. unfold unreadable. split.
  - intros Hu q Hq. destruct (decide (q ∈ diskPaths l0)) as [Hd|Hd]; [|by destruct Hu; exists q; split; [|right]].
    split; [done|]. destruct (opened openDisk (parents files) q) as [d|e] eqn:E; [by exists d|].
    destruct Hu. exists q. split; [done|]. left. apply rd_broken0. split; [by apply rd_disks0|by exists e].
  - intros Hall' (q & Hq & Hbad). destruct (Hall' q Hq) as [Hd [d Ho]]. destruct Hbad as [(_ & e & He)%rd_broken0|]; congruence.
Qed.

Lemma init_linked files l :
  single_child openDisk (parents files) (listDisks files) →
  (∀ p, p ∈ listDisks files → merge = true → opened openDisk (parents files) p ≠ Throw NOT_SUPPORTED) →
  init_of (Ok files) = Ok l → linked l ∧ (states_recorded files → recorded l) ∧
    (distinct_uuids openDisk (parents files) (listDisks files) →
     ∀ c p, header_reads openDisk (parents files) (listDisks files) c p → reads l c p).
Proof.
  intros Hsingle Hns Hl. destruct (init_ok files Hsingle Hns) as (l0 & b & uuids & Hrun & [] & Hi & _).
  rewrite Hl in Hrun. injection Hrun as ->. split; [done|]. split.
  2:{ intros Hdist c p Hcp. apply (rtc_subrel _ _ _ _ (λ c p (H : _ ∧ _), rd_links0 Hdist c p (proj1 H) (proj2 H)) Hcp). }
  intros Hs p i c Hp Hc. cbn in Hp.
  rewrite Hi in Hp. apply findInterruptedMerges_spec in Hp as (f & Hf & Hpf & ->).
  by eapply readInterrupted_parent.
Qed.
(** The parent of a disk, if any; it decides [single_child]. *)
Definition parent_of (mps : list path) (p : path) : option path :=
  match opened openDisk mps p with
  | Ok d => if isDifferencing d then Some (getParentPath p d) else None
  | Throw _ => None
  end.

Lemma NoDup_omap_inj {A B} (f : A → option B) xs x y z :
  NoDup (omap f xs) → x ∈ xs → y ∈ xs → f x = Some z → f y = Some z → x = y.
Proof.
  induction xs as [|w xs IH]; [by intros _ ?%elem_of_nil|]. cbn.
  intros Hn [->|Hx]%elem_of_cons [->|Hy]%elem_of_cons Hfx Hfy; [done|..]; revert Hn.
  - rewrite Hfx. intros [Hz _]%NoDup_cons. destruct Hz. apply list_elem_of_omap. by exists y.
  - rewrite Hfy. intros [Hz _]%NoDup_cons. destruct Hz. apply list_elem_of_omap. by exists x.
  - intros Hn. apply IH; try done. destruct (f w); [by apply NoDup_cons in Hn as [_ ?]|done].
Qed.

Lemma single_child_NoDup mps disks : NoDup (omap (parent_of mps) disks) → single_child openDisk mps disks.
Proof.
  intros Hn c c' p Hc Hc' (d & Ho & Hd & <-) (d' & Ho' & Hd' & Hp).
  apply (NoDup_omap_inj (parent_of mps) disks c c' (getParentPath c d)); try done; unfold parent_of.
  - by rewrite Ho, Hd.
  - by rewrite Ho', Hd', Hp.
Qed.

(** The same of [distinct_uuids]. *)
Lemma distinct_uuids_NoDup mps disks :
  NoDup (omap (λ p, match opened openDisk mps p with Ok d => Some (getUuid d) | Throw _ => None end) disks) →
  distinct_uuids openDisk mps disks.
Proof.
  intros Hn c c' d d' Hc Hc' Ho Ho' Hu. apply (NoDup_omap_inj _ disks c c' (getUuid d) Hn Hc Hc'); cbn.
  - by rewrite Ho.
  - by rewrite Ho', Hu.
Qed.
End init_facts.

(** The chain of a merge is read back as it was recorded: from the state that
    [MergeRemoteDisk] writes for a parent disk of the directory, the scan finds that
    disk, and the normal paths of the chain. *)
Theorem interrupted_chain_read readState uuids co dir vdiDir s children st :
  normalize dir = normalize vdiDir → s ≠ js "" → s ≠ js "." → s ≠ js ".." → sep ∉ s →
  forallb (λ c, negb (is_line_terminator c)) s = true →
  readState (statePath (dir ++ sep :: s)) = Ok st →
  st_chain st = Some (recordedChain (dir ++ sep :: s) children) →
  mergeParent vdiDir (statePath (dir ++ sep :: s)) = Some (normalize (dir ++ sep :: s)) ∧
  chain (readInterrupted readState uuids co (statePath (dir ++ sep :: s)) (normalize (dir ++ sep :: s))) =
    Some (map normalize ((dir ++ sep :: s) :: children)).
Proof.
  intros Hdir H1 H2 H3 H4 Hline Hr Hc. assert (name s) as Hs by done.
  split; [by apply mergeParent_statePath|]. unfold readInterrupted. rewrite Hr. cbn [chain]. rewrite Hc.
  f_equal. by apply recordedChain_read.
Qed.

(** ** A directory *)

(** Opening a disk of a directory, given the disks it has. *)
Definition open_of (disks : list (path * Disk)) (p : path) (force : bool) : result Disk :=
  match list_find (λ x, x.1 = p) disks with
  | Some (_, (_, d)) => Ok d
  | None => Throw (OtherError "ENOENT")
  end.
Definition full (u : jstring) : Disk := mkDisk u false (js "").
Definition over (u parent : jstring) : Disk := mkDisk u true parent.
Definition state_of (parent : path) (st : MergeState) (f : path) : result MergeState :=
  if bool_decide (f = statePath parent) then Ok st else Throw (OtherError "ENOENT").

Definition sample_disks : list (path * Disk) :=
  [(js "/d/a.vhd", full (js "A")); (js "/d/b.vhd", over (js "B") (js "a.vhd"));
   (js "/d/c.vhd", over (js "C") (js "b.vhd")); (js "/d/e.vhd", full (js "E"));
   (js "/d/g.vhd", over (js "G") (js "f.vhd"))].
Definition sample_files : list path :=
  [js "/d/c.vhd"; js "d/b.vhd"; js "/d/a.vhd"; js "/d/e.vhd"; js "/d/g.vhd"; js "/d/h.vhd"; js "/d/data"].
Definition sample_state : MergeState :=
  mkMergeState (Some (js "mergeBlocks")) (Some (recordedChain (js "/d/a.vhd") [js "/d/b.vhd"])) None.

Definition sample_init (files : list path) : result Lineage :=
  init (open_of sample_disks) (λ _ _, Ok false) (state_of (js "/d/a.vhd") sample_state) (js "/d") false (Ok files).
Definition sample : Lineage := match sample_init sample_files with Ok l => l | Throw _ => empty_lineage end.

Lemma sample_single : single_child (open_of sample_disks) (omap (mergeParent (js "/d")) sample_files) (listDisks sample_files).
Proof. apply single_child_NoDup. apply (bool_decide_unpack _). vm_compute. exact I. Qed.

Lemma init_accessible_witness :
  isPathAccessible sample (js "/d/c.vhd") = true ∧ isPathAccessible sample (js "/d/g.vhd") = false ∧
  isPathAccessible sample (js "/d/h.vhd") = false ∧
  ∃ l, sample_init sample_files = Ok l ∧ ∀ p, p ∈ diskPaths l →
    isPathAccessible l p = true ↔ ∀ q, reads l p q → q ∈ diskPaths l ∧
      ∃ d, opened (open_of sample_disks) (omap (mergeParent (js "/d")) sample_files) q = Ok d.
Proof.
  split_and!; [vm_compute; reflexivity..|].
  destruct (init_accessible (open_of sample_disks) (λ _ _, Ok false) (state_of (js "/d/a.vhd") sample_state) (js "/d") false
    sample_files sample_single) as (l & ? & _ & _ & ?); [done|by exists l].
Defined.

Lemma interrupted_chain_read_witness :
  chain (readInterrupted (state_of (js "/d" ++ sep :: js "a.vhd") sample_state) ∅ ∅
    (statePath (js "/d" ++ sep :: js "a.vhd")) (js "/d/a.vhd")) = Some [js "/d/a.vhd"; js "/d/b.vhd"].
Proof.
  destruct (interrupted_chain_read (state_of (js "/d" ++ sep :: js "a.vhd") sample_state) ∅ ∅ (js "/d") (js "d/")
    (js "a.vhd") [js "/d/b.vhd"] sample_state) as [_ H]; try reflexivity; try done.
  apply (bool_decide_unpack _). vm_compute. exact I.
Defined.
