(* ===== verification/LineageClean.v ===== *)
(** * Cleaning a lineage

    [clean] of [RemoteDiskLineage]: given the disks that backups still use and the
    merges that were interrupted, what it deletes and the chains that it merges.  The
    deletions and the merges that are decided here are carried out afterwards; a merge
    is that of [Merge.v].

    It always ends, and never deletes a disk that a used one reads through, when each
    disk has one child at most and a uuid of its own; without an interrupted merge it
    deletes all the others.  A second child, a second disk with the same uuid, and a merge
    that was interrupted in its last step, break it. *)

From stdpp Require Import gmap list.
From S2P Require Import Prelude JsValues Paths DiskLineage.

Local Open Scope Z_scope.

(** ** [clean]: what is deleted and what is merged

    [toMerge]: each chain, and whether it resumes a merge.  [unlinked]: the state files
    that are removed. *)

Record Plan := mkPlan {
  visited : gset path;
  toDelete : gset path;
  toMerge : list (list path * bool);
  unlinked : list path;
}.

Definition visit (p : path) (w : Plan) : Plan :=
  mkPlan ({[p]} ∪ visited w) (toDelete w) (toMerge w) (unlinked w).
Definition delete_disk (p : path) (w : Plan) : Plan :=
  mkPlan (visited w) ({[p]} ∪ toDelete w) (toMerge w) (unlinked w).
Definition keep (p : path) (w : Plan) : Plan :=
  mkPlan ({[p]} ∪ visited w) (toDelete w ∖ {[p]}) (toMerge w) (unlinked w).
Definition push_merge (c : list path) (isResuming : bool) (w : Plan) : Plan :=
  mkPlan (visited w) (toDelete w) (toMerge w ++ [(c, isResuming)]) (unlinked w).
Definition unlink_state (f : path) (w : Plan) : Plan :=
  mkPlan (visited w) (toDelete w) (toMerge w) (unlinked w ++ [f]).

Section clean.
Context (l : Lineage) (remove : bool).

Definition has_disk (p : path) : bool := bool_decide (p ∈ diskPaths l).
Definition orphan (p : path) : bool := has_disk p && negb (bool_decide (p ∈ activeDiskPaths l)).
Definition orphanDisks : list path := filter (λ p, orphan p = true) (diskPaths l).

Local Abbreviation W := (M Plan).

(** [getUsedChildChainOrDelete(diskPath)]: a child is followed once. *)
Fixpoint getUsedChildChainOrDelete (fuel : nat) (diskPath : path) : W (option (list path)) :=
  match fuel with
  | O => lift (Throw endless)
  | S fuel =>
      w ← gets visited;
      if bool_decide (diskPath ∈ w) then mret None
      else
        modify (visit diskPath) ;;
        if negb (orphan diskPath) then mret (Some [diskPath])
        else
          c ← match childOf l !! diskPath with
              | Some child => getUsedChildChainOrDelete fuel child
              | None => mret None
              end;
          match c with
          | Some c => mret (Some (diskPath :: c))
          | None => modify (delete_disk diskPath) ;; mret None
          end
  end.

(** The loop of [hasUsedDescendant]; [p] is undefined at the end of a lineage. *)
Fixpoint hasUsed (fuel : nat) (seen : gset path) (p : option path) : result bool :=
  match p with
  | None => Ok false
  | Some p =>
      if bool_decide (p ∈ seen) then Ok false
      else match fuel with
           | O => Throw endless
           | S fuel => if negb (orphan p) then Ok true else hasUsed fuel ({[p]} ∪ seen) (childOf l !! p)
           end
  end.
Definition hasUsedDescendant (p : path) : result bool := hasUsed (S (size (childOf l))) ∅ (Some p).

(** [paths.some(hasUsedDescendant)] *)
Fixpoint someUsed (paths : list path) : result bool :=
  match paths with
  | [] => Ok false
  | p :: paths => used ← hasUsedDescendant p; if used : bool then Ok true else someUsed paths
  end.

(** The loop of [pin]. *)
Fixpoint pin_from (fuel : nat) (seen : gset path) (p : option path) : W unit :=
  match p with
  | None => mret tt
  | Some p =>
      if bool_decide (p ∈ seen) then mret tt
      else match fuel with
           | O => lift (Throw endless)
           | S fuel => modify (keep p) ;; pin_from fuel ({[p]} ∪ seen) (parentOf l !! p)
           end
  end.
Definition pin (paths : list path) : W unit :=
  for_each paths (λ p, pin_from (S (size (parentOf l))) ∅ (Some p)).

Definition drop_state (i : Interrupted) : W unit :=
  if remove then modify (unlink_state (stateFilePath i)) else mret tt.

Definition walk_fuel : nat := S (size (childOf l)).

(** The end of an iteration on the interrupted merges. *)
Definition resume (parentPath : path) (i : Interrupted) (c : list path) : W unit :=
  used ← getUsedChildChainOrDelete walk_fuel parentPath;
  match used with
  | None => drop_state i
  | Some _ => pin c ;; modify (push_merge c true)
  end.

Definition processInterrupted (x : path * Interrupted) : W unit :=
  let '(parentPath, i) := x in
  if negb (has_disk parentPath) then drop_state i
  else
    match chain i with
    | Some stateChain =>
        let missing := filter (λ p, has_disk p = false) stateChain in
        let existing := filter (λ p, has_disk p = true) stateChain in
        if bool_decide (missing ≠ [] ∧ mstep i ≠ Some (js "cleanup")) then
          used ← lift (someUsed existing);
          if used : bool then pin existing else drop_state i
        else if bool_decide (2 <= length existing)%nat then resume parentPath i existing
        else drop_state i
    | None => mret tt
    end.

Definition processOrphan (o : path) : W unit :=
  w ← gets visited;
  if bool_decide (o ∈ w) then mret tt
  else
    if match parentOf l !! o with None => true | Some parent => negb (orphan parent) end then
      c ← getUsedChildChainOrDelete walk_fuel o;
      match c with
      | Some c => if bool_decide (1 < length c)%nat then modify (push_merge c false) else mret tt
      | None => mret tt
      end
    else mret tt.

Definition plan : W unit :=
  for_each (interruptedMerges l) processInterrupted ;; for_each orphanDisks processOrphan.

(** What [clean] decides. *)
Definition clean : result Plan :=
  let '(r, w) := plan (mkPlan ∅ ∅ [] []) in r ;; Ok w.
End clean.

(** ** Used disks *)

Section facts.
Context (l : Lineage) (remove : bool).

(** The first disk that is not an orphan is [n] children away. *)
Inductive used_in : path → nat → Prop :=
  | used_here p : orphan l p = false → used_in p 0
  | used_below p c n : orphan l p = true → childOf l !! p = Some c → used_in c n → used_in p (S n).

(** A disk that a backup uses, or that such a disk reads through. *)
Definition used (p : path) : Prop := ∃ n, used_in p n.

Lemma used_in_det p n m : used_in p n → used_in p m → n = m.
Proof.
  intros Hn. revert m. induction Hn as [p Hp|p c n Hp Hc _ IH]; intros m; inversion 1; subst; try congruence.
  f_equal. apply IH. congruence.
Qed.

Lemma used_child p c : orphan l p = true → childOf l !! p = Some c → used p → used c.
Proof. intros Hp Hc [n Hn]. inversion Hn; subst; [congruence|]. simplify_eq. by eexists. Qed.

Lemma used_parent p c : childOf l !! p = Some c → used c → used p.
Proof.
  intros Hc [n Hn]. destruct (orphan l p) eqn:Hp; [exists (S n)|exists 0%nat]; by econstructor.
Qed.

Lemma unused_leaf p : orphan l p = true → childOf l !! p = None → ¬ used p.
Proof. intros Hp Hc [n Hn]. inversion Hn; congruence. Qed.

Definition parents_visited (S : gset path) (w : Plan) : Prop :=
  ∀ c p, c ∈ visited w → c ∉ S → used c → childOf l !! p = Some c → orphan l p = true → p ∈ visited w.

(** What is deleted is not used, what is merged is not deleted. *)
Record plan_ok (S : gset path) (w : Plan) : Prop := {
  po_delete p : p ∈ toDelete w → orphan l p = true ∧ ¬ used p;
  po_visited p : p ∈ toDelete w → p ∈ visited w;
  po_parents : parents_visited S w;
  po_merge c b : (c, b) ∈ toMerge w → Forall (λ p, p ∈ visited w ∧ p ∉ toDelete w) c;
  po_unlinked f : f ∈ unlinked w → ∃ p i, (p, i) ∈ interruptedMerges l ∧ f = stateFilePath i;
}.

(** ** A walk *)

(** A chain of orphans that ends with a used disk. *)
Inductive merge_chain : list path → Prop :=
  | chain_used p : orphan l p = false → merge_chain [p]
  | chain_orphan p q c : orphan l p = true → childOf l !! p = Some q →
      merge_chain (q :: c) → merge_chain (p :: q :: c).

Lemma merge_chain_used p c : merge_chain (p :: c) → used p.
Proof.
  revert p. induction c as [|q c IH]; intros p Hc; inversion Hc; subst.
  - by exists 0%nat; constructor.
  - eapply used_parent; [done|]. by apply IH.
Qed.

(** The walk from [p] changes [w] to [w']. *)
Record walked (S : gset path) (p : path) (w w' : Plan) (r : option (list path)) : Prop := {
  wk_visited : visited w ⊆ visited w';
  wk_start : p ∈ visited w';
  wk_keeps : toDelete w ⊆ toDelete w';
  wk_merge : toMerge w' = toMerge w;
  wk_unlinked : unlinked w' = unlinked w;
  wk_deleted x : x ∈ toDelete w' → x ∈ toDelete w ∨ ((x ∉ visited w) ∧ x ∈ visited w' ∧ orphan l x = true ∧ ¬ used x);
  wk_parents c q : c ∈ visited w' → c ∉ visited w → c ≠ p → childOf l !! q = Some c → q ∈ visited w';
  wk_done x : x ∈ visited w' → x ∉ visited w → orphan l x = true →
    (x ∈ toDelete w' ∨ ∃ c, r = Some c ∧ x ∈ c) ∧ ∀ c, childOf l !! x = Some c → c ∈ visited w';
  wk_result : match r with
    | Some c => (p ∉ visited w) ∧ merge_chain c ∧ NoDup c ∧ head c = Some p ∧
                Forall (λ x, x ∈ visited w' ∧ x ∉ visited w) c
    | None => p ∈ visited w ∨ ¬ used p
    end;
}.

(** The disks being walked lead to [p]. *)
Definition leads_to (S : gset path) (p : path) : Prop :=
  ∀ x, x ∈ S → ∃ d, ∀ n, used_in p n → used_in x (Datatypes.S d + n).

Lemma subset_size_visit p w :
  p ∉ visited w → p ∈ dom (childOf l) →
  (size (dom (childOf l) ∖ visited (visit p w)) < size (dom (childOf l) ∖ visited w))%nat.
Proof. intros Hp Hd. apply subset_size. cbn. set_solver. Qed.

(** The end of a walk at [p], from what the walk of its child [c] did: [p] is deleted,
    or added to the chain. *)
Lemma walked_delete S p oc w w' :
  linked l → p ∉ visited w → orphan l p = true → childOf l !! p = oc → ¬ used p →
  match oc with Some c => walked ({[p]} ∪ S) c (visit p w) w' None | None => w' = visit p w end →
  walked S p w (delete_disk p w') None.
Proof.
  intros Hl Hp Ho Hc Hu Hw.
  assert (visited (visit p w) ⊆ visited w' ∧ toDelete w ⊆ toDelete w' ∧ toMerge w' = toMerge w ∧
    unlinked w' = unlinked w) as (Hv & Hd & Hm & Hn).
  { destruct oc as [c|]; [destruct Hw; done|by subst]. }
  split; cbn [visited toDelete toMerge unlinked delete_disk]; try done; cbn in Hv.
  - set_solver.
  - set_solver.
  - set_solver.
  - intros x [->%elem_of_singleton|Hx]%elem_of_union; [right; set_solver|].
    destruct oc as [c|]; [|subst; by left]. destruct (wk_deleted _ _ _ _ _ Hw x Hx); [by left|right]. cbn in *. set_solver.
  - intros c' q Hc' Hn' Hne Hq. destruct oc as [c|]; [|subst; cbn in *; set_solver].
    destruct (decide (c' = c)) as [->|].
    + apply Hl in Hc, Hq. simplify_eq. set_solver.
    + apply (wk_parents _ _ _ _ _ Hw c'); cbn; set_solver.
  - intros x Hx Hnx Hox. destruct (decide (x = p)) as [->|].
    + split; [left; set_solver|]. intros c' Hc'. rewrite Hc in Hc'. destruct oc; simplify_eq. apply (wk_start _ _ _ _ _ Hw).
    + destruct oc as [c|]; [|subst; cbn in *; set_solver].
      destruct (wk_done _ _ _ _ _ Hw x Hx ltac:(cbn; set_solver) Hox) as [[|(? & [=] & _)] ?]. split; [left; set_solver|done].
  - by right.
Qed.

Lemma walked_cons S p c w w' ch :
  linked l → p ∉ visited w → orphan l p = true → childOf l !! p = Some c →
  walked ({[p]} ∪ S) c (visit p w) w' (Some ch) → walked S p w w' (Some (p :: ch)).
Proof.
  intros Hl Hp Ho Hc Hw. destruct (wk_result _ _ _ _ _ Hw) as (Hcv & Hch & Hnd & Hhead & Hall).
  destruct ch as [|c0 ch]; [done|]. cbn in Hhead. injection Hhead as ->.
  pose proof (wk_visited _ _ _ _ _ Hw) as Hv. cbn in Hv, Hcv.
  assert (used p) as Hu by (eapply used_parent; [done|]; by eapply merge_chain_used).
  split; try apply Hw.
  - set_solver.
  - set_solver.
  - intros x Hx. destruct (wk_deleted _ _ _ _ _ Hw x Hx); [by left|right]. cbn in *. set_solver.
  - intros c' q Hc' Hn' Hne Hq. destruct (decide (c' = c)) as [->|].
    + apply Hl in Hc, Hq. simplify_eq. set_solver.
    + apply (wk_parents _ _ _ _ _ Hw c'); cbn; set_solver.
  - intros x Hx Hnx Hox. destruct (decide (x = p)) as [->|].
    + split; [right; eexists; split; [done|by left]|]. intros c' Hc'. simplify_eq. apply (wk_start _ _ _ _ _ Hw).
    + destruct (wk_done _ _ _ _ _ Hw x Hx ltac:(cbn; set_solver) Hox) as [[|(? & [= <-] & ?)] ?]; (split; [|done]);
        [by left|right; eexists; split; [done|by right]].
  - split_and!; [done|by eapply chain_orphan| |done|].
    { apply NoDup_cons. split; [|done]. intros Hin. rewrite Forall_forall in Hall. destruct (Hall p Hin) as [_ Hn].
      apply Hn. cbn. set_solver. } constructor; [set_solver|].
    eapply Forall_impl; [exact Hall|]. cbn. intros x [? ?]. set_solver.
Qed.

Lemma walk_ok fuel S p w :
  linked l → (size (dom (childOf l) ∖ visited w) < fuel)%nat →
  S ⊆ visited w → leads_to S p → parents_visited S w →
  ∃ r w', getUsedChildChainOrDelete l fuel p w = (Ok r, w') ∧ walked S p w w' r.
Proof.
  intros Hl. revert S p w. induction fuel as [|fuel IH]; intros S p w Hfuel HS Hlead Hpar; [lia|].
  cbn [getUsedChildChainOrDelete]. unfold mbind at 1, M_bind at 1, gets at 1.
  case_bool_decide as Hp.
  { exists None, w. split; [done|]. split; try done; [by left|by left]. }
  unfold mbind at 1, M_bind at 1, modify at 1.
  destruct (orphan l p) eqn:Ho; cbn [negb].
  2:{ exists (Some [p]), (visit p w). split; [done|]. split; cbn [visited toDelete toMerge unlinked visit]; try done.
      - set_solver.
      - set_solver.
      - by left.
      - set_solver.
      - intros x Hx Hn Hox. assert (x = p) as -> by set_solver. congruence.
      - split_and!; [done|by constructor|apply NoDup_singleton|done|]. constructor; [set_solver|done]. }
  destruct (childOf l !! p) as [c|] eqn:Hc.
  2:{ unfold mbind, M_bind, mret, M_ret, modify. eexists None, _. split; [done|].
      apply (walked_delete S p None w (visit p w)); try done. by apply unused_leaf. }
  destruct (IH ({[p]} ∪ S) c (visit p w)) as (r & w' & Hrun & Hw).
  - pose proof (subset_size_visit p w Hp ltac:(by eapply elem_of_dom_2)). lia.
  - cbn. set_solver.
  - intros x [->%elem_of_singleton|Hx]%elem_of_union.
    + exists 0%nat. intros n Hn. by eapply used_below.
    + destruct (Hlead x Hx) as [d Hd]. exists (Datatypes.S d). intros n Hn.
      replace (Datatypes.S (Datatypes.S d) + n)%nat with (Datatypes.S d + Datatypes.S n)%nat by lia.
      apply Hd. by eapply used_below.
  - intros c' q Hv Hn Hu Hq Hoq. cbn in *. apply elem_of_union_r. apply (Hpar c'); set_solver.
  - unfold mbind, M_bind. rewrite Hrun. destruct r as [ch|].
    + eexists _, _. split; [done|]. by eapply walked_cons.
    + unfold modify. eexists None, _. split; [done|]. apply (walked_delete S p (Some c) w w'); try done.
      intros Hu. apply (used_child p c) in Hu as Huc; [|done|done].
      destruct (wk_result _ _ _ _ _ Hw) as [Hvis|]; [|done]. cbn in Hvis.
      destruct (decide (c ∈ {[p]} ∪ S)) as [Hin|Hin].
      * assert (∃ d, ∀ n, used_in c n → used_in c (Datatypes.S d + n)) as [d Hd].
        { apply elem_of_union in Hin as [->%elem_of_singleton|Hx].
          - exists 0%nat. intros n Hn. by eapply used_below.
          - destruct (Hlead c Hx) as [d Hd]. exists (Datatypes.S d). intros n Hn.
            replace (Datatypes.S (Datatypes.S d) + n)%nat with (Datatypes.S d + Datatypes.S n)%nat by lia.
            apply Hd. by eapply used_below. }
        destruct Huc as [n Hn]. specialize (Hd n Hn). pose proof (used_in_det _ _ _ Hn Hd). lia.
      * apply Hp. apply (Hpar c); set_solver.
Qed.

Lemma merge_chain_all_used c : merge_chain c → Forall used c.
Proof.
  induction 1 as [p Hp|p q c Hp Hq Hc IH].
  - constructor; [|done]. by exists 0%nat; constructor.
  - constructor; [|done]. eapply used_parent; [done|]. by eapply merge_chain_used.
Qed.

(** A walk from [s]: the plan stays correct, except that the parent of [s] may have to
    be visited. *)
Lemma walk_plan_ok s w :
  linked l → plan_ok ∅ w →
  ∃ r w', getUsedChildChainOrDelete l (walk_fuel l) s w = (Ok r, w') ∧ walked ∅ s w w' r ∧
    plan_ok {[s]} w' ∧ (s ∈ visited w ∨ ¬ used s → plan_ok ∅ w') ∧
    ∀ c, r = Some c → Forall (λ p, p ∈ visited w' ∧ p ∉ toDelete w') c.
Proof.
  intros Hl [Hd Hv Hp Hm Hul].
  destruct (walk_ok (walk_fuel l) ∅ s w Hl) as (r & w' & Hrun & Hw); [|set_solver..|done|].
  { unfold walk_fuel. assert (size (dom (childOf l) ∖ visited w) ≤ size (dom (childOf l)))%nat as Hle
      by (apply subseteq_size; set_solver). rewrite size_dom in Hle. lia. }
  exists r, w'. split; [done|]. split; [done|].
  assert (∀ p, p ∈ toDelete w' → orphan l p = true ∧ ¬ used p) as Hd'.
  { intros p Hin. destruct (wk_deleted _ _ _ _ _ Hw p Hin) as [|(_ & _ & ? & ?)]; [by apply Hd|done]. }
  assert (∀ p, p ∈ toDelete w' → p ∈ visited w') as Hv'.
  { intros p Hin. destruct (wk_deleted _ _ _ _ _ Hw p Hin) as [|(_ & ? & _)]; [|done].
    by apply (wk_visited _ _ _ _ _ Hw), Hv. }
  assert (∀ c b, (c, b) ∈ toMerge w' → Forall (λ p, p ∈ visited w' ∧ p ∉ toDelete w') c) as Hm'.
  { intros c b Hin. rewrite (wk_merge _ _ _ _ _ Hw) in Hin. eapply Forall_impl; [by eapply Hm|].
    cbn. intros p [Hpv Hpd]. split; [by apply (wk_visited _ _ _ _ _ Hw)|]. intros Hin'.
    destruct (wk_deleted _ _ _ _ _ Hw p Hin') as [|(? & _)]; done. }
  assert (∀ f, f ∈ unlinked w' → ∃ p i, (p, i) ∈ interruptedMerges l ∧ f = stateFilePath i) as Hul'
    by (intros f; rewrite (wk_unlinked _ _ _ _ _ Hw); apply Hul).
  assert (parents_visited {[s]} w') as Hpar.
  { intros c p Hc Hn Hu Hcp Ho. destruct (decide (c ∈ visited w)) as [Hcw|Hcw].
    - apply (wk_visited _ _ _ _ _ Hw). apply (Hp c); done.
    - apply (wk_parents _ _ _ _ _ Hw c); [done|done|set_solver|done]. }
  split_and!; [done| |].
  - intros Hs. split; try done. intros c p Hc _ Hu Hcp Ho. destruct (decide (c = s)) as [->|].
    + destruct Hs as [Hs|]; [|done]. apply (wk_visited _ _ _ _ _ Hw). by apply (Hp s).
    + apply (Hpar c); set_solver.
  - intros c ->. destruct (wk_result _ _ _ _ _ Hw) as (_ & Hch & _ & _ & Hall).
    apply merge_chain_all_used in Hch. apply Forall_forall. intros p Hin.
    rewrite Forall_forall in Hch, Hall. destruct (Hall p Hin) as [? ?]. split; [done|].
    intros [_ Hnu]%Hd'. by apply Hnu, Hch.
Qed.

(** ** Pinned disks *)

(** The set [A] of disks, closed by parents, is kept. *)
Record pinned (A : gset path) (w w' : Plan) : Prop := {
  pin_visited x : x ∈ visited w' ↔ x ∈ A ∨ x ∈ visited w;
  pin_delete x : x ∈ toDelete w' ↔ x ∈ toDelete w ∧ x ∉ A;
  pin_merge : toMerge w' = toMerge w;
  pin_unlinked : unlinked w' = unlinked w;
}.

Definition closed (seen A : gset path) : Prop := ∀ x q, x ∈ A → parentOf l !! x = Some q → q ∈ A ∪ seen.

Lemma pinned_trans A B w w1 w2 : pinned A w w1 → pinned B w1 w2 → pinned (A ∪ B) w w2.
Proof.
  intros [V1 D1 M1 U1] [V2 D2 M2 U2].
  split; [intros x; rewrite V2, V1; set_solver|intros x; rewrite D2, D1; set_solver|congruence|congruence].
Qed.

Lemma pinned_refl w : pinned ∅ w w.
Proof. split; set_solver. Qed.

Lemma pin_from_ok fuel seen op w :
  (size (dom (parentOf l) ∖ seen) < fuel)%nat →
  ∃ A w', pin_from l fuel seen op w = (Ok tt, w') ∧ pinned A w w' ∧ closed seen A ∧
    ∀ p, op = Some p → p ∈ A ∪ seen.
Proof.
  revert seen op w. induction fuel as [|fuel IH]; intros seen op w Hf; [lia|].
  destruct op as [p|]; cbn [pin_from].
  2:{ exists ∅, w. split_and!; [done|apply pinned_refl|by intros x q ?%not_elem_of_empty|done]. }
  case_bool_decide as Hp.
  { exists ∅, w. split_and!; [done|apply pinned_refl|by intros x q ?%not_elem_of_empty|]. intros q [= ->]. set_solver. }
  unfold mbind, M_bind, modify.
  assert (∃ A w', pin_from l fuel ({[p]} ∪ seen) (parentOf l !! p) (keep p w) = (Ok tt, w') ∧
    pinned A (keep p w) w' ∧ closed ({[p]} ∪ seen) A ∧
    ∀ q, parentOf l !! p = Some q → q ∈ A ∪ ({[p]} ∪ seen)) as (A & w' & Hrun & Hpin & Hc & Hq).
  { destruct (parentOf l !! p) as [q|] eqn:E.
    - apply IH. assert (p ∈ dom (parentOf l)) by by eapply elem_of_dom_2.
      assert (size (dom (parentOf l) ∖ ({[p]} ∪ seen)) < size (dom (parentOf l) ∖ seen))%nat
        by (apply subset_size; set_solver). lia.
    - exists ∅, (keep p w). split_and!; [by destruct fuel|apply pinned_refl|by intros x q ?%not_elem_of_empty|done]. }
  exists ({[p]} ∪ A), w'. split; [done|]. split_and!.
  - apply (pinned_trans {[p]} A w (keep p w)); [|done]. split; cbn; set_solver.
  - intros x q Hx Hxq. destruct (decide (x = p)) as [->|].
    + specialize (Hq q Hxq). set_solver.
    + specialize (Hc x q ltac:(set_solver) Hxq). set_solver.
  - intros p' [= ->]. set_solver.
Qed.

Lemma pin_ok paths w :
  ∃ A w', pin l paths w = (Ok tt, w') ∧ pinned A w w' ∧ closed ∅ A ∧ ∀ p, p ∈ paths → p ∈ A.
Proof.
  revert w. induction paths as [|p paths IH]; intros w; unfold pin; cbn [for_each].
  { exists ∅, w. split_and!; [done|apply pinned_refl|by intros x q ?%not_elem_of_empty|]. intros p Hp. by apply elem_of_nil in Hp. }
  destruct (pin_from_ok (Datatypes.S (size (parentOf l))) ∅ (Some p) w) as (A & w1 & Hrun & Hpin & Hc & Hp).
  { rewrite difference_empty_L, size_dom. lia. }
  destruct (IH w1) as (B & w2 & Hrun2 & Hpin2 & Hc2 & Hp2).
  exists (A ∪ B), w2. unfold mbind, M_bind. rewrite Hrun. split; [exact Hrun2|]. split_and!.
  - by eapply pinned_trans.
  - intros x q Hx Hq. apply elem_of_union in Hx as [Hx|Hx]; [specialize (Hc x q Hx Hq)|specialize (Hc2 x q Hx Hq)]; set_solver.
  - intros x [->|Hx]%elem_of_cons; [specialize (Hp p eq_refl); set_solver|]. apply Hp2 in Hx. set_solver.
Qed.

Lemma pinned_plan_ok S A w w' :
  linked l → plan_ok S w → pinned A w w' → closed ∅ A → S ⊆ A → plan_ok ∅ w'.
Proof.
  intros Hl [Hd Hv Hp Hm Hul] [V D M U] Hc HS. split.
  - intros p [Hpd _]%D. by apply Hd.
  - intros p [Hpd _]%D. apply V. right. by apply Hv.
  - intros c p [Hca|Hcw]%V _ Hu Hcp Ho; apply V.
    + left. apply Hl in Hcp. specialize (Hc c p Hca Hcp). set_solver.
    + destruct (decide (c ∈ A)) as [Hca|Hca].
      * left. apply Hl in Hcp. specialize (Hc c p Hca Hcp). set_solver.
      * right. apply (Hp c); set_solver.
  - intros c b Hin. rewrite M in Hin. eapply Forall_impl; [by eapply Hm|]. cbn.
    intros p [? ?]. split; [apply V; by right|]. by intros [? _]%D.
  - intros f. rewrite U. apply Hul.
Qed.

(** ** The two loops *)

Lemma hasUsed_total fuel seen op :
  (size (dom (childOf l) ∖ seen) < fuel)%nat → ∃ b, hasUsed l fuel seen op = Ok b.
Proof.
  revert seen op. induction fuel as [|fuel IH]; intros seen op Hf; [lia|].
  destruct op as [p|]; [|by eexists]. cbn [hasUsed]. case_bool_decide as Hp; [by eexists|].
  destruct (orphan l p); [|by eexists]. cbn [negb].
  destruct (childOf l !! p) as [c|] eqn:Hc; [|destruct fuel; by eexists].
  apply IH. assert (p ∈ dom (childOf l)) by by eapply elem_of_dom_2.
  assert (size (dom (childOf l) ∖ ({[p]} ∪ seen)) < size (dom (childOf l) ∖ seen))%nat
    by (apply subset_size; set_solver). lia.
Qed.

Lemma someUsed_total paths : ∃ b, someUsed l paths = Ok b.
Proof.
  induction paths as [|p paths [b IH]]; [by eexists|]. cbn [someUsed].
  destruct (hasUsed_total (Datatypes.S (size (childOf l))) ∅ (Some p)) as [u Hu].
  { rewrite difference_empty_L, size_dom. lia. }
  unfold hasUsedDescendant. rewrite Hu. destruct u; by eexists.
Qed.

Lemma drop_state_ok S p i w :
  (p, i) ∈ interruptedMerges l → plan_ok S w → ∃ w', drop_state remove i w = (Ok tt, w') ∧ plan_ok S w'.
Proof.
  intros Hi []. unfold drop_state. destruct remove; (eexists; split; [done|]; split; try done).
  cbn. intros f [?|Hf]%elem_of_app; [by auto|]. apply list_elem_of_singleton in Hf as ->. by exists p, i.
Qed.

Lemma push_merge_ok S c b w :
  plan_ok S w → Forall (λ p, p ∈ visited w ∧ p ∉ toDelete w) c → plan_ok S (push_merge c b w).
Proof.
  intros [] Hc. split; try done. cbn. intros c' b' [?|Hin]%elem_of_app; [by eauto|].
  apply list_elem_of_singleton in Hin as [= -> ->]. done.
Qed.

Lemma plan_ok_init : plan_ok ∅ (mkPlan ∅ ∅ [] []).
Proof.
  split; cbn; [set_solver..|by intros c p ?%not_elem_of_empty| |by intros f ?%elem_of_nil].
  intros c b Hin. by apply elem_of_nil in Hin.
Qed.

Lemma resume_ok p i c w :
  linked l → (p, i) ∈ interruptedMerges l → plan_ok ∅ w → p ∈ c → ∃ w', resume l remove p i c w = (Ok tt, w') ∧ plan_ok ∅ w'.
Proof.
  intros Hl Hi Hw Hpc. destruct (walk_plan_ok p w Hl Hw) as (r & w1 & Hrun & Hwk & Hok & Hnone & _).
  unfold resume, mbind, M_bind. rewrite Hrun. destruct r as [ch|].
  - destruct (pin_ok c w1) as (A & w2 & -> & Hpin & Hclosed & HA). eexists. split; [done|].
    apply push_merge_ok.
    + eapply (pinned_plan_ok {[p]} A); [done..|]. specialize (HA p Hpc). set_solver.
    + apply Forall_forall. intros x Hx%HA. split; [apply (pin_visited _ _ _ Hpin); by left|].
      by intros [_ ?]%(pin_delete _ _ _ Hpin).
  - apply (drop_state_ok _ p), Hnone; [done|]. apply (wk_result _ _ _ _ _ Hwk).
Qed.

Lemma processInterrupted_ok x w :
  linked l → recorded l → x ∈ interruptedMerges l → plan_ok ∅ w →
  ∃ w', processInterrupted l remove x w = (Ok tt, w') ∧ plan_ok ∅ w'.
Proof.
  intros Hl Hr Hx Hw. destruct x as [p i]. cbn [processInterrupted].
  destruct (has_disk l p) eqn:Hp; cbn [negb]; [|by apply (drop_state_ok _ p)].
  destruct (chain i) as [sc|] eqn:Hc; [|by exists w].
  set (existing := filter (λ q, has_disk l q = true) sc).
  case_bool_decide.
  - destruct (someUsed_total existing) as [[] Hb]; unfold mbind at 1, M_bind at 1, lift; rewrite Hb.
    + destruct (pin_ok existing w) as (A & w2 & Hrun & Hpin & Hclosed & _). exists w2. split; [done|].
      by eapply (pinned_plan_ok ∅ A).
    + by apply (drop_state_ok _ p).
  - case_bool_decide; [|by apply (drop_state_ok _ p)]. apply resume_ok; [done..|].
    apply list_elem_of_filter. split; [done|]. by eapply Hr.
Qed.

Lemma processOrphan_ok o w :
  linked l → plan_ok ∅ w → ∃ w', processOrphan l o w = (Ok tt, w') ∧ plan_ok ∅ w'.
Proof.
  intros Hl Hw. unfold processOrphan. unfold mbind at 1, M_bind at 1, gets at 1.
  case_bool_decide; [by exists w|].
  destruct (match parentOf l !! o with Some _ => _ | None => _ end) eqn:Hroot; [|by exists w].
  destruct (walk_plan_ok o w Hl Hw) as (r & w1 & Hrun & Hwk & Hok & _ & Hch).
  unfold mbind, M_bind. rewrite Hrun.
  assert (plan_ok ∅ w1) as Hok1.
  { destruct Hok. split; try done. intros c p Hc _ Hu Hcp Ho. destruct (decide (c = o)) as [->|].
    - apply Hl in Hcp as Hpc. rewrite Hpc, Ho in Hroot. done.
    - apply (po_parents0 c); set_solver. }
  destruct r as [c|]; [|by exists w1]. case_bool_decide; [|by exists w1].
  eexists. split; [done|]. apply push_merge_ok; [done|]. by apply Hch.
Qed.

Lemma clean_plan_ok : linked l → recorded l → ∃ w, clean l remove = Ok w ∧ plan_ok ∅ w.
Proof.
  intros Hl Hr. unfold clean, plan.
  destruct (for_each_ok (plan_ok ∅) (processInterrupted l remove) (interruptedMerges l) (mkPlan ∅ ∅ [] []))
    as (w1 & Hrun1 & Hw1).
  { intros x w. by apply processInterrupted_ok. }
  { apply plan_ok_init. }
  destruct (for_each_ok (plan_ok ∅) (processOrphan l) (orphanDisks l) w1) as (w2 & Hrun2 & Hw2); [|done|].
  { intros o w _. by apply processOrphan_ok. }
  exists w2. unfold mbind at 1, M_bind at 1. rewrite Hrun1, Hrun2. done.
Qed.

(** ** What the orphan loop covers *)

(** Each visited orphan is deleted or merged, once; the chains that are merged go from
    an orphan to the used disk that reads through it. *)
Record covered (w : Plan) : Prop := {
  cv_orphan x : x ∈ visited w → orphan l x = true →
    (x ∈ toDelete w ∨ ∃ c, (c, false) ∈ toMerge w ∧ x ∈ c) ∧ ∀ c, childOf l !! x = Some c → c ∈ visited w;
  cv_chains c b : (c, b) ∈ toMerge w → b = false ∧ merge_chain c ∧ (1 < length c)%nat;
  cv_disjoint : NoDup (concat (map fst (toMerge w)));
}.

Lemma merge_chain_length c o : merge_chain c → head c = Some o → orphan l o = true → (1 < length c)%nat.
Proof. destruct 1; cbn; intros [= ->]; [congruence|lia]. Qed.

Lemma elem_of_chains c b x (ms : list (list path * bool)) : (c, b) ∈ ms → x ∈ c → x ∈ concat (map fst ms).
Proof.
  intros Hc Hx. apply list_elem_of_In, in_concat. exists c.
  split; [apply (in_map fst ms (c, b))|]; by apply list_elem_of_In.
Qed.

Lemma elem_of_chains_inv x (ms : list (list path * bool)) :
  x ∈ concat (map fst ms) → ∃ c b, (c, b) ∈ ms ∧ x ∈ c.
Proof.
  intros Hx. apply list_elem_of_In, in_concat in Hx as (c & Hc & Hx).
  apply in_map_iff in Hc as ([c' b] & [= ->] & Hc). exists c, b. by rewrite !list_elem_of_In.
Qed.

Lemma covered_walk o w w' r :
  orphan l o = true → plan_ok ∅ w → covered w → walked ∅ o w w' r →
  match r with
  | Some c => (1 < length c)%nat ∧ covered (push_merge c false w')
  | None => covered w'
  end.
Proof.
  intros Ho Hp [Hc Hm Hd] [Hv Hs Hk Hmerge _ _ _ Hdone Hr].
  assert (∀ x, x ∈ visited w' → orphan l x = true →
    (x ∈ toDelete w' ∨ (∃ c, (c, false) ∈ toMerge w ∧ x ∈ c) ∨ ∃ c, r = Some c ∧ x ∈ c) ∧
    ∀ c, childOf l !! x = Some c → c ∈ visited w') as Hx.
  { intros x Hin Hox. destruct (decide (x ∈ visited w)) as [Hw|Hw].
    - destruct (Hc x Hw Hox) as [Hcase Hchild]. split; [destruct Hcase; [left|right; left]; auto|auto].
    - destruct (Hdone x Hin Hw Hox) as [Hcase Hchild]. split; [destruct Hcase; auto|auto]. }
  destruct r as [c|].
  - destruct Hr as (_ & Hch & Hnd & Hhead & Hall). split; [by eapply merge_chain_length|].
    split; cbn [visited toDelete toMerge push_merge]; rewrite ?Hmerge.
    + intros x Hin Hox. destruct (Hx x Hin Hox) as [Hcase Hchild]. split; [|done].
      destruct Hcase as [|[(c' & ? & ?)|(c' & [= <-] & ?)]]; [by left|right; exists c'|right; exists c];
        rewrite elem_of_app, ?list_elem_of_singleton; auto.
    + intros c' b [?|[= -> ->]%list_elem_of_singleton]%elem_of_app; [by apply Hm|].
      split_and!; [done|done|by eapply merge_chain_length].
    + rewrite map_app, concat_app. cbn. rewrite app_nil_r. apply NoDup_app. split_and!; [done| |done].
      intros x (c' & b & Hin & Hxc)%elem_of_chains_inv Hx'. rewrite Forall_forall in Hall.
      destruct (Hall x Hx') as [_ Hn]. apply Hn. pose proof (po_merge _ _ Hp _ _ Hin) as Hf.
      rewrite Forall_forall in Hf. by apply Hf.
  - split; rewrite ?Hmerge; [|done|done]. intros x Hin Hox. destruct (Hx x Hin Hox) as [Hcase Hchild].
    split; [|done]. destruct Hcase as [|[|(? & [=] & _)]]; auto.
Qed.

(** The first orphan of its lineage. *)
Definition root (o : path) : Prop := match parentOf l !! o with None => True | Some p => orphan l p = false end.

Lemma processOrphan_covers o w :
  linked l → orphan l o = true → plan_ok ∅ w → covered w →
  ∃ w', processOrphan l o w = (Ok tt, w') ∧ (plan_ok ∅ w' ∧ covered w') ∧ (root o → o ∈ visited w') ∧ visited w ⊆ visited w'.
Proof.
  intros Hl Ho Hw Hc. destruct (processOrphan_ok o w Hl Hw) as (w' & Hrun & Hw').
  exists w'. split; [done|]. revert Hrun. unfold processOrphan, mbind at 1, M_bind at 1, gets.
  case_bool_decide as Hv; [by intros [= <-]|].
  destruct (match parentOf l !! o with Some _ => _ | None => _ end) eqn:Hroot.
  2:{ intros [= <-]. split_and!; [done|done| |done]. unfold root. destruct (parentOf l !! o) as [p|]; [|done].
      intros Hp. by rewrite Hp in Hroot. }
  destruct (walk_plan_ok o w Hl Hw) as (r & w1 & Hrun & Hwk & _). unfold mbind, M_bind. rewrite Hrun.
  pose proof (covered_walk o w w1 r Ho Hw Hc Hwk) as Hcov. pose proof (wk_start _ _ _ _ _ Hwk).
  pose proof (wk_visited _ _ _ _ _ Hwk). destruct r as [c|]; [|by intros [= <-]].
  destruct Hcov as [Hlen Hcov]. rewrite bool_decide_eq_true_2 by done. by intros [= <-].
Qed.

(** An orphan that is reached from the first one of its lineage: it is not in a cycle. *)
Inductive rooted : path → Prop :=
  | rooted_root o : root o → rooted o
  | rooted_child o p : parentOf l !! o = Some p → orphan l p = true → rooted p → rooted o.

Lemma clean_covers :
  linked l → interruptedMerges l = [] → (∀ o, orphan l o = true → rooted o) →
  ∃ w, clean l remove = Ok w ∧ plan_ok ∅ w ∧ covered w ∧ ∀ o, orphan l o = true → o ∈ visited w.
Proof.
  intros Hl Hi Hroot. unfold clean, plan. rewrite Hi. cbn [for_each].
  destruct (for_each_all (λ w, plan_ok ∅ w ∧ covered w) (λ o w, root o → o ∈ visited w) (processOrphan l)
    (orphanDisks l) (mkPlan ∅ ∅ [] [])) as (w & Hrun & [Hw Hc] & Hvis & _).
  { intros o w Ho [Hw Hc]. apply list_elem_of_filter in Ho as [Ho _].
    destruct (processOrphan_covers o w Hl Ho Hw Hc) as (w' & ? & ? & ? & Hsub). exists w'.
    split; [done|]. split; [done|]. split; [done|]. intros y Hy ?. by apply Hsub, Hy. }
  { split; [apply plan_ok_init|]. split; cbn; [set_solver| |constructor]. intros c b Hin. by apply elem_of_nil in Hin. }
  exists w. unfold mbind at 1, M_bind at 1, mret, M_ret. rewrite Hrun. split_and!; [done..|].
  intros o Ho. specialize (Hroot o Ho). induction Hroot as [o Hr|o p Hop Hp _ IH].
  - apply Hvis; [|done]. apply list_elem_of_filter. split; [done|]. unfold orphan, has_disk in Ho.
    apply andb_true_iff in Ho as [Ho _]. by apply bool_decide_eq_true_1 in Ho.
  - destruct (cv_orphan _ Hc p (IH Hp) Hp) as [_ Hchild]. by apply Hchild, Hl.
Qed.

Lemma used_iff p : linked l → used p ↔ ∃ a, orphan l a = false ∧ reads l a p.
Proof.
  intros Hl. split.
  - intros [n Hn]. induction Hn as [p Hp|p c n Hp Hc _ (a & Ha & Hac)]; [by exists p; split; [|apply rtc_refl]|].
    exists a. split; [done|]. eapply rtc_r; [done|]. by apply Hl.
  - intros (a & Ha & Hap). assert (used a) as Hu by by exists 0%nat; constructor. clear Ha.
    induction Hap as [|a b p Hab _ IH]; [done|]. apply IH. by apply (used_parent b a); [apply Hl|].
Qed.

Lemma not_deleted a p w : linked l → plan_ok ∅ w → orphan l a = false → reads l a p → p ∉ toDelete w.
Proof. intros Hl Hw Ha Hap [_ Hn]%(po_delete _ _ Hw). apply Hn, used_iff; [done|]. by exists a. Qed.

(** C5: For a lineage in which each disk has one child at most, without an interrupted
    merge, and in which no orphans read through each other, the clean up ends, deletes
    exactly the disks that no used disk reads through by the links that were registered,
    and merges every other orphan: each in one chain, which goes from child to child down
    to the used disk that reads through it.  ([second_child_loses_parent] is a lineage in
    which a disk has two children.) *)
Theorem clean_exact :
  linked l → interruptedMerges l = [] → (∀ o, orphan l o = true → rooted o) →
  ∃ w, clean l remove = Ok w
    ∧ (∀ p, p ∈ toDelete w ↔ orphan l p = true ∧ ¬ ∃ a, orphan l a = false ∧ reads l a p)
    ∧ (∀ p, orphan l p = true → (∃ a, orphan l a = false ∧ reads l a p) → ∃ c, (c, false) ∈ toMerge w ∧ p ∈ c)
    ∧ (∀ c b, (c, b) ∈ toMerge w → b = false ∧ merge_chain c ∧ (1 < length c)%nat)
    ∧ NoDup (concat (map fst (toMerge w))).
Proof.
  intros Hl Hi Hr. destruct (clean_covers Hl Hi Hr) as (w & Hrun & Hw & [Hc Hm Hd] & Hvis).
  exists w. split; [done|].
  assert (∀ p, used p ↔ ∃ a, orphan l a = false ∧ reads l a p) as Hiff by (intros; by apply used_iff).
  setoid_rewrite <- Hiff. clear Hiff. split; [|split; [|by split]].
  - intros p. split; [apply (po_delete _ _ Hw)|]. intros [Ho Hu].
    destruct (Hc p (Hvis p Ho) Ho) as [[|(c & Hin & Hp)] _]; [done|]. destruct Hu.
    destruct (Hm c false Hin) as (_ & Hch & _). apply merge_chain_all_used in Hch.
    rewrite Forall_forall in Hch. by apply Hch.
  - intros p Ho Hu. destruct (Hc p (Hvis p Ho) Ho) as [[Hdel|] _]; [|done]. by apply (po_delete _ _ Hw) in Hdel as [_ ?].
Qed.
End facts.

(** ** From the files of a directory *)

Definition declare (actives : list path) (l : Lineage) : Lineage := foldr addActiveDiskPath l actives.

Lemma declare_spec actives l :
  diskPaths (declare actives l) = diskPaths l ∧ parentOf (declare actives l) = parentOf l ∧
  childOf (declare actives l) = childOf l ∧ interruptedMerges (declare actives l) = interruptedMerges l ∧
  ∀ a, a ∈ actives → normalize a ∈ activeDiskPaths (declare actives l).
Proof.
  induction actives as [|a actives (Hd & Hp & Hc & Hi & IH)]; [split_and!; try done; by intros a ?%elem_of_nil|].
  cbn. split_and!; [done..|]. intros b [->|Hb]%elem_of_cons; [set_solver|]. apply elem_of_union_r. by apply IH.
Qed.

Section clean_files.
Context (openDisk : path → bool → result Disk).
Context (containsAllDataOf : path → path → result bool).
Context (readState : path → result MergeState).
Context (vdiDir : path) (merge : bool).

(** C4: Given the files of a directory in which no two disks have the same parent or the
    same uuid, and in which the merges that were interrupted recorded their chains, the
    clean up ends; it never deletes a disk of the directory that a backup uses, nor one
    that such a disk reads through by the headers, nor one that is to be merged.  With
    two disks of the same uuid, it is the links that [init] registered that are followed
    ([duplicate_uuid_loses_parents]). *)
Theorem clean_keeps_used files actives remove l :
  let mps := omap (mergeParent vdiDir) files in
  single_child openDisk mps (listDisks files) →
  (∀ p, p ∈ listDisks files → merge = true → opened openDisk mps p ≠ Throw NOT_SUPPORTED) →
  states_recorded readState vdiDir files →
  init openDisk containsAllDataOf readState vdiDir merge (Ok files) = Ok l →
  ∃ w, clean (declare actives l) remove = Ok w
    ∧ (distinct_uuids openDisk mps (listDisks files) →
       ∀ a p, a ∈ actives → header_reads openDisk mps (listDisks files) (normalize a) p → p ∉ toDelete w)
    ∧ (∀ a p, a ∈ actives → reads l (normalize a) p → p ∉ toDelete w)
    ∧ ∀ c b p, (c, b) ∈ toMerge w → p ∈ c → p ∉ toDelete w.
Proof.
  intros mps Hsingle Hns Hs Hinit. destruct (init_linked _ _ _ _ _ _ _ Hsingle Hns Hinit) as (Hl & Hr & Hh).
  specialize (Hr Hs). destruct (declare_spec actives l) as (Hd & Hp & Hc & Hi & Ha).
  assert (linked (declare actives l)) as Hl' by (unfold linked; by rewrite Hp, Hc).
  destruct (clean_plan_ok (declare actives l) remove Hl') as (w & Hrun & Hw); [unfold recorded; by rewrite Hi|].
  assert (∀ a p, a ∈ actives → reads l (normalize a) p → p ∉ toDelete w) as Hkept.
  { intros a p Hin Hread. eapply (not_deleted _ (normalize a)); [done|done| |].
    - unfold orphan. by rewrite bool_decide_eq_true_2, andb_false_r by by apply Ha.
    - unfold reads. rewrite Hp. exact Hread. }
  exists w. split; [done|]. split; [intros Hdist a p Hin Hread; by apply (Hkept a p Hin), Hh|]. split; [exact Hkept|].
  intros c b p Hin Hpc. pose proof (po_merge _ _ _ Hw c b Hin) as Hf. rewrite Forall_forall in Hf. by apply Hf.
Qed.
End clean_files.

(** ** Directories *)

(** [clean] deletes [deleted], drops the states [states], and merges [chains]. *)
Definition cleans (l : Lineage) (deleted states : list path) (chains : list (list path * bool)) : bool :=
  match clean l true with
  | Ok w => bool_decide (toDelete w = list_to_set deleted ∧ unlinked w = states ∧ toMerge w = chains)
  | Throw _ => false
  end.

(** The disk [e] is used by nothing; [a] and [b] by [c] only. *)
Definition sample_used : Lineage := declare [js "d/c.vhd"] sample.

Lemma sample_linked : linked sample_used.
Proof.
  destruct (init_linked (open_of sample_disks) (λ _ _, Ok false) (state_of (js "/d/a.vhd") sample_state) (js "/d") false
    sample_files sample sample_single) as [Hl _]; [done|by vm_compute|].
  destruct (declare_spec [js "d/c.vhd"] sample) as (_ & Hp & Hc & _).
  unfold linked, sample_used. by rewrite Hp, Hc.
Qed.

Lemma sample_orphans : orphanDisks sample_used = [js "/d/b.vhd"; js "/d/a.vhd"; js "/d/e.vhd"; js "/d/g.vhd"; js "/d/h.vhd"].
Proof. vm_compute. reflexivity. Qed.

Lemma elem_of_orphanDisks l o : orphan l o = true → o ∈ orphanDisks l.
Proof.
  intros Ho. apply list_elem_of_filter. split; [done|]. unfold orphan, has_disk in Ho.
  apply andb_true_iff in Ho as [Ho _]. by apply bool_decide_eq_true_1 in Ho.
Qed.

Lemma sample_rooted o : orphan sample_used o = true → rooted sample_used o.
Proof.
  intros Ho%elem_of_orphanDisks. rewrite sample_orphans in Ho.
  assert (rooted sample_used (js "/d/a.vhd")) as Ha by (apply rooted_root; vm_compute; exact I).
  repeat (apply elem_of_cons in Ho as [->|Ho]); [..|by apply elem_of_nil in Ho]; try exact Ha;
    try (apply rooted_root; vm_compute; first [exact I|reflexivity]).
  apply (rooted_child _ _ (js "/d/a.vhd")); [vm_compute; reflexivity..|exact Ha].
Qed.

Lemma clean_exact_witness :
  cleans sample_used [js "/d/e.vhd"; js "/d/g.vhd"; js "/d/h.vhd"] [] [([js "/d/a.vhd"; js "/d/b.vhd"; js "/d/c.vhd"], false)] = true ∧
  ∃ w, clean sample_used true = Ok w
    ∧ ∀ p, p ∈ toDelete w ↔ orphan sample_used p = true ∧ ¬ ∃ a, orphan sample_used a = false ∧ reads sample_used a p.
Proof.
  split; [vm_compute; reflexivity|].
  destruct (clean_exact sample_used true sample_linked) as (w & Hrun & Hw & _); [vm_compute; reflexivity|apply sample_rooted|].
  exists w. split; [exact Hrun|exact Hw].
Defined.

(** With a merge of [a] and [b] that was interrupted. *)
Definition interrupted_files : list path := sample_files ++ [js "/d/.a.vhd.merge.json"].
Definition interrupted : Lineage := match sample_init interrupted_files with Ok l => l | Throw _ => empty_lineage end.

Lemma interrupted_single :
  single_child (open_of sample_disks) (omap (mergeParent (js "/d")) interrupted_files) (listDisks interrupted_files).
Proof. apply single_child_NoDup. apply (bool_decide_unpack _). vm_compute. exact I. Qed.

Lemma interrupted_distinct :
  distinct_uuids (open_of sample_disks) (omap (mergeParent (js "/d")) interrupted_files) (listDisks interrupted_files).
Proof. apply distinct_uuids_NoDup. apply (bool_decide_unpack _). vm_compute. exact I. Qed.

Lemma interrupted_recorded :
  states_recorded (state_of (js "/d/a.vhd") sample_state) (js "/d") interrupted_files.
Proof.
  intros f st rel _. unfold state_of. case_bool_decide as Hf; [|done]. intros [= <-] [= <-].
  exists (js "/d"), (js "a.vhd"), [js "/d/b.vhd"]. split_and!; try done; try reflexivity.
  apply (bool_decide_unpack _). vm_compute. exact I.
Qed.

Lemma clean_keeps_used_witness :
  cleans (declare [js "d/c.vhd"] interrupted) [js "/d/e.vhd"; js "/d/g.vhd"; js "/d/h.vhd"] []
    [([js "/d/a.vhd"; js "/d/b.vhd"], true)] = true ∧
  ∃ w, clean (declare [js "d/c.vhd"] interrupted) true = Ok w ∧ js "/d/a.vhd" ∉ toDelete w.
Proof.
  split; [vm_compute; reflexivity|].
  destruct (clean_keeps_used (open_of sample_disks) (λ _ _, Ok false) (state_of (js "/d/a.vhd") sample_state) (js "/d") false
    interrupted_files [js "d/c.vhd"] true interrupted interrupted_single) as (w & Hrun & Hw & _);
    [done|apply interrupted_recorded|by vm_compute|].
  exists w. split; [exact Hrun|]. apply (Hw interrupted_distinct (js "d/c.vhd")); [by left|].
  apply (rtc_l _ _ (js "/d/b.vhd")); [|apply rtc_once].
  - split; [apply (bool_decide_unpack _); vm_compute; exact I|]. exists (over (js "C") (js "b.vhd")). split_and!; vm_compute; reflexivity.
  - split; [apply (bool_decide_unpack _); vm_compute; exact I|]. exists (over (js "B") (js "a.vhd")). split_and!; vm_compute; reflexivity.
Defined.

(** Two disks over [a]: reading the second one fails with an error that is only logged,
    and [a], that it reads through, is deleted. *)
Definition fork_disks : list (path * Disk) :=
  [(js "/d/a.vhd", full (js "A")); (js "/d/b.vhd", over (js "B") (js "a.vhd")); (js "/d/c.vhd", over (js "C") (js "a.vhd"))].

Definition fork : result Lineage :=
  init (open_of fork_disks) (λ _ _, Ok false) (λ _, Throw (OtherError "ENOENT")) (js "/d") true (Ok (map fst fork_disks)).

Example second_child_loses_parent :
  match fork with
  | Ok l => isPathAccessible l (js "/d/c.vhd") && bool_decide (parentOf l !! js "/d/c.vhd" = Some (js "/d/a.vhd"))
            && cleans (declare [js "/d/c.vhd"] l) [js "/d/a.vhd"; js "/d/b.vhd"] [] []
  | Throw _ => false
  end = true.
Proof. vm_compute. reflexivity. Qed.

(** Two disks with the same uuid, each over its own parent: the second one is not linked
    to its parent, which is deleted although the disk is used. *)
Definition duplicate_disks : list (path * Disk) :=
  [(js "/d/a1.vhd", full (js "A1")); (js "/d/a2.vhd", full (js "A2"));
   (js "/d/b1.vhd", over (js "B") (js "a1.vhd")); (js "/d/b2.vhd", over (js "B") (js "a2.vhd"))].

Example duplicate_uuid_loses_parents :
  match init (open_of duplicate_disks) (λ _ _, Ok false) (λ _, Throw (OtherError "ENOENT")) (js "/d") true (Ok (map fst duplicate_disks)) with
  | Ok l => isPathAccessible l (js "/d/b2.vhd") &&
            cleans (declare [js "/d/b2.vhd"] l) [js "/d/a1.vhd"; js "/d/a2.vhd"; js "/d/b1.vhd"] [] []
  | Throw _ => false
  end = true.
Proof. vm_compute. reflexivity. Qed.

(** The last step of a merge of [c] into [p] deletes [c], then renames [p] to it.  When it
    is interrupted in between, [p], which holds all the data, is deleted. *)
Definition half_renamed : result Lineage :=
  init (open_of [(js "/d/p.vhd", full (js "P"))]) (λ _ _, Ok false)
    (state_of (js "/d/p.vhd") (mkMergeState (Some (js "cleanup")) (Some (recordedChain (js "/d/p.vhd") [js "/d/c.vhd"])) None))
    (js "/d") true (Ok [js "/d/p.vhd"; js "/d/.p.vhd.merge.json"]).

Example interrupted_rename_loses_disk :
  match half_renamed with
  | Ok l => cleans l [js "/d/p.vhd"] [js "/d/.p.vhd.merge.json"] []
  | Throw _ => false
  end = true.
Proof. vm_compute. reflexivity. Qed.
