(* ===== verification/BackupDirectory.v ===== *)
(** * The directory of the backups of a VM

    [VmBackupDirectory], [VmFullBackupArchive] and [VmIncrementalBackupArchive] of
    @xen-orchestra/backup-archive: the archives of a directory, the lineages of their
    disks, what [cleanVm] checks, deletes, merges and rewrites.

    The remote is a parameter: the files of a directory, the metadata in a file, what
    the lineages read, the content of an XVA, and the sizes that the merges give.  What
    is done to the remote is listed in [actions], in one of the orders that the
    concurrent loops allow; failures to delete, which are tolerated, are not modelled. *)

From stdpp Require Import gmap list.
From S2P Require Import Prelude JsValues Paths DiskLineage LineageClean.

Local Open Scope Z_scope.

Definition ENOENT : error := OtherError "ENOENT".

(** ** XVA files *)

(** [buf[from, from + size)], and whether it is there in full *)
Definition read_at (content : list Z) (from size : Z) : list Z :=
  take (Z.to_nat size) (drop (Z.to_nat from) content).
Definition zlength (content : list Z) : Z := Z.of_nat (length content).

Definition COMPRESSED_MAGIC_NUMBERS : list (list Z) := [[0x1F; 0x8B]; [0x28; 0xB5; 0x2F; 0xFD]].
Definition MAGIC_NUMBER_MAX_LENGTH : Z := 4.

Definition isCompressedFile (content : list Z) : result bool :=
  let header := read_at content 0 MAGIC_NUMBER_MAX_LENGTH in
  js_assert (zlength header =? MAGIC_NUMBER_MAX_LENGTH) "bytesRead" ;;
  Ok (existsb (λ magic, bool_decide (take (length magic) header = magic)) COMPRESSED_MAGIC_NUMBERS).

Definition isValidTar (content : list Z) : result bool :=
  let size := zlength content in
  if (size <=? 1024) || negb (size mod 512 =? 0) then Ok false
  else
    let buf := read_at content (size - 1024) 1024 in
    js_assert (zlength buf =? 1024) "bytesRead" ;;
    Ok (forallb (λ byte, byte =? 0) buf).

(** A file of an encrypted remote cannot be read in part; its size there is a parameter. *)
Inductive Xva := Encrypted (sizeOnDisk : Z) | Plain (content : list Z).

Definition isValidXva (x : Xva) (metadataSize : option Z) : result bool :=
  match x with
  | Encrypted size => Ok (20 <? size)
  | Plain content =>
      let size := zlength content in
      if size <? 20 then Ok false
      else
        let validSize := match metadataSize with Some s => s =? size | None => true end in
        compressed ← isCompressedFile content;
        validDisk ← (if compressed : bool then Ok true else isValidTar content);
        Ok (validSize && validDisk)
  end.

(** ** Data *)

(** What is used of the metadata. *)
Record Metadata := mkMetadata {
  md_mode : jstring;
  md_xva : option path;
  md_vhds : option (list path);
  md_size : option Z;
}.

Record FullArchive := mkFull {
  f_metadataPath : path;
  f_metadata : Metadata;
  xvaPath : path;
  isValid : option bool;
  missingDisk : bool;
}.

Record IncrementalArchive := mkIncremental {
  i_metadataPath : path;
  i_metadata : Metadata;
  i_diskPaths : list path;
  isChecked : bool;
  isComplete : bool;
}.

Inductive Archive := Full (a : FullArchive) | Incremental (a : IncrementalArchive).

(** What is done to the remote. *)
Inductive action :=
  | Unlink (p : path)
  | UnlinkDisk (p : path)
  | MergeDisks (c : list path) (isResuming : bool)
  | WriteMetadata (p : path) (size : Z)
  | WriteCache (entries : list path).

(** [checkResult] holds the orphans; the maps are in the order of insertion. *)
Record Directory := mkDirectory {
  rootPath : path;
  files : list path;
  archives : list (path * Archive);
  lineages : list (path * Lineage);
  checkResult : option (list path);
  cacheOutOfSync : bool;
  cacheExisted : bool;
  actions : list action;
}.

Fixpoint map_get {A} (k : path) (m : list (path * A)) : option A :=
  match m with
  | [] => None
  | (k', v) :: m => if bool_decide (k = k') then Some v else map_get k m
  end.

Definition set_files (fs : list path) (d : Directory) : Directory :=
  mkDirectory (rootPath d) fs (archives d) [] None (cacheOutOfSync d) (cacheExisted d) (actions d).
Definition set_archives (a : list (path * Archive)) (d : Directory) : Directory :=
  mkDirectory (rootPath d) (files d) a (lineages d) (checkResult d) (cacheOutOfSync d) (cacheExisted d) (actions d).
Definition set_lineages (l : list (path * Lineage)) (d : Directory) : Directory :=
  mkDirectory (rootPath d) (files d) (archives d) l (checkResult d) (cacheOutOfSync d) (cacheExisted d) (actions d).
Definition set_check (orphans : list path) (d : Directory) : Directory :=
  mkDirectory (rootPath d) (files d) (archives d) (lineages d) (Some orphans) (cacheOutOfSync d) (cacheExisted d) (actions d).
Definition set_cache (outOfSync existed : bool) (d : Directory) : Directory :=
  mkDirectory (rootPath d) (files d) (archives d) (lineages d) (checkResult d) outOfSync existed (actions d).
Definition act (a : list action) (d : Directory) : Directory :=
  mkDirectory (rootPath d) (files d) (archives d) (lineages d) (checkResult d) (cacheOutOfSync d) (cacheExisted d) (actions d ++ a).

Definition attempt {S A} (m : M S A) : M S (result A) := λ s, let '(r, s') := m s in (Ok r, s').

(** The remote. *)
Record Remote := mkRemote {
  list_ : path → result (list path);
  readMetadata : path → result (option Metadata);
  readXva : path → result Xva;
  isImmutable : bool;
  readCache : option nat;
  openDisk : path → bool → result Disk;
  containsAllDataOf : path → path → result bool;
  readState : path → result MergeState;
  mergedSizes : path → Plan → gmap path Z;
}.

Section directory.
Context (r : Remote) (remove merge : bool).

Definition initLineage (vdiDir : path) : result Lineage :=
  init (openDisk r) (containsAllDataOf r) (readState r) vdiDir merge (list_ r vdiDir).

(** ** Reading the directory *)

(** [init] of an incremental archive: one lineage per directory. *)
Definition initLineages (diskPaths : list path) : M Directory unit :=
  for_each diskPaths (λ diskPath,
    let vdiDir := dirname diskPath in
    ls ← gets lineages;
    match map_get vdiDir ls with
    | Some _ => mret tt
    | None =>
        match initLineage vdiDir with
        | Ok l => modify (set_lineages (map_set vdiDir l ls))
        | Throw e =>
            modify (set_lineages (map_set vdiDir empty_lineage ls)) ;;
            if bool_decide (e = NOT_SUPPORTED) then lift (Throw e) else mret tt
        end
    end).

Definition instantiateError : error := OtherError "Error trying to create backupArchive".

(** The metadata is [None] when the file holds [null]. *)
Definition instantiateBackupArchive (metadataPath : path) (metadata : option Metadata) : M Directory Archive :=
  root ← gets rootPath;
  a ← match metadata with
      | None => lift (Throw instantiateError)
      | Some m =>
          if bool_decide (md_mode m = js "full") then
            match md_xva m with
            | Some xva => mret (Full (mkFull (normalize metadataPath) m (normalize (resolve [root; xva])) None false))
            | None => lift (Throw instantiateError)
            end
          else if bool_decide (md_mode m = js "delta") then
            let diskPaths := map (λ p, normalize (resolve [root; p])) (default [] (md_vhds m)) in
            mret (Incremental (mkIncremental (normalize metadataPath) m diskPaths false false))
          else lift (Throw instantiateError)
      end;
  match a with
  | Full _ => mret a
  | Incremental i => initLineages (i_diskPaths i) ;; mret a
  end.

Definition loadArchive (fullPath : path) : M Directory unit :=
  match readMetadata r fullPath with
  | Throw _ => mret tt
  | Ok metadata =>
      a ← attempt (instantiateBackupArchive fullPath metadata);
      match a with
      | Ok a => d ← gets archives; modify (set_archives (map_set fullPath a d))
      | Throw e =>
          if bool_decide (e = NOT_SUPPORTED) then lift (Throw e)
          else match metadata with
               | None => lift (Throw (TypeError "Cannot read properties of null"))
               | Some _ => mret tt
               end
      end
  end.

Definition initDirectory : M Directory unit :=
  root ← gets rootPath;
  fs ← lift (list_ r root);
  let fs := map normalize fs in
  modify (set_files fs) ;;
  for_each (filter (λ p, endsWith (js ".json") p = true) fs) loadArchive.

(** ** Checks *)

Definition checksum (p : path) : path := p ++ js ".checksum".

Definition checkFull (a : FullArchive) : FullArchive :=
  match isValid a with
  | Some _ => a
  | None =>
      match x ← readXva r (xvaPath a); isValidXva x (md_size (f_metadata a)) with
      | Ok b => mkFull (f_metadataPath a) (f_metadata a) (xvaPath a) (Some b) (missingDisk a)
      | Throw e => mkFull (f_metadataPath a) (f_metadata a) (xvaPath a) (Some false)
                     (bool_decide (e = ENOENT) || missingDisk a)
      end
  end.

Definition accessible (ls : list (path * Lineage)) (p : path) : bool :=
  match map_get (dirname p) ls with Some l => isPathAccessible l p | None => false end.

(** The disks of a complete backup are declared to their lineages. *)
Definition declareDisk (ls : list (path * Lineage)) (p : path) : list (path * Lineage) :=
  match map_get (dirname p) ls with
  | Some l => map_set (dirname p) (addActiveDiskPath p l) ls
  | None => ls
  end.

Definition checkIncremental (a : IncrementalArchive) (ls : list (path * Lineage)) :
    IncrementalArchive * list (path * Lineage) :=
  let complete := negb (bool_decide (i_diskPaths a = [])) && forallb (accessible ls) (i_diskPaths a) in
  (mkIncremental (i_metadataPath a) (i_metadata a) (i_diskPaths a) true complete,
   if complete then foldl declareDisk ls (i_diskPaths a) else ls).

Definition checkArchive (a : Archive) (ls : list (path * Lineage)) : Archive * list (path * Lineage) :=
  match a with
  | Full a => (Full (checkFull a), ls)
  | Incremental a => let '(a, ls) := checkIncremental a ls in (Incremental a, ls)
  end.

Fixpoint checkArchives (m : list (path * Archive)) (ls : list (path * Lineage)) :
    list (path * Archive) * list (path * Lineage) :=
  match m with
  | [] => ([], ls)
  | (p, a) :: m =>
      let '(a, ls) := checkArchive a ls in
      let '(m, ls) := checkArchives m ls in
      ((p, a) :: m, ls)
  end.

Definition archiveFiles (a : Archive) : list path :=
  match a with
  | Full a => [f_metadataPath a; xvaPath a; checksum (xvaPath a)]
  | Incremental a => if isComplete a then i_metadataPath a :: i_diskPaths a else []
  end.

Definition FILES_TO_KEEP : list jstring := [js "cache.json.gz"; js "vdis"].
Definition keptFiles (fs : list path) : list path :=
  filter (λ p, existsb (λ pattern, endsWith pattern p) FILES_TO_KEEP = true) fs.

Definition checkCacheCount : M Directory unit :=
  d ← gets (λ d, d);
  let cachePath := rootPath d ++ sep :: js "cache.json.gz" in
  if negb (bool_decide (normalize cachePath ∈ files d)) then modify (set_cache false false)
  else if isImmutable r then modify (set_cache false false) ;; modify (act [Unlink cachePath])
  else match readCache r with
       | None => modify (set_cache false false) ;; modify (act [Unlink cachePath])
       | Some actual => modify (set_cache (negb (bool_decide (actual = length (archives d)))) true)
       end.

Definition check : M Directory (list path) :=
  checkCacheCount ;;
  d ← gets (λ d, d);
  let '(a, ls) := checkArchives (archives d) (lineages d) in
  let allUsedFiles := flat_map (λ x, archiveFiles x.2) a ++ keptFiles (files d) in
  let orphans := filter (λ p, p ∉ allUsedFiles) (files d) in
  modify (set_archives a) ;; modify (set_lineages ls) ;; modify (set_check orphans) ;;
  mret orphans.

(** ** The clean up *)

(** Of a lineage: what is deleted, whether there is something to merge, the sizes. *)
Record Cleaned := mkCleaned {
  cacheNeedsRegen : bool;
  someMerge : bool;
  allMergedSizes : gmap path Z;
}.

Definition cleanLineage (c : Cleaned) (x : path * Lineage) : M Directory Cleaned :=
  w ← lift (clean x.2 remove);
  modify (act (map Unlink (unlinked w))) ;;
  (if remove then modify (act (map UnlinkDisk (elements (toDelete w)))) else mret tt) ;;
  (if merge then modify (act (map (λ c, MergeDisks c.1 c.2) (toMerge w))) else mret tt) ;;
  let sizes := if merge && negb (bool_decide (toMerge w = [])) then mergedSizes r x.1 w else ∅ in
  mret (mkCleaned (cacheNeedsRegen c || negb (bool_decide (toDelete w = ∅)))
          (someMerge c || negb (bool_decide (toMerge w = [])))
          (union_with (λ a b, Some (a + b)) (allMergedSizes c) sizes)).

Fixpoint cleanLineages (ls : list (path * Lineage)) (c : Cleaned) : M Directory Cleaned :=
  match ls with
  | [] => mret c
  | x :: ls => c ← cleanLineage c x; cleanLineages ls c
  end.

(** [removedFiles], and what is done. *)
Definition cleanFull (a : FullArchive) : list path * list path * list action :=
  let a := checkFull a in
  if bool_decide (isValid a = Some true) || negb (missingDisk a) then ([], [], [])
  else
    ([f_metadataPath a; checksum (xvaPath a)], [],
     if remove then
       Unlink (f_metadataPath a) ::
       match md_xva (f_metadata a) with
       | Some xva => let xvaPath := resolveFromFile (f_metadataPath a) xva in [Unlink xvaPath; Unlink (checksum xvaPath)]
       | None => []
       end
     else []).

Definition mergedSize (sizes : gmap path Z) (diskPaths : list path) : Z :=
  foldl (λ n p, n + default 0 (sizes !! p)) 0 diskPaths.

(** [removedFiles], [changedFiles], and what is done. *)
Definition cleanIncremental (sizes : gmap path Z) (ls : list (path * Lineage)) (a : IncrementalArchive) :
    list path * list path * list action :=
  let a := if isChecked a then a else (checkIncremental a ls).1 in
  let removed := if isComplete a then [] else [i_metadataPath a] in
  let size := mergedSize sizes (i_diskPaths a) in
  (removed, if 0 <? size then [i_metadataPath a] else [],
   (if remove then map Unlink removed else []) ++
   if 0 <? size then [WriteMetadata (i_metadataPath a) size] else []).

Definition cleanArchive (sizes : gmap path Z) (ls : list (path * Lineage)) (a : Archive) :
    list path * list path * list action :=
  match a with
  | Full a => cleanFull a
  | Incremental a => cleanIncremental sizes ls a
  end.

Definition cleanArchives (sizes : gmap path Z) (ls : list (path * Lineage)) (m : list (path * Archive)) :
    list (path * (list path * list path * list action)) :=
  map (λ x, (x.1, cleanArchive sizes ls x.2)) m.

Record CleanResult := mkCleanResult {
  removedFiles : list path;
  changedFiles : list path;
  merges : bool;
}.

Definition cleanDirectory : M Directory CleanResult :=
  cached ← gets checkResult;
  orphans ← match cached with Some orphans => mret orphans | None => check end;
  ls ← gets lineages;
  c ← cleanLineages ls (mkCleaned false false ∅);
  m ← gets archives;
  let cleaned := cleanArchives (allMergedSizes c) ls m in
  modify (act (flat_map (λ x, x.2.2) cleaned)) ;;
  let archiveRemoved := flat_map (λ x, x.2.1.1) cleaned in
  let needsRegen := cacheNeedsRegen c || negb (bool_decide (archiveRemoved = [])) in
  let goneArchives := map fst (filter (λ x, x.1 ∈ x.2.1.1) cleaned) in
  let rest := filter (λ x, x.1 ∉ goneArchives) m in
  modify (set_archives rest) ;;
  d ← gets (λ d, d);
  (if cacheExisted d && (negb (bool_decide (allMergedSizes c = ∅)) || needsRegen || cacheOutOfSync d) then
     if isImmutable r then mret tt else modify (act [WriteCache (map fst rest)])
   else mret tt) ;;
  (if remove then modify (act (map Unlink orphans)) else mret tt) ;;
  mret (mkCleanResult (foldl set_add [] (archiveRemoved ++ orphans)) (foldl set_add [] (flat_map (λ x, x.2.1.2) cleaned))
          (someMerge c)).

Definition new_directory (root : path) : Directory := mkDirectory root [] [] [] None false false [].

Definition cleanVm (root : path) : result (CleanResult * Directory) :=
  match (initDirectory ;; check ;; cleanDirectory) (new_directory root) with
  | (Ok c, d) => Ok (c, d)
  | (Throw e, _) => Throw e
  end.
End directory.

(** ** Maps in the order of insertion *)

Lemma map_get_set {A} k k' (v : A) m :
  map_get k (map_set k' v m) = if decide (k = k') then Some v else map_get k m.
Proof.
  induction m as [|[k1 v1] m IH]; cbn [map_set].
  - cbn [map_get]. case_decide; case_bool_decide; congruence.
  - case_bool_decide as Hk; cbn [map_get].
    + subst k1. case_bool_decide as Hk1; case_decide; congruence.
    + case_bool_decide as Hk1; [|done]. case_decide; congruence.
Qed.

Lemma map_get_elem {A} k (v : A) m : map_get k m = Some v → (k, v) ∈ m.
Proof.
  induction m as [|[k1 v1] m IH]; cbn [map_get]; [done|].
  case_bool_decide; [intros [= ->]; subst; by left|]. intros ?. right. by apply IH.
Qed.

Lemma map_set_keys {A} k (v : A) m : ∀ x, x ∈ map fst (map_set k v m) ↔ x = k ∨ x ∈ map fst m.
Proof.
  intros x. induction m as [|[k1 v1] m IH]; cbn [map_set map]; [set_solver|].
  case_bool_decide; cbn [map fst]; [subst|]; rewrite !elem_of_cons, ?IH; naive_solver.
Qed.

Lemma map_set_NoDup {A} k (v : A) m : NoDup (map fst m) → NoDup (map fst (map_set k v m)).
Proof.
  induction m as [|[k1 v1] m IH]; cbn [map_set map]; [intros _; apply NoDup_singleton|].
  intros [Hn Hd]%NoDup_cons. case_bool_decide; cbn [map fst].
  - subst. by apply NoDup_cons.
  - apply NoDup_cons. split; [|by apply IH]. rewrite map_set_keys. naive_solver.
Qed.

Lemma map_get_NoDup {A} (m : list (path * A)) k v : NoDup (map fst m) → (k, v) ∈ m → map_get k m = Some v.
Proof.
  induction m as [|[k1 v1] m IH]; [by intros _ ?%elem_of_nil|]. intros [Hn Hd]%NoDup_cons. cbn [map_get].
  intros [[= -> ->]|Hv]%elem_of_cons; [by rewrite bool_decide_eq_true_2|].
  rewrite bool_decide_eq_false_2; [by apply IH|]. intros ->. apply Hn.
  apply (list_elem_of_fmap fst). by exists (k1, v).
Qed.

(** ** Names of files *)

Lemma endsWith_inv e s : endsWith e s = true → ∃ a, s = a ++ e.
Proof.
  unfold endsWith, startsWith. intros H%bool_decide_eq_true_1. exists (rev (drop (length (rev e)) (rev s))).
  rewrite <- (rev_involutive s) at 1. rewrite <- (take_drop (length (rev e)) (rev s)) at 1.
  by rewrite H, rev_app_distr, rev_involutive.
Qed.

Lemma last_endsWith e s c : endsWith (e ++ [c]) s = true → last s = Some c.
Proof. intros [a ->]%endsWith_inv. by rewrite app_assoc, last_snoc. Qed.

(** The name at the end of a path stays there. *)
Lemma segments_ends g e : sep ∉ e → (3 ≤ length e)%nat → ∃ xs t, segments (g ++ e) = xs ++ [t ++ e].
Proof.
  intros Hs Hl.
  assert (∀ t, sep ∉ t → name (t ++ e)) as Hn.
  { intros t Ht. split_and!.
    - intros E. apply (f_equal length) in E. rewrite length_app in E. cbn in E. lia.
    - intros E. apply (f_equal length) in E. rewrite length_app in E. cbn in E. lia.
    - intros E. apply (f_equal length) in E. rewrite length_app in E. cbn in E. lia.
    - set_solver. }
  assert ((sep ∉ g) ∨ ∃ d t, g = d ++ sep :: t ∧ sep ∉ t) as [Hg|(d & t & -> & Ht)].
  { induction g as [|c g [Hg|(d & t & -> & Ht)]] using rev_ind.
    - left. apply not_elem_of_nil.
    - destruct (decide (c = sep)) as [->|]; [right; exists g, []; split; [done|apply not_elem_of_nil]|left; set_solver].
    - right. destruct (decide (c = sep)) as [->|]; [exists (d ++ sep :: t), []; split; [done|apply not_elem_of_nil]|].
      exists d, (t ++ [c]). split; [by rewrite <- app_assoc|set_solver]. }
  - exists [], g. unfold segments. rewrite split_char_word by set_solver. rewrite normal_names; [done|].
    apply Forall_singleton. by apply Hn.
  - exists (segments d), t. rewrite <- app_assoc. cbn [app]. apply segments_app. by apply Hn.
Qed.

Lemma normalize_snoc p xs x : segments p = xs ++ [x] → ∃ d, normalize p = d ++ sep :: x.
Proof.
  intros E. rewrite normalize_segments, E. destruct (join_snoc xs x) as (d & Hd & _). by exists d.
Qed.

Lemma normalize_ends g e : sep ∉ e → (3 ≤ length e)%nat → ∃ d, normalize (g ++ e) = d ++ e.
Proof.
  intros Hs Hl. destruct (segments_ends g e Hs Hl) as (xs & t & E). destruct (normalize_snoc _ _ _ E) as [d ->].
  exists (d ++ sep :: t). by rewrite <- app_assoc.
Qed.

Lemma span_sep s :
  s = (span not_sep s).1 ++ skip not_sep s ∧ (skip not_sep s = [] ∨ ∃ t, skip not_sep s = sep :: t).
Proof.
  induction s as [|c s [IH IH']]; [split; [reflexivity|by left]|]. cbn [span skip]. assert (not_sep c = negb (is_sep c)) as -> by done.
  destruct (is_sep c) eqn:Hc; cbn [negb].
  - split; [reflexivity|]. right. apply Ascii.eqb_eq in Hc as ->. by eexists.
  - destruct (span not_sep s) as [a b]. cbn in *. split; [by f_equal|done].
Qed.

(** The name of a path is that of the normal path too. *)
Lemma basename_normalize g : name (basename g) → ∃ d, normalize g = d ++ sep :: basename g.
Proof.
  intros Hn. assert (∃ xs, segments g = xs ++ [basename g]) as [xs E].
  2:{ by apply (normalize_snoc g xs). }
  assert (∀ r, ∃ n, rev r = rev (skip is_sep r) ++ replicate n sep) as Hskip.
  { induction r as [|c r [n IH]]; [by exists 0%nat|]. cbn [skip]. destruct (is_sep c) eqn:Hc; [|exists 0%nat; by rewrite app_nil_r].
    exists (S n). cbn [rev]. apply Ascii.eqb_eq in Hc as ->. rewrite IH, <- app_assoc. f_equal. by rewrite <- replicate_S_end. }
  destruct (Hskip (rev g)) as [n Hg]. rewrite rev_involutive in Hg. set (s := skip is_sep (rev g)) in *.
  assert (segments g = segments (rev s)) as ->.
  { rewrite Hg. clear. induction n as [|n IH]; [by rewrite app_nil_r|].
    rewrite replicate_S_end, app_assoc, segments_snoc_sep. exact IH. }
  unfold basename in *. fold s in Hn |- *. clearbody s. destruct (span_sep s) as [Hs Ht].
  set (w := (span not_sep s).1) in *. clearbody w. rewrite Hs. rewrite rev_app_distr. destruct Ht as [->|[t ->]].
  - exists []. cbn. unfold segments. rewrite split_char_word by apply Hn. apply normal_names. by apply Forall_singleton.
  - exists (segments (rev t)). cbn [rev]. rewrite <- app_assoc. by apply segments_app.
Qed.

Lemma last_normalize g e c : sep ∉ e ++ [c] → (2 ≤ length e)%nat → last (normalize (g ++ e ++ [c])) = Some c.
Proof.
  intros Hs Hl. destruct (normalize_ends g (e ++ [c]) Hs) as [d ->]; [rewrite length_app; cbn; lia|].
  by rewrite app_assoc, last_snoc.
Qed.

(** The state of a merge is a file of that name, once its path is normal. *)
Lemma normalize_state g x :
  MERGE_STATE_FILE_RE (basename g) ≠ None → normalize g = x → MERGE_STATE_FILE_RE (basename x) ≠ None ∧ last x = Some "n"%char.
Proof.
  intros Hre <-. pose proof (basename_no_sep g) as Hs. revert Hre Hs. generalize (eq_refl (basename g)). generalize (basename g) at 2 3 4.
  intros b Hb Hre Hs. assert (name b) as Hn by (split_and!; [intros ->|intros ->|intros ->|done]; by vm_compute in Hre).
  destruct (basename_normalize g) as [d Hd]; [by rewrite Hb|]. rewrite Hb in Hd. rewrite Hd, basename_name by done. split; [done|].
  destruct b as [|c b]; [done|]. cbn [MERGE_STATE_FILE_RE] in Hre. case_match eqn:Hc; [|done].
  rewrite !andb_true_iff in Hc. destruct Hc as (((_ & He) & _) & _).
  apply (last_endsWith (js ".merge.jso") _ "n"%char) in He.
  change (sep :: c :: b) with ([sep; c] ++ b). rewrite app_assoc. by rewrite last_app, He.
Qed.

(** ** Reading the directory *)

Section facts.
Context (r : Remote) (remove merge : bool) (root : path).

(** The files of [vdiDir] suit its lineage, as [clean_keeps_used] asks. *)
Definition healthy (vdiDir : path) : Prop :=
  list_ r vdiDir ≠ Throw NOT_SUPPORTED ∧
  ∀ fs, list_ r vdiDir = Ok fs →
    single_child (openDisk r) (omap (mergeParent vdiDir) fs) (listDisks fs) ∧
    (∀ p, p ∈ listDisks fs → merge = true → opened (openDisk r) (omap (mergeParent vdiDir) fs) p ≠ Throw NOT_SUPPORTED) ∧
    states_recorded (readState r) vdiDir fs.
Hypothesis Hhealthy : ∀ p, healthy (dirname (normalize p)).

Definition lineageOf (vdiDir : path) : Lineage :=
  match initLineage r merge vdiDir with Ok l => l | Throw _ => empty_lineage end.

Lemma initLineage_ok p : initLineage r merge (dirname (normalize p)) = Ok (lineageOf (dirname (normalize p))).
Proof.
  unfold lineageOf. destruct (Hhealthy p) as [Hns Hfs]. unfold initLineage in *.
  destruct (list_ r (dirname (normalize p))) as [fs|e] eqn:Hl.
  - destruct (Hfs fs eq_refl) as (Hs & Ho & _). destruct (init_ok (openDisk r) (containsAllDataOf r) (readState r) _ merge fs Hs Ho)
      as (l0 & b & u & -> & _). done.
  - unfold init. case_bool_decide as He; [|done]. subst. by destruct Hns.
Qed.

Lemma lineageOf_ok p : linked (lineageOf (dirname (normalize p))) ∧ recorded (lineageOf (dirname (normalize p))).
Proof.
  pose proof (initLineage_ok p) as Hi. unfold initLineage in Hi. destruct (Hhealthy p) as [Hns Hfs].
  destruct (list_ r (dirname (normalize p))) as [fs|e] eqn:Hl.
  - destruct (Hfs fs eq_refl) as (Hs & Ho & Hst).
    destruct (init_linked _ _ _ _ _ _ _ Hs Ho Hi) as (? & Hr & _). split; [done|by apply Hr].
  - assert (lineageOf (dirname (normalize p)) = empty_lineage) as ->.
    { unfold init in Hi. case_bool_decide; [done|]. by injection Hi. }
    split; [by intros q c; cbn; rewrite !lookup_empty|]. by intros q i c ?%elem_of_nil.
Qed.

(** The lineages are those of their directories. *)
Definition lineages_ok (ls : list (path * Lineage)) : Prop :=
  NoDup (map fst ls) ∧ ∀ v l, map_get v ls = Some l → (∃ p, v = dirname (normalize p)) ∧ l = lineageOf v.

Lemma initLineages_ok ds d :
  (∀ p, p ∈ ds → ∃ q, p = normalize q) → lineages_ok (lineages d) →
  ∃ ls, initLineages r merge ds d = (Ok tt, set_lineages ls d) ∧ lineages_ok ls ∧
    (∀ v, is_Some (map_get v (lineages d)) → is_Some (map_get v ls)) ∧
    ∀ p, p ∈ ds → is_Some (map_get (dirname p) ls).
Proof.
  intros Hn. revert d. induction ds as [|p ds IH]; intros d Hd.
  { exists (lineages d). split; [by destruct d|]. split; [done|]. split; [done|]. by intros p ?%elem_of_nil. }
  destruct (Hn p ltac:(by left)) as [q ->]. unfold initLineages. cbn [for_each].
  set (v := dirname (normalize q)).
  assert (∃ ls, (ls0 ← gets lineages; match map_get v ls0 with Some _ => mret tt | None =>
      match initLineage r merge v with Ok l => modify (set_lineages (map_set v l ls0))
      | Throw e => modify (set_lineages (map_set v empty_lineage ls0)) ;;
          (if bool_decide (e = NOT_SUPPORTED) then lift (Throw e) else mret tt) end end) d = (Ok tt, set_lineages ls d) ∧
      lineages_ok ls ∧ (∀ w, is_Some (map_get w (lineages d)) → is_Some (map_get w ls)) ∧ is_Some (map_get v ls))
    as (ls1 & Hrun1 & Hok1 & Hmono1 & Hv).
  { unfold mbind at 1, M_bind at 1, gets. destruct (map_get v (lineages d)) eqn:Hget.
    - exists (lineages d). split; [by destruct d|]. split; [done|]. split; [done|]. by rewrite Hget.
    - pose proof (initLineage_ok q) as Hinit. fold v in Hinit. rewrite Hinit. exists (map_set v (lineageOf v) (lineages d)). split; [done|].
      split; [|split; [intros w [l Hw]|]; rewrite map_get_set; [by case_decide|by rewrite decide_True]].
      split; [apply map_set_NoDup, Hd|].
      intros w l. rewrite map_get_set. case_decide; [intros [= <-]; subst w; split; [by exists q|done]|apply Hd]. }
  unfold mbind at 1, M_bind at 1. rewrite Hrun1.
  destruct (IH ltac:(intros x Hx; apply Hn; by right) (set_lineages ls1 d) Hok1) as (ls2 & Hrun2 & Hok2 & Hmono2 & Hall2).
  exists ls2. split; [exact Hrun2|]. split; [done|]. split; [intros w Hw; by apply Hmono2, Hmono1|].
  intros x [->|Hx]%elem_of_cons; [by apply Hmono2|by apply Hall2].
Qed.

(** What the metadata of [p] makes of it. *)
Definition disksOf (md : Metadata) : list path := map (λ p, normalize (resolve [root; p])) (default [] (md_vhds md)).
Definition fresh (p : path) (md : Metadata) : option Archive :=
  if bool_decide (md_mode md = js "full") then
    option_map (λ xva, Full (mkFull (normalize p) md (normalize (resolve [root; xva])) None false)) (md_xva md)
  else if bool_decide (md_mode md = js "delta") then
    Some (Incremental (mkIncremental (normalize p) md (disksOf md) false false))
  else None.

Definition with_lineages (ls : list (path * Lineage)) (a : Archive) : Prop :=
  match a with
  | Full _ => True
  | Incremental i => ∀ p, p ∈ i_diskPaths i → is_Some (map_get (dirname p) ls)
  end.

Lemma disksOf_normal md p : p ∈ disksOf md → ∃ q, p = normalize q.
Proof. intros (q & -> & _)%list_elem_of_fmap. by eexists. Qed.

Lemma instantiate_ok p md d :
  rootPath d = root → lineages_ok (lineages d) →
  match fresh p md with
  | Some a => ∃ ls, instantiateBackupArchive r merge p (Some md) d = (Ok a, set_lineages ls d) ∧ lineages_ok ls ∧
      (∀ v, is_Some (map_get v (lineages d)) → is_Some (map_get v ls)) ∧ with_lineages ls a
  | None => instantiateBackupArchive r merge p (Some md) d = (Throw instantiateError, d)
  end.
Proof.
  intros Hroot Hl. unfold instantiateBackupArchive, fresh. unfold mbind at 1, M_bind at 1, gets at 1. rewrite Hroot.
  destruct (bool_decide (md_mode md = js "full")).
  - destruct (md_xva md) as [xva|]; [|done]. cbn [option_map]. exists (lineages d). by destruct d.
  - destruct (bool_decide (md_mode md = js "delta")); [|done].
    destruct (initLineages_ok (disksOf md) d (disksOf_normal md) Hl) as (ls & Hrun & Hok & Hmono & Hall).
    exists ls. split; [|done]. unfold mbind at 1, M_bind at 1, mret at 1, M_ret at 1. cbn [i_diskPaths].
    unfold mbind, M_bind. fold (disksOf md). by rewrite Hrun.
Qed.

Record loaded (fs : list path) (d : Directory) : Prop := {
  ld_root : rootPath d = root;
  ld_files : files d = fs;
  ld_actions : actions d = [];
  ld_check : checkResult d = None;
  ld_lineages : lineages_ok (lineages d);
  ld_keys : NoDup (map fst (archives d));
  ld_archives p a : map_get p (archives d) = Some a →
    p ∈ fs ∧ endsWith (js ".json") p = true ∧ (∃ md, readMetadata r p = Ok (Some md) ∧ fresh p md = Some a) ∧
    with_lineages (lineages d) a;
}.

Definition is_loaded (p : path) (d : Directory) : Prop :=
  ∀ md a, readMetadata r p = Ok (Some md) → fresh p md = Some a → map_get p (archives d) = Some a.

Lemma with_lineages_mono ls ls' a :
  (∀ v, is_Some (map_get v ls) → is_Some (map_get v ls')) → with_lineages ls a → with_lineages ls' a.
Proof. destruct a; cbn; auto. Qed.

Lemma loadArchive_ok fs p d :
  p ∈ fs → endsWith (js ".json") p = true → readMetadata r p ≠ Ok None → loaded fs d →
  ∃ d', loadArchive r merge p d = (Ok tt, d') ∧ loaded fs d' ∧ is_loaded p d' ∧ ∀ q, is_loaded q d → is_loaded q d'.
Proof.
  intros Hp Hjson Hnull [Hroot Hfiles Hact Hcheck Hl Hkeys Ha]. unfold loadArchive, is_loaded.
  destruct (readMetadata r p) as [[md|]|e] eqn:Hmd; [|done|].
  2:{ exists d. split; [done|]. split; [by split|]. split; [done|done]. }
  pose proof (instantiate_ok p md d Hroot Hl) as Hi. unfold mbind at 1, M_bind at 1, attempt.
  destruct (fresh p md) as [a|] eqn:Hf.
  - destruct Hi as (ls & -> & Hls & Hmono & Hwith). unfold mbind, M_bind, gets, modify.
    eexists. split; [done|]. split; [split; cbn; try done|].
    + by apply map_set_NoDup.
    + intros q b. rewrite map_get_set. case_decide as Hq; [intros [= <-]; subst q; by eauto 10|].
      intros (? & ? & ? & Hw)%Ha. split_and!; [done..|]. by eapply with_lineages_mono.
    + cbn. split; [intros ? ? [= <-] ?; rewrite map_get_set, decide_True; congruence|].
      intros q Hq md' b Hm' Hf'. rewrite map_get_set. case_decide; [subst q|by eapply Hq].
      congruence.
  - rewrite Hi. exists d. split; [done|]. split; [by split|]. split; [intros; congruence|done].
Qed.

Lemma initDirectory_ok fs d :
  d = new_directory root → list_ r root = Ok fs →
  (∀ f, f ∈ fs → endsWith (js ".json") (normalize f) = true → readMetadata r (normalize f) ≠ Ok None) →
  ∃ d', initDirectory r merge d = (Ok tt, d') ∧ loaded (map normalize fs) d' ∧
    ∀ p, p ∈ map normalize fs → endsWith (js ".json") p = true → is_loaded p d'.
Proof.
  intros -> Hfs Hnull. unfold initDirectory, mbind, M_bind, gets, lift, modify. cbn [rootPath new_directory]. rewrite Hfs.
  destruct (for_each_all (loaded (map normalize fs)) is_loaded (loadArchive r merge)
    (filter (λ p, endsWith (js ".json") p = true) (map normalize fs)) (set_files (map normalize fs) (new_directory root)))
    as (d' & Hrun & Hd & Hall & _).
  { intros p d [Hj Hp]%list_elem_of_filter Hd. destruct (loadArchive_ok (map normalize fs) p d Hp Hj) as (d' & ? & ? & ? & ?).
    - apply list_elem_of_fmap in Hp as (f & -> & Hf). by apply Hnull.
    - done.
    - by exists d'. }
  { split; try done; cbn; [split; [constructor|done]|constructor]. }
  exists d'. split; [done|]. split; [done|]. intros p Hp Hj. apply Hall, list_elem_of_filter. done.
Qed.

(** ** Checks *)

Lemma declare_broken acts l : brokenDiskPaths (declare acts l) = brokenDiskPaths l.
Proof. by induction acts. Qed.

Lemma declare_accessible acts l p : isPathAccessible (declare acts l) p = isPathAccessible l p.
Proof. unfold isPathAccessible. destruct (declare_spec acts l) as (-> & _). by rewrite declare_broken. Qed.

(** [ls] are the lineages [ls0], with disks declared. *)
Definition declared (ls0 ls : list (path * Lineage)) : Prop :=
  map fst ls = map fst ls0 ∧
  ∀ v, match map_get v ls0 with
       | Some l0 => ∃ acts, map_get v ls = Some (declare acts l0)
       | None => map_get v ls = None
       end.

Definition is_declared (ls : list (path * Lineage)) (p : path) : Prop :=
  ∃ l, map_get (dirname p) ls = Some l ∧ normalize p ∈ activeDiskPaths l.

Lemma declared_refl ls : declared ls ls.
Proof. split; [done|]. intros v. destruct (map_get v ls) as [l|] eqn:E; [|done]. by exists []. Qed.

Lemma declared_accessible ls0 ls p : declared ls0 ls → accessible ls p = accessible ls0 p.
Proof.
  intros [_ Hd]. unfold accessible. specialize (Hd (dirname p)).
  destruct (map_get (dirname p) ls0); [|by rewrite Hd]. destruct Hd as [acts ->]. apply declare_accessible.
Qed.

Lemma map_set_same_keys {A} k (v : A) m : is_Some (map_get k m) → map fst (map_set k v m) = map fst m.
Proof.
  induction m as [|[k1 v1] m IH]; cbn [map_get map_set]; [by intros [? [=]]|].
  case_bool_decide; [by subst|]. intros ?. cbn. by rewrite IH.
Qed.

Lemma declareDisk_ok ls0 ls p :
  declared ls0 ls →
  declared ls0 (declareDisk ls p) ∧ (is_Some (map_get (dirname p) ls0) → is_declared (declareDisk ls p) p) ∧
  ∀ q, is_declared ls q → is_declared (declareDisk ls p) q.
Proof.
  intros [Hk Hd]. unfold declareDisk. pose proof (Hd (dirname p)) as Hp.
  destruct (map_get (dirname p) ls0) as [l0|] eqn:E0.
  - destruct Hp as [acts Hp]. rewrite Hp.
    change (addActiveDiskPath p (declare acts l0)) with (declare (p :: acts) l0). split; [|split].
    + split; [by rewrite map_set_same_keys|]. intros v. specialize (Hd v). rewrite map_get_set.
      case_decide; [subst v; rewrite E0; by eexists|done].
    + intros _. exists (declare (p :: acts) l0). rewrite map_get_set, decide_True by done. split; [done|]. cbn. set_solver.
    + intros q (l1 & Hl1 & Hq). unfold is_declared. rewrite map_get_set. case_decide as E.
      * exists (declare (p :: acts) l0). split; [done|]. rewrite E, Hp in Hl1. injection Hl1 as <-. cbn. set_solver.
      * by exists l1.
  - rewrite Hp. split; [by split|]. split; [by intros [? [=]]|done].
Qed.

Lemma declareDisks_ok ls0 ls ds :
  declared ls0 ls →
  declared ls0 (foldl declareDisk ls ds) ∧
  (∀ q, is_declared ls q → is_declared (foldl declareDisk ls ds) q) ∧
  ∀ p, p ∈ ds → is_Some (map_get (dirname p) ls0) → is_declared (foldl declareDisk ls ds) p.
Proof.
  revert ls. induction ds as [|p ds IH]; intros ls Hd; cbn [foldl].
  { split; [done|]. split; [done|]. by intros p ?%elem_of_nil. }
  destruct (declareDisk_ok ls0 ls p Hd) as (Hd1 & Hp & Hk). destruct (IH _ Hd1) as (Hd2 & Hk2 & Hall).
  split; [done|]. split; [by auto|]. intros q [->|Hq]%elem_of_cons Hs; [by apply Hk2, Hp|by apply Hall].
Qed.

(** An archive, after its check. *)
Definition complete (ls0 : list (path * Lineage)) (ds : list path) : bool :=
  negb (bool_decide (ds = [])) && forallb (accessible ls0) ds.
Definition checked (ls0 : list (path * Lineage)) (a : Archive) : Archive :=
  match a with
  | Full a => Full (checkFull r a)
  | Incremental i =>
      Incremental (mkIncremental (i_metadataPath i) (i_metadata i) (i_diskPaths i) true (complete ls0 (i_diskPaths i)))
  end.
Definition disks_declared (ls0 ls : list (path * Lineage)) (a : Archive) : Prop :=
  match a with
  | Full _ => True
  | Incremental i => complete ls0 (i_diskPaths i) = true → ∀ p, p ∈ i_diskPaths i → is_declared ls p
  end.

Lemma forallb_ext_in {A} (f g : A → bool) xs : (∀ x, f x = g x) → forallb f xs = forallb g xs.
Proof. intros E. induction xs as [|x xs IH]; cbn; [done|]. by rewrite E, IH. Qed.

Lemma checkArchive_ok ls0 ls a :
  declared ls0 ls → with_lineages ls0 a →
  ∃ ls', checkArchive r a ls = (checked ls0 a, ls') ∧ declared ls0 ls' ∧ disks_declared ls0 ls' a ∧
    ∀ q, is_declared ls q → is_declared ls' q.
Proof.
  intros Hd Hw. destruct a as [a|i]; cbn [checkArchive checked]; [by exists ls|].
  unfold checkIncremental. fold (complete ls (i_diskPaths i)).
  assert (complete ls (i_diskPaths i) = complete ls0 (i_diskPaths i)) as ->.
  { unfold complete. f_equal. apply forallb_ext_in. intros p. by apply declared_accessible. }
  destruct (declareDisks_ok ls0 ls (i_diskPaths i) Hd) as (Hd' & Hk & Hall).
  cbn [disks_declared]. destruct (complete ls0 (i_diskPaths i)); eexists; (split; [reflexivity|]); [|done].
  split; [done|]. split; [|done]. intros _ p Hp. apply Hall; [done|]. by apply Hw.
Qed.

Lemma checkArchives_ok ls0 ls m :
  declared ls0 ls → (∀ x, x ∈ m → with_lineages ls0 x.2) →
  ∃ ls', checkArchives r m ls = (map (λ x, (x.1, checked ls0 x.2)) m, ls') ∧ declared ls0 ls' ∧
    (∀ x, x ∈ m → disks_declared ls0 ls' x.2) ∧ ∀ q, is_declared ls q → is_declared ls' q.
Proof.
  revert ls. induction m as [|[p a] m IH]; intros ls Hd Hw.
  { exists ls. split; [done|]. split; [done|]. split; [|done]. by intros x ?%elem_of_nil. }
  cbn [checkArchives]. destruct (checkArchive_ok ls0 ls a Hd (Hw (p, a) ltac:(by left))) as (ls1 & -> & Hd1 & Ha & Hk1).
  destruct (IH ls1 Hd1 ltac:(intros x Hx; apply Hw; by right)) as (ls2 & -> & Hd2 & Hall & Hk2).
  exists ls2. split; [done|]. split; [done|]. split; [|by auto].
  intros x [->|Hx]%elem_of_cons; [|by apply Hall]. cbn. destruct a as [a|i]; [done|]. cbn in *. auto.
Qed.

Definition usedFiles (d : Directory) (m : list (path * Archive)) : list path :=
  flat_map (λ x, archiveFiles x.2) m ++ keptFiles (files d).

Definition cachePath : path := root ++ sep :: js "cache.json.gz".

(** After [check]. *)
Record was_checked (d d' : Directory) : Prop := {
  ck_files : files d' = files d;
  ck_archives : archives d' = map (λ x, (x.1, checked (lineages d) x.2)) (archives d);
  ck_lineages : declared (lineages d) (lineages d');
  ck_declared p a : (p, a) ∈ archives d → disks_declared (lineages d) (lineages d') a;
  ck_result : checkResult d' = Some (filter (λ p, p ∉ usedFiles d (archives d')) (files d));
  ck_actions x : x ∈ actions d' → x = Unlink cachePath;
  ck_cache : cacheExisted d' = true →
    ∃ n, readCache r = Some n ∧ isImmutable r = false ∧ cacheOutOfSync d' = negb (bool_decide (n = length (archives d)));
}.

Lemma checkCacheCount_ok d :
  rootPath d = root → actions d = [] →
  ∃ d', checkCacheCount r d = (Ok tt, d') ∧ files d' = files d ∧ archives d' = archives d ∧ lineages d' = lineages d ∧
    (∀ x, x ∈ actions d' → x = Unlink cachePath) ∧
    (cacheExisted d' = true →
      ∃ n, readCache r = Some n ∧ isImmutable r = false ∧ cacheOutOfSync d' = negb (bool_decide (n = length (archives d)))).
Proof.
  intros Hr Ha. unfold checkCacheCount, mbind, M_bind, gets, modify. rewrite Hr. fold cachePath.
  destruct (bool_decide (normalize cachePath ∈ files d)); cbn [negb].
  2:{ eexists. split; [done|]. cbn. rewrite Ha. split_and!; try done. by intros x ?%elem_of_nil. }
  destruct (isImmutable r).
  { eexists. split; [done|]. cbn. rewrite Ha. split_and!; try done. by intros x ?%list_elem_of_singleton. }
  destruct (readCache r) as [n|]; eexists; (split; [done|]); cbn; rewrite Ha; split_and!; try done.
  - by intros x ?%elem_of_nil.
  - by intros _; exists n.
  - by intros x ?%list_elem_of_singleton.
Qed.

Lemma check_ok fs d :
  loaded fs d → ∃ orphans d', check r d = (Ok orphans, d') ∧ was_checked d d' ∧ checkResult d' = Some orphans.
Proof.
  intros [Hroot Hfiles Hact Hcheck [Hlk Hl] Hkeys Ha]. unfold check.
  destruct (checkCacheCount_ok d Hroot Hact) as (d1 & Hrun & Hf & Har & Hli & Hac & Hca).
  unfold mbind, M_bind. rewrite Hrun. unfold gets, modify, mret, M_ret.
  destruct (checkArchives_ok (lineages d) (lineages d) (archives d)) as (ls & Hrun2 & Hd & Hall & _); [apply declared_refl| |].
  { intros [p a] Hx. apply (Ha p a). by apply map_get_NoDup. }
  rewrite Har, Hli, Hrun2. eexists _, _. split; [done|]. split; [|done]. split; cbn; try done.
  - intros p a Hin. by apply (Hall (p, a)).
  - by rewrite Hf.
Qed.

(** ** The clean up *)

Lemma act_act a b d : act b (act a d) = act (a ++ b) d.
Proof. unfold act. cbn. by rewrite app_assoc. Qed.

Lemma act_nil d : act [] d = d.
Proof. destruct d. unfold act. cbn. by rewrite app_nil_r. Qed.

(** What the clean up of the lineages does. *)
Inductive of_lineages (ls : list (path * Lineage)) : action → Prop :=
  | ol_state v l w f : (v, l) ∈ ls → clean l remove = Ok w → f ∈ unlinked w → of_lineages ls (Unlink f)
  | ol_disk v l w p : (v, l) ∈ ls → clean l remove = Ok w → remove = true → p ∈ toDelete w → of_lineages ls (UnlinkDisk p)
  | ol_merge v l w c b : (v, l) ∈ ls → clean l remove = Ok w → (c, b) ∈ toMerge w → of_lineages ls (MergeDisks c b).

Lemma of_lineages_mono ls ls' x : (∀ y, y ∈ ls → y ∈ ls') → of_lineages ls x → of_lineages ls' x.
Proof. intros Hs [v l w f ? ?|v l w p ? ?|v l w c b ? ?]; [eapply ol_state|eapply ol_disk|eapply ol_merge]; eauto. Qed.

Lemma cleanLineage_ok c v l d w :
  clean l remove = Ok w →
  ∃ c' acts, cleanLineage r remove merge c (v, l) d = (Ok c', act acts d) ∧
    (∀ x, x ∈ acts → of_lineages [(v, l)] x) ∧
    (cacheNeedsRegen c' = false → cacheNeedsRegen c = false ∧ toDelete w = ∅).
Proof.
  intros Hw. unfold cleanLineage. cbn [snd fst]. unfold mbind at 1, M_bind at 1, lift at 1. rewrite Hw.
  unfold mbind, M_bind, modify, mret, M_ret.
  set (a1 := map Unlink (unlinked w)).
  set (a2 := if remove then map UnlinkDisk (elements (toDelete w)) else []).
  set (a3 := if merge then map (λ c, MergeDisks c.1 c.2) (toMerge w) else []).
  eexists _, (a1 ++ a2 ++ a3). split.
  { replace (act (a1 ++ a2 ++ a3) d) with (act a3 (act a2 (act a1 d))) by (by rewrite !act_act, app_assoc).
    subst a2 a3. destruct remove, merge; rewrite ?act_nil; reflexivity. }
  split.
  - assert ((v, l) ∈ [(v, l)]) as Hin by (by left). intros x [Hx|[Hx|Hx]%elem_of_app]%elem_of_app.
    + apply list_elem_of_fmap in Hx as (f & -> & Hf). by eapply ol_state.
    + subst a2. destruct remove eqn:Hrem; [|by apply elem_of_nil in Hx]. rewrite <- Hrem in *.
      apply list_elem_of_fmap in Hx as (p & -> & Hp). apply elem_of_elements in Hp. by eapply ol_disk.
    + subst a3. destruct merge; [|by apply elem_of_nil in Hx].
      apply list_elem_of_fmap in Hx as ([c1 b] & -> & Hc). by eapply ol_merge.
  - cbn. rewrite orb_false_iff, negb_false_iff. by intros [? ?%bool_decide_eq_true_1].
Qed.

Lemma cleanLineages_ok ls c d :
  (∀ v l, (v, l) ∈ ls → ∃ w, clean l remove = Ok w) →
  ∃ c' acts, cleanLineages r remove merge ls c d = (Ok c', act acts d) ∧ (∀ x, x ∈ acts → of_lineages ls x) ∧
    (cacheNeedsRegen c' = false → cacheNeedsRegen c = false ∧
      ∀ v l w, (v, l) ∈ ls → clean l remove = Ok w → toDelete w = ∅).
Proof.
  revert c d. induction ls as [|[v l] ls IH]; intros c d Htot.
  { exists c, []. rewrite act_nil. split; [done|]. split; [by intros x ?%elem_of_nil|]. intros ?. split; [done|].
    by intros v l w ?%elem_of_nil. }
  destruct (Htot v l ltac:(by left)) as [w Hw].
  destruct (cleanLineage_ok c v l d w Hw) as (c1 & a1 & Hrun1 & Ha1 & Hc1).
  destruct (IH c1 (act a1 d)) as (c2 & a2 & Hrun2 & Ha2 & Hc2).
  { intros v' l' Hin. apply (Htot v' l'). by right. }
  exists c2, (a1 ++ a2). cbn [cleanLineages]. unfold mbind, M_bind. rewrite Hrun1, Hrun2, act_act.
  split; [done|]. split.
  - intros x [Hx|Hx]%elem_of_app.
    + eapply of_lineages_mono, Ha1; [|done]. intros y ->%list_elem_of_singleton. by left.
    + eapply of_lineages_mono, Ha2; [|done]. intros y ?. by right.
  - intros H2. destruct (Hc2 H2) as [H1 Hall]. destruct (Hc1 H1) as [H0 Hd]. split; [done|].
    intros v' l' w' [[= -> ->]|Hin]%elem_of_cons Hw'; [congruence|by eapply Hall].
Qed.

(** What [cleanDirectory] does, after [check]. *)
Inductive effect (d : Directory) (orphans : list path) : action → Prop :=
  | ef_before x : x ∈ actions d → effect d orphans x
  | ef_lineages x : of_lineages (lineages d) x → effect d orphans x
  | ef_archive p a sizes x : (p, a) ∈ archives d → x ∈ (cleanArchive r remove sizes (lineages d) a).2 → effect d orphans x
  | ef_cache e : effect d orphans (WriteCache e)
  | ef_orphan p : remove = true → p ∈ orphans → effect d orphans (Unlink p).

(** [removedFiles] of an archive. *)
Definition removedOf (ls : list (path * Lineage)) (a : Archive) : list path := (cleanArchive r remove ∅ ls a).1.1.

Lemma removedOf_eq sizes ls a : (cleanArchive r remove sizes ls a).1.1 = removedOf ls a.
Proof. by destruct a. Qed.

Lemma elem_of_dedup xs acc p : p ∈ foldl set_add acc xs ↔ p ∈ acc ∨ p ∈ xs.
Proof.
  revert acc. induction xs as [|x xs IH]; intros acc; cbn [foldl]; [rewrite elem_of_nil; tauto|].
  rewrite IH, (proj1 (set_add_spec acc x)), elem_of_cons. tauto.
Qed.

Lemma elem_of_removed sizes ls m f :
  f ∈ flat_map (λ x, x.2.1.1) (cleanArchives r remove sizes ls m) ↔ ∃ p a, (p, a) ∈ m ∧ f ∈ removedOf ls a.
Proof.
  induction m as [|[p a] m IH]; cbn [cleanArchives map flat_map].
  { rewrite elem_of_nil. split; [done|]. by intros (p & a & ?%elem_of_nil & _). }
  fold (cleanArchives r remove sizes ls m). rewrite elem_of_app, IH. cbn [snd]. rewrite removedOf_eq. split.
  - intros [Hf|(q & b & Hq & Hf)]; [exists p, a|exists q, b]; (split; [|done]); [by left|by right].
  - intros (q & b & [[= -> ->]|Hq]%elem_of_cons & Hf); [by left|right; by exists q, b].
Qed.

Lemma elem_of_gone sizes ls m p :
  p ∈ map fst (filter (λ x, x.1 ∈ x.2.1.1) (cleanArchives r remove sizes ls m)) ↔ ∃ a, (p, a) ∈ m ∧ p ∈ removedOf ls a.
Proof.
  rewrite (list_elem_of_fmap fst). split.
  - intros ([q y] & -> & [Hq Hy]%list_elem_of_filter). apply list_elem_of_fmap in Hy as ([q' a] & [= -> ->] & Ha).
    exists a. cbn in *. by rewrite removedOf_eq in Hq.
  - intros (a & Ha & Hp). exists (p, cleanArchive r remove sizes ls a). split; [done|].
    apply list_elem_of_filter. split; [cbn; by rewrite removedOf_eq|]. apply list_elem_of_fmap. by exists (p, a).
Qed.

Lemma elem_of_archive_actions sizes ls m x :
  x ∈ flat_map (λ x, x.2.2) (cleanArchives r remove sizes ls m) →
  ∃ p a, (p, a) ∈ m ∧ x ∈ (cleanArchive r remove sizes ls a).2.
Proof.
  induction m as [|[p a] m IH]; cbn [cleanArchives map flat_map]; [by intros ?%elem_of_nil|].
  intros [Hx|(q & b & Hq & Hx)%IH]%elem_of_app; [exists p, a|exists q, b]; (split; [|done]); [by left|by right].
Qed.

(** What is left when the removed archives are. *)
Lemma rest_ok sizes ls m :
  NoDup (map fst m) →
  let goneArchives := map fst (filter (λ x, x.1 ∈ x.2.1.1) (cleanArchives r remove sizes ls m)) in
  let rest := filter (λ x, x.1 ∉ goneArchives) m in
  (∀ p a, (p, a) ∈ rest ↔ (p, a) ∈ m ∧ p ∉ removedOf ls a) ∧
  (flat_map (λ x, x.2.1.1) (cleanArchives r remove sizes ls m) = [] →
    rest = m ∧ ∀ p a, (p, a) ∈ m → removedOf ls a = []).
Proof.
  intros Hn goneArchives rest. split.
  - intros p a. unfold rest. rewrite list_elem_of_filter. cbn [fst]. unfold goneArchives. rewrite elem_of_gone. split.
    + intros [Hg Hin]. split; [done|]. intros Hp. apply Hg. by exists a.
    + intros [Hin Hp]. split; [|done]. intros (b & Hb & Hpb).
      apply (map_get_NoDup m p) in Hin, Hb; [congruence|done..].
  - intros Hnil. assert (∀ p a, (p, a) ∈ m → removedOf ls a = []) as Hall.
    { intros p a Hin. destruct (removedOf ls a) as [|f fs] eqn:E; [done|]. exfalso. apply (elem_of_nil f).
      rewrite <- Hnil. apply elem_of_removed. exists p, a. rewrite E. split; [done|by left]. }
    split; [|done]. unfold rest.
    assert (goneArchives = []) as ->; [|].
    + destruct goneArchives as [|g gs] eqn:E; [done|]. exfalso.
      assert (g ∈ goneArchives) as Hg by (rewrite E; by left). unfold goneArchives in Hg. rewrite elem_of_gone in Hg.
      destruct Hg as (a & Ha & Hg). rewrite (Hall g a Ha) in Hg. by apply elem_of_nil in Hg.
    + clear. induction m as [|x m IH]; [done|]. rewrite filter_cons_True by apply not_elem_of_nil. by rewrite IH.
Qed.

Lemma cleanDirectory_ok d orphans :
  checkResult d = Some orphans → (∀ v l, (v, l) ∈ lineages d → ∃ w, clean l remove = Ok w) → NoDup (map fst (archives d)) →
  ∃ c d', cleanDirectory r remove merge d = (Ok c, d') ∧ cacheExisted d' = cacheExisted d ∧
    (∀ x, x ∈ actions d' → effect d orphans x) ∧
    (∀ p a, (p, a) ∈ archives d' ↔ (p, a) ∈ archives d ∧ p ∉ removedOf (lineages d) a) ∧
    (∀ f, f ∈ removedFiles c ↔ f ∈ orphans ∨ ∃ p a, (p, a) ∈ archives d ∧ f ∈ removedOf (lineages d) a) ∧
    (cacheExisted d = true → isImmutable r = false →
      WriteCache (map fst (archives d')) ∈ actions d' ∨
      cacheOutOfSync d = false ∧ archives d' = archives d ∧ (∀ p a, (p, a) ∈ archives d → removedOf (lineages d) a = []) ∧
        ∀ v l w, (v, l) ∈ lineages d → clean l remove = Ok w → toDelete w = ∅).
Proof.
  intros Hck Htot Hkeys. unfold cleanDirectory.
  unfold mbind at 1, M_bind at 1, gets at 1. rewrite Hck. unfold mbind at 1, M_bind at 1, mret at 1, M_ret at 1.
  unfold mbind at 1, M_bind at 1, gets at 1.
  destruct (cleanLineages_ok (lineages d) (mkCleaned false false ∅) d Htot) as (c & acts & Hrun & Hacts & Hc).
  unfold mbind at 1, M_bind at 1. rewrite Hrun. unfold mbind at 1, M_bind at 1, gets at 1. cbn [archives act].
  destruct (rest_ok (allMergedSizes c) (lineages d) (archives d) Hkeys) as [Hrest Hnil]. cbn zeta in Hrest, Hnil.
  pose proof (elem_of_removed (allMergedSizes c) (lineages d) (archives d)) as Hremoved.
  pose proof (elem_of_archive_actions (allMergedSizes c) (lineages d) (archives d)) as Hactions.
  set (cleaned := cleanArchives r remove (allMergedSizes c) (lineages d) (archives d)) in *.
  set (rest := filter _ (archives d)) in *. set (removed := flat_map (λ x, x.2.1.1) cleaned) in *.
  clearbody rest removed cleaned.
  unfold mbind, M_bind, modify, gets, mret, M_ret. cbn [set_archives act cacheExisted cacheOutOfSync].
  set (regen := cacheExisted d && _).
  set (a1 := flat_map (λ x, x.2.2) cleaned) in *.
  set (a2 := if regen && negb (isImmutable r) then [WriteCache (map fst rest)] else []).
  set (a3 := if remove then map Unlink orphans else []).
  eexists _, (set_archives rest (act (acts ++ a1 ++ a2 ++ a3) d)). split.
  { subst a2 a3. destruct regen, (isImmutable r), remove; cbn [andb negb app];
      rewrite ?app_nil_r, <- ?act_act; try reflexivity; unfold act, set_archives; cbn; by rewrite <- ?app_assoc. }
  split; [done|]. split; [|split; [exact Hrest|split]].
  - cbn. intros x Hx. rewrite !elem_of_app in Hx. destruct Hx as [Hx|[Hx|[Hx|[Hx|Hx]]]].
    + by apply ef_before.
    + by apply ef_lineages, Hacts.
    + destruct (Hactions x Hx) as (p & a & Hin & Hxa). by eapply ef_archive.
    + subst a2. destruct (regen && negb (isImmutable r)); [|by apply elem_of_nil in Hx].
      apply list_elem_of_singleton in Hx as ->. apply ef_cache.
    + subst a3. destruct remove eqn:Hr; [|by apply elem_of_nil in Hx].
      apply list_elem_of_fmap in Hx as (f & -> & Hf). by apply ef_orphan.
  - intros f. cbn [removedFiles]. rewrite elem_of_dedup, elem_of_nil, elem_of_app, Hremoved. tauto.
  - intros Hex Himm. cbn [archives set_archives actions act].
    destruct (regen && negb (isImmutable r)) eqn:Hreg.
    { left. rewrite !elem_of_app. right. right. right. left. subst a2. rewrite ?Hreg. by left. }
    right. rewrite Himm, andb_true_r in Hreg. unfold regen in Hreg. rewrite Hex in Hreg. cbn [andb] in Hreg.
    rewrite !orb_false_iff, !negb_false_iff, bool_decide_eq_true in Hreg. destruct Hreg as [[_ [Hcr Hrem]] Hsync].
    apply bool_decide_eq_true_1 in Hrem. destruct (Hnil Hrem) as [-> Hall].
    destruct (Hc Hcr) as [_ Hdel]. done.
Qed.

(** ** What a complete backup keeps *)

(** The files of the directory of a lineage are in it. *)
Definition listed_in_place : Prop :=
  ∀ p fs f, list_ r (dirname (normalize p)) = Ok fs → f ∈ fs → dirname (normalize f) = dirname (normalize p).

Lemma lineageOf_disks p q :
  listed_in_place → q ∈ diskPaths (lineageOf (dirname (normalize p))) → dirname q = dirname (normalize p).
Proof.
  intros Hpl Hq. pose proof (initLineage_ok p) as Hi. unfold initLineage in Hi. destruct (Hhealthy p) as [Hns Hfs].
  destruct (list_ r (dirname (normalize p))) as [fs|e] eqn:Hl.
  - destruct (Hfs fs eq_refl) as (Hs & Ho & _).
    destruct (init_ok (openDisk r) (containsAllDataOf r) (readState r) _ merge fs Hs Ho) as (l0 & b & u & Hrun & Hr & _).
    rewrite Hi in Hrun. injection Hrun as E. rewrite E in Hq. cbn in Hq. apply (rd_disks _ _ _ _ _ Hr) in Hq.
    apply listDisks_spec in Hq as (f & Hf & _ & <-). by eapply Hpl.
  - unfold init in Hi. case_bool_decide; [done|]. injection Hi as E. rewrite <- E in Hq. by apply elem_of_nil in Hq.
Qed.

Lemma lineageOf_states p x i :
  (x, i) ∈ interruptedMerges (lineageOf (dirname (normalize p))) → MERGE_STATE_FILE_RE (basename (stateFilePath i)) ≠ None.
Proof.
  intros Hx. pose proof (initLineage_ok p) as Hi. unfold initLineage in Hi. destruct (Hhealthy p) as [Hns Hfs].
  destruct (list_ r (dirname (normalize p))) as [fs|e] eqn:Hl.
  - destruct (Hfs fs eq_refl) as (Hs & Ho & _).
    destruct (init_ok (openDisk r) (containsAllDataOf r) (readState r) _ merge fs Hs Ho) as (l0 & b & u & Hrun & _ & Hint & _).
    rewrite Hi in Hrun. injection Hrun as E. rewrite E in Hx. cbn in Hx. rewrite Hint in Hx.
    apply (findInterruptedMerges_spec (openDisk r) (containsAllDataOf r) _ _ merge) in Hx as (f & _ & Hf & ->). unfold mergeParent in Hf.
    unfold readInterrupted. destruct (readState r f); cbn; by destruct (MERGE_STATE_FILE_RE (basename f)).
  - unfold init in Hi. case_bool_decide; [done|]. injection Hi as E. rewrite <- E in Hx. by apply elem_of_nil in Hx.
Qed.

Lemma lineageOf_reads p a q :
  let l := lineageOf (dirname (normalize p)) in isPathAccessible l a = true → reads l a q → q ∈ diskPaths l.
Proof.
  intros l Ha Hq. pose proof (initLineage_ok p) as Hi. unfold initLineage in Hi. destruct (Hhealthy p) as [Hns Hfs]. fold l in Hi.
  clearbody l. destruct (list_ r (dirname (normalize p))) as [fs|e] eqn:Hl.
  - destruct (Hfs fs eq_refl) as (Hs & Ho & _).
    destruct (init_ok (openDisk r) (containsAllDataOf r) (readState r) _ merge fs Hs Ho)
      as (l0 & b & u & Hrun & Hr & _ & Hb & Hall). rewrite Hi in Hrun. injection Hrun as ->. cbn.
    unfold isPathAccessible in Ha. cbn in Ha. rewrite andb_true_iff, negb_true_iff, bool_decide_eq_true, bool_decide_eq_false in Ha.
    destruct Ha as [Hd Hnb]. rewrite (broken_iff l0 b a (rd_linked _ _ _ _ _ Hr) Hb Hall) in Hnb; [|by intros c x (_ & ? & _)%(rd_parent _ _ _ _ _ Hr)|done].
    destruct (decide (q ∈ diskPaths l0)); [done|]. destruct Hnb. exists q. split; [done|by right].
  - unfold init in Hi. case_bool_decide; [done|]. injection Hi as <-. done.
Qed.

Lemma lineages_clean ls0 ls v l :
  lineages_ok ls0 → declared ls0 ls → (v, l) ∈ ls →
  map_get v ls = Some l ∧ ∃ q acts w, v = dirname (normalize q) ∧ l = declare acts (lineageOf v) ∧
    linked l ∧ clean l remove = Ok w ∧ plan_ok l ∅ w.
Proof.
  intros [Hk Hls] [Hkeys Hd] Hin. assert (map_get v ls = Some l) as Hget by (apply map_get_NoDup; [by rewrite Hkeys|done]).
  split; [done|]. specialize (Hd v). destruct (map_get v ls0) as [l0|] eqn:E0; [|congruence].
  destruct Hd as [acts Hacts]. rewrite Hget in Hacts. injection Hacts as ->.
  destruct (Hls v l0 E0) as [[q ->] ->]. destruct (lineageOf_ok q) as [Hl Hr].
  destruct (declare_spec acts (lineageOf (dirname (normalize q)))) as (_ & Hp & Hc & Hi & _).
  assert (linked (declare acts (lineageOf (dirname (normalize q))))) as Hl' by (unfold linked; by rewrite Hp, Hc).
  destruct (clean_plan_ok (declare acts (lineageOf (dirname (normalize q)))) remove Hl') as (w & ? & ?);
    [unfold recorded; by rewrite Hi|]. by exists q, acts, w.
Qed.

(** The whole run. *)
Lemma cleanVm_ok fs :
  list_ r root = Ok fs →
  (∀ f, f ∈ fs → endsWith (js ".json") (normalize f) = true → readMetadata r (normalize f) ≠ Ok None) →
  ∃ d1 d2 orphans c d3, loaded (map normalize fs) d1 ∧
    (∀ p, p ∈ map normalize fs → endsWith (js ".json") p = true → is_loaded p d1) ∧
    was_checked d1 d2 ∧ checkResult d2 = Some orphans ∧ NoDup (map fst (archives d2)) ∧
    cleanDirectory r remove merge d2 = (Ok c, d3) ∧ cleanVm r remove merge root = Ok (c, d3).
Proof.
  intros Hfs Hnull. destruct (initDirectory_ok fs _ eq_refl Hfs Hnull) as (d1 & Hrun1 & Hld & Hall).
  destruct (check_ok _ d1 Hld) as (orphans & d2 & Hrun2 & Hck & Hres).
  assert (map fst (archives d2) = map fst (archives d1)) as Hkeys
    by (rewrite (ck_archives _ _ Hck), map_map; by apply map_ext).
  assert (NoDup (map fst (archives d2))) as Hnd by (rewrite Hkeys; apply Hld).
  destruct (cleanDirectory_ok d2 orphans Hres) as (c & d3 & Hrun3 & _); [|done|].
  { intros v l Hin. destruct (lineages_clean _ _ v l (ld_lineages _ _ Hld) (ck_lineages _ _ Hck) Hin)
      as (_ & _ & _ & w & _ & _ & _ & ? & _). by exists w. }
  exists d1, d2, orphans, c, d3. repeat (split; [done|]). unfold cleanVm, mbind, M_bind. by rewrite Hrun1, Hrun2, Hrun3.
Qed.

(** The XVA of a full backup. *)
Definition xvaOf (md : Metadata) : option path :=
  if bool_decide (md_mode md = js "full") then option_map (λ xva, normalize (resolve [root; xva])) (md_xva md) else None.

(** The files of a complete backup: a full backup whose XVA is there, or an incremental
    one whose disks can be read down to the first of their chain. *)
Definition full_backup (md : Metadata) : Prop :=
  ∃ x, xvaOf md = Some x ∧ endsWith (js ".xva") x = true ∧ readXva r x ≠ Throw ENOENT.
Definition incremental_backup (md : Metadata) : Prop :=
  md_mode md = js "delta" ∧ disksOf md ≠ [] ∧
  ∀ p, p ∈ disksOf md → ∃ l, initLineage r merge (dirname p) = Ok l ∧ isPathAccessible l p = true.
Definition complete_backup (f : path) (md : Metadata) : Prop :=
  endsWith (js ".json") f = true ∧ readMetadata r f = Ok (Some md) ∧ (full_backup md ∨ incremental_backup md).

(** A complete incremental backup is found so by [check], and its disks are declared. *)
Lemma incremental_checked fs d1 d2 f md :
  loaded fs d1 → was_checked d1 d2 → is_loaded f d1 →
  readMetadata r f = Ok (Some md) → incremental_backup md →
  let i := mkIncremental (normalize f) md (disksOf md) true true in
  (f, Incremental i) ∈ archives d2 ∧ ∀ p, p ∈ disksOf md → is_declared (lineages d2) p.
Proof.
  intros Hld Hck Hl Hmd (Hmode & Hne & Hall) i.
  set (i0 := mkIncremental (normalize f) md (disksOf md) false false).
  assert (fresh f md = Some (Incremental i0)) as Hf by (unfold fresh; by rewrite Hmode).
  pose proof (Hl md (Incremental i0) Hmd Hf) as Hget. destruct (ld_archives _ _ Hld _ _ Hget) as (_ & _ & _ & Hwith).
  assert (complete (lineages d1) (disksOf md) = true) as Hc.
  { unfold complete. rewrite bool_decide_eq_false_2 by done. cbn [negb andb]. apply forallb_forall.
    intros p Hp%list_elem_of_In. destruct (Hall p Hp) as (l & Hinit & Hacc). unfold accessible.
    destruct (Hwith p Hp) as [l1 Hl1]. rewrite Hl1. destruct (ld_lineages _ _ Hld) as [_ Hls].
    destruct (Hls _ _ Hl1) as [_ ->]. unfold lineageOf. by rewrite Hinit. }
  split.
  - rewrite (ck_archives _ _ Hck). apply list_elem_of_fmap. exists (f, Incremental i0).
    split; [cbn; by rewrite Hc|by apply map_get_elem].
  - intros p Hp. by apply (ck_declared _ _ Hck f (Incremental i0)); [apply map_get_elem|..].
Qed.

Lemma full_checked fs d1 d2 f md x :
  loaded fs d1 → was_checked d1 d2 → is_loaded f d1 → readMetadata r f = Ok (Some md) → xvaOf md = Some x →
  (f, Full (checkFull r (mkFull (normalize f) md x None false))) ∈ archives d2.
Proof.
  intros Hld Hck Hl Hmd Hx. rewrite (ck_archives _ _ Hck). apply list_elem_of_fmap.
  exists (f, Full (mkFull (normalize f) md x None false)). split; [done|]. apply map_get_elem, (Hl md _ Hmd).
  unfold xvaOf in Hx. unfold fresh. destruct (bool_decide (md_mode md = js "full")); [|done].
  destruct (md_xva md); [|done]. cbn in *. congruence.
Qed.

Lemma isValidXva_there x n : isValidXva x n ≠ Throw ENOENT.
Proof.
  unfold isValidXva, isCompressedFile, isValidTar, js_assert. destruct x as [k|content]; [done|].
  repeat (cbn; case_match; try done).
Qed.

Lemma checkFull_there a : isValid a = None → missingDisk a = false → (missingDisk (checkFull r a) = true ↔ readXva r (xvaPath a) = Throw ENOENT).
Proof.
  intros Hv Hm. unfold checkFull. rewrite Hv, Hm. destruct (readXva r (xvaPath a)) as [x|e]; cbn [mbind result_bind].
  - pose proof (isValidXva_there x (md_size (f_metadata a))) as Hn. destruct (isValidXva x _) as [b|e]; cbn; [done|].
    rewrite orb_false_r, bool_decide_eq_true. split; [intros ->; done|done].
  - cbn. rewrite orb_false_r, bool_decide_eq_true. split; congruence.
Qed.

Lemma checkFull_metadataPath a : f_metadataPath (checkFull r a) = f_metadataPath a.
Proof. unfold checkFull. destruct (isValid a); [done|]. by destruct (readXva r _ ≫= _). Qed.

Lemma checkFull_metadata a : f_metadata (checkFull r a) = f_metadata a.
Proof. unfold checkFull. destruct (isValid a); [done|]. by destruct (readXva r _ ≫= _). Qed.

Lemma checkFull_again a : checkFull r (checkFull r a) = checkFull r a.
Proof.
  unfold checkFull at 2 3. destruct (isValid a) eqn:Hv; [unfold checkFull; by rewrite Hv|]. by destruct (readXva r _ ≫= _).
Qed.

(** The archives that [check] leaves. *)
Definition archive_of (p : path) (a : Archive) : Prop :=
  match a with
  | Full a => checkFull r a = a ∧ f_metadataPath a = p ∧
      ∀ xva, md_xva (f_metadata a) = Some xva → missingDisk a = true → readXva r (normalize (resolve [root; xva])) = Throw ENOENT
  | Incremental i => i_metadataPath i = p
  end.

Lemma archives_of fs d1 d2 p a :
  loaded (map normalize fs) d1 → was_checked d1 d2 → (p, a) ∈ archives d2 →
  archive_of p a ∧ endsWith (js ".json") p = true ∧ ∃ f, f ∈ fs ∧ p = normalize f.
Proof.
  intros Hld Hck Hin. rewrite (ck_archives _ _ Hck) in Hin. apply list_elem_of_fmap in Hin as ([q b] & [= -> ->] & Hin).
  apply map_get_NoDup in Hin; [|apply Hld]. destruct (ld_archives _ _ Hld _ _ Hin) as (Hq & Hj & (md & _ & Hf) & _).
  apply list_elem_of_fmap in Hq as (f & -> & Hfs). split; [|split; [done|by exists f]].
  unfold fresh in Hf. rewrite normalize_idemp in Hf. destruct (bool_decide (md_mode md = js "full")).
  - destruct (md_xva md) as [xva|] eqn:Hxva; [|done]. injection Hf as <-. cbn [checked archive_of].
    rewrite checkFull_again, checkFull_metadataPath, checkFull_metadata. cbn [f_metadata f_metadataPath]. split_and!; [done|done|].
    intros xva'. rewrite Hxva. intros [= <-]. by rewrite checkFull_there.
  - destruct (bool_decide (md_mode md = js "delta")); [|done]. by injection Hf as <-.
Qed.

(** No disk that a complete backup reads through is deleted by a lineage. *)
Lemma lineages_keep_disks d1 d2 fs p q x :
  loaded fs d1 → was_checked d1 d2 → listed_in_place → is_declared (lineages d2) (normalize p) →
  isPathAccessible (lineageOf (dirname (normalize p))) (normalize p) = true →
  reads (lineageOf (dirname (normalize p))) (normalize p) q →
  of_lineages (lineages d2) x → x ≠ UnlinkDisk q.
Proof.
  intros Hld Hck Hpl (l & Hl & Hact) Hacc Hr Hx ->. rewrite normalize_idemp in Hact.
  inversion Hx as [|v l' w p' Hin Hw Hrem Hdel|]; subst p'.
  destruct (lineages_clean _ _ v l' (ld_lineages _ _ Hld) (ck_lineages _ _ Hck) Hin) as (Hget & y & acts & w' & Hv & Hl' & Hlk & Hw' & Hok).
  assert (w' = w) as -> by congruence.
  pose proof (po_delete _ _ _ Hok q Hdel) as [Ho _]. unfold orphan, has_disk in Ho.
  apply andb_true_iff in Ho as [Hd%bool_decide_eq_true_1 _]. rewrite Hl', Hv, (proj1 (declare_spec _ _)) in Hd.
  apply lineageOf_disks in Hd; [|done].
  pose proof (lineageOf_reads p (normalize p) q Hacc Hr) as Hd2. apply lineageOf_disks in Hd2; [|done].
  assert (v = dirname (normalize p)) as Hvp by congruence. rewrite Hvp in *. rewrite Hget in Hl. injection Hl as ->.
  revert Hdel. eapply (not_deleted _ (normalize p)); [done|done| |].
  - unfold orphan. by rewrite bool_decide_eq_true_2, andb_false_r.
  - rewrite Hl'. unfold reads in *. destruct (declare_spec acts (lineageOf (dirname (normalize p)))) as (_ & -> & _). done.
Qed.

Lemma cleanArchive_disk sizes ls a q : UnlinkDisk q ∉ (cleanArchive r remove sizes ls a).2.
Proof.
  destruct a as [a|i]; cbn; intros Hx.
  - unfold cleanFull in Hx. case_match; cbn in Hx; [by apply elem_of_nil in Hx|].
    destruct remove; [|by apply elem_of_nil in Hx]. destruct (md_xva _); set_solver.
  - unfold cleanIncremental in Hx. cbn in Hx. apply elem_of_app in Hx as [Hx|Hx].
    + destruct remove; [|by apply elem_of_nil in Hx]. by apply list_elem_of_fmap in Hx as (? & ? & _).
    + destruct (0 <? _); set_solver.
Qed.

Lemma effect_disk d1 d2 orphans fs p q :
  loaded fs d1 → was_checked d1 d2 → listed_in_place → is_declared (lineages d2) (normalize p) →
  isPathAccessible (lineageOf (dirname (normalize p))) (normalize p) = true →
  reads (lineageOf (dirname (normalize p))) (normalize p) q → ¬ effect d2 orphans (UnlinkDisk q).
Proof.
  intros Hld Hck Hpl Hdecl Hacc Hr. inversion 1 as [x Hx|x Hx|p' a sizes x Hin Hx| |]; subst.
  - by apply (ck_actions _ _ Hck) in Hx.
  - by eapply lineages_keep_disks.
  - by apply cleanArchive_disk in Hx.
Qed.

(** The files of the directory are in it, and what it lists is there. *)
Definition in_directory (fs : list path) : Prop :=
  ∀ f, f ∈ fs → dirname (normalize f) = normalize root ∧ readXva r (normalize f) ≠ Throw ENOENT.

Lemma resolve_in_directory p xva :
  dirname p = normalize root → normalize (resolveFromFile p xva) = normalize (resolve [root; xva]).
Proof.
  intros Hp. apply normalize_eq. unfold resolveFromFile. rewrite normalize_tail_resolve, segments_resolve, Hp.
  change (resolve_segments [normalize root; xva]) with (resolve_step (resolve_segments [normalize root]) xva).
  change (resolve_segments [root; xva]) with (resolve_step (resolve_segments [root]) xva).
  by rewrite !resolve_segments_one, segments_normalize.
Qed.

(** An archive unlinks its metadata, a checksum, and an XVA that is not there. *)
Lemma cleanArchive_unlink fs d1 d2 sizes ls p a g :
  in_directory fs → loaded (map normalize fs) d1 → was_checked d1 d2 → (p, a) ∈ archives d2 →
  Unlink g ∈ (cleanArchive r remove sizes ls a).2 →
  (g = p ∧ removedOf ls a ≠ []) ∨ (∃ h, g = checksum h) ∨ readXva r (normalize g) = Throw ENOENT.
Proof.
  intros Hdir Hld Hck Hin. destruct (archives_of fs d1 d2 p a Hld Hck Hin) as (Ha & _ & f & Hf & ->).
  apply Hdir in Hf as [Hf _]. unfold removedOf. destruct a as [a|i]; cbn [cleanArchive].
  - destruct Ha as (Ha & Hp & Hmiss). unfold cleanFull. rewrite Ha. case_match eqn:Hc; [by intros ?%elem_of_nil|]. cbn [fst snd].
    apply orb_false_iff in Hc as [_ Hm]. apply negb_false_iff in Hm.
    destruct remove; [|by intros ?%elem_of_nil]. intros [[= ->]|Hx]%elem_of_cons; [by left|].
    destruct (md_xva _) as [xva|] eqn:Hxva; [|by apply elem_of_nil in Hx]. rewrite elem_of_cons, list_elem_of_singleton in Hx.
    destruct Hx as [[= ->]|[= ->]]; [|right; left; by eexists]. right. right. rewrite Hp, resolve_in_directory by done. by apply Hmiss.
  - unfold cleanIncremental. cbn [fst snd]. set (i' := if isChecked i then i else (checkIncremental i ls).1).
    assert (i_metadataPath i' = normalize f) as Hmeta by (rewrite <- Ha; subst i'; by destruct (isChecked i)). clearbody i'.
    intros [Hx|Hx]%elem_of_app.
    2:{ destruct (0 <? _); [by apply list_elem_of_singleton in Hx|by apply elem_of_nil in Hx]. }
    destruct remove; [|by apply elem_of_nil in Hx]. apply list_elem_of_fmap in Hx as (g' & [= ->] & Hg).
    destruct (isComplete i'); [by apply elem_of_nil in Hg|]. apply list_elem_of_singleton in Hg as ->. by left.
Qed.

Lemma removedOf_files fs d1 d2 ls p a g :
  loaded (map normalize fs) d1 → was_checked d1 d2 → (p, a) ∈ archives d2 → g ∈ removedOf ls a → g = p ∨ ∃ h, g = checksum h.
Proof.
  intros Hld Hck Hin. destruct (archives_of fs d1 d2 p a Hld Hck Hin) as [Ha _]. unfold removedOf, cleanArchive. destruct a as [a|i].
  - destruct Ha as (Ha & <- & _). unfold cleanFull. rewrite Ha. case_match; cbn; [by intros ?%elem_of_nil|].
    rewrite elem_of_cons, list_elem_of_singleton. intros [->| ->]; [by left|right; by eexists].
  - cbn in Ha |- *. unfold cleanIncremental. subst p. destruct (isChecked i), (isComplete _); cbn; try by intros ?%elem_of_nil.
    all: intros ->%list_elem_of_singleton; by left.
Qed.

(** A file of a complete backup, after [check]. *)
Record kept (d2 : Directory) (orphans : list path) (x : path) : Prop := {
  kp_normal : normalize x = x;
  kp_linked : x ∉ orphans;
  kp_end : (last x = Some "n"%char ∧ MERGE_STATE_FILE_RE (basename x) = None) ∨ last x = Some "a"%char;
  kp_there : readXva r x ≠ Throw ENOENT;
  kp_own p a : (p, a) ∈ archives d2 → p = x → removedOf (lineages d2) a = [];
}.

Lemma checksum_end h x c : normalize (checksum h) = x ∨ checksum h = x → last x = Some c → c = "m"%char.
Proof.
  unfold checksum. change (js ".checksum") with (js ".checksu" ++ ["m"%char]). intros [<-|<-].
  - rewrite last_normalize; [congruence|by apply (bool_decide_unpack _); vm_compute|cbn; lia].
  - rewrite app_assoc, last_snoc. congruence.
Qed.

Lemma cachePath_end c : last (normalize cachePath) = Some c → c = "z"%char.
Proof.
  unfold cachePath. change (sep :: js "cache.json.gz") with ((sep :: js "cache.json") ++ js ".g" ++ ["z"%char]). rewrite app_assoc.
  rewrite last_normalize; [congruence|by apply (bool_decide_unpack _); vm_compute|cbn; lia].
Qed.

Lemma effect_kept fs d1 d2 orphans x :
  in_directory fs → loaded (map normalize fs) d1 → was_checked d1 d2 → checkResult d2 = Some orphans → kept d2 orphans x →
  (∀ g, effect d2 orphans (Unlink g) → normalize g ≠ x) ∧
  x ∉ orphans ∧ ∀ p a, (p, a) ∈ archives d2 → x ∉ removedOf (lineages d2) a.
Proof.
  intros Hdir Hld Hck Hres [Hn Ho He Ht Hown]. assert (∃ c, last x = Some c ∧ c ≠ "m"%char ∧ c ≠ "z"%char) as (c & Hc & Hcm & Hcz).
  { destruct He as [[? _]|?]; eexists; (split; [done|]); done. }
  split; [|split; [done|]].
  - intros g Hg Hgx. inversion Hg as [y Hy|y Hy|p a sizes y Hin Hy| |p Hr Hp]; subst.
    + apply (ck_actions _ _ Hck) in Hy as [= ->]. by apply Hcz, cachePath_end.
    + inversion Hy as [v l w f' Hvl Hw Hf| |]; subst.
      destruct (lineages_clean _ _ v l (ld_lineages _ _ Hld) (ck_lineages _ _ Hck) Hvl) as (_ & y & acts & w' & -> & Hl' & _ & Hw' & Hok).
      assert (w' = w) as -> by congruence. destruct (po_unlinked _ _ _ Hok g Hf) as (x & i & Hi & ->). rewrite Hl' in Hi.
      destruct (declare_spec acts (lineageOf (dirname (normalize y)))) as (_ & _ & _ & Hint & _). rewrite Hint in Hi.
      destruct (normalize_state _ _ (lineageOf_states y x i Hi) eq_refl) as [Hre Hlast]. destruct He as [[_ ?]|?]; [done|congruence].
    + destruct (archives_of fs d1 d2 p a Hld Hck Hin) as (_ & _ & f & _ & ->).
      destruct (cleanArchive_unlink fs d1 d2 sizes (lineages d2) _ a g Hdir Hld Hck Hin Hy) as [[-> Hr]|[[h ->]|He']].
      * apply Hr. by eapply Hown; [|symmetry; apply normalize_idemp].
      * by apply Hcm, (checksum_end h (normalize (checksum h))); [left|].
      * done.
    + rewrite (ck_result _ _ Hck) in Hres. injection Hres as <-. apply list_elem_of_filter in Hp as Hp'. destruct Hp' as [_ Hp'].
      rewrite (ld_files _ _ Hld) in Hp'. apply list_elem_of_fmap in Hp' as (f & -> & _). by rewrite normalize_idemp in Ho.
  - intros p a Hin Hx. destruct (removedOf_files fs d1 d2 _ p a x Hld Hck Hin Hx) as [->|[h ->]].
    + rewrite (Hown p a Hin eq_refl) in Hx. by apply elem_of_nil in Hx.
    + apply Hcm, (checksum_end h (checksum h)); [by right|done].
Qed.

Lemma complete_kept fs d1 d2 orphans f md :
  loaded (map normalize fs) d1 → was_checked d1 d2 → checkResult d2 = Some orphans → NoDup (map fst (archives d2)) →
  in_directory fs → f ∈ map normalize fs → is_loaded f d1 → complete_backup f md → MERGE_STATE_FILE_RE (basename f) = None →
  (∃ a, (f, a) ∈ archives d2 ∧ removedOf (lineages d2) a = []) ∧ ∀ x, x = f ∨ xvaOf md = Some x → kept d2 orphans x.
Proof.
  intros Hld Hck Hres Hnd Hdir Hf Hl (Hj & Hmd & Hb) Hre. pose proof (last_endsWith (js ".jso") _ "n"%char Hj) as Hlast.
  apply list_elem_of_fmap in Hf as (f' & -> & Hf'). pose proof (normalize_idemp f') as Hn. set (f := normalize f') in *.
  assert (∃ a, (f, a) ∈ archives d2 ∧ removedOf (lineages d2) a = [] ∧ ∀ x, x = f ∨ xvaOf md = Some x → x ∈ archiveFiles a)
    as (a & Hin & Hr & Hfiles).
  { destruct Hb as [(x & Hx & _ & Hxt)|Hb].
    - pose proof (full_checked _ d1 d2 f md x Hld Hck Hl Hmd Hx) as Hin. eexists. split; [exact Hin|]. split.
      + unfold removedOf. cbn [cleanArchive]. unfold cleanFull. rewrite checkFull_again.
        assert (missingDisk (checkFull r (mkFull (normalize f) md x None false)) = false) as ->; [|by rewrite orb_true_r].
        apply not_true_is_false. by rewrite checkFull_there.
      + intros y. rewrite Hx. intros Hy. cbn [archiveFiles]. rewrite checkFull_metadataPath. cbn [f_metadataPath]. rewrite Hn.
        unfold checkFull. cbn [isValid]. destruct (readXva r _ ≫= _); cbn; rewrite !elem_of_cons; naive_solver.
    - destruct (incremental_checked _ d1 d2 f md Hld Hck Hl Hmd Hb) as [Hin _]. eexists. split; [exact Hin|]. split; [done|].
      intros x [->|Hx]; [cbn; rewrite Hn; by left|]. unfold xvaOf in Hx. by rewrite (proj1 Hb) in Hx. }
  assert (∀ x, x = f ∨ xvaOf md = Some x → x ∉ orphans) as Ho.
  { intros x Hx Hox. rewrite (ck_result _ _ Hck) in Hres. injection Hres as <-. apply list_elem_of_filter in Hox as [Ho _]. apply Ho.
    unfold usedFiles. apply elem_of_app. left. apply list_elem_of_In, in_flat_map. exists (f, a). split; by apply list_elem_of_In, Hfiles || apply list_elem_of_In. }
  split; [by exists a|]. intros x [->|Hx].
  - split; [done|by apply Ho; left|by left|by apply Hdir|]. intros p b Hpb ->. apply map_get_NoDup in Hpb, Hin; [|done..]. congruence.
  - destruct Hb as [(y & Hy & Hey & Hyt)|Hb]; [|unfold xvaOf in Hx; by rewrite (proj1 Hb) in Hx].
    rewrite Hx in Hy. injection Hy as <-. apply (last_endsWith (js ".xv") _ "a"%char) in Hey.
    split; [|by apply Ho; right|by right|done|].
    + unfold xvaOf in Hx. destruct (bool_decide _), (md_xva md); try done. injection Hx as <-. apply normalize_idemp.
    + intros p b Hpb ->. destruct (archives_of fs d1 d2 _ b Hld Hck Hpb) as (_ & Hj' & _).
      apply (last_endsWith (js ".jso") _ "n"%char) in Hj'. congruence.
Qed.

(** What is read through a disk: by the links that were registered, or by the headers
    when no uuid is twice in the directory. *)
Definition reads_through (p q : path) : Prop :=
  reads (lineageOf (dirname p)) p q ∨
  ∃ vfs, list_ r (dirname p) = Ok vfs ∧ distinct_uuids (openDisk r) (omap (mergeParent (dirname p)) vfs) (listDisks vfs) ∧
    header_reads (openDisk r) (omap (mergeParent (dirname p)) vfs) (listDisks vfs) p q.

Lemma reads_through_reads p q :
  reads_through (normalize p) q → reads (lineageOf (dirname (normalize p))) (normalize p) q.
Proof.
  intros [?|(fs & Hl & Hu & Hr)]; [done|]. pose proof (initLineage_ok p) as Hi. unfold initLineage in Hi. destruct (Hhealthy p) as [_ Hfs].
  rewrite Hl in Hi. destruct (Hfs fs Hl) as (Hs & Ho & _). destruct (init_linked _ _ _ _ _ _ _ Hs Ho Hi) as (_ & _ & Hall). by apply Hall.
Qed.

(** C6: The clean up of the directory of a VM ends, and keeps every complete backup, full or
    incremental: the archive is still there; its metadata and its XVA are neither reported
    as removed nor unlinked, by whatever path; no disk that its disks read through is
    deleted by a lineage.

    It does so when: no metadata file holds [null] ([null_metadata_stops]); in each
    directory of disks, no two disks have the same parent ([second_child_loses_parent]),
    and every interrupted merge that can be resumed recorded its chain; the type of no
    disk or directory is unsupported; what is listed is there.  The parents that headers
    tell of count when no two disks of the directory have the same uuid
    ([duplicate_uuid_loses_parents]). *)
Theorem cleanVm_keeps_complete fs :
  list_ r root = Ok fs →
  (∀ f, f ∈ fs → endsWith (js ".json") (normalize f) = true → readMetadata r (normalize f) ≠ Ok None) →
  in_directory fs → listed_in_place →
  ∃ c d, cleanVm r remove merge root = Ok (c, d) ∧
    ∀ f md, f ∈ map normalize fs → complete_backup f md → MERGE_STATE_FILE_RE (basename f) = None →
      (∃ a, (f, a) ∈ archives d) ∧
      (∀ x, x = f ∨ xvaOf md = Some x → x ∉ removedFiles c ∧ ∀ g, Unlink g ∈ actions d → normalize g ≠ x) ∧
      (md_mode md = js "delta" → ∀ p q, p ∈ disksOf md → reads_through p q → UnlinkDisk q ∉ actions d).
Proof.
  intros Hfs Hnull Hdir Hpl. destruct (cleanVm_ok fs Hfs Hnull) as (d1 & d2 & orphans & c & d3 & Hld & Hall & Hck & Hres & Hnd & Hrun & Hvm).
  exists c, d3. split; [done|]. intros f md Hf Hb Hre.
  pose proof (Hall f Hf (proj1 Hb)) as Hl.
  destruct (complete_kept fs d1 d2 orphans f md Hld Hck Hres Hnd Hdir Hf Hl Hb Hre) as [(a & Hin & Hr) Hkept].
  destruct (cleanDirectory_ok d2 orphans Hres) as (c' & d' & Hrun' & _ & Hact & Harch & Hremoved & _); [|done|].
  { intros v l Hvl. destruct (lineages_clean _ _ v l (ld_lineages _ _ Hld) (ck_lineages _ _ Hck) Hvl)
      as (_ & _ & _ & w & _ & _ & _ & ? & _). by exists w. }
  rewrite Hrun in Hrun'. injection Hrun' as <- <-. split_and!.
  - exists a. apply Harch. split; [done|]. rewrite Hr. apply not_elem_of_nil.
  - intros x Hx. destruct (effect_kept fs d1 d2 orphans x Hdir Hld Hck Hres (Hkept x Hx)) as (Heff & Ho & Hrem). split.
    + intros [?|(p & b & Hpb & Hxb)]%Hremoved; [done|by eapply Hrem].
    + intros g Hg. by apply Heff, Hact.
  - intros Hd p q Hp Hrd Hx%Hact. destruct Hb as (_ & Hmd & [(x & Hfull & _)|Hb]); [unfold xvaOf in Hfull; by rewrite Hd in Hfull|].
    destruct (disksOf_normal md p Hp) as [p' ->]. destruct (proj2 (proj2 Hb) _ Hp) as (l & Hl' & Ha).
    revert Hx. eapply (effect_disk d1); [done..| | |by apply reads_through_reads].
    + by apply (proj2 (incremental_checked _ d1 d2 f md Hld Hck Hl Hmd Hb)).
    + unfold lineageOf. by rewrite Hl'.
Qed.

(** The cache does not stay out of date: when it could be read, either the clean up
    writes it with the archives that are left, or it has as many entries as these, which
    are all the archives of the directory, and no disk was deleted. *)
Theorem cleanVm_cache fs :
  list_ r root = Ok fs →
  (∀ f, f ∈ fs → endsWith (js ".json") (normalize f) = true → readMetadata r (normalize f) ≠ Ok None) →
  ∃ c d, cleanVm r remove merge root = Ok (c, d) ∧
    (cacheExisted d = true →
      WriteCache (map fst (archives d)) ∈ actions d ∨
      readCache r = Some (length (archives d)) ∧ (∀ q, UnlinkDisk q ∉ actions d) ∧
      ∀ f md, f ∈ map normalize fs → endsWith (js ".json") f = true →
        readMetadata r f = Ok (Some md) → is_Some (fresh f md) → ∃ a, (f, a) ∈ archives d).
Proof.
  intros Hfs Hnull. destruct (cleanVm_ok fs Hfs Hnull) as (d1 & d2 & orphans & c & d3 & Hld & Hall & Hck & Hres & Hnd & Hrun & Hvm).
  exists c, d3. split; [done|]. intros Hex.
  destruct (cleanDirectory_ok d2 orphans Hres) as (c' & d' & Hrun' & Hex' & Hact & Harch & _ & Hcache); [|done|].
  { intros v l Hvl. destruct (lineages_clean _ _ v l (ld_lineages _ _ Hld) (ck_lineages _ _ Hck) Hvl)
      as (_ & _ & _ & w & _ & _ & _ & ? & _). by exists w. }
  rewrite Hrun in Hrun'. injection Hrun' as <- <-. rewrite Hex in Hex'.
  destruct (ck_cache _ _ Hck (eq_sym Hex')) as (n & Hn & Himm & Hsync).
  destruct (Hcache (eq_sym Hex') Himm) as [|(Hs & Heq & Hrem & Hdel)]; [by left|]. right.
  rewrite Hsync in Hs. apply negb_false_iff, bool_decide_eq_true_1 in Hs. split_and!.
  - rewrite Heq, (ck_archives _ _ Hck), length_map. congruence.
  - intros q Hq%Hact. inversion Hq as [x Hx|x Hx|p' a sizes x Hin Hx| |]; subst.
    + by apply (ck_actions _ _ Hck) in Hx.
    + inversion Hx as [|v l w q' Hvl Hw _ Hq'|]; subst. rewrite (Hdel v l w Hvl Hw) in Hq'. by apply elem_of_empty in Hq'.
    + by apply cleanArchive_disk in Hx.
  - intros f md Hf Hj Hmd [a Ha]. pose proof (Hall f Hf Hj md a Hmd Ha) as Hget. rewrite Heq, (ck_archives _ _ Hck).
    exists (checked (lineages d1) a). apply list_elem_of_fmap. exists (f, a). split; [done|by apply map_get_elem].
Qed.
End facts.

(** ** A directory *)

Definition vm : path := js "/vm".
Definition vdi : path := js "/vm/vdis/j/d".
Definition at_ (dir : path) (s : string) : path := dir ++ sep :: js s.

Definition vm_files : list path :=
  map (at_ vm) ["1.json"; "2.json"; "3.json"; "3.xva"; "cache.json.gz"; "vdis"; "old.xva"]%string.
Definition vdi_disks : list (path * Disk) :=
  [(at_ vdi "a.vhd", full (js "A")); (at_ vdi "b.vhd", over (js "B") (js "a.vhd"));
   (at_ vdi "c.vhd", over (js "C") (js "b.vhd")); (at_ vdi "e.vhd", full (js "E"))].
Definition delta (disks : list string) : Metadata := mkMetadata (js "delta") None (Some (map js disks)) None.

(** A remote with these files; [vdi_list] and [metadata] are what can fail. *)
Definition sample_remote (vdi_list : result (list path)) (metadata : path → result (option Metadata)) : Remote :=
  mkRemote
    (λ v, if bool_decide (v = vm) then Ok vm_files else if bool_decide (v = vdi) then vdi_list else Throw ENOENT)
    metadata (λ p, if bool_decide (p ∈ vm_files) then Ok (Encrypted 100) else Throw ENOENT) false (Some 3%nat) (open_of vdi_disks) (λ _ _, Ok false) (λ _, Throw ENOENT)
    (λ _ _, {[at_ vdi "b.vhd" := 7]}).

(** The metadata of the first backup, whose disk is [b]; that of the second one is [m]; the
    third one is a full backup. *)
Definition xva (name : string) : Metadata := mkMetadata (js "full") (Some (js name)) None None.
Definition sample_metadata (m : result (option Metadata)) (p : path) : result (option Metadata) :=
  if bool_decide (p = at_ vm "1.json") then Ok (Some (delta ["vdis/j/d/b.vhd"]%string))
  else if bool_decide (p = at_ vm "2.json") then m
  else if bool_decide (p = at_ vm "3.json") then Ok (Some (xva "3.xva")) else Throw ENOENT.

Definition cleaned (m : result (option Metadata)) (vdi_list : result (list path)) : result (list action) :=
  '(_, d) ← cleanVm (sample_remote vdi_list (sample_metadata m)) true true vm; Ok (actions d).

#[export] Instance action_eq_dec : EqDecision action.
Proof. solve_decision. Defined.

(** A full backup, and two of [b] and of [c] over it: [e] is deleted, and [a] is merged in [b]. *)
Example cleaned_sample :
  cleaned (Ok (Some (delta ["vdis/j/d/c.vhd"]%string))) (Ok (map fst vdi_disks)) =
  Ok [UnlinkDisk (at_ vdi "e.vhd"); MergeDisks [at_ vdi "a.vhd"; at_ vdi "b.vhd"] false;
      WriteMetadata (at_ vm "1.json") 7; WriteCache [at_ vm "1.json"; at_ vm "2.json"; at_ vm "3.json"]; Unlink (at_ vm "old.xva")].
Proof. vm_compute. reflexivity. Qed.

(** The metadata of the second backup cannot be read for now: it is deleted, and the disk
    of the backup too. *)
Example unreadable_metadata_loses_backup :
  cleaned (Throw (OtherError "EIO")) (Ok (map fst vdi_disks)) =
  Ok [UnlinkDisk (at_ vdi "e.vhd"); UnlinkDisk (at_ vdi "c.vhd");
      MergeDisks [at_ vdi "a.vhd"; at_ vdi "b.vhd"] false; WriteMetadata (at_ vm "1.json") 7;
      WriteCache [at_ vm "1.json"; at_ vm "3.json"]; Unlink (at_ vm "2.json"); Unlink (at_ vm "old.xva")].
Proof. vm_compute. reflexivity. Qed.

(** The directory of the disks cannot be listed for now: the metadata of the backups is
    deleted. *)
Example unlisted_disks_lose_metadata :
  match cleaned (Ok (Some (delta ["vdis/j/d/c.vhd"]%string))) (Throw (OtherError "EIO")) with
  | Ok a => bool_decide (Unlink (at_ vm "1.json") ∈ a ∧ Unlink (at_ vm "2.json") ∈ a)
  | Throw _ => false
  end = true.
Proof. vm_compute. reflexivity. Qed.

(** A file that holds [null] stops the clean up. *)
Example null_metadata_stops :
  cleaned (Ok None) (Ok (map fst vdi_disks)) = Throw (TypeError "Cannot read properties of null").
Proof. vm_compute. reflexivity. Qed.

Definition sample_vm : Remote := sample_remote (Ok (map fst vdi_disks)) (sample_metadata (Throw (OtherError "EIO"))).

Lemma sample_vm_list v fs :
  list_ sample_vm v = Ok fs → (v = vm ∧ fs = vm_files) ∨ (v = vdi ∧ fs = map fst vdi_disks).
Proof. cbn. case_bool_decide; [intros [= <-]; by left|]. case_bool_decide; [intros [= <-]; by right|done]. Qed.

Lemma sample_vm_healthy p : healthy sample_vm true (dirname (normalize p)).
Proof.
  generalize (dirname (normalize p)). intros v. split.
  - cbn. case_bool_decide; [done|]. by case_bool_decide.
  - intros fs [[-> ->]|[-> ->]]%sample_vm_list; (split; [|split]).
    + apply single_child_NoDup, (bool_decide_unpack _). vm_compute. exact I.
    + assert (listDisks vm_files = []) as -> by (vm_compute; reflexivity). by intros q ?%elem_of_nil.
    + by intros f st rel _.
    + apply single_child_NoDup, (bool_decide_unpack _). vm_compute. exact I.
    + intros q _ _. unfold opened. cbn [openDisk sample_vm sample_remote]. unfold open_of.
      by destruct (list_find _ _) as [[? [? ?]]|].
    + by intros f st rel _.
Qed.

Lemma sample_vm_in_place : listed_in_place sample_vm.
Proof.
  intros p fs f Hl Hf. revert Hl Hf. generalize (dirname (normalize p)). intros v [[-> ->]|[-> ->]]%sample_vm_list Hf;
    repeat (apply elem_of_cons in Hf as [->|Hf]; [vm_compute; reflexivity|]); by apply elem_of_nil in Hf.
Qed.

Lemma sample_vm_metadata f :
  f ∈ vm_files → endsWith (js ".json") (normalize f) = true → readMetadata sample_vm (normalize f) ≠ Ok None.
Proof. intros _ _. cbn. unfold sample_metadata. by repeat (case_bool_decide; try done). Qed.

Lemma sample_vm_directory : in_directory sample_vm vm vm_files.
Proof.
  intros f Hf. repeat (apply elem_of_cons in Hf as [->|Hf]; [split; [vm_compute; reflexivity|vm_compute; discriminate]|]).
  by apply elem_of_nil in Hf.
Qed.

Lemma sample_vm_complete : complete_backup sample_vm true vm (at_ vm "1.json") (delta ["vdis/j/d/b.vhd"]%string).
Proof.
  split; [vm_compute; reflexivity|]. split; [vm_compute; reflexivity|]. right. split; [done|]. split; [done|].
  intros p Hp. assert (p = at_ vdi "b.vhd") as -> by (apply list_elem_of_singleton in Hp as ->; vm_compute; reflexivity).
  eexists. split; vm_compute; reflexivity.
Qed.

Lemma sample_vm_full : complete_backup sample_vm true vm (at_ vm "3.json") (xva "3.xva").
Proof.
  split; [vm_compute; reflexivity|]. split; [vm_compute; reflexivity|]. left. exists (at_ vm "3.xva").
  split; [vm_compute; reflexivity|]. split; [vm_compute; reflexivity|]. by vm_compute.
Qed.

Lemma cleanVm_keeps_complete_witness :
  ∃ c d, cleanVm sample_vm true true vm = Ok (c, d) ∧ (∃ a, (at_ vm "1.json", a) ∈ archives d) ∧
    Unlink (at_ vm "1.json") ∉ actions d ∧ UnlinkDisk (at_ vdi "b.vhd") ∉ actions d ∧
    Unlink (at_ vm "3.json") ∉ actions d ∧ Unlink (js "vm/3.xva") ∉ actions d.
Proof.
  destruct (cleanVm_keeps_complete sample_vm true true vm sample_vm_healthy vm_files) as (c & d & Hrun & Hall);
    [reflexivity|apply sample_vm_metadata|apply sample_vm_directory|apply sample_vm_in_place|].
  exists c, d. split; [exact Hrun|].
  destruct (Hall (at_ vm "1.json") _ ltac:(by left) sample_vm_complete ltac:(vm_compute; reflexivity)) as (Ha & Hu & Hd).
  destruct (Hall (at_ vm "3.json") _ ltac:(by right; right; left) sample_vm_full ltac:(vm_compute; reflexivity)) as (_ & Hu3 & _).
  split; [exact Ha|]. split_and!.
  - intros Hg. by apply (proj2 (Hu _ (or_introl eq_refl)) _ Hg).
  - apply (Hd eq_refl (at_ vdi "b.vhd")); [vm_compute; by left|left; apply rtc_refl].
  - intros Hg. by apply (proj2 (Hu3 _ (or_introl eq_refl)) _ Hg).
  - intros Hg. by apply (proj2 (Hu3 (at_ vm "3.xva") (or_intror eq_refl)) _ Hg).
Defined.

Lemma cleanVm_cache_witness :
  match cleanVm sample_vm true true vm with
  | Ok (_, d) => cacheExisted d && bool_decide (WriteCache [at_ vm "1.json"; at_ vm "3.json"] ∈ actions d)
  | Throw _ => false
  end = true ∧
  ∃ c d, cleanVm sample_vm true true vm = Ok (c, d) ∧
    (cacheExisted d = true → WriteCache (map fst (archives d)) ∈ actions d ∨ readCache sample_vm = Some (length (archives d))).
Proof.
  split; [vm_compute; reflexivity|].
  destruct (cleanVm_cache sample_vm true true vm sample_vm_healthy vm_files) as (c & d & Hrun & Hall);
    [reflexivity|apply sample_vm_metadata|].
  exists c, d. split; [exact Hrun|]. intros Hex. destruct (Hall Hex) as [|(? & _)]; [by left|by right].
Defined.
