(* ===== verification/ResourceSets.v ===== *)
(** * Resource sets: quotas of self service users

    [resource-sets.mjs] of xo-server: the limits of a set and what its VMs use of them,
    who may use it, and the moves of VMs between sets.

    The usage of a VM, its ACLs and its set are those of the XAPI and of the ACLs of the
    server; a call to them can fail, also one that undoes another.  Quantities are exact integers, and the operations
    run one after the other, except where an interleaving is stated. *)

From stdpp Require Import gmap list.
From S2P Require Import Prelude JsValues.

Local Open Scope Z_scope.

Abbreviation ident := jstring.

(** ** The resources that a VM uses *)

Record Vbd := mkVbd { vbd_type : jstring; VDI : ident; virtual_size : option Z }.

Record VmObject := mkVmObject { vbds : list Vbd; VCPUs_at_startup : Z; memory_dynamic_max : Z }.

(** A disk that is plugged several times counts once; [virtual_size] is undefined when
    [$VDI] is. *)
Definition count_disk (acc : list ident * Z * Z) (vbd : Vbd) : list ident * Z * Z :=
  let '(processed, disks, disk) := acc in
  if bool_decide (vbd_type vbd = js "Disk") && negb (bool_decide (VDI vbd ∈ processed)) then
    match virtual_size vbd with
    | Some size => (VDI vbd :: processed, disks + 1, disk + size)
    | None => acc
    end
  else acc.

Definition computeVmXapiResourcesUsage (vm : VmObject) : list (ident * Z) :=
  let '(_, disks, disk) := foldl count_disk ([], 0, 0) (vbds vm) in
  [(js "cpus", VCPUs_at_startup vm); (js "disk", disk); (js "disks", disks);
   (js "memory", memory_dynamic_max vm); (js "vms", 1)].

Definition VM_RESOURCES (id : ident) : bool :=
  bool_decide (id ∈ map js ["cpus"; "disk"; "disks"; "memory"; "vms"]%string).
Definition is_ipPool (id : ident) : bool := startsWith (js "ipPool:") id.

(** ** Sets *)

(** [total] is undefined when there is no limit. *)
Record Limit := mkLimit { total : option Z; usage : Z }.

Record ResourceSet := mkSet {
  rs_id : ident;
  ipPools : list ident;
  limits : gmap ident Limit;
  rs_name : jstring;
  objects : list ident;
  subjects : list ident;
  shareByDefault : bool;
  tags : list jstring;
}.

(** What is stored: a limit may be a bare quantity, and any field missing. *)
Inductive RawLimit := Bare (quantity : Z) | Obj (total usage : option Z).

Record RawSet := mkRaw {
  raw_id : ident;
  raw_ipPools : option (list ident);
  raw_limits : option (gmap ident RawLimit);
  raw_name : option jstring;
  raw_objects : option (list ident);
  raw_subjects : option (list ident);
  raw_shareByDefault : option bool;
  raw_tags : option (list jstring);
}.

Definition normalizeLimit (limit : RawLimit) : Limit :=
  match limit with
  | Obj total usage => mkLimit total (default 0 usage)
  | Bare quantity => mkLimit (Some quantity) 0
  end.

Definition normalize (set : RawSet) : ResourceSet :=
  mkSet (raw_id set) (default [] (raw_ipPools set))
    (match raw_limits set with Some l => normalizeLimit <$> l | None => ∅ end)
    (default [] (raw_name set)) (default [] (raw_objects set)) (default [] (raw_subjects set))
    (default false (raw_shareByDefault set)) (default [] (raw_tags set)).

Definition raw_limit (l : Limit) : RawLimit := Obj (total l) (Some (usage l)).

(** A set as it is stored. *)
Definition to_raw (set : ResourceSet) : RawSet :=
  mkRaw (rs_id set) (Some (ipPools set)) (Some (raw_limit <$> limits set)) (Some (rs_name set)) (Some (objects set))
    (Some (subjects set)) (Some (shareByDefault set)) (Some (tags set)).

Definition with_limits (set : ResourceSet) (l : gmap ident Limit) : ResourceSet :=
  mkSet (rs_id set) (ipPools set) l (rs_name set) (objects set) (subjects set) (shareByDefault set) (tags set).
Definition with_objects (set : ResourceSet) (o : list ident) : ResourceSet :=
  mkSet (rs_id set) (ipPools set) (limits set) (rs_name set) o (subjects set) (shareByDefault set) (tags set).
Definition with_subjects (set : ResourceSet) (s : list ident) : ResourceSet :=
  mkSet (rs_id set) (ipPools set) (limits set) (rs_name set) (objects set) s (shareByDefault set) (tags set).
Definition with_ipPools (set : ResourceSet) (p : list ident) : ResourceSet :=
  mkSet (rs_id set) p (limits set) (rs_name set) (objects set) (subjects set) (shareByDefault set) (tags set).

(** [lodash/difference] *)
Definition difference (a b : list ident) : list ident := filter (λ x, x ∉ b) a.
Definition sameMembers (a b : list ident) : bool :=
  bool_decide (length a = length b) && bool_decide (difference a b = []).

(** ** State *)

Record User := mkUser { user_id : ident; permission : jstring; groups : list ident }.

(** [vmSets] is the data of the VMs; [acls] who may use them; [cleared] the users whose
    cache of visible objects was dropped. *)
Record State := mkState {
  store : gmap ident RawSet;
  vmSets : gmap ident ident;
  acls : gmap ident (gset ident);
  cleared : list ident;
}.

Definition put (id : ident) (set : RawSet) (s : State) : State :=
  mkState (<[id := set]> (store s)) (vmSets s) (acls s) (cleared s).
Definition del (id : ident) (s : State) : State :=
  mkState (delete id (store s)) (vmSets s) (acls s) (cleared s).
Definition setData (vm : ident) (id : option ident) (s : State) : State :=
  mkState (store s) (partial_alter (λ _, id) vm (vmSets s)) (acls s) (cleared s).
Definition setAcls (vm : ident) (a : gset ident) (s : State) : State :=
  mkState (store s) (vmSets s) (<[vm := a]> (acls s)) (cleared s).
Definition clear (users : list ident) (s : State) : State :=
  mkState (store s) (vmSets s) (acls s) (cleared s ++ users).

Definition noSuchObject (id : ident) : error := XoError 1 [id; js "resourceSet"].
Definition unauthorized : error := XoError 2 [].
Definition notEnoughResources (id resource : ident) (available requested : Z) : error :=
  XoError 24 [id; resource; Z_digits available; Z_digits requested].

Section operations.
Context (allGroups : gmap ident (list ident)).

(** ** Storage *)

Definition getResourceSet (id : ident) : M State ResourceSet := λ s,
  match store s !! id with
  | Some set => (Ok (normalize set), s)
  | None => (Throw (noSuchObject id), s)
  end.

(** The users of the subjects, which are users and groups. *)
Definition usersOf (subjectIds : list ident) : list ident :=
  remove_dups (flat_map (λ subject, default [subject] (allGroups !! subject)) subjectIds).

Definition saveRaw (set : RawSet) : M State unit := λ s,
  let previousSubjects := default [] (store s !! raw_id set ≫= raw_subjects) in
  let previousObjects := default [] (store s !! raw_id set ≫= raw_objects) in
  let s' := put (raw_id set) set s in
  if sameMembers previousSubjects (default [] (raw_subjects set)) && sameMembers previousObjects (default [] (raw_objects set))
  then (Ok tt, s')
  else (Ok tt, clear (usersOf (previousSubjects ++ default [] (raw_subjects set))) s').

Definition save (set : ResourceSet) : M State unit := saveRaw (to_raw set).

(** ** Who may use a set *)

Definition related (user : User) (set : ResourceSet) : bool :=
  existsb (λ subject, bool_decide (subject = user_id user ∨ subject ∈ groups user)) (subjects set).

Definition checkResourceSetConstraints (id : ident) (user : User) (objectIds : option (list ident)) : M State unit :=
  set ← getResourceSet id;
  if (negb (bool_decide (permission user = js "admin")) && negb (related user set))
     || match objectIds with
        | Some objectIds => negb (forallb (λ o, bool_decide (o ∈ objects set)) objectIds)
        | None => false
        end
  then lift (Throw unauthorized) else mret tt.

(** The sets that a user sees; all of them without a user. *)
Definition getAllResourceSets (user : option User) : M State (list ResourceSet) :=
  all ← gets (λ s, map (λ x, normalize x.2) (map_to_list (store s)));
  mret (filter (λ set, match user with
                       | Some u => bool_decide (permission u = js "admin") || related u set
                       | None => true
                       end = true) all).

(** ** Creation and changes *)

(** [id] is a fresh identifier. *)
Definition createResourceSet (id : ident) (name : jstring) (subjects objects : option (list ident))
    (limits : option (gmap ident Z)) (shareByDefault : bool) (tags : option (list jstring)) : M State ResourceSet :=
  let set := normalize (mkRaw id None (option_map (fmap Bare) limits) (Some name) objects subjects (Some shareByDefault) tags) in
  save set ;; mret set.

Definition addObjectToResourceSet (objectId setId : ident) : M State unit :=
  set ← getResourceSet setId; save (with_objects set (objects set ++ [objectId])).
Definition removeObjectFromResourceSet (objectId setId : ident) : M State unit :=
  set ← getResourceSet setId; save (with_objects set (filter (λ o, o ≠ objectId) (objects set))).
Definition addIpPoolToResourceSet (ipPoolId setId : ident) : M State unit :=
  set ← getResourceSet setId; save (with_ipPools set (ipPools set ++ [ipPoolId])).
Definition removeIpPoolFromResourceSet (ipPoolId setId : ident) : M State unit :=
  set ← getResourceSet setId; save (with_ipPools set (filter (λ o, o ≠ ipPoolId) (ipPools set))).
Definition addSubjectToResourceSet (subjectId setId : ident) : M State unit :=
  set ← getResourceSet setId; save (with_subjects set (subjects set ++ [subjectId])).
Definition removeSubjectFromResourceSet (subjectId setId : ident) : M State unit :=
  set ← getResourceSet setId; save (with_subjects set (filter (λ o, o ≠ subjectId) (subjects set))).

(** The bare quantity is stored, over the limit. *)
Definition addLimitToResourceSet (limitId : ident) (quantity : Z) (setId : ident) : M State unit :=
  set ← getResourceSet setId;
  let raw := to_raw set in
  saveRaw (mkRaw (raw_id raw) (raw_ipPools raw) (Some (<[limitId := Bare quantity]> (raw_limit <$> limits set)))
             (raw_name raw) (raw_objects raw) (raw_subjects raw) (raw_shareByDefault raw) (raw_tags raw)).
Definition removeLimitFromResourceSet (limitId setId : ident) : M State unit :=
  set ← getResourceSet setId; save (with_limits set (delete limitId (limits set))).

(** The new limits keep what is used. *)
Definition updateLimit (quantity : option Z) (previous : option Limit) : option Limit :=
  match quantity, previous with
  | Some q, Some p => Some (mkLimit (Some q) (usage p))
  | Some q, None => Some (mkLimit (Some q) 0)
  | None, Some p => Some (mkLimit None (usage p))
  | None, None => None
  end.
Definition updateLimits (quantities : gmap ident Z) (previous : gmap ident Limit) : gmap ident Limit :=
  merge updateLimit quantities previous.

(** The ACLs of removed subjects on the VMs of the set. *)
Definition removeAcls (id : ident) (removed : list ident) (s : State) : State :=
  mkState (store s) (vmSets s)
    (map_imap (λ vm a, Some (if bool_decide (vmSets s !! vm = Some id) then a ∖ list_to_set removed else a)) (acls s))
    (cleared s).

Record Changes := mkChanges {
  ch_name : option jstring;
  ch_subjects : option (list ident);
  ch_objects : option (list ident);
  ch_limits : option (gmap ident Z);
  ch_ipPools : option (list ident);
  ch_tags : option (list jstring);
  ch_shareByDefault : option bool;
}.

(** [if (name)]: an empty name is no change. *)
Definition change_name (name : option jstring) (old : jstring) : jstring :=
  match name with Some (_ :: _ as n) => n | _ => old end.

Definition applyChanges (c : Changes) (set : ResourceSet) : ResourceSet :=
  mkSet (rs_id set) (default (ipPools set) (ch_ipPools c))
    (match ch_limits c with Some q => updateLimits q (limits set) | None => limits set end)
    (change_name (ch_name c) (rs_name set)) (default (objects set) (ch_objects c)) (default (subjects set) (ch_subjects c))
    (default (shareByDefault set) (ch_shareByDefault c)) (default (tags set) (ch_tags c)).

Definition updateResourceSet (id : ident) (c : Changes) : M State unit :=
  set ← getResourceSet id;
  match ch_subjects c with
  | Some s => modify (removeAcls id (difference (subjects set) s))
  | None => mret tt
  end ;;
  save (applyChanges c set).

(** ** Limits *)

Definition exceeds (t : option Z) (n : Z) : bool := match t with Some t => t <? n | None => false end.

Fixpoint allocate (setId : ident) (force : bool) (requests : list (ident * Z)) (l : gmap ident Limit) :
    result (gmap ident Limit) :=
  match requests with
  | [] => Ok l
  | (id, quantity) :: requests =>
      match l !! id with
      | None => allocate setId force requests (<[id := mkLimit None quantity]> l)
      | Some limit =>
          let used := usage limit + quantity in
          if exceeds (total limit) used && negb force then
            Throw (notEnoughResources setId id (default 0 (total limit) - usage limit) quantity)
          else allocate setId force requests (<[id := mkLimit (total limit) used]> l)
      end
  end.

Definition release_one (l : gmap ident Limit) (request : ident * Z) : gmap ident Limit :=
  let '(id, quantity) := request in
  match l !! id with
  | None => l
  | Some limit => <[id := mkLimit (total limit) (Z.max 0 (usage limit - quantity))]> l
  end.
Definition release (requests : list (ident * Z)) (l : gmap ident Limit) : gmap ident Limit :=
  foldl release_one l requests.

Definition allocateLimitsInResourceSet (requests : list (ident * Z)) (setId : ident) (force : bool) : M State unit :=
  set ← getResourceSet setId;
  l ← lift (allocate setId force requests (limits set));
  save (with_limits set l).

Definition releaseLimitsInResourceSet (requests : list (ident * Z)) (setId : ident) : M State unit :=
  set ← getResourceSet setId; save (with_limits set (release requests (limits set))).

(** ** Moves of VMs *)

(** The calls to the XAPI and to the ACLs, which can fail. *)
(** [RestoreData] is the call that undoes [SetData]. *)
Inductive call := SetData | RestoreData | RemoveAcls | Barrier | AddAcl.

Context (computeResourcesUsage : ident → list (ident * Z)) (fails : call → bool).

Definition calls (c : call) (m : M State unit) : M State unit :=
  if fails c then lift (Throw (OtherError "call failed")) else m.

Definition addAcls (vm : ident) (subjects : list ident) : M State unit :=
  modify (λ s, setAcls vm (default ∅ (acls s !! vm) ∪ list_to_set subjects) s).

Definition shareVmResourceSet (vm : ident) : M State unit :=
  data ← gets (λ s, vmSets s !! vm);
  match data with
  | None => lift (Throw (OtherError "the vm is not in a resource set"))
  | Some id => set ← getResourceSet id; calls AddAcl (addAcls vm (subjects set))
  end.

(** [$defer.onFailure]: [undo] is run when what follows fails, after those of what
    follows. *)
Definition onFailure {S} (undo : M S unit) (m : M S unit) : M S unit := λ s,
  match m s with
  | (Ok tt, s') => (Ok tt, s')
  | (Throw e, s') => (Throw e, (undo s').2)
  end.

(** The data and the ACLs of the VM, once the limits are counted. *)
Definition attachVm (vm : ident) (previous target : option ident) : M State unit :=
  calls SetData (modify (setData vm target)) ;;
  onFailure (calls RestoreData (modify (setData vm previous)))
    ((if previous is Some _ then calls RemoveAcls (modify (setAcls vm ∅)) else mret tt) ;;
     if target is Some _ then calls Barrier (mret tt) ;; shareVmResourceSet vm else mret tt).

Definition leaveSet (vm : ident) (previous target : option ident) : M State unit :=
  let requests := computeResourcesUsage vm in
  match previous with
  | Some id =>
      has ← gets (λ s, bool_decide (is_Some (store s !! id)));
      if has : bool then
        releaseLimitsInResourceSet requests id ;;
        onFailure (allocateLimitsInResourceSet requests id true) (attachVm vm previous target)
      else attachVm vm previous target
  | None => attachVm vm previous target
  end.

Definition setVmResourceSet (vm : ident) (target : option ident) (force : bool) : M State unit :=
  previous ← gets (λ s, vmSets s !! vm);
  if bool_decide (target = previous) then mret tt
  else
    let requests := computeResourcesUsage vm in
    match target with
    | Some id =>
        allocateLimitsInResourceSet requests id force ;;
        onFailure (releaseLimitsInResourceSet requests id) (leaveSet vm previous target)
    | None => leaveSet vm previous target
    end.

(** The VMs of the set leave it first. *)
Definition deleteResourceSet (id : ident) : M State unit :=
  s ← gets (λ s, s);
  match store s !! id with
  | None => lift (Throw (noSuchObject id))
  | Some previous =>
      for_each (map fst (filter (λ x, x.2 = id) (map_to_list (vmSets s)))) (λ vm, setVmResourceSet vm None true) ;;
      s' ← gets (λ s, s);
      let subjects := default [] (store s' !! id ≫= raw_subjects) in
      modify (del id) ;; modify (clear (usersOf subjects))
  end.

(** ** Recomputation *)

Definition reset_limit (id : ident) (l : Limit) : Limit :=
  if VM_RESOURCES id || is_ipPool id then mkLimit (total l) 0 else l.
Definition add_usage (l : gmap ident Limit) (request : ident * Z) : gmap ident Limit :=
  let '(id, q) := request in
  match l !! id with
  | Some limit => <[id := mkLimit (total limit) (usage limit + q)]> l
  | None => <[id := mkLimit None q]> l
  end.

(** The VMs of the set, in the order of the objects of the pools. *)
Definition recomputed (vms : list ident) (s : State) (set : ResourceSet) : ResourceSet :=
  let mine := filter (λ vm, vmSets s !! vm = Some (rs_id set)) vms in
  with_limits set (foldl add_usage (map_imap (λ id l, Some (reset_limit id l)) (limits set)) (flat_map computeResourcesUsage mine)).

Definition recomputeResourceSetsLimits (vms : list ident) : M State unit :=
  s ← gets (λ s, s);
  sets ← getAllResourceSets None;
  for_each sets (λ set, save (recomputed vms s set)).
End operations.

(** ** Usage *)

Definition used (l : gmap ident Limit) (r : ident) : Z := match l !! r with Some l => usage l | None => 0 end.
Definition limit_of (l : gmap ident Limit) (r : ident) : option Z := l !! r ≫= total.

(** What the requests have of a resource. *)
Definition amount (requests : list (ident * Z)) (r : ident) : Z :=
  foldr (λ x n, (if decide (x.1 = r) then x.2 else 0) + n) 0 requests.

Definition nonneg (requests : list (ident * Z)) : Prop := Forall (λ x, 0 ≤ x.2) requests.

Lemma amount_nonneg requests r : nonneg requests → 0 ≤ amount requests r.
Proof. unfold amount. induction 1 as [|[r' q] xs Hq _ IH]; cbn in *; [lia|]. case_decide; lia. Qed.

Lemma amount_cons x xs r : amount (x :: xs) r = (if decide (x.1 = r) then x.2 else 0) + amount xs r.
Proof. done. Qed.

Lemma amount_app xs ys r : amount (xs ++ ys) r = amount xs r + amount ys r.
Proof. unfold amount. induction xs as [|x xs IH]; cbn; [lia|]. rewrite IH. lia. Qed.

Lemma amount_absent requests r : r ∉ map fst requests → amount requests r = 0.
Proof.
  unfold amount. induction requests as [|[r' q] xs IH]; cbn; [done|]. intros [Hr Hx]%not_elem_of_cons.
  rewrite decide_False by congruence. rewrite IH; done.
Qed.

Lemma amount_NoDup requests r q : NoDup (map fst requests) → (r, q) ∈ requests → amount requests r = q.
Proof.
  induction requests as [|[r' q'] xs IH]; [by intros _ ?%elem_of_nil|]. cbn [map fst]. intros [Hn Hd]%NoDup_cons.
  intros [[= -> ->]|Hin]%elem_of_cons; cbn.
  - rewrite decide_True by done. fold (amount xs r'). rewrite amount_absent by done. lia.
  - fold (amount xs r). rewrite IH by done. rewrite decide_False; [lia|]. intros ->. apply Hn, list_elem_of_fmap.
    by exists (r, q).
Qed.

Lemma used_insert l r lim r' : used (<[r := lim]> l) r' = if decide (r' = r) then usage lim else used l r'.
Proof. unfold used. destruct (decide (r' = r)) as [->|]; [by rewrite lookup_insert_eq|by rewrite lookup_insert_ne]. Qed.

Lemma limit_of_insert l r lim r' : limit_of (<[r := lim]> l) r' = if decide (r' = r) then total lim else limit_of l r'.
Proof. unfold limit_of. destruct (decide (r' = r)) as [->|]; [by rewrite lookup_insert_eq|by rewrite lookup_insert_ne]. Qed.

(** An allocation adds what is requested, and changes no limit. *)
Lemma allocate_used setId force requests l l' :
  allocate setId force requests l = Ok l' →
  (∀ r, used l' r = used l r + amount requests r) ∧ ∀ r, limit_of l' r = limit_of l r.
Proof.
  revert l. induction requests as [|[r q] xs IH]; intros l; cbn [allocate]; [intros [= <-]; split; [intros; cbn; lia|done]|].
  destruct (l !! r) as [lim|] eqn:E.
  - case_match; [done|]. intros [Hu Ht]%IH. split; intros r'; [rewrite Hu, used_insert|rewrite Ht, limit_of_insert];
      unfold used, limit_of; cbn [amount foldr fst snd usage total]; [|case_decide; [subst; by rewrite E|done]].
    destruct (decide (r' = r)) as [->|]; [rewrite !decide_True by done; rewrite E; unfold amount; lia|].
    rewrite !decide_False by congruence. unfold amount. lia.
  - intros [Hu Ht]%IH. split; intros r'; [rewrite Hu, used_insert|rewrite Ht, limit_of_insert];
      unfold used, limit_of; cbn [amount foldr fst snd usage total]; [|case_decide; [subst; by rewrite E|done]].
    destruct (decide (r' = r)) as [->|]; [rewrite !decide_True by done; rewrite E; unfold amount; lia|].
    rewrite !decide_False by congruence. unfold amount. lia.
Qed.

Lemma allocate_forced setId requests l : ∃ l', allocate setId true requests l = Ok l'.
Proof.
  revert l. induction requests as [|[r q] xs IH]; intros l; cbn [allocate]; [by eexists|].
  destruct (l !! r); rewrite ?andb_false_r; apply IH.
Qed.

(** What is allocated without force is within the limits. *)
Lemma allocate_within setId requests l l' :
  allocate setId false requests l = Ok l' → nonneg requests →
  (∀ r t, limit_of l r = Some t → used l r ≤ t) → ∀ r t, limit_of l' r = Some t → used l' r ≤ t.
Proof.
  revert l. induction requests as [|[r q] xs IH]; intros l; cbn [allocate]; [by intros [= <-]|].
  intros Hrun Hn. inversion Hn as [|? ? Hq Hxs]; subst. cbn in Hq. intros Hw. destruct (l !! r) as [lim|] eqn:E.
  - rewrite andb_true_r in Hrun. destruct (exceeds _ _) eqn:Ex; [done|]. eapply IH; [exact Hrun|done|].
    intros r' t. rewrite limit_of_insert, used_insert. case_decide; [|apply Hw]. cbn. intros Ht. unfold exceeds in Ex.
    rewrite Ht in Ex. lia.
  - eapply IH; [exact Hrun|done|]. intros r' t. rewrite limit_of_insert, used_insert. case_decide; [done|apply Hw].
Qed.

(** When it fails, the resource that lacks. *)
Lemma allocate_fails setId force requests l e :
  allocate setId force requests l = Throw e → NoDup (map fst requests) →
  force = false ∧ ∃ r q t, (r, q) ∈ requests ∧ limit_of l r = Some t ∧ t < used l r + q ∧
    e = notEnoughResources setId r (t - used l r) q.
Proof.
  revert l. induction requests as [|[r q] xs IH]; intros l; cbn [allocate]; [done|]. intros Hrun [Hr Hd]%NoDup_cons.
  assert (∀ lim, allocate setId force xs (<[r := lim]> l) = Throw e →
    force = false ∧ ∃ r0 q0 t, (r0, q0) ∈ (r, q) :: xs ∧ limit_of l r0 = Some t ∧ t < used l r0 + q0 ∧
      e = notEnoughResources setId r0 (t - used l r0) q0) as Hrest.
  { intros lim Hl. destruct (IH _ Hl Hd) as (Hf & r0 & q0 & t & Hin & Ht & Hlt & ->). split; [done|].
    assert (r0 ≠ r) by (intros ->; apply Hr, list_elem_of_fmap; by exists (r, q0)).
    rewrite limit_of_insert, decide_False in Ht by done. rewrite used_insert, decide_False in Hlt by done.
    rewrite used_insert, decide_False by done. exists r0, q0, t. split_and!; [by right|done..]. }
  destruct (l !! r) as [lim|] eqn:E; [|by eapply Hrest].
  destruct (exceeds (total lim) (usage lim + q) && negb force) eqn:Ex; [|by eapply Hrest].
  apply andb_true_iff in Ex as [Ex Hf%negb_true_iff]. split; [done|]. injection Hrun as <-.
  unfold exceeds in Ex. destruct (total lim) as [t|] eqn:Et; [|done]. exists r, q, t.
  unfold limit_of, used. rewrite E. cbn. split_and!; [by left|done|lia|done].
Qed.

Lemma release_used requests l :
  nonneg requests → (∀ r, amount requests r ≤ used l r) →
  (∀ r, used (release requests l) r = used l r - amount requests r) ∧ ∀ r, limit_of (release requests l) r = limit_of l r.
Proof.
  intros Hn. revert l. induction Hn as [|[r q] xs Hq Hxs IH]; intros l Ha; cbn [release foldl]; [split; [intros; cbn; lia|done]|].
  fold (release xs (release_one l (r, q))). cbn in Hq.
  assert (∀ r', used (release_one l (r, q)) r' = used l r' - if decide (r = r') then q else 0) as Hone.
  { intros r'. cbn [release_one]. specialize (Ha r). cbn in Ha. rewrite decide_True in Ha by done.
    pose proof (amount_nonneg xs r Hxs) as Hnn. unfold amount in Hnn. destruct (l !! r) as [lim|] eqn:E.
    - rewrite used_insert. cbn. unfold used in *. rewrite E in Ha. destruct (decide (r' = r)) as [->|].
      + rewrite decide_True by done. rewrite E. lia.
      + rewrite decide_False by congruence. lia.
    - unfold used in *. rewrite E in Ha. case_decide; [subst; rewrite E; lia|lia]. }
  assert (∀ r', limit_of (release_one l (r, q)) r' = limit_of l r') as Hlim.
  { intros r'. cbn [release_one]. destruct (l !! r) as [lim|] eqn:E; [|done]. rewrite limit_of_insert.
    case_decide; [subst; unfold limit_of; by rewrite E|done]. }
  destruct (IH (release_one l (r, q))) as [Hu Ht].
  { intros r'. rewrite Hone. specialize (Ha r'). cbn in Ha. unfold amount. lia. }
  split; intros r'; [rewrite Hu, Hone; cbn; unfold amount; lia|by rewrite Ht, Hlim].
Qed.

(** ** Storing a set *)

Lemma normalize_to_raw set : normalize (to_raw set) = set.
Proof.
  unfold normalize, to_raw. cbn. rewrite <- map_fmap_compose. destruct set. cbn. f_equal.
  rewrite <- (map_fmap_id limits0) at 2. apply map_fmap_ext. intros i [t u] _. done.
Qed.

(** Each set is stored under its identifier. *)
Definition well_keyed (s : State) : Prop := ∀ id set, store s !! id = Some set → raw_id set = id.

Definition limits_in (s : State) (id : ident) : gmap ident Limit :=
  match store s !! id with Some raw => limits (normalize raw) | None => ∅ end.
Definition used_in (s : State) (id r : ident) : Z := used (limits_in s id) r.
Definition limit_in (s : State) (id r : ident) : option Z := limit_of (limits_in s id) r.

Section facts.
Context (allGroups : gmap ident (list ident)).

Lemma save_run set s :
  ∃ c, save allGroups set s = (Ok tt, clear c (put (rs_id set) (to_raw set) s)).
Proof.
  unfold save, saveRaw. case_match; [|by eexists]. exists []. by destruct s; unfold clear, put; cbn; rewrite app_nil_r.
Qed.

Lemma limits_in_put s id' set c id :
  limits_in (clear c (put id' (to_raw set) s)) id = if decide (id = id') then limits set else limits_in s id.
Proof.
  unfold limits_in. cbn [store clear put]. destruct (decide (id = id')) as [->|].
  - by rewrite lookup_insert_eq, normalize_to_raw.
  - by rewrite lookup_insert_ne.
Qed.

Lemma well_keyed_put s set c : well_keyed s → well_keyed (clear c (put (rs_id set) (to_raw set) s)).
Proof. intros Hk id raw. cbn. rewrite lookup_insert_Some. intros [[<- <-]|[_ ?]]; [done|by apply Hk]. Qed.

(** [s'] is [s], where [f] was added to the usage of the set [id]. *)
Record charged (s : State) (id : ident) (f : ident → Z) (s' : State) : Prop := {
  cg_keyed : well_keyed s';
  cg_dom i : is_Some (store s' !! i) ↔ is_Some (store s !! i);
  cg_vms : vmSets s' = vmSets s;
  cg_acls : acls s' = acls s;
  cg_used i r : used_in s' i r = used_in s i r + if decide (i = id) then f r else 0;
  cg_limit i r : limit_in s' i r = limit_in s i r;
}.

Lemma charged_put s id raw l f c :
  well_keyed s → store s !! id = Some raw →
  (∀ r, used l r = used (limits (normalize raw)) r + f r) → (∀ r, limit_of l r = limit_of (limits (normalize raw)) r) →
  charged s id f (clear c (put id (to_raw (with_limits (normalize raw) l)) s)).
Proof.
  intros Hk Hs Hu Hl. assert (rs_id (with_limits (normalize raw) l) = id) as Hid by by apply Hk.
  rewrite <- Hid at 2. split; [by apply well_keyed_put| |done|done| |].
  - intros i. rewrite Hid. cbn [store clear put]. destruct (decide (i = id)) as [->|]; [rewrite lookup_insert_eq, Hs; by split|by rewrite lookup_insert_ne].
  - intros i r. unfold used_in. rewrite limits_in_put, Hid. case_decide; [subst i|lia]. cbn. rewrite Hu. unfold limits_in. by rewrite Hs.
  - intros i r. unfold limit_in. rewrite limits_in_put, Hid. case_decide; [subst i|done]. cbn. rewrite Hl. unfold limits_in. by rewrite Hs.
Qed.

Lemma getResourceSet_run s id raw : store s !! id = Some raw → getResourceSet id s = (Ok (normalize raw), s).
Proof. unfold getResourceSet. by intros ->. Qed.

Lemma allocate_run requests id force s raw :
  well_keyed s → store s !! id = Some raw →
  match allocate id force requests (limits_in s id) with
  | Ok l => ∃ s', allocateLimitsInResourceSet allGroups requests id force s = (Ok tt, s') ∧ charged s id (amount requests) s' ∧
      limits_in s' id = l
  | Throw e => allocateLimitsInResourceSet allGroups requests id force s = (Throw e, s)
  end.
Proof.
  intros Hk Hs. unfold allocateLimitsInResourceSet, mbind, M_bind, lift. rewrite (getResourceSet_run s id raw Hs).
  unfold limits_in. rewrite Hs. destruct (allocate id force requests (limits (normalize raw))) as [l|e] eqn:E; [|done].
  destruct (allocate_used _ _ _ _ _ E) as [Hu Hl].
  destruct (save_run (with_limits (normalize raw) l) s) as [c Hrun]. rewrite Hrun.
  assert (rs_id (with_limits (normalize raw) l) = id) as -> by by apply Hk. eexists. split; [done|]. split.
  - by apply charged_put.
  - fold (limits_in (clear c (put id (to_raw (with_limits (normalize raw) l)) s)) id). rewrite limits_in_put. by rewrite decide_True.
Qed.

Lemma release_run requests id s raw :
  well_keyed s → store s !! id = Some raw → nonneg requests → (∀ r, amount requests r ≤ used_in s id r) →
  ∃ s', releaseLimitsInResourceSet allGroups requests id s = (Ok tt, s') ∧ charged s id (λ r, - amount requests r) s'.
Proof.
  intros Hk Hs Hn Ha. unfold releaseLimitsInResourceSet, mbind, M_bind. rewrite (getResourceSet_run s id raw Hs).
  destruct (release_used requests (limits (normalize raw)) Hn) as [Hu Hl].
  { intros r. specialize (Ha r). unfold used_in, limits_in in Ha. by rewrite Hs in Ha. }
  destruct (save_run (with_limits (normalize raw) (release requests (limits (normalize raw)))) s) as [c Hrun]. rewrite Hrun.
  assert (rs_id (with_limits (normalize raw) (release requests (limits (normalize raw)))) = id) as -> by by apply Hk.
  eexists. split; [done|]. apply charged_put; [done|done| |done]. intros r. rewrite Hu. lia.
Qed.

(** ** What the VMs use *)

Context (computeResourcesUsage : ident → list (ident * Z)) (fails : call → bool).
Hypothesis Hnonneg : ∀ vm, nonneg (computeResourcesUsage vm).
Hypothesis Hundo : fails RestoreData = false.

Definition part (id r vm i : ident) : Z := if decide (i = id) then amount (computeResourcesUsage vm) r else 0.

(** What the VMs of the set [id] use of the resource [r]. *)
Definition demand (m : gmap ident ident) (id r : ident) : Z := map_sum (part id r) m.

Lemma demand_insert m vm i id r :
  m !! vm = None → demand (<[vm := i]> m) id r = part id r vm i + demand m id r.
Proof. apply map_sum_insert. Qed.

Lemma demand_delete m vm i id r :
  m !! vm = Some i → demand m id r = part id r vm i + demand (delete vm m) id r.
Proof. apply map_sum_delete. Qed.

Definition part_of (id r vm : ident) (i : option ident) : Z := match i with Some i => part id r vm i | None => 0 end.

Lemma demand_lookup m vm id r : demand m id r = part_of id r vm (m !! vm) + demand (delete vm m) id r.
Proof.
  destruct (m !! vm) as [i|] eqn:E; [by apply demand_delete|]. rewrite delete_id by done. cbn. lia.
Qed.

Lemma demand_alter m vm i id r :
  demand (partial_alter (λ _, i) vm m) id r = part_of id r vm i + demand (delete vm m) id r.
Proof.
  rewrite (demand_lookup _ vm). rewrite lookup_partial_alter_eq. f_equal. f_equal. apply map_eq. intros v.
  destruct (decide (v = vm)) as [->|]; [by rewrite !lookup_delete_eq|].
  by rewrite !lookup_delete_ne, lookup_partial_alter_ne by done.
Qed.

Lemma part_of_nonneg id r vm i : 0 ≤ part_of id r vm i.
Proof. destruct i as [i|]; cbn; [|lia]. unfold part. case_decide; [|lia]. by apply amount_nonneg. Qed.

Lemma demand_nonneg m id r : 0 ≤ demand m id r.
Proof.
  apply map_sum_nonneg. intros vm i _. apply (part_of_nonneg id r vm (Some i)).
Qed.

(** The usage of each set is that of its VMs. *)
Record accounted (s : State) : Prop := {
  ac_keyed : well_keyed s;
  ac_used id r : is_Some (store s !! id) → used_in s id r = demand (vmSets s) id r;
}.

Lemma used_none s id r : store s !! id = None → used_in s id r = 0.
Proof. intros Hs. unfold used_in, limits_in. rewrite Hs. unfold used. by rewrite lookup_empty. Qed.

(** ** Moves of VMs *)

Lemma calls_run c m s : calls fails c m s = if fails c then (Throw (OtherError "call failed"), s) else m s.
Proof. unfold calls. by destruct (fails c). Qed.

Lemma shareVm_run vm id raw s :
  vmSets s !! vm = Some id → store s !! id = Some raw →
  ∃ r s', shareVmResourceSet fails vm s = (r, s') ∧ store s' = store s ∧ vmSets s' = vmSets s.
Proof.
  intros Hvm Hs. unfold shareVmResourceSet, mbind, M_bind, gets. rewrite Hvm, (getResourceSet_run s id raw Hs), calls_run.
  destruct (fails AddAcl); by eexists _, _.
Qed.

Lemma attachVm_run vm target s :
  (∀ id, target = Some id → is_Some (store s !! id)) →
  ∃ r s', attachVm fails vm (vmSets s !! vm) target s = (r, s') ∧ store s' = store s ∧
    vmSets s' = match r with Ok _ => partial_alter (λ _, target) vm (vmSets s) | Throw _ => vmSets s end.
Proof.
  intros Ht. unfold attachVm. unfold mbind at 1, M_bind at 1. rewrite calls_run. destruct (fails SetData) eqn:Hsd.
  { by eexists _, _. }
  unfold modify at 1. set (s1 := setData vm target s).
  assert (∃ r s2, ((if vmSets s !! vm is Some _ then calls fails RemoveAcls (modify (setAcls vm ∅)) else mret tt) ;;
     (if target is Some _ then calls fails Barrier (mret tt) ;; shareVmResourceSet fails vm else mret tt)) s1 = (r, s2) ∧
     store s2 = store s ∧ vmSets s2 = vmSets s1) as (r & s2 & Hrun & Hst & Hvm).
  { unfold mbind at 1, M_bind at 1.
    assert (∃ r s2, (if vmSets s !! vm is Some _ then calls fails RemoveAcls (modify (setAcls vm ∅)) else mret tt) s1 = (r, s2) ∧
      store s2 = store s ∧ vmSets s2 = vmSets s1) as (r1 & s2 & Hrun1 & Hst1 & Hvm1).
    { destruct (vmSets s !! vm); [rewrite calls_run; destruct (fails RemoveAcls)|]; by eexists _, _. }
    rewrite Hrun1. destruct r1 as [[]|e]; [|by eexists _, _].
    destruct target as [id|]; [|by eexists _, _]. destruct (Ht id eq_refl) as [raw Hraw].
    unfold mbind, M_bind. rewrite calls_run. destruct (fails Barrier); [by eexists _, _|]. unfold mret, M_ret.
    destruct (shareVm_run vm id raw s2) as (r3 & s3 & Hrun3 & Hst3 & Hvm3).
    - rewrite Hvm1. unfold s1. cbn. by rewrite lookup_partial_alter_eq.
    - by rewrite Hst1.
    - exists r3, s3. split_and!; [done|congruence|congruence]. }
  unfold onFailure. rewrite Hrun. destruct r as [[]|e].
  - exists (Ok tt), s2. split_and!; [done|done|by rewrite Hvm].
  - rewrite calls_run, Hundo. eexists _, _. split; [done|]. split; [done|]. cbn. rewrite Hvm. unfold s1. cbn.
    apply map_eq. intros v. destruct (decide (v = vm)) as [->|]; [by rewrite lookup_partial_alter_eq|].
    by rewrite !lookup_partial_alter_ne by done.
Qed.

(** [s'] is [s] but for who may use the VMs, and the data of [vm] when [r] succeeds; the
    usage of the set [id] lacks [f]. *)
Record moved (s : State) (vm : ident) (target : option ident) (f : ident → ident → Z) (r : result unit) (s' : State) : Prop := {
  mv_keyed : well_keyed s';
  mv_dom i : is_Some (store s' !! i) ↔ is_Some (store s !! i);
  mv_vms : vmSets s' = match r with Ok _ => partial_alter (λ _, target) vm (vmSets s) | Throw _ => vmSets s end;
  mv_used i x : used_in s' i x = used_in s i x + match r with Ok _ => f i x | Throw _ => 0 end;
  mv_limit i x : limit_in s' i x = limit_in s i x;
}.

Lemma used_in_store s s' i x : store s' = store s → used_in s' i x = used_in s i x.
Proof. intros Hs. unfold used_in, limits_in. by rewrite Hs. Qed.

Lemma attachVm_moved vm target s :
  well_keyed s → (∀ id, target = Some id → is_Some (store s !! id)) →
  ∃ r s', attachVm fails vm (vmSets s !! vm) target s = (r, s') ∧ moved s vm target (λ _ _, 0) r s'.
Proof.
  intros Hk Ht. destruct (attachVm_run vm target s Ht) as (r & s' & Hrun & Hst & Hvm). exists r, s'. split; [done|].
  split; [intros i raw; rewrite Hst; apply Hk|by intros i; rewrite Hst|done| |].
  - intros i x. rewrite (used_in_store s s') by done. destruct r; lia.
  - intros i x. unfold limit_in, limits_in. by rewrite Hst.
Qed.

(** What the set [i] has less when the VM leaves the set [o]. *)
Definition share (s : State) (vm : ident) (o : option ident) (i x : ident) : Z :=
  if decide (o = Some i ∧ is_Some (store s !! i)) then amount (computeResourcesUsage vm) x else 0.

Lemma leaveSet_moved vm target s :
  well_keyed s → (∀ id, target = Some id → is_Some (store s !! id)) →
  (∀ id r, vmSets s !! vm = Some id → is_Some (store s !! id) → amount (computeResourcesUsage vm) r ≤ used_in s id r) →
  ∃ r s', leaveSet allGroups computeResourcesUsage fails vm (vmSets s !! vm) target s = (r, s') ∧
    moved s vm target (λ i x, - share s vm (vmSets s !! vm) i x) r s'.
Proof.
  intros Hk Ht Ha. destruct (attachVm_moved vm target s Hk Ht) as (r & s' & Hrun & [H1 H2 H3 H4 H5]).
  destruct (vmSets s !! vm) as [id|] eqn:Hvm; cbn [leaveSet].
  2:{ exists r, s'. split; [done|]. by split. }
  unfold mbind at 1, M_bind at 1, gets. case_bool_decide as Hs.
  2:{ exists r, s'. split; [done|]. split; try done. intros i x. rewrite H4. destruct r; [|done].
      unfold share. rewrite decide_False by (by intros [[= ->] ?]). lia. }
  destruct Hs as [raw Hs]. clear r s' Hrun H1 H2 H3 H4 H5.
  destruct (release_run (computeResourcesUsage vm) id s raw Hk Hs (Hnonneg vm)) as (s1 & Hrun1 & Hc1); [intros x; by apply Ha|].
  unfold mbind, M_bind. rewrite Hrun1. unfold onFailure.
  destruct (attachVm_moved vm target s1) as (r & s2 & Hrun2 & Hm2); [apply Hc1|intros i Hi; by apply Hc1, Ht|].
  rewrite (cg_vms _ _ _ _ Hc1), Hvm in Hrun2. rewrite Hrun2. destruct Hc1 as [K1 D1 V1 _ U1 L1], Hm2 as [K2 D2 V2 U2 L2].
  assert (∀ i x, (if decide (i = id) then - amount (computeResourcesUsage vm) x else 0) = - share s vm (Some id) i x) as Hshare.
  { intros i x. unfold share. case_decide as Hi; [subst; rewrite decide_True by (split; [done|by rewrite Hs]); done|].
    rewrite decide_False; [lia|]. intros [[= ->] _]. done. }
  destruct r as [[]|e].
  - exists (Ok tt), s2. split; [done|]. split; [done|intros i; by rewrite D2|by rewrite V2, V1| |].
    + intros i x. rewrite U2, U1, <- Hshare. lia.
    + intros i x. by rewrite L2.
  - assert (is_Some (store s2 !! id)) as [raw2 Hs2] by (by apply D2, D1; rewrite Hs).
    pose proof (allocate_run (computeResourcesUsage vm) id true s2 raw2 K2 Hs2) as Hal.
    destruct (allocate_forced id (computeResourcesUsage vm) (limits_in s2 id)) as [l Hl]. rewrite Hl in Hal.
    destruct Hal as (s3 & Hrun3 & [K3 D3 V3 _ U3 L3] & _). rewrite Hrun3. exists (Throw e), s3. split; [done|].
    split; [done|intros i; by rewrite D3, D2|by rewrite V3, V2, V1| |].
    + intros i x. rewrite U3, U2, U1. destruct (decide (i = id)); lia.
    + intros i x. by rewrite L3, L2.
Qed.

(** A move of a VM: the sets, the data and the usage afterwards. *)
Lemma setVm_moved vm target force s :
  well_keyed s →
  (∀ id r, vmSets s !! vm = Some id → is_Some (store s !! id) → amount (computeResourcesUsage vm) r ≤ used_in s id r) →
  (∀ id, is_Some (store s !! id) → ∀ r, 0 ≤ used_in s id r) →
  ∃ r s', setVmResourceSet allGroups computeResourcesUsage fails vm target force s = (r, s') ∧
    moved s vm target (λ i x, share s vm target i x - share s vm (vmSets s !! vm) i x) r s' ∧
    (force = false → ∀ i x t, r = Ok tt → (∀ i x t, limit_in s i x = Some t → used_in s i x ≤ t) →
      limit_in s' i x = Some t → used_in s' i x ≤ t).
Proof.
  intros Hk Ha Hpos. unfold setVmResourceSet. unfold mbind at 1, M_bind at 1, gets at 1.
  case_bool_decide as Heq.
  { exists (Ok tt), s. split; [done|]. rewrite Heq. split; [|by auto]. split; try done.
    - apply map_eq. intros v. destruct (decide (v = vm)) as [->|]; [by rewrite lookup_partial_alter_eq|].
      by rewrite lookup_partial_alter_ne.
    - intros i x. lia. }
  destruct target as [id|].
  2:{ destruct (leaveSet_moved vm None s Hk) as (r & s' & Hrun & [K D V U L]); [done|done|]. exists r, s'. split; [done|].
      split.
      - by split.
      - intros _ i x t -> Hw Hl. rewrite L in Hl. rewrite U. apply Hw in Hl. unfold share. case_decide; [|lia].
        pose proof (amount_nonneg (computeResourcesUsage vm) x (Hnonneg vm)). lia. }
  destruct (store s !! id) as [raw|] eqn:Hs.
  2:{ exists (Throw (noSuchObject id)), s. split.
      { unfold allocateLimitsInResourceSet, mbind, M_bind, getResourceSet. by rewrite Hs. }
      split; [|done]. split; try done. intros i x. lia. }
  pose proof (allocate_run (computeResourcesUsage vm) id force s raw Hk Hs) as Hal.
  destruct (allocate id force (computeResourcesUsage vm) (limits_in s id)) as [l|e] eqn:El.
  2:{ exists (Throw e), s. unfold mbind, M_bind. rewrite Hal. split; [done|]. split; [|done]. split; try done. intros i x. lia. }
  destruct Hal as (s1 & Hrun1 & [K1 D1 V1 _ U1 L1] & Hlim). unfold mbind, M_bind. rewrite Hrun1.
  destruct (leaveSet_moved vm (Some id) s1 K1) as (r & s2 & Hrun2 & [K2 D2 V2 U2 L2]).
  { intros i [= <-]. apply D1. by rewrite Hs. }
  { rewrite V1. intros i x Hi Hsome%D1. rewrite U1, decide_False by congruence. rewrite Z.add_0_r. by apply Ha. }
  rewrite V1 in Hrun2, V2, U2. unfold onFailure. rewrite Hrun2.
  assert (∀ o i x, share s1 vm o i x = share s vm o i x) as Hsh.
  { intros o i x. unfold share. by apply decide_ext; rewrite D1. }
  assert (∀ i x, (if decide (i = id) then amount (computeResourcesUsage vm) x else 0) = share s vm (Some id) i x) as Hin.
  { intros i x. unfold share. case_decide as Hi; [subst; rewrite decide_True by (split; [done|by rewrite Hs]); done|].
    rewrite decide_False; [done|]. by intros [[= ->] _]. }
  destruct r as [[]|e].
  - exists (Ok tt), s2. split; [done|]. split; [split; [done|intros i; by rewrite D2|done| |]|].
    + intros i x. rewrite U2, U1, Hsh, Hin. lia.
    + intros i x. by rewrite L2.
    + intros -> i x t _ Hw Ht. rewrite U2, U1, Hsh. rewrite L2, L1 in Ht.
      assert (0 ≤ share s vm (vmSets s !! vm) i x).
      { unfold share. case_decide; [|lia]. apply amount_nonneg, Hnonneg. }
      case_decide as Hi; [|specialize (Hw i x t Ht); lia]. subst i.
      pose proof (allocate_within _ _ _ _ El (Hnonneg vm) (Hw id) x t) as Hle.
      destruct (allocate_used _ _ _ _ _ El) as [Hu Hl2]. rewrite Hl2, Hu in Hle. specialize (Hle Ht). unfold used_in. lia.
  - assert (is_Some (store s2 !! id)) as [raw2 Hs2] by (by apply D2, D1; rewrite Hs).
    destruct (release_run (computeResourcesUsage vm) id s2 raw2 K2 Hs2 (Hnonneg vm)) as (s3 & Hrun3 & [K3 D3 V3 _ U3 L3]).
    { intros x. rewrite U2, U1, decide_True by done. pose proof (Hpos id ltac:(by rewrite Hs) x). lia. }
    rewrite Hrun3. exists (Throw e), s3. split; [done|]. split; [|done].
    split; [done|intros i; by rewrite D3, D2|congruence| |].
    + intros i x. rewrite U3, U2, U1. destruct (decide (i = id)); lia.
    + intros i x. by rewrite L3, L2.
Qed.

(** No limit is exceeded. *)
Definition within (s : State) : Prop := ∀ id r t, limit_in s id r = Some t → used_in s id r ≤ t.

Lemma share_part s vm o i x : is_Some (store s !! i) → share s vm o i x = part_of i x vm o.
Proof.
  intros Hs. unfold share. destruct o as [o|]; [|done]. cbn. unfold part.
  destruct (decide (o = i)) as [->|]; [by rewrite decide_True|]. rewrite decide_False; [done|]. by intros [[= ->] _].
Qed.

Lemma accounted_pos s : accounted s → ∀ id, is_Some (store s !! id) → ∀ r, 0 ≤ used_in s id r.
Proof. intros [_ Hu] id Hs r. rewrite Hu by done. apply demand_nonneg. Qed.

Lemma accounted_vm s vm id r :
  accounted s → vmSets s !! vm = Some id → is_Some (store s !! id) → amount (computeResourcesUsage vm) r ≤ used_in s id r.
Proof.
  intros [_ Hu] Hvm Hs. rewrite Hu by done. rewrite (demand_lookup _ vm), Hvm. cbn. unfold part. rewrite decide_True by done.
  pose proof (demand_nonneg (delete vm (vmSets s)) id r). lia.
Qed.

Lemma moved_accounted s vm target r s' :
  accounted s → moved s vm target (λ i x, share s vm target i x - share s vm (vmSets s !! vm) i x) r s' → accounted s'.
Proof.
  intros [Hk Hu] [K D V U L]. split; [done|]. intros id x Hs%D. rewrite U, V, Hu by done. destruct r as [[]|e]; [|lia].
  rewrite !share_part by done. rewrite demand_alter, (demand_lookup (vmSets s) vm). lia.
Qed.

(** C25: The usage of the sets is that of their VMs, whatever calls to the XAPI or to the
    ACLs fail, but for the one that gives the VM its data back: when a move of a VM fails,
    its data and the usage of both sets are as before; when it succeeds, both are moved.
    No limit changes, and without force none is exceeded that was not.

    The ACLs are not given back ([failed_move_loses_acls]); when the data is not either, the
    VM is in a set that does not count it ([failed_undo_miscounts]). *)
Theorem setVmResourceSet_accounted vm target force s :
  accounted s →
  ∃ r s', setVmResourceSet allGroups computeResourcesUsage fails vm target force s = (r, s')
    ∧ accounted s'
    ∧ vmSets s' = match r with Ok _ => partial_alter (λ _, target) vm (vmSets s) | Throw _ => vmSets s end
    ∧ (∀ id, is_Some (store s' !! id) ↔ is_Some (store s !! id))
    ∧ (∀ id x, limit_in s' id x = limit_in s id x)
    ∧ (∀ e, r = Throw e → ∀ id x, used_in s' id x = used_in s id x)
    ∧ (force = false → within s → within s').
Proof.
  intros Ha. destruct (setVm_moved vm target force s) as (r & s' & Hrun & Hm & Hw).
  { apply Ha. } { intros id x Hvm Hs. by apply accounted_vm. } { by apply accounted_pos. }
  exists r, s'. split; [done|]. split; [by eapply moved_accounted|]. destruct Hm as [K D V U L].
  split; [done|]. split; [done|]. split; [done|]. split.
  - intros e -> id x. rewrite U. lia.
  - intros Hf Hin id x t Ht. destruct r as [[]|e]; [by apply (Hw Hf id x t)|].
    rewrite U. rewrite L in Ht. apply Hin in Ht. lia.
Qed.

(** ** Deletion *)

Lemma detach_run vm s :
  (∀ c, fails c = false) → accounted s →
  ∃ s', setVmResourceSet allGroups computeResourcesUsage fails vm None true s = (Ok tt, s') ∧ accounted s' ∧
    vmSets s' = delete vm (vmSets s) ∧ (∀ id, is_Some (store s' !! id) ↔ is_Some (store s !! id)) ∧
    ∀ id x, limit_in s' id x = limit_in s id x.
Proof.
  intros Hf Ha. destruct (setVm_moved vm None true s) as (r & s' & Hrun & Hm & _).
  { apply Ha. } { intros id x Hvm Hs. by apply accounted_vm. } { by apply accounted_pos. }
  assert (r = Ok tt) as ->.
  { assert (∀ o s, ∃ s', attachVm fails vm o None s = (Ok tt, s')) as Hatt.
    { intros o s0. unfold attachVm, mbind, M_bind, onFailure. rewrite !calls_run, Hf. unfold modify at 1.
      destruct o; [unfold calls; rewrite Hf|]; by eexists. }
    revert Hrun. unfold setVmResourceSet, mbind at 1, M_bind at 1, gets at 1. case_bool_decide; [by intros [= <-]|].
    unfold leaveSet. destruct (vmSets s !! vm) as [id|] eqn:Hvm.
    2:{ destruct (Hatt None s) as [s0 ->]. by intros [= <-]. }
    unfold mbind at 1, M_bind at 1, gets at 1. case_bool_decide as Hs.
    2:{ destruct (Hatt (Some id) s) as [s0 ->]. by intros [= <-]. }
    destruct Hs as [raw Hs]. destruct (release_run (computeResourcesUsage vm) id s raw) as (s1 & Hrun1 & _);
      [apply Ha|done|done|intros x; apply accounted_vm; [done|done|by rewrite Hs]|].
    unfold mbind, M_bind. rewrite Hrun1. unfold onFailure. destruct (Hatt (Some id) s1) as [s2 ->]. by intros [= <-]. }
  exists s'. split; [done|]. split; [by eapply moved_accounted|]. destruct Hm as [K D V U L]. split; [by rewrite V|]. done.
Qed.

(** Deleting a set moves all its VMs out of it: when no call fails, the set is gone,
    no VM refers to it, the VMs of other sets keep theirs, and the usage of the other
    sets is still that of their VMs. *)
Theorem deleteResourceSet_correct id s :
  (∀ c, fails c = false) → accounted s → is_Some (store s !! id) →
  ∃ s', deleteResourceSet allGroups computeResourcesUsage fails id s = (Ok tt, s')
    ∧ accounted s'
    ∧ (∀ i, is_Some (store s' !! i) ↔ i ≠ id ∧ is_Some (store s !! i))
    ∧ (∀ vm i, vmSets s' !! vm = Some i ↔ i ≠ id ∧ vmSets s !! vm = Some i).
Proof.
  intros Hf Ha [raw Hs]. unfold deleteResourceSet. unfold mbind at 1, M_bind at 1, gets at 1. rewrite Hs.
  set (vms := map fst (filter (λ x, x.2 = id) (map_to_list (vmSets s)))).
  assert (∀ vm, vm ∈ vms ↔ vmSets s !! vm = Some id) as Hvms.
  { intros vm. unfold vms. rewrite (list_elem_of_fmap fst). split.
    - intros ([v i] & -> & [Hi Hin]%list_elem_of_filter). cbn in *. subst i. by apply elem_of_map_to_list.
    - intros Hvm. exists (vm, id). split; [done|]. apply list_elem_of_filter. split; [done|]. by apply elem_of_map_to_list. }
  destruct (for_each_all (λ s1, accounted s1 ∧ (∀ i, is_Some (store s1 !! i) ↔ is_Some (store s !! i)) ∧
      (∀ vm i, i ≠ id → vmSets s1 !! vm = Some i ↔ vmSets s !! vm = Some i) ∧
      ∀ vm, vmSets s1 !! vm = Some id → vmSets s !! vm = Some id)
    (λ vm s1, vmSets s1 !! vm = None) (λ vm, setVmResourceSet allGroups computeResourcesUsage fails vm None true) vms s)
    as (s1 & Hrun1 & (Ha1 & Hd1 & Hv1 & Hv2) & Hnone & _).
  { intros vm s1 Hvm%Hvms (Ha1 & Hd1 & Hv1 & Hv2). destruct (detach_run vm s1 Hf Ha1) as (s2 & Hrun2 & Ha2 & Hvs & Hd2 & _).
    exists s2. split; [done|]. rewrite Hvs. split; [|split; [apply lookup_delete_eq|intros v Hv; rewrite lookup_delete_None; by right]].
    split; [done|]. split; [intros i; by rewrite Hd2|]. split.
    - intros v i Hi. rewrite lookup_delete_Some, Hv1 by done. split; [tauto|]. intros Hv. split; [congruence|done].
    - intros v [_ ?]%lookup_delete_Some. by apply Hv2. }
  { by split_and!. }
  unfold mbind, M_bind. rewrite Hrun1. unfold gets, modify. eexists. split; [done|].
  assert (∀ vm i, vmSets s1 !! vm = Some i ↔ i ≠ id ∧ vmSets s !! vm = Some i) as Hvm.
  { intros vm i. destruct (decide (i = id)) as [->|Hi]; [|rewrite Hv1 by done; tauto]. split; [|tauto].
    intros Hvm. pose proof (Hv2 vm Hvm) as Hin. rewrite Hnone in Hvm; [done|by apply Hvms]. }
  cbn [store vmSets clear del]. split; [|split; [|done]].
  - destruct Ha1 as [Hk Hu]. split.
    + intros i r. cbn. intros [_ ?]%lookup_delete_Some. by apply Hk.
    + intros i x. cbn. intros [r Hr]. apply lookup_delete_Some in Hr as [Hi Hr]. cbn. rewrite <- Hu by (by rewrite Hr).
      unfold used_in, limits_in. cbn. by rewrite lookup_delete_ne.
  - intros i. destruct (decide (i = id)) as [->|Hi].
    + rewrite lookup_delete_eq. split; [by intros [? ?]|tauto].
    + rewrite lookup_delete_ne, Hd1 by done. tauto.
Qed.

(** ** Limits *)

Lemma allocate_fits setId requests l l' r q t :
  allocate setId false requests l = Ok l' → NoDup (map fst requests) →
  (r, q) ∈ requests → limit_of l r = Some t → used l r + q ≤ t.
Proof.
  revert l. induction requests as [|[r' q'] xs IH]; intros l; [by intros _ _ ?%elem_of_nil|]. cbn [allocate].
  intros Hrun [Hr Hd]%NoDup_cons Hin Ht. apply elem_of_cons in Hin as [[= -> ->]|Hin].
  - unfold limit_of, used in *. destruct (l !! r') as [lim|]; [|done]. cbn in Ht. rewrite Ht in Hrun. cbn in Hrun.
    destruct (t <? usage lim + q') eqn:E; [done|]. lia.
  - assert (r ≠ r') by (intros ->; apply Hr, list_elem_of_fmap; by exists (r', q)).
    assert (∃ lim, allocate setId false xs (<[r' := lim]> l) = Ok l') as [lim Hl].
    { destruct (l !! r') as [lim|]; [|by eexists]. destruct (exceeds _ _ && _); [done|by eexists]. }
    pose proof (IH _ Hl Hd Hin) as Hle. rewrite limit_of_insert, used_insert, !decide_False in Hle by done. auto.
Qed.

(** C26: An allocation is made in full, when it is forced or when each resource that it
    asks for has room, and then the usage has what was asked for; otherwise nothing
    changes, and the error tells of a resource without enough room, what is left of it
    and what was asked. *)
Theorem allocateLimits_correct requests id force s raw :
  well_keyed s → store s !! id = Some raw → NoDup (map fst requests) →
  ∃ r s', allocateLimitsInResourceSet allGroups requests id force s = (r, s') ∧
    match r with
    | Ok _ => (force = true ∨ ∀ x q t, (x, q) ∈ requests → limit_in s id x = Some t → used_in s id x + q ≤ t)
        ∧ (∀ x q, (x, q) ∈ requests → used_in s' id x = used_in s id x + q)
        ∧ (∀ i x, i ≠ id ∨ x ∉ map fst requests → used_in s' i x = used_in s i x)
        ∧ (∀ i x, limit_in s' i x = limit_in s i x)
    | Throw e => s' = s ∧ force = false ∧ ∃ x q t, (x, q) ∈ requests ∧ limit_in s id x = Some t ∧
        t < used_in s id x + q ∧ e = notEnoughResources id x (t - used_in s id x) q
    end.
Proof.
  intros Hk Hs Hn. pose proof (allocate_run requests id force s raw Hk Hs) as Hal.
  destruct (allocate id force requests (limits_in s id)) as [l|e] eqn:El.
  - destruct Hal as (s' & Hrun & [K D V A U L] & _). exists (Ok tt), s'. split; [done|]. split; [|split; [|split; [|done]]].
    + destruct force; [by left|right]. intros x q t. by eapply allocate_fits.
    + intros x q Hx. rewrite U, decide_True by done. by rewrite (amount_NoDup _ _ q).
    + intros i x Hx. rewrite U. case_decide; [|lia]. destruct Hx; [done|]. rewrite amount_absent by done. lia.
  - exists (Throw e), s. split; [done|]. split; [done|]. by apply allocate_fails in El.
Qed.

(** ** Recomputation *)

Lemma used_add_usage requests l r : used (foldl add_usage l requests) r = used l r + amount requests r.
Proof.
  revert l. induction requests as [|[r' q] xs IH]; intros l; cbn [foldl]; [cbn; lia|]. rewrite IH.
  assert (used (add_usage l (r', q)) r = used l r + if decide (r' = r) then q else 0) as ->; [|cbn; unfold amount; lia].
  cbn [add_usage]. destruct (l !! r') as [lim|] eqn:E; rewrite used_insert; unfold used; cbn [usage].
  all: destruct (decide (r = r')) as [->|]; [rewrite decide_True, E by done; lia|rewrite decide_False by congruence; lia].
Qed.

Lemma limit_of_add_usage requests l r : limit_of (foldl add_usage l requests) r = limit_of l r.
Proof.
  revert l. induction requests as [|[r' q] xs IH]; intros l; cbn [foldl]; [done|]. rewrite IH. cbn [add_usage].
  destruct (l !! r') as [lim|] eqn:E; rewrite limit_of_insert; case_decide; subst; unfold limit_of; rewrite ?E; done.
Qed.

(** The usage that is counted again. *)
Definition of_vms (r : ident) : bool := VM_RESOURCES r || is_ipPool r.

Lemma used_reset l r : used (map_imap (λ id l, Some (reset_limit id l)) l) r = if of_vms r then 0 else used l r.
Proof.
  unfold used. rewrite map_lookup_imap. destruct (l !! r) as [lim|]; cbn; [|by destruct (of_vms r)].
  unfold reset_limit. fold (of_vms r). by destruct (of_vms r).
Qed.

Lemma limit_of_reset l r : limit_of (map_imap (λ id l, Some (reset_limit id l)) l) r = limit_of l r.
Proof.
  unfold limit_of. rewrite map_lookup_imap. destruct (l !! r) as [lim|]; cbn; [|done]. unfold reset_limit. by case_match.
Qed.

Lemma filter_parts vms (m : gmap ident ident) id r :
  amount (flat_map computeResourcesUsage (filter (λ vm, m !! vm = Some id) vms)) r
  = foldr (λ vm n, part_of id r vm (m !! vm) + n) 0 vms.
Proof.
  induction vms as [|vm vms IH]; [done|]. rewrite filter_cons. cbn [foldr]. rewrite <- IH. case_decide as Hm.
  - cbn [flat_map]. rewrite amount_app, Hm. cbn. unfold part. by rewrite decide_True.
  - destruct (m !! vm) as [i|]; cbn; [|lia]. unfold part. rewrite decide_False by congruence. lia.
Qed.

Lemma parts_ext vms (m1 m2 : gmap ident ident) id r :
  (∀ vm, vm ∈ vms → m1 !! vm = m2 !! vm) →
  foldr (λ vm n, part_of id r vm (m1 !! vm) + n) 0 vms = foldr (λ vm n, part_of id r vm (m2 !! vm) + n) 0 vms.
Proof.
  induction vms as [|vm vms IH]; intros Hm; [done|]. cbn [foldr]. rewrite Hm by (by left). rewrite IH; [done|].
  intros v Hv. apply Hm. by right.
Qed.

(** Each VM is counted once. *)
Lemma parts_demand vms (m : gmap ident ident) id r :
  NoDup vms → (∀ vm, is_Some (m !! vm) → vm ∈ vms) →
  foldr (λ vm n, part_of id r vm (m !! vm) + n) 0 vms = demand m id r.
Proof.
  intros Hn. revert m. induction Hn as [|vm vms Hvm _ IH]; intros m Hin.
  - assert (m = ∅) as ->; [|done]. apply map_empty. intros v. destruct (m !! v) eqn:E; [|done].
    exfalso. eapply not_elem_of_nil, Hin. by rewrite E.
  - cbn [foldr]. rewrite (demand_lookup m vm). f_equal. rewrite <- IH.
    + apply parts_ext. intros v Hv. rewrite lookup_delete_ne; [done|]. by intros ->.
    + intros v [i [Hne Hv]%lookup_delete_Some]. pose proof (Hin v ltac:(by rewrite Hv)) as Hc. apply elem_of_cons in Hc as [|]; congruence.
Qed.

Lemma recomputed_used vms s set r :
  NoDup vms → (∀ vm, is_Some (vmSets s !! vm) → vm ∈ vms) →
  used (limits (recomputed computeResourcesUsage vms s set)) r
  = (if of_vms r then 0 else used (limits set) r) + demand (vmSets s) (rs_id set) r.
Proof. intros Hn Hin. cbn. rewrite used_add_usage, used_reset, filter_parts. by rewrite parts_demand. Qed.

Lemma all_sets s set :
  well_keyed s →
  set ∈ filter (λ set : ResourceSet, true = true) (map (λ x, normalize x.2) (map_to_list (store s)))
  ↔ ∃ raw, store s !! rs_id set = Some raw ∧ set = normalize raw.
Proof.
  intros Hk. rewrite list_elem_of_filter, (list_elem_of_fmap (λ x : ident * RawSet, normalize x.2)). split.
  - intros [_ ([i raw] & -> & Hin%elem_of_map_to_list)]. cbn [snd]. exists raw. split; [|done].
    change (rs_id (normalize raw)) with (raw_id raw). by rewrite (Hk i).
  - intros (raw & Hs & ->). split; [done|]. exists (rs_id (normalize raw), raw). split; [done|]. by apply elem_of_map_to_list.
Qed.

(** Whatever the usage that is stored, counting it again gives each set what its VMs
    use of the resources of the VMs, keeps the rest of the usage, and no limit changes. *)
Theorem recompute_correct vms s :
  well_keyed s → NoDup vms → (∀ vm, is_Some (vmSets s !! vm) → vm ∈ vms) →
  ∃ s', recomputeResourceSetsLimits allGroups computeResourcesUsage vms s = (Ok tt, s')
    ∧ vmSets s' = vmSets s
    ∧ (∀ id, is_Some (store s' !! id) ↔ is_Some (store s !! id))
    ∧ ∀ id r, is_Some (store s !! id) →
        used_in s' id r = (if of_vms r then 0 else used_in s id r) + demand (vmSets s) id r
        ∧ limit_in s' id r = limit_in s id r.
Proof.
  intros Hk Hn Hin. unfold recomputeResourceSetsLimits, mbind at 1, M_bind at 1, gets at 1, getAllResourceSets.
  unfold mbind, M_bind, gets, mret, M_ret. set (f := recomputed computeResourcesUsage vms s).
  match goal with |- context [for_each ?x _] => set (sets := x) end.
  assert (∀ set, set ∈ sets ↔ ∃ raw, store s !! rs_id set = Some raw ∧ set = normalize raw) as Hsets by (intros; by apply all_sets).
  destruct (for_each_all (λ w, vmSets w = vmSets s ∧ ∀ id, is_Some (store w !! id) ↔ is_Some (store s !! id))
    (λ set w, set ∈ sets → store w !! rs_id set = Some (to_raw (f set))) (λ set, save allGroups (f set)) sets s)
    as (s' & Hrun & [Hv Hd] & Hq & _).
  { intros set w Hset [Hv Hd]. destruct (save_run (f set) w) as [c Hrun]. rewrite Hrun. eexists. split; [done|].
    pose proof Hset as (raw & Hraw & Heq)%Hsets. change (rs_id (f set)) with (rs_id set). cbn [store vmSets clear put].
    split; [split; [done|]|split].
    - intros i. destruct (decide (i = rs_id set)) as [->|]; [|by rewrite lookup_insert_ne].
      rewrite lookup_insert_eq, Hraw. by split.
    - intros _. apply lookup_insert_eq.
    - intros y Hy Hys. destruct (decide (rs_id set = rs_id y)) as [E|]; [|rewrite lookup_insert_ne; auto].
      apply Hsets in Hys as (raw' & Hraw' & Heq'). rewrite <- E in Hraw'.
      assert (y = set) as -> by congruence. apply lookup_insert_eq. }
  { done. }
  exists s'. split; [exact Hrun|]. split; [done|]. split; [done|]. intros id r [raw Hs].
  assert (rs_id (normalize raw) = id) as Hid by by apply Hk.
  assert (normalize raw ∈ sets) as Hset by (apply Hsets; exists raw; by rewrite Hid).
  specialize (Hq _ Hset Hset). rewrite Hid in Hq. unfold used_in, limit_in, limits_in. rewrite Hq, Hs, normalize_to_raw.
  unfold f. rewrite recomputed_used, Hid by done. split; [done|]. cbn. by rewrite limit_of_add_usage, limit_of_reset.
Qed.
End facts.

(** ** A server with two sets and a VM *)

Definition one_cpus (vm : ident) : list (ident * Z) := [(js "cpus", 2)].
Definition no_failure (c : call) : bool := false.

Definition two_sets : State :=
  mkState
    {[ js "a" := mkRaw (js "a") None (Some {[ js "cpus" := Obj (Some 4) (Some 2) ]}) None None (Some [js "u"; js "u"]) None None;
       js "b" := mkRaw (js "b") None (Some {[ js "cpus" := Bare 2 ]}) None None (Some [js "w"]) None None ]}
    {[ js "vm" := js "a" ]} {[ js "vm" := {[ js "u" ]} ]} [].

Lemma one_cpus_nonneg vm : nonneg (one_cpus vm).
Proof. by repeat constructor. Defined.

Lemma two_sets_lookup id :
  store two_sets !! id = if decide (id = js "a") then store two_sets !! js "a"
    else if decide (id = js "b") then store two_sets !! js "b" else None.
Proof.
  destruct (decide (id = js "a")) as [->|Ha]; [done|]. destruct (decide (id = js "b")) as [->|Hb]; [done|].
  unfold two_sets. cbn [store]. rewrite lookup_insert_ne by done. by rewrite lookup_singleton_ne.
Defined.

Lemma two_sets_keyed : well_keyed two_sets.
Proof.
  intros id set. rewrite two_sets_lookup. destruct (decide (id = js "a")) as [->|Ha]; [by intros [= <-]|].
  destruct (decide (id = js "b")) as [->|Hb]; [by intros [= <-]|done].
Defined.

Lemma two_sets_ids id : is_Some (store two_sets !! id) → id = js "a" ∨ id = js "b".
Proof.
  rewrite two_sets_lookup. destruct (decide (id = js "a")); [by left|]. destruct (decide (id = js "b")); [by right|].
  by intros [? ?].
Defined.

Lemma used_singleton r lim r' : used {[r := lim]} r' = if decide (r' = r) then usage lim else 0.
Proof. unfold used. case_decide; [subst; by rewrite lookup_singleton_eq|by rewrite lookup_singleton_ne]. Defined.

Lemma two_sets_accounted : accounted one_cpus two_sets.
Proof.
  split; [exact two_sets_keyed|]. intros id r Hid%two_sets_ids.
  assert (demand one_cpus (vmSets two_sets) id r = part one_cpus id r (js "vm") (js "a") + 0) as ->.
  { change (vmSets two_sets) with (<[js "vm" := js "a"]> (∅ : gmap ident ident)). by rewrite demand_insert. }
  destruct Hid as [-> | ->]; unfold used_in, part.
  - assert (limits_in two_sets (js "a") = {[js "cpus" := mkLimit (Some 4) 2]}) as -> by reflexivity.
    rewrite decide_True, used_singleton by done. unfold one_cpus, amount. cbn [foldr fst snd usage].
    destruct (decide (r = js "cpus")) as [->|]; [by rewrite decide_True|by rewrite decide_False by congruence].
  - assert (limits_in two_sets (js "b") = {[js "cpus" := mkLimit (Some 2) 0]}) as -> by reflexivity.
    rewrite decide_False, used_singleton by done. by case_decide.
Defined.

Definition barrier_fails (c : call) : bool := match c with Barrier => true | _ => false end.

Lemma setVmResourceSet_accounted_witness :
  ∃ r s', setVmResourceSet ∅ one_cpus barrier_fails (js "vm") (Some (js "b")) false two_sets = (r, s')
    ∧ accounted one_cpus s'
    ∧ vmSets s' = match r with Ok _ => partial_alter (λ _, Some (js "b")) (js "vm") (vmSets two_sets) | Throw _ => vmSets two_sets end
    ∧ (∀ id, is_Some (store s' !! id) ↔ is_Some (store two_sets !! id))
    ∧ (∀ id x, limit_in s' id x = limit_in two_sets id x)
    ∧ (∀ e, r = Throw e → ∀ id x, used_in s' id x = used_in two_sets id x)
    ∧ (false = false → within two_sets → within s').
Proof. apply (setVmResourceSet_accounted ∅ one_cpus barrier_fails one_cpus_nonneg); [reflexivity|exact two_sets_accounted]. Defined.

Lemma deleteResourceSet_correct_witness :
  ∃ s', deleteResourceSet ∅ one_cpus no_failure (js "a") two_sets = (Ok tt, s')
    ∧ accounted one_cpus s'
    ∧ (∀ i, is_Some (store s' !! i) ↔ i ≠ js "a" ∧ is_Some (store two_sets !! i))
    ∧ (∀ vm i, vmSets s' !! vm = Some i ↔ i ≠ js "a" ∧ vmSets two_sets !! vm = Some i).
Proof.
  apply (deleteResourceSet_correct ∅ one_cpus no_failure one_cpus_nonneg); [done|done|exact two_sets_accounted|by eexists].
Defined.

Lemma allocateLimits_correct_witness :
  ∃ r s', allocateLimitsInResourceSet ∅ [(js "cpus", 3)] (js "a") false two_sets = (r, s') ∧
    match r with
    | Ok _ => (false = true ∨ ∀ x q t, (x, q) ∈ [(js "cpus", 3)] → limit_in two_sets (js "a") x = Some t →
          used_in two_sets (js "a") x + q ≤ t)
        ∧ (∀ x q, (x, q) ∈ [(js "cpus", 3)] → used_in s' (js "a") x = used_in two_sets (js "a") x + q)
        ∧ (∀ i x, i ≠ js "a" ∨ x ∉ map fst [(js "cpus", 3)] → used_in s' i x = used_in two_sets i x)
        ∧ (∀ i x, limit_in s' i x = limit_in two_sets i x)
    | Throw e => s' = two_sets ∧ false = false ∧ ∃ x q t, (x, q) ∈ [(js "cpus", 3)] ∧ limit_in two_sets (js "a") x = Some t ∧
        t < used_in two_sets (js "a") x + q ∧ e = notEnoughResources (js "a") x (t - used_in two_sets (js "a") x) q
    end.
Proof.
  eapply (allocateLimits_correct ∅); [exact two_sets_keyed|reflexivity|].
  apply NoDup_singleton.
Defined.

Lemma recompute_correct_witness :
  ∃ s', recomputeResourceSetsLimits ∅ one_cpus [js "vm"] two_sets = (Ok tt, s')
    ∧ vmSets s' = vmSets two_sets
    ∧ (∀ id, is_Some (store s' !! id) ↔ is_Some (store two_sets !! id))
    ∧ ∀ id r, is_Some (store two_sets !! id) →
        used_in s' id r = (if of_vms r then 0 else used_in two_sets id r) + demand one_cpus (vmSets two_sets) id r
        ∧ limit_in s' id r = limit_in two_sets id r.
Proof.
  apply (recompute_correct ∅ one_cpus); [exact two_sets_keyed|apply NoDup_singleton|].
  intros vm [i Hvm]. change (({[js "vm" := js "a"]} : gmap ident ident) !! vm = Some i) in Hvm.
  apply lookup_singleton_Some in Hvm as [<- _]. by left.
Defined.

(** ** Behaviours that the theorems leave out *)

(** A new limit drops what is used ([updateResourceSet] keeps it). *)
Example addLimit_drops_usage :
  used_in (addLimitToResourceSet ∅ (js "cpus") 8 (js "a") two_sets).2 (js "a") (js "cpus") = 0.
Proof. vm_compute. reflexivity. Qed.

(** [updateResourceSet] reads the set, and an allocation is made before it saves it: the
    allocation is lost. *)
Example update_loses_allocation :
  match getResourceSet (js "a") two_sets with
  | (Ok set, s) =>
      let s1 := (allocateLimitsInResourceSet ∅ [(js "cpus", 2)] (js "a") false s).2 in
      let s2 := (save ∅ (applyChanges (mkChanges (Some (js "new name")) None None None None None None) set) s1).2 in
      (used_in s1 (js "a") (js "cpus"), used_in s2 (js "a") (js "cpus"))
  | _ => (0, 0)
  end = (4, 2).
Proof. vm_compute. reflexivity. Qed.

(** A subject that is listed twice hides the one that replaces it. *)
Example duplicate_hides_subject :
  sameMembers [js "u"; js "u"] [js "u"; js "w"] = true ∧
  cleared (updateResourceSet ∅ (js "a") (mkChanges None (Some [js "u"; js "w"]) None None None None None) two_sets).2 = [].
Proof. split; vm_compute; reflexivity. Qed.

(** When a move fails after the ACLs of the VM were removed, they are not given back. *)
Example failed_move_loses_acls :
  let '(r, s) := setVmResourceSet ∅ one_cpus barrier_fails
    (js "vm") (Some (js "b")) false two_sets in
  r = Throw (OtherError "call failed") ∧ vmSets s = vmSets two_sets ∧ acls s !! js "vm" = Some ∅.
Proof. split; [|split]; vm_compute; reflexivity. Qed.

(** When the data of the VM is not given back either, the set that it is in does not count
    it, and the one that it has left does. *)
Example failed_undo_miscounts :
  let '(r, s) := setVmResourceSet ∅ one_cpus (λ c, match c with Barrier | RestoreData => true | _ => false end)
    (js "vm") (Some (js "b")) false two_sets in
  r = Throw (OtherError "call failed") ∧ vmSets s !! js "vm" = Some (js "b") ∧
  used_in s (js "a") (js "cpus") = demand one_cpus (vmSets two_sets) (js "a") (js "cpus") ∧
  used_in s (js "b") (js "cpus") ≠ demand one_cpus (vmSets s) (js "b") (js "cpus").
Proof. vm_compute. split_and!; done. Qed.
