(* ===== verification/IpPools.v ===== *)
(** * IP pools: the addresses that the VIFs use

    [ip-pools.mjs] of xo-server: which VIF has which address of a pool, counted in the
    resource set of its VM.

    The resource sets are seen through the interface [Quotas], of which those of
    [ResourceSets.v] are an instance.  The VIFs, their networks and their VMs are those
    of the XAPI.  The operations run one after the other; an allocation that is not
    awaited is run where it is called, and what it throws is dropped. *)

From stdpp Require Import gmap list.
From S2P Require Import Prelude JsValues ResourceSets.

Local Open Scope Z_scope.

(** ** What the pools need of the resource sets *)

Class Quotas (Q : Type) := {
  q_allocate : list (ident * Z) → ident → M Q unit;
  q_removeLimit : ident → ident → M Q unit;
  q_removeIpPool : ident → ident → M Q unit;
  q_sets : Q → list ident;
  q_setOf : Q → ident → option ident;
  q_usage : Q → ident → ident → Z;
  q_inv : Q → Prop;
}.

(** [unchanged_but q q' f]: as [q], but the usage, where [f] tells the change. *)
Record unchanged_but {Q} `{Quotas Q} (q q' : Q) (f : ident → ident → Z) : Prop := {
  ub_inv : q_inv q';
  ub_sets id : id ∈ q_sets q' ↔ id ∈ q_sets q;
  ub_setOf vm : q_setOf q' vm = q_setOf q vm;
  ub_usage id r : q_usage q' id r = q_usage q id r + f id r;
}.

Class QuotasLaws (Q : Type) `{Quotas Q} := {
  allocate_law requests set q : q_inv q →
    match q_allocate requests set q with
    | (Ok _, q') => set ∈ q_sets q ∧ unchanged_but q q' (λ id r, if decide (id = set) then amount requests r else 0)
    | (Throw _, q') => q' = q
    end;
  removeLimit_law r set q : q_inv q → set ∈ q_sets q →
    ∃ q', q_removeLimit r set q = (Ok tt, q') ∧
      unchanged_but q q' (λ id r', if decide (id = set ∧ r' = r) then - q_usage q id r' else 0);
  removeIpPool_law pool set q : q_inv q → set ∈ q_sets q →
    ∃ q', q_removeIpPool pool set q = (Ok tt, q') ∧ unchanged_but q q' (λ _ _, 0);
}.

(** ** Pools *)

Record AddressData := mkAddress { vifs : option (list ident) }.

(** [vifs] of an address, none when it is undefined. *)
Definition users (d : AddressData) : list ident := default [] (vifs d).

Record IpPool := mkPool {
  addresses : option (gmap ident AddressData);
  pool_id : ident;
  pool_name : option jstring;
  networks : option (list ident);
  resourceSets : option (list ident);
}.

Definition normalizePool (p : IpPool) : IpPool :=
  mkPool (addresses p) (pool_id p) (Some (default [] (pool_name p))) (networks p) (resourceSets p).

Definition with_addresses (p : IpPool) (a : option (gmap ident AddressData)) : IpPool :=
  mkPool a (pool_id p) (pool_name p) (networks p) (resourceSets p).

Record Vif := mkVif {
  vif_VM : ident;
  vif_network : ident;
  allowedIpv4Addresses : list ident;
  allowedIpv6Addresses : list ident;
}.

Definition ipPoolKey (id : ident) : ident := js "ipPool:" ++ id.
Definition noSuchIpPool (id : ident) : error := XoError 1 [id; js "ipPool"].

Section operations.
Context {Q : Type} `{Quotas Q}.

(** [objects]: the VIFs. *)
Record State := mkState { store : gmap ident IpPool; objects : gmap ident Vif; quotas : Q }.

Definition set_store (st : gmap ident IpPool) (s : State) : State := mkState st (objects s) (quotas s).
Definition set_objects (o : gmap ident Vif) (s : State) : State := mkState (store s) o (quotas s).
Definition set_quotas (q : Q) (s : State) : State := mkState (store s) (objects s) q.

(** An operation of the resource sets. *)
Definition on_quotas {A} (m : M Q A) : M State A := λ s, let '(r, q) := m (quotas s) in (r, set_quotas q s).

Definition save (p : IpPool) : M State unit :=
  modify (λ s, set_store (<[pool_id p := normalizePool p]> (store s)) s).

Definition getIpPool (id : ident) : M State IpPool := λ s,
  match store s !! id with
  | Some p => (Ok (normalizePool p), s)
  | None => (Throw (noSuchIpPool id), s)
  end.

(** [id] is a fresh identifier. *)
Definition createIpPool (id : ident) (addresses : option (gmap ident AddressData)) (name : option jstring)
    (networks : option (list ident)) : M State ident :=
  save (mkPool addresses id name networks None) ;; mret id.

Definition _isAddressInIpPool (address network : ident) (p : IpPool) : bool :=
  match addresses p, networks p with
  | Some a, Some n => bool_decide (is_Some (a !! address)) && bool_decide (network ∈ n)
  | _, _ => false
  end.

(** The first pool, in the order of the store. *)
Definition _getAddressIpPool (s : State) (address network : ident) : option IpPool :=
  head (filter (λ p, _isAddressInIpPool address network p = true) (map snd (map_to_list (store s)))).

Definition pools_of_vif (s : State) (vif : Vif) : list ident :=
  omap (λ address, pool_id <$> _getAddressIpPool s address (vif_network vif))
    (allowedIpv4Addresses vif ++ allowedIpv6Addresses vif).

(** [countBy] *)
Definition countBy (keys : list ident) : list (ident * Z) :=
  map (λ k, (k, Z.of_nat (length (filter (k =.) keys)))) (remove_dups keys).

Fixpoint pools_of_vifs (s : State) (vifIds : list ident) : result (list ident) :=
  match vifIds with
  | [] => Ok []
  | v :: rest =>
      match objects s !! v with
      | Some vif => ps ← pools_of_vifs s rest; mret (pools_of_vif s vif ++ ps)
      | None => Throw (XoError 1 [v])
      end
  end.

Definition computeVmIpPoolsUsage (vifIds : list ident) : M State (list (ident * Z)) := λ s,
  (ps ← pools_of_vifs s vifIds; mret (countBy (map ipPoolKey ps)), s).

(** ** Allocation

    The addresses, the allocations and whether something changed. *)

Abbreviation progress := (gmap ident AddressData * Z * bool)%type.

Definition release_address (vifId : ident) (acc : progress) (address : ident) : progress :=
  let '(a, allocations, changed) := acc in
  match a !! address with
  | Some (mkAddress (Some l)) =>
      match list_find (vifId =.) l with
      | Some (i, _) => (<[address := mkAddress (Some (delete i l))]> a, allocations - 1, true)
      | None => acc
      end
  | _ => acc
  end.

Definition claim_address (vifId : ident) (acc : progress) (address : ident) : progress :=
  let '(a, allocations, changed) := acc in
  match a !! address with
  | Some data =>
      let l := default [] (vifs data) in
      if bool_decide (vifId ∈ l) then acc
      else (<[address := mkAddress (Some (l ++ [vifId]))]> a, allocations + 1, true)
  | None => acc
  end.

Definition allocInPool (vifId network : ident) (add remove : list ident) (p : IpPool) : option (IpPool * Z) :=
  match addresses p, networks p with
  | Some a, Some n =>
      if bool_decide (network ∈ n) then
        let '(a', allocations, changed) :=
          foldl (claim_address vifId) (foldl (release_address vifId) (a, 0, false) remove) add in
        if changed : bool then Some (with_addresses p (Some a'), allocations) else None
      else None
  | _, _ => None
  end.

Definition allocIpAddresses (vifId : ident) (addAddresses removeAddresses : list ident) : M State unit :=
  s ← gets (λ s, s);
  match objects s !! vifId with
  | None => lift (Throw (XoError 1 [vifId]))
  | Some vif =>
      let updated := omap (λ x, allocInPool vifId (vif_network vif) addAddresses removeAddresses x.2) (map_to_list (store s)) in
      let limits := map (λ x, (ipPoolKey (pool_id x.1), x.2)) updated in
      match q_setOf (quotas s) (vif_VM vif) with
      | Some set => on_quotas (q_allocate limits set)
      | None => mret tt
      end ;;
      for_each updated (λ x, save x.1)
  end.

(** ** Removal of addresses *)

(** The addresses of each VIF, from the VIFs of each address. *)
Definition add_vif_address (m : gmap ident (list ident)) (x : ident * list ident) : gmap ident (list ident) :=
  foldl (λ m v, <[v := default [] (m !! v) ++ [x.1]]> m) m x.2.
Definition mapVifAddresses (mapAddressVifs : gmap ident (list ident)) : gmap ident (list ident) :=
  foldl add_vif_address ∅ (map_to_list mapAddressVifs).

Definition remaining (removed l : list ident) : list ident := filter (λ a, a ∉ removed) l.

(** [remove] changes the lists of the VIF in place: those that are released are the ones
    that are left.  Nothing awaits the allocation. *)
Definition removeFromVif (x : ident * list ident) : M State unit := λ s,
  match objects s !! x.1 with
  | None => (Ok tt, s)
  | Some vif =>
      let v4 := remaining x.2 (allowedIpv4Addresses vif) in
      let v6 := remaining x.2 (allowedIpv6Addresses vif) in
      let s1 := set_objects (<[x.1 := mkVif (vif_VM vif) (vif_network vif) v4 v6]> (objects s)) s in
      (Ok tt, (allocIpAddresses x.1 [] (v4 ++ v6) s1).2)
  end.

(** A VIF that cannot be edited does not stop the others. *)
Context (editVif_fails : ident → bool).

Definition _removeIpAddressesFromVifs (mapAddressVifs : gmap ident (list ident)) : M State unit :=
  let vs := map_to_list (mapVifAddresses mapAddressVifs) in
  s ← gets (λ s, s);
  for_each vs removeFromVif ;;
  if existsb (λ x, bool_decide (is_Some (objects s !! x.1)) && editVif_fails x.1) vs
  then lift (Throw (OtherError "editVif failed")) else mret tt.

Definition deleteIpPool (id : ident) : M State unit :=
  s ← gets (λ s, s);
  match store s !! id with
  | None => lift (Throw (noSuchIpPool id))
  | Some _ =>
      for_each (q_sets (quotas s)) (λ set,
        on_quotas (q_removeLimit (ipPoolKey id) set) ;; on_quotas (q_removeIpPool id set)) ;;
      p ← getIpPool id;
      _removeIpAddressesFromVifs (users <$> default ∅ (addresses p)) ;;
      modify (λ s, set_store (delete id (store s)) s)
  end.

(** The deleted addresses are given with their data instead of their VIFs: what is taken
    for an identifier is the text of the array of the VIFs. *)
Definition data_values (d : AddressData) : list ident :=
  match vifs d with Some l => [join (js ",") l] | None => [] end.

(** [None] is [null]: the address is removed. *)
Definition patch_addresses (patch : list (ident * option AddressData)) (a : gmap ident AddressData) : gmap ident AddressData :=
  foldl (λ a x, partial_alter (λ _, x.2) x.1 a) a patch.

Definition updateIpPool (id : ident) (patch : option (list (ident * option AddressData))) (name : option jstring)
    (newNetworks newSets : option (list ident)) : M State unit :=
  p ← getIpPool id;
  let name' := match name with Some _ => name | None => pool_name p end in
  let networks' := match newNetworks with Some _ => newNetworks | None => networks p end in
  let sets' := match newSets with Some _ => newSets | None => resourceSets p end in
  match patch with
  | Some patch =>
      let previous := default ∅ (addresses p) in
      let a := patch_addresses patch previous in
      _removeIpAddressesFromVifs (data_values <$> filter (λ x, a !! x.1 = None) previous) ;;
      save (mkPool (if bool_decide (a = ∅) then None else Some a) (pool_id p) name' networks' sets')
  | None => save (mkPool (addresses p) (pool_id p) name' networks' sets')
  end.
End operations.
Arguments State Q : clear implicits.

(** ** The addresses of a VIF *)

(** The VIF has the address. *)
Definition has_address (a : gmap ident AddressData) (v address : ident) : Prop :=
  ∃ d, a !! address = Some d ∧ v ∈ users d.

(** How many addresses the VIF has. *)
Definition held (a : gmap ident AddressData) (v : ident) : Z :=
  map_sum (λ _ d, if bool_decide (v ∈ users d) then 1 else 0) a.

Definition unique (a : gmap ident AddressData) : Prop := ∀ address d, a !! address = Some d → NoDup (users d).

Lemma held_replace a v address d d' :
  a !! address = Some d →
  held (<[address := d']> a) v = held a v + (if bool_decide (v ∈ users d') then 1 else 0) - (if bool_decide (v ∈ users d) then 1 else 0).
Proof. intros Hd. unfold held. by rewrite (map_sum_replace _ a address d d'). Qed.

Lemma has_address_replace a v address d d' x :
  a !! address = Some d → has_address (<[address := d']> a) v x ↔ if decide (x = address) then v ∈ users d' else has_address a v x.
Proof.
  intros Hd. unfold has_address. case_decide as Hx; [subst x|].
  - rewrite lookup_insert_eq. split; [by intros (? & [= <-] & ?)|by eexists].
  - by rewrite lookup_insert_ne.
Qed.

Lemma unique_replace a address d' : unique a → NoDup (users d') → unique (<[address := d']> a).
Proof. intros Hu Hd x d. rewrite lookup_insert_Some. intros [[_ <-]|[_ ?]]; [done|by eapply Hu]. Qed.

(** [b] is [a], where the addresses of [v] are those of [has]. *)
Record changed_for (v : ident) (a b : gmap ident AddressData) (n : Z) (has : ident → Prop) : Prop := {
  cf_unique : unique b;
  cf_dom x : is_Some (b !! x) ↔ is_Some (a !! x);
  cf_own x : has_address b v x ↔ has x;
  cf_others w x : w ≠ v → has_address b w x ↔ has_address a w x;
  cf_held : held b v = held a v + n;
  cf_held_others w : w ≠ v → held b w = held a w;
}.

Lemma changed_for_refl v a : unique a → changed_for v a a 0 (has_address a v).
Proof. intros Hu. by split; [| | | |lia|]. Qed.

Lemma changed_for_trans v a b c n m P R :
  changed_for v a b n P → changed_for v b c m R → changed_for v a c (n + m) R.
Proof.
  intros [] []. split; [done|..].
  - intros x. by rewrite cf_dom1.
  - done.
  - intros w x Hw. by rewrite cf_others1, cf_others0.
  - lia.
  - intros w Hw. by rewrite cf_held_others1, cf_held_others0.
Qed.

Lemma changed_for_iff v a b n P R : changed_for v a b n P → (∀ x, P x ↔ R x) → changed_for v a b n R.
Proof. intros [] Hpr. split; try done. intros x. by rewrite cf_own0, Hpr. Qed.

Lemma changed_for_replace v a address d d' :
  unique a → a !! address = Some d → NoDup (users d') → (∀ w, w ≠ v → w ∈ users d' ↔ w ∈ users d) →
  changed_for v a (<[address := d']> a)
    ((if bool_decide (v ∈ users d') then 1 else 0) - (if bool_decide (v ∈ users d) then 1 else 0))
    (λ x, if decide (x = address) then v ∈ users d' else has_address a v x).
Proof.
  intros Hu Hd Hn Hw. split.
  - by apply unique_replace.
  - intros x. destruct (decide (x = address)) as [->|]; [rewrite lookup_insert_eq, Hd; by split|by rewrite lookup_insert_ne].
  - intros x. by rewrite (has_address_replace a v address d).
  - intros w x Hne. rewrite (has_address_replace a w address d) by done. case_decide as Hx; [subst x|done]. rewrite Hw by done.
    split; [by exists d|]. intros (d0 & Hd0 & ?). congruence.
  - rewrite (held_replace a v address d) by done. lia.
  - intros w Hne. rewrite (held_replace a w address d) by done. rewrite (bool_decide_ext _ _ (Hw w Hne)). lia.
Qed.

Lemma release_address_ok v a n c x b n' c' :
  unique a → release_address v (a, n, c) x = (b, n', c') →
  changed_for v a b (n' - n) (λ y, has_address a v y ∧ y ≠ x) ∧ (c' = false → c = false ∧ b = a).
Proof.
  intros Hu. cbn [release_address].
  assert (¬ has_address a v x → changed_for v a a (n - n) (λ y, has_address a v y ∧ y ≠ x)) as Hsame.
  { intros Hx. rewrite Z.sub_diag. apply (changed_for_iff _ _ _ _ _ _ (changed_for_refl v a Hu)). intros y. split; [|tauto].
    intros Hy. split; [done|]. by intros ->. }
  destruct (a !! x) as [[[l|]]|] eqn:E.
  2,3: intros [= <- <- <-]; split; [apply Hsame|by auto]; intros (d & Hd & Hv); rewrite E in Hd; simplify_eq/=; by apply elem_of_nil in Hv.
  destruct (list_find (v =.) l) as [[i y]|] eqn:F.
  2:{ intros [= <- <- <-]. split; [|by auto]. apply Hsame. intros (d & Hd & Hv). rewrite E in Hd. simplify_eq/=.
      apply list_find_None in F. rewrite Forall_forall in F. by apply (F v). }
  intros [= <- <- <-]. split; [|done]. apply list_find_Some in F as (Hi & <- & _).
  pose proof (Hu _ _ E) as Hn. unfold users in Hn. cbn in Hn.
  pose proof (delete_Permutation l i v Hi) as Hp. rewrite Hp in Hn. apply NoDup_cons in Hn as [Hnv Hn].
  assert (∀ w, w ∈ delete i l ↔ w ∈ l ∧ w ≠ v) as Hdel.
  { intros w. rewrite Hp at 2. rewrite elem_of_cons. split; [intros Hw; split; [by right|by intros ->]|by intros [[?|?] ?]]. }
  pose proof (changed_for_replace v a x _ (mkAddress (Some (delete i l))) Hu E) as Hc. unfold users in Hc. cbn in Hc.
  rewrite (bool_decide_eq_true_2 (v ∈ l)), (bool_decide_eq_false_2 (v ∈ delete i l)) in Hc.
  - replace (n - 1 - n) with (0 - 1) by lia. eapply changed_for_iff; [apply Hc|].
    + done.
    + intros w Hw. rewrite Hdel. tauto.
    + intros y. cbn. case_decide; [subst y; rewrite Hdel; tauto|tauto].
  - rewrite Hdel. tauto.
  - by eapply list_elem_of_lookup_2.
Qed.

Lemma claim_address_ok v a n c x b n' c' :
  unique a → claim_address v (a, n, c) x = (b, n', c') →
  changed_for v a b (n' - n) (λ y, has_address a v y ∨ y = x ∧ is_Some (a !! x)) ∧ (c' = false → c = false ∧ b = a).
Proof.
  intros Hu. cbn [claim_address]. destruct (a !! x) as [d|] eqn:E.
  2:{ intros [= <- <- <-]. split; [|by auto]. rewrite Z.sub_diag. eapply changed_for_iff; [by apply changed_for_refl|].
      intros y. split; [by left|]. by intros [?|[_ [??]]]. }
  case_bool_decide as Hv; fold (users d) in *.
  { intros [= <- <- <-]. split; [|by auto]. rewrite Z.sub_diag. eapply changed_for_iff; [by apply changed_for_refl|].
    intros y. split; [by left|]. intros [?|[-> _]]; [done|]. by exists d. }
  intros [= <- <- <-]. split; [|done]. replace (n + 1 - n) with (1 - 0) by lia.
  pose proof (changed_for_replace v a x d (mkAddress (Some (users d ++ [v]))) Hu E) as Hc. unfold users at 1 2 3 4 5 in Hc. cbn in Hc.
  rewrite (bool_decide_eq_false_2 (v ∈ users d)), (bool_decide_eq_true_2 (v ∈ users d ++ [v])) in Hc; [|set_solver|done].
  eapply changed_for_iff; [apply Hc|].
  - apply NoDup_app. split; [by eapply Hu|]. split; [|apply NoDup_singleton]. intros w Hw ->%list_elem_of_singleton. done.
  - intros w Hw. set_solver.
  - intros y. cbn. case_decide; [subst y|].
    + split; [by right|]. set_solver.
    + tauto.
Qed.

Lemma release_all_ok v xs : ∀ a n c b n' c',
  unique a → foldl (release_address v) (a, n, c) xs = (b, n', c') →
  changed_for v a b (n' - n) (λ y, has_address a v y ∧ y ∉ xs) ∧ (c' = false → c = false ∧ b = a).
Proof.
  induction xs as [|x xs IH]; intros a n c b n' c' Hu.
  { intros [= <- <- <-]. split; [|by auto]. rewrite Z.sub_diag. eapply changed_for_iff; [by apply changed_for_refl|].
    intros y. split; [|tauto]. split; [done|apply not_elem_of_nil]. }
  change (foldl (release_address v) (a, n, c) (x :: xs)) with (foldl (release_address v) (release_address v (a, n, c) x) xs).
  destruct (release_address v (a, n, c) x) as [[a1 n1] c1] eqn:E. intros Hrun.
  apply release_address_ok in E as [H1 Hc1]; [|done]. apply IH in Hrun as [H2 Hc2]; [|by destruct H1]. split.
  - replace (n' - n) with ((n1 - n) + (n' - n1)) by lia. eapply changed_for_iff; [by eapply changed_for_trans|].
    intros y. cbn. rewrite (cf_own _ _ _ _ _ H1), not_elem_of_cons. tauto.
  - intros [Hc ->]%Hc2. by apply Hc1.
Qed.

Lemma claim_all_ok v xs : ∀ a n c b n' c',
  unique a → foldl (claim_address v) (a, n, c) xs = (b, n', c') →
  changed_for v a b (n' - n) (λ y, has_address a v y ∨ y ∈ xs ∧ is_Some (a !! y)) ∧ (c' = false → c = false ∧ b = a).
Proof.
  induction xs as [|x xs IH]; intros a n c b n' c' Hu.
  { intros [= <- <- <-]. split; [|by auto]. rewrite Z.sub_diag. eapply changed_for_iff; [by apply changed_for_refl|].
    intros y. split; [by left|]. by intros [?|[?%not_elem_of_nil _]]. }
  change (foldl (claim_address v) (a, n, c) (x :: xs)) with (foldl (claim_address v) (claim_address v (a, n, c) x) xs).
  destruct (claim_address v (a, n, c) x) as [[a1 n1] c1] eqn:E. intros Hrun.
  apply claim_address_ok in E as [H1 Hc1]; [|done]. apply IH in Hrun as [H2 Hc2]; [|by destruct H1]. split.
  - replace (n' - n) with ((n1 - n) + (n' - n1)) by lia. eapply changed_for_iff; [by eapply changed_for_trans|].
    intros y. cbn. rewrite (cf_own _ _ _ _ _ H1), (cf_dom _ _ _ _ _ H1), elem_of_cons. intuition (subst; auto).
  - intros [Hc ->]%Hc2. by apply Hc1.
Qed.

(** ** One pool *)

Definition pool_addresses (p : IpPool) : gmap ident AddressData := default ∅ (addresses p).
Definition on_network (network : ident) (p : IpPool) : Prop := is_Some (addresses p) ∧ network ∈ default [] (networks p).

(** What a VIF has of the pool, once [add] is added and [remove] removed. *)
Definition wanted (v network : ident) (add remove : list ident) (p : IpPool) (x : ident) : Prop :=
  has_address (pool_addresses p) v x ∧ ¬ (on_network network p ∧ x ∈ remove)
  ∨ on_network network p ∧ x ∈ add ∧ is_Some (pool_addresses p !! x).

Definition allocations (o : option (IpPool * Z)) : Z := match o with Some (_, n) => n | None => 0 end.
Definition new_pool (p : IpPool) (o : option (IpPool * Z)) : IpPool :=
  match o with Some (p', _) => normalizePool p' | None => p end.

Lemma allocInPool_ok v network add remove p :
  unique (pool_addresses p) →
  let o := allocInPool v network add remove p in
  changed_for v (pool_addresses p) (pool_addresses (new_pool p o)) (allocations o) (wanted v network add remove p)
  ∧ pool_id (new_pool p o) = pool_id p ∧ networks (new_pool p o) = networks p.
Proof.
  intros Hu. unfold allocInPool. unfold pool_addresses in *.
  assert (¬ on_network network p → changed_for v (default ∅ (addresses p)) (default ∅ (addresses p)) 0 (wanted v network add remove p)) as Hoff.
  { intros Hn. eapply changed_for_iff; [by apply changed_for_refl|]. intros x. unfold wanted. tauto. }
  destruct (addresses p) as [a|] eqn:Ea; cbn [default] in *.
  2:{ split; [|done]. cbn. rewrite Ea. apply Hoff. unfold on_network. rewrite Ea. by intros [[??] _]. }
  destruct (networks p) as [nw|] eqn:En.
  2:{ split; [|by cbn]. cbn. rewrite Ea. apply Hoff. unfold on_network. rewrite En. by intros [_ ?%not_elem_of_nil]. }
  case_bool_decide as Hin.
  2:{ split; [|by cbn]. cbn. rewrite Ea. apply Hoff. unfold on_network. rewrite En. by intros [_ ?]. }
  assert (on_network network p) as Hon by (unfold on_network; by rewrite Ea, En).
  destruct (foldl (release_address v) (a, 0, false) remove) as [[a1 n1] c1] eqn:E1.
  destruct (foldl (claim_address v) (a1, n1, c1) add) as [[a2 n2] c2] eqn:E2.
  apply release_all_ok in E1 as [H1 Hc1]; [|done]. apply claim_all_ok in E2 as [H2 Hc2]; [|by destruct H1].
  assert (changed_for v a a2 n2 (wanted v network add remove p)) as Hch.
  { replace n2 with ((n1 - 0) + (n2 - n1)) by lia. eapply changed_for_iff; [by eapply changed_for_trans|].
    intros x. cbn. rewrite (cf_own _ _ _ _ _ H1), (cf_dom _ _ _ _ _ H1). unfold wanted, pool_addresses. rewrite Ea. cbn. tauto. }
  destruct c2; (split; [|by cbn]); cbn; rewrite ?Ea; [done|]. destruct (Hc2 eq_refl) as [Hf ->]. destruct (Hc1 Hf) as [_ ->].
  destruct Hch. cbn in *. split; try done. lia.
Qed.

Section facts.
Context {Q : Type} `{QuotasLaws Q}.
Implicit Types s : State Q.

Record pools_ok s : Prop := {
  po_keyed id p : store s !! id = Some p → pool_id p = id;
  po_unique id p : store s !! id = Some p → unique (pool_addresses p);
  po_quotas : q_inv (quotas s);
}.

Definition alloc_store (v network : ident) (add remove : list ident) (st : gmap ident IpPool) : gmap ident IpPool :=
  (λ p, new_pool p (allocInPool v network add remove p)) <$> st.

Lemma allocInPool_id v network add remove p p' n : allocInPool v network add remove p = Some (p', n) → pool_id p' = pool_id p.
Proof. unfold allocInPool. repeat case_match; try done. by intros [= <- _]. Qed.

Lemma pool_saved p s : save p s = (Ok tt, set_store (<[pool_id p := normalizePool p]> (store s)) s).
Proof. done. Qed.

(** All the pools that changed are stored. *)
Lemma save_updated v network add remove s (st : gmap ident IpPool) :
  store s = st → (∀ id p, st !! id = Some p → pool_id p = id) →
  ∃ s', for_each (omap (λ x, allocInPool v network add remove x.2) (map_to_list st)) (λ x, save x.1) s = (Ok tt, s') ∧
    s' = set_store (alloc_store v network add remove st) s.
Proof.
  intros Hst Hk. set (updated := omap _ _).
  assert (∀ x, x ∈ updated ↔ ∃ p, st !! pool_id x.1 = Some p ∧ allocInPool v network add remove p = Some x) as Hup.
  { intros [p' n]. unfold updated. rewrite list_elem_of_omap. split.
    - intros ([id p] & Hin%elem_of_map_to_list & Ha). cbn in *. exists p. rewrite (allocInPool_id _ _ _ _ _ _ _ Ha).
      by rewrite (Hk _ _ Hin).
    - intros (p & Hp & Ha). exists (pool_id p', p). split; [by apply elem_of_map_to_list|done]. }
  destruct (for_each_all (λ w, objects w = objects s ∧ quotas w = quotas s ∧
      ∀ id, (∀ x, x ∈ updated → pool_id x.1 ≠ id) → store w !! id = st !! id)
    (λ x w, x ∈ updated → store w !! pool_id x.1 = Some (normalizePool x.1)) (λ x, save x.1) updated s)
    as (s' & Hrun & (Ho & Hq & Hrest) & Hall & _).
  { intros x w Hx (Ho & Hq & Hrest). eexists. split; [apply pool_saved|]. cbn. split; [|split].
    - split; [done|]. split; [done|]. intros id Hid. rewrite lookup_insert_ne by (by apply Hid). by apply Hrest.
    - intros _. apply lookup_insert_eq.
    - intros y Hy Hyu. destruct (decide (pool_id x.1 = pool_id y.1)) as [E|]; [|rewrite lookup_insert_ne; auto].
      apply Hup in Hx as (p & Hp & Ha), Hyu as (p' & Hp' & Ha'). rewrite <- E in *. assert (x = y) as <- by congruence.
      apply lookup_insert_eq. }
  { split; [done|]. split; [done|]. intros. by rewrite Hst. }
  exists s'. split; [done|]. destruct s' as [st' o q]. cbn in *. subst o q. unfold set_store. f_equal.
  apply map_eq. intros id. unfold alloc_store. rewrite lookup_fmap. destruct (st !! id) as [p|] eqn:Hp; cbn.
  2:{ rewrite Hrest; [done|]. intros x (p & Hx & _)%Hup E. rewrite E in Hx. congruence. }
  destruct (allocInPool v network add remove p) as [[p' n]|] eqn:Ha; cbn.
  - assert (pool_id p' = id) as Hid by (rewrite (allocInPool_id _ _ _ _ _ _ _ Ha); by apply Hk).
    rewrite <- Hid. apply (Hall (p', n)); apply Hup; exists p; cbn; by rewrite Hid.
  - rewrite Hrest; [done|]. intros x (p' & Hx & Ha')%Hup E. rewrite E in Hx. congruence.
Qed.

#[export] Instance ipPoolKey_inj : Inj (=) (=) ipPoolKey.
Proof. intros a b. unfold ipPoolKey. by intros ?%app_inv_head. Qed.

Definition limits_of (v network : ident) (add remove : list ident) (st : gmap ident IpPool) : list (ident * Z) :=
  map (λ x, (ipPoolKey (pool_id x.1), x.2)) (omap (λ x, allocInPool v network add remove x.2) (map_to_list st)).

(** What is asked of a set for a pool. *)
Lemma limits_amount v network add remove st id :
  (∀ id p, st !! id = Some p → pool_id p = id) →
  amount (limits_of v network add remove st) (ipPoolKey id)
  = match st !! id with Some p => allocations (allocInPool v network add remove p) | None => 0 end.
Proof.
  intros Hk. rewrite <- (map_sum_single (λ p, allocations (allocInPool v network add remove p))), map_sum_foldr.
  unfold limits_of. assert (∀ x, x ∈ map_to_list st → pool_id x.2 = x.1) as Hid.
  { intros [k p] Hin%elem_of_map_to_list. by apply Hk. }
  induction (map_to_list st) as [|[k p] l IH]; [done|]. csimpl.
  rewrite <- IH by (intros x Hx; apply Hid; by right). pose proof (Hid (k, p) ltac:(by left)) as Hp. cbn in Hp.
  destruct (allocInPool v network add remove p) as [[p' n]|] eqn:Ha; cbn [allocations].
  - rewrite map_cons, amount_cons. cbn [fst snd]. rewrite (allocInPool_id _ _ _ _ _ _ _ Ha), Hp. f_equal.
    destruct (decide (k = id)) as [->|]; [by rewrite decide_True|]. rewrite decide_False; [done|]. by intros ?%(inj _).
  - by case_decide.
Qed.

Lemma allocIpAddresses_run v vif add remove s :
  pools_ok s → objects s !! v = Some vif →
  ∃ r s', allocIpAddresses v add remove s = (r, s') ∧ objects s' = objects s ∧
    match r with
    | Ok _ => store s' = alloc_store v (vif_network vif) add remove (store s) ∧
        match q_setOf (quotas s) (vif_VM vif) with
        | Some set => unchanged_but (quotas s) (quotas s') (λ id r,
            if decide (id = set) then amount (limits_of v (vif_network vif) add remove (store s)) r else 0)
        | None => quotas s' = quotas s
        end
    | Throw _ => s' = s
    end.
Proof.
  intros [Hk Hu Hq] Hv. unfold allocIpAddresses. unfold mbind at 1, M_bind at 1, gets at 1. rewrite Hv.
  fold (limits_of v (vif_network vif) add remove (store s)).
  destruct (q_setOf (quotas s) (vif_VM vif)) as [set|] eqn:Hset.
  - unfold mbind, M_bind, on_quotas.
    pose proof (allocate_law (limits_of v (vif_network vif) add remove (store s)) set (quotas s) Hq) as Hlaw.
    destruct (q_allocate _ set (quotas s)) as [[[]|e] q].
    + destruct Hlaw as [_ Hub].
      destruct (save_updated v (vif_network vif) add remove (set_quotas q s) (store s)) as (s' & Hrun & ->); [done|done|].
      by eexists (Ok tt), _.
    + subst q. exists (Throw e), s. by destruct s.
  - unfold mbind, M_bind, mret, M_ret.
    destruct (save_updated v (vif_network vif) add remove s (store s)) as (s' & Hrun & ->); [done|done|].
    by eexists (Ok tt), _.
Qed.

(** ** Allocation *)

Definition pool_held s (id v : ident) : Z :=
  match store s !! id with Some p => held (pool_addresses p) v | None => 0 end.

(** The usage of a pool in each set is the number of its addresses that the VIFs of the
    VMs of the set have. *)
Definition balanced_at s (id : ident) : Prop :=
  ∀ set, set ∈ q_sets (quotas s) → q_usage (quotas s) set (ipPoolKey id)
    = map_sum (λ v vif, if decide (q_setOf (quotas s) (vif_VM vif) = Some set) then pool_held s id v else 0) (objects s).
Definition balanced s : Prop := ∀ id, balanced_at s id.

Lemma alloc_store_lookup v network add remove st id :
  alloc_store v network add remove st !! id = (λ p, new_pool p (allocInPool v network add remove p)) <$> st !! id.
Proof. apply lookup_fmap. Qed.

Lemma alloc_store_ok v network add remove s s' :
  pools_ok s → store s' = alloc_store v network add remove (store s) → q_inv (quotas s') → pools_ok s'.
Proof.
  intros [Hk Hu Hq] Hst Hq'. split; [| |done]; intros id p; rewrite Hst, alloc_store_lookup, fmap_Some; intros (p0 & Hp & ->);
    destruct (allocInPool_ok v network add remove p0 (Hu _ _ Hp)) as (Hc & Hid & _); [rewrite Hid; by apply Hk|by destruct Hc].
Qed.

Lemma pool_held_own v network add remove s s' id :
  pools_ok s → store s' = alloc_store v network add remove (store s) →
  pool_held s' id v = pool_held s id v + amount (limits_of v network add remove (store s)) (ipPoolKey id).
Proof.
  intros [Hk Hu _] Hst. rewrite limits_amount by done. unfold pool_held. rewrite Hst, alloc_store_lookup.
  destruct (store s !! id) as [p|] eqn:Hp; cbn; [|done].
  destruct (allocInPool_ok v network add remove p (Hu _ _ Hp)) as (Hc & _). apply Hc.
Qed.

Lemma pool_held_other v network add remove s s' id w :
  pools_ok s → store s' = alloc_store v network add remove (store s) → w ≠ v → pool_held s' id w = pool_held s id w.
Proof.
  intros [_ Hu _] Hst Hw. unfold pool_held. rewrite Hst, alloc_store_lookup. destruct (store s !! id) as [p|] eqn:Hp; cbn; [|done].
  destruct (allocInPool_ok v network add remove p (Hu _ _ Hp)) as (Hc & _). by apply Hc.
Qed.

Lemma allocation_balanced v vif add remove s s' id :
  pools_ok s → objects s !! v = Some vif → objects s' = objects s →
  store s' = alloc_store v (vif_network vif) add remove (store s) →
  match q_setOf (quotas s) (vif_VM vif) with
  | Some set => unchanged_but (quotas s) (quotas s') (λ id r,
      if decide (id = set) then amount (limits_of v (vif_network vif) add remove (store s)) r else 0)
  | None => quotas s' = quotas s
  end → balanced_at s id → balanced_at s' id.
Proof.
  intros Hok Hv Ho Hst Hq Hb set Hset. rewrite Ho.
  assert (∀ o, q_setOf (quotas s') o = q_setOf (quotas s) o) as Hof.
  { intros o. destruct (q_setOf (quotas s) (vif_VM vif)); [apply Hq|by rewrite Hq]. }
  assert (set ∈ q_sets (quotas s)) as Hin.
  { destruct (q_setOf (quotas s) (vif_VM vif)); [by apply Hq|by rewrite <- Hq]. }
  rewrite (map_sum_change _ (λ v vif, if decide (q_setOf (quotas s) (vif_VM vif) = Some set) then pool_held s id v else 0) _ v vif).
  - rewrite <- (Hb set Hin), Hof, (pool_held_own _ _ _ _ s s' id Hok Hst).
    destruct (q_setOf (quotas s) (vif_VM vif)) as [o|]; [destruct Hq as [_ _ _ ->]|rewrite Hq, !decide_False by done; lia].
    destruct (decide (set = o)) as [->|]; [rewrite !decide_True by done; lia|].
    rewrite !decide_False by congruence. lia.
  - done.
  - intros w vif' Hw _. by rewrite Hof, (pool_held_other _ _ _ _ s s' id w Hok Hst).
Qed.

(** C27: When the addresses of a VIF change, each pool of its network has the VIF at the
    addresses that are added, and at those it had that are not removed; other VIFs and
    other pools are as before, and the usage of the pools stays the number of addresses
    in use.  When the set of the VM has no room, nothing changes. *)
Theorem allocIpAddresses_correct v vif add remove s :
  pools_ok s → objects s !! v = Some vif →
  ∃ r s', allocIpAddresses v add remove s = (r, s') ∧ pools_ok s' ∧ objects s' = objects s ∧ (balanced s → balanced s') ∧
    match r with
    | Ok _ => ∀ id p, store s !! id = Some p → ∃ p', store s' !! id = Some p' ∧
        (∀ x, has_address (pool_addresses p') v x ↔ wanted v (vif_network vif) add remove p x) ∧
        (∀ w x, w ≠ v → has_address (pool_addresses p') w x ↔ has_address (pool_addresses p) w x)
    | Throw _ => s' = s
    end.
Proof.
  intros Hok Hv. destruct (allocIpAddresses_run v vif add remove s Hok Hv) as (r & s' & Hrun & Ho & Hr).
  exists r, s'. split; [done|]. destruct r as [[]|e]; [|by subst]. destruct Hr as [Hst Hq]. split; [|split; [done|split]].
  - eapply alloc_store_ok; [done|done|]. destruct (q_setOf _ _); [by destruct Hq|rewrite Hq; apply Hok].
  - intros Hb id. by eapply allocation_balanced.
  - intros id p Hp. rewrite Hst, alloc_store_lookup, Hp. eexists. split; [done|].
    destruct (allocInPool_ok v (vif_network vif) add remove p) as (Hc & _); [by eapply Hok|]. split; apply Hc.
Qed.

(** ** Removal *)

Lemma foldl_add_vif (l : list ident) (address : ident) : ∀ (m : gmap ident (list ident)) v x,
  x ∈ default [] (foldl (λ m v, <[v := default [] (m !! v) ++ [address]]> m) m l !! v)
  ↔ x ∈ default [] (m !! v) ∨ v ∈ l ∧ x = address.
Proof.
  induction l as [|w l IH]; intros m v x; cbn [foldl]; [rewrite elem_of_nil; tauto|]. rewrite IH, elem_of_cons.
  destruct (decide (v = w)) as [->|Hw]; [rewrite lookup_insert_eq|rewrite lookup_insert_ne by done]; cbn; [|tauto].
  rewrite elem_of_app, list_elem_of_singleton. tauto.
Qed.

Lemma foldl_add_vif_address (l : list (ident * list ident)) : ∀ m v x,
  x ∈ default [] (foldl add_vif_address m l !! v) ↔ x ∈ default [] (m !! v) ∨ ∃ vs, (x, vs) ∈ l ∧ v ∈ vs.
Proof.
  induction l as [|[y d] l IH]; intros m v x; cbn [foldl].
  { split; [by left|]. intros [?|(? & ?%elem_of_nil & _)]; done. }
  rewrite IH. unfold add_vif_address. rewrite foldl_add_vif. cbn. split.
  - intros [[?|[? ->]]|(d' & ? & ?)]; [by left|right; exists d|right; exists d']; rewrite elem_of_cons; auto.
  - intros [?|(d' & [[= -> ->]|?]%elem_of_cons & ?)]; [by left; left|by left; right|right; by exists d'].
Qed.

Lemma mapVifAddresses_lookup a v x : x ∈ default [] (mapVifAddresses (users <$> a) !! v) ↔ has_address a v x.
Proof.
  unfold mapVifAddresses. rewrite foldl_add_vif_address, lookup_empty. cbn. rewrite elem_of_nil. unfold has_address. split.
  - intros [?|(vs & Hd%elem_of_map_to_list & Hv)]; [done|]. rewrite lookup_fmap, fmap_Some in Hd.
    destruct Hd as (d & Hd & ->). by exists d.
  - intros (d & Hd & Hv). right. exists (users d). by rewrite elem_of_map_to_list, lookup_fmap, Hd.
Qed.

Lemma release_none v xs : ∀ a n c,
  (∀ x, x ∈ xs → ¬ has_address a v x) → foldl (release_address v) (a, n, c) xs = (a, n, c).
Proof.
  induction xs as [|x xs IH]; intros a n c Hx; [done|].
  change (foldl (release_address v) (a, n, c) (x :: xs)) with (foldl (release_address v) (release_address v (a, n, c) x) xs).
  assert (release_address v (a, n, c) x = (a, n, c)) as ->; [|apply IH; intros y Hy; apply Hx; by right].
  cbn [release_address]. destruct (a !! x) as [[[l|]]|] eqn:E; [|done|done].
  destruct (list_find (v =.) l) as [[i y]|] eqn:F; [|done]. apply list_find_Some in F as (Hi & <- & _).
  destruct (Hx x ltac:(by left)). exists (mkAddress (Some l)). split; [done|]. cbn. by eapply list_elem_of_lookup_2.
Qed.

Lemma allocInPool_none v network remove p :
  (∀ x, x ∈ remove → ¬ has_address (pool_addresses p) v x) → allocInPool v network [] remove p = None.
Proof.
  intros Hx. unfold allocInPool, pool_addresses in *. destruct (addresses p) as [a|]; [|done]. destruct (networks p); [|done].
  case_bool_decide; [|done]. cbn [default foldl] in *. by rewrite release_none.
Qed.

Lemma balanced_at_objects s v vif vif' id :
  objects s !! v = Some vif → vif_VM vif' = vif_VM vif → balanced_at s id →
  balanced_at (set_objects (<[v := vif']> (objects s)) s) id.
Proof.
  intros Hv Hvm Hb set Hset. cbn [quotas objects set_objects] in *. rewrite (map_sum_replace _ _ v vif) by done. rewrite Hvm, (Hb set Hset).
  unfold pool_held. cbn [store set_objects]. lia.
Qed.

Definition allowed (vif : Vif) : list ident := allowedIpv4Addresses vif ++ allowedIpv6Addresses vif.

Lemma elem_of_remaining xs l x : x ∈ remaining xs l ↔ x ∈ l ∧ x ∉ xs.
Proof. unfold remaining. rewrite list_elem_of_filter. tauto. Qed.

(** The pool [id] is not counted any more, the others are, and the VIFs of [s] lack some
    of their addresses of [a]. *)
Record removing (a : gmap ident AddressData) (id : ident) s w : Prop := {
  rm_ok : pools_ok w;
  rm_pool : store w !! id = store s !! id;
  rm_dom i : is_Some (store w !! i) ↔ is_Some (store s !! i);
  rm_sets set : set ∈ q_sets (quotas w) ↔ set ∈ q_sets (quotas s);
  rm_zero set : set ∈ q_sets (quotas w) → q_usage (quotas w) set (ipPoolKey id) = 0;
  rm_balanced i : i ≠ id → balanced_at s i → balanced_at w i;
  rm_vifs v vif : objects s !! v = Some vif → ∃ vif', objects w !! v = Some vif' ∧ vif_VM vif' = vif_VM vif ∧
    vif_network vif' = vif_network vif ∧ (∀ x, x ∈ allowed vif' → x ∈ allowed vif) ∧
    (∀ x, x ∈ allowed vif → ¬ has_address a v x → x ∈ allowed vif');
  rm_none v : objects s !! v = None → objects w !! v = None;
}.

Lemma removeFromVif_ok a id s w v xs :
  removing a id s w → (∀ p, store s !! id = Some p → pool_addresses p = a) → (∀ x, x ∈ xs ↔ has_address a v x) →
  ∃ w', removeFromVif (v, xs) w = (Ok tt, w') ∧ removing a id s w' ∧
    (∀ vif, objects w' !! v = Some vif → ∀ x, x ∈ xs → x ∉ allowed vif) ∧
    ∀ y vif', objects w' !! y = Some vif' → ∃ vif, objects w !! y = Some vif ∧ ∀ x, x ∈ allowed vif' → x ∈ allowed vif.
Proof.
  intros [Hok Hpool Hdom Hsets Hzero Hb Hvifs Hnone] Ha Hxs. unfold removeFromVif. cbn [fst snd].
  destruct (objects w !! v) as [vif|] eqn:Hv.
  2:{ exists w. split; [done|]. split; [by split|]. split; [intros vif; by rewrite Hv|]. intros y vif' ?. by exists vif'. }
  set (vif1 := mkVif _ _ _ _). set (w1 := set_objects _ w). set (rem := remaining xs _ ++ remaining xs _).
  assert (∀ x, x ∈ rem ↔ x ∈ allowed vif ∧ x ∉ xs) as Hrem.
  { intros x. unfold rem, allowed. rewrite !elem_of_app, !elem_of_remaining. tauto. }
  assert (objects w1 !! v = Some vif1) as Hv1 by apply lookup_insert_eq.
  assert (pools_ok w1) as Hok1 by (destruct Hok; by split).
  destruct (allocIpAddresses_run v vif1 [] rem w1 Hok1 Hv1) as (r & w2 & Hrun & Ho & Hr). rewrite Hrun. cbn [snd].
  exists w2. split; [done|].
  assert (∀ i, i ≠ id → balanced_at s i → balanced_at w1 i) as Hb1.
  { intros i Hi Hbi. apply (balanced_at_objects w v vif vif1); auto. }
  assert (∀ p, store w1 !! id = Some p → allocInPool v (vif_network vif1) [] rem p = None) as Hno.
  { intros p Hp. apply allocInPool_none. intros x [_ Hx]%Hrem Hhas. apply Hx, Hxs.
    change (store w1) with (store w) in Hp. rewrite Hpool in Hp. by rewrite <- (Ha p Hp). }
  assert (pools_ok w2 ∧ store w2 !! id = store w !! id ∧ (∀ i, is_Some (store w2 !! i) ↔ is_Some (store w !! i)) ∧
    (∀ set, set ∈ q_sets (quotas w2) ↔ set ∈ q_sets (quotas w)) ∧
    (∀ set, q_usage (quotas w2) set (ipPoolKey id) = q_usage (quotas w) set (ipPoolKey id)) ∧
    ∀ i, balanced_at w1 i → balanced_at w2 i) as (K2 & P2 & D2 & S2 & Z2 & B2).
  { destruct r as [[]|e]; [|by subst w2]. destruct Hr as [Hst Hq]. split; [|split; [|split; [|split; [|split]]]].
    - eapply alloc_store_ok; [done|done|]. destruct (q_setOf _ _); [by destruct Hq|rewrite Hq; apply Hok].
    - rewrite Hst, alloc_store_lookup. change (store w1) with (store w) in *. destruct (store w !! id) as [p|] eqn:Hp; cbn; [|done].
      by rewrite Hno.
    - intros i. rewrite Hst, alloc_store_lookup. apply fmap_is_Some.
    - intros set. destruct (q_setOf _ _); [by apply Hq|by rewrite Hq].
    - intros set. destruct (q_setOf _ _); [|by rewrite Hq]. destruct Hq as [_ _ _ ->]. case_decide; [|apply Z.add_0_r].
      rewrite limits_amount by apply Hok1. destruct (store w1 !! id) as [p|] eqn:Hp; [rewrite Hno by done|]; apply Z.add_0_r.
    - intros i Hi. eapply allocation_balanced; eauto. }
  assert (∀ x, x ∈ allowed vif1 ↔ x ∈ allowed vif ∧ x ∉ xs) as Hvif1 by apply Hrem.
  change (objects w1) with (<[v := vif1]> (objects w)) in Ho, Hv1. split; [split|split].
  - done.
  - congruence.
  - intros i. by rewrite D2.
  - intros set. by rewrite S2.
  - intros set Hs. rewrite Z2. by apply Hzero, S2.
  - auto.
  - intros y vif0 Hy. destruct (Hvifs y vif0 Hy) as (vif' & Hy' & Hvm & Hnw & H1 & H2). destruct (decide (y = v)) as [->|].
    + rewrite Ho, lookup_insert_eq. exists vif1. assert (vif' = vif) as -> by congruence. split_and!; [done..| |].
      * intros x [Hx _]%Hvif1. auto.
      * intros x Hx Hno'. apply Hvif1. split; [auto|]. by rewrite Hxs.
    + rewrite Ho, lookup_insert_ne by done. by exists vif'.
  - intros y Hy. rewrite Ho. destruct (decide (y = v)) as [->|]; [|rewrite lookup_insert_ne; auto]. apply Hnone in Hy. congruence.
  - intros vif0. rewrite Ho, Hv1. intros [= <-] x Hx. rewrite Hvif1. tauto.
  - intros y vif'. rewrite Ho. destruct (decide (y = v)) as [->|]; [|rewrite lookup_insert_ne by done; intros ?; by exists vif'].
    rewrite lookup_insert_eq. intros [= <-]. exists vif. split; [done|]. by intros x [Hx _]%Hvif1.
Qed.

Lemma forget_pool_ok id s :
  pools_ok s →
  ∃ q, for_each (q_sets (quotas s)) (λ set,
         on_quotas (q_removeLimit (ipPoolKey id) set) ;; on_quotas (q_removeIpPool id set)) s = (Ok tt, set_quotas q s)
    ∧ q_inv q ∧ (∀ set, set ∈ q_sets q ↔ set ∈ q_sets (quotas s)) ∧ (∀ vm, q_setOf q vm = q_setOf (quotas s) vm)
    ∧ (∀ set, set ∈ q_sets (quotas s) → q_usage q set (ipPoolKey id) = 0)
    ∧ ∀ set i, i ≠ id → q_usage q set (ipPoolKey i) = q_usage (quotas s) set (ipPoolKey i).
Proof.
  intros [_ _ Hq]. set (sets := q_sets (quotas s)).
  destruct (for_each_all (λ w, ∃ q, w = set_quotas q s ∧ q_inv q ∧ (∀ set, set ∈ q_sets q ↔ set ∈ sets) ∧
      (∀ vm, q_setOf q vm = q_setOf (quotas s) vm) ∧
      ∀ set i, i ≠ id → q_usage q set (ipPoolKey i) = q_usage (quotas s) set (ipPoolKey i))
    (λ set w, q_usage (quotas w) set (ipPoolKey id) = 0)
    (λ set, on_quotas (q_removeLimit (ipPoolKey id) set) ;; on_quotas (q_removeIpPool id set)) sets s)
    as (w & Hrun & (q & -> & Hiq & Hsets & Hof & Hus) & Hz & _).
  { intros set w Hset (q & -> & Hiq & Hsets & Hof & Hus).
    destruct (removeLimit_law (ipPoolKey id) set q Hiq) as (q1 & Hq1 & [I1 S1 O1 U1]); [by apply Hsets|].
    destruct (removeIpPool_law id set q1 I1) as (q2 & Hq2 & [I2 S2 O2 U2]); [by apply S1, Hsets|].
    exists (set_quotas q2 s). split.
    { unfold mbind, M_bind, on_quotas. cbn [quotas set_quotas]. rewrite Hq1. cbn [quotas set_quotas]. by rewrite Hq2. }
    split; [exists q2; split; [done|]; split; [done|]; split; [intros x; by rewrite S2, S1|]; split; [intros x; by rewrite O2, O1|]|split].
    - intros x i Hi. rewrite U2, U1, decide_False, Hus by (done || by intros [_ ?%(inj _)]). lia.
    - cbn [quotas set_quotas]. rewrite U2, U1, decide_True by done. lia.
    - intros y. cbn [quotas set_quotas]. intros Hy. rewrite U2, U1, Hy. case_decide; lia. }
  { exists (quotas s). by destruct s. }
  exists q. split_and!; [done..| |done]. intros set Hset. apply (Hz set Hset).
Qed.

(** Deleting a pool ends: the pool is gone, it is counted in no set, no VIF has its
    addresses any more, and keeps those of other pools; the usage of the other pools is
    still the number of addresses in use. *)
Theorem deleteIpPool_correct id p s :
  pools_ok s → store s !! id = Some p →
  ∃ s', deleteIpPool (λ _, false) id s = (Ok tt, s') ∧ pools_ok s' ∧ (balanced s → balanced s')
    ∧ (∀ i, is_Some (store s' !! i) ↔ i ≠ id ∧ is_Some (store s !! i))
    ∧ (∀ set, set ∈ q_sets (quotas s) → q_usage (quotas s') set (ipPoolKey id) = 0)
    ∧ ∀ v vif, objects s !! v = Some vif → ∃ vif', objects s' !! v = Some vif' ∧
        ∀ x, x ∈ allowed vif' ↔ x ∈ allowed vif ∧ ¬ has_address (pool_addresses p) v x.
Proof.
  intros Hok Hp. unfold deleteIpPool. unfold mbind at 1, M_bind at 1, gets at 1. rewrite Hp.
  destruct (forget_pool_ok id s Hok) as (q & Hrun1 & Hiq & Hsets & Hof & Hz & Hus). unfold mbind at 1, M_bind at 1. rewrite Hrun1.
  unfold mbind at 1, M_bind at 1, getIpPool at 1. cbn [store set_quotas]. rewrite Hp.
  set (a := pool_addresses p). change (default ∅ (addresses (normalizePool p))) with a.
  destruct (for_each_all (removing a id s) (λ x w, ∀ vif, objects w !! x.1 = Some vif → ∀ y, y ∈ x.2 → y ∉ allowed vif)
    removeFromVif (map_to_list (mapVifAddresses (users <$> a))) (set_quotas q s)) as (w & Hrun & Hw & Hall & _).
  { intros [v xs] w Hin%elem_of_map_to_list Hw. destruct (removeFromVif_ok a id s w v xs Hw) as (w' & Hr & Hw' & Hout & Hsub).
    - intros p'. rewrite Hp. by intros [= <-].
    - intros x. rewrite <- mapVifAddresses_lookup, Hin. done.
    - exists w'. split_and!; [done..|]. intros y Hy vif' (vif & Hv & Hsv)%Hsub x Hx Hxa. by eapply (Hy vif Hv x Hx), Hsv. }
  { destruct Hok as [Hk Hu _]. split; cbn [store objects quotas set_quotas]; [by split|done|done|done|..].
    - intros set Hs. by apply Hz, Hsets.
    - intros i Hi Hb set Hs. cbn [store objects quotas set_quotas] in *. rewrite Hus by done.
      rewrite (Hb set ltac:(by apply Hsets)). apply map_sum_ext. intros v vif _. by rewrite Hof.
    - intros v vif Hv. by exists vif.
    - done. }
  unfold _removeIpAddressesFromVifs, mbind, M_bind, gets. rewrite Hrun.
  assert (∀ l : list (ident * list ident), existsb (λ x, bool_decide (is_Some (objects (set_quotas q s) !! x.1)) && false) l = false) as ->.
  { intros l. induction l as [|x l IH]; [done|]. cbn. by rewrite andb_false_r. }
  unfold mret, M_ret, modify. eexists. split; [done|]. destruct Hw as [[Hk Hu Hqw] Hpool Hdom Hsw Hzw Hbw Hvw _].
  split; [|split; [|split; [|split]]].
  - split; [..|done]; intros i r; cbn; intros [_ ?]%lookup_delete_Some; eauto.
  - intros Hb i set Hs. cbn in Hs. destruct (decide (i = id)) as [->|Hi].
    + rewrite (map_sum_ext _ (λ _ _, 0)); [|intros v vif _; unfold pool_held; cbn [store set_store]; rewrite lookup_delete_eq; by case_decide].
      rewrite map_sum_zero. by apply Hzw.
    + rewrite <- (map_sum_ext (λ v vif, if decide (q_setOf (quotas w) (vif_VM vif) = Some set) then pool_held w i v else 0)).
      * by apply Hbw.
      * intros v vif _. unfold pool_held. cbn [store set_store quotas]. by rewrite lookup_delete_ne.
  - intros i. cbn [store set_store]. destruct (decide (i = id)) as [->|Hi].
    + rewrite lookup_delete_eq. split; [by intros [? ?]|tauto].
    + rewrite lookup_delete_ne, Hdom by done. cbn. tauto.
  - intros set Hs. cbn [quotas set_store]. by apply Hzw, Hsw.
  - intros v vif Hv. destruct (Hvw v vif Hv) as (vif' & Hv' & _ & _ & H1 & H2). exists vif'. split; [done|]. intros x. split.
    + intros Hx. split; [auto|]. intros Hxa. apply mapVifAddresses_lookup in Hxa. destruct (mapVifAddresses (users <$> a) !! v) as [xs|] eqn:E; [|by apply elem_of_nil in Hxa].
      eapply (Hall (v, xs)); [by apply elem_of_map_to_list|exact Hv'|done|done].
    + intros [??]. auto.
Qed.
End facts.

(** ** The resource sets are such quotas *)

Section resource_sets.
Context (allGroups : gmap ident (list ident)) (force : bool).

#[local] Instance resource_sets_quotas : Quotas ResourceSets.State := {
  q_allocate requests set := allocateLimitsInResourceSet allGroups requests set force;
  q_removeLimit r set := removeLimitFromResourceSet allGroups r set;
  q_removeIpPool pool set := removeIpPoolFromResourceSet allGroups pool set;
  q_sets s := map fst (map_to_list (ResourceSets.store s));
  q_setOf s vm := vmSets s !! vm;
  q_usage := used_in;
  q_inv := well_keyed;
}.

Lemma elem_of_sets s id : id ∈ q_sets s ↔ is_Some (ResourceSets.store s !! id).
Proof.
  cbn. rewrite (list_elem_of_fmap fst). split.
  - intros ([i set] & -> & Hin%elem_of_map_to_list). by exists set.
  - intros [set Hs]. exists (id, set). by rewrite elem_of_map_to_list.
Qed.

(** Storing a set of another usage. *)
Lemma save_usage s set f :
  well_keyed s → is_Some (ResourceSets.store s !! rs_id set) →
  (∀ r, used (limits set) r = used_in s (rs_id set) r + f (rs_id set) r) → (∀ id r, id ≠ rs_id set → f id r = 0) →
  ∃ s', ResourceSets.save allGroups set s = (Ok tt, s') ∧ unchanged_but s s' f.
Proof.
  intros Hk Hs Hf H0. destruct (ResourceSets.save_run allGroups set s) as [c Hrun]. rewrite Hrun. eexists. split; [done|].
  split; [by apply well_keyed_put| |done|].
  - intros id. rewrite !elem_of_sets. cbn [ResourceSets.store clear put].
    destruct (decide (id = rs_id set)) as [->|]; [rewrite lookup_insert_eq|by rewrite lookup_insert_ne]. split; [done|by eexists].
  - intros id r. cbn [q_usage resource_sets_quotas]. unfold used_in. rewrite limits_in_put.
    case_decide as Hi; [subst id; apply Hf|rewrite H0 by done; lia].
Qed.

#[local] Instance resource_sets_laws : QuotasLaws ResourceSets.State.
Proof.
  split.
  - intros requests set q Hk. cbn [q_allocate resource_sets_quotas]. cbn in Hk.
    destruct (ResourceSets.store q !! set) as [raw|] eqn:Hs.
    2:{ unfold allocateLimitsInResourceSet, mbind, M_bind, getResourceSet. by rewrite Hs. }
    pose proof (ResourceSets.allocate_run allGroups requests set force q raw Hk Hs) as Hal.
    destruct (allocate set force requests (limits_in q set)) as [l|e]; [|by rewrite Hal].
    destruct Hal as (q' & Hrun & [] & _). rewrite Hrun. split; [by rewrite elem_of_sets, Hs|]. split; [done| | |done].
    + intros id. by rewrite !elem_of_sets.
    + intros vm. cbn. by rewrite cg_vms.
  - intros r set q Hk [raw Hs]%elem_of_sets. cbn [q_removeLimit resource_sets_quotas]. unfold removeLimitFromResourceSet, mbind, M_bind.
    rewrite (getResourceSet_run q set raw Hs). apply save_usage; cbn [rs_id limits with_limits normalize]; rewrite ?(Hk _ _ Hs).
    + done.
    + by rewrite Hs.
    + intros r'. cbn [q_usage resource_sets_quotas]. unfold used_in, limits_in. rewrite Hs. unfold used.
      destruct (decide (r' = r)) as [->|]; [rewrite lookup_delete_eq, decide_True by done; lia|].
      rewrite lookup_delete_ne, decide_False by (done || naive_solver). cbn. lia.
    + intros id r' Hi. rewrite decide_False; [done|naive_solver].
  - intros pool set q Hk [raw Hs]%elem_of_sets. cbn [q_removeIpPool resource_sets_quotas]. unfold removeIpPoolFromResourceSet, mbind, M_bind.
    rewrite (getResourceSet_run q set raw Hs). apply save_usage; cbn [rs_id limits with_ipPools normalize]; rewrite ?(Hk _ _ Hs).
    + done.
    + by rewrite Hs.
    + intros r'. unfold used_in, limits_in. rewrite Hs. cbn. lia.
    + done.
Qed.
End resource_sets.

(** ** A server with two pools and a VIF *)

#[local] Instance test_quotas : Quotas ResourceSets.State := resource_sets_quotas ∅ false.
#[local] Instance test_laws : QuotasLaws ResourceSets.State := resource_sets_laws ∅ false.

Definition address1 : ident := js "10.0.0.1".
Definition address2 : ident := js "10.0.0.2".
Definition address3 : ident := js "10.0.0.3".

(** The set of the VM, with its usage of the pools. *)
Definition one_set (l : gmap ident RawLimit) : ResourceSets.State :=
  ResourceSets.mkState {[ js "set" := mkRaw (js "set") None (Some l) None None None None None ]} {[ js "vm" := js "set" ]} ∅ [].

Definition pool_of (id : ident) (l : list ident) : IpPool :=
  mkPool (Some (list_to_map (map (λ x, (x, mkAddress (Some [js "vif"]))) l))) id None (Some [js "net"]) None.

Definition test_state (pools : list IpPool) (l : list ident) (limits : gmap ident RawLimit) : State ResourceSets.State :=
  mkState (list_to_map (map (λ p, (pool_id p, p)) pools)) {[ js "vif" := mkVif (js "vm") (js "net") l [] ]} (one_set limits).

(** The addresses of the VIF in a pool, those that it allows, and the usage of the pool. *)
Definition seen (id : ident) (s : State ResourceSets.State) : Z * list ident * Z :=
  (pool_held s id (js "vif"), default [] (allowed <$> objects s !! js "vif"), used_in (quotas s) (js "set") (ipPoolKey id)).

Definition two_pools : State ResourceSets.State :=
  test_state [pool_of (js "p") [address1]; pool_of (js "q") [address2]] [address1; address2]
    {[ ipPoolKey (js "p") := Obj (Some 2) (Some 1); ipPoolKey (js "q") := Obj None (Some 1) ]}.

Lemma two_pools_lookup id :
  store two_pools !! id = if decide (id = js "p") then Some (pool_of (js "p") [address1])
    else if decide (id = js "q") then Some (pool_of (js "q") [address2]) else None.
Proof.
  destruct (decide (id = js "p")) as [->|Hp]; [done|]. destruct (decide (id = js "q")) as [->|Hq]; [done|].
  unfold two_pools, test_state. cbn [store map list_to_map foldr]. cbn [pool_id pool_of].
  by rewrite !lookup_insert_ne.
Defined.

Lemma pool_of_unique id l : unique (pool_addresses (pool_of id l)).
Proof.
  intros address d. cbn. intros Hd%elem_of_list_to_map_2. apply (list_elem_of_fmap (λ x, (x, mkAddress (Some [js "vif"])))) in Hd as (y & [= -> ->] & _).
  apply NoDup_singleton.
Defined.

Lemma two_pools_ok : pools_ok two_pools.
Proof.
  split.
  - intros id p. rewrite two_pools_lookup. destruct (decide (id = js "p")) as [->|]; [by intros [= <-]|].
    destruct (decide (id = js "q")) as [->|]; [by intros [= <-]|done].
  - intros id p. rewrite two_pools_lookup. destruct (decide (id = js "p")); [intros [= <-]; apply pool_of_unique|].
    destruct (decide (id = js "q")); [intros [= <-]; apply pool_of_unique|done].
  - intros id set Hs. change (({[ js "set" := mkRaw (js "set") None (Some {[ ipPoolKey (js "p") := Obj (Some 2) (Some 1);
      ipPoolKey (js "q") := Obj None (Some 1) ]}) None None None None None ]} : gmap ident RawSet) !! id = Some set) in Hs.
    by apply lookup_singleton_Some in Hs as [<- <-].
Defined.

Lemma two_pools_usage id :
  used_in (quotas two_pools) (js "set") (ipPoolKey id) = if decide (id = js "p") then 1 else if decide (id = js "q") then 1 else 0.
Proof.
  destruct (decide (id = js "p")) as [->|Hp]; [done|]. destruct (decide (id = js "q")) as [->|Hq]; [done|].
  unfold used_in, used. change (limits_in (quotas two_pools) (js "set")) with
    (normalizeLimit <$> {[ ipPoolKey (js "p") := Obj (Some 2) (Some 1); ipPoolKey (js "q") := Obj None (Some 1) ]} : gmap ident Limit).
  rewrite lookup_fmap, lookup_insert_ne by (intros ?%(inj _); congruence).
  by rewrite lookup_singleton_ne by (intros ?%(inj _); congruence).
Defined.

Lemma two_pools_balanced : balanced two_pools.
Proof.
  intros id set Hset. assert (set = js "set") as -> by (apply list_elem_of_singleton; exact Hset).
  change (q_usage (quotas two_pools)) with (used_in (quotas two_pools)). rewrite two_pools_usage.
  change (objects two_pools) with (<[js "vif" := mkVif (js "vm") (js "net") [address1; address2] []]> (∅ : gmap ident Vif)).
  rewrite map_sum_insert by done. cbn [vif_VM].
  assert (q_setOf (quotas two_pools) (js "vm") = Some (js "set")) as -> by reflexivity.
  rewrite (decide_True (P := Some (js "set") = Some (js "set"))) by done. unfold pool_held. rewrite two_pools_lookup.
  destruct (decide (id = js "p")); [done|]. by destruct (decide (id = js "q")).
Defined.

Lemma allocIpAddresses_correct_witness :
  ∃ r s', allocIpAddresses (js "vif") [] [address1] two_pools = (r, s') ∧ pools_ok s' ∧ objects s' = objects two_pools ∧
    (balanced two_pools → balanced s') ∧
    match r with
    | Ok _ => ∀ id p, store two_pools !! id = Some p → ∃ p', store s' !! id = Some p' ∧
        (∀ x, has_address (pool_addresses p') (js "vif") x ↔ wanted (js "vif") (js "net") [] [address1] p x) ∧
        (∀ w x, w ≠ js "vif" → has_address (pool_addresses p') w x ↔ has_address (pool_addresses p) w x)
    | Throw _ => s' = two_pools
    end.
Proof. apply (allocIpAddresses_correct (js "vif") (mkVif (js "vm") (js "net") [address1; address2] [])); [exact two_pools_ok|reflexivity]. Defined.

Lemma deleteIpPool_correct_witness :
  ∃ s', deleteIpPool (λ _, false) (js "p") two_pools = (Ok tt, s') ∧ pools_ok s' ∧ (balanced two_pools → balanced s')
    ∧ (∀ i, is_Some (store s' !! i) ↔ i ≠ js "p" ∧ is_Some (store two_pools !! i))
    ∧ (∀ set, set ∈ q_sets (quotas two_pools) → q_usage (quotas s') set (ipPoolKey (js "p")) = 0)
    ∧ ∀ v vif, objects two_pools !! v = Some vif → ∃ vif', objects s' !! v = Some vif' ∧
        ∀ x, x ∈ allowed vif' ↔ x ∈ allowed vif ∧ ¬ has_address (pool_addresses (pool_of (js "p") [address1])) v x.
Proof. apply deleteIpPool_correct; [exact two_pools_ok|reflexivity]. Defined.

(** ** Behaviours that the theorems leave out *)

(** The VIF still has the address of the other pool, which gave it back. *)
Example deletion_releases_others :
  seen (js "q") two_pools = (1, [address1; address2], 1) ∧
  seen (js "q") (deleteIpPool (λ _, false) (js "p") two_pools).2 = (0, [address2], 0).
Proof. split; vm_compute; reflexivity. Qed.

Definition three_addresses (limit : option Z) : State ResourceSets.State :=
  test_state [pool_of (js "p") [address1; address2; address3]] [address1; address2; address3]
    {[ ipPoolKey (js "p") := Obj limit (Some 3) ]}.

(** The VIF keeps two addresses; the usage is one. *)
Example update_miscounts :
  seen (js "p") (updateIpPool (λ _, false) (js "p") (Some [(address1, None)]) None None None (three_addresses None)).2
  = (2, [address2; address3], 1).
Proof. vm_compute. reflexivity. Qed.

(** Over a limit that was lowered, an address cannot be given back. *)
Example release_refused :
  (allocIpAddresses (js "vif") [] [address1] (three_addresses (Some 1))).1
  = Throw (notEnoughResources (js "set") (ipPoolKey (js "p")) (-2) (-1)).
Proof. vm_compute. reflexivity. Qed.

(** An address that is given again loses its VIFs, which are not told. *)
Example update_forgets_vifs :
  seen (js "p") (updateIpPool (λ _, false) (js "p") (Some [(address1, Some (mkAddress None))]) None None None (three_addresses None)).2
  = (2, [address1; address2; address3], 3).
Proof. vm_compute. reflexivity. Qed.

(** An address that two VIFs have is removed from the pool, and from neither of them. *)
Example update_keeps_shared :
  let s := mkState {[ js "p" := mkPool (Some {[ address1 := mkAddress (Some [js "vif"; js "vif2"]) ]}) (js "p") None (Some [js "net"]) None ]}
    (objects two_pools) (quotas two_pools) in
  seen (js "p") (updateIpPool (λ _, false) (js "p") (Some [(address1, None)]) None None None s).2
  = (0, [address1; address2], 1).
Proof. vm_compute. reflexivity. Qed.
