(* ===== verification/AuditLog.v ===== *)
(** * The audit log

    [@xen-orchestra/audit-core]: the records of what users do, each with the hash of its
    content and of the identifier of the previous one, so that a change or a removal is
    found by a check between two identifiers.

    The hash is a parameter; no property of it is assumed: what could be forged is said
    with an explicit collision.  So is the normalisation by JSON, and the storage can
    fail to write a record.  What a record says (data, event, subject and time) is one
    value, which is hashed without the members named [id], at any depth: a change to one
    of those is not found ([nested_id_unseen]).  The operations that take the lock of the
    storage are run as a whole, which the lock allows ([exclusive]). *)

From stdpp Require Import gmap list sorting.
From S2P Require Import Prelude JsValues.

Local Open Scope Z_scope.

(** ** The lock of the storage

    [_lock] is the promise of the last caller: each one waits for the one before.  A
    caller is the rank of its call. *)

Record Lock := mkLock { calls : nat; released : gset nat; inside : gset nat }.

Inductive lock_event := AcquireLock | Enter (caller : nat) | Release (caller : nat).

Inductive lock_step : Lock → lock_event → Lock → Prop :=
  | step_acquire n r i : lock_step (mkLock n r i) AcquireLock (mkLock (S n) r i)
  | step_enter n r i c :
      (c < n)%nat → c ∉ i → c ∉ r → (c = 0%nat ∨ pred c ∈ r) → lock_step (mkLock n r i) (Enter c) (mkLock n r ({[c]} ∪ i))
  | step_release n r i c :
      c ∈ i → lock_step (mkLock n r i) (Release c) (mkLock n ({[c]} ∪ r) (i ∖ {[c]})).

Inductive lock_run : list lock_event → Lock → Prop :=
  | run_start : lock_run [] (mkLock 0 ∅ ∅)
  | run_step es s e s' : lock_run es s → lock_step s e s' → lock_run (es ++ [e]) s'.

(** Those that came before a caller that was let in have released. *)
Lemma lock_inv es s :
  lock_run es s → inside s ## released s ∧ ∀ c, c ∈ inside s ∪ released s → ∀ d, (d < c)%nat → d ∈ released s.
Proof.
  induction 1 as [|es s e s' _ [IHd IH] Hstep]; cbn; [set_solver|].
  destruct Hstep as [n r i|n r i c Hc Hi Hr Hp|n r i c Hi]; cbn in *.
  - done.
  - split; [set_solver|]. intros x Hx d Hd. rewrite !elem_of_union, elem_of_singleton in Hx.
    destruct Hx as [[->|Hx]|Hx]; [|eapply IH; [|done]; set_solver..]. destruct Hp as [->|Hp]; [lia|].
    destruct (decide (d = pred c)) as [->|]; [done|]. apply (IH (pred c)); [set_solver|lia].
  - split; [set_solver|]. intros x Hx d Hd. apply elem_of_union_r, (IH x); [|done].
    rewrite !elem_of_union, elem_of_difference, elem_of_singleton in Hx. rewrite elem_of_union. set_solver.
Qed.

(** One caller at most has the lock of the storage, and those that called before it
    have released it. *)
Theorem exclusive es s c d :
  lock_run es s → c ∈ inside s → (d ∈ inside s → d = c) ∧ ((d < c)%nat → d ∈ released s).
Proof.
  intros [Hdis Hinv]%lock_inv Hc. split.
  - intros Hd. destruct (Nat.lt_trichotomy c d) as [Hlt|[?|Hlt]]; [|done|].
    + exfalso. apply (Hdis c); [done|]. apply (Hinv d); [set_solver|done].
    + exfalso. apply (Hdis d); [done|]. apply (Hinv c); [set_solver|done].
  - intros Hlt. apply (Hinv c); [set_solver|done].
Qed.

(** ** Records *)

Definition NULL_ID : jstring := js "nullId".
Definition HASH_ALGORITHM_ID : jstring := js "5".
Definition ID_TO_ALGORITHM (id : jstring) : option jstring := if bool_decide (id = js "5") then Some (js "sha256") else None.

(** [id.slice(1, id.indexOf('$', 1))] *)
Definition algorithm_of (id : jstring) : jstring :=
  match list_find ("$"%char =.) (drop 1 id) with
  | Some (i, _) => take i (drop 1 id)
  | None => take (length id - 2) (drop 1 id)
  end.

Inductive audit_error {payload : Type} :=
  | AlteredRecord (id : jstring) (nValid : nat) (content : payload) (previous : jstring)
  | MissingRecord (id : jstring) (nValid : nat)
  | Endless.
Arguments audit_error : clear implicits.

(** What object-hash hashes of a value: at every depth, the members whose name is not
    excluded, in the order of their names. *)
Definition by_name (m m' : jstring * jsval) : Prop := le_str m.1 m'.1.

#[export] Instance by_name_dec m m' : Decision (by_name m m').
Proof. unfold by_name. apply _. Defined.

Fixpoint hashed (excludeKeys : jstring → bool) (v : jsval) : jsval :=
  match v with
  | VArr l => VArr (map (hashed excludeKeys) l)
  | VObj plain fields =>
      VObj plain (merge_sort by_name (filter (λ m, excludeKeys m.1 = false) (map (λ m, (m.1, hashed excludeKeys m.2)) fields)))
  | _ => v
  end.

(** [key => key === 'id'] *)
Definition excludeKeys (key : jstring) : bool := bool_decide (key = js "id").

Section audit.
Context (hash : option jstring → jsval → jstring → jstring) (jsonCopy : jsval → jsval) (put_fails : jstring → bool).

Record AuditRecord := mkRecord { rec_id : jstring; content : jsval; previousId : jstring }.

Definition createHash (content : jsval) (previousId algorithmId : jstring) : jstring :=
  js "$" ++ algorithmId ++ js "$$" ++ hash (ID_TO_ALGORITHM algorithmId) (hashed excludeKeys content) previousId.

Record Storage := mkStorage { records : gmap jstring AuditRecord; lastId : option jstring }.

Definition put (r : AuditRecord) : M Storage unit := λ s,
  if put_fails (rec_id r) then (Throw (OtherError "put"), s) else (Ok tt, mkStorage (<[rec_id r := r]> (records s)) (lastId s)).
Definition del (id : jstring) : M Storage unit := modify (λ s, mkStorage (delete id (records s)) (lastId s)).
Definition setLastId (id : jstring) : M Storage unit := modify (λ s, mkStorage (records s) (Some id)).

(** ** Reading and adding *)

Definition _addUnsafe (data : jsval) : M Storage AuditRecord :=
  last ← gets lastId;
  let previous := default NULL_ID last in
  let data := jsonCopy data in
  let r := mkRecord (createHash data previous HASH_ALGORITHM_ID) data previous in
  put r ;; setLastId (rec_id r) ;; mret r.

Definition add : jsval → M Storage AuditRecord := _addUnsafe.

Definition _importRecord (r : AuditRecord) : M Storage (jstring * bool) :=
  if bool_decide (rec_id r = [] ∨ previousId r = []) then lift (Throw (OtherError "Invalid record"))
  else put r ;; mret (rec_id r, bool_decide (rec_id r = createHash (content r) (previousId r) HASH_ALGORITHM_ID)).

(** The records from an identifier, newest first; none when the chain does not end. *)
Fixpoint getFrom (fuel : nat) (m : gmap jstring AuditRecord) (id : jstring) : option (list AuditRecord) :=
  match m !! id with
  | None => Some []
  | Some r => match fuel with
              | O => None
              | S fuel => cons r <$> getFrom fuel m (previousId r)
              end
  end.

(** The search of a record stops at it. *)
Fixpoint reaches (fuel : nat) (m : gmap jstring AuditRecord) (id newest : jstring) : option bool :=
  match m !! id with
  | None => Some false
  | Some r => if bool_decide (rec_id r = newest) then Some true
              else match fuel with O => None | S fuel => reaches fuel m (previousId r) newest end
  end.

Fixpoint check_loop (fuel : nat) (m : gmap jstring AuditRecord) (oldest newest : jstring) (nValid : nat) :
    audit_error jsval + nat :=
  if bool_decide (newest = oldest) then inr nValid
  else match m !! newest with
  | None => inl (MissingRecord newest nValid)
  | Some r =>
      if bool_decide (newest = createHash (content r) (previousId r) (algorithm_of newest)) then
        match fuel with O => inl Endless | S fuel => check_loop fuel m oldest (previousId r) (S nValid) end
      else inl (AlteredRecord newest nValid (content r) (previousId r))
  end.

Definition checkIntegrity (fuel : nat) (s : Storage) (oldest newest : jstring) : audit_error jsval + nat :=
  if bool_decide (lastId s = Some newest) then check_loop fuel (records s) oldest newest 0
  else match (match lastId s with Some last => reaches fuel (records s) last newest | None => Some false end) with
  | Some true => check_loop fuel (records s) oldest newest 0
  | Some false => inl (MissingRecord newest 0)
  | None => inl Endless
  end.

(** ** Removal *)

Fixpoint deleteFrom (fuel : nat) (newest : jstring) : M Storage unit :=
  s ← gets records;
  match s !! newest with
  | None => mret tt
  | Some r => match fuel with
              | O => lift (Throw (OtherError "endless"))
              | S fuel => del (rec_id r) ;; deleteFrom fuel (previousId r)
              end
  end.

(** The records that are more recent than [newest]. *)
Fixpoint recent (fuel : nat) (m : gmap jstring AuditRecord) (id newest : jstring) : option (list AuditRecord) :=
  match m !! id with
  | None => Some []
  | Some r => if bool_decide (rec_id r = newest) then Some []
              else match fuel with O => None | S fuel => cons r <$> recent fuel m (previousId r) newest end
  end.

(** Removes from [id] to [oldest]. *)
Fixpoint delete_range (fuel : nat) (id oldest : jstring) : M Storage unit :=
  s ← gets records;
  match s !! id with
  | None => mret tt
  | Some r => del (rec_id r) ;;
      if bool_decide (rec_id r = oldest) then mret tt
      else match fuel with
           | O => lift (Throw (OtherError "endless"))
           | S fuel => delete_range fuel (previousId r) oldest
           end
  end.

(** A failure is logged. *)
Definition rewrite_record (r : AuditRecord) : M Storage unit := λ s,
  match _addUnsafe (content r) s with
  | (Ok _, s') => del (rec_id r) s'
  | (Throw _, s') => (Ok tt, s')
  end.

Definition or_endless {A} (o : option A) : M Storage A :=
  match o with Some a => mret a | None => lift (Throw (OtherError "endless")) end.

Definition deleteRangeAndRewrite (fuel : nat) (newest oldest : jstring) : M Storage unit :=
  s ← gets (λ s, s);
  match records s !! newest, records s !! oldest with
  | Some _, Some oldestRecord =>
      recentRecords ← or_endless (match lastId s with Some last => recent fuel (records s) last newest | None => Some [] end);
      delete_range fuel newest oldest ;;
      setLastId (previousId oldestRecord) ;;
      for_each recentRecords rewrite_record
  | _, _ => lift (Throw (AssertionError ""))
  end.

(** ** Chains *)

(** The records from [x] down to [y], each under the hash of its content; none of them is
    [stop]. *)
Inductive verified (m : gmap jstring AuditRecord) (stop : jstring) : jstring → list AuditRecord → jstring → Prop :=
  | verified_nil x : verified m stop x [] x
  | verified_cons x r l y :
      m !! x = Some r → x = createHash (content r) (previousId r) (algorithm_of x) → x ≠ stop →
      verified m stop (previousId r) l y → verified m stop x (r :: l) y.

(** Two contents with one identifier, that differ in what is hashed. *)
Definition collision : Prop :=
  ∃ a c p c' p', createHash c p a = createHash c' p' a ∧ (hashed excludeKeys c, p) ≠ (hashed excludeKeys c', p').

Lemma verified_app m stop x l y l' z :
  verified m stop x l y → verified m stop y l' z → verified m stop x (l ++ l') z.
Proof. induction 1; [done|]. intros. cbn. by constructor; auto. Qed.

Lemma verified_agree m m' stop x l y :
  verified m stop x l y → (∀ i r, m !! i = Some r → m' !! i = Some r) → verified m' stop x l y.
Proof. induction 1; intros Hm; constructor; auto. Qed.

(** The identifiers on the way. *)
Fixpoint ids_from (x : jstring) (l : list AuditRecord) : list jstring :=
  match l with [] => [] | r :: l => x :: ids_from (previousId r) l end.

Lemma ids_from_length l : ∀ x, length (ids_from x l) = length l.
Proof. induction l as [|r l IH]; intros x; cbn; [done|]. by rewrite IH. Qed.

Lemma verified_reach m stop x l y z : verified m stop x l y → z ∈ ids_from x l → ∃ l', verified m stop x l' z.
Proof.
  induction 1 as [|x r l y Hx Hh Hs Hl IH]; cbn; [by intros ?%elem_of_nil|].
  intros [->|[l' Hl']%IH]%elem_of_cons; [exists []; constructor|]. exists (r :: l'). by constructor.
Qed.

Lemma verified_simple m stop x l y :
  verified m stop x l y → (NoDup (ids_from x l) ∧ ∀ z, z ∈ ids_from x l → z ∈ dom m) ∨ ∃ z l', l' ≠ [] ∧ verified m stop z l' z.
Proof.
  induction 1 as [x|x r l y Hx Hh Hs Hl IH]; cbn; [left; split; [constructor|by intros ? ?%elem_of_nil]|].
  destruct IH as [[Hn Hd]|?]; [|by right]. destruct (decide (x ∈ ids_from (previousId r) l)) as [Hin|Hin].
  - right. destruct (verified_reach _ _ _ _ _ _ Hl Hin) as [l' Hl']. exists x, (r :: l'). split; [done|]. by constructor.
  - left. split; [by constructor|]. intros z [->|Hz]%elem_of_cons; [by apply elem_of_dom|auto].
Qed.

(** A chain that is longer than the storage comes back on itself. *)
Lemma verified_long m stop x l y :
  verified m stop x l y → (size m < length l)%nat → ∃ z l', l' ≠ [] ∧ verified m stop z l' z.
Proof.
  intros [[Hn Hd]|?]%verified_simple Hlen; [exfalso|done]. rewrite <- (ids_from_length l x) in Hlen.
  assert (size (list_to_set (ids_from x l) : gset jstring) ≤ size (dom m))%nat as Hle.
  { apply subseteq_size. intros z Hz%elem_of_list_to_set. auto. }
  rewrite size_list_to_set, size_dom in Hle by done. lia.
Qed.

(** ** The check *)

Definition check_spec (m : gmap jstring AuditRecord) (oldest newest : jstring) (n fuel : nat) (res : audit_error jsval + nat) : Prop :=
  match res with
  | inr k => ∃ l, k = (n + length l)%nat ∧ verified m oldest newest l oldest
  | inl (MissingRecord id k) => ∃ l, k = (n + length l)%nat ∧ verified m oldest newest l id ∧ id ≠ oldest ∧ m !! id = None
  | inl (AlteredRecord id k c p) => ∃ l r, k = (n + length l)%nat ∧ verified m oldest newest l id ∧ id ≠ oldest ∧
      m !! id = Some r ∧ c = content r ∧ p = previousId r ∧ id ≠ createHash c p (algorithm_of id)
  | inl Endless => ∃ l y, length l = S fuel ∧ verified m oldest newest l y
  end.

Lemma check_loop_spec fuel m oldest : ∀ newest n, check_spec m oldest newest n fuel (check_loop fuel m oldest newest n).
Proof.
  induction fuel as [|fuel IH]; intros newest n; cbn [check_loop].
  all: case_bool_decide as Hn; [subst; exists []; split; [cbn; lia|constructor]|].
  all: destruct (m !! newest) as [r|] eqn:Hr; [|exists []; split; [cbn; lia|]; split; [constructor|done]].
  all: case_bool_decide as Hh; [|exists [], r; split; [cbn; lia|]; split; [constructor|done]].
  - exists [r], (previousId r). split; [done|]. repeat (constructor || done).
  - specialize (IH (previousId r) (S n)). destruct (check_loop fuel m oldest (previousId r) (S n)) as [[id k c p|id k|]|k]; cbn in *.
    + destruct IH as (l & r' & -> & Hl & ?). exists (r :: l), r'. split; [cbn; lia|]. split; [by constructor|done].
    + destruct IH as (l & -> & Hl & ?). exists (r :: l). split; [cbn; lia|]. split; [by constructor|done].
    + destruct IH as (l & y & Hlen & Hl). exists (r :: l), y. cbn. split; [lia|by constructor].
    + destruct IH as (l & -> & Hl). exists (r :: l). split; [cbn; lia|by constructor].
Qed.

Lemma check_loop_complete fuel m oldest newest l n :
  verified m oldest newest l oldest → (length l ≤ fuel)%nat → check_loop fuel m oldest newest n = inr (n + length l)%nat.
Proof.
  intros Hl. remember oldest as y eqn:Hy in Hl at 2. revert fuel n.
  induction Hl as [x|x r l y Hx Hh Hs Hl IH]; intros fuel n Hlen.
  - subst. destruct fuel; cbn [check_loop]; rewrite bool_decide_eq_true_2 by done; cbn; f_equal; lia.
  - destruct fuel as [|fuel]; cbn in Hlen; [lia|]. cbn [check_loop]. rewrite bool_decide_eq_false_2, Hx by done.
    rewrite bool_decide_eq_true_2 by done. rewrite IH by (done || lia). cbn. f_equal. lia.
Qed.

(** [newest] is the last record, or one that it leads to. *)
Definition accessible (fuel : nat) (s : Storage) (newest : jstring) : Prop :=
  lastId s = Some newest ∨ ∃ last, lastId s = Some last ∧ reaches fuel (records s) last newest = Some true.

Lemma checkIntegrity_loop fuel s oldest newest :
  accessible fuel s newest → checkIntegrity fuel s oldest newest = check_loop fuel (records s) oldest newest 0.
Proof.
  unfold checkIntegrity. intros [Hl|(last & Hl & Hr)]; [by rewrite bool_decide_eq_true_2|].
  case_bool_decide; [done|]. by rewrite Hl, Hr.
Qed.

(** The check of the records between two identifiers succeeds exactly when each is
    stored under the hash of its content, and counts them; otherwise it names the first
    that is missing, or that was altered, and counts those that are right before it.
    With a step for each record it ends, unless the records are in a circle. *)
Theorem checkIntegrity_decides fuel s oldest newest :
  accessible fuel s newest → (size (records s) ≤ fuel)%nat →
  match checkIntegrity fuel s oldest newest with
  | inr n => ∃ l, n = length l ∧ verified (records s) oldest newest l oldest
  | inl (MissingRecord id n) => ∃ l, n = length l ∧ verified (records s) oldest newest l id ∧ id ≠ oldest ∧ records s !! id = None
  | inl (AlteredRecord id n c p) => ∃ l r, n = length l ∧ verified (records s) oldest newest l id ∧ id ≠ oldest ∧
      records s !! id = Some r ∧ c = content r ∧ p = previousId r ∧ id ≠ createHash c p (algorithm_of id)
  | inl Endless => ∃ z l, l ≠ [] ∧ verified (records s) oldest z l z
  end.
Proof.
  intros Ha Hf. rewrite checkIntegrity_loop by done. pose proof (check_loop_spec fuel (records s) oldest newest 0) as Hc.
  destruct (check_loop _ _ _ _ _) as [[id n c p|id n|]|n]; cbn in Hc; [done|done| |done].
  destruct Hc as (l & y & Hlen & Hl). eapply verified_long; [done|lia].
Qed.

(** What the records say, apart from the members named [id] and the order of the members. *)
Definition says (r : AuditRecord) : jsval * jstring := (hashed excludeKeys (content r), previousId r).

Lemma verified_same m m' stop x l y l' :
  verified m stop x l y → y = stop → verified m' stop x l' stop → map says l = map says l' ∨ collision.
Proof.
  intros Hl. revert l'. induction Hl as [x|x r l y Hx Hh Hs Hl IH]; intros l' ->; inversion 1 as [|? r' l1 ? Hx' Hh' Hs' Hl'];
    subst; try done; [by left|].
  destruct (decide (says r = says r')) as [Heq|Hne].
  - injection Heq as Hc Hp. rewrite <- Hp in Hl'. destruct (IH l1 eq_refl Hl') as [Hmap|]; [left|by right].
    cbn. unfold says at 1 3. rewrite Hc, Hp. by f_equal.
  - right. exists (algorithm_of x), (content r), (previousId r), (content r'), (previousId r'). split; [congruence|done].
Qed.

(** C12: Nobody can change the records between two identifiers so that the check still
    succeeds, but for the members of their data that are named [id], which are not hashed
    ([nested_id_unseen]), and the order of members: two storages that pass the same check
    have the same number of records between them, and these say the same apart from that,
    or a collision of the hash was found. *)
Theorem tampering_detected fuel fuel' s s' oldest newest n n' :
  checkIntegrity fuel s oldest newest = inr n → checkIntegrity fuel' s' oldest newest = inr n' →
  (∃ l l', verified (records s) oldest newest l oldest ∧ verified (records s') oldest newest l' oldest ∧
     n = length l ∧ n' = length l' ∧ map says l = map says l') ∨ collision.
Proof.
  assert (∀ fuel s k, checkIntegrity fuel s oldest newest = inr k → ∃ l, k = length l ∧ verified (records s) oldest newest l oldest) as Hok.
  { intros f s0 k Hrun. pose proof (check_loop_spec f (records s0) oldest newest 0) as Hc. unfold checkIntegrity in Hrun.
    case_bool_decide; [by rewrite Hrun in Hc|]. destruct (lastId s0) as [last|]; [|done].
    destruct (reaches f (records s0) last newest) as [[]|]; [|done|done]. by rewrite Hrun in Hc. }
  intros H1 H2. destruct (Hok _ _ _ H1) as (l & -> & Hl), (Hok _ _ _ H2) as (l' & -> & Hl').
  destruct (verified_same _ _ _ _ _ _ _ Hl eq_refl Hl') as [Hm|?]; [|by right].
  left. by exists l, l'.
Qed.

(** ** Adding a record *)

(** The record that [_addUnsafe] makes. *)
Definition newRecord (previous : jstring) (data : jsval) : AuditRecord :=
  mkRecord (createHash (jsonCopy data) previous HASH_ALGORITHM_ID) (jsonCopy data) previous.

Lemma newRecord_hash previous data :
  rec_id (newRecord previous data) = createHash (content (newRecord previous data)) previous (algorithm_of (rec_id (newRecord previous data))).
Proof. done. Qed.

Lemma addUnsafe_run data s :
  _addUnsafe data s =
    let r := newRecord (default NULL_ID (lastId s)) data in
    if put_fails (rec_id r) then (Throw (OtherError "put"), s)
    else (Ok r, mkStorage (<[rec_id r := r]> (records s)) (Some (rec_id r))).
Proof. unfold _addUnsafe, mbind, M_bind, gets, put. cbn. by destruct (put_fails _). Qed.

Lemma verified_new m stop previous data l y :
  let r := newRecord previous data in
  m !! rec_id r = None → rec_id r ≠ stop → verified m stop previous l y →
  verified (<[rec_id r := r]> m) stop previous l y ∧ verified (<[rec_id r := r]> m) stop (rec_id r) (r :: l) y.
Proof.
  intros r Hm Hs Hl.
  assert (verified (<[rec_id r := r]> m) stop previous l y) as Hl'.
  { eapply verified_agree; [done|]. intros i r' Hi. rewrite lookup_insert_ne; [done|]. congruence. }
  split; [done|]. constructor; [apply lookup_insert_eq|apply newRecord_hash|done|done].
Qed.

(** A record that is added follows the last one, and extends any chain that leads to
    it by one; also when only the record could be written, or nothing, the chain that
    was there is still right. *)
Theorem add_extends data s s' r :
  add data s = (r, s') →
  let previous := default NULL_ID (lastId s) in
  let new := newRecord previous data in
  match r with
  | Ok r => r = new ∧ lastId s' = Some (rec_id new) ∧ records s' = <[rec_id new := new]> (records s)
  | Throw _ => s' = s
  end ∧ ∀ oldest l, records s !! rec_id new = None → rec_id new ≠ oldest → verified (records s) oldest previous l oldest →
    verified (<[rec_id new := new]> (records s)) oldest previous l oldest ∧
    match r with Ok _ => verified (records s') oldest (rec_id new) (new :: l) oldest | Throw _ => True end.
Proof.
  intros Hrun. unfold add in Hrun. rewrite addUnsafe_run in Hrun. cbn zeta in Hrun.
  set (previous := default NULL_ID (lastId s)) in *. set (new := newRecord previous data) in *. cbn zeta.
  split; [by destruct (put_fails (rec_id new)); inversion Hrun; subst|]. intros oldest l Hm Hs Hl.
  destruct (verified_new _ _ _ data _ _ Hm Hs Hl) as [H1 H2]. split; [done|].
  by destruct (put_fails (rec_id new)); inversion Hrun; subst.
Qed.

(** ** Removing a range *)

(** The records from [x] down to [y], each under its own identifier. *)
Inductive segment (m : gmap jstring AuditRecord) : jstring → list AuditRecord → jstring → Prop :=
  | segment_nil x : segment m x [] x
  | segment_cons x r l y : m !! x = Some r → rec_id r = x → segment m (previousId r) l y → segment m x (r :: l) y.

Definition ids (l : list AuditRecord) : list jstring := map rec_id l.

Lemma segment_agree m m' x l y : segment m x l y → (∀ r, r ∈ l → m' !! rec_id r = Some r) → segment m' x l y.
Proof.
  induction 1 as [|x r l y Hx Hid Hl IH]; intros Hm; constructor; [rewrite <- Hid; apply Hm; by left|done|].
  apply IH. intros r' Hr'. apply Hm. by right.
Qed.

Lemma segment_lookup m x l y r : segment m x l y → r ∈ l → m !! rec_id r = Some r.
Proof.
  induction 1 as [|x r' l y Hx Hid Hl IH]; [by intros ?%elem_of_nil|]. intros [->|?]%elem_of_cons; [by rewrite Hid|auto].
Qed.

Lemma segment_app m x l y l' z : segment m x l y → segment m y l' z → segment m x (l ++ l') z.
Proof. induction 1; [done|]. intros. cbn. by constructor; auto. Qed.

Lemma recent_run m x l y fuel r :
  segment m x l y → m !! y = Some r → rec_id r = y → y ∉ ids l → (length l ≤ fuel)%nat → recent fuel m x y = Some l.
Proof.
  intros Hl. revert fuel. induction Hl as [y|x r' l y Hx Hid Hl IH]; intros fuel Hy Hr Hn Hf.
  - destruct fuel; cbn; by rewrite Hy, bool_decide_eq_true_2.
  - cbn in Hn, Hf. apply not_elem_of_cons in Hn as [Hne Hn]. destruct fuel as [|fuel]; [lia|]. cbn. rewrite Hx.
    rewrite bool_decide_eq_false_2 by congruence. by rewrite IH by (done || lia).
Qed.

Definition without (l : list jstring) (m : gmap jstring AuditRecord) : gmap jstring AuditRecord := foldr delete m l.

Lemma without_lookup l m i : without l m !! i = if bool_decide (i ∈ l) then None else m !! i.
Proof.
  unfold without. induction l as [|x l IH]; cbn [foldr]; [by rewrite bool_decide_eq_false_2 by apply not_elem_of_nil|].
  destruct (decide (i = x)) as [->|Hi]; [rewrite lookup_delete_eq, bool_decide_eq_true_2; [done|by left]|].
  rewrite lookup_delete_ne, IH by done. by rewrite (bool_decide_ext (i ∈ x :: l) (i ∈ l)) by (rewrite elem_of_cons; tauto).
Qed.

Lemma without_delete l x m : without l (delete x m) = without (x :: l) m.
Proof.
  apply map_eq. intros i. rewrite !without_lookup. destruct (decide (i = x)) as [->|Hi].
  - rewrite lookup_delete_eq. rewrite (bool_decide_eq_true_2 (x ∈ x :: l)) by by left. by case_bool_decide.
  - rewrite lookup_delete_ne by done. by rewrite (bool_decide_ext (i ∈ x :: l) (i ∈ l)) by (rewrite elem_of_cons; tauto).
Qed.

Lemma delete_range_run last l : ∀ x y fuel s,
  segment (records s) x (l ++ [last]) y → NoDup (ids (l ++ [last])) → (length l ≤ fuel)%nat →
  delete_range fuel x (rec_id last) s = (Ok tt, mkStorage (without (ids (l ++ [last])) (records s)) (lastId s)).
Proof.
  induction l as [|r l IH]; intros x y fuel s Hseg Hn Hf; inversion Hseg as [|? r' ? ? Hx Hid Hl]; subst; cbn [app] in *.
  - destruct fuel; cbn [delete_range]; unfold mbind, M_bind, gets; rewrite Hx; cbn;
      rewrite bool_decide_eq_true_2 by done; done.
  - cbn in Hf. destruct fuel as [|fuel]; [lia|]. cbn [ids map] in Hn. apply NoDup_cons in Hn as [Hnr Hn].
    cbn [delete_range]. unfold mbind, M_bind, gets. rewrite Hx. cbn [del modify].
    rewrite bool_decide_eq_false_2.
    2:{ intros E. apply Hnr. rewrite E. unfold ids. rewrite map_app. apply elem_of_app. right. by left. }
    rewrite (IH _ y); cbn [records lastId].
    + by rewrite without_delete.
    + eapply segment_agree; [done|]. cbn. intros r' Hr'. rewrite lookup_delete_ne; [by eapply segment_lookup|].
      intros E. apply Hnr. rewrite E. by apply (list_elem_of_fmap_2 rec_id).
    + done.
    + lia.
Qed.

(** The records that are made again, the first one after [previous]. *)
Fixpoint rewritten (previous : jstring) (l : list AuditRecord) : list AuditRecord :=
  match l with
  | [] => []
  | r :: l => let new := newRecord previous (content r) in new :: rewritten (rec_id new) l
  end.
Definition tip (previous : jstring) (l : list AuditRecord) : jstring := default previous (rec_id <$> last l).

Lemma tip_cons previous r l : tip previous (r :: l) = tip (rec_id r) l.
Proof.
  unfold tip. destruct l as [|r' l]; [done|]. change (last (r :: r' :: l)) with (last (r' :: l)).
  destruct (last (r' :: l)) eqn:E; [done|]. by apply last_None in E.
Qed.

Lemma rewrite_run l : ∀ previous s,
  (∀ id, put_fails id = false) → lastId s = Some previous → NoDup (ids (rewritten previous l)) →
  (∀ id, id ∈ ids (rewritten previous l) → id ∉ ids l) →
  ∃ s', for_each l rewrite_record s = (Ok tt, s') ∧ lastId s' = Some (tip previous (rewritten previous l)) ∧
    (∀ r, r ∈ rewritten previous l → records s' !! rec_id r = Some r) ∧
    ∀ id, id ∉ ids (rewritten previous l) → records s' !! id = if bool_decide (id ∈ ids l) then None else records s !! id.
Proof.
  induction l as [|r l IH]; intros previous s Hp Hlast Hn Hdis; cbn [for_each].
  { exists s. split; [done|]. split; [done|]. split; [by intros r ?%elem_of_nil|]. intros id _.
    rewrite bool_decide_eq_false_2; [done|]. apply not_elem_of_nil. }
  cbn [rewritten] in *. set (new := newRecord previous (content r)) in *. cbn [ids map] in Hn, Hdis.
  fold (ids (rewritten (rec_id new) l)) in *. fold (ids l) in *. apply NoDup_cons in Hn as [Hnew Hn].
  assert (rewrite_record r s = (Ok tt, mkStorage (delete (rec_id r) (<[rec_id new := new]> (records s))) (Some (rec_id new)))) as Hrun.
  { unfold rewrite_record. rewrite addUnsafe_run, Hlast. cbn zeta. cbn [default from_option id]. fold new. by rewrite Hp. }
  unfold mbind, M_bind. rewrite Hrun.
  destruct (IH (rec_id new) (mkStorage (delete (rec_id r) (<[rec_id new := new]> (records s))) (Some (rec_id new))))
    as (s' & Hrun' & Hl' & Hin & Hout); [done|done|done| |].
  { intros id Hid Hidl. apply (Hdis id); by right. }
  assert (rec_id new ∉ rec_id r :: ids l) as Hnl by (apply Hdis; by left). apply not_elem_of_cons in Hnl as [Hnr Hnl].
  exists s'. split; [done|]. split; [|split].
  - by rewrite Hl', tip_cons.
  - intros r' [->|Hr']%elem_of_cons; [|auto]. rewrite Hout by done. rewrite bool_decide_eq_false_2 by done. cbn.
    by rewrite lookup_delete_ne, lookup_insert_eq.
  - intros id [Hne Hid]%not_elem_of_cons. rewrite Hout by done. cbn. destruct (decide (id = rec_id r)) as [->|Hr].
    + rewrite lookup_delete_eq, (bool_decide_eq_true_2 (rec_id r ∈ rec_id r :: ids l)) by by left. by case_bool_decide.
    + rewrite lookup_delete_ne, lookup_insert_ne by done.
      by rewrite (bool_decide_ext (id ∈ rec_id r :: ids l) (id ∈ ids l)) by (rewrite elem_of_cons; tauto).
Qed.

Lemma rewritten_segment m l : ∀ previous,
  (∀ r, r ∈ rewritten previous l → m !! rec_id r = Some r) →
  segment m (tip previous (rewritten previous l)) (rev (rewritten previous l)) previous.
Proof.
  induction l as [|r l IH]; intros previous Hm; [constructor|]. cbn [rewritten rev] in *. rewrite tip_cons.
  eapply segment_app; [apply IH; intros r' Hr'; apply Hm; by right|].
  apply segment_cons; [apply Hm; by left|done|constructor].
Qed.

Lemma rewritten_verified m stop l : ∀ previous,
  (∀ r, r ∈ rewritten previous l → m !! rec_id r = Some r) → stop ∉ ids (rewritten previous l) →
  verified m stop (tip previous (rewritten previous l)) (rev (rewritten previous l)) previous.
Proof.
  induction l as [|r l IH]; intros previous Hm Hs; [constructor|]. cbn [rewritten rev ids map] in *. rewrite tip_cons.
  apply not_elem_of_cons in Hs as [Hs1 Hs2].
  eapply verified_app; [apply IH; [intros r' Hr'; apply Hm; by right|done]|].
  apply verified_cons; [apply Hm; by left|apply newRecord_hash|done|constructor].
Qed.

Lemma rewritten_contents l : ∀ previous, map content (rewritten previous l) = map (λ r, jsonCopy (content r)) l.
Proof. induction l as [|r l IH]; intros previous; cbn; [done|]. by rewrite IH. Qed.

Lemma segment_last m x l r y : segment m x (l ++ [r]) y → y = previousId r ∧ m !! rec_id r = Some r.
Proof.
  revert x. induction l as [|r' l IH]; intros x; cbn; inversion 1 as [|? ? ? ? Hx Hid Hl]; subst; [|by eapply IH].
  inversion Hl; subst. done.
Qed.

Lemma segment_head m x l y : segment m x l y → l ≠ [] → ∃ r, r ∈ l ∧ m !! x = Some r ∧ rec_id r = x.
Proof. destruct 1 as [|x r l y]; [done|]. intros _. exists r. split; [by left|done]. Qed.

Lemma verified_moved m m' stop x l y :
  segment m x l y → verified m stop x l y → (∀ r, r ∈ l → m' !! rec_id r = Some r) → verified m' stop x l y.
Proof.
  induction 1 as [|x r l y Hx Hid Hl IH]; inversion 1; subst; intros Hm; constructor; try done; [apply Hm; by left|].
  apply IH; [done|]. intros r' Hr'. apply Hm. by right.
Qed.

(** Removing a range of the log keeps it right: what is older is untouched, what is
    more recent is made again over it and nothing else is left, and a check that passed
    on the older records passes from the new last identifier.  But the recent records
    are put back from the newest to the oldest: their order is reversed. *)
Theorem deleteRangeAndRewrite_correct fuel s last recents newest range oldestRecord older stop :
  (∀ id, put_fails id = false) → lastId s = Some last →
  segment (records s) last recents newest → segment (records s) newest (range ++ [oldestRecord]) (previousId oldestRecord) →
  segment (records s) (previousId oldestRecord) older stop →
  NoDup (ids (recents ++ (range ++ [oldestRecord]) ++ older)) → (length (recents ++ range) ≤ fuel)%nat →
  let new := rewritten (previousId oldestRecord) recents in
  NoDup (ids new) → (∀ id, id ∈ ids new → records s !! id = None) →
  ∃ s' last', deleteRangeAndRewrite fuel newest (rec_id oldestRecord) s = (Ok tt, s') ∧ lastId s' = Some last'
    ∧ segment (records s') last' (rev new ++ older) stop
    ∧ map content (rev new) = rev (map (λ r, jsonCopy (content r)) recents)
    ∧ (∀ r, r ∈ recents ++ range ++ [oldestRecord] → records s' !! rec_id r = None)
    ∧ (verified (records s) stop (previousId oldestRecord) older stop → stop ∉ ids new →
       verified (records s') stop last' (rev new ++ older) stop).
Proof.
  intros Hp Hlast Hrec Hran Hold Hn Hf new Hnew Hfresh. rewrite length_app in Hf.
  destruct (segment_head _ _ _ _ Hran) as (rn & Hrn & Hx & Hid); [by destruct range|].
  destruct (segment_last _ _ _ _ _ Hran) as [_ Ho]. unfold ids in Hn. rewrite map_app, (map_app _ (range ++ _)) in Hn.
  apply NoDup_app in Hn as (Hn1 & Hd1 & [Hn2 [Hd2 Hn3]]%NoDup_app).
  assert (∀ r l, r ∈ l → rec_id r ∈ ids l) as Hids by (intros r l Hr; by apply (list_elem_of_fmap_2 rec_id)).
  unfold deleteRangeAndRewrite. unfold mbind at 1, M_bind at 1, gets at 1. rewrite Hx, Ho, Hlast.
  rewrite (recent_run _ _ recents newest fuel rn Hrec Hx Hid) by (done || lia || (intros Hin; apply (Hd1 newest); [done|];
    apply elem_of_app; left; rewrite <- Hid; by apply Hids)).
  unfold mbind, M_bind, or_endless, mret, M_ret.
  rewrite (delete_range_run oldestRecord range newest (previousId oldestRecord) fuel s) by (done || lia). cbn [setLastId modify].
  destruct (rewrite_run recents (previousId oldestRecord)
    (mkStorage (without (ids (range ++ [oldestRecord])) (records s)) (Some (previousId oldestRecord))))
    as (s' & Hrun & Hl' & Hin & Hout); [done|done|done| |].
  { intros id Hin Hr. apply Hfresh in Hin. apply (list_elem_of_fmap rec_id) in Hr as (r & -> & Hr).
    rewrite (segment_lookup _ _ _ _ _ Hrec Hr) in Hin. done. }
  fold new in Hin, Hout, Hl'. exists s', (tip (previousId oldestRecord) new). split; [exact Hrun|]. split; [done|].
  assert (∀ r, records s !! rec_id r = Some r → rec_id r ∉ ids new) as Hnot by (intros r Hr Hi; apply Hfresh in Hi; congruence).
  assert (∀ r, r ∈ older → records s' !! rec_id r = Some r) as Hkeep.
  { intros r Hr. pose proof (segment_lookup _ _ _ _ _ Hold Hr) as Hm. rewrite Hout by auto. cbn [records].
    rewrite bool_decide_eq_false_2, without_lookup, bool_decide_eq_false_2; [done| |].
    - intros Hi. apply (Hd2 (rec_id r)); [done|by apply Hids].
    - intros Hi. apply (Hd1 (rec_id r)); [done|]. apply elem_of_app. right. by apply Hids. }
  split; [|split; [|split]].
  - eapply segment_app; [by apply rewritten_segment|]. by eapply segment_agree.
  - rewrite map_rev. unfold new. by rewrite rewritten_contents.
  - intros r Hr. apply elem_of_app in Hr as [Hr|Hr].
    + rewrite Hout by (apply Hnot, (segment_lookup _ _ _ _ _ Hrec Hr)). rewrite bool_decide_eq_true_2; [done|by apply Hids].
    + rewrite Hout by (apply Hnot, (segment_lookup _ _ _ _ _ Hran Hr)). case_bool_decide; [done|]. cbn [records].
      rewrite without_lookup, bool_decide_eq_true_2; [done|by apply Hids].
  - intros Hver Hstop. eapply verified_app; [by apply rewritten_verified|]. by eapply verified_moved.
Qed.
End audit.

(** ** A log *)

(** A text that tells the values of the samples apart. *)
Fixpoint text_of (v : jsval) : jstring :=
  match v with
  | VStr s => s
  | VArr l => js "[" ++ flat_map (λ v, text_of v ++ js ",") l ++ js "]"
  | VObj _ l => js "{" ++ flat_map (λ m, m.1 ++ js ":" ++ text_of m.2 ++ js ",") l ++ js "}"
  | _ => js "?"
  end.
Definition test_hash (algorithm : option jstring) (content : jsval) (previous : jstring) : jstring :=
  text_of content ++ js "<" ++ previous.
Definition text (s : string) : jsval := VStr (js s).
Definition no_failure (id : jstring) : bool := false.

Definition log_of (contents : list string) : Storage :=
  foldl (λ s c, (add test_hash (λ x, x) no_failure (text c) s).2) (mkStorage ∅ None) contents.
Definition abcd : Storage := log_of ["a"; "b"; "c"; "d"].
Definition test_record (previous : jstring) (c : string) : AuditRecord := newRecord test_hash (λ x, x) previous (text c).
Definition record_a := test_record NULL_ID "a".
Definition record_b := test_record (rec_id record_a) "b".
Definition record_c := test_record (rec_id record_b) "c".
Definition record_d := test_record (rec_id record_c) "d".

Lemma checkIntegrity_decides_witness :
  match checkIntegrity test_hash 4 abcd NULL_ID (rec_id record_d) with
  | inr n => ∃ l, n = length l ∧ verified test_hash (records abcd) NULL_ID (rec_id record_d) l NULL_ID
  | inl (MissingRecord id n) => ∃ l, n = length l ∧ verified test_hash (records abcd) NULL_ID (rec_id record_d) l id ∧ id ≠ NULL_ID ∧
      records abcd !! id = None
  | inl (AlteredRecord id n c p) => ∃ l r, n = length l ∧ verified test_hash (records abcd) NULL_ID (rec_id record_d) l id ∧
      id ≠ NULL_ID ∧ records abcd !! id = Some r ∧ c = content r ∧ p = previousId r ∧ id ≠ createHash test_hash c p (algorithm_of id)
  | inl Endless => ∃ z l, l ≠ [] ∧ verified test_hash (records abcd) NULL_ID z l z
  end.
Proof.
  apply (checkIntegrity_decides test_hash 4 abcd NULL_ID (rec_id record_d)); [left; vm_compute; reflexivity|].
  apply Nat.leb_le. vm_compute. reflexivity.
Defined.

Definition object (fields : list (string * jsval)) : jsval := VObj true (map (λ f, (js f.1, f.2)) fields).
Definition call (vm : string) : jsval :=
  object [("event", text "apiCall"); ("data", object [("method", text "vm.delete"); ("params", object [("id", text vm)])])]%string.
Definition record_call : AuditRecord := newRecord test_hash (λ x, x) (rec_id record_d) (call "mine").
Definition with_call : Storage := (add test_hash (λ x, x) no_failure (call "mine") abcd).2.
Definition altered_call : Storage :=
  mkStorage (<[rec_id record_call := mkRecord (rec_id record_call) (call "yours") (rec_id record_d)]> (records with_call)) (lastId with_call).

Lemma tampering_detected_witness :
  (∃ l l', verified test_hash (records with_call) NULL_ID (rec_id record_call) l NULL_ID ∧
     verified test_hash (records altered_call) NULL_ID (rec_id record_call) l' NULL_ID ∧
     5%nat = length l ∧ 5%nat = length l' ∧ map says l = map says l') ∨ collision test_hash.
Proof. apply (tampering_detected test_hash 5 5 with_call altered_call NULL_ID (rec_id record_call)); vm_compute; reflexivity. Defined.

Lemma add_extends_witness :
  let new := newRecord test_hash (λ x, x) (rec_id record_d) (text "e") in
  let '(r, s') := add test_hash (λ x, x) no_failure (text "e") abcd in
  match r with
  | Ok r => r = new ∧ lastId s' = Some (rec_id new) ∧ records s' = <[rec_id new := new]> (records abcd)
  | Throw _ => s' = abcd
  end ∧ ∀ oldest l, records abcd !! rec_id new = None → rec_id new ≠ oldest →
    verified test_hash (records abcd) oldest (rec_id record_d) l oldest →
    verified test_hash (<[rec_id new := new]> (records abcd)) oldest (rec_id record_d) l oldest ∧
    match r with Ok _ => verified test_hash (records s') oldest (rec_id new) (new :: l) oldest | Throw _ => True end.
Proof. apply (add_extends test_hash (λ x, x) no_failure (text "e") abcd). reflexivity. Defined.

Lemma exclusive_witness :
  ∃ s, lock_run [AcquireLock; AcquireLock; Enter 0; Release 0; Enter 1] s ∧
    (0%nat ∈ inside s → 0%nat = 1%nat) ∧ ((0 < 1)%nat → 0%nat ∈ released s).
Proof.
  assert (lock_run [AcquireLock; AcquireLock; Enter 0; Release 0; Enter 1]
    (mkLock 2 ({[0%nat]} ∪ ∅) ({[1%nat]} ∪ (({[0%nat]} ∪ ∅) ∖ {[0%nat]})))) as Hrun.
  { apply (run_step [AcquireLock; AcquireLock; Enter 0; Release 0] (mkLock 2 ({[0%nat]} ∪ ∅) (({[0%nat]} ∪ ∅) ∖ {[0%nat]}))).
    2:{ apply step_enter; [lia|set_solver|set_solver|right; set_solver]. }
    apply (run_step [AcquireLock; AcquireLock; Enter 0] (mkLock 2 ∅ ({[0%nat]} ∪ ∅))); [|apply step_release; set_solver].
    apply (run_step [AcquireLock; AcquireLock] (mkLock 2 ∅ ∅)); [|apply step_enter; [lia|set_solver|set_solver|by left]].
    apply (run_step [AcquireLock] (mkLock 1 ∅ ∅)); [|constructor]. apply (run_step [] (mkLock 0 ∅ ∅)); constructor. }
  eexists. split; [exact Hrun|]. apply (exclusive _ _ 1 0 Hrun). set_solver.
Defined.

Lemma deleteRangeAndRewrite_correct_witness :
  let new := rewritten test_hash (λ x, x) (rec_id record_a) [record_d; record_c] in
  ∃ s' last', deleteRangeAndRewrite test_hash (λ x, x) no_failure 4 (rec_id record_b) (rec_id record_b) abcd = (Ok tt, s')
    ∧ lastId s' = Some last'
    ∧ segment (records s') last' (rev new ++ [record_a]) NULL_ID
    ∧ map content (rev new) = rev (map (λ r, content r) [record_d; record_c])
    ∧ (∀ r, r ∈ [record_d; record_c] ++ [] ++ [record_b] → records s' !! rec_id r = None)
    ∧ (verified test_hash (records abcd) NULL_ID (rec_id record_a) [record_a] NULL_ID → NULL_ID ∉ ids new →
       verified test_hash (records s') NULL_ID last' (rev new ++ [record_a]) NULL_ID).
Proof.
  apply (deleteRangeAndRewrite_correct test_hash (λ x, x) no_failure 4 abcd (rec_id record_d) [record_d; record_c]
    (rec_id record_b) [] record_b [record_a] NULL_ID).
  - done.
  - vm_compute. reflexivity.
  - apply segment_cons; [vm_compute; reflexivity..|]. apply segment_cons; [vm_compute; reflexivity..|]. apply segment_nil.
  - apply segment_cons; [vm_compute; reflexivity..|]. apply segment_nil.
  - apply segment_cons; [vm_compute; reflexivity..|]. apply segment_nil.
  - apply (bool_decide_unpack _). vm_compute. exact I.
  - apply Nat.leb_le. vm_compute. reflexivity.
  - apply (bool_decide_unpack _). vm_compute. exact I.
  - assert (Forall (λ id, records abcd !! id = None) (ids (rewritten test_hash (λ x, x) (rec_id record_a) [record_d; record_c]))) as Hf.
    { repeat constructor; vm_compute; reflexivity. }
    intros id Hid. rewrite Forall_forall in Hf. by apply Hf.
Defined.

(** ** Behaviours that the theorems show or leave out *)

Definition contents_of (s : Storage) : option (list jsval) :=
  match lastId s with Some last => map content <$> getFrom 9 (records s) last | None => Some [] end.

Definition lose (id : jstring) (s : Storage) : Storage := mkStorage (delete id (records s)) (lastId s).
Definition alter (id : jstring) (r : AuditRecord) (s : Storage) : Storage :=
  mkStorage (<[id := r]> (records s)) (lastId s).

Example loss_found : checkIntegrity test_hash 9 (lose (rec_id record_b) abcd) NULL_ID (rec_id record_d)
  = inl (MissingRecord (rec_id record_b) 2).
Proof. vm_compute. reflexivity. Qed.

Example alteration_found :
  checkIntegrity test_hash 9 (alter (rec_id record_c) (mkRecord (rec_id record_c) (text "x") (rec_id record_b)) abcd) NULL_ID (rec_id record_d)
  = inl (AlteredRecord (rec_id record_c) 1 (text "x") (rec_id record_b)).
Proof. vm_compute. reflexivity. Qed.

(** A member named [id] in the data of a record was changed: the check succeeds. *)
Example nested_id_unseen :
  content <$> records altered_call !! rec_id record_call = Some (call "yours")
  ∧ checkIntegrity test_hash 9 altered_call NULL_ID (rec_id record_call) = inr 5%nat.
Proof. split; vm_compute; reflexivity. Qed.

(** The recent records come back in the reverse order. *)
Example rewrite_reverses :
  contents_of abcd = Some (map text ["d"; "c"; "b"; "a"]%string) ∧
  contents_of (deleteRangeAndRewrite test_hash (λ x, x) no_failure 9 (rec_id record_a) (rec_id record_a) abcd).2
  = Some (map text ["b"; "c"; "d"]%string).
Proof. split; vm_compute; reflexivity. Qed.

(** With the two ends exchanged, the records that are older than both are lost. *)
Example exchanged_ends_lose :
  contents_of (deleteRangeAndRewrite test_hash (λ x, x) no_failure 9 (rec_id record_b) (rec_id record_c) abcd).2
  = Some (map text ["c"; "d"]%string).
Proof. vm_compute. reflexivity. Qed.

(** A record altered to follow itself makes the search of an identifier endless: nothing
    checks the hashes on the way. *)
Example circle_is_endless fuel :
  let s := alter (rec_id record_d) (mkRecord (rec_id record_d) (text "d") (rec_id record_d)) abcd in
  checkIntegrity test_hash fuel s NULL_ID (rec_id record_b) = inl Endless.
Proof.
  intros s. unfold checkIntegrity. rewrite bool_decide_eq_false_2 by (vm_compute; done).
  assert (lastId s = Some (rec_id record_d)) as -> by (vm_compute; reflexivity).
  assert (records s !! rec_id record_d = Some (mkRecord (rec_id record_d) (text "d") (rec_id record_d))) as Hd by (vm_compute; reflexivity).
  assert (reaches fuel (records s) (rec_id record_d) (rec_id record_b) = None) as ->; [|done].
  induction fuel as [|fuel IH]; cbn [reaches]; rewrite Hd, bool_decide_eq_false_2 by (vm_compute; done); [done|exact IH].
Qed.
