(* ===== verification/Tasks.v ===== *)
(** * Tasks

    [@vates/task]: a task emits its start, what happens to it and its end; a task that is
    created while another one runs is its subtask, and [combineEvents.js] makes the tree
    of the logs from the events.

    Tasks are numbered by their creation, which stands for their unique identifier.  The
    values (results, errors, reasons, data) and the serialisation of errors are
    parameters.  An asynchronous function is run in two steps, its call and the settling
    of its promise, so that anything can happen in between. *)

From stdpp Require Import gmap list.
From S2P Require Import Prelude JsValues.

Local Open Scope Z_scope.

Inductive Status := PENDING | SUCCESS | FAILURE.
#[export] Instance Status_eq_dec : EqDecision Status.
Proof. solve_decision. Defined.

Section task.
Context {V : Type} (serializeError : V → V).

Abbreviation properties := (list (jstring * V)).

Inductive EventType :=
  | EvStart (props : option properties) (parentId : option nat)
  | EvInfo (message : jstring) (data : V)
  | EvWarning (message : jstring) (data : V)
  | EvProperty (name : jstring) (value : V)
  | EvAbortionRequested (reason : V)
  | EvEnd (status : Status) (result : V).

Record Event := mkEvent { ev_id : nat; timestamp : Z; type : EventType }.

(** ** The state of the tasks

    [_onProgress] is nothing, the function of the root task, or [alreadyEnded]. *)

Inductive Sink := Noop | Handler | AlreadyEnded.

Record Task := mkTask {
  startData : option (option properties * option nat);
  status : Status;
  running : bool;
  aborted : bool;
  sink : Sink;
  listeners : list nat;
}.

Definition with_startData (d : option (option properties * option nat)) (t : Task) : Task :=
  mkTask d (status t) (running t) (aborted t) (sink t) (listeners t).
Definition with_running (b : bool) (t : Task) : Task :=
  mkTask (startData t) (status t) b (aborted t) (sink t) (listeners t).
Definition with_aborted (t : Task) : Task :=
  mkTask (startData t) (status t) (running t) true (sink t) (listeners t).
Definition with_listener (i : nat) (t : Task) : Task :=
  mkTask (startData t) (status t) (running t) (aborted t) (sink t) (listeners t ++ [i]).
Definition with_end (st : Status) (t : Task) : Task :=
  mkTask (startData t) st (running t) (aborted t) AlreadyEnded (listeners t).

Section progress.
Context {S : Type} (onProgress : Event → M S unit).

Record State := mkState { tasks : list Task; clock : Z; out : S }.

Definition getTask (i : nat) : M State Task := λ s,
  match tasks s !! i with Some t => (Ok t, s) | None => (Throw (OtherError "no such task"), s) end.
Definition update (i : nat) (f : Task → Task) : M State unit :=
  modify (λ s, mkState (alter f i (tasks s)) (clock s) (out s)).

(** ** Operations *)

(** [#emit] *)
Definition emit (i : nat) (ty : EventType) : M State unit :=
  t ← getTask i;
  match startData t, sink t with
  | Some _, _ => lift (Throw (AssertionError "task has not started yet"))
  | None, AlreadyEnded => lift (Throw (OtherError "task has already ended"))
  | None, Noop => mret tt
  | None, Handler => λ s, let '(r, o) := onProgress (mkEvent i (clock s) ty) (out s) in (r, mkState (tasks s) (clock s) o)
  end.

Definition assertPending (t : Task) : M State unit :=
  if bool_decide (status t = PENDING) then mret tt else lift (Throw (AssertionError "status")).
Definition assertNotRunning (t : Task) : M State unit :=
  if running t then lift (Throw (AssertionError "running")) else mret tt.

(** [#end] *)
Definition end_ (i : nat) (st : Status) (result : V) : M State unit :=
  t ← getTask i; assertPending t ;; assertNotRunning t ;;
  emit i (EvEnd st (serializeError result)) ;; update i (with_end st).

Definition failure (i : nat) (error : V) : M State unit := end_ i FAILURE error.
Definition success (i : nat) (result : V) : M State unit := end_ i SUCCESS result.
Definition info (i : nat) (message : jstring) (data : V) : M State unit := emit i (EvInfo message data).
Definition warning (i : nat) (message : jstring) (data : V) : M State unit :=
  t ← getTask i; assertPending t ;; emit i (EvWarning message data).
Definition set_property (i : nat) (name : jstring) (value : V) : M State unit :=
  t ← getTask i; assertPending t ;; emit i (EvProperty name value).

Definition start (i : nat) : M State unit :=
  t ← getTask i;
  match startData t with
  | None => lift (Throw (AssertionError "task has already started"))
  | Some (props, parentId) => update i (with_startData None) ;; emit i (EvStart props parentId)
  end.

(** [#maybeStart] *)
Definition maybeStart (i : nat) : M State unit :=
  t ← getTask i; match startData t with Some _ => start i | None => mret tt end.

(** [runInside], up to the call of the function. *)
Definition runInside (i : nat) : M State unit :=
  t ← getTask i; assertPending t ;; assertNotRunning t ;; update i (with_running true) ;; maybeStart i.

(** The promise of the function is settled. *)
Definition settle (i : nat) (r : V + V) : M State unit :=
  t ← getTask i;
  if running t then
    update i (with_running false) ;; match r with inl _ => mret tt | inr error => end_ i FAILURE error end
  else mret tt.

(** The end of [run], once [runInside] succeeded. *)
Definition finish_run (i : nat) (result : V) : M State unit :=
  t ← getTask i; if bool_decide (status t = PENDING) then end_ i SUCCESS result else mret tt.

(** What a listener throws does not stop the others.  (It is thrown again as an uncaught
    exception of the process, which is not modelled.) *)
Definition swallow (m : M State unit) : M State unit := λ s, (Ok tt, (m s).2).

(** The listener of the task itself. *)
Definition onAbort (i : nat) (reason : V) : M State unit :=
  t ← getTask i;
  if bool_decide (status t = PENDING) then
    maybeStart i ;; emit i (EvAbortionRequested reason) ;;
    t ← getTask i; if running t then mret tt else end_ i FAILURE reason
  else mret tt.

(** [abort]: a signal is raised once; the listeners of the subtasks were added after the
    one of the task. *)
Fixpoint abort (fuel : nat) (i : nat) (reason : V) : M State unit :=
  match fuel with
  | O => lift (Throw (OtherError "fuel"))
  | Datatypes.S fuel =>
      t ← getTask i;
      if aborted t then mret tt
      else update i with_aborted ;; swallow (onAbort i reason) ;;
           t ← getTask i; for_each (listeners t) (λ c, abort fuel c reason)
  end.

(** [new Task]: [parent] is the task that runs, [own] whether [onProgress] is given. *)
Definition new_task (own : bool) (parent : option nat) (props : option properties) : M State unit := λ s,
  let i := length (tasks s) in
  match (if own then None else parent ≫= λ p, (λ t, (p, t)) <$> tasks s !! p) with
  | Some (p, t) =>
      (Ok tt, mkState (alter (with_listener i) p (tasks s) ++ [mkTask (Some (props, Some p)) PENDING false false (sink t) []]) (clock s) (out s))
  | None =>
      (Ok tt, mkState (tasks s ++ [mkTask (Some (props, None)) PENDING false false (if own then Handler else Noop) []]) (clock s) (out s))
  end.

Inductive Op :=
  | OpNew (own : bool) (parent : option nat) (props : option properties)
  | OpAbort (i : nat) (reason : V)
  | OpStart (i : nat) | OpSuccess (i : nat) (v : V) | OpFailure (i : nat) (v : V)
  | OpInfo (i : nat) (m : jstring) (v : V) | OpWarning (i : nat) (m : jstring) (v : V) | OpSet (i : nat) (n : jstring) (v : V)
  | OpRunInside (i : nat) | OpSettle (i : nat) (r : V + V) | OpFinishRun (i : nat) (v : V)
  | OpTick (d : Z).

Definition exec (op : Op) : M State unit :=
  match op with
  | OpNew own parent props => new_task own parent props
  | OpAbort i reason => λ s, abort (length (tasks s)) i reason s
  | OpStart i => start i
  | OpSuccess i v => success i v
  | OpFailure i v => failure i v
  | OpInfo i m v => info i m v
  | OpWarning i m v => warning i m v
  | OpSet i n v => set_property i n v
  | OpRunInside i => runInside i
  | OpSettle i r => settle i r
  | OpFinishRun i v => finish_run i v
  | OpTick d => modify (λ s, mkState (tasks s) (clock s + Z.abs d) (out s))
  end.

(** Whatever is thrown, the program goes on. *)
Definition exec_all (ops : list Op) (s : State) : State := foldl (λ s op, (exec op s).2) s ops.
End progress.

(** ** The logs ([combineEvents.js])

    A log refers to its subtasks; [active] is the map of the tasks that go on. *)

Record TaskLog := mkLog {
  log_properties : properties;
  log_start : Z;
  log_status : Status;
  log_infos : list (jstring * V);
  log_warnings : list (jstring * V);
  log_tasks : list nat;
  log_aborted : option Z;
  log_end : option (Z * V);
  log_root : option nat;
}.

Inductive Call := OnRootTaskStart (i : nat) | OnRootTaskEnd (i : nat) | OnTaskUpdate (i : nat).

Record Logs := mkLogs { logs : gmap nat TaskLog; active : gset nat; calls : list Call }.

Definition add_call (c : Call) : M Logs unit := modify (λ s, mkLogs (logs s) (active s) (calls s ++ [c])).
Definition set_log (i : nat) (l : TaskLog) : M Logs unit := modify (λ s, mkLogs (<[i := l]> (logs s)) (active s) (calls s)).

(** An assignment to a property of an object. *)
Fixpoint set_prop (name : jstring) (value : V) (p : properties) : properties :=
  match p with
  | [] => [(name, value)]
  | (n, v) :: p => if decide (n = name) then (n, value) :: p else (n, v) :: set_prop name value p
  end.

Definition update_log (e : Event) (l : TaskLog) : TaskLog :=
  match type e with
  | EvStart _ _ => l
  | EvInfo m d => mkLog (log_properties l) (log_start l) (log_status l) (log_infos l ++ [(m, d)]) (log_warnings l) (log_tasks l) (log_aborted l) (log_end l) (log_root l)
  | EvWarning m d => mkLog (log_properties l) (log_start l) (log_status l) (log_infos l) (log_warnings l ++ [(m, d)]) (log_tasks l) (log_aborted l) (log_end l) (log_root l)
  | EvProperty n v => mkLog (set_prop n v (log_properties l)) (log_start l) (log_status l) (log_infos l) (log_warnings l) (log_tasks l) (log_aborted l) (log_end l) (log_root l)
  | EvAbortionRequested _ => mkLog (log_properties l) (log_start l) (log_status l) (log_infos l) (log_warnings l) (log_tasks l) (Some (timestamp e)) (log_end l) (log_root l)
  | EvEnd st r => mkLog (log_properties l) (log_start l) st (log_infos l) (log_warnings l) (log_tasks l) (log_aborted l) (Some (timestamp e, r)) (log_root l)
  end.
Definition add_subtask (i : nat) (l : TaskLog) : TaskLog :=
  mkLog (log_properties l) (log_start l) (log_status l) (log_infos l) (log_warnings l) (log_tasks l ++ [i]) (log_aborted l) (log_end l) (log_root l).

Definition get_active (i : nat) : M Logs TaskLog := λ s,
  match logs s !! i with
  | Some l => if bool_decide (i ∈ active s) then (Ok l, s) else (Throw (AssertionError "undefined"), s)
  | None => (Throw (AssertionError "undefined"), s)
  end.

Definition makeOnProgress (e : Event) : M Logs unit :=
  let i := ev_id e in
  match type e with
  | EvStart props parentId =>
      let new root := mkLog (default [] props) (timestamp e) PENDING [] [] [] None None root in
      modify (λ s, mkLogs (<[i := new None]> (logs s)) ({[i]} ∪ active s) (calls s)) ;;
      match parentId with
      | None => set_log i (new (Some i)) ;; add_call (OnRootTaskStart i)
      | Some p =>
          parent ← get_active p;
          set_log i (new (log_root parent)) ;;
          parent ← get_active p; set_log p (add_subtask i parent)
      end
  | ty =>
      l ← get_active i;
      set_log i (update_log e l) ;;
      match ty with
      | EvEnd _ _ =>
          modify (λ s, mkLogs (logs s) (active s ∖ {[i]}) (calls s)) ;;
          if bool_decide (log_root l = Some i) then add_call (OnRootTaskEnd i) else mret tt
      | _ => mret tt
      end
  end ;;
  add_call (OnTaskUpdate i).

(** ** The events of a task *)

Inductive Phase := NotStarted | Going | Done (st : Status).

Definition next (ph : option Phase) (ty : EventType) : option Phase :=
  match ph, ty with
  | Some NotStarted, EvStart _ _ => Some Going
  | Some Going, EvStart _ _ => None
  | Some Going, EvEnd st _ => Some (Done st)
  | Some Going, _ => Some Going
  | _, _ => None
  end.

Definition events_of (i : nat) (log : list Event) : list Event := filter (λ e, ev_id e = i) log.

(** A start, then anything, then at most an end. *)
Definition phase_of (i : nat) (log : list Event) : option Phase := foldl next (Some NotStarted) (map type (events_of i log)).

#[local] Arguments phase_of : simpl never.

Lemma events_of_snoc i log e : events_of i (log ++ [e]) = if decide (ev_id e = i) then events_of i log ++ [e] else events_of i log.
Proof. unfold events_of. rewrite filter_app, filter_cons, filter_nil. case_decide; [done|]. apply app_nil_r. Qed.

Lemma phase_of_snoc i log e :
  phase_of i (log ++ [e]) = if decide (ev_id e = i) then next (phase_of i log) (type e) else phase_of i log.
Proof. unfold phase_of. rewrite events_of_snoc. case_decide; [|done]. by rewrite map_app, foldl_app. Qed.

(** The events are recorded. *)
Definition record (e : Event) : M (list Event) unit := modify (λ l, l ++ [e]).

Record task_inv (log : list Event) (i : nat) (t : Task) : Prop := {
  ti_noop : sink t = Noop → status t = PENDING ∧ phase_of i log = Some NotStarted;
  ti_handler : sink t = Handler → status t = PENDING ∧
    phase_of i log = Some (match startData t with Some _ => NotStarted | None => Going end);
  ti_ended : sink t = AlreadyEnded → phase_of i log = Some NotStarted ∨ phase_of i log = Some (Done (status t)) ∧ startData t = None ∧ status t ≠ PENDING;
}.

Record inv (s : State (S := list Event)) : Prop := {
  inv_task i t : tasks s !! i = Some t → task_inv (out s) i t;
  inv_new i : tasks s !! i = None → phase_of i (out s) = Some NotStarted;
}.

(** [m] keeps [P], whether it returns or throws. *)
Definition stays {A} (P : State (S := list Event) → Prop) (m : M (State (S := list Event)) A) : Prop := ∀ s, P s → P (m s).2.
Abbreviation keeps := (stays inv).

Lemma keeps_ret {A} P (a : A) : stays P (mret a).
Proof. by intros s Hs. Qed.

Lemma keeps_lift {A} P (r : result A) : stays P (lift r).
Proof. by intros s Hs. Qed.

Lemma keeps_getTask P i : stays P (getTask i).
Proof. intros s Hs. unfold getTask. by destruct (tasks s !! i). Qed.

Lemma keeps_bind {A B} P (m : M _ A) (f : A → M _ B) : stays P m → (∀ a, stays P (f a)) → stays P (m ≫= f).
Proof.
  intros Hm Hf s Hs. unfold mbind, M_bind. specialize (Hm s Hs). destruct (m s) as [[a|e] s']; [by apply Hf|done].
Qed.

(** What changes neither the start, the status nor the sink. *)
Definition neutral (f : Task → Task) : Prop := ∀ t, startData (f t) = startData t ∧ status (f t) = status t ∧ sink (f t) = sink t.

Lemma task_inv_neutral f log i t : neutral f → task_inv log i t → task_inv log i (f t).
Proof. intros Hf [H1 H2 H3]. destruct (Hf t) as (E1 & E2 & E3). split; rewrite E3, ?E2, ?E1; auto. Qed.

Lemma inv_alter f i s :
  inv s → (∀ t, tasks s !! i = Some t → task_inv (out s) i (f t)) → inv (mkState (alter f i (tasks s)) (clock s) (out s)).
Proof.
  intros [H1 H2] Hf. split; cbn.
  - intros j t. destruct (decide (j = i)) as [->|Hj]; [rewrite list_lookup_alter_eq|rewrite list_lookup_alter_ne by done; apply H1].
    rewrite fmap_Some. intros (t0 & Ht & ->). auto.
  - intros j. destruct (decide (j = i)) as [->|Hj]; [rewrite list_lookup_alter_eq|rewrite list_lookup_alter_ne by done; apply H2].
    rewrite fmap_None. apply H2.
Qed.

Lemma keeps_update i f : neutral f → keeps (update (S := list Event) i f).
Proof. intros Hf s Hs. apply inv_alter; [done|]. intros t Ht. apply task_inv_neutral; [done|]. by apply Hs. Qed.

Lemma task_inv_other log i j e t : ev_id e = i → j ≠ i → task_inv log j t → task_inv (log ++ [e]) j t.
Proof. intros He Hj [H1 H2 H3]. split; rewrite phase_of_snoc, decide_False by congruence; auto. Qed.

(** An event of a task, which changes by [f]. *)
Lemma inv_emitted i e f t s :
  inv s → tasks s !! i = Some t → ev_id e = i → task_inv (out s ++ [e]) i (f t) →
  inv (mkState (alter f i (tasks s)) (clock s) (out s ++ [e])).
Proof.
  intros [H1 H2] Ht He Hf. split; cbn.
  - intros j t'. destruct (decide (j = i)) as [->|Hj].
    + rewrite list_lookup_alter_eq, Ht. by intros [= <-].
    + rewrite list_lookup_alter_ne by done. intros Hj'. apply (task_inv_other _ i); auto.
  - intros j. destruct (decide (j = i)) as [->|Hj]; [by rewrite list_lookup_alter_eq, Ht|].
    rewrite list_lookup_alter_ne by done. intros Hj'. rewrite phase_of_snoc, decide_False by congruence. auto.
Qed.

Lemma alter_same {A} (l : list A) i : alter (λ x, x) i l = l.
Proof. revert i. induction l as [|x l IH]; intros [|i]; try done. cbn. f_equal. apply IH. Qed.

Lemma keeps_emit i ty : next (Some Going) ty = Some Going → keeps (emit record i ty).
Proof.
  intros Hty s Hs. unfold emit, mbind, M_bind, getTask. destruct (tasks s !! i) as [t|] eqn:Ht; [|done].
  destruct (startData t) as [d|] eqn:Hd; [done|]. destruct (sink t) eqn:Hk; [done| |done]. cbn.
  rewrite <- (alter_same (tasks s) i). apply (inv_emitted i _ _ t); [done|done|done|].
  destruct (inv_task _ Hs i t Ht) as [_ Hh _]. specialize (Hh Hk) as [Hst Hp]. rewrite Hd in Hp.
  split; rewrite Hk; try done. intros _. split; [done|]. by rewrite phase_of_snoc, decide_True, Hp, Hd.
Qed.

Lemma keeps_start i : keeps (start record i).
Proof.
  intros s Hs. unfold start, mbind, M_bind, getTask. destruct (tasks s !! i) as [t|] eqn:Ht; [|done].
  destruct (startData t) as [[props p]|] eqn:Hd; [|done]. unfold update, modify, emit, mbind, M_bind, getTask. cbn [tasks].
  rewrite list_lookup_alter_eq, Ht. cbn [fmap option_fmap option_map with_startData startData sink].
  destruct (inv_task _ Hs i t Ht) as [Hn Hh He]. destruct (sink t) eqn:Hk; cbn.
  - apply inv_alter; [done|]. intros t'. rewrite Ht. intros [= <-]. split; cbn; rewrite Hk; try done; auto.
  - specialize (Hh eq_refl) as [Hst Hp]. rewrite Hd in Hp. apply (inv_emitted i _ _ t); [done|done|done|].
    split; cbn; rewrite Hk; try done. intros _. split; [done|]. by rewrite phase_of_snoc, decide_True, Hp.
  - apply inv_alter; [done|]. intros t'. rewrite Ht. intros [= <-]. split; cbn; rewrite Hk; try done. intros _.
    destruct (He eq_refl) as [?|(_ & ? & _)]; [by left|congruence].
Qed.

Lemma keeps_end i st v : st ≠ PENDING → keeps (end_ record i st v).
Proof.
  intros Hpend s Hs. unfold end_, mbind, M_bind, getTask. destruct (tasks s !! i) as [t|] eqn:Ht; [|done].
  unfold assertPending. case_bool_decide as Hst; [|done]. unfold assertNotRunning. destruct (running t); [done|]. cbn.
  unfold emit, mbind, M_bind, getTask. rewrite Ht. destruct (startData t) as [d|] eqn:Hd; [done|].
  destruct (inv_task _ Hs i t Ht) as [Hn Hh He]. destruct (sink t) eqn:Hk; [| |done]; unfold update, modify; cbn.
  - apply inv_alter; [done|]. intros t' _. split; cbn; try done. intros _. left. by apply Hn.
  - specialize (Hh eq_refl) as [_ Hp]. rewrite Hd in Hp. apply (inv_emitted i _ _ t); [done|done|done|].
    split; cbn; try done. intros _. right. split; [|done]. by rewrite phase_of_snoc, decide_True, Hp.
Qed.

Ltac keeps :=
  repeat first
    [ apply keeps_ret | apply keeps_lift | apply keeps_getTask | apply keeps_start | apply keeps_end; done
    | apply keeps_emit; done | apply keeps_update; done | apply keeps_bind; [|intros ?] | case_match ].

Lemma keeps_maybeStart i : keeps (maybeStart record i).
Proof. unfold maybeStart. keeps. Qed.

Lemma keeps_onAbort i reason : keeps (onAbort record i reason).
Proof.
  unfold onAbort. apply keeps_bind; [apply keeps_getTask|]. intros t. case_bool_decide; [|apply keeps_ret].
  apply keeps_bind; [apply keeps_maybeStart|]. intros _. keeps.
Qed.

Lemma keeps_for_each {A} P (xs : list A) f : (∀ x, stays P (f x)) → stays P (for_each xs f).
Proof. intros Hf. induction xs as [|x xs IH]; [apply keeps_ret|]. apply keeps_bind; [apply Hf|done]. Qed.

Lemma keeps_abort fuel : ∀ i reason, keeps (abort record fuel i reason).
Proof.
  induction fuel as [|fuel IH]; intros i reason; [apply keeps_lift|]. cbn [abort]. apply keeps_bind; [apply keeps_getTask|].
  intros t. destruct (aborted t); [apply keeps_ret|]. apply keeps_bind; [by apply keeps_update|]. intros _.
  apply keeps_bind; [intros s Hs; by apply keeps_onAbort|]. intros _. apply keeps_bind; [apply keeps_getTask|].
  intros t'. apply keeps_for_each. auto.
Qed.

Lemma inv_push s t :
  inv s → (∀ l, phase_of (length (tasks s)) l = Some NotStarted → task_inv l (length (tasks s)) t) →
  inv (mkState (tasks s ++ [t]) (clock s) (out s)).
Proof.
  intros [H1 H2] Ht. split; cbn; intros i.
  - intros t' [Hi|[Hi Hs]]%lookup_app_Some; [auto|]. destruct (i - length (tasks s))%nat as [|k] eqn:E; [|done].
    cbn in Hs. injection Hs as <-. assert (i = length (tasks s)) as -> by lia. apply Ht, H2, lookup_ge_None. lia.
  - intros Hi%lookup_ge_None. apply H2, lookup_ge_None. rewrite length_app in Hi. lia.
Qed.

Lemma keeps_new own parent props : keeps (new_task own parent props).
Proof.
  intros s Hs. unfold new_task. destruct (if own then _ else _) as [[p t]|] eqn:Hp; cbn.
  - pose proof (inv_alter (with_listener (length (tasks s))) p s Hs) as Ha.
    set (s' := mkState (alter (with_listener (length (tasks s))) p (tasks s)) (clock s) (out s)) in *.
    apply (inv_push s' (mkTask (Some (props, Some p)) PENDING false false (sink t) [])).
    + apply Ha. intros t' Ht'. apply task_inv_neutral; [done|]. by apply Hs.
    + intros l Hl. split; cbn; intros Hk; auto.
  - apply inv_push; [done|]. intros l Hl. destruct own; split; cbn; done.
Qed.

Lemma keeps_exec op : keeps (exec record op).
Proof.
  destruct op; cbn [exec].
  - apply keeps_new.
  - intros s Hs. by apply keeps_abort.
  - apply keeps_start.
  - by apply keeps_end.
  - by apply keeps_end.
  - by apply keeps_emit.
  - unfold warning, assertPending. keeps.
  - unfold set_property, assertPending. keeps.
  - unfold runInside, assertPending, assertNotRunning. keeps. all: apply keeps_maybeStart.
  - unfold settle. keeps.
  - unfold finish_run. keeps.
  - intros s Hs. split; cbn; apply Hs.
Qed.

Definition empty (now : Z) : State (S := list Event) := mkState [] now [].

Lemma exec_all_inv ops s : inv s → inv (exec_all record ops s).
Proof. revert s. induction ops as [|op ops IH]; intros s Hs; [done|]. apply IH. by apply keeps_exec. Qed.

Lemma inv_empty now : inv (empty now).
Proof. split; cbn; [done|]. done. Qed.

(** C29: Whatever is called, in any order, and whatever it throws, the events of a task
    are a start, then information, then at most an end, nothing after it; the end tells
    the status of the task, and a task that is reported is pending until then. *)
Theorem events_in_order ops now i :
  let s := exec_all record ops (empty now) in
  match tasks s !! i, phase_of i (out s) with
  | Some t, Some Going => startData t = None ∧ status t = PENDING ∧ sink t = Handler
  | Some t, Some (Done st) => startData t = None ∧ status t = st ∧ sink t = AlreadyEnded
  | Some t, Some NotStarted => sink t = Handler → status t = PENDING ∧ startData t ≠ None
  | None, Some NotStarted => True
  | _, _ => False
  end.
Proof.
  intros s. pose proof (exec_all_inv ops _ (inv_empty now)) as Hinv. fold s in Hinv.
  destruct (tasks s !! i) as [t|] eqn:Ht.
  2:{ by rewrite (inv_new _ Hinv i Ht). }
  destruct (inv_task _ Hinv i t Ht) as [Hn Hh He]. destruct (sink t) eqn:Hk.
  - destruct (Hn eq_refl) as [_ ->]. done.
  - destruct (Hh eq_refl) as [Hst ->]. destruct (startData t); [|done]. intros _. by split.
  - destruct (He eq_refl) as [->|(-> & ? & _)]; done.
Qed.

(** ** What the logs say

    The log of a task, from its events and those of its subtasks. *)

Definition parent_of (e : Event) : option nat := match type e with EvStart _ p => p | _ => None end.

(** Each event comes in its place, and a subtask starts while its parent goes on. *)
Inductive well_formed : list Event → Prop :=
  | well_formed_nil : well_formed []
  | well_formed_snoc log e :
      well_formed log → next (phase_of (ev_id e) log) (type e) ≠ None →
      (∀ p, parent_of e = Some p → phase_of p log = Some Going) → well_formed (log ++ [e]).

Definition infos_of (evs : list Event) : list (jstring * V) :=
  omap (λ e, match type e with EvInfo m d => Some (m, d) | _ => None end) evs.
Definition warnings_of (evs : list Event) : list (jstring * V) :=
  omap (λ e, match type e with EvWarning m d => Some (m, d) | _ => None end) evs.
Definition properties_of (evs : list Event) : properties :=
  foldl (λ p e, match type e with EvStart props _ => default [] props | EvProperty n v => set_prop n v p | _ => p end) [] evs.
Definition subtasks_of (i : nat) (log : list Event) : list nat :=
  omap (λ e, match parent_of e with Some p => if decide (p = i) then Some (ev_id e) else None | None => None end) log.
Definition aborted_of (evs : list Event) : option Z :=
  last (omap (λ e, match type e with EvAbortionRequested _ => Some (timestamp e) | _ => None end) evs).
Definition started_of (evs : list Event) : option (Z * option nat) :=
  last (omap (λ e, match type e with EvStart _ p => Some (timestamp e, p) | _ => None end) evs).
Definition ended_of (evs : list Event) : option (Status * (Z * V)) :=
  last (omap (λ e, match type e with EvEnd st r => Some (st, (timestamp e, r)) | _ => None end) evs).

Definition log_of (root : nat → option nat) (log : list Event) (i : nat) : option TaskLog :=
  let evs := events_of i log in
  '(ts, _) ← started_of evs;
  Some (mkLog (properties_of evs) ts (match ended_of evs with Some (st, _) => st | None => PENDING end)
    (infos_of evs) (warnings_of evs) (subtasks_of i log) (aborted_of evs) (snd <$> ended_of evs) (root i)).

Definition calls_of (root : nat → option nat) (e : Event) : list Call :=
  match type e with
  | EvStart _ None => [OnRootTaskStart (ev_id e)]
  | EvEnd _ _ => if decide (root (ev_id e) = Some (ev_id e)) then [OnRootTaskEnd (ev_id e)] else []
  | _ => []
  end ++ [OnTaskUpdate (ev_id e)].

(** [root]: the root task of each task. *)
Record logged (root : nat → option nat) (log : list Event) (s : Logs) : Prop := {
  lg_root i ts p : started_of (events_of i log) = Some (ts, p) → root i = match p with None => Some i | Some p => root p end;
  lg_top i r : root i = Some r → ∃ ts, started_of (events_of r log) = Some (ts, None);
  lg_some i : is_Some (root i) ↔ phase_of i log ≠ Some NotStarted;
  lg_children i : phase_of i log = Some NotStarted → subtasks_of i log = [];
  lg_logs i : logs s !! i = log_of root log i;
  lg_active i : i ∈ active s ↔ phase_of i log = Some Going;
  lg_calls : calls s = flat_map (calls_of root) log;
}.

Lemma next_started ph ty : next ph ty ≠ Some NotStarted.
Proof. by destruct ph as [[| |]|], ty. Qed.

Lemma phase_not_started i log : phase_of i log = Some NotStarted → events_of i log = [].
Proof.
  unfold phase_of. destruct (events_of i log) as [|e evs _] using rev_ind; [done|]. rewrite map_app, foldl_app. cbn.
  by intros ?%next_started.
Qed.

Lemma started_of_snoc evs e :
  started_of (evs ++ [e]) = match type e with EvStart _ p => Some (timestamp e, p) | _ => started_of evs end.
Proof. unfold started_of. rewrite omap_app. cbn. destruct (type e); rewrite ?app_nil_r; try done. by rewrite last_snoc. Qed.

Lemma ended_of_snoc evs e :
  ended_of (evs ++ [e]) = match type e with EvEnd st r => Some (st, (timestamp e, r)) | _ => ended_of evs end.
Proof. unfold ended_of. rewrite omap_app. cbn. destruct (type e); rewrite ?app_nil_r; try done. by rewrite last_snoc. Qed.

Lemma aborted_of_snoc evs e :
  aborted_of (evs ++ [e]) = match type e with EvAbortionRequested _ => Some (timestamp e) | _ => aborted_of evs end.
Proof. unfold aborted_of. rewrite omap_app. cbn. destruct (type e); rewrite ?app_nil_r; try done. by rewrite last_snoc. Qed.

Lemma subtasks_of_snoc i log e :
  subtasks_of i (log ++ [e]) = subtasks_of i log ++ (if decide (parent_of e = Some i) then [ev_id e] else []).
Proof.
  unfold subtasks_of. rewrite omap_app. f_equal. cbn. destruct (parent_of e) as [p|]; [|done].
  destruct (decide (p = i)) as [->|]; [by rewrite decide_True|]. rewrite decide_False; [done|]. by intros [= ->].
Qed.

(** The log of a task that goes on. *)
Lemma some_started i log ph : phase_of i log = Some ph → ph ≠ NotStarted → is_Some (started_of (events_of i log)).
Proof.
  unfold phase_of. revert ph. induction (events_of i log) as [|e evs IH] using rev_ind; intros ph; [by intros [= <-]|].
  rewrite map_app, foldl_app, started_of_snoc. cbn. destruct (foldl next _ _) as [[| |]|], (type e); try done; intros; try by eexists.
  all: by eapply IH.
Qed.

Lemma going_started i log : phase_of i log = Some Going → is_Some (started_of (events_of i log)).
Proof. intros Hp. by eapply some_started. Qed.

Lemma log_of_event (root : nat → option nat) log e :
  parent_of e ≠ Some (ev_id e) → (∀ props p, type e ≠ EvStart props p) →
  log_of root (log ++ [e]) (ev_id e) = update_log e <$> log_of root log (ev_id e).
Proof.
  intros Hp Hs. unfold log_of. rewrite events_of_snoc, decide_True by done. rewrite started_of_snoc, ended_of_snoc, aborted_of_snoc,
    subtasks_of_snoc, decide_False, app_nil_r by done. unfold infos_of, warnings_of, properties_of, update_log.
  rewrite !omap_app, foldl_app. cbn. destruct (type e) eqn:Et; [by edestruct Hs| | | | |]; rewrite ?app_nil_r.
  all: by destruct (started_of (events_of (ev_id e) log)) as [[ts p]|].
Qed.

Lemma log_of_other (root root' : nat → option nat) log e j :
  ev_id e ≠ j → parent_of e ≠ Some j → root' j = root j → log_of root' (log ++ [e]) j = log_of root log j.
Proof.
  intros He Hp Hr. unfold log_of. rewrite events_of_snoc, decide_False by done.
  by rewrite subtasks_of_snoc, decide_False, app_nil_r, Hr by done.
Qed.

Lemma log_of_parent (root root' : nat → option nat) log e p :
  ev_id e ≠ p → parent_of e = Some p → root' p = root p →
  log_of root' (log ++ [e]) p = add_subtask (ev_id e) <$> log_of root log p.
Proof.
  intros He Hp Hr. unfold log_of. rewrite events_of_snoc, decide_False by done.
  rewrite subtasks_of_snoc, decide_True, Hr by done. by destruct (started_of (events_of p log)) as [[ts q]|].
Qed.

Lemma log_of_start (root' : nat → option nat) log e props :
  events_of (ev_id e) log = [] → subtasks_of (ev_id e) log = [] → type e = EvStart props (parent_of e) → parent_of e ≠ Some (ev_id e) →
  log_of root' (log ++ [e]) (ev_id e) = Some (mkLog (default [] props) (timestamp e) PENDING [] [] [] None None (root' (ev_id e))).
Proof.
  intros He Hs Ht Hp. unfold log_of. rewrite events_of_snoc, decide_True, He by done. rewrite subtasks_of_snoc, Hs, decide_False by done.
  cbn [app]. unfold started_of, ended_of, aborted_of, infos_of, warnings_of, properties_of. cbn. by rewrite Ht.
Qed.

(** ** The logs follow the events *)

Lemma phase_other i log e : ev_id e ≠ i → phase_of i (log ++ [e]) = phase_of i log.
Proof. intros Hi. by rewrite phase_of_snoc, decide_False. Qed.

Lemma calls_before root root' log i :
  events_of i log = [] → (∀ j, j ≠ i → root' j = root j) → flat_map (calls_of root') log = flat_map (calls_of root) log.
Proof.
  intros He Hr. induction log as [|e log IH]; [done|]. unfold events_of in He. rewrite filter_cons in He.
  case_decide as Hi; [done|]. cbn. rewrite IH by done. f_equal. unfold calls_of. by rewrite Hr.
Qed.

(** A start gives the root of the task. *)
Lemma logged_start root log s e props s' :
  logged root log s → type e = EvStart props (parent_of e) → phase_of (ev_id e) log = Some NotStarted →
  (∀ p, parent_of e = Some p → phase_of p log = Some Going) →
  let i := ev_id e in
  let r := match parent_of e with None => Some i | Some p => root p end in
  let new := mkLog (default [] props) (timestamp e) PENDING [] [] [] None None r in
  (∀ j, logs s' !! j = if decide (j = i) then Some new
     else if decide (parent_of e = Some j) then add_subtask i <$> logs s !! j else logs s !! j) →
  active s' = {[i]} ∪ active s →
  calls s' = calls s ++ match parent_of e with None => [OnRootTaskStart i] | Some _ => [] end ++ [OnTaskUpdate i] →
  logged (λ j, if decide (j = i) then r else root j) (log ++ [e]) s'.
Proof.
  intros [Hroot Htop Hsome Hchild Hlogs Hactive Hcalls] Ht Hph Hpar i r new Hl Ha Hc.
  pose proof (phase_not_started _ _ Hph) as Hev. fold i in Hph, Hev.
  assert (parent_of e ≠ Some i) as Hself by (intros E; rewrite (Hpar i E) in Hph; done).
  assert (phase_of i (log ++ [e]) = Some Going) as Hgo by (rewrite phase_of_snoc, decide_True, Hph, Ht by done; done).
  assert (root i = None) as Hri.
  { destruct (root i) as [x|] eqn:E; [|done]. assert (is_Some (root i)) as H%Hsome by by rewrite E. done. }
  assert (started_of (events_of i (log ++ [e])) = Some (timestamp e, parent_of e)) as Hst.
  { rewrite events_of_snoc, decide_True by done. by rewrite started_of_snoc, Ht. }
  assert (∀ j, j ≠ i → events_of j (log ++ [e]) = events_of j log) as Hevs.
  { intros j Hj. rewrite events_of_snoc. by rewrite decide_False. }
  split.
  - intros j ts p. destruct (decide (j = i)) as [->|Hj].
    + rewrite Hst. intros [= <- <-]. unfold r. destruct (parent_of e) as [p|]; [|done]. by rewrite decide_False by congruence.
    + rewrite Hevs by done. intros Hs. rewrite (Hroot j ts p Hs). destruct p as [p|]; [|done]. case_decide as Hp; [subst p|done].
      exfalso. assert (is_Some (root j)) as [x Hx]; [|by rewrite (Hroot j ts (Some i) Hs), Hri in Hx].
      apply Hsome. intros E. apply phase_not_started in E. by rewrite E in Hs.
  - intros j x. destruct (decide (j = i)) as [->|Hj]; intros Hx.
    + unfold r in Hx. destruct (parent_of e) as [p|] eqn:Ep; [|injection Hx as <-; by eexists]. destruct (Htop p x Hx) as [ts Hts].
      exists ts. rewrite Hevs; [done|]. intros ->. by rewrite Hev in Hts.
    + destruct (Htop j x Hx) as [ts Hts]. exists ts. rewrite Hevs; [done|]. intros ->. by rewrite Hev in Hts.
  - intros j. case_decide as Hj; [subst j|rewrite phase_other by done; apply Hsome].
    rewrite Hgo. split; [done|]. intros _. unfold r. destruct (parent_of e) as [p|] eqn:Ep; [|by eexists].
    apply Hsome. by rewrite (Hpar p eq_refl).
  - intros j Hj. assert (j ≠ i) as Hji by (intros ->; by rewrite Hgo in Hj). rewrite phase_other in Hj by done.
    rewrite subtasks_of_snoc, (Hchild j Hj). case_decide as Hp; [|done]. by rewrite (Hpar j Hp) in Hj.
  - intros j. rewrite Hl. destruct (decide (j = i)) as [->|Hj].
    + unfold i. erewrite log_of_start; [|done|by apply Hchild|done|done]. fold i. by rewrite decide_True.
    + case_decide as Hp.
      * rewrite (log_of_parent root) by (done || by rewrite decide_False). by rewrite Hlogs.
      * rewrite (log_of_other root) by (done || by rewrite decide_False). apply Hlogs.
  - intros j. rewrite Ha, elem_of_union, elem_of_singleton, Hactive. destruct (decide (j = i)) as [->|Hj]; [rewrite Hgo; tauto|].
    rewrite phase_other by done. tauto.
  - rewrite Hc, flat_map_app, Hcalls. f_equal.
    + symmetry. apply (calls_before root _ log i Hev). intros j Hj. by rewrite decide_False.
    + cbn. rewrite app_nil_r. unfold calls_of. rewrite Ht. by destruct (parent_of e).
Qed.

Lemma logged_event root log s e s' :
  logged root log s → phase_of (ev_id e) log = Some Going → (∀ props p, type e ≠ EvStart props p) →
  let i := ev_id e in
  (∀ j, logs s' !! j = if decide (j = i) then update_log e <$> logs s !! j else logs s !! j) →
  active s' = match type e with EvEnd _ _ => active s ∖ {[i]} | _ => active s end →
  calls s' = calls s ++ calls_of root e → logged root (log ++ [e]) s'.
Proof.
  intros [Hroot Htop Hsome Hchild Hlogs Hactive Hcalls] Hph Ht i Hl Ha Hc. fold i in Hph.
  assert (parent_of e = None) as Hpar by (unfold parent_of; destruct (type e) eqn:E; [by edestruct Ht|done..]).
  assert (∀ j, started_of (events_of j (log ++ [e])) = started_of (events_of j log)) as Hst.
  { intros j. rewrite events_of_snoc. case_decide; [|done]. rewrite started_of_snoc. destruct (type e) eqn:E; [by edestruct Ht|done..]. }
  assert (∀ j, phase_of j (log ++ [e]) = if decide (i = j) then match type e with EvEnd st _ => Some (Done st) | _ => Some Going end
    else phase_of j log) as Hphase.
  { intros j. rewrite phase_of_snoc. fold i. case_decide as Hj; [subst j|done]. rewrite Hph. destruct (type e) eqn:E; [by edestruct Ht|done..]. }
  split.
  - intros j ts p. rewrite Hst. apply Hroot.
  - intros j r Hr. destruct (Htop j r Hr) as [ts Hts]. exists ts. by rewrite Hst.
  - intros j. rewrite Hsome, Hphase. case_decide as Hj; [subst j|done]. rewrite Hph. by destruct (type e).
  - intros j Hj. rewrite subtasks_of_snoc, Hpar, decide_False, app_nil_r by done. rewrite Hphase in Hj.
    case_decide; [by destruct (type e)|by apply Hchild].
  - intros j. rewrite Hl, Hlogs. destruct (decide (j = i)) as [->|Hj].
    + unfold i. rewrite log_of_event; [done|by rewrite Hpar|done].
    + symmetry. apply log_of_other; [done|by rewrite Hpar|done].
  - intros j. rewrite Ha, Hphase. destruct (decide (i = j)) as [<-|Hj].
    + destruct (type e) eqn:E; [by edestruct Ht|..]; rewrite ?elem_of_difference, Hactive, Hph; set_solver.
    + destruct (type e) eqn:E; rewrite ?elem_of_difference, Hactive; set_solver.
  - rewrite Hc, flat_map_app, Hcalls. cbn. by rewrite app_nil_r.
Qed.

Lemma run_snoc {S A} (xs : list A) x (f : A → M S unit) s s' :
  for_each xs f s = (Ok tt, s') → for_each (xs ++ [x]) f s = f x s'.
Proof.
  revert s. induction xs as [|y xs IH]; intros s; cbn [for_each app].
  - intros [= ->]. unfold mbind, M_bind, mret, M_ret. by destruct (f x s') as [[[]|] ?].
  - unfold mbind, M_bind. destruct (f y s) as [[[]|e] s1]; [apply IH|done].
Qed.

(** The events are in order for each task. *)
Lemma well_formed_phase log i : well_formed log → phase_of i log ≠ None.
Proof.
  induction 1 as [|log e _ IH Hn _]; [done|]. rewrite phase_of_snoc. case_decide; [by subst|done].
Qed.

Lemma active_log root log s i :
  logged root log s → phase_of i log = Some Going → ∃ l, logs s !! i = Some l ∧ i ∈ active s ∧ log_root l = root i.
Proof.
  intros Hl Hp. destruct (going_started i log Hp) as [[ts p] Hs]. pose proof (lg_logs _ _ _ Hl i) as Hi. unfold log_of in Hi.
  rewrite Hs in Hi. cbn in Hi. eexists. split; [exact Hi|]. split; [by apply (lg_active _ _ _ Hl)|done].
Qed.

Lemma get_active_run i l s : logs s !! i = Some l → i ∈ active s → get_active i s = (Ok l, s).
Proof. intros Hi Ha. unfold get_active. by rewrite Hi, bool_decide_eq_true_2. Qed.

Lemma consume_start root log s e props :
  logged root log s → type e = EvStart props (parent_of e) → phase_of (ev_id e) log = Some NotStarted →
  (∀ p, parent_of e = Some p → phase_of p log = Some Going) →
  ∃ root' s', makeOnProgress e s = (Ok tt, s') ∧ logged root' (log ++ [e]) s'.
Proof.
  intros Hl Ht Hph Hpar. exists (λ j, if decide (j = ev_id e) then match parent_of e with None => Some (ev_id e) | Some p => root p end else root j).
  unfold makeOnProgress. rewrite Ht. destruct (parent_of e) as [p|] eqn:Hp.
  - destruct (active_log root log s p Hl) as (lp & Hlp & Hap & Hr); [by apply Hpar|].
    assert (ev_id e ≠ p) as Hne by (intros E; specialize (Hpar p eq_refl); by rewrite <- E, Hph in Hpar).
    unfold mbind, M_bind, modify. rewrite (get_active_run p lp); cbn; [|by rewrite lookup_insert_ne|set_solver].
    unfold set_log, modify. rewrite (get_active_run p lp); cbn; [|by rewrite !lookup_insert_ne|set_solver].
    eexists. split; [done|]. pose proof (logged_start root log s e props) as Hs. rewrite Hp in Hs. cbn in Hs.
    apply Hs; clear Hs; try done; cbn. intros j. destruct (decide (j = ev_id e)) as [->|Hj].
    + rewrite lookup_insert_ne, lookup_insert_eq by done. by rewrite Hr.
    + destruct (decide (p = j)) as [->|Hpj]; [rewrite lookup_insert_eq, decide_True by done; by rewrite Hlp|].
      rewrite !lookup_insert_ne by done. rewrite decide_False; [done|]. by intros [= ->].
  - unfold mbind, M_bind, modify, set_log, add_call, modify. cbn. eexists. split; [done|].
    pose proof (logged_start root log s e props) as Hs. rewrite Hp in Hs. cbn in Hs. apply Hs; clear Hs; try done; cbn.
    + intros j. destruct (decide (j = ev_id e)) as [->|Hj]; [by rewrite lookup_insert_eq|by rewrite !lookup_insert_ne].
    + by rewrite <- app_assoc.
Qed.

Lemma consume_event root log s e :
  logged root log s → phase_of (ev_id e) log = Some Going → (∀ props p, type e ≠ EvStart props p) →
  ∃ s', makeOnProgress e s = (Ok tt, s') ∧ logged root (log ++ [e]) s'.
Proof.
  intros Hl Hph Ht. destruct (active_log root log s (ev_id e) Hl Hph) as (l & Hlo & Ha & Hr).
  pose proof (logged_event root log s e) as Hs.
  assert (∀ j, <[ev_id e := update_log e l]> (logs s) !! j = if decide (j = ev_id e) then update_log e <$> logs s !! j else logs s !! j) as Hj.
  { intros j. destruct (decide (j = ev_id e)) as [->|]; [by rewrite lookup_insert_eq, Hlo|by rewrite lookup_insert_ne]. }
  unfold makeOnProgress. destruct (type e) as [|m d|m d|n v|reason|st v] eqn:Et; [by edestruct Ht|..].
  5:{ unfold mbind, M_bind. rewrite (get_active_run _ l) by done. unfold set_log, modify. cbn. rewrite Hr. case_bool_decide as Hroot.
      all: unfold add_call, modify, mret, M_ret; cbn; eexists; (split; [done|]); apply Hs; try done; cbn.
      all: unfold calls_of; rewrite Et; case_decide; try done; by rewrite <- ?app_assoc. }
  all: unfold mbind, M_bind; rewrite (get_active_run _ l) by done; unfold set_log, modify, add_call, modify, mret, M_ret; cbn;
    eexists; (split; [done|]); apply Hs; try done; cbn; unfold calls_of; by rewrite Et.
Qed.

Lemma consumed log :
  well_formed log → ∃ root s, for_each log makeOnProgress (mkLogs ∅ ∅ []) = (Ok tt, s) ∧ logged root log s.
Proof.
  induction 1 as [|log e Hwf (root & s & Hrun & Hl) Hn Hp].
  - exists (λ _, None), (mkLogs ∅ ∅ []). split; [done|]. split; done.
  - rewrite (run_snoc _ _ _ _ s Hrun). destruct (phase_of (ev_id e) log) as [[| |st]|] eqn:Hph; [| |done|done].
    + destruct (type e) as [props p| | | | |] eqn:Ht; [|done..]. assert (p = parent_of e) as -> by (unfold parent_of; by rewrite Ht).
      by eapply consume_start.
    + destruct (consume_event root log s e Hl Hph) as (s' & ? & ?); [|by exists root, s'].
      intros props p Ht. by rewrite Ht in Hn.
Qed.

(** The logs that are made of the events of tasks, each in order and each subtask
    started while its parent went on, are what the events say: no event is refused, each
    task has one log with its properties, information, times, status and result, below
    the one of its parent and in the order of the starts, and the start and the end of
    each root task are notified once. *)
Theorem logs_follow_events log :
  well_formed log →
  ∃ root s, for_each log makeOnProgress (mkLogs ∅ ∅ []) = (Ok tt, s)
    ∧ (∀ i, logs s !! i = log_of root log i)
    ∧ (∀ i, i ∈ active s ↔ phase_of i log = Some Going)
    ∧ calls s = flat_map (calls_of root) log
    ∧ (∀ i ts p, started_of (events_of i log) = Some (ts, p) → root i = match p with None => Some i | Some p => root p end)
    ∧ ∀ i r, root i = Some r → ∃ ts, started_of (events_of r log) = Some (ts, None).
Proof. intros Hwf. destruct (consumed log Hwf) as (root & s & Hrun & []). by exists root, s. Qed.

(** ** From the tasks to the logs *)

(** Each subtask starts while its parent goes on. *)
Definition parents_going (log : list Event) : Prop :=
  ∀ l1 e l2 p, log = l1 ++ e :: l2 → parent_of e = Some p → phase_of p l1 = Some Going.

Lemma ordered_well_formed log : (∀ i, phase_of i log ≠ None) → parents_going log → well_formed log.
Proof.
  induction log as [|e log IH] using rev_ind; intros Hn Hp; [constructor|].
  assert (∀ i, phase_of i log ≠ None) as Hn'.
  { intros i E. apply (Hn i). rewrite phase_of_snoc, E. by case_decide. }
  constructor.
  - apply IH; [done|]. intros l1 e' l2 p ->. apply (Hp l1 e' (l2 ++ [e])). by rewrite <- app_assoc.
  - specialize (Hn (ev_id e)). by rewrite phase_of_snoc, decide_True in Hn.
  - intros p. by apply (Hp log e []).
Qed.

Lemma ended_phase i log :
  match phase_of i log with
  | Some (Done st) => ∃ x, ended_of (events_of i log) = Some (st, x)
  | Some _ => ended_of (events_of i log) = None
  | None => True
  end.
Proof.
  unfold phase_of. induction (events_of i log) as [|e evs IH] using rev_ind; [done|]. rewrite map_app, foldl_app, ended_of_snoc.
  cbn. destruct (foldl next _ _) as [[| |]|], (type e); cbn; try done. by eexists.
Qed.

Fixpoint parents_ok (before log : list Event) : bool :=
  match log with
  | [] => true
  | e :: log =>
      match parent_of e with Some p => match phase_of p before with Some Going => true | _ => false end | None => true end
      && parents_ok (before ++ [e]) log
  end.

Lemma parents_ok_going log : parents_ok [] log = true → parents_going log.
Proof.
  assert (∀ log before, parents_ok before log = true → ∀ l1 e l2 p,
    log = l1 ++ e :: l2 → parent_of e = Some p → phase_of p (before ++ l1) = Some Going) as H; [|exact (H log [])].
  clear. induction log as [|e log IH]; intros before Hok l1 e' l2 p Hlog Hp; [by destruct l1|].
  cbn in Hok. apply andb_true_iff in Hok as [He Hok]. destruct l1 as [|e1 l1]; cbn in Hlog; injection Hlog as -> ->.
  - rewrite app_nil_r. rewrite Hp in He. by destruct (phase_of p before) as [[]|].
  - specialize (IH _ Hok l1 e' l2 p eq_refl Hp). by rewrite <- app_assoc in IH.
Qed.

(** C28: Whatever is called on tasks, the events they report can be made into logs when
    each subtask starts while its parent goes on; then the status of a log is the one of
    its task, and a task has a log once it is reported to have started. *)
Theorem tasks_logged ops now :
  let s := exec_all record ops (empty now) in
  parents_going (out s) →
  ∃ st, for_each (out s) makeOnProgress (mkLogs ∅ ∅ []) = (Ok tt, st)
    ∧ ∀ i, match tasks s !! i, logs st !! i with
           | Some t, Some l => log_status l = status t ∧ startData t = None ∧ (i ∈ active st ↔ status t = PENDING)
           | Some t, None => sink t = Handler → startData t ≠ None
           | None, o => o = None
           end.
Proof.
  intros s Hp. pose proof (exec_all_inv ops _ (inv_empty now)) as Hinv. fold s in Hinv.
  assert (∀ i, phase_of i (out s) ≠ None) as Hn.
  { intros i E. destruct (tasks s !! i) as [t|] eqn:Ht; [|by rewrite (inv_new _ Hinv i Ht) in E].
    destruct (inv_task _ Hinv i t Ht) as [Hno Hh He]. destruct (sink t) eqn:Hk.
    - destruct (Hno eq_refl) as [_ ?]. congruence.
    - destruct (Hh eq_refl) as [_ ?]. congruence.
    - destruct (He eq_refl) as [?|[? _]]; congruence. }
  destruct (consumed (out s) (ordered_well_formed _ Hn Hp)) as (root & st & Hrun & [_ _ Hsome _ Hlogs Hactive _]).
  exists st. split; [done|]. intros i. rewrite Hlogs. unfold log_of. pose proof (ended_phase i (out s)) as He.
  assert (phase_of i (out s) = Some NotStarted → started_of (events_of i (out s)) = None) as Hnot.
  { intros E. by rewrite (phase_not_started _ _ E). }
  destruct (tasks s !! i) as [t|] eqn:Ht; [|by rewrite (Hnot (inv_new _ Hinv i Ht))].
  destruct (inv_task _ Hinv i t Ht) as [Hno Hh Hen]. destruct (sink t) eqn:Hk.
  - destruct (Hno eq_refl) as [_ E]. by rewrite (Hnot E).
  - destruct (Hh eq_refl) as [Hst E]. destruct (startData t) as [d|] eqn:Hd; [by rewrite (Hnot E)|].
    destruct (going_started _ _ E) as [[ts p] ->]. rewrite E in He. rewrite He. cbn. rewrite Hactive, E, Hst. done.
  - destruct (Hen eq_refl) as [E|(E & Hd & Hpd)]; [by rewrite (Hnot E)|]. destruct (some_started _ _ _ E) as [[ts p] ->]; [done|].
    rewrite E in He. destruct He as [x ->]. cbn. rewrite Hactive, E. done.
Qed.

(** ** An abortion ends *)

Definition shape (s : State (S := list Event)) : list (list nat) := map listeners (tasks s).

Lemma shape_alter f i (l : list Task) : (∀ t, listeners (f t) = listeners t) → map listeners (alter f i l) = map listeners l.
Proof.
  intros Hf. revert i. induction l as [|t l IH]; intros [|i]; cbn; try done; [by rewrite Hf|]. f_equal. apply IH.
Qed.

Section shapes.
Context (sh : list (list nat)).
Definition same (s : State (S := list Event)) : Prop := shape s = sh.

Lemma shape_update i f : (∀ t, listeners (f t) = listeners t) → stays same (update i f).
Proof. unfold same, shape. intros Hf s Hs. cbn. by rewrite shape_alter. Qed.

Lemma shape_emit i ty : stays same (emit record i ty).
Proof.
  unfold emit. apply keeps_bind; [apply keeps_getTask|]. intros t. case_match; [apply keeps_lift|].
  case_match; [apply keeps_ret|by intros s Hs|apply keeps_lift].
Qed.

Ltac shapes :=
  repeat first
    [ apply keeps_ret | apply keeps_lift | apply keeps_getTask | apply shape_emit | apply shape_update; done
    | apply keeps_bind; [|intros ?] | case_match ].

Lemma shape_start i : stays same (start record i).
Proof. unfold start. shapes. Qed.

Lemma shape_end i st v : stays same (end_ record i st v).
Proof. unfold end_, assertPending, assertNotRunning. shapes. Qed.

Lemma shape_maybeStart i : stays same (maybeStart record i).
Proof. unfold maybeStart. apply keeps_bind; [apply keeps_getTask|]. intros t. case_match; [apply shape_start|apply keeps_ret]. Qed.

Lemma shape_onAbort i reason : stays same (onAbort record i reason).
Proof.
  unfold onAbort. apply keeps_bind; [apply keeps_getTask|]. intros t. case_match; [|apply keeps_ret].
  apply keeps_bind; [apply shape_maybeStart|]. intros _. apply keeps_bind; [apply shape_emit|]. intros _.
  apply keeps_bind; [apply keeps_getTask|]. intros t'. case_match; [apply keeps_ret|apply shape_end].
Qed.

(** Subtasks are created after their parent. *)
Definition ordered : Prop := ∀ i l c, sh !! i = Some l → c ∈ l → (i < c < length sh)%nat.

Lemma abort_run fuel : ∀ i reason s,
  ordered → same s → (i < length sh)%nat → (length sh ≤ fuel + i)%nat → ∃ s', abort record fuel i reason s = (Ok tt, s') ∧ same s'.
Proof.
  induction fuel as [|fuel IH]; intros i reason s Ho Hs Hi Hf; [lia|]. cbn [abort].
  assert (∀ s, same s → ∃ t, getTask i s = (Ok t, s) ∧ sh !! i = Some (listeners t)) as Hget.
  { intros s0 Hs0. assert (i < length (tasks s0))%nat as Hlt by (unfold same, shape in Hs0; rewrite <- Hs0, length_map in Hi; done).
    apply lookup_lt_is_Some in Hlt as [t Ht]. exists t. unfold getTask. rewrite Ht. split; [done|].
    unfold same, shape in Hs0. rewrite <- Hs0. change (map listeners (tasks s0)) with (listeners <$> tasks s0). by rewrite list_lookup_fmap, Ht. }
  destruct (Hget s Hs) as (t & Hrun & _). unfold mbind at 1, M_bind at 1. rewrite Hrun. destruct (aborted t); [by exists s|].
  unfold mbind, M_bind. pose proof (shape_update i with_aborted ltac:(done) s Hs) as Hs1.
  unfold update at 1, modify at 1. change (mkState (alter with_aborted i (tasks s)) (clock s) (out s)) with (update i with_aborted s).2.
  set (s1 := (update i with_aborted s).2) in *. unfold swallow. pose proof (shape_onAbort i reason s1 Hs1) as Hs2.
  set (s2 := (onAbort record i reason s1).2) in *. destruct (Hget s2 Hs2) as (t2 & Hrun2 & Hl). rewrite Hrun2.
  apply (for_each_ok same); [|done]. intros c w Hc Hw. destruct (Ho i _ c Hl Hc). apply IH; [done|done|lia|lia].
Qed.
End shapes.

Lemma ordered_push l : ordered l → ordered (l ++ [[]]).
Proof.
  intros Ho i x c [Hi|[Hi Hx]]%lookup_app_Some Hc; rewrite length_app.
  - destruct (Ho i x c Hi Hc). cbn. lia.
  - destruct (i - length l)%nat; [|done]. cbn in Hx. injection Hx as <-. by apply elem_of_nil in Hc.
Qed.

Lemma ordered_child l p : ordered l → (p < length l)%nat → ordered (alter (λ x, x ++ [length l]) p l ++ [[]]).
Proof.
  intros Ho Hp i x c [Hi|[Hi Hx]]%lookup_app_Some Hc; rewrite length_app, length_alter; cbn.
  - destruct (decide (i = p)) as [->|Hne].
    + rewrite list_lookup_alter_eq, fmap_Some in Hi. destruct Hi as (y & Hy & ->).
      apply elem_of_app in Hc as [Hc|Hc%list_elem_of_singleton]; [destruct (Ho p y c Hy Hc); lia|lia].
    + rewrite list_lookup_alter_ne in Hi by done. destruct (Ho i x c Hi Hc). lia.
  - destruct (i - _)%nat; [|done]. cbn in Hx. injection Hx as <-. by apply elem_of_nil in Hc.
Qed.

Lemma shape_abort sh fuel : ∀ i reason, stays (same sh) (abort record fuel i reason).
Proof.
  induction fuel as [|fuel IH]; intros i reason; [apply keeps_lift|]. cbn [abort]. apply keeps_bind; [apply keeps_getTask|].
  intros t. destruct (aborted t); [apply keeps_ret|]. apply keeps_bind; [by apply shape_update|]. intros _.
  apply keeps_bind; [intros s Hs; by apply shape_onAbort|]. intros _. apply keeps_bind; [apply keeps_getTask|].
  intros t'. apply keeps_for_each. auto.
Qed.

Lemma map_alter (f : Task → Task) g p (l : list Task) :
  (∀ t, listeners (f t) = g (listeners t)) → map listeners (alter f p l) = alter g p (map listeners l).
Proof. intros Hf. revert p. induction l as [|t l IH]; intros [|p]; cbn; try done; [by rewrite Hf|]. f_equal. apply IH. Qed.

Lemma ordered_exec op s : ordered (shape s) → ordered (shape (exec record op s).2).
Proof.
  intros Ho. assert (∀ A (m : M _ A), stays (same (shape s)) m → ordered (shape (m s).2)) as Hsame.
  { intros A m Hm. by rewrite (Hm s eq_refl). }
  destruct op as [own parent props| | | | | | | | | | |]; cbn [exec].
  - unfold new_task. destruct (if own then _ else _) as [[p t]|] eqn:Hp; unfold shape in *; cbn [tasks snd].
    + rewrite map_app, (map_alter _ (λ x, x ++ [length (map listeners (tasks s))])).
      * apply ordered_child; [done|]. rewrite length_map. destruct own; [done|]. destruct parent as [q|]; [|done]. cbn in Hp.
        destruct (tasks s !! q) eqn:Hq; [|done]. injection Hp as <- _. by eapply lookup_lt_Some.
      * intros t'. by rewrite length_map.
    + rewrite map_app. by apply ordered_push.
  - apply (Hsame unit). apply shape_abort.
  - apply Hsame, shape_start.
  - apply Hsame, shape_end.
  - apply Hsame, shape_end.
  - apply Hsame, shape_emit.
  - apply Hsame. unfold warning, assertPending. apply keeps_bind; [apply keeps_getTask|]. intros t.
    apply keeps_bind; [case_match; [apply keeps_ret|apply keeps_lift]|intros _; apply shape_emit].
  - apply Hsame. unfold set_property, assertPending. apply keeps_bind; [apply keeps_getTask|]. intros t.
    apply keeps_bind; [case_match; [apply keeps_ret|apply keeps_lift]|intros _; apply shape_emit].
  - apply Hsame. unfold runInside, assertPending, assertNotRunning. apply keeps_bind; [apply keeps_getTask|]. intros t.
    apply keeps_bind; [case_match; [apply keeps_ret|apply keeps_lift]|intros _].
    apply keeps_bind; [case_match; [apply keeps_lift|apply keeps_ret]|intros _].
    apply keeps_bind; [by apply shape_update|intros _; apply shape_maybeStart].
  - apply Hsame. unfold settle. apply keeps_bind; [apply keeps_getTask|]. intros t. case_match; [|apply keeps_ret].
    apply keeps_bind; [by apply shape_update|]. intros _. case_match; [apply keeps_ret|apply shape_end].
  - apply Hsame. unfold finish_run. apply keeps_bind; [apply keeps_getTask|]. intros t. case_match; [apply shape_end|apply keeps_ret].
  - done.
Qed.

(** An abortion ends, whatever was done before. *)
Theorem abort_ends ops now i reason :
  let s := exec_all record ops (empty now) in
  (i < length (tasks s))%nat → (exec record (OpAbort i reason) s).1 = Ok tt.
Proof.
  intros s Hi. assert (∀ ops s, ordered (shape s) → ordered (shape (exec_all record ops s))) as Hall.
  { clear. induction ops as [|op ops IH]; intros s H0; [done|]. apply IH. by apply ordered_exec. }
  assert (ordered (shape s)) as Ho by (apply Hall; intros j l c; done).
  cbn [exec]. destruct (abort_run (shape s) (length (tasks s)) i reason s Ho) as (s' & -> & _); [done|..|done].
  all: unfold shape; rewrite length_map; lia.
Qed.
End task.

(** ** A task and its subtask *)

Definition run_ops (ops : list (Op (V := nat))) : State (S := list Event) := exec_all (λ x, x) record ops (empty 0).
Definition two_tasks : list (Op (V := nat)) :=
  [OpNew true None (Some [(js "name", 7%nat)]); OpRunInside 0; OpNew false (Some 0%nat) None; OpRunInside 1;
   OpInfo 1 (js "half") 5%nat; OpTick 3; OpSettle 1 (inl 2%nat); OpFinishRun 1 2%nat; OpSettle 0 (inl 1%nat); OpFinishRun 0 1%nat].

Lemma tasks_logged_witness :
  let s := run_ops two_tasks in
  ∃ st, for_each (out s) makeOnProgress (mkLogs ∅ ∅ []) = (Ok tt, st)
    ∧ ∀ i, match tasks s !! i, logs st !! i with
           | Some t, Some l => log_status l = status t ∧ startData t = None ∧ (i ∈ active st ↔ status t = PENDING)
           | Some t, None => sink t = Handler → startData t ≠ None
           | None, o => o = None
           end.
Proof. apply (tasks_logged (λ x, x) two_tasks 0). apply parents_ok_going. vm_compute. reflexivity. Defined.

Lemma logs_follow_events_witness :
  let log := [mkEvent 0 0 (EvStart None None); mkEvent 0 4 (EvEnd SUCCESS 1%nat)] in
  ∃ root s, for_each log makeOnProgress (mkLogs ∅ ∅ []) = (Ok tt, s)
    ∧ (∀ i, logs s !! i = log_of root log i)
    ∧ (∀ i, i ∈ active s ↔ phase_of i log = Some Going)
    ∧ calls s = flat_map (calls_of root) log
    ∧ (∀ i ts p, started_of (events_of i log) = Some (ts, p) → root i = match p with None => Some i | Some p => root p end)
    ∧ ∀ i r, root i = Some r → ∃ ts, started_of (events_of r log) = Some (ts, None).
Proof.
  set (e0 := mkEvent 0 0 (EvStart None None)). set (e1 := mkEvent 0 4 (EvEnd SUCCESS 1%nat)). intros log.
  apply (logs_follow_events (λ x, x)). assert (well_formed [e0]) as H0.
  { refine (well_formed_snoc [] e0 well_formed_nil _ _); [done|by intros p [=]]. }
  refine (well_formed_snoc [e0] e1 H0 _ _); [done|by intros p [=]].
Defined.

Lemma abort_ends_witness :
  let s := run_ops two_tasks in (exec (λ x, x) record (OpAbort 0 3%nat) s).1 = Ok tt.
Proof. apply (abort_ends (λ x, x) two_tasks 0). apply Nat.ltb_lt. vm_compute. reflexivity. Defined.

Example two_tasks_logs :
  match for_each (out (run_ops two_tasks)) makeOnProgress (mkLogs ∅ ∅ []) with
  | (Ok _, st) =>
      (log_tasks <$> logs st !! 0%nat, log_status <$> logs st !! 0%nat, log_infos <$> logs st !! 1%nat, calls st)
      = (Some [1%nat], Some SUCCESS, Some [(js "half", 5%nat)],
         [OnRootTaskStart 0; OnTaskUpdate 0; OnTaskUpdate 1; OnTaskUpdate 1; OnTaskUpdate 1; OnRootTaskEnd 0; OnTaskUpdate 0])
  | _ => False
  end.
Proof. vm_compute. reflexivity. Qed.

(** ** Behaviours that the theorems leave out *)

(** A subtask that starts once its parent has ended is refused. *)
Example late_subtask_refused :
  (for_each (out (run_ops [OpNew true None None; OpRunInside 0; OpNew false (Some 0%nat) None; OpSettle 0 (inl 1%nat); OpFinishRun 0 1%nat; OpStart 1]))
    makeOnProgress (mkLogs ∅ ∅ [])).1 = Throw (AssertionError "undefined").
Proof. vm_compute. reflexivity. Qed.

(** A subtask that is created once its parent was aborted is not aborted. *)
Example late_subtask_not_aborted :
  aborted <$> tasks (run_ops [OpNew true None None; OpRunInside 0; OpAbort 0 9%nat; OpNew false (Some 0%nat) None; OpRunInside 1])
  = [true; false].
Proof. vm_compute. reflexivity. Qed.

(** A task that ends while its function runs refuses to, and stays pending. *)
Example success_while_running :
  let s := run_ops [OpNew true None None; OpRunInside 0] in
  (exec (λ x, x) record (OpSuccess 0 1%nat) s).1 = Throw (AssertionError "running").
Proof. vm_compute. reflexivity. Qed.
