(* ===== verification/Visibility.v ===== *)
(** * What a user sees, kept up to date

    [ObjectVisibility] of xo-server (xo-mixins/object-visibility.mjs): the permissions of
    each user are computed from the database, kept for a while, dropped when they may
    have changed, and the objects that became visible are pushed to the clients.

    A transition system: the computations, the timers and the changes of the database
    interleave in any order.  The state has the versions of the database, and for each
    computation the version at its beginning.  What a user may do with its sources is in
    [Acls.v]; here they are values.  The time is left out: a kept value can expire, and a
    delayed push can be made, at any moment. *)

From stdpp Require Import gmap list.
From S2P Require Import Prelude JsValues.

(** ** Sources *)

Section visibility.
Context {P : Type} `{EqDecision P}.

(** What the computation reads of a user; a read that throws gives nothing. *)
Record Db := mkDb {
  db_permission : jstring → option jstring;
  db_permissionsByObject : jstring → option P;
  db_resourceSetObjectIds : jstring → option (list jstring);
}.

Inductive Sources :=
  | AdminSources
  | UserSources (permission : jstring) (permissionsByObject : P) (resourceSetObjectIds : list jstring).

Definition sourcesAreEqual (a b : option Sources) : bool :=
  match a, b with
  | Some (UserSources _ p o), Some (UserSources _ p' o') => bool_decide (p = p') && bool_decide (o = o')
  | Some AdminSources, Some AdminSources => true
  | _, _ => false
  end.

(** The steps of [#computeSourcesForUser]: the permission first, then both others. *)
Inductive Progress :=
  | Asked
  | Known (permission : jstring) (permissionsByObject : option P) (resourceSetObjectIds : option (list jstring))
  | Resolved (sources : Sources)
  | Rejected.

Record Computation := mkComputation { user : jstring; born : nat; progress : Progress }.

(** [pendingResyncs]: by user, or for all of them. [checks]: the connections to resync,
    with the previous computation and the current one. [pushed]: the pushes, with the
    computation that tells what is seen (nothing is sent when that is empty). [cleared]: the version at the last invalidation
    of each user. *)
Record State := mkState {
  history : list Db;
  computations : list Computation;
  sourcesByUserId : gmap jstring nat;
  pendingResyncs : gmap (option jstring) (gmap jstring nat);
  checks : list (jstring * option nat * option nat);
  pushed : list (jstring * nat);
  cleared : gmap jstring nat;
}.

Definition now (s : State) : nat := length (history s) - 1.

Definition set_cache (c : gmap jstring nat) (s : State) : State :=
  mkState (history s) (computations s) c (pendingResyncs s) (checks s) (pushed s) (cleared s).
Definition set_computations (c : list Computation) (s : State) : State :=
  mkState (history s) c (sourcesByUserId s) (pendingResyncs s) (checks s) (pushed s) (cleared s).
Definition set_resyncs (p : gmap (option jstring) (gmap jstring nat)) (s : State) : State :=
  mkState (history s) (computations s) (sourcesByUserId s) p (checks s) (pushed s) (cleared s).
Definition set_checks (c : list (jstring * option nat * option nat)) (s : State) : State :=
  mkState (history s) (computations s) (sourcesByUserId s) (pendingResyncs s) c (pushed s) (cleared s).
Definition push (u : jstring) (c : nat) (s : State) : State :=
  mkState (history s) (computations s) (sourcesByUserId s) (pendingResyncs s) (checks s) (pushed s ++ [(u, c)]) (cleared s).

(** ** Operations *)

(** [#getSources]: the computation that is kept, or a new one. *)
Definition getSources (u : jstring) (s : State) : nat * State :=
  match sourcesByUserId s !! u with
  | Some c => (c, s)
  | None =>
      let c := length (computations s) in
      (c, set_cache (<[u := c]> (sourcesByUserId s)) (set_computations (computations s ++ [mkComputation u (now s) Asked]) s))
  end.

(** One read, in the current database. *)
Inductive Read := ReadPermission | ReadPermissions | ReadResourceSets | Finish.

Definition advance (r : Read) (db : Db) (u : jstring) (p : Progress) : Progress :=
  match r, p with
  | ReadPermission, Asked =>
      match db_permission db u with
      | Some permission => if bool_decide (permission = js "admin") then Resolved AdminSources else Known permission None None
      | None => Rejected
      end
  | ReadPermissions, Known permission None o =>
      match db_permissionsByObject db u with Some p => Known permission (Some p) o | None => Rejected end
  | ReadResourceSets, Known permission p None =>
      match db_resourceSetObjectIds db u with Some o => Known permission p (Some o) | None => Rejected end
  | Finish, Known permission (Some p) (Some o) => Resolved (UserSources permission p o)
  | _, _ => p
  end.

Definition advance_computation (r : Read) (db : Db) (c : Computation) : Computation :=
  mkComputation (user c) (born c) (advance r db (user c) (progress c)).

(** The earliest snapshot wins. *)
Definition merge_previous (old new : gmap jstring nat) : gmap jstring nat := old ∪ new.

Definition scheduleResync (key : option jstring) (previous : gmap jstring nat) (s : State) : State :=
  set_resyncs (<[key := merge_previous (default ∅ (pendingResyncs s !! key)) previous]> (pendingResyncs s)) s.

(** [clearObjectFilterCache], for a user or for all of them. *)
Definition clearObjectFilterCache (u : option jstring) (users : gset jstring) (s : State) : State :=
  let cache := sourcesByUserId s in
  let '(previous, kept, targets) :=
    match u with
    | Some u => (match cache !! u with Some c => {[u := c]} | None => ∅ end, delete u cache, {[u]})
    | None => (cache, ∅, users)
    end in
  let s := scheduleResync u previous (set_cache kept s) in
  mkState (history s) (computations s) (sourcesByUserId s) (pendingResyncs s) (checks s) (pushed s)
    (set_to_map (λ v, (v, now s)) targets ∪ cleared s).

(** The connections of the users are to be resynced. *)
Definition resyncObjects (key : option jstring) (previous : gmap jstring nat) (connections : list jstring) (s : State) : State :=
  set_checks (checks s ++ map (λ u, (u, previous !! u, None))
    (filter (λ u, match key with Some k => bool_decide (u = k) | None => true end = true) connections)) s.

(** [undefined] when the previous computation failed or there was none. *)
Definition settled (s : State) (c : option nat) : option (option Sources) :=
  match c with
  | None => Some None
  | Some c =>
      match progress <$> computations s !! c with
      | Some (Resolved v) => Some (Some v)
      | Some Rejected => Some None
      | _ => None
      end
  end.

Definition must_push (previous : option Sources) (current : Sources) : bool :=
  match current with
  | AdminSources => match previous with Some (UserSources _ _ _) => true | _ => false end
  | UserSources _ _ _ => negb (sourcesAreEqual previous (Some current))
  end.

(** [#resyncConnection], which starts with [#getSources]; a failure is logged, and what
    is pushed is seen through the computation that is kept by then. *)
Definition resyncConnection (s : State) : State :=
  match checks s with
  | [] => s
  | (u, previous, None) :: rest => let '(c, s) := getSources u s in set_checks ((u, previous, Some c) :: rest) s
  | (u, previous, Some current) :: rest =>
      match settled s (Some current) with
      | Some (Some v) =>
          match settled s previous with
          | Some previous =>
              let s := set_checks rest s in
              if must_push previous v then let '(c, s) := getSources u s in push u c s else s
          | None => s
          end
      | Some None => set_checks rest s
      | None => s
      end
  end.

(** ** Steps *)

Inductive Step :=
  | Change (db : Db)
  | GetSources (u : jstring)
  | Advance (c : nat) (r : Read)
  | Forget (u : jstring)
  | Clear (u : option jstring)
  | Fire (key : option jstring) (connections : list jstring)
  | Resync
  | Rotate.

(** [Forget]: a value that expires, or the computation that was kept failed.  [Rotate]:
    the connections are taken in any order, which includes that of the code. *)
Definition step (e : Step) (s : State) : State :=
  match e with
  | Change db => mkState (history s ++ [db]) (computations s) (sourcesByUserId s) (pendingResyncs s) (checks s) (pushed s) (cleared s)
  | GetSources u => (getSources u s).2
  | Advance c r =>
      match last (history s) with
      | Some db => set_computations (alter (advance_computation r db) c (computations s)) s
      | None => s
      end
  | Forget u => set_cache (delete u (sourcesByUserId s)) s
  | Clear u => clearObjectFilterCache u (list_to_set (map user (computations s))) s
  | Fire key connections =>
      match pendingResyncs s !! key with
      | Some previous => resyncObjects key previous connections (set_resyncs (delete key (pendingResyncs s)) s)
      | None => s
      end
  | Resync => resyncConnection s
  | Rotate => set_checks (match checks s with [] => [] | c :: cs => cs ++ [c] end) s
  end.

Definition initial (db : Db) : State := mkState [db] [] ∅ ∅ [] [] ∅.
Definition run (steps : list Step) (db : Db) : State := foldl (λ s e, step e s) (initial db) steps.

(** ** Freshness *)

(** [o] was read of a version of the database, from [k] on. *)
Definition read_since {A} (h : list Db) (k : nat) (f : Db → option A) (a : A) : Prop :=
  ∃ i db, (k ≤ i)%nat ∧ h !! i = Some db ∧ f db = Some a.

Definition progress_ok (h : list Db) (u : jstring) (k : nat) (p : Progress) : Prop :=
  match p with
  | Asked | Rejected => True
  | Known permission p o =>
      read_since h k (λ db, db_permission db u) permission ∧
      (∀ x, p = Some x → read_since h k (λ db, db_permissionsByObject db u) x) ∧
      (∀ x, o = Some x → read_since h k (λ db, db_resourceSetObjectIds db u) x)
  | Resolved AdminSources => read_since h k (λ db, db_permission db u) (js "admin")
  | Resolved (UserSources permission p o) =>
      read_since h k (λ db, db_permission db u) permission ∧ read_since h k (λ db, db_permissionsByObject db u) p ∧
      read_since h k (λ db, db_resourceSetObjectIds db u) o
  end.

Record fresh (s : State) : Prop := {
  fr_history : history s ≠ [];
  fr_cache u c : sourcesByUserId s !! u = Some c → ∃ k, computations s !! c = Some k ∧ user k = u ∧
    ∀ v, cleared s !! u = Some v → (v ≤ born k)%nat;
  fr_progress c k : computations s !! c = Some k → (born k ≤ now s)%nat ∧ progress_ok (history s) (user k) (born k) (progress k);
  fr_cleared u v : cleared s !! u = Some v → (v ≤ now s)%nat;
}.

Lemma read_since_snoc {A} h db k (f : Db → option A) a : read_since h k f a → read_since (h ++ [db]) k f a.
Proof. intros (i & d & Hk & Hd & Hf). exists i, d. split; [done|]. split; [by apply lookup_app_l_Some|done]. Qed.

Lemma progress_ok_snoc h db u k p : progress_ok h u k p → progress_ok (h ++ [db]) u k p.
Proof.
  destruct p as [|permission p o|[|permission p o]|]; cbn; try done.
  - intros (H1 & H2 & H3). split; [by apply read_since_snoc|]. split; intros x Hx; apply read_since_snoc; auto.
  - apply read_since_snoc.
  - intros (H1 & H2 & H3). split_and!; by apply read_since_snoc.
Qed.

Lemma advance_reads h db u k p r :
  last h = Some db → (k ≤ length h - 1)%nat → progress_ok h u k p → progress_ok h u k (advance r db u p).
Proof.
  intros Hl Hk Hp.
  assert (∀ A (f : Db → option A) a, f db = Some a → read_since h k f a) as Hnow.
  { intros A f a Hf. rewrite last_lookup in Hl. exists (pred (length h)), db. split; [lia|done]. }
  destruct r, p as [|permission q o| |]; cbn; try done.
  - destruct (db_permission db u) as [permission|] eqn:E; [|done]. case_bool_decide as Ha; cbn.
    + subst. by apply Hnow.
    + split; [by apply Hnow|]. by split.
  - destruct q as [q|]; [done|]. destruct (db_permissionsByObject db u) eqn:E; [|done]. cbn. destruct Hp as (H1 & _ & H3).
    split; [done|]. split; [|done]. intros x [= <-]. by apply Hnow.
  - destruct o as [o|]; [by destruct q|]. destruct (db_resourceSetObjectIds db u) eqn:E; [|by destruct q]. destruct Hp as (H1 & H2 & _).
    split; [done|]. split; [by destruct q|]. intros x [= <-]. by apply Hnow.
  - destruct q as [q|]; [|done]. destruct o as [o|]; [|done]. destruct Hp as (H1 & H2 & H3). cbn. split_and!; auto.
Qed.

Lemma fresh_with s s' :
  fresh s → history s' = history s → computations s' = computations s → cleared s' = cleared s →
  (∀ u c, sourcesByUserId s' !! u = Some c → sourcesByUserId s !! u = Some c) → fresh s'.
Proof.
  intros [] Hh Hc Hcl Hs. split; unfold now in *; rewrite ?Hh, ?Hc, ?Hcl; auto.
Qed.

Lemma fresh_getSources u s : fresh s → fresh (getSources u s).2.
Proof.
  intros Hf. unfold getSources. destruct (sourcesByUserId s !! u) as [c|] eqn:E; [done|]. destruct Hf as [H1 H2 H3 H4].
  split; cbn [snd history computations sourcesByUserId cleared set_cache set_computations].
  - done.
  - intros u' c. rewrite lookup_insert_Some. intros [[<- <-]|[_ Hc]].
    + eexists. rewrite lookup_app_r, Nat.sub_diag by done. split; [done|]. split; [done|]. intros v Hv. cbn. by apply (H4 u).
    + destruct (H2 u' c Hc) as (k & Hk & ?). exists k. split; [by apply lookup_app_l_Some|done].
  - intros c k [Hk|[Hl Hk]]%lookup_app_Some; [by apply H3 in Hk|].
    destruct (c - length (computations s))%nat; [|done]. cbn in Hk. injection Hk as <-. cbn. split; [done|done].
  - done.
Qed.

Lemma fresh_checks c s : fresh s → fresh (set_checks c s).
Proof. intros Hf. by apply (fresh_with s). Qed.

Lemma fresh_resync s : fresh s → fresh (resyncConnection s).
Proof.
  intros Hf. unfold resyncConnection. destruct (checks s) as [|[[u p] [c|]] rest]; [done| |].
  - destruct (settled s (Some c)) as [[v|]|]; [|by apply fresh_checks|done]. destruct (settled s p) as [q|]; [|done].
    pose proof (fresh_checks rest s Hf) as Hc. destruct (must_push q v); [|done].
    pose proof (fresh_getSources u _ Hc) as Hg. destruct (getSources u (set_checks rest s)) as [d s']. by apply (fresh_with s').
  - pose proof (fresh_getSources u s Hf) as Hg. destruct (getSources u s) as [d s']. by apply fresh_checks.
Qed.

Lemma fresh_clear u users s : fresh s → fresh (clearObjectFilterCache u users s).
Proof.
  intros Hf. pose proof Hf as [H1 H2 H3 H4]. unfold clearObjectFilterCache.
  set (targets := match u with Some u => {[u]} | None => users end : gset jstring).
  set (kept := match u with Some u => delete u (sourcesByUserId s) | None => ∅ end).
  assert (∀ v c, kept !! v = Some c → v ∉ targets ∧ sourcesByUserId s !! v = Some c) as Hkept.
  { intros v c. unfold kept, targets. destruct u as [u|]; [|by rewrite lookup_empty].
    rewrite lookup_delete_Some. intros [??]. split; [set_solver|done]. }
  assert (∀ v k, (set_to_map (λ v, (v, now s)) targets ∪ cleared s) !! v = Some k → v ∈ targets ∧ k = now s ∨ v ∉ targets ∧ cleared s !! v = Some k) as Hcl.
  { intros v k. rewrite lookup_union_Some_raw, lookup_set_to_map by done. intros [(y & Hy & [= -> ->])|[Hn Hk]]; [by left|].
    destruct (decide (v ∈ targets)) as [Hv|]; [|by right]. exfalso.
    assert ((set_to_map (λ v, (v, now s)) targets : gmap jstring nat) !! v = Some (now s)) as Hs; [|congruence].
    apply lookup_set_to_map; [done|]. by exists v. }
  assert (∀ previous, fresh (mkState (history s) (computations s) kept
    (pendingResyncs (scheduleResync u previous (set_cache kept s))) (checks s) (pushed s) (set_to_map (λ v, (v, now s)) targets ∪ cleared s))) as Hgoal.
  { intros previous. split; cbn [history computations sourcesByUserId cleared].
    - done.
    - intros v c [Hv Hc]%Hkept. destruct (H2 v c Hc) as (k & Hk & Hu & Hb). exists k. split; [done|]. split; [done|].
      intros x [[? _]|[_ Hx]]%Hcl; [done|auto].
    - done.
    - intros v k [[_ ->]|[_ Hk]]%Hcl; [done|by apply H4 in Hk]. }
  destruct u as [u|]; apply Hgoal.
Qed.

Lemma fresh_step e s : fresh s → fresh (step e s).
Proof.
  intros Hf. destruct e as [db|u|c r|u|u|key connections| |]; cbn [step].
  - destruct Hf as [H1 H2 H3 H4]. unfold now in *. split; unfold now; cbn [history computations sourcesByUserId cleared]; rewrite ?length_app; cbn.
    + by destruct (history s).
    + done.
    + intros c k [Hb Hp]%H3. split; [lia|by apply progress_ok_snoc].
    + intros u v Hv%H4. lia.
  - by apply fresh_getSources.
  - destruct (last (history s)) as [db|] eqn:Hl; [|done]. destruct Hf as [H1 H2 H3 H4].
    split; cbn [history computations sourcesByUserId cleared set_computations]; try done.
    + intros u c' Hc. destruct (H2 u c' Hc) as (k & Hk & Hu & Hb). destruct (decide (c' = c)) as [->|Hne].
      * exists (advance_computation r db k). rewrite list_lookup_alter_eq, Hk. done.
      * exists k. by rewrite list_lookup_alter_ne.
    + intros c' k. destruct (decide (c' = c)) as [->|Hne]; [|rewrite list_lookup_alter_ne by done; apply H3].
      rewrite list_lookup_alter_eq, fmap_Some. intros (k0 & Hk & ->). destruct (H3 c k0 Hk) as [Hb Hp]. cbn. split; [done|].
      by apply advance_reads.
  - apply (fresh_with s); try done. cbn. intros v c. by intros [_ ?]%lookup_delete_Some.
  - by apply fresh_clear.
  - destruct (pendingResyncs s !! key); [|done]. apply fresh_checks. by apply (fresh_with s).
  - by apply fresh_resync.
  - by apply fresh_checks.
Qed.

Lemma run_fresh steps db : fresh (run steps db).
Proof.
  assert (∀ s, fresh s → fresh (foldl (λ s e, step e s) s steps)) as Hall; [|apply Hall].
  - induction steps as [|e steps IH]; intros s Hf; [done|]. apply IH. by apply fresh_step.
  - by split.
Qed.

(** C38: Whatever the order of the computations, of the changes and of the timers, the
    sources that are kept for a user were all read after its last invalidation, when
    their computation is done: a permission that was revoked before it is never used
    again. *)
Theorem sources_are_fresh steps db u c k v sources :
  let s := run steps db in
  sourcesByUserId s !! u = Some c → computations s !! c = Some k → cleared s !! u = Some v → progress k = Resolved sources →
  match sources with
  | AdminSources => read_since (history s) v (λ db, db_permission db u) (js "admin")
  | UserSources permission p o =>
      read_since (history s) v (λ db, db_permission db u) permission ∧
      read_since (history s) v (λ db, db_permissionsByObject db u) p ∧
      read_since (history s) v (λ db, db_resourceSetObjectIds db u) o
  end.
Proof.
  intros s Hc Hk Hv Hp. pose proof (run_fresh steps db) as [_ H2 H3 _]. fold s in H2, H3.
  destruct (H2 u c Hc) as (k' & Hk' & Hu & Hb). assert (k' = k) as -> by congruence. destruct (H3 c k Hk) as [_ Hok].
  rewrite Hp, Hu in Hok. specialize (Hb v Hv).
  assert (∀ A f (a : A), read_since (history s) (born k) f a → read_since (history s) v f a) as Hmono.
  { intros A f a (i & d & Hi & ?). exists i, d. split; [lia|done]. }
  destruct sources as [|permission p o]; cbn in Hok; [by apply Hmono|]. destruct Hok as (? & ? & ?). split_and!; by apply Hmono.
Qed.
End visibility.

(** ** A user whose permissions change *)

Definition test_db (permissions : nat) : Db := mkDb (λ _, Some (js "none")) (λ _, Some permissions) (λ _, Some []).
Definition compute (c : nat) : list (Step (P := nat)) :=
  map (Advance c) [ReadPermission; ReadPermissions; ReadResourceSets; Finish].
Definition alice : jstring := js "alice".

Definition granted : list Step :=
  [GetSources alice] ++ compute 0 ++ [Change (test_db 2); Clear (Some alice); GetSources alice] ++ compute 1.

Lemma sources_are_fresh_witness :
  let s := run granted (test_db 1) in
  read_since (history s) 1 (λ db, db_permission db alice) (js "none") ∧
  read_since (history s) 1 (λ db, db_permissionsByObject db alice) 2%nat ∧
  read_since (history s) 1 (λ db, db_resourceSetObjectIds db alice) [].
Proof.
  apply (sources_are_fresh granted (test_db 1) alice 1 (mkComputation alice 1 (Resolved (UserSources (js "none") 2 []))) 1
    (UserSources (js "none") 2 [])); vm_compute; reflexivity.
Defined.

(** The objects that became visible are pushed. *)
Example grant_is_pushed :
  pushed (run (granted ++ [Fire (Some alice) [alice]; Resync; Resync]) (test_db 1)) = [(alice, 1%nat)].
Proof. vm_compute. reflexivity. Qed.

(** When the sources are computed between the change and the invalidation, the snapshot
    is already the new one: nothing is pushed to a client that was shown the old one. *)
Example grant_is_missed :
  pushed (run ([GetSources alice] ++ compute 0 ++ [Forget alice; Change (test_db 2); GetSources alice] ++ compute 1
    ++ [Clear (Some alice); Fire (Some alice) [alice]; Resync; Resync]) (test_db 1)) = [].
Proof. vm_compute. reflexivity. Qed.
