(* ===== verification/Journal.v ===== *)
(** * The journal of the backups

    @xen-orchestra/backups/_backupJournal.mjs: the events of the backups of a repository,
    one file each, in one directory per day.  The names are ordered by date, and a reader
    goes on from the last name it read.

    The state is the content of the directory.  The formats of the dates (d3-time-format)
    and the random part of the names are parameters; what a file holds is already parsed. *)

From stdpp Require Import gmap list sorting.
From S2P Require Import Prelude JsValues Paths.

Local Open Scope Z.

(** ** Texts, in the order of [<] *)

(** The beginnings decide, when they have the same length. *)
Lemma lt_str_app a b c d : length a = length b → lt_str (a ++ c) (b ++ d) = lt_str a b || (bool_decide (a = b) && lt_str c d).
Proof.
  revert b. induction a as [|x a IH]; intros [|y b]; cbn; try done.
  intros [= Hl]. rewrite (IH b Hl). destruct (Z.eqb_spec (code x) (code y)) as [E|E].
  - apply code_inj in E as ->. f_equal. f_equal. apply bool_decide_ext. split; [by intros ->|by intros [= ->]].
  - rewrite bool_decide_false; [by destruct (_ <? _)|]. by intros [= -> _].
Qed.

Lemma lt_str_same a c d : lt_str (a ++ c) (a ++ d) = lt_str c d.
Proof. rewrite lt_str_app, lt_str_irrefl, bool_decide_true by done. done. Qed.

(** ** Dates *)

(** [utcFormat] and [utcParse], with the formats of the module. *)
Class DateFormats := {
  formatDate : Z → jstring;
  formatTime : Z → jstring;
  parseDate : jstring → option Z;
}.

(** The last millisecond of the year 9999. *)
Definition max_date : Z := 253402300799999.

Definition DATE_LENGTH : nat := 20.
Definition DAY_LENGTH : nat := 8.
Definition TIME_LENGTH : nat := DATE_LENGTH - DAY_LENGTH - 1.

Definition dayOfDate (date : jstring) : jstring := take DAY_LENGTH date.
Definition isDayName (name : jstring) : bool := (length name =? 8)%nat && forallb is_digit name.

Class DateFormatsLaws `{DateFormats} := {
  formatDate_length t : 0 ≤ t ≤ max_date → length (formatDate t) = DATE_LENGTH;
  formatDate_day t : 0 ≤ t ≤ max_date → isDayName (dayOfDate (formatDate t)) = true;
  formatDate_time t : 0 ≤ t ≤ max_date → formatDate t = dayOfDate (formatDate t) ++ js "T" ++ formatTime t;
  formatTime_name t : 0 ≤ t ≤ max_date → sep ∉ formatTime t;
  formatDate_mono t t' : 0 ≤ t → t < t' → t' ≤ max_date → lt_str (formatDate t) (formatDate t') = true;
  parseDate_format t : 0 ≤ t ≤ max_date → parseDate (formatDate t) = Some t;
}.

Section journal.
Context `{DateFormats}.

Definition formatJournalDate (timestamp : Z) : jstring := formatDate timestamp.
Definition formatJournalDay (timestamp : Z) : jstring := dayOfDate (formatJournalDate timestamp).
Definition formatJournalTime (timestamp : Z) : jstring := formatTime timestamp.

Definition BACKUP_JOURNAL_DIR : jstring := js "xo-backup-log".
Definition BACKUP_JOURNAL_EVENTS : list jstring := [js "add"; js "change"; js "del"].
Definition isKnownJournalEvent (event : jstring) : bool := bool_decide (event ∈ BACKUP_JOURNAL_EVENTS).

(** [`/${BACKUP_JOURNAL_DIR}/${day}/${name}`] *)
Definition entry_path (day name : jstring) : jstring := sep :: BACKUP_JOURNAL_DIR ++ sep :: day ++ sep :: name.

Definition journalCursorAt (timestamp : Z) : jstring :=
  entry_path (formatJournalDay timestamp) (formatJournalTime timestamp).

Definition parseJournalDate (date : jstring) : option Z := parseDate date.
Definition dateOfEntry (day name : jstring) : option Z := parseJournalDate (day ++ js "T" ++ take TIME_LENGTH name).

(** ** Entries *)

Record NewEntry := mkNewEntry {
  event : jstring;
  vmUuid : jstring;
  filename : jstring;
  who : option (jstring * option jstring);
  reason : option jstring;
}.

(** What a file holds, when it can be read and parsed. *)
Inductive File :=
  | Broken
  | Json (entry : NewEntry) (timestamp : Z).

(** The directory, when there is one: the days, and the files of each. *)
Definition Journal : Type := option (gmap jstring (gmap jstring File)).

Record Entry := mkEntry { content : NewEntry; timestamp : Z; date : Z; _filename : jstring }.

Definition entry_name (now : Z) (unique : jstring) (e : NewEntry) : jstring :=
  formatJournalTime now ++ js "-" ++ unique ++ js "-" ++ event e ++ js "-" ++ vmUuid e ++ js "-" ++ basename (filename e).

Definition getEntryPath (now : Z) (unique : jstring) (e : NewEntry) : jstring :=
  entry_path (formatJournalDay now) (entry_name now unique e).

(** What becomes of the file: all of it, a part, or nothing. *)
Inductive Outcome := Written | Partial | NotWritten.

(** The flag [wx] refuses a file that exists; a failure is logged. *)
Definition put_file (day name : jstring) (outcome : Outcome) (file : File) (j : Journal) : Journal :=
  let days := default ∅ j in
  let files := default ∅ (days !! day) in
  match files !! name, outcome with
  | Some _, _ | _, NotWritten => j
  | None, Written => Some (<[day := <[name := file]> files]> days)
  | None, Partial => Some (<[day := <[name := Broken]> files]> days)
  end.

Definition writeBackupJournalEntry (now : Z) (unique : jstring) (outcome : Outcome) (e : NewEntry) (j : Journal) : Journal :=
  put_file (formatJournalDay now) (entry_name now unique e) outcome (Json e now) j.

(** Each one at its own time; the order is that of the writes. *)
Definition writeBackupJournalEntries (writes : list (Z * jstring * Outcome * NewEntry)) (j : Journal) : Journal :=
  foldl (λ j '(now, unique, outcome, e), writeBackupJournalEntry now unique outcome e j) j writes.

(** ** Reading *)

Definition ENOENT : error := OtherError "ENOENT".

(** [handler.list], of a directory *)
Definition list_dir {A} (dir : option (gmap jstring A)) (keep : jstring → bool) (ignoreMissing : bool) : result (list jstring) :=
  match dir with
  | Some files => Ok (List.filter keep (map fst (map_to_list files)))
  | None => if ignoreMissing then Ok [] else Throw ENOENT
  end.

Definition minDay (cursor : option jstring) : jstring := match cursor with Some c => basename (dirname c) | None => [] end.
Definition minName (cursor : option jstring) : jstring := match cursor with Some c => basename c | None => [] end.

Definition day_of (j : Journal) (day : jstring) : option (gmap jstring File) :=
  match j with Some days => days !! day | None => None end.
Definition file_of (j : Journal) (day name : jstring) : option File :=
  match day_of j day with Some files => files !! name | None => None end.

Definition names_of_day (j : Journal) (cursor : option jstring) (day : jstring) : result (list jstring) :=
  list_dir (day_of j day) (λ name, if bool_decide (day = minDay cursor) then lt_str (minName cursor) name else true) true.

Fixpoint find_entries (j : Journal) (cursor : option jstring) (days : list jstring) : result (list (jstring * jstring)) :=
  match days with
  | [] => mret []
  | day :: days =>
      names ← names_of_day j cursor day;
      found ← find_entries j cursor days;
      mret (map (λ name, (day, name)) names ++ found)
  end.

(** An entry that is not recognised or cannot be read is skipped. *)
Definition read_entry (j : Journal) (dn : jstring * jstring) : option Entry :=
  let '(day, name) := dn in
  match dateOfEntry day (basename (entry_path day name)), file_of j day name with
  | Some date, Some (Json e t) => Some (mkEntry e t date (entry_path day name))
  | _, _ => None
  end.

Definition older (a b : Entry) : Prop := le_str (_filename a) (_filename b).
#[export] Instance older_dec a b : Decision (older a b).
Proof. unfold older. apply _. Defined.

#[export] Instance older_trans : Transitive older.
Proof. intros a b c. unfold older. apply le_str_trans. Qed.
#[export] Instance older_total : Total older.
Proof. intros a b. unfold older. apply le_str_total. Qed.

(** [arrival]: the order in which the files are read. *)
Definition readBackupJournal (arrival : list Entry → list Entry) (j : Journal) (cursor : option jstring) (mustExist : bool)
    : result (list Entry) :=
  days ← list_dir j (λ name, isDayName name && negb (lt_str name (minDay cursor))) (negb mustExist);
  found ← find_entries j cursor (merge_sort le_str days);
  mret (merge_sort older (arrival (omap (read_entry j) found))).

(** Whether the path comes after the cursor. *)
Definition after (cursor : option jstring) (path : jstring) : Prop :=
  match cursor with Some c => lt_str c path = true | None => True end.

Definition good_cursor (cursor : option jstring) : Prop :=
  match cursor with Some c => ∃ day nm, isDayName day = true ∧ name nm ∧ c = entry_path day nm | None => True end.

(** The names in the directories are names of files. *)
Definition wf_journal (j : Journal) : Prop := ∀ day nm f, file_of j day nm = Some f → name nm.

(** The entry is in the journal, and it can be read. *)
Definition in_journal (j : Journal) (e : Entry) : Prop :=
  ∃ day nm, isDayName day = true ∧ read_entry j (day, nm) = Some e.

(** ** The paths *)

Lemma day_name day : isDayName day = true → name day ∧ length day = 8%nat.
Proof.
  unfold isDayName. rewrite andb_true_iff, Nat.eqb_eq, forallb_forall. intros [Hl Hd]. split; [|done].
  assert (∀ c, c ∈ day → is_digit c = true) as Hd' by (intros c Hc; apply Hd, list_elem_of_In, Hc).
  assert (sep ∉ day) by (intros Hs%Hd'; done).
  split; [by destruct day|]. split; [by intros ->|]. split; [by intros ->|done].
Qed.

Lemma dirname_name d s : name s → d ≠ [] → d ≠ [sep] → dirname (d ++ sep :: s) = d.
Proof.
  intros (Hs & _ & _ & Hn) H1 H2. destruct (basename_word s Hs Hn d) as [_ E]. unfold dirname. rewrite E.
  destruct (rev d) as [|c r] eqn:Er; apply (f_equal (@rev ascii)) in Er; rewrite rev_involutive in Er; subst d; [done|].
  case_bool_decide as Hc; [|done]. injection Hc as -> ->. done.
Qed.

Lemma entry_path_split day nm : entry_path day nm = (sep :: BACKUP_JOURNAL_DIR ++ sep :: day) ++ sep :: nm.
Proof. unfold entry_path. cbn. done. Qed.

Lemma basename_entry day nm : name nm → basename (entry_path day nm) = nm.
Proof. intros Hn. rewrite entry_path_split. by apply basename_name. Qed.

Lemma cursor_parts day nm : isDayName day = true → name nm →
  minDay (Some (entry_path day nm)) = day ∧ minName (Some (entry_path day nm)) = nm.
Proof.
  intros Hd%day_name Hn. unfold minDay, minName. split; [|by apply basename_entry].
  rewrite entry_path_split, dirname_name by done.
  change (sep :: BACKUP_JOURNAL_DIR ++ sep :: day) with ((sep :: BACKUP_JOURNAL_DIR) ++ sep :: day).
  apply basename_name. by apply Hd.
Qed.

Lemma entry_path_lt d n d' n' : isDayName d = true → isDayName d' = true →
  lt_str (entry_path d n) (entry_path d' n') = lt_str d d' || (bool_decide (d = d') && lt_str n n').
Proof.
  intros [_ H1]%day_name [_ H2]%day_name. unfold entry_path.
  change (sep :: BACKUP_JOURNAL_DIR ++ sep :: ?x) with ((sep :: BACKUP_JOURNAL_DIR ++ [sep]) ++ x).
  replace (sep :: BACKUP_JOURNAL_DIR ++ sep :: d ++ sep :: n) with ((sep :: BACKUP_JOURNAL_DIR ++ [sep]) ++ d ++ sep :: n) by done.
  replace (sep :: BACKUP_JOURNAL_DIR ++ sep :: d' ++ sep :: n') with ((sep :: BACKUP_JOURNAL_DIR ++ [sep]) ++ d' ++ sep :: n') by done.
  rewrite lt_str_same, lt_str_app by congruence. done.
Qed.

Lemma entry_path_inj d n d' n' : isDayName d = true → isDayName d' = true →
  entry_path d n = entry_path d' n' → d = d' ∧ n = n'.
Proof.
  intros [_ H1]%day_name [_ H2]%day_name E. unfold entry_path in E. injection E as E.
  apply app_inj_1 in E as [-> E]; [by injection E as ->|congruence].
Qed.

(** What the two filters select is what comes after the cursor. *)
Lemma selected_after cursor day nm : good_cursor cursor → isDayName day = true → name nm →
  (lt_str day (minDay cursor) = false ∧ (day = minDay cursor → lt_str (minName cursor) nm = true)) ↔ after cursor (entry_path day nm).
Proof.
  intros Hc Hd Hn. destruct cursor as [c|]; cbn [after].
  - destruct Hc as (d & n & Hd' & Hn' & ->). destruct (cursor_parts d n Hd' Hn') as [-> ->].
    rewrite entry_path_lt by done. split.
    + intros [H1 H2]. destruct (decide (d = day)) as [->|Hne].
      * rewrite H2, bool_decide_true by done. apply orb_true_r.
      * rewrite (le_str_lt d day) by done. done.
    + rewrite orb_true_iff, andb_true_iff, bool_decide_eq_true. intros [Hlt|[-> Hlt]].
      * split; [by apply lt_str_asym|]. intros ->. by rewrite lt_str_irrefl in Hlt.
      * by rewrite lt_str_irrefl.
  - split; [done|]. intros _. split; [by destruct day|]. intros ->. done.
Qed.

(** ** A read *)

Lemma elem_of_list_dir {A} (dir : gmap jstring A) keep ignore l x :
  list_dir (Some dir) keep ignore = Ok l → x ∈ l ↔ is_Some (dir !! x) ∧ keep x = true.
Proof.
  intros [= <-]. rewrite list_elem_of_In, filter_In, in_map_iff. split.
  - intros (([k v] & <- & Hv) & Hk). apply list_elem_of_In, elem_of_map_to_list in Hv. split; [by eexists|done].
  - intros [[v Hv] Hk]. split; [|done]. exists (x, v). split; [done|]. by apply list_elem_of_In, elem_of_map_to_list.
Qed.

Lemma NoDup_list_dir {A} (dir : gmap jstring A) keep ignore l : list_dir (Some dir) keep ignore = Ok l → NoDup l.
Proof.
  intros [= <-]. apply NoDup_ListNoDup, List.NoDup_filter, NoDup_ListNoDup. apply NoDup_fst_map_to_list.
Qed.

Lemma names_of_day_ok j cursor day : ∃ names, names_of_day j cursor day = Ok names ∧ NoDup names ∧
  ∀ nm, nm ∈ names ↔ is_Some (file_of j day nm) ∧ (day = minDay cursor → lt_str (minName cursor) nm = true).
Proof.
  unfold names_of_day, file_of. destruct (day_of j day) as [files|].
  - set (keep := λ nm, if bool_decide (day = minDay cursor) then lt_str (minName cursor) nm else true).
    exists (List.filter keep (map fst (map_to_list files))). split; [done|]. split; [by apply (NoDup_list_dir files keep true)|].
    intros nm. rewrite (elem_of_list_dir files keep true _ nm eq_refl). unfold keep. case_bool_decide; naive_solver.
  - exists []. split; [done|]. split; [constructor|]. intros nm. split; [by intros ?%not_elem_of_nil|]. intros [[? ?] _]. done.
Qed.

Lemma find_entries_ok j cursor days : NoDup days → ∃ found, find_entries j cursor days = Ok found ∧ NoDup found ∧
  ∀ day nm, (day, nm) ∈ found ↔ day ∈ days ∧ is_Some (file_of j day nm) ∧ (day = minDay cursor → lt_str (minName cursor) nm = true).
Proof.
  induction 1 as [|day days Hn _ (found & Hf & Hd & IH)]; cbn.
  { exists []. split; [done|]. split; [constructor|]. intros. rewrite !elem_of_nil. naive_solver. }
  destruct (names_of_day_ok j cursor day) as (names & -> & Hd' & Hin). cbn. rewrite Hf. cbn.
  eexists. split; [done|]. split.
  - apply NoDup_app. split; [|split; [|done]].
    + apply NoDup_fmap_2; [|done]. by intros ?? [= ->].
    + intros [d n] (m & [= -> ->] & _)%list_elem_of_fmap [Hx _]%IH. done.
  - intros d n. rewrite elem_of_app, list_elem_of_fmap, IH, elem_of_cons. setoid_rewrite Hin. naive_solver.
Qed.

Lemma read_entry_filename j day nm e : read_entry j (day, nm) = Some e → _filename e = entry_path day nm ∧ is_Some (file_of j day nm).
Proof.
  unfold read_entry. destruct (dateOfEntry _ _); [|done]. destruct (file_of j day nm) as [[|]|]; [done| |done]. intros [= <-]. by cbn.
Qed.

Lemma StronglySorted_strict es : NoDup (map _filename es) → StronglySorted older es →
  StronglySorted (λ a b, lt_str (_filename a) (_filename b) = true) es.
Proof.
  induction es as [|e es IH]; intros Hd Hs; [constructor|]. rewrite map_cons, NoDup_cons in Hd. destruct Hd as [Hn Hd].
  apply StronglySorted_inv in Hs as [Hs Ha]. constructor; [by apply IH|]. rewrite Forall_forall in Ha |- *. intros x Hx.
  apply le_str_lt; [by apply Ha|]. intros E. apply Hn. rewrite E. by apply list_elem_of_fmap_2.
Qed.

Lemma NoDup_read j found : (∀ d n, (d, n) ∈ found → isDayName d = true) → NoDup found → NoDup (map _filename (omap (read_entry j) found)).
Proof.
  intros Hdays. induction 1 as [|[d n] found Hn Hd IH]; cbn [omap list_omap map]; [constructor|].
  assert (NoDup (map _filename (omap (read_entry j) found))) as Hrest by (apply IH; intros; apply (Hdays _ n0); by right).
  destruct (read_entry j (d, n)) as [e|] eqn:E; [|done]. rewrite map_cons. constructor; [|done].
  intros (x & Hx & ([d' n'] & Hin & Hr)%list_elem_of_omap)%list_elem_of_fmap.
  apply read_entry_filename in E as [E _], Hr as [Hr _]. rewrite E, Hr in Hx.
  apply entry_path_inj in Hx as [-> ->]; [done|by apply (Hdays d n); left|by apply (Hdays d' n'); right].
Qed.

Lemma read_ok arrival j cursor mustExist :
  (∀ l, arrival l ≡ₚ l) → wf_journal j → good_cursor cursor → j ≠ None ∨ mustExist = false →
  ∃ es, readBackupJournal arrival j cursor mustExist = Ok es ∧
    StronglySorted (λ a b, lt_str (_filename a) (_filename b) = true) es ∧
    ∀ e, e ∈ es ↔ in_journal j e ∧ after cursor (_filename e).
Proof.
  intros Ha Hw Hc Hj. unfold readBackupJournal.
  set (keep := λ name, isDayName name && negb (lt_str name (minDay cursor))).
  assert (∃ days, list_dir j keep (negb mustExist) = Ok days ∧ NoDup days ∧
    ∀ d, d ∈ days ↔ is_Some (day_of j d) ∧ keep d = true) as (days & -> & Hd & Hdays).
  { destruct j as [dir|].
    - eexists. split; [done|]. split; [by eapply (NoDup_list_dir dir keep (negb mustExist))|]. intros d.
      by apply (elem_of_list_dir dir keep (negb mustExist)).
    - destruct Hj as [?| ->]; [done|]. exists []. split; [done|]. split; [constructor|]. intros d. rewrite elem_of_nil.
      split; [done|]. by intros [[? ?] _]. }
  cbn. destruct (find_entries_ok j cursor (merge_sort le_str days)) as (found & -> & Hf & Hin).
  { by rewrite merge_sort_Permutation. }
  cbn. eexists. split; [done|].
  assert (∀ d n, (d, n) ∈ found → isDayName d = true) as Hday.
  { intros d n (Hx & _)%Hin. rewrite merge_sort_Permutation in Hx. apply Hdays in Hx as [_ Hk]. apply andb_true_iff in Hk. apply Hk. }
  split.
  - apply StronglySorted_strict; [|by apply (StronglySorted_merge_sort older)].
    rewrite merge_sort_Permutation, Ha. by apply NoDup_read.
  - intros e. rewrite merge_sort_Permutation, Ha, list_elem_of_omap. split.
    + intros ([d n] & Hx & Hr). pose proof (Hday d n Hx) as Hd'. destruct (read_entry_filename j d n e Hr) as [-> [f Hf']].
      split; [by exists d, n|]. apply Hin in Hx as (Hx & _ & Hcur). rewrite merge_sort_Permutation in Hx. apply Hdays in Hx as [_ Hk].
      apply andb_true_iff in Hk as [_ Hk]. apply selected_after; [done|done|by eapply Hw|]. split; [by apply negb_true_iff|done].
    + intros [(d & n & Hd' & Hr) Haft]. destruct (read_entry_filename j d n e Hr) as [Hfn [f Hf']]. rewrite Hfn in Haft.
      apply selected_after in Haft as [H1 H2]; [|done|done|by eapply Hw].
      exists (d, n). split; [|done]. apply Hin. rewrite merge_sort_Permutation, Hdays. unfold file_of in Hf'.
      split; [|by split; [eexists|]]. destruct (day_of j d) eqn:E; [|done]. split; [by eexists|]. unfold keep. by rewrite Hd', H1.
Qed.

(** C11: A read returns exactly the entries of the journal that come after the cursor and
    can be read, oldest first, whatever the order in which the files are read; it throws
    when the directory is missing and has to exist. *)
Theorem readBackupJournal_exact arrival j cursor mustExist :
  (∀ l, arrival l ≡ₚ l) → wf_journal j → good_cursor cursor →
  match readBackupJournal arrival j cursor mustExist with
  | Ok es => StronglySorted (λ a b, lt_str (_filename a) (_filename b) = true) es ∧
      ∀ e, e ∈ es ↔ in_journal j e ∧ after cursor (_filename e)
  | Throw e => e = ENOENT ∧ j = None ∧ mustExist = true
  end.
Proof.
  intros Ha Hw Hc. destruct j as [dir|], mustExist.
  2, 4: destruct (read_ok arrival _ cursor false Ha Hw Hc) as (es & -> & Hes); [by right|done].
  - destruct (read_ok arrival (Some dir) cursor true Ha Hw Hc) as (es & -> & Hes); [by left|done].
  - done.
Qed.

(** ** A reader, and its writers *)

Record Reader := mkReader { journal : Journal; cursor : option jstring; returned : list Entry }.

Inductive Op :=
  | Add (now : Z) (unique : jstring) (outcome : Outcome) (e : NewEntry)
  | Read.

(** The cursor is the name of the last entry that was read. *)
Definition read_next (arrival : list Entry → list Entry) (r : Reader) : Reader :=
  match readBackupJournal arrival (journal r) (cursor r) false with
  | Ok es => mkReader (journal r) (match last es with Some e => Some (_filename e) | None => cursor r end) (returned r ++ es)
  | Throw _ => r
  end.

Definition reader_step (arrival : list Entry → list Entry) (r : Reader) (op : Op) : Reader :=
  match op with
  | Add now unique outcome e => mkReader (writeBackupJournalEntry now unique outcome e (journal r)) (cursor r) (returned r)
  | Read => read_next arrival r
  end.

Definition op_ok (op : Op) : Prop :=
  match op with
  | Add now unique _ e => 0 ≤ now ≤ max_date ∧ sep ∉ unique ∧ sep ∉ event e ∧ sep ∉ vmUuid e
  | Read => True
  end.

Context `{!DateFormatsLaws}.

Lemma formatTime_length t : 0 ≤ t ≤ max_date → length (formatTime t) = TIME_LENGTH.
Proof.
  intros Ht. pose proof (formatDate_length t Ht) as Hl. pose proof (formatDate_day t Ht) as Hd. apply day_name in Hd as [_ Hd].
  rewrite (formatDate_time t Ht), !length_app, Hd in Hl. cbn in Hl. unfold TIME_LENGTH, DATE_LENGTH, DAY_LENGTH in *. lia.
Qed.

Lemma entry_name_name now unique e : op_ok (Add now unique Written e) → name (entry_name now unique e).
Proof.
  intros (Ht & Hu & He & Hv). pose proof (formatTime_length now Ht) as Hl. unfold entry_name, formatJournalTime.
  assert (sep ∉ formatTime now ++ js "-" ++ unique ++ js "-" ++ event e ++ js "-" ++ vmUuid e ++ js "-" ++ basename (filename e)) as Hs.
  { rewrite !not_elem_of_app. pose proof (formatTime_name now Ht). pose proof (basename_no_sep (filename e)).
    assert (sep ∉ js "-") by (cbn; rewrite list_elem_of_singleton; done). done. }
  destruct (formatTime now) as [|a [|b [|c s]]]; [done..|].
  split; [done|]. split; [by intros ?|]. split; [by intros ?|]. exact Hs.
Qed.

Lemma date_of_written now unique e : op_ok (Add now unique Written e) →
  dateOfEntry (formatJournalDay now) (entry_name now unique e) = Some now.
Proof.
  intros (Ht & _). unfold dateOfEntry, entry_name, formatJournalDay, formatJournalDate, formatJournalTime, parseJournalDate.
  rewrite <- (formatTime_length now Ht), take_app_length. rewrite <- (formatDate_time now Ht). by apply parseDate_format.
Qed.

Lemma file_of_put day nm outcome f j day' nm' : file_of (put_file day nm outcome f j) day' nm' =
  match file_of j day nm, outcome with
  | None, Written => if bool_decide (day' = day ∧ nm' = nm) then Some f else file_of j day' nm'
  | None, Partial => if bool_decide (day' = day ∧ nm' = nm) then Some Broken else file_of j day' nm'
  | _, _ => file_of j day' nm'
  end.
Proof.
  assert (file_of j day nm = default ∅ (default ∅ j !! day) !! nm) as E.
  { unfold file_of, day_of. destruct j as [d|]; cbn; [|by rewrite lookup_empty]. by destruct (d !! day). }
  unfold put_file. rewrite E. destruct (default ∅ (default ∅ j !! day) !! nm) as [g|] eqn:E'; [done|].
  assert (∀ x, file_of (Some (<[day:=<[nm:=x]> (default ∅ (default ∅ j !! day))]> (default ∅ j))) day' nm' =
    if bool_decide (day' = day ∧ nm' = nm) then Some x else file_of j day' nm') as Hput.
  { intros x. unfold file_of, day_of. destruct (decide (day' = day)) as [->|Hd].
    - rewrite lookup_insert_eq. destruct (decide (nm' = nm)) as [->|Hn].
      + by rewrite lookup_insert_eq, bool_decide_true.
      + rewrite lookup_insert_ne, bool_decide_false by naive_solver. destruct j as [d|]; cbn; [|by rewrite lookup_empty]. by destruct (d !! day).
    - rewrite lookup_insert_ne, bool_decide_false by naive_solver. by destruct j. }
  by destruct outcome.
Qed.

Lemma wf_put op j : op_ok op → wf_journal j → wf_journal (match op with Add now u o e => writeBackupJournalEntry now u o e j | Read => j end).
Proof.
  destruct op as [now u o e|]; [|done]. intros Hok Hw d n f. unfold writeBackupJournalEntry. rewrite file_of_put.
  destruct (file_of j _ _), o; try apply Hw; (case_bool_decide as Hb; [|apply Hw]); destruct Hb as [-> ->]; intros _; by apply entry_name_name.
Qed.

Lemma read_entry_file j j' day nm e : (∀ f, file_of j day nm = Some f → file_of j' day nm = Some f) →
  read_entry j (day, nm) = Some e → read_entry j' (day, nm) = Some e.
Proof.
  unfold read_entry. intros Hf. destruct (dateOfEntry _ _); [|done]. destruct (file_of j day nm) as [f|]; [|done]. by rewrite (Hf f).
Qed.

Lemma in_journal_put now u o e j x : in_journal j x → in_journal (writeBackupJournalEntry now u o e j) x.
Proof.
  intros (d & n & Hd & Hr). exists d, n. split; [done|]. revert Hr. apply read_entry_file. intros f Hf.
  unfold writeBackupJournalEntry. rewrite file_of_put.
  destruct (file_of j (formatJournalDay now) (entry_name now u e)) eqn:E; [done|].
  rewrite bool_decide_false by (intros [-> ->]; congruence). by destruct o.
Qed.

Lemma in_journal_written now u e j : op_ok (Add now u Written e) →
  file_of j (formatJournalDay now) (entry_name now u e) = None →
  in_journal (writeBackupJournalEntry now u Written e j) (mkEntry e now now (getEntryPath now u e)).
Proof.
  intros Hok Hf. exists (formatJournalDay now), (entry_name now u e). split; [apply formatDate_day, Hok|].
  unfold read_entry. rewrite basename_entry by by apply entry_name_name. rewrite (date_of_written now u e Hok).
  unfold writeBackupJournalEntry. rewrite file_of_put, Hf, bool_decide_true by done. done.
Qed.

(** [journalCursorAt(t)] is just before what is written from [t] on. *)
Lemma cursor_at t t' unique e : 0 ≤ t ≤ max_date → 0 ≤ t' ≤ max_date →
  lt_str (journalCursorAt t) (getEntryPath t' unique e) = (t <=? t').
Proof.
  intros Ht Ht'. unfold journalCursorAt, getEntryPath, formatJournalDay, formatJournalDate.
  rewrite entry_path_lt by by apply formatDate_day.
  assert (lt_str (formatJournalTime t) (entry_name t' unique e) =
    lt_str (formatTime t) (formatTime t') || bool_decide (formatTime t = formatTime t')) as ->.
  { unfold entry_name, formatJournalTime. rewrite <- (app_nil_r (formatTime t)) at 1. rewrite lt_str_app by by rewrite !formatTime_length.
    cbn. by rewrite andb_true_r. }
  assert (∀ a b, 0 ≤ a ≤ max_date → 0 ≤ b ≤ max_date → lt_str (formatDate a) (formatDate b) =
    lt_str (dayOfDate (formatDate a)) (dayOfDate (formatDate b)) ||
    (bool_decide (dayOfDate (formatDate a) = dayOfDate (formatDate b)) && lt_str (formatTime a) (formatTime b))) as Hlt.
  { intros a b Ha Hb. rewrite (formatDate_time a Ha), (formatDate_time b Hb) at 1. rewrite lt_str_app.
    - by rewrite lt_str_same.
    - by rewrite (proj2 (day_name _ (formatDate_day a Ha))), (proj2 (day_name _ (formatDate_day b Hb))). }
  destruct (Z.leb_spec t t') as [Hle|Hlt'].
  - destruct (decide (t = t')) as [<-|Hne]; [by rewrite !bool_decide_true, !orb_true_r by done|].
    pose proof (formatDate_mono t t') as Hm. rewrite Hlt in Hm by lia.
    specialize (Hm ltac:(lia) ltac:(lia) ltac:(lia)). by destruct (lt_str (dayOfDate _) _), (bool_decide _), (lt_str (formatTime _) _).
  - pose proof (formatDate_mono t' t) as Hm. rewrite Hlt in Hm by lia. apply orb_false_iff.
    assert (lt_str (dayOfDate (formatDate t')) (dayOfDate (formatDate t)) = true ∨ dayOfDate (formatDate t') = dayOfDate (formatDate t) ∧
      lt_str (formatTime t') (formatTime t) = true) as Hm'.
    { apply orb_true_iff in Hm as [?|[?%bool_decide_eq_true ?]%andb_true_iff]; [by left|by right|lia..]. }
    destruct Hm' as [Hm'|[-> Hm']].
    + split; [by apply lt_str_asym|]. rewrite bool_decide_false; [done|]. intros E. by rewrite E, lt_str_irrefl in Hm'.
    + split; [apply lt_str_irrefl|]. rewrite (lt_str_asym _ _ Hm'). rewrite (bool_decide_false (formatTime t = formatTime t')).
      * by rewrite andb_false_r.
      * intros E. by rewrite E, lt_str_irrefl in Hm'.
Qed.

Definition sorted_entries (es : list Entry) : Prop := StronglySorted (λ a b, lt_str (_filename a) (_filename b) = true) es.

Record reading (r : Reader) : Prop := {
  rd_wf : wf_journal (journal r);
  rd_cursor : good_cursor (cursor r);
  rd_sorted : sorted_entries (returned r);
  rd_before x : x ∈ returned r → ¬ after (cursor r) (_filename x);
}.

Lemma le_lt_str_trans a b c : lt_str b a = false → lt_str b c = true → lt_str a c = true.
Proof.
  intros H1 H2. destruct (lt_str a b) eqn:E; [by apply (lt_str_trans a b c)|]. by rewrite (lt_str_total a b).
Qed.

Lemma after_trans cursor a b : ¬ after cursor a → after cursor b → lt_str a b = true.
Proof.
  destruct cursor as [c|]; cbn; [|done]. intros Ha. apply le_lt_str_trans. by apply not_true_is_false.
Qed.

Lemma sorted_app es es' : sorted_entries es → sorted_entries es' →
  (∀ x y, x ∈ es → y ∈ es' → lt_str (_filename x) (_filename y) = true) → sorted_entries (es ++ es').
Proof.
  intros H1 H2 H12. induction H1 as [|e es H1 IH Ha]; [done|]. cbn. constructor.
  - apply IH. intros x y Hx. apply H12. by right.
  - apply Forall_app. split; [done|]. apply Forall_forall. intros y Hy. apply H12; [by left|done].
Qed.

Lemma sorted_last es e x : sorted_entries es → last es = Some e → x ∈ es → lt_str (_filename e) (_filename x) = false.
Proof.
  intros Hs (es' & ->)%last_Some [Hx| ->%list_elem_of_singleton]%elem_of_app; [|apply lt_str_irrefl].
  apply lt_str_asym. induction es' as [|y es' IH]; [by apply not_elem_of_nil in Hx|].
  apply StronglySorted_inv in Hs as [Hs Ha]. apply elem_of_cons in Hx as [->|Hx]; [|by apply IH].
  rewrite Forall_forall in Ha. apply Ha, elem_of_app. right. by left.
Qed.

Section reader.
Context (arrival : list Entry → list Entry) (Harrival : ∀ l, arrival l ≡ₚ l).

Lemma read_next_ok r : reading r → ∃ es, read_next arrival r =
    mkReader (journal r) (match last es with Some e => Some (_filename e) | None => cursor r end) (returned r ++ es) ∧
  sorted_entries es ∧ ∀ e, e ∈ es ↔ in_journal (journal r) e ∧ after (cursor r) (_filename e).
Proof.
  intros []. unfold read_next. destruct (read_ok arrival (journal r) (cursor r) false) as (es & -> & ? & ?); [done..|by right|].
  by exists es.
Qed.

Lemma reading_step r op : op_ok op → reading r → reading (reader_step arrival r op).
Proof.
  intros Hok Hr. destruct op as [now u o e|].
  { destruct Hr. split; cbn; try done. by apply (wf_put (Add now u o e)). }
  cbn. destruct (read_next_ok r Hr) as (es & -> & Hs & Hin). destruct Hr as [Hw Hc Hs' Hb]. split; cbn.
  - done.
  - destruct (last es) as [e|] eqn:E; [|done]. assert (e ∈ es) as (He & _)%Hin by (apply last_Some_elem_of in E; done).
    destruct He as (d & n & Hd & Hr). destruct (read_entry_filename _ _ _ _ Hr) as [Hf [f Hf']]. exists d, n.
    split; [done|]. split; [by eapply Hw|done].
  - apply sorted_app; [done|done|]. intros x y Hx%Hb [_ Hy]%Hin. by eapply after_trans.
  - intros x [Hx|Hx]%elem_of_app; destruct (last es) as [e|] eqn:E.
    + assert (e ∈ es) as (_ & He)%Hin by (apply last_Some_elem_of in E; done). cbn.
      rewrite (lt_str_asym (_filename x)); [done|]. eapply after_trans; [by apply Hb|done].
    + by apply Hb.
    + cbn. by rewrite (sorted_last es e x).
    + apply last_None in E as ->. by apply not_elem_of_nil in Hx.
Qed.

Lemma returned_mono ops r x : Forall op_ok ops → reading r → x ∈ returned r → x ∈ returned (foldl (reader_step arrival) r ops).
Proof.
  intros Hops. revert r. induction Hops as [|op ops Ho Hops IH]; intros r Hr Hx; [done|]. cbn. apply IH; [by apply reading_step|].
  destruct op; [done|]. cbn. destruct (read_next_ok r Hr) as (es & -> & _). cbn. apply elem_of_app. by left.
Qed.

Lemma eventually_returned ops r x : Forall op_ok ops → reading r → in_journal (journal r) x → after (cursor r) (_filename x) →
  Read ∈ ops → x ∈ returned (foldl (reader_step arrival) r ops).
Proof.
  intros Hops. revert r. induction Hops as [|op ops Ho Hops IH]; intros r Hr Hj Ha Hin; [by apply not_elem_of_nil in Hin|].
  cbn. destruct op as [now u o e|].
  - apply elem_of_cons in Hin as [?|Hin]; [done|]. apply IH; [by apply reading_step|by apply in_journal_put|done|done].
  - apply returned_mono; [done|by apply reading_step|]. cbn. destruct (read_next_ok r Hr) as (es & -> & _ & Hes). cbn.
    apply elem_of_app. right. by apply Hes.
Qed.

Lemma reading_ops ops r : Forall op_ok ops → reading r → reading (foldl (reader_step arrival) r ops).
Proof. intros Hops. revert r. induction Hops as [|op ops Ho Hops IH]; intros r Hr; [done|]. cbn. apply IH. by apply reading_step. Qed.

(** C10: A reader that goes on from the last entry it read gets each entry at most once,
    oldest first, and each entry that is written with a name after the cursor is got by
    the next read, whatever the failures and the dates of the writes. *)
Theorem entries_returned_once ops j c :
  Forall op_ok ops → wf_journal j → good_cursor c →
  let r := foldl (reader_step arrival) (mkReader j c []) ops in
  sorted_entries (returned r) ∧
  ∀ pre now unique e post, ops = pre ++ Add now unique Written e :: post → Read ∈ post →
    let before := foldl (reader_step arrival) (mkReader j c []) pre in
    file_of (journal before) (formatJournalDay now) (entry_name now unique e) = None →
    after (cursor before) (getEntryPath now unique e) →
    mkEntry e now now (getEntryPath now unique e) ∈ returned r.
Proof.
  intros Hops Hw Hc r.
  assert (reading (mkReader j c [])) as Hinit by (split; [done|done|constructor|by intros x ?%not_elem_of_nil]).
  split; [by apply rd_sorted, reading_ops|]. intros pre now u e post -> Hin before Hf Ha. unfold r.
  apply Forall_app in Hops as [Hpre [Hok Hpost]%Forall_cons]. rewrite foldl_app. cbn. fold before.
  assert (reading before) as Hb by by apply reading_ops.
  apply eventually_returned; [done|by apply (reading_step before (Add now u Written e))|by apply in_journal_written|done|done].
Qed.
End reader.

(** The cursor of a date is before the entries that are written from it on, and after
    the others. *)
Theorem journalCursorAt_correct t t' unique e : 0 ≤ t ≤ max_date → 0 ≤ t' ≤ max_date →
  after (Some (journalCursorAt t)) (getEntryPath t' unique e) ↔ t ≤ t'.
Proof. intros Ht Ht'. unfold after. rewrite cursor_at, Z.leb_le by done. done. Qed.
End journal.

(** ** Formats that satisfy the laws *)

Fixpoint pad (width : nat) (n : Z) : jstring :=
  match width with
  | O => []
  | S width => pad width (n `div` 10) ++ [chr (48 + n `mod` 10)]
  end.

Definition read_pad (s : jstring) : Z := foldl (λ v c, v * 10 + (code c - 48)) 0 s.

Lemma code_chr z : 0 ≤ z < 256 → code (chr z) = z.
Proof. intros Hz. unfold code, chr. rewrite N_ascii_embedding by lia. lia. Qed.

Lemma pad_length w n : length (pad w n) = w.
Proof. revert n. induction w as [|w IH]; intros n; cbn; [done|]. rewrite length_app, IH. cbn. lia. Qed.

Lemma pad_digits w n : forallb is_digit (pad w n) = true.
Proof.
  revert n. induction w as [|w IH]; intros n; cbn; [done|]. rewrite forallb_app, IH. cbn. rewrite andb_true_r.
  pose proof (Z.mod_pos_bound n 10). unfold is_digit, between. rewrite code_chr by lia. lia.
Qed.

Lemma read_pad_pad w n : 0 ≤ n < 10 ^ Z.of_nat w → read_pad (pad w n) = n.
Proof.
  revert n. induction w as [|w IH]; intros n Hn; cbn; [lia|]. unfold read_pad in *. rewrite foldl_app.
  rewrite Nat2Z.inj_succ, Z.pow_succ_r in Hn by lia. rewrite IH by (split; [apply Z.div_pos; lia|apply Z.div_lt_upper_bound; lia]).
  cbn. pose proof (Z.mod_pos_bound n 10). rewrite code_chr by lia. pose proof (Z.div_mod n 10). lia.
Qed.

Lemma pad_lt w n m : 0 ≤ n < m → m < 10 ^ Z.of_nat w → lt_str (pad w n) (pad w m) = true.
Proof.
  revert n m. induction w as [|w IH]; intros n m Hn Hm; [cbn in *; lia|]. cbn [pad].
  rewrite Nat2Z.inj_succ, Z.pow_succ_r in Hm by lia. rewrite lt_str_app by by rewrite !pad_length.
  pose proof (Z.div_mod n 10). pose proof (Z.div_mod m 10). pose proof (Z.mod_pos_bound n 10). pose proof (Z.mod_pos_bound m 10).
  assert (0 ≤ n `div` 10) by (apply Z.div_pos; lia). assert (m `div` 10 < 10 ^ Z.of_nat w) by (apply Z.div_lt_upper_bound; lia).
  destruct (decide (n `div` 10 = m `div` 10)) as [E|Hne].
  - rewrite E, lt_str_irrefl, bool_decide_true by done. cbn. rewrite !code_chr by lia. case_match; lia.
  - rewrite IH by lia. done.
Qed.

(** The number of the day, then the time. *)
Definition day_ms : Z := 86400000.
Definition clock (t : Z) : jstring :=
  pad 2 (t `mod` day_ms `div` 3600000) ++ pad 2 (t `mod` 3600000 `div` 60000) ++ pad 2 (t `mod` 60000 `div` 1000) ++
  js "." ++ pad 3 (t `mod` 1000) ++ js "Z".
#[local] Instance day_formats : DateFormats := {
  formatDate t := pad 8 (t `div` day_ms) ++ js "T" ++ clock t;
  formatTime := clock;
  parseDate s :=
    if (length s =? 20)%nat then
      Some (read_pad (take 8 s) * day_ms + read_pad (take 2 (drop 9 s)) * 3600000 + read_pad (take 2 (drop 11 s)) * 60000
        + read_pad (take 2 (drop 13 s)) * 1000 + read_pad (take 3 (drop 16 s)))
    else None;
}.

Lemma clock_length t : length (clock t) = 11%nat.
Proof. unfold clock. rewrite !length_app, !pad_length. done. Qed.

Lemma day_bound t : 0 ≤ t ≤ max_date → 0 ≤ t `div` day_ms < 10 ^ 8.
Proof. intros Ht. unfold max_date, day_ms in *. split; [apply Z.div_pos; lia|apply Z.div_lt_upper_bound; lia]. Qed.

Lemma clock_sep t : sep ∉ clock t.
Proof.
  assert (∀ w n, sep ∉ pad w n) as Hp.
  { intros w n Hin. pose proof (pad_digits w n) as Hd. rewrite forallb_forall in Hd. by apply list_elem_of_In, Hd in Hin. }
  unfold clock. rewrite !not_elem_of_app. repeat split; try apply Hp; cbn; by intros ?%list_elem_of_singleton.
Qed.

(** The parts of a date. *)
Lemma clock_parts t : ∃ d h m s l, t = d * day_ms + h * 3600000 + m * 60000 + s * 1000 + l ∧ d = t `div` day_ms ∧
  (0 ≤ h < 24 ∧ 0 ≤ m < 60 ∧ 0 ≤ s < 60 ∧ 0 ≤ l < 1000) ∧
  clock t = pad 2 h ++ pad 2 m ++ pad 2 s ++ js "." ++ pad 3 l ++ js "Z".
Proof.
  exists (t `div` day_ms), (t `mod` day_ms `div` 3600000), (t `mod` 3600000 `div` 60000), (t `mod` 60000 `div` 1000), (t `mod` 1000).
  split; [|split; [done|split; [|done]]]; unfold day_ms; Z.div_mod_to_equations; lia.
Qed.

Lemma lt_str_pad w a b x y : 0 ≤ a → b < 10 ^ Z.of_nat w → a ≤ b → (a = b → lt_str x y = true) → lt_str (pad w a ++ x) (pad w b ++ y) = true.
Proof.
  intros Ha Hb Hle Hxy. rewrite lt_str_app by by rewrite !pad_length. destruct (decide (a = b)) as [->|Hne].
  - rewrite lt_str_irrefl, bool_decide_true by done. by apply Hxy.
  - by rewrite pad_lt by lia.
Qed.

Lemma clock_mono t t' : t `div` day_ms = t' `div` day_ms → t < t' → lt_str (clock t) (clock t') = true.
Proof.
  intros E Hlt. destruct (clock_parts t) as (d & h & m & s & l & Ht & Hd & Hb & ->).
  destruct (clock_parts t') as (d' & h' & m' & s' & l' & Ht' & Hd' & Hb' & ->). assert (d' = d) as -> by congruence.
  apply lt_str_pad; [lia|cbn; lia|lia|intros ->]. apply lt_str_pad; [lia|cbn; lia|lia|intros ->].
  apply lt_str_pad; [lia|cbn; lia|lia|intros ->]. rewrite lt_str_same. apply lt_str_pad; [lia|cbn; lia|lia|intros ->]. lia.
Qed.

Lemma read_clock t : let s := clock t in
  read_pad (take 2 s) * 3600000 + read_pad (take 2 (drop 2 s)) * 60000 + read_pad (take 2 (drop 4 s)) * 1000 + read_pad (take 3 (drop 7 s))
  = t - t `div` day_ms * day_ms.
Proof.
  destruct (clock_parts t) as (d & h & m & s & l & Ht & Hd & Hb & ->). cbn zeta.
  replace (take 2 (pad 2 h ++ pad 2 m ++ pad 2 s ++ js "." ++ pad 3 l ++ js "Z")) with (pad 2 h) by reflexivity.
  replace (take 2 (drop 2 (pad 2 h ++ pad 2 m ++ pad 2 s ++ js "." ++ pad 3 l ++ js "Z"))) with (pad 2 m) by reflexivity.
  replace (take 2 (drop 4 (pad 2 h ++ pad 2 m ++ pad 2 s ++ js "." ++ pad 3 l ++ js "Z"))) with (pad 2 s) by reflexivity.
  replace (take 3 (drop 7 (pad 2 h ++ pad 2 m ++ pad 2 s ++ js "." ++ pad 3 l ++ js "Z"))) with (pad 3 l) by reflexivity.
  rewrite !read_pad_pad by (cbn; lia). lia.
Qed.

#[local] Instance day_formats_laws : DateFormatsLaws.
Proof.
  assert (∀ t x, dayOfDate (pad 8 (t `div` day_ms) ++ x) = pad 8 (t `div` day_ms)) as Hday by reflexivity.
  split; cbn [formatDate formatTime parseDate day_formats].
  - intros t _. rewrite !length_app, pad_length, clock_length. done.
  - intros t _. rewrite Hday. unfold isDayName. by rewrite pad_length, pad_digits.
  - intros t _. by rewrite Hday.
  - intros t _. apply clock_sep.
  - intros t t' Ht Hlt Ht'. pose proof (day_bound t') as Hb.
    apply lt_str_pad; [apply Z.div_pos; unfold day_ms; lia|apply Hb; lia|apply Z.div_le_mono; unfold day_ms; lia|].
    intros E. rewrite lt_str_same. by apply clock_mono.
  - intros t Ht. rewrite !length_app, pad_length, clock_length. cbn [Nat.eqb length Nat.add js].
    pose proof (read_clock t) as Hr. cbn zeta in Hr. pose proof (day_bound t Ht).
    replace (take 8 (pad 8 (t `div` day_ms) ++ js "T" ++ clock t)) with (pad 8 (t `div` day_ms)) by reflexivity.
    replace (drop 9 (pad 8 (t `div` day_ms) ++ js "T" ++ clock t)) with (clock t) by reflexivity.
    replace (drop 11 (pad 8 (t `div` day_ms) ++ js "T" ++ clock t)) with (drop 2 (clock t)) by reflexivity.
    replace (drop 13 (pad 8 (t `div` day_ms) ++ js "T" ++ clock t)) with (drop 4 (clock t)) by reflexivity.
    replace (drop 16 (pad 8 (t `div` day_ms) ++ js "T" ++ clock t)) with (drop 7 (clock t)) by reflexivity.
    rewrite read_pad_pad by (cbn; lia). cbn [Nat.eqb length Nat.add js list_ascii_of_string]. f_equal. lia.
Qed.

(** ** Two writers *)

Definition added (filename : string) : NewEntry := mkNewEntry (js "add") (js "vm") (js filename) None None.
Definition t0 : Z := 1786442400000.
Definition written (now : Z) (unique filename : string) : Entry :=
  mkEntry (added filename) now now (getEntryPath now (js unique) (added filename)).

(** The second entry is not complete. *)
Definition two_writers : list Op := [
  Add (t0 + 1000) (js "0a") Written (added "/vm/1.json");
  Add (t0 + 2000) (js "0b") Partial (added "/vm/2.json");
  Read;
  Add (t0 + day_ms) (js "0c") Written (added "/vm/3.json");
  Read;
  Read].

Example two_writers_read :
  returned (foldl (reader_step reverse) (mkReader None (Some (journalCursorAt t0)) []) two_writers)
    = [written (t0 + 1000) "0a" "/vm/1.json"; written (t0 + day_ms) "0c" "/vm/3.json"].
Proof. vm_compute. reflexivity. Qed.

Lemma two_writers_ok : Forall op_ok two_writers.
Proof. repeat constructor; try (vm_compute; congruence); apply (bool_decide_unpack _); vm_compute; exact I. Qed.

Lemma cursor_good t : 0 ≤ t ≤ max_date → good_cursor (Some (journalCursorAt t)).
Proof.
  intros Ht. exists (formatJournalDay t), (formatJournalTime t). split; [by apply formatDate_day|]. split; [|done].
  pose proof (formatTime_length t Ht) as Hl. pose proof (formatTime_name t Ht) as Hs. unfold formatJournalTime.
  destruct (formatTime t) as [|a [|b [|c s]]]; [done..|]. split; [done|]. split; [done|]. done.
Qed.

Lemma readBackupJournal_exact_witness :
  match readBackupJournal reverse (journal (foldl (reader_step reverse) (mkReader None None []) two_writers)) None true with
  | Ok es => StronglySorted (λ a b, lt_str (_filename a) (_filename b) = true) es ∧
      ∀ e, e ∈ es ↔ in_journal (journal (foldl (reader_step reverse) (mkReader None None []) two_writers)) e ∧ after None (_filename e)
  | Throw e => e = ENOENT ∧ journal (foldl (reader_step reverse) (mkReader None None []) two_writers) = None ∧ true = true
  end.
Proof.
  apply (readBackupJournal_exact reverse); [apply reverse_Permutation| |done].
  apply rd_wf, (reading_ops reverse reverse_Permutation two_writers _ two_writers_ok).
  split; [by intros ???|done|constructor|by intros x ?%not_elem_of_nil].
Defined.

Lemma entries_returned_once_witness :
  written (t0 + day_ms) "0c" "/vm/3.json" ∈ returned (foldl (reader_step reverse) (mkReader None (Some (journalCursorAt t0)) []) two_writers).
Proof.
  apply (entries_returned_once reverse reverse_Permutation two_writers None (Some (journalCursorAt t0)) two_writers_ok ltac:(by intros ???)
    ltac:(apply cursor_good; vm_compute; split; discriminate))
    with (pre := take 3 two_writers) (post := [Read; Read]); [reflexivity|by left|vm_compute; reflexivity|vm_compute; reflexivity].
Defined.

Lemma journalCursorAt_correct_witness :
  after (Some (journalCursorAt t0)) (getEntryPath t0 (js "0a") (added "/vm/1.json")) ↔ t0 ≤ t0.
Proof. apply journalCursorAt_correct; vm_compute; split; discriminate. Defined.

(** An entry that a writer late on the others, or slow, writes behind the cursor is never
    returned. *)
Example late_entry_missed :
  returned (foldl (reader_step reverse) (mkReader None (Some (journalCursorAt t0)) [])
    [Add (t0 + 2000) (js "0a") Written (added "/vm/1.json"); Read;
     Add (t0 + 1000) (js "0b") Written (added "/vm/2.json"); Read; Read])
    = [written (t0 + 2000) "0a" "/vm/1.json"].
Proof. vm_compute. reflexivity. Qed.
