(* ===== verification/JournalEvents.v ===== *)
(** * The events of a repository, resolved

    [readBackupJournalEvents] of @xen-orchestra/backups/RemoteAdapter.mjs: what became of
    each backup since the last read, with its current metadata; formatVmBackups.mjs, which
    gives it the shape it has for the users; and xo-server's _vmBackupsSource.mjs, which
    reads a repository directly or through a proxy. *)

From stdpp Require Import gmap list sorting.
From S2P Require Import Prelude JsValues Paths Journal.

Local Open Scope Z.

(** ** Metadata and backups *)

Record Vdi := mkVdi { name_label : jstring; uuid : jstring }.
Record Vm := mkVm { vm_uuid : jstring; vm_name_description : jstring; vm_name_label : jstring; vm_tags : list jstring }.

(** The fields of the metadata that are used; [vmSnapshot]: its [suspend_VDI]. *)
Record Metadata := mkMetadata {
  isVhdDifferencing : option (list (jstring * bool));
  vmSnapshot : option (option jstring);
  vhds : option (list (jstring * jstring));
  vdis : gmap jstring Vdi;
  isImmutable : option bool;
  jobId : jstring;
  mode : jstring;
  scheduleId : jstring;
  size : option Z;
  timestamp : Z;
  vm : Vm;
  tags : option (list jstring);
}.

Record Disk := mkDisk { disk_id : jstring; disk_name : jstring; disk_uuid : jstring }.
Record Backup := mkBackup {
  backupRepository : jstring;
  disks : list Disk;
  id : jstring;
  b_isImmutable : option bool;
  b_jobId : jstring;
  b_mode : jstring;
  b_scheduleId : jstring;
  b_size : option Z;
  b_timestamp : Z;
  b_vm : Vm;
  b_tags : list jstring;
  differencingVhds : option Z;
  dynamicVhds : option Z;
  withMemory : bool;
}.

#[export] Instance Vm_eq_dec : EqDecision Vm.
Proof. solve_decision. Defined.
#[export] Instance Disk_eq_dec : EqDecision Disk.
Proof. solve_decision. Defined.
#[export] Instance Backup_eq_dec : EqDecision Backup.
Proof. solve_decision. Defined.

(** A snapshot without [suspend_VDI] counts as one with memory. *)
Definition with_memory (m : Metadata) : bool :=
  match vmSnapshot m with
  | None => false
  | Some suspend_VDI => bool_decide (suspend_VDI ≠ Some (js "OpaqueRef:NULL"))
  end.

Fixpoint format_disks (dir : jstring) (vdis : gmap jstring Vdi) (vhds : list (jstring * jstring)) : result (list Disk) :=
  match vhds with
  | [] => mret []
  | (vdiId, path) :: vhds =>
      match vdis !! vdiId with
      | None => Throw (TypeError "Cannot read properties of undefined")
      | Some vdi =>
          disks ← format_disks dir vdis vhds;
          mret (mkDisk (dir ++ [sep] ++ path) (name_label vdi) (uuid vdi) :: disks)
      end
  end.

Definition count {A} (f : A → bool) (l : list A) : Z := Z.of_nat (length (List.filter f l)).

(** [formatVmBackup({ ...m, _filename, backupRepositoryId, id })] *)
Definition formatVmBackup (m : Metadata) (_filename backupRepositoryId id : jstring) : result Backup :=
  let memory := with_memory m in
  disks ← match vhds m with None => mret [] | Some vhds => format_disks (dirname _filename) (vdis m) vhds end;
  mret (mkBackup backupRepositoryId disks id (isImmutable m) (jobId m) (mode m) (scheduleId m) (size m) (timestamp m) (vm m)
    (default [] (tags m))
    ((λ vhds, count (λ v, v.2) vhds) <$> isVhdDifferencing m)
    ((λ vhds, count (λ v, negb v.2) vhds - if memory then 1 else 0) <$> isVhdDifferencing m)
    memory).

Definition formatVmBackupAt (m : Metadata) (filename backupRepositoryId : jstring) : result Backup :=
  let normalized := normalize filename in
  formatVmBackup m normalized backupRepositoryId normalized.

(** ** Events *)

Inductive ResolvedEvent :=
  | ResolvedDel (vmUuid filename : jstring)
  | ResolvedUpsert (event vmUuid filename : jstring) (metadata : Metadata).

Inductive JournalEvent :=
  | Deleted (vmUuid filename : jstring)
  | Upserted (event vmUuid filename : jstring) (backup : Backup).

Definition formatJournalEvent (backupRepositoryId : jstring) (resolved : ResolvedEvent) : result JournalEvent :=
  match resolved with
  | ResolvedDel vmUuid filename => mret (Deleted vmUuid filename)
  | ResolvedUpsert event vmUuid filename metadata =>
      backup ← formatVmBackupAt metadata filename backupRepositoryId;
      mret (Upserted event vmUuid filename backup)
  end.

Fixpoint map_result {A B} (f : A → result B) (l : list A) : result (list B) :=
  match l with
  | [] => mret []
  | x :: l => y ← f x; ys ← map_result f l; mret (y :: ys)
  end.

Definition formatJournalEvents (events : list ResolvedEvent) (backupRepositoryId : jstring) : result (list JournalEvent) :=
  map_result (formatJournalEvent backupRepositoryId) events.

(** What [readVmBackupMetadata] gives. *)
Inductive MetadataRead :=
  | Found (metadata : Metadata)
  | Missing
  | Unreadable.

Record LastEvent := mkLastEvent { last_event : jstring; index : nat; last_vmUuid : jstring }.

Definition set_last_event (i : nat) (e : Entry) (events : gmap jstring LastEvent) : gmap jstring LastEvent :=
  if isKnownJournalEvent (event (content e)) then
    <[normalize (filename (content e)) := mkLastEvent (event (content e)) i (vmUuid (content e))]> events
  else events.

Definition lastEventByFilename (entries : list Entry) : gmap jstring LastEvent :=
  foldl (λ events '(i, e), set_last_event i e events) ∅ (imap pair entries).

(** One backup: its event, unless its metadata cannot be read. *)
Definition resolve_event (read : jstring → MetadataRead) (filename : jstring) (e : LastEvent) : option ResolvedEvent :=
  if bool_decide (last_event e = js "del") then Some (ResolvedDel (last_vmUuid e) filename)
  else
    match read filename with
    | Found metadata => Some (ResolvedUpsert (last_event e) (last_vmUuid e) filename metadata)
    | Missing => Some (ResolvedDel (last_vmUuid e) filename)
    | Unreadable => None
    end.

Definition is_failed (read : jstring → MetadataRead) (filename : jstring) (e : LastEvent) : bool :=
  match resolve_event read filename e with Some _ => false | None => true end.

Definition min_failed_index (read : jstring → MetadataRead) (events : gmap jstring LastEvent) (n : nat) : nat :=
  foldr (λ '(filename, e) min, if is_failed read filename e && (index e <? min)%nat then index e else min) n (map_to_list events).

(** The order of the events, that in which the metadata are read, does not matter. *)
Definition readBackupJournalEvents (read : jstring → MetadataRead) (entries : list Entry) (cursor : option jstring)
    : list ResolvedEvent * option jstring :=
  let events := lastEventByFilename entries in
  let minFailedIndex := min_failed_index read events (length entries) in
  (omap (λ '(filename, e), resolve_event read filename e) (map_to_list events),
   match minFailedIndex with
   | O => cursor
   | S i => match entries !! i with Some e => Some (_filename e) | None => cursor end
   end).

(** ** No event is lost *)

Definition about (f : jstring) (e : Entry) : bool :=
  isKnownJournalEvent (event (content e)) && bool_decide (normalize (filename (content e)) = f).

(** The last known event of a backup, and its position. *)
Definition last_about (f : jstring) (entries : list Entry) : option (nat * Entry) :=
  last (List.filter (λ ie, about f ie.2) (imap pair entries)).

Lemma lastEvent_lookup entries f : lastEventByFilename entries !! f =
  (λ ie, mkLastEvent (event (content ie.2)) ie.1 (vmUuid (content ie.2))) <$> last_about f entries.
Proof.
  unfold lastEventByFilename, last_about. induction entries as [|e entries IH] using rev_ind; [done|].
  rewrite imap_app, foldl_app, List.filter_app. cbn. rewrite Nat.add_0_r. unfold set_last_event at 1. unfold about at 2.
  destruct (isKnownJournalEvent _); cbn; [|by rewrite app_nil_r].
  case_bool_decide as E.
  - rewrite last_snoc. rewrite E, lookup_insert_eq. done.
  - by rewrite app_nil_r, lookup_insert_ne.
Qed.

Lemma last_about_spec f entries i e : last_about f entries = Some (i, e) →
  entries !! i = Some e ∧ about f e = true.
Proof.
  unfold last_about. intros H%last_Some_elem_of. apply list_elem_of_In, filter_In in H as [H Hf]. split; [|done].
  apply list_elem_of_In, elem_of_lookup_imap in H as (k & x & [= <- <-] & Hk). done.
Qed.

Lemma last_about_exists f entries e : e ∈ entries → about f e = true → ∃ i x, last_about f entries = Some (i, x).
Proof.
  intros [k Hk]%list_elem_of_lookup Hf. unfold last_about. destruct (last _) as [[i x]|] eqn:E; [by eauto|].
  apply last_None in E. assert ((k, e) ∈ List.filter (λ ie, about f ie.2) (imap pair entries)) as Hin.
  { apply list_elem_of_In, filter_In. split; [|done]. apply list_elem_of_In, elem_of_lookup_imap. eauto. }
  rewrite E in Hin. by apply not_elem_of_nil in Hin.
Qed.

Lemma min_failed_le read events n f e : events !! f = Some e → is_failed read f e = true → (min_failed_index read events n ≤ index e)%nat.
Proof.
  rewrite <- elem_of_map_to_list. unfold min_failed_index. generalize (map_to_list events) as l. intros l Hin Hf.
  induction l as [|[g e'] l IH]; [by apply not_elem_of_nil in Hin|]. cbn [foldr]. apply elem_of_cons in Hin as [[= <- <-]|Hin].
  - rewrite Hf. cbn [andb]. case_match eqn:E; [done|]. by apply Nat.ltb_ge in E.
  - specialize (IH Hin). destruct (is_failed read g e' && _) eqn:E; [|done]. apply andb_true_iff in E as [_ E%Nat.ltb_lt]. lia.
Qed.

Lemma min_failed_bound read events n : (min_failed_index read events n ≤ n)%nat.
Proof.
  unfold min_failed_index. induction (map_to_list events) as [|[g e] l IH]; cbn [foldr]; [done|].
  destruct (is_failed read g e && _) eqn:E; [|done]. apply andb_true_iff in E as [_ E%Nat.ltb_lt]. lia.
Qed.

(** The events say what the backups have become, at most once each. *)
Lemma resolved_events read entries cursor x : x ∈ (readBackupJournalEvents read entries cursor).1 ↔
  ∃ f i e, last_about f entries = Some (i, e) ∧
    resolve_event read f (mkLastEvent (event (content e)) i (vmUuid (content e))) = Some x.
Proof.
  cbn. rewrite list_elem_of_omap. split.
  - intros ([f l] & Hl & Hx). apply elem_of_map_to_list in Hl. rewrite lastEvent_lookup in Hl.
    destruct (last_about f entries) as [[i e]|] eqn:E; [|done]. injection Hl as <-. by exists f, i, e.
  - intros (f & i & e & Hl & Hx). exists (f, mkLastEvent (event (content e)) i (vmUuid (content e))). split; [|done].
    apply elem_of_map_to_list. by rewrite lastEvent_lookup, Hl.
Qed.

Definition event_file (x : ResolvedEvent) : jstring :=
  match x with ResolvedDel _ f | ResolvedUpsert _ _ f _ => f end.

Lemma resolve_event_file read f l x : resolve_event read f l = Some x → event_file x = f.
Proof. unfold resolve_event. case_bool_decide; [by intros [= <-]|]. destruct (read f); by intros [= <-]. Qed.

Lemma resolved_once read entries cursor : NoDup (map event_file (readBackupJournalEvents read entries cursor).1).
Proof.
  cbn. pose proof (NoDup_fst_map_to_list (lastEventByFilename entries)) as Hd. revert Hd.
  generalize (map_to_list (lastEventByFilename entries)) as l. induction l as [|[f l] ls IH]; intros Hd; [constructor|].
  cbn in Hd. apply NoDup_cons in Hd as [Hn Hd]. cbn [omap list_omap]. destruct (resolve_event read f l) as [x|] eqn:E; [|by apply IH].
  rewrite map_cons. constructor; [|by apply IH]. apply resolve_event_file in E as ->. intros (y & Hy & Hin)%list_elem_of_fmap.
  apply list_elem_of_omap in Hin as ([g l'] & Hg & Hy'). apply resolve_event_file in Hy'. apply Hn, list_elem_of_fmap.
  exists (g, l'). split; [cbn; congruence|done].
Qed.

Section next_read.
Context `{DateFormatsLaws}.

Lemma sorted_lookup es (i j : nat) x y : sorted_entries es → es !! i = Some x → es !! j = Some y → (i < j)%nat →
  lt_str (_filename x) (_filename y) = true.
Proof.
  intros Hs. revert i j. induction Hs as [|e es Hs IH Ha]; intros i j Hi Hj Hlt; [done|]. destruct j as [|j]; [lia|].
  destruct i as [|i]; cbn in *; [|apply (IH i j); [done..|lia]]. injection Hi as <-. rewrite Forall_lookup in Ha. by apply (Ha j).
Qed.

(** The next cursor is before each entry whose backup could not be read, or is the
    previous one; none comes before the previous one. *)
Lemma next_cursor read entries cursor i e : sorted_entries entries → (∀ x, x ∈ entries → after cursor (_filename x)) →
  last_about i entries = Some e → is_failed read i (mkLastEvent (event (content e.2)) e.1 (vmUuid (content e.2))) = true →
  after (readBackupJournalEvents read entries cursor).2 (_filename e.2).
Proof.
  intros Hs Ha Hl Hf. destruct e as [k e]. cbn in *. destruct (last_about_spec _ _ _ _ Hl) as [Hk _].
  assert (min_failed_index read (lastEventByFilename entries) (length entries) ≤ k)%nat as Hmin.
  { apply (min_failed_le read _ _ i (mkLastEvent (event (content e)) k (vmUuid (content e)))); [|done]. by rewrite lastEvent_lookup, Hl. }
  destruct (min_failed_index _ _ _) as [|m]; [by apply Ha, list_elem_of_lookup; eauto|].
  destruct (entries !! m) as [x|] eqn:E; [|by apply Ha, list_elem_of_lookup; eauto]. cbn.
  by apply (sorted_lookup entries m k).
Qed.
Lemma next_cursor_good read j entries cursor : good_cursor cursor → wf_journal j →
  (∀ x, x ∈ entries → in_journal j x) → good_cursor (readBackupJournalEvents read entries cursor).2.
Proof.
  intros Hc Hw Hj. cbn. destruct (min_failed_index _ _ _) as [|m]; [done|]. destruct (entries !! m) as [x|] eqn:E; [|done].
  destruct (Hj x) as (d & n & Hd & Hr); [by apply list_elem_of_lookup; eauto|].
  destruct (read_entry_filename _ _ _ _ Hr) as [Hx [f Hf]]. exists d, n. split; [done|]. split; [by eapply Hw|done].
Qed.

Lemma next_cursor_advances read entries cursor path : (∀ x, x ∈ entries → after cursor (_filename x)) →
  after (readBackupJournalEvents read entries cursor).2 path → after cursor path.
Proof.
  intros Ha. cbn. destruct (min_failed_index _ _ _) as [|m]; [done|]. destruct (entries !! m) as [x|] eqn:E; [|done].
  assert (after cursor (_filename x)) as Hx by (apply Ha, list_elem_of_lookup; eauto). destruct cursor as [c|]; [|done].
  cbn in *. intros Hp. by eapply lt_str_trans.
Qed.

(** What the events say of a backup whose last entry is [e]. *)
Definition says (read : jstring → MetadataRead) (f : jstring) (e : Entry) (x : ResolvedEvent) : Prop :=
  match x with
  | ResolvedDel v g => g = f ∧ v = vmUuid (content e) ∧ (event (content e) = js "del" ∨ read f = Missing)
  | ResolvedUpsert a v g m => g = f ∧ v = vmUuid (content e) ∧ a = event (content e) ∧ a ≠ js "del" ∧ read f = Found m
  end.

(** C9: For each backup with an entry in a read of the journal, either the events say what
    it has become, or its metadata cannot be read and the next read, from the new cursor,
    gives its last entry again; no read goes backwards. *)
Theorem no_event_lost arrival j j' read cursor mustExist es f x :
  (∀ l, arrival l ≡ₚ l) → wf_journal j → wf_journal j' → (∀ y, in_journal j y → in_journal j' y) → good_cursor cursor →
  readBackupJournal arrival j cursor mustExist = Ok es → x ∈ es → about f x = true →
  let '(events, cursor') := readBackupJournalEvents read es cursor in
  ∃ i e, last_about f es = Some (i, e) ∧
    ((∃ y, y ∈ events ∧ says read f e y) ∨
     (read f = Unreadable ∧ ∃ es', readBackupJournal arrival j' cursor' false = Ok es' ∧ e ∈ es')) ∧
    ∀ path, after cursor' path → after cursor path.
Proof.
  intros Harr Hw Hw' Hext Hc Hread Hx Hf. destruct (last_about_exists f es x Hx Hf) as (i & e & Hl).
  destruct (readBackupJournalEvents read es cursor) as [events cursor'] eqn:E. exists i, e. split; [done|].
  assert (∃ es0, readBackupJournal arrival j cursor mustExist = Ok es0 ∧ sorted_entries es0 ∧
    ∀ e, e ∈ es0 ↔ in_journal j e ∧ after cursor (_filename e)) as (es0 & Hes0 & Hs & Hin).
  { apply read_ok; [done..|]. destruct j; [by left|]. destruct mustExist; [done|by right]. }
  assert (es0 = es) as -> by congruence.
  assert (∀ y, y ∈ es → after cursor (_filename y)) as Ha by (intros y Hy; by apply Hin).
  assert (cursor' = (readBackupJournalEvents read es cursor).2) as -> by by rewrite E.
  split; [|intros path; by apply next_cursor_advances].
  destruct (last_about_spec _ _ _ _ Hl) as [Hk He].
  destruct (resolve_event read f (mkLastEvent (event (content e)) i (vmUuid (content e)))) as [y|] eqn:Er.
  - left. exists y. split.
    + assert (events = (readBackupJournalEvents read es cursor).1) as -> by by rewrite E. apply resolved_events. by exists f, i, e.
    + revert Er. unfold resolve_event. cbn. case_bool_decide; [intros [= <-]; cbn; by auto|].
      destruct (read f) eqn:Ef; intros [= <-]; cbn; by auto 10.
  - right. split.
    + revert Er. unfold resolve_event. case_bool_decide; [done|]. by destruct (read f).
    + destruct (read_ok arrival j' (readBackupJournalEvents read es cursor).2 false) as (es' & -> & _ & Hes').
      * done.
      * done.
      * apply (next_cursor_good read j); [done|done|]. intros y Hy. by apply Hin.
      * by right.
      * exists es'. split; [done|]. apply Hes'. split; [apply Hext, Hin, list_elem_of_lookup; by eauto|].
        apply (next_cursor read es cursor f (i, e)); [done|done|done|]. unfold is_failed. cbn [fst snd]. by rewrite Er.
Qed.
End next_read.

(** ** The source of a repository *)

Record Repository := mkRepository { repo_id : jstring; url : jstring; options : option jstring; proxy : option jstring }.
#[export] Instance Repository_eq_dec : EqDecision Repository.
Proof. solve_decision. Defined.

Definition event_key (e : JournalEvent) : jstring :=
  match e with Deleted _ f | Upserted _ _ f _ => f end.

(** The event is about a backup that is known by the name of its metadata. *)
Definition keyed (e : JournalEvent) : Prop :=
  match e with Deleted _ _ => True | Upserted _ _ f b => id b = f end.

(** What a proxy answers: a more recent one can have other events. *)
Inductive ProxyEvent :=
  | KnownEvent (e : JournalEvent)
  | OtherEvent (event filename : jstring).

Inductive ProxyError := MethodNotFound | InvalidParameters | OtherCallError (e : error).
Definition call_error (e : ProxyError) : error :=
  match e with
  | MethodNotFound => OtherError "method not found"
  | InvalidParameters => OtherError "invalid parameters"
  | OtherCallError e => e
  end.

Notation Backups := (gmap jstring Backup).
Notation BackupsByVm := (gmap jstring Backups).

(** [keyBy(backups, 'id')] *)
Definition keyBackups (backups : list Backup) : Backups := foldl (λ m b, <[id b := b]> m) ∅ backups.

(** The metadata come with the path they were read from. *)
Definition formatBackups (metadata : list (jstring * Metadata)) (repositoryId : jstring) : result Backups :=
  backups ← map_result (λ m, formatVmBackupAt m.2 m.1 repositoryId) metadata;
  mret (keyBackups backups).

Definition known_events (events : list ProxyEvent) : list JournalEvent :=
  omap (λ e, match e with KnownEvent e => Some e | OtherEvent _ _ => None end) events.

Section source.
(** The adapter of a remote of this process, and the calls to the proxies. *)
Context (readBackupJournalEvents_of : Repository → option jstring → bool → result (list ResolvedEvent * option jstring)).
Context (listAllVmBackups : Repository → result (list (jstring * list (jstring * Metadata)))).
Context (listVmBackups : Repository → jstring → result (list (jstring * Metadata))).
Context (listVmBackupsJournal : jstring → Repository → option jstring → bool → (list ProxyEvent * option jstring) + ProxyError).
Context (listVmBackups_on : jstring → Repository → option jstring → option (gmap jstring (list Backup)) + ProxyError).

(** The proxies that were warned about. *)
Definition readJournal (r : Repository) (cursor : option jstring) (mustExist : bool)
    : M (gset jstring) (option (list JournalEvent * option jstring)) := λ proxiesWithoutJournal,
  match proxy r with
  | Some p =>
      match listVmBackupsJournal p r cursor mustExist with
      | inl (events, cursor) => (Ok (Some (known_events events, cursor)), proxiesWithoutJournal)
      | inr MethodNotFound => (Ok None, {[p]} ∪ proxiesWithoutJournal)
      | inr e => (Throw (call_error e), proxiesWithoutJournal)
      end
  | None =>
      ('(events, nextCursor) ← readBackupJournalEvents_of r cursor mustExist;
       events ← formatJournalEvents events (repo_id r);
       Ok (Some (events, nextCursor)), proxiesWithoutJournal)
  end.

Definition listVmBackupsOnProxy (p : jstring) (r : Repository) (vm : option jstring) : (gmap jstring (list Backup)) + ProxyError :=
  match listVmBackups_on p r vm with
  | inl (Some backups) => inl backups
  | inl None => inr (OtherCallError (OtherError "the proxy failed to list the backup repository"))
  | inr e => inr e
  end.

(** A proxy that does not know how to list one VM lists them all. *)
Definition listOneVmOnProxy (p : jstring) (r : Repository) (vm : jstring) : result Backups :=
  let answer :=
    match listVmBackupsOnProxy p r (Some vm) with
    | inr InvalidParameters => listVmBackupsOnProxy p r None
    | answer => answer
    end in
  match answer with
  | inl backups => Ok (keyBackups (default [] (backups !! vm)))
  | inr e => Throw (call_error e)
  end.

Fixpoint format_all (backups : list (jstring * list (jstring * Metadata))) (repositoryId : jstring) : result BackupsByVm :=
  match backups with
  | [] => mret ∅
  | (vm, metadata) :: backups =>
      one ← formatBackups metadata repositoryId;
      all ← format_all backups repositoryId;
      mret (<[vm := one]> all)
  end.

Definition listAll (r : Repository) : result BackupsByVm :=
  match proxy r with
  | Some p => match listVmBackupsOnProxy p r None with inl backups => Ok (keyBackups <$> backups) | inr e => Throw (call_error e) end
  | None => backups ← listAllVmBackups r; format_all backups (repo_id r)
  end.

Definition listOneVm (r : Repository) (vm : jstring) : result Backups :=
  match proxy r with
  | Some p => listOneVmOnProxy p r vm
  | None => metadata ← listVmBackups r vm; formatBackups metadata (repo_id r)
  end.
End source.

(** *** What the source gives to the cache *)

Lemma keyBackups_spec backups f b : keyBackups backups !! f = Some b → id b = f ∧ b ∈ backups.
Proof.
  unfold keyBackups. induction backups as [|x backups IH] using rev_ind; [done|]. rewrite foldl_app. cbn.
  rewrite lookup_insert_Some, elem_of_app, list_elem_of_singleton. intros [[<- <-]|[_ [? ?]%IH]]; auto.
Qed.

Lemma format_id m f r b : formatVmBackupAt m f r = Ok b → id b = normalize f.
Proof.
  unfold formatVmBackupAt, formatVmBackup. destruct (match vhds m with None => _ | Some _ => _ end) as [d|]; [|done].
  cbn. by intros [= <-].
Qed.

Lemma map_result_ok {A B} (f : A → result B) l l' : map_result f l = Ok l' → Forall2 (λ x y, f x = Ok y) l l'.
Proof.
  revert l'. induction l as [|x l IH]; cbn; intros l'; [intros [= <-]; constructor|].
  destruct (f x) as [y|] eqn:E; [|done]. cbn. destruct (map_result f l) as [ys|]; [|done]. cbn. intros [= <-]. constructor; auto.
Qed.

Lemma resolved_normal read entries cursor x : x ∈ (readBackupJournalEvents read entries cursor).1 →
  normalize (event_file x) = event_file x.
Proof.
  intros (f & i & e & Hl & Hx)%resolved_events. apply resolve_event_file in Hx as ->. apply last_about_spec in Hl as [_ Ha].
  apply andb_true_iff in Ha as [_ <-%bool_decide_eq_true]. apply normalize_idemp.
Qed.

(** The events of a read of this process are about backups known by the names of their
    metadata, at most one for each. *)
Theorem formatted_events_keyed read entries cursor r events :
  formatJournalEvents (readBackupJournalEvents read entries cursor).1 r = Ok events →
  NoDup (map event_key events) ∧ Forall keyed events.
Proof.
  intros Hf%map_result_ok. pose proof (resolved_once read entries cursor) as Hd.
  pose proof (λ x, resolved_normal read entries cursor x) as Hn. revert Hf Hd Hn.
  generalize (readBackupJournalEvents read entries cursor).1 as xs. intros xs Hf Hd Hn.
  assert (map event_key events = map event_file xs ∧ Forall keyed events) as [-> Hk]; [|done].
  induction Hf as [|x y xs ys Hxy Hf IH]; [done|]. rewrite !map_cons in *. apply NoDup_cons in Hd as [_ Hd].
  destruct IH as [-> Hk]; [done|intros; apply Hn; by right|].
  assert (event_key y = event_file x ∧ keyed y) as [-> Hy]; [|split; [done|by constructor]].
  specialize (Hn x ltac:(by left)). destruct x as [v f|a v f m]; cbn in *; [by injection Hxy as <-|].
  destruct (formatVmBackupAt m f r) as [b|] eqn:Eb; [|done]. cbn in Hxy. injection Hxy as <-. cbn.
  apply format_id in Eb. split; [done|congruence].
Qed.

(** ** A metadata that cannot be read *)

#[local] Existing Instances Journal.day_formats Journal.day_formats_laws.

Definition log : Journal := journal (foldl (reader_step reverse) (mkReader None None []) two_writers).
Definition log_entries : list Entry := [written (t0 + 1000) "0a" "/vm/1.json"; written (t0 + day_ms) "0c" "/vm/3.json"].
Definition first_unreadable (f : jstring) : MetadataRead := if bool_decide (f = js "/vm/1.json") then Unreadable else Missing.

(** The event of the other backup is given, and the cursor does not move. *)
Example unreadable_kept :
  readBackupJournalEvents first_unreadable log_entries (Some (journalCursorAt t0)) =
    ([ResolvedDel (js "vm") (js "/vm/3.json")], Some (journalCursorAt t0)).
Proof. vm_compute. reflexivity. Qed.

Lemma log_wf : wf_journal log.
Proof.
  apply rd_wf, (reading_ops reverse reverse_Permutation two_writers _ two_writers_ok).
  split; [by intros ???|done|constructor|by intros x ?%not_elem_of_nil].
Qed.

Lemma no_event_lost_witness :
  let '(events, cursor') := readBackupJournalEvents first_unreadable log_entries (Some (journalCursorAt t0)) in
  ∃ i e, last_about (js "/vm/1.json") log_entries = Some (i, e) ∧
    ((∃ y, y ∈ events ∧ says first_unreadable (js "/vm/1.json") e y) ∨
     (first_unreadable (js "/vm/1.json") = Unreadable ∧ ∃ es', readBackupJournal reverse log cursor' false = Ok es' ∧ e ∈ es')) ∧
    ∀ path, after cursor' path → after (Some (journalCursorAt t0)) path.
Proof.
  apply (no_event_lost reverse log log first_unreadable (Some (journalCursorAt t0)) false log_entries (js "/vm/1.json")
    (written (t0 + 1000) "0a" "/vm/1.json") reverse_Permutation log_wf log_wf (λ y H, H)).
  - apply cursor_good. vm_compute. split; discriminate.
  - vm_compute. reflexivity.
  - by left.
  - vm_compute. reflexivity.
Defined.
