(* ===== verification/BackupsCache.v ===== *)
(** * The backups of a repository, in memory

    xo-server's backups-ng/_vmBackupsCache.mjs: the listing of a repository is kept and
    brought up to date from its journal, and its changes are announced to listeners.

    The cache as a transition system.  Every operation of the class uses its maps at the
    key of one repository: the state is what they hold there.  The listings are objects
    that are shared and mutated ([objects], by reference), and so are the entries; the
    calls of [get] are processes that interleave at each [await].  What the source answers
    ([JournalEvents.v]), the time and the changes of the repository come with the steps.
    [history], [since] and [lastRefresh] are not in the code: the contents that the
    repository had, the version from which each object is up to date, and the version at
    the last [refresh()]. *)

From stdpp Require Import gmap list sorting.
From S2P Require Import Prelude JsValues Paths Journal JournalEvents.

Local Open Scope Z.

(** ** Changes *)

Inductive ChangeKind := CAdd | CUpdate | CRemove.
Record Change := mkChange { kind : ChangeKind; backup : Backup }.

#[export] Instance ChangeKind_eq_dec : EqDecision ChangeKind.
Proof. solve_decision. Defined.
#[export] Instance Change_eq_dec : EqDecision Change.
Proof. solve_decision. Defined.

(** A backup of a VM. *)
Definition lookup_backup (m : BackupsByVm) (vm f : jstring) : option Backup :=
  match m !! vm with Some backups => backups !! f | None => None end.

Definition removeBackup (m : BackupsByVm) (vm f : jstring) : BackupsByVm :=
  match m !! vm with
  | None => m
  | Some backups => let backups := delete f backups in if decide (backups = ∅) then delete vm m else <[vm := backups]> m
  end.

Definition applyEvent (m : BackupsByVm) (e : JournalEvent) : BackupsByVm * option Change :=
  match e with
  | Deleted vm f => (removeBackup m vm f, mkChange CRemove <$> lookup_backup m vm f)
  | Upserted _ vm f b =>
      (<[vm := <[f := b]> (default ∅ (m !! vm))]> m,
       match lookup_backup m vm f with
       | None => Some (mkChange CAdd b)
       | Some previous => if decide (previous = b) then None else Some (mkChange CUpdate b)
       end)
  end.

(** The events in their order, with what they change. *)
Fixpoint applyEvents (m : BackupsByVm) (events : list JournalEvent) : BackupsByVm * list Change :=
  match events with
  | [] => (m, [])
  | e :: events =>
      let '(m, c) := applyEvent m e in
      let '(m, changes) := applyEvents m events in
      (m, option_list c ++ changes)
  end.

(** All the backups, with their VM; the order of the keys does not matter. *)
Definition all_backups (m : BackupsByVm) : list (jstring * jstring * Backup) :=
  '(vm, backups) ← map_to_list m; '(f, b) ← map_to_list backups; [(vm, f, b)].

Definition announced_add (announced : BackupsByVm) (x : jstring * jstring * Backup) : option Change :=
  let '(vm, f, b) := x in
  match lookup_backup announced vm f with
  | None => Some (mkChange CAdd b)
  | Some previous => if decide (previous = b) then None else Some (mkChange CUpdate b)
  end.

Definition announced_remove (current : BackupsByVm) (x : jstring * jstring * Backup) : option Change :=
  let '(vm, f, b) := x in
  match lookup_backup current vm f with
  | None => Some (mkChange CRemove b)
  | Some _ => None
  end.

(** [#announce]: what is told when [announced] becomes [m]. *)
Definition announce_changes (announced : option BackupsByVm) (m : BackupsByVm) : list Change :=
  omap (announced_add (default ∅ announced)) (all_backups m) ++
  match announced with
  | None => []
  | Some announced => omap (announced_remove m) (all_backups announced)
  end.

(** ** What is served *)

Definition with_id (b : Backup) (i : jstring) : Backup :=
  mkBackup (backupRepository b) (disks b) i (b_isImmutable b) (b_jobId b) (b_mode b) (b_scheduleId b) (b_size b)
    (b_timestamp b) (b_vm b) (b_tags b) (differencingVhds b) (dynamicVhds b) (withMemory b).

Definition archiveOf (repositoryId : jstring) (b : Backup) : Backup := with_id b (repositoryId ++ [sep] ++ id b).

Definition compareTimestamp (a b : Backup) : Prop := b_timestamp a ≤ b_timestamp b.
#[export] Instance compareTimestamp_dec a b : Decision (compareTimestamp a b).
Proof. unfold compareTimestamp. apply _. Defined.

Definition serve_one (m : BackupsByVm) (remoteId vm : jstring) : list Backup :=
  match m !! vm with
  | None => []
  | Some backups => merge_sort compareTimestamp (map (archiveOf remoteId) (map snd (map_to_list backups)))
  end.

Definition serveVmBackups (m : BackupsByVm) (remoteId : jstring) (vmId : option jstring) : list (jstring * list Backup) :=
  map (λ vm, (vm, serve_one m remoteId vm)) (match vmId with None => map fst (map_to_list m) | Some vm => [vm] end).

(** The archives of all the repositories that are announced. *)
Definition listArchives (announced : gmap jstring BackupsByVm) : list Backup :=
  '(repositoryId, m) ← map_to_list announced; '(_, _, b) ← all_backups m; [archiveOf repositoryId b].

Definition find_in (repositoryId i : jstring) (m : BackupsByVm) : option Backup :=
  archiveOf repositoryId <$> head (List.filter (λ b, bool_decide (repositoryId ++ [sep] ++ id b = i)) (map snd (all_backups m))).

Definition findArchive (announced : gmap jstring BackupsByVm) (i : jstring) : option Backup :=
  head (omap (λ '(repositoryId, m), find_in repositoryId i m) (map_to_list announced)).

(** ** The cache *)

(** [fullListingInterval], as it is in the URL. *)
Inductive Param := Absent | Integer (n : Z) | NotInteger.

Definition CLOCK_SKEW_TOLERANCE : Z := 5 * 60 * 1000.
Definition DEFAULT_REBUILD_INTERVAL : Z := 60 * 60 * 1000.
Definition MAX_REFRESH_READS : nat := 3.

Definition rebuildIntervalOf (fullListingInterval : Param) : Z :=
  match fullListingInterval with
  | Absent | NotInteger => DEFAULT_REBUILD_INTERVAL
  | Integer n => if n <=? 0 then DEFAULT_REBUILD_INTERVAL else n * 60000
  end.

Record CacheEntry := mkCacheEntry {
  backupsByVm : option nat;
  builtAt : Z;
  read_cursor : option jstring;
  journalConfirmed : bool;
  repository : Repository;
  rebuildInterval : Z;
  refreshedAt : Z;
  stale : bool;
}.

Definition isSameRepository (e : CacheEntry) (r : Repository) : bool :=
  bool_decide (url (repository e) = url r) && bool_decide (options (repository e) = options r) &&
  bool_decide (proxy (repository e) = proxy r).

(** Where a call of [#refresh] is, [start] and [base] being versions: in [listAll] for an
    entry, with the entry that [#read] found; in [readJournal] for an entry and the object
    it had; back from [#read]; done. *)
Inductive Where :=
  | Listing (e : nat) (found : option nat) (start : nat)
  | ReadingJournal (e : nat) (b : option nat) (at_ : Z) (start base : nat)
  | HasRead (b : option nat)
  | Served (b : option nat)
  | Rejected.

#[export] Instance Where_eq_dec : EqDecision Where.
Proof. solve_decision. Defined.

Record Process := mkProcess { of_repository : Repository; nReads : nat; where_ : Where }.

#[export] Instance Process_eq_dec : EqDecision Process.
Proof. solve_decision. Defined.

Record State := mkState {
  objects : list BackupsByVm;
  heap : list CacheEntry;
  entry : option nat;
  announced : option nat;
  pending : option nat;
  unreplayable : bool;
  processes : list Process;
  emitted : list Change;
  history : list Backups;
  since : list nat;
  lastRefresh : nat;
}.

Definition version (s : State) : nat := length (history s) - 1.

Definition set_heap (h : list CacheEntry) (s : State) : State :=
  mkState (objects s) h (entry s) (announced s) (pending s) (unreplayable s) (processes s) (emitted s) (history s) (since s) (lastRefresh s).
Definition set_entry (e : option nat) (s : State) : State :=
  mkState (objects s) (heap s) e (announced s) (pending s) (unreplayable s) (processes s) (emitted s) (history s) (since s) (lastRefresh s).
Definition set_pending (p : option nat) (s : State) : State :=
  mkState (objects s) (heap s) (entry s) (announced s) p (unreplayable s) (processes s) (emitted s) (history s) (since s) (lastRefresh s).
Definition set_unreplayable (u : bool) (s : State) : State :=
  mkState (objects s) (heap s) (entry s) (announced s) (pending s) u (processes s) (emitted s) (history s) (since s) (lastRefresh s).
Definition set_processes (p : list Process) (s : State) : State :=
  mkState (objects s) (heap s) (entry s) (announced s) (pending s) (unreplayable s) p (emitted s) (history s) (since s) (lastRefresh s).
Definition set_announced (a : option nat) (changes : list Change) (s : State) : State :=
  mkState (objects s) (heap s) (entry s) a (pending s) (unreplayable s) (processes s) (emitted s ++ changes) (history s) (since s) (lastRefresh s).
(** The object [b], up to date from a version on. *)
Definition set_object (b : nat) (m : BackupsByVm) (from : nat) (s : State) : State :=
  mkState (<[b := m]> (objects s)) (heap s) (entry s) (announced s) (pending s) (unreplayable s) (processes s) (emitted s) (history s)
    (alter (Nat.max from) b (since s)) (lastRefresh s).
Definition new_object (m : BackupsByVm) (from : nat) (s : State) : State :=
  mkState (objects s ++ [m]) (heap s) (entry s) (announced s) (pending s) (unreplayable s) (processes s) (emitted s) (history s)
    (since s ++ [from]) (lastRefresh s).

Definition at_ (p : nat) (w : Where) (s : State) : State :=
  set_processes (alter (λ x, mkProcess (of_repository x) (nReads x) w) p (processes s)) s.
Definition next_read (p : nat) (s : State) : State :=
  set_processes (alter (λ x, mkProcess (of_repository x) (S (nReads x)) (where_ x)) p (processes s)) s.

Definition with_stale (b : bool) (e : CacheEntry) : CacheEntry :=
  mkCacheEntry (backupsByVm e) (builtAt e) (read_cursor e) (journalConfirmed e) (repository e) (rebuildInterval e) (refreshedAt e) b.
Definition with_backups (b : nat) (e : CacheEntry) : CacheEntry :=
  mkCacheEntry (Some b) (builtAt e) (read_cursor e) (journalConfirmed e) (repository e) (rebuildInterval e) (refreshedAt e) (stale e).
Definition with_cursor (cursor : option jstring) (refreshed : Z) (e : CacheEntry) : CacheEntry :=
  let moved := bool_decide (cursor ≠ None) && bool_decide (cursor ≠ read_cursor e) in
  mkCacheEntry (backupsByVm e) (builtAt e) (if moved then cursor else read_cursor e) (moved || journalConfirmed e)
    (repository e) (rebuildInterval e) refreshed (stale e).

(** ** Operations *)

Section cache.
Context `{DateFormats} (fullListingInterval : Repository → Param) (minRefreshDelay : Z).

(** [delete] *)
Definition forget (s : State) : State := set_unreplayable false (set_pending None (set_entry None s)).

Definition object (s : State) (b : option nat) : option BackupsByVm := match b with Some b => objects s !! b | None => None end.

Definition current_entry (s : State) : option CacheEntry := match entry s with Some e => heap s !! e | None => None end.

(** [remove] *)
Definition remove (s : State) : State :=
  match object s (announced s) with
  | None => forget s
  | Some m => set_announced None (map (λ x, mkChange CRemove x.2) (all_backups m)) (forget s)
  end.

(** [refresh] *)
Definition refresh (s : State) : State :=
  match entry s with
  | None => s
  | Some e =>
      mkState (objects s) (alter (with_stale true) e (heap s)) (entry s) (announced s) (pending s) (unreplayable s) (processes s)
        (emitted s) (history s) (since s) (version s)
  end.

(** [#build], until it waits for the listing *)
Definition start_build (p : nat) (r : Repository) (now : Z) (found : option nat) (s : State) : State :=
  let e := length (heap s) in
  at_ p (Listing e found (version s))
    (set_entry (Some e)
      (set_heap (heap s ++ [mkCacheEntry None now (Some (journalCursorAt (now - CLOCK_SKEW_TOLERANCE))) false r
        (rebuildIntervalOf (fullListingInterval r)) now false]) s)).

Definition since_of (s : State) (b : option nat) : nat := match b with Some b => default O (since s !! b) | None => O end.

(** [#read], until it waits; [#replay] until it waits for the journal *)
Definition start_read (p : nat) (r : Repository) (now : Z) (s : State) : State :=
  match entry s with
  | None => start_build p r now None s
  | Some e =>
      match heap s !! e with
      | None => s
      | Some en =>
          if negb (isSameRepository en r) || (rebuildInterval en <=? now - builtAt en) then start_build p r now (Some e) s
          else if stale en || (minRefreshDelay <=? now - refreshedAt en) then
            at_ p (ReadingJournal e (backupsByVm en) now (version s) (since_of s (backupsByVm en)))
              (set_heap (alter (with_stale false) e (heap s)) s)
          else at_ p (HasRead (backupsByVm en)) s
      end
  end.

(** [get]: joins the read in progress, if there is one *)
Definition get (r : Repository) (now : Z) (s : State) : State :=
  match pending s with
  | Some _ => s
  | None =>
      let p := length (processes s) in
      start_read p r now (set_pending (Some p) (set_processes (processes s ++ [mkProcess r 1 (HasRead None)]) s))
  end.

(** [getOneVm] reads the VM by itself when the repository is not held, and calls [get]
    afterwards. *)
Definition getOneVm (r : Repository) (now : Z) (s : State) : State :=
  if bool_decide (entry s ≠ None) || bool_decide (pending s ≠ None) then get r now s else s.

Definition select_vm (m : BackupsByVm) (vm : jstring) : BackupsByVm :=
  match m !! vm with None => ∅ | Some backups => {[vm := backups]} end.

(** The [catch] of [#read] *)
Definition fail_read (p : nat) (found : option nat) (s : State) : State :=
  at_ p Rejected (if decide (entry s = found) then forget s else s).

(** [#build], once the repository is listed *)
Definition listed (p : nat) (answer : result BackupsByVm) (s : State) : State :=
  match where_ <$> processes s !! p with
  | Some (Listing e found start) =>
      match answer with
      | Ok m =>
          let b := length (objects s) in
          let previous := object s (announced s) in
          let s := set_heap (alter (with_backups b) e (heap s)) (new_object m start s) in
          let s := if decide (entry s = Some e) then set_announced (Some b) (announce_changes previous m) s else s in
          at_ p (HasRead (Some b)) s
      | Throw _ => fail_read p found (if decide (entry s = Some e) then set_entry None s else s)
      end
  | _ => s
  end.

(** [#replay], once the journal is read, and what [#read] does of it *)
Definition journal_read (p : nat) (answer : result (option (list JournalEvent * option jstring))) (now : Z) (s : State) : State :=
  match processes s !! p with
  | Some (mkProcess r _ (ReadingJournal e b refreshed start _)) =>
      match answer with
      | Throw _ => fail_read p (Some e) s
      | Ok None => start_build p r now (Some e) (if decide (entry s = Some e) then set_unreplayable true s else s)
      | Ok (Some (events, cursor)) =>
          let s := if decide (entry s = Some e) then set_unreplayable false s else s in
          let finish s := at_ p (HasRead (match heap s !! e with Some en => backupsByVm en | None => None end))
            (set_heap (alter (with_cursor cursor refreshed) e (heap s)) s) in
          match b, object s b, events with
          | Some b', Some m, _ =>
              let '(m, changes) := applyEvents m events in
              finish (set_announced (announced s) (if decide (announced s = b) then changes else []) (set_object b' m start s))
          | _, _, [] => finish s
          | _, _, _ => fail_read p (Some e) s
          end
      end
  | _ => s
  end.

(** [#refresh], once [#read] is back *)
Definition check_read (p : nat) (now : Z) (s : State) : State :=
  match processes s !! p with
  | Some (mkProcess r n (HasRead b)) =>
      match current_entry s with
      | None => at_ p (if decide (b = None) then Rejected else Served b) s
      | Some en =>
          if bool_decide (backupsByVm en ≠ b) || negb (stale en) || unreplayable s || (rebuildInterval en <=? now - builtAt en)
            || (MAX_REFRESH_READS <=? n)%nat
          then at_ p (Served b) s
          else start_read p r now (next_read p s)
      end
  | _ => s
  end.

(** The [finally] of [get] *)
Definition settle (p : nat) (s : State) : State :=
  match where_ <$> processes s !! p with
  | Some (Served _ | Rejected) => if decide (pending s = Some p) then set_pending None s else s
  | _ => s
  end.

(** [isReplayable] *)
Definition isReplayable (s : State) : bool := bool_decide (announced s ≠ None) && negb (unreplayable s).

(** ** Steps *)

Inductive Step :=
  | Mutate (c : Backups)
  | Get (r : Repository) (now : Z)
  | GetOneVm (r : Repository) (now : Z)
  | Listed (p : nat) (answer : result BackupsByVm)
  | JournalRead (p : nat) (answer : result (option (list JournalEvent * option jstring))) (now : Z)
  | CheckRead (p : nat) (now : Z)
  | Settle (p : nat)
  | Refresh
  | Delete
  | Remove.

Definition mutate (c : Backups) (s : State) : State :=
  mkState (objects s) (heap s) (entry s) (announced s) (pending s) (unreplayable s) (processes s) (emitted s) (history s ++ [c])
    (since s) (lastRefresh s).

Definition step (e : Step) (s : State) : State :=
  match e with
  | Mutate c => mutate c s
  | Get r now => get r now s
  | GetOneVm r now => getOneVm r now s
  | Listed p answer => listed p answer s
  | JournalRead p answer now => journal_read p answer now s
  | CheckRead p now => check_read p now s
  | Settle p => settle p s
  | Refresh => refresh s
  | Delete => forget s
  | Remove => remove s
  end.

Definition initial (c : Backups) : State := mkState [] [] None None None false [] [] [c] [] O.

(** *** What the source promises *)

Definition vm_of (f : jstring) : jstring := basename (dirname f).

(** A listing has each backup under its name and its VM, and only VMs with backups. *)
Record wf_listing (m : BackupsByVm) : Prop := {
  wl_keys vm f b : lookup_backup m vm f = Some b → id b = f ∧ vm = vm_of f;
  wl_vms vm : m !! vm ≠ Some ∅;
}.

(** The content of the repository at a version. *)
Definition was (s : State) (i : nat) (f : jstring) (v : option Backup) : Prop :=
  ∃ c, history s !! i = Some c ∧ c !! f = v.

(** Each backup is listed as it was at some time since the beginning of the listing. *)
Definition listing_ok (s : State) (start : nat) (m : BackupsByVm) : Prop :=
  wf_listing m ∧ ∀ f, ∃ i, (start ≤ i)%nat ∧ was s i f (lookup_backup m (vm_of f) f).

Definition event_ok (e : JournalEvent) : Prop :=
  keyed e ∧ match e with Deleted vm f | Upserted _ vm f _ => vm = vm_of f end.

Definition event_value (e : JournalEvent) : option Backup :=
  match e with Deleted _ _ => None | Upserted _ _ _ b => Some b end.

(** Each event tells what the backup was at some time since the beginning of the read; a
    backup without an event did not change from [base] until such a time. *)
Definition events_ok (s : State) (start base : nat) (events : list JournalEvent) : Prop :=
  NoDup (map event_key events) ∧ Forall event_ok events ∧
  (∀ e, e ∈ events → ∃ i, (start ≤ i)%nat ∧ was s i (event_key e) (event_value e)) ∧
  (∀ f, f ∉ map event_key events → ∃ i v, (start ≤ i)%nat ∧ was s i f v ∧ ∀ j, (base ≤ j ≤ i)%nat → was s j f v).

Definition step_ok (s : State) (e : Step) : Prop :=
  match e with
  | Listed p (Ok m) =>
      match where_ <$> processes s !! p with Some (Listing _ _ start) => listing_ok s start m | _ => True end
  | JournalRead p (Ok (Some (events, _))) _ =>
      match where_ <$> processes s !! p with Some (ReadingJournal _ _ _ start base) => events_ok s start base events | _ => True end
  | _ => True
  end.

Inductive reachable (c : Backups) : State → Prop :=
  | reach_initial : reachable c (initial c)
  | reach_step s e : reachable c s → step_ok s e → reachable c (step e s).

(** ** The listeners *)

(** What a listener makes of a change, if it makes sense: it adds what it does not have,
    updates what is different, and removes what it has. *)
Definition tell (view : option Backups) (c : Change) : option Backups :=
  match view with
  | None => None
  | Some v =>
      match kind c, v !! id (backup c) with
      | CAdd, None => Some (<[id (backup c) := backup c]> v)
      | CUpdate, Some previous => if decide (previous = backup c) then None else Some (<[id (backup c) := backup c]> v)
      | CRemove, Some _ => Some (delete (id (backup c)) v)
      | _, _ => None
      end
  end.

Definition shows (v : Backups) (m : option BackupsByVm) : Prop :=
  ∀ f, v !! f = match m with Some m => lookup_backup m (vm_of f) f | None => None end.

Lemma lookup_backup_ext m vm f : lookup_backup m vm f = m !! vm ≫= lookup f.
Proof. unfold lookup_backup. by destruct (m !! vm). Qed.

Lemma lookup_remove m vm f vm' f' : lookup_backup (removeBackup m vm f) vm' f' =
  if decide (vm' = vm ∧ f' = f) then None else lookup_backup m vm' f'.
Proof.
  unfold removeBackup, lookup_backup. destruct (m !! vm) as [bs|] eqn:E.
  - destruct (decide (vm' = vm)) as [->|Hne].
    + rewrite E. assert ((delete f bs) !! f' = if decide (vm = vm ∧ f' = f) then None else bs !! f') as <-.
      { destruct (decide (f' = f)) as [->|]; [rewrite decide_True by done; apply lookup_delete_eq|].
        rewrite decide_False by naive_solver. by apply lookup_delete_ne. }
      destruct (decide (delete f bs = ∅)) as [->|]; [by rewrite lookup_delete_eq, lookup_empty|by rewrite lookup_insert_eq].
    + rewrite (decide_False (P := vm' = vm ∧ f' = f)) by naive_solver.
      destruct (decide (delete f bs = ∅)); [by rewrite lookup_delete_ne|by rewrite lookup_insert_ne].
  - destruct (decide (vm' = vm ∧ f' = f)) as [[-> ->]|]; [by rewrite E|done].
Qed.

Lemma lookup_upsert m vm f b vm' f' : lookup_backup (<[vm := <[f := b]> (default ∅ (m !! vm))]> m) vm' f' =
  if decide (vm' = vm ∧ f' = f) then Some b else lookup_backup m vm' f'.
Proof.
  unfold lookup_backup. destruct (decide (vm' = vm)) as [->|Hne].
  - rewrite lookup_insert_eq. destruct (decide (f' = f)) as [->|Hf].
    + by rewrite lookup_insert_eq, decide_True.
    + rewrite lookup_insert_ne, (decide_False (P := vm = vm ∧ f' = f)) by naive_solver. destruct (m !! vm); cbn; [done|apply lookup_empty].
  - rewrite lookup_insert_ne, (decide_False (P := vm' = vm ∧ f' = f)) by naive_solver. done.
Qed.

Lemma removeBackup_wf m vm f : wf_listing m → wf_listing (removeBackup m vm f).
Proof.
  intros [Hk Hv]. split.
  - intros vm' f' b. rewrite lookup_remove. destruct (decide _); [done|apply Hk].
  - intros vm'. unfold removeBackup. destruct (m !! vm) as [bs|] eqn:E; [|apply Hv].
    destruct (decide (delete f bs = ∅)) as [Hd|Hd].
    + rewrite lookup_delete_Some. intros [_ H']. by apply (Hv vm').
    + rewrite lookup_insert_Some. intros [[_ H']|[_ H']]; [done|by apply (Hv vm')].
Qed.

Lemma upsert_wf m f b : wf_listing m → id b = f → wf_listing (<[vm_of f := <[f := b]> (default ∅ (m !! vm_of f))]> m).
Proof.
  intros [Hk Hv] Hid. split.
  - intros vm' f' b'. rewrite lookup_upsert. destruct (decide (vm' = vm_of f ∧ f' = f)) as [[-> ->]|]; [|apply Hk]. by intros [= <-].
  - intros vm'. rewrite lookup_insert_Some. intros [[_ H']|[_ H']]; [|by apply (Hv vm')].
    by apply insert_non_empty in H'.
Qed.

Definition heard (view : option Backups) (changes : list Change) : option Backups := foldl tell view changes.

(** The listener follows, and the backup is what the event says. *)
Lemma applyEvent_ok m e v : wf_listing m → event_ok e → shows v (Some m) →
  let '(m', c) := applyEvent m e in
  wf_listing m' ∧ (∃ v', heard (Some v) (option_list c) = Some v' ∧ shows v' (Some m')) ∧
  ∀ f, lookup_backup m' (vm_of f) f = if decide (f = event_key e) then event_value e else lookup_backup m (vm_of f) f.
Proof.
  intros Hw [Hkey Hvm] Hs. destruct e as [vm f|a vm f b]; cbn in Hkey, Hvm; subst vm; cbn [applyEvent event_key event_value].
  - assert (∀ g, lookup_backup (removeBackup m (vm_of f) f) (vm_of g) g = if decide (g = f) then None else lookup_backup m (vm_of g) g) as Hl.
    { intros g. rewrite lookup_remove. destruct (decide (g = f)) as [->|]; [by rewrite decide_True|by rewrite decide_False by naive_solver]. }
    split; [by apply removeBackup_wf|]. split; [|done]. destruct (lookup_backup m (vm_of f) f) as [b|] eqn:E; cbn.
    + destruct (wl_keys m Hw _ _ _ E) as [<- _]. rewrite (Hs (id b)), E. eexists. split; [done|]. intros g. rewrite Hl.
      destruct (decide (g = id b)) as [->|]; [apply lookup_delete_eq|by rewrite lookup_delete_ne].
    + exists v. split; [done|]. intros g. rewrite Hl, (Hs g). by destruct (decide (g = f)) as [->|].
  - assert (∀ g, lookup_backup (<[vm_of f := <[f := b]> (default ∅ (m !! vm_of f))]> m) (vm_of g) g = if decide (g = f) then Some b else lookup_backup m (vm_of g) g) as Hl.
    { intros g. rewrite lookup_upsert. destruct (decide (g = f)) as [->|]; [by rewrite decide_True|by rewrite decide_False by naive_solver]. }
    split; [by apply upsert_wf|]. split; [|done].
    assert (∀ w, (w : Backups) = <[f := b]> v → shows w (Some (<[vm_of f := <[f := b]> (default ∅ (m !! vm_of f))]> m))) as Hw'.
    { intros w -> g. rewrite Hl. destruct (decide (g = f)) as [->|]; [apply lookup_insert_eq|rewrite lookup_insert_ne by done; apply Hs]. }
    destruct (lookup_backup m (vm_of f) f) as [b'|] eqn:E; [destruct (decide (b' = b)) as [->|Hne]|]; cbn.
    + exists v. split; [done|]. apply Hw'. symmetry. apply insert_id. by rewrite (Hs f).
    + rewrite Hkey, (Hs f), E, decide_False by done. eexists. split; [done|by apply Hw'].
    + rewrite Hkey, (Hs f), E. eexists. split; [done|by apply Hw'].
Qed.

Lemma applyEvents_ok events m v : wf_listing m → NoDup (map event_key events) → Forall event_ok events → shows v (Some m) →
  let '(m', changes) := applyEvents m events in
  wf_listing m' ∧ (∃ v', heard (Some v) changes = Some v' ∧ shows v' (Some m')) ∧
  (∀ e, e ∈ events → lookup_backup m' (vm_of (event_key e)) (event_key e) = event_value e) ∧
  ∀ f, f ∉ map event_key events → lookup_backup m' (vm_of f) f = lookup_backup m (vm_of f) f.
Proof.
  intros Hw Hd Hok. revert m v Hw. induction Hok as [|e events He Hok IH]; intros m v Hw Hs; cbn [applyEvents].
  { split; [done|]. split; [by exists v|]. split; [by intros e ?%not_elem_of_nil|done]. }
  rewrite map_cons, NoDup_cons in Hd. destruct Hd as [Hn Hd].
  pose proof (applyEvent_ok m e v Hw He Hs) as H1. destruct (applyEvent m e) as [m1 c]. destruct H1 as (Hw1 & (v1 & Hv1 & Hs1) & Hl1).
  specialize (IH Hd m1 v1 Hw1 Hs1). destruct (applyEvents m1 events) as [m2 changes]. destruct IH as (Hw2 & (v2 & Hv2 & Hs2) & Hl2 & Hl2').
  split; [done|]. split; [|split].
  - exists v2. split; [|done]. unfold heard in *. by rewrite foldl_app, Hv1.
  - intros e' [->|Hin]%elem_of_cons; [|by apply Hl2]. by rewrite Hl2', Hl1, decide_True.
  - intros f Hf. rewrite map_cons, not_elem_of_cons in Hf. destruct Hf as [Hf Hf']. by rewrite Hl2', Hl1, decide_False.
Qed.

Lemma elem_of_all_backups m vm f b : (vm, f, b) ∈ all_backups m ↔ lookup_backup m vm f = Some b.
Proof.
  unfold all_backups, lookup_backup. rewrite list_elem_of_bind. split.
  - intros ([vm' bs] & Hin & Hm). apply elem_of_map_to_list in Hm. apply list_elem_of_bind in Hin as ([f' b'] & Hin & Hb).
    apply elem_of_map_to_list in Hb. apply list_elem_of_singleton in Hin as [= -> -> ->]. by rewrite Hm.
  - destruct (m !! vm) as [bs|] eqn:E; [|done]. intros Hb. exists (vm, bs). split; [|by apply elem_of_map_to_list].
    apply list_elem_of_bind. exists (f, b). split; [by left|by apply elem_of_map_to_list].
Qed.

Definition file_name (x : jstring * jstring * Backup) : jstring := x.1.2.

Lemma all_backups_wf m vm f b : wf_listing m → (vm, f, b) ∈ all_backups m → vm = vm_of f ∧ id b = f ∧ lookup_backup m (vm_of f) f = Some b.
Proof. intros Hw Hin%elem_of_all_backups. destruct (wl_keys m Hw _ _ _ Hin) as [? ->]. done. Qed.

Lemma NoDup_all_backups m : wf_listing m → NoDup (map file_name (all_backups m)).
Proof.
  intros Hw. apply NoDup_fmap_2_strong.
  - intros [[vm f] b] [[vm' f'] b'] H1%all_backups_wf H2%all_backups_wf; [|done..]. cbn. intros ->. naive_solver congruence.
  - unfold all_backups. apply NoDup_bind.
    + intros [vm bs] [vm' bs'] [[w f] b] H1 H2 H3 H4. apply list_elem_of_bind in H3 as ([? ?] & [= <- _ _]%list_elem_of_singleton & _).
      apply list_elem_of_bind in H4 as ([? ?] & [= <- _ _]%list_elem_of_singleton & _).
      apply elem_of_map_to_list in H1, H2. congruence.
    + intros [vm bs] _. apply NoDup_bind; [|intros [? ?] _; apply NoDup_singleton|apply NoDup_map_to_list].
      intros [f b] [f' b'] y _ _ ->%list_elem_of_singleton [= <- <-]%list_elem_of_singleton. done.
    + apply NoDup_map_to_list.
Qed.

Lemma heard_app v c c' : heard v (c ++ c') = heard (heard v c) c'.
Proof. apply foldl_app. Qed.

(** The first loop of [#announce]: what is new is added, what is different updated. *)
Lemma heard_added old l v :
  NoDup (map file_name l) →
  (∀ vm f b, (vm, f, b) ∈ l → id b = f ∧ v !! f = lookup_backup old vm f) →
  ∃ v', heard (Some v) (omap (announced_add old) l) = Some v' ∧
    (∀ vm f b, (vm, f, b) ∈ l → v' !! f = Some b) ∧ ∀ f, f ∉ map file_name l → v' !! f = v !! f.
Proof.
  revert v. induction l as [|[[vm f] b] l IH]; intros v Hd Hl.
  { exists v. split; [done|]. split; [by intros ??? ?%not_elem_of_nil|done]. }
  rewrite map_cons, NoDup_cons in Hd. destruct Hd as [Hn Hd]. destruct (Hl vm f b ltac:(by left)) as [Hid Hv].
  assert (∃ w, heard (Some v) (option_list (announced_add old (vm, f, b))) = Some w ∧ w !! f = Some b ∧ ∀ g, g ≠ f → w !! g = v !! g) as (w & Hw & Hwf & Hwg).
  { cbn. rewrite <- Hv. destruct (v !! f) as [b'|] eqn:E; [destruct (decide (b' = b)) as [->|Hne]|]; cbn.
    - exists v. done.
    - rewrite Hid, E, decide_False by done. eexists. split; [done|]. split; [apply lookup_insert_eq|]. intros g Hg. by rewrite lookup_insert_ne.
    - rewrite Hid, E. eexists. split; [done|]. split; [apply lookup_insert_eq|]. intros g Hg. by rewrite lookup_insert_ne. }
  destruct (IH w Hd) as (v' & Hv' & Hin & Hout).
  { intros vm' g b' Hin. destruct (Hl vm' g b' ltac:(by right)) as [Hid' Hg]. split; [done|]. rewrite Hwg; [done|].
    intros ->. apply Hn. by apply (list_elem_of_fmap_2 file_name _ (vm', f, b')). }
  exists v'. split; [|split].
  - replace (omap (announced_add old) ((vm, f, b) :: l)) with (option_list (announced_add old (vm, f, b)) ++ omap (announced_add old) l).
    + by rewrite heard_app, Hw.
    + cbn [omap list_omap]. by destruct (announced_add old (vm, f, b)).
  - intros vm' g b' [[= -> -> ->]|Hg]%elem_of_cons; [by rewrite Hout|by eapply Hin].
  - intros g Hg. rewrite map_cons, not_elem_of_cons in Hg. destruct Hg as [Hg Hg']. rewrite Hout by done. by apply Hwg.
Qed.

(** The second loop: what is gone is removed. *)
Lemma heard_removed m l v :
  NoDup (map file_name l) →
  (∀ vm f b, (vm, f, b) ∈ l → id b = f ∧ is_Some (v !! f)) →
  ∃ v', heard (Some v) (omap (announced_remove m) l) = Some v' ∧
    (∀ vm f b, (vm, f, b) ∈ l → v' !! f = match lookup_backup m vm f with None => None | Some _ => v !! f end) ∧
    ∀ f, f ∉ map file_name l → v' !! f = v !! f.
Proof.
  revert v. induction l as [|[[vm f] b] l IH]; intros v Hd Hl.
  { exists v. split; [done|]. split; [by intros ??? ?%not_elem_of_nil|done]. }
  rewrite map_cons, NoDup_cons in Hd. destruct Hd as [Hn Hd]. destruct (Hl vm f b ltac:(by left)) as [Hid [x Hx]].
  assert (∃ w, heard (Some v) (option_list (announced_remove m (vm, f, b))) = Some w ∧
    w !! f = match lookup_backup m vm f with None => None | Some _ => v !! f end ∧ ∀ g, g ≠ f → w !! g = v !! g) as (w & Hw & Hwf & Hwg).
  { cbn. destruct (lookup_backup m vm f) as [b'|]; cbn; [by exists v|].
    rewrite Hid, Hx. eexists. split; [done|]. split; [apply lookup_delete_eq|]. intros g Hg. by rewrite lookup_delete_ne. }
  destruct (IH w Hd) as (v' & Hv' & Hin & Hout).
  { intros vm' g b' Hin. destruct (Hl vm' g b' ltac:(by right)) as [Hid' Hg]. split; [done|]. rewrite Hwg; [done|].
    intros ->. apply Hn. by apply (list_elem_of_fmap_2 file_name _ (vm', f, b')). }
  exists v'. split; [|split].
  - replace (omap (announced_remove m) ((vm, f, b) :: l)) with (option_list (announced_remove m (vm, f, b)) ++ omap (announced_remove m) l).
    + by rewrite heard_app, Hw.
    + cbn [omap list_omap]. by destruct (announced_remove m (vm, f, b)).
  - intros vm' g b' [[= -> -> ->]|Hg]%elem_of_cons; [by rewrite Hout|]. rewrite (Hin vm' g b' Hg).
    rewrite Hwg; [done|]. intros ->. apply Hn. by apply (list_elem_of_fmap_2 file_name _ (vm', f, b')).
  - intros g Hg. rewrite map_cons, not_elem_of_cons in Hg. destruct Hg as [Hg Hg']. rewrite Hout by done. by apply Hwg.
Qed.

Lemma not_in_names m f : wf_listing m → f ∉ map file_name (all_backups m) ↔ lookup_backup m (vm_of f) f = None.
Proof.
  intros Hw. split.
  - intros Hn. destruct (lookup_backup m (vm_of f) f) as [b|] eqn:E; [|done]. exfalso. apply Hn.
    apply (list_elem_of_fmap_2 file_name _ (vm_of f, f, b)). by apply elem_of_all_backups.
  - intros E ([[vm g] b] & -> & Hin)%list_elem_of_fmap. apply all_backups_wf in Hin as (_ & _ & Hl); [|done]. cbn in E. congruence.
Qed.

Lemma announce_ok previous m v : wf_listing m → (∀ m', previous = Some m' → wf_listing m') → shows v previous →
  ∃ v', heard (Some v) (announce_changes previous m) = Some v' ∧ shows v' (Some m).
Proof.
  intros Hw Hp Hs. unfold announce_changes. rewrite heard_app.
  assert (∀ f, v !! f = lookup_backup (default ∅ previous) (vm_of f) f) as Hv.
  { intros f. rewrite (Hs f). destruct previous; [done|]. cbn. unfold lookup_backup. by rewrite lookup_empty. }
  destruct (heard_added (default ∅ previous) (all_backups m) v) as (v1 & -> & Hin & Hout).
  { by apply NoDup_all_backups. }
  { intros vm f b Hx%all_backups_wf; [|done]. destruct Hx as (-> & ? & _). split; [done|apply Hv]. }
  assert (∀ f b, lookup_backup m (vm_of f) f = Some b → v1 !! f = Some b) as Hnew.
  { intros f b Hf. apply (Hin (vm_of f)). by apply elem_of_all_backups. }
  assert (∀ f, lookup_backup m (vm_of f) f = None → v1 !! f = v !! f) as Hold.
  { intros f Hf. apply Hout. by apply not_in_names. }
  destruct previous as [old|].
  - specialize (Hp old eq_refl). destruct (heard_removed m (all_backups old) v1) as (v2 & -> & Hin2 & Hout2).
    { by apply NoDup_all_backups. }
    { intros vm f b Hx%all_backups_wf; [|done]. destruct Hx as (-> & ? & Hx). split; [done|].
      destruct (lookup_backup m (vm_of f) f) as [b'|] eqn:E; [by rewrite (Hnew _ _ E)|]. by rewrite Hold, (Hs f), Hx. }
    exists v2. split; [done|]. intros f. destruct (lookup_backup old (vm_of f) f) as [b|] eqn:E.
    + rewrite (Hin2 (vm_of f) f b) by by apply elem_of_all_backups. destruct (lookup_backup m (vm_of f) f) eqn:Em; [by apply Hnew|done].
    + rewrite Hout2 by by apply not_in_names. destruct (lookup_backup m (vm_of f) f) eqn:Em; [by apply Hnew|]. by rewrite Hold, (Hs f), E.
  - exists v1. split; [done|]. intros f. destruct (lookup_backup m (vm_of f) f) eqn:Em; [by apply Hnew|]. rewrite Hold by done. apply Hs.
Qed.

Lemma removed_all m v : wf_listing m → shows v (Some m) →
  ∃ v', heard (Some v) (map (λ x, mkChange CRemove x.2) (all_backups m)) = Some v' ∧ shows v' None.
Proof.
  intros Hw Hs. destruct (heard_removed ∅ (all_backups m) v) as (v' & Hv' & Hin & Hout).
  { by apply NoDup_all_backups. }
  { intros vm f b Hx%all_backups_wf; [|done]. destruct Hx as (-> & ? & Hx). split; [done|]. by rewrite (Hs f), Hx. }
  exists v'. split.
  - rewrite <- Hv'. f_equal. clear. induction (all_backups m) as [|[[vm f] b] l IH]; [done|]. cbn [omap list_omap].
    rewrite map_cons. cbn. unfold lookup_backup at 1. rewrite lookup_empty. by rewrite IH.
  - intros f. destruct (lookup_backup m (vm_of f) f) as [b|] eqn:E.
    + rewrite (Hin (vm_of f) f b) by by apply elem_of_all_backups. unfold lookup_backup. by rewrite lookup_empty.
    + rewrite Hout by by apply not_in_names. by rewrite (Hs f).
Qed.

(** ** The listeners follow *)

Record following (s : State) : Prop := {
  fo_objects b m : objects s !! b = Some m → wf_listing m;
  fo_announced a : announced s = Some a → is_Some (objects s !! a);
  fo_heard : ∃ v, heard (Some ∅) (emitted s) = Some v ∧ shows v (object s (announced s));
}.

Definition untouched (s s' : State) : Prop := objects s' = objects s ∧ announced s' = announced s ∧ emitted s' = emitted s.

Lemma following_untouched s s' : untouched s s' → following s → following s'.
Proof.
  intros (Ho & Ha & He) [H1 H2 H3]. split.
  - rewrite Ho. done.
  - rewrite Ho, Ha. done.
  - rewrite He, Ha. unfold object in *. by rewrite Ho.
Qed.

Lemma untouched_start_build p r now found s : untouched s (start_build p r now found s).
Proof. done. Qed.

Lemma untouched_start_read p r now s : untouched s (start_read p r now s).
Proof.
  unfold start_read. destruct (entry s) as [e|]; [|done]. destruct (heap s !! e) as [en|]; [|done].
  destruct (negb _ || _); [done|]. by destruct (stale en || _).
Qed.

Lemma untouched_get r now s : untouched s (get r now s).
Proof. unfold get. destruct (pending s); [done|]. exact (untouched_start_read _ r now (set_pending (Some (length (processes s))) (set_processes (processes s ++ [mkProcess r 1 (HasRead None)]) s))). Qed.

Lemma untouched_fail_read p found s : untouched s (fail_read p found s).
Proof. unfold fail_read. by destruct (decide _). Qed.

Lemma untouched_check_read p now s : untouched s (check_read p now s).
Proof.
  unfold check_read. destruct (processes s !! p) as [[r n [| |b| |]]|]; try done. destruct (current_entry s); [|done].
  destruct (_ || _); [done|]. exact (untouched_start_read p r now (next_read p s)).
Qed.

Lemma untouched_settle p s : untouched s (settle p s).
Proof. unfold settle. destruct (where_ <$> _) as [[]|]; try done; by destruct (decide _). Qed.

Lemma untouched_refresh s : untouched s (refresh s).
Proof. unfold refresh. by destruct (entry s). Qed.

Lemma following_remove s : following s → following (remove s).
Proof.
  intros [H1 H2 (v & Hv & Hs)]. unfold remove. destruct (object s (announced s)) as [m|] eqn:E.
  - assert (wf_listing m) as Hw. { unfold object in E. destruct (announced s); [by eapply H1|done]. }
    destruct (removed_all m v Hw Hs) as (v' & Hv' & Hs'). split; cbn; [done|done|]. exists v'. by rewrite heard_app, Hv.
  - apply (following_untouched s); [done|]. split; [done|done|]. exists v. split; [done|by rewrite E].
Qed.

Lemma following_new_object m start s : wf_listing m → following s → following (new_object m start s).
Proof.
  intros Hw [H1 H2 (v & Hv & Hs)]. split; cbn.
  - intros b m' [Hb|[_ Hb]]%lookup_app_Some; [by eapply H1|]. destruct (b - length (objects s))%nat; [|done]. by injection Hb as <-.
  - intros a [m' Ha]%H2. exists m'. by apply lookup_app_l_Some.
  - exists v. split; [done|]. intros f. rewrite (Hs f). unfold object; cbn. destruct (announced s) as [a|]; [|done].
    destruct (H2 a eq_refl) as [m' Hm']. by rewrite Hm', (lookup_app_l_Some _ _ _ _ Hm').
Qed.

Lemma following_listed p answer s : step_ok s (Listed p answer) → following s → following (listed p answer s).
Proof.
  cbn. unfold listed. destruct (where_ <$> processes s !! p) as [[e found start| | | |]|]; intros Hok Hf; try done.
  destruct answer as [m|]; [|].
  2: { apply (following_untouched (if decide (entry s = Some e) then set_entry None s else s)); [apply untouched_fail_read|].
       apply (following_untouched s); [by destruct (decide _)|done]. }
  destruct Hok as [Hw _]. pose proof (following_new_object m start s Hw Hf) as Hn.
  set (s1 := set_heap _ (new_object m start s)). assert (following s1) as Hs1 by by apply (following_untouched (new_object m start s)).
  destruct (decide (entry s1 = Some e)) as [_|]; [|by apply (following_untouched s1)].
  apply (following_untouched (set_announced (Some (length (objects s))) (announce_changes (object s (announced s)) m) s1)); [done|].
  destruct Hf as [H1 H2 (v & Hv & Hs)].
  destruct (announce_ok (object s (announced s)) m v Hw) as (v' & Hv' & Hs').
  - unfold object. destruct (announced s); [|done]. intros m'. apply H1.
  - done.
  - split; cbn [objects announced emitted set_announced].
    + apply Hs1.
    + intros a [= <-]. exists m. cbn. by rewrite lookup_app_r, Nat.sub_diag.
    + exists v'. cbn. rewrite heard_app, Hv. split; [done|]. unfold object. cbn. by rewrite lookup_app_r, Nat.sub_diag.
Qed.

Lemma shows_exists m : wf_listing m → ∃ v, shows v (Some m).
Proof.
  intros Hw. destruct (announce_ok None m ∅ Hw) as (v & _ & Hv); [done|intros f; apply lookup_empty|by exists v].
Qed.

(** A replay mutates the object in place. *)
Lemma following_replay s b m events from : following s → objects s !! b = Some m →
  NoDup (map event_key events) → Forall event_ok events →
  let '(m', changes) := applyEvents m events in
  following (set_announced (announced s) (if decide (announced s = Some b) then changes else []) (set_object b m' from s)).
Proof.
  intros [H1 H2 (v & Hv & Hs)] Hb Hd Hok. pose proof (H1 b m Hb) as Hw. pose proof (lookup_lt_Some _ _ _ Hb) as Hlt.
  assert (∀ a, announced s = Some a → is_Some (<[b := (applyEvents m events).1]> (objects s) !! a)) as Hann.
  { intros a Ha. apply lookup_lt_is_Some. rewrite length_insert. by apply lookup_lt_is_Some, H2. }
  assert (wf_listing (applyEvents m events).1) as Hw'.
  { destruct (shows_exists m Hw) as [v0 Hv0]. pose proof (applyEvents_ok events m v0 Hw Hd Hok Hv0) as H'. by destruct (applyEvents m events), H'. }
  destruct (applyEvents m events) as [m' changes] eqn:E. cbn [fst] in *.
  split; cbn.
  - intros a x. destruct (decide (a = b)) as [->|Hne].
    + rewrite list_lookup_insert_eq by done. by intros [= <-].
    + rewrite list_lookup_insert_ne by done. apply H1.
  - done.
  - destruct (decide (announced s = Some b)) as [Ha|Ha].
    + rewrite Ha in *. unfold object in *. cbn in *. rewrite Hb in Hs. pose proof (applyEvents_ok events m v Hw Hd Hok Hs) as H'.
      rewrite E in H'. destruct H' as (_ & (v' & Hv' & Hs') & _). exists v'. rewrite heard_app, Hv, list_lookup_insert_eq by done. done.
    + exists v. rewrite app_nil_r. split; [done|]. unfold object in *. cbn in *. destruct (announced s) as [a|]; [|done].
      rewrite list_lookup_insert_ne by congruence. done.
Qed.

Lemma following_journal_read p answer now s :
  step_ok s (JournalRead p answer now) → following s → following (journal_read p answer now s).
Proof.
  cbn. unfold journal_read. destruct (processes s !! p) as [[r n [|e b refreshed start base| | |]]|]; intros Hok Hf; try done.
  destruct answer as [[[events cursor]|]|].
  - cbn in Hok. destruct Hok as (Hd & Hev & _). set (s1 := if decide (entry s = Some e) then set_unreplayable false s else s).
    assert (following s1) as Hs1 by (apply (following_untouched s); [unfold s1; by destruct (decide _)|done]).
    destruct b as [b|]; [destruct (object s1 (Some b)) as [m|] eqn:Em|].
    + pose proof (following_replay s1 b m events start Hs1 Em Hd Hev) as Hr. destruct (applyEvents m events) as [m' changes].
      eapply following_untouched; [|exact Hr]. done.
    + destruct events; [by apply (following_untouched s1)|].
      apply (following_untouched s1); [apply untouched_fail_read|done].
    + destruct events; [by apply (following_untouched s1)|].
      apply (following_untouched s1); [apply untouched_fail_read|done].
  - apply (following_untouched s); [by destruct (decide (entry s = Some e))|done].
  - apply (following_untouched s); [apply untouched_fail_read|done].
Qed.

Lemma following_step e s : step_ok s e → following s → following (step e s).
Proof.
  intros Hok Hf. destruct e as [c|r now|r now|p a|p a now|p now|p| | |]; cbn [step].
  - by apply (following_untouched s).
  - apply (following_untouched s); [apply untouched_get|done].
  - apply (following_untouched s); [|done]. unfold getOneVm. destruct (_ || _); [apply untouched_get|done].
  - by apply following_listed.
  - by apply following_journal_read.
  - apply (following_untouched s); [apply untouched_check_read|done].
  - apply (following_untouched s); [apply untouched_settle|done].
  - apply (following_untouched s); [apply untouched_refresh|done].
  - by apply (following_untouched s).
  - by apply following_remove.
Qed.

Lemma reachable_following c s : reachable c s → following s.
Proof.
  induction 1 as [|s e _ IH Hok]; [|by apply following_step].
  split; [done|done|]. exists ∅. split; [done|]. intros f. by rewrite lookup_empty.
Qed.

(** C8: Whatever is called and in whatever order the reads end, what the listeners are told
    makes sense, and what they make of it is what the cache last listed of the repository. *)
Theorem announcements_follow c s : reachable c s →
  ∃ v, heard (Some ∅) (emitted s) = Some v ∧
    ∀ f, v !! f = match object s (announced s) with Some m => lookup_backup m (vm_of f) f | None => None end.
Proof. intros Hr. apply (reachable_following c s Hr). Qed.

(** ** What is served is up to date *)

Definition pc (s : State) (p : nat) : option Where := where_ <$> processes s !! p.

(** The answer that a repository cannot be replayed comes while the entry is in place. *)
Definition timely (s : State) (e : Step) : Prop :=
  match e with
  | JournalRead p (Ok None) _ =>
      match pc s p with Some (ReadingJournal e _ _ _ _) => entry s = Some e | _ => True end
  | _ => True
  end.

Inductive timely_reachable (c : Backups) : State → Prop :=
  | timely_initial : timely_reachable c (initial c)
  | timely_step s e : timely_reachable c s → step_ok s e → timely s e → timely_reachable c (step e s).

(** The entry that a process waits for. *)
Definition busy (w : Where) : option nat :=
  match w with Listing e _ _ => Some e | ReadingJournal e _ _ _ _ => Some e | _ => None end.

Definition is_listing (e : nat) (w : Where) : Prop := match w with Listing e' _ _ => e' = e | _ => False end.
Definition start_of (w : Where) : nat := match w with Listing _ _ start => start | ReadingJournal _ _ _ start _ => start | _ => O end.

Definition process_ok (s : State) (p : nat) (w : Where) : Prop :=
  match w with
  | Listing e _ start =>
      (∃ en, heap s !! e = Some en ∧ backupsByVm en = None) ∧ (entry s = Some e → pending s = Some p) ∧ (start ≤ version s)%nat
  | ReadingJournal e b _ start base =>
      (∃ en b', heap s !! e = Some en ∧ b = Some b' ∧ backupsByVm en = Some b') ∧ (entry s = Some e → pending s = Some p) ∧
      (start ≤ version s)%nat ∧ base = since_of s b ∧ (base ≤ start)%nat
  | HasRead b =>
      ∃ b', b = Some b' ∧ is_Some (objects s !! b') ∧
        ∀ e en, entry s = Some e → heap s !! e = Some en → backupsByVm en = Some b' → pending s = Some p
  | _ => True
  end.

(** Each backup is as it was at some time from the version [k] on. *)
Definition fresh_from (s : State) (k : nat) (m : BackupsByVm) : Prop :=
  ∀ f, ∃ i, (k ≤ i)%nat ∧ was s i f (lookup_backup m (vm_of f) f).

(** Of all the processes but [x]. *)
Record sound (x : option nat) (s : State) : Prop := {
  so_process p w : Some p ≠ x → pc s p = Some w → process_ok s p w;
  so_busy p q w w' : Some p ≠ x → Some q ≠ x → pc s p = Some w → pc s q = Some w' → busy w = busy w' → is_Some (busy w) → p = q;
  so_entry e : entry s = Some e → is_Some (heap s !! e);
  so_objects e en b : heap s !! e = Some en → backupsByVm en = Some b → is_Some (objects s !! b);
  so_owner e e' en en' b : heap s !! e = Some en → heap s !! e' = Some en' → backupsByVm en = Some b → backupsByVm en' = Some b → e = e';
  so_length : length (since s) = length (objects s);
  so_since b m k : objects s !! b = Some m → since s !! b = Some k → (k ≤ version s)%nat ∧ fresh_from s k m;
  so_refresh : (lastRefresh s ≤ version s)%nat;
  so_history : history s ≠ [];
}.

(** The current entry: when it is not listed, the read in progress lists it; when it is
    not stale, what it has or is about to have was read after the last refresh. *)
Record current_ok (x : option nat) (s : State) : Prop := {
  cu_unbuilt e en : entry s = Some e → heap s !! e = Some en → backupsByVm en = None →
    ∃ p w, Some p ≠ x ∧ pending s = Some p ∧ pc s p = Some w ∧ is_listing e w;
  cu_fresh e en : entry s = Some e → heap s !! e = Some en → stale en = false →
    (∃ b, backupsByVm en = Some b ∧ (lastRefresh s ≤ since_of s (Some b))%nat) ∨
    ∃ p w, Some p ≠ x ∧ pc s p = Some w ∧ busy w = Some e ∧ (lastRefresh s ≤ start_of w)%nat;
}.

Lemma pc_at p w s q : pc (at_ p w s) q = if decide (q = p) then (λ _, w) <$> pc s p else pc s q.
Proof.
  unfold pc, at_. cbn. destruct (decide (q = p)) as [->|Hne].
  - rewrite list_lookup_alter_eq. by destruct (processes s !! p).
  - by rewrite list_lookup_alter_ne.
Qed.

Lemma sound_weaken x s : sound None s → sound x s.
Proof. intros []. split; eauto. Qed.

Lemma current_weaken p s : (∀ e w, entry s = Some e → pc s p = Some w → busy w ≠ Some e) → current_ok None s → current_ok (Some p) s.
Proof.
  intros Hp [H1 H2]. split.
  - intros e en He Hen Hb. destruct (H1 e en He Hen Hb) as (q & w & _ & Hq & Hw & Hl). exists q, w. split; [|done].
    intros [= ->]. apply (Hp e w He Hw). destruct w; cbn in *; naive_solver.
  - intros e en He Hen Hb. destruct (H2 e en He Hen Hb) as [?|(q & w & _ & Hw & Hl & Hs)]; [by left|]. right. exists q, w.
    split; [|done]. intros [= ->]. by apply (Hp e w He Hw).
Qed.

(** A process moves. *)
Lemma sound_at p w s : sound (Some p) s → process_ok s p w →
  (∀ q w', q ≠ p → pc s q = Some w' → is_Some (busy w) → busy w' ≠ busy w) → sound None (at_ p w s).
Proof.
  intros [H1 H2 H3 H4 H5 H6 H7 H8 H9] Hw Hbusy. split; try done.
  - intros q w' _. rewrite pc_at. destruct (decide (q = p)) as [->|Hne]; [|apply H1; congruence].
    destruct (pc s p); [|done]. intros [= <-]. done.
  - intros q r w1 w2 _ _. rewrite !pc_at. destruct (decide (q = p)) as [->|Hq], (decide (r = p)) as [->|Hr]; [done| | |].
    + destruct (pc s p); [|done]. intros [= <-] Hw2 E Hs. symmetry in E. by apply (Hbusy r w2) in E.
    + destruct (pc s p); [|done]. intros Hw1 [= <-] E Hs. rewrite E in Hs. by apply (Hbusy q w1) in E.
    + apply H2; congruence.
Qed.

Lemma current_at p w s : current_ok (Some p) s → current_ok None (at_ p w s).
Proof.
  intros [H1 H2]. split.
  - intros e en He Hen Hb. destruct (H1 e en He Hen Hb) as (q & w' & Hq & Hp & Hw & Hl). exists q, w'. split; [done|].
    split; [done|]. rewrite pc_at, decide_False by congruence. done.
  - intros e en He Hen Hb. destruct (H2 e en He Hen Hb) as [?|(q & w' & Hq & Hw & Hl & Hs)]; [by left|]. right. exists q, w'.
    split; [done|]. rewrite pc_at, decide_False by congruence. done.
Qed.

Definition ok (s : State) : Prop := sound None s ∧ current_ok None s.

Lemma busy_heap s p w e : process_ok s p w → busy w = Some e → is_Some (heap s !! e).
Proof. destruct w; cbn; try done; intros Hw [= <-]; [destruct Hw as ((? & -> & _) & _)|destruct Hw as ((? & ? & -> & _) & _)]; by eexists. Qed.

Lemma start_build_ok p r now found s : sound (Some p) s → pending s = Some p → is_Some (pc s p) → ok (start_build p r now found s).
Proof.
  intros Hso Hp [w0 Hw0]. pose proof Hso as [H1 H2 H3 H4 H5 H6 H7 H8 H9]. unfold start_build. set (e := length (heap s)).
  set (new := mkCacheEntry None _ _ _ _ _ _ _). set (s1 := set_entry (Some e) (set_heap (heap s ++ [new]) s)).
  assert (∀ e' en, heap s1 !! e' = Some en → heap s !! e' = Some en ∨ e' = e ∧ en = new) as Hheap.
  { intros e' en [?|[Hl Hen]]%lookup_app_Some; [by left|]. right. destruct (e' - length (heap s))%nat eqn:E; [|done].
    injection Hen as <-. split; [unfold e; lia|done]. }
  assert (∀ e' en, heap s !! e' = Some en → heap s1 !! e' = Some en ∧ e' ≠ e) as Hheap'.
  { intros e' en Hen. split; [by apply lookup_app_l_Some|]. apply lookup_lt_Some in Hen. unfold e. lia. }
  assert (heap s1 !! e = Some new) as He by (cbn; by rewrite lookup_app_r, Nat.sub_diag).
  assert (sound (Some p) s1) as Hs1.
  { split; try done.
    - intros q w Hq Hw. specialize (H1 q w Hq Hw). destruct w as [e' f st|e' b a st bs|b|b|]; cbn in *; try done.
      + destruct H1 as ((en & Hen & Hb) & _ & ?). destruct (Hheap' _ _ Hen). split; [by exists en|]. split; [by intros [= ->]|done].
      + destruct H1 as ((en & b' & Hen & Hb) & _ & ?). destruct (Hheap' _ _ Hen). split; [by exists en, b'|]. split; [by intros [= ->]|done].
      + destruct H1 as (b' & -> & Hb' & _). exists b'. split; [done|]. split; [done|]. intros e' en [= <-]. fold s1 in He.
        intros Hen Hbb. cbn in He. rewrite He in Hen. by injection Hen as <-.
    - intros e' [= <-]. by exists new.
    - intros e' en b [Hen|[-> ->]]%Hheap; [by apply (H4 e')|done].
    - intros e1 e2 en1 en2 b [Hen1|[-> ->]]%Hheap [Hen2|[-> ->]]%Hheap; try done. by apply (H5 e1 e2 en1 en2). }
  split.
  - apply sound_at; [done| |].
    + cbn. split; [by exists new|]. done.
    + intros q w' Hq Hw _. cbn. intros E. destruct (busy_heap s q w' e) as [en Hen]; [apply H1; [congruence|done]|done|].
      by destruct (Hheap' e en Hen).
  - assert (pc (at_ p (Listing e found (version s)) s1) p = Some (Listing e found (version s))) as Hpc.
    { rewrite pc_at, decide_True by done. unfold pc in *. cbn. by rewrite Hw0. }
    split; intros e' en [= <-] Hen; [intros _|intros _; right]; exists p, (Listing e found (version s)); done.
Qed.

Lemma lookup_alter_heap f s e e' en : alter f e (heap s) !! e' = Some en →
  ∃ en', heap s !! e' = Some en' ∧ (e' = e ∧ en = f en' ∨ e' ≠ e ∧ en = en').
Proof.
  destruct (decide (e' = e)) as [->|Hne].
  - rewrite list_lookup_alter_eq, fmap_Some. intros (en' & ? & ->). exists en'. auto.
  - rewrite list_lookup_alter_ne by done. intros ?. exists en. auto.
Qed.

(** An entry changes, but not what it lists. *)
Lemma sound_alter x f e s : (∀ en, backupsByVm (f en) = backupsByVm en) → sound x s → sound x (set_heap (alter f e (heap s)) s).
Proof.
  intros Hf [H1 H2 H3 H4 H5 H6 H7 H8 H9].
  assert (∀ e' en, heap s !! e' = Some en → ∃ en', alter f e (heap s) !! e' = Some en' ∧ backupsByVm en' = backupsByVm en) as Hto.
  { intros e' en Hen. destruct (decide (e' = e)) as [->|Hne].
    - exists (f en). by rewrite list_lookup_alter_eq, Hen, Hf.
    - exists en. by rewrite list_lookup_alter_ne. }
  assert (∀ e' en, alter f e (heap s) !! e' = Some en → ∃ en', heap s !! e' = Some en' ∧ backupsByVm en' = backupsByVm en) as Hfrom.
  { intros e' en (en' & Hen' & [[-> ->]|[_ ->]])%lookup_alter_heap; exists en'; by rewrite ?Hf. }
  split; try done.
  - intros p w Hp Hw. specialize (H1 p w Hp Hw). destruct w as [e' g st|e' b a st bs|b|b|]; cbn in *; try done.
    + destruct H1 as ((en & Hen & Hb) & ?). destruct (Hto _ _ Hen) as (en' & Hen' & E). split; [|done]. exists en'. by rewrite E.
    + destruct H1 as ((en & b' & Hen & Hb & Hbb) & ?). destruct (Hto _ _ Hen) as (en' & Hen' & E). split; [|done]. exists en', b'. by rewrite E.
    + destruct H1 as (b' & -> & Hb' & Hc). exists b'. split; [done|]. split; [done|]. intros e' en He (en' & Hen' & <-)%Hfrom. by apply (Hc e').
  - intros e' He. destruct (H3 e' He) as [en Hen]. destruct (Hto _ _ Hen) as (en' & Hen' & _). by exists en'.
  - intros e' en b (en' & Hen' & <-)%Hfrom. by apply (H4 e').
  - intros e1 e2 en1 en2 b (en1' & Hen1 & <-)%Hfrom (en2' & Hen2 & <-)%Hfrom. by apply (H5 e1 e2).
Qed.

Lemma start_read_ok p r now s : sound (Some p) s → current_ok (Some p) s → pending s = Some p → is_Some (pc s p) →
  ok (start_read p r now s).
Proof.
  intros Hso Hcu Hp Hpc. unfold start_read. destruct (entry s) as [e|] eqn:He; [|by apply start_build_ok].
  destruct (so_entry _ _ Hso e He) as [en Hen]. rewrite Hen. destruct (negb _ || _); [by apply start_build_ok|].
  assert (∃ b, backupsByVm en = Some b) as [b Hb].
  { destruct (backupsByVm en) as [b|] eqn:E; [by eexists|]. destruct (cu_unbuilt _ _ Hcu e en He Hen E) as (q & w & Hq & Hpq & _). congruence. }
  destruct (so_objects _ _ Hso e en b Hen Hb) as [m Hm].
  assert (∃ k, since s !! b = Some k) as [k Hk].
  { apply lookup_lt_is_Some. rewrite (so_length _ _ Hso). by eapply lookup_lt_Some. }
  destruct (so_since _ _ Hso b m k Hm Hk) as [Hkv Hkf]. rewrite Hb.
  destruct (stale en || _) eqn:Es.
  - set (s1 := set_heap _ s). assert (sound (Some p) s1) as Hs1 by by apply sound_alter.
    set (w := ReadingJournal _ _ _ _ _). split.
    + apply sound_at; [done| |].
      * cbn. split; [|split; [done|split; [done|split; [done|]]]].
        -- exists (with_stale false en), b. rewrite list_lookup_alter_eq, Hen. done.
        -- by rewrite Hk.
      * intros q w' Hq Hw' _ E. cbn in E. pose proof (so_process _ _ Hso q w' ltac:(congruence) Hw') as Hok.
        destruct w'; cbn in *; simplify_eq; destruct Hok as (_ & Hpq & _); specialize (Hpq He); congruence.
    + assert (pc (at_ p w s1) p = Some w) as Hpc'. { rewrite pc_at, decide_True by done. unfold pc in *. destruct Hpc as [w0 Hw0]. cbn. by rewrite Hw0. }
      split; intros e' en' He' Hen'; cbn in He', Hen'; rewrite He in He'; injection He' as <-; rewrite list_lookup_alter_eq, Hen in Hen'; injection Hen' as <-.
      * cbn. by rewrite Hb.
      * intros _. right. exists p, w. split; [done|]. split; [done|]. split; [done|]. apply Hso.
  - split; [|by apply current_at]. apply sound_at; [done| |by intros ???? []].
    exists b. split; [done|]. split; [by exists m|]. done.
Qed.

Lemma get_ok r now s : ok s → ok (get r now s).
Proof.
  intros [Hso Hcu]. unfold get. destruct (pending s) as [q|] eqn:Hp; [done|]. set (p := length (processes s)).
  set (s1 := set_pending _ _).
  assert (∀ q, Some q ≠ Some p → pc s1 q = pc s q) as Hpc.
  { intros q Hq. unfold pc. cbn. destruct (decide (q < p)%nat) as [Hlt|Hge]; [by rewrite lookup_app_l|].
    rewrite lookup_app_r by (unfold p in *; lia). rewrite (lookup_ge_None_2 (processes s)) by (unfold p in *; lia).
    destruct (q - length (processes s))%nat eqn:E; [|done]. exfalso. apply Hq. f_equal. unfold p in *. lia. }
  apply start_read_ok; [| |done|].
  - pose proof Hso as [H1 H2 H3 H4 H5 H6 H7 H8 H9]. split; try done.
    + intros q w Hq. rewrite Hpc by done. intros Hw. specialize (H1 q w ltac:(done) Hw).
      destruct w as [e' g st|e' b a st bs|b|b|]; cbn in *; try done.
      * destruct H1 as (? & Hc & ?). split; [done|]. split; [intros He; specialize (Hc He); congruence|done].
      * destruct H1 as (? & Hc & ?). split; [done|]. split; [intros He; specialize (Hc He); congruence|done].
      * destruct H1 as (b' & ? & ? & Hc). exists b'. split; [done|]. split; [done|]. intros e en He Hen Hb. specialize (Hc e en He Hen Hb). congruence.
    + intros q q' w w' Hq Hq'. rewrite !Hpc by done. by apply H2.
  - destruct Hcu as [H1 H2]. split.
    + intros e en He Hen Hb. destruct (H1 e en He Hen Hb) as (q & w & _ & Hq & _). congruence.
    + intros e en He Hen Hb. destruct (H2 e en He Hen Hb) as [?|(q & w & _ & Hw & ?)]; [by left|]. right. exists q, w.
      assert (Some q ≠ Some p) as Hq. { intros [= ->]. unfold pc in Hw. rewrite lookup_ge_None_2 in Hw; [done|]. unfold p. lia. }
      split; [done|]. by rewrite Hpc.
  - unfold pc. cbn. rewrite lookup_app_r, Nat.sub_diag by done. done.
Qed.

(** The entry is dropped. *)
Lemma sound_drop x u p s : sound x s → sound x (set_unreplayable u (set_pending p (set_entry None s))).
Proof.
  intros [H1 H2 H3 H4 H5 H6 H7 H8 H9]. split; try done.
  intros q w Hq Hw. specialize (H1 q w Hq Hw). destruct w; cbn in *; try done; naive_solver.
Qed.

Lemma current_drop x u p s : current_ok x (set_unreplayable u (set_pending p (set_entry None s))).
Proof. by split. Qed.

Lemma forget_ok s : sound None s → ok (forget s).
Proof. intros Hs. split; [by apply sound_drop|by apply current_drop]. Qed.

Lemma done_ok p w s : sound (Some p) s → current_ok (Some p) s → (w = Rejected ∨ ∃ b, w = Served b) → ok (at_ p w s).
Proof.
  intros Hs Hc Hw. split; [|by apply current_at]. apply sound_at; [done| |].
  - by destruct Hw as [->|[b ->]].
  - intros q w' _ _. by destruct Hw as [->|[b ->]]; intros [].
Qed.

Lemma fail_read_ok p found s : sound None s → current_ok (Some p) s → ok (fail_read p found s).
Proof.
  intros Hs Hc. unfold fail_read. destruct (decide (entry s = found)).
  - apply done_ok; [by apply sound_weaken, sound_drop|by apply current_drop|by left].
  - apply done_ok; [by apply sound_weaken|done|by left].
Qed.

Lemma since_of_app s from (b : nat) : (b < length (since s))%nat → default O ((since s ++ [from]) !! b) = since_of s (Some b).
Proof. intros Hb. cbn. by rewrite lookup_app_l. Qed.

(** The object of a listing, and the entry that has it. *)
Lemma listed_sound p e found start m s : ok s → pc s p = Some (Listing e found start) → listing_ok s start m →
  let s1 := set_heap (alter (with_backups (length (objects s))) e (heap s)) (new_object m start s) in
  sound (Some p) s1 ∧ current_ok (Some p) s1 ∧ process_ok s1 p (HasRead (Some (length (objects s)))).
Proof.
  intros [Hso [Hc1 Hc2]] Hp [Hw Hf] s1. pose proof Hso as [H1 H2 H3 H4 H5 H6 H7 H8 H9]. set (b := length (objects s)).
  destruct (H1 p _ ltac:(done) Hp) as ((en & Hen & Hnone) & Hpend & Hst). cbn in *.
  assert (∀ q w, Some q ≠ Some p → pc s q = Some w → busy w ≠ Some e) as Hother.
  { intros q w Hq Hw' E. apply Hq. f_equal. apply (H2 q p w (Listing e found start)); [done|done|done|done|done|by eexists]. }
  assert (∀ e', e' ≠ e → heap s1 !! e' = heap s !! e') as Hheap by (intros e' Hne; cbn; by rewrite list_lookup_alter_ne).
  assert (heap s1 !! e = Some (with_backups b en)) as He by (cbn; by rewrite list_lookup_alter_eq, Hen).
  assert (∀ b', is_Some (objects s !! b') → is_Some (objects s1 !! b') ∧ b' ≠ b ∧ since_of s1 (Some b') = since_of s (Some b')) as Hobj.
  { intros b' [x Hx]. pose proof (lookup_lt_Some _ _ _ Hx). split; [exists x; by apply lookup_app_l_Some|].
    split; [unfold b; lia|]. apply (since_of_app s start). lia. }
  assert (objects s1 !! b = Some m) as Hb by (cbn; by rewrite lookup_app_r, Nat.sub_diag).
  assert (since s1 !! b = Some start) as Hsb by (cbn; unfold b; by rewrite <- H6, lookup_app_r, Nat.sub_diag).
  split; [split; try done|split].
  - intros q w Hq Hw'. specialize (H1 q w ltac:(done) Hw'). specialize (Hother q w Hq Hw').
    destruct w as [e' g st|e' c a st bs|c|c|]; try done; cbn -[heap objects since_of s1] in *.
    + destruct H1 as ((en' & ? & ?) & ?). split; [|done]. exists en'. by rewrite Hheap by congruence.
    + destruct H1 as ((en' & c' & Hen' & -> & Hbb) & ? & ? & ? & ?). destruct (Hobj c') as (_ & _ & Hsin); [by apply (H4 e' en')|].
      split; [exists en', c'; by rewrite Hheap by congruence|]. rewrite Hsin. done.
    + destruct H1 as (c' & -> & Hc & Hown). destruct (Hobj c' Hc) as (? & ? & _). exists c'. split; [done|]. split; [done|].
      intros e' en' He' Hen' Hbb. destruct (decide (e' = e)) as [->|Hne].
      * rewrite He in Hen'. injection Hen' as <-. cbn in Hbb. congruence.
      * rewrite Hheap in Hen' by done. by apply (Hown e' en').
  - intros q q' w w' _ _. by apply H2.
  - intros e' [en' He']%H3. destruct (decide (e' = e)) as [->|Hne]; [by eexists|]. rewrite Hheap by done. by eexists.
  - intros e' en' c. destruct (decide (e' = e)) as [->|Hne].
    + rewrite He. intros [= <-] [= <-]. by eexists.
    + rewrite Hheap by done. intros Hen' Hc. by apply Hobj, (H4 e' en').
  - intros e1 e2 en1 en2 c. destruct (decide (e1 = e)) as [->|Hne1], (decide (e2 = e)) as [->|Hne2]; [done| | |].
    + rewrite He, (Hheap e2) by done. intros [= <-] Hen2 [= <-] Hc. by destruct (Hobj b) as (_ & ? & _); [apply (H4 e2 en2)|].
    + rewrite He, (Hheap e1) by done. intros Hen1 [= <-] Hc [= <-]. by destruct (Hobj b) as (_ & ? & _); [apply (H4 e1 en1)|].
    + rewrite !Hheap by done. apply H5.
  - cbn. rewrite !length_app, H6. done.
  - intros c x k Hx Hk. destruct (decide (c = b)) as [->|Hne].
    + rewrite Hb in Hx. rewrite Hsb in Hk. injection Hx as <-. injection Hk as <-. done.
    + cbn in Hx, Hk. apply lookup_app_Some in Hx as [Hx|[Hl Hx]].
      * apply lookup_app_Some in Hk as [Hk|[Hl _]]; [by apply (H7 c)|]. apply lookup_lt_Some in Hx. lia.
      * destruct (c - length (objects s))%nat eqn:E; [|done]. exfalso. apply Hne. unfold b. lia.
  - split.
    + intros e' en' He' Hen' Hn. destruct (decide (e' = e)) as [->|Hne]; [rewrite He in Hen'; by injection Hen' as <-|].
      rewrite Hheap in Hen' by done. destruct (Hc1 e' en' He' Hen' Hn) as (q & w & _ & ? & Hq & Hl). exists q, w. split; [|done].
      intros [= ->]. rewrite Hp in Hq. injection Hq as <-. by apply Hne.
    + intros e' en' He' Hen' Hn. destruct (decide (e' = e)) as [->|Hne].
      * rewrite He in Hen'. injection Hen' as <-. left. exists b. split; [done|]. cbn -[s1]. change (since s ++ [start]) with (since s1). rewrite Hsb. cbn.
        destruct (Hc2 e en He' Hen Hn) as [(b' & ? & _)|(q & w & _ & Hq & Hbusy & Hlast)]; [congruence|].
        assert (q = p) as ->. { apply (H2 q p w (Listing e found start)); [done|done|done|done|done|by rewrite Hbusy; eexists]. }
        rewrite Hp in Hq. by injection Hq as <-.
      * rewrite Hheap in Hen' by done. destruct (Hc2 e' en' He' Hen' Hn) as [(c & Hc & Hl)|(q & w & _ & Hq & Hbusy & Hlast)].
        -- left. exists c. split; [done|]. destruct (Hobj c) as (_ & _ & ->); [by apply (H4 e' en')|done].
        -- right. exists q, w. split; [|done]. intros [= ->]. rewrite Hp in Hq. injection Hq as <-. cbn in Hbusy. congruence.
  - exists b. split; [done|]. split; [by exists m|]. intros e' en' He' Hen' Hbb. destruct (decide (e' = e)) as [->|Hne]; [by apply Hpend|].
    rewrite Hheap in Hen' by done. by destruct (Hobj b) as (_ & ? & _); [apply (H4 e' en')|].
Qed.

(** What is announced does not matter here. *)
Lemma sound_announced x a changes s : sound x s → sound x (set_announced a changes s).
Proof. intros []. by split. Qed.
Lemma current_announced x a changes s : current_ok x s → current_ok x (set_announced a changes s).
Proof. intros []. by split. Qed.

Lemma listed_ok p answer s : step_ok s (Listed p answer) → ok s → ok (listed p answer s).
Proof.
  cbn. unfold listed. change (where_ <$> processes s !! p) with (pc s p).
  destruct (pc s p) as [[e found start| | | |]|] eqn:Hp; intros Hok Hs; try done. destruct answer as [m|].
  - destruct (listed_sound p e found start m s Hs Hp Hok) as (Hso & Hcu & Hpr). set (s1 := set_heap _ (new_object m start s)) in *.
    assert (∀ q w', q ≠ p → pc s q = Some w' → is_Some (busy (HasRead (Some (length (objects s))))) → busy w' ≠ busy (HasRead (Some (length (objects s))))) as Hb by (intros ???? []; done).
    destruct (decide (entry s1 = Some e)); (split; [apply sound_at; [by try apply sound_announced|done|intros ???? []; done]|apply current_at; by try apply current_announced]).
  - destruct Hs as [Hso Hcu]. destruct (decide (entry s = Some e)) as [He|He].
    + apply fail_read_ok.
      * exact (sound_drop None (unreplayable s) (pending s) s Hso).
      * exact (current_drop (Some p) (unreplayable s) (pending s) s).
    + apply fail_read_ok; [done|]. apply current_weaken; [|done]. intros e' w He' Hw E. rewrite Hp in Hw. injection Hw as <-. cbn in E. congruence.
Qed.

Lemma was_functional s i f v v' : was s i f v → was s i f v' → v = v'.
Proof. intros (c & Hc & <-) (c' & Hc' & <-). congruence. Qed.

(** The events make what was fresh from the last read fresh from the beginning of this one. *)
Lemma replay_fresh s m events start base : wf_listing m → events_ok s start base events → fresh_from s base m →
  fresh_from s start (applyEvents m events).1.
Proof.
  intros Hw (Hd & Hev & Hval & Hno) Hf f. destruct (shows_exists m Hw) as [v Hv].
  pose proof (applyEvents_ok events m v Hw Hd Hev Hv) as Ha. destruct (applyEvents m events) as [m' changes].
  destruct Ha as (_ & _ & Hin & Hout). cbn. destruct (decide (f ∈ map event_key events)) as [(e & -> & He)%list_elem_of_fmap|Hn].
  - rewrite (Hin e He). by apply Hval.
  - rewrite (Hout f Hn). destruct (Hno f Hn) as (i & v' & Hi & Hv' & Hsame). destruct (Hf f) as (j & Hj & Hwas).
    destruct (decide (j ≤ i)%nat) as [Hle|Hgt]; [|exists j; split; [lia|done]].
    exists i. split; [done|]. rewrite (was_functional s j f _ v' Hwas); [done|]. apply Hsame. lia.
Qed.

Lemma current_alter x f e s : (∀ en, backupsByVm (f en) = backupsByVm en ∧ stale (f en) = stale en) →
  current_ok x s → current_ok x (set_heap (alter f e (heap s)) s).
Proof.
  intros Hf [H1 H2]. split; intros e' en He (en' & Hen' & Hcase)%lookup_alter_heap.
  - intros Hb. apply (H1 e' en' He Hen'). destruct Hcase as [[_ ->]|[_ ->]]; [by rewrite (proj1 (Hf en')) in Hb|done].
  - intros Hst. destruct (H2 e' en' He Hen') as [(b & Hb & Hl)|?]; [|left|by right].
    + destruct Hcase as [[_ ->]|[_ ->]]; [by rewrite (proj2 (Hf en')) in Hst|done].
    + exists b. split; [|done]. destruct Hcase as [[_ ->]|[_ ->]]; [by rewrite (proj1 (Hf en'))|done].
Qed.

Lemma since_object s b m from c : since_of (set_object b m from s) (Some c) =
  if decide (c = b) then (match since s !! b with Some k => Nat.max from k | None => O end) else since_of s (Some c).
Proof.
  cbn. destruct (decide (c = b)) as [->|Hne]; [rewrite list_lookup_alter_eq; by destruct (since s !! b)|by rewrite list_lookup_alter_ne].
Qed.

Section replay.
Context (s : State) (p e b start base : nat) (refreshed : Z) (m : BackupsByVm) (events : list JournalEvent).
Context (Hs : ok s) (Hp : pc s p = Some (ReadingJournal e (Some b) refreshed start base)) (Hm : objects s !! b = Some m).
Context (Hw : wf_listing m) (Hev : events_ok s start base events).

Let s1 := set_object b (applyEvents m events).1 start s.

Lemma replay_entry : (∃ en, heap s !! e = Some en ∧ backupsByVm en = Some b) ∧ (entry s = Some e → pending s = Some p) ∧
  (start ≤ version s)%nat ∧ since s !! b = Some base ∧ (base ≤ start)%nat.
Proof.
  destruct Hs as [Hso _]. destruct (so_process _ _ Hso p _ ltac:(done) Hp) as ((en & b' & Hen & [= <-] & Hb) & ? & ? & Hbase & ?).
  split; [by exists en|]. split; [done|]. split; [done|]. split; [|done]. cbn in Hbase.
  destruct (since s !! b) as [k|] eqn:E; [by subst|]. apply lookup_ge_None_1 in E. rewrite (so_length _ _ Hso) in E.
  apply lookup_lt_Some in Hm. lia.
Qed.

Lemma replay_other q w : q ≠ p → pc s q = Some w → busy w ≠ Some e.
Proof. intros Hq Hw' E. destruct Hs as [Hso _]. apply Hq. by apply (so_busy _ _ Hso q p w _ ltac:(done) ltac:(done) Hw' Hp). Qed.

Lemma replay_sound : sound (Some p) s1.
Proof.
  destruct replay_entry as ((en & Hen & Hb) & Hpend & Hst & Hsince & Hle). pose proof (proj1 Hs) as [H1 H2 H3 H4 H5 H6 H7 H8 H9].
  assert (∀ c, is_Some (objects s !! c) → is_Some (objects s1 !! c)) as Hobj.
  { intros c Hc. apply lookup_lt_is_Some. cbn. rewrite length_insert. by apply lookup_lt_is_Some. }
  split; try done.
  - intros q w Hq Hw'. assert (busy w ≠ Some e) as Hother by (apply (replay_other q w); [congruence|done]). specialize (H1 q w ltac:(done) Hw').
    destruct w as [e' g st|e' c a st bs|c|c|]; try done; cbn -[s1 since_of] in *.
    + destruct H1 as ((en' & c' & Hen' & -> & Hc) & ? & ? & Hbs & ?). split; [by exists en', c'|]. split; [done|]. split; [done|].
      unfold s1. rewrite since_object, decide_False; [done|]. intros ->. assert (e' = e) as -> by by apply (H5 e' e en' en b). done.
    + destruct H1 as (c' & -> & Hc & Hown). exists c'. split; [done|]. split; [by apply Hobj|done].
  - intros q q' w w' _ _. by apply H2.
  - intros e' en' c Hen' Hc. by apply Hobj, (H4 e' en').
  - cbn. rewrite length_alter, length_insert. done.
  - intros c x k Hx Hk. cbn in Hx, Hk. destruct (decide (c = b)) as [->|Hne].
    + rewrite list_lookup_insert_eq in Hx by (by eapply lookup_lt_Some). injection Hx as <-.
      rewrite list_lookup_alter_eq, Hsince in Hk. injection Hk as <-. rewrite Nat.max_l by done. split; [done|].
      apply (replay_fresh s m events start base Hw Hev). by apply (H7 b).
    + rewrite list_lookup_insert_ne in Hx by done. rewrite list_lookup_alter_ne in Hk by done. by apply (H7 c).
Qed.

Lemma replay_current : current_ok (Some p) s1.
Proof.
  destruct replay_entry as ((en & Hen & Hb) & Hpend & Hst & Hsince & Hle). pose proof (proj2 Hs) as [H1 H2].
  assert (∀ c, (since_of s (Some c) ≤ since_of s1 (Some c))%nat) as Hmono.
  { intros c. unfold s1. rewrite since_object. destruct (decide (c = b)) as [->|]; [|done]. cbn. rewrite Hsince. cbn. lia. }
  split.
  - intros e' en' He' Hen' Hn. destruct (H1 e' en' He' Hen' Hn) as (q & w & _ & ? & Hq & Hl). exists q, w. split; [|done].
    intros [= ->]. rewrite Hp in Hq. injection Hq as <-. done.
  - intros e' en' He' Hen' Hn. destruct (H2 e' en' He' Hen' Hn) as [(c & Hc & Hl)|(q & w & _ & Hq & Hbusy & Hlast)].
    + left. exists c. split; [done|]. etrans; [exact Hl|apply Hmono].
    + destruct (decide (q = p)) as [->|Hne].
      * left. rewrite Hp in Hq. injection Hq as <-. injection Hbusy as <-. cbn in Hen'. rewrite Hen in Hen'. injection Hen' as <-.
        exists b. split; [done|]. unfold s1. rewrite since_object, decide_True, Hsince by done. cbn in *. lia.
      * right. exists q, w. split; [congruence|done].
Qed.

Lemma replay_process : process_ok s1 p (HasRead (Some b)).
Proof.
  destruct replay_entry as ((en & Hen & Hb) & Hpend & _). exists b. split; [done|]. split.
  - apply lookup_lt_is_Some. cbn. rewrite length_insert. by eapply lookup_lt_Some.
  - intros e' en' He' Hen' Hc. apply Hpend. rewrite <- (so_owner _ _ (proj1 Hs) e' e en' en b Hen' Hen Hc Hb). done.
Qed.
End replay.

Lemma sound_unreplayable x u s : sound x s → sound x (set_unreplayable u s).
Proof. intros []. by split. Qed.
Lemma current_unreplayable x u s : current_ok x s → current_ok x (set_unreplayable u s).
Proof. intros []. by split. Qed.

Lemma journal_read_ok p answer now s :
  step_ok s (JournalRead p answer now) → timely s (JournalRead p answer now) → following s → ok s → ok (journal_read p answer now s).
Proof.
  cbn. unfold journal_read, pc. destruct (processes s !! p) as [[r n w]|] eqn:Ep; [|done]. cbn.
  destruct w as [|e b refreshed start base| | |]; try done. intros Hok Ht Hfol Hs.
  assert (pc s p = Some (ReadingJournal e b refreshed start base)) as Hp by (unfold pc; by rewrite Ep).
  destruct (so_process _ _ (proj1 Hs) p _ ltac:(done) Hp) as ((en & b' & Hen & -> & Hb) & Hpend & _).
  destruct (so_objects _ _ (proj1 Hs) e en b' Hen Hb) as [m Hm]. destruct answer as [[[events cursor]|]|].
  - set (s0 := if decide (entry s = Some e) then set_unreplayable false s else s).
    assert (ok s0 ∧ pc s0 p = pc s p ∧ objects s0 = objects s ∧ events_ok s0 start base events) as (Hs0 & Hp0 & Ho0 & Hev).
    { unfold s0. destruct (decide _); [|done]. split; [|done]. split; [by apply sound_unreplayable, Hs|by apply current_unreplayable, Hs]. }
    cbn. rewrite Ho0, Hm. rewrite Hp in Hp0. rewrite <- Ho0 in Hm.
    assert (wf_listing m) as Hw by (apply (fo_objects s Hfol b'); by rewrite <- Ho0).
    pose proof (replay_sound s0 p e b' start base refreshed m events Hs0 Hp0 Hm Hw Hev) as H1.
    pose proof (replay_current s0 p e b' start base refreshed m events Hs0 Hp0 Hm Hev) as H2.
    pose proof (replay_process s0 p e b' start base refreshed m events Hs0 Hp0 Hm Hev) as H3.
    assert (heap s0 !! e = Some en) as Hen0 by (unfold s0; by destruct (decide _)).
    destruct (applyEvents m events) as [m' changes]. cbn in *. rewrite Hen0, Hb.
    set (s1 := set_announced _ _ (set_object b' m' start s0)). split.
    + apply sound_at; [exact (sound_alter (Some p) (with_cursor cursor refreshed) e s1 (λ _, eq_refl) (sound_announced _ _ _ _ H1))| |by intros ???? []].
      destruct H3 as (c & [= <-] & Hc & Hown). exists b'. split; [done|]. split; [done|].
      intros e' en' He' (en1 & Hen1 & Hcase)%lookup_alter_heap Hbb. apply (Hown e' en1 He' Hen1). by destruct Hcase as [[_ ->]|[_ ->]].
    + apply current_at. exact (current_alter (Some p) (with_cursor cursor refreshed) e s1 (λ _, conj eq_refl eq_refl) (current_announced _ _ _ _ H2)).
  - rewrite decide_True by done. apply start_build_ok.
    + by apply sound_unreplayable, sound_weaken, Hs.
    + by apply Hpend.
    + unfold pc. cbn. by rewrite Ep.
  - destruct (decide (entry s = Some e)) as [He|He].
    + unfold fail_read. rewrite decide_True by done. apply done_ok; [by apply sound_weaken, sound_drop, Hs|by apply current_drop|by left].
    + apply fail_read_ok; [by apply Hs|]. apply current_weaken; [|by apply Hs]. intros e' w He' Hw E. rewrite Hp in Hw. injection Hw as <-.
      cbn in E. congruence.
Qed.

Lemma idle_weaken p s : (∀ w, pc s p = Some w → busy w = None) → current_ok None s → current_ok (Some p) s.
Proof. intros Hp. apply current_weaken. intros e w _ Hw E. rewrite (Hp w Hw) in E. done. Qed.

Lemma next_read_ok p s : sound (Some p) s → current_ok (Some p) s → sound (Some p) (next_read p s) ∧ current_ok (Some p) (next_read p s).
Proof.
  assert (∀ q, pc (next_read p s) q = pc s q) as Hpc.
  { intros q. unfold pc, next_read. cbn. destruct (decide (q = p)) as [->|]; [|by rewrite list_lookup_alter_ne].
    rewrite list_lookup_alter_eq. by destruct (processes s !! p). }
  intros [H1 H2 H3 H4 H5 H6 H7 H8 H9] [H10 H11]. split; split; try done.
  - intros q w Hq. rewrite Hpc. by apply H1.
  - intros q q' w w' Hq Hq'. rewrite !Hpc. by apply H2.
  - intros e en He Hen Hb. destruct (H10 e en He Hen Hb) as (q & w & ? & ? & ? & ?). exists q, w. by rewrite Hpc.
  - intros e en He Hen Hb. destruct (H11 e en He Hen Hb) as [?|(q & w & ? & ? & ?)]; [by left|]. right. exists q, w. by rewrite Hpc.
Qed.

Lemma check_read_ok p now s : ok s → ok (check_read p now s).
Proof.
  intros Hs. unfold check_read. destruct (processes s !! p) as [[r n w]|] eqn:Ep; [|done]. destruct w as [| |b| |]; try done.
  assert (pc s p = Some (HasRead b)) as Hp by (unfold pc; by rewrite Ep).
  assert (sound (Some p) s) as Hso by (apply sound_weaken, Hs).
  assert (current_ok (Some p) s) as Hcu by (apply idle_weaken; [intros w; rewrite Hp; by intros [= <-]|apply Hs]).
  destruct (current_entry s) as [en|] eqn:Hcur; [|apply done_ok; [done|done|]; destruct (decide _); [by left|right; by eexists]].
  destruct (_ || _) eqn:E; [apply done_ok; [done|done|right; by eexists]|].
  repeat (apply orb_false_iff in E as [E _]). apply bool_decide_eq_false, dec_stable in E.
  destruct (next_read_ok p s Hso Hcu) as [Hso' Hcu'].
  destruct (so_process _ _ (proj1 Hs) p _ ltac:(done) Hp) as (b' & -> & _ & Hown).
  apply start_read_ok; [done|done| |].
  - unfold current_entry in Hcur. destruct (entry s) as [e|] eqn:He; [|done]. by apply (Hown e en).
  - unfold pc. cbn. rewrite list_lookup_alter_eq, Ep. done.
Qed.

Lemma settle_ok p s : ok s → ok (settle p s).
Proof.
  intros Hs. pose proof Hs as [Hso Hcu]. unfold settle. change (where_ <$> processes s !! p) with (pc s p).
  destruct (pc s p) as [w|] eqn:Hp; [|done]. assert (busy w = None → (∀ b, w ≠ HasRead b) → pending s = Some p → ok (set_pending None s)) as Hset.
  { intros Hb Hh Hpend. split.
    - destruct Hso as [H1 H2 H3 H4 H5 H6 H7 H8 H9]. split; try done. intros q w' Hq Hw. change (pc s q = Some w') in Hw. specialize (H1 q w' Hq Hw).
      assert (pending s = Some q → q = p) as Heq by congruence.
      destruct w' as [e' g st|e' c a st bs|c|c|]; cbn in *; try done.
      + destruct H1 as (? & Hc & ?). split; [done|]. split; [|done]. intros He. specialize (Hc He). rewrite (Heq Hc), Hp in Hw. by injection Hw as ->.
      + destruct H1 as (? & Hc & ?). split; [done|]. split; [|done]. intros He. specialize (Hc He). rewrite (Heq Hc), Hp in Hw. by injection Hw as ->.
      + destruct H1 as (c' & ? & ? & Hc). exists c'. split; [done|]. split; [done|]. intros e en He Hen Hbb. specialize (Hc e en He Hen Hbb).
        rewrite (Heq Hc), Hp in Hw. injection Hw as ->. by destruct (Hh c).
    - destruct Hcu as [H1 H2]. split; [|done]. intros e en He Hen Hn. destruct (H1 e en He Hen Hn) as (q & w' & ? & Hq & Hw & Hl).
      assert (q = p) as -> by congruence. rewrite Hp in Hw. injection Hw as ->. by destruct w'. }
  destruct w; try done; destruct (decide _); try done; by apply Hset.
Qed.

Lemma refresh_ok s : ok s → ok (refresh s).
Proof.
  intros [Hso Hcu]. unfold refresh. destruct (entry s) as [e|] eqn:He; [|done]. rewrite <- He.
  pose proof (sound_alter None (with_stale true) e s ltac:(done) Hso) as [H1 H2 H3 H4 H5 H6 H7 H8 H9]. split; [split; try done; cbn; lia|].
  destruct Hcu as [H10 H11]. split.
  - intros e' en He' (en' & Hen' & Hcase)%lookup_alter_heap Hn. cbn in He'. apply (H10 e' en'); [congruence|done|].
    by destruct Hcase as [[_ ->]|[_ ->]].
  - intros e' en He' (en' & Hen' & [[_ ->]|[Hne ->]])%lookup_alter_heap Hst; [done|]. cbn in He'. congruence.
Qed.

Lemma mutate_ok c s : ok s → ok (mutate c s).
Proof.
  intros [Hso Hcu].
  assert (version (mutate c s) = S (version s)) as Hv.
  { unfold version. cbn. rewrite length_app. cbn. pose proof (so_history _ _ Hso). destruct (history s); [done|]. cbn. lia. }
  destruct Hso as [H1 H2 H3 H4 H5 H6 H7 H8 H9]. split.
  - split; try done.
    + intros p w Hp Hw. specialize (H1 p w Hp Hw). destruct w; cbn -[version] in *; try done; rewrite ?Hv; naive_solver lia.
    + intros b m k Hm Hk. destruct (H7 b m k Hm Hk) as [Hkv Hf]. split; [lia|]. intros f. destruct (Hf f) as (i & Hi & x & Hx & Hxf).
      exists i. split; [done|]. exists x. split; [|done]. by apply lookup_app_l_Some.
    + rewrite Hv. cbn. lia.
    + cbn. by destruct (history s).
  - destruct Hcu. by split.
Qed.

Lemma ok_step e s : step_ok s e → timely s e → following s → ok s → ok (step e s).
Proof.
  intros Hok Ht Hf Hs. destruct e as [c|r now|r now|p a|p a now|p now|p| | |]; cbn [step].
  - by apply mutate_ok.
  - by apply get_ok.
  - unfold getOneVm. destruct (_ || _); [by apply get_ok|done].
  - by apply listed_ok.
  - by apply journal_read_ok.
  - by apply check_read_ok.
  - by apply settle_ok.
  - by apply refresh_ok.
  - apply forget_ok, Hs.
  - unfold remove. destruct (object s (announced s)); [|apply forget_ok, Hs]. destruct (forget_ok s (proj1 Hs)) as [H1 H2].
    split; [by apply sound_announced|by apply current_announced].
Qed.

Lemma timely_is_reachable c s : timely_reachable c s → reachable c s.
Proof. induction 1; [constructor|by constructor]. Qed.

Lemma timely_ok c s : timely_reachable c s → ok s.
Proof.
  induction 1 as [|s e Hr IH Hok Ht].
  - split; [|by split]. split; try done; cbn; lia.
  - apply ok_step; [done|done| |done]. by eapply reachable_following, timely_is_reachable.
Qed.

(** Why a [get] may serve something older than the last refresh. *)
Definition kept_stale (s : State) (n : nat) (now : Z) (b : nat) : Prop :=
  ∃ en, current_entry s = Some en ∧ stale en = true ∧
    (unreplayable s = true ∨ rebuildInterval en ≤ now - builtAt en ∨ (MAX_REFRESH_READS ≤ n)%nat).

Lemma current_fresh c s p r n b en : timely_reachable c s → processes s !! p = Some (mkProcess r n (HasRead (Some b))) →
  current_entry s = Some en → backupsByVm en = Some b → stale en = false → (lastRefresh s ≤ since_of s (Some b))%nat.
Proof.
  intros Hr Hp Hcur Hb Hst. destruct (timely_ok c s Hr) as [Hso [_ Hcu]]. unfold current_entry in Hcur.
  destruct (entry s) as [e|] eqn:He; [|done]. destruct (Hcu e en eq_refl Hcur Hst) as [(b' & Hb' & ?)|(q & w & _ & Hq & Hbusy & _)]; [congruence|].
  assert (pc s p = Some (HasRead (Some b))) as Hpc by (unfold pc; by rewrite Hp).
  destruct (so_process _ _ Hso p _ ltac:(done) Hpc) as (b' & [= <-] & _ & Hown). specialize (Hown e en He Hcur Hb).
  pose proof (so_process _ _ Hso q w ltac:(done) Hq) as Hok.
  assert (pending s = Some q) as Hq' by (destruct w; cbn in Hbusy, Hok; simplify_eq; by apply Hok).
  assert (q = p) as -> by congruence. rewrite Hpc in Hq. injection Hq as <-. done.
Qed.

Lemma start_read_pc p r now s : is_Some (pc s p) → (∀ e, entry s = Some e → is_Some (heap s !! e)) →
  ∃ w, pc (start_read p r now s) p = Some w ∧ w ≠ Rejected ∧ ∀ b, w ≠ Served b.
Proof.
  intros [w0 Hw0] He. unfold start_read. destruct (entry s) as [e|]; [destruct (He e eq_refl) as [en ->]; destruct (negb _ || _); [|destruct (stale en || _)]|];
    unfold start_build; rewrite pc_at, decide_True by done; change (pc (set_entry _ _) p) with (pc s p) || change (pc (set_heap _ s) p) with (pc s p) || idtac;
    rewrite Hw0; by eexists.
Qed.

(** C7: A [get] serves an object, each backup of which is as it was after the last
    refresh, unless the cache was told to forget it meanwhile, or it stays marked as stale
    because it would have to be listed again or was read three times; and it never fails
    by itself.

    This is so in any interleaving where the source tells the changes: a listing or a read
    of the journal gives each backup as it was at some time since it began, and a change
    that the cache does not have has an event ([step_ok]: a change that is in no entry is
    not seen before the next listing); and where the answer that a repository has no journal
    comes before the cache is told to forget the repository ([timely]: otherwise [undefined]
    can be served, see [undefined_is_served]). *)
Theorem get_serves_fresh c s p r n b now :
  timely_reachable c s → processes s !! p = Some (mkProcess r n (HasRead b)) →
  match pc (check_read p now s) p with
  | Some (Served b') =>
      ∃ o m, b' = Some o ∧ objects s !! o = Some m ∧ fresh_from s (since_of s (Some o)) m ∧
        (fresh_from s (lastRefresh s) m ∨
         (∀ en, current_entry s = Some en → backupsByVm en ≠ Some o) ∨ kept_stale s n now o)
  | Some Rejected | None => False
  | Some _ => True
  end.
Proof.
  intros Hr Hp. destruct (timely_ok c s Hr) as [Hso Hcu]. assert (pc s p = Some (HasRead b)) as Hpc by (unfold pc; by rewrite Hp).
  destruct (so_process _ _ Hso p _ ltac:(done) Hpc) as (o & -> & [m Hm] & Hown).
  assert (fresh_from s (since_of s (Some o)) m) as Hf.
  { destruct (since s !! o) as [k|] eqn:E; [cbn; rewrite E; by apply (so_since _ _ Hso o)|].
    apply lookup_ge_None_1 in E. rewrite (so_length _ _ Hso) in E. apply lookup_lt_Some in Hm. lia. }
  unfold check_read. rewrite Hp. destruct (current_entry s) as [en|] eqn:Hcur.
  - destruct (_ || _) eqn:E.
    + rewrite pc_at, decide_True, Hpc by done. cbn. exists o, m. split; [done|]. split; [done|]. split; [done|].
      destruct (decide (backupsByVm en = Some o)) as [Hb|Hb]; [|by right; left; intros ? [= <-]].
      destruct (stale en) eqn:Hst.
      * right. right. exists en. split; [done|]. split; [done|]. rewrite bool_decide_false in E by (by intros ?). cbn [orb negb] in E.
        apply orb_true_iff in E as [[?|?%Z.leb_le]%orb_true_iff|?%Nat.leb_le]; auto.
      * left. intros f. destruct (Hf f) as (i & Hi & ?). exists i. split; [|done]. etrans; [|exact Hi]. by eapply current_fresh.
    + destruct (start_read_pc p r now (next_read p s)) as (w & -> & Hw & Hw').
      { unfold pc. cbn. rewrite list_lookup_alter_eq, Hp. by eexists. }
      { apply (so_entry _ _ Hso). }
      destruct w; try done. by destruct (Hw' b).
  - rewrite decide_False by done. rewrite pc_at, decide_True, Hpc by done. cbn. exists o, m. split; [done|]. split; [done|]. split; [done|]. right. by left.
Qed.

(** ** The number of reads *)

Definition few (s : State) : Prop := Forall (λ x, (nReads x ≤ MAX_REFRESH_READS)%nat) (processes s).

Lemma few_at p w s : few s → few (at_ p w s).
Proof. intros Hf. apply Forall_alter; [exact Hf|]. by intros. Qed.

Lemma few_start_read p r now s : few s → few (start_read p r now s).
Proof.
  intros Hf. unfold start_read, start_build. destruct (entry s) as [e|]; [|by apply few_at]. destruct (heap s !! e) as [en|]; [|done].
  destruct (negb _ || _); [by apply few_at|]. by destruct (stale en || _); apply few_at.
Qed.

Lemma few_get r now s : few s → few (get r now s).
Proof.
  intros Hf. unfold get. destruct (pending s); [done|]. apply few_start_read. unfold few. cbn. apply Forall_app.
  split; [done|]. constructor; [cbn; unfold MAX_REFRESH_READS; lia|constructor].
Qed.

Lemma few_fail_read p found s : few s → few (fail_read p found s).
Proof. intros Hf. apply few_at. by destruct (decide _). Qed.

Lemma few_step e s : few s → few (step e s).
Proof.
  intros Hf. destruct e as [c|r now|r now|p a|p a now|p now|p| | |]; cbn [step]; try done.
  - by apply few_get.
  - unfold getOneVm. destruct (_ || _); [by apply few_get|done].
  - unfold listed. destruct (where_ <$> _) as [[]|]; try done. destruct a.
    + apply few_at. by destruct (decide _).
    + apply few_fail_read. by destruct (decide _).
  - unfold journal_read. destruct (processes s !! p) as [[r n [|e b refreshed start base| | |]]|]; try done.
    destruct a as [[[events cursor]|]|]; [| |by apply few_fail_read].
    + assert (few (if decide (entry s = Some e) then set_unreplayable false s else s)) as Hf' by by destruct (decide _).
      destruct b as [b|]; [|destruct events; [by apply few_at|by apply few_fail_read]].
      destruct (object _ _) as [m|]; [|destruct events; [by apply few_at|by apply few_fail_read]].
      destruct (applyEvents m events). by apply few_at.
    + apply few_at. by destruct (decide _).
  - unfold check_read. destruct (processes s !! p) as [[r n [| |b| |]]|] eqn:Ep; try done. destruct (current_entry s); [|by apply few_at].
    destruct (_ || _) eqn:E; [by apply few_at|]. apply orb_false_iff in E as [_ E%Nat.leb_gt]. apply few_start_read.
    unfold few, next_read. cbn. apply Forall_alter; [exact Hf|]. rewrite Ep. intros x [= <-] _. cbn. unfold MAX_REFRESH_READS in *. lia.
  - unfold settle. destruct (where_ <$> _) as [[]|]; try done; by destruct (decide _).
  - unfold refresh. by destruct (entry s).
  - unfold remove. by destruct (object s (announced s)).
Qed.

(** A call of [get] reads the repository at most three times. *)
Theorem reads_bounded c s : reachable c s → few s.
Proof. induction 1 as [|s e _ IH _]; [constructor|by apply few_step]. Qed.
End cache.

(** *** The collection of the archives *)

Lemma elem_of_archives announced a : a ∈ listArchives announced ↔
  ∃ r m vm f b, announced !! r = Some m ∧ lookup_backup m vm f = Some b ∧ a = archiveOf r b.
Proof.
  unfold listArchives. rewrite list_elem_of_bind. split.
  - intros ([r m] & Hin & Hm%elem_of_map_to_list). apply list_elem_of_bind in Hin as ([[vm f] b] & ->%list_elem_of_singleton & Hb).
    apply elem_of_all_backups in Hb. by exists r, m, vm, f, b.
  - intros (r & m & vm & f & b & Hm & Hb & ->). exists (r, m). split; [|by apply elem_of_map_to_list].
    apply list_elem_of_bind. exists (vm, f, b). split; [by left|by apply elem_of_all_backups].
Qed.

Lemma find_in_spec r i m a : find_in r i m = Some a → ∃ vm f b, lookup_backup m vm f = Some b ∧ a = archiveOf r b ∧ id a = i.
Proof.
  unfold find_in. destruct (List.filter _ _) as [|b l] eqn:E; [done|]. intros [= <-].
  assert (b ∈ b :: l) as Hb by by left. rewrite <- E in Hb. apply list_elem_of_In, filter_In in Hb as [Hb Hi%bool_decide_eq_true].
  apply list_elem_of_In, list_elem_of_fmap in Hb as ([[vm f] b'] & -> & Hin). apply elem_of_all_backups in Hin. by exists vm, f, b'.
Qed.

Lemma find_in_none r i m : find_in r i m = None → ∀ vm f b, lookup_backup m vm f = Some b → id (archiveOf r b) ≠ i.
Proof.
  unfold find_in. destruct (List.filter _ _) as [|b l] eqn:E; [|done]. intros _ vm f b Hb Hi.
  assert (b ∈ List.filter (λ b, bool_decide (r ++ [sep] ++ id b = i)) (map snd (all_backups m))) as Hin; [|by rewrite E in Hin; apply not_elem_of_nil in Hin].
  apply list_elem_of_In, filter_In. split; [|by apply bool_decide_eq_true]. apply list_elem_of_In.
  apply (list_elem_of_fmap_2 snd _ (vm, f, b)). by apply elem_of_all_backups.
Qed.

(** [first] gives an archive of [get] with this id, if there is one. *)
Theorem first_is_listed announced i :
  match findArchive announced i with
  | Some a => a ∈ listArchives announced ∧ id a = i
  | None => ∀ a, a ∈ listArchives announced → id a ≠ i
  end.
Proof.
  unfold findArchive. destruct (omap _ _) as [|a l] eqn:E; cbn.
  - intros a (r & m & vm & f & b & Hm & Hb & ->)%elem_of_archives. destruct (find_in r i m) as [x|] eqn:Ef; [|by eapply find_in_none]. assert (x ∈ omap (λ '(r, m), find_in r i m) (map_to_list announced)) as Hx.
    { apply list_elem_of_omap. exists (r, m). split; [by apply elem_of_map_to_list|done]. }
    rewrite E in Hx. by apply not_elem_of_nil in Hx.
  - assert (a ∈ a :: l) as Ha by by left. rewrite <- E in Ha. apply list_elem_of_omap in Ha as ([r m] & Hm%elem_of_map_to_list & Hf).
    destruct (find_in_spec r i m a Hf) as (vm & f & b & Hb & -> & Hi). split; [|done]. apply elem_of_archives. by exists r, m, vm, f, b.
Qed.

(** ** A repository *)

#[local] Existing Instance Journal.day_formats.

(** Decides a closed statement. *)
Ltac evaluate := cbv zeta; apply (bool_decide_unpack _); vm_compute; exact I.

Definition f1 : jstring := js "/xo-vm-backups/vm/1.json".
Definition backup_of_size (n : Z) : Backup :=
  mkBackup (js "remote") [] f1 None (js "job") (js "delta") (js "schedule") (Some n) 0 (mkVm (js "vm") [] [] []) [] None None false.
Definition content_of (b : Backup) : Backups := {[f1 := b]}.
Definition listing_of (b : Backup) : BackupsByVm := {[js "vm" := {[f1 := b]}]}.
Definition remote : Repository := mkRepository (js "remote") (js "file:///backups") None None.

Definition run (steps : list Step) (s : State) : State := foldl (λ s e, step (λ _, Absent) 60000 e s) s steps.

Definition listed_once : list Step := [Get remote 0; Listed 0 (Ok (listing_of (backup_of_size 1))); CheckRead 0 1; Settle 0].
Definition s0 : State := initial (content_of (backup_of_size 1)).

(** A backup changes, and the cache is told to look. *)
Definition changed : list Step :=
  listed_once ++ [Mutate (content_of (backup_of_size 2)); Refresh; Get remote 2;
    JournalRead 1 (Ok (Some ([Upserted (js "change") (js "vm") f1 (backup_of_size 2)], Some (js "/xo-backup-log/20260811/1")))) 2].

Example changed_is_announced :
  let s := run (changed ++ [CheckRead 1 3]) s0 in
  emitted s = [mkChange CAdd (backup_of_size 1); mkChange CUpdate (backup_of_size 2)]
  ∧ pc s 1 = Some (Served (Some 0%nat)) ∧ objects s = [listing_of (backup_of_size 2)].
Proof. evaluate. Qed.

Lemma lookup_listing b f : lookup_backup (listing_of b) (vm_of f) f = content_of b !! f.
Proof.
  unfold content_of, lookup_backup, listing_of. destruct (decide (f = f1)) as [->|Hne].
  - replace (vm_of f1) with (js "vm") by (vm_compute; reflexivity). by rewrite !lookup_singleton_eq.
  - rewrite (lookup_singleton_ne f1 f b) by done. destruct (decide (vm_of f = js "vm")) as [->|Hv].
    + rewrite lookup_singleton_eq. by apply lookup_singleton_ne.
    + by rewrite lookup_singleton_ne by done.
Qed.

Lemma listing_wf n : wf_listing (listing_of (backup_of_size n)).
Proof.
  split.
  - intros vm f b. unfold lookup_backup, listing_of. destruct (decide (vm = js "vm")) as [->|Hv]; [|by rewrite lookup_singleton_ne by done].
    rewrite lookup_singleton_eq. intros [<- <-]%lookup_singleton_Some. split; [done|vm_compute; reflexivity].
  - intros vm. unfold listing_of. intros [_ H]%lookup_singleton_Some. by apply (f_equal (lookup f1)) in H; rewrite lookup_singleton_eq in H.
Qed.

Fixpoint steps_ok (s : State) (steps : list Step) : Prop :=
  match steps with
  | [] => True
  | e :: steps => (step_ok s e ∧ timely s e) ∧ steps_ok (step (λ _, Absent) 60000 e s) steps
  end.

Lemma run_timely c steps s : timely_reachable (λ _, Absent) 60000 c s → steps_ok s steps → timely_reachable (λ _, Absent) 60000 c (run steps s).
Proof. revert s. induction steps as [|e steps IH]; intros s Hr Hok; [done|]. destruct Hok as [[??]?]. apply IH; [by constructor|done]. Qed.

Lemma first_listing s : pc s 0 = Some (Listing 0 None 0) ∧ history s = [content_of (backup_of_size 1)] →
  step_ok s (Listed 0 (Ok (listing_of (backup_of_size 1)))).
Proof.
  intros [E Hh]. unfold step_ok. change (where_ <$> processes s !! 0%nat) with (pc s 0). rewrite E.
  split; [apply listing_wf|]. intros f. exists 0%nat. split; [done|]. exists (content_of (backup_of_size 1)). rewrite Hh.
  split; [done|]. by rewrite lookup_listing.
Qed.

Lemma first_replay s cursor : pc s 1 = Some (ReadingJournal 0 (Some 0%nat) 2 1 0) ∧
    history s = [content_of (backup_of_size 1); content_of (backup_of_size 2)] →
  step_ok s (JournalRead 1 (Ok (Some ([Upserted (js "change") (js "vm") f1 (backup_of_size 2)], cursor))) 2).
Proof.
  intros [E Hh]. unfold step_ok. change (where_ <$> processes s !! 1%nat) with (pc s 1). rewrite E.
  split; [apply NoDup_singleton|]. split; [|split].
  - constructor; [|constructor]. split; vm_compute; reflexivity.
  - intros e ->%list_elem_of_singleton. exists 1%nat. split; [done|]. exists (content_of (backup_of_size 2)). rewrite Hh. split; [done|].
    apply lookup_singleton_eq.
  - intros f Hf. assert (f ≠ f1) as Hne by (intros ->; apply Hf; by left). exists 1%nat, None. split; [done|].
    split; [|intros j Hj; assert (j = 0%nat ∨ j = 1%nat) as [->| ->] by lia];
      eexists; rewrite Hh; (split; [done|by apply lookup_singleton_ne]).
Qed.

Lemma changed_timely : timely_reachable (λ _, Absent) 60000 (content_of (backup_of_size 1)) (run changed s0).
Proof.
  apply run_timely; [apply timely_initial|]. unfold changed, listed_once. cbn [app steps_ok].
  repeat (split; [split; [try exact I|exact I]|]); [| |exact I].
  - apply first_listing. evaluate.
  - apply first_replay. evaluate.
Qed.

Lemma get_serves_fresh_witness :
  let s := run changed s0 in
  ∃ o m, Some 0%nat = Some o ∧ objects s !! o = Some m ∧ fresh_from s (since_of s (Some o)) m ∧
    (fresh_from s (lastRefresh s) m ∨ (∀ en, current_entry s = Some en → backupsByVm en ≠ Some o) ∨ kept_stale s 1 3 o).
Proof.
  set (s := run changed s0). assert (pc (check_read (λ _, Absent) 60000 1 3 s) 1 = Some (Served (Some 0%nat))) as E by evaluate.
  pose proof (get_serves_fresh (λ _, Absent) 60000 (content_of (backup_of_size 1)) s 1 remote 1 (Some 0%nat) 3 changed_timely
    ltac:(evaluate)) as H. rewrite E in H. exact H.
Defined.

Lemma announcements_follow_witness :
  let s := run changed s0 in
  ∃ v, heard (Some ∅) (emitted s) = Some v ∧
    ∀ f, v !! f = match object s (announced s) with Some m => lookup_backup m (vm_of f) f | None => None end.
Proof.
  apply (announcements_follow (λ _, Absent) 60000 (content_of (backup_of_size 1))).
  apply timely_is_reachable, changed_timely.
Defined.

(** A repository behind a proxy that does not expose its journal is removed while it is
    read: it is listed again, and its archives are announced, for good. *)
Example removed_repository_returns :
  let s := run (listed_once ++ [Refresh; Get remote 2; Remove; JournalRead 1 (Ok None) 3; Listed 1 (Ok (listing_of (backup_of_size 1)))]) s0 in
  emitted s = [mkChange CAdd (backup_of_size 1); mkChange CRemove (backup_of_size 1); mkChange CAdd (backup_of_size 1)]
  ∧ announced s = Some 1%nat.
Proof. evaluate. Qed.

(** The cache is told to forget it meanwhile, and the next call finds an entry that is not
    listed yet: it is given [undefined]. *)
Example undefined_is_served :
  pc (run (listed_once ++ [Refresh; Get remote 2; Delete; JournalRead 1 (Ok None) 3; Get remote 4; CheckRead 2 5]) s0) 2
    = Some (Served None).
Proof. evaluate. Qed.
