(* ===== verification/Database.v ===== *)
(** * The database of the server: collections of models in Redis

    packages/xo-server/src/collection.mjs and collection/redis.mjs: the models of a
    namespace, their identifiers and their indexes, as keys of a Redis server.

    The server is an interface, [Redis], with what its documentation says of each
    command ([RedisLaws]); so are the encryption of the records ([Crypto], of which
    [CryptoCredentials.v] gives an instance) and the hooks of each class of models
    ([ModelClass]).  The calls of an operation that run concurrently are run in
    order; the identifiers and the random bytes that an operation draws come with its
    models.  A record is an object without undefined members. *)

From stdpp Require Import gmap sets list.
From S2P Require Import Prelude JsValues.

Local Open Scope Z_scope.

(** ** The Redis server *)

(** What a key holds: a string, a set or a hash.  A set that becomes empty is removed. *)
Inductive rvalue := RStr (s : jstring) | RSet (s : gset jstring) | RHash (fields : gmap jstring jstring).

Abbreviation keyspace := (gmap jstring rvalue).

Definition WRONGTYPE : error := OtherError "WRONGTYPE".

(** The members of the set at a key, and whether it can hold a set. *)
Definition members (v : keyspace) (k : jstring) : gset jstring :=
  match v !! k with Some (RSet s) => s | _ => ∅ end.
Definition set_at (v : keyspace) (k : jstring) : Prop :=
  match v !! k with None | Some (RSet _) => True | _ => False end.

Definition put_set (k : jstring) (s : gset jstring) (v : keyspace) : keyspace :=
  if decide (s = ∅) then delete k v else <[k := RSet s]> v.

Class Redis (R : Type) := {
  view : R → keyspace;
  redis_get : jstring → M R (option jstring);
  redis_set : jstring → jstring → M R unit;
  redis_mSet : list (jstring * jstring) → M R unit;
  redis_del : list jstring → M R unit;
  redis_keys : jstring → M R (list jstring);
  redis_sAdd : jstring → list jstring → M R Z;
  redis_sRem : jstring → list jstring → M R unit;
  redis_sMembers : jstring → M R (list jstring);
  redis_sIsMember : jstring → jstring → M R bool;
  redis_sInter : list jstring → M R (list jstring);
  redis_hGetAll : jstring → M R (gmap jstring jstring);
}.

(** [m] returns [a], and the keys become [v]. *)
Definition does {R A} `{Redis R} (m : M R A) (r : R) (a : A) (v : keyspace) : Prop :=
  ∃ r', m r = (Ok a, r') ∧ view r' = v.

(** [redis_keys p] is [KEYS p*]; the prefix has no special character. *)
Class RedisLaws (R : Type) `{Redis R} := {
  get_law k r :
    match view r !! k with
    | None => does (redis_get k) r None (view r)
    | Some (RStr s) => does (redis_get k) r (Some s) (view r)
    | Some _ => ∃ r', redis_get k r = (Throw WRONGTYPE, r') ∧ view r' = view r
    end;
  set_law k s r : does (redis_set k s) r tt (<[k := RStr s]> (view r));
  mSet_law l r : does (redis_mSet l) r tt (foldl (λ v x, <[x.1 := RStr x.2]> v) (view r) l);
  del_law ks r : ks ≠ [] → does (redis_del ks) r tt (foldr delete (view r) ks);
  keys_law p r : ∃ l, does (redis_keys p) r l (view r) ∧
    ∀ k, k ∈ l ↔ is_Some (view r !! k) ∧ startsWith p k = true;
  sAdd_law k xs r : set_at (view r) k → xs ≠ [] →
    does (redis_sAdd k xs) r (Z.of_nat (size (list_to_set xs ∖ members (view r) k)))
      (put_set k (members (view r) k ∪ list_to_set xs) (view r));
  sRem_law k xs r : set_at (view r) k → xs ≠ [] →
    does (redis_sRem k xs) r tt (put_set k (members (view r) k ∖ list_to_set xs) (view r));
  sMembers_law k r : set_at (view r) k → ∃ l,
    does (redis_sMembers k) r l (view r) ∧ NoDup l ∧ ∀ x, x ∈ l ↔ x ∈ members (view r) k;
  sIsMember_law k x r : set_at (view r) k →
    does (redis_sIsMember k x) r (bool_decide (x ∈ members (view r) k)) (view r);
  sInter_law ks r : (∀ k, k ∈ ks → set_at (view r) k) → ks ≠ [] → ∃ l,
    does (redis_sInter ks) r l (view r) ∧ NoDup l ∧ ∀ x, x ∈ l ↔ ∀ k, k ∈ ks → x ∈ members (view r) k;
  hGetAll_law k r : ∀ fields, view r !! k = Some (RHash fields) → does (redis_hGetAll k) r fields (view r);
}.

(** ** Values, records and encryption *)

(** A value of a record; of an array or an object, its JSON and what [String] gives. *)
Inductive value :=
  | Undefined
  | Null
  | Str (s : jstring)
  | Num (n : Z)
  | Bool (b : bool)
  | Nested (text string : jstring).

#[export] Instance value_eq_dec : EqDecision value.
Proof. solve_decision. Defined.

Abbreviation record := (gmap jstring value).

(** [String(value)] *)
Definition toString (v : value) : jstring :=
  match v with
  | Undefined => js "undefined"
  | Null => js "null"
  | Str s | Nested _ s => s
  | Num n => Z_digits n
  | Bool b => if b then js "true" else js "false"
  end.

(** How many bytes are drawn to encrypt a text. *)
Definition IV_LENGTH : nat := 12.

(** What the collections use of the credentials. *)
Record Crypto := mkCrypto {
  isDegraded : bool;
  hmacIndex : jstring → result jstring;
  encrypt : jstring → jstring → result jstring;
  decrypt : jstring → result jstring;
}.

(** When it is in use, the blind indexes are those of distinct values (HMAC has no
    collision) and what is encrypted is decrypted. *)
Record CryptoLaws (c : Crypto) := mkCryptoLaws {
  hmac_total s : ∃ h, hmacIndex c s = Ok h;
  hmac_inj s s' : hmacIndex c s = hmacIndex c s' → s = s';
  decrypt_encrypt iv s : length iv = IV_LENGTH → ∃ t, encrypt c iv s = Ok t ∧ decrypt c t = Ok s;
}.

(** [JSON.stringify] and [JSON.parse], over records. *)
Class Json := { stringify : record → jstring; parse : jstring → result record }.
Class JsonLaws `{Json} := { parse_stringify x : parse (stringify x) = Ok x }.

(** [asyncMapSettled]: every call is made, then the first error is thrown. *)
Fixpoint asyncMapSettled {S A B} (xs : list A) (f : A → M S B) : M S (list B) :=
  match xs with
  | [] => mret []
  | x :: xs => λ s,
      let '(y, s1) := f x s in
      let '(ys, s2) := asyncMapSettled xs f s1 in
      (match y, ys with
       | Ok y, Ok ys => Ok (y :: ys)
       | Throw e, _ => Throw e
       | Ok _, Throw e => Throw e
       end, s2)
  end.

(** ** Keys *)

Definition VERSION : jstring := js "20170905".

Definition prefix (namespace : jstring) : jstring := js "xo:" ++ namespace.

Definition ids_key (namespace : jstring) : jstring := prefix namespace ++ js "_ids".
Definition indexes_key (namespace : jstring) : jstring := prefix namespace ++ js "::indexes".
Definition version_key (namespace : jstring) : jstring := prefix namespace ++ js ":version".
Definition model_key (namespace id : jstring) : jstring := prefix namespace ++ js ":" ++ id.
Definition index_prefix (namespace index : jstring) : jstring := prefix namespace ++ js "_" ++ index ++ js ":".

(** A model to add, with its identifier if it has one; the identifier and the bytes that
    are drawn when it needs them. *)
Record Input (A : Type) := mkInput { given_id : option jstring; new_id : jstring; iv : jstring; model : A }.
Arguments mkInput {A}.
Arguments given_id {A}.
Arguments new_id {A}.
Arguments iv {A}.
Arguments model {A}.
Definition in_id {A} (input : Input A) : jstring := default (new_id input) (given_id input).

(** The models of a class, in memory and as records.  [unserialize] may change the
    record it is given: [unserialized] is what it becomes. *)
Record ModelClass (A : Type) := mkModelClass {
  serialize : A → record;
  unserialize : record → A;
  unserialized : record → record;
  matches : record → jstring → A → bool;
}.
Arguments mkModelClass {A}.
Arguments serialize {A}.
Arguments unserialize {A}.
Arguments unserialized {A}.
Arguments matches {A}.

Section collection.
Context {R A : Type} `{Redis R} `{Json} (crypto : option Crypto) (class : ModelClass A).
Context (namespace : jstring) (indexes : list jstring).

(** The crypto in use: [this.#crypto && !this.#crypto.isDegraded()]. *)
Definition active : option Crypto :=
  match crypto with Some c => if isDegraded c then None else Some c | None => None end.

(** What an index holds for a value. *)
Definition index_value (v : value) : result jstring :=
  match active with
  | Some c => hmacIndex c (toLowerCase (toString v))
  | None => Ok (toLowerCase (toString v))
  end.

Definition index_key (index : jstring) (v : value) : result jstring :=
  s ← index_value v; Ok (index_prefix namespace index ++ s).

(** ** Reading *)

Definition get_record (key : jstring) : M R (option record) := λ r,
  match (json ← redis_get key;
         match json with
         | None => mret None
         | Some json =>
             json ← lift (match active with Some c => decrypt c json | None => Ok json end);
             model ← lift (parse json); mret (Some model)
         end) r with
  | (Ok model, r) => (Ok model, r)
  | (Throw e, r) =>
      if bool_decide (e = WRONGTYPE) then (fields ← redis_hGetAll key; mret (Some (Str <$> (fields : gmap _ _)))) r
      else (Throw e, r)
  end.

Definition _extract (ids : list jstring) : M R (list (jstring * A)) :=
  models ← asyncMapSettled ids (λ id,
    model ← get_record (model_key namespace id);
    mret ((λ model, (id, unserialize class model)) <$> (model : option record)));
  mret (omap (λ model, model) (models : list (option (jstring * A)))).

(** The properties that are not indexed, if any. *)
Definition unfit (properties : record) : list jstring :=
  filter (λ k, k ∉ indexes) (map fst (map_to_list properties)).

Definition _get (properties : record) : M R (list (jstring * A)) :=
  if decide (properties = ∅) then
    ids ← redis_sMembers (ids_key namespace); _extract ids
  else
    match default Undefined (properties !! js "id") with
    | Undefined =>
        match unfit properties with
        | [] =>
            keys ← asyncMapSettled (map_to_list properties) (λ p, lift (index_key p.1 p.2));
            ids ← redis_sInter keys; _extract ids
        | _ => lift (Throw (OtherError "fields not indexed"))
        end
    | id =>
        let properties := delete (js "id") properties in
        models ← _extract [toString id];
        mret (if decide (properties = ∅) then models
              else filter (λ m, matches class properties m.1 m.2 = true) models)
    end.

(** [first(properties)] and [exists(properties)] *)
Definition first (properties : record) : M R (option (jstring * A)) :=
  models ← _get properties; mret (head models).
Definition exists_model (properties : record) : M R bool :=
  model ← first properties; mret (bool_decide (is_Some (fst <$> (model : option (jstring * A))))).

Definition by_id (id : jstring) : record := {[js "id" := Str id]}.

(** ** Writing *)

(** The entries of a record in the indexes are added or removed. *)
Definition add_to_indexes (id : jstring) (model : record) : M R unit :=
  asyncMapSettled indexes (λ index,
    match (model : gmap jstring value) !! index with
    | None => mret tt
    | Some v => key ← lift (index_key index v); redis_sAdd key [id] ;; mret tt
    end) ;; mret tt.

Definition remove_from_indexes (id : jstring) (model : record) : M R unit :=
  asyncMapSettled indexes (λ index,
    match (model : gmap jstring value) !! index with
    | None => mret tt
    | Some v => key ← lift (index_key index v); redis_sRem key [id]
    end) ;; mret tt.

(** What a subclass checks first; the second argument of [beforeUpdate] is the previous
    model. *)
Context (beforeAdd : A → M R unit) (beforeUpdate : A → A → M R unit).


Definition _addOne (replace : bool) (input : Input A) : M R (jstring * A) :=
  let id := in_id input in
  newEntry ← redis_sAdd (ids_key namespace) [id];
  (if negb (newEntry =? 0) then λ r,
     match beforeAdd (model input) r with
     | (Throw e, r) => (redis_sRem (ids_key namespace) [id] ;; lift (Throw e)) r
     | (Ok _, r) => (Ok tt, r)
     end
   else if replace then
     previous ← get_record (model_key namespace id);
     match previous with
     | Some previous =>
         beforeUpdate (model input) (unserialize class previous) ;;
         remove_from_indexes id (unserialized class previous)
     | None => mret tt
     end
   else lift (Throw (OtherError "this model already exists"))) ;;
  let fields := serialize class (model input) in
  serialized ← lift (match active with Some c => encrypt c (iv input) (stringify fields) | None => Ok (stringify fields) end);
  redis_set (model_key namespace id) serialized ;;
  add_to_indexes id fields ;;
  mret (id, unserialize class fields).

Definition _add (replace : bool) (models : list (Input A)) : M R (list (jstring * A)) :=
  asyncMapSettled models (_addOne replace).

Definition _remove (ids : list jstring) : M R unit :=
  match ids with
  | [] => mret tt
  | _ =>
      redis_sRem (ids_key namespace) ids ;;
      (match indexes with
       | [] => mret tt
       | _ =>
           asyncMapSettled ids (λ id,
             values ← get_record (model_key namespace id);
             match values with Some values => remove_from_indexes id values | None => mret tt end) ;; mret tt
       end) ;;
      redis_del (map (model_key namespace) ids)
  end.

(** ** The indexes are made again *)

Definition rebuildIndexes : M R unit :=
  redis_del [indexes_key namespace] ;;
  match indexes with
  | [] => mret tt
  | _ =>
      redis_sAdd (indexes_key namespace) indexes ;;
      asyncMapSettled indexes (λ index,
        keys ← redis_keys (index_prefix namespace index);
        match keys with [] => mret tt | _ => redis_del keys end) ;;
      ids ← redis_sMembers (ids_key namespace);
      asyncMapSettled (ids : list jstring) (λ id,
        values ← get_record (model_key namespace id);
        match values with
        | None => redis_sRem (ids_key namespace) [id]
        | Some values => add_to_indexes id values
        end) ;; mret tt
  end.

(** The constructor registers the namespace and its version; [get] gives null, not
    undefined, when there is none: the indexes are never made again. *)
Definition create : M R unit := λ r,
  let '(_, r) := redis_sAdd (js "xo::namespaces") [namespace] r in
  match redis_get (version_key namespace) r with
  | (Ok (Some version), r) =>
      if bool_decide (version = VERSION) then (Ok tt, r)
      else let '(_, r) := redis_set (version_key namespace) VERSION r in (Ok tt, r)
  | (Ok None, r) => let '(_, r) := redis_set (version_key namespace) VERSION r in (Ok tt, r)
  | (Throw _, r) => (Ok tt, r)
  end.

(** ** The operations of a collection, and their events *)

Inductive Event := EAdd (models : list (jstring * A)) | EUpdate (models : list (jstring * A)) | ERemove (ids : list jstring).

Definition Db := (R * list Event)%type.

Definition on_redis {B} (m : M R B) : M Db B := λ s, let '(b, r) := m s.1 in (b, (r, s.2)).
Definition emit (e : Event) : M Db unit := λ s, (Ok tt, (s.1, s.2 ++ [e])).

Definition get (properties : record) : M Db (list (jstring * A)) := on_redis (_get properties).

Definition add (models : list (Input A)) : M Db (list (jstring * A)) :=
  models ← on_redis (_add false models); emit (EAdd models) ;; mret models.

Definition update (models : list (Input A)) : M Db (list (jstring * A)) :=
  if forallb (λ m, bool_decide (is_Some (given_id m))) models then
    models ← on_redis (_add true models); emit (EUpdate models) ;; mret models
  else lift (Throw (OtherError "a model without an id cannot be updated")).

Definition remove (ids : list jstring) : M Db bool :=
  on_redis (_remove ids) ;; emit (ERemove ids) ;; mret true.

Definition remove_where (properties : record) : M Db bool :=
  models ← on_redis (_get properties);
  match models with [] => mret false | _ => remove (map fst (models : list (jstring * A))) end.

(** ** What the keys of a collection represent *)

Definition ikey (index : jstring) (x : value) : jstring :=
  match index_key index x with Ok k => k | Throw _ => [] end.
Definition index_keys (fields : record) : list jstring :=
  omap (λ index, ikey index <$> fields !! index) indexes.

(** The identifiers whose keys are used for something else. *)
Definition reserved (id : jstring) : Prop := id = js "version" ∨ id = js ":indexes".

Definition own_key (k : jstring) : Prop :=
  ∃ c rest, (c = ":"%char ∨ c = "_"%char) ∧ k = prefix namespace ++ c :: rest.

Definition read_text (text : jstring) : result record :=
  json ← match active with Some c => decrypt c text | None => Ok text end; parse json.

(** What a key holds, as a model. *)
Definition holds (x : option rvalue) (m : option record) : Prop :=
  match x with
  | None => m = None
  | Some (RStr text) => ∃ fields, m = Some fields ∧ read_text text = Ok fields
  | Some (RHash fields) => m = Some (Str <$> fields)
  | Some (RSet _) => False
  end.

Definition indexed_as (fields : record) (index s : jstring) : Prop :=
  ∃ x, fields !! index = Some x ∧ index_value x = Ok s.

(** The models are [D], and so are the indexes. *)
Record holds_models (v : keyspace) (D : gmap jstring record) : Prop := {
  hm_reserved id : is_Some (D !! id) → ¬ reserved id;
  hm_stored id : ¬ reserved id → holds (v !! model_key namespace id) (D !! id);
  hm_set_at index s : index ∈ indexes → set_at v (index_prefix namespace index ++ s);
  hm_index index s id : index ∈ indexes →
    id ∈ members v (index_prefix namespace index ++ s) ↔ ∃ fields, D !! id = Some fields ∧ indexed_as fields index s;
}.

Record represents (v : keyspace) (D : gmap jstring record) : Prop := {
  rep_models : holds_models v D;
  rep_set_at : set_at v (ids_key namespace);
  rep_ids : members v (ids_key namespace) = dom D;
}.
End collection.

(** ** Facts about keys and sets *)

Lemma split_sep_inj (P : ascii → Prop) a b c d (x y : jstring) :
  Forall (λ e, ¬ P e) a → Forall (λ e, ¬ P e) b → P c → P d → a ++ c :: x = b ++ d :: y → a = b ∧ c = d ∧ x = y.
Proof.
  revert b. induction a as [|e a IH]; intros [|f b] Ha Hb Hc Hd E; cbn [app] in E; injection E as -> E.
  - done.
  - by inversion Hb.
  - by inversion Ha.
  - apply Forall_cons in Ha as [_ Ha], Hb as [_ Hb]. by destruct (IH b Ha Hb Hc Hd E) as (-> & -> & ->).
Qed.

Definition plain (chars : list ascii) (s : jstring) : Prop := Forall (λ e, ¬ (e ∈ chars)) s.
Definition colon : ascii := ":"%char.
Definition underscore : ascii := "_"%char.

(** The assertions of the constructor: the keys of two namespaces differ. *)
Lemma own_key_inj n n' k :
  plain [colon; underscore] n → plain [colon; underscore] n' → own_key n k → own_key n' k → n = n'.
Proof.
  intros Hn Hn' (c & x & Hc & ->) (d & y & Hd & E). unfold prefix in E. rewrite <- !app_assoc in E. apply (inj (app _)) in E.
  destruct (split_sep_inj (λ e, e ∈ [colon; underscore]) n n' c d x y) as (? & _ & _); try done;
  rewrite !elem_of_cons; destruct_or!; auto.
Qed.

Lemma index_key_inj n i j s t :
  plain [colon] i → plain [colon] j → index_prefix n i ++ s = index_prefix n j ++ t → i = j ∧ s = t.
Proof.
  intros Hi Hj E. unfold index_prefix in E. rewrite <- !app_assoc in E. apply (inj (app _)) in E. apply (inj (app _)) in E.
  destruct (split_sep_inj (λ e, e ∈ [colon]) i j colon colon s t Hi Hj) as (? & _ & ?); try done; by left.
Qed.

Lemma model_key_inj n i j : model_key n i = model_key n j → i = j.
Proof. intros E. unfold model_key in E. by do 2 apply (inj (app _)) in E. Qed.

Lemma index_not_model n i s id : index_prefix n i ++ s ≠ model_key n id.
Proof. unfold index_prefix, model_key. rewrite <- !app_assoc. intros E; apply (inj (app _)) in E. by simplify_eq/=. Qed.

Lemma ids_not_model n id : ids_key n ≠ model_key n id.
Proof. unfold ids_key, model_key. intros E; apply (inj (app _)) in E. by simplify_eq/=. Qed.

Lemma index_not_ids n i s : index_prefix n i ++ s ≠ ids_key n.
Proof.
  unfold index_prefix, ids_key. rewrite <- !app_assoc. intros E; apply (inj (app _)) in E. cbn in E. simplify_eq.
  assert (colon ∉ (js "ids" : list ascii)) as Hin by (apply (bool_decide_unpack _); reflexivity). apply Hin.
  change (js "ids" : list ascii) with ["i"; "d"; "s"]%char. rewrite <- E, elem_of_app. right. by left.
Qed.

Lemma lookup_put_set k s v k' :
  put_set k s v !! k' = if decide (k = k') then (if decide (s = ∅) then None else Some (RSet s)) else v !! k'.
Proof.
  unfold put_set. repeat case_decide; subst; by rewrite ?lookup_delete_eq, ?lookup_insert_eq, ?lookup_delete_ne, ?lookup_insert_ne by done.
Qed.

Lemma lookup_put_set_ne k s v k' : k ≠ k' → put_set k s v !! k' = v !! k'.
Proof. intros. by rewrite lookup_put_set, decide_False. Qed.

Lemma members_put_set k s v k' : members (put_set k s v) k' = if decide (k = k') then s else members v k'.
Proof. unfold members. rewrite lookup_put_set. by repeat case_decide. Qed.

Lemma set_at_put_set k s v k' : set_at v k' → set_at (put_set k s v) k'.
Proof. unfold set_at. rewrite lookup_put_set. by repeat case_decide. Qed.

Lemma members_ext v v' k : v' !! k = v !! k → members v' k = members v k.
Proof. unfold members. by intros ->. Qed.
Lemma set_at_ext v v' k : v' !! k = v !! k → set_at v k → set_at v' k.
Proof. unfold set_at. by intros ->. Qed.

(** Each key of [ks] has the members that [f] gives from the former ones. *)
Definition touched (f : gset jstring → gset jstring) (ks : list jstring) (v v' : keyspace) : Prop :=
  ∀ k, (k ∉ ks → v' !! k = v !! k) ∧ (k ∈ ks → set_at v' k ∧ members v' k = f (members v k)).

Lemma touched_nil f v : touched f [] v v.
Proof. intros k. split; [done|]. by intros ?%elem_of_nil. Qed.

Lemma touched_put f ks k v v' :
  (∀ s, f (f s) = f s) → touched f ks v v' → touched f (ks ++ [k]) v (put_set k (f (members v' k)) v').
Proof.
  intros Hf Ht k'. rewrite elem_of_app, list_elem_of_singleton. destruct (Ht k') as [Hout Hin]. split.
  - intros Hk'. rewrite lookup_put_set_ne by (intros ->; tauto). apply Hout. tauto.
  - intros Hk'. rewrite members_put_set. unfold set_at. rewrite lookup_put_set. case_decide as E.
    + subst k'. split; [by case_decide|]. destruct (decide (k ∈ ks)) as [Hk|Hk].
      * destruct (Hin Hk) as [_ ->]. apply Hf.
      * by rewrite (members_ext _ _ _ (Hout Hk)).
    + destruct Hk' as [?| ->]; [by apply Hin|done].
Qed.

Lemma asyncMapSettled_run {S A B} (f : A → M S B) (P : list A → S → Prop) xs s :
  (∀ done x rest s, xs = done ++ x :: rest → P done s → ∃ y s', f x s = (Ok y, s') ∧ P (done ++ [x]) s') →
  P [] s → ∃ ys s', asyncMapSettled xs f s = (Ok ys, s') ∧ P xs s'.
Proof.
  enough (∀ done rest s, xs = done ++ rest →
    (∀ done x rest s, xs = done ++ x :: rest → P done s → ∃ y s', f x s = (Ok y, s') ∧ P (done ++ [x]) s') →
    P done s → ∃ ys s', asyncMapSettled rest f s = (Ok ys, s') ∧ P xs s') as H by (intros; by apply (H [] xs)).
  intros done rest. revert done. induction rest as [|x rest IH]; intros done s0 E Hf HP.
  { exists [], s0. rewrite app_nil_r in E. by subst done. }
  destruct (Hf done x rest s0 E HP) as (y & s1 & Hrun & HP1).
  destruct (IH (done ++ [x]) s1) as (ys & s2 & Hrun2 & HP2); [by rewrite <- app_assoc|done|done|].
  exists (y :: ys), s2. cbn [asyncMapSettled]. by rewrite Hrun, Hrun2.
Qed.

Lemma match_nonempty {B C} (l : list B) (a b : C) : l ≠ [] → match l with [] => a | _ => b end = b.
Proof. by destruct l. Qed.

(** The values that the calls return, each the one expected. *)
Lemma asyncMapSettled_map {S A B} (f : A → M S B) (g : A → B) (P : S → Prop) xs s :
  (∀ x s, x ∈ xs → P s → ∃ s', f x s = (Ok (g x), s') ∧ P s') →
  P s → ∃ s', asyncMapSettled xs f s = (Ok (map g xs), s') ∧ P s'.
Proof.
  revert s. induction xs as [|x xs IH]; intros s Hf HP; [by exists s|].
  destruct (Hf x s ltac:(by left) HP) as (s1 & Hrun & HP1).
  destruct (IH s1) as (s2 & Hrun2 & HP2); [intros y s0 Hy; apply Hf; by right|done|].
  exists s2. cbn [asyncMapSettled map]. by rewrite Hrun, Hrun2.
Qed.

(** ** What the operations do *)

Abbreviation models := (gmap jstring record).

Section facts.
Context {R A : Type} `{RedisLaws R} `{JsonLaws} (crypto : option Crypto) (class : ModelClass A).
Context (namespace : jstring) (indexes : list jstring).
Hypothesis crypto_laws : ∀ c, active crypto = Some c → CryptoLaws c.
Hypothesis indexes_plain : Forall (plain [colon]) indexes.

Local Abbreviation index_key := (index_key crypto namespace).
Local Abbreviation index_value := (index_value crypto).
Local Abbreviation ikey := (ikey crypto namespace).
Local Abbreviation index_keys := (index_keys crypto namespace indexes).
Local Abbreviation get_record := (get_record crypto).
Local Abbreviation holds_models := (holds_models crypto namespace indexes).
Local Abbreviation represents := (represents crypto namespace indexes).
Local Abbreviation holds := (holds crypto).
Local Abbreviation indexed_as := (indexed_as crypto).

Lemma does_bind {B C} (m : M R B) (f : B → M R C) r b v c w :
  does m r b v → (∀ r1, view r1 = v → does (f b) r1 c w) → does (m ≫= f) r c w.
Proof.
  intros (r1 & Hm & Hv) Hf. destruct (Hf r1 Hv) as (r2 & Hf2 & Hw). exists r2. split; [|done].
  unfold mbind, M_bind. by rewrite Hm.
Qed.

Lemma does_ret {B} (b : B) r : does (mret b : M R B) r b (view r).
Proof. by exists r. Qed.

Lemma index_value_total x : ∃ s, index_value x = Ok s.
Proof.
  unfold Database.index_value. destruct (active crypto) as [c|] eqn:E; [|by eexists]. by apply hmac_total, crypto_laws.
Qed.

Lemma index_key_total index x : index_key index x = Ok (ikey index x).
Proof. unfold Database.ikey, Database.index_key. by destruct (index_value_total x) as [s ->]. Qed.

Lemma ikey_value index x s : ikey index x = index_prefix namespace index ++ s ↔ index_value x = Ok s.
Proof.
  unfold Database.ikey, Database.index_key. destruct (index_value_total x) as [t ->]. cbn [mbind result_bind].
  split; [|congruence]. intros E. apply app_inv_head in E. by subst t.
Qed.

Lemma elem_of_index_keys fields index s :
  index ∈ indexes → index_prefix namespace index ++ s ∈ index_keys fields ↔ indexed_as fields index s.
Proof.
  intros Hi. unfold Database.index_keys, Database.indexed_as. rewrite list_elem_of_omap. split.
  - intros (j & Hj & E). destruct (fields !! j) as [x|] eqn:Ex; [|done]. injection E as E. exists x.
    destruct (index_value_total x) as [t Ht]. pose proof (proj2 (ikey_value j x t) Ht) as Ek. rewrite Ek in E.
    rewrite Forall_forall in indexes_plain. destruct (index_key_inj namespace j index t s) as [-> ->]; auto.
  - intros (x & Ex & Hx). exists index. split; [done|]. rewrite Ex. cbn. f_equal. by apply ikey_value.
Qed.

Lemma index_keys_form fields k :
  k ∈ index_keys fields → ∃ index s, index ∈ indexes ∧ k = index_prefix namespace index ++ s.
Proof.
  unfold Database.index_keys. rewrite list_elem_of_omap. intros (index & Hi & E).
  destruct (fields !! index) as [x|]; [|done]. injection E as <-. destruct (index_value_total x) as [s Hs].
  exists index, s. split; [done|]. by apply ikey_value.
Qed.

Lemma bind_ok {S B C} (m : M S B) (f : B → M S C) s b s1 : m s = (Ok b, s1) → (m ≫= f) s = f b s1.
Proof. intros E. unfold mbind, M_bind. by rewrite E. Qed.
Lemma bind_throw {S B C} (m : M S B) (f : B → M S C) s e s1 : m s = (Throw e, s1) → (m ≫= f) s = (Throw e, s1).
Proof. intros E. unfold mbind, M_bind. by rewrite E. Qed.

(** *** The indexes of a model *)

Local Abbreviation index_call op id fields := (λ index : jstring,
  match (fields : gmap jstring value) !! index with
  | None => mret tt
  | Some v => key ← lift (index_key index v); op key id
  end).

Lemma touch_indexes (op : jstring → jstring → M R unit) (f : gset jstring → gset jstring) id fields r :
  (∀ k r, set_at (view r) k → does (op k id) r tt (put_set k (f (members (view r) k)) (view r))) →
  (∀ s, f (f s) = f s) →
  (∀ k, k ∈ index_keys fields → set_at (view r) k) →
  ∃ v, does (asyncMapSettled indexes (index_call op id fields) ;; mret tt) r tt v ∧ touched f (index_keys fields) (view r) v.
Proof.
  intros Hop Hf Hset.
  destruct (asyncMapSettled_run (index_call op id fields)
    (λ l r', touched f (omap (λ index, ikey index <$> fields !! index) l) (view r) (view r')) indexes r) as (ys & r' & Hrun & Ht).
  - intros l index rest r1 Hl Ht. rewrite omap_app. cbn [omap list_omap]. destruct (fields !! index) as [x|] eqn:E; cbn [fmap option_fmap option_map].
    2:{ rewrite app_nil_r. by exists tt, r1. }
    assert (ikey index x ∈ index_keys fields) as Hk.
    { unfold Database.index_keys. rewrite list_elem_of_omap. exists index. rewrite Hl, E. split; [set_solver|done]. }
    destruct (Hop (ikey index x) r1) as (r2 & Hrun & Hv).
    { destruct (Ht (ikey index x)) as [Hout Hin]. destruct (decide (ikey index x ∈ omap (λ index, ikey index <$> fields !! index) l)); [by apply Hin|].
      eapply set_at_ext; [by apply Hout|]. by apply Hset. }
    exists tt, r2. split; [by rewrite index_key_total|]. rewrite Hv. by apply touched_put.
  - apply touched_nil.
  - exists (view r'). split; [|done]. exists r'. split; [|done]. by rewrite (bind_ok _ _ _ _ _ Hrun).
Qed.

Lemma add_to_indexes_touches id fields r :
  (∀ k, k ∈ index_keys fields → set_at (view r) k) →
  ∃ v, does (add_to_indexes crypto namespace indexes id fields) r tt v ∧ touched (λ s, s ∪ {[id]}) (index_keys fields) (view r) v.
Proof.
  intros Hset. apply (touch_indexes (λ k id, redis_sAdd k [id] ;; mret tt)); [|set_solver|done].
  intros k r1 Hk. eapply does_bind; [by apply sAdd_law|]. intros r2 Hr2. exists r2. split; [done|].
  rewrite Hr2. cbn [list_to_set foldr]. by rewrite union_empty_r_L.
Qed.

Lemma remove_from_indexes_touches id fields r :
  (∀ k, k ∈ index_keys fields → set_at (view r) k) →
  ∃ v, does (remove_from_indexes crypto namespace indexes id fields) r tt v ∧ touched (λ s, s ∖ {[id]}) (index_keys fields) (view r) v.
Proof.
  intros Hset. apply (touch_indexes (λ k id, redis_sRem k [id])); [|set_solver|done].
  intros k r1 Hk. destruct (sRem_law k [id] r1 Hk ltac:(done)) as (r2 & ? & Hv). exists r2. split; [done|].
  cbn [list_to_set foldr] in Hv. by rewrite Hv, union_empty_r_L.
Qed.

(** *** Reading a model *)

Lemma get_record_holds key r m : holds (view r !! key) m → does (get_record key) r m (view r).
Proof.
  intros Hm. unfold Database.get_record, does. pose proof (get_law key r) as Hget.
  destruct (view r !! key) as [[text|s|fields]|] eqn:E; cbn in Hm.
  - destruct Hm as (fields & -> & Ht). destruct Hget as (r1 & Hget & Hv). exists r1. split; [|done].
    rewrite (bind_ok _ _ _ _ _ Hget). unfold read_text in Ht. unfold mbind, M_bind, lift.
    destruct (match active crypto with Some c => decrypt c text | None => Ok text end) as [t|e]; cbn in Ht |- *; [|done].
    by rewrite Ht.
  - done.
  - destruct Hget as (r1 & Hget & Hv). rewrite (bind_throw _ _ _ _ _ Hget), bool_decide_eq_true_2 by done. subst m.
    destruct (hGetAll_law key r1 fields) as (r2 & Hall & Hv2); [by rewrite Hv|]. exists r2.
    rewrite (bind_ok _ _ _ _ _ Hall). split; [done|congruence].
  - subst m. destruct Hget as (r1 & Hget & Hv). exists r1. by rewrite (bind_ok _ _ _ _ _ Hget).
Qed.

Definition found (D : gmap jstring record) (id : jstring) : option (jstring * A) :=
  (λ fields, (id, unserialize class fields)) <$> D !! id.

Lemma extract_holds v D ids r :
  holds_models v D → view r = v → (∀ id, id ∈ ids → ¬ reserved id) →
  does (_extract crypto class namespace ids) r (omap (found D) ids) v.
Proof.
  intros HD Hv Hids. unfold _extract.
  destruct (asyncMapSettled_map (λ id, model ← get_record (model_key namespace id);
    mret ((λ model, (id, unserialize class model)) <$> (model : option record))) (found D) (λ r, view r = v) ids r) as (r1 & Hrun & Hv1); [|done|].
  - intros id r1 Hid Hv1. destruct (get_record_holds (model_key namespace id) r1 (D !! id)) as (r2 & Hget & Hv2).
    { rewrite Hv1. by apply HD, Hids. }
    exists r2. rewrite (bind_ok _ _ _ _ _ Hget). split; [done|congruence].
  - exists r1. rewrite (bind_ok _ _ _ _ _ Hrun). split; [|done]. unfold mret, M_ret. do 2 f_equal. clear.
    induction ids as [|id ids IH]; [done|]. cbn. rewrite IH. by destruct (found D id).
Qed.

(** *** Reading the models that have some properties *)

(** The properties are compared without case. *)
Definition agrees (fields properties : record) : Prop :=
  map_Forall (λ index x, ∃ y, fields !! index = Some y ∧ toLowerCase (toString y) = toLowerCase (toString x)) properties.

Definition asked_id (properties : record) : option jstring :=
  match properties !! js "id" with Some Undefined | None => None | Some id => Some (toString id) end.

Definition answers (D : gmap jstring record) (properties : record) (m : jstring * A) : Prop :=
  found D m.1 = Some m ∧
  match asked_id properties with
  | Some id => m.1 = id ∧ (delete (js "id") properties = ∅ ∨ matches class (delete (js "id") properties) m.1 m.2 = true)
  | None => ∃ fields, D !! m.1 = Some fields ∧ agrees fields properties
  end.

Definition fit (properties : record) : Prop :=
  match asked_id properties with Some id => ¬ reserved id | None => unfit indexes properties = [] end.

Lemma index_value_lower x y : index_value x = index_value y ↔ toLowerCase (toString x) = toLowerCase (toString y).
Proof.
  unfold Database.index_value. destruct (active crypto) as [c|] eqn:E; [|split; congruence].
  split; [|congruence]. by apply hmac_inj, crypto_laws.
Qed.

Lemma found_fst D id m : found D id = Some m → m.1 = id.
Proof. unfold found. destruct (D !! id); [|done]. intros E. by injection E as <-. Qed.

Lemma omap_found_fst D (ids : list jstring) : (omap (found D) ids).*1 = filter (λ id, is_Some (D !! id)) ids.
Proof.
  induction ids as [|id ids IH]; [done|]. rewrite filter_cons. cbn [omap list_omap]. unfold found at 1.
  destruct (D !! id) as [x|] eqn:E; cbn.
  - rewrite decide_True by (by eexists). f_equal. exact IH.
  - rewrite decide_False by (by intros [? ?]). exact IH.
Qed.

Lemma omap_found_NoDup D (ids : list jstring) : NoDup ids → NoDup (omap (found D) ids).*1.
Proof. rewrite omap_found_fst. apply NoDup_filter. Qed.

Lemma elem_of_omap_found D (ids : list jstring) (m : jstring * A) : m ∈ omap (found D) ids ↔ m.1 ∈ ids ∧ found D m.1 = Some m.
Proof.
  rewrite list_elem_of_omap. split.
  - intros (id & Hid & E). by rewrite (found_fst _ _ _ E).
  - intros [Hid E]. by exists m.1.
Qed.

Lemma get_by_indexes v D properties r :
  holds_models v D → view r = v → properties ≠ ∅ → asked_id properties = None → unfit indexes properties = [] →
  ∃ l, does (_get crypto class namespace indexes properties) r l v ∧ NoDup l.*1 ∧ ∀ m, m ∈ l ↔ answers D properties m.
Proof.
  intros HD Hv Hne Hid Hunfit. unfold _get. rewrite decide_False by done.
  assert (default Undefined (properties !! js "id") = Undefined) as ->.
  { unfold asked_id in Hid. by destruct (properties !! js "id") as [[]|]. }
  rewrite Hunfit. set (entries := map_to_list properties).
  assert (∀ p, p ∈ entries → p.1 ∈ indexes) as Hin.
  { intros p Hp. destruct (decide (p.1 ∈ indexes)) as [|Hn]; [done|]. exfalso.
    assert (p.1 ∈ unfit indexes properties) as Hu by (apply list_elem_of_filter; split; [done|]; by apply list_elem_of_fmap_2).
    rewrite Hunfit in Hu. by apply elem_of_nil in Hu. }
  destruct (asyncMapSettled_map (λ p, lift (index_key p.1 p.2)) (λ p, ikey p.1 p.2) (λ r, view r = v) entries r) as (r1 & Hkeys & Hv1); [|done|].
  { intros p r1 _ Hv1. exists r1. split; [|done]. unfold lift. by rewrite index_key_total. }
  assert (∀ p, p ∈ entries → ∃ s, ikey p.1 p.2 = index_prefix namespace p.1 ++ s ∧ index_value p.2 = Ok s) as Hkey.
  { intros p _. destruct (index_value_total p.2) as [s Hs]. exists s. by rewrite ikey_value. }
  destruct (sInter_law (map (λ p, ikey p.1 p.2) entries) r1) as (ids & Hinter & Hnd & Hids).
  { intros k (p & -> & Hp)%list_elem_of_fmap. destruct (Hkey p Hp) as (s & -> & _). rewrite Hv1. by apply (hm_set_at _ _ _ _ _ HD), Hin. }
  { intros E%map_eq_nil. by apply map_to_list_empty_iff in E. }
  assert (∀ id, id ∈ ids ↔ ∃ fields, D !! id = Some fields ∧ agrees fields properties) as Hsel.
  { intros id. rewrite Hids, Hv1. split.
    - intros Hall. assert (∃ p, p ∈ entries) as [p Hp].
      { destruct entries as [|p l] eqn:E; [by apply map_to_list_empty_iff in E|]. exists p. by left. }
      assert (∀ q, q ∈ entries → ∃ fields y, D !! id = Some fields ∧ fields !! q.1 = Some y ∧ toLowerCase (toString y) = toLowerCase (toString q.2)) as Hq.
      { intros q Hq. pose proof (Hall _ (list_elem_of_fmap_2 (λ p, ikey p.1 p.2) _ _ Hq)) as Hm.
        destruct (Hkey q Hq) as (s & Ek & Es). rewrite Ek in Hm. apply HD in Hm as (fields & Hf & y & Hy & Ey); [|by apply Hin].
        exists fields, y. split; [done|]. split; [done|]. apply index_value_lower. exact (eq_trans Ey (eq_sym Es)). }
      destruct (Hq p Hp) as (fields & _ & Hf & _). exists fields. split; [done|]. intros index x Hx.
      destruct (Hq (index, x)) as (fields' & y & Hf' & Hy); [by apply elem_of_map_to_list|]. simplify_eq. by exists y.
    - intros (fields & Hf & Hag) k (p & -> & Hp)%list_elem_of_fmap. destruct (Hkey p Hp) as (s & -> & Es). apply HD; [by apply Hin|].
      destruct p as [index x]. apply elem_of_map_to_list in Hp. destruct (Hag _ _ Hp) as (y & Hy & Ey).
      exists fields. split; [done|]. exists y. split; [done|]. refine (eq_trans _ Es). by apply index_value_lower. }
  exists (omap (found D) ids). split; [|split].
  - destruct Hinter as (r2 & Hinter & Hv2). destruct (extract_holds v D ids r2 HD) as (r3 & Hext & Hv3); [congruence| |].
    { intros id (fields & Hf & _)%Hsel. apply (hm_reserved _ _ _ _ _ HD). by eexists. }
    exists r3. split; [|done]. rewrite (bind_ok _ _ _ _ _ Hkeys). by rewrite (bind_ok _ _ _ _ _ Hinter).
  - by apply omap_found_NoDup.
  - intros m. rewrite elem_of_omap_found, Hsel. unfold answers. rewrite Hid. tauto.
Qed.

Lemma get_by_id v D properties id r :
  holds_models v D → view r = v → asked_id properties = Some id → ¬ reserved id →
  ∃ l, does (_get crypto class namespace indexes properties) r l v ∧ NoDup l.*1 ∧ ∀ m, m ∈ l ↔ answers D properties m.
Proof.
  intros HD Hv Hid Hres. unfold _get. rewrite decide_False.
  2:{ intros ->. unfold asked_id in Hid. by rewrite lookup_empty in Hid. }
  assert (∃ x, default Undefined (properties !! js "id") = x ∧ x ≠ Undefined ∧ toString x = id) as (x & -> & Hx & Es).
  { unfold asked_id in Hid. destruct (properties !! js "id") as [[]|]; simplify_eq/=; eauto. }
  destruct (extract_holds v D [id] r HD Hv) as (r1 & Hext & Hv1).
  { intros i ->%list_elem_of_singleton. done. }
  set (rest := delete (js "id") properties).
  exists (if decide (rest = ∅) then omap (found D) [id] else filter (λ m, matches class rest m.1 m.2 = true) (omap (found D) [id])).
  split; [|split].
  - destruct x; try done; exists r1; cbn [toString] in Es |- *; rewrite ?Es, (bind_ok _ _ _ _ _ Hext); done.
  - assert (NoDup (omap (found D) [id]).*1) as Hnd by (apply omap_found_NoDup, NoDup_singleton).
    case_decide; [done|]. eapply sublist_NoDup; [exact Hnd|]. apply fmap_sublist, sublist_filter.
  - intros m. assert (m ∈ omap (found D) [id] ↔ m.1 = id ∧ found D m.1 = Some m) as Hm.
    { rewrite elem_of_omap_found, list_elem_of_singleton. done. }
    unfold answers. rewrite Hid. fold rest. case_decide; [rewrite Hm; tauto|]. rewrite list_elem_of_filter, Hm. tauto.
Qed.

Lemma get_all v D r :
  represents v D → view r = v →
  ∃ l, does (_get crypto class namespace indexes ∅) r l v ∧ NoDup l.*1 ∧ ∀ m, m ∈ l ↔ answers D ∅ m.
Proof.
  intros HD Hv. unfold _get. rewrite decide_True by done.
  destruct (sMembers_law (ids_key namespace) r) as (ids & (r1 & Hids & Hv1) & Hnd & Hin); [rewrite Hv; exact (rep_set_at _ _ _ _ _ HD)|].
  rewrite Hv, (rep_ids _ _ _ _ _ HD) in Hin.
  destruct (extract_holds v D ids r1 (rep_models _ _ _ _ _ HD)) as (r2 & Hext & Hv2); [congruence| |].
  { intros id Hid. apply (hm_reserved _ _ _ _ _ (rep_models _ _ _ _ _ HD)). by apply elem_of_dom, Hin. }
  exists (omap (found D) ids). split; [|split].
  - exists r2. by rewrite (bind_ok _ _ _ _ _ Hids).
  - by apply omap_found_NoDup.
  - intros m. rewrite elem_of_omap_found, Hin. unfold answers. cbn. split.
    + intros [Hm Hf]. split; [done|]. apply elem_of_dom in Hm as [fields Hm]. exists fields. split; [done|]. apply map_Forall_empty.
    + intros [Hf (fields & Hm & _)]. split; [|done]. apply elem_of_dom. by eexists.
Qed.

(** What a collection answers, in an order that depends on the server. *)
Lemma get_answers v D properties r :
  represents v D → view r = v → properties = ∅ ∨ fit properties →
  ∃ l, does (_get crypto class namespace indexes properties) r l v ∧ NoDup l.*1 ∧ ∀ m, m ∈ l ↔ answers D properties m.
Proof.
  intros HD Hv Hfit. destruct (decide (properties = ∅)) as [->|Hne]; [by apply get_all|].
  destruct Hfit as [|Hfit]; [done|]. unfold fit in Hfit. destruct (asked_id properties) as [id|] eqn:E.
  - apply get_by_id with id; [apply HD|done..].
  - apply get_by_indexes; [apply HD|done..].
Qed.

(** *** Writing a model *)

(** The models but that of [id], of which nothing is left in the indexes but what
    [fields] have in them. *)
Record holds_others (v : keyspace) (D : gmap jstring record) (id : jstring) (fields : record) : Prop := {
  ho_none : D !! id = None;
  ho_reserved i : is_Some (D !! i) → ¬ reserved i;
  ho_stored i : i ≠ id → ¬ reserved i → holds (v !! model_key namespace i) (D !! i);
  ho_set_at index s : index ∈ indexes → set_at v (index_prefix namespace index ++ s);
  ho_index index s i : index ∈ indexes → i ≠ id →
    i ∈ members v (index_prefix namespace index ++ s) ↔ ∃ fields, D !! i = Some fields ∧ indexed_as fields index s;
  ho_left index s : index ∈ indexes → id ∈ members v (index_prefix namespace index ++ s) → indexed_as fields index s;
}.

Lemma holds_others_new v D id fields : holds_models v D → D !! id = None → holds_others v D id fields.
Proof.
  intros HD Hid. split; [done|by apply HD|by intros; apply HD|by apply HD|by intros; apply HD|].
  intros index s Hi Hm. apply HD in Hm as (? & ? & _); [|done]. congruence.
Qed.

Lemma index_key_in fields index s : index ∈ indexes →
  index_prefix namespace index ++ s ∈ index_keys fields ∨ index_prefix namespace index ++ s ∉ index_keys fields.
Proof. intros _. destruct (decide (index_prefix namespace index ++ s ∈ index_keys fields)); auto. Qed.

Lemma not_index_key fields k : (∀ index s, index_prefix namespace index ++ s ≠ k) → k ∉ index_keys fields.
Proof. intros Hk (index & s & _ & ->)%index_keys_form. by apply (Hk index s). Qed.

(** The entries of the previous fields are removed. *)
Lemma holds_others_removed v v' D id previous removed fields :
  holds_models v D → D !! id = Some previous →
  (∀ index, index ∈ indexes → removed !! index = previous !! index ∨ fields !! index = previous !! index) →
  touched (λ s, s ∖ {[id]}) (index_keys removed) v v' →
  holds_others v' (delete id D) id fields.
Proof.
  intros HD Hid Hsame Ht. split.
  - apply lookup_delete_eq.
  - intros i Hi. apply HD. rewrite lookup_delete in Hi. by case_decide.
  - intros i Hne Hres. rewrite lookup_delete_ne by done. rewrite (proj1 (Ht _)); [by apply HD|].
    apply not_index_key. intros; apply index_not_model.
  - intros index s Hi. destruct (index_key_in removed index s Hi) as [Hk|Hk]; [by apply Ht|].
    eapply set_at_ext; [by apply Ht|]. by apply (hm_set_at _ _ _ _ _ HD).
  - intros index s i Hi Hne. rewrite lookup_delete_ne by done. rewrite <- (hm_index _ _ _ _ _ HD) by done.
    destruct (index_key_in removed index s Hi) as [Hk|Hk].
    + rewrite (proj2 (proj2 (Ht _) Hk)). set_solver.
    + by rewrite (members_ext _ _ _ (proj1 (Ht _) Hk)).
  - intros index s Hi Hm. destruct (index_key_in removed index s Hi) as [Hk|Hk].
    + rewrite (proj2 (proj2 (Ht _) Hk)) in Hm. set_solver.
    + rewrite (members_ext _ _ _ (proj1 (Ht _) Hk)) in Hm. apply HD in Hm as (f & Hf & x & Hx & Es); [|done].
      simplify_eq. destruct (Hsame index Hi) as [E|E].
      * contradict Hk. apply elem_of_index_keys; [done|]. exists x. by rewrite E.
      * exists x. by rewrite E.
Qed.

(** The fields are stored and indexed. *)
Lemma holds_written v v' D id fields text :
  holds_others v D id fields → ¬ reserved id → read_text crypto text = Ok fields →
  touched (λ s, s ∪ {[id]}) (index_keys fields) (<[model_key namespace id := RStr text]> v) v' →
  holds_models v' (<[id := fields]> D).
Proof.
  intros HD Hres Htext Ht.
  assert (∀ index s, <[model_key namespace id := RStr text]> v !! (index_prefix namespace index ++ s) = v !! (index_prefix namespace index ++ s)) as Hw.
  { intros index s. apply lookup_insert_ne. intros E. by apply (index_not_model namespace index s id). }
  split.
  - intros i [x Hi]. destruct (decide (i = id)) as [->|Hne]; [done|]. rewrite lookup_insert_ne in Hi by done. apply HD. by exists x.
  - intros i Hi. rewrite (proj1 (Ht _)) by (apply not_index_key; intros; apply index_not_model).
    destruct (decide (i = id)) as [->|Hne].
    + rewrite !lookup_insert_eq. by exists fields.
    + rewrite !lookup_insert_ne by (try done; intros E%model_key_inj; done). by apply HD.
  - intros index s Hi. destruct (index_key_in fields index s Hi) as [Hk|Hk]; [by apply Ht|].
    eapply set_at_ext; [by apply Ht|]. unfold set_at. rewrite Hw. by apply (ho_set_at _ _ _ _ HD).
  - intros index s i Hi. assert (i ∈ members v' (index_prefix namespace index ++ s) ↔
      i ∈ members v (index_prefix namespace index ++ s) ∨ (i = id ∧ indexed_as fields index s)) as ->.
    { rewrite <- elem_of_index_keys by done. destruct (index_key_in fields index s Hi) as [Hk|Hk].
      - rewrite (proj2 (proj2 (Ht _) Hk)), elem_of_union, elem_of_singleton. rewrite (members_ext v _ _ (Hw index s)). tauto.
      - rewrite (members_ext _ _ _ (proj1 (Ht _) Hk)), (members_ext v _ _ (Hw index s)). tauto. }
    destruct (decide (i = id)) as [->|Hne].
    + rewrite lookup_insert_eq. split.
      * intros [Hm|[_ ?]]; [|by exists fields]. exists fields. split; [done|]. by apply (ho_left _ _ _ _ HD).
      * intros (f & E & ?). simplify_eq. by right.
    + rewrite lookup_insert_ne by done. rewrite (ho_index _ _ _ _ HD index s i Hi Hne). naive_solver.
Qed.

(** *** A collection and the other keys *)

(** The keys out of the collection are those of [v0]. *)
Definition simulated (v0 : keyspace) (r : R) (D : models) : Prop :=
  represents (view r) D ∧ ∀ k, ¬ own_key namespace k → view r !! k = v0 !! k.

Lemma own_ids : own_key namespace (ids_key namespace).
Proof. exists underscore, (js "ids"). split; [by right|done]. Qed.
Lemma own_model id : own_key namespace (model_key namespace id).
Proof. exists colon, id. split; [by left|]. done. Qed.
Lemma own_index index s : own_key namespace (index_prefix namespace index ++ s).
Proof. exists underscore, (index ++ colon :: s). split; [by right|]. unfold index_prefix. by rewrite <- !app_assoc. Qed.

Lemma not_own_index_keys k fields : ¬ own_key namespace k → k ∉ index_keys fields.
Proof. intros Hk. apply not_index_key. intros index s <-. by apply Hk, own_index. Qed.

(** The models and the indexes do not depend on the other keys. *)
Lemma holds_models_ext v v' D :
  (∀ id, v' !! model_key namespace id = v !! model_key namespace id) →
  (∀ index s, v' !! (index_prefix namespace index ++ s) = v !! (index_prefix namespace index ++ s)) →
  holds_models v D → holds_models v' D.
Proof.
  intros Hm Hx HD. split.
  - apply HD.
  - intros id Hid. rewrite Hm. by apply HD.
  - intros index s Hi. eapply set_at_ext; [apply Hx|]. by apply (hm_set_at _ _ _ _ _ HD).
  - intros index s id Hi. rewrite (members_ext _ _ _ (Hx index s)). by apply HD.
Qed.

Lemma holds_models_ids v D s : holds_models v D → holds_models (put_set (ids_key namespace) s v) D.
Proof.
  apply holds_models_ext; intros; apply lookup_put_set_ne; [apply ids_not_model|].
  intros E. by apply (index_not_ids namespace index s0).
Qed.

Lemma represents_ext v v' D : (∀ k, own_key namespace k → v' !! k = v !! k) → represents v D → represents v' D.
Proof.
  intros Hk [HD Hs Hi]. split.
  - apply (holds_models_ext v); [intros; apply Hk, own_model|intros; apply Hk, own_index|done].
  - eapply set_at_ext; [apply Hk, own_ids|done].
  - by rewrite (members_ext _ _ _ (Hk _ own_ids)).
Qed.

Lemma encode_text iv fields :
  length iv = IV_LENGTH → ∃ text, match active crypto with Some c => encrypt c iv (stringify fields) | None => Ok (stringify fields) end = Ok text
    ∧ read_text crypto text = Ok fields.
Proof.
  intros Hiv. unfold read_text. destruct (active crypto) as [c|] eqn:E.
  - destruct (decrypt_encrypt c (crypto_laws c eq_refl) iv (stringify fields) Hiv) as (t & -> & Ht). exists t. split; [done|].
    rewrite Ht. apply parse_stringify.
  - exists (stringify fields). split; [done|]. apply parse_stringify.
Qed.

(** *** Removing models *)

(** The models are still stored, those of [ids] are not in the indexes any more. *)
Record removing (v0 : keyspace) (D : models) (ids : list jstring) (v : keyspace) : Prop := {
  rm_stored id : ¬ reserved id → holds (v !! model_key namespace id) (D !! id);
  rm_set_at index s : index ∈ indexes → set_at v (index_prefix namespace index ++ s);
  rm_index index s id : index ∈ indexes →
    id ∈ members v (index_prefix namespace index ++ s) ↔ id ∉ ids ∧ ∃ fields, D !! id = Some fields ∧ indexed_as fields index s;
  rm_ids : v !! ids_key namespace = v0 !! ids_key namespace;
  rm_out k : ¬ own_key namespace k → v !! k = v0 !! k;
}.

Lemma removing_touched v0 D ids id fields v v' :
  removing v0 D ids v → D !! id = Some fields → touched (λ s, s ∖ {[id]}) (index_keys fields) v v' →
  removing v0 D (ids ++ [id]) v'.
Proof.
  intros HD Hid Ht. split.
  - intros i Hi. rewrite (proj1 (Ht _)) by (apply not_index_key; intros; apply index_not_model). by apply HD.
  - intros index s Hi. destruct (index_key_in fields index s Hi) as [Hk|Hk]; [by apply Ht|].
    eapply set_at_ext; [by apply Ht|]. by apply (rm_set_at _ _ _ _ HD).
  - intros index s i Hi. pose proof (rm_index _ _ _ _ HD index s i Hi) as Hm. rewrite not_elem_of_app, list_elem_of_singleton.
    destruct (index_key_in fields index s Hi) as [Hk|Hk].
    + rewrite (proj2 (proj2 (Ht _) Hk)), elem_of_difference, elem_of_singleton, Hm. tauto.
    + rewrite (members_ext _ _ _ (proj1 (Ht _) Hk)), Hm. split; [|tauto]. intros [Hni (f & Hf & Hx)]. split; [|by eauto].
      split; [done|]. intros ->. simplify_eq. contradict Hk. by apply elem_of_index_keys.
  - rewrite (proj1 (Ht _)); [apply HD|]. apply not_index_key. intros; apply index_not_ids.
  - intros k Hk. rewrite (proj1 (Ht _)); [by apply HD|]. by apply not_own_index_keys.
Qed.

Lemma removing_none v0 D ids id v : removing v0 D ids v → D !! id = None → removing v0 D (ids ++ [id]) v.
Proof.
  intros HD Hid. split; try apply HD. intros index s i Hi. rewrite (rm_index _ _ _ _ HD) by done.
  rewrite not_elem_of_app, list_elem_of_singleton. split; [|tauto]. intros [Hni (f & Hf & Hx)]. split; [|by eauto].
  split; [done|]. intros ->. congruence.
Qed.

Lemma remove_entries v0 D ids r :
  removing v0 D [] (view r) → (∀ id, id ∈ ids → ¬ reserved id) →
  ∃ ys r', asyncMapSettled ids (λ id,
    values ← get_record (model_key namespace id);
    match values with Some values => remove_from_indexes crypto namespace indexes id values | None => mret tt end) r = (Ok ys, r') ∧
    removing v0 D ids (view r').
Proof.
  intros HD Hres. apply asyncMapSettled_run with (P := λ ids r, removing v0 D ids (view r)); [|done].
  intros ids1 id rest r1 -> HD1.
  destruct (get_record_holds (model_key namespace id) r1 (D !! id)) as (r2 & Hget & Hv2).
  { apply HD1, Hres. set_solver. }
  rewrite (bind_ok _ _ _ _ _ Hget). destruct (D !! id) as [fields|] eqn:E.
  - destruct (remove_from_indexes_touches id fields r2) as (v3 & (r3 & Hrem & <-) & Ht).
    { intros k (index & s & Hi & ->)%index_keys_form. rewrite Hv2. by apply (rm_set_at _ _ _ _ HD1). }
    exists tt, r3. split; [done|]. rewrite Hv2 in Ht. by eapply removing_touched.
  - exists tt, r2. split; [done|]. rewrite Hv2. by apply removing_none.
Qed.

Lemma foldr_delete_keys (ids : list jstring) (v : keyspace) k :
  (∀ id, id ∈ ids → k ≠ model_key namespace id) → foldr delete v (map (model_key namespace) ids) !! k = v !! k.
Proof.
  intros Hk. apply lookup_foldr_delete_not_elem_of. intros (id & -> & Hid)%list_elem_of_fmap. by apply (Hk id).
Qed.

Lemma removed_represents v0 D ids v :
  removing v0 D ids v → (∀ id, is_Some (D !! id) → ¬ reserved id) →
  set_at v0 (ids_key namespace) → members v0 (ids_key namespace) = dom D ∖ list_to_set ids →
  represents (foldr delete v (map (model_key namespace) ids)) (foldr delete D ids).
Proof.
  intros HD Hres Hset Hmem.
  assert (∀ index s, foldr delete v (map (model_key namespace) ids) !! (index_prefix namespace index ++ s) = v !! (index_prefix namespace index ++ s)) as Hx.
  { intros index s. apply foldr_delete_keys. intros id _. apply index_not_model. }
  assert (foldr delete v (map (model_key namespace) ids) !! ids_key namespace = v0 !! ids_key namespace) as Hids.
  { rewrite foldr_delete_keys by (intros; apply ids_not_model). apply HD. }
  assert (∀ id, foldr delete D ids !! id = if decide (id ∈ ids) then None else D !! id) as Hdel.
  { intros id. case_decide; [by apply lookup_foldr_delete|by apply lookup_foldr_delete_not_elem_of]. }
  split; [split|..].
  - intros id. rewrite Hdel. case_decide; [by intros [? ?]|]. apply Hres.
  - intros id Hid. rewrite Hdel. case_decide as Hi.
    + rewrite lookup_foldr_delete; [done|]. by apply list_elem_of_fmap_2.
    + rewrite foldr_delete_keys; [by apply HD|]. intros i Hi' E. apply model_key_inj in E. congruence.
  - intros index s Hi. eapply set_at_ext; [apply Hx|]. by apply (rm_set_at _ _ _ _ HD).
  - intros index s id Hi. rewrite (members_ext _ _ _ (Hx index s)), (rm_index _ _ _ _ HD) by done. rewrite Hdel.
    case_decide; naive_solver.
  - by eapply set_at_ext.
  - rewrite (members_ext _ _ _ Hids), Hmem. apply set_eq. intros id. rewrite elem_of_difference, elem_of_list_to_set, !elem_of_dom, Hdel.
    case_decide; [|tauto]. split; [tauto|]. by intros [? ?].
Qed.

Definition plain_remove (ids : list jstring) (D : models) : models := foldr delete D ids.

Lemma remove_correct v0 D ids r :
  simulated v0 r D → (∀ id, id ∈ ids → ¬ reserved id) →
  ∃ r', _remove crypto namespace indexes ids r = (Ok tt, r') ∧ simulated v0 r' (plain_remove ids D).
Proof.
  intros [[HD Hset Hids] Hout] Hres. destruct ids as [|id0 rest]; [by exists r|].
  unfold _remove, plain_remove. set (ids := id0 :: rest) in *.
  destruct (sRem_law (ids_key namespace) ids r Hset ltac:(done)) as (r1 & Hrun1 & Hv1). rewrite Hids in Hv1.
  rewrite (bind_ok _ _ _ _ _ Hrun1). clear Hrun1.
  assert (holds_models (view r1) D) as HD1 by (rewrite Hv1; by apply holds_models_ids).
  assert (removing (view r1) D [] (view r1)) as Hrm.
  { split; [apply HD1|apply HD1| |done|done]. intros index s id Hi. rewrite (hm_index _ _ _ _ _ HD1) by done. set_solver. }
  assert (∃ r2, (match indexes with
    | [] => mret tt
    | _ => asyncMapSettled ids (λ id,
        values ← get_record (model_key namespace id);
        match values with Some values => remove_from_indexes crypto namespace indexes id values | None => mret tt end) ;; mret tt
    end : M R unit) r1 = (Ok tt, r2) ∧ removing (view r1) D ids (view r2)) as (r2 & Hrun2 & HD2).
  { destruct (decide (indexes = [])) as [E|E].
    - exists r1. rewrite E. split; [done|]. split; try apply Hrm. intros index s id Hi. rewrite E in Hi. by apply elem_of_nil in Hi.
    - destruct (remove_entries (view r1) D ids r1 Hrm Hres) as (ys & r2 & Hrun & HD2). exists r2. split; [|done].
      destruct indexes; [done|]. by rewrite (bind_ok _ _ _ _ _ Hrun). }
  rewrite (bind_ok _ _ _ _ _ Hrun2).
  destruct (del_law (map (model_key namespace) ids) r2 ltac:(done)) as (r3 & Hrun3 & Hv3). exists r3. split; [done|].
  unfold simulated. rewrite Hv3. split.
  - apply removed_represents with (view r1); [done|apply HD| |].
    + rewrite Hv1. by apply set_at_put_set.
    + by rewrite Hv1, members_put_set, decide_True.
  - intros k Hk. rewrite foldr_delete_keys by (intros id _ ->; by apply Hk, own_model).
    rewrite (rm_out _ _ _ _ HD2 k Hk), Hv1, lookup_put_set_ne; [by apply Hout|]. intros <-. by apply Hk, own_ids.
Qed.

(** *** Making the indexes again *)

Lemma startsWith_spec p k : startsWith p k = true ↔ ∃ s, k = p ++ s.
Proof.
  unfold startsWith. rewrite bool_decide_eq_true. split.
  - intros E. exists (drop (length p) k). by rewrite <- E at 1; rewrite take_drop.
  - intros [s ->]. apply take_app_length.
Qed.

Lemma foldr_delete_lookup (ks : list jstring) (v : keyspace) k :
  foldr delete v ks !! k = if decide (k ∈ ks) then None else v !! k.
Proof. case_decide; [by apply lookup_foldr_delete|by apply lookup_foldr_delete_not_elem_of]. Qed.

(** The former indexes of [done] are deleted. *)
Lemma delete_indexes r :
  ∃ ys r', asyncMapSettled indexes (λ index,
      keys ← redis_keys (index_prefix namespace index);
      match keys with [] => mret tt | _ => redis_del keys end) r = (Ok ys, r') ∧
    (∀ index s, index ∈ indexes → view r' !! (index_prefix namespace index ++ s) = None) ∧
    (∀ k, (∀ index s, index ∈ indexes → k ≠ index_prefix namespace index ++ s) → view r' !! k = view r !! k).
Proof.
  apply asyncMapSettled_run with (P := λ l r',
    (∀ index s, index ∈ l → view r' !! (index_prefix namespace index ++ s) = None) ∧
    (∀ k, (∀ index s, index ∈ indexes → k ≠ index_prefix namespace index ++ s) → view r' !! k = view r !! k)).
  2:{ split; [|done]. by intros ? ? ?%elem_of_nil. }
  intros l index rest r1 Hl [Hnone Hother].
  destruct (keys_law (index_prefix namespace index) r1) as (ks & (r2 & Hkeys & Hv2) & Hks).
  assert (∃ r3, (match ks with [] => mret tt | _ => redis_del ks end) r2 = (Ok tt, r3) ∧ view r3 = foldr delete (view r1) ks) as (r3 & Hdel & Hv3).
  { destruct ks as [|k ks]; [by exists r2|]. destruct (del_law (k :: ks) r2 ltac:(done)) as (r3 & ? & Hv3). exists r3.
    split; [done|]. by rewrite Hv3, Hv2. }
  exists tt, r3. rewrite (bind_ok _ _ _ _ _ Hkeys). split; [done|]. split.
  - intros i s Hi. rewrite Hv3, foldr_delete_lookup. case_decide as Hk; [done|].
    destruct (view r1 !! (index_prefix namespace i ++ s)) eqn:E; [|done].
    rewrite elem_of_app, list_elem_of_singleton in Hi. destruct Hi as [Hi| ->]; [by rewrite Hnone in E|].
    contradict Hk. apply Hks. split; [by eexists|]. apply startsWith_spec. by eexists.
  - intros k Hk. rewrite Hv3, foldr_delete_lookup. case_decide as Hin; [|by apply Hother].
    apply Hks in Hin as [_ [s ->]%startsWith_spec]. exfalso. apply (Hk index s); [|done]. rewrite Hl. set_solver.
Qed.

(** The models of [ids] are in the indexes again, and those that are not stored are
    not registered any more. *)
Record rebuilding (v0 : keyspace) (D : models) (ids : list jstring) (v : keyspace) : Prop := {
  rb_stored id : ¬ reserved id → holds (v !! model_key namespace id) (D !! id);
  rb_set_at index s : index ∈ indexes → set_at v (index_prefix namespace index ++ s);
  rb_index index s id : index ∈ indexes →
    id ∈ members v (index_prefix namespace index ++ s) ↔ id ∈ ids ∧ ∃ fields, D !! id = Some fields ∧ indexed_as fields index s;
  rb_ids_at : set_at v (ids_key namespace);
  rb_ids id : id ∈ members v (ids_key namespace) ↔ id ∈ members v0 (ids_key namespace) ∧ (id ∈ ids → is_Some (D !! id));
  rb_out k : ¬ own_key namespace k → v !! k = v0 !! k;
}.

Lemma rebuilding_touched v0 D ids id fields v v' :
  rebuilding v0 D ids v → D !! id = Some fields → touched (λ s, s ∪ {[id]}) (index_keys fields) v v' →
  rebuilding v0 D (ids ++ [id]) v'.
Proof.
  intros HD Hid Ht.
  assert (v' !! ids_key namespace = v !! ids_key namespace) as Hids.
  { apply Ht, not_index_key. intros; apply index_not_ids. }
  split.
  - intros i Hi. rewrite (proj1 (Ht _)) by (apply not_index_key; intros; apply index_not_model). by apply HD.
  - intros index s Hi. destruct (index_key_in fields index s Hi) as [Hk|Hk]; [by apply Ht|].
    eapply set_at_ext; [by apply Ht|]. by apply (rb_set_at _ _ _ _ HD).
  - intros index s i Hi. pose proof (rb_index _ _ _ _ HD index s i Hi) as Hm. rewrite elem_of_app, list_elem_of_singleton.
    destruct (index_key_in fields index s Hi) as [Hk|Hk].
    + rewrite (proj2 (proj2 (Ht _) Hk)), elem_of_union, elem_of_singleton, Hm. apply elem_of_index_keys in Hk; [|done]. naive_solver.
    + rewrite (members_ext _ _ _ (proj1 (Ht _) Hk)), Hm. rewrite elem_of_index_keys in Hk by done. naive_solver.
  - eapply set_at_ext; [done|]. apply (rb_ids_at _ _ _ _ HD).
  - intros i. rewrite (members_ext _ _ _ Hids), (rb_ids _ _ _ _ HD), elem_of_app, list_elem_of_singleton. naive_solver.
  - intros k Hk. rewrite (proj1 (Ht _)); [by apply HD|]. by apply not_own_index_keys.
Qed.

Lemma rebuilding_none v0 D ids id v :
  rebuilding v0 D ids v → D !! id = None →
  rebuilding v0 D (ids ++ [id]) (put_set (ids_key namespace) (members v (ids_key namespace) ∖ {[id]}) v).
Proof.
  intros HD Hid.
  assert (∀ index s, put_set (ids_key namespace) (members v (ids_key namespace) ∖ {[id]}) v !! (index_prefix namespace index ++ s) =
    v !! (index_prefix namespace index ++ s)) as Hx.
  { intros index s. apply lookup_put_set_ne. intros E. by apply (index_not_ids namespace index s). }
  split.
  - intros i Hi. rewrite lookup_put_set_ne by apply ids_not_model. by apply HD.
  - intros index s Hi. eapply set_at_ext; [apply Hx|]. by apply (rb_set_at _ _ _ _ HD).
  - intros index s i Hi. rewrite (members_ext _ _ _ (Hx index s)), (rb_index _ _ _ _ HD), elem_of_app, list_elem_of_singleton by done.
    naive_solver congruence.
  - apply set_at_put_set, (rb_ids_at _ _ _ _ HD).
  - intros i. rewrite members_put_set, decide_True by done. rewrite elem_of_difference, elem_of_singleton, (rb_ids _ _ _ _ HD), elem_of_app, list_elem_of_singleton.
    split; [naive_solver|]. intros [Hm Hi]. split; [naive_solver|]. intros ->. rewrite Hid in Hi. destruct Hi as [? ?]; [by right|done].
  - intros k Hk. rewrite lookup_put_set_ne; [by apply HD|]. intros <-. by apply Hk, own_ids.
Qed.

Lemma rebuild_entries v0 D ids r :
  rebuilding v0 D [] (view r) → (∀ id, id ∈ ids → ¬ reserved id) →
  ∃ ys r', asyncMapSettled ids (λ id,
    values ← get_record (model_key namespace id);
    match values with
    | None => redis_sRem (ids_key namespace) [id]
    | Some values => add_to_indexes crypto namespace indexes id values
    end) r = (Ok ys, r') ∧ rebuilding v0 D ids (view r').
Proof.
  intros HD Hres. apply asyncMapSettled_run with (P := λ ids r, rebuilding v0 D ids (view r)); [|done].
  intros ids1 id rest r1 -> HD1.
  destruct (get_record_holds (model_key namespace id) r1 (D !! id)) as (r2 & Hget & Hv2).
  { apply HD1, Hres. set_solver. }
  rewrite (bind_ok _ _ _ _ _ Hget). destruct (D !! id) as [fields|] eqn:E.
  - destruct (add_to_indexes_touches id fields r2) as (v3 & (r3 & Hadd & <-) & Ht).
    { intros k (index & s & Hi & ->)%index_keys_form. rewrite Hv2. by apply (rb_set_at _ _ _ _ HD1). }
    exists tt, r3. split; [done|]. rewrite Hv2 in Ht. by eapply rebuilding_touched.
  - destruct (sRem_law (ids_key namespace) [id] r2) as (r3 & Hrem & Hv3); [rewrite Hv2; apply (rb_ids_at _ _ _ _ HD1)|done|].
    exists tt, r3. split; [done|]. cbn [list_to_set foldr] in Hv3. rewrite union_empty_r_L, Hv2 in Hv3. rewrite Hv3. by apply rebuilding_none.
Qed.

(** Every stored model is registered, and has a usable identifier; the indexes hold
    anything. *)
Record stores (v : keyspace) (D : models) : Prop := {
  st_stored id : ¬ reserved id → holds (v !! model_key namespace id) (D !! id);
  st_ids_at : set_at v (ids_key namespace);
  st_registered id : is_Some (D !! id) → id ∈ members v (ids_key namespace);
  st_reserved id : id ∈ members v (ids_key namespace) → ¬ reserved id;
}.

Lemma index_not_indexes i s : index_prefix namespace i ++ s ≠ indexes_key namespace.
Proof. change (indexes_key namespace) with (model_key namespace (js ":indexes")). apply index_not_model. Qed.

Lemma holds_other_key (v v' : keyspace) (D : models) id : v' !! model_key namespace id = v !! model_key namespace id →
  holds (v !! model_key namespace id) (D !! id) → holds (v' !! model_key namespace id) (D !! id).
Proof. by intros ->. Qed.

Lemma rebuild_correct v0 D r :
  indexes ≠ [] → stores (view r) D → (∀ k, ¬ own_key namespace k → view r !! k = v0 !! k) →
  ∃ r', rebuildIndexes crypto namespace indexes r = (Ok tt, r') ∧ simulated v0 r' D.
Proof.
  intros Hne HD Hout. unfold rebuildIndexes. destruct (del_law [indexes_key namespace] r ltac:(done)) as (r1 & Hrun1 & Hv1).
  cbn [foldr] in Hv1.
  destruct (sAdd_law (indexes_key namespace) indexes r1) as (r2 & Hrun2 & Hv2).
  { rewrite Hv1. unfold set_at. by rewrite lookup_delete_eq. }
  { done. }
  destruct (delete_indexes r2) as (ys & r3 & Hrun3 & Hnone & Hother).
  assert (∀ k, k ≠ indexes_key namespace → view r2 !! k = view r !! k) as Hsame2.
  { intros k Hk. rewrite Hv2, lookup_put_set_ne, Hv1 by done. by apply lookup_delete_ne. }
  assert (∀ k, (∀ index s, k ≠ index_prefix namespace index ++ s) → k ≠ indexes_key namespace → view r3 !! k = view r !! k) as Hsame3.
  { intros k Hk Hk'. rewrite Hother; [by apply Hsame2|]. intros index s _. apply Hk. }
  assert (view r3 !! ids_key namespace = view r !! ids_key namespace) as Hids.
  { apply Hsame3; [intros index s E; by apply (index_not_ids namespace index s)|].
    change (indexes_key namespace) with (model_key namespace (js ":indexes")). apply ids_not_model. }
  assert (rebuilding (view r) D [] (view r3)) as Hrb.
  { split.
    - intros id Hid. apply holds_other_key with (view r); [|by apply HD].
      apply Hsame3; [intros index s E; by apply (index_not_model namespace index s id)|].
      change (indexes_key namespace) with (model_key namespace (js ":indexes")). intros E%model_key_inj. apply Hid. by right.
    - intros index s Hi. unfold set_at. by rewrite Hnone.
    - intros index s id Hi. unfold members. rewrite Hnone by done. set_solver.
    - eapply set_at_ext; [done|]. apply (st_ids_at _ _ HD).
    - intros id. rewrite (members_ext _ _ _ Hids). split; [|tauto]. intros ?. split; [done|]. by intros ?%elem_of_nil.
    - intros k Hk. apply Hsame3; [intros index s ->; by apply Hk, own_index|]. intros ->. by apply Hk, (own_model (js ":indexes")). }
  destruct (sMembers_law (ids_key namespace) r3) as (ids & (r4 & Hrun4 & Hv4) & _ & Hmem).
  { eapply set_at_ext; [done|]. apply (st_ids_at _ _ HD). }
  rewrite (members_ext _ _ _ Hids) in Hmem.
  destruct (rebuild_entries (view r) D ids r4) as (zs & r5 & Hrun5 & Hdone); [by rewrite Hv4|intros id Hid; by apply HD, Hmem|].
  exists r5. rewrite (bind_ok _ _ _ _ _ Hrun1), (match_nonempty indexes) by done.
  rewrite (bind_ok _ _ _ _ _ Hrun2), (bind_ok _ _ _ _ _ Hrun3), (bind_ok _ _ _ _ _ Hrun4), (bind_ok _ _ _ _ _ Hrun5). split; [done|].
  split; [|intros k Hk; rewrite (rb_out _ _ _ _ Hdone) by done; by apply Hout].
  assert (∀ id, is_Some (D !! id) → id ∈ ids) as Hin by (intros id Hid; by apply Hmem, HD).
  split; [split|..].
  - intros id Hid. by apply HD, HD.
  - apply Hdone.
  - apply Hdone.
  - intros index s id Hi. rewrite (rb_index _ _ _ _ Hdone) by done. split; [tauto|]. intros (f & Hf & Hx). split; [|by eauto]. apply Hin. by eexists.
  - apply (rb_ids_at _ _ _ _ Hdone).
  - apply set_eq. intros id. rewrite (rb_ids _ _ _ _ Hdone), elem_of_dom. rewrite <- Hmem. split; [tauto|]. intros Hid. by auto.
Qed.

(** *** The operations on the models alone *)

Context (beforeAdd : A → M R unit) (beforeUpdate : A → A → M R unit).
Context (addCheck : A → gmap jstring record → result unit) (updateCheck : A → A → gmap jstring record → result unit).

(** The hooks of the class only look at the models. *)
Record hooks_laws : Prop := {
  beforeAdd_law a D r : holds_models (view r) D → ∃ r', beforeAdd a r = (addCheck a D, r') ∧ view r' = view r;
  beforeUpdate_law a b D r : holds_models (view r) D → ∃ r', beforeUpdate a b r = (updateCheck a b D, r') ∧ view r' = view r;
}.
Hypothesis hooks : hooks_laws.

Definition plain_addOne (replace : bool) (input : Input A) : M models (jstring * A) := λ D,
  let id := in_id input in
  let fields := serialize class (model input) in
  let checked := match D !! id with
                 | None => addCheck (model input) D
                 | Some previous => if replace then updateCheck (model input) (unserialize class previous) D
                                    else Throw (OtherError "this model already exists")
                 end in
  match checked with
  | Ok _ => (Ok (id, unserialize class fields), <[id := fields]> D)
  | Throw e => (Throw e, D)
  end.

(** *** Writing a model *)

(** What [unserialize] leaves of the indexed fields of a record, when it is replaced. *)
Definition keeps_indexes (replace : bool) (input : Input A) (D : models) : Prop :=
  replace = true → ∀ previous index, D !! in_id input = Some previous → index ∈ indexes →
    unserialized class previous !! index = previous !! index ∨ serialize class (model input) !! index = previous !! index.

(** The identifier of a model to add is not reserved, enough bytes are drawn. *)
Definition usable (input : Input A) : Prop := ¬ reserved (in_id input) ∧ length (iv input) = IV_LENGTH.

(** The last steps of [_addOne]. *)
Definition write (input : Input A) : M R (jstring * A) :=
  let fields := serialize class (model input) in
  serialized ← lift (match active crypto with Some c => encrypt c (iv input) (stringify fields) | None => Ok (stringify fields) end);
  redis_set (model_key namespace (in_id input)) serialized ;;
  add_to_indexes crypto namespace indexes (in_id input) fields ;;
  mret (in_id input, unserialize class fields).

Lemma write_correct v0 input D r :
  let id := in_id input in let fields := serialize class (model input) in
  holds_others (view r) D id fields → ¬ reserved id → length (iv input) = IV_LENGTH →
  set_at (view r) (ids_key namespace) → members (view r) (ids_key namespace) = dom D ∪ {[id]} →
  (∀ k, ¬ own_key namespace k → view r !! k = v0 !! k) →
  ∃ r', write input r = (Ok (id, unserialize class fields), r') ∧ simulated v0 r' (<[id := fields]> D).
Proof.
  intros id fields HD Hres Hiv Hset Hmem Hout. destruct (encode_text (iv input) fields Hiv) as (text & Henc & Htext).
  destruct (set_law (model_key namespace id) text r) as (r1 & Hrun1 & Hv1).
  destruct (add_to_indexes_touches id fields r1) as (v2 & (r2 & Hrun2 & Hv2) & Ht).
  { intros k (index & s & Hi & ->)%index_keys_form. rewrite Hv1. eapply set_at_ext; [|by apply (ho_set_at _ _ _ _ HD)].
    apply lookup_insert_ne. intros E. by apply (index_not_model namespace index s id). }
  exists r2. split.
  { unfold write. fold fields. fold id. unfold mbind at 1, M_bind at 1, lift. rewrite Henc.
    by rewrite (bind_ok _ _ _ _ _ Hrun1), (bind_ok _ _ _ _ _ Hrun2). }
  subst v2. rewrite Hv1 in Ht.
  assert (view r2 !! ids_key namespace = view r !! ids_key namespace) as Hids.
  { rewrite (proj1 (Ht _)) by (apply not_index_key; intros; apply index_not_ids).
    apply lookup_insert_ne. intros E. by apply (ids_not_model namespace id). }
  split; [split|].
  - eapply holds_written; done.
  - by eapply set_at_ext.
  - rewrite (members_ext _ _ _ Hids), Hmem. rewrite dom_insert_L. set_solver.
  - intros k Hk. rewrite <- Hout, (proj1 (Ht k)) by (done || by apply not_own_index_keys).
    apply lookup_insert_ne. intros <-. by apply Hk, own_model.
Qed.

Definition add_step (replace : bool) (input : Input A) (newEntry : Z) : M R unit :=
  let id := in_id input in
  if negb (newEntry =? 0) then λ r,
    match beforeAdd (model input) r with
    | (Throw e, r) => (redis_sRem (ids_key namespace) [id] ;; lift (Throw e)) r
    | (Ok _, r) => (Ok tt, r)
    end
  else if replace then
    previous ← get_record (model_key namespace id);
    match previous with
    | Some previous =>
        beforeUpdate (model input) (unserialize class previous) ;;
        remove_from_indexes crypto namespace indexes id (unserialized class previous)
    | None => mret tt
    end
  else lift (Throw (OtherError "this model already exists")).

Lemma addOne_steps replace input :
  _addOne crypto class namespace indexes beforeAdd beforeUpdate replace input =
  newEntry ← redis_sAdd (ids_key namespace) [in_id input]; add_step replace input newEntry ;; write input.
Proof. reflexivity. Qed.

Lemma addOne_new v0 replace input D r :
  simulated v0 r D → usable input → D !! in_id input = None →
  ∃ r', _addOne crypto class namespace indexes beforeAdd beforeUpdate replace input r = ((plain_addOne replace input D).1, r') ∧
    simulated v0 r' (plain_addOne replace input D).2.
Proof.
  intros [[HD Hset Hids] Hout] [Hres Hiv] Hid. rewrite addOne_steps. set (id := in_id input) in *.
  destruct (sAdd_law (ids_key namespace) [id] r Hset ltac:(done)) as (r1 & Hrun1 & Hv1).
  rewrite (bind_ok _ _ _ _ _ Hrun1). clear Hrun1. rewrite Hids in Hv1 |- *. cbn [list_to_set foldr] in Hv1 |- *. rewrite union_empty_r_L in Hv1 |- *.
  assert (id ∉ dom D) as Hnew by (intros Hn%elem_of_dom; rewrite Hid in Hn; by destruct Hn).
  assert (({[id]} : gset jstring) ∖ dom D = {[id]}) as -> by set_solver. rewrite size_singleton.
  assert (holds_models (view r1) D) as HD1 by (rewrite Hv1; by apply holds_models_ids).
  unfold plain_addOne. fold id. rewrite Hid. change (Z.of_nat 1) with 1.
  destruct (beforeAdd_law hooks (model input) D r1 HD1) as (r2 & Hbefore & Hv2).
  assert (set_at (view r2) (ids_key namespace) ∧ members (view r2) (ids_key namespace) = dom D ∪ {[id]}) as [Hset2 Hmem2].
  { rewrite Hv2, Hv1, members_put_set, decide_True by done. split; [|done]. by apply set_at_put_set. }
  assert (∀ k, ¬ own_key namespace k → view r2 !! k = v0 !! k) as Hout2.
  { intros k Hk. rewrite Hv2, Hv1, lookup_put_set_ne; [by apply Hout|]. intros <-. by apply Hk, own_ids. }
  rewrite <- Hv2 in HD1. destruct (addCheck (model input) D) as [[]|e].
  - rewrite (bind_ok _ _ _ tt r2) by (unfold add_step; cbn; by rewrite Hbefore). apply (write_correct v0 input D r2); try done. by apply holds_others_new.
  - destruct (sRem_law (ids_key namespace) [id] r2 Hset2 ltac:(done)) as (r3 & Hrun3 & Hv3). exists r3.
    rewrite (bind_throw _ _ _ e r3) by (unfold add_step; cbn; by rewrite Hbefore, (bind_ok _ _ _ _ _ Hrun3)).
    split; [done|]. cbn [list_to_set foldr] in Hv3. rewrite union_empty_r_L, Hmem2 in Hv3.
    cbn [snd]. split; [split|].
    + rewrite Hv3. by apply holds_models_ids.
    + rewrite Hv3. by apply set_at_put_set.
    + rewrite Hv3, members_put_set, decide_True by done. set_solver.
    + intros k Hk. rewrite Hv3, lookup_put_set_ne; [by apply Hout2|]. intros <-. by apply Hk, own_ids.
Qed.

Lemma addOne_existing v0 replace input D r previous :
  simulated v0 r D → usable input → D !! in_id input = Some previous → keeps_indexes replace input D →
  ∃ r', _addOne crypto class namespace indexes beforeAdd beforeUpdate replace input r = ((plain_addOne replace input D).1, r') ∧
    simulated v0 r' (plain_addOne replace input D).2.
Proof.
  intros [[HD Hset Hids] Hout] [Hres Hiv] Hid Hkeep. rewrite addOne_steps. unfold keeps_indexes in Hkeep. set (id := in_id input) in *.
  destruct (sAdd_law (ids_key namespace) [id] r Hset ltac:(done)) as (r1 & Hrun1 & Hv1).
  rewrite (bind_ok _ _ _ _ _ Hrun1). clear Hrun1. rewrite Hids in Hv1 |- *. cbn [list_to_set foldr] in Hv1 |- *. rewrite union_empty_r_L in Hv1 |- *.
  assert (id ∈ dom D) as Hin by (apply elem_of_dom; by eexists).
  assert (({[id]} : gset jstring) ∖ dom D = ∅) as -> by set_solver. rewrite size_empty.
  assert (dom D ∪ {[id]} = dom D) as E by set_solver. rewrite E in Hv1.
  assert (simulated v0 r1 D) as [[HD1 Hset1 Hids1] Hout1].
  { split; [split|]; rewrite ?Hv1.
    - by apply holds_models_ids.
    - by apply set_at_put_set.
    - by rewrite members_put_set, decide_True.
    - intros k Hk. rewrite lookup_put_set_ne; [by apply Hout|]. intros <-. by apply Hk, own_ids. }
  unfold plain_addOne. fold id. rewrite Hid. change (Z.of_nat 0) with 0. destruct replace; [|by exists r1].
  destruct (get_record_holds (model_key namespace id) r1 (Some previous)) as (r2 & Hget & Hv2).
  { rewrite <- Hid. by apply HD1. }
  rewrite <- Hv2 in HD1, Hset1, Hids1, Hout1.
  destruct (beforeUpdate_law hooks (model input) (unserialize class previous) D r2 HD1) as (r3 & Hbefore & Hv3).
  rewrite <- Hv3 in HD1, Hset1, Hids1, Hout1.
  destruct (updateCheck (model input) (unserialize class previous) D) as [[]|e].
  2:{ exists r3. split; [|done]. apply bind_throw. unfold add_step. cbn [negb Z.eqb].
      by rewrite (bind_ok _ _ _ _ _ Hget), (bind_throw _ _ _ _ _ Hbefore). }
  destruct (remove_from_indexes_touches id (unserialized class previous) r3) as (v4 & (r4 & Hrem & Hv4) & Ht).
  { intros k (index & s & Hi & ->)%index_keys_form. by apply (hm_set_at _ _ _ _ _ HD1). }
  rewrite (bind_ok _ _ _ tt r4).
  2:{ unfold add_step. cbn [negb Z.eqb]. by rewrite (bind_ok _ _ _ _ _ Hget), (bind_ok _ _ _ _ _ Hbefore). }
  subst v4. rewrite <- (insert_delete_eq D id).
  assert (view r4 !! ids_key namespace = view r3 !! ids_key namespace) as Hsame.
  { apply Ht, not_index_key. intros; apply index_not_ids. }
  apply (write_correct v0 input (delete id D) r4); fold id.
  - eapply holds_others_removed; [exact HD1|exact Hid|by intros; apply Hkeep|exact Ht].
  - done.
  - done.
  - by eapply set_at_ext.
  - by rewrite (members_ext _ _ _ Hsame), Hids1, dom_delete_L, difference_union_L, E.
  - intros k Hk. rewrite <- Hout1 by done. by apply Ht, not_own_index_keys.
Qed.

(** *** Sequences of operations *)

Local Abbreviation Event := (Database.Event (A := A)).
Local Abbreviation Db := (Database.Db (R := R) (A := A)).

Inductive Request :=
  | ReqAdd (inputs : list (Input A))
  | ReqUpdate (inputs : list (Input A))
  | ReqRemove (ids : list jstring)
  | ReqGet (properties : record).

Inductive Answer := Models (l : list (jstring * A)) | Removed (b : bool) | Failed (e : error).

Definition answer {B} (f : B → Answer) (r : result B) : Answer := match r with Ok b => f b | Throw e => Failed e end.

Definition serve (request : Request) (s : Db) : Answer * Db :=
  match request with
  | ReqAdd inputs => let '(a, s) := add crypto class namespace indexes beforeAdd beforeUpdate inputs s in (answer Models a, s)
  | ReqUpdate inputs => let '(a, s) := update crypto class namespace indexes beforeAdd beforeUpdate inputs s in (answer Models a, s)
  | ReqRemove ids => let '(a, s) := remove crypto namespace indexes ids s in (answer Removed a, s)
  | ReqGet properties => let '(a, s) := get crypto class namespace indexes properties s in (answer Models a, s)
  end.

Fixpoint serve_all (requests : list Request) (s : Db) : list Answer * Db :=
  match requests with
  | [] => ([], s)
  | request :: requests =>
      let '(a, s) := serve request s in
      let '(l, s) := serve_all requests s in (a :: l, s)
  end.

Definition plain_add (replace : bool) (inputs : list (Input A)) : M models (list (jstring * A)) :=
  asyncMapSettled inputs (plain_addOne replace).

(** What is told of the models that were written. *)
Definition events_of (event : list (jstring * A) → Event) (a : result (list (jstring * A))) : list Event :=
  match a with Ok l => [event l] | Throw _ => [] end.

(** The same requests on the models alone. *)
Inductive plain_serve (D : models) : Request → Answer → models → list Event → Prop :=
  | plain_ReqAdd inputs a D' : plain_add false inputs D = (a, D') →
      plain_serve D (ReqAdd inputs) (answer Models a) D' (events_of EAdd a)
  | plain_ReqUpdate inputs a D' : (∀ i, i ∈ inputs → is_Some (given_id i)) → plain_add true inputs D = (a, D') →
      plain_serve D (ReqUpdate inputs) (answer Models a) D' (events_of EUpdate a)
  | plain_ReqUpdate_fails inputs i : i ∈ inputs → given_id i = None →
      plain_serve D (ReqUpdate inputs) (Failed (OtherError "a model without an id cannot be updated")) D []
  | plain_ReqRemove ids : plain_serve D (ReqRemove ids) (Removed true) (plain_remove ids D) [ERemove ids]
  | plain_ReqGet properties l : NoDup l.*1 → (∀ m, m ∈ l ↔ answers D properties m) →
      plain_serve D (ReqGet properties) (Models l) D [].

Inductive plain_serve_all : models → list Request → list Answer → models → list Event → Prop :=
  | plain_nil D : plain_serve_all D [] [] D []
  | plain_cons D request a D1 e requests l D2 es : plain_serve D request a D1 e → plain_serve_all D1 requests l D2 es →
      plain_serve_all D (request :: requests) (a :: l) D2 (e ++ es).

(** The requests that can be made: usable identifiers, and indexed properties. *)
Definition allowed (request : Request) : Prop :=
  match request with
  | ReqAdd inputs | ReqUpdate inputs => ∀ i, i ∈ inputs → usable i
  | ReqRemove ids => ∀ id, id ∈ ids → ¬ reserved id
  | ReqGet properties => properties = ∅ ∨ fit properties
  end.

Hypothesis unserialized_indexes : ∀ fields index, index ∈ indexes → unserialized class fields !! index = fields !! index.

Lemma asyncMapSettled_sim {S T B C} (Rel : S → T → Prop) (f : B → M S C) (g : B → M T C) xs s t :
  (∀ x s t, x ∈ xs → Rel s t → ∃ s', f x s = ((g x t).1, s') ∧ Rel s' (g x t).2) →
  Rel s t → ∃ s', asyncMapSettled xs f s = ((asyncMapSettled xs g t).1, s') ∧ Rel s' (asyncMapSettled xs g t).2.
Proof.
  revert s t. induction xs as [|x xs IH]; intros s t Hf HR; [by exists s|].
  destruct (Hf x s t ltac:(by left) HR) as (s1 & Hrun & HR1). cbn [asyncMapSettled]. rewrite Hrun.
  destruct (g x t) as [y t1] eqn:Eg. cbn [fst snd] in *.
  destruct (IH s1 t1) as (s2 & Hrun2 & HR2); [intros y' s0 t0 Hy; apply Hf; by right|done|]. rewrite Hrun2.
  destruct (asyncMapSettled xs g t1) as [ys t2]. by exists s2.
Qed.

Lemma add_correct v0 replace inputs D r :
  simulated v0 r D → (∀ i, i ∈ inputs → usable i) →
  ∃ r', _add crypto class namespace indexes beforeAdd beforeUpdate replace inputs r = ((plain_add replace inputs D).1, r') ∧
    simulated v0 r' (plain_add replace inputs D).2.
Proof.
  intros HD Hres. apply (asyncMapSettled_sim (simulated v0)); [|done]. intros i r1 D1 Hi HD1.
  destruct (D1 !! in_id i) as [previous|] eqn:E; [|by apply addOne_new; auto].
  apply addOne_existing with previous; auto. intros _ p index _ Hx. left. by apply unserialized_indexes.
Qed.

Lemma serve_correct v0 request D r es :
  simulated v0 r D → allowed request →
  ∃ a r' D' e, serve request (r, es) = (a, (r', es ++ e)) ∧ plain_serve D request a D' e ∧ simulated v0 r' D'.
Proof.
  intros HD Hreq. destruct request as [inputs|inputs|ids|properties]; cbn [allowed] in Hreq.
  - destruct (add_correct v0 false inputs D r HD Hreq) as (r' & Hrun & HD'). destruct (plain_add false inputs D) as [a D'] eqn:E.
    exists (answer Models a), r', D', (events_of EAdd a). split; [|by split; [constructor|]].
    unfold serve, add, on_redis, emit, mbind, M_bind. cbn [fst snd]. rewrite Hrun. destruct a; cbn; [done|by rewrite app_nil_r].
  - destruct (forallb (λ m, bool_decide (is_Some (given_id m))) inputs) eqn:Ef.
    + destruct (add_correct v0 true inputs D r HD Hreq) as (r' & Hrun & HD'). destruct (plain_add true inputs D) as [a D'] eqn:E.
      exists (answer Models a), r', D', (events_of EUpdate a). split; [|split; [constructor; [|done]|done]].
      * unfold serve, update. rewrite Ef. unfold on_redis, emit, mbind, M_bind. cbn [fst snd]. rewrite Hrun. destruct a; cbn; [done|by rewrite app_nil_r].
      * intros i Hi. rewrite forallb_forall in Ef. apply (bool_decide_unpack _). apply Is_true_true, Ef. by apply list_elem_of_In.
    + exists (Failed (OtherError "a model without an id cannot be updated")), r, D, []. split; [unfold serve, update; rewrite Ef; cbn; by rewrite app_nil_r|].
      split; [|done]. apply not_true_iff_false in Ef. rewrite forallb_forall in Ef.
      destruct (decide (Exists (λ i, given_id i = None) inputs)) as [(i & Hi & Hn)%Exists_exists|Hall]; [by econstructor|].
      contradict Ef. intros i Hi%list_elem_of_In. apply bool_decide_eq_true. destruct (given_id i) eqn:E; [by eexists|].
      contradict Hall. apply Exists_exists. by exists i.
  - destruct (remove_correct v0 D ids r HD Hreq) as (r' & Hrun & HD'). exists (Removed true), r', (plain_remove ids D), [ERemove ids].
    split; [|by split; [constructor|]]. unfold serve, remove, on_redis, emit, mbind, M_bind. cbn [fst snd]. by rewrite Hrun.
  - destruct (get_answers (view r) D properties r) as (l & (r' & Hrun & Hv) & Hnd & Hl); [apply HD|done|done|].
    exists (Models l), r', D, []. split; [|split; [by constructor|]].
    + unfold serve, get, on_redis. cbn [fst snd]. by rewrite Hrun, app_nil_r.
    + unfold simulated. by rewrite Hv.
Qed.

Lemma serve_all_correct v0 requests D r es :
  simulated v0 r D → Forall allowed requests →
  ∃ l r' D' e, serve_all requests (r, es) = (l, (r', es ++ e)) ∧ plain_serve_all D requests l D' e ∧ simulated v0 r' D'.
Proof.
  revert D r es. induction requests as [|request requests IH]; intros D r es HD Hreqs.
  { exists [], r, D, []. split; [by rewrite app_nil_r|]. split; [constructor|done]. }
  apply Forall_cons in Hreqs as [Hreq Hreqs]. destruct (serve_correct v0 request D r es HD Hreq) as (a & r1 & D1 & e1 & Hrun & Hp & HD1).
  destruct (IH D1 r1 (es ++ e1) HD1 Hreqs) as (l & r2 & D2 & e2 & Hrun2 & Hp2 & HD2). exists (a :: l), r2, D2, (e1 ++ e2).
  cbn [serve_all]. rewrite Hrun, Hrun2, app_assoc. split; [done|]. split; [by econstructor|done].
Qed.
End facts.

(** ** Properties *)

(** The hypotheses on a collection: what is used of the encryption, no colon in the
    indexes, hooks that only look at the models, indexed fields that [unserialize] does
    not change.  The last one excludes the tokens: see [old_client_still_indexed]. *)
Record Collection {R A} `{Redis R} `{Json} (crypto : option Crypto) (class : ModelClass A) (namespace : jstring)
    (indexes : list jstring) (beforeAdd : A → M R unit) (beforeUpdate : A → A → M R unit)
    (addCheck : A → gmap jstring record → result unit) (updateCheck : A → A → gmap jstring record → result unit) : Prop := {
  col_crypto c : active crypto = Some c → CryptoLaws c;
  col_indexes : Forall (plain [colon]) indexes;
  col_namespace : plain [colon; underscore] namespace;
  col_hooks : hooks_laws crypto namespace indexes beforeAdd beforeUpdate addCheck updateCheck;
  col_unserialized fields index : index ∈ indexes → unserialized class fields !! index = fields !! index;
}.

(** The other collections of the server are not touched. *)
Lemma other_represents n n' crypto indexes v v' D :
  plain [colon; underscore] n → plain [colon; underscore] n' → n ≠ n' →
  (∀ k, ¬ own_key n k → v' !! k = v !! k) → `{Json} → ∀ `{Json}, represents crypto n' indexes v D → represents crypto n' indexes v' D.
Proof.
  intros Hn Hn' Hne Hout _ ? HD. apply (represents_ext crypto n' indexes v); [|done].
  intros k Hk. apply Hout. intros Hk'. by apply Hne, (own_key_inj n n' k).
Qed.

(** C13: A collection over Redis whose class leaves the indexed members of a record as they
    are when it reads it is a map of models: for any sequence of requests, one after the
    other and with usable identifiers, it answers and tells what the map does, keeps its
    indexes, and does not touch the other namespaces.  (The class of the tokens deletes an
    indexed member, and its index keeps old entries: [old_client_still_indexed].) *)
Theorem collection_refines {R A} `{RedisLaws R} `{JsonLaws} crypto (class : ModelClass A) namespace indexes
    beforeAdd beforeUpdate addCheck updateCheck requests D r es :
  Collection crypto class namespace indexes beforeAdd beforeUpdate addCheck updateCheck →
  represents crypto namespace indexes (view r) D → Forall (allowed indexes) requests →
  ∃ answers r' D' e,
    serve_all crypto class namespace indexes beforeAdd beforeUpdate requests (r, es) = (answers, (r', es ++ e)) ∧
    plain_serve_all class addCheck updateCheck D requests answers D' e ∧
    represents crypto namespace indexes (view r') D' ∧
    ∀ other crypto' indexes' D2, plain [colon; underscore] other → namespace ≠ other →
      represents crypto' other indexes' (view r) D2 → represents crypto' other indexes' (view r') D2.
Proof.
  intros [Hc Hi Hn Hh Hu] HD Hreqs.
  destruct (serve_all_correct crypto class namespace indexes Hc Hi beforeAdd beforeUpdate addCheck updateCheck Hh Hu (view r) requests D r es)
    as (l & r' & D' & e & Hrun & Hp & HD' & Hout); [done|done|].
  exists l, r', D', e. split; [done|]. split; [done|]. split; [done|].
  intros other crypto' indexes' D2 Ho Hne. by apply other_represents with namespace.
Qed.

(** C14: Whatever the indexes hold, making them again gives a collection of the models
    that are stored, and forgets the identifiers that have none. *)
Theorem rebuildIndexes_repairs {R} `{RedisLaws R} `{JsonLaws} crypto namespace indexes D r :
  (∀ c, active crypto = Some c → CryptoLaws c) → Forall (plain [colon]) indexes → indexes ≠ [] →
  stores crypto namespace (view r) D →
  ∃ r', rebuildIndexes crypto namespace indexes r = (Ok tt, r') ∧ represents crypto namespace indexes (view r') D ∧
    ∀ k, ¬ own_key namespace k → view r' !! k = view r !! k.
Proof.
  intros Hc Hi Hne HD. destruct (rebuild_correct crypto namespace indexes Hc Hi (view r) D r) as (r' & ? & ? & ?); [done..|]. by exists r'.
Qed.

(** ** A server, and an instance *)

(** The keys themselves; a wrong type is an error everywhere. *)
Definition on_set {B} (k : jstring) (f : gset jstring → B * gset jstring) : M keyspace B := λ v,
  match v !! k with
  | Some (RStr _) | Some (RHash _) => (Throw WRONGTYPE, v)
  | _ => let '(b, s) := f (members v k) in (Ok b, put_set k s v)
  end.

#[export] Instance keyspace_redis : Redis keyspace := {
  view v := v;
  redis_get k v := match v !! k with None => (Ok None, v) | Some (RStr s) => (Ok (Some s), v) | Some _ => (Throw WRONGTYPE, v) end;
  redis_set k s v := (Ok tt, <[k := RStr s]> v);
  redis_mSet l v := (Ok tt, foldl (λ v x, <[x.1 := RStr x.2]> v) v l);
  redis_del ks v := (Ok tt, foldr delete v ks);
  redis_keys p v := (Ok (filter (λ k, startsWith p k = true) (map fst (map_to_list v))), v);
  redis_sAdd k xs := on_set k (λ s, (Z.of_nat (size ((list_to_set xs : gset jstring) ∖ s)), s ∪ list_to_set xs));
  redis_sRem k xs := on_set k (λ s, (tt, s ∖ list_to_set xs));
  redis_sMembers k v := (Ok (elements (members v k)), v);
  redis_sIsMember k x v := (Ok (bool_decide (x ∈ members v k)), v);
  redis_sInter ks v :=
    (Ok (match ks with [] => [] | k :: _ => filter (λ x, Forall (λ k, x ∈ members v k) ks) (elements (members v k)) end), v);
  redis_hGetAll k v := match v !! k with Some (RHash h) => (Ok h, v) | None => (Ok ∅, v) | _ => (Throw WRONGTYPE, v) end;
}.

Lemma on_set_does {B} k (f : gset jstring → B * gset jstring) (v : keyspace) :
  set_at v k → does (on_set k f) v (f (members v k)).1 (put_set k (f (members v k)).2 v).
Proof.
  unfold set_at, on_set. intros Hk. exists (put_set k (f (members v k)).2 v). split; [|done].
  destruct (v !! k) as [[]|]; try done; by destruct (f (members v k)).
Qed.

#[export] Instance keyspace_laws : RedisLaws keyspace.
Proof.
  split; cbn.
  - intros k r. destruct (r !! k) as [[]|] eqn:E; unfold does; cbn; rewrite ?E; by eexists.
  - intros k s r. by eexists.
  - intros l r. by eexists.
  - intros ks r _. by eexists.
  - intros p r. eexists. split; [by eexists|]. intros k. rewrite list_elem_of_filter, list_elem_of_fmap. split.
    + intros [Hp ([k' x] & -> & Hx%elem_of_map_to_list)]. split; [by eexists|done].
    + intros [[x Hx] Hp]. split; [done|]. exists (k, x). split; [done|]. by apply elem_of_map_to_list.
  - intros k xs r Hk _. exact (on_set_does k (λ s, (Z.of_nat (size ((list_to_set xs : gset jstring) ∖ s)), s ∪ list_to_set xs)) r Hk).
  - intros k xs r Hk _. exact (on_set_does k (λ s, (tt, s ∖ list_to_set xs)) r Hk).
  - intros k r _. eexists. split; [by eexists|]. split; [apply NoDup_elements|]. intros x. apply elem_of_elements.
  - intros k x r _. by eexists.
  - intros ks r _ Hne. eexists. split; [by eexists|]. destruct ks as [|k ks]; [done|]. split; [apply NoDup_filter, NoDup_elements|].
    intros x. rewrite list_elem_of_filter, elem_of_elements, Forall_forall. set_solver.
  - intros k r fields E. unfold does. cbn. rewrite E. by eexists.
Qed.

#[export] Instance value_countable : Countable value.
Proof.
  apply (inj_countable' (λ v, match v with
    | Undefined => inl (inl tt) | Null => inl (inr tt) | Str s => inr (inl (inl s)) | Num n => inr (inl (inr n))
    | Bool b => inr (inr (inl b)) | Nested a b => inr (inr (inr (a, b))) end)
    (λ x, match x with
    | inl (inl _) => Undefined | inl (inr _) => Null | inr (inl (inl s)) => Str s | inr (inl (inr n)) => Num n
    | inr (inr (inl b)) => Bool b | inr (inr (inr (a, b))) => Nested a b end)).
  by intros [].
Defined.

Lemma read_digits_Z_digits z : 0 < z → read_digits 10 (Z_digits z) = Some z.
Proof.
  intros Hz. unfold read_digits. rewrite digits_value_Z_digits by lia. destruct (Z_digits z) as [|c l] eqn:E.
  { pose proof (digits_value_Z_digits z ltac:(lia)) as Hd. rewrite E in Hd. cbn in Hd. lia. }
  rewrite (proj2 (forallb_forall _ _)); [done|]. intros d Hd%list_elem_of_In. rewrite <- E in Hd.
  apply Z_digits_digits in Hd; [|lia]. unfold is_digit_of, digit_value. rewrite Hd. unfold is_digit, between in Hd. lia.
Qed.

(** A text for each record: the digits of its code. *)
#[export] Instance digits_json : Json := {
  stringify x := Z_digits (Zpos (encode (x : gmap jstring value)));
  parse text := match (n ← read_digits 10 text; decode (Z.to_pos n)) with Some x => Ok x | None => Throw (SyntaxError "JSON") end;
}.

#[export] Instance digits_json_laws : JsonLaws.
Proof.
  split. intros x. cbn [parse stringify digits_json]. rewrite read_digits_Z_digits by lia. cbn [mbind option_bind Z.to_pos].
  by rewrite decode_encode.
Qed.

(** A cipher that only adds a prefix. *)
Definition sample_crypto : Crypto :=
  mkCrypto false (λ s, Ok (js "h" ++ s)) (λ _ s, Ok (js "enc:" ++ s)) (λ s, Ok (drop 4 s)).

Lemma sample_crypto_laws : CryptoLaws sample_crypto.
Proof.
  split; cbn.
  - intros s. by eexists.
  - intros s s' E. by injection E.
  - intros iv s _. by eexists.
Qed.

Definition sample_class : ModelClass record := mkModelClass (λ m, m) (λ m, m) (λ m, m) (λ p _ m, bool_decide (map_Forall (λ k x, m !! k = Some x) p)).

Lemma represents_nothing crypto namespace indexes : represents crypto namespace indexes ∅ ∅.
Proof.
  split; [split|..].
  - intros id [x Hx]. by rewrite lookup_empty in Hx.
  - intros id _. rewrite !lookup_empty. done.
  - intros index s _. unfold set_at. by rewrite lookup_empty.
  - intros index s id _. unfold members. rewrite lookup_empty. split; [set_solver|]. intros (f & Hf & _). by rewrite lookup_empty in Hf.
  - unfold set_at. by rewrite lookup_empty.
  - unfold members. by rewrite lookup_empty, dom_empty_L.
Qed.

Definition no_hook {A} : A → M keyspace unit := λ _, mret tt.
Definition no_hook2 {A} : A → A → M keyspace unit := λ _ _, mret tt.

Lemma sample_collection namespace indexes :
  Forall (plain [colon]) indexes → plain [colon; underscore] namespace →
  Collection (Some sample_crypto) sample_class namespace indexes no_hook no_hook2 (λ _ _, Ok tt) (λ _ _ _, Ok tt).
Proof.
  intros Hi Hn. split; [|done|done| |done].
  - intros c E. injection E as <-. apply sample_crypto_laws.
  - split; intros; by eexists.
Qed.

Definition named (id name : string) : Input record := mkInput (Some (js id)) [] (replicate IV_LENGTH colon) {[js "name" := Str (js name)]}.
Definition by_name (name : string) : record := {[js "name" := Str (js name)]}.

Definition sample_requests : list (Request (A := record)) :=
  [ReqAdd [named "1" "Alice"; named "2" "Bob"]; ReqUpdate [named "1" "Carol"]; ReqGet (by_name "alice"); ReqGet (by_name "CAROL");
   ReqRemove [js "1"]; ReqGet (by_name "Carol"); ReqGet ∅].

Definition run_sample := serve_all (Some sample_crypto) sample_class (js "user") [js "name"] no_hook no_hook2 sample_requests (∅ : keyspace, []).

Definition count_answer {A} (a : Answer (A := A)) : nat :=
  match a with Models l => length l | Removed _ => 100 | Failed _ => 200 end.
Example sample_answers : map count_answer run_sample.1 = [2; 1; 0; 1; 100; 0; 1]%nat.
Proof. vm_compute. reflexivity. Qed.

(** The tokens of models/token.mjs: the identifier of the client is an indexed member of the
    record, that [_unserialize] puts in the client and deletes. *)
Definition Client : Type := jstring * jstring.
Definition Tokens : ModelClass (option Client) :=
  mkModelClass
    (λ client, match client with Some (id, rest) => <[js "client_id" := Str id]> {[js "client" := Str rest]} | None => ∅ end)
    (λ token, match token !! js "client", token !! js "client_id" with Some (Str rest), Some (Str id) => Some (id, rest) | _, _ => None end)
    (λ token, match token !! js "client" with Some _ => delete (js "client_id") token | None => token end)
    (λ _ _ _, true).
Definition token_of (client : string) : Input (option Client) := mkInput (Some (js "t")) [] [] (Some (js client, js "{}")).

(** The client of a token changes: it is still found by the previous one. *)
Example old_client_still_indexed :
  (serve_all None Tokens (js "token") [js "client_id"] no_hook no_hook2
    [ReqAdd [token_of "c1"]; ReqUpdate [token_of "c2"]; ReqGet {[js "client_id" := Str (js "c1")]}] (∅ : keyspace, [])).1
  = [Models [(js "t", Some (js "c1", js "{}"))]; Models [(js "t", Some (js "c2", js "{}"))];
     Models [(js "t", Some (js "c2", js "{}"))]].
Proof. vm_compute. reflexivity. Qed.

(** The version is written, but the indexes are not made: the [undefined] of the
    [switch] is a null. *)
Example create_makes_no_index :
  let v := (create (js "user") (∅ : keyspace)).2 in
  (v !! version_key (js "user"), members v (js "xo::namespaces"), v !! indexes_key (js "user")) =
  (Some (RStr VERSION), {[js "user"]}, None).
Proof. vm_compute. reflexivity. Qed.

Definition alice_text : jstring := stringify (by_name "Alice").

(** A model, another identifier that has none, and an index of something else. *)
Definition broken : keyspace :=
  <[js "xo:user:1" := RStr alice_text]> (<[js "xo:user_ids" := RSet {[js "1"; js "9"]}]>
  (<[js "xo:user_name:bob" := RSet {[js "1"]}]> ∅)).
Definition rebuilt : keyspace := (rebuildIndexes None (js "user") [js "name"] broken).2.

Example rebuilt_sets :
  (members rebuilt (js "xo:user_ids"), members rebuilt (js "xo:user_name:bob"), members rebuilt (js "xo:user_name:alice")) =
  ({[js "1"]}, ∅, {[js "1"]}).
Proof. vm_compute. reflexivity. Qed.

Lemma allowed_inputs (l : list (Input record)) :
  forallb (λ i, negb (bool_decide (in_id i = js "version")) && negb (bool_decide (in_id i = js ":indexes")) &&
    (length (iv i) =? IV_LENGTH)%nat) l = true → ∀ i, i ∈ l → usable i.
Proof.
  intros Hl i Hi%list_elem_of_In. rewrite forallb_forall in Hl. specialize (Hl i Hi). unfold usable, reserved.
  apply andb_true_iff in Hl as [[H1%negb_true_iff H2%negb_true_iff]%andb_true_iff Hiv%Nat.eqb_eq]. rewrite bool_decide_eq_false in H1, H2. tauto.
Qed.

Lemma sample_allowed : Forall (allowed [js "name"]) sample_requests.
Proof.
  repeat (apply Forall_cons; split); try apply Forall_nil; cbn [allowed].
  all: try (apply allowed_inputs; vm_compute; reflexivity).
  all: try (right; vm_compute; reflexivity).
  - intros id ->%list_elem_of_singleton. intros [E|E]; discriminate E.
  - exact I.
Qed.

Lemma collection_refines_witness :
  ∃ answers r' D' e, run_sample = (answers, (r', [] ++ e)) ∧
    plain_serve_all sample_class (λ _ _, Ok tt) (λ _ _ _, Ok tt) ∅ sample_requests answers D' e ∧
    represents (Some sample_crypto) (js "user") [js "name"] r' D'.
Proof.
  destruct (collection_refines (Some sample_crypto) sample_class (js "user") [js "name"] no_hook no_hook2 (λ _ _, Ok tt) (λ _ _ _, Ok tt)
    sample_requests ∅ (∅ : keyspace) []) as (l & r' & D' & e & Hrun & Hp & HD & _).
  - apply sample_collection.
    + apply Forall_singleton. apply (bool_decide_unpack _). vm_compute. exact I.
    + apply (bool_decide_unpack _). vm_compute. exact I.
  - apply represents_nothing.
  - apply sample_allowed.
  - exists l, r', D', e. split; [exact Hrun|]. split; [exact Hp|exact HD].
Defined.

Lemma broken_lookup id : broken !! model_key (js "user") id = if decide (id = js "1") then Some (RStr alice_text) else None.
Proof.
  unfold broken. case_decide as E; [subst id; apply lookup_insert_eq|].
  rewrite lookup_insert_ne by (intros E2%(model_key_inj (js "user") (js "1")); congruence).
  rewrite !lookup_insert_ne by (intros E2; discriminate E2). apply lookup_empty.
Qed.

Lemma broken_stores : stores None (js "user") broken {[js "1" := by_name "Alice"]}.
Proof.
  split.
  - intros id _. rewrite broken_lookup. case_decide as E.
    + subst id. rewrite lookup_singleton_eq. exists (by_name "Alice"). split; [done|]. unfold read_text. cbn [active mbind result_bind].
      apply parse_stringify.
    + by rewrite lookup_singleton_ne.
  - exact I.
  - intros id [x [<- _]%lookup_singleton_Some]. apply (bool_decide_unpack _). vm_compute. exact I.
  - intros id Hid. change (id ∈ ({[js "1"; js "9"]} : gset jstring)) in Hid.
    apply elem_of_union in Hid as [->%elem_of_singleton| ->%elem_of_singleton]; intros [E|E]; discriminate E.
Qed.

Lemma rebuildIndexes_repairs_witness :
  ∃ r', rebuildIndexes None (js "user") [js "name"] broken = (Ok tt, r') ∧
    represents None (js "user") [js "name"] r' {[js "1" := by_name "Alice"]}.
Proof.
  destruct (rebuildIndexes_repairs None (js "user") [js "name"] {[js "1" := by_name "Alice"]} broken) as (r' & Hrun & HD & _).
  - intros c E. discriminate E.
  - apply Forall_singleton. apply (bool_decide_unpack _). vm_compute. exact I.
  - intros E. discriminate E.
  - apply broken_stores.
  - exists r'. split; [exact Hrun|exact HD].
Defined.
