(* ===== verification/CryptoCredentials.v ===== *)
(** * The encryption of the database

    packages/xo-server/src/xo-mixins/crypto-credentials.mjs: where the two halves of the
    key are, what is done of them when the server starts, and the encryption or the
    decryption of all the records.

    The ciphers (web crypto), the encodings of Node's buffers and the random bytes are
    parameters, with their laws ([CipherLaws]).  Of the XenStore, the code uses one key,
    when its tools work; the files are a map.  The operations run one after the other:
    nothing encrypts while a migration runs, which is what its lock is for. *)

From stdpp Require Import gmap sets list.
From S2P Require Import Prelude JsValues Database.

Local Open Scope Z_scope.

Abbreviation bytes := (list ascii).
Abbreviation path := jstring.

(** ** Ciphers *)

Class Cipher (Key HmacKey : Type) := {
  (** The two keys derived from the whole one, unless it is refused. *)
  deriveKeys : bytes → option (Key * HmacKey);
  aes_encrypt : Key → bytes → bytes → bytes;
  aes_decrypt : Key → bytes → bytes → result bytes;
  hmac : HmacKey → bytes → jstring;
  utf8 : jstring → bytes;
  of_utf8 : bytes → jstring;
  base64 : bytes → jstring;
  of_base64 : jstring → bytes;
  hex : bytes → jstring;
  of_hex : jstring → bytes;
}.

Class CipherLaws (Key HmacKey : Type) `{Cipher Key HmacKey} := {
  aes_law k iv text : aes_decrypt k iv (aes_encrypt k iv text) = Ok text;
  hmac_injective k a b : hmac k a = hmac k b → a = b;
  utf8_law s : of_utf8 (utf8 s) = s;
  base64_law b : of_base64 (base64 b) = b;
  hex_law b : of_hex (trim (hex b)) = b;
}.

Definition XENSTORE_KEY_PATH : path := js "vm-data/xo-encryption-key".
Definition KEY_FILE_PATH : path := js "/var/lib/xo-server/data/xo-encryption-key".
Definition BACKUP_FILE_PATH : path := js "/var/lib/xo-server/data/encryption-backup.json".
Definition ENCRYPTION_PREFIX : jstring := js "enc:".

Inductive Migration := Encryption | Decryption.

#[export] Instance migration_eq_dec : EqDecision Migration.
Proof. solve_decision. Defined.

(** What a namespace holds: the text of each of its identifiers, none when it is null. *)
Definition Content := list (jstring * list (jstring * option jstring)).

Section credentials.
Context {R Key HmacKey : Type} `{Redis R} `{Cipher Key HmacKey}.

Record CryptoCredentials := mkCredentials {
  encryptionKey : option Key;
  hmacKey : option HmacKey;
  migrationRequired : option Migration;
  degraded : bool;
}.

Definition initial : CryptoCredentials := mkCredentials None None None false.

(** The tools of the XenStore work, are not installed, or fail. *)
Inductive Tools := Works | Missing | Broken.

(** [xenStore]: the value of the key, if it has one. *)
Record World := mkWorld {
  xenStore : option jstring;
  files : gmap path bytes;
  redis : R;
  credentials : CryptoCredentials;
}.

Definition set_credentials (f : CryptoCredentials → CryptoCredentials) : M World unit :=
  modify (λ w, mkWorld (xenStore w) (files w) (redis w) (f (credentials w))).
Definition set_degraded (b : bool) : M World unit :=
  set_credentials (λ c, mkCredentials (encryptionKey c) (hmacKey c) (migrationRequired c) b).
Definition set_migration (m : Migration) : M World unit :=
  set_credentials (λ c, mkCredentials (encryptionKey c) (hmacKey c) (Some m) (degraded c)).
Definition on_server {B} (m : M R B) : M World B := λ w,
  let '(b, r) := m (redis w) in (b, mkWorld (xenStore w) (files w) r (credentials w)).

Definition try_catch {B} (m : M World B) (handler : error → M World B) : M World B := λ w,
  match m w with (Throw e, w) => handler e w | ok => ok end.

(** ** What the credentials offer *)

Definition encrypt_text (c : CryptoCredentials) (iv : bytes) (plaintext : jstring) : result jstring :=
  match encryptionKey c with
  | None => Throw (OtherError "The encryption key needs to be extracted before encrypt can be used")
  | Some key => Ok (ENCRYPTION_PREFIX ++ base64 (iv ++ aes_encrypt key iv (utf8 plaintext)))
  end.

Definition decrypt_text (c : CryptoCredentials) (value : jstring) : result jstring :=
  if startsWith ENCRYPTION_PREFIX value then
    match encryptionKey c with
    | None => Throw (OtherError "The encryption key needs to be extracted before decrypt can be used")
    | Some key =>
        let buf := of_base64 (drop (length ENCRYPTION_PREFIX) value) in
        of_utf8 <$> aes_decrypt key (take IV_LENGTH buf) (drop IV_LENGTH buf)
    end
  else Ok value.

Definition hmac_text (c : CryptoCredentials) (plaintext : jstring) : result jstring :=
  match hmacKey c with
  | None => Throw (OtherError "The encryption key needs to be extracted before hmacIndex can be used")
  | Some key => Ok (hmac key (utf8 plaintext))
  end.

(** [cryptoCredentials]: what the collections are given. *)
Definition cryptoCredentials (encryptionEnabled : bool) (c : CryptoCredentials) : option Crypto :=
  if encryptionEnabled then Some (mkCrypto (degraded c) (hmac_text c) (encrypt_text c) (decrypt_text c)) else None.

(** ** Keys *)

(** What the server finds when it starts; [iv] gives the bytes drawn for each entry. *)
Context (encryptionEnabled : bool) (tools : Tools) (can_write : bool) (newHalves : bytes * bytes) (iv : jstring → jstring → bytes).
Context (content_text : Content → bytes).

(** Null when the tools are not there. *)
Definition readXenStoreKey : M World (option (option bytes)) :=
  match tools with
  | Missing => set_degraded true ;; mret None
  | Broken => lift (Throw (OtherError "xenstore-read"))
  | Works => w ← gets (λ w, w); mret (Some (of_hex <$> (trim <$> xenStore w)))
  end.

Definition _loadKey (halfA halfB : bytes) : M World unit :=
  match deriveKeys (halfA ++ halfB) with
  | Some (key, hkey) => set_credentials (λ c, mkCredentials (Some key) (Some hkey) (migrationRequired c) false)
  | None => mret tt
  end.

Definition writeFile (p : path) (data : bytes) : M World unit :=
  if can_write then modify (λ w, mkWorld (xenStore w) (<[p := data]> (files w)) (redis w) (credentials w))
  else lift (Throw (OtherError "EACCES")).
Definition removeFile (p : path) : M World unit :=
  if can_write then modify (λ w, mkWorld (xenStore w) (delete p (files w)) (redis w) (credentials w))
  else lift (Throw (OtherError "EACCES")).
Definition writeXenStore (value : option jstring) : M World unit :=
  match tools with
  | Works => modify (λ w, mkWorld value (files w) (redis w) (credentials w))
  | _ => lift (Throw (OtherError "xenstore-write"))
  end.
Definition ignoring (m : M World unit) : M World unit := try_catch m (λ _, mret tt).

(** New halves, each kept where it has to be; both are removed when one is not. *)
Definition generateKeys : M World unit :=
  try_catch
    (writeXenStore (Some (hex newHalves.1)) ;;
     writeFile KEY_FILE_PATH newHalves.2 ;;
     _loadKey newHalves.1 newHalves.2 ;;
     c ← gets credentials;
     if degraded c then mret tt else set_migration Encryption)
    (λ _, ignoring (writeXenStore None) ;; ignoring (removeFile KEY_FILE_PATH)).

Definition initialize : M World unit :=
  fileKey ← gets (λ w, files w !! KEY_FILE_PATH);
  if negb encryptionEnabled && bool_decide ((fileKey : option bytes) = None) then mret tt
  else
    set_degraded true ;;
    if encryptionEnabled then
      xenStoreKey ← readXenStoreKey;
      match xenStoreKey, fileKey with
      | None, _ => mret tt
      | Some (Some xenStoreKey), Some fileKey => _loadKey xenStoreKey fileKey
      | _, _ => generateKeys
      end
    else
      match fileKey with
      | None => mret tt
      | Some fileKey =>
          xenStoreKey ← readXenStoreKey;
          match xenStoreKey with
          | None | Some None => mret tt
          | Some (Some xenStoreKey) =>
              _loadKey xenStoreKey fileKey ;;
              c ← gets credentials;
              match encryptionKey c with Some _ => set_migration Decryption | None => mret tt end
          end
      end.

(** ** Migrations *)

(** The first name that is not that of a file; there are as many attempts as files. *)
Definition backup_path (i : nat) : path :=
  if decide (i = 0%nat) then BACKUP_FILE_PATH
  else js "/var/lib/xo-server/data/encryption-backup_" ++ Z_digits (Z.of_nat i) ++ js ".json".
Fixpoint free_path (fuel i : nat) (fs : gmap path bytes) : option path :=
  match fuel with
  | O => None
  | S fuel => if bool_decide (fs !! backup_path i = None) then Some (backup_path i) else free_path fuel (S i) fs
  end.
Definition getBackupFilePath (fs : gmap path bytes) : option path := free_path (S (size fs)) 0 fs.

(** [for (const x of xs)], with what each call returns. *)
Fixpoint for_of {S A B} (xs : list A) (f : A → M S B) : M S (list B) :=
  match xs with
  | [] => mret []
  | x :: xs => y ← f x; ys ← for_of xs f; mret (y :: ys)
  end.

Definition getRedisContent : M R Content :=
  namespaces ← redis_sMembers (js "xo::namespaces");
  for_of (namespaces : list jstring) (λ namespace,
    ids ← redis_sMembers (ids_key namespace);
    entries ← for_of (ids : list jstring) (λ id, text ← redis_get (model_key namespace id); mret (id, text : option jstring));
    mret (namespace, entries)).

(** The entries that a migration changes, with their new texts: those that are not null,
    are encrypted or not as [encrypted] tells, and are still registered. *)
Definition convert (encrypted : bool) (f : jstring → jstring → jstring → result jstring) (content : Content) :
    M R (list (jstring * list (jstring * jstring))) :=
  for_of content (λ x,
    entries ← for_of x.2 (λ e,
      match e.2 with
      | None => mret None
      | Some value =>
          if bool_decide (startsWith ENCRYPTION_PREFIX value = encrypted) then
            registered ← redis_sIsMember (ids_key x.1) e.1;
            if registered : bool then text ← lift (f x.1 e.1 value); mret (Some (e.1, text)) else mret None
          else mret None
      end);
    mret (x.1, omap (λ e, e) (entries : list (option (jstring * jstring))))).

Definition mSetArgs (l : list (jstring * list (jstring * jstring))) : list (jstring * jstring) :=
  l ≫= λ x, map (λ e, (model_key x.1 e.1, e.2)) x.2.

(** The first entry of each namespace is read again. *)
Definition verify (encrypted : bool) (check : jstring → result jstring) (l : list (jstring * list (jstring * jstring))) : M R unit :=
  for_each l (λ x,
    match x.2 with
    | [] => mret tt
    | (id, _) :: _ =>
        value ← redis_get (model_key x.1 id);
        match value with
        | Some value => if bool_decide (startsWith ENCRYPTION_PREFIX value = encrypted) then lift (check value) ;; mret tt
                        else lift (Throw (OtherError "prefix when checking migrated data"))
        | None => lift (Throw (OtherError "prefix when checking migrated data"))
        end
    end).

(** Both migrations: [encrypted] tells the entries to convert. *)
Definition migrate (encrypted : bool) (f : CryptoCredentials → jstring → jstring → jstring → result jstring)
    (check : CryptoCredentials → jstring → result jstring) (backupFilePath : path) : M World unit :=
  content ← on_server getRedisContent;
  writeFile backupFilePath (content_text content) ;;
  c ← gets credentials;
  l ← on_server (convert encrypted (f c) content);
  match mSetArgs l with [] => mret tt | args => on_server (redis_mSet args) end ;;
  on_server (verify (negb encrypted) (check c) l) ;;
  removeFile backupFilePath.

Definition migrateToEncrypted : path → M World unit :=
  migrate false (λ c namespace id, encrypt_text c (iv namespace id)) decrypt_text.

Definition migrateToDecrypted (backupFilePath : path) : M World unit :=
  migrate true (λ c _ _, decrypt_text c) (λ _ value, Ok value) backupFilePath ;;
  ignoring (writeXenStore None) ;;
  ignoring (removeFile KEY_FILE_PATH).

(** The hook of the start of the server. *)
Definition start : M World unit :=
  initialize ;;
  w ← gets (λ w, w);
  match migrationRequired (credentials w), getBackupFilePath (files w) with
  | Some m, Some backupFilePath =>
      try_catch (match m with Encryption => migrateToEncrypted backupFilePath | Decryption => migrateToDecrypted backupFilePath end)
        (λ _, set_degraded true)
  | _, _ => mret tt
  end.
End credentials.

(** ** What the credentials promise *)

Section facts.
Context {R Key HmacKey : Type} `{RedisLaws R} `{CipherLaws Key HmacKey}.

Local Abbreviation Credentials := (CryptoCredentials (Key := Key) (HmacKey := HmacKey)).

Lemma Ok_inj {B} (a b : B) : Ok a = Ok b → a = b.
Proof. congruence. Qed.

Lemma startsWith_prefix_app p s : startsWith p (p ++ s) = true.
Proof. unfold startsWith. apply bool_decide_eq_true. apply take_app_length. Qed.

Lemma encrypt_prefix (c : Credentials) iv s t : encrypt_text c iv s = Ok t → startsWith ENCRYPTION_PREFIX t = true.
Proof. unfold encrypt_text. destruct (encryptionKey c); [|done]. intros <-%Ok_inj. apply startsWith_prefix_app. Qed.

Lemma decrypt_encrypt_text (c : Credentials) key iv s :
  encryptionKey c = Some key → length iv = IV_LENGTH →
  ∃ t, encrypt_text c iv s = Ok t ∧ decrypt_text c t = Ok s.
Proof.
  intros Hk Hiv. unfold encrypt_text. rewrite Hk. eexists. split; [done|].
  unfold decrypt_text. rewrite startsWith_prefix_app, Hk, drop_app_length, base64_law.
  rewrite <- Hiv, take_app_length, drop_app_length, aes_law. cbn. by rewrite utf8_law.
Qed.

(** The keys are there, both or none. *)
Definition has_keys (c : Credentials) : Prop := is_Some (encryptionKey c) ∧ is_Some (hmacKey c).

(** What the collections rely on. *)
Lemma credentials_laws b (c : Credentials) crypto :
  has_keys c → cryptoCredentials b c = Some crypto → CryptoLaws crypto.
Proof.
  intros [[key Hkey] [hkey Hhkey]]. unfold cryptoCredentials. destruct b; [|done]. intros E. injection E as <-.
  split; cbn.
  - intros s. unfold hmac_text. rewrite Hhkey. by eexists.
  - intros s s'. unfold hmac_text. rewrite Hhkey. intros E. injection E as E. apply hmac_injective in E.
    rewrite <- (utf8_law s), <- (utf8_law s'). by rewrite E.
  - intros iv s Hiv. by apply decrypt_encrypt_text with key.
Qed.

(** ** The contents of the server *)

Lemma for_of_rel {S A B} (f : A → M S B) (P : S → Prop) (Q : A → B → Prop) xs s :
  (∀ x s, x ∈ xs → P s → ∃ y s', f x s = (Ok y, s') ∧ P s' ∧ Q x y) → P s →
  ∃ ys s', for_of xs f s = (Ok ys, s') ∧ P s' ∧ Forall2 Q xs ys.
Proof.
  revert s. induction xs as [|x xs IH]; intros s Hf HP; [by exists [], s|].
  destruct (Hf x s ltac:(by left) HP) as (y & s1 & Hrun & HP1 & HQ).
  destruct (IH s1) as (ys & s2 & Hrun2 & HP2 & HQ2); [intros z s0 Hz; apply Hf; by right|done|].
  exists (y :: ys), s2. cbn [for_of]. rewrite (bind_ok _ _ _ _ _ Hrun), (bind_ok _ _ _ _ _ Hrun2). split; [done|]. split; [done|]. by constructor.
Qed.

Definition namespaces_key : jstring := js "xo::namespaces".

(** The text of a model. *)
Definition text_of (v : keyspace) (namespace id : jstring) : option jstring :=
  match v !! model_key namespace id with Some (RStr t) => Some t | _ => None end.

(** The registered models are texts, in sets where they are expected. *)
Record readable (v : keyspace) : Prop := {
  rd_namespaces : set_at v namespaces_key;
  rd_plain n : n ∈ members v namespaces_key → plain [colon; underscore] n;
  rd_ids n : n ∈ members v namespaces_key → set_at v (ids_key n);
  rd_text n id : n ∈ members v namespaces_key → id ∈ members v (ids_key n) →
    match v !! model_key n id with None | Some (RStr _) => True | _ => False end;
}.

Definition content_of (v : keyspace) (content : Content) : Prop :=
  (∀ n es, (n, es) ∈ content → n ∈ members v namespaces_key ∧
     ∀ id t, (id, t) ∈ es ↔ id ∈ members v (ids_key n) ∧ t = text_of v n id) ∧
  ∀ n, n ∈ members v namespaces_key → ∃ es, (n, es) ∈ content.

Lemma getRedisContent_correct v (r : R) :
  readable v → view r = v → ∃ content r', getRedisContent r = (Ok content, r') ∧ view r' = v ∧ content_of v content.
Proof.
  intros Hv Hr. unfold getRedisContent.
  destruct (sMembers_law namespaces_key r) as (ns & (r1 & Hns & Hv1) & _ & Hin); [rewrite Hr; exact (rd_namespaces _ Hv)|].
  rewrite Hr in Hin.
  destruct (for_of_rel (λ namespace,
    ids ← redis_sMembers (ids_key namespace);
    entries ← for_of (ids : list jstring) (λ id, text ← redis_get (model_key namespace id); mret (id, text : option jstring));
    mret (namespace, entries)) (λ r, view r = v)
    (λ n x, x.1 = n ∧ ∀ id t, (id, t) ∈ x.2 ↔ id ∈ members v (ids_key n) ∧ t = text_of v n id) ns r1) as (content & r2 & Hrun & Hv2 & HQ).
  - intros n r2 Hn Hv2. apply Hin in Hn.
    destruct (sMembers_law (ids_key n) r2) as (ids & (r3 & Hids & Hv3) & _ & Hidin); [rewrite Hv2; by apply (rd_ids _ Hv)|].
    rewrite Hv2 in Hidin. rewrite (bind_ok _ _ _ _ _ Hids).
    destruct (for_of_rel (λ id, text ← redis_get (model_key n id); mret (id, text : option jstring)) (λ r, view r = v)
      (λ id x, x = (id, text_of v n id)) ids r3) as (es & r4 & Hes & Hv4 & HQ).
    + intros id r4 Hid Hv4. pose proof (get_law (model_key n id) r4) as Hget. rewrite Hv4 in Hget.
      pose proof (rd_text _ Hv n id Hn (proj1 (Hidin id) Hid)) as Ht. unfold text_of.
      destruct (v !! model_key n id) as [[t| |]|]; try done; destruct Hget as (r5 & Hget & Hv5);
        (eexists; exists r5; rewrite (bind_ok _ _ _ _ _ Hget); split; [done|]; split; [done|done]).
    + congruence.
    + exists (n, es), r4. rewrite (bind_ok _ _ _ _ _ Hes). split; [done|]. split; [done|]. split; [done|]. cbn.
      assert (es = map (λ id, (id, text_of v n id)) ids) as ->.
      { clear -HQ. induction HQ as [|id x ids es -> _ IH]; [done|]. cbn. by rewrite IH. }
      intros id t. rewrite list_elem_of_fmap. split.
      * intros (id' & E & Hid). simplify_eq. split; [by apply Hidin|done].
      * intros [Hid ->]. exists id. split; [done|]. by apply Hidin.
  - congruence.
  - exists content, r2. rewrite (bind_ok _ _ _ _ _ Hns), Hrun. split; [done|]. split; [done|]. split.
    + intros n es Hc. apply list_elem_of_lookup in Hc as [i Hi]. destruct (Forall2_lookup_r _ _ _ _ _ HQ Hi) as (n' & Hn' & E & Hes).
      cbn in E. subst n'. split; [apply Hin; by eapply list_elem_of_lookup_2|done].
    + intros n Hn. apply Hin in Hn. apply list_elem_of_lookup in Hn as [i Hi]. destruct (Forall2_lookup_l _ _ _ _ _ HQ Hi) as ([n' es] & Hc & E & _).
      cbn in E. subst n'. exists es. by eapply list_elem_of_lookup_2.
Qed.

(** ** What a migration writes *)

Section migration.
Context (encrypted : bool) (f : jstring → jstring → jstring → result jstring).

(** [t'] is the new text of a model that is converted. *)
Definition converted (v : keyspace) (n id t' : jstring) : Prop :=
  n ∈ members v namespaces_key ∧ id ∈ members v (ids_key n) ∧
  ∃ t, text_of v n id = Some t ∧ startsWith ENCRYPTION_PREFIX t = encrypted ∧ f n id t = Ok t'.

Definition converts (v : keyspace) : Prop := ∀ n id t,
  n ∈ members v namespaces_key → id ∈ members v (ids_key n) → text_of v n id = Some t →
  startsWith ENCRYPTION_PREFIX t = encrypted → ∃ t', f n id t = Ok t'.

Lemma convert_entries v n es (r : R) :
  converts v → readable v → view r = v → n ∈ members v namespaces_key →
  (∀ id t, (id, t) ∈ es ↔ id ∈ members v (ids_key n) ∧ t = text_of v n id) →
  ∃ l r', for_of es (λ e,
      match e.2 with
      | None => mret None
      | Some value =>
          if bool_decide (startsWith ENCRYPTION_PREFIX value = encrypted) then
            registered ← redis_sIsMember (ids_key n) e.1;
            if registered : bool then text ← lift (f n e.1 value); mret (Some (e.1, text)) else mret None
          else mret None
      end) r = (Ok l, r') ∧ view r' = v ∧
    ∀ id t', (id, t') ∈ omap (λ e, e) l ↔ converted v n id t'.
Proof.
  intros Hf Hv Hr Hn Hes.
  destruct (for_of_rel (λ e : jstring * option jstring,
      match e.2 with
      | None => mret None
      | Some value =>
          if bool_decide (startsWith ENCRYPTION_PREFIX value = encrypted) then
            registered ← redis_sIsMember (ids_key n) e.1;
            if registered : bool then text ← lift (f n e.1 value); mret (Some (e.1, text)) else mret None
          else mret None
      end : M R (option (jstring * jstring))) (λ r, view r = v)
    (λ e x, match x with
            | Some (id, t') => id = e.1 ∧ converted v n id t'
            | None => ∀ t', ¬ converted v n e.1 t' end) es r) as (l & r' & Hrun & Hv' & HQ).
  - intros [id o] r1 Hin Hv1. cbn [fst snd]. apply Hes in Hin as [Hid Ho]. destruct o as [t|].
    2:{ exists None, r1. split; [done|]. split; [done|]. intros t' (_ & _ & t & Ht & _). congruence. }
    case_bool_decide as Hp.
    + destruct (sIsMember_law (ids_key n) id r1) as (r2 & Hreg & Hv2); [rewrite Hv1; by apply (rd_ids _ Hv)|].
      rewrite (bind_ok _ _ _ _ _ Hreg), Hv1, bool_decide_eq_true_2 by done.
      destruct (Hf n id t) as [t' Ht']; [done..|]. exists (Some (id, t')), r2.
      unfold mbind, M_bind, lift. rewrite Ht'. split; [done|]. split; [congruence|]. split; [done|].
      split; [done|]. split; [done|]. by exists t.
    + exists None, r1. split; [done|]. split; [done|]. intros t' (_ & _ & t2 & Ht & Hp2 & _). congruence.
  - done.
  - exists l, r'. split; [done|]. split; [done|]. intros id t'. rewrite list_elem_of_omap. split.
    + intros (x & Hx & ->). apply list_elem_of_lookup in Hx as [i Hi]. by destruct (Forall2_lookup_r _ _ _ _ _ HQ Hi) as (e & _ & _ & ?).
    + intros Hc. destruct Hc as (Hn' & Hid & t & Ht & Hp & Hft).
      assert ((id, Some t) ∈ es) as Hin by (apply Hes; by rewrite Ht).
      apply list_elem_of_lookup in Hin as [i Hi]. destruct (Forall2_lookup_l _ _ _ _ _ HQ Hi) as ([[id' t2]|] & Hx & Hq); cbn in Hq.
      * destruct Hq as [-> (_ & _ & t3 & Ht3 & _ & Hf3)]. exists (Some (id, t2)). split; [by eapply list_elem_of_lookup_2|]. congruence.
      * exfalso. apply (Hq t'). split; [done|]. split; [done|]. by exists t.
Qed.

(** The entries to write are the converted models. *)
Definition conversion (v : keyspace) (l : list (jstring * list (jstring * jstring))) : Prop :=
  (∀ n es, (n, es) ∈ l → ∀ id t', (id, t') ∈ es ↔ converted v n id t') ∧
  ∀ n, n ∈ members v namespaces_key → ∃ es, (n, es) ∈ l.

Lemma convert_correct v content (r : R) :
  converts v → readable v → view r = v → content_of v content →
  ∃ l r', convert encrypted f content r = (Ok l, r') ∧ view r' = v ∧ conversion v l.
Proof.
  intros Hf Hv Hr [Hc1 Hc2]. unfold convert.
  match goal with |- ∃ l r', for_of _ ?g _ = _ ∧ _ => destruct (for_of_rel g (λ r, view r = v)
    (λ x y, y.1 = x.1 ∧ ∀ id t', (id, t') ∈ y.2 ↔ converted v x.1 id t') content r) as (l & r' & Hrun & Hv' & HQ) end.
  - intros [n es] r1 Hin Hv1. destruct (Hc1 n es Hin) as [Hn Hes]. cbn [fst snd].
    destruct (convert_entries v n es r1 Hf Hv Hv1 Hn Hes) as (l & r2 & Hrun & Hv2 & Hl).
    exists (n, omap (λ e, e) l), r2. rewrite (bind_ok _ _ _ _ _ Hrun). split; [done|]. split; [done|]. split; [done|]. exact Hl.
  - done.
  - exists l, r'. split; [done|]. split; [done|]. split.
    + intros n es Hin. apply list_elem_of_lookup in Hin as [i Hi]. destruct (Forall2_lookup_r _ _ _ _ _ HQ Hi) as ([n' es'] & _ & E & Hq).
      cbn in E, Hq. by subst n'.
    + intros n Hn. destruct (Hc2 n Hn) as (es & Hin). apply list_elem_of_lookup in Hin as [i Hi].
      destruct (Forall2_lookup_l _ _ _ _ _ HQ Hi) as ([n' es'] & Hx & E & _). cbn in E. subst n'. exists es'. by eapply list_elem_of_lookup_2.
Qed.

(** The converted models have their new texts, nothing else has changed. *)
Definition migrated (v v' : keyspace) : Prop :=
  (∀ n id t', converted v n id t' → v' !! model_key n id = Some (RStr t')) ∧
  ∀ k, (∀ n id t', converted v n id t' → k ≠ model_key n id) → v' !! k = v !! k.

Lemma model_key_own n id : own_key n (model_key n id).
Proof. exists colon, id. split; [by left|done]. Qed.

Lemma converted_inj v n id t n' id' t' :
  readable v → converted v n id t → converted v n' id' t' → model_key n id = model_key n' id' → n = n' ∧ id = id' ∧ t = t'.
Proof.
  intros Hv (Hn & _ & s & Hs & _ & Hf) (Hn' & _ & s' & Hs' & _ & Hf') E.
  assert (n = n') as <-.
  { apply (own_key_inj n n' (model_key n id)); [by apply (rd_plain _ Hv)..|apply model_key_own|]. rewrite E. apply model_key_own. }
  apply model_key_inj in E as <-. split; [done|]. split; [done|]. congruence.
Qed.

Lemma foldl_set_lookup (l : list (jstring * jstring)) (v : keyspace) k :
  (∀ t, (k, t) ∈ l → (∀ t', (k, t') ∈ l → t' = t) → foldl (λ v x, <[x.1 := RStr x.2]> v) v l !! k = Some (RStr t)) ∧
  (k ∉ l.*1 → foldl (λ v x, <[x.1 := RStr x.2]> v) v l !! k = v !! k).
Proof.
  induction l as [|[k0 t0] l IH] using rev_ind; [split; [by intros t ?%elem_of_nil|done]|].
  rewrite foldl_app, fmap_app. cbn [foldl fmap list_fmap fst snd]. split.
  - intros t Hin Hu. destruct (decide (k = k0)) as [->|Hne].
    + rewrite lookup_insert_eq. rewrite (Hu t0); [done|]. rewrite elem_of_app. right. by left.
    + rewrite lookup_insert_ne by done. apply IH.
      * apply elem_of_app in Hin as [|Hin]; [done|]. apply list_elem_of_singleton in Hin. congruence.
      * intros t' Ht'. apply Hu. rewrite elem_of_app. by left.
  - rewrite not_elem_of_app, list_elem_of_singleton. intros [Hk Hne]. rewrite lookup_insert_ne by congruence. by apply IH.
Qed.

Lemma elem_of_mSetArgs l k t : (k, t) ∈ mSetArgs l ↔ ∃ n es id, (n, es) ∈ l ∧ (id, t) ∈ es ∧ k = model_key n id.
Proof.
  unfold mSetArgs. rewrite list_elem_of_bind. split.
  - intros ([n es] & ([id t'] & E & Hid)%list_elem_of_fmap & Hin). simplify_eq/=. by exists n, es, id.
  - intros (n & es & id & Hin & Hid & ->). exists (n, es). split; [|done]. apply list_elem_of_fmap. by exists (id, t).
Qed.

Lemma mSet_migrates v l : readable v → conversion v l → migrated v (foldl (λ v x, <[x.1 := RStr x.2]> v) v (mSetArgs l)).
Proof.
  intros Hv [Hl1 Hl2]. split.
  - intros n id t' Hc. apply (foldl_set_lookup (mSetArgs l) v (model_key n id)).
    + apply elem_of_mSetArgs. destruct (Hl2 n (proj1 Hc)) as (es & Hin). exists n, es, id. split; [done|]. split; [|done]. by eapply Hl1.
    + intros t2 (n2 & es & id2 & Hin & Hid & E)%elem_of_mSetArgs. eapply Hl1 in Hid; [|done].
      by destruct (converted_inj v n id t' n2 id2 t2 Hv Hc Hid E) as (_ & _ & ->).
  - intros k Hk. apply (foldl_set_lookup (mSetArgs l) v k). intros ([k' t] & -> & Hin)%list_elem_of_fmap. cbn in Hk.
    apply elem_of_mSetArgs in Hin as (n & es & id & Hin & Hid & ->). eapply Hl1 in Hid; [|done]. by apply (Hk n id t Hid).
Qed.

Lemma verify_correct v v' l check (r : R) :
  conversion v l → migrated v v' → view r = v' →
  (∀ n id t', converted v n id t' → startsWith ENCRYPTION_PREFIX t' = negb encrypted ∧ ∃ s, check t' = Ok s) →
  ∃ r', verify (negb encrypted) check l r = (Ok tt, r') ∧ view r' = v'.
Proof.
  intros [Hl1 _] [Hm _] Hr Hcheck. unfold verify. apply for_each_ok with (P := λ r, view r = v'); [|done].
  intros [n es] r1 Hin Hv1. cbn [fst snd]. destruct es as [|[id t'] es]; [by exists r1|].
  assert (converted v n id t') as Hc by (eapply Hl1; [done|]; by left).
  pose proof (get_law (model_key n id) r1) as Hget. rewrite Hv1, (Hm n id t' Hc) in Hget. destruct Hget as (r2 & Hget & Hv2).
  exists r2. rewrite (bind_ok _ _ _ _ _ Hget). destruct (Hcheck n id t' Hc) as [Hp [s Hs]].
  rewrite bool_decide_eq_true_2 by done. unfold mbind, M_bind, lift. by rewrite Hs.
Qed.
End migration.

(** ** Migrations *)

Local Abbreviation World := (CryptoCredentials.World (R := R) (Key := Key) (HmacKey := HmacKey)).

Section world.
Context (tools : Tools) (can_write : bool) (newHalves : bytes * bytes) (iv : jstring → jstring → bytes).
Context (content_text : Content → bytes).
Hypothesis writable : can_write = true.

Lemma on_server_ok {B} (m : M R B) (w : World) b r :
  m (redis w) = (Ok b, r) → on_server m w = (Ok b, mkWorld (xenStore w) (files w) r (credentials w)).
Proof. unfold on_server. by intros ->. Qed.

(** [migrate], when every model to convert can be. *)
Lemma migrate_correct encrypted f check p (w : World) :
  let c := credentials w in let v := view (redis w) in
  readable v → converts encrypted (f c) v → files w !! p = None →
  (∀ n id t', converted encrypted (f c) v n id t' → startsWith ENCRYPTION_PREFIX t' = negb encrypted ∧ ∃ s, check c t' = Ok s) →
  ∃ r', migrate can_write content_text encrypted f check p w = (Ok tt, mkWorld (xenStore w) (files w) r' c) ∧
    migrated encrypted (f c) v (view r').
Proof.
  intros c v Hv Hf Hp Hcheck. unfold migrate.
  destruct (getRedisContent_correct v (redis w) Hv eq_refl) as (content & r1 & Hrun1 & Hv1 & Hcontent).
  rewrite (bind_ok _ _ _ _ _ (on_server_ok _ w _ _ Hrun1)). unfold writeFile, removeFile. rewrite writable.
  set (w1 := mkWorld (xenStore w) (<[p := content_text content]> (files w)) r1 c).
  rewrite (bind_ok _ _ _ tt w1) by done. rewrite (bind_ok _ _ _ c w1) by done.
  destruct (convert_correct encrypted (f c) v content r1 Hf Hv Hv1 Hcontent) as (l & r2 & Hrun2 & Hv2 & Hl).
  rewrite (bind_ok _ _ _ _ _ (on_server_ok _ w1 _ _ Hrun2)).
  set (w2 := mkWorld (xenStore w1) (files w1) r2 (credentials w1)).
  assert (∃ r3, (match mSetArgs l with [] => mret tt | args => on_server (redis_mSet args) end) w2 =
    (Ok tt, mkWorld (xenStore w1) (files w1) r3 (credentials w1)) ∧ view r3 = foldl (λ v x, <[x.1 := RStr x.2]> v) v (mSetArgs l)) as (r3 & Hrun3 & Hv3).
  { destruct (mSetArgs l) as [|x args] eqn:E; [by exists r2|].
    destruct (mSet_law (x :: args) r2) as (r3 & Hset & Hv3). rewrite Hv2 in Hv3. exists r3. split; [|done]. by apply (on_server_ok _ w2). }
  rewrite (bind_ok _ _ _ _ _ Hrun3).
  pose proof (mSet_migrates encrypted (f c) v l Hv Hl) as Hm. rewrite <- Hv3 in Hm.
  destruct (verify_correct encrypted (f c) v (view r3) l (check c) r3 Hl Hm eq_refl Hcheck) as (r4 & Hrun4 & Hv4).
  exists r4. rewrite (bind_ok _ _ _ _ _ (on_server_ok _ (mkWorld (xenStore w1) (files w1) r3 (credentials w1)) _ _ Hrun4)).
  split; [|by rewrite Hv4]. unfold modify. cbn. by rewrite delete_insert_id.
Qed.

(** Every text that is not encrypted is, and is decrypted to what it was. *)
Lemma migrateToEncrypted_correct p key (w : World) :
  let c := credentials w in let v := view (redis w) in
  readable v → encryptionKey c = Some key → (∀ n id, length (iv n id) = IV_LENGTH) → files w !! p = None →
  ∃ r', migrateToEncrypted can_write iv content_text p w = (Ok tt, mkWorld (xenStore w) (files w) r' c) ∧
    migrated false (λ n id, encrypt_text c (iv n id)) v (view r').
Proof.
  intros c v Hv Hkey Hiv Hp. apply (migrate_correct false (λ c n id, encrypt_text c (iv n id)) decrypt_text p w); [done| |done|].
  - intros n id t _ _ _ _. destruct (decrypt_encrypt_text c key (iv n id) t Hkey (Hiv n id)) as (t' & ? & _). by exists t'.
  - intros n id t' (_ & _ & t & _ & _ & Ht). split; [by eapply encrypt_prefix|].
    destruct (decrypt_encrypt_text c key (iv n id) t Hkey (Hiv n id)) as (t2 & Ht2 & Hd). exists t. fold c in Ht, Ht2 |- *. congruence.
Qed.

(** *** What a collection stores *)

Lemma migrated_sets encrypted f v v' k :
  readable v → migrated encrypted f v v' → (∀ n id, n ∈ members v namespaces_key → id ∈ members v (ids_key n) → k ≠ model_key n id) → v' !! k = v !! k.
Proof. intros Hv [_ Hm] Hk. apply Hm. intros n id t (Hn & Hid & _). by apply Hk. Qed.

(** The models of a collection are the same ones, through the encryption. *)
Lemma encrypted_stores `{Json} (c : Credentials) crypto v v' n D :
  active crypto = Some (mkCrypto (degraded c) (hmac_text c) (encrypt_text c) (decrypt_text c)) →
  has_keys c → (∀ n id, length (iv n id) = IV_LENGTH) →
  (∀ text fields, parse text = Ok fields → startsWith ENCRYPTION_PREFIX text = false) →
  readable v → n ∈ members v namespaces_key →
  migrated false (λ n id, encrypt_text c (iv n id)) v v' → stores None n v D → stores crypto n v' D.
Proof.
  intros Hactive [[key Hkey] _] Hiv Hjson Hv Hn Hm HD.
  assert (v' !! ids_key n = v !! ids_key n) as Hids.
  { apply (migrated_sets _ _ _ _ _ Hv Hm). intros n' id Hn' _ E.
    assert (n = n') as <-.
    { apply (own_key_inj n n' (ids_key n)); [by apply (rd_plain _ Hv)..|apply own_ids|]. rewrite E. apply model_key_own. }
    by apply (ids_not_model n id). }
  split.
  - intros id Hid. pose proof (st_stored _ _ _ _ HD id Hid) as Hst. unfold holds in Hst.
    destruct (v !! model_key n id) as [[t| |h]|] eqn:E; [| done | |].
    + destruct Hst as (fields & HDid & Ht). cbn in Ht.
      destruct (decrypt_encrypt_text c key (iv n id) t Hkey (Hiv n id)) as (t' & Henc & Hdec).
      assert (converted false (λ n id, encrypt_text c (iv n id)) v n id t') as Hc.
      { split; [done|]. split; [by apply (st_registered _ _ _ _ HD); eexists|]. exists t. unfold text_of. rewrite E.
        split; [done|]. split; [by eapply Hjson|done]. }
      rewrite (proj1 Hm n id t' Hc). exists fields. split; [done|]. unfold read_text. rewrite Hactive. cbn. by rewrite Hdec.
    + assert (id ∈ members v (ids_key n)) as Hreg by (apply (st_registered _ _ _ _ HD); by eexists).
      pose proof (rd_text _ Hv n id Hn Hreg) as Hrd. by rewrite E in Hrd.
    + rewrite (proj2 Hm), E; [done|]. intros n' id' t' Hc' E'.
      assert (n = n') as <-.
      { apply (own_key_inj n n' (model_key n id)); [by apply (rd_plain _ Hv)|by apply (rd_plain _ Hv), (proj1 Hc')|apply model_key_own|]. rewrite E'. apply model_key_own. }
      apply model_key_inj in E' as <-. destruct Hc' as (_ & _ & t & Ht & _). unfold text_of in Ht. by rewrite E in Ht.
  - eapply set_at_ext; [done|]. exact (st_ids_at _ _ _ _ HD).
  - intros id Hid. rewrite (members_ext _ _ _ Hids). by apply (st_registered _ _ _ _ HD).
  - intros id Hid. rewrite (members_ext _ _ _ Hids) in Hid. by apply (st_reserved _ _ _ _ HD).
Qed.

(** *** The name of the backup *)

Lemma backup_path_inj i j : backup_path i = backup_path j → i = j.
Proof.
  unfold backup_path. repeat case_decide; try congruence.
  - intros E. discriminate E.
  - intros E. discriminate E.
  - intros E. apply app_inv_head, app_inv_tail in E. apply Z_digits_inj in E. lia.
Qed.

Lemma free_path_spec fuel i (fs : gmap path bytes) p : free_path fuel i fs = Some p → fs !! p = None.
Proof.
  revert i. induction fuel as [|fuel IH]; intros i; cbn [free_path]; [done|]. case_bool_decide; [|apply IH]. intros E. by injection E as <-.
Qed.

Lemma free_path_none fuel i (fs : gmap path bytes) :
  free_path fuel i fs = None → ∀ j, (i ≤ j < i + fuel)%nat → backup_path j ∈ dom fs.
Proof.
  revert i. induction fuel as [|fuel IH]; intros i; cbn [free_path]; [lia|]. case_bool_decide as Hi; [done|]. intros E j Hj.
  destruct (decide (j = i)) as [->|]; [|apply (IH (S i)); [done|lia]]. apply elem_of_dom. destruct (fs !! backup_path i); [by eexists|done].
Qed.

(** A free name is found. *)
Lemma getBackupFilePath_found (fs : gmap path bytes) : ∃ p, getBackupFilePath fs = Some p ∧ fs !! p = None.
Proof.
  unfold getBackupFilePath. destruct (free_path (S (size fs)) 0 fs) as [p|] eqn:E; [exists p; split; [done|by eapply free_path_spec]|].
  exfalso. pose proof (free_path_none _ _ _ E) as Hall.
  assert (list_to_set (map backup_path (seq 0 (S (size fs)))) ⊆ dom fs) as Hsub.
  { intros p. rewrite elem_of_list_to_set, list_elem_of_fmap. intros (j & -> & Hj%elem_of_seq). apply Hall. lia. }
  apply subseteq_size in Hsub. rewrite size_list_to_set, length_map, length_seq, size_dom in Hsub; [lia|].
  apply NoDup_fmap_2_strong; [|apply NoDup_seq]. intros i j _ _. apply backup_path_inj.
Qed.

Lemma backup_not_key i : backup_path i ≠ KEY_FILE_PATH.
Proof. unfold backup_path. case_decide; intros E; discriminate E. Qed.

(** *** The start of the server *)

Local Abbreviation start := (start true Works can_write newHalves iv content_text).

(** New keys are made, and what the collections store is encrypted with them. *)
Lemma start_encrypts (w : World) key hkey :
  credentials w = initial → xenStore w = None ∨ files w !! KEY_FILE_PATH = None →
  deriveKeys (newHalves.1 ++ newHalves.2) = Some (key, hkey) → (∀ n id, length (iv n id) = IV_LENGTH) → readable (view (redis w)) →
  let c := mkCredentials (Some key) (Some hkey) (Some Encryption) false in
  ∃ r', start w = (Ok tt, mkWorld (Some (hex newHalves.1)) (<[KEY_FILE_PATH := newHalves.2]> (files w)) r' c) ∧
    migrated false (λ n id, encrypt_text c (iv n id)) (view (redis w)) (view r').
Proof.
  intros Hcred Hhalf Hkeys Hiv Hv c. set (files' := <[KEY_FILE_PATH := newHalves.2]> (files w)).
  set (w1 := mkWorld (Some (hex newHalves.1)) files' (redis w) c).
  assert (initialize true Works can_write newHalves w = (Ok tt, w1)) as Hinit.
  { set (w0 := mkWorld (xenStore w) (files w) (redis w) (mkCredentials None None None true) : World).
    assert (generateKeys Works can_write newHalves w0 = (Ok tt, w1)) as Hgen.
    { unfold generateKeys, try_catch, writeXenStore, writeFile, _loadKey. rewrite writable, Hkeys. reflexivity. }
    unfold initialize. rewrite (bind_ok _ _ w (files w !! KEY_FILE_PATH) w) by done. cbn [negb andb].
    rewrite (bind_ok _ _ w tt w0) by (unfold set_degraded, set_credentials, modify; by rewrite Hcred).
    rewrite (bind_ok _ _ w0 (Some (of_hex <$> (trim <$> xenStore w))) w0) by done.
    destruct (xenStore w) as [h|]; [|exact Hgen]. destruct (files w !! KEY_FILE_PATH); [by destruct Hhalf|exact Hgen]. }
  destruct (getBackupFilePath_found files') as (p & Hp & Hfree).
  destruct (migrateToEncrypted_correct p key w1) as (r' & Hrun & Hm); [exact Hv|reflexivity|exact Hiv|exact Hfree|].
  exists r'. split; [|done]. unfold CryptoCredentials.start. rewrite (bind_ok _ _ _ _ _ Hinit).
  rewrite (bind_ok _ _ _ w1 w1) by done. cbn [migrationRequired credentials w1 files c]. rewrite Hp. unfold try_catch. by rewrite Hrun.
Qed.

(** When it starts again, the same keys are loaded and nothing is changed. *)
Lemma restart (w : World) fileKey key hkey :
  credentials w = initial → xenStore w = Some (hex newHalves.1) → files w !! KEY_FILE_PATH = Some fileKey →
  deriveKeys (newHalves.1 ++ fileKey) = Some (key, hkey) →
  start w = (Ok tt, mkWorld (xenStore w) (files w) (redis w) (mkCredentials (Some key) (Some hkey) None false)).
Proof.
  intros Hcred Hxs Hfile Hkeys. set (w0 := mkWorld (xenStore w) (files w) (redis w) (mkCredentials None None None true) : World).
  set (w1 := mkWorld (xenStore w) (files w) (redis w) (mkCredentials (Some key) (Some hkey) None false)).
  unfold CryptoCredentials.start. rewrite (bind_ok _ _ w tt w1).
  2:{ unfold initialize. rewrite (bind_ok _ _ w (files w !! KEY_FILE_PATH) w) by done. cbn [negb andb].
      rewrite (bind_ok _ _ w tt w0) by (unfold set_degraded, set_credentials, modify; by rewrite Hcred).
      rewrite (bind_ok _ _ w0 (Some (of_hex <$> (trim <$> xenStore w))) w0) by done.
      rewrite Hxs, Hfile. cbn [fmap option_fmap option_map]. unfold _loadKey. by rewrite hex_law, Hkeys. }
  rewrite (bind_ok _ _ w1 w1 w1) by done. cbn [migrationRequired credentials w1]. by destruct (getBackupFilePath (files w)).
Qed.
End world.

(** ** The keys when the encryption is in use *)

Definition guarded (w : World) : Prop := degraded (credentials w) = true ∨ has_keys (credentials w).
Definition guards {B} (m : M World B) : Prop := ∀ w, guarded w → guarded (m w).2.

Lemma guards_bind {B C} (m : M World B) (f : B → M World C) : guards m → (∀ b, guards (f b)) → guards (m ≫= f).
Proof.
  intros Hm Hf w Hw. unfold mbind, M_bind. specialize (Hm w Hw). destruct (m w) as [[b|e] w1]; [by apply Hf|done].
Qed.
Lemma guards_catch {B} (m : M World B) h : guards m → (∀ e, guards (h e)) → guards (try_catch m h).
Proof.
  intros Hm Hh w Hw. unfold try_catch. specialize (Hm w Hw). destruct (m w) as [[b|e] w1]; [done|by apply Hh].
Qed.
Lemma guards_ret {B} (b : B) : guards (mret b).
Proof. by intros w. Qed.
Lemma guards_lift {B} (b : result B) : guards (lift b).
Proof. by intros w. Qed.
Lemma guards_gets {B} (f : World → B) : guards (gets f).
Proof. by intros w. Qed.
Lemma guards_server {B} (m : M R B) : guards (on_server m).
Proof. intros w Hw. unfold on_server. by destruct (m (redis w)). Qed.
Lemma guards_degraded : guards (set_degraded true).
Proof. intros w _. by left. Qed.
Lemma guards_migration m : guards (set_migration m).
Proof. by intros w. Qed.
Lemma guards_loadKey a b : guards (_loadKey a b).
Proof. intros w Hw. unfold _loadKey. destruct (deriveKeys (a ++ b)) as [[k hk]|]; [|done]. right. split; by eexists. Qed.
Lemma guards_writeFile b p data : guards (writeFile b p data).
Proof. intros w Hw. unfold writeFile. by destruct b. Qed.
Lemma guards_removeFile b p : guards (removeFile b p).
Proof. intros w Hw. unfold removeFile. by destruct b. Qed.
Lemma guards_writeXenStore t v : guards (writeXenStore t v).
Proof. intros w Hw. unfold writeXenStore. by destruct t. Qed.
End facts.

Create HintDb guards.
#[export] Hint Resolve guards_ret guards_lift guards_gets guards_server guards_degraded guards_migration guards_loadKey guards_writeFile
  guards_removeFile guards_writeXenStore : guards.

Ltac solve_guards := repeat first [apply guards_bind; [|intros ?] | apply guards_catch; [|intros ?] | solve [eauto with guards] | case_match].

Section safe.
Context {R Key HmacKey : Type} `{RedisLaws R} `{CipherLaws Key HmacKey}.
Context (tools : Tools) (can_write : bool) (newHalves : bytes * bytes) (iv : jstring → jstring → bytes) (content_text : Content → bytes).

Local Abbreviation World := (CryptoCredentials.World (R := R) (Key := Key) (HmacKey := HmacKey)).

Lemma initialize_guarded (w : World) : guarded (initialize true tools can_write newHalves w).2.
Proof.
  unfold initialize. rewrite (bind_ok _ _ w (files w !! KEY_FILE_PATH) w) by done. cbn [negb andb].
  set (w0 := mkWorld (xenStore w) (files w) (redis w)
    (mkCredentials (encryptionKey (credentials w)) (hmacKey (credentials w)) (migrationRequired (credentials w)) true) : World).
  rewrite (bind_ok _ _ w tt w0) by done.
  match goal with |- guarded (?m w0).2 => enough (guards m) as Hm by (apply Hm; by left) end.
  unfold readXenStoreKey, generateKeys, ignoring. solve_guards.
Qed.

Lemma migrate_guards encrypted f check p :
  guards (migrate (R := R) (Key := Key) (HmacKey := HmacKey) can_write content_text encrypted f check p).
Proof. unfold migrate. solve_guards. Qed.

(** However the start ends, the encryption that the collections use has its keys. *)
Lemma start_guarded (w : World) : guarded (start true tools can_write newHalves iv content_text w).2.
Proof.
  unfold start. pose proof (initialize_guarded w) as Hw. unfold mbind at 1, M_bind at 1.
  destruct (initialize true tools can_write newHalves w) as [[[]|e] w1]; [|done]. cbn [snd] in Hw. revert w1 Hw.
  match goal with |- ∀ w1, _ → guarded (?m w1).2 => change (guards m) end.
  pose proof migrate_guards. unfold migrateToEncrypted, migrateToDecrypted, ignoring. solve_guards.
Qed.

Lemma active_laws (w w' : World) a crypto :
  start true tools can_write newHalves iv content_text w = (a, w') →
  active (cryptoCredentials true (credentials w')) = Some crypto → CryptoLaws crypto.
Proof.
  intros Hrun Hactive. pose proof (start_guarded w) as Hg. rewrite Hrun in Hg. cbn [snd] in Hg.
  unfold cryptoCredentials, active in Hactive. cbn in Hactive. destruct (degraded (credentials w')) eqn:E; [done|].
  destruct Hg as [Hd|Hk]; [congruence|]. apply (credentials_laws true (credentials w')); [done|]. cbn. by rewrite E.
Qed.
End safe.

(** ** Properties *)

(** C15: When the encryption is switched on, the server makes its keys, keeps each half in
    its place, and encrypts the database: once the indexes are made again, each
    collection represents the models it had, now read through the encryption. *)
Theorem encryption_keeps_models {R Key HmacKey} `{RedisLaws R} `{CipherLaws Key HmacKey} `{JsonLaws}
    newHalves iv content_text (w : World (R := R) (Key := Key) (HmacKey := HmacKey)) key hkey :
  credentials w = initial → xenStore w = None ∨ files w !! KEY_FILE_PATH = None →
  deriveKeys (newHalves.1 ++ newHalves.2) = Some (key, hkey) → (∀ n id, length (iv n id) = IV_LENGTH) →
  (∀ text fields, parse text = Ok fields → startsWith ENCRYPTION_PREFIX text = false) → readable (view (redis w)) →
  ∃ w', start true Works true newHalves iv content_text w = (Ok tt, w') ∧
    xenStore w' = Some (hex newHalves.1) ∧ files w' = <[KEY_FILE_PATH := newHalves.2]> (files w) ∧
    ∀ n indexes D, n ∈ members (view (redis w)) namespaces_key → stores None n (view (redis w)) D →
      Forall (plain [colon]) indexes → indexes ≠ [] →
      ∃ r', rebuildIndexes (cryptoCredentials true (credentials w')) n indexes (redis w') = (Ok tt, r') ∧
        represents (cryptoCredentials true (credentials w')) n indexes (view r') D.
Proof.
  intros Hcred Hhalf Hkeys Hiv Hjson Hv. set (c := mkCredentials (Some key) (Some hkey) (Some Encryption) false).
  destruct (start_encrypts true newHalves iv content_text eq_refl w key hkey) as (r & Hrun & Hm); [done..|]. fold c in Hrun, Hm.
  eexists. split; [exact Hrun|]. split; [done|]. split; [done|]. cbn [credentials redis]. intros n indexes D Hn HD Hi Hne.
  assert (has_keys c) as Hc by (split; by eexists).
  assert (stores (cryptoCredentials true c) n (view r) D) as HD' by (by apply (encrypted_stores iv c _ (view (redis w)))).
  destruct (rebuild_correct (cryptoCredentials true c) n indexes) with (v0 := view r) (D := D) (r := r) as (r' & Hreb & HD2 & _); [|done..|].
  - intros crypto Hactive. by apply (credentials_laws true c).
  - by exists r'.
Qed.

(** ** An instance, and a half that is lost *)

(** Two letters for each byte. *)
Definition letters (c : ascii) : list ascii := [chr (97 + code c / 16); chr (97 + code c mod 16)].
Fixpoint of_letters (s : list ascii) : bytes :=
  match s with a :: b :: s => chr ((code a - 97) * 16 + (code b - 97)) :: of_letters s | _ => [] end.

Lemma letters_ok c : is_space (chr (97 + code c / 16)) = false ∧ is_space (chr (97 + code c mod 16)) = false ∧
  chr ((code (chr (97 + code c / 16)) - 97) * 16 + (code (chr (97 + code c mod 16)) - 97)) = c.
Proof. destruct c as [[] [] [] [] [] [] [] []]; vm_compute; auto. Qed.

Lemma span_none s : Forall (λ c, is_space c = false) s → span is_space s = ([], s).
Proof. destruct s as [|c s]; [done|]. intros [Hc _]%Forall_cons. cbn. by rewrite Hc. Qed.

Lemma trim_none s : Forall (λ c, is_space c = false) s → trim s = s.
Proof.
  intros Hs. unfold trim. rewrite (span_none s Hs). cbn [snd]. rewrite span_none; [apply rev_involutive|].
  rewrite Forall_forall in Hs |- *. intros c Hc. apply Hs. rewrite list_elem_of_In in Hc |- *. by apply in_rev.
Qed.

Lemma letters_law b : of_letters (trim (b ≫= letters)) = b.
Proof.
  rewrite trim_none.
  - induction b as [|c b IH]; [done|]. destruct (letters_ok c) as (_ & _ & Hc). cbn -[code chr]. by rewrite Hc, IH.
  - apply Forall_forall. intros x (c & Hx & _)%list_elem_of_bind. destruct (letters_ok c) as (H1 & H2 & _).
    unfold letters in Hx. rewrite !elem_of_cons, elem_of_nil in Hx. by destruct Hx as [->|[->|[]]].
Qed.

(** The whole key in front of the text: another key does not decrypt it. *)
#[export] Instance sample_cipher : Cipher bytes bytes := {
  deriveKeys full := Some (full, full);
  aes_encrypt k _ text := k ++ text;
  aes_decrypt k _ text := if startsWith k text then Ok (drop (length k) text) else Throw (OtherError "OperationError");
  hmac _ b := b;
  utf8 s := s;
  of_utf8 b := b;
  base64 b := b;
  of_base64 s := s;
  hex b := b ≫= letters;
  of_hex := of_letters;
}.

#[export] Instance sample_cipher_laws : CipherLaws bytes bytes.
Proof.
  split; cbn; try done.
  - intros k _ text. by rewrite startsWith_prefix_app, drop_app_length.
  - apply letters_law.
Qed.

Definition plain_database : keyspace :=
  <[js "xo:user:1" := RStr alice_text]> (<[js "xo:user_ids" := RSet {[js "1"]}]> (<[js "xo::namespaces" := RSet {[js "user"]}]> ∅)).

Abbreviation SampleWorld := (World (R := keyspace) (Key := bytes) (HmacKey := bytes)).
Definition new_server : SampleWorld := mkWorld None ∅ plain_database initial.
Definition sample_iv (_ _ : jstring) : bytes := replicate IV_LENGTH "0"%char.
Definition start_with (a b : string) (w : SampleWorld) : result unit * SampleWorld :=
  start true Works true (js a, js b) sample_iv (λ _, js "backup") w.

Definition encrypted_server : SampleWorld := (start_with "A" "B" new_server).2.
(** The same server, when the XenStore has lost its half. *)
Definition without_half : SampleWorld := mkWorld None (files encrypted_server) (redis encrypted_server) initial.
Definition restarted : result unit * SampleWorld := start_with "C" "D" without_half.

Definition read_alice (w : SampleWorld) : result (option record) :=
  (get_record (cryptoCredentials true (credentials w)) (model_key (js "user") (js "1")) (redis w)).1.

Example encrypted_is_read : read_alice encrypted_server = Ok (Some (by_name "Alice")).
Proof. vm_compute. reflexivity. Qed.

(** Both halves are made again over the one that was left: the server starts, and no
    model can be read any more. *)
Example lost_half :
  (restarted.1, degraded (credentials restarted.2), files restarted.2 !! KEY_FILE_PATH, files without_half !! KEY_FILE_PATH, read_alice restarted.2) =
  (Ok tt, false, Some (js "D"), Some (js "B"), Throw (OtherError "OperationError")).
Proof. vm_compute. reflexivity. Qed.

Lemma digits_not_encrypted text fields : parse text = Ok fields → startsWith ENCRYPTION_PREFIX text = false.
Proof.
  destruct (startsWith ENCRYPTION_PREFIX text) eqn:E; [|done]. apply startsWith_spec in E as [s ->]. intros Hp. discriminate Hp.
Qed.

Lemma plain_lookup id : plain_database !! model_key (js "user") id = if decide (id = js "1") then Some (RStr alice_text) else None.
Proof.
  unfold plain_database. case_decide as E; [subst id; apply lookup_insert_eq|].
  rewrite lookup_insert_ne by (intros E2%(model_key_inj (js "user") (js "1")); congruence).
  rewrite !lookup_insert_ne by (intros E2; discriminate E2). apply lookup_empty.
Qed.

Lemma plain_stores : stores None (js "user") plain_database {[js "1" := by_name "Alice"]}.
Proof.
  split.
  - intros id _. rewrite plain_lookup. case_decide as E.
    + subst id. rewrite lookup_singleton_eq. exists (by_name "Alice"). split; [done|]. unfold read_text. cbn [active mbind result_bind].
      apply parse_stringify.
    + by rewrite lookup_singleton_ne.
  - exact I.
  - intros id [x [<- _]%lookup_singleton_Some]. apply (bool_decide_unpack _). vm_compute. exact I.
  - intros id Hid. change (id ∈ ({[js "1"]} : gset jstring)) in Hid. apply elem_of_singleton in Hid as ->. intros [E|E]; discriminate E.
Qed.

Lemma plain_readable : readable plain_database.
Proof.
  assert (∀ n, n ∈ members plain_database namespaces_key → n = js "user") as Hn.
  { intros n Hn. change (n ∈ ({[js "user"]} : gset jstring)) in Hn. by apply elem_of_singleton in Hn. }
  split.
  - exact I.
  - intros n ->%Hn. apply (bool_decide_unpack _). vm_compute. exact I.
  - intros n ->%Hn. exact I.
  - intros n id ->%Hn _. rewrite plain_lookup. by case_decide.
Qed.

Lemma encryption_keeps_models_witness :
  ∃ w' r', start_with "A" "B" new_server = (Ok tt, w') ∧
    rebuildIndexes (cryptoCredentials true (credentials w')) (js "user") [js "name"] (redis w') = (Ok tt, r') ∧
    represents (cryptoCredentials true (credentials w')) (js "user") [js "name"] r' {[js "1" := by_name "Alice"]}.
Proof.
  destruct (encryption_keeps_models (js "A", js "B") sample_iv (λ _, js "backup") new_server (js "AB") (js "AB")) as (w' & Hrun & _ & _ & Hcol).
  - reflexivity.
  - left. reflexivity.
  - reflexivity.
  - intros n id. reflexivity.
  - apply digits_not_encrypted.
  - apply plain_readable.
  - destruct (Hcol (js "user") [js "name"] {[js "1" := by_name "Alice"]}) as (r' & Hreb & HD).
    + apply (bool_decide_unpack _). vm_compute. exact I.
    + apply plain_stores.
    + apply Forall_singleton. apply (bool_decide_unpack _). vm_compute. exact I.
    + intros E. discriminate E.
    + exists w', r'. split; [exact Hrun|]. split; [exact Hreb|exact HD].
Defined.
