(* ===== verification/Subjects.v ===== *)
(** * Users and groups

    packages/xo-server/src/xo-mixins/subjects.mjs: the accounts of the server, the groups
    they are in, and the registration of the users of authentication providers.

    The two collections are seen through the interface [Store], of which
    [SubjectModels.v] gives an instance over the database.  The operations run one after
    the other, with what they start and do not wait for; the ACLs, the tokens and the
    connections that [deleteUser] and [deleteGroup] clean up are left out.  The hashes of
    passwords are parameters. *)

From stdpp Require Import gmap sets list.
From S2P Require Import Prelude JsValues Database.

Local Open Scope Z_scope.

(** ** Users and groups *)

Record Provider := mkProvider { provider_id : jstring; provider_data : option jstring }.

#[export] Instance provider_eq_dec : EqDecision Provider.
Proof. solve_decision. Defined.

(** Groups, providers and preferences that are undefined are empty ones: they are stored
    the same way. *)
Record User := mkUser {
  email : option jstring;
  username : option jstring;
  name : option jstring;
  firstname : option jstring;
  lastname : option jstring;
  permission : option jstring;
  pw_hash : option jstring;
  authProviders : gmap jstring Provider;
  groups : list jstring;
  preferences : gmap jstring value;
}.

Record Group := mkGroup {
  group_name : option jstring;
  provider : option jstring;
  providerGroupId : option jstring;
  users : list jstring;
  aclRoleIds : option (list jstring);
}.

#[export] Instance user_eq_dec : EqDecision User.
Proof. solve_decision. Defined.
#[export] Instance group_eq_dec : EqDecision Group.
Proof. solve_decision. Defined.

Definition set_groups (l : list jstring) (u : User) : User :=
  mkUser (email u) (username u) (name u) (firstname u) (lastname u) (permission u) (pw_hash u) (authProviders u) l (preferences u).
Definition set_users (l : list jstring) (g : Group) : Group :=
  mkGroup (group_name g) (provider g) (providerGroupId g) l (aclRoleIds g).

(** A user without a permission has none once it is stored. *)
Definition stored_user (u : User) : User :=
  mkUser (email u) (username u) (name u) (firstname u) (lastname u) (Some (default (js "none") (permission u)))
    (pw_hash u) (authProviders u) (groups u) (preferences u).

Definition UNIQUE_FIELDS : list jstring := [js "email"; js "username"].
Definition unique_field (field : jstring) (u : User) : option jstring :=
  if decide (field = js "email") then email u else username u.

Definition same (a b : jstring) : bool := bool_decide (toLowerCase a = toLowerCase b).

(** Whether a user has this value, without case. *)
Definition taken (U : gmap jstring User) (field value : jstring) : bool :=
  existsb (λ x, match unique_field field x.2 with Some v => same v value | None => false end) (map_to_list U).

Definition noSuchObject (id type : jstring) : error := XoError 1 [id; type].
Definition invalidCredentials : error := XoError 3 [].
Definition objectAlreadyExists (type : jstring) : error := XoError 16 [type].

(** What [_beforeAdd] and [_beforeUpdate] of the users check; the identifier that the
    error carries is left out. *)
Definition checkUnique (U : gmap jstring User) (field : jstring) (value : option jstring) : result unit :=
  match value with
  | Some v => if taken U field v then Throw (objectAlreadyExists (js "user")) else Ok tt
  | None => Ok tt
  end.
Fixpoint check_fields (fields : list jstring) (U : gmap jstring User) (u : User) : result unit :=
  match fields with
  | [] => Ok tt
  | field :: fields => checkUnique U field (unique_field field u) ;; check_fields fields U u
  end.
Fixpoint check_changed (fields : list jstring) (U : gmap jstring User) (u previous : User) : result unit :=
  match fields with
  | [] => Ok tt
  | field :: fields =>
      (if decide (unique_field field u = unique_field field previous) then Ok tt
       else checkUnique U field (unique_field field u)) ;;
      check_changed fields U u previous
  end.

Definition user_check (U : gmap jstring User) (id : jstring) (u : User) : result unit :=
  match U !! id with
  | None => check_fields UNIQUE_FIELDS U u
  | Some previous => check_changed UNIQUE_FIELDS U u previous
  end.

(** Those of the groups; a name that is undefined is looked for as a text. *)
Definition name_text (o : option jstring) : jstring := default (js "undefined") o.
Definition name_taken (G : gmap jstring Group) (n : jstring) : bool :=
  existsb (λ x, match group_name x.2 with Some v => same v n | None => false end) (map_to_list G).
Definition groupAlreadyExists (n : jstring) : error := 
  OtherError (string_of_list_ascii (js "the group " ++ n ++ js " already exists")).
Definition group_check (G : gmap jstring Group) (id : jstring) (g : Group) : result unit :=
  let check := if name_taken G (name_text (group_name g)) then Throw (groupAlreadyExists (name_text (group_name g))) else Ok tt in
  match G !! id with
  | None => check
  | Some previous => if decide (group_name g = group_name previous) then Ok tt else check
  end.

(** ** What the mixin needs of the collections *)

Class Store (S : Type) := {
  holds_subjects : S → gmap jstring User → gmap jstring Group → Prop;
  usable_id : jstring → Prop;
  user_first : jstring → M S (option User);
  user_by_email : jstring → M S (option (jstring * User));
  user_all : M S (list (jstring * User));
  user_add : jstring → User → M S User;
  user_update : jstring → User → M S unit;
  user_remove : jstring → M S unit;
  group_first : jstring → M S (option Group);
  group_by_name : option jstring → M S (list (jstring * Group));
  group_all : M S (list (jstring * Group));
  group_add : jstring → Group → M S Group;
  group_update : jstring → Group → M S unit;
  group_remove : jstring → M S unit;
}.

(** [m] returns [a], and the collections become [U] and [G]. *)
Definition leaves {S A} `{Store S} (m : M S A) (s : S) (a : result A) (U : gmap jstring User) (G : gmap jstring Group) : Prop :=
  ∃ s', m s = (a, s') ∧ holds_subjects s' U G.

Class StoreLaws (S : Type) `{Store S} := {
  user_stored s U G id u : holds_subjects s U G → U !! id = Some u → stored_user u = u;
  user_first_law s U G id : holds_subjects s U G → usable_id id → leaves (user_first id) s (Ok (U !! id)) U G;
  user_by_email_law s U G e : holds_subjects s U G → ∃ o, leaves (user_by_email e) s (Ok o) U G ∧
    match o with
    | Some (id, u) => U !! id = Some u ∧ ∃ v, email u = Some v ∧ same v e = true
    | None => ∀ id u v, U !! id = Some u → email u = Some v → same v e = false
    end;
  user_all_law s U G : holds_subjects s U G → ∃ l, leaves user_all s (Ok l) U G ∧ NoDup l.*1 ∧
    ∀ id u, (id, u) ∈ l ↔ U !! id = Some u;
  user_usable s U G id : holds_subjects s U G → is_Some (U !! id) → usable_id id;
  group_usable s U G id : holds_subjects s U G → is_Some (G !! id) → usable_id id;
  user_exists_law s U G id u : holds_subjects s U G → usable_id id → is_Some (U !! id) →
    leaves (user_add id u) s (Throw (OtherError "this model already exists")) U G;
  group_exists_law s U G id g : holds_subjects s U G → usable_id id → is_Some (G !! id) →
    leaves (group_add id g) s (Throw (OtherError "this model already exists")) U G;
  user_add_law s U G id u : holds_subjects s U G → usable_id id → U !! id = None →
    match user_check U id u with
    | Ok _ => leaves (user_add id u) s (Ok (stored_user u)) (<[id := stored_user u]> U) G
    | Throw e => leaves (user_add id u) s (Throw e) U G
    end;
  user_update_law s U G id u : holds_subjects s U G → usable_id id →
    match user_check U id u with
    | Ok _ => leaves (user_update id u) s (Ok tt) (<[id := stored_user u]> U) G
    | Throw e => leaves (user_update id u) s (Throw e) U G
    end;
  user_remove_law s U G id : holds_subjects s U G → usable_id id → leaves (user_remove id) s (Ok tt) (delete id U) G;
  group_first_law s U G id : holds_subjects s U G → usable_id id → leaves (group_first id) s (Ok (G !! id)) U G;
  group_by_name_law s U G n : holds_subjects s U G → ∃ l, leaves (group_by_name n) s (Ok l) U G ∧
    ∀ id g, (id, g) ∈ l ↔ G !! id = Some g ∧ ∃ v, group_name g = Some v ∧ same v (name_text n) = true;
  group_all_law s U G : holds_subjects s U G → ∃ l, leaves group_all s (Ok l) U G ∧ NoDup l.*1 ∧
    ∀ id g, (id, g) ∈ l ↔ G !! id = Some g;
  group_add_law s U G id g : holds_subjects s U G → usable_id id → G !! id = None →
    match group_check G id g with
    | Ok _ => leaves (group_add id g) s (Ok g) U (<[id := g]> G)
    | Throw e => leaves (group_add id g) s (Throw e) U G
    end;
  group_update_law s U G id g : holds_subjects s U G → usable_id id →
    match group_check G id g with
    | Ok _ => leaves (group_update id g) s (Ok tt) U (<[id := g]> G)
    | Throw e => leaves (group_update id g) s (Throw e) U G
    end;
  group_remove_law s U G id : holds_subjects s U G → usable_id id → leaves (group_remove id) s (Ok tt) U (delete id G);
}.

(** ** The operations *)

Definition addToArraySet (set : list jstring) (value : jstring) : list jstring :=
  if decide (value ∈ set) then set else set ++ [value].
Definition removeFromArraySet (set : list jstring) (value : jstring) : list jstring := filter (λ current, current ≠ value) set.

(** [if (text)] *)
Definition given (o : option jstring) : option jstring := match o with Some [] => None | o => o end.

(** The changes of [updateUser]; for the password, [Some None] is null, and so is the
    [None] of a preference or of a provider. *)
Record UserChanges := mkChanges {
  new_name : option jstring;
  new_firstname : option jstring;
  new_lastname : option jstring;
  new_username : option jstring;
  new_password : option (option jstring);
  new_permission : option jstring;
  new_preferences : list (jstring * option value);
  new_authProviders : option (option (list (jstring * option Provider)));
}.

(** A member that is null is deleted, another is set. *)
Definition patch {A} (m : gmap jstring A) (changes : list (jstring * option A)) : gmap jstring A :=
  foldl (λ m x, match x.2 with Some v => <[x.1 := v]> m | None => delete x.1 m end) m changes.

Definition _normalizeUser (u : User) : User :=
  mkUser (email u) (username u) (match name u with Some n => Some n | None => email u end) (firstname u) (lastname u)
    (permission u) (pw_hash u) (authProviders u) (groups u) (preferences u).

Definition or_else {A} (o old : option A) : option A := match o with Some _ => o | None => old end.

Section operations.
Context {S : Type} `{Store S}.
Context (hash : jstring → jstring) (verify : jstring → jstring → bool) (needsRehash : jstring → bool).
(** The current user of the API, if any, and what the roles of a group are. *)
Context (apiUser : option jstring) (roleIds : jstring → list jstring).

Definition getUser (id : jstring) : M S User :=
  user ← user_first id;
  match user with
  | Some user => mret (_normalizeUser user)
  | None => lift (Throw (noSuchObject id (js "user")))
  end.

Definition getAllUsers : M S (list (jstring * User)) :=
  users ← user_all; mret (map (λ x, (x.1, _normalizeUser x.2)) (users : list (jstring * User))).

Definition getUserByName (name : jstring) (returnNullIfMissing : bool) : M S (option (jstring * User)) :=
  user ← user_by_email name;
  match user with
  | Some (id, user) => mret (Some (id, _normalizeUser user))
  | None => if returnNullIfMissing then mret None else lift (Throw (noSuchObject name (js "user")))
  end.

(** [properties] are the others; [id] is a fresh identifier. *)
Definition createUser (id : jstring) (name password : option jstring) (properties : User) : M S User :=
  let u := properties in
  let u := mkUser (or_else (given name) (email u)) (username u) (Subjects.name u) (firstname u) (lastname u) (permission u)
             (or_else (hash <$> given password) (pw_hash u)) (authProviders u) (groups u) (preferences u) in
  user_add id u.

Definition apply_changes (c : UserChanges) (u : User) : User :=
  let name := or_else (given (trim <$> new_name c)) (name u) in
  mkUser name (or_else (given (trim <$> new_username c)) (username u)) None
    (or_else (new_firstname c) (firstname u)) (or_else (new_lastname c) (lastname u))
    (or_else (given (new_permission c)) (permission u))
    (match new_password c with Some p => hash <$> p | None => pw_hash u end)
    (match new_authProviders c with Some None => ∅ | Some (Some l) => patch (authProviders u) l | None => authProviders u end)
    (groups u) (patch (preferences u) (new_preferences c)).

Definition updateUser (id : jstring) (c : UserChanges) : M S unit :=
  user ← getUser id;
  let user := apply_changes c user in
  if (bool_decide (is_Some (new_authProviders c)) || bool_decide (is_Some (new_password c))) &&
     bool_decide (is_Some (pw_hash user)) && negb (bool_decide (authProviders user = ∅))
  then lift (Throw (OtherError "user cannot have both password and auth providers"))
  else if bool_decide (pw_hash user = None) && bool_decide (authProviders user = ∅) && bool_decide (apiUser = Some id)
  then lift (Throw (OtherError "current user cannot be without password and auth providers"))
  else user_update id user.

Definition no_change : UserChanges := mkChanges None None None None None None [] None.

(** Whether users are merged, and whether they are created, are in the configuration. *)
Context (mergeProvidersUsers createUserOnFirstSignin : bool).

Definition bound_to (providerId id : jstring) (u : User) : bool :=
  match authProviders u !! providerId with Some p => bool_decide (provider_id p = id) | None => false end.
Definition find_user (f : User → bool) (l : list (jstring * User)) : option (jstring * User) :=
  snd <$> list_find (λ x, f x.2 = true) l.

Definition registerUser2 (newId providerId id name : jstring) (data : option jstring) : M S (jstring * User) :=
  assert_that (bool_decide (id ≠ [])) "id" ;;
  assert_that (bool_decide (name ≠ [])) "name" ;;
  all ← getAllUsers;
  let user := find_user (bound_to providerId id) all in
  if bool_decide ((user ≫= λ x, email x.2) = Some name) then
    match user with Some user => mret user | None => lift (Throw (OtherError "unreachable")) end
  else
    let conflictingUser := find_user (λ u, bool_decide (email u = Some name)) all in
    if bool_decide (is_Some (fst <$> conflictingUser)) && negb mergeProvidersUsers then
      lift (Throw (OtherError "User with name already exists"))
    else
      let user := or_else user conflictingUser in
      userId ← match user with
               | None =>
                   if createUserOnFirstSignin then
                     createUser newId (Some name) None
                       (mkUser None None None None None None None {[providerId := mkProvider id data]} [] ∅) ;; mret newId
                   else lift (Throw (OtherError "registering user is forbidden"))
               | Some (userId, u) =>
                   let previous := authProviders u !! providerId in
                   let changes := map (λ x, (x.1, Some x.2)) (map_to_list (authProviders u)) ++
                     [(providerId, Some (mkProvider id (or_else data (previous ≫= provider_data))))] in
                   updateUser userId (mkChanges
                     (if (bool_decide (size (authProviders u) < 2)%nat) && bool_decide (conflictingUser = None) then Some name else None)
                     None None None (Some None) None [] (Some (Some changes))) ;; mret userId
               end;
      user ← getUser userId; mret (userId, user).

Definition checkUserPassword (userId password : jstring) (updateIfNecessary : bool) : M S bool :=
  user ← getUser userId;
  match pw_hash user with
  | Some h =>
      if bool_decide (authProviders user = ∅) && verify password h then
        (if updateIfNecessary && needsRehash h then
           updateUser userId (mkChanges None None None None (Some (Some password)) None [] None)
         else mret tt) ;; mret true
      else mret false
  | None => mret false
  end.

Definition changeUserPassword (userId oldPassword newPassword : jstring) : M S unit :=
  ok ← checkUserPassword userId oldPassword false;
  if (ok : bool) then updateUser userId (mkChanges None None None None (Some (Some newPassword)) None [] None)
  else lift (Throw invalidCredentials).

(** *** Groups *)

(** [rbac]: the roles are written in the group that is returned. *)
Definition _normalizeGroup (id : jstring) (g : Group) : Group :=
  mkGroup (group_name g) (provider g) (providerGroupId g) (users g) (Some (roleIds id)).

Definition getGroup (id : jstring) : M S Group :=
  group ← group_first id;
  match group with
  | Some group => mret (_normalizeGroup id group)
  | None => lift (Throw (noSuchObject id (js "group")))
  end.

Definition getAllGroups : M S (list (jstring * Group)) :=
  groups ← group_all; mret (map (λ x, (x.1, _normalizeGroup x.1 x.2)) (groups : list (jstring * Group))).

(** What an error about the name becomes; [found] is the identifier that it is given,
    if any. *)
Definition translate {A} (n : option jstring) (found : M S (option jstring)) (m : M S A) : M S A := λ s,
  match m s with
  | (Throw e, s) =>
      if bool_decide (e = groupAlreadyExists (name_text n)) then
        (id ← found; lift (Throw (XoError 16 [default (js "undefined") id; js "group"]))) s
      else (Throw e, s)
  | ok => ok
  end.

Definition createGroup (id : jstring) (name provider providerGroupId : option jstring) : M S Group :=
  translate name (l ← group_by_name name; mret (fst <$> head (l : list (jstring * Group))))
    (group_add id (mkGroup name provider providerGroupId [] None)).

(** The error is given the identifier of a list of groups, which has none. *)
Definition updateGroup (id : jstring) (name : option jstring) : M S unit :=
  group ← getGroup id;
  let group := mkGroup (or_else (given name) (group_name group)) (Subjects.provider group) (providerGroupId group) (users group) (aclRoleIds group) in
  translate name (group_by_name name ;; mret None) (group_update id group).

Definition addUserToGroup (userId groupId : jstring) : M S unit :=
  user ← getUser userId;
  group ← getGroup groupId;
  user_update userId (set_groups (addToArraySet (groups user) groupId) user) ;;
  group_update groupId (set_users (addToArraySet (users group) userId) group).

Definition _removeUserFromGroup (userId groupId : jstring) (group : Group) : M S unit :=
  group_update groupId (set_users (removeFromArraySet (users group) userId) group).
Definition _removeGroupFromUser (groupId userId : jstring) (user : User) : M S unit :=
  user_update userId (set_groups (removeFromArraySet (groups user) groupId) user).

Definition removeUserFromGroup (userId groupId : jstring) : M S unit :=
  user ← getUser userId;
  group ← getGroup groupId;
  _removeUserFromGroup userId groupId group ;;
  _removeGroupFromUser groupId userId user.

(** Nothing waits for these, and their errors are dropped. *)
Definition ignoring (m : M S unit) : M S unit := λ s, (Ok tt, (m s).2).

Definition deleteUser (id : jstring) : M S unit :=
  user ← getUser id;
  user_remove id ;;
  for_each (groups user) (λ groupId, ignoring (group ← getGroup groupId; _removeUserFromGroup id groupId group)).

Definition deleteGroup (id : jstring) : M S unit :=
  group ← getGroup id;
  group_remove id ;;
  for_each (users group) (λ userId, ignoring (user ← getUser userId; _removeGroupFromUser id userId user)).

(** The new users, which are not in the group, and the old ones, to remove from it. *)
Fixpoint split_users (newUsers : list jstring) (oldUsers : list jstring) (current : list jstring) : list jstring * list jstring :=
  match current with
  | [] => (newUsers, oldUsers)
  | id :: current =>
      if decide (id ∈ newUsers) then split_users (filter (λ x, x ≠ id) newUsers) oldUsers current
      else split_users newUsers (oldUsers ++ [id]) current
  end.

Definition setGroupUsers (groupId : jstring) (userIds : list jstring) : M S unit :=
  group ← getGroup groupId;
  let '(newUsersIds, oldUsersIds) := split_users (remove_dups userIds) [] (users group) in
  newUsers ← asyncMapSettled newUsersIds (λ id, u ← getUser id; mret (id, u));
  oldUsers ← asyncMapSettled oldUsersIds (λ id, u ← getUser id; mret (id, u));
  for_each (newUsers : list (jstring * User)) (λ x, user_update x.1 (set_groups (addToArraySet (groups x.2) groupId) x.2)) ;;
  for_each (oldUsers : list (jstring * User)) (λ x, user_update x.1 (set_groups (removeFromArraySet (groups x.2) groupId) x.2)) ;;
  group_update groupId (set_users userIds group).
End operations.

(** ** Sound subjects *)

Definition in_user (U : gmap jstring User) (u g : jstring) : Prop := ∃ x, U !! u = Some x ∧ g ∈ groups x.
Definition in_group (G : gmap jstring Group) (u g : jstring) : Prop := ∃ y, G !! g = Some y ∧ u ∈ users y.

(** No two users have the same address or the same name, whatever the case; no user has
    both a password and authentication providers, but those of [X]. *)
Definition exclusive (X : jstring → Prop) (id : jstring) (u : User) : Prop := X id ∨ pw_hash u = None ∨ authProviders u = ∅.

Record accounts_but (X : jstring → Prop) (U : gmap jstring User) : Prop := {
  acc_unique field i j u v a b : field ∈ UNIQUE_FIELDS → U !! i = Some u → U !! j = Some v →
    unique_field field u = Some a → unique_field field v = Some b → same a b = true → i = j;
  acc_exclusive i u : U !! i = Some u → exclusive X i u;
}.

Definition nobody (id : jstring) : Prop := False.

(** The users of a group are those that are in it, each once. *)
Record membership (U : gmap jstring User) (G : gmap jstring Group) : Prop := {
  mem_same u g : in_user U u g ↔ in_group G u g;
  mem_nodup g y : G !! g = Some y → NoDup (users y);
}.

Definition sound_but (X : jstring → Prop) (U : gmap jstring User) (G : gmap jstring Group) : Prop :=
  accounts_but X U ∧ membership U G.
Definition sound : gmap jstring User → gmap jstring Group → Prop := sound_but nobody.

Lemma sound_but_mono (X Y : jstring → Prop) U G : (∀ id, X id → Y id) → sound_but X U G → sound_but Y U G.
Proof.
  intros HXY [[Hu He] HM]. split; [|done]. split; [done|]. intros i u Hi. destruct (He i u Hi) as [|]; [left; auto|by right].
Qed.

Lemma in_user_insert U id q u g : in_user (<[id := q]> U) u g ↔ if decide (u = id) then g ∈ groups q else in_user U u g.
Proof.
  unfold in_user. rewrite lookup_insert. case_decide as E; case_decide; try congruence; [|done]. split; [|by eauto]. intros (x & Hx & ?). by simplify_eq.
Qed.
Lemma in_group_insert G id q u g : in_group (<[id := q]> G) u g ↔ if decide (g = id) then u ∈ users q else in_group G u g.
Proof.
  unfold in_group. rewrite lookup_insert. case_decide as E; case_decide; try congruence; [|done]. split; [|by eauto]. intros (x & Hx & ?). by simplify_eq.
Qed.
Lemma in_user_delete U id u g : in_user (delete id U) u g ↔ u ≠ id ∧ in_user U u g.
Proof. unfold in_user. rewrite lookup_delete. case_decide as E; [|naive_solver]. split; [by intros (? & ? & _)|]. intros [? _]. by subst. Qed.
Lemma in_group_delete G id u g : in_group (delete id G) u g ↔ g ≠ id ∧ in_group G u g.
Proof. unfold in_group. rewrite lookup_delete. case_decide as E; [|naive_solver]. split; [by intros (? & ? & _)|]. intros [? _]. by subst. Qed.

Lemma same_sym a b : same a b = same b a.
Proof. unfold same. apply bool_decide_ext. done. Qed.

Lemma taken_spec U field value :
  taken U field value = true ↔ ∃ i u v, U !! i = Some u ∧ unique_field field u = Some v ∧ same v value = true.
Proof.
  unfold taken. rewrite existsb_exists. split.
  - intros ([i u] & Hin%list_elem_of_In%elem_of_map_to_list & Hx). cbn in Hx. destruct (unique_field field u) as [v|] eqn:E; [|done]. by exists i, u, v.
  - intros (i & u & v & Hu & Hv & Hs). exists (i, u). split; [by apply list_elem_of_In, elem_of_map_to_list|]. cbn. by rewrite Hv.
Qed.

Lemma checkUnique_ok U field o : checkUnique U field o = Ok tt → ∀ v, o = Some v → taken U field v = false.
Proof. intros Hc v ->. cbn in Hc. by destruct (taken U field v). Qed.

Lemma check_fields_ok fields U u :
  check_fields fields U u = Ok tt → ∀ field v, field ∈ fields → unique_field field u = Some v → taken U field v = false.
Proof.
  induction fields as [|f fields IH]; cbn; [by intros _ ? ? ?%elem_of_nil|].
  destruct (checkUnique U f (unique_field f u)) as [[]|] eqn:E; [|done]. cbn. intros Hc field v [->|Hf]%elem_of_cons; [by apply (checkUnique_ok _ _ _ E)|by apply IH].
Qed.

Lemma check_changed_ok fields U u p :
  check_changed fields U u p = Ok tt → ∀ field v, field ∈ fields → unique_field field u = Some v →
  unique_field field u = unique_field field p ∨ taken U field v = false.
Proof.
  induction fields as [|f fields IH]; cbn; [by intros _ ? ? ?%elem_of_nil|].
  case_decide as Eq.
  - intros Hc field v [->|Hf]%elem_of_cons Hv; [by left|by apply IH].
  - destruct (checkUnique U f (unique_field f u)) as [[]|] eqn:E; [|done]. cbn. intros Hc field v [->|Hf]%elem_of_cons Hv; [right; by apply (checkUnique_ok _ _ _ E)|by apply IH].
Qed.

Lemma unique_field_stored field u : unique_field field (stored_user u) = unique_field field u.
Proof. unfold unique_field. by case_decide. Qed.

(** A user that is checked can be stored. *)
Lemma accounts_checked X U id u :
  accounts_but X U → user_check U id u = Ok tt → exclusive X id u → accounts_but X (<[id := stored_user u]> U).
Proof.
  intros HU Hc He.
  assert (∀ field i x a b, field ∈ UNIQUE_FIELDS → i ≠ id → U !! i = Some x → unique_field field u = Some a →
    unique_field field x = Some b → same a b = true → False) as Hnew.
  { intros field i x a b Hf Hi Hx Ha Hb Hs.
    assert (taken U field a = true) as Ht by (apply taken_spec; exists i, x, b; by rewrite same_sym).
    unfold user_check in Hc. destruct (U !! id) as [p|] eqn:Ep.
    - destruct (check_changed_ok _ _ _ _ Hc field a Hf Ha) as [E|]; [|congruence]. apply Hi.
      apply (acc_unique _ _ HU field i id x p b a); [done..|congruence|by rewrite same_sym].
    - pose proof (check_fields_ok _ _ _ Hc field a Hf Ha). congruence. }
  split.
  - intros field i j x y a b Hf Hi Hj. rewrite lookup_insert in Hi, Hj. intros Ha Hb Hs. repeat case_decide; simplify_eq; try done.
    + exfalso. rewrite unique_field_stored in Hb. apply (Hnew field i x b a); try done. by rewrite same_sym.
    + exfalso. rewrite unique_field_stored in Ha. by apply (Hnew field j y a b).
    + by apply (acc_unique _ _ HU field i j x y a b).
  - intros i x. rewrite lookup_insert. case_decide; [|by apply HU]. intros E. by simplify_eq.
Qed.

Lemma accounts_delete X U id : accounts_but X U → accounts_but X (delete id U).
Proof.
  intros HU. split.
  - intros field i j u v a b Hf [_ Hi]%lookup_delete_Some [_ Hj]%lookup_delete_Some. by apply (acc_unique _ _ HU field i j u v a b).
  - intros i u [_ Hi]%lookup_delete_Some. by apply (acc_exclusive _ _ HU i).
Qed.

(** Checks of a user whose unique fields are the same ones. *)
Lemma user_check_same U id u p :
  U !! id = Some p → email u = email p → username u = username p → user_check U id u = Ok tt.
Proof.
  intros Hp He Hn. unfold user_check. rewrite Hp. unfold UNIQUE_FIELDS. cbn [check_changed]. unfold unique_field.
  cbn. rewrite He, Hn. by rewrite !decide_True.
Qed.

Lemma group_check_same G id g p : G !! id = Some p → group_name g = group_name p → group_check G id g = Ok tt.
Proof. intros Hp Hn. unfold group_check. rewrite Hp. by rewrite decide_True. Qed.

(** Only the groups of a user change. *)
Definition same_account (q p : User) : Prop :=
  email q = email p ∧ username q = username p ∧ pw_hash q = pw_hash p ∧ authProviders q = authProviders p.

Lemma accounts_same X U id q p : accounts_but X U → U !! id = Some p → same_account q p → accounts_but X (<[id := stored_user q]> U).
Proof.
  intros HU Hp (He & Hn & Hw & Ha). apply accounts_checked; [done|by apply (user_check_same _ _ _ p)|]. unfold exclusive. rewrite Hw, Ha. by apply (acc_exclusive _ _ HU id).
Qed.

Lemma elem_of_addToArraySet l x y : y ∈ addToArraySet l x ↔ y ∈ l ∨ y = x.
Proof. unfold addToArraySet. case_decide; [|rewrite elem_of_app, list_elem_of_singleton; tauto]. split; [tauto|]. by intros [?| ->]. Qed.
Lemma NoDup_addToArraySet l x : NoDup l → NoDup (addToArraySet l x).
Proof.
  intros Hl. unfold addToArraySet. case_decide as E; [done|]. apply NoDup_app. split; [done|]. split; [|apply NoDup_singleton].
  intros y Hy ->%list_elem_of_singleton. done.
Qed.
Lemma elem_of_removeFromArraySet l x y : y ∈ removeFromArraySet l x ↔ y ∈ l ∧ y ≠ x.
Proof. unfold removeFromArraySet. rewrite list_elem_of_filter. tauto. Qed.

(** ** What the operations keep *)

Section facts.
Context {S : Type} `{StoreLaws S}.
Context (hash : jstring → jstring) (verify : jstring → jstring → bool) (needsRehash : jstring → bool).
Context (apiUser : option jstring) (roleIds : jstring → list jstring) (mergeProvidersUsers createUserOnFirstSignin : bool).
Context (X : jstring → Prop).

Local Abbreviation getGroup := (getGroup roleIds).
Local Abbreviation updateUser := (updateUser hash apiUser).

(** Sound subjects stay sound, and what is returned satisfies [Q]. *)
Definition keeps {A} (m : M S A) (Q : A → Prop) : Prop :=
  ∀ s U G, holds_subjects s U G → sound_but X U G → ∃ a U' G', leaves m s a U' G' ∧ sound_but X U' G' ∧ ∀ x, a = Ok x → Q x.

Lemma op_keeps_bind {A B} (m : M S A) (f : A → M S B) Q Q' : keeps m Q → (∀ x, Q x → keeps (f x) Q') → keeps (m ≫= f) Q'.
Proof.
  intros Hm Hf s U G HS HI. destruct (Hm s U G HS HI) as (a & U1 & G1 & (s1 & Hrun & HS1) & HI1 & HQ).
  destruct a as [x|e].
  - destruct (Hf x (HQ x eq_refl) s1 U1 G1 HS1 HI1) as (b & U2 & G2 & (s2 & Hrun2 & HS2) & HI2 & HQ2).
    exists b, U2, G2. split; [|done]. exists s2. split; [|done]. by rewrite (bind_ok _ _ _ _ _ Hrun).
  - exists (Throw e), U1, G1. split; [exists s1; split; [by apply bind_throw|done]|]. done.
Qed.

Lemma op_keeps_lift {A} (a : result A) Q : (∀ x, a = Ok x → Q x) → keeps (lift a) Q.
Proof. intros HQ s U G HS HI. exists a, U, G. split; [by exists s|]. done. Qed.
Lemma op_keeps_ret {A} (a : A) (Q : A → Prop) : Q a → keeps (mret a) Q.
Proof. intros HQ s U G HS HI. exists (Ok a), U, G. split; [by exists s|]. split; [done|]. intros x E. by injection E as <-. Qed.
Lemma keeps_any {A} (m : M S A) Q : keeps m Q → keeps m (λ _, True).
Proof. intros Hm s U G HS HI. destruct (Hm s U G HS HI) as (a & U' & G' & ? & ? & _). by exists a, U', G'. Qed.

(** Steps that do not change the collections. *)
Lemma leaves_bind {A B} (m : M S A) (f : A → M S B) s x U G b U' G' :
  leaves m s (Ok x) U G → (∀ s1, holds_subjects s1 U G → leaves (f x) s1 b U' G') → leaves (m ≫= f) s b U' G'.
Proof. intros (s1 & Hrun & HS1) Hf. destruct (Hf s1 HS1) as (s2 & Hrun2 & HS2). exists s2. split; [|done]. by rewrite (bind_ok _ _ _ _ _ Hrun). Qed.
Lemma leaves_bind_throw {A B} (m : M S A) (f : A → M S B) s e U G : leaves m s (Throw e) U G → leaves (m ≫= f) s (Throw e) U G.
Proof. intros (s1 & Hrun & HS1). exists s1. split; [|done]. by apply bind_throw. Qed.

Lemma leaves_keeps {A} (m : M S A) (Q : A → Prop) :
  (∀ s U G, holds_subjects s U G → ∃ a, leaves m s a U G ∧ ∀ x, a = Ok x → Q x) → keeps m Q.
Proof. intros Hm s U G HS HI. destruct (Hm s U G HS) as (a & ? & ?). by exists a, U, G. Qed.

Lemma getUser_leaves id s U G : holds_subjects s U G → usable_id id →
  leaves (getUser id) s (match U !! id with Some u => Ok (_normalizeUser u) | None => Throw (noSuchObject id (js "user")) end) U G.
Proof.
  intros HS Hid. destruct (user_first_law s U G id HS Hid) as (s1 & Hrun & HS1). exists s1. split; [|done].
  unfold getUser. rewrite (bind_ok _ _ _ _ _ Hrun). by destruct (U !! id).
Qed.
Lemma getGroup_leaves id s U G : holds_subjects s U G → usable_id id →
  leaves (getGroup id) s (match G !! id with Some g => Ok (_normalizeGroup roleIds id g) | None => Throw (noSuchObject id (js "group")) end) U G.
Proof.
  intros HS Hid. destruct (group_first_law s U G id HS Hid) as (s1 & Hrun & HS1). exists s1. split; [|done].
  unfold Subjects.getGroup. rewrite (bind_ok _ _ _ _ _ Hrun). by destruct (G !! id).
Qed.

(** *** Accounts *)

Lemma sound_account U G id p q :
  sound_but X U G → U !! id = Some p → user_check U id q = Ok tt → exclusive X id q → groups q = groups p →
  sound_but X (<[id := stored_user q]> U) G.
Proof.
  intros [HU [Hs Hn]] Hp Hc He Hg. split; [by apply accounts_checked|]. split; [|done]. intros u g. rewrite in_user_insert, <- Hs.
  case_decide as E; [|done]. subst u. cbn. rewrite Hg. unfold in_user. split; [by eauto|]. intros (x & Hx & ?). by simplify_eq.
Qed.

(** A user that is created with a password and with providers. *)
Definition has_both (password : option jstring) (properties : User) : Prop :=
  (given password ≠ None ∨ pw_hash properties ≠ None) ∧ authProviders properties ≠ ∅.

Lemma createUser_keeps id name password properties :
  usable_id id → groups properties = [] → (has_both password properties → X id) →
  keeps (createUser hash id name password properties) (λ _, True).
Proof.
  intros Hid Hg He s U G HS HI. unfold createUser.
  set (u := mkUser (or_else (given name) (email properties)) (username properties) (Subjects.name properties) (firstname properties)
    (lastname properties) (permission properties) (or_else (hash <$> given password) (pw_hash properties)) (authProviders properties)
    (groups properties) (preferences properties)).
  destruct (U !! id) as [p|] eqn:Ep.
  { exists (Throw (OtherError "this model already exists")), U, G. split; [|done]. apply user_exists_law; [done|done|by eexists]. }
  pose proof (user_add_law s U G id u HS Hid Ep) as Hadd. destruct (user_check U id u) as [[]|e] eqn:Ec.
  2:{ by exists (Throw e), U, G. }
  exists (Ok (stored_user u)), (<[id := stored_user u]> U), G. split; [done|]. split; [|done].
  destruct HI as [HU [Hs Hn]]. split.
  - apply accounts_checked; [done..|]. destruct (decide (authProviders properties = ∅)) as [E1|E1]; [by right; right|].
    destruct (decide (given password = None)) as [E2|E2]; [destruct (decide (pw_hash properties = None)) as [E3|E3]|].
    + right. left. cbn. by rewrite E2, E3.
    + left. apply He. by split; [right|].
    + left. apply He. by split; [left|].
  - split; [|done]. intros x g. rewrite in_user_insert, <- Hs. case_decide as E; [|done]. subst x. cbn. rewrite Hg.
    split; [by intros ?%elem_of_nil|]. intros (y & Hy & _). congruence.
Qed.

Lemma apply_changes_groups c u : groups (apply_changes hash c u) = groups u.
Proof. done. Qed.

(** What [updateUser] leaves. *)
Lemma updateUser_leaves id c s U G : holds_subjects s U G → usable_id id →
  ∃ a U', leaves (updateUser id c) s a U' G ∧
    match a with
    | Throw _ => U' = U
    | Ok _ => ∃ p, U !! id = Some p ∧
        let q := apply_changes hash c (_normalizeUser p) in
        U' = <[id := stored_user q]> U ∧ user_check U id q = Ok tt ∧
        (is_Some (new_authProviders c) ∨ is_Some (new_password c) → pw_hash q = None ∨ authProviders q = ∅)
    end.
Proof.
  intros HS Hid. unfold Subjects.updateUser. pose proof (getUser_leaves id s U G HS Hid) as Hget.
  destruct (U !! id) as [p|] eqn:Ep.
  2:{ eexists _, U. split; [by apply leaves_bind_throw|done]. }
  set (q := apply_changes hash c (_normalizeUser p)).
  destruct Hget as (s1 & Hrun & HS1).
  destruct ((bool_decide (is_Some (new_authProviders c)) || bool_decide (is_Some (new_password c))) &&
     bool_decide (is_Some (pw_hash q)) && negb (bool_decide (authProviders q = ∅))) eqn:E1.
  { eexists (Throw _), U. split; [|done]. exists s1. split; [|done]. rewrite (bind_ok _ _ _ _ _ Hrun). cbv zeta. fold q. by rewrite E1. }
  destruct (bool_decide (pw_hash q = None) && bool_decide (authProviders q = ∅) && bool_decide (apiUser = Some id)) eqn:E2.
  { eexists (Throw _), U. split; [|done]. exists s1. split; [|done]. rewrite (bind_ok _ _ _ _ _ Hrun). cbv zeta. fold q. by rewrite E1, E2. }
  pose proof (user_update_law s1 U G id q HS1 Hid) as Hup. destruct (user_check U id q) as [[]|e] eqn:Ec; destruct Hup as (s2 & Hrun2 & HS2).
  - eexists (Ok tt), (<[id := stored_user q]> U). split.
    { exists s2. split; [|done]. rewrite (bind_ok _ _ _ _ _ Hrun). cbv zeta. fold q. by rewrite E1, E2. }
    exists p. split; [done|]. split; [done|]. split; [done|]. intros Hch.
    destruct (pw_hash q) eqn:Ew; [|by left]. right. apply andb_false_iff in E1 as [E1|E1].
    + apply andb_false_iff in E1 as [E1|E1]; [|by apply bool_decide_eq_false in E1; contradict E1; eexists].
      apply orb_false_iff in E1 as [A1 A2]. apply bool_decide_eq_false in A1, A2. by destruct Hch.
    + apply negb_false_iff in E1. by apply bool_decide_eq_true in E1.
  - eexists (Throw e), U. split; [|done]. exists s2. split; [|done]. rewrite (bind_ok _ _ _ _ _ Hrun). cbv zeta. fold q. by rewrite E1, E2.
Qed.

Lemma updateUser_keeps id c : usable_id id → keeps (updateUser id c) (λ _, True).
Proof.
  intros Hid s U G HS HI. destruct (updateUser_leaves id c s U G HS Hid) as (a & U' & Hl & Ha). exists a, U', G.
  split; [done|]. split; [|done]. destruct a as [[]|e]; [|by subst U'].
  destruct Ha as (p & Hp & -> & Hc & Hex). apply sound_account with p; [done..| |done].
  destruct (new_authProviders c) as [pr|] eqn:E1; [by right; apply Hex; left; eexists|].
  destruct (new_password c) as [pw|] eqn:E2; [by right; apply Hex; right; eexists|].
  unfold apply_changes, exclusive. cbn. rewrite E1, E2. cbn. by apply (acc_exclusive _ _ (proj1 HI) id).
Qed.

Lemma getUser_keeps id : usable_id id → keeps (getUser id) (λ _, True).
Proof. intros Hid. apply leaves_keeps. intros s U G HS. by eexists; split; [apply getUser_leaves|]. Qed.
Lemma getGroup_keeps id : usable_id id → keeps (getGroup id) (λ _, True).
Proof. intros Hid. apply leaves_keeps. intros s U G HS. by eexists; split; [apply getGroup_leaves|]. Qed.

(** All the users, as they are returned. *)
Lemma getAllUsers_leaves s U G : holds_subjects s U G → ∃ l, leaves getAllUsers s (Ok l) U G ∧
  ∀ id u, (id, u) ∈ l ↔ ∃ p, U !! id = Some p ∧ u = _normalizeUser p.
Proof.
  intros HS. destruct (user_all_law s U G HS) as (l & (s1 & Hrun & HS1) & _ & Hl).
  exists (map (λ x, (x.1, _normalizeUser x.2)) l). split.
  - exists s1. split; [|done]. unfold getAllUsers. by rewrite (bind_ok _ _ _ _ _ Hrun).
  - intros id u. rewrite list_elem_of_fmap. split.
    + intros ([id' p] & E & Hp). simplify_eq/=. exists p. split; [by apply Hl|done].
    + intros (p & Hp & ->). exists (id, p). split; [done|by apply Hl].
Qed.

Lemma find_user_some f (l : list (jstring * User)) x : find_user f l = Some x → x ∈ l ∧ f x.2 = true.
Proof.
  unfold find_user. destruct (list_find (λ x, f x.2 = true) l) as [[i y]|] eqn:E; [|done]. intros Ex. injection Ex as <-.
  apply list_find_Some in E as (Hi & Hf & _). split; [by eapply list_elem_of_lookup_2|done].
Qed.

Lemma registerUser2_keeps newId providerId id name data :
  usable_id newId →
  keeps (registerUser2 hash apiUser mergeProvidersUsers createUserOnFirstSignin newId providerId id name data) (λ _, True).
Proof.
  intros Hnew. unfold registerUser2. eapply op_keeps_bind; [by apply (op_keeps_lift _ (λ _, True))|]. intros _ _.
  eapply op_keeps_bind; [by apply (op_keeps_lift _ (λ _, True))|]. intros _ _.
  apply (op_keeps_bind _ _ (λ l, ∀ x, x ∈ l → usable_id x.1)).
  { apply leaves_keeps. intros s U G HS. destruct (getAllUsers_leaves s U G HS) as (l & Hl & Hin). exists (Ok l). split; [done|].
    intros l' E. injection E as <-. intros [i u] (p & Hp & _)%Hin. eapply user_usable; [done|by eexists]. }
  intros l Hl. case_match.
  { destruct (find_user (bound_to providerId id) l); [by apply op_keeps_ret|by apply op_keeps_lift]. }
  case_match; [by apply op_keeps_lift|].
  apply (op_keeps_bind _ _ usable_id).
  2:{ intros i Hi. eapply op_keeps_bind; [by apply getUser_keeps|]. intros u _. by apply op_keeps_ret. }
  destruct (or_else (find_user (bound_to providerId id) l) (find_user (λ u, bool_decide (email u = Some name)) l)) as [[i u]|] eqn:E.
  - assert (usable_id i) as Hi.
    { unfold or_else in E. destruct (find_user (bound_to providerId id) l) as [x|] eqn:Ef.
      - apply find_user_some in Ef as [Hx _]. injection E as ->. by apply (Hl (i, u)).
      - apply find_user_some in E as [Hx _]. by apply (Hl (i, u)). }
    eapply op_keeps_bind; [by apply updateUser_keeps|]. intros _ _. by apply op_keeps_ret.
  - destruct createUserOnFirstSignin; [|by apply op_keeps_lift]. eapply op_keeps_bind; [|intros ? _; by apply op_keeps_ret].
    apply createUser_keeps; [done|done|]. by intros [[?|?] _].
Qed.

Lemma checkUserPassword_keeps userId password b :
  usable_id userId → keeps (checkUserPassword hash verify needsRehash apiUser userId password b) (λ _, True).
Proof.
  intros Hid. unfold checkUserPassword. eapply op_keeps_bind; [by apply getUser_keeps|]. intros u _.
  destruct (pw_hash u) as [h|]; [|by apply op_keeps_ret]. case_match; [|by apply op_keeps_ret].
  eapply (op_keeps_bind _ _ (λ _, True)); [|intros ? _; by apply op_keeps_ret]. case_match; [by apply updateUser_keeps|by apply op_keeps_ret].
Qed.

Lemma changeUserPassword_keeps userId old new :
  usable_id userId → keeps (changeUserPassword hash verify needsRehash apiUser userId old new) (λ _, True).
Proof.
  intros Hid. unfold changeUserPassword. eapply op_keeps_bind; [by apply checkUserPassword_keeps|]. intros b _.
  destruct b; [by apply updateUser_keeps|by apply op_keeps_lift].
Qed.

(** *** Groups *)

Lemma sound_group U G id g :
  sound_but X U G → users g = [] → G !! id = None → sound_but X U (<[id := g]> G).
Proof.
  intros [HU [Hs Hn]] Hg Hid. split; [done|]. split.
  - intros u x. rewrite in_group_insert, Hs. case_decide as E; [|done]. subst x. rewrite Hg. split; [|by intros ?%elem_of_nil].
    intros (y & Hy & _). congruence.
  - intros x y. rewrite lookup_insert. case_decide; [|apply Hn]. intros E. simplify_eq. rewrite Hg. constructor.
Qed.

Lemma translate_keeps {A} n (found : M S (option jstring)) (m : M S A) :
  keeps m (λ _, True) → keeps found (λ _, True) → keeps (translate n found m) (λ _, True).
Proof.
  intros Hm Hf s U G HS HI. destruct (Hm s U G HS HI) as (a & U1 & G1 & (s1 & Hrun & HS1) & HI1 & _). unfold translate.
  destruct a as [x|e]; [by exists (Ok x), U1, G1; split; [exists s1; by rewrite Hrun|]|].
  destruct (bool_decide (e = groupAlreadyExists (name_text n))) eqn:E.
  - destruct (Hf s1 U1 G1 HS1 HI1) as (b & U2 & G2 & (s2 & Hrun2 & HS2) & HI2 & _). destruct b as [i|e2].
    + eexists (Throw _), U2, G2. split; [|done]. exists s2. rewrite Hrun, E. by rewrite (bind_ok _ _ _ _ _ Hrun2).
    + eexists (Throw e2), U2, G2. split; [|done]. exists s2. rewrite Hrun, E. split; [by apply bind_throw|done].
  - exists (Throw e), U1, G1. split; [|done]. exists s1. by rewrite Hrun, E.
Qed.

Lemma group_by_name_keeps n : keeps (group_by_name n) (λ _, True).
Proof. apply leaves_keeps. intros s U G HS. destruct (group_by_name_law s U G n HS) as (l & ? & _). by exists (Ok l). Qed.

Lemma createGroup_keeps id name provider providerGroupId :
  usable_id id → keeps (createGroup id name provider providerGroupId) (λ _, True).
Proof.
  intros Hid. apply translate_keeps; [|eapply op_keeps_bind; [apply group_by_name_keeps|intros ? _; by apply op_keeps_ret]].
  intros s U G HS HI. set (g := mkGroup name provider providerGroupId [] None). destruct (G !! id) as [p|] eqn:Ep.
  { eexists (Throw _), U, G. split; [|done]. apply group_exists_law; [done|done|by eexists]. }
  pose proof (group_add_law s U G id g HS Hid Ep) as Hadd. destruct (group_check G id g) as [[]|e]; [|by exists (Throw e), U, G].
  exists (Ok g), U, (<[id := g]> G). split; [done|]. split; [by apply sound_group|done].
Qed.

(** A group that keeps its users. *)
Lemma sound_group_same U G id p g : sound_but X U G → G !! id = Some p → users g = users p → sound_but X U (<[id := g]> G).
Proof.
  intros [HU [Hs Hn]] Hp Hg. split; [done|]. split.
  - intros u x. rewrite in_group_insert, Hs. case_decide as E; [|done]. subst x. rewrite Hg. unfold in_group. split; [|by eauto].
    intros (y & Hy & ?). by simplify_eq.
  - intros x y. rewrite lookup_insert. case_decide; [|apply Hn]. intros E. simplify_eq. rewrite Hg. by apply (Hn x).
Qed.

Lemma updateGroup_keeps id name : usable_id id → keeps (updateGroup roleIds id name) (λ _, True).
Proof.
  intros Hid s U G HS HI. unfold updateGroup. pose proof (getGroup_leaves id s U G HS Hid) as Hget.
  destruct (G !! id) as [p|] eqn:Ep; [|by eexists _, U, G; split; [by apply leaves_bind_throw|]].
  destruct Hget as (s1 & Hrun & HS1).
  set (g := mkGroup (or_else (given name) (group_name p)) (provider p) (providerGroupId p) (users p) (Some (roleIds id))).
  assert (∃ a G', leaves (translate name (group_by_name name ;; mret None) (group_update id g)) s1 a U G' ∧ sound_but X U G') as (a & G' & (s2 & Hrun2 & HS2) & HI2).
  { pose proof (group_update_law s1 U G id g HS1 Hid) as Hup. unfold translate. destruct (group_check G id g) as [[]|e]; destruct Hup as (s2 & Hrun2 & HS2).
    - exists (Ok tt), (<[id := g]> G). split; [exists s2; by rewrite Hrun2|by apply sound_group_same with p].
    - destruct (bool_decide (e = groupAlreadyExists (name_text name))) eqn:E.
      + destruct (group_by_name_law s2 U G name HS2) as (l & (s3 & Hrun3 & HS3) & _). eexists (Throw _), G. split; [|done]. exists s3.
        rewrite Hrun2, E. by rewrite (bind_ok (group_by_name name ;; mret None) _ s2 None s3) by (by rewrite (bind_ok _ _ _ _ _ Hrun3)).
      + exists (Throw e), G. split; [|done]. exists s2. by rewrite Hrun2, E. }
  exists a, U, G'. split; [|done]. exists s2. split; [|done]. rewrite (bind_ok _ _ _ _ _ Hrun). exact Hrun2.
Qed.

(** *** Who is in what *)

Definition with_groups (l : list jstring) (p : User) : User := stored_user (set_groups l (_normalizeUser p)).
Definition with_users (id : jstring) (l : list jstring) (p : Group) : Group := set_users l (_normalizeGroup roleIds id p).

Lemma user_groups_leaves id l p s U G :
  holds_subjects s U G → U !! id = Some p → leaves (user_update id (set_groups l (_normalizeUser p))) s (Ok tt) (<[id := with_groups l p]> U) G.
Proof.
  intros HS Hp. pose proof (user_update_law s U G id (set_groups l (_normalizeUser p)) HS) as Hup.
  rewrite (user_check_same _ _ _ p) in Hup by done. apply Hup. eapply user_usable; [done|by eexists].
Qed.

Lemma group_users_leaves id l p s U G :
  holds_subjects s U G → G !! id = Some p → leaves (group_update id (set_users l (_normalizeGroup roleIds id p))) s (Ok tt) U (<[id := with_users id l p]> G).
Proof.
  intros HS Hp. pose proof (group_update_law s U G id (set_users l (_normalizeGroup roleIds id p)) HS) as Hup.
  rewrite (group_check_same _ _ _ p) in Hup by done. apply Hup. eapply group_usable; [done|by eexists].
Qed.

Lemma accounts_groups U id l p : accounts_but X U → U !! id = Some p → accounts_but X (<[id := with_groups l p]> U).
Proof. intros HU Hp. by apply accounts_same with p. Qed.

Lemma groups_with l p : groups (with_groups l p) = l.
Proof. done. Qed.
Lemma users_with id l p : users (with_users id l p) = l.
Proof. done. Qed.

(** The changes of both sides together. *)
Lemma sound_both U G u p l g q k :
  sound_but X U G → U !! u = Some p → G !! g = Some q → NoDup k →
  (∀ x, x ∈ l ↔ if decide (x = g) then u ∈ k else x ∈ groups p) → (∀ x, x ≠ u → x ∈ k ↔ x ∈ users q) →
  sound_but X (<[u := with_groups l p]> U) (<[g := with_users g k q]> G).
Proof.
  intros [HU [Hs Hn]] Hp Hq Hk Hl Hu. split; [by apply accounts_groups|]. split.
  - intros x y. rewrite in_user_insert, in_group_insert, groups_with, users_with.
    assert (in_user U u y ↔ y ∈ groups p) as Eu by (unfold in_user; naive_solver).
    assert (in_group G x g ↔ x ∈ users q) as Eg by (unfold in_group; naive_solver).
    case_decide as E1; case_decide as E2; subst.
    + rewrite Hl. by rewrite decide_True.
    + rewrite Hl, decide_False by done. by rewrite <- Eu, Hs.
    + by rewrite Hs, Eg, Hu.
    + apply Hs.
  - intros x y. rewrite lookup_insert. case_decide; [|apply Hn]. intros E. by simplify_eq.
Qed.

Lemma addUserToGroup_keeps userId groupId :
  usable_id userId → usable_id groupId → keeps (addUserToGroup roleIds userId groupId) (λ _, True).
Proof.
  intros Hu Hg s U G HS HI. unfold addUserToGroup. pose proof (getUser_leaves userId s U G HS Hu) as Hget.
  destruct (U !! userId) as [p|] eqn:Ep; [|by eexists _, U, G; split; [by apply leaves_bind_throw|]].
  destruct Hget as (s1 & Hrun1 & HS1). pose proof (getGroup_leaves groupId s1 U G HS1 Hg) as Hget.
  destruct (G !! groupId) as [q|] eqn:Eq.
  2:{ eexists (Throw _), U, G. split; [|done]. apply (leaves_bind _ _ s (_normalizeUser p) U G); [by exists s1|]. intros s2 HS2. apply leaves_bind_throw.
      pose proof (getGroup_leaves groupId s2 U G HS2 Hg) as Hget2. by rewrite Eq in Hget2. }
  eexists (Ok tt), (<[userId := with_groups (addToArraySet (groups p) groupId) p]> U), (<[groupId := with_users groupId (addToArraySet (users q) userId) q]> G).
  split; [|split; [|done]].
  - apply (leaves_bind _ _ s (_normalizeUser p) U G); [by exists s1|]. intros s2 HS2. eapply leaves_bind.
    { pose proof (getGroup_leaves groupId s2 U G HS2 Hg) as Hget2. rewrite Eq in Hget2. exact Hget2. }
    intros s3 HS3. eapply leaves_bind; [by apply (user_groups_leaves userId _ p)|]. intros s4 HS4. by apply (group_users_leaves groupId _ q).
  - apply sound_both; [done..| | |].
    + apply NoDup_addToArraySet. by apply (mem_nodup _ _ (proj2 HI) groupId).
    + intros x. rewrite elem_of_addToArraySet. case_decide as E; [|tauto]. subst x. rewrite elem_of_addToArraySet. tauto.
    + intros x Hx. rewrite elem_of_addToArraySet. tauto.
Qed.

Lemma removeUserFromGroup_keeps userId groupId :
  usable_id userId → usable_id groupId → keeps (removeUserFromGroup roleIds userId groupId) (λ _, True).
Proof.
  intros Hu Hg s U G HS HI. unfold removeUserFromGroup. pose proof (getUser_leaves userId s U G HS Hu) as Hget.
  destruct (U !! userId) as [p|] eqn:Ep; [|by eexists _, U, G; split; [by apply leaves_bind_throw|]].
  destruct Hget as (s1 & Hrun1 & HS1).
  destruct (G !! groupId) as [q|] eqn:Eq.
  2:{ eexists (Throw _), U, G. split; [|done]. apply (leaves_bind _ _ s (_normalizeUser p) U G); [by exists s1|]. intros s2 HS2. apply leaves_bind_throw.
      pose proof (getGroup_leaves groupId s2 U G HS2 Hg) as Hget2. by rewrite Eq in Hget2. }
  eexists (Ok tt), (<[userId := with_groups (removeFromArraySet (groups p) groupId) p]> U), (<[groupId := with_users groupId (removeFromArraySet (users q) userId) q]> G).
  split; [|split; [|done]].
  - apply (leaves_bind _ _ s (_normalizeUser p) U G); [by exists s1|]. intros s2 HS2. eapply leaves_bind.
    { pose proof (getGroup_leaves groupId s2 U G HS2 Hg) as Hget2. rewrite Eq in Hget2. exact Hget2. }
    intros s3 HS3. eapply leaves_bind; [by apply (group_users_leaves groupId _ q)|]. intros s4 HS4. by apply (user_groups_leaves userId _ p).
  - apply sound_both; [done..| | |].
    + apply NoDup_filter. by apply (mem_nodup _ _ (proj2 HI) groupId).
    + intros x. rewrite elem_of_removeFromArraySet. case_decide as E; [|tauto]. subst x. rewrite elem_of_removeFromArraySet. tauto.
    + intros x Hx. rewrite elem_of_removeFromArraySet. tauto.
Qed.

(** A loop whose steps return, each with its effect. *)
Lemma for_each_leaves {A} (f : A → M S unit) (P : list A → gmap jstring User → gmap jstring Group → Prop) xs s U G :
  (∀ l x rest s U G, xs = l ++ x :: rest → holds_subjects s U G → P l U G → ∃ U' G', leaves (f x) s (Ok tt) U' G' ∧ P (l ++ [x]) U' G') →
  holds_subjects s U G → P [] U G → ∃ U' G', leaves (for_each xs f) s (Ok tt) U' G' ∧ P xs U' G'.
Proof.
  enough (∀ rest l s U G, xs = l ++ rest →
    (∀ l x rest s U G, xs = l ++ x :: rest → holds_subjects s U G → P l U G → ∃ U' G', leaves (f x) s (Ok tt) U' G' ∧ P (l ++ [x]) U' G') →
    holds_subjects s U G → P l U G → ∃ U' G', leaves (for_each rest f) s (Ok tt) U' G' ∧ P xs U' G') as Hgen by (intros; by apply (Hgen xs [] s U G)).
  intros rest. induction rest as [|x rest IH]; intros l s0 U0 G0 E Hf HS HP.
  { exists U0, G0. split; [by exists s0|]. rewrite app_nil_r in E. by subst l. }
  destruct (Hf l x rest s0 U0 G0 E HS HP) as (U1 & G1 & Hl1 & HP1). destruct Hl1 as (s1 & Hrun1 & HS1).
  destruct (IH (l ++ [x]) s1 U1 G1) as (U2 & G2 & (s2 & Hrun2 & HS2) & HP2); [by rewrite <- app_assoc|done..|].
  exists U2, G2. split; [|done]. exists s2. split; [|done]. cbn [for_each]. by rewrite (bind_ok _ _ _ _ _ Hrun1).
Qed.

Lemma ignoring_leaves (m : M S unit) s a U G : leaves m s a U G → leaves (ignoring m) s (Ok tt) U G.
Proof. intros (s1 & Hrun & HS1). exists s1. split; [|done]. unfold ignoring. by rewrite Hrun. Qed.

(** The user [id] is not in the groups of [l] any more. *)
Definition leaving (G0 : gmap jstring Group) (id : jstring) (l : list jstring) (G : gmap jstring Group) : Prop :=
  (∀ u g, in_group G u g ↔ in_group G0 u g ∧ ¬ (u = id ∧ g ∈ l)) ∧ ∀ g y, G !! g = Some y → NoDup (users y).

Lemma leaving_group G0 id l g q G :
  leaving G0 id l G → G !! g = Some q → leaving G0 id (l ++ [g]) (<[g := with_users g (removeFromArraySet (users q) id) q]> G).
Proof.
  intros [HG Hn] Hq. split.
  - intros u x. rewrite in_group_insert, users_with, elem_of_app, list_elem_of_singleton. case_decide as E; [|rewrite HG; naive_solver].
    subst x. rewrite elem_of_removeFromArraySet. assert (u ∈ users q ↔ in_group G u g) as -> by (unfold in_group; naive_solver).
    rewrite HG. naive_solver.
  - intros x y. rewrite lookup_insert. case_decide; [|apply Hn]. intros E. simplify_eq. apply NoDup_filter. by apply (Hn x).
Qed.

Lemma deleteUser_keeps id : usable_id id → keeps (deleteUser roleIds id) (λ _, True).
Proof.
  intros Hid s U G HS HI. unfold deleteUser. pose proof (getUser_leaves id s U G HS Hid) as Hget.
  destruct (U !! id) as [p|] eqn:Ep; [|by eexists _, U, G; split; [by apply leaves_bind_throw|]].
  destruct HI as [HU [Hs Hn]]. destruct Hget as (s1 & Hrun1 & HS1). destruct (user_remove_law s1 U G id HS1 Hid) as (s2 & Hrun2 & HS2).
  destruct (for_each_leaves (λ groupId, ignoring (group ← getGroup groupId; _removeUserFromGroup id groupId group))
    (λ l U' G', U' = delete id U ∧ leaving G id l G') (groups p) s2 (delete id U) G) as (U' & G' & (s3 & Hrun3 & HS3) & -> & HG); [|done| |].
  - intros l g rest s3 U' G' E HS3 [-> HG]. assert (in_group G id g) as (q & Hq & _) by (apply Hs; exists p; split; [done|]; rewrite E; set_solver).
    assert (usable_id g) as Hg by (eapply group_usable; [exact HS|by eexists]).
    pose proof (getGroup_leaves g s3 _ G' HS3 Hg) as Hget. destruct (G' !! g) as [q'|] eqn:Eq.
    + exists (delete id U), (<[g := with_users g (removeFromArraySet (users q') id) q']> G'). split; [|split; [done|by apply leaving_group]].
      eapply ignoring_leaves, leaves_bind; [done|]. intros s4 HS4. by apply (group_users_leaves g _ q').
    + exists (delete id U), G'. split; [by eapply ignoring_leaves; eapply leaves_bind_throw|]. split; [done|]. destruct HG as [HG Hn']. split; [|done].
      intros u x. rewrite HG, elem_of_app, list_elem_of_singleton. split; [|naive_solver]. intros [Hin Hnot]. split; [done|].
      intros [-> [Hx| ->]]; [naive_solver|]. assert (in_group G' id g) as (y & Hy & _) by (by apply HG). congruence.
  - split; [done|]. split; [|done]. intros u g. split; [|tauto]. intros Hin. split; [done|]. intros [_ Hx]. by apply elem_of_nil in Hx.
  - exists (Ok tt), (delete id U), G'. split; [|split; [split|done]].
    + exists s3. split; [|done]. rewrite (bind_ok _ _ _ _ _ Hrun1). cbn [groups _normalizeUser]. by rewrite (bind_ok _ _ _ _ _ Hrun2).
    + by apply accounts_delete.
    + destruct HG as [HG Hn']. split; [|done]. intros u g. rewrite in_user_delete, HG, <- Hs. split; [naive_solver|].
      intros [Hin Hnot]. split; [|done]. intros ->. apply Hnot. split; [done|]. destruct Hin as (x & Hx & ?). by simplify_eq.
Qed.

(** The group [id] has not the users of [l] any more. *)
Definition emptying (U0 : gmap jstring User) (id : jstring) (l : list jstring) (U : gmap jstring User) : Prop :=
  accounts_but X U ∧ ∀ u g, in_user U u g ↔ in_user U0 u g ∧ ¬ (g = id ∧ u ∈ l).

Lemma emptying_user U0 id l u p U :
  emptying U0 id l U → U !! u = Some p → emptying U0 id (l ++ [u]) (<[u := with_groups (removeFromArraySet (groups p) id) p]> U).
Proof.
  intros [HU Hin] Hp. split; [by apply accounts_groups|]. intros x g.
  rewrite in_user_insert, groups_with, elem_of_app, list_elem_of_singleton. case_decide as E; [|rewrite Hin; naive_solver].
  subst x. rewrite elem_of_removeFromArraySet. assert (g ∈ groups p ↔ in_user U u g) as -> by (unfold in_user; naive_solver).
  rewrite Hin. naive_solver.
Qed.

Lemma deleteGroup_keeps id : usable_id id → keeps (deleteGroup roleIds id) (λ _, True).
Proof.
  intros Hid s U G HS HI. unfold deleteGroup. pose proof (getGroup_leaves id s U G HS Hid) as Hget.
  destruct (G !! id) as [q|] eqn:Eq; [|by eexists _, U, G; split; [by apply leaves_bind_throw|]].
  destruct HI as [HU [Hs Hn]]. destruct Hget as (s1 & Hrun1 & HS1). destruct (group_remove_law s1 U G id HS1 Hid) as (s2 & Hrun2 & HS2).
  destruct (for_each_leaves (λ userId, ignoring (user ← getUser userId; _removeGroupFromUser id userId user))
    (λ l U' G', G' = delete id G ∧ emptying U id l U') (users q) s2 U (delete id G)) as (U' & G' & (s3 & Hrun3 & HS3) & -> & HU'); [|done| |].
  - intros l u rest s3 U' G' E HS3 [-> HU']. assert (in_user U u id) as (p & Hp & _) by (apply Hs; exists q; split; [done|]; rewrite E; set_solver).
    assert (usable_id u) as Hu by (eapply user_usable; [exact HS|by eexists]).
    pose proof (getUser_leaves u s3 U' _ HS3 Hu) as Hget. destruct (U' !! u) as [p'|] eqn:Ep.
    + exists (<[u := with_groups (removeFromArraySet (groups p') id) p']> U'), (delete id G). split; [|split; [done|by apply emptying_user]].
      eapply ignoring_leaves, leaves_bind; [done|]. intros s4 HS4. by apply (user_groups_leaves u _ p').
    + exists U', (delete id G). split; [by eapply ignoring_leaves; eapply leaves_bind_throw|]. split; [done|]. destruct HU' as [HU' Hin]. split; [done|].
      intros x g. rewrite Hin, elem_of_app, list_elem_of_singleton. split; [|naive_solver]. intros [Hx Hnot]. split; [done|].
      intros [-> [Hl| ->]]; [naive_solver|]. assert (in_user U' u id) as (y & Hy & _) by (by apply Hin). congruence.
  - split; [done|]. split; [done|]. intros u g. split; [|tauto]. intros Hin. split; [done|]. intros [_ Hx]. by apply elem_of_nil in Hx.
  - exists (Ok tt), U', (delete id G). split; [|split; [split|done]].
    + exists s3. split; [|done]. rewrite (bind_ok _ _ _ _ _ Hrun1). cbn [users _normalizeGroup]. by rewrite (bind_ok _ _ _ _ _ Hrun2).
    + apply HU'.
    + destruct HU' as [_ Hin]. split.
      * intros u g. rewrite in_group_delete, Hin, <- Hs. split; [|naive_solver].
        intros [Hu Hnot]. split; [|done]. intros ->. apply Hnot. split; [done|]. apply Hs in Hu as (y & Hy & ?). by simplify_eq.
      * intros g y [_ Hg]%lookup_delete_Some. by apply (Hn g).
Qed.

Lemma split_users_spec new old cur n o :
  NoDup cur → split_users new old cur = (n, o) → (∀ x, x ∈ old → x ∉ cur) →
  (∀ x, x ∈ n ↔ x ∈ new ∧ x ∉ cur) ∧ (∀ x, x ∈ o ↔ x ∈ old ∨ (x ∈ cur ∧ x ∉ new)) ∧ (NoDup new → NoDup n) ∧ (NoDup old → NoDup o).
Proof.
  revert new old. induction cur as [|id cur IH]; intros new old Hnd E Hold; cbn [split_users] in E.
  { simplify_eq. split; [intros x; set_solver|]. split; [set_solver|]. done. }
  apply NoDup_cons in Hnd as [Hid Hnd]. case_decide as Hin.
  - destruct (IH _ _ Hnd E) as (Hn & Ho & Hn' & Ho'); [set_solver|]. split; [|split; [|split; [|done]]].
    + intros x. rewrite Hn, list_elem_of_filter, not_elem_of_cons. tauto.
    + intros x. rewrite Ho, list_elem_of_filter, elem_of_cons. split; [|naive_solver]. intros [?|[Hx Hnot]]; [by left|]. right. split; [by right|].
      intros Hx'. apply Hnot. split; [|done]. by intros ->.
    + intros Hnew. apply Hn', NoDup_filter, Hnew.
  - destruct (IH _ _ Hnd E) as (Hn & Ho & Hn' & Ho').
    { intros x [Hx| ->%list_elem_of_singleton]%elem_of_app; [|done]. specialize (Hold x Hx). set_solver. }
    split; [|split; [|split; [done|]]].
    + intros x. rewrite Hn, not_elem_of_cons. split; [|tauto]. intros [Hx ?]. split; [done|]. split; [|done]. by intros ->.
    + intros x. rewrite Ho, elem_of_app, list_elem_of_singleton, elem_of_cons. naive_solver.
    + intros Hnew. apply Ho'. apply NoDup_app. split; [done|]. split; [|apply NoDup_singleton].
      intros x Hx ->%list_elem_of_singleton. apply (Hold id Hx). by left.
Qed.

(** The users that are read, in order. *)
Definition read_users (U : gmap jstring User) (l : list (jstring * User)) : Prop :=
  ∀ id u, (id, u) ∈ l → ∃ p, U !! id = Some p ∧ u = _normalizeUser p.

Lemma getUsers_leaves ids s U G :
  holds_subjects s U G → (∀ id, id ∈ ids → usable_id id) →
  ∃ a, leaves (asyncMapSettled ids (λ id, u ← getUser id; mret (id, u))) s a U G ∧
    match a with Ok l => l.*1 = ids ∧ read_users U l | Throw _ => True end.
Proof.
  revert s. induction ids as [|id ids IH]; intros s HS Hids.
  { exists (Ok []). split; [by exists s|]. split; [done|]. by intros ? ? ?%elem_of_nil. }
  destruct (getUser_leaves id s U G HS (Hids id ltac:(by left))) as (s1 & Hrun & HS1).
  destruct (IH s1 HS1) as (a & (s2 & Hrun2 & HS2) & Ha); [intros x Hx; apply Hids; by right|].
  cbn [asyncMapSettled]. destruct (U !! id) as [p|] eqn:Ep.
  - destruct a as [l|e].
    + destruct Ha as [<- Hl]. exists (Ok ((id, _normalizeUser p) :: l)). split.
      * exists s2. split; [|done]. rewrite (bind_ok _ _ _ _ _ Hrun). cbn. by rewrite Hrun2.
      * split; [done|]. intros i u [E|Hi]%elem_of_cons; [|by apply Hl]. simplify_eq. by exists p.
    + exists (Throw e). split; [|done]. exists s2. split; [|done]. rewrite (bind_ok _ _ _ _ _ Hrun). cbn. by rewrite Hrun2.
  - exists (Throw (noSuchObject id (js "user"))). split; [|done]. exists s2. split; [|done]. rewrite (bind_throw _ _ _ _ _ Hrun). by rewrite Hrun2.
Qed.

Definition regroup (f : list jstring → list jstring) (p : User) : User := with_groups (f (groups p)) p.

(** The groups of the users of [l] are changed. *)
Lemma regroup_leaves f (l : list (jstring * User)) s U G :
  holds_subjects s U G → accounts_but X U → read_users U l → NoDup l.*1 →
  ∃ U', leaves (for_each l (λ x, user_update x.1 (set_groups (f (groups x.2)) x.2))) s (Ok tt) U' G ∧ accounts_but X U' ∧
    ∀ id, U' !! id = if decide (id ∈ l.*1) then regroup f <$> U !! id else U !! id.
Proof.
  intros HS HU Hl Hnd.
  destruct (for_each_leaves (λ x, user_update x.1 (set_groups (f (groups x.2)) x.2))
    (λ done U' G', G' = G ∧ accounts_but X U' ∧ ∀ id, U' !! id = if decide (id ∈ done.*1) then regroup f <$> U !! id else U !! id) l s U G)
    as (U' & G' & Hrun & -> & HU' & Hlook); [|done|by split; [|split]; [..|intros id; rewrite decide_False by apply not_elem_of_nil]|by exists U'].
  intros done [id u] rest s1 U' G' E HS1 (-> & HU' & Hlook). cbn [fst snd].
  destruct (Hl id u) as (p & Hp & ->); [rewrite E; set_solver|].
  assert (id ∉ done.*1) as Hnot.
  { rewrite E, fmap_app in Hnd. apply NoDup_app in Hnd as (_ & Hd & _). intros Hin. apply (Hd id Hin). by left. }
  assert (U' !! id = Some p) as Hp' by (by rewrite Hlook, decide_False).
  exists (<[id := regroup f p]> U'), G. split; [|split; [done|split]].
  - by apply (user_groups_leaves id _ p).
  - by apply accounts_groups.
  - intros i. rewrite fmap_app, lookup_insert. cbn [fmap list_fmap fst]. case_decide as E1.
    + subst i. rewrite decide_True by set_solver. by rewrite Hp.
    + rewrite Hlook. apply decide_ext. set_solver.
Qed.

Lemma in_some p y : (∃ x, Some p = Some x ∧ y ∈ groups x) ↔ y ∈ groups p.
Proof. naive_solver. Qed.

(** Who is in what, once the old users have left the group and the new ones have come. *)
Lemma in_user_regrouped (U U1 U2 : gmap jstring User) groupId (newIds oldIds : list jstring) x y :
  (∀ id, U1 !! id = if decide (id ∈ newIds) then regroup (λ l, addToArraySet l groupId) <$> U !! id else U !! id) →
  (∀ id, U2 !! id = if decide (id ∈ oldIds) then regroup (λ l, removeFromArraySet l groupId) <$> U1 !! id else U1 !! id) →
  (∀ x, x ∈ oldIds → x ∉ newIds) →
  in_user U2 x y ↔ if decide (x ∈ oldIds) then in_user U x y ∧ y ≠ groupId
                   else if decide (x ∈ newIds) then (in_user U x y ∨ (is_Some (U !! x) ∧ y = groupId)) else in_user U x y.
Proof.
  intros H1 H2 Hd. unfold in_user. rewrite H2, H1. repeat case_decide.
  - exfalso. by apply (Hd x).
  - destruct (U !! x) as [p|]; cbn; [|naive_solver]. rewrite !in_some. apply elem_of_removeFromArraySet.
  - destruct (U !! x) as [p|]; cbn; [|split; [naive_solver|]; intros [|[[? ?] _]]; naive_solver].
    rewrite !in_some. unfold regroup. rewrite groups_with, elem_of_addToArraySet. split; [|tauto]. intros [?|?]; [by left|]. right. split; [by eexists|done].
  - done.
Qed.

Lemma setGroupUsers_keeps groupId userIds :
  usable_id groupId → (∀ id, id ∈ userIds → usable_id id) → NoDup userIds → keeps (setGroupUsers roleIds groupId userIds) (λ _, True).
Proof.
  intros Hg Hids Hnd s U G HS HI. unfold setGroupUsers. pose proof (getGroup_leaves groupId s U G HS Hg) as Hget.
  destruct (G !! groupId) as [q|] eqn:Eq; [|by eexists _, U, G; split; [by apply leaves_bind_throw|]].
  destruct HI as [HU [Hs Hn]]. destruct Hget as (s1 & Hrun1 & HS1).
  destruct (split_users (remove_dups userIds) [] (users q)) as [newIds oldIds] eqn:E.
  destruct (split_users_spec _ _ _ _ _ (Hn _ _ Eq) E) as (Hnew & Hold & Hnewnd & Holdnd); [by intros x ?%elem_of_nil|].
  setoid_rewrite elem_of_remove_dups in Hnew. setoid_rewrite elem_of_remove_dups in Hold.
  specialize (Hnewnd (NoDup_remove_dups _)). specialize (Holdnd (NoDup_nil_2)).
  assert (∀ x, x ∈ users q ↔ in_user U x groupId) as Hq by (intros x; rewrite Hs; unfold in_group; naive_solver).
  assert (∀ id, id ∈ newIds → usable_id id) as Hu1 by (intros id Hid; apply Hids; by apply Hnew).
  assert (∀ id, id ∈ oldIds → usable_id id) as Hu2.
  { intros id [?%elem_of_nil|[Hin _]]%Hold; [done|]. apply Hq in Hin as (p & Hp & _). eapply user_usable; [exact HS|by eexists]. }
  assert (∀ x, x ∈ oldIds → x ∉ newIds) as Hdisj by (intros x [?%elem_of_nil|[_ Ho]]%Hold Hin%Hnew; [done|tauto]).
  destruct (getUsers_leaves newIds s1 U G HS1 Hu1) as (a & (s2 & Hrun2 & HS2) & Ha).
  destruct a as [l1|e].
  2:{ exists (Throw e), U, G. split; [|done]. exists s2. split; [|done]. rewrite (bind_ok _ _ _ _ _ Hrun1). cbn [users _normalizeGroup]. rewrite E.
      by apply bind_throw. }
  destruct (getUsers_leaves oldIds s2 U G HS2 Hu2) as (a & (s3 & Hrun3 & HS3) & Hb).
  destruct a as [l2|e].
  2:{ exists (Throw e), U, G. split; [|done]. exists s3. split; [|done]. rewrite (bind_ok _ _ _ _ _ Hrun1). cbn [users _normalizeGroup]. rewrite E.
      rewrite (bind_ok _ _ _ _ _ Hrun2). by apply bind_throw. }
  destruct Ha as [El1 Hl1], Hb as [El2 Hl2].
  destruct (regroup_leaves (λ l, addToArraySet l groupId) l1 s3 U G) as (U1 & (s4 & Hrun4 & HS4) & HU1 & Hlook1); [done..|by rewrite El1|].
  destruct (regroup_leaves (λ l, removeFromArraySet l groupId) l2 s4 U1 G) as (U2 & (s5 & Hrun5 & HS5) & HU2 & Hlook2); [done..| |by rewrite El2|].
  { intros id u Hin. rewrite Hlook1, decide_False; [by apply Hl2|]. rewrite El1. assert (id ∈ oldIds) as Ho by (rewrite <- El2; by apply (list_elem_of_fmap_2 fst _ _ Hin)).
    by apply Hdisj. }
  destruct (group_users_leaves groupId userIds q s5 U2 G HS5 Eq) as (s6 & Hrun6 & HS6).
  exists (Ok tt), U2, (<[groupId := with_users groupId userIds q]> G). split; [|split; [split; [done|split]|done]].
  - exists s6. split; [|done]. rewrite (bind_ok _ _ _ _ _ Hrun1). cbn [users _normalizeGroup]. rewrite E.
    by rewrite (bind_ok _ _ _ _ _ Hrun2), (bind_ok _ _ _ _ _ Hrun3), (bind_ok _ _ _ _ _ Hrun4), (bind_ok _ _ _ _ _ Hrun5).
  - intros x y. rewrite in_group_insert, users_with.
    rewrite (in_user_regrouped U U1 U2 groupId newIds oldIds) by (first [by rewrite <- ?El1, <- ?El2 | exact Hdisj]).
    assert (∀ id, id ∈ newIds → is_Some (U !! id)) as Hex.
    { intros id Hin. rewrite <- El1 in Hin. apply list_elem_of_fmap in Hin as ([i u] & -> & Hin). destruct (Hl1 i u Hin) as (p & Hp & _). by eexists. }
    destruct (decide (x ∈ oldIds)) as [Ho|Ho]; [|destruct (decide (x ∈ newIds)) as [Hw|Hw]]; destruct (decide (y = groupId)) as [->|Hy].
    + apply Hold in Ho as [?%elem_of_nil|[_ Ho]]; [done|]. tauto.
    + rewrite <- Hs. tauto.
    + pose proof (Hex x Hw). apply Hnew in Hw as [Hw _]. tauto.
    + rewrite <- Hs. tauto.
    + rewrite <- Hq. destruct (decide (x ∈ users q)), (decide (x ∈ userIds)); try tauto; exfalso; [apply Ho, Hold|apply Hw, Hnew]; tauto.
    + by rewrite <- Hs.
  - intros x y. rewrite lookup_insert. case_decide; [|apply Hn]. intros E1. by simplify_eq.
Qed.

(** *** Registration *)









Local Abbreviation registerUser2 := (registerUser2 hash apiUser mergeProvidersUsers createUserOnFirstSignin).




(** ** Sequences of operations *)

Inductive Op :=
  | CreateUser (id : jstring) (name password : option jstring) (properties : User)
  | UpdateUser (id : jstring) (c : UserChanges)
  | DeleteUser (id : jstring)
  | RegisterUser (newId providerId id name : jstring) (data : option jstring)
  | CheckPassword (id password : jstring) (updateIfNecessary : bool)
  | ChangePassword (id oldPassword newPassword : jstring)
  | CreateGroup (id : jstring) (name provider providerGroupId : option jstring)
  | UpdateGroup (id : jstring) (name : option jstring)
  | DeleteGroup (id : jstring)
  | AddUserToGroup (userId groupId : jstring)
  | RemoveUserFromGroup (userId groupId : jstring)
  | SetGroupUsers (groupId : jstring) (userIds : list jstring).

Definition discard {A} (m : M S A) : M S unit := m ;; mret tt.

Definition run_op (op : Op) : M S unit :=
  match op with
  | CreateUser id name password properties => discard (createUser hash id name password properties)
  | UpdateUser id c => updateUser id c
  | DeleteUser id => deleteUser roleIds id
  | RegisterUser newId providerId id name data => discard (registerUser2 newId providerId id name data)
  | CheckPassword id password b => discard (checkUserPassword hash verify needsRehash apiUser id password b)
  | ChangePassword id old new => changeUserPassword hash verify needsRehash apiUser id old new
  | CreateGroup id name provider providerGroupId => discard (createGroup id name provider providerGroupId)
  | UpdateGroup id name => updateGroup roleIds id name
  | DeleteGroup id => deleteGroup roleIds id
  | AddUserToGroup userId groupId => addUserToGroup roleIds userId groupId
  | RemoveUserFromGroup userId groupId => removeUserFromGroup roleIds userId groupId
  | SetGroupUsers groupId userIds => setGroupUsers roleIds groupId userIds
  end.

(** The identifiers can be used; a user is created in no group; the users of a group are
    given once ([given_twice]). *)
Definition allowed_op (op : Op) : Prop :=
  match op with
  | CreateUser id name password properties =>
      usable_id id ∧ groups properties = []
  | UpdateUser id _ | DeleteUser id | CheckPassword id _ _ | ChangePassword id _ _
  | CreateGroup id _ _ _ | UpdateGroup id _ | DeleteGroup id => usable_id id
  | RegisterUser newId _ _ _ _ => usable_id newId
  | AddUserToGroup userId groupId | RemoveUserFromGroup userId groupId => usable_id userId ∧ usable_id groupId
  | SetGroupUsers groupId userIds => usable_id groupId ∧ (∀ id, id ∈ userIds → usable_id id) ∧ NoDup userIds
  end.

(** The users that are created with both a password and providers. *)
Definition with_both (op : Op) (id : jstring) : Prop :=
  match op with CreateUser id' _ password properties => id = id' ∧ has_both password properties | _ => False end.
Definition created_with_both (ops : list Op) (id : jstring) : Prop := ∃ op, op ∈ ops ∧ with_both op id.

Lemma discard_keeps {A} (m : M S A) : keeps m (λ _, True) → keeps (discard m) (λ _, True).
Proof. intros Hm. eapply op_keeps_bind; [done|]. intros x _. by apply op_keeps_ret. Qed.

Lemma run_op_keeps op : allowed_op op → (∀ id, with_both op id → X id) → keeps (run_op op) (λ _, True).
Proof.
  destruct op; cbn [allowed_op run_op with_both]; intros Hop Hboth.
  - destruct Hop as (? & ?). apply discard_keeps, createUser_keeps; auto.
  - by apply updateUser_keeps.
  - by apply deleteUser_keeps.
  - by apply discard_keeps, registerUser2_keeps.
  - by apply discard_keeps, checkUserPassword_keeps.
  - by apply changeUserPassword_keeps.
  - by apply discard_keeps, createGroup_keeps.
  - by apply updateGroup_keeps.
  - by apply deleteGroup_keeps.
  - destruct Hop. by apply addUserToGroup_keeps.
  - destruct Hop. by apply removeUserFromGroup_keeps.
  - destruct Hop as (? & ? & ?). by apply setGroupUsers_keeps.
Qed.

(** What one operation throws does not stop the next ones. *)
Definition run_ops (ops : list Op) : M S unit := for_each ops (λ op, ignoring (run_op op)).

Lemma run_ops_sound ops s U G :
  holds_subjects s U G → sound_but X U G → Forall allowed_op ops → (∀ id, created_with_both ops id → X id) →
  ∃ U' G', leaves (run_ops ops) s (Ok tt) U' G' ∧ sound_but X U' G'.
Proof.
  intros HS HI Hops Hboth. rewrite Forall_forall in Hops.
  apply (for_each_leaves (λ op, ignoring (run_op op)) (λ _, sound_but X) ops s U G); [|done..].
  intros l op rest s1 U1 G1 E HS1 HI1. destruct (run_op_keeps op) with (s := s1) (U := U1) (G := G1) as (a & U2 & G2 & Hl & HI2 & _); [| |done..|].
  - apply Hops. rewrite E. set_solver.
  - intros id Hid. apply Hboth. exists op. split; [rewrite E; set_solver|done].
  - exists U2, G2. split; [|done]. by eapply ignoring_leaves.
Qed.
End facts.

(** From sound subjects. *)
Lemma run_ops_from_sound {S} `{StoreLaws S} hash verify needsRehash apiUser roleIds mergeProvidersUsers createUserOnFirstSignin ops s U G :
  holds_subjects s U G → sound U G → Forall allowed_op ops →
  ∃ U' G', leaves (run_ops hash verify needsRehash apiUser roleIds mergeProvidersUsers createUserOnFirstSignin ops) s (Ok tt) U' G' ∧
    sound_but (created_with_both ops) U' G'.
Proof. intros HS HI Hops. apply (run_ops_sound _ _ _ _ _ _ _ (created_with_both ops) ops s U G); [done| |done|done]. by apply (sound_but_mono nobody). Qed.

(** ** Properties *)

(** C17: In any sequence of operations, each on what the one before left and whether they
    throw or not, the users of a group are those that are in it, each once, no two users
    have the same address or name, and none has both a password and authentication
    providers but those that were created with both.  The identifiers have to be usable,
    the users created in no group, and the users of a group given once: [given_twice] and
    [lost_group] show what happens otherwise, and when two operations are interleaved. *)
Theorem subjects_stay_sound {S} `{StoreLaws S} hash verify needsRehash apiUser roleIds mergeProvidersUsers createUserOnFirstSignin
    ops s U G :
  holds_subjects s U G → sound U G → Forall allowed_op ops →
  ∃ U' G', leaves (run_ops hash verify needsRehash apiUser roleIds mergeProvidersUsers createUserOnFirstSignin ops) s (Ok tt) U' G' ∧
    sound_but (created_with_both ops) U' G'.
Proof. apply run_ops_from_sound. Qed.


(** ** An instance: two maps *)

Record Maps := mkMaps { map_users : gmap jstring User; map_groups : gmap jstring Group }.

Definition checked {A} (check : result unit) (a : A) (f : Maps → Maps) : M Maps A := λ s,
  match check with Ok _ => (Ok a, f s) | Throw e => (Throw e, s) end.
Definition alreadyExists : error := OtherError "this model already exists".

#[export] Instance maps_store : Store Maps := {
  holds_subjects s U G := map_users s = U ∧ map_groups s = G ∧ map_Forall (λ _ u, stored_user u = u) U;
  usable_id _ := True;
  user_first id s := (Ok (map_users s !! id), s);
  user_by_email e s := (Ok (head (filter (λ x, default false ((λ v, same v e) <$> email x.2) = true) (map_to_list (map_users s)))), s);
  user_all s := (Ok (map_to_list (map_users s)), s);
  user_add id u s :=
    checked (match map_users s !! id with Some _ => Throw alreadyExists | None => user_check (map_users s) id u end) (stored_user u)
      (λ s, mkMaps (<[id := stored_user u]> (map_users s)) (map_groups s)) s;
  user_update id u s := checked (user_check (map_users s) id u) tt (λ s, mkMaps (<[id := stored_user u]> (map_users s)) (map_groups s)) s;
  user_remove id s := (Ok tt, mkMaps (delete id (map_users s)) (map_groups s));
  group_first id s := (Ok (map_groups s !! id), s);
  group_by_name n s := (Ok (filter (λ x, default false ((λ v, same v (name_text n)) <$> group_name x.2) = true) (map_to_list (map_groups s))), s);
  group_all s := (Ok (map_to_list (map_groups s)), s);
  group_add id g s :=
    checked (match map_groups s !! id with Some _ => Throw alreadyExists | None => group_check (map_groups s) id g end) g
      (λ s, mkMaps (map_users s) (<[id := g]> (map_groups s))) s;
  group_update id g s := checked (group_check (map_groups s) id g) tt (λ s, mkMaps (map_users s) (<[id := g]> (map_groups s))) s;
  group_remove id s := (Ok tt, mkMaps (map_users s) (delete id (map_groups s)));
}.

Lemma default_same (o : option jstring) e : default false ((λ v, same v e) <$> o) = true ↔ ∃ v, o = Some v ∧ same v e = true.
Proof. destruct o; cbn; naive_solver. Qed.

#[export] Instance maps_laws : StoreLaws Maps.
Proof.
  split; cbn; try done.
  - intros s U G id u (<- & <- & Hs) Hu. by apply (Hs id).
  - intros s U G id (<- & <- & Hs) _. by exists s.
  - intros s U G e (<- & <- & Hs). eexists. split; [by exists s|].
    destruct (head _) as [[id u]|] eqn:E.
    + assert ((id, u) ∈ filter (λ x, default false ((λ v, same v e) <$> email x.2) = true) (map_to_list (map_users s))) as Hin.
      { destruct (filter _ _) as [|x l]; [done|]. injection E as ->. by left. }
      apply list_elem_of_filter in Hin as [He Hin]. split; [by apply elem_of_map_to_list|]. by apply default_same.
    + intros id u v Hu He. destruct (same v e) eqn:Ev; [|done]. exfalso.
      assert ((id, u) ∈ filter (λ x, default false ((λ v, same v e) <$> email x.2) = true) (map_to_list (map_users s))) as Hin.
      { apply list_elem_of_filter. split; [|by apply elem_of_map_to_list]. apply default_same. by exists v. }
      destruct (filter _ _); [by apply elem_of_nil in Hin|done].
  - intros s U G (<- & <- & Hs). eexists. split; [by exists s|]. split; [apply NoDup_fst_map_to_list|]. intros id u. apply elem_of_map_to_list.
  - intros s U G id u (<- & <- & Hs) _ [x Hx]. exists s. split; [|done]. unfold checked. by rewrite Hx.
  - intros s U G id g (<- & <- & Hs) _ [x Hx]. exists s. split; [|done]. unfold checked. by rewrite Hx.
  - intros s U G id u (<- & <- & Hs) _ Hid. unfold checked, leaves. rewrite Hid. destruct (user_check (map_users s) id u) as [[]|e]; [|by exists s].
    eexists. split; [done|]. split; [done|]. split; [done|]. by apply map_Forall_insert_2.
  - intros s U G id u (<- & <- & Hs) _. unfold checked, leaves. destruct (user_check (map_users s) id u) as [[]|e]; [|by exists s].
    eexists. split; [done|]. split; [done|]. split; [done|]. by apply map_Forall_insert_2.
  - intros s U G id (<- & <- & Hs) _. eexists. split; [done|]. split; [done|]. split; [done|]. by apply map_Forall_delete.
  - intros s U G id (<- & <- & Hs) _. by exists s.
  - intros s U G n (<- & <- & Hs). eexists. split; [by exists s|]. intros id g. rewrite list_elem_of_filter, elem_of_map_to_list, default_same. tauto.
  - intros s U G (<- & <- & Hs). eexists. split; [by exists s|]. split; [apply NoDup_fst_map_to_list|]. intros id u. apply elem_of_map_to_list.
  - intros s U G id g (<- & <- & Hs) _ Hid. unfold checked, leaves. rewrite Hid. destruct (group_check (map_groups s) id g) as [[]|e]; by eexists.
  - intros s U G id g (<- & <- & Hs) _. unfold checked, leaves. destruct (group_check (map_groups s) id g) as [[]|e]; by eexists.
  - intros s U G id (<- & <- & Hs) _. by eexists.
Qed.

Definition sample_hash (p : jstring) : jstring := js "h" ++ p.
Definition sample_verify (p h : jstring) : bool := bool_decide (h = sample_hash p).
Definition run_sample (ops : list (Op)) (s : Maps) : Maps :=
  (run_ops sample_hash sample_verify (λ _, false) None (λ _, []) false true ops s).2.

Definition blank : User := mkUser None None None None None None None ∅ [] ∅.
Definition u1 : jstring := js "u1".
Definition g1 : jstring := js "g1".
Definition g2 : jstring := js "g2".
Definition create (id name : string) : Op := CreateUser (js id) (Some (js name)) (Some (js "secret")) blank.
Definition nothing : Maps := mkMaps ∅ ∅.

Definition sample_ops : list Op :=
  [create "u1" "Bob"; create "u2" "BOB"; create "u2" "Alice"; CreateGroup g1 (Some (js "admins")) None None;
   SetGroupUsers g1 [js "u2"; u1]; RemoveUserFromGroup (js "u2") g1; AddUserToGroup (js "u2") g1; DeleteUser u1;
   RegisterUser (js "u3") (js "ldap") (js "42") (js "Carol") None].

Definition who (s : Maps) : list (jstring * list jstring) := map (λ x, (x.1, groups x.2)) (map_to_list (map_users s)).
Definition members_of (s : Maps) (g : jstring) : option (list jstring) := users <$> map_groups s !! g.

Example sample_end :
  (map_users (run_sample sample_ops nothing) !! u1, members_of (run_sample sample_ops nothing) g1,
   groups <$> map_users (run_sample sample_ops nothing) !! js "u2", email <$> map_users (run_sample sample_ops nothing) !! js "u3") =
  (None, Some [js "u2"], Some [g1], Some (Some (js "Carol"))).
Proof. vm_compute. reflexivity. Qed.

(** Nothing prevents a user from being created with a password and a provider. *)
Definition bound_blank : User := mkUser None None None None None None None {[js "ldap" := mkProvider (js "42") None]} [] ∅.
Example both_given :
  match map_users (run_sample [CreateUser u1 (Some (js "Bob")) (Some (js "secret")) bound_blank] nothing) !! u1 with
  | Some u => bool_decide (pw_hash u = Some (sample_hash (js "secret")) ∧ authProviders u ≠ ∅)
  | None => false
  end = true.
Proof. vm_compute. reflexivity. Qed.

(** A user that is given twice is in the list of the group, but the next call removes the
    group from the user. *)
Definition two_users : Maps := run_sample [create "u1" "Bob"; CreateGroup g1 (Some (js "admins")) None None] nothing.
Example given_twice :
  let s := run_sample [SetGroupUsers g1 [u1; u1]; SetGroupUsers g1 [u1]] two_users in
  (members_of s g1, groups <$> map_users s !! u1) = (Some [u1], Some []).
Proof. vm_compute. reflexivity. Qed.

(** The address of a user cannot be written in another case: it is its own. *)
Example same_address :
  (updateUser sample_hash None u1 (mkChanges (Some (js "bob")) None None None None None [] None) two_users).1 =
  Throw (objectAlreadyExists (js "user")).
Proof. vm_compute. reflexivity. Qed.

(** So a user whose provider changes the case of its name cannot sign in. *)
Definition from_provider (name : string) : M Maps (jstring * User) :=
  registerUser2 sample_hash None false true (js "u9") (js "ldap") (js "42") (js name) None.
Definition registered_bob : Maps := (from_provider "Bob" nothing).2.
Example locked_out :
  ((λ x, x.1) <$> (from_provider "Bob" registered_bob).1, (λ x, x.1) <$> (from_provider "bob" registered_bob).1) =
  (Ok (js "u9"), Throw (objectAlreadyExists (js "user"))).
Proof. vm_compute. reflexivity. Qed.

(** The error about the name of a group has no identifier when the group is renamed. *)
Definition two_groups : Maps := run_sample [CreateGroup g1 (Some (js "a")) None None; CreateGroup g2 (Some (js "b")) None None] nothing.
Example renamed_error :
  ((updateGroup (λ _, []) g1 (Some (js "b")) two_groups).1, (λ _, tt) <$> (createGroup (js "g3") (Some (js "b")) None None two_groups).1) =
  (Throw (XoError 16 [js "undefined"; js "group"]), Throw (XoError 16 [g2; js "group"])).
Proof. vm_compute. reflexivity. Qed.

(** Two calls of [addUserToGroup] that read the user before either writes it. *)
Definition racing_adds (userId a b : jstring) : M Maps unit :=
  userA ← getUser userId; groupA ← getGroup (λ _, []) a;
  userB ← getUser userId; groupB ← getGroup (λ _, []) b;
  user_update userId (set_groups (addToArraySet (groups userA) a) userA) ;; group_update a (set_users (addToArraySet (users groupA) userId) groupA) ;;
  user_update userId (set_groups (addToArraySet (groups userB) b) userB) ;; group_update b (set_users (addToArraySet (users groupB) userId) groupB).
Definition three_subjects : Maps := run_sample [create "u1" "Bob"] two_groups.
Example lost_group :
  let s := (racing_adds u1 g1 g2 three_subjects).2 in
  (members_of s g1, members_of s g2, groups <$> map_users s !! u1) = (Some [u1], Some [u1], Some [g2]).
Proof. vm_compute. reflexivity. Qed.

Lemma sound_nothing : sound ∅ ∅.
Proof.
  split; split.
  - intros field i j u v a b _ Hi. by rewrite lookup_empty in Hi.
  - intros i u Hi. by rewrite lookup_empty in Hi.
  - intros u g. split; intros (x & Hx & _); by rewrite lookup_empty in Hx.
  - intros g y Hy. by rewrite lookup_empty in Hy.
Qed.

Lemma nothing_holds : holds_subjects nothing ∅ ∅.
Proof. split; [done|]. split; [done|]. apply map_Forall_empty. Qed.

Lemma subjects_stay_sound_witness :
  ∃ U' G', leaves (run_ops sample_hash sample_verify (λ _, false) None (λ _, []) false true sample_ops) nothing (Ok tt) U' G' ∧
    sound_but (created_with_both sample_ops) U' G'.
Proof.
  apply (subjects_stay_sound sample_hash sample_verify (λ _, false) None (λ _, []) false true sample_ops nothing ∅ ∅).
  - exact nothing_holds.
  - exact sound_nothing.
  - repeat (apply Forall_cons; split); try apply Forall_nil; cbn; auto.
    split; [done|]. split; [intros id _; exact I|]. apply (bool_decide_unpack _). vm_compute. exact I.
Defined.

