(* ===== verification/SubjectModels.v ===== *)
(** * The users and the groups in the database

    packages/xo-server/src/models/user.mjs, group.mjs and utils.mjs: how they are written
    in their records, and what is checked before they are; and with them the interface
    [Store] of [Subjects.v], over the collections of [Database.v].

    The JSON of lists, of providers and of preferences is a parameter ([SubjectJson]). *)

From stdpp Require Import gmap sets list.
From S2P Require Import Prelude JsValues Database Subjects.

Local Open Scope Z_scope.

Class SubjectJson := {
  ids_text : list jstring → jstring;
  ids_parse : jstring → option (list jstring);
  providers_text : gmap jstring Provider → jstring;
  providers_parse : jstring → option (gmap jstring Provider);
  preferences_text : gmap jstring value → jstring;
  preferences_parse : jstring → option (gmap jstring value);
}.

Class SubjectJsonLaws `{SubjectJson} := {
  ids_law l : ids_parse (ids_text l) = Some l ∧ ids_text l ≠ [];
  providers_law m : providers_parse (providers_text m) = Some m ∧ providers_text m ≠ [];
  preferences_law m : preferences_parse (preferences_text m) = Some m ∧ preferences_text m ≠ [];
}.

(** ** Records *)

(** The members that are not undefined. *)
Definition record_of (l : list (jstring * option value)) : record :=
  foldr (λ x m, match x.2 with Some v => <[x.1 := v]> m | None => m end) ∅ l.

Definition text_field (r : record) (k : jstring) : option jstring :=
  match r !! k with Some (Str s) => Some s | _ => None end.

(** A member that is null, empty or not JSON has a default value. *)
Definition parseProp {A} (parse : jstring → option A) (r : record) (k : jstring) (defaultValue : A) : A :=
  match r !! k with
  | Some (Str []) | Some Null | Some Undefined | None => defaultValue
  | Some v => default defaultValue (parse (toString v))
  end.

Section models.
Context `{SubjectJson}.

Definition user_fields (u : User) : list (jstring * option value) := [
  (js "email", Str <$> email u); (js "username", Str <$> username u); (js "name", Str <$> name u);
  (js "firstname", Str <$> firstname u); (js "lastname", Str <$> lastname u); (js "permission", Str <$> permission u);
  (js "pw_hash", Str <$> pw_hash u);
  (js "authProviders", if decide (authProviders u = ∅) then None else Some (Str (providers_text (authProviders u))));
  (js "groups", if decide (groups u = []) then None else Some (Str (ids_text (groups u))));
  (js "preferences", if decide (preferences u = ∅) then None else Some (Str (preferences_text (preferences u))))].
Definition user_serialize (u : User) : record := record_of (user_fields u).

Definition user_unserialize (r : record) : User :=
  mkUser (text_field r (js "email")) (text_field r (js "username")) (text_field r (js "name")) (text_field r (js "firstname"))
    (text_field r (js "lastname")) (Some (default (js "none") (text_field r (js "permission")))) (text_field r (js "pw_hash"))
    (parseProp providers_parse r (js "authProviders") ∅) (parseProp ids_parse r (js "groups") [])
    (parseProp preferences_parse r (js "preferences") ∅).

Definition group_fields (g : Group) : list (jstring * option value) := [
  (js "name", Str <$> group_name g); (js "provider", Str <$> provider g); (js "providerGroupId", Str <$> providerGroupId g);
  (js "users", if decide (users g = []) then None else Some (Str (ids_text (users g))));
  (js "aclRoleIds", (λ l, Nested (ids_text l) (join (js ",") l)) <$> aclRoleIds g)].
Definition group_serialize (g : Group) : record := record_of (group_fields g).

Definition group_unserialize (r : record) : Group :=
  mkGroup (text_field r (js "name")) (text_field r (js "provider")) (text_field r (js "providerGroupId"))
    (parseProp ids_parse r (js "users") [])
    (match r !! js "aclRoleIds" with Some (Nested t _) => ids_parse t | _ => None end).

(** What [unserialize] changes of its record is not indexed. *)
Definition user_class : ModelClass User := mkModelClass user_serialize user_unserialize (λ r, r) (λ _ _ _, true).
Definition group_class : ModelClass Group := mkModelClass group_serialize group_unserialize (λ r, r) (λ _ _ _, true).

(** ** Checks *)

Definition user_namespace : jstring := js "user".
Definition group_namespace : jstring := js "group".
Definition group_indexes : list jstring := [js "name"].

Section hooks.
Context {R : Type} `{Redis R} `{Json} (crypto : option Crypto).

Definition _checkUnique (field : jstring) (value : option jstring) : M R unit :=
  match value with
  | None => mret tt
  | Some v =>
      existingUser ← first crypto user_class user_namespace UNIQUE_FIELDS {[field := Str v]};
      match existingUser with Some _ => lift (Throw (objectAlreadyExists (js "user"))) | None => mret tt end
  end.

Definition user_beforeAdd (user : User) : M R unit :=
  for_each UNIQUE_FIELDS (λ field, _checkUnique field (unique_field field user)).
Definition user_beforeUpdate (user previous : User) : M R unit :=
  for_each UNIQUE_FIELDS (λ field,
    if decide (unique_field field user = unique_field field previous) then mret tt
    else _checkUnique field (unique_field field user)).

Definition name_value (o : option jstring) : value := match o with Some n => Str n | None => Undefined end.

Definition group_beforeAdd (group : Group) : M R unit :=
  b ← exists_model crypto group_class group_namespace group_indexes {[js "name" := name_value (group_name group)]};
  if (b : bool) then lift (Throw (groupAlreadyExists (name_text (group_name group)))) else mret tt.
Definition group_beforeUpdate (group previous : Group) : M R unit :=
  if decide (group_name group = group_name previous) then mret tt else group_beforeAdd group.

(** *** On the models alone *)

Definition taken_in (D : models) (field value : jstring) : bool :=
  existsb (λ x, match x.2 !! field with Some v => same (toString v) value | None => false end) (map_to_list D).
Definition check_in (D : models) (field : jstring) (value : option jstring) : result unit :=
  match value with
  | Some v => if taken_in D field v then Throw (objectAlreadyExists (js "user")) else Ok tt
  | None => Ok tt
  end.
Definition user_addCheck (u : User) (D : models) : result unit :=
  foldr (λ field (k : result unit), check_in D field (unique_field field u) ;; k) (Ok tt) UNIQUE_FIELDS.
Definition user_updateCheck (u previous : User) (D : models) : result unit :=
  foldr (λ field (k : result unit),
    (if decide (unique_field field u = unique_field field previous) then Ok tt else check_in D field (unique_field field u)) ;; k) (Ok tt) UNIQUE_FIELDS.
Definition group_addCheck (g : Group) (D : models) : result unit :=
  if taken_in D (js "name") (name_text (group_name g)) then Throw (groupAlreadyExists (name_text (group_name g))) else Ok tt.
Definition group_updateCheck (g previous : Group) (D : models) : result unit :=
  if decide (group_name g = group_name previous) then Ok tt else group_addCheck g D.
End hooks.

(** ** The collections as a store *)

Section store.
Context {R : Type} `{Redis R} `{Json} (crypto : option Crypto) (draw : jstring → jstring).

Definition user_write (replace : bool) (id : jstring) (u : User) : M R (list (jstring * User)) :=
  _add crypto user_class user_namespace UNIQUE_FIELDS (user_beforeAdd crypto) (user_beforeUpdate crypto) replace
    [mkInput (Some id) [] (draw id) u].
Definition group_write (replace : bool) (id : jstring) (g : Group) : M R (list (jstring * Group)) :=
  _add crypto group_class group_namespace group_indexes (group_beforeAdd crypto) (group_beforeUpdate crypto) replace
    [mkInput (Some id) [] (draw id) g].

(** The first of the models that were written. *)
Definition first_written {A} (m : M R (list (jstring * A))) : M R A :=
  l ← m; match l with x :: _ => mret x.2 | [] => lift (Throw (OtherError "no model")) end.

Definition holds_both (r : R) (U : gmap jstring User) (G : gmap jstring Group) : Prop :=
  ∃ Du Dg, represents crypto user_namespace UNIQUE_FIELDS (view r) Du ∧ represents crypto group_namespace group_indexes (view r) Dg ∧
    U = user_unserialize <$> Du ∧ G = group_unserialize <$> Dg ∧
    map_Forall (λ _ x, ∃ u, x = user_serialize u) Du ∧ map_Forall (λ _ x, ∃ g, x = group_serialize g) Dg.

Definition database_store : Store R := {|
  holds_subjects := holds_both;
  usable_id id := ¬ reserved id;
  user_first id := m ← first crypto user_class user_namespace UNIQUE_FIELDS (by_id id); mret (snd <$> m);
  user_by_email e := first crypto user_class user_namespace UNIQUE_FIELDS {[js "email" := Str e]};
  user_all := _get crypto user_class user_namespace UNIQUE_FIELDS ∅;
  user_add id u := first_written (user_write false id u);
  user_update id u := user_write true id u ;; mret tt;
  user_remove id := _remove crypto user_namespace UNIQUE_FIELDS [id];
  group_first id := m ← first crypto group_class group_namespace group_indexes (by_id id); mret (snd <$> m);
  group_by_name n := _get crypto group_class group_namespace group_indexes {[js "name" := name_value n]};
  group_all := _get crypto group_class group_namespace group_indexes ∅;
  group_add id g := first_written (group_write false id g);
  group_update id g := group_write true id g ;; mret tt;
  group_remove id := _remove crypto group_namespace group_indexes [id];
|}.
End store.
End models.

(** ** The records of users and groups *)

Section facts.
Context `{SubjectJsonLaws}.

Definition pick (k : jstring) (l : list (jstring * option value)) : option value :=
  foldr (λ x o, match x.2 with Some v => if decide (x.1 = k) then Some v else o | None => o end) None l.

Lemma lookup_record_of l k : record_of l !! k = pick k l.
Proof.
  induction l as [|[k' [v|]] l IH]; [apply lookup_empty| |exact IH]. unfold record_of in *. cbn. rewrite lookup_insert.
  by repeat case_decide.
Qed.

Lemma parseProp_text {A} (p : jstring → option A) r k text d x :
  r !! k = Some (Str text) → p text = Some x → text ≠ [] → parseProp p r k d = x.
Proof. intros Hr Hp Ht. unfold parseProp. rewrite Hr. destruct text as [|c t]; [done|]. cbn. by rewrite Hp. Qed.

Lemma parseProp_none {A} (p : jstring → option A) r k d : r !! k = None → parseProp p r k d = d.
Proof. intros Hr. unfold parseProp. by rewrite Hr. Qed.

Lemma text_field_of r k o : r !! k = Str <$> o → text_field r k = o.
Proof. intros Hr. unfold text_field. rewrite Hr. by destruct o. Qed.

Lemma lookup_user u k : user_serialize u !! k = pick k (user_fields u).
Proof. apply lookup_record_of. Qed.
Lemma lookup_group g k : group_serialize g !! k = pick k (group_fields g).
Proof. apply lookup_record_of. Qed.

(** One step of [pick], on another name or on the one looked for. *)
Lemma pick_other k k' o l : k' ≠ k → pick k ((k', o) :: l) = pick k l.
Proof. intros Hk. cbn. destruct o; [by rewrite decide_False|done]. Qed.
Lemma pick_this k o l : pick k l = None → pick k ((k, o) :: l) = o.
Proof. intros Hl. cbn. destruct o; [by rewrite decide_True|done]. Qed.
Lemma pick_nil k : pick k [] = None.
Proof. done. Qed.

Ltac solve_pick := first [apply pick_nil | rewrite pick_other by discriminate; solve_pick | rewrite pick_this by solve_pick; reflexivity].

Lemma user_text u : let r := user_serialize u in
  r !! js "email" = Str <$> email u ∧ r !! js "username" = Str <$> username u ∧ r !! js "name" = Str <$> name u ∧
  r !! js "firstname" = Str <$> firstname u ∧ r !! js "lastname" = Str <$> lastname u ∧
  r !! js "permission" = Str <$> permission u ∧ r !! js "pw_hash" = Str <$> pw_hash u.
Proof. cbv zeta. rewrite !lookup_user. unfold user_fields. repeat split; solve_pick. Qed.

Lemma user_nested u : let r := user_serialize u in
  r !! js "authProviders" = (if decide (authProviders u = ∅) then None else Some (Str (providers_text (authProviders u)))) ∧
  r !! js "groups" = (if decide (groups u = []) then None else Some (Str (ids_text (groups u)))) ∧
  r !! js "preferences" = (if decide (preferences u = ∅) then None else Some (Str (preferences_text (preferences u)))).
Proof. cbv zeta. rewrite !lookup_user. unfold user_fields. repeat split; solve_pick. Qed.

(** What is read is what was written. *)
Lemma user_roundtrip u : user_unserialize (user_serialize u) = stored_user u.
Proof.
  destruct (user_text u) as (H1 & H2 & H3 & H4 & H5 & H6 & H7). destruct (user_nested u) as (H8 & H9 & H10).
  unfold user_unserialize, stored_user. rewrite (text_field_of _ _ _ H1), (text_field_of _ _ _ H2), (text_field_of _ _ _ H3), (text_field_of _ _ _ H4),
    (text_field_of _ _ _ H5), (text_field_of _ _ _ H6), (text_field_of _ _ _ H7). f_equal.
  - destruct (decide (authProviders u = ∅)) as [E|E]; [by rewrite (parseProp_none _ _ _ _ H8)|]. eapply parseProp_text; [exact H8|apply providers_law|apply providers_law].
  - destruct (decide (groups u = [])) as [E|E]; [by rewrite (parseProp_none _ _ _ _ H9)|]. eapply parseProp_text; [exact H9|apply ids_law|apply ids_law].
  - destruct (decide (preferences u = ∅)) as [E|E]; [by rewrite (parseProp_none _ _ _ _ H10)|]. eapply parseProp_text; [exact H10|apply preferences_law|apply preferences_law].
Qed.

Lemma group_text g : let r := group_serialize g in
  r !! js "name" = Str <$> group_name g ∧ r !! js "provider" = Str <$> provider g ∧ r !! js "providerGroupId" = Str <$> providerGroupId g ∧
  r !! js "users" = (if decide (users g = []) then None else Some (Str (ids_text (users g)))) ∧
  r !! js "aclRoleIds" = (λ l, Nested (ids_text l) (join (js ",") l)) <$> aclRoleIds g.
Proof. cbv zeta. rewrite !lookup_group. unfold group_fields. repeat split; solve_pick. Qed.

Lemma group_roundtrip g : group_unserialize (group_serialize g) = g.
Proof.
  destruct (group_text g) as (H1 & H2 & H3 & H4 & H5). unfold group_unserialize.
  rewrite (text_field_of _ _ _ H1), (text_field_of _ _ _ H2), (text_field_of _ _ _ H3), H5.
  assert (parseProp ids_parse (group_serialize g) (js "users") [] = users g) as ->.
  { destruct (decide (users g = [])) as [E|E]; [by rewrite (parseProp_none _ _ _ _ H4)|]. eapply parseProp_text; [exact H4|apply ids_law|apply ids_law]. }
  destruct g as [n p i us [l|]]; cbn; [|done]. by rewrite (proj1 (ids_law l)).
Qed.

Lemma user_field_lookup field u : field ∈ UNIQUE_FIELDS → user_serialize u !! field = Str <$> unique_field field u.
Proof.
  destruct (user_text u) as (H1 & H2 & _). unfold UNIQUE_FIELDS, unique_field. rewrite !elem_of_cons, elem_of_nil.
  intros [->|[->|[]]]; [by rewrite decide_True|by rewrite decide_False].
Qed.

(** *** Checks on the records and on what is read of them *)

Definition user_records (D : models) : Prop := map_Forall (λ _ x, ∃ u, x = user_serialize u) D.
Definition group_records (D : models) : Prop := map_Forall (λ _ x, ∃ g, x = group_serialize g) D.

Lemma taken_in_spec D field v :
  taken_in D field v = true ↔ ∃ id x y, D !! id = Some x ∧ x !! field = Some y ∧ same (toString y) v = true.
Proof.
  unfold taken_in. rewrite existsb_exists. split.
  - intros ([i x] & Hin%list_elem_of_In%elem_of_map_to_list & Hx). cbn in Hx. destruct (x !! field) as [y|] eqn:E; [|done]. by exists i, x, y.
  - intros (i & x & y & Hi & Hy & Hs). exists (i, x). split; [by apply list_elem_of_In, elem_of_map_to_list|]. cbn. by rewrite Hy.
Qed.

Lemma taken_in_users D field v : user_records D → field ∈ UNIQUE_FIELDS → taken_in D field v = taken (user_unserialize <$> D) field v.
Proof.
  intros HD Hf. apply eq_true_iff_eq. rewrite taken_in_spec, taken_spec. split.
  - intros (id & x & y & Hx & Hy & Hs). destruct (HD id x Hx) as [u ->]. rewrite user_field_lookup in Hy by done.
    destruct (unique_field field u) as [w|] eqn:E; [|done]. injection Hy as <-. exists id, (stored_user u), w.
    split; [rewrite lookup_fmap, Hx; exact (f_equal Some (user_roundtrip u))|]. by rewrite unique_field_stored.
  - intros (id & u & w & Hu & Hw & Hs). rewrite lookup_fmap in Hu. destruct (D !! id) as [x|] eqn:Hx; [|done]. injection Hu as <-.
    destruct (HD id x Hx) as [u' ->]. rewrite user_roundtrip, unique_field_stored in Hw. exists id, (user_serialize u'), (Str w).
    split; [done|]. split; [by rewrite user_field_lookup, Hw|done].
Qed.

Lemma taken_in_groups D n : group_records D → taken_in D (js "name") n = name_taken (group_unserialize <$> D) n.
Proof.
  intros HD. apply eq_true_iff_eq. rewrite taken_in_spec. unfold name_taken. rewrite existsb_exists. split.
  - intros (id & x & y & Hx & Hy & Hs). destruct (HD id x Hx) as [g ->]. destruct (group_text g) as (H1 & _). rewrite H1 in Hy.
    destruct (group_name g) as [w|] eqn:E; [|done]. injection Hy as <-. exists (id, g). split.
    + apply list_elem_of_In, elem_of_map_to_list. rewrite lookup_fmap, Hx. exact (f_equal Some (group_roundtrip g)).
    + cbn. by rewrite E.
  - intros ([id g] & Hin%list_elem_of_In%elem_of_map_to_list & Hg). cbn in Hg. rewrite lookup_fmap in Hin. destruct (D !! id) as [x|] eqn:Hx; [|done].
    injection Hin as <-. destruct (HD id x Hx) as [g' ->]. rewrite group_roundtrip in Hg. destruct (group_name g') as [w|] eqn:E; [|done].
    exists id, (group_serialize g'), (Str w). split; [done|]. split; [|done]. destruct (group_text g') as (H1 & _). by rewrite H1, E.
Qed.

(** ** The hooks *)

Section store.
Context {R : Type} `{RedisLaws R} `{JsonLaws} (crypto : option Crypto) (draw : jstring → jstring).
Hypothesis crypto_laws : ∀ c, active crypto = Some c → CryptoLaws c.
Hypothesis enough_drawn : ∀ id, length (draw id) = IV_LENGTH.

Lemma indexes_plain_users : Forall (plain [colon]) UNIQUE_FIELDS.
Proof. apply (bool_decide_unpack _). vm_compute. exact I. Qed.
Lemma indexes_plain_groups : Forall (plain [colon]) group_indexes.
Proof. apply (bool_decide_unpack _). vm_compute. exact I. Qed.

(** The models that have a value in an index. *)
Lemma find_by_field {A} (class : ModelClass A) namespace indexes v D field x (r : R) :
  Forall (plain [colon]) indexes → holds_models crypto namespace indexes v D → view r = v → field ∈ indexes → field ≠ js "id" →
  ∃ l, does (_get crypto class namespace indexes {[field := x]}) r l v ∧ NoDup l.*1 ∧
    ∀ m, m ∈ l ↔ found class D m.1 = Some m ∧ ∃ fields y, D !! m.1 = Some fields ∧ fields !! field = Some y ∧ same (toString y) (toString x) = true.
Proof.
  intros Hi HD Hv Hf Hid. destruct (get_by_indexes crypto class namespace indexes crypto_laws v D {[field := x]} r HD Hv) as (l & Hl & Hnd & Hm).
  - intros E. assert (({[field := x]} : record) !! field = None) as En by (rewrite E; apply lookup_empty). by rewrite lookup_singleton_eq in En.
  - unfold asked_id. by rewrite lookup_singleton_ne.
  - unfold unfit. rewrite map_to_list_singleton. cbn [map fst]. rewrite filter_cons, decide_False by tauto. done.
  - exists l. split; [done|]. split; [done|]. intros m. rewrite Hm. unfold answers, asked_id. rewrite lookup_singleton_ne by done.
    unfold agrees. setoid_rewrite map_Forall_singleton. split.
    + intros [? (fields & Hd & y & Hy & E)]. split; [done|]. exists fields, y. split; [done|]. split; [done|]. by apply bool_decide_eq_true.
    + intros [? (fields & y & Hd & Hy & E)]. split; [done|]. exists fields. split; [done|]. exists y. split; [done|]. by apply bool_decide_eq_true in E.
Qed.

(** Whether there is one. *)
Lemma head_taken {A} (class : ModelClass A) D field value (l : list (jstring * A)) :
  (∀ m, m ∈ l ↔ found class D m.1 = Some m ∧ ∃ fields y, D !! m.1 = Some fields ∧ fields !! field = Some y ∧ same (toString y) value = true) →
  taken_in D field value = match head l with Some _ => true | None => false end.
Proof.
  intros Hl. destruct l as [|m l]; cbn.
  - apply not_true_iff_false. rewrite taken_in_spec. intros (id & x & y & Hx & Hy & Hs).
    apply (not_elem_of_nil (id, unserialize class x)). apply Hl. cbn. unfold found. rewrite Hx. split; [done|]. by exists x, y.
  - apply taken_in_spec. destruct (proj1 (Hl m)) as (_ & fields & y & ? & ? & ?); [by left|]. by exists m.1, fields, y.
Qed.

Lemma checkUnique_law field o D (r : R) :
  holds_models crypto user_namespace UNIQUE_FIELDS (view r) D → field ∈ UNIQUE_FIELDS →
  ∃ r', _checkUnique crypto field o r = (check_in D field o, r') ∧ view r' = view r.
Proof.
  intros HD Hf. destruct o as [v|]; [|by exists r]. cbn [_checkUnique check_in].
  destruct (find_by_field user_class user_namespace UNIQUE_FIELDS (view r) D field (Str v) r) as (l & (r1 & Hrun & Hv1) & _ & Hl);
    [apply indexes_plain_users|done|done|done| |].
  { intros ->. unfold UNIQUE_FIELDS in Hf. rewrite !elem_of_cons, elem_of_nil in Hf. destruct_or!; discriminate Hf || done. }
  exists r1. split; [|done]. unfold first. rewrite (head_taken user_class D field v l) by exact Hl.
  rewrite (bind_ok _ _ r (head l) r1); [|by rewrite (bind_ok _ _ _ _ _ Hrun)]. by destruct (head l).
Qed.

Lemma user_hooks : hooks_laws crypto user_namespace UNIQUE_FIELDS (user_beforeAdd crypto) (user_beforeUpdate crypto) user_addCheck user_updateCheck.
Proof.
  split.
  - intros u D r HD. unfold user_beforeAdd, user_addCheck. assert (∀ f, f ∈ UNIQUE_FIELDS → f ∈ UNIQUE_FIELDS) as Hin by done. revert r HD Hin.
    generalize UNIQUE_FIELDS at 2 4 5 as fields. induction fields as [|f fields IH]; intros r HD Hin; [by exists r|]. cbn [for_each foldr].
    destruct (checkUnique_law f (unique_field f u) D r HD (Hin f ltac:(by left))) as (r1 & Hrun & Hv1).
    destruct (check_in D f (unique_field f u)) as [[]|e].
    + rewrite <- Hv1 in HD. destruct (IH r1 HD) as (r2 & Hrun2 & Hv2); [intros g Hg; apply Hin; by right|]. exists r2.
      rewrite (bind_ok _ _ _ _ _ Hrun). split; [exact Hrun2|congruence].
    + exists r1. rewrite (bind_throw _ _ _ _ _ Hrun). done.
  - intros u p D r HD. unfold user_beforeUpdate, user_updateCheck. assert (∀ f, f ∈ UNIQUE_FIELDS → f ∈ UNIQUE_FIELDS) as Hin by done. revert r HD Hin.
    generalize UNIQUE_FIELDS at 2 4 5 as fields. induction fields as [|f fields IH]; intros r HD Hin; [by exists r|]. cbn [for_each foldr].
    assert (∃ r1, (if decide (unique_field f u = unique_field f p) then mret tt else _checkUnique crypto f (unique_field f u)) r =
      (if decide (unique_field f u = unique_field f p) then Ok tt else check_in D f (unique_field f u), r1) ∧ view r1 = view r) as (r1 & Hrun & Hv1).
    { case_decide; [by exists r|]. apply checkUnique_law; [done|apply Hin; by left]. }
    destruct (if decide (unique_field f u = unique_field f p) then Ok tt else check_in D f (unique_field f u)) as [[]|e].
    + rewrite <- Hv1 in HD. destruct (IH r1 HD) as (r2 & Hrun2 & Hv2); [intros g Hg; apply Hin; by right|]. exists r2.
      rewrite (bind_ok _ _ _ _ _ Hrun). split; [exact Hrun2|congruence].
    + exists r1. rewrite (bind_throw _ _ _ _ _ Hrun). done.
Qed.

Lemma toString_name o : toString (name_value o) = name_text o.
Proof. by destruct o. Qed.

Lemma group_beforeAdd_law g D (r : R) :
  holds_models crypto group_namespace group_indexes (view r) D →
  ∃ r', group_beforeAdd crypto g r = (group_addCheck g D, r') ∧ view r' = view r.
Proof.
  intros HD. destruct (find_by_field group_class group_namespace group_indexes (view r) D (js "name") (name_value (group_name g)) r)
    as (l & (r1 & Hrun & Hv1) & _ & Hl); [apply indexes_plain_groups|done|done|by left|done|].
  exists r1. split; [|done]. unfold group_beforeAdd, group_addCheck, exists_model, first. rewrite toString_name in Hl.
  rewrite (head_taken group_class D (js "name") _ l Hl).
  rewrite (bind_ok _ _ r (bool_decide (is_Some (fst <$> head l))) r1).
  2:{ rewrite (bind_ok _ _ r (head l) r1); [done|]. by rewrite (bind_ok _ _ _ _ _ Hrun). }
  by destruct (head l).
Qed.

Lemma group_hooks : hooks_laws crypto group_namespace group_indexes (group_beforeAdd crypto) (group_beforeUpdate crypto) group_addCheck group_updateCheck.
Proof.
  split.
  - intros g D r. apply group_beforeAdd_law.
  - intros g p D r HD. unfold group_beforeUpdate, group_updateCheck. case_decide; [by exists r|]. by apply group_beforeAdd_law.
Qed.

(** ** The store *)

Lemma namespaces_apart k : own_key user_namespace k → own_key group_namespace k → False.
Proof.
  intros Hu Hg. assert (user_namespace = group_namespace) as E; [|discriminate E].
  apply (own_key_inj _ _ k); try done; apply (bool_decide_unpack _); vm_compute; exact I.
Qed.

(** The checks of the records are those of the users. *)
Lemma user_check_records D id u : user_records D →
  match D !! id with None => user_addCheck u D | Some p => user_updateCheck u (user_unserialize p) D end = user_check (user_unserialize <$> D) id u.
Proof.
  intros HD. unfold user_check, user_addCheck, user_updateCheck. rewrite lookup_fmap.
  assert (∀ f, f ∈ UNIQUE_FIELDS → check_in D f (unique_field f u) = checkUnique (user_unserialize <$> D) f (unique_field f u)) as Hc.
  { intros f Hf. unfold check_in, checkUnique. destruct (unique_field f u); [|done]. by rewrite taken_in_users. }
  assert (js "email" ∈ UNIQUE_FIELDS) as Ha by (by left). assert (js "username" ∈ UNIQUE_FIELDS) as Hb by (right; by left).
  destruct (D !! id); cbn [fmap option_fmap option_map check_fields check_changed foldr UNIQUE_FIELDS]; by rewrite !Hc.
Qed.

Lemma group_check_records D id g : group_records D →
  match D !! id with None => group_addCheck g D | Some p => group_updateCheck g (group_unserialize p) D end = group_check (group_unserialize <$> D) id g.
Proof.
  intros HD. unfold group_check, group_addCheck, group_updateCheck, group_addCheck. rewrite lookup_fmap, (taken_in_groups D) by done.
  by destruct (D !! id).
Qed.

(** What a write returns, and leaves. *)
Definition write_check {A} (replace : bool) (old : option A) (check : result unit) : result unit :=
  match old with Some _ => if replace then check else Throw (OtherError "this model already exists") | None => check end.

Local Abbreviation holds_both := (holds_both crypto).

Lemma plain_write {A} (class : ModelClass A) addCheck updateCheck replace input D :
  let id := in_id input in
  let c := write_check replace (D !! id)
    (match D !! id with None => addCheck (model input) D | Some p => updateCheck (model input) (unserialize class p) D end) in
  plain_add class addCheck updateCheck replace [input] D =
  match c with
  | Ok _ => (Ok [(id, unserialize class (serialize class (model input)))], <[id := serialize class (model input)]> D)
  | Throw e => (Throw e, D)
  end.
Proof.
  cbv zeta. unfold plain_add, plain_addOne, write_check. cbn [asyncMapSettled].
  destruct (D !! in_id input) as [p|]; [destruct replace|]; cbn; try done.
  - by destruct (updateCheck (model input) (unserialize class p) D).
  - by destruct (addCheck (model input) D).
Qed.

Lemma user_write_holds replace id u r U G :
  holds_both r U G → ¬ reserved id →
  match write_check replace (U !! id) (user_check U id u) with
  | Ok _ => ∃ r', user_write crypto draw replace id u r = (Ok [(id, stored_user u)], r') ∧ holds_both r' (<[id := stored_user u]> U) G
  | Throw e => ∃ r', user_write crypto draw replace id u r = (Throw e, r') ∧ holds_both r' U G
  end.
Proof.
  intros (Du & Dg & Hu & Hg & -> & -> & HDu & HDg) Hid.
  destruct (add_correct crypto user_class user_namespace UNIQUE_FIELDS crypto_laws indexes_plain_users (user_beforeAdd crypto) (user_beforeUpdate crypto)
    user_addCheck user_updateCheck user_hooks ltac:(done) (view r) replace [mkInput (Some id) [] (draw id) u] Du r) as (r' & Hrun & HDu' & Hout).
  { by split. }
  { intros i ->%list_elem_of_singleton. split; [done|apply enough_drawn]. }
  assert (represents crypto group_namespace group_indexes (view r') Dg) as Hg'.
  { apply (represents_ext crypto group_namespace group_indexes (view r)); [|done]. intros k Hk. apply Hout. intros Hk'. by apply (namespaces_apart k). }
  rewrite plain_write in Hrun, HDu'. cbn [in_id given_id model default from_option unserialize serialize user_class] in Hrun, HDu'. change (Datatypes.id id) with id in Hrun, HDu'.
  rewrite (user_check_records Du id u HDu) in Hrun, HDu'.
  assert (write_check replace ((user_unserialize <$> Du) !! id) (user_check (user_unserialize <$> Du) id u) =
    write_check replace (Du !! id) (user_check (user_unserialize <$> Du) id u)) as -> by (rewrite lookup_fmap; by destruct (Du !! id)).
  destruct (write_check replace (Du !! id) (user_check (user_unserialize <$> Du) id u)) as [[]|e]; cbn [fst snd] in Hrun, HDu'; exists r'.
  - cbn [user_class serialize unserialize] in Hrun, HDu'. rewrite user_roundtrip in Hrun. split; [exact Hrun|].
    exists (<[id := user_serialize u]> Du), Dg. split; [done|]. split; [done|]. split; [by rewrite fmap_insert, user_roundtrip|]. split; [done|].
    split; [|done]. apply map_Forall_insert_2; [by exists u|done].
  - split; [exact Hrun|]. by exists Du, Dg.
Qed.

Lemma group_write_holds replace id g r U G :
  holds_both r U G → ¬ reserved id →
  match write_check replace (G !! id) (group_check G id g) with
  | Ok _ => ∃ r', group_write crypto draw replace id g r = (Ok [(id, g)], r') ∧ holds_both r' U (<[id := g]> G)
  | Throw e => ∃ r', group_write crypto draw replace id g r = (Throw e, r') ∧ holds_both r' U G
  end.
Proof.
  intros (Du & Dg & Hu & Hg & -> & -> & HDu & HDg) Hid.
  destruct (add_correct crypto group_class group_namespace group_indexes crypto_laws indexes_plain_groups (group_beforeAdd crypto) (group_beforeUpdate crypto)
    group_addCheck group_updateCheck group_hooks ltac:(done) (view r) replace [mkInput (Some id) [] (draw id) g] Dg r) as (r' & Hrun & HDg' & Hout).
  { by split. }
  { intros i ->%list_elem_of_singleton. split; [done|apply enough_drawn]. }
  assert (represents crypto user_namespace UNIQUE_FIELDS (view r') Du) as Hu'.
  { apply (represents_ext crypto user_namespace UNIQUE_FIELDS (view r)); [|done]. intros k Hk. apply Hout. intros Hk'. by apply (namespaces_apart k). }
  rewrite plain_write in Hrun, HDg'. cbn [in_id given_id model default from_option unserialize serialize group_class] in Hrun, HDg'. change (Datatypes.id id) with id in Hrun, HDg'.
  rewrite (group_check_records Dg id g HDg) in Hrun, HDg'.
  assert (write_check replace ((group_unserialize <$> Dg) !! id) (group_check (group_unserialize <$> Dg) id g) =
    write_check replace (Dg !! id) (group_check (group_unserialize <$> Dg) id g)) as -> by (rewrite lookup_fmap; by destruct (Dg !! id)).
  destruct (write_check replace (Dg !! id) (group_check (group_unserialize <$> Dg) id g)) as [[]|e]; cbn [fst snd] in Hrun, HDg'; exists r'.
  - cbn [group_class serialize unserialize] in Hrun, HDg'. rewrite group_roundtrip in Hrun. split; [exact Hrun|].
    exists Du, (<[id := group_serialize g]> Dg). split; [done|]. split; [done|]. split; [done|]. split; [by rewrite fmap_insert, group_roundtrip|].
    split; [done|]. apply map_Forall_insert_2; [by exists g|done].
  - split; [exact Hrun|]. by exists Du, Dg.
Qed.

Local Abbreviation store := (database_store crypto draw).

(** Reading does not change what the collections hold. *)
Lemma holds_both_view r r' U G : view r' = view r → holds_both r U G → holds_both r' U G.
Proof. intros E (Du & Dg & ? & ? & ?). exists Du, Dg. by rewrite E. Qed.

Lemma found_by_id {A} (class : ModelClass A) namespace indexes D (r : R) id :
  holds_models crypto namespace indexes (view r) D → ¬ reserved id →
  ∃ r', (m ← first crypto class namespace indexes (by_id id); mret (snd <$> m)) r = (Ok (unserialize class <$> D !! id), r') ∧ view r' = view r.
Proof.
  intros HD Hid. destruct (get_by_id crypto class namespace indexes (view r) D (by_id id) id r HD eq_refl) as (l & (r1 & Hrun & Hv1) & Hnd & Hl); [|done|].
  { unfold asked_id, by_id. by rewrite lookup_singleton_eq. }
  exists r1. split; [|done]. rewrite (bind_ok _ _ r (head l) r1) by (unfold first; by rewrite (bind_ok _ _ _ _ _ Hrun)).
  unfold mret, M_ret. do 2 f_equal. unfold answers, found, asked_id, by_id in Hl. rewrite lookup_singleton_eq in Hl. cbn [toString] in Hl.
  assert (∀ m, m ∈ l ↔ m.1 = id ∧ ((λ fields, (m.1, unserialize class fields)) <$> D !! m.1) = Some m) as Hm.
  { intros m. rewrite Hl. rewrite delete_singleton_eq. tauto. }
  destruct (D !! id) as [x|] eqn:E.
  - assert ((id, unserialize class x) ∈ l) as Hin by (apply Hm; cbn; by rewrite E). destruct l as [|m l]; [by apply elem_of_nil in Hin|].
    destruct (proj1 (Hm m) ltac:(by left)) as [Hm1 Hm2]. rewrite Hm1, E in Hm2. cbn in Hm2 |- *. by injection Hm2 as <-.
  - destruct l as [|m l]; [done|]. destruct (proj1 (Hm m) ltac:(by left)) as [Hm1 Hm2]. by rewrite Hm1, E in Hm2.
Qed.

Lemma found_all {A} (class : ModelClass A) namespace indexes D (r : R) :
  represents crypto namespace indexes (view r) D →
  ∃ l r', _get crypto class namespace indexes ∅ r = (Ok l, r') ∧ view r' = view r ∧ NoDup l.*1 ∧ ∀ id x, (id, x) ∈ l ↔ (unserialize class <$> D) !! id = Some x.
Proof.
  intros HD. destruct (get_all crypto class namespace indexes (view r) D r HD eq_refl) as (l & (r1 & Hrun & Hv1) & Hnd & Hl).
  exists l, r1. split; [done|]. split; [done|]. split; [done|]. intros id x. rewrite Hl, lookup_fmap. unfold answers, found. cbn.
  destruct (D !! id) as [y|]; cbn; [|naive_solver]. split.
  - intros [E _]. by injection E as <-.
  - intros E. injection E as <-. split; [done|]. exists y. split; [done|]. apply map_Forall_empty.
Qed.

Lemma removed_user id r U G : holds_both r U G → ¬ reserved id →
  ∃ r', _remove crypto user_namespace UNIQUE_FIELDS [id] r = (Ok tt, r') ∧ holds_both r' (delete id U) G.
Proof.
  intros (Du & Dg & Hu & Hg & -> & -> & HDu & HDg) Hid.
  destruct (remove_correct crypto user_namespace UNIQUE_FIELDS crypto_laws indexes_plain_users (view r) Du [id] r) as (r' & Hrun & HDu' & Hout);
    [by split|by intros i ->%list_elem_of_singleton|].
  exists r'. split; [done|]. exists (delete id Du), Dg. split; [exact HDu'|]. split.
  - apply (represents_ext crypto group_namespace group_indexes (view r)); [|done]. intros k Hk. apply Hout. intros Hk'. by apply (namespaces_apart k).
  - split; [by rewrite fmap_delete|]. split; [done|]. split; [by apply map_Forall_delete|done].
Qed.

Lemma removed_group id r U G : holds_both r U G → ¬ reserved id →
  ∃ r', _remove crypto group_namespace group_indexes [id] r = (Ok tt, r') ∧ holds_both r' U (delete id G).
Proof.
  intros (Du & Dg & Hu & Hg & -> & -> & HDu & HDg) Hid.
  destruct (remove_correct crypto group_namespace group_indexes crypto_laws indexes_plain_groups (view r) Dg [id] r) as (r' & Hrun & HDg' & Hout);
    [by split|by intros i ->%list_elem_of_singleton|].
  exists r'. split; [done|]. exists Du, (delete id Dg). split.
  - apply (represents_ext crypto user_namespace UNIQUE_FIELDS (view r)); [|done]. intros k Hk. apply Hout. intros Hk'. by apply (namespaces_apart k).
  - split; [exact HDg'|]. split; [done|]. split; [by rewrite fmap_delete|]. split; [done|by apply map_Forall_delete].
Qed.

Lemma database_user_by_email r U G e : holds_both r U G → ∃ o r', user_by_email (Store := store) e r = (Ok o, r') ∧ holds_both r' U G ∧
  match o with
  | Some (id, u) => U !! id = Some u ∧ ∃ v, email u = Some v ∧ same v e = true
  | None => ∀ id u v, U !! id = Some u → email u = Some v → same v e = false
  end.
Proof.
  intros HS. pose proof HS as (Du & Dg & Hu & Hg & -> & -> & HDu & HDg).
  destruct (find_by_field user_class user_namespace UNIQUE_FIELDS (view r) Du (js "email") (Str e) r) as (l & (r1 & Hrun & Hv1) & _ & Hl);
    [apply indexes_plain_users|apply Hu|done|by left|done|].
  exists (head l), r1. split; [cbn; unfold first; by rewrite (bind_ok _ _ _ _ _ Hrun)|]. split; [by apply holds_both_view with r|].
  assert (∀ id u v, (user_unserialize <$> Du) !! id = Some u → email u = Some v → same v e = true → (id, u) ∈ l) as Hin.
  { intros id u v Hid He Hs. apply Hl. cbn [fst]. rewrite lookup_fmap in Hid. destruct (Du !! id) as [x|] eqn:E; [|done]. injection Hid as <-.
    split; [unfold found; by rewrite E|]. destruct (HDu id x E) as [u' ->]. rewrite user_roundtrip in He. exists (user_serialize u'), (Str v).
    split; [done|]. split; [|done]. destruct (user_text u') as (H5 & _). rewrite H5. cbn in He. by rewrite He. }
  destruct l as [|[id u] l]; cbn.
  - intros id u v Hid He. destruct (same v e) eqn:Hs; [|done]. pose proof (Hin id u v Hid He Hs) as Hn. destruct (not_elem_of_nil _ Hn).
  - destruct (proj1 (Hl (id, u)) ltac:(by left)) as [Hf (x & y & Hx & Hy & Hs)]. cbn in Hf, Hx. unfold found in Hf. rewrite Hx in Hf.
    injection Hf as <-. split; [by rewrite lookup_fmap, Hx|]. destruct (HDu id x Hx) as [u' ->]. destruct (user_text u') as (H5 & _).
    rewrite H5 in Hy. destruct (email u') as [v|] eqn:E; [|done]. injection Hy as <-. exists v. rewrite user_roundtrip. split; [exact E|exact Hs].
Qed.

Lemma database_group_by_name r U G n : holds_both r U G → ∃ l r', group_by_name (Store := store) n r = (Ok l, r') ∧ holds_both r' U G ∧
  ∀ id g, (id, g) ∈ l ↔ G !! id = Some g ∧ ∃ v, group_name g = Some v ∧ same v (name_text n) = true.
Proof.
  intros HS. pose proof HS as (Du & Dg & Hu & Hg & -> & -> & HDu & HDg).
  destruct (find_by_field group_class group_namespace group_indexes (view r) Dg (js "name") (name_value n) r) as (l & (r1 & Hrun & Hv1) & _ & Hl);
    [apply indexes_plain_groups|apply Hg|done|by left|done|].
  exists l, r1. split; [done|]. split; [by apply holds_both_view with r|]. intros id g. rewrite Hl. cbn [fst]. rewrite toString_name, lookup_fmap.
  unfold found. destruct (Dg !! id) as [x|] eqn:E; [|split; intros [E1 _]; discriminate E1]. destruct (HDg id x E) as [g' ->]. cbn [fmap option_fmap option_map group_class unserialize]. rewrite group_roundtrip.
  destruct (group_text g') as (H5 & _). split.
  - intros [Ef (y & z & Ey & Hz & Hs)]. injection Ef as <-. injection Ey as <-. split; [reflexivity|]. rewrite H5 in Hz.
    destruct (group_name g') as [v|]; [|discriminate Hz]. injection Hz as <-. exists v. split; [reflexivity|exact Hs].
  - intros [Ef (v & Hv & Hs)]. injection Ef as <-. split; [reflexivity|]. exists (group_serialize g'), (Str v). split; [reflexivity|].
    split; [rewrite H5, Hv; reflexivity|exact Hs].
Qed.

(** The database keeps what [Subjects.v] asks of its collections. *)
Lemma database_laws : @StoreLaws R store.
Proof.
  split; cbn [holds_subjects usable_id user_first user_all user_add user_update user_remove group_first group_all group_add group_update group_remove database_store].
  - intros r U G id u (Du & Dg & _ & _ & -> & _ & HDu & _) Hu. rewrite lookup_fmap in Hu. destruct (Du !! id) as [x|] eqn:E; [|discriminate Hu].
    injection Hu as <-. destruct (HDu id x E) as [u' ->]. rewrite user_roundtrip. reflexivity.
  - intros r U G id HS Hid. pose proof HS as (Du & Dg & Hu & _ & -> & _). destruct (found_by_id user_class user_namespace UNIQUE_FIELDS Du r id (rep_models _ _ _ _ _ Hu) Hid) as (r' & Hrun & Hv).
    exists r'. rewrite lookup_fmap. exact (conj Hrun (holds_both_view _ _ _ _ Hv HS)).
  - intros r U G e HS. destruct (database_user_by_email r U G e HS) as (o & r' & Hrun & HS' & Ho). exists o. exact (conj (ex_intro _ r' (conj Hrun HS')) Ho).
  - intros r U G HS. pose proof HS as (Du & Dg & Hu & _ & -> & _). destruct (found_all user_class user_namespace UNIQUE_FIELDS Du r Hu) as (l & r' & Hrun & Hv & Hnd & Hl).
    exists l. exact (conj (ex_intro _ r' (conj Hrun (holds_both_view _ _ _ _ Hv HS))) (conj Hnd Hl)).
  - intros r U G id (Du & Dg & Hu & _ & -> & _) Hid. rewrite lookup_fmap, fmap_is_Some in Hid. by apply Hu.
  - intros r U G id (Du & Dg & _ & Hg & _ & -> & _) Hid. rewrite lookup_fmap, fmap_is_Some in Hid. by apply Hg.
  - intros r U G id u HS Hid [x Hx]. pose proof (user_write_holds false id u r U G HS Hid) as Hw. rewrite Hx in Hw. destruct Hw as (r' & Hrun & HS').
    exists r'. exact (conj (bind_throw _ _ _ _ _ Hrun) HS').
  - intros r U G id g HS Hid [x Hx]. pose proof (group_write_holds false id g r U G HS Hid) as Hw. rewrite Hx in Hw. destruct Hw as (r' & Hrun & HS').
    exists r'. exact (conj (bind_throw _ _ _ _ _ Hrun) HS').
  - intros r U G id u HS Hid Hx. pose proof (user_write_holds false id u r U G HS Hid) as Hw. rewrite Hx in Hw. cbn [write_check] in Hw.
    destruct (user_check U id u) as [[]|e]; destruct Hw as (r' & Hrun & HS'); exists r'; (split; [|exact HS']).
    + unfold first_written. by rewrite (bind_ok _ _ _ _ _ Hrun).
    + exact (bind_throw _ _ _ _ _ Hrun).
  - intros r U G id u HS Hid. pose proof (user_write_holds true id u r U G HS Hid) as Hw.
    assert (write_check true (U !! id) (user_check U id u) = user_check U id u) as E by (by destruct (U !! id)). rewrite E in Hw.
    destruct (user_check U id u) as [[]|e]; destruct Hw as (r' & Hrun & HS'); exists r'; (split; [|exact HS']).
    + by rewrite (bind_ok _ _ _ _ _ Hrun).
    + exact (bind_throw _ _ _ _ _ Hrun).
  - intros r U G id HS Hid. exact (removed_user id r U G HS Hid).
  - intros r U G id HS Hid. pose proof HS as (Du & Dg & _ & Hg & _ & -> & _). destruct (found_by_id group_class group_namespace group_indexes Dg r id (rep_models _ _ _ _ _ Hg) Hid) as (r' & Hrun & Hv).
    exists r'. rewrite lookup_fmap. exact (conj Hrun (holds_both_view _ _ _ _ Hv HS)).
  - intros r U G n HS. destruct (database_group_by_name r U G n HS) as (l & r' & Hrun & HS' & Hl). exists l. exact (conj (ex_intro _ r' (conj Hrun HS')) Hl).
  - intros r U G HS. pose proof HS as (Du & Dg & _ & Hg & _ & -> & _). destruct (found_all group_class group_namespace group_indexes Dg r Hg) as (l & r' & Hrun & Hv & Hnd & Hl).
    exists l. exact (conj (ex_intro _ r' (conj Hrun (holds_both_view _ _ _ _ Hv HS))) (conj Hnd Hl)).
  - intros r U G id g HS Hid Hx. pose proof (group_write_holds false id g r U G HS Hid) as Hw. rewrite Hx in Hw. cbn [write_check] in Hw.
    destruct (group_check G id g) as [[]|e]; destruct Hw as (r' & Hrun & HS'); exists r'; (split; [|exact HS']).
    + unfold first_written. by rewrite (bind_ok _ _ _ _ _ Hrun).
    + exact (bind_throw _ _ _ _ _ Hrun).
  - intros r U G id g HS Hid. pose proof (group_write_holds true id g r U G HS Hid) as Hw.
    assert (write_check true (G !! id) (group_check G id g) = group_check G id g) as E by (by destruct (G !! id)). rewrite E in Hw.
    destruct (group_check G id g) as [[]|e]; destruct Hw as (r' & Hrun & HS'); exists r'; (split; [|exact HS']).
    + by rewrite (bind_ok _ _ _ _ _ Hrun).
    + exact (bind_throw _ _ _ _ _ Hrun).
  - intros r U G id HS Hid. exact (removed_group id r U G HS Hid).
Qed.
End store.
End facts.

(** ** Property *)

(** C16: Users and groups whose operations run over the two collections of the database,
    which check an address or a name by a query of their indexes, stay sound in any sequence
    of operations, and what ends in the database is what they say.  As for
    [subjects_stay_sound], the operations come one after the other, with usable
    identifiers, users created in no group and the users of a group given once; a user that
    is created with both a password and providers keeps both. *)
Theorem accounts_in_database {R} `{RedisLaws R} `{JsonLaws} `{SubjectJsonLaws} crypto draw hash verify needsRehash apiUser roleIds
    mergeProvidersUsers createUserOnFirstSignin ops (r : R) U G :
  (∀ c, active crypto = Some c → CryptoLaws c) → (∀ id, length (draw id) = IV_LENGTH) →
  holds_both crypto r U G → sound U G → Forall (allowed_op (H := database_store crypto draw)) ops →
  ∃ r' U' G',
    run_ops (H := database_store crypto draw) hash verify needsRehash apiUser roleIds mergeProvidersUsers createUserOnFirstSignin ops r =
      (Ok tt, r') ∧
    holds_both crypto r' U' G' ∧ sound_but (created_with_both ops) U' G'.
Proof.
  intros Hc Hd HS HI Hops.
  destruct (run_ops_from_sound (H := database_store crypto draw) (H0 := database_laws crypto draw Hc Hd) hash verify needsRehash
    apiUser roleIds mergeProvidersUsers createUserOnFirstSignin ops r U G HS HI Hops) as (U' & G' & (r' & Hrun & HS') & HI').
  exists r', U', G'. exact (conj Hrun (conj HS' HI')).
Qed.

(** ** Witness *)

#[export] Instance provider_countable : Countable Provider.
Proof. apply (inj_countable' (λ p, (provider_id p, provider_data p)) (λ x, mkProvider x.1 x.2)). by intros []. Defined.

(** As for the records, the digits of a code. *)
Definition code_text {A} `{Countable A} (x : A) : jstring := Z_digits (Zpos (encode x)).
Definition code_parse {A} `{Countable A} (text : jstring) : option A := n ← read_digits 10 text; decode (Z.to_pos n).
Lemma code_law {A} `{Countable A} (x : A) : code_parse (code_text x) = Some x ∧ code_text x ≠ [].
Proof.
  unfold code_parse, code_text. rewrite read_digits_Z_digits by lia. cbn [mbind option_bind Z.to_pos]. split; [apply decode_encode|].
  intros E. pose proof (read_digits_Z_digits (Zpos (encode x)) ltac:(lia)) as Hd. rewrite E in Hd. discriminate Hd.
Qed.

#[export] Instance digits_subjects : SubjectJson := {
  ids_text := code_text; ids_parse := code_parse; providers_text := code_text; providers_parse := code_parse;
  preferences_text := code_text; preferences_parse := code_parse;
}.
#[export] Instance digits_subjects_laws : SubjectJsonLaws.
Proof. split; intros x; apply code_law. Qed.

Definition sample_draw (id : jstring) : jstring := js "0123456789ab".
Definition run_in_database (ops : list Op) : keyspace :=
  (run_ops (H := database_store (Some sample_crypto) sample_draw) sample_hash sample_verify (λ _, false) None (λ _, []) false true ops ∅).2.

Definition database_ops : list Op := [create "u1" "Bob"; create "u2" "BOB"; CreateGroup g1 (Some (js "admins")) None None; SetGroupUsers g1 [u1]].

(** The second user is refused: its name is the first's. The values in the indexes are
    their codes, here after a letter. *)
Example sample_database :
  let v := run_in_database database_ops in
  (elements (members v (js "xo:user_ids")), elements (members v (js "xo:user_email:hbob")), elements (members v (js "xo:group_name:hadmins"))) =
  ([u1], [u1], [g1]).
Proof. vm_compute. reflexivity. Qed.

Lemma nothing_in_database : holds_both (Some sample_crypto) (∅ : keyspace) ∅ ∅.
Proof.
  exists ∅, ∅. split; [apply represents_nothing|]. split; [apply represents_nothing|]. split; [by rewrite fmap_empty|].
  split; [by rewrite fmap_empty|]. split; apply map_Forall_empty.
Qed.

Lemma usable_u1 : ¬ reserved u1.
Proof. intros [E|E]; discriminate E. Qed.
Lemma usable_u2 : ¬ reserved (js "u2").
Proof. intros [E|E]; discriminate E. Qed.
Lemma usable_g1 : ¬ reserved g1.
Proof. intros [E|E]; discriminate E. Qed.

Lemma accounts_in_database_witness : ∃ r' U' G',
  run_ops (H := database_store (Some sample_crypto) sample_draw) sample_hash sample_verify (λ _, false) None (λ _, []) false true
    database_ops ∅ = (Ok tt, r') ∧
  holds_both (Some sample_crypto) (r' : keyspace) U' G' ∧ sound_but (created_with_both database_ops) U' G'.
Proof.
  apply (accounts_in_database (Some sample_crypto) sample_draw sample_hash sample_verify (λ _, false) None (λ _, []) false true database_ops ∅ ∅ ∅).
  - intros c E. injection E as <-. exact sample_crypto_laws.
  - intros id. reflexivity.
  - exact nothing_in_database.
  - exact sound_nothing.
  - unfold database_ops, create.
    repeat (apply Forall_cons; split); try apply Forall_nil; cbn [allowed_op usable_id database_store].
    + exact (conj usable_u1 eq_refl).
    + exact (conj usable_u2 eq_refl).
    + exact usable_g1.
    + split; [exact usable_g1|]. split; [intros id ->%list_elem_of_singleton; exact usable_u1|apply NoDup_singleton].
    + exact I.
Defined.
